(* ===== verification/_CoqProject ===== *)
-Q . S2P
Prelude.v
Opcode.v
Instruction.v
FunctionBuilder.v
ProgramBuilder.v
Doubles.v
ConstFold.v
CfgSimplify.v
CfgMerge.v
CfgOutput.v
Build.v
ColumnIndexBucket.v
BucketBatches.v
ArtNode.v
TupleIdxTable.v
SkinnerState.v
SkinnerExec.v
SkinnerScan.v
SkinnerEpisode.v
SkinnerJoin.v
SkinnerUct.v
LiveInterval.v
LinearScan.v
Operands.v
Liveness.v
LiveIntervals.v
RegAlloc.v
CallSequence.v
Utilities.v
Dominators.v
Loops.v
AsmBlocks.v
Date.v
SqlValue.v
Struct.v
Aggregator.v
Expression.v
Vector.v
Pipeline.v
RowBuffer.v
OrderBy.v
HashTable.v
Joins.v
Plan.v
EarlyProjection.v
Planner.v
PlannerSound.v
LinearProbe.v
ByteFile.v
ColumnData.v
Enum.v
EnumPlan.v
WhereMeaning.v
ColumnIndex.v
AggregateHashTable.v
PayloadLayout.v
AggregateProbe.v
GroupBy.v
Scan.v
SimdScan.v
Aggregate.v
