(* ===== verification/Prelude.v ===== *)
(** * KushDB: a verification development

    KushDB (src/) is a query engine that compiles SQL plans to machine code.
    A plan is translated by the operator translators (src/compile) into KHIR, an
    SSA intermediate representation built with [ProgramBuilder] (src/khir); the
    finished program goes to the LLVM or the x86 backend; generated code calls
    the runtime library (src/runtime) for tables, hash tables, indexes and the
    adaptive Skinner join.  The development models the parts that carry the
    engine's own logic and proves what makes them correct.

    ** Conventions

    Every C++ function is a function on explicit state.  A call returns [Res]:
    [Ok], [Throw] (a C++ exception), [UB] (an access C++ leaves undefined) or
    [NoFuel] (a fuel argument ran out, no outcome of the code).  Machine
    integers are integers of type [Z] with their wrap-around written out where it
    can happen; vectors are lists read and written through [vec_at] and
    [vec_set], which are undefined out of range; hash maps and sets are stdpp's
    [gmap] and [gset]; doubles are the standard library's [spec_float].
    Definitions keep the names of the source.  Code outside src/ (LLVM's types,
    the values of compiled expressions) is an argument.

    ** Intermediate representation (src/khir)

    - Opcode, Instruction: opcode.h/.cc, instruction.cc, value.cc.  Builders
      and readers of the instruction words are inverse to each other.
    - FunctionBuilder: the builder of one function; in every reachable state the
      blocks, their edges and the block order are consistent.
    - ProgramBuilder: every method of program_builder.cc.
    - Doubles, ConstFold: the meaning of integer code, read off llvm_backend.cc; a
      method that folds, swaps or emits yields a value with the meaning of its
      operation.
    - CfgSimplify, CfgMerge, CfgOutput: cfg_simplify.cc; dropping blocks,
      merging maximal chains, rewriting phis in every operand and renumbering.
    - Build: [ProgramBuilder::Build], composed from the above, with every pool.

    ** Machine code (src/khir/asm)

    - Dominators, Loops: dominators.cc and loops.cc; the iterative algorithm ends
      with the dominator tree on every graph, and the depth of a block is the
      number of natural loops around it.
    - LiveInterval, Operands, Liveness, LiveIntervals: register.cc,
      materialize_gep.cc and live_intervals.cc; liveness is exact, and the
      intervals cover it.
    - LinearScan, RegAlloc: both register allocators; values live at the same point
      never share a register, and the scratch register of a store is none of theirs,
      on code in the form [code_ok] describes.
    - CallSequence: the moves in front of a call deliver the arguments (integers and
      pointers; doubles can overwrite each other).
    - AsmBlocks: the code of branches, the order of the blocks (dfs_label.cc) and
      the stack frame of asm_backend.cc.

    ** Values and expressions (src/plan/expression, src/compile)

    - Date: date.cc, dates as day numbers and back.
    - SqlValue: sql_type.h, the typed values with nulls of compile/proxy/value and
      their operations in evaluate.cc; string.cc.
    - Struct: struct.cc, rows in memory.
    - Expression: the expressions of plans with their types, and what
      expression_translator.cc generates for them; a translated expression has its
      type, and a filter accepts what its meaning accepts.
    - Aggregator: the four aggregators of aggregator.cc; run over a column they
      return what SQL asks of the aggregate (but for a null first value of COUNT).

    ** Operators (src/compile/translators)

    - Pipeline: pipeline.cc and executable_query.cc; a pipeline runs after those it
      depends on, every tuple is in one chunk, a buffer lives until its last user
      has run.
    - Scan, SimdScan: scan_translator.cc, scan_select_translator.cc,
      simd_scan_select_translator.cc with the columns on disk they read; each emits
      what filtering the rows of the table gives (the vectorised one where the columns
      with filters hold no nulls).
    - Vector, RowBuffer, OrderBy: vector.cc and order_by_translator.cc; the output is
      sorted and stable.
    - HashTable, Joins: hash_table.cc, select_translator.cc,
      cross_product_translator.cc and hash_join_translator.cc; the hash join is a
      nested-loop join.
    - AggregateHashTable, PayloadLayout, AggregateProbe, GroupBy: the runtime table of
      aggregate_hash_table.cc, the code generated for it and
      group_by_aggregate_translator.cc; every group once, with the aggregates of its
      rows, for up to one chunk of groups or where pages divide chunks.  LinearProbe is the probing invariant the tables share.
    - Aggregate: aggregate_translator.cc, aggregation without groups.

    ** Plans (src/plan, src/parse)

    - Plan, EarlyProjection: the operators with their schemas, what a plan computes,
      and the passes that rewrite plans; they keep what a plan computes.
    - Planner, PlannerSound: planner.cc from the parse tree to the plan; the plan
      computes the aggregates over the rows the planned condition accepts.
    - EnumPlan: conditions over enums compare keys.
    - WhereMeaning: what a statement means, defined on the parse tree by the names of
      tables and columns; the plan computes the aggregates over the rows for which the
      condition is true.  [LIKE] (like_behaviour of PlannerSound says what its patterns
      accept) and connectives below [NOT] are outside.

    ** Files and utilities (src/runtime, src/util)

    - ByteFile, ColumnData, Enum, ColumnIndex: column_data.cc, enum.cc and
      column_index.cc, byte by byte; what is written is read back.
    - Utilities: union_find.cc, permute.cc and allocator.cc.

    ** Tables of the Skinner join (src/runtime)

    - ColumnIndexBucket: column_index_bucket.cc; binary search and the resumable
      intersection of buckets against list intersection.
    - BucketBatches: reading an intersection call after call enumerates it in batches,
      exactly with up to two buckets, with the last tuple of a full batch perhaps once
      more with three.
    - ArtNode, TupleIdxTable: the adaptive radix tree of tuple_idx_table/, which
      refines a set of tuples; iteration enumerates it in key order.

    ** Skinner join (src/runtime/skinner_join_executor.cc)

    - SkinnerState: [JoinState], the recorded progress of all join orders.
    - SkinnerExec: the join environment and the table functions the permutable
      translator generates (src/compile/translators), which scan a table or look its
      tuples up in column indexes.  The tuple index table is used through the
      interface [TupleSet]; the predicates and the buckets an index gives for them
      are an argument ([JoinCode]).
    - SkinnerScan: what the table functions do with a budget.
    - SkinnerEpisode: one episode, [Execute].
    - SkinnerJoin: the main loop.  It ends and emits exactly the tuples of a
      nested-loop join, for every strategy of picking join orders; TupleIdxTable
      discharges [TupleSet].
    - SkinnerUct: the agent of the source, one such strategy.

    ** How the parts meet

    What a plan computes is [Plan.denote].  The planner's theorem says that the plan
    has the meaning of the statement; the theorems about operators say that what
    their generated code emits is [denote] of the operator, given the rows of its
    children.  The generated code is given by what it computes: its emission is
    calls of [ProgramBuilder], whose theorems (ConstFold, CfgOutput, Build) say that
    the program handed to the backend means what the calls say; RegAlloc,
    CallSequence and AsmBlocks are about the machine code of such a program.
    Interfaces between parts are classes: [TupleSet] (the join and the radix tree),
    [JoinEnvironment] (the agent and the join), [EnumKeys] (the planner and the
    enum files), [EntryLayout] (index chains and their entries), [TypeManagerOps]
    (the builder and LLVM's types).

    ** Bounds and fuel

    Loops that are not structurally recursive take fuel, and the theorems about
    them give a bound that is enough: the height of the key for tree insertion,
    the number of blocks for the simplifier, the depth-first searches and the
    breadth-first search of loops, the number of blocks and two for the rounds of
    dominators, the length of the parents for union-find, the number of block and
    value pairs for liveness, the number of tables for the table functions, the
    number of (order, combination) pairs for the join, the capacity and one for
    linear probing, the block size and one for the loops over pages, the sizes
    of the buckets and two for the batches of an intersection, the length of the file
    and one for index chains, the number of elements and one for loops over
    vectors and buckets, the tuples of the chunk and one for loops over tuples.
    Sizes are bounded where 32-bit counters need it: an input has at most
    [2 ^ 31 - CHUNK_SIZE] tuples, an agent acts fewer than [2 ^ 31] times.

    ** Not modelled

    Emission of LLVM IR and of the x86 instructions other than branches, calls,
    prologue and layout is asmjit's and LLVM's; the types of KHIR rest on LLVM's data
    layout.  Printers, file access, the flags that pick a backend and the query
    runner are input and output.  The parse trees come from the vendored parser
    through src/parse/transform.  The translators of the hybrid and recompiling
    Skinner joins generate the table functions of the permutable one as separate
    programs for each order and run a compiler inside the join; the set-up code of
    the permutable translator, which declares the arrays its functions share, and the
    index in memory, a copy of the aggregate hash table with buckets as payloads, are
    not modelled.  The output translator prints.  Buffers that are regenerated for
    another program, the factory of translators, the compilation cache, the
    catalog's files, the tests and the benchmarks are left out. *)
From Stdlib Require Export Btauto.
From stdpp Require Export prelude list gmap strings numbers.

#[export] Set Default Goal Selector "!".

Declare Scope kush_scope.
Delimit Scope kush_scope with kush.
Open Scope kush_scope.
Open Scope Z_scope.

Create HintDb kush.

(** ** Outcomes of a C++ call

    [Ok] is a normal return, [Throw] a C++ exception with its message, and
    [UB] an access the C++ standard leaves undefined (reading a vector out of
    range, dereferencing null).  [NoFuel] is no outcome of the code: a loop
    that is not structurally recursive takes a fuel argument and answers
    [NoFuel] when it is exhausted. *)
Inductive Res (A : Type) : Type :=
| Ok (a : A)
| Throw (msg : string)
| UB
| NoFuel.
Arguments Ok {A} _.
Arguments Throw {A} _.
Arguments UB {A}.
Arguments NoFuel {A}.

#[export] Instance Res_ret : MRet Res := fun _ a => Ok a.
#[export] Instance Res_bind : MBind Res := fun _ _ f m =>
  match m with Ok a => f a | Throw e => Throw e | UB => UB | NoFuel => NoFuel end.
#[export] Instance Res_fmap : FMap Res := fun _ _ f m =>
  match m with Ok a => Ok (f a) | Throw e => Throw e | UB => UB | NoFuel => NoFuel end.

(** [opt_ub o]: the value of [o], undefined behaviour when there is none. *)
Definition opt_ub {A} (o : option A) : Res A :=
  match o with Some a => Ok a | None => UB end.

Lemma bind_Ok {A B} (m : Res A) (f : A -> Res B) b :
  (m ≫= f) = Ok b <-> exists a, m = Ok a /\ f a = Ok b.
Proof.
  destruct m; cbn; split; intros H; try done; [eauto|..];
    by destruct H as (? & [=] & ?); subst.
Qed.

Lemma opt_ub_Ok {A} (o : option A) a : opt_ub o = Ok a <-> o = Some a.
Proof. destruct o; cbn; naive_solver. Qed.

(** Decomposes every hypothesis stating that a monadic computation returned
    normally. *)
Ltac ok_inv :=
  repeat match goal with
  | H : (_ ≫= _) = Ok _ |- _ => apply bind_Ok in H as (? & ? & H)
  | H : opt_ub _ = Ok _ |- _ => apply opt_ub_Ok in H
  | H : mret _ = Ok _ |- _ => unfold mret, Res_ret in H
  | H : Ok _ = Ok _ |- _ => injection H as H
  | H : Throw _ = Ok _ |- _ => discriminate H
  | H : UB = Ok _ |- _ => discriminate H
  | H : NoFuel = Ok _ |- _ => discriminate H
  end.

(** Splits the pairs a monadic pattern binds, then goes on. *)
Ltac ok_pairs :=
  repeat (match goal with p : (_ * _)%type |- _ => destruct p end; ok_inv).

(** ** Machine integers

    A w-bit integer is a [Z]; conversions are written out.  [uw w] is the
    conversion to an unsigned w-bit type (reduction modulo 2^w), [sw w] the
    conversion to the signed two's-complement type. *)
Definition uw (w x : Z) : Z := x mod 2 ^ w.
Definition sw (w x : Z) : Z :=
  let y := x mod 2 ^ w in if y <? 2 ^ (w - 1) then y else y - 2 ^ w.

Abbreviation u8 := (uw 8).
Abbreviation u16 := (uw 16).
Abbreviation u32 := (uw 32).
Abbreviation u64 := (uw 64).
Abbreviation i8 := (sw 8).
Abbreviation i16 := (sw 16).
Abbreviation i32 := (sw 32).
Abbreviation i64 := (sw 64).

Definition INT32_MAX : Z := 2147483647.
Definition UINT32_MAX : Z := 4294967295.

(** The values of the unsigned and the signed w-bit type. *)
Definition is_uw (w x : Z) : Prop := 0 <= x < 2 ^ w.
Definition is_sw (w x : Z) : Prop := - 2 ^ (w - 1) <= x < 2 ^ (w - 1).

Lemma uw_range w x : 0 <= w -> is_uw w (uw w x).
Proof. intros. apply Z.mod_pos_bound, Z.pow_pos_nonneg; lia. Qed.

Lemma uw_id w x : is_uw w x -> uw w x = x.
Proof. intros. by apply Z.mod_small. Qed.

Lemma uw_idemp w x : uw w (uw w x) = uw w x.
Proof. unfold uw. by rewrite Zmod_mod. Qed.

Lemma uw_land w x : 0 <= w -> uw w x = Z.land x (Z.ones w).
Proof. intros. by rewrite Z.land_ones. Qed.

Lemma pow2_half w : 0 < w -> 2 ^ w = 2 * 2 ^ (w - 1).
Proof. intros. rewrite <- Z.pow_succ_r by lia. f_equal; lia. Qed.

Lemma sw_range w x : 0 < w -> is_sw w (sw w x).
Proof.
  intros. unfold is_sw, sw. pose proof (pow2_half w ltac:(lia)).
  pose proof (Z.mod_pos_bound x (2 ^ w) ltac:(lia)).
  destruct (Z.ltb_spec (x mod 2 ^ w) (2 ^ (w - 1))); lia.
Qed.

Lemma sw_id w x : 0 < w -> is_sw w x -> sw w x = x.
Proof.
  unfold is_sw, sw. intros Hw Hx. pose proof (pow2_half w ltac:(lia)).
  destruct (decide (0 <= x)).
  - rewrite Z.mod_small by lia. destruct (Z.ltb_spec x (2 ^ (w - 1))); lia.
  - replace (x mod 2 ^ w) with (x + 2 ^ w).
    + destruct (Z.ltb_spec (x + 2 ^ w) (2 ^ (w - 1))); lia.
    + apply (Z.mod_unique_pos _ _ (-1)); lia.
Qed.

(** Signed and unsigned conversions agree modulo 2^w. *)
Lemma uw_sw w x : 0 < w -> uw w (sw w x) = uw w x.
Proof.
  intros. unfold uw, sw.
  destruct (Z.ltb_spec (x mod 2 ^ w) (2 ^ (w - 1))); [by rewrite Zmod_mod|].
  replace (x mod 2 ^ w - 2 ^ w) with (x mod 2 ^ w + (-1) * 2 ^ w) by lia.
  by rewrite Z_mod_plus_full, Zmod_mod.
Qed.

Lemma sw_uw w x : sw w (uw w x) = sw w x.
Proof. unfold sw, uw. by rewrite Zmod_mod. Qed.

Lemma uw_add w x y : uw w (uw w x + uw w y) = uw w (x + y).
Proof. unfold uw. by rewrite <- Zplus_mod. Qed.
Lemma uw_sub w x y : uw w (uw w x - uw w y) = uw w (x - y).
Proof. unfold uw. by rewrite <- Zminus_mod. Qed.
Lemma uw_mul w x y : uw w (uw w x * uw w y) = uw w (x * y).
Proof. unfold uw. by rewrite <- Zmult_mod. Qed.

#[export] Hint Resolve uw_range sw_range : kush.

(** A signed w-bit C++ result: overflow is undefined. *)
Definition signed_result (w x : Z) : Res Z :=
  if (- 2 ^ (w - 1) <=? x) && (x <? 2 ^ (w - 1)) then Ok x else UB.

Lemma signed_result_id w x : is_sw w x -> signed_result w x = Ok x.
Proof.
  intros [? ?]. unfold signed_result.
  by rewrite (proj2 (Z.leb_le _ _)), (proj2 (Z.ltb_lt _ _)) by lia.
Qed.
Lemma signed_result_Ok w x z : signed_result w x = Ok z -> z = x.
Proof. unfold signed_result. case_match; by intros [= ->]. Qed.

(** ** std::vector

    [vec_at] and [vec_set] are [operator[]] as a read and as a write: undefined
    outside [0, size). *)
Definition vec_at {A} (l : list A) (i : Z) : Res A :=
  if i <? 0 then UB else opt_ub (l !! Z.to_nat i).

Definition vec_set {A} (l : list A) (i : Z) (a : A) : Res (list A) :=
  if (i <? 0) || (Z.of_nat (length l) <=? i) then UB else Ok (<[Z.to_nat i := a]> l).

Definition vec_size {A} (l : list A) : Z := Z.of_nat (length l).

Lemma vec_at_Ok {A} (l : list A) i a :
  vec_at l i = Ok a <-> 0 <= i /\ l !! Z.to_nat i = Some a.
Proof.
  unfold vec_at. destruct (Z.ltb_spec i 0).
  - split; [done|]. lia.
  - rewrite opt_ub_Ok. naive_solver.
Qed.

Lemma vec_set_Ok {A} (l : list A) i a l' :
  vec_set l i a = Ok l' <-> 0 <= i < vec_size l /\ l' = <[Z.to_nat i := a]> l.
Proof.
  unfold vec_set, vec_size.
  destruct (Z.ltb_spec i 0), (Z.leb_spec (Z.of_nat (length l)) i); cbn;
    split; intros H'; try (injection H' as <-); try done; try lia.
  destruct H' as [_ ->]. done.
Qed.

Lemma vec_at_nat {A} (l : list A) n a :
  l !! n = Some a -> vec_at l (Z.of_nat n) = Ok a.
Proof. intros. apply vec_at_Ok. split; [lia|]. by rewrite Nat2Z.id. Qed.

Lemma vec_set_lookup {A} (l : list A) i (a b : A) :
  0 <= i -> l !! Z.to_nat i = Some b -> vec_set l i a = Ok (<[Z.to_nat i := a]> l).
Proof.
  intros ? Hl%lookup_lt_Some. apply vec_set_Ok. unfold vec_size. split; [lia|done].
Qed.

Lemma vec_at_range {A} (l : list A) i a : vec_at l i = Ok a -> 0 <= i < vec_size l.
Proof. intros [? H%lookup_lt_Some]%vec_at_Ok. unfold vec_size. lia. Qed.

Lemma vec_at_insert {A} (l : list A) i a j : 0 <= i < vec_size l ->
  vec_at (<[Z.to_nat i := a]> l) j = if decide (j = i) then Ok a else vec_at l j.
Proof.
  unfold vec_size, vec_at. intros Hi. case_decide as Hj.
  - subst. rewrite (proj2 (Z.ltb_ge i 0)) by lia. by rewrite list_lookup_insert_eq by lia.
  - destruct (Z.ltb_spec j 0); [done|]. by rewrite list_lookup_insert_ne by lia.
Qed.

(** ** Filtered lists *)
Lemma list_filter_all {A} (P : A -> Prop) `{!forall x, Decision (P x)} (l : list A) :
  (forall x, x ∈ l -> P x) -> filter P l = l.
Proof.
  induction l as [|a l IH]; intros Hl; [done|].
  rewrite filter_cons_True by (apply Hl; by left). f_equal. apply IH. intros x ?.
  apply Hl. by right.
Qed.

Lemma list_filter_none {A} (P : A -> Prop) `{!forall x, Decision (P x)} (l : list A) :
  (forall x, x ∈ l -> ~ P x) -> filter P l = [].
Proof.
  induction l as [|a l IH]; intros Hl; [done|].
  rewrite filter_cons_False by (apply Hl; by left). apply IH. intros x ?. apply Hl. by right.
Qed.

Lemma list_filter_ext {A} (P Q : A -> Prop) `{!forall x, Decision (P x)}
    `{!forall x, Decision (Q x)} (l : list A) :
  (forall x, x ∈ l -> P x <-> Q x) -> filter P l = filter Q l.
Proof.
  induction l as [|a l IH]; intros Hl; [done|].
  assert (filter P l = filter Q l) as E by (apply IH; intros; apply Hl; by right).
  pose proof (Hl a ltac:(by left)). rewrite !filter_cons, E. repeat case_decide; tauto.
Qed.

Lemma forallb_elem {A} (f : A -> bool) l :
  forallb f l = true <-> forall x, x ∈ l -> f x = true.
Proof.
  rewrite List.forallb_forall. split; intros H x Hx; apply H; by apply list_elem_of_In.
Qed.

(** Writing the first free cell of an array. *)
Lemma take_insert_snoc {A} (l : list A) n x : (n < length l)%nat ->
  take (S n) (<[n := x]> l) = take n l ++ [x].
Proof.
  intros. rewrite (take_S_r _ _ x) by (by apply list_lookup_insert_eq).
  by rewrite take_insert_ge.
Qed.

(** A loop over a range that threads a value through fallible steps. *)
Fixpoint foldM {A S} (f : S -> A -> Res S) (s : S) (l : list A) : Res S :=
  match l with
  | [] => Ok s
  | a :: l => s ← f s a; foldM f s l
  end.

Lemma foldM_app {A S} (f : S -> A -> Res S) s l1 l2 :
  foldM f s (l1 ++ l2) = (s' ← foldM f s l1; foldM f s' l2).
Proof.
  revert s. induction l1 as [|a l1 IH]; intros s; cbn; [done|].
  destruct (f s a); cbn; [apply IH|done..].
Qed.

(** A loop with an invariant over the part of the list it has done. *)
Lemma foldM_prefix {A S} (f : S -> A -> Res S) (Inv : list A -> S -> Prop) l s :
  (forall done a rest s, l = done ++ a :: rest -> Inv done s -> exists s', f s a = Ok s' /\ Inv (done ++ [a]) s') ->
  Inv [] s -> exists s', foldM f s l = Ok s' /\ Inv l s'.
Proof.
  revert Inv s. induction l as [|a l IH]; intros Inv s Hstep Hs; cbn; [by exists s|].
  destruct (Hstep [] a l s eq_refl Hs) as (s1 & -> & Hs1). cbn.
  apply (IH (fun done => Inv (a :: done))); [|done].
  intros done b rest s2 -> H2. by apply (Hstep (a :: done) b rest).
Qed.
