(* ===== verification/Opcode.v ===== *)
(** * KHIR opcodes

    The two opcode enumerations of the intermediate representation and their
    one-byte encodings (src/khir/opcode.h, src/khir/opcode.cc). *)
From S2P Require Import Prelude.

(** The [ConstantOpcode] enumeration; every name carries the prefix [C_]. *)
Inductive ConstantOpcode : Set :=
  | C_I1_CONST | C_I8_CONST | C_I16_CONST | C_I32_CONST | C_I64_CONST | C_F64_CONST
  | C_I32_VEC4_CONST_4 | C_I32_VEC8_CONST_1 | C_I32_VEC8_CONST_8
  | C_GLOBAL_CHAR_ARRAY_CONST | C_STRUCT_CONST | C_ARRAY_CONST | C_NULLPTR
  | C_GLOBAL_REF | C_FUNC_PTR | C_PTR_CONST | C_PTR_CAST.

Definition all_ConstantOpcodes : list ConstantOpcode :=
  [C_I1_CONST; C_I8_CONST; C_I16_CONST; C_I32_CONST; C_I64_CONST; C_F64_CONST;
   C_I32_VEC4_CONST_4; C_I32_VEC8_CONST_1; C_I32_VEC8_CONST_8;
   C_GLOBAL_CHAR_ARRAY_CONST; C_STRUCT_CONST; C_ARRAY_CONST; C_NULLPTR; C_GLOBAL_REF;
   C_FUNC_PTR; C_PTR_CONST; C_PTR_CAST].

(** [ConstantOpcodeTo]: [static_cast<uint8_t>(opcode)], the position in the enumeration. *)
Definition ConstantOpcodeTo (o : ConstantOpcode) : Z :=
  match o with
  | C_I1_CONST => 0 | C_I8_CONST => 1 | C_I16_CONST => 2 | C_I32_CONST => 3
  | C_I64_CONST => 4 | C_F64_CONST => 5 | C_I32_VEC4_CONST_4 => 6
  | C_I32_VEC8_CONST_1 => 7 | C_I32_VEC8_CONST_8 => 8 | C_GLOBAL_CHAR_ARRAY_CONST => 9
  | C_STRUCT_CONST => 10 | C_ARRAY_CONST => 11 | C_NULLPTR => 12 | C_GLOBAL_REF => 13
  | C_FUNC_PTR => 14 | C_PTR_CONST => 15 | C_PTR_CAST => 16
  end.

(** [ConstantOpcodeFrom]: [None] for a byte that names no enumerator. *)
Definition ConstantOpcodeFrom (t : Z) : option ConstantOpcode :=
  all_ConstantOpcodes !! Z.to_nat (u8 t).

(** The [Opcode] enumeration. *)
Inductive Opcode : Set :=
  | RETURN | I1_CMP_EQ | I1_CMP_NE | I1_LNOT | I1_AND | I1_OR | I1_ZEXT_I64
  | I1_ZEXT_I8 | I8_ADD | I8_MUL | I8_SUB | I8_CMP_EQ | I8_CMP_NE | I8_CMP_LT
  | I8_CMP_LE | I8_CMP_GT | I8_CMP_GE | I8_ZEXT_I64 | I8_CONV_F64 | I16_ADD | I16_MUL
  | I16_SUB | I16_CMP_EQ | I16_CMP_NE | I16_CMP_LT | I16_CMP_LE | I16_CMP_GT
  | I16_CMP_GE | I16_ZEXT_I64 | I16_CONV_F64 | I32_ADD | I32_MUL | I32_SUB
  | I32_CMP_EQ_ANY_CONST_VEC4 | I32_CMP_EQ_ANY_CONST_VEC8 | I32_CMP_EQ | I32_CMP_NE
  | I32_CMP_LT | I32_CMP_LE | I32_CMP_GT | I32_CMP_GE | I32_VEC8_CMP_EQ
  | I32_VEC8_CMP_NE | I32_VEC8_CMP_LT | I32_VEC8_CMP_LE | I32_VEC8_CMP_GT
  | I32_VEC8_CMP_GE | I1_VEC8_NOT | I1_VEC8_AND | I1_VEC8_OR | I1_VEC8_MASK_EXTRACT
  | I64_POPCOUNT | MASK_TO_PERMUTE | I32_VEC8_PERMUTE | I32_ZEXT_I64 | I32_CONV_F64
  | I32_CONV_I32_VEC8 | I32_VEC8_ADD | I32_VEC8_LOAD | I32_VEC8_MASK_STORE_INFO
  | I32_VEC8_MASK_STORE | I64_ADD | I64_MUL | I64_SUB | I64_LSHIFT | I64_RSHIFT
  | I64_AND | I64_XOR | I64_OR | I64_TRUNC_I16 | I64_TRUNC_I32 | I64_CMP_EQ
  | I64_CMP_NE | I64_CMP_LT | I64_CMP_LE | I64_CMP_GT | I64_CMP_GE | I64_CONV_F64
  | F64_ADD | F64_MUL | F64_SUB | F64_DIV | F64_CMP_EQ | F64_CMP_NE | F64_CMP_LT
  | F64_CMP_LE | F64_CMP_GT | F64_CMP_GE | F64_CONV_I64 | I8_STORE | I16_STORE
  | I32_STORE | I64_STORE | F64_STORE | PTR_STORE | CONDBR | I1_LOAD | I8_LOAD
  | I16_LOAD | I32_LOAD | I64_LOAD | F64_LOAD | PTR_LOAD | RETURN_VALUE | BR
  | PHI_MEMBER | CALL | PHI | PTR_CAST | FUNC_ARG | CALL_ARG | CALL_INDIRECT
  | PTR_CMP_NULLPTR | GEP_STATIC | GEP_STATIC_OFFSET | GEP_DYNAMIC | GEP_DYNAMIC_OFFSET.

Definition all_Opcodes : list Opcode :=
  [RETURN; I1_CMP_EQ; I1_CMP_NE; I1_LNOT; I1_AND; I1_OR; I1_ZEXT_I64; I1_ZEXT_I8;
   I8_ADD; I8_MUL; I8_SUB; I8_CMP_EQ; I8_CMP_NE; I8_CMP_LT; I8_CMP_LE; I8_CMP_GT;
   I8_CMP_GE; I8_ZEXT_I64; I8_CONV_F64; I16_ADD; I16_MUL; I16_SUB; I16_CMP_EQ;
   I16_CMP_NE; I16_CMP_LT; I16_CMP_LE; I16_CMP_GT; I16_CMP_GE; I16_ZEXT_I64;
   I16_CONV_F64; I32_ADD; I32_MUL; I32_SUB; I32_CMP_EQ_ANY_CONST_VEC4;
   I32_CMP_EQ_ANY_CONST_VEC8; I32_CMP_EQ; I32_CMP_NE; I32_CMP_LT; I32_CMP_LE;
   I32_CMP_GT; I32_CMP_GE; I32_VEC8_CMP_EQ; I32_VEC8_CMP_NE; I32_VEC8_CMP_LT;
   I32_VEC8_CMP_LE; I32_VEC8_CMP_GT; I32_VEC8_CMP_GE; I1_VEC8_NOT; I1_VEC8_AND;
   I1_VEC8_OR; I1_VEC8_MASK_EXTRACT; I64_POPCOUNT; MASK_TO_PERMUTE; I32_VEC8_PERMUTE;
   I32_ZEXT_I64; I32_CONV_F64; I32_CONV_I32_VEC8; I32_VEC8_ADD; I32_VEC8_LOAD;
   I32_VEC8_MASK_STORE_INFO; I32_VEC8_MASK_STORE; I64_ADD; I64_MUL; I64_SUB;
   I64_LSHIFT; I64_RSHIFT; I64_AND; I64_XOR; I64_OR; I64_TRUNC_I16; I64_TRUNC_I32;
   I64_CMP_EQ; I64_CMP_NE; I64_CMP_LT; I64_CMP_LE; I64_CMP_GT; I64_CMP_GE;
   I64_CONV_F64; F64_ADD; F64_MUL; F64_SUB; F64_DIV; F64_CMP_EQ; F64_CMP_NE;
   F64_CMP_LT; F64_CMP_LE; F64_CMP_GT; F64_CMP_GE; F64_CONV_I64; I8_STORE; I16_STORE;
   I32_STORE; I64_STORE; F64_STORE; PTR_STORE; CONDBR; I1_LOAD; I8_LOAD; I16_LOAD;
   I32_LOAD; I64_LOAD; F64_LOAD; PTR_LOAD; RETURN_VALUE; BR; PHI_MEMBER; CALL; PHI;
   PTR_CAST; FUNC_ARG; CALL_ARG; CALL_INDIRECT; PTR_CMP_NULLPTR; GEP_STATIC;
   GEP_STATIC_OFFSET; GEP_DYNAMIC; GEP_DYNAMIC_OFFSET].

Definition OpcodeTo (o : Opcode) : Z :=
  match o with
  | RETURN => 0 | I1_CMP_EQ => 1 | I1_CMP_NE => 2 | I1_LNOT => 3 | I1_AND => 4
  | I1_OR => 5 | I1_ZEXT_I64 => 6 | I1_ZEXT_I8 => 7 | I8_ADD => 8 | I8_MUL => 9
  | I8_SUB => 10 | I8_CMP_EQ => 11 | I8_CMP_NE => 12 | I8_CMP_LT => 13
  | I8_CMP_LE => 14 | I8_CMP_GT => 15 | I8_CMP_GE => 16 | I8_ZEXT_I64 => 17
  | I8_CONV_F64 => 18 | I16_ADD => 19 | I16_MUL => 20 | I16_SUB => 21
  | I16_CMP_EQ => 22 | I16_CMP_NE => 23 | I16_CMP_LT => 24 | I16_CMP_LE => 25
  | I16_CMP_GT => 26 | I16_CMP_GE => 27 | I16_ZEXT_I64 => 28 | I16_CONV_F64 => 29
  | I32_ADD => 30 | I32_MUL => 31 | I32_SUB => 32 | I32_CMP_EQ_ANY_CONST_VEC4 => 33
  | I32_CMP_EQ_ANY_CONST_VEC8 => 34 | I32_CMP_EQ => 35 | I32_CMP_NE => 36
  | I32_CMP_LT => 37 | I32_CMP_LE => 38 | I32_CMP_GT => 39 | I32_CMP_GE => 40
  | I32_VEC8_CMP_EQ => 41 | I32_VEC8_CMP_NE => 42 | I32_VEC8_CMP_LT => 43
  | I32_VEC8_CMP_LE => 44 | I32_VEC8_CMP_GT => 45 | I32_VEC8_CMP_GE => 46
  | I1_VEC8_NOT => 47 | I1_VEC8_AND => 48 | I1_VEC8_OR => 49
  | I1_VEC8_MASK_EXTRACT => 50 | I64_POPCOUNT => 51 | MASK_TO_PERMUTE => 52
  | I32_VEC8_PERMUTE => 53 | I32_ZEXT_I64 => 54 | I32_CONV_F64 => 55
  | I32_CONV_I32_VEC8 => 56 | I32_VEC8_ADD => 57 | I32_VEC8_LOAD => 58
  | I32_VEC8_MASK_STORE_INFO => 59 | I32_VEC8_MASK_STORE => 60 | I64_ADD => 61
  | I64_MUL => 62 | I64_SUB => 63 | I64_LSHIFT => 64 | I64_RSHIFT => 65 | I64_AND => 66
  | I64_XOR => 67 | I64_OR => 68 | I64_TRUNC_I16 => 69 | I64_TRUNC_I32 => 70
  | I64_CMP_EQ => 71 | I64_CMP_NE => 72 | I64_CMP_LT => 73 | I64_CMP_LE => 74
  | I64_CMP_GT => 75 | I64_CMP_GE => 76 | I64_CONV_F64 => 77 | F64_ADD => 78
  | F64_MUL => 79 | F64_SUB => 80 | F64_DIV => 81 | F64_CMP_EQ => 82 | F64_CMP_NE => 83
  | F64_CMP_LT => 84 | F64_CMP_LE => 85 | F64_CMP_GT => 86 | F64_CMP_GE => 87
  | F64_CONV_I64 => 88 | I8_STORE => 89 | I16_STORE => 90 | I32_STORE => 91
  | I64_STORE => 92 | F64_STORE => 93 | PTR_STORE => 94 | CONDBR => 95 | I1_LOAD => 96
  | I8_LOAD => 97 | I16_LOAD => 98 | I32_LOAD => 99 | I64_LOAD => 100 | F64_LOAD => 101
  | PTR_LOAD => 102 | RETURN_VALUE => 103 | BR => 104 | PHI_MEMBER => 105 | CALL => 106
  | PHI => 107 | PTR_CAST => 108 | FUNC_ARG => 109 | CALL_ARG => 110
  | CALL_INDIRECT => 111 | PTR_CMP_NULLPTR => 112 | GEP_STATIC => 113
  | GEP_STATIC_OFFSET => 114 | GEP_DYNAMIC => 115 | GEP_DYNAMIC_OFFSET => 116
  end.

Definition OpcodeFrom (t : Z) : option Opcode :=
  all_Opcodes !! Z.to_nat (u8 t).

#[export] Instance ConstantOpcode_eq_dec : EqDecision ConstantOpcode.
Proof. solve_decision. Defined.

(** Equality of opcodes is decided through the encoding: comparing the two
    positions avoids the quadratic case analysis on 117 enumerators. *)
Lemma OpcodeFrom_To o : OpcodeFrom (OpcodeTo o) = Some o.
Proof. by destruct o. Qed.

Lemma ConstantOpcodeFrom_To o : ConstantOpcodeFrom (ConstantOpcodeTo o) = Some o.
Proof. by destruct o. Qed.

(** The enumerations are numbered from zero in order. *)
Lemma enum_index {A} (l : list A) (f : A -> Z) i a :
  f <$> l = Z.of_nat <$> seq 0 (length l) -> l !! i = Some a -> f a = Z.of_nat i.
Proof.
  intros Hf Hi. pose proof (lookup_lt_Some _ _ _ Hi).
  assert (E : (f <$> l) !! i = Some (f a)) by (by rewrite list_lookup_fmap, Hi).
  rewrite Hf, list_lookup_fmap, lookup_seq_lt in E by done. by injection E.
Qed.

Lemma OpcodeTo_From t o : is_uw 8 t -> OpcodeFrom t = Some o -> OpcodeTo o = t.
Proof.
  unfold OpcodeFrom, is_uw. intros Ht. rewrite uw_id by done. intros H.
  apply (enum_index _ OpcodeTo) in H; [|done]. rewrite H. lia.
Qed.

Lemma ConstantOpcodeTo_From t o :
  is_uw 8 t -> ConstantOpcodeFrom t = Some o -> ConstantOpcodeTo o = t.
Proof.
  unfold ConstantOpcodeFrom, is_uw. intros Ht. rewrite uw_id by done. intros H.
  apply (enum_index _ ConstantOpcodeTo) in H; [|done]. rewrite H. lia.
Qed.

#[export] Instance OpcodeTo_inj : Inj (=) (=) OpcodeTo.
Proof.
  intros o1 o2 H. apply (f_equal OpcodeFrom) in H.
  rewrite !OpcodeFrom_To in H. by injection H.
Qed.

#[export] Instance Opcode_eq_dec : EqDecision Opcode.
Proof.
  refine (fun o1 o2 => cast_if (decide (OpcodeTo o1 = OpcodeTo o2))).
  - by apply (inj OpcodeTo).
  - congruence.
Defined.

Lemma OpcodeTo_u8 o : is_uw 8 (OpcodeTo o).
Proof. unfold is_uw. by destruct o. Qed.

Lemma ConstantOpcodeTo_u8 o : is_uw 8 (ConstantOpcodeTo o).
Proof. unfold is_uw. by destruct o. Qed.

#[export] Hint Resolve OpcodeTo_u8 ConstantOpcodeTo_u8 : kush.
