(* ===== verification/Instruction.v ===== *)
(** * KHIR instruction words

    The four 64-bit instruction formats, their builders and readers
    (src/khir/instruction.h, src/khir/instruction.cc), and the 24-bit operand
    handles (src/khir/value.h, src/khir/value.cc).  A builder and a reader hold
    one word; both are modelled by that word, a method by a function on it. *)
From S2P Require Import Prelude Opcode.

(** ** Bit fields

    [bf_get] and [bf_set] are the reference operations every accessor below is
    an instance of: the field of [w] bits at offset [off] of a 64-bit word. *)
Definition bf_get (off w x : Z) : Z := Z.land (Z.shiftr x off) (Z.ones w).

Definition bf_set (off w x v : Z) : Z :=
  Z.lor (Z.land x (u64 (Z.lnot (Z.shiftl (Z.ones w) off))))
        (Z.land (Z.shiftl v off) (Z.shiftl (Z.ones w) off)).

Lemma testbit_uw w x i : 0 <= w -> 0 <= i ->
  Z.testbit (uw w x) i = (i <? w) && Z.testbit x i.
Proof.
  intros. unfold uw. destruct (Z.ltb_spec i w).
  - by rewrite Z.mod_pow2_bits_low by lia.
  - by rewrite Z.mod_pow2_bits_high by lia.
Qed.

Lemma testbit_ones' w i : 0 <= w -> 0 <= i -> Z.testbit (Z.ones w) i = (i <? w).
Proof.
  intros. destruct (Z.ltb_spec i w).
  - by rewrite Z.ones_spec_low by lia.
  - by rewrite Z.ones_spec_high by lia.
Qed.

Lemma testbit_shiftl' x n i : 0 <= n -> 0 <= i ->
  Z.testbit (Z.shiftl x n) i = (n <=? i) && Z.testbit x (i - n).
Proof.
  intros. rewrite Z.shiftl_spec by lia.
  destruct (Z.leb_spec n i); [done|]. by rewrite Z.testbit_neg_r by lia.
Qed.

Lemma testbit_bf_get off w x i : 0 <= off -> 0 <= w -> 0 <= i ->
  Z.testbit (bf_get off w x) i = (i <? w) && Z.testbit x (i + off).
Proof.
  intros. unfold bf_get.
  rewrite Z.land_spec, Z.shiftr_spec, testbit_ones' by lia. by rewrite andb_comm.
Qed.

Lemma testbit_bf_set off w x v i : 0 <= off -> 0 <= w -> 0 <= i ->
  Z.testbit (bf_set off w x v) i =
    if (off <=? i) && (i - off <? w) then Z.testbit v (i - off)
    else (i <? 64) && Z.testbit x i.
Proof.
  intros. unfold bf_set.
  rewrite Z.lor_spec, !Z.land_spec, testbit_uw, Z.lnot_spec by lia.
  rewrite !testbit_shiftl' by lia.
  destruct (Z.leb_spec off i); cbn.
  - rewrite testbit_ones' by lia. destruct (Z.ltb_spec (i - off) w); cbn; btauto.
  - btauto.
Qed.

(** A word is determined by its bits; [bits i] opens that comparison. *)
Ltac bits i := apply Z.bits_inj'; intros i ?.

Section bitfield.
Context (off w : Z) (Hoff : 0 <= off) (Hw : 0 <= w) (H64 : off + w <= 64).

(** Reading back the field just written. *)
Lemma bf_get_set x v : bf_get off w (bf_set off w x v) = uw w v.
Proof.
  bits i. rewrite testbit_bf_get, testbit_bf_set, testbit_uw by lia.
  replace (i + off - off) with i by lia.
  destruct (Z.ltb_spec i w); cbn; [|done].
  by rewrite (proj2 (Z.leb_le off (i + off))) by lia.
Qed.

(** Writing one field leaves a disjoint one alone. *)
Lemma bf_get_set_ne off' w' x v :
  0 <= off' -> 0 <= w' -> off' + w' <= 64 ->
  off' + w' <= off \/ off + w <= off' ->
  bf_get off' w' (bf_set off w x v) = bf_get off' w' x.
Proof.
  intros. bits i. rewrite !testbit_bf_get, testbit_bf_set by lia.
  destruct (Z.ltb_spec i w'); cbn; [|done].
  destruct (Z.leb_spec off (i + off')), (Z.ltb_spec (i + off' - off) w);
    cbn; try lia;
    by rewrite (proj2 (Z.ltb_lt (i + off') 64)) by lia.
Qed.

(** Writing a field back with its own value changes nothing. *)
Lemma bf_set_get x : is_uw 64 x -> bf_set off w x (bf_get off w x) = x.
Proof.
  intros Hx. bits i. rewrite testbit_bf_set by lia.
  destruct (Z.leb_spec off i); cbn.
  - rewrite testbit_bf_get by lia. replace (i - off + off) with i by lia.
    destruct (Z.ltb_spec (i - off) w); cbn; [done|].
    rewrite <- testbit_uw by lia. by rewrite uw_id.
  - rewrite <- testbit_uw by lia. by rewrite uw_id.
Qed.

Lemma bf_set_range x v : is_uw 64 (bf_set off w x v).
Proof.
  cut (uw 64 (bf_set off w x v) = bf_set off w x v).
  - intros E. rewrite <- E. apply uw_range; lia.
  - bits i. rewrite testbit_uw, testbit_bf_set by lia.
    destruct (Z.leb_spec off i), (Z.ltb_spec (i - off) w), (Z.ltb_spec i 64);
      cbn; try done; lia.
Qed.

Lemma bf_get_range x : is_uw w (bf_get off w x).
Proof.
  unfold bf_get. rewrite <- uw_land by lia. by apply uw_range.
Qed.
End bitfield.

(** ** Fields shared by every format *)
Definition GenericInstructionReader_Opcode (instr : Z) : Z := u8 (Z.land instr 0xFF).

Definition SetMetadataImpl (value metadata : Z) : Z :=
  Z.lor (Z.land value (u64 (Z.lnot (Z.shiftl 0xFF 56))))
        (u64 (Z.shiftl (u8 metadata) 56)).

Definition SetOpcodeImpl (value opcode : Z) : Z :=
  Z.lor (Z.land value (u64 (Z.lnot 0xFF))) (u8 opcode).

(** ** Type I: metadata, 48-bit constant, opcode *)
Definition Type1InstructionBuilder : Z := 0.
Definition Type1_SetMetadata (value metadata : Z) : Z := SetMetadataImpl value metadata.
Definition Type1_SetConstant (value constant : Z) : Z :=
  let constant_mask := u64 (Z.shiftl 0xFFFFFFFFFFFF 8) in
  Z.lor (Z.land value (u64 (Z.lnot constant_mask)))
        (Z.land (u64 (Z.shiftl (u64 constant) 8)) constant_mask).
Definition Type1_SetOpcode (value opcode : Z) : Z := SetOpcodeImpl value opcode.

Definition Type1_Metadata (instr : Z) : Z := u8 (Z.shiftr instr 56).
Definition Type1_Constant (instr : Z) : Z := Z.land (Z.shiftr instr 8) 0xFFFFFFFFFFFF.
Definition Type1_Opcode (instr : Z) : Z := u8 (Z.land instr 0xFF).

(** ** Type II: metadata, two 24-bit arguments, opcode *)
Definition Type2InstructionBuilder : Z := 0.
Definition Type2_SetMetadata (value metadata : Z) : Z := SetMetadataImpl value metadata.
Definition Type2_SetArg0 (value arg0 : Z) : Z :=
  let arg0_mask := u64 (Z.shiftl 0xFFFFFF 32) in
  Z.lor (Z.land value (u64 (Z.lnot arg0_mask)))
        (Z.land (u64 (Z.shiftl (u32 arg0) 32)) arg0_mask).
Definition Type2_SetArg1 (value arg1 : Z) : Z :=
  let arg1_mask := u64 (Z.shiftl 0xFFFFFF 8) in
  Z.lor (Z.land value (u64 (Z.lnot arg1_mask)))
        (Z.land (u64 (Z.shiftl (u32 arg1) 8)) arg1_mask).
Definition Type2_SetOpcode (value opcode : Z) : Z := SetOpcodeImpl value opcode.

Definition Type2_Metadata (instr : Z) : Z := u8 (Z.shiftr instr 56).
Definition Type2_Arg0 (instr : Z) : Z := u32 (Z.land (Z.shiftr instr 32) 0xFFFFFF).
Definition Type2_Arg1 (instr : Z) : Z := u32 (Z.land (Z.shiftr instr 8) 0xFFFFFF).
Definition Type2_Opcode (instr : Z) : Z := u8 (Z.land instr 0xFF).

(** ** Type III: metadata, 16-bit type, 8-bit argument, 24-bit argument, opcode *)
Definition Type3InstructionBuilder : Z := 0.
Definition Type3_SetMetadata (value metadata : Z) : Z := SetMetadataImpl value metadata.
Definition Type3_SetTypeID (value type_id : Z) : Z :=
  let type_id_mask := u64 (Z.shiftl 0xFFFF 40) in
  Z.lor (Z.land value (u64 (Z.lnot type_id_mask)))
        (Z.land (u64 (Z.shiftl (u16 type_id) 40)) type_id_mask).
Definition Type3_SetSarg (value sarg : Z) : Z :=
  let sarg_mask := u64 (Z.shiftl 0xFF 32) in
  Z.lor (Z.land value (u64 (Z.lnot sarg_mask)))
        (Z.land (u64 (Z.shiftl (u8 sarg) 32)) sarg_mask).
Definition Type3_SetArg (value arg : Z) : Z :=
  let arg_mask := u64 (Z.shiftl 0xFFFFFF 8) in
  Z.lor (Z.land value (u64 (Z.lnot arg_mask)))
        (Z.land (u64 (Z.shiftl (u32 arg) 8)) arg_mask).
Definition Type3_SetOpcode (value opcode : Z) : Z := SetOpcodeImpl value opcode.

Definition Type3_Metadata (instr : Z) : Z := u8 (Z.shiftr instr 56).
Definition Type3_TypeID (instr : Z) : Z := u16 (Z.land (Z.shiftr instr 40) 0xFFFF).
Definition Type3_Sarg (instr : Z) : Z := u8 (Z.land (Z.shiftr instr 32) 0xFF).
Definition Type3_Arg (instr : Z) : Z := u32 (Z.land (Z.shiftr instr 8) 0xFFFFFF).
Definition Type3_Opcode (instr : Z) : Z := u8 (Z.land instr 0xFF).

(** ** Type V: metadata, 24-bit argument, two 12-bit arguments, opcode *)
Definition Type5InstructionBuilder : Z := 0.
Definition Type5_SetMetadata (value metadata : Z) : Z := SetMetadataImpl value metadata.
Definition Type5_SetArg (value arg : Z) : Z :=
  let arg_mask := u64 (Z.shiftl 0xFFFFFF 32) in
  Z.lor (Z.land value (u64 (Z.lnot arg_mask)))
        (Z.land (u64 (Z.shiftl (u32 arg) 32)) arg_mask).
Definition Type5_SetMarg0 (value marg0 : Z) : Z :=
  let marg_mask := u64 (Z.shiftl 0xFFF 20) in
  Z.lor (Z.land value (u64 (Z.lnot marg_mask)))
        (Z.land (u64 (Z.shiftl (u16 marg0) 20)) marg_mask).
Definition Type5_SetMarg1 (value marg1 : Z) : Z :=
  let marg_mask := u64 (Z.shiftl 0xFFF 8) in
  Z.lor (Z.land value (u64 (Z.lnot marg_mask)))
        (Z.land (u64 (Z.shiftl (u16 marg1) 8)) marg_mask).
Definition Type5_SetOpcode (value opcode : Z) : Z := SetOpcodeImpl value opcode.

Definition Type5_Metadata (instr : Z) : Z := u8 (Z.shiftr instr 56).
Definition Type5_Arg (instr : Z) : Z := u32 (Z.land (Z.shiftr instr 32) 0xFFFFFF).
Definition Type5_Marg0 (instr : Z) : Z := u16 (Z.land (Z.shiftr instr 20) 0xFFF).
Definition Type5_Marg1 (instr : Z) : Z := u16 (Z.land (Z.shiftr instr 8) 0xFFF).
Definition Type5_Opcode (instr : Z) : Z := u8 (Z.land instr 0xFF).

(** ** Operand handles

    A [Value] is its 32-bit index [idx_]; bit 23 marks a constant or global. *)
Definition Value_default : Z := UINT32_MAX.

Definition Value_make (idx : Z) (constant_global : bool) : Res Z :=
  if 0x7FFFFF <? idx then Throw "Invalid idx"
  else Ok (if constant_global then Z.lor idx (Z.shiftl 1 23) else idx).

Definition Value_Serialize (v : Z) : Z := v.
Definition Value_GetIdx (v : Z) : Z := Z.land v 0x7FFFFF.
Definition Value_IsConstantGlobal (v : Z) : bool := negb (Z.land v (Z.shiftl 1 23) =? 0).
Definition Value_eqb (v rhs : Z) : bool := v =? rhs.

(** ** Every accessor is a bit-field access *)
Section accessors.
Implicit Types x v : Z.

Lemma shifted_field off w wv x v :
  0 <= off -> 0 <= w -> off + w <= 64 -> w <= wv ->
  Z.lor (Z.land x (u64 (Z.lnot (u64 (Z.shiftl (Z.ones w) off)))))
        (Z.land (u64 (Z.shiftl (uw wv v) off)) (u64 (Z.shiftl (Z.ones w) off)))
  = bf_set off w x v.
Proof.
  intros. bits i. rewrite testbit_bf_set by lia.
  rewrite Z.lor_spec, !Z.land_spec, !testbit_uw, Z.lnot_spec by lia.
  rewrite testbit_uw, !testbit_shiftl' by lia.
  destruct (Z.leb_spec off i); cbn; [|btauto].
  rewrite testbit_uw, testbit_ones' by lia.
  destruct (Z.ltb_spec (i - off) w), (Z.ltb_spec (i - off) wv), (Z.ltb_spec i 64);
    cbn; try lia; btauto.
Qed.

Lemma SetMetadata_bf x v : SetMetadataImpl x v = bf_set 56 8 x v.
Proof.
  unfold SetMetadataImpl. bits i. rewrite testbit_bf_set by lia.
  change 0xFF with (Z.ones 8).
  rewrite Z.lor_spec, Z.land_spec, !testbit_uw, Z.lnot_spec by lia.
  rewrite !testbit_shiftl' by lia.
  destruct (Z.leb_spec 56 i); cbn; [|btauto].
  rewrite testbit_uw, testbit_ones' by lia.
  destruct (Z.ltb_spec (i - 56) 8), (Z.ltb_spec i 64); cbn; try lia; btauto.
Qed.

Lemma SetOpcode_bf x v : SetOpcodeImpl x v = bf_set 0 8 x v.
Proof.
  unfold SetOpcodeImpl. bits i. rewrite testbit_bf_set by lia.
  change 0xFF with (Z.ones 8).
  rewrite Z.lor_spec, Z.land_spec, !testbit_uw, Z.lnot_spec by lia.
  rewrite Z.sub_0_r, testbit_ones' by lia.
  rewrite (proj2 (Z.leb_le 0 i)) by lia. cbn.
  destruct (Z.ltb_spec i 8), (Z.ltb_spec i 64); cbn; try lia; btauto.
Qed.

Lemma SetConstant_bf x v : Type1_SetConstant x v = bf_set 8 48 x v.
Proof. by apply (shifted_field 8 48 64). Qed.
Lemma SetArg0_bf x v : Type2_SetArg0 x v = bf_set 32 24 x v.
Proof. by apply (shifted_field 32 24 32). Qed.
Lemma SetArg1_bf x v : Type2_SetArg1 x v = bf_set 8 24 x v.
Proof. by apply (shifted_field 8 24 32). Qed.
Lemma SetTypeID_bf x v : Type3_SetTypeID x v = bf_set 40 16 x v.
Proof. by apply (shifted_field 40 16 16). Qed.
Lemma SetSarg_bf x v : Type3_SetSarg x v = bf_set 32 8 x v.
Proof. by apply (shifted_field 32 8 8). Qed.
Lemma SetArg3_bf x v : Type3_SetArg x v = bf_set 8 24 x v.
Proof. by apply (shifted_field 8 24 32). Qed.
Lemma SetArg5_bf x v : Type5_SetArg x v = bf_set 32 24 x v.
Proof. by apply (shifted_field 32 24 32). Qed.
Lemma SetMarg0_bf x v : Type5_SetMarg0 x v = bf_set 20 12 x v.
Proof. by apply (shifted_field 20 12 16). Qed.
Lemma SetMarg1_bf x v : Type5_SetMarg1 x v = bf_set 8 12 x v.
Proof. by apply (shifted_field 8 12 16). Qed.

(** A reader masks the field and then converts to a type that holds it. *)
Lemma narrow_field off w wv x : 0 <= w -> w <= wv ->
  uw wv (Z.land (Z.shiftr x off) (Z.ones w)) = bf_get off w x.
Proof.
  intros. apply uw_id. pose proof (bf_get_range off w ltac:(lia) x) as [? ?].
  assert (2 ^ w <= 2 ^ wv) by (apply Z.pow_le_mono_r; lia).
  split; unfold bf_get in *; lia.
Qed.

Lemma Opcode_bf x : GenericInstructionReader_Opcode x = bf_get 0 8 x.
Proof. rewrite <- (narrow_field 0 8 8) by lia. by rewrite Z.shiftr_0_r. Qed.
Lemma Constant_bf x : Type1_Constant x = bf_get 8 48 x.
Proof. done. Qed.
Lemma Arg0_bf x : Type2_Arg0 x = bf_get 32 24 x.
Proof. by apply (narrow_field 32 24 32). Qed.
Lemma Arg1_bf x : Type2_Arg1 x = bf_get 8 24 x.
Proof. by apply (narrow_field 8 24 32). Qed.
Lemma TypeID_bf x : Type3_TypeID x = bf_get 40 16 x.
Proof. by apply (narrow_field 40 16 16). Qed.
Lemma Sarg_bf x : Type3_Sarg x = bf_get 32 8 x.
Proof. by apply (narrow_field 32 8 8). Qed.
Lemma Arg3_bf x : Type3_Arg x = bf_get 8 24 x.
Proof. by apply (narrow_field 8 24 32). Qed.
Lemma Arg5_bf x : Type5_Arg x = bf_get 32 24 x.
Proof. by apply (narrow_field 32 24 32). Qed.
Lemma Marg0_bf x : Type5_Marg0 x = bf_get 20 12 x.
Proof. by apply (narrow_field 20 12 16). Qed.
Lemma Marg1_bf x : Type5_Marg1 x = bf_get 8 12 x.
Proof. by apply (narrow_field 8 12 16). Qed.
Lemma Metadata_bf x : Type1_Metadata x = bf_get 56 8 x.
Proof. unfold Type1_Metadata, bf_get. by rewrite uw_land by lia. Qed.
End accessors.

(** The remaining names are the same functions. *)
Lemma Opcode1_bf x : Type1_Opcode x = bf_get 0 8 x. Proof. apply Opcode_bf. Qed.
Lemma Opcode2_bf x : Type2_Opcode x = bf_get 0 8 x. Proof. apply Opcode_bf. Qed.
Lemma Opcode3_bf x : Type3_Opcode x = bf_get 0 8 x. Proof. apply Opcode_bf. Qed.
Lemma Opcode5_bf x : Type5_Opcode x = bf_get 0 8 x. Proof. apply Opcode_bf. Qed.
Lemma Metadata2_bf x : Type2_Metadata x = bf_get 56 8 x. Proof. apply Metadata_bf. Qed.
Lemma Metadata3_bf x : Type3_Metadata x = bf_get 56 8 x. Proof. apply Metadata_bf. Qed.
Lemma Metadata5_bf x : Type5_Metadata x = bf_get 56 8 x. Proof. apply Metadata_bf. Qed.
Lemma SetMetadata1_bf x v : Type1_SetMetadata x v = bf_set 56 8 x v. Proof. apply SetMetadata_bf. Qed.
Lemma SetMetadata2_bf x v : Type2_SetMetadata x v = bf_set 56 8 x v. Proof. apply SetMetadata_bf. Qed.
Lemma SetMetadata3_bf x v : Type3_SetMetadata x v = bf_set 56 8 x v. Proof. apply SetMetadata_bf. Qed.
Lemma SetMetadata5_bf x v : Type5_SetMetadata x v = bf_set 56 8 x v. Proof. apply SetMetadata_bf. Qed.
Lemma SetOpcode1_bf x v : Type1_SetOpcode x v = bf_set 0 8 x v. Proof. apply SetOpcode_bf. Qed.
Lemma SetOpcode2_bf x v : Type2_SetOpcode x v = bf_set 0 8 x v. Proof. apply SetOpcode_bf. Qed.
Lemma SetOpcode3_bf x v : Type3_SetOpcode x v = bf_set 0 8 x v. Proof. apply SetOpcode_bf. Qed.
Lemma SetOpcode5_bf x v : Type5_SetOpcode x v = bf_set 0 8 x v. Proof. apply SetOpcode_bf. Qed.

Create Rewrite HintDb bitfield.
#[export] Hint Rewrite
  SetMetadata1_bf SetMetadata2_bf SetMetadata3_bf SetMetadata5_bf
  SetOpcode1_bf SetOpcode2_bf SetOpcode3_bf SetOpcode5_bf
  SetConstant_bf SetArg0_bf SetArg1_bf SetTypeID_bf SetSarg_bf SetArg3_bf
  SetArg5_bf SetMarg0_bf SetMarg1_bf
  Opcode_bf Opcode1_bf Opcode2_bf Opcode3_bf Opcode5_bf
  Constant_bf Arg0_bf Arg1_bf TypeID_bf Sarg_bf Arg3_bf Arg5_bf Marg0_bf Marg1_bf
  Metadata_bf Metadata2_bf Metadata3_bf Metadata5_bf : bitfield.

(** Normalises reads of words built by setters: turns every accessor into a
    bit-field access, then resolves each read against the writes. *)
Ltac bf_step := first [rewrite bf_get_set by lia | rewrite bf_get_set_ne by lia].
Ltac bf_simpl := autorewrite with bitfield; repeat bf_step.

#[export] Hint Resolve bf_set_range : kush.

(** ** Round trips *)
Lemma testbit_uw_high w x i : 0 <= w -> is_uw w x -> w <= i -> Z.testbit x i = false.
Proof.
  intros Hw Hx Hi. rewrite <- (uw_id w x Hx), testbit_uw by lia.
  by rewrite (proj2 (Z.ltb_ge i w)) by lia.
Qed.

(** Splits on one comparison that decides whether a bit lies in a field. *)
Ltac case_field :=
  match goal with
  | |- context [?a <=? ?b] => destruct (Z.leb_spec a b); cbn [andb]
  | |- context [?a <? ?b] => destruct (Z.ltb_spec a b); cbn [andb]
  end.

(** C39.  Encoding then decoding: a word built by setting every field of its
    format reads back exactly those fields, for each of the four formats. *)
Theorem instruction_build_read :
  (forall md c op, is_uw 8 md -> is_uw 48 c -> is_uw 8 op ->
     let w := Type1_SetMetadata (Type1_SetConstant
                (Type1_SetOpcode Type1InstructionBuilder op) c) md in
     Type1_Metadata w = md /\ Type1_Constant w = c /\ Type1_Opcode w = op) /\
  (forall md a0 a1 op, is_uw 8 md -> is_uw 24 a0 -> is_uw 24 a1 -> is_uw 8 op ->
     let w := Type2_SetMetadata (Type2_SetArg1 (Type2_SetArg0
                (Type2_SetOpcode Type2InstructionBuilder op) a0) a1) md in
     Type2_Metadata w = md /\ Type2_Arg0 w = a0 /\ Type2_Arg1 w = a1 /\
     Type2_Opcode w = op) /\
  (forall md t sa a op,
     is_uw 8 md -> is_uw 16 t -> is_uw 8 sa -> is_uw 24 a -> is_uw 8 op ->
     let w := Type3_SetMetadata (Type3_SetArg (Type3_SetSarg (Type3_SetTypeID
                (Type3_SetOpcode Type3InstructionBuilder op) t) sa) a) md in
     Type3_Metadata w = md /\ Type3_TypeID w = t /\ Type3_Sarg w = sa /\
     Type3_Arg w = a /\ Type3_Opcode w = op) /\
  (forall md a m0 m1 op,
     is_uw 8 md -> is_uw 24 a -> is_uw 12 m0 -> is_uw 12 m1 -> is_uw 8 op ->
     let w := Type5_SetMetadata (Type5_SetMarg1 (Type5_SetMarg0 (Type5_SetArg
                (Type5_SetOpcode Type5InstructionBuilder op) a) m0) m1) md in
     Type5_Metadata w = md /\ Type5_Arg w = a /\ Type5_Marg0 w = m0 /\
     Type5_Marg1 w = m1 /\ Type5_Opcode w = op).
Proof.
  cbv zeta. split_and!; intros; split_and!; bf_simpl; by rewrite uw_id.
Qed.

(**  Decoding then encoding: on every 64-bit word, writing back the fields a
    format reads reproduces the word, so the format's fields cover all 64 bits
    and nothing is lost when a pass rebuilds an instruction from an old one. *)
Theorem instruction_read_build (x : Z) : is_uw 64 x ->
  Type1_SetMetadata (Type1_SetConstant (Type1_SetOpcode 0 (Type1_Opcode x))
    (Type1_Constant x)) (Type1_Metadata x) = x /\
  Type2_SetMetadata (Type2_SetArg1 (Type2_SetArg0 (Type2_SetOpcode 0 (Type2_Opcode x))
    (Type2_Arg0 x)) (Type2_Arg1 x)) (Type2_Metadata x) = x /\
  Type3_SetMetadata (Type3_SetArg (Type3_SetSarg (Type3_SetTypeID
    (Type3_SetOpcode 0 (Type3_Opcode x)) (Type3_TypeID x)) (Type3_Sarg x))
    (Type3_Arg x)) (Type3_Metadata x) = x /\
  Type5_SetMetadata (Type5_SetMarg1 (Type5_SetMarg0 (Type5_SetArg
    (Type5_SetOpcode 0 (Type5_Opcode x)) (Type5_Arg x)) (Type5_Marg0 x))
    (Type5_Marg1 x)) (Type5_Metadata x) = x.
Proof.
  intros Hx. autorewrite with bitfield.
  split_and!; bits i; rewrite !testbit_bf_set, Z.testbit_0_l by lia;
    repeat case_field; try lia; rewrite ?testbit_bf_get by lia;
    repeat case_field; try lia; rewrite ?andb_false_r;
    solve [ by rewrite (testbit_uw_high 64 x i) by (done || lia) | f_equal; lia ].
Qed.

(** The index and the tag of a handle, and that a handle fits an argument field. *)
Lemma Value_make_spec idx cg : 0 <= idx <= 0x7FFFFF ->
  exists v, Value_make idx cg = Ok v /\ Value_GetIdx v = idx /\
    Value_IsConstantGlobal v = cg /\ is_uw 24 v.
Proof.
  intros Hi. unfold Value_make. rewrite (proj2 (Z.ltb_ge _ _)) by lia.
  assert (Hu : is_uw 23 idx) by (unfold is_uw; lia).
  assert (Hl : Z.land idx (Z.shiftl 1 23) = 0).
  { bits i. rewrite Z.land_spec, testbit_shiftl', Z.testbit_0_l by lia.
    destruct (Z.leb_spec 23 i); cbn; [|btauto].
    by rewrite (testbit_uw_high 23 idx i) by (done || lia). }
  eexists; split; [done|]. unfold Value_GetIdx, Value_IsConstantGlobal.
  change 0x7FFFFF with (Z.ones 23). rewrite <- uw_land by lia.
  destruct cg; rewrite ?Z.land_lor_distr_l, ?Hl.
  - split_and!; [|done|].
    + rewrite uw_land, Z.land_lor_distr_l, <- uw_land, uw_id by (done || lia).
      by rewrite Z.lor_0_r.
    + pose proof (Z.add_lor_land idx (Z.shiftl 1 23)) as E. rewrite Hl in E.
      change (Z.shiftl 1 23) with 8388608 in *. unfold is_uw in *. lia.
  - rewrite uw_id by done. unfold is_uw in *. split_and!; try done; lia.
Qed.

Lemma Value_make_throw idx cg :
  0x7FFFFF < idx -> Value_make idx cg = Throw "Invalid idx".
Proof. intros. unfold Value_make. by rewrite (proj2 (Z.ltb_lt _ _)) by lia. Qed.

(**  Operand handles: a handle is built exactly for the indices below 2^23
    (a larger index throws), gives back its index and its constant flag, and
    survives the trip through any 24-bit argument field of an instruction. *)
Theorem value_roundtrip (idx : Z) (cg : bool) : is_uw 32 idx ->
  (0x7FFFFF < idx -> Value_make idx cg = Throw "Invalid idx") /\
  (idx <= 0x7FFFFF -> exists v, Value_make idx cg = Ok v /\
     Value_GetIdx v = idx /\ Value_IsConstantGlobal v = cg /\
     forall x,
       Type2_Arg0 (Type2_SetArg0 x (Value_Serialize v)) = v /\
       Type2_Arg1 (Type2_SetArg1 x (Value_Serialize v)) = v /\
       Type3_Arg (Type3_SetArg x (Value_Serialize v)) = v /\
       Type5_Arg (Type5_SetArg x (Value_Serialize v)) = v).
Proof.
  unfold is_uw. intros [? ?]. split; [by apply Value_make_throw|].
  intros. destruct (Value_make_spec idx cg) as (v & ? & ? & ? & ?); [lia|].
  exists v. split_and!; try done. intros x. unfold Value_Serialize.
  split_and!; bf_simpl; by rewrite uw_id.
Qed.

(**  The opcode byte of a word determines the enumerator it was built from,
    for both enumerations: encoding then decoding is the identity, so dispatch
    on [OpcodeFrom] sees the opcode the builder stored. *)
Theorem opcode_roundtrip :
  (forall (o : Opcode) w,
     OpcodeFrom (GenericInstructionReader_Opcode (SetOpcodeImpl w (OpcodeTo o))) = Some o) /\
  (forall (o : ConstantOpcode) w,
     ConstantOpcodeFrom
       (GenericInstructionReader_Opcode (SetOpcodeImpl w (ConstantOpcodeTo o))) = Some o) /\
  (forall t o, is_uw 8 t -> OpcodeFrom t = Some o -> OpcodeTo o = t) /\
  (forall t o, is_uw 8 t -> ConstantOpcodeFrom t = Some o -> ConstantOpcodeTo o = t).
Proof.
  split_and!; intros.
  - rewrite Opcode_bf, SetOpcode_bf, bf_get_set, uw_id by auto with kush lia.
    apply OpcodeFrom_To.
  - rewrite Opcode_bf, SetOpcode_bf, bf_get_set, uw_id by auto with kush lia.
    apply ConstantOpcodeFrom_To.
  - by apply OpcodeTo_From.
  - by apply ConstantOpcodeTo_From.
Qed.

Lemma instruction_build_read_witness :
  let w := Type5_SetMetadata (Type5_SetMarg1 (Type5_SetMarg0 (Type5_SetArg
             (Type5_SetOpcode Type5InstructionBuilder (OpcodeTo CONDBR)) 8388611) 4095) 17) 200 in
  Type5_Metadata w = 200 /\ Type5_Arg w = 8388611 /\ Type5_Marg0 w = 4095 /\
  Type5_Marg1 w = 17 /\ Type5_Opcode w = OpcodeTo CONDBR.
Proof.
  destruct instruction_build_read as (_ & _ & _ & H).
  apply (H 200 8388611 4095 17 (OpcodeTo CONDBR)); done.
Defined.

Lemma instruction_read_build_witness :
  Type2_SetMetadata (Type2_SetArg1 (Type2_SetArg0 (Type2_SetOpcode 0
    (Type2_Opcode 0x0123456789ABCDEF)) (Type2_Arg0 0x0123456789ABCDEF))
    (Type2_Arg1 0x0123456789ABCDEF)) (Type2_Metadata 0x0123456789ABCDEF) = 0x0123456789ABCDEF.
Proof. by destruct (instruction_read_build 0x0123456789ABCDEF) as (_ & H & _). Defined.

Lemma value_roundtrip_witness :
  Value_make 0x800000 true = Throw "Invalid idx" /\
  exists v, Value_make 12 true = Ok v /\ Value_GetIdx v = 12.
Proof.
  split.
  - by apply (value_roundtrip 0x800000 true).
  - destruct (value_roundtrip 12 true) as [_ H]; [done|].
    destruct H as (v & ? & ? & _); [done|]. by exists v.
Defined.

Lemma opcode_roundtrip_witness : OpcodeTo I64_ADD = OpcodeTo I64_ADD.
Proof. by destruct opcode_roundtrip as (_ & _ & H & _); apply (H (OpcodeTo I64_ADD) I64_ADD). Defined.
