(* ===== verification/FunctionBuilder.v ===== *)
(** * Building one KHIR function

    [FunctionBuilder] of src/khir/program_builder.h and .cc: a growing vector of
    instruction words, the basic blocks as (first, last) instruction indices,
    and the control-flow edges recorded when a terminator is appended. *)
From S2P Require Import Prelude Opcode Instruction.

Record FunctionBuilder := MkFB {
  fb_name : string;
  fb_return_type : Z;
  fb_arg_types : list Z;
  fb_arg_values : list Z;
  fb_function_type : Z;
  fb_func : Z;
  fb_external : bool;
  fb_basic_blocks : list (Z * Z);
  fb_successors : list (list Z);
  fb_predecessors : list (list Z);
  fb_order : list Z;
  fb_instructions : list Z;
  fb_current : Z;
}.

(** The constructor.  [current_basic_block_] is not initialised by the C++
    constructor; [InitBody] sets it before any use. *)
Definition FunctionBuilder_new (name : string) (function_type result_type : Z)
    (arg_types : list Z) (external : bool) (func : Z) : FunctionBuilder :=
  MkFB name result_type arg_types [] function_type func external [] [] [] [] [] (-1).

Definition fb_set_body (f : FunctionBuilder) bbs succ pred order instrs cur :=
  MkFB (fb_name f) (fb_return_type f) (fb_arg_types f) (fb_arg_values f)
    (fb_function_type f) (fb_func f) (fb_external f) bbs succ pred order instrs cur.

Definition fb_set_arg_values (f : FunctionBuilder) vs :=
  MkFB (fb_name f) (fb_return_type f) (fb_arg_types f) vs
    (fb_function_type f) (fb_func f) (fb_external f) (fb_basic_blocks f)
    (fb_successors f) (fb_predecessors f) (fb_order f) (fb_instructions f)
    (fb_current f).

Definition GetFunctionArguments (f : FunctionBuilder) : Res (list Z) :=
  if fb_external f
  then Throw "Cannot get argument registers of external function"
  else Ok (fb_arg_values f).

Definition IsTerminatingInstr (opcode : option Opcode) : bool :=
  match opcode with
  | Some BR | Some CONDBR | Some RETURN | Some RETURN_VALUE => true
  | _ => false
  end.

(** [edges[i].push_back(x)]. *)
Definition push_edge (edges : list (list Z)) (i x : Z) : Res (list (list Z)) :=
  row ← vec_at edges i; vec_set edges i (row ++ [x]).

Definition UpdateSuccessors (pred succ : list (list Z)) (curr instr : Z)
    : Res (list (list Z) * list (list Z)) :=
  match OpcodeFrom (GenericInstructionReader_Opcode instr) with
  | Some BR =>
      succ ← push_edge succ curr (Type5_Marg0 instr);
      pred ← push_edge pred (Type5_Marg0 instr) curr;
      Ok (pred, succ)
  | Some CONDBR =>
      succ ← push_edge succ curr (Type5_Marg0 instr);
      pred ← push_edge pred (Type5_Marg0 instr) curr;
      succ ← push_edge succ curr (Type5_Marg1 instr);
      pred ← push_edge pred (Type5_Marg1 instr) curr;
      Ok (pred, succ)
  | _ => Ok (pred, succ)
  end.

Definition FB_Append (f : FunctionBuilder) (instr : Z) : Res (Z * FunctionBuilder) :=
  if fb_external f then Throw "Cannot get add body to external function" else
  let idx := vec_size (fb_instructions f) in
  let instrs := fb_instructions f ++ [instr] in
  let cur := fb_current f in
  '(first, second) ← vec_at (fb_basic_blocks f) cur;
  if 0 <=? second then Throw "Cannot append to terminated basic block." else
  let first := if first <? 0 then idx else first in
  '(bbs, pred, succ, order) ←
    (if IsTerminatingInstr (OpcodeFrom (GenericInstructionReader_Opcode instr)) then
       bbs ← vec_set (fb_basic_blocks f) cur (first, idx);
       '(pred, succ) ← UpdateSuccessors (fb_predecessors f) (fb_successors f) cur instr;
       Ok (bbs, pred, succ, fb_order f ++ [cur])
     else
       bbs ← vec_set (fb_basic_blocks f) cur (first, second);
       Ok (bbs, fb_predecessors f, fb_successors f, fb_order f));
  v ← Value_make (u32 idx) false;
  Ok (v, fb_set_body f bbs succ pred order instrs cur).

Definition FB_Update (f : FunctionBuilder) (pos instr : Z) : Res FunctionBuilder :=
  if fb_external f then Throw "Cannot mutate body of external function" else
  instrs ← vec_set (fb_instructions f) (Value_GetIdx pos) instr;
  Ok (fb_set_body f (fb_basic_blocks f) (fb_successors f) (fb_predecessors f)
        (fb_order f) instrs (fb_current f)).

Definition FB_GenerateBasicBlock (f : FunctionBuilder) : Res (Z * FunctionBuilder) :=
  if fb_external f then Throw "Cannot update body of external function" else
  Ok (vec_size (fb_basic_blocks f),
      fb_set_body f (fb_basic_blocks f ++ [(-1, -1)]) (fb_successors f ++ [[]])
        (fb_predecessors f ++ [[]]) (fb_order f) (fb_instructions f) (fb_current f)).

Definition FB_SetCurrentBasicBlock (f : FunctionBuilder) (id : Z) : Res FunctionBuilder :=
  if fb_external f then Throw "Cannot update body of external function" else
  Ok (fb_set_body f (fb_basic_blocks f) (fb_successors f) (fb_predecessors f)
        (fb_order f) (fb_instructions f) id).

Definition FB_GetCurrentBasicBlock (f : FunctionBuilder) : Res Z :=
  if fb_external f then Throw "Cannot get body of external function" else
  Ok (fb_current f).

(** The argument is ignored: the source tests [basic_blocks_[current_basic_block_]]. *)
Definition FB_IsTerminated (f : FunctionBuilder) (basic_block_id : Z) : Res bool :=
  if fb_external f then Throw "Cannot get body of external function" else
  '(_, second) ← vec_at (fb_basic_blocks f) (fb_current f);
  Ok (0 <=? second).

(** The loop of [InitBody]: one FUNC_ARG instruction per argument. *)
Fixpoint init_args (f : FunctionBuilder) (i : Z) (types : list Z) : Res FunctionBuilder :=
  match types with
  | [] => Ok f
  | t :: types =>
      '(v, f) ← FB_Append f
        (Type3_SetTypeID (Type3_SetSarg
           (Type3_SetOpcode Type3InstructionBuilder (OpcodeTo FUNC_ARG)) i) t);
      init_args (fb_set_arg_values f (fb_arg_values f ++ [v])) (i + 1) types
  end.

Definition FB_InitBody (f : FunctionBuilder) : Res FunctionBuilder :=
  '(bb, f) ← FB_GenerateBasicBlock f;
  init_args (fb_set_body f (fb_basic_blocks f) (fb_successors f) (fb_predecessors f)
               (fb_order f) (fb_instructions f) bb) 0 (fb_arg_types f).

(** ** The control-flow invariant *)

(** The blocks a terminator names. *)
Definition targets (instr : Z) : list Z :=
  match OpcodeFrom (GenericInstructionReader_Opcode instr) with
  | Some BR => [Type5_Marg0 instr]
  | Some CONDBR => [Type5_Marg0 instr; Type5_Marg1 instr]
  | _ => []
  end.

Definition terminates (instr : Z) : bool :=
  IsTerminatingInstr (OpcodeFrom (GenericInstructionReader_Opcode instr)).

(** The row of an adjacency vector, and how often an edge occurs in it. *)
Definition row (E : list (list Z)) (i : Z) : list Z :=
  if i <? 0 then [] else default [] (E !! Z.to_nat i).

Definition edge_count (E : list (list Z)) (i j : Z) : nat :=
  count_occ Z.eq_dec (row E i) j.

(** The two adjacency vectors record the same edges, with multiplicity. *)
Definition mirror (succ pred : list (list Z)) : Prop :=
  forall a b, edge_count succ a b = edge_count pred b a.

Definition closed_block (f : FunctionBuilder) (b : Z) : Prop :=
  0 <= b /\ exists s e, fb_basic_blocks f !! Z.to_nat b = Some (s, e) /\ 0 <= e.

(** What a block record says about the instruction vector: an open block has
    no successor; a closed one is a non-empty range that ends with a terminator
    whose targets are the block's successors. *)
Definition block_ok (f : FunctionBuilder) (b : nat) (s e : Z) : Prop :=
  (e < 0 /\ s < vec_size (fb_instructions f) /\
   row (fb_successors f) (Z.of_nat b) = []) \/
  (0 <= s <= e /\ exists instr,
     fb_instructions f !! Z.to_nat e = Some instr /\ terminates instr = true /\
     row (fb_successors f) (Z.of_nat b) = targets instr).

Record fb_wf (f : FunctionBuilder) : Prop := {
  wf_succ_len : length (fb_successors f) = length (fb_basic_blocks f);
  wf_pred_len : length (fb_predecessors f) = length (fb_basic_blocks f);
  wf_blocks : forall b s e,
    fb_basic_blocks f !! b = Some (s, e) -> block_ok f b s e;
  wf_mirror : mirror (fb_successors f) (fb_predecessors f);
  wf_ends : forall b b' s s' e, 0 <= e ->
    fb_basic_blocks f !! b = Some (s, e) -> fb_basic_blocks f !! b' = Some (s', e) -> b = b';
  wf_order : NoDup (fb_order f) /\ forall b, b ∈ fb_order f <-> closed_block f b;
  wf_size : vec_size (fb_instructions f) <= 2 ^ 23;
}.

Lemma row_push E i x E' : push_edge E i x = Ok E' ->
  length E' = length E /\
  forall a, row E' a = if decide (a = i) then row E a ++ [x] else row E a.
Proof.
  unfold push_edge. intros H. ok_inv.
  apply vec_at_Ok in H0 as [? Hr]. apply vec_set_Ok in H as [? ->].
  split; [by rewrite length_insert|]. intros a. unfold row.
  case_decide; subst.
  - rewrite (proj2 (Z.ltb_ge i 0)) by lia. rewrite Hr.
    rewrite list_lookup_insert_eq; [done|]. by eapply lookup_lt_Some.
  - destruct (Z.ltb_spec a 0); [done|]. rewrite list_lookup_insert_ne by lia. done.
Qed.

Lemma edge_count_push E i x E' : push_edge E i x = Ok E' ->
  forall a b, edge_count E' a b =
    (edge_count E a b + if decide (a = i /\ b = x) then 1 else 0)%nat.
Proof.
  intros H a b. apply row_push in H as [_ H]. unfold edge_count. rewrite H.
  case_decide; subst.
  - rewrite count_occ_app. cbn. destruct (Z.eq_dec x b) as [->|].
    + by rewrite decide_True by done.
    + rewrite decide_False by (intros [? ?]; congruence). lia.
  - rewrite decide_False by (intros [? ?]; congruence). lia.
Qed.

(** Recording an edge on both sides keeps the two vectors mirror images. *)
Lemma mirror_push succ pred i x succ' pred' :
  push_edge succ i x = Ok succ' -> push_edge pred x i = Ok pred' ->
  mirror succ pred -> mirror succ' pred'.
Proof.
  intros Hs Hp Hm a b.
  rewrite (edge_count_push _ _ _ _ Hs), (edge_count_push _ _ _ _ Hp), Hm.
  f_equal. by rewrite (decide_ext (a = i /\ b = x) (b = x /\ a = i)) by tauto.
Qed.

(** [UpdateSuccessors] appends the terminator's targets to the block's row and
    keeps the two adjacency vectors mirror images. *)
Lemma UpdateSuccessors_spec pred succ cur instr pred' succ' :
  UpdateSuccessors pred succ cur instr = Ok (pred', succ') ->
  length pred' = length pred /\ length succ' = length succ /\
  (forall a, row succ' a = if decide (a = cur) then row succ a ++ targets instr else row succ a) /\
  (mirror succ pred -> mirror succ' pred').
Proof.
  assert (Hid : forall a, row succ a = if decide (a = cur) then row succ a ++ [] else row succ a).
  { intros a. case_decide; by rewrite ?app_nil_r. }
  unfold UpdateSuccessors, targets.
  destruct (OpcodeFrom _) as [[]|]; intros H; ok_inv; simplify_eq; try done.
  - pose proof (row_push _ _ _ _ H0) as [Hl1 Hr1].
    pose proof (row_push _ _ _ _ H1) as [Hl2 _].
    pose proof (row_push _ _ _ _ H2) as [Hl3 Hr3].
    pose proof (row_push _ _ _ _ H3) as [Hl4 _].
    split_and!; [congruence|congruence| |].
    + intros a. rewrite Hr3, Hr1. repeat case_decide; try done. by rewrite <- app_assoc.
    + intros Hm. eapply mirror_push; [done..|]. by eapply mirror_push.
  - pose proof (row_push _ _ _ _ H0) as [Hl1 Hr1].
    pose proof (row_push _ _ _ _ H1) as [Hl2 _].
    split_and!; [done..|]. by apply mirror_push with (1 := H0).
Qed.

(** A block record stays right when instructions are appended and its own
    successors do not change. *)
Lemma block_ok_extend f f' b s e ext :
  fb_instructions f' = fb_instructions f ++ ext ->
  row (fb_successors f') (Z.of_nat b) = row (fb_successors f) (Z.of_nat b) ->
  block_ok f b s e -> block_ok f' b s e.
Proof.
  intros Hi Hr [(?&?&?)|(?&instr&?&?&?)]; [left|right]; rewrite Hr.
  - rewrite Hi. unfold vec_size in *. rewrite length_app. split_and!; try done; lia.
  - split; [done|]. exists instr. rewrite Hi. split_and!; try done.
    by apply lookup_app_l_Some.
Qed.

(** What [Append] does to the state when it returns. *)
Lemma FB_Append_inv f instr v f' : FB_Append f instr = Ok (v, f') ->
  let idx := vec_size (fb_instructions f) in
  let cur := fb_current f in
  0 <= cur /\ v = u32 idx /\ u32 idx <= 0x7FFFFF /\
  fb_instructions f' = fb_instructions f ++ [instr] /\ fb_current f' = cur /\
  fb_external f' = fb_external f /\
  exists s e, fb_basic_blocks f !! Z.to_nat cur = Some (s, e) /\ e < 0 /\
    let first := if s <? 0 then idx else s in
    if terminates instr then
      fb_basic_blocks f' = <[Z.to_nat cur := (first, idx)]> (fb_basic_blocks f) /\
      fb_order f' = fb_order f ++ [cur] /\
      UpdateSuccessors (fb_predecessors f) (fb_successors f) cur instr
        = Ok (fb_predecessors f', fb_successors f')
    else
      fb_basic_blocks f' = <[Z.to_nat cur := (first, e)]> (fb_basic_blocks f) /\
      fb_order f' = fb_order f /\ fb_predecessors f' = fb_predecessors f /\
      fb_successors f' = fb_successors f.
Proof.
  unfold FB_Append, terminates. destruct (fb_external f) eqn:He; [done|].
  intros H. ok_inv. destruct x as [s e]. apply vec_at_Ok in H0 as [Hc Hb].
  destruct (Z.leb_spec 0 e); [done|]. ok_inv.
  destruct x as [[[bbs pred] succ] order]. ok_inv.
  unfold Value_make in H2.
  destruct (Z.ltb_spec 0x7FFFFF (u32 (vec_size (fb_instructions f)))); [done|].
  ok_inv. simplify_eq. split_and!; [done..|]. exists s, e. split_and!; [done..|].
  cbv zeta. destruct (IsTerminatingInstr _); ok_inv; ok_pairs; simplify_eq;
    repeat match goal with H : vec_set _ _ _ = Ok _ |- _ =>
      apply vec_set_Ok in H as [_ ->] end; done.
Qed.

Lemma row_open f : fb_wf f -> forall b s e,
  fb_basic_blocks f !! Z.to_nat b = Some (s, e) -> 0 <= b -> e < 0 ->
  row (fb_successors f) b = [].
Proof.
  intros Hwf b s e Hb ? ?. destruct (wf_blocks f Hwf _ _ _ Hb) as [(?&?&Hr)|(?&?)]; [|lia].
  by rewrite Z2Nat.id in Hr by lia.
Qed.

(** Closing the current block adds exactly that block to the closed ones. *)
Lemma closed_block_insert f f' cur s e s' e' :
  0 <= cur -> fb_basic_blocks f !! Z.to_nat cur = Some (s, e) -> e < 0 ->
  fb_basic_blocks f' = <[Z.to_nat cur := (s', e')]> (fb_basic_blocks f) ->
  forall b, closed_block f' b <-> closed_block f b \/ (b = cur /\ 0 <= e').
Proof.
  intros Hc Hb He Hf b. unfold closed_block. rewrite Hf.
  destruct (decide (b = cur)) as [->|Hne].
  - rewrite list_lookup_insert_eq by (by eapply lookup_lt_Some).
    split; [intros (?&?&?&[= <- <-]&?); by right|].
    intros [(?&?&?&Hl&?)|[_ ?]]; [rewrite Hb in Hl; simplify_eq; lia|eauto].
  - split.
    + intros (?&?&?&Hl&?). rewrite list_lookup_insert_ne in Hl by lia. left; eauto.
    + intros [(?&?&?&?&?)|[? ?]]; [|done]. split; [done|].
      rewrite list_lookup_insert_ne by lia. eauto.
Qed.

(** No block ends behind the last instruction. *)
Lemma block_end_lt f : fb_wf f -> forall b s e,
  fb_basic_blocks f !! b = Some (s, e) -> e < vec_size (fb_instructions f).
Proof.
  intros Hwf b s e Hb. unfold vec_size.
  destruct (wf_blocks f Hwf _ _ _ Hb) as [(?&?&?)|(?&i&Hi&_)]; [lia|].
  apply lookup_lt_Some in Hi. lia.
Qed.

(** Terminators stay distinct when the current block is closed by a new
    instruction, or gets its first instruction. *)
Lemma ends_insert f f' cur s e : fb_wf f ->
  fb_basic_blocks f' = <[cur := (s, e)]> (fb_basic_blocks f) ->
  e < 0 \/ vec_size (fb_instructions f) <= e ->
  forall b b' s s' e, 0 <= e ->
    fb_basic_blocks f' !! b = Some (s, e) -> fb_basic_blocks f' !! b' = Some (s', e) -> b = b'.
Proof.
  intros Hwf Hbb He b b' s1 s2 e' Hp Hb Hb'. rewrite Hbb in Hb, Hb'.
  apply list_lookup_insert_Some in Hb as [(<- & [= <- <-] & _)|[? Hb]];
    apply list_lookup_insert_Some in Hb' as [(<- & E & _)|[? Hb']]; [done| | |].
  - pose proof (block_end_lt f Hwf _ _ _ Hb'). lia.
  - injection E as <- <-. pose proof (block_end_lt f Hwf _ _ _ Hb). lia.
  - by eapply (wf_ends f Hwf).
Qed.

Lemma FB_Append_wf f instr v f' :
  fb_wf f -> FB_Append f instr = Ok (v, f') -> fb_wf f'.
Proof.
  intros Hwf H. apply FB_Append_inv in H as
    (Hcur & Hv & Hle & Hins & _ & _ & s & e & Hb & He & Hrest).
  pose proof (wf_size f Hwf). unfold vec_size in *.
  assert (Hlt : (Z.to_nat (fb_current f) < length (fb_basic_blocks f))%nat)
    by (by eapply lookup_lt_Some).
  pose proof (row_open f Hwf _ _ _ Hb Hcur He) as Hrow.
  pose proof (wf_blocks f Hwf) as Hblk. pose proof (Hblk _ _ _ Hb) as Hcurok.
  rewrite uw_id in Hle by (unfold is_uw; lia).
  destruct (terminates instr) eqn:Ht.
  - destruct Hrest as (Hbb & Hord & Hupd).
    apply UpdateSuccessors_spec in Hupd as (Hlp & Hls & Hr & Hm).
    split.
    + by rewrite Hls, Hbb, length_insert, (wf_succ_len f Hwf).
    + by rewrite Hlp, Hbb, length_insert, (wf_pred_len f Hwf).
    + intros b s' e' Hb'. rewrite Hbb in Hb'.
      apply list_lookup_insert_Some in Hb' as [(<- & [= <- <-] & _)|[Hne Hb']].
      * right. rewrite Z2Nat.id by lia. rewrite Hr, decide_True, Hrow by done.
        split; [destruct Hcurok as [(?&?&?)|?]; unfold vec_size in *;
                destruct (Z.ltb_spec s 0); lia|].
        exists instr. rewrite Hins, Nat2Z.id, list_lookup_middle by done. done.
      * eapply block_ok_extend; [done| |by apply Hblk].
        rewrite Hr, decide_False by lia. done.
    + apply Hm, (wf_mirror f Hwf).
    + eapply ends_insert; [done..|]. right. unfold vec_size. lia.
    + rewrite Hord. destruct (wf_order f Hwf) as [Hnd Hin].
      split; [apply list.NoDup_app; split_and!; [done| |apply NoDup_singleton]|].
      * intros b Hbo ->%list_elem_of_singleton. apply Hin in Hbo as (_&?&?&?&?). simplify_eq. lia.
      * intros b. rewrite elem_of_app, Hin, list_elem_of_singleton.
        rewrite (closed_block_insert f f' _ _ _ _ _ Hcur Hb He Hbb). intuition lia.
    + unfold vec_size. rewrite Hins, length_app. cbn. lia.
  - destruct Hrest as (Hbb & Hord & Hp & Hs).
    split; rewrite ?Hp, ?Hs.
    + by rewrite Hbb, length_insert, (wf_succ_len f Hwf).
    + by rewrite Hbb, length_insert, (wf_pred_len f Hwf).
    + intros b s' e' Hb'. rewrite Hbb in Hb'.
      apply list_lookup_insert_Some in Hb' as [(<- & [= <- <-] & _)|[Hne Hb']].
      * left. rewrite Z2Nat.id, Hs by lia. unfold vec_size. rewrite Hins, length_app.
        destruct Hcurok as [(?&?&?)|?]; unfold vec_size in *;
          destruct (Z.ltb_spec s 0); cbn; split_and!; try done; lia.
      * eapply block_ok_extend; [done|by rewrite Hs|by apply Hblk].
    + apply (wf_mirror f Hwf).
    + eapply ends_insert; [done..|]. by left.
    + rewrite Hord. destruct (wf_order f Hwf) as [Hnd Hin]. split; [done|].
      intros b. rewrite Hin, (closed_block_insert f f' _ _ _ _ _ Hcur Hb He Hbb).
      intuition lia.
    + unfold vec_size. rewrite Hins, length_app. cbn. lia.
Qed.

(** ** Reachable states

    The mutations of a function builder: a block is generated, the current
    block is switched, an instruction is appended, an argument handle is
    recorded, and [UpdatePhiMember] rewrites the first argument of an
    instruction that is not a terminator. *)
Inductive fb_step : FunctionBuilder -> FunctionBuilder -> Prop :=
| step_append f instr v f' : FB_Append f instr = Ok (v, f') -> fb_step f f'
| step_generate f id f' : FB_GenerateBasicBlock f = Ok (id, f') -> fb_step f f'
| step_set_current f id f' : FB_SetCurrentBasicBlock f id = Ok f' -> fb_step f f'
| step_arg f v : fb_step f (fb_set_arg_values f (fb_arg_values f ++ [v]))
| step_update f pos old arg0 f' :
    fb_instructions f !! Z.to_nat (Value_GetIdx pos) = Some old ->
    terminates old = false ->
    FB_Update f pos (Type2_SetArg0 old arg0) = Ok f' -> fb_step f f'.

Lemma fb_new_wf n ft rt args ext func : fb_wf (FunctionBuilder_new n ft rt args ext func).
Proof.
  split; cbn; try done.
  - intros a b. unfold edge_count, row. by case_match; case_match.
  - split; [apply NoDup_nil_2|]. intros b. split; [by intros ?%not_elem_of_nil|].
    intros (?&?&?&?&?). done.
Qed.

Lemma row_app_nil E a : row (E ++ [[]]) a = row E a.
Proof.
  unfold row. destruct (Z.ltb_spec a 0); [done|].
  destruct (decide (Z.to_nat a < length E)%nat).
  - by rewrite lookup_app_l.
  - rewrite lookup_app_r by lia. rewrite (lookup_ge_None_2 E) by lia.
    by destruct (Z.to_nat a - length E)%nat.
Qed.

Lemma FB_Generate_wf f id f' : fb_wf f -> FB_GenerateBasicBlock f = Ok (id, f') -> fb_wf f'.
Proof.
  intros Hwf. unfold FB_GenerateBasicBlock. destruct (fb_external f); [done|].
  intros [= <- <-]. split; cbn.
  - by rewrite !length_app, (wf_succ_len f Hwf).
  - by rewrite !length_app, (wf_pred_len f Hwf).
  - intros b s e Hb. unfold block_ok; cbn. rewrite row_app_nil.
    apply lookup_app_Some in Hb as [Hb|[? Hb]]; [by apply (wf_blocks f Hwf)|].
    apply list_lookup_singleton_Some in Hb as [? [= <- <-]]. left.
    split_and!; [done|unfold vec_size; lia|]. unfold row.
    rewrite (proj2 (Z.ltb_ge _ _)) by lia.
    rewrite Nat2Z.id, lookup_ge_None_2; [done|]. rewrite (wf_succ_len f Hwf). lia.
  - intros a b. unfold edge_count. rewrite !row_app_nil. apply (wf_mirror f Hwf).
  - intros b b' s s' e He Hb Hb'.
    apply lookup_app_Some in Hb as [Hb|[_ Hb]];
      [|apply list_lookup_singleton_Some in Hb as [_ [= <- <-]]; lia].
    apply lookup_app_Some in Hb' as [Hb'|[_ Hb']];
      [|apply list_lookup_singleton_Some in Hb' as [_ [= <- <-]]; lia].
    by eapply (wf_ends f Hwf).
  - destruct (wf_order f Hwf) as [? Hin]. split; [done|]. intros b. rewrite Hin.
    unfold closed_block; cbn. split.
    + intros (?&s&e&?&?). split; [done|]. exists s, e. split; [by apply lookup_app_l_Some|done].
    + intros (?&s&e&Hb&?). split; [done|].
      apply lookup_app_Some in Hb as [Hb|[? Hb]]; [eauto|].
      apply list_lookup_singleton_Some in Hb as [? [= <- <-]]. lia.
  - apply (wf_size f Hwf).
Qed.

(** Rewriting an argument keeps the opcode. *)
Lemma SetArg0_opcode old arg0 : terminates (Type2_SetArg0 old arg0) = terminates old.
Proof. unfold terminates. by bf_simpl. Qed.

Lemma FB_Update_wf f pos old instr f' :
  fb_wf f -> fb_instructions f !! Z.to_nat (Value_GetIdx pos) = Some old ->
  terminates old = false -> FB_Update f pos instr = Ok f' -> fb_wf f'.
Proof.
  intros Hwf Hold Hto. unfold FB_Update. destruct (fb_external f); [done|].
  intros H. ok_inv. apply vec_set_Ok in H0 as [Hpos ->]. subst f'.
  split; cbn; try apply Hwf; [|unfold vec_size; rewrite length_insert; apply Hwf].
  intros b s e Hb. destruct (wf_blocks f Hwf _ _ _ Hb) as [(?&?&?)|(?&i&Hi&Ht&?)].
  - left. cbn. unfold vec_size. by rewrite length_insert.
  - right. split; [done|]. exists i. cbn. split_and!; [|done..].
    rewrite list_lookup_insert_ne; [done|]. intros Heq. rewrite <- Heq in Hi. congruence.
Qed.

Lemma fb_step_wf f f' : fb_wf f -> fb_step f f' -> fb_wf f'.
Proof.
  intros Hwf Hs. destruct Hs as [f instr v f' H|f id f' H|f id f' H|f v|f pos old a f' Hi Ht H];
    eauto using FB_Append_wf, FB_Generate_wf, FB_Update_wf.
  - unfold FB_SetCurrentBasicBlock in H. destruct (fb_external f); [done|].
    simplify_eq. by destruct Hwf.
  - by destruct Hwf.
Qed.

(** The states a function builder can be in. *)
Definition fb_reachable (f : FunctionBuilder) : Prop :=
  exists n ft rt args ext func, rtc fb_step (FunctionBuilder_new n ft rt args ext func) f.

Lemma fb_reachable_wf f : fb_reachable f -> fb_wf f.
Proof.
  intros (n & ft & rt & args & ext & func & H).
  remember (FunctionBuilder_new n ft rt args ext func) as f0 eqn:E.
  assert (Hwf : fb_wf f0) by (subst; apply fb_new_wf). clear E.
  induction H; eauto using fb_step_wf.
Qed.

(** C31.  Control-flow consistency: in every state a function builder can reach,
    each terminated block is a non-empty instruction range ending in its
    terminator with exactly the terminator's targets as successors, each
    unterminated block has none, predecessor lists mirror successor lists edge
    by edge, and the block order lists each terminated block once. *)
Theorem function_builder_invariant (f : FunctionBuilder) : fb_reachable f -> fb_wf f.
Proof. apply fb_reachable_wf. Qed.

(** A function with one block that returns. *)
Lemma function_builder_invariant_witness :
  exists f, fb_wf f /\ fb_order f = [0] /\ fb_basic_blocks f = [(0, 0)].
Proof.
  set (f0 := FunctionBuilder_new "f" 0 0 [] false 0).
  destruct (FB_GenerateBasicBlock f0) as [[id f1]| | |] eqn:E1; [|done..].
  destruct (FB_SetCurrentBasicBlock f1 0) as [f2| | |] eqn:E2; [|by injection E1 as <- <-..].
  destruct (FB_Append f2 (Type1_SetOpcode 0 (OpcodeTo RETURN))) as [[v f3]| | |] eqn:E3.
  2-4: injection E1 as <- <-; injection E2 as <-; by vm_compute in E3.
  exists f3. split.
  - apply function_builder_invariant. exists "f", 0, 0, [], false, 0.
    eapply rtc_l; [by eapply step_generate|]. eapply rtc_l; [by eapply step_set_current|].
    eapply rtc_l; [by eapply step_append|apply rtc_refl].
  - injection E1 as <- <-. injection E2 as <-. vm_compute in E3. by injection E3 as <- <-.
Defined.
