(* ===== verification/ProgramBuilder.v ===== *)
(** * Building a KHIR program

    [ProgramBuilder] of src/khir/program_builder.h and .cc: the functions being
    built, the pool of constants shared by them, and one method per KHIR
    operation.  A method of two constants folds; any other call appends an
    instruction to the current function.

    The type manager (src/khir/type_manager.cc) rests on LLVM types and LLVM's
    data layout; it is an argument of the builder, described by the operations
    the builder calls ([TypeManagerOps]).  Doubles are IEEE 754 binary64
    ([SpecFloat] of the standard library). *)
From Stdlib Require Import SpecFloat.
From stdpp Require Import pretty.
From S2P Require Import Prelude Opcode Instruction FunctionBuilder.

(** ** binary64 *)
Definition prec : Z := 53.
Definition emax : Z := 1024.
Definition F_add : spec_float -> spec_float -> spec_float := SFadd prec emax.
Definition F_sub : spec_float -> spec_float -> spec_float := SFsub prec emax.
Definition F_mul : spec_float -> spec_float -> spec_float := SFmul prec emax.
Definition F_div : spec_float -> spec_float -> spec_float := SFdiv prec emax.
(** Conversion of an integer to double, rounding to nearest even. *)
Definition F_of_Z (z : Z) : spec_float := binary_normalize prec emax z 0 false.
(** Truncation towards zero; infinities and NaN have no integer value. *)
Definition F_trunc (f : spec_float) : option Z :=
  match f with
  | S754_zero _ => Some 0
  | S754_finite s m e =>
      let a := Z.shiftl (Zpos m) e in Some (if s then - a else a)
  | _ => None
  end.

Inductive CompType : Set := EQ | NE | LT | LE | GT | GE.

(** ** The type manager's operations the builder calls *)
Class TypeManagerOps (TM : Type) := {
  tm_OpaqueType : TM -> string -> Res (Z * TM);
  tm_StructType : TM -> list Z -> Res (Z * TM);
  tm_NamedStructType : TM -> list Z -> string -> Res (Z * TM);
  tm_PointerType : TM -> Z -> Res (Z * TM);
  tm_ArrayType : TM -> Z -> Z -> Res (Z * TM);
  tm_FunctionType : TM -> Z -> list Z -> Res (Z * TM);
  tm_GetOpaqueType : TM -> string -> Res Z;
  tm_GetNamedStructType : TM -> string -> Res Z;
  tm_GetPointerElementType : TM -> Z -> Res Z;
  tm_GetFunctionReturnType : TM -> Z -> Res Z;
  tm_IsPtrType : TM -> Z -> Res bool;
  tm_IsFuncType : TM -> Z -> Res bool;
  tm_GetPointerOffset : TM -> Z -> list Z -> bool -> Res (Z * Z);
  tm_GetTypeSize : TM -> Z -> Res Z;
}.

(** The fixed type numbers of [TypeManager]. *)
Definition VoidType : Z := 0.
Definition I1Type : Z := 1.
Definition I8Type : Z := 2.
Definition I16Type : Z := 3.
Definition I32Type : Z := 4.
Definition I64Type : Z := 5.
Definition F64Type : Z := 6.
Definition I32Vec8Type : Z := 7.
Definition I1Vec8Type : Z := 8.
Definition I8PtrType : Z := 9.
Definition I32Vec8PtrType : Z := 10.

(** ** State *)
Record ProgramBuilder (TM : Type) := MkPB {
  type_manager : TM;
  functions : list FunctionBuilder;
  current_function : Z;
  name_to_function : gmap string Z;
  constant_instrs : list Z;
  ptr_constants : list Z;
  i64_constants : list Z;
  f64_constants : list spec_float;
  char_array_constants : list string;
  struct_constants : list (Z * list Z);
  array_constants : list (Z * list Z);
  vec4_constants : list (list Z);
  vec8_constants : list (list Z);
  globals : list (Z * Z * Z);
  i1_const_to_value : gmap Z Z;
  i8_const_to_value : gmap Z Z;
  i16_const_to_value : gmap Z Z;
  i32_const_to_value : gmap Z Z;
  i64_const_to_value : gmap Z Z;
  f64_const_to_value : list (spec_float * Z);
  ptr_const_to_value : gmap Z Z;
  string_const_to_value : gmap string Z;
}.
Arguments type_manager {TM} _.
Arguments functions {TM} _.
Arguments current_function {TM} _.
Arguments name_to_function {TM} _.
Arguments constant_instrs {TM} _.
Arguments ptr_constants {TM} _.
Arguments i64_constants {TM} _.
Arguments f64_constants {TM} _.
Arguments char_array_constants {TM} _.
Arguments struct_constants {TM} _.
Arguments array_constants {TM} _.
Arguments vec4_constants {TM} _.
Arguments vec8_constants {TM} _.
Arguments globals {TM} _.
Arguments i1_const_to_value {TM} _.
Arguments i8_const_to_value {TM} _.
Arguments i16_const_to_value {TM} _.
Arguments i32_const_to_value {TM} _.
Arguments i64_const_to_value {TM} _.
Arguments f64_const_to_value {TM} _.
Arguments ptr_const_to_value {TM} _.
Arguments string_const_to_value {TM} _.
Arguments MkPB {TM}.

Definition set_type_manager {TM} (v : TM) (pb : ProgramBuilder TM) : ProgramBuilder TM :=
  MkPB v (functions pb) (current_function pb) (name_to_function pb)
    (constant_instrs pb) (ptr_constants pb) (i64_constants pb) (f64_constants pb)
    (char_array_constants pb) (struct_constants pb) (array_constants pb)
    (vec4_constants pb) (vec8_constants pb) (globals pb) (i1_const_to_value pb)
    (i8_const_to_value pb) (i16_const_to_value pb) (i32_const_to_value pb)
    (i64_const_to_value pb) (f64_const_to_value pb) (ptr_const_to_value pb)
    (string_const_to_value pb).
Definition set_functions {TM} (v : list FunctionBuilder) (pb : ProgramBuilder TM) : ProgramBuilder TM :=
  MkPB (type_manager pb) v (current_function pb) (name_to_function pb)
    (constant_instrs pb) (ptr_constants pb) (i64_constants pb) (f64_constants pb)
    (char_array_constants pb) (struct_constants pb) (array_constants pb)
    (vec4_constants pb) (vec8_constants pb) (globals pb) (i1_const_to_value pb)
    (i8_const_to_value pb) (i16_const_to_value pb) (i32_const_to_value pb)
    (i64_const_to_value pb) (f64_const_to_value pb) (ptr_const_to_value pb)
    (string_const_to_value pb).
Definition set_current_function {TM} (v : Z) (pb : ProgramBuilder TM) : ProgramBuilder TM :=
  MkPB (type_manager pb) (functions pb) v (name_to_function pb) (constant_instrs pb)
    (ptr_constants pb) (i64_constants pb) (f64_constants pb)
    (char_array_constants pb) (struct_constants pb) (array_constants pb)
    (vec4_constants pb) (vec8_constants pb) (globals pb) (i1_const_to_value pb)
    (i8_const_to_value pb) (i16_const_to_value pb) (i32_const_to_value pb)
    (i64_const_to_value pb) (f64_const_to_value pb) (ptr_const_to_value pb)
    (string_const_to_value pb).
Definition set_name_to_function {TM} (v : gmap string Z) (pb : ProgramBuilder TM) : ProgramBuilder TM :=
  MkPB (type_manager pb) (functions pb) (current_function pb) v (constant_instrs pb)
    (ptr_constants pb) (i64_constants pb) (f64_constants pb)
    (char_array_constants pb) (struct_constants pb) (array_constants pb)
    (vec4_constants pb) (vec8_constants pb) (globals pb) (i1_const_to_value pb)
    (i8_const_to_value pb) (i16_const_to_value pb) (i32_const_to_value pb)
    (i64_const_to_value pb) (f64_const_to_value pb) (ptr_const_to_value pb)
    (string_const_to_value pb).
Definition set_constant_instrs {TM} (v : list Z) (pb : ProgramBuilder TM) : ProgramBuilder TM :=
  MkPB (type_manager pb) (functions pb) (current_function pb) (name_to_function pb) v
    (ptr_constants pb) (i64_constants pb) (f64_constants pb)
    (char_array_constants pb) (struct_constants pb) (array_constants pb)
    (vec4_constants pb) (vec8_constants pb) (globals pb) (i1_const_to_value pb)
    (i8_const_to_value pb) (i16_const_to_value pb) (i32_const_to_value pb)
    (i64_const_to_value pb) (f64_const_to_value pb) (ptr_const_to_value pb)
    (string_const_to_value pb).
Definition set_ptr_constants {TM} (v : list Z) (pb : ProgramBuilder TM) : ProgramBuilder TM :=
  MkPB (type_manager pb) (functions pb) (current_function pb) (name_to_function pb)
    (constant_instrs pb) v (i64_constants pb) (f64_constants pb)
    (char_array_constants pb) (struct_constants pb) (array_constants pb)
    (vec4_constants pb) (vec8_constants pb) (globals pb) (i1_const_to_value pb)
    (i8_const_to_value pb) (i16_const_to_value pb) (i32_const_to_value pb)
    (i64_const_to_value pb) (f64_const_to_value pb) (ptr_const_to_value pb)
    (string_const_to_value pb).
Definition set_i64_constants {TM} (v : list Z) (pb : ProgramBuilder TM) : ProgramBuilder TM :=
  MkPB (type_manager pb) (functions pb) (current_function pb) (name_to_function pb)
    (constant_instrs pb) (ptr_constants pb) v (f64_constants pb)
    (char_array_constants pb) (struct_constants pb) (array_constants pb)
    (vec4_constants pb) (vec8_constants pb) (globals pb) (i1_const_to_value pb)
    (i8_const_to_value pb) (i16_const_to_value pb) (i32_const_to_value pb)
    (i64_const_to_value pb) (f64_const_to_value pb) (ptr_const_to_value pb)
    (string_const_to_value pb).
Definition set_f64_constants {TM} (v : list spec_float) (pb : ProgramBuilder TM) : ProgramBuilder TM :=
  MkPB (type_manager pb) (functions pb) (current_function pb) (name_to_function pb)
    (constant_instrs pb) (ptr_constants pb) (i64_constants pb) v
    (char_array_constants pb) (struct_constants pb) (array_constants pb)
    (vec4_constants pb) (vec8_constants pb) (globals pb) (i1_const_to_value pb)
    (i8_const_to_value pb) (i16_const_to_value pb) (i32_const_to_value pb)
    (i64_const_to_value pb) (f64_const_to_value pb) (ptr_const_to_value pb)
    (string_const_to_value pb).
Definition set_char_array_constants {TM} (v : list string) (pb : ProgramBuilder TM) : ProgramBuilder TM :=
  MkPB (type_manager pb) (functions pb) (current_function pb) (name_to_function pb)
    (constant_instrs pb) (ptr_constants pb) (i64_constants pb) (f64_constants pb) v
    (struct_constants pb) (array_constants pb) (vec4_constants pb)
    (vec8_constants pb) (globals pb) (i1_const_to_value pb) (i8_const_to_value pb)
    (i16_const_to_value pb) (i32_const_to_value pb) (i64_const_to_value pb)
    (f64_const_to_value pb) (ptr_const_to_value pb) (string_const_to_value pb).
Definition set_struct_constants {TM} (v : list (Z * list Z)) (pb : ProgramBuilder TM) : ProgramBuilder TM :=
  MkPB (type_manager pb) (functions pb) (current_function pb) (name_to_function pb)
    (constant_instrs pb) (ptr_constants pb) (i64_constants pb) (f64_constants pb)
    (char_array_constants pb) v (array_constants pb) (vec4_constants pb)
    (vec8_constants pb) (globals pb) (i1_const_to_value pb) (i8_const_to_value pb)
    (i16_const_to_value pb) (i32_const_to_value pb) (i64_const_to_value pb)
    (f64_const_to_value pb) (ptr_const_to_value pb) (string_const_to_value pb).
Definition set_array_constants {TM} (v : list (Z * list Z)) (pb : ProgramBuilder TM) : ProgramBuilder TM :=
  MkPB (type_manager pb) (functions pb) (current_function pb) (name_to_function pb)
    (constant_instrs pb) (ptr_constants pb) (i64_constants pb) (f64_constants pb)
    (char_array_constants pb) (struct_constants pb) v (vec4_constants pb)
    (vec8_constants pb) (globals pb) (i1_const_to_value pb) (i8_const_to_value pb)
    (i16_const_to_value pb) (i32_const_to_value pb) (i64_const_to_value pb)
    (f64_const_to_value pb) (ptr_const_to_value pb) (string_const_to_value pb).
Definition set_vec4_constants {TM} (v : list (list Z)) (pb : ProgramBuilder TM) : ProgramBuilder TM :=
  MkPB (type_manager pb) (functions pb) (current_function pb) (name_to_function pb)
    (constant_instrs pb) (ptr_constants pb) (i64_constants pb) (f64_constants pb)
    (char_array_constants pb) (struct_constants pb) (array_constants pb) v
    (vec8_constants pb) (globals pb) (i1_const_to_value pb) (i8_const_to_value pb)
    (i16_const_to_value pb) (i32_const_to_value pb) (i64_const_to_value pb)
    (f64_const_to_value pb) (ptr_const_to_value pb) (string_const_to_value pb).
Definition set_vec8_constants {TM} (v : list (list Z)) (pb : ProgramBuilder TM) : ProgramBuilder TM :=
  MkPB (type_manager pb) (functions pb) (current_function pb) (name_to_function pb)
    (constant_instrs pb) (ptr_constants pb) (i64_constants pb) (f64_constants pb)
    (char_array_constants pb) (struct_constants pb) (array_constants pb)
    (vec4_constants pb) v (globals pb) (i1_const_to_value pb) (i8_const_to_value pb)
    (i16_const_to_value pb) (i32_const_to_value pb) (i64_const_to_value pb)
    (f64_const_to_value pb) (ptr_const_to_value pb) (string_const_to_value pb).
Definition set_globals {TM} (v : list (Z * Z * Z)) (pb : ProgramBuilder TM) : ProgramBuilder TM :=
  MkPB (type_manager pb) (functions pb) (current_function pb) (name_to_function pb)
    (constant_instrs pb) (ptr_constants pb) (i64_constants pb) (f64_constants pb)
    (char_array_constants pb) (struct_constants pb) (array_constants pb)
    (vec4_constants pb) (vec8_constants pb) v (i1_const_to_value pb)
    (i8_const_to_value pb) (i16_const_to_value pb) (i32_const_to_value pb)
    (i64_const_to_value pb) (f64_const_to_value pb) (ptr_const_to_value pb)
    (string_const_to_value pb).
Definition set_i1_const_to_value {TM} (v : gmap Z Z) (pb : ProgramBuilder TM) : ProgramBuilder TM :=
  MkPB (type_manager pb) (functions pb) (current_function pb) (name_to_function pb)
    (constant_instrs pb) (ptr_constants pb) (i64_constants pb) (f64_constants pb)
    (char_array_constants pb) (struct_constants pb) (array_constants pb)
    (vec4_constants pb) (vec8_constants pb) (globals pb) v (i8_const_to_value pb)
    (i16_const_to_value pb) (i32_const_to_value pb) (i64_const_to_value pb)
    (f64_const_to_value pb) (ptr_const_to_value pb) (string_const_to_value pb).
Definition set_i8_const_to_value {TM} (v : gmap Z Z) (pb : ProgramBuilder TM) : ProgramBuilder TM :=
  MkPB (type_manager pb) (functions pb) (current_function pb) (name_to_function pb)
    (constant_instrs pb) (ptr_constants pb) (i64_constants pb) (f64_constants pb)
    (char_array_constants pb) (struct_constants pb) (array_constants pb)
    (vec4_constants pb) (vec8_constants pb) (globals pb) (i1_const_to_value pb) v
    (i16_const_to_value pb) (i32_const_to_value pb) (i64_const_to_value pb)
    (f64_const_to_value pb) (ptr_const_to_value pb) (string_const_to_value pb).
Definition set_i16_const_to_value {TM} (v : gmap Z Z) (pb : ProgramBuilder TM) : ProgramBuilder TM :=
  MkPB (type_manager pb) (functions pb) (current_function pb) (name_to_function pb)
    (constant_instrs pb) (ptr_constants pb) (i64_constants pb) (f64_constants pb)
    (char_array_constants pb) (struct_constants pb) (array_constants pb)
    (vec4_constants pb) (vec8_constants pb) (globals pb) (i1_const_to_value pb)
    (i8_const_to_value pb) v (i32_const_to_value pb) (i64_const_to_value pb)
    (f64_const_to_value pb) (ptr_const_to_value pb) (string_const_to_value pb).
Definition set_i32_const_to_value {TM} (v : gmap Z Z) (pb : ProgramBuilder TM) : ProgramBuilder TM :=
  MkPB (type_manager pb) (functions pb) (current_function pb) (name_to_function pb)
    (constant_instrs pb) (ptr_constants pb) (i64_constants pb) (f64_constants pb)
    (char_array_constants pb) (struct_constants pb) (array_constants pb)
    (vec4_constants pb) (vec8_constants pb) (globals pb) (i1_const_to_value pb)
    (i8_const_to_value pb) (i16_const_to_value pb) v (i64_const_to_value pb)
    (f64_const_to_value pb) (ptr_const_to_value pb) (string_const_to_value pb).
Definition set_i64_const_to_value {TM} (v : gmap Z Z) (pb : ProgramBuilder TM) : ProgramBuilder TM :=
  MkPB (type_manager pb) (functions pb) (current_function pb) (name_to_function pb)
    (constant_instrs pb) (ptr_constants pb) (i64_constants pb) (f64_constants pb)
    (char_array_constants pb) (struct_constants pb) (array_constants pb)
    (vec4_constants pb) (vec8_constants pb) (globals pb) (i1_const_to_value pb)
    (i8_const_to_value pb) (i16_const_to_value pb) (i32_const_to_value pb) v
    (f64_const_to_value pb) (ptr_const_to_value pb) (string_const_to_value pb).
Definition set_f64_const_to_value {TM} (v : list (spec_float * Z)) (pb : ProgramBuilder TM) : ProgramBuilder TM :=
  MkPB (type_manager pb) (functions pb) (current_function pb) (name_to_function pb)
    (constant_instrs pb) (ptr_constants pb) (i64_constants pb) (f64_constants pb)
    (char_array_constants pb) (struct_constants pb) (array_constants pb)
    (vec4_constants pb) (vec8_constants pb) (globals pb) (i1_const_to_value pb)
    (i8_const_to_value pb) (i16_const_to_value pb) (i32_const_to_value pb)
    (i64_const_to_value pb) v (ptr_const_to_value pb) (string_const_to_value pb).
Definition set_ptr_const_to_value {TM} (v : gmap Z Z) (pb : ProgramBuilder TM) : ProgramBuilder TM :=
  MkPB (type_manager pb) (functions pb) (current_function pb) (name_to_function pb)
    (constant_instrs pb) (ptr_constants pb) (i64_constants pb) (f64_constants pb)
    (char_array_constants pb) (struct_constants pb) (array_constants pb)
    (vec4_constants pb) (vec8_constants pb) (globals pb) (i1_const_to_value pb)
    (i8_const_to_value pb) (i16_const_to_value pb) (i32_const_to_value pb)
    (i64_const_to_value pb) (f64_const_to_value pb) v (string_const_to_value pb).
Definition set_string_const_to_value {TM} (v : gmap string Z) (pb : ProgramBuilder TM) : ProgramBuilder TM :=
  MkPB (type_manager pb) (functions pb) (current_function pb) (name_to_function pb)
    (constant_instrs pb) (ptr_constants pb) (i64_constants pb) (f64_constants pb)
    (char_array_constants pb) (struct_constants pb) (array_constants pb)
    (vec4_constants pb) (vec8_constants pb) (globals pb) (i1_const_to_value pb)
    (i8_const_to_value pb) (i16_const_to_value pb) (i32_const_to_value pb)
    (i64_const_to_value pb) (f64_const_to_value pb) (ptr_const_to_value pb) v.

Definition ProgramBuilder_new {TM} (tm : TM) : ProgramBuilder TM :=
  MkPB tm [] (-1) ∅ [] [] [] [] [] [] [] [] [] [] ∅ ∅ ∅ ∅ ∅ [] ∅ ∅.

(** ** The builder monad: state passing with the outcomes of [Res] *)
Definition M (TM A : Type) : Type := ProgramBuilder TM -> Res (A * ProgramBuilder TM).

#[export] Instance M_ret TM : MRet (M TM) := fun _ a pb => Ok (a, pb).
#[export] Instance M_bind TM : MBind (M TM) := fun _ _ f m pb =>
  match m pb with Ok (a, pb') => f a pb' | Throw e => Throw e | UB => UB | NoFuel => NoFuel end.

Definition lift {TM A} (r : Res A) : M TM A := fun pb =>
  match r with Ok a => Ok (a, pb) | Throw e => Throw e | UB => UB | NoFuel => NoFuel end.
Definition gets {TM A} (f : ProgramBuilder TM -> A) : M TM A := fun pb => Ok (f pb, pb).
Definition modify {TM} (f : ProgramBuilder TM -> ProgramBuilder TM) : M TM unit :=
  fun pb => Ok (tt, f pb).
Definition throw {TM A} (msg : string) : M TM A := fun _ => Throw msg.

Section ops.
Context {TM : Type} `{TypeManagerOps TM}.
Abbreviation M := (M TM).

(** A call that updates the type manager. *)
Definition with_tm {A} (f : TM -> Res (A * TM)) : M A :=
  tm ← gets type_manager; '(a, tm) ← lift (f tm);
  _ ← modify (set_type_manager tm); mret a.

(** A call on the current function. *)
Definition GetCurrentFunction : M FunctionBuilder :=
  fs ← gets functions; i ← gets current_function; lift (vec_at fs i).
Definition put_function (i : Z) (f : FunctionBuilder) : M unit :=
  fs ← gets functions; fs ← lift (vec_set fs i f); modify (set_functions fs).
Definition put_current_function (f : FunctionBuilder) : M unit :=
  i ← gets current_function; put_function i f.

Definition Append (instr : Z) : M Z :=
  f ← GetCurrentFunction; '(v, f) ← lift (FB_Append f instr);
  _ ← put_current_function f; mret v.
Definition Append_ (instr : Z) : M unit := _ ← Append instr; mret tt.

Definition AppendConstantGlobal (instr : Z) : M Z :=
  cs ← gets constant_instrs;
  _ ← modify (set_constant_instrs (cs ++ [instr]));
  lift (Value_make (u32 (vec_size cs)) true).

Definition GetConstantGlobalInstr (v : Z) : M Z :=
  if Value_IsConstantGlobal v then
    cs ← gets constant_instrs; lift (vec_at cs (Value_GetIdx v))
  else throw "Can't get constant/global from a non constant/global value.".

(** [FunctionBuilder::GetInstruction] on the current function. *)
Definition GetInstruction (v : Z) : M Z :=
  f ← GetCurrentFunction;
  if fb_external f then throw "Cannot get body of external function" else
  if Value_IsConstantGlobal v then GetConstantGlobalInstr v
  else lift (vec_at (fb_instructions f) (Value_GetIdx v)).

(** [constant_instrs_[v.GetIdx()]] read through a [Type1InstructionReader]. *)
Definition ReadConstant (v : Z) : M Z :=
  cs ← gets constant_instrs; i ← lift (vec_at cs (Value_GetIdx v));
  mret (Type1_Constant i).

(** ** Control flow *)
Definition GenerateBlock : M (Z * Z) :=
  f ← GetCurrentFunction; '(id, f) ← lift (FB_GenerateBasicBlock f);
  _ ← put_current_function f; i ← gets current_function; mret (i, id).

Definition CurrentBlock : M (Z * Z) :=
  f ← GetCurrentFunction; id ← lift (FB_GetCurrentBasicBlock f);
  i ← gets current_function; mret (i, id).

Definition IsTerminated (b : Z * Z) : M bool :=
  fs ← gets functions; f ← lift (vec_at fs b.1); lift (FB_IsTerminated f b.2).

Definition SetCurrentBlock (b : Z * Z) : M unit :=
  i ← gets current_function;
  blocked ← (if i =? b.1 then
               f ← GetCurrentFunction; t ← lift (FB_IsTerminated f b.2); mret (negb t)
             else mret false);
  if (blocked : bool)
  then throw "Cannot switch from current block unless it is terminated."
  else
    _ ← modify (set_current_function b.1);
    f ← GetCurrentFunction; f ← lift (FB_SetCurrentBasicBlock f b.2);
    put_current_function f.

Definition Branch (b : Z * Z) : M unit :=
  Append_ (Type5_SetMarg0
    (Type5_SetOpcode Type5InstructionBuilder (OpcodeTo BR)) b.2).

Definition CondBranch (cond : Z) (b1 b2 : Z * Z) : M unit :=
  if Value_IsConstantGlobal cond then
    value ← ReadConstant cond;
    if value =? 1 then Branch b1 else Branch b2
  else
    Append_ (Type5_SetMarg1 (Type5_SetMarg0 (Type5_SetArg
      (Type5_SetOpcode Type5InstructionBuilder (OpcodeTo CONDBR))
      (Value_Serialize cond)) b1.2) b2.2).

(** Appending a Type II word with one or two operands. *)
Definition instr2 (op : Opcode) (v1 v2 : Z) : Z :=
  Type2_SetArg1 (Type2_SetArg0
    (Type2_SetOpcode Type2InstructionBuilder (OpcodeTo op))
    (Value_Serialize v1)) (Value_Serialize v2).
Definition instr2_1 (op : Opcode) (v : Z) : Z :=
  Type2_SetArg0 (Type2_SetOpcode Type2InstructionBuilder (OpcodeTo op))
    (Value_Serialize v).
Definition Append2 (op : Opcode) (v1 v2 : Z) : M Z := Append (instr2 op v1 v2).
Definition Append1 (op : Opcode) (v : Z) : M Z := Append (instr2_1 op v).

Definition Phi (type : Z) : M Z :=
  Append (Type3_SetTypeID (Type3_SetOpcode Type3InstructionBuilder (OpcodeTo PHI)) type).

Definition PhiMember (v : Z) : M Z :=
  Append (Type2_SetArg1 (Type2_SetOpcode Type2InstructionBuilder (OpcodeTo PHI_MEMBER))
            (Value_Serialize v)).

Definition UpdatePhiMember (phi phi_member : Z) : M unit :=
  old ← GetInstruction phi_member;
  f ← GetCurrentFunction;
  f ← lift (FB_Update f phi_member (Type2_SetArg0 old (Value_Serialize phi)));
  put_current_function f.

(** ** Types of values *)
Definition TypeOfConstant (instr : Z) : M Z :=
  match ConstantOpcodeFrom (GenericInstructionReader_Opcode instr) with
  | Some C_I1_CONST => mret I1Type
  | Some C_I8_CONST => mret I8Type
  | Some C_I16_CONST => mret I16Type
  | Some C_I32_CONST => mret I32Type
  | Some C_I32_VEC8_CONST_1 | Some C_I32_VEC8_CONST_8 => mret I32Vec8Type
  | Some C_I64_CONST => mret I64Type
  | Some C_F64_CONST => mret F64Type
  | Some C_PTR_CONST => mret I8PtrType
  | Some C_PTR_CAST | Some C_NULLPTR | Some C_FUNC_PTR => mret (Type3_TypeID instr)
  | Some C_GLOBAL_CHAR_ARRAY_CONST => mret I8PtrType
  | Some C_ARRAY_CONST =>
      l ← gets array_constants; '(t, _) ← lift (vec_at l (Type1_Constant instr)); mret t
  | Some C_STRUCT_CONST =>
      l ← gets struct_constants; '(t, _) ← lift (vec_at l (Type1_Constant instr)); mret t
  | Some C_GLOBAL_REF =>
      l ← gets globals; '(_, p, _) ← lift (vec_at l (Type1_Constant instr)); mret p
  | Some C_I32_VEC4_CONST_4 => throw "Cannot call type of on vec4"
  | None => lift UB
  end.

Definition TypeOfInstr (instr : Z) : M Z :=
  match OpcodeFrom (GenericInstructionReader_Opcode instr) with
  | Some (I1_AND | I1_OR | I1_CMP_EQ | I1_CMP_NE | I1_LNOT
    | I8_CMP_EQ | I8_CMP_NE | I8_CMP_LT | I8_CMP_LE | I8_CMP_GT | I8_CMP_GE
    | I16_CMP_EQ | I16_CMP_NE | I16_CMP_LT | I16_CMP_LE | I16_CMP_GT | I16_CMP_GE
    | I32_CMP_EQ | I32_CMP_NE | I32_CMP_LT | I32_CMP_LE | I32_CMP_GT | I32_CMP_GE
    | I64_CMP_EQ | I64_CMP_NE | I64_CMP_LT | I64_CMP_LE | I64_CMP_GT | I64_CMP_GE
    | F64_CMP_EQ | F64_CMP_NE | F64_CMP_LT | F64_CMP_LE | F64_CMP_GT | F64_CMP_GE
    | PTR_CMP_NULLPTR | I1_LOAD
    | I32_CMP_EQ_ANY_CONST_VEC4 | I32_CMP_EQ_ANY_CONST_VEC8) => mret I1Type
  | Some MASK_TO_PERMUTE => mret I32Vec8PtrType
  | Some (I1_VEC8_MASK_EXTRACT | I64_POPCOUNT) => mret I64Type
  | Some (I1_VEC8_NOT | I1_VEC8_AND | I1_VEC8_OR
    | I32_VEC8_CMP_EQ | I32_VEC8_CMP_NE | I32_VEC8_CMP_LT | I32_VEC8_CMP_LE
    | I32_VEC8_CMP_GT | I32_VEC8_CMP_GE) => mret I1Vec8Type
  | Some (I8_ADD | I8_MUL | I8_SUB | I8_LOAD | I1_ZEXT_I8) => mret I8Type
  | Some (I16_ADD | I16_MUL | I16_SUB | I16_LOAD | I64_TRUNC_I16) => mret I16Type
  | Some (I32_ADD | I32_MUL | I32_SUB | I32_LOAD | I64_TRUNC_I32) => mret I32Type
  | Some (I32_CONV_I32_VEC8 | I32_VEC8_LOAD | I32_VEC8_PERMUTE | I32_VEC8_ADD) =>
      mret I32Vec8Type
  | Some (I64_ADD | I64_MUL | I64_SUB | I64_LSHIFT | I64_RSHIFT | I64_AND | I64_XOR
    | I64_OR | I1_ZEXT_I64 | I8_ZEXT_I64 | I16_ZEXT_I64 | I32_ZEXT_I64
    | F64_CONV_I64 | I64_LOAD) => mret I64Type
  | Some (F64_ADD | F64_MUL | F64_SUB | F64_DIV | I8_CONV_F64 | I16_CONV_F64
    | I32_CONV_F64 | I64_CONV_F64 | F64_LOAD) => mret F64Type
  | Some (RETURN | I8_STORE | I16_STORE | I32_STORE | I64_STORE | F64_STORE
    | PTR_STORE | I32_VEC8_MASK_STORE | RETURN_VALUE | CONDBR | BR) => mret VoidType
  | Some (PHI | CALL | PTR_LOAD | PTR_CAST | GEP_DYNAMIC | GEP_STATIC | FUNC_ARG
    | CALL_INDIRECT) => mret (Type3_TypeID instr)
  | Some (GEP_DYNAMIC_OFFSET | GEP_STATIC_OFFSET) =>
      throw "GEP offsets needs to be under a GEP."
  | Some (I32_VEC8_MASK_STORE_INFO | PHI_MEMBER | CALL_ARG) =>
      throw "Cannot call type of on an extension."
  | None => lift UB
  end.

Definition TypeOf (value : Z) : M Z :=
  if Value_IsConstantGlobal value
  then instr ← GetConstantGlobalInstr value; TypeOfConstant instr
  else instr ← GetInstruction value; TypeOfInstr instr.

(** ** Memory *)
Definition NullPtr (t : Z) : M Z :=
  AppendConstantGlobal (Type3_SetTypeID
    (Type3_SetOpcode Type3InstructionBuilder (ConstantOpcodeTo C_NULLPTR)) t).

Definition PointerCast (v t : Z) : M Z :=
  if Value_IsConstantGlobal v then
    AppendConstantGlobal (Type3_SetTypeID (Type3_SetArg
      (Type3_SetOpcode Type3InstructionBuilder (ConstantOpcodeTo C_PTR_CAST))
      (Value_Serialize v)) t)
  else
    Append (Type3_SetTypeID (Type3_SetArg
      (Type3_SetOpcode Type3InstructionBuilder (OpcodeTo PTR_CAST))
      (Value_Serialize v)) t).

Definition Store (op : Opcode) (ptr v : Z) : M unit := Append_ (instr2 op ptr v).
Definition StoreI8 : Z -> Z -> M unit := Store I8_STORE.
Definition StoreI16 : Z -> Z -> M unit := Store I16_STORE.
Definition StoreI32 : Z -> Z -> M unit := Store I32_STORE.
Definition StoreI64 : Z -> Z -> M unit := Store I64_STORE.
Definition StoreF64 : Z -> Z -> M unit := Store F64_STORE.
Definition StorePtr : Z -> Z -> M unit := Store PTR_STORE.
Definition MaskStoreI32Vec8 (ptr v popcount : Z) : M unit :=
  _ ← Append1 I32_VEC8_MASK_STORE_INFO popcount;
  Append_ (instr2 I32_VEC8_MASK_STORE ptr v).

Definition LoadI1 : Z -> M Z := Append1 I1_LOAD.
Definition LoadI8 : Z -> M Z := Append1 I8_LOAD.
Definition LoadI16 : Z -> M Z := Append1 I16_LOAD.
Definition LoadI32 : Z -> M Z := Append1 I32_LOAD.
Definition LoadI32Vec8 : Z -> M Z := Append1 I32_VEC8_LOAD.
Definition LoadI64 : Z -> M Z := Append1 I64_LOAD.
Definition LoadF64 : Z -> M Z := Append1 F64_LOAD.
Definition LoadPtr (ptr : Z) : M Z :=
  ptr_type ← TypeOf ptr; tm ← gets type_manager;
  elem ← lift (tm_GetPointerElementType tm ptr_type);
  Append (Type3_SetArg (Type3_SetTypeID
    (Type3_SetOpcode Type3InstructionBuilder (OpcodeTo PTR_LOAD)) elem)
    (Value_Serialize ptr)).

(** ** Types *)
Definition OpaqueType (name : string) : M Z := with_tm (fun tm => tm_OpaqueType tm name).
Definition StructType (types : list Z) (name : string) : M Z :=
  if bool_decide (name = EmptyString)
  then with_tm (fun tm => tm_StructType tm types)
  else with_tm (fun tm => tm_NamedStructType tm types name).
Definition GetOpaqueType (name : string) : M Z :=
  tm ← gets type_manager; lift (tm_GetOpaqueType tm name).
Definition GetStructType (name : string) : M Z :=
  tm ← gets type_manager; lift (tm_GetNamedStructType tm name).
Definition PointerType (type : Z) : M Z := with_tm (fun tm => tm_PointerType tm type).
Definition ArrayType (type len : Z) : M Z := with_tm (fun tm => tm_ArrayType tm type len).
Definition FunctionType (result : Z) (args : list Z) : M Z :=
  with_tm (fun tm => tm_FunctionType tm result args).

(** ** Functions *)
Definition push_function (f : FunctionBuilder) : M Z :=
  fs ← gets functions; _ ← modify (set_functions (fs ++ [f])); mret (vec_size fs).

Definition new_function (name : string) (result_type : Z) (arg_types : list Z)
    (external : bool) (func : Z) : M Z :=
  ft ← FunctionType result_type arg_types;
  push_function (FunctionBuilder_new name ft result_type arg_types external func).

Definition init_body : M unit :=
  f ← GetCurrentFunction; f ← lift (FB_InitBody f); put_current_function f.

Definition CreateFunction (result_type : Z) (arg_types : list Z) : M Z :=
  fs ← gets functions;
  idx ← new_function ("_func" +:+ pretty.pretty (Z.to_N (vec_size fs)))
          result_type arg_types false 0;
  _ ← modify (set_current_function idx); _ ← init_body; mret idx.

Definition CreateNamedFunction (result_type : Z) (arg_types : list Z) (name : string)
    : M Z :=
  idx ← new_function name result_type arg_types false 0;
  _ ← modify (set_current_function idx); _ ← init_body;
  m ← gets name_to_function;
  _ ← modify (set_name_to_function (<[name := idx]> m)); mret idx.

Definition DeclareExternalFunction (name : string) (result_type : Z)
    (arg_types : list Z) (func : Z) : M Z :=
  m ← gets name_to_function;
  match m !! name with
  | Some ref => mret ref
  | None =>
      idx ← new_function name result_type arg_types true func;
      _ ← modify (set_name_to_function (<[name := idx]> m)); mret idx
  end.

Definition GetFunction (name : string) : M Z :=
  m ← gets name_to_function;
  match m !! name with
  | Some ref => mret ref
  | None => throw "absl::flat_hash_map::at"
  end.

Definition PB_GetFunctionArguments (func : Z) : M (list Z) :=
  fs ← gets functions; f ← lift (vec_at fs func); lift (GetFunctionArguments f).

(** One CALL_ARG per argument; [i] is the [uint8_t] loop counter. *)
Fixpoint call_args (i : Z) (arguments : list Z) : M unit :=
  match arguments with
  | [] => mret tt
  | a :: arguments =>
      t ← TypeOf a;
      _ ← Append_ (Type3_SetArg (Type3_SetSarg (Type3_SetTypeID
            (Type3_SetOpcode Type3InstructionBuilder (OpcodeTo CALL_ARG)) t) i)
            (Value_Serialize a));
      call_args (u8 (i + 1)) arguments
  end.

(** With 256 arguments or more the [uint8_t] counter never reaches the size:
    the loop appends until the handle index is exhausted. *)
Definition append_call_args (arguments : list Z) : M unit :=
  if 256 <=? vec_size arguments
  then _ ← call_args 0 (take 256 arguments); throw "Invalid idx"
  else call_args 0 arguments.

Definition Call (func : Z) (arguments : list Z) : M Z :=
  fs ← gets functions; f ← lift (vec_at fs func);
  _ ← append_call_args arguments;
  Append (Type3_SetTypeID (Type3_SetArg
    (Type3_SetOpcode Type3InstructionBuilder (OpcodeTo CALL)) func) (fb_return_type f)).

Definition CallIndirect (func : Z) (arguments : list Z) : M Z :=
  _ ← append_call_args arguments;
  func_ptr_type ← TypeOf func; tm ← gets type_manager;
  is_ptr ← lift (tm_IsPtrType tm func_ptr_type);
  if negb is_ptr then throw "Must be a func ptr" else
  func_type ← lift (tm_GetPointerElementType tm func_ptr_type);
  is_func ← lift (tm_IsFuncType tm func_type);
  if negb is_func then throw "Must be a func ptr" else
  return_type ← lift (tm_GetFunctionReturnType tm func_type);
  Append (Type3_SetTypeID (Type3_SetArg
    (Type3_SetOpcode Type3InstructionBuilder (OpcodeTo CALL_INDIRECT))
    (Value_Serialize func)) return_type).

Definition Return (v : Z) : M unit :=
  t ← TypeOf v;
  Append_ (Type3_SetTypeID (Type3_SetArg
    (Type3_SetOpcode Type3InstructionBuilder (OpcodeTo RETURN_VALUE))
    (Value_Serialize v)) t).
Definition ReturnVoid : M unit :=
  Append_ (Type1_SetOpcode Type1InstructionBuilder (OpcodeTo RETURN)).

Definition GetFunctionPointer (func : Z) : M Z :=
  fs ← gets functions; f ← lift (vec_at fs func);
  t ← PointerType (fb_function_type f);
  AppendConstantGlobal (Type3_SetTypeID (Type3_SetArg
    (Type3_SetOpcode Type3InstructionBuilder (ConstantOpcodeTo C_FUNC_PTR)) func) t).

(** ** Constants

    A constant is stored once: the method looks its value up in the cache,
    and appends a constant word only when it is not there. *)
Definition const_instr (op : ConstantOpcode) (c : Z) : Z :=
  Type1_SetConstant (Type1_SetOpcode Type1InstructionBuilder (ConstantOpcodeTo op)) c.

Definition cached_const (cache : ProgramBuilder TM -> gmap Z Z)
    (set_cache : gmap Z Z -> ProgramBuilder TM -> ProgramBuilder TM)
    (op : ConstantOpcode) (v : Z) : M Z :=
  m ← gets cache;
  match m !! v with
  | Some value => mret value
  | None =>
      value ← AppendConstantGlobal (const_instr op v);
      _ ← modify (set_cache (<[v := value]> m)); mret value
  end.

Definition ConstI1 (v : bool) : M Z :=
  cached_const i1_const_to_value set_i1_const_to_value C_I1_CONST (if v then 1 else 0).
Definition ConstI8 (v : Z) : M Z :=
  cached_const i8_const_to_value set_i8_const_to_value C_I8_CONST (u8 v).
Definition ConstI16 (v : Z) : M Z :=
  cached_const i16_const_to_value set_i16_const_to_value C_I16_CONST (u16 v).
Definition ConstI32 (v : Z) : M Z :=
  cached_const i32_const_to_value set_i32_const_to_value C_I32_CONST (u32 v).

(** 64-bit values live in their own pool; the constant word holds the index. *)
Definition ConstI64 (v : Z) : M Z :=
  let v := u64 v in
  m ← gets i64_const_to_value;
  match m !! v with
  | Some value => mret value
  | None =>
      l ← gets i64_constants;
      _ ← modify (set_i64_constants (l ++ [v]));
      value ← AppendConstantGlobal (const_instr C_I64_CONST (u32 (vec_size l)));
      _ ← modify (set_i64_const_to_value (<[v := value]> m)); mret value
  end.

(** [std::unordered_map<double, Value>]: keys are compared with [==], and
    [operator[]] inserts a default [Value] for a key it does not find. *)
Fixpoint f64_find (m : list (spec_float * Z)) (v : spec_float) : option Z :=
  match m with
  | [] => None
  | (k, x) :: m => if SFeqb k v then Some x else f64_find m v
  end.
Fixpoint f64_assign (m : list (spec_float * Z)) (v : spec_float) (x : Z)
    : list (spec_float * Z) :=
  match m with
  | [] => [(v, x)]
  | (k, y) :: m => if SFeqb k v then (k, x) :: m else (k, y) :: f64_assign m v x
  end.
Definition f64_index (v : spec_float) : M Z :=
  m ← gets f64_const_to_value;
  match f64_find m v with
  | Some x => mret x
  | None => _ ← modify (set_f64_const_to_value (m ++ [(v, Value_default)]));
            mret Value_default
  end.

Definition ConstF64 (v : spec_float) : M Z :=
  m ← gets f64_const_to_value;
  _ ← match f64_find m v with
      | Some _ => mret tt
      | None =>
          l ← gets f64_constants;
          _ ← modify (set_f64_constants (l ++ [v]));
          value ← AppendConstantGlobal (const_instr C_F64_CONST (u32 (vec_size l)));
          modify (set_f64_const_to_value (f64_assign m v value))
      end;
  f64_index v.

Definition ConstPtr (v : Z) : M Z :=
  m ← gets ptr_const_to_value;
  match m !! v with
  | Some value => mret value
  | None =>
      l ← gets ptr_constants;
      _ ← modify (set_ptr_constants (l ++ [v]));
      value ← AppendConstantGlobal (const_instr C_PTR_CONST (u32 (vec_size l)));
      _ ← modify (set_ptr_const_to_value (<[v := value]> m)); mret value
  end.

Definition ConstI32Vec8 (v : Z) : M Z :=
  AppendConstantGlobal (const_instr C_I32_VEC8_CONST_1 (u32 v)).
Definition ConstI32Vec8_8 (v : list Z) : M Z :=
  l ← gets vec8_constants;
  _ ← modify (set_vec8_constants (l ++ [v]));
  AppendConstantGlobal (const_instr C_I32_VEC8_CONST_8 (u32 (vec_size l))).

Definition GlobalConstCharArray (v : string) : M Z :=
  m ← gets string_const_to_value;
  match m !! v with
  | Some value => mret value
  | None =>
      l ← gets char_array_constants;
      _ ← modify (set_char_array_constants (l ++ [v]));
      value ← AppendConstantGlobal
                (const_instr C_GLOBAL_CHAR_ARRAY_CONST (u32 (vec_size l)));
      _ ← modify (set_string_const_to_value (<[v := value]> m)); mret value
  end.

Definition ConstantStruct (t : Z) (init : list Z) : M Z :=
  l ← gets struct_constants;
  _ ← modify (set_struct_constants (l ++ [(t, init)]));
  AppendConstantGlobal (const_instr C_STRUCT_CONST (u32 (vec_size l))).
Definition ConstantArray (t : Z) (init : list Z) : M Z :=
  l ← gets array_constants;
  _ ← modify (set_array_constants (l ++ [(t, init)]));
  AppendConstantGlobal (const_instr C_ARRAY_CONST (u32 (vec_size l))).
Definition Global (t init : Z) : M Z :=
  l ← gets globals;
  ptr_to_type ← PointerType t;
  _ ← modify (set_globals (l ++ [(t, ptr_to_type, init)]));
  AppendConstantGlobal (const_instr C_GLOBAL_REF (u32 (vec_size l))).

(** Reading the payload of a constant operand. *)
Definition ReadI64 (v : Z) : M Z :=
  id ← ReadConstant v; l ← gets i64_constants; lift (vec_at l id).
Definition ReadF64 (v : Z) : M spec_float :=
  id ← ReadConstant v; l ← gets f64_constants; lift (vec_at l id).

(** ** The folding scheme

    Two constant operands fold to a constant; otherwise an instruction is
    appended, and a commutative operation moves a constant to the right. *)
Definition both_const (v1 v2 : Z) : bool :=
  Value_IsConstantGlobal v1 && Value_IsConstantGlobal v2.

Definition fold_binop {A B} (read : Z -> M A) (f : A -> A -> Res B) (mk : B -> M Z)
    (commutes : bool) (op : Opcode) (v1 v2 : Z) : M Z :=
  if both_const v1 v2 then
    a ← read v1; b ← read v2; r ← lift (f a b); mk r
  else if commutes && (Value_IsConstantGlobal v1 && negb (Value_IsConstantGlobal v2))
  then Append2 op v2 v1
  else Append2 op v1 v2.

Definition fold_unop {A B} (read : Z -> M A) (f : A -> Res B) (mk : B -> M Z)
    (op : Opcode) (v : Z) : M Z :=
  if Value_IsConstantGlobal v
  then a ← read v; r ← lift (f a); mk r
  else Append1 op v.

(** [intN_t value = ...Constant()]: a signed read of the payload. *)
Definition ReadSigned (w v : Z) : M Z := c ← ReadConstant v; mret (sw w c).
Definition ReadUnsigned (w v : Z) : M Z := c ← ReadConstant v; mret (uw w c).
Definition ReadI64Signed (v : Z) : M Z := c ← ReadI64 v; mret (i64 c).

(** ** I1 *)
Definition LNotI1 (v : Z) : M Z :=
  if Value_IsConstantGlobal v
  then value ← ReadConstant v; ConstI1 (value =? 0)
  else Append1 I1_LNOT v.

Definition AndI1 (v1 v2 : Z) : M Z :=
  if Value_IsConstantGlobal v1 then
    value1 ← ReadConstant v1; if value1 =? 0 then ConstI1 false else mret v2
  else if Value_IsConstantGlobal v2 then
    value2 ← ReadConstant v2; if value2 =? 0 then ConstI1 false else mret v1
  else Append2 I1_AND v1 v2.

Definition OrI1 (v1 v2 : Z) : M Z :=
  if Value_IsConstantGlobal v1 then
    value1 ← ReadConstant v1; if value1 =? 1 then ConstI1 true else mret v2
  else if Value_IsConstantGlobal v2 then
    value2 ← ReadConstant v2; if value2 =? 1 then ConstI1 true else mret v1
  else Append2 I1_OR v1 v2.

Definition CmpI1 (cmp : CompType) (v1 v2 : Z) : M Z :=
  if both_const v1 v2 then
    value1 ← ReadConstant v1; value2 ← ReadConstant v2;
    match cmp with
    | EQ => ConstI1 (value1 =? value2)
    | NE => ConstI1 (negb (value1 =? value2))
    | _ => throw "Invalid comp type for I1"
    end
  else
    let '(v1, v2) := if Value_IsConstantGlobal v1 && negb (Value_IsConstantGlobal v2)
                     then (v2, v1) else (v1, v2) in
    match cmp with
    | EQ => Append2 I1_CMP_EQ v1 v2
    | NE => Append2 I1_CMP_NE v1 v2
    | _ => throw "Invalid comp type for I1"
    end.

Definition I64ZextI1 (v : Z) : M Z :=
  if Value_IsConstantGlobal v
  then value ← ReadConstant v; if value =? 0 then ConstI64 0 else ConstI64 1
  else Append1 I1_ZEXT_I64 v.
Definition I8ZextI1 (v : Z) : M Z :=
  if Value_IsConstantGlobal v
  then value ← ReadConstant v; if value =? 0 then ConstI8 0 else ConstI8 1
  else Append1 I1_ZEXT_I8 v.

(** ** Comparisons: the result is an I1; a constant on the left is moved to
    the right and the comparison mirrored. *)
Definition flip_cmp (cmp : CompType) : CompType :=
  match cmp with EQ => EQ | NE => NE | LT => GT | LE => GE | GT => LT | GE => LE end.

Definition int_cmp (cmp : CompType) (a b : Z) : bool :=
  match cmp with
  | EQ => a =? b | NE => negb (a =? b) | LT => a <? b
  | LE => a <=? b | GT => b <? a | GE => b <=? a
  end.

Definition f64_cmp (cmp : CompType) (a b : spec_float) : bool :=
  match cmp with
  | EQ => SFeqb a b | NE => negb (SFeqb a b) | LT => SFltb a b
  | LE => SFleb a b | GT => SFltb b a | GE => SFleb b a
  end.

Definition fold_cmp {A} (read : Z -> M A) (f : CompType -> A -> A -> bool)
    (opcode : CompType -> Opcode) (cmp : CompType) (v1 v2 : Z) : M Z :=
  if both_const v1 v2 then
    a ← read v1; b ← read v2; ConstI1 (f cmp a b)
  else if Value_IsConstantGlobal v1 && negb (Value_IsConstantGlobal v2)
  then Append2 (opcode (flip_cmp cmp)) v2 v1
  else Append2 (opcode cmp) v1 v2.

Definition I8_cmp_opcode (cmp : CompType) : Opcode :=
  match cmp with EQ => I8_CMP_EQ | NE => I8_CMP_NE | LT => I8_CMP_LT
  | LE => I8_CMP_LE | GT => I8_CMP_GT | GE => I8_CMP_GE end.
Definition I16_cmp_opcode (cmp : CompType) : Opcode :=
  match cmp with EQ => I16_CMP_EQ | NE => I16_CMP_NE | LT => I16_CMP_LT
  | LE => I16_CMP_LE | GT => I16_CMP_GT | GE => I16_CMP_GE end.
Definition I32_cmp_opcode (cmp : CompType) : Opcode :=
  match cmp with EQ => I32_CMP_EQ | NE => I32_CMP_NE | LT => I32_CMP_LT
  | LE => I32_CMP_LE | GT => I32_CMP_GT | GE => I32_CMP_GE end.
Definition I64_cmp_opcode (cmp : CompType) : Opcode :=
  match cmp with EQ => I64_CMP_EQ | NE => I64_CMP_NE | LT => I64_CMP_LT
  | LE => I64_CMP_LE | GT => I64_CMP_GT | GE => I64_CMP_GE end.
Definition F64_cmp_opcode (cmp : CompType) : Opcode :=
  match cmp with EQ => F64_CMP_EQ | NE => F64_CMP_NE | LT => F64_CMP_LT
  | LE => F64_CMP_LE | GT => F64_CMP_GT | GE => F64_CMP_GE end.

(** C++ arithmetic on two [intN_t] operands: computed in [int] for N <= 32,
    in [int64_t] for N = 64; signed overflow is undefined. *)
Definition int_add (w a b : Z) : Res Z := signed_result (Z.max 32 w) (a + b).
Definition int_sub (w a b : Z) : Res Z := signed_result (Z.max 32 w) (a - b).
Definition int_mul (w a b : Z) : Res Z := signed_result (Z.max 32 w) (a * b).

(** ** I8, I16, I32 *)
Definition AddI8 := fold_binop (ReadSigned 8) (int_add 8) ConstI8 true I8_ADD.
Definition MulI8 := fold_binop (ReadSigned 8) (int_mul 8) ConstI8 true I8_MUL.
Definition SubI8 := fold_binop (ReadSigned 8) (int_sub 8) ConstI8 false I8_SUB.
Definition CmpI8 := fold_cmp (ReadSigned 8) int_cmp I8_cmp_opcode.
Definition I64ZextI8 := fold_unop (ReadUnsigned 8) Ok ConstI64 I8_ZEXT_I64.
Definition F64ConvI8 :=
  fold_unop (ReadSigned 8) (fun z => Ok (F_of_Z z)) ConstF64 I8_CONV_F64.

Definition AddI16 := fold_binop (ReadSigned 16) (int_add 16) ConstI16 true I16_ADD.
Definition MulI16 := fold_binop (ReadSigned 16) (int_mul 16) ConstI16 true I16_MUL.
Definition SubI16 := fold_binop (ReadSigned 16) (int_sub 16) ConstI16 false I16_SUB.
Definition CmpI16 := fold_cmp (ReadSigned 16) int_cmp I16_cmp_opcode.
Definition I64ZextI16 := fold_unop (ReadUnsigned 16) Ok ConstI64 I16_ZEXT_I64.
Definition F64ConvI16 :=
  fold_unop (ReadSigned 16) (fun z => Ok (F_of_Z z)) ConstF64 I16_CONV_F64.

Definition AddI32 := fold_binop (ReadSigned 32) (int_add 32) ConstI32 true I32_ADD.
Definition MulI32 := fold_binop (ReadSigned 32) (int_mul 32) ConstI32 true I32_MUL.
Definition SubI32 := fold_binop (ReadSigned 32) (int_sub 32) ConstI32 false I32_SUB.
Definition CmpI32 := fold_cmp (ReadSigned 32) int_cmp I32_cmp_opcode.
Definition I64ZextI32 := fold_unop (ReadUnsigned 32) Ok ConstI64 I32_ZEXT_I64.
Definition F64ConvI32 :=
  fold_unop (ReadSigned 32) (fun z => Ok (F_of_Z z)) ConstF64 I32_CONV_F64.

Definition CmpEqConstI32_4 (v1 : Z) (v2 : list Z) : M Z :=
  l ← gets vec4_constants;
  _ ← modify (set_vec4_constants (l ++ [v2]));
  v2_value ← AppendConstantGlobal (const_instr C_I32_VEC4_CONST_4 (u32 (vec_size l)));
  Append2 I32_CMP_EQ_ANY_CONST_VEC4 v1 v2_value.
Definition CmpEqConstI32_8 (v1 : Z) (v2 : list Z) : M Z :=
  v2_value ← ConstI32Vec8_8 v2; Append2 I32_CMP_EQ_ANY_CONST_VEC8 v1 v2_value.

(** ** Vectors of eight I32 *)
Definition CmpI32Vec8 (cmp : CompType) (v1 v2 : Z) : M Z :=
  match cmp with
  | EQ => Append2 I32_VEC8_CMP_EQ v1 v2
  | NE => Append2 I32_VEC8_CMP_NE v1 v2
  | LT => Append2 I32_VEC8_CMP_GT v2 v1
  | LE =>
      if Value_IsConstantGlobal v2 then
        cs ← gets constant_instrs; i ← lift (vec_at cs (Value_GetIdx v2));
        match ConstantOpcodeFrom (Type1_Opcode i) with
        | Some C_I32_VEC8_CONST_1 =>
            let c2 := Type1_Constant i in
            if negb (c2 =? INT32_MAX)
            then v2 ← ConstI32Vec8 (c2 + 1); Append2 I32_VEC8_CMP_GT v2 v1
            else Append2 I32_VEC8_CMP_LE v1 v2
        | Some C_I32_VEC8_CONST_8 =>
            l ← gets vec8_constants; c2 ← lift (vec_at l (Type1_Constant i));
            if forallb (fun c => negb (c =? INT32_MAX)) c2
            then v2 ← ConstI32Vec8_8 ((fun c => c + 1) <$> c2); Append2 I32_VEC8_CMP_GT v2 v1
            else Append2 I32_VEC8_CMP_LE v1 v2
        | _ => Append2 I32_VEC8_CMP_LE v1 v2
        end
      else Append2 I32_VEC8_CMP_LE v1 v2
  | GT => Append2 I32_VEC8_CMP_GT v1 v2
  | GE => Append2 I32_VEC8_CMP_GE v1 v2
  end.
Definition I32Vec8ConvI32 : Z -> M Z := Append1 I32_CONV_I32_VEC8.
Definition NotI1Vec8 : Z -> M Z := Append1 I1_VEC8_NOT.
Definition MaskToPermutePtr : Z -> M Z := Append1 MASK_TO_PERMUTE.
Definition ExtractMaskI1Vec8 : Z -> M Z := Append1 I1_VEC8_MASK_EXTRACT.
Definition PopcountI64 : Z -> M Z := Append1 I64_POPCOUNT.
Definition AddI32Vec8 : Z -> Z -> M Z := Append2 I32_VEC8_ADD.
Definition OrI1Vec8 : Z -> Z -> M Z := Append2 I1_VEC8_OR.
Definition AndI1Vec8 : Z -> Z -> M Z := Append2 I1_VEC8_AND.
Definition PermuteI32Vec8 : Z -> Z -> M Z := Append2 I32_VEC8_PERMUTE.

(** ** I64 *)
Definition AddI64 := fold_binop ReadI64Signed (int_add 64) ConstI64 true I64_ADD.
Definition MulI64 := fold_binop ReadI64Signed (int_mul 64) ConstI64 true I64_MUL.
Definition SubI64 := fold_binop ReadI64Signed (int_sub 64) ConstI64 false I64_SUB.
Definition AndI64 := fold_binop ReadI64 (fun a b => Ok (Z.land a b)) ConstI64 true I64_AND.
Definition XorI64 := fold_binop ReadI64 (fun a b => Ok (Z.lxor a b)) ConstI64 true I64_XOR.
Definition OrI64 := fold_binop ReadI64 (fun a b => Ok (Z.lor a b)) ConstI64 true I64_OR.
Definition CmpI64 := fold_cmp ReadI64Signed int_cmp I64_cmp_opcode.

(** The shift amount is a C++ [uint8_t]; shifting a 64-bit value by 64 or more
    is undefined. *)
Definition LShiftI64 (v1 v2 : Z) : M Z :=
  let v2 := u8 v2 in
  if Value_IsConstantGlobal v1 then
    value1 ← ReadI64 v1;
    if 64 <=? v2 then lift UB else ConstI64 (u64 (Z.shiftl value1 v2))
  else
    materialized_v2 ← ConstI64 v2; Append2 I64_LSHIFT v1 materialized_v2.
Definition RShiftI64 (v1 v2 : Z) : M Z :=
  let v2 := u8 v2 in
  if Value_IsConstantGlobal v1 then
    value1 ← ReadI64 v1;
    if 64 <=? v2 then lift UB else ConstI64 (Z.shiftr value1 v2)
  else
    materialized_v2 ← ConstI64 v2; Append2 I64_RSHIFT v1 materialized_v2.
Definition I16TruncI64 := fold_unop ReadI64 (fun c => Ok (u16 c)) ConstI16 I64_TRUNC_I16.
Definition I32TruncI64 := fold_unop ReadI64 (fun c => Ok (u32 c)) ConstI32 I64_TRUNC_I32.
Definition F64ConvI64 :=
  fold_unop ReadI64Signed (fun z => Ok (F_of_Z z)) ConstF64 I64_CONV_F64.

Definition IsNullPtr (v : Z) : M Z :=
  if Value_IsConstantGlobal v then
    cs ← gets constant_instrs; i ← lift (vec_at cs (Value_GetIdx v));
    if bool_decide (ConstantOpcodeFrom (GenericInstructionReader_Opcode i) = Some C_NULLPTR)
    then ConstI1 true
    else Append1 PTR_CMP_NULLPTR v
  else Append1 PTR_CMP_NULLPTR v.

(** ** F64 *)
Definition AddF64 := fold_binop ReadF64 (fun a b => Ok (F_add a b)) ConstF64 true F64_ADD.
Definition MulF64 := fold_binop ReadF64 (fun a b => Ok (F_mul a b)) ConstF64 true F64_MUL.
Definition DivF64 := fold_binop ReadF64 (fun a b => Ok (F_div a b)) ConstF64 false F64_DIV.
Definition SubF64 := fold_binop ReadF64 (fun a b => Ok (F_sub a b)) ConstF64 false F64_SUB.
Definition CmpF64 := fold_cmp ReadF64 f64_cmp F64_cmp_opcode.
(** Conversion to [int64_t]: undefined when the truncated value does not fit. *)
Definition I64ConvF64 :=
  fold_unop ReadF64
    (fun f => match F_trunc f with Some z => signed_result 64 z | None => UB end)
    ConstI64 F64_CONV_I64.

(** ** Sizes and addresses *)
Definition GetSize (type : Z) : M Z :=
  tm ← gets type_manager; '(offset, _) ← lift (tm_GetPointerOffset tm type [1] false);
  mret (u64 offset).
Definition SizeOf (type : Z) : M Z :=
  tm ← gets type_manager; '(offset, _) ← lift (tm_GetPointerOffset tm type [1] false);
  ConstI64 offset.

Definition StaticGEP (t v : Z) (idx : list Z) : M Z :=
  tm ← gets type_manager;
  '(offset, result_type) ← lift (tm_GetPointerOffset tm t idx false);
  offset_v ← ConstI32 offset;
  _ ← Append2 GEP_STATIC_OFFSET v offset_v;
  Append (Type3_SetTypeID (Type3_SetOpcode Type3InstructionBuilder (OpcodeTo GEP_STATIC))
            result_type).

Definition DynamicGEP (t v dynamic_idx : Z) (idx : list Z) : M Z :=
  if Value_IsConstantGlobal dynamic_idx then
    c ← ReadConstant dynamic_idx; StaticGEP t v (i32 c :: idx)
  else
    tm ← gets type_manager;
    '(offset, result_type) ← lift (tm_GetPointerOffset tm t idx true);
    offset_v ← ConstI32 offset;
    type_size ← lift (tm_GetTypeSize tm t);
    if negb (bool_decide (type_size ∈ [1; 2; 4; 8]))
    then throw "Invalid type size. Needs to be 1/2/4/8" else
    _ ← Append2 GEP_DYNAMIC_OFFSET dynamic_idx offset_v;
    Append (Type3_SetTypeID (Type3_SetSarg (Type3_SetArg
      (Type3_SetOpcode Type3InstructionBuilder (OpcodeTo GEP_DYNAMIC))
      (Value_Serialize v)) type_size) result_type).
End ops.
