(* ===== verification/Doubles.v ===== *)
(** * Doubles of small integers

    The conversion of a positive integer below [2 ^ 31] to a double is exact; the
    mantissa is shifted to 53 bits. *)
From Stdlib Require Import SpecFloat.
From S2P Require Import Prelude ProgramBuilder.

Lemma digits_iter p k : digits2_pos (Pos.iter xO p k) = (digits2_pos p + k)%positive.
Proof.
  induction k as [|k IH] using Pos.peano_ind; [cbn; lia|]. rewrite Pos.iter_succ. cbn. rewrite IH. lia.
Qed.

Lemma digits_size p : digits2_pos p = Pos.size p.
Proof. induction p as [p IH|p IH|]; cbn; rewrite ?IH; done. Qed.

(** A small positive integer as a double. *)
Lemma F_of_Z_exact p : Zpos p < 2 ^ 31 ->
  let d := Zpos (digits2_pos p) in
  1 <= d <= 31 /\ F_of_Z (Zpos p) = S754_finite false (Pos.iter xO p (Z.to_pos (53 - d))) (d - 53) /\
  Zpos (Pos.iter xO p (Z.to_pos (53 - d))) = Zpos p * 2 ^ (53 - d) /\ 2 ^ (d - 1) <= Zpos p < 2 ^ d.
Proof.
  intros Hb d. assert (2 ^ (d - 1) <= Zpos p < 2 ^ d) as Hd2.
  { subst d. rewrite digits_size. pose proof (Pos.size_gt p) as H1. pose proof (Pos.size_le p) as H2.
    rewrite <- Pos2Z.inj_pow in *. split; [|lia].
    replace (Zpos (Pos.size p)) with (1 + (Zpos (Pos.size p) - 1)) in H2 by lia.
    assert (2 * 2 ^ (Z.pos (Pos.size p) - 1) <= 2 * Zpos p); [|lia].
    rewrite <- Z.pow_succ_r by lia. replace (Z.succ (Z.pos (Pos.size p) - 1)) with (Zpos (Pos.size p)) by lia.
    rewrite <- Pos2Z.inj_pow. lia. }
  assert (1 <= d <= 31) as Hd.
  { subst d. split; [lia|]. destruct (Z.le_gt_cases (Zpos (digits2_pos p)) 31) as [|Hgt]; [done|].
    assert (2 ^ 31 <= 2 ^ (Zpos (digits2_pos p) - 1)) by (apply Z.pow_le_mono_r; lia). lia. }
  assert (forall k q, Zpos (Pos.iter xO q k) = Zpos q * 2 ^ Zpos k) as Hiter.
  { intros k q. induction k as [|k IH] using Pos.peano_ind; [cbn; lia|].
    rewrite Pos.iter_succ, Pos2Z.inj_succ, Z.pow_succ_r by lia. lia. }
  split_and!; [lia|lia| |rewrite Hiter, Z2Pos.id by lia; lia|lia|lia].
  unfold F_of_Z, binary_normalize, binary_round, fexp, emin, prec, emax. fold d.
  replace (Z.max (d + 0 - 53) (3 - 1024 - 53)) with (d - 53) by lia.
  unfold shl_align. replace (d - 53 - 0) with (Zneg (Z.to_pos (53 - d))) by lia.
  unfold binary_round_aux, shr_fexp.
  assert (Hdz : Zdigits2 (Zpos (Pos.iter xO p (Z.to_pos (53 - d)))) = 53).
  { cbn. rewrite digits_iter, Pos2Z.inj_add. fold d. rewrite Z2Pos.id by lia. lia. }
  assert (Hf : fexp 53 1024 (53 + (d - 53)) - (d - 53) = 0) by (unfold fexp, emin; lia).
  cbn [shr_record_of_loc]. rewrite Hdz, Hf. cbn [shr shr_m round_nearest_even loc_of_shr_record].
  rewrite Hdz, Hf. cbn [shr shr_m]. by rewrite (proj2 (Z.leb_le (d - 53) (1024 - 53))) by lia.
Qed.
