(* ===== verification/ConstFold.v ===== *)
(** * What the builder's integer operations compute

    A denotation of the integer fragment of KHIR, read off the LLVM backend
    (src/khir/llvm/llvm_backend.cc, GetConstant, GetLLVMCompType and
    TranslateInstr), and the proof that every arithmetic and comparison method
    of [ProgramBuilder] yields a value with the meaning of the operation,
    whether it folded two constants, swapped its operands, or appended an
    instruction. *)
From Stdlib Require Import SpecFloat.
From S2P Require Import Prelude Opcode Instruction FunctionBuilder ProgramBuilder.

(** ** Denotation *)

(** Integers are denoted by their unsigned representative. *)
Inductive kval := KInt (z : Z) | KF64 (f : spec_float).

Definition b2z (b : bool) : Z := if b then 1 else 0.

Definition const_kval {TM} (pb : ProgramBuilder TM) (v : Z) : option kval :=
  i ← constant_instrs pb !! Z.to_nat (Value_GetIdx v);
  match ConstantOpcodeFrom (GenericInstructionReader_Opcode i) with
  | Some C_I1_CONST => Some (KInt (b2z (Type1_Constant i =? 1)))
  | Some C_I8_CONST => Some (KInt (u8 (Type1_Constant i)))
  | Some C_I16_CONST => Some (KInt (u16 (Type1_Constant i)))
  | Some C_I32_CONST => Some (KInt (u32 (Type1_Constant i)))
  | Some C_I64_CONST => KInt <$> i64_constants pb !! Z.to_nat (Type1_Constant i)
  | Some C_F64_CONST => KF64 <$> f64_constants pb !! Z.to_nat (Type1_Constant i)
  | _ => None
  end.

(** [GetValue]: a constant, or the value [ρ] gives the instruction. *)
Definition operand {TM} (pb : ProgramBuilder TM) (ρ : Z -> option kval) (v : Z) : option kval :=
  if Value_IsConstantGlobal v then const_kval pb v else ρ (Value_GetIdx v).

(** [GetLLVMCompType]: the integer comparisons are signed. *)
Definition GetLLVMCompType (op : Opcode) : option (Z * CompType) :=
  match op with
  | I8_CMP_EQ => Some (8, EQ) | I8_CMP_NE => Some (8, NE) | I8_CMP_LT => Some (8, LT)
  | I8_CMP_LE => Some (8, LE) | I8_CMP_GT => Some (8, GT) | I8_CMP_GE => Some (8, GE)
  | I16_CMP_EQ => Some (16, EQ) | I16_CMP_NE => Some (16, NE) | I16_CMP_LT => Some (16, LT)
  | I16_CMP_LE => Some (16, LE) | I16_CMP_GT => Some (16, GT) | I16_CMP_GE => Some (16, GE)
  | I32_CMP_EQ => Some (32, EQ) | I32_CMP_NE => Some (32, NE) | I32_CMP_LT => Some (32, LT)
  | I32_CMP_LE => Some (32, LE) | I32_CMP_GT => Some (32, GT) | I32_CMP_GE => Some (32, GE)
  | I64_CMP_EQ => Some (64, EQ) | I64_CMP_NE => Some (64, NE) | I64_CMP_LT => Some (64, LT)
  | I64_CMP_LE => Some (64, LE) | I64_CMP_GT => Some (64, GT) | I64_CMP_GE => Some (64, GE)
  | I1_CMP_EQ => Some (1, EQ) | I1_CMP_NE => Some (1, NE)
  | _ => None
  end.

(** [TranslateInstr] on two integer operands. *)
Definition sem_int (op : Opcode) (a b : Z) : option Z :=
  match op with
  | I8_ADD => Some (u8 (a + b)) | I16_ADD => Some (u16 (a + b))
  | I32_ADD => Some (u32 (a + b)) | I64_ADD => Some (u64 (a + b))
  | I8_SUB => Some (u8 (a - b)) | I16_SUB => Some (u16 (a - b))
  | I32_SUB => Some (u32 (a - b)) | I64_SUB => Some (u64 (a - b))
  | I8_MUL => Some (u8 (a * b)) | I16_MUL => Some (u16 (a * b))
  | I32_MUL => Some (u32 (a * b)) | I64_MUL => Some (u64 (a * b))
  | I1_AND | I64_AND => Some (Z.land a b)
  | I1_OR | I64_OR => Some (Z.lor a b)
  | I64_XOR => Some (Z.lxor a b)
  | _ => '(w, c) ← GetLLVMCompType op; Some (b2z (int_cmp c (sw w a) (sw w b)))
  end.

Definition instr_kval {TM} (pb : ProgramBuilder TM) (ρ : Z -> option kval) (i : Z)
    : option kval :=
  op ← OpcodeFrom (GenericInstructionReader_Opcode i);
  match operand pb ρ (Type2_Arg0 i), operand pb ρ (Type2_Arg1 i) with
  | Some (KInt a), Some (KInt b) => KInt <$> sem_int op a b
  | _, _ => None
  end.

(** [ρ] satisfies the code of the current function: wherever an instruction has
    a denotation in the integer fragment, [ρ] gives it that value. *)
Definition models {TM} (pb : ProgramBuilder TM) (ρ : Z -> option kval) : Prop :=
  forall f idx i x,
    functions pb !! Z.to_nat (current_function pb) = Some f ->
    fb_instructions f !! Z.to_nat idx = Some i -> 0 <= idx ->
    instr_kval pb ρ i = Some x -> ρ idx = Some x.

(** ** The constant pool's invariant *)
Definition is_const_word {TM} (pb : ProgramBuilder TM) (v w : Z) : Prop :=
  Value_IsConstantGlobal v = true /\ is_uw 24 v /\
  constant_instrs pb !! Z.to_nat (Value_GetIdx v) = Some w.

Definition cache_ok {TM} (pb : ProgramBuilder TM) (cache : gmap Z Z)
    (op : ConstantOpcode) (w : Z) : Prop :=
  forall k v, cache !! k = Some v -> is_uw w k /\ is_const_word pb v (const_instr op k).

Record pb_wf {TM} (pb : ProgramBuilder TM) : Prop := {
  pw_size : vec_size (constant_instrs pb) <= 2 ^ 23;
  pw_i64_size : (length (i64_constants pb) <= length (constant_instrs pb))%nat;
  pw_i64_range : Forall (is_uw 64) (i64_constants pb);
  pw_i1 : cache_ok pb (i1_const_to_value pb) C_I1_CONST 1;
  pw_i8 : cache_ok pb (i8_const_to_value pb) C_I8_CONST 8;
  pw_i16 : cache_ok pb (i16_const_to_value pb) C_I16_CONST 16;
  pw_i32 : cache_ok pb (i32_const_to_value pb) C_I32_CONST 32;
  pw_i64 : forall k v, i64_const_to_value pb !! k = Some v -> exists id,
    is_const_word pb v (const_instr C_I64_CONST (Z.of_nat id)) /\
    i64_constants pb !! id = Some k;
  pw_fb : forall f, functions pb !! Z.to_nat (current_function pb) = Some f ->
    vec_size (fb_instructions f) <= 2 ^ 23;
}.

(** A handle that stands for a value of width [w]. *)
Definition const_op (w : Z) : ConstantOpcode :=
  if w =? 1 then C_I1_CONST else if w =? 8 then C_I8_CONST else
  if w =? 16 then C_I16_CONST else if w =? 32 then C_I32_CONST else C_I64_CONST.

Definition has_width {TM} (pb : ProgramBuilder TM) (w v : Z) : Prop :=
  is_uw 24 v /\
  (Value_IsConstantGlobal v = true -> exists i,
     constant_instrs pb !! Z.to_nat (Value_GetIdx v) = Some i /\
     ConstantOpcodeFrom (GenericInstructionReader_Opcode i) = Some (const_op w)).

(** ** Inversion of the builder monad *)
Lemma M_bind_Ok {TM A B} (m : M TM A) (f : A -> M TM B) pb r :
  (m ≫= f) pb = Ok r <-> exists a pb1, m pb = Ok (a, pb1) /\ f a pb1 = Ok r.
Proof.
  unfold mbind, M_bind. destruct (m pb) as [[a pb1]| | |].
  1: split; [eauto|]; by intros (? & ? & [= <- <-] & ?).
  all: split; [done|]; by intros (? & ? & ? & ?).
Qed.

Lemma lift_Ok {TM A} (r : Res A) (pb : ProgramBuilder TM) x :
  lift r pb = Ok x <-> exists a, r = Ok a /\ x = (a, pb).
Proof. destruct r; cbn; split; intros; destruct_and?; naive_solver. Qed.

Ltac m_inv :=
  repeat match goal with
  | H : (_ ≫= _) _ = Ok _ |- _ =>
      apply M_bind_Ok in H as (? & ? & ? & H)
  | H : gets _ _ = Ok _ |- _ => injection H as <- <-
  | H : modify _ _ = Ok _ |- _ => injection H as <- <-
  | H : mret _ _ = Ok _ |- _ => injection H as <- <-
  | H : lift _ _ = Ok _ |- _ => apply lift_Ok in H as (? & ? & [= -> ->])
  | H : throw _ _ = Ok _ |- _ => discriminate H
  | p : (_ * _)%type |- _ => destruct p
  end.

(** ** Extension: operations only append to the pools *)
Definition pool_ext {TM} (pb pb' : ProgramBuilder TM) : Prop :=
  constant_instrs pb `prefix_of` constant_instrs pb' /\
  i64_constants pb `prefix_of` i64_constants pb' /\
  f64_constants pb `prefix_of` f64_constants pb'.

#[export] Instance pool_ext_preorder {TM} : PreOrder (@pool_ext TM).
Proof.
  split.
  - intros pb. repeat split; done.
  - intros a b c (?&?&?) (?&?&?). repeat split; by etrans.
Qed.

Section pool.
Context {TM : Type}.
Implicit Types pb : ProgramBuilder TM.

Lemma is_const_word_ext pb pb' v w :
  constant_instrs pb `prefix_of` constant_instrs pb' ->
  is_const_word pb v w -> is_const_word pb' v w.
Proof. intros ? (?&?&?). split_and!; [done..|]. by eapply prefix_lookup_Some. Qed.

Lemma cache_ok_ext pb pb' c op w :
  constant_instrs pb `prefix_of` constant_instrs pb' ->
  cache_ok pb c op w -> cache_ok pb' c op w.
Proof. intros ? Hc k v Hk. apply Hc in Hk as [? ?]. eauto using is_const_word_ext. Qed.

Lemma cache_ok_insert pb c op w k v :
  cache_ok pb c op w -> is_uw w k -> is_const_word pb v (const_instr op k) ->
  cache_ok pb (<[k := v]> c) op w.
Proof.
  intros Hc ? ? k' v' [[<- <-]|[? ?]]%lookup_insert_Some; [done|eauto].
Qed.

Lemma const_kval_ext pb pb' v x :
  pool_ext pb pb' -> const_kval pb v = Some x -> const_kval pb' v = Some x.
Proof.
  intros (Hc & Hi & Hf). unfold const_kval. rewrite !bind_Some.
  intros (i & Hv & Hx). exists i. split; [by eapply prefix_lookup_Some|].
  destruct (ConstantOpcodeFrom _) as [[]|]; try done;
    apply fmap_Some in Hx as (y & Hy & ->); by rewrite (prefix_lookup_Some _ _ _ _ Hy).
Qed.

Lemma operand_ext pb pb' ρ v x :
  pool_ext pb pb' -> operand pb ρ v = Some x -> operand pb' ρ v = Some x.
Proof. unfold operand. case_match; eauto using const_kval_ext. Qed.

(** The fields of a constant word. *)
Lemma const_instr_fields op c : is_uw 48 c ->
  ConstantOpcodeFrom (GenericInstructionReader_Opcode (const_instr op c)) = Some op /\
  Type1_Constant (const_instr op c) = c.
Proof.
  intros. unfold const_instr, Type1InstructionBuilder. bf_simpl.
  rewrite !uw_id by auto with kush. split; [apply ConstantOpcodeFrom_To|done].
Qed.

Lemma is_uw_mono w w' x : 0 <= w <= w' -> is_uw w x -> is_uw w' x.
Proof.
  unfold is_uw. intros ? [? ?]. pose proof (Z.pow_le_mono_r 2 w w'). lia.
Qed.

(** Appending a constant word. *)
Lemma AppendConstantGlobal_spec pb i v pb' :
  vec_size (constant_instrs pb) <= 2 ^ 23 ->
  AppendConstantGlobal i pb = Ok (v, pb') ->
  pb' = set_constant_instrs (constant_instrs pb ++ [i]) pb /\
  is_const_word pb' v i /\ vec_size (constant_instrs pb') <= 2 ^ 23.
Proof.
  intros Hsz H. unfold AppendConstantGlobal in H. m_inv.
  match goal with E : Value_make _ _ = Ok _ |- _ => rename E into Hm end.
  assert (Hr : 0 <= vec_size (constant_instrs pb)) by (unfold vec_size; lia).
  rewrite uw_id in Hm by (unfold is_uw; lia).
  assert (vec_size (constant_instrs pb) <= 0x7FFFFF).
  { unfold Value_make in Hm. destruct (Z.ltb_spec 0x7FFFFF (vec_size (constant_instrs pb)));
      [done|lia]. }
  destruct (Value_make_spec (vec_size (constant_instrs pb)) true) as (v & Hv & Hi & Hc & Hu);
    [lia|].
  rewrite Hv in Hm. injection Hm as <-. split; [done|]. split.
  - split_and!; [done..|]. rewrite Hi. unfold vec_size. rewrite Nat2Z.id. cbn.
    by rewrite list_lookup_middle.
  - cbn. unfold vec_size in *. rewrite length_app. cbn. lia.
Qed.

Lemma const_kval_word pb v op w c :
  is_const_word pb v (const_instr op c) -> op = const_op w -> w ∈ [1; 8; 16; 32] ->
  is_uw w c -> const_kval pb v = Some (KInt c).
Proof.
  intros (?&?&Hi) -> Hw Hc. unfold const_kval. rewrite Hi. cbn.
  assert (0 <= w <= 48) by (set_unfold in Hw; lia).
  destruct (const_instr_fields (const_op w) c) as [-> ->].
  { apply (is_uw_mono w); [lia|done]. }
  set_unfold in Hw. destruct Hw as [->|[->|[->|[->|[]]]]]; cbn; [|by rewrite uw_id..].
  unfold is_uw in Hc. do 2 f_equal. destruct (Z.eqb_spec c 1); cbn; lia.
Qed.
End pool.

(** What a constant method guarantees: the pools only grow, the invariant and
    the functions are kept, and the returned handle denotes the constant. *)
Record const_post {TM} (pb pb' : ProgramBuilder TM) (r z : Z) : Prop := {
  cp_ext : pool_ext pb pb';
  cp_wf : pb_wf pb';
  cp_const : Value_IsConstantGlobal r = true;
  cp_val : const_kval pb' r = Some (KInt z);
  cp_u24 : is_uw 24 r;
  cp_functions : functions pb' = functions pb;
  cp_current : current_function pb' = current_function pb;
}.

Section constants.
Context {TM : Type}.
Implicit Types pb : ProgramBuilder TM.

(** The pool invariant survives the append of a word. *)
Lemma pb_wf_append pb i :
  pb_wf pb -> vec_size (constant_instrs pb ++ [i]) <= 2 ^ 23 ->
  pb_wf (set_constant_instrs (constant_instrs pb ++ [i]) pb).
Proof.
  intros Hwf ?.
  assert (Hp : constant_instrs pb `prefix_of` constant_instrs pb ++ [i])
    by apply prefix_app_r, reflexivity.
  destruct Hwf as [? ? ? ? ? ? ? H64 ?].
  split; cbn; try done; try (by eapply cache_ok_ext; [|done]).
  - rewrite length_app. lia.
  - intros k v Hk. apply H64 in Hk as (id & ? & ?). exists id.
    split; [|done]. by eapply is_const_word_ext.
Qed.

(** Reading a cached constant, or storing a new one: the laws a cache has to
    satisfy hold for each of the four caches whose words hold the value. *)
Record cache_laws (cache : ProgramBuilder TM -> gmap Z Z)
    (set_cache : gmap Z Z -> ProgramBuilder TM -> ProgramBuilder TM) (w : Z) : Prop := {
  cl_ok pb : pb_wf pb -> cache_ok pb (cache pb) (const_op w) w;
  cl_set pb c : pb_wf pb -> cache_ok pb c (const_op w) w -> pb_wf (set_cache c pb);
  cl_keep pb c : constant_instrs (set_cache c pb) = constant_instrs pb /\
    i64_constants (set_cache c pb) = i64_constants pb /\
    f64_constants (set_cache c pb) = f64_constants pb /\
    functions (set_cache c pb) = functions pb /\
    current_function (set_cache c pb) = current_function pb;
}.

Lemma cached_const_spec cache set_cache w v pb r pb' :
  cache_laws cache set_cache w -> w ∈ [1; 8; 16; 32] -> is_uw w v -> pb_wf pb ->
  cached_const cache set_cache (const_op w) v pb = Ok (r, pb') -> const_post pb pb' r v.
Proof.
  intros Hl Hw Hv Hwf H. unfold cached_const in H. m_inv.
  destruct (cache pb !! v) as [x|] eqn:Hc; m_inv.
  - apply (cl_ok _ _ _ Hl pb Hwf) in Hc as [_ Hx].
    split; [done|done|apply Hx| |apply Hx|done|done].
    by eapply const_kval_word.
  - match goal with E : AppendConstantGlobal _ _ = Ok _ |- _ =>
      apply AppendConstantGlobal_spec in E as (-> & Hx & Hs); [|apply Hwf] end.
    pose proof (pb_wf_append _ _ Hwf Hs) as Hwf'.
    set (pb1 := set_constant_instrs _ pb) in *.
    destruct (cl_keep _ _ _ Hl pb1 (<[v := x]> (cache pb))) as (K1 & K2 & K3 & K4 & K5).
    assert (Hx' : is_const_word (set_cache (<[v := x]> (cache pb)) pb1) x
                    (const_instr (const_op w) v)).
    { eapply is_const_word_ext; [|done]. by rewrite K1. }
    split; [|..|apply Hx| |apply Hx|by rewrite K4|by rewrite K5].
    + unfold pool_ext. rewrite K1, K2, K3. cbn. split_and!; [|done..].
      by apply prefix_app_r.
    + apply (cl_set _ _ _ Hl); [done|]. apply cache_ok_insert; [|done..].
      eapply cache_ok_ext; [|by apply (cl_ok _ _ _ Hl)]. by apply prefix_app_r.
    + by eapply const_kval_word.
Qed.

Ltac cache_law := split; [by intros pb []|by intros pb c []; split|by intros].
Lemma i1_laws : cache_laws i1_const_to_value set_i1_const_to_value 1.
Proof. cache_law. Qed.
Lemma i8_laws : cache_laws i8_const_to_value set_i8_const_to_value 8.
Proof. cache_law. Qed.
Lemma i16_laws : cache_laws i16_const_to_value set_i16_const_to_value 16.
Proof. cache_law. Qed.
Lemma i32_laws : cache_laws i32_const_to_value set_i32_const_to_value 32.
Proof. cache_law. Qed.

Lemma ConstI1_spec pb b r pb' :
  pb_wf pb -> ConstI1 b pb = Ok (r, pb') -> const_post pb pb' r (b2z b).
Proof. apply (cached_const_spec _ _ 1); [apply i1_laws|set_solver|by destruct b]. Qed.
Lemma ConstI8_spec pb z r pb' :
  pb_wf pb -> ConstI8 z pb = Ok (r, pb') -> const_post pb pb' r (u8 z).
Proof. apply (cached_const_spec _ _ 8); [apply i8_laws|set_solver|by apply uw_range]. Qed.
Lemma ConstI16_spec pb z r pb' :
  pb_wf pb -> ConstI16 z pb = Ok (r, pb') -> const_post pb pb' r (u16 z).
Proof. apply (cached_const_spec _ _ 16); [apply i16_laws|set_solver|by apply uw_range]. Qed.
Lemma ConstI32_spec pb z r pb' :
  pb_wf pb -> ConstI32 z pb = Ok (r, pb') -> const_post pb pb' r (u32 z).
Proof. apply (cached_const_spec _ _ 32); [apply i32_laws|set_solver|by apply uw_range]. Qed.

(** A 64-bit constant goes through the pool of 64-bit values. *)
Lemma const_kval_i64 pb v id k :
  is_const_word pb v (const_instr C_I64_CONST (Z.of_nat id)) ->
  i64_constants pb !! id = Some k -> Z.of_nat id < 2 ^ 48 ->
  const_kval pb v = Some (KInt k).
Proof.
  intros (?&?&Hi) Hk ?. unfold const_kval. rewrite Hi. cbn.
  destruct (const_instr_fields C_I64_CONST (Z.of_nat id)) as [-> ->];
    [unfold is_uw; lia|]. by rewrite Nat2Z.id, Hk.
Qed.

Lemma i64_id_small pb id k : pb_wf pb -> i64_constants pb !! id = Some k ->
  Z.of_nat id < 2 ^ 48.
Proof.
  intros Hwf Hk%lookup_lt_Some. pose proof (pw_size pb Hwf).
  pose proof (pw_i64_size pb Hwf). unfold vec_size in *. lia.
Qed.

Lemma ConstI64_spec pb z r pb' :
  pb_wf pb -> ConstI64 z pb = Ok (r, pb') -> const_post pb pb' r (u64 z).
Proof.
  intros Hwf H. unfold ConstI64 in H. m_inv.
  destruct (i64_const_to_value pb !! u64 z) as [x|] eqn:Hc; m_inv.
  - destruct (pw_i64 pb Hwf _ _ Hc) as (id & Hx & Hid).
    split; [done|done|apply Hx| |apply Hx|done|done].
    eapply const_kval_i64; eauto using i64_id_small.
  - match goal with E : AppendConstantGlobal _ _ = Ok _ |- _ =>
      apply AppendConstantGlobal_spec in E as (-> & Hx & Hs); [|apply Hwf] end.
    pose proof (pw_size pb Hwf). pose proof (pw_i64_size pb Hwf).
    assert (Hu : u32 (vec_size (i64_constants pb)) = vec_size (i64_constants pb))
      by (apply uw_id; unfold is_uw, vec_size in *; lia).
    rewrite Hu in *.
    assert (Hlen : constant_instrs pb `prefix_of` constant_instrs pb ++
      [const_instr C_I64_CONST (vec_size (i64_constants pb))]) by (by apply prefix_app_r).
    split; [|split|apply Hx| |apply Hx|done|done]; cbn in *.
    + repeat split; cbn; [done|by apply prefix_app_r|done].
    + done.
    + rewrite !length_app. cbn. lia.
    + apply Forall_app. split; [apply Hwf|]. constructor; [by apply uw_range|done].
    + eapply cache_ok_ext; [|apply Hwf]; done.
    + eapply cache_ok_ext; [|apply Hwf]; done.
    + eapply cache_ok_ext; [|apply Hwf]; done.
    + eapply cache_ok_ext; [|apply Hwf]; done.
    + intros k v [[<- <-]|[? Hk]]%lookup_insert_Some.
      * exists (length (i64_constants pb)). split; [done|]. by rewrite list_lookup_middle.
      * destruct (pw_i64 pb Hwf _ _ Hk) as (id & ? & ?). exists id.
        split; [by eapply is_const_word_ext|]. by apply lookup_app_l_Some.
    + apply Hwf.
    + apply (const_kval_i64 _ _ (length (i64_constants pb))); cbn; [done| |].
      * by rewrite list_lookup_middle.
      * unfold vec_size in *. lia.
Qed.
End constants.

(** ** Appending an instruction *)
Section append.
Context {TM : Type}.
Implicit Types pb : ProgramBuilder TM.

Record append_post (pb pb' : ProgramBuilder TM) (r i : Z) : Prop := {
  ap_ext : pool_ext pb pb';
  ap_wf : pb_wf pb';
  ap_nonconst : Value_IsConstantGlobal r = false;
  ap_u24 : is_uw 24 r;
  ap_instr : exists f, functions pb' !! Z.to_nat (current_function pb') = Some f /\
    fb_instructions f !! Z.to_nat (Value_GetIdx r) = Some i /\ 0 <= Value_GetIdx r;
}.

Lemma Append_spec pb i r pb' :
  pb_wf pb -> Append i pb = Ok (r, pb') -> append_post pb pb' r i.
Proof.
  intros Hwf H. unfold Append, GetCurrentFunction, put_current_function, put_function in H.
  m_inv. repeat match goal with
    | E : vec_at _ _ = Ok _ |- _ => apply vec_at_Ok in E as [? ?]
    | E : vec_set _ _ _ = Ok _ |- _ => apply vec_set_Ok in E as [? ->] end.
  match goal with E : FB_Append ?f _ = Ok (?v, ?f') |- _ =>
    apply FB_Append_inv in E as (Hc & -> & Hle & Hi & _); rename f into f0, f' into f1 end.
  match goal with E : functions pb !! _ = Some f0 |- _ => rename E into Hf end.
  pose proof (pw_fb pb Hwf _ Hf) as Hsz.
  assert (Hid : u32 (vec_size (fb_instructions f0)) = vec_size (fb_instructions f0))
    by (apply uw_id; unfold is_uw, vec_size in *; lia).
  rewrite Hid in *.
  destruct (Value_make_spec (vec_size (fb_instructions f0)) false) as (v & Hv & Hg & Hn & Hu).
  { unfold vec_size in *; lia. }
  unfold Value_make in Hv. rewrite (proj2 (Z.ltb_ge _ _)) in Hv by lia.
  injection Hv as <-.
  assert (Hcur : <[Z.to_nat (current_function pb) := f1]> (functions pb)
                   !! Z.to_nat (current_function pb) = Some f1)
    by (apply list_lookup_insert_eq; by eapply lookup_lt_Some).
  split; cbn; [done| |done|done|].
  - destruct Hwf; split; cbn; try done. rewrite Hcur. intros ? [= <-].
    unfold vec_size in *. rewrite Hi, length_app. cbn. lia.
  - exists f1. rewrite Hcur, Hg, Hi. split_and!; [done| |unfold vec_size; lia].
    unfold vec_size. by rewrite Nat2Z.id, list_lookup_middle.
Qed.

(** The fields of a two-operand word. *)
Lemma instr2_fields op v1 v2 : is_uw 24 v1 -> is_uw 24 v2 ->
  OpcodeFrom (GenericInstructionReader_Opcode (instr2 op v1 v2)) = Some op /\
  Type2_Arg0 (instr2 op v1 v2) = v1 /\ Type2_Arg1 (instr2 op v1 v2) = v2.
Proof.
  intros. unfold instr2, Value_Serialize, Type2InstructionBuilder. bf_simpl.
  rewrite !uw_id by auto with kush. split_and!; [apply OpcodeFrom_To|done..].
Qed.

(** The value of an appended two-operand instruction. *)
Lemma Append2_denotes pb op v1 v2 r pb' ρ a b c :
  pb_wf pb -> is_uw 24 v1 -> is_uw 24 v2 ->
  Append2 op v1 v2 pb = Ok (r, pb') -> models pb' ρ ->
  operand pb ρ v1 = Some (KInt a) -> operand pb ρ v2 = Some (KInt b) ->
  sem_int op a b = Some c -> operand pb' ρ r = Some (KInt c) /\ pb_wf pb'.
Proof.
  intros Hwf H1 H2 H Hm Ha Hb Hs.
  apply Append_spec in H as [Hext ? Hn _ (f & Hf & Hi & Hr)]; [|done].
  split; [|done]. unfold operand at 1. rewrite Hn.
  apply (Hm f _ _ _ Hf Hi Hr). unfold instr_kval.
  destruct (instr2_fields op v1 v2) as (-> & -> & ->); [done..|]. cbn.
  rewrite (operand_ext _ _ _ _ _ Hext Ha), (operand_ext _ _ _ _ _ Hext Hb).
  by rewrite Hs.
Qed.
End append.

(** ** Reading constant operands *)
Section read.
Context {TM : Type}.
Implicit Types pb : ProgramBuilder TM.

Lemma ReadConstant_Ok pb v c pb' : ReadConstant v pb = Ok (c, pb') ->
  pb' = pb /\ exists i, constant_instrs pb !! Z.to_nat (Value_GetIdx v) = Some i /\
    c = Type1_Constant i.
Proof.
  unfold ReadConstant. intros H. m_inv.
  match goal with E : vec_at _ _ = Ok _ |- _ => apply vec_at_Ok in E as [? ?] end. eauto.
Qed.

(** The constant an operand of width [w] denotes, read as a signed integer. *)
Lemma ReadSigned_spec pb w v ρ a x pb' :
  w ∈ [8; 16; 32] -> has_width pb w v -> Value_IsConstantGlobal v = true ->
  operand pb ρ v = Some (KInt a) -> ReadSigned w v pb = Ok (x, pb') ->
  pb' = pb /\ x = sw w a.
Proof.
  intros Hw [_ Hi] Hc Ha H. unfold ReadSigned in H. m_inv.
  match goal with E : ReadConstant _ _ = Ok _ |- _ =>
    apply ReadConstant_Ok in E as (-> & i & Hl & ->) end.
  destruct (Hi Hc) as (i' & Hl' & Ho). rewrite Hl in Hl'. injection Hl' as <-.
  unfold operand, const_kval in Ha. rewrite Hc, Hl in Ha. cbn in Ha. rewrite Ho in Ha.
  split; [done|]. set_unfold in Hw. destruct Hw as [->|[->|[->|[]]]]; cbn in Ha;
    injection Ha as <-; by rewrite sw_uw.
Qed.

Lemma ReadI64Signed_spec pb v ρ a x pb' :
  has_width pb 64 v -> Value_IsConstantGlobal v = true ->
  operand pb ρ v = Some (KInt a) -> ReadI64Signed v pb = Ok (x, pb') ->
  pb' = pb /\ x = sw 64 a.
Proof.
  intros [_ Hi] Hc Ha H. unfold ReadI64Signed, ReadI64 in H. m_inv.
  match goal with E : ReadConstant _ _ = Ok _ |- _ =>
    apply ReadConstant_Ok in E as (-> & i & Hl & ->) end. m_inv.
  destruct (Hi Hc) as (i' & Hl' & Ho). rewrite Hl in Hl'. injection Hl' as <-.
  unfold operand, const_kval in Ha. rewrite Hc, Hl in Ha. cbn in Ha. rewrite Ho in Ha.
  match goal with E : vec_at _ _ = Ok _ |- _ => apply vec_at_Ok in E as [? E] end.
  split; [done|]. cbn in Ha. by simplify_option_eq.
Qed.
End read.

(** ** The integer operations by width *)
Inductive iwidth : Set := W8 | W16 | W32 | W64.
Definition bits_of (w : iwidth) : Z :=
  match w with W8 => 8 | W16 => 16 | W32 => 32 | W64 => 64 end.
Inductive arith : Set := Add | Sub | Mul.
Definition arith_z (o : arith) (a b : Z) : Z :=
  match o with Add => a + b | Sub => a - b | Mul => a * b end.

Section dispatch.
Context {TM : Type}.

Definition build_arith (w : iwidth) (o : arith) : Z -> Z -> M TM Z :=
  match w, o with
  | W8, Add => AddI8 | W8, Sub => SubI8 | W8, Mul => MulI8
  | W16, Add => AddI16 | W16, Sub => SubI16 | W16, Mul => MulI16
  | W32, Add => AddI32 | W32, Sub => SubI32 | W32, Mul => MulI32
  | W64, Add => AddI64 | W64, Sub => SubI64 | W64, Mul => MulI64
  end.

Definition build_cmp (w : iwidth) : CompType -> Z -> Z -> M TM Z :=
  match w with W8 => CmpI8 | W16 => CmpI16 | W32 => CmpI32 | W64 => CmpI64 end.

(** Reading an operand of the given width as the source does. *)
Definition read_of (w : iwidth) : Z -> M TM Z :=
  match w with W64 => ReadI64Signed | _ => ReadSigned (bits_of w) end.

Implicit Types pb : ProgramBuilder TM.

Lemma read_of_spec w pb v ρ a x pb' :
  has_width pb (bits_of w) v -> Value_IsConstantGlobal v = true ->
  operand pb ρ v = Some (KInt a) -> read_of w v pb = Ok (x, pb') ->
  pb' = pb /\ x = sw (bits_of w) a.
Proof.
  destruct w; cbn; [apply ReadSigned_spec; set_solver..|apply ReadI64Signed_spec].
Qed.

(** The folding scheme is right for an operation [g] when the instruction
    computes [g] modulo 2^w, the fold computes [g] on signed operands, and
    [g] is commutative where operands may be swapped. *)
Lemma fold_binop_sound w (f : Z -> Z -> Res Z) g mk commutes op pb v1 v2 r pb' ρ a b :
  (forall x y z, f x y = Ok z -> z = g x y) ->
  (forall x y, uw (bits_of w) (g (sw (bits_of w) x) (sw (bits_of w) y))
               = uw (bits_of w) (g x y)) ->
  (forall x y, sem_int op x y = Some (uw (bits_of w) (g x y))) ->
  (commutes = true -> forall x y, g x y = g y x) ->
  (forall z r pb', mk z pb = Ok (r, pb') -> const_post pb pb' r (uw (bits_of w) z)) ->
  pb_wf pb -> has_width pb (bits_of w) v1 -> has_width pb (bits_of w) v2 ->
  fold_binop (read_of w) f mk commutes op v1 v2 pb = Ok (r, pb') -> models pb' ρ ->
  operand pb ρ v1 = Some (KInt a) -> operand pb ρ v2 = Some (KInt b) ->
  operand pb' ρ r = Some (KInt (uw (bits_of w) (g a b))) /\ pb_wf pb'.
Proof.
  intros Hf Hg Hop Hcomm Hmk Hwf H1 H2 H Hm Ha Hb.
  unfold fold_binop in H. destruct (both_const v1 v2) eqn:Hc.
  - apply andb_true_iff in Hc as [C1 C2]. m_inv.
    match goal with E : read_of w v1 _ = Ok _ |- _ =>
      destruct (read_of_spec _ _ _ _ _ _ _ H1 C1 Ha E) as [-> ->] end.
    match goal with E : read_of w v2 _ = Ok _ |- _ =>
      destruct (read_of_spec _ _ _ _ _ _ _ H2 C2 Hb E) as [-> ->] end. m_inv.
    match goal with E : f _ _ = Ok _ |- _ => apply Hf in E as -> end.
    apply Hmk in H as []. unfold operand. rewrite cp_const0, cp_val0, Hg. done.
  - destruct (commutes && _) eqn:Hsw.
    + apply andb_true_iff in Hsw as [Hco _]. rewrite (Hcomm Hco).
      eapply Append2_denotes; [done|apply H2|apply H1|done|done|done|done|done].
    + eapply Append2_denotes; [done|apply H1|apply H2|done|done|done|done|done].
Qed.

Lemma arith_congr w o x y : 0 < w ->
  uw w (arith_z o (sw w x) (sw w y)) = uw w (arith_z o x y).
Proof.
  intros. destruct o; cbn; [rewrite <- uw_add|rewrite <- uw_sub|rewrite <- uw_mul];
    rewrite !uw_sw by done; [apply uw_add|apply uw_sub|apply uw_mul].
Qed.

(** The constant method of each width, and what it guarantees. *)
Definition mk_of (w : iwidth) : Z -> M TM Z :=
  match w with W8 => ConstI8 | W16 => ConstI16 | W32 => ConstI32 | W64 => ConstI64 end.

Lemma mk_of_spec w pb z r pb' :
  pb_wf pb -> mk_of w z pb = Ok (r, pb') -> const_post pb pb' r (uw (bits_of w) z).
Proof.
  destruct w; [apply ConstI8_spec|apply ConstI16_spec|apply ConstI32_spec|apply ConstI64_spec].
Qed.

Definition arith_op (w : iwidth) (o : arith) : Opcode :=
  match w, o with
  | W8, Add => I8_ADD | W8, Sub => I8_SUB | W8, Mul => I8_MUL
  | W16, Add => I16_ADD | W16, Sub => I16_SUB | W16, Mul => I16_MUL
  | W32, Add => I32_ADD | W32, Sub => I32_SUB | W32, Mul => I32_MUL
  | W64, Add => I64_ADD | W64, Sub => I64_SUB | W64, Mul => I64_MUL
  end.
Definition cmp_op (w : iwidth) : CompType -> Opcode :=
  match w with W8 => I8_cmp_opcode | W16 => I16_cmp_opcode
  | W32 => I32_cmp_opcode | W64 => I64_cmp_opcode end.

(** The twelve arithmetic and four comparison methods are instances of the
    folding schemes. *)
Lemma build_arith_fold w o : build_arith w o =
  fold_binop (read_of w) (fun a b => signed_result (Z.max 32 (bits_of w)) (arith_z o a b))
    (mk_of w) (match o with Sub => false | _ => true end) (arith_op w o).
Proof. by destruct w, o. Qed.

Lemma build_cmp_fold w : build_cmp w = fold_cmp (read_of w) int_cmp (cmp_op w).
Proof. by destruct w. Qed.

Lemma sem_int_arith w o x y :
  sem_int (arith_op w o) x y = Some (uw (bits_of w) (arith_z o x y)).
Proof. by destruct w, o. Qed.

Lemma sem_int_cmp w c x y : sem_int (cmp_op w c) x y =
  Some (b2z (int_cmp c (sw (bits_of w) x) (sw (bits_of w) y))).
Proof. by destruct w, c. Qed.

Lemma flip_cmp_spec c x y : int_cmp (flip_cmp c) y x = int_cmp c x y.
Proof. destruct c; cbn; by rewrite 1?(Z.eqb_sym y x). Qed.

(** C21.  Constant folding and operand swapping are sound: for every width and
    every operation +, -, *, the value the builder returns, folded constant
    or appended instruction, denotes the operation on the operands' values
    modulo 2^w, in every valuation that satisfies the emitted code. *)
Theorem build_arith_sound (w : iwidth) (o : arith) (pb : ProgramBuilder TM)
    (v1 v2 r : Z) (pb' : ProgramBuilder TM) (ρ : Z -> option kval) (a b : Z) :
  pb_wf pb -> has_width pb (bits_of w) v1 -> has_width pb (bits_of w) v2 ->
  build_arith w o v1 v2 pb = Ok (r, pb') -> models pb' ρ ->
  operand pb ρ v1 = Some (KInt a) -> operand pb ρ v2 = Some (KInt b) ->
  operand pb' ρ r = Some (KInt (uw (bits_of w) (arith_z o a b))) /\ pb_wf pb'.
Proof.
  rewrite build_arith_fold. intros Hwf ? ?.
  apply (fold_binop_sound w _ (arith_z o)); try done.
  - intros ? ? ?. apply signed_result_Ok.
  - intros. apply arith_congr. by destruct w.
  - apply sem_int_arith.
  - destruct o; intros; cbn; [lia|done|lia].
  - intros. by apply mk_of_spec.
Qed.

(** C22.  Comparisons are sound: whether the builder folded two constants,
    moved a constant to the right and mirrored the comparison, or emitted the
    comparison as asked, the I1 it returns denotes the signed comparison of
    the operands' values. *)
Theorem build_cmp_sound (w : iwidth) (c : CompType) (pb : ProgramBuilder TM)
    (v1 v2 r : Z) (pb' : ProgramBuilder TM) (ρ : Z -> option kval) (a b : Z) :
  pb_wf pb -> has_width pb (bits_of w) v1 -> has_width pb (bits_of w) v2 ->
  build_cmp w c v1 v2 pb = Ok (r, pb') -> models pb' ρ ->
  operand pb ρ v1 = Some (KInt a) -> operand pb ρ v2 = Some (KInt b) ->
  operand pb' ρ r =
    Some (KInt (b2z (int_cmp c (sw (bits_of w) a) (sw (bits_of w) b)))) /\ pb_wf pb'.
Proof.
  rewrite build_cmp_fold. intros Hwf H1 H2 H Hm Ha Hb.
  unfold fold_cmp in H. destruct (both_const v1 v2) eqn:Hc; [|case_match].
  - apply andb_true_iff in Hc as [C1 C2]. m_inv.
    match goal with E : read_of w v1 _ = Ok _ |- _ =>
      destruct (read_of_spec _ _ _ _ _ _ _ H1 C1 Ha E) as [-> ->] end.
    match goal with E : read_of w v2 _ = Ok _ |- _ =>
      destruct (read_of_spec _ _ _ _ _ _ _ H2 C2 Hb E) as [-> ->] end.
    apply ConstI1_spec in H as []; [|done]. unfold operand. by rewrite cp_const0, cp_val0.
  - rewrite <- flip_cmp_spec.
    eapply Append2_denotes; [done|apply H2|apply H1|done|done|done|done|apply sem_int_cmp].
  - eapply Append2_denotes; [done|apply H1|apply H2|done|done|done|done|apply sem_int_cmp].
Qed.
End dispatch.

(** ** The methods return *)
Section total.
Context {TM : Type}.
Implicit Types pb : ProgramBuilder TM.

(** The builder can take one more instruction and one more constant: the
    current function has a body, its current block is open, and neither the
    instruction vector nor the constant pool has used up the 2^23 handles. *)
Record ready pb : Prop := {
  rd_function : 0 <= current_function pb;
  rd_pool : vec_size (constant_instrs pb) < 2 ^ 23;
  rd_block : exists f s e,
    functions pb !! Z.to_nat (current_function pb) = Some f /\ fb_external f = false /\
    0 <= fb_current f /\ fb_basic_blocks f !! Z.to_nat (fb_current f) = Some (s, e) /\
    e < 0 /\ vec_size (fb_instructions f) < 2 ^ 23;
}.

Lemma Append_total pb i : ready pb -> terminates i = false ->
  exists r pb', Append i pb = Ok (r, pb').
Proof.
  intros [Hc _ (f & s & e & Hf & Hx & Hcur & Hb & He & Hs)] Ht.
  unfold terminates in Ht.
  assert (Hset : forall (x : Z * Z), vec_set (fb_basic_blocks f) (fb_current f) x =
            Ok (<[Z.to_nat (fb_current f) := x]> (fb_basic_blocks f))).
  { intros x. by eapply vec_set_lookup. }
  assert (Hv : exists v f', FB_Append f i = Ok (v, f')).
  { unfold FB_Append. rewrite Hx, (proj2 (vec_at_Ok _ _ (s, e))) by done. cbn.
    rewrite (proj2 (Z.leb_gt 0 e)), Ht, Hset by lia. cbn.
    rewrite uw_id by (unfold is_uw, vec_size in *; lia).
    destruct (Value_make_spec (vec_size (fb_instructions f)) false) as (v & -> & _);
      [unfold vec_size in *; lia|]. cbn. eauto. }
  destruct Hv as (v & f' & Hv).
  unfold Append, GetCurrentFunction, put_current_function, put_function, mbind, M_bind, gets.
  rewrite (proj2 (vec_at_Ok _ _ f)) by done. cbn. rewrite Hv. cbn.
  rewrite (vec_set_lookup _ _ _ _ Hc Hf). cbn. eauto.
Qed.

Lemma AppendConstantGlobal_total pb i : ready pb ->
  exists r pb', AppendConstantGlobal i pb = Ok (r, pb').
Proof.
  intros [_ Hp _]. unfold AppendConstantGlobal, mbind, M_bind. cbn.
  rewrite uw_id by (unfold is_uw, vec_size in *; lia).
  destruct (Value_make_spec (vec_size (constant_instrs pb)) true) as (v & -> & _);
    [unfold vec_size in *; lia|]. cbn. eauto.
Qed.

Lemma cached_const_total cache set_cache op v pb : ready pb ->
  exists r pb', cached_const cache set_cache op v pb = Ok (r, pb').
Proof.
  intros Hr. unfold cached_const, mbind, M_bind. cbn. case_match; [cbn; eauto|].
  destruct (AppendConstantGlobal_total pb (const_instr op v) Hr) as (r & pb' & ->).
  cbn. eauto.
Qed.

Lemma ConstI64_total z pb : ready pb -> exists r pb', ConstI64 z pb = Ok (r, pb').
Proof.
  intros Hr. unfold ConstI64, mbind, M_bind. cbn. case_match; [cbn; eauto|].
  match goal with |- context [AppendConstantGlobal ?i ?p] =>
    destruct (AppendConstantGlobal_total p i) as (r & pb' & ->) end.
  { by destruct Hr. } cbn. eauto.
Qed.

Lemma mk_of_total w z pb : ready pb -> exists r pb', mk_of w z pb = Ok (r, pb').
Proof. destruct w; [apply cached_const_total..|apply ConstI64_total]. Qed.

Lemma Append2_total op v1 v2 pb : ready pb -> is_uw 24 v1 -> is_uw 24 v2 ->
  IsTerminatingInstr (Some op) = false -> exists r pb', Append2 op v1 v2 pb = Ok (r, pb').
Proof.
  intros ? ? ? Ht. apply Append_total; [done|]. unfold terminates.
  by destruct (instr2_fields op v1 v2) as (-> & _).
Qed.

(** A constant operand that has a value can be read. *)
Lemma read_of_total w pb v ρ a :
  has_width pb (bits_of w) v -> Value_IsConstantGlobal v = true ->
  operand pb ρ v = Some (KInt a) -> read_of w v pb = Ok (sw (bits_of w) a, pb).
Proof.
  intros Hw Hc Ha.
  assert (Hx : exists x, read_of w v pb = Ok (x, pb)).
  { destruct Hw as [_ Hi]. destruct (Hi Hc) as (i & Hl & Ho).
    assert (Hr : ReadConstant v pb = Ok (Type1_Constant i, pb)).
    { unfold ReadConstant, mbind, M_bind. cbn. rewrite (proj2 (vec_at_Ok _ _ i)); [done|].
      split; [|done]. unfold Value_GetIdx. by apply Z.land_nonneg; right. }
    unfold operand, const_kval in Ha. rewrite Hc, Hl in Ha. cbn in Ha. rewrite Ho in Ha.
    destruct w; cbn in *; unfold ReadSigned, ReadI64Signed, ReadI64, mbind, M_bind;
      rewrite Hr; [cbn; eauto..|].
    apply fmap_Some in Ha as (x & Hx & _).
    exists (i64 x). cbn. rewrite (proj2 (vec_at_Ok _ _ x)); [done|]. split; [|done].
    unfold Type1_Constant. apply Z.land_nonneg. right. done. }
  destruct Hx as [x Hx]. rewrite Hx.
  by destruct (read_of_spec _ _ _ _ _ _ _ Hw Hc Ha Hx) as [_ ->].
Qed.

(** C40.  When an arithmetic method returns: with room in the pools and an
    open block it always does, except that folding two constants whose exact
    signed result does not fit [int] (respectively [int64_t]) is undefined. *)
Theorem build_arith_total (w : iwidth) (o : arith) (pb : ProgramBuilder TM)
    (v1 v2 : Z) (ρ : Z -> option kval) (a b : Z) :
  ready pb -> has_width pb (bits_of w) v1 -> has_width pb (bits_of w) v2 ->
  operand pb ρ v1 = Some (KInt a) -> operand pb ρ v2 = Some (KInt b) ->
  if both_const v1 v2 &&
     negb (bool_decide (is_sw (Z.max 32 (bits_of w))
             (arith_z o (sw (bits_of w) a) (sw (bits_of w) b))))
  then build_arith w o v1 v2 pb = UB
  else exists r pb', build_arith w o v1 v2 pb = Ok (r, pb').
Proof.
  rewrite build_arith_fold. intros Hr H1 H2 Ha Hb. unfold fold_binop.
  destruct (both_const v1 v2) eqn:Hc; cbn [andb].
  - apply andb_true_iff in Hc as [C1 C2]. unfold mbind, M_bind.
    rewrite (read_of_total _ _ _ _ _ H1 C1 Ha), (read_of_total _ _ _ _ _ H2 C2 Hb).
    unfold signed_result, is_sw. case_bool_decide as Hfit; cbn.
    + rewrite (proj2 (Z.leb_le _ _)), (proj2 (Z.ltb_lt _ _)) by lia.
      by apply mk_of_total.
    + destruct (Z.leb_spec (- 2 ^ (Z.max 32 (bits_of w) - 1))
        (arith_z o (sw (bits_of w) a) (sw (bits_of w) b))); [|done].
      by rewrite (proj2 (Z.ltb_ge _ _)) by lia.
  - destruct H1, H2. case_match; apply Append2_total; by destruct w, o.
Qed.

(**  A comparison method always returns when there is room in the pools
    and the current block is open. *)
Theorem build_cmp_total (w : iwidth) (c : CompType) (pb : ProgramBuilder TM)
    (v1 v2 : Z) (ρ : Z -> option kval) (a b : Z) :
  ready pb -> has_width pb (bits_of w) v1 -> has_width pb (bits_of w) v2 ->
  operand pb ρ v1 = Some (KInt a) -> operand pb ρ v2 = Some (KInt b) ->
  exists r pb', build_cmp w c v1 v2 pb = Ok (r, pb').
Proof.
  rewrite build_cmp_fold. intros Hr H1 H2 Ha Hb. unfold fold_cmp.
  destruct (both_const v1 v2) eqn:Hc; cbn [andb].
  - apply andb_true_iff in Hc as [C1 C2]. unfold mbind, M_bind.
    rewrite (read_of_total _ _ _ _ _ H1 C1 Ha), (read_of_total _ _ _ _ _ H2 C2 Hb).
    by apply cached_const_total.
  - destruct H1, H2. case_match; apply Append2_total; by destruct w, c.
Qed.
End total.

(** ** Boolean operations *)
Section logic.
Context {TM : Type}.
Implicit Types pb : ProgramBuilder TM.

(** An I1 handle; a constant one holds 0 or 1, as [ConstI1] writes it. *)
Definition is_bool pb (v : Z) : Prop :=
  is_uw 24 v /\ (Value_IsConstantGlobal v = true -> exists b : bool,
    constant_instrs pb !! Z.to_nat (Value_GetIdx v) = Some (const_instr C_I1_CONST (b2z b))).

Lemma read_bool pb v ρ a x pb' :
  is_bool pb v -> Value_IsConstantGlobal v = true -> operand pb ρ v = Some (KInt a) ->
  ReadConstant v pb = Ok (x, pb') -> pb' = pb /\ x = a /\ is_uw 1 a.
Proof.
  intros [Hu Hb] Hc Ha (-> & i & Hi & ->)%ReadConstant_Ok.
  destruct (Hb Hc) as [b Hw]. rewrite Hi in Hw. injection Hw as ->.
  assert (is_uw 1 (b2z b)) by (by destruct b).
  unfold operand in Ha. rewrite Hc, (const_kval_word pb v C_I1_CONST 1 (b2z b)) in Ha;
    [|by split_and!|done|set_solver|done].
  injection Ha as <-. destruct (const_instr_fields C_I1_CONST (b2z b)) as [_ ->]; [|done].
  apply (is_uw_mono 1); [lia|done].
Qed.

Lemma uw1_cases a : is_uw 1 a -> a = 0 \/ a = 1.
Proof. unfold is_uw. lia. Qed.

(**  Short-circuited boolean operations are sound: a constant operand
    that decides the result gives a constant, one that does not gives the
    other operand, and otherwise an instruction is emitted; in each case the
    returned I1 denotes the conjunction (disjunction) of the operands. *)
Theorem build_logic_sound (conj : bool) (pb pb' : ProgramBuilder TM) (v1 v2 r : Z)
    (ρ : Z -> option kval) (a b : Z) :
  pb_wf pb -> is_bool pb v1 -> is_bool pb v2 -> is_uw 1 a -> is_uw 1 b ->
  (if conj then AndI1 v1 v2 pb else OrI1 v1 v2 pb) = Ok (r, pb') -> models pb' ρ ->
  operand pb ρ v1 = Some (KInt a) -> operand pb ρ v2 = Some (KInt b) ->
  operand pb' ρ r = Some (KInt (if conj then Z.land a b else Z.lor a b)) /\ pb_wf pb'.
Proof.
  intros Hwf H1 H2 Ua Ub H Hm Ha Hb.
  assert (Hk : forall x, ConstI1 x pb = Ok (r, pb') ->
            operand pb' ρ r = Some (KInt (b2z x)) /\ pb_wf pb').
  { intros x []%ConstI1_spec; [|done]. unfold operand. by rewrite cp_const0, cp_val0. }
  assert (Hi : forall op c, Append2 op v1 v2 pb = Ok (r, pb') -> sem_int op a b = Some c ->
            operand pb' ρ r = Some (KInt c) /\ pb_wf pb').
  { intros op c ? ?. eapply Append2_denotes; [done|apply H1|apply H2|done..]. }
  destruct conj; [unfold AndI1 in H|unfold OrI1 in H].
  all: destruct (Value_IsConstantGlobal v1) eqn:C1;
    [|destruct (Value_IsConstantGlobal v2) eqn:C2; [|by eapply Hi]].
  all: m_inv; match goal with E : ReadConstant _ _ = Ok _ |- _ =>
    first [destruct (read_bool _ _ _ _ _ _ H1 C1 Ha E) as (-> & -> & _)
          |destruct (read_bool _ _ _ _ _ _ H2 C2 Hb E) as (-> & -> & _)] end.
  all: destruct (uw1_cases a Ua) as [-> | ->], (uw1_cases b Ub) as [-> | ->];
    cbn in H; m_inv; first [done|by apply Hk in H].
Qed.
End logic.

(** ** Double constants *)
Section doubles.
Context {TM : Type}.
Implicit Types pb : ProgramBuilder TM.

Lemma f64_find_nan m : f64_find m S754_nan = None.
Proof. induction m as [|[k x] m IH]; [done|]. cbn. by destruct k as [[]|[]| |]. Qed.

Lemma f64_find_assign m v x : SFeqb v v = true -> f64_find (f64_assign m v x) v = Some x.
Proof.
  intros Hv. induction m as [|[k y] m IH]; cbn; [by rewrite Hv|].
  destruct (SFeqb k v) eqn:E; cbn; by rewrite E.
Qed.

(** The two zeros are the same key of the cache. *)
Lemma f64_find_zero m s s' : f64_find m (S754_zero s) = f64_find m (S754_zero s').
Proof. induction m as [|[k x] m IH]; [done|]. cbn. by rewrite IH; destruct k as [[]|[]| |[]]. Qed.

(**  A NaN constant is never found in the cache it was just stored in: the
    method returns the default handle, whose index is no constant's. *)
Theorem ConstF64_nan_default pb : ready pb ->
  exists pb', ConstF64 S754_nan pb = Ok (Value_default, pb').
Proof.
  intros Hr. unfold ConstF64, f64_index, mbind, M_bind. cbn. rewrite f64_find_nan. cbn.
  match goal with |- context [AppendConstantGlobal ?i ?p] =>
    destruct (AppendConstantGlobal_total p i) as (r & pb' & ->) end; [by destruct Hr|].
  cbn. rewrite f64_find_nan. cbn. eauto.
Qed.

(**  After [0.0], the constant [-0.0] gets the handle of [0.0]. *)
Theorem ConstF64_zeros_shared pb : ready pb ->
  exists v pb1, ConstF64 (S754_zero false) pb = Ok (v, pb1) /\
    ConstF64 (S754_zero true) pb1 = Ok (v, pb1).
Proof.
  intros Hr.
  assert (H : exists v pb1, ConstF64 (S754_zero false) pb = Ok (v, pb1) /\
            f64_find (f64_const_to_value pb1) (S754_zero false) = Some v).
  { unfold ConstF64, f64_index, mbind, M_bind. cbn.
    destruct (f64_find (f64_const_to_value pb) (S754_zero false)) as [x|] eqn:E.
    - exists x, pb. cbn. by rewrite E.
    - cbn. match goal with |- context [AppendConstantGlobal ?i ?p] =>
        destruct (AppendConstantGlobal_total p i) as (r & pb' & ->) end; [by destruct Hr|].
      exists r. eexists. split; [cbn; by rewrite f64_find_assign|].
      cbn. by rewrite f64_find_assign. }
  destruct H as (v & pb1 & H & Hf). exists v, pb1. split; [done|].
  unfold ConstF64, f64_index, mbind, M_bind. cbn.
  rewrite (f64_find_zero _ true false), Hf. cbn. by rewrite (f64_find_zero _ true false), Hf.
Qed.
End doubles.

(** ** A function with one argument and the constant 5 *)
Module Demo.
Definition fb : FunctionBuilder :=
  match FB_InitBody (FunctionBuilder_new "f" 11 I32Type [I32Type] false 0) with
  | Ok f => f
  | _ => FunctionBuilder_new "f" 11 I32Type [I32Type] false 0
  end.
Definition pb0 : ProgramBuilder unit :=
  set_current_function 0 (set_functions [fb] (ProgramBuilder_new tt)).

Definition run {A} (m : M unit A) (d : A) (pb : ProgramBuilder unit)
    : A * ProgramBuilder unit :=
  match m pb with Ok r => r | _ => (d, pb) end.

(** [five] is the handle of a constant, [arg] of the function's argument. *)
Definition five : Z := (run (ConstI32 5) 0 pb0).1.
Definition pb : ProgramBuilder unit := (run (ConstI32 5) 0 pb0).2.
Definition arg : Z := 0.

Lemma pb0_wf : pb_wf pb0.
Proof. split; cbn; try done; by intros f [= <-]. Qed.
Lemma pb_ok : pb_wf pb.
Proof. apply (cp_wf pb0 pb five (u32 5)), ConstI32_spec; [apply pb0_wf|done]. Qed.
Lemma five_width : has_width pb 32 five.
Proof. split; [done|]. intros _. by eexists. Qed.
Lemma arg_width : has_width pb 32 arg.
Proof. split; [done|]. by intros [=]. Qed.
Lemma pb_ready : ready pb.
Proof. split; [done|done|]. exists fb, 0, (-1). by vm_compute. Qed.

(** The argument is 7; the instruction the builder appends gets value [x]. *)
Definition rho (x : Z) (idx : Z) : option kval :=
  if idx =? 0 then Some (KInt 7) else if idx =? 1 then Some (KInt x) else None.

Definition sub : Z * ProgramBuilder unit := run (SubI32 five arg) 0 pb.
Definition cmp : Z * ProgramBuilder unit := run (CmpI32 LT five arg) 0 pb.

Lemma rho_models (p : ProgramBuilder unit) i0 i1 x :
  (fb_instructions <$> functions p !! Z.to_nat (current_function p)) = Some [i0; i1] ->
  instr_kval p (rho x) i0 = None -> instr_kval p (rho x) i1 = Some (KInt x) ->
  models p (rho x).
Proof.
  intros Hf H0 H1 f idx i y E Hi ? Hy. rewrite E in Hf. injection Hf as Hf. rewrite Hf in Hi.
  destruct (Z.to_nat idx) as [|[|[|n]]] eqn:En; simplify_eq/=.
  assert (idx = 1) as -> by lia. done.
Qed.
End Demo.

Lemma build_arith_sound_witness :
  operand Demo.sub.2 (Demo.rho (u32 (-2))) Demo.sub.1 = Some (KInt 4294967294) /\
  pb_wf Demo.sub.2.
Proof.
  apply (build_arith_sound W32 Sub Demo.pb Demo.five Demo.arg Demo.sub.1 Demo.sub.2
           (Demo.rho (u32 (-2))) 5 7).
  - apply Demo.pb_ok.
  - apply Demo.five_width.
  - apply Demo.arg_width.
  - by vm_compute.
  - eapply Demo.rho_models; [by vm_compute|by vm_compute|by vm_compute].
  - by vm_compute.
  - by vm_compute.
Defined.

Lemma build_cmp_sound_witness :
  operand Demo.cmp.2 (Demo.rho 1) Demo.cmp.1 = Some (KInt 1) /\ pb_wf Demo.cmp.2.
Proof.
  apply (build_cmp_sound W32 LT Demo.pb Demo.five Demo.arg Demo.cmp.1 Demo.cmp.2
           (Demo.rho 1) 5 7).
  - apply Demo.pb_ok.
  - apply Demo.five_width.
  - apply Demo.arg_width.
  - by vm_compute.
  - eapply Demo.rho_models; [by vm_compute|by vm_compute|by vm_compute].
  - by vm_compute.
  - by vm_compute.
Defined.

Lemma build_arith_total_witness :
  exists r pb', build_arith W32 Add Demo.five Demo.arg Demo.pb = Ok (r, pb').
Proof.
  apply (build_arith_total W32 Add Demo.pb Demo.five Demo.arg (Demo.rho 0) 5 7).
  - apply Demo.pb_ready.
  - apply Demo.five_width.
  - apply Demo.arg_width.
  - by vm_compute.
  - by vm_compute.
Defined.

Lemma build_cmp_total_witness :
  exists r pb', build_cmp W32 GE Demo.five Demo.five Demo.pb = Ok (r, pb').
Proof.
  apply (build_cmp_total W32 GE Demo.pb Demo.five Demo.five (Demo.rho 0) 5 5).
  - apply Demo.pb_ready.
  - apply Demo.five_width.
  - apply Demo.five_width.
  - by vm_compute.
  - by vm_compute.
Defined.

Lemma build_logic_sound_witness :
  let p := Demo.run (ConstI1 true) 0 Demo.pb0 in
  operand p.2 (Demo.rho 1) p.1 = Some (KInt 1) /\ pb_wf p.2.
Proof.
  apply (build_logic_sound true (Demo.run (ConstI1 true) 0 Demo.pb0).2
    (Demo.run (ConstI1 true) 0 Demo.pb0).2 (Demo.run (ConstI1 true) 0 Demo.pb0).1
    (Demo.run (ConstI1 true) 0 Demo.pb0).1 (Demo.run (ConstI1 true) 0 Demo.pb0).1
    (Demo.rho 1) 1 1).
  - apply (cp_wf Demo.pb0 _ (Demo.run (ConstI1 true) 0 Demo.pb0).1 1), (ConstI1_spec _ true);
      [apply Demo.pb0_wf|done].
  - split; [done|]. intros _. by exists true.
  - split; [done|]. intros _. by exists true.
  - done.
  - done.
  - by vm_compute.
  - intros f idx i x Hf Hi ? Hx. injection Hf as <-.
    destruct (Z.to_nat idx) as [|n]; [injection Hi as <-; discriminate Hx|done].
  - by vm_compute.
  - by vm_compute.
Defined.

Lemma ConstF64_nan_default_witness :
  exists pb', ConstF64 S754_nan Demo.pb = Ok (Value_default, pb').
Proof. apply (ConstF64_nan_default Demo.pb), Demo.pb_ready. Defined.

Lemma ConstF64_zeros_shared_witness :
  exists v pb1, ConstF64 (S754_zero false) Demo.pb = Ok (v, pb1) /\
    ConstF64 (S754_zero true) pb1 = Ok (v, pb1).
Proof. apply (ConstF64_zeros_shared Demo.pb), Demo.pb_ready. Defined.
