(* ===== verification/CfgSimplify.v ===== *)
(** * Control-flow simplification

    src/khir/cfg_simplify.cc, run once per function by [ProgramBuilder::Build]:
    blocks without live predecessors are dropped, a block is merged with its
    only successor when it is that successor's only predecessor (phis of the
    merged block are replaced by the value their phi member wraps), and the
    remaining blocks are renumbered.  [BasicBlock] is the class of
    src/khir/program.h. *)
From S2P Require Import Prelude Opcode Instruction FunctionBuilder.

(** ** Basic blocks *)
Record BasicBlock := MkBB {
  Segments : list (Z * Z);
  Successors : list Z;
  Predecessors : list Z;
}.

Definition SetSegments (b : BasicBlock) (segs : list (Z * Z)) : BasicBlock :=
  MkBB segs (Successors b) (Predecessors b).
Definition SetSuccessors (b : BasicBlock) (succ : list Z) : BasicBlock :=
  MkBB (Segments b) succ (Predecessors b).
Definition SetPredecessors (b : BasicBlock) (pred : list Z) : BasicBlock :=
  MkBB (Segments b) (Successors b) pred.

(** ** Unreachable blocks *)

(** The inner loop over the predecessors: stops at the first live one. *)
Fixpoint all_deleted (deleted : list bool) (preds : list Z) : Res bool :=
  match preds with
  | [] => Ok true
  | p :: preds => d ← vec_at deleted p; if d : bool then all_deleted deleted preds else Ok false
  end.

(** One successor of the block taken off the worklist. *)
Definition visit_succ (bbs : list BasicBlock) (deleted : list bool) (worklist : list Z)
    (succ : Z) : Res (list bool * list Z) :=
  d ← vec_at deleted succ;
  if d : bool then Ok (deleted, worklist) else
  b ← vec_at bbs succ;
  all ← all_deleted deleted (Predecessors b);
  if all : bool then deleted ← vec_set deleted succ true; Ok (deleted, worklist ++ [succ])
  else Ok (deleted, worklist).

Fixpoint visit_succs (bbs : list BasicBlock) (deleted : list bool) (worklist : list Z)
    (succs : list Z) : Res (list bool * list Z) :=
  match succs with
  | [] => Ok (deleted, worklist)
  | s :: succs =>
      '(deleted, worklist) ← visit_succ bbs deleted worklist s;
      visit_succs bbs deleted worklist succs
  end.

(** The loop [while (!worklist.empty())]. *)
Fixpoint del_loop (fuel : nat) (bbs : list BasicBlock) (deleted : list bool)
    (worklist : list Z) : Res (list bool) :=
  match worklist with
  | [] => Ok deleted
  | curr :: worklist =>
      match fuel with
      | O => NoFuel
      | S fuel =>
          b ← vec_at bbs curr;
          '(deleted, worklist) ← visit_succs bbs deleted worklist (Successors b);
          del_loop fuel bbs deleted worklist
      end
  end.

(** The first loop marks and queues every block but the entry that has no
    predecessor; [i] is the index of the head of the remaining blocks. *)
Fixpoint del_init (i : Z) (bbs : list BasicBlock) : list bool * list Z :=
  match bbs with
  | [] => ([], [])
  | b :: bbs =>
      let '(deleted, worklist) := del_init (i + 1) bbs in
      if (1 <=? i) && bool_decide (Predecessors b = [])
      then (true :: deleted, i :: worklist) else (false :: deleted, worklist)
  end.

(** Every block enters the worklist at most once: fuel for each of them. *)
Definition GetDeletedBlocks (bbs : list BasicBlock) : Res (list bool) :=
  let '(deleted, worklist) := del_init 0 bbs in
  del_loop (length bbs) bbs deleted worklist.

(** ** Rewriting operands *)

(** The loop [while (value_map.contains(v)) v = value_map.at(v)]. *)
Fixpoint resolve (fuel : nat) (value_map : gmap Z Z) (v : Z) : Res Z :=
  match value_map !! v with
  | None => Ok v
  | Some v' => match fuel with O => NoFuel | S fuel => resolve fuel value_map v' end
  end.

(** How [RewriteInstr]'s switch treats an opcode: two value operands, the
    operand of a Type 3 word, the operand of a Type 5 word, or nothing. *)
Inductive rewrite_kind : Set := RK_Type2 | RK_Type3 | RK_Type5 | RK_none.

Definition rewrite_group (o : Opcode) : rewrite_kind :=
  match o with
  | I1_AND | I1_OR | I1_CMP_EQ | I1_CMP_NE | I8_ADD | I8_MUL | I8_SUB | I8_CMP_EQ
  | I8_CMP_NE | I8_CMP_LT | I8_CMP_LE | I8_CMP_GT | I8_CMP_GE | I16_ADD | I16_MUL
  | I16_SUB | I16_CMP_EQ | I16_CMP_NE | I16_CMP_LT | I16_CMP_LE | I16_CMP_GT
  | I16_CMP_GE | I32_ADD | I32_MUL | I32_SUB | I32_CMP_EQ | I32_CMP_NE | I32_CMP_LT
  | I32_CMP_LE | I32_CMP_GT | I32_CMP_GE | I32_VEC8_CMP_EQ | I32_VEC8_CMP_NE
  | I32_VEC8_CMP_GT | I32_VEC8_CMP_GE | I32_VEC8_CMP_LT | I32_VEC8_CMP_LE
  | I32_VEC8_ADD | I1_VEC8_AND | I1_VEC8_NOT | I1_VEC8_MASK_EXTRACT | I64_POPCOUNT
  | MASK_TO_PERMUTE | I32_VEC8_PERMUTE | I1_VEC8_OR | I64_ADD | I64_MUL | I64_SUB
  | I64_LSHIFT | I64_RSHIFT | I64_AND | I64_OR | I64_XOR | I64_CMP_EQ | I64_CMP_NE
  | I64_CMP_LT | I64_CMP_LE | I64_CMP_GT | I64_CMP_GE | F64_ADD | F64_MUL | F64_SUB
  | F64_DIV | F64_CMP_EQ | F64_CMP_NE | F64_CMP_LT | F64_CMP_LE | F64_CMP_GT
  | F64_CMP_GE | PHI_MEMBER | I1_LNOT | I1_ZEXT_I8 | I1_ZEXT_I64 | I8_ZEXT_I64
  | I8_CONV_F64 | I16_ZEXT_I64 | I16_CONV_F64 | I32_ZEXT_I64 | I32_CONV_I32_VEC8
  | I32_CONV_F64 | I64_CONV_F64 | I64_TRUNC_I16 | I64_TRUNC_I32 | F64_CONV_I64
  | PTR_CMP_NULLPTR | I1_LOAD | I8_LOAD | I16_LOAD | I32_LOAD | I32_VEC8_LOAD
  | I64_LOAD | F64_LOAD | I8_STORE | I16_STORE | I32_STORE | I64_STORE | F64_STORE
  | PTR_STORE | I32_VEC8_MASK_STORE | I32_VEC8_MASK_STORE_INFO | GEP_STATIC_OFFSET
  | GEP_DYNAMIC_OFFSET | I32_CMP_EQ_ANY_CONST_VEC4 | I32_CMP_EQ_ANY_CONST_VEC8 => RK_Type2
  | GEP_DYNAMIC | PTR_CAST | PTR_LOAD | RETURN_VALUE | CALL_ARG => RK_Type3
  | CONDBR => RK_Type5
  | CALL_INDIRECT | CALL | RETURN | BR | FUNC_ARG | GEP_STATIC | PHI => RK_none
  end.

(** A chain of replacements visits every key at most once: the map's size is
    the fuel of [resolve].  A byte that names no opcode matches no case. *)
Definition RewriteInstr (instr : Z) (value_map : gmap Z Z) : Res Z :=
  let res := resolve (size value_map) value_map in
  match rewrite_group <$> OpcodeFrom (GenericInstructionReader_Opcode instr) with
  | Some RK_Type2 =>
      v0 ← res (Type2_Arg0 instr);
      v1 ← res (Type2_Arg1 instr);
      Ok (Type2_SetArg1 (Type2_SetArg0 instr v0) v1)
  | Some RK_Type3 => v0 ← res (Type3_Arg instr); Ok (Type3_SetArg instr v0)
  | Some RK_Type5 => v0 ← res (Type5_Arg instr); Ok (Type5_SetArg instr v0)
  | Some RK_none | None => Ok instr
  end.

(** ** Renumbering one block *)

(** [bb_idx.at(b)]. *)
Definition bb_at (bb_idx : gmap Z Z) (b : Z) : Res Z :=
  match bb_idx !! b with Some k => Ok k | None => Throw "raw_hash_map::at" end.

(** The blocks of a list that are not deleted, renumbered. *)
Fixpoint renumber (deleted : list bool) (bb_idx : gmap Z Z) (l : list Z) : Res (list Z) :=
  match l with
  | [] => Ok []
  | b :: l =>
      d ← vec_at deleted b;
      if d : bool then renumber deleted bb_idx l else
      k ← bb_at bb_idx b;
      ks ← renumber deleted bb_idx l;
      Ok (k :: ks)
  end.

Definition RewriteBlock (block : BasicBlock) (instrs : list Z) (deleted : list bool)
    (bb_idx : gmap Z Z) : Res (BasicBlock * list Z) :=
  predecessors ← renumber deleted bb_idx (Predecessors block);
  successors ← renumber deleted bb_idx (Successors block);
  let block := SetSuccessors (SetPredecessors block predecessors) successors in
  '(_, end_instr_idx) ← opt_ub (list.last (Segments block));
  instr ← vec_at instrs end_instr_idx;
  match OpcodeFrom (Type5_Opcode instr) with
  | Some BR =>
      next_bb ← bb_at bb_idx (Type5_Marg0 instr);
      instrs ← vec_set instrs end_instr_idx (Type5_SetMarg0 instr next_bb);
      Ok (block, instrs)
  | Some CONDBR =>
      next_bb1 ← bb_at bb_idx (Type5_Marg0 instr);
      next_bb2 ← bb_at bb_idx (Type5_Marg1 instr);
      instrs ← vec_set instrs end_instr_idx
        (Type5_SetMarg1 (Type5_SetMarg0 instr next_bb1) next_bb2);
      Ok (block, instrs)
  | Some RETURN | Some RETURN_VALUE => Ok (block, instrs)
  | _ => Throw "BB not terminated"
  end.

(** ** Merging blocks *)
Record MergeState := MkMS {
  ms_blocks : list BasicBlock;
  ms_deleted : list bool;
  ms_succ : list (list Z);
  ms_pred : list (list Z);
  ms_value_map : gmap Z Z;
}.

(** The blocks of a list that are not deleted. *)
Fixpoint live_only (deleted : list bool) (l : list Z) : Res (list Z) :=
  match l with
  | [] => Ok []
  | x :: l =>
      d ← vec_at deleted x;
      xs ← live_only deleted l;
      Ok (if d : bool then xs else x :: xs)
  end.

(** The first loop: the live edges of every block. *)
Fixpoint live_edges (deleted : list bool) (bbs : list BasicBlock)
    : Res (list (list Z) * list (list Z)) :=
  match bbs with
  | [] => Ok ([], [])
  | b :: bbs =>
      s ← live_only deleted (Successors b);
      p ← live_only deleted (Predecessors b);
      '(succ, pred) ← live_edges deleted bbs;
      Ok (s :: succ, p :: pred)
  end.

Definition instr_opcode (instr : Z) : option Opcode :=
  OpcodeFrom (GenericInstructionReader_Opcode instr).

(** The loop over the phis that start [start_segment]: [rest] counts the
    positions left in the segment, so that it is 0 exactly when the loop's
    first condition fails. *)
Fixpoint merge_phis (rest : nat) (instrs : list Z) (start_first end_second : Z)
    (instr_offset : Z) (value_map : gmap Z Z) : Res (Z * gmap Z Z) :=
  match rest with
  | O => Ok (instr_offset, value_map)
  | S rest =>
      instr ← vec_at instrs (start_first + instr_offset);
      if bool_decide (instr_opcode instr = Some PHI) then
        member ← vec_at instrs (end_second - 1 - instr_offset);
        if bool_decide (OpcodeFrom (Type2_Opcode member) = Some PHI_MEMBER) then
          merge_phis rest instrs start_first end_second (instr_offset + 1)
            (<[Type2_Arg0 member := Type2_Arg1 member]> value_map)
        else Throw "Missing phi member"
      else Ok (instr_offset, value_map)
  end.

(** [v.back() = x] and [v.front() = x]. *)
Definition set_back {A} (l : list A) (x : A) : list A := take (length l - 1) l ++ [x].
Definition set_front {A} (l : list A) (x : A) : list A := x :: drop 1 l.

Definition empty_seg (seg : Z * Z) : bool := seg.2 <? seg.1.

(** The segments of the merged block, from those of [i] and [j] once the phi
    members, the branch and the phis are cut off. *)
Definition join_segments (segs_i segs_j : list (Z * Z)) : Res (list (Z * Z)) :=
  back ← opt_ub (list.last segs_i);
  let segs_i := if empty_seg back then take (length segs_i - 1) segs_i else segs_i in
  front ← opt_ub (head segs_j);
  let it := if empty_seg front then drop 1 segs_j else segs_j in
  Ok (segs_i ++ it).

(** The inner loop over [pred[next]]. *)
Definition rename_pred (j i : Z) (prevs : list Z) : list Z :=
  (fun prev => if prev =? j then i else prev) <$> prevs.

Fixpoint rename_preds (pred : list (list Z)) (j i : Z) (nexts : list Z)
    : Res (list (list Z)) :=
  match nexts with
  | [] => Ok pred
  | next :: nexts =>
      prevs ← vec_at pred next;
      pred ← vec_set pred next (rename_pred j i prevs);
      rename_preds pred j i nexts
  end.

(** One iteration of the merge loop.  When [i] and [j] are the same block the
    call of [vector::insert] is given a range of the vector it inserts into,
    which is undefined. *)
Definition merge_pair (instrs : list Z) (st : MergeState) (i j : Z) : Res MergeState :=
  bi ← vec_at (ms_blocks st) i;
  end_segment ← opt_ub (list.last (Segments bi));
  bj ← vec_at (ms_blocks st) j;
  start_segment ← opt_ub (head (Segments bj));
  '(instr_offset, value_map) ←
    merge_phis (Z.to_nat (start_segment.2 - start_segment.1 + 1)) instrs
      start_segment.1 end_segment.2 0 (ms_value_map st);
  if i =? j then UB else
  let segs_i := set_back (Segments bi) (end_segment.1, end_segment.2 - instr_offset - 1) in
  let segs_j := set_front (Segments bj) (start_segment.1 + instr_offset, start_segment.2) in
  segs ← join_segments segs_i segs_j;
  blocks ← vec_set (ms_blocks st) j (SetSegments bj segs_j);
  blocks ← vec_set blocks i (SetSegments bi segs);
  deleted ← vec_set (ms_deleted st) j true;
  succ_j ← vec_at (ms_succ st) j;
  succ ← vec_set (ms_succ st) i succ_j;
  pred ← rename_preds (ms_pred st) j i succ_j;
  Ok (MkMS blocks deleted succ pred value_map).

(** The loop [while (succ[i].size() == 1 && pred[succ[i][0]].size() == 1)]. *)
Fixpoint merge_loop (fuel : nat) (instrs : list Z) (st : MergeState) (i : Z) : Res MergeState :=
  succ_i ← vec_at (ms_succ st) i;
  match succ_i with
  | [j] =>
      pred_j ← vec_at (ms_pred st) j;
      match pred_j with
      | [_] =>
          match fuel with
          | O => NoFuel
          | S fuel => st ← merge_pair instrs st i j; merge_loop fuel instrs st i
          end
      | _ => Ok st
      end
  | _ => Ok st
  end.

(** [for (int i = 0; i < basic_blocks.size(); i++)]; a merge deletes a block,
    so a loop of more iterations than there are blocks does not happen. *)
Fixpoint merge_all (instrs : list Z) (st : MergeState) (ids : list Z) : Res MergeState :=
  match ids with
  | [] => Ok st
  | i :: ids =>
      d ← vec_at (ms_deleted st) i;
      st ← (if d : bool then Ok st
            else merge_loop (length (ms_blocks st)) instrs st i);
      merge_all instrs st ids
  end.

(** [for (auto instr_idx = seg_start; instr_idx <= seg_end; instr_idx++)]. *)
Fixpoint rewrite_range (instrs : list Z) (value_map : gmap Z Z) (idxs : list Z)
    : Res (list Z) :=
  match idxs with
  | [] => Ok instrs
  | k :: idxs =>
      instr ← vec_at instrs k;
      instr ← RewriteInstr instr value_map;
      instrs ← vec_set instrs k instr;
      rewrite_range instrs value_map idxs
  end.

Definition seg_indices (seg : Z * Z) : list Z := seqZ seg.1 (seg.2 - seg.1 + 1).

Fixpoint rewrite_blocks (instrs : list Z) (value_map : gmap Z Z) (deleted : list bool)
    (i : Z) (bbs : list BasicBlock) : Res (list Z) :=
  match bbs with
  | [] => Ok instrs
  | b :: bbs =>
      d ← vec_at deleted i;
      instrs ← (if d : bool then Ok instrs
                else rewrite_range instrs value_map (Segments b ≫= seg_indices));
      rewrite_blocks instrs value_map deleted (i + 1) bbs
  end.

(** The last loop: live blocks take their new edges. *)
Fixpoint store_edges (deleted : list bool) (succ pred : list (list Z)) (i : Z)
    (bbs : list BasicBlock) : Res (list BasicBlock) :=
  match bbs with
  | [] => Ok []
  | b :: bbs =>
      d ← vec_at deleted i;
      b ← (if d : bool then Ok b else
           s ← vec_at succ i; p ← vec_at pred i;
           Ok (SetPredecessors (SetSuccessors b s) p));
      bbs ← store_edges deleted succ pred (i + 1) bbs;
      Ok (b :: bbs)
  end.

Definition block_ids (bbs : list BasicBlock) : list Z := seqZ 0 (vec_size bbs).

Definition MergeBasicBlocks (instrs : list Z) (bbs : list BasicBlock) (deleted : list bool)
    : Res (list Z * list BasicBlock * list bool) :=
  '(succ, pred) ← live_edges deleted bbs;
  st ← merge_all instrs (MkMS bbs deleted succ pred ∅) (block_ids bbs);
  instrs ← rewrite_blocks instrs (ms_value_map st) (ms_deleted st) 0 (ms_blocks st);
  bbs ← store_edges (ms_deleted st) (ms_succ st) (ms_pred st) 0 (ms_blocks st);
  Ok (instrs, bbs, ms_deleted st).

(** ** The pass *)

(** The new index of every live block. *)
Fixpoint number_blocks (deleted : list bool) (i new_idx : Z) : gmap Z Z :=
  match deleted with
  | [] => ∅
  | true :: deleted => number_blocks deleted (i + 1) new_idx
  | false :: deleted => <[i := new_idx]> (number_blocks deleted (i + 1) (new_idx + 1))
  end.

Fixpoint output_blocks (instrs : list Z) (deleted : list bool) (bb_idx : gmap Z Z)
    (i : Z) (bbs : list BasicBlock) : Res (list Z * list BasicBlock) :=
  match bbs with
  | [] => Ok (instrs, [])
  | b :: bbs =>
      d ← vec_at deleted i;
      if d : bool then output_blocks instrs deleted bb_idx (i + 1) bbs else
      '(b, instrs) ← RewriteBlock b instrs deleted bb_idx;
      '(instrs, output) ← output_blocks instrs deleted bb_idx (i + 1) bbs;
      Ok (instrs, b :: output)
  end.

Definition CFGSimplify (instrs : list Z) (bbs : list BasicBlock)
    : Res (list Z * list BasicBlock) :=
  deleted ← GetDeletedBlocks bbs;
  '(instrs, bbs, deleted) ← MergeBasicBlocks instrs bbs deleted;
  output_blocks instrs deleted (number_blocks deleted 0 0) 0 bbs.

(** ** Edges *)
Definition succs (bbs : list BasicBlock) (b : Z) : list Z := row (Successors <$> bbs) b.
Definition preds (bbs : list BasicBlock) (b : Z) : list Z := row (Predecessors <$> bbs) b.

(** [Successors] and [Predecessors] record the same edges. *)
Definition edges_ok (bbs : list BasicBlock) : Prop :=
  mirror (Successors <$> bbs) (Predecessors <$> bbs).

Definition in_range (bbs : list BasicBlock) (b : Z) : Prop := 0 <= b < vec_size bbs.

Inductive reachable (bbs : list BasicBlock) : Z -> Prop :=
| reach_entry : reachable bbs 0
| reach_succ a b : reachable bbs a -> b ∈ succs bbs a -> reachable bbs b.

(** The least set of blocks closed under: a block other than a bare entry
    block all of whose predecessors are in the set. *)
Inductive Dead (bbs : list BasicBlock) : Z -> Prop :=
| Dead_intro b : in_range bbs b -> (b <> 0 \/ preds bbs b <> []) ->
    (forall p, p ∈ preds bbs b -> Dead bbs p) -> Dead bbs b.

Lemma elem_of_row E a b : b ∈ row E a <-> (0 < edge_count E a b)%nat.
Proof.
  unfold edge_count. rewrite list_elem_of_In, (count_occ_In Z.eq_dec). unfold gt. done.
Qed.

Lemma row_range E a b : b ∈ row E a -> 0 <= a < vec_size E.
Proof.
  unfold row, vec_size. destruct (Z.ltb_spec a 0); [by intros ?%not_elem_of_nil|].
  destruct (E !! Z.to_nat a) eqn:Ha; [|by intros ?%not_elem_of_nil].
  apply lookup_lt_Some in Ha. lia.
Qed.

Section edges.
Context (bbs : list BasicBlock) (He : edges_ok bbs).

Lemma succs_preds a b : b ∈ succs bbs a <-> a ∈ preds bbs b.
Proof. unfold succs, preds. by rewrite !elem_of_row, He. Qed.

Lemma succs_range a b : b ∈ succs bbs a -> in_range bbs a /\ in_range bbs b.
Proof.
  intros H. split; [apply row_range in H|apply succs_preds, row_range in H];
    unfold vec_size in *; rewrite length_fmap in H; exact H.
Qed.

Lemma preds_range a b : a ∈ preds bbs b -> in_range bbs a /\ in_range bbs b.
Proof. intros H%succs_preds. by apply succs_range. Qed.

Lemma block_at b : in_range bbs b -> exists bb, vec_at bbs b = Ok bb /\
  bbs !! Z.to_nat b = Some bb /\ Successors bb = succs bbs b /\ Predecessors bb = preds bbs b.
Proof.
  unfold in_range, vec_size, succs, preds, row. intros [? ?].
  destruct (lookup_lt_is_Some_2 bbs (Z.to_nat b)) as [bb Hbb]; [lia|]. exists bb.
  rewrite !list_lookup_fmap, Hbb, (proj2 (Z.ltb_ge b 0)) by lia.
  split_and!; try done. apply vec_at_Ok. split; [lia|done].
Qed.

(** With no edge into the entry block a dead block is unreachable. *)
Lemma Dead_unreachable b : preds bbs 0 = [] -> Dead bbs b -> ~ reachable bbs b.
Proof.
  intros H0 Hd Hr. induction Hr as [|a b Hr IH Hab].
  - inversion Hd as [b Hb [Hn|Hn] Hp]; congruence.
  - destruct Hd as [? ? ? Hp]. apply IH, Hp. by apply succs_preds.
Qed.
End edges.

(** ** The blocks [GetDeletedBlocks] drops *)
Definition del (deleted : list bool) (b : Z) : bool :=
  default false (deleted !! Z.to_nat b).

Definition count_live (deleted : list bool) : nat := length (filter (.= false) deleted).

Lemma vec_at_del (bbs : list BasicBlock) d b :
  length d = length bbs -> in_range bbs b -> vec_at d b = Ok (del d b).
Proof.
  unfold in_range, vec_size, del. intros Hl [? ?].
  destruct (lookup_lt_is_Some_2 d (Z.to_nat b)) as [x Hx]; [lia|].
  rewrite Hx. apply vec_at_Ok. split; [lia|done].
Qed.

Lemma del_insert d b b' : 0 <= b < vec_size d -> 0 <= b' ->
  del (<[Z.to_nat b := true]> d) b' = bool_decide (b' = b) || del d b'.
Proof.
  unfold del, vec_size. intros ? ?. case_bool_decide; subst; cbn.
  - rewrite list_lookup_insert_eq by lia. done.
  - by rewrite list_lookup_insert_ne by lia.
Qed.

Lemma count_live_insert d n : d !! n = Some false ->
  S (count_live (<[n := true]> d)) = count_live d.
Proof.
  unfold count_live. revert n. induction d as [|x d IH]; intros [|n] H; cbn in H; simplify_eq.
  - change (<[0%nat := true]> (false :: d)) with (true :: d). by rewrite !filter_cons.
  - change (<[S n := true]> (x :: d)) with (x :: <[n := true]> d).
    specialize (IH _ H). rewrite !filter_cons. case_decide; cbn; lia.
Qed.

Section deleted.
Context (bbs : list BasicBlock) (He : edges_ok bbs).
Implicit Types (d : list bool) (wl L : list Z).

(** A live block the worklist still has to consider. *)
Definition ripe d (s : Z) : Prop :=
  in_range bbs s /\ del d s = false /\ (s <> 0 \/ preds bbs s <> []) /\
  forall p, p ∈ preds bbs s -> del d p = true.

(** The loop invariant; [L] holds the successors of the current block still to visit. *)
Record del_inv d wl L : Prop := {
  di_len : length d = length bbs;
  di_sound : forall b, in_range bbs b -> del d b = true -> Dead bbs b;
  di_wl : forall b, b ∈ wl -> in_range bbs b /\ del d b = true;
  di_todo : forall s, ripe d s -> s ∈ L \/ exists p, p ∈ preds bbs s /\ p ∈ wl;
}.

Lemma all_deleted_spec d l : length d = length bbs -> (forall p, p ∈ l -> in_range bbs p) ->
  all_deleted d l = Ok (forallb (del d) l).
Proof.
  intros Hl. induction l as [|p l IH]; intros Hp; cbn; [done|].
  rewrite (vec_at_del bbs) by (done || apply Hp; by left). cbn.
  destruct (del d p); cbn; [|done]. apply IH. intros; apply Hp; by right.
Qed.

Lemma visit_succ_spec d wl c s L :
  del_inv d wl (s :: L) -> in_range bbs c -> s ∈ succs bbs c -> del d c = true ->
  exists d' wl', visit_succ bbs d wl s = Ok (d', wl') /\ del_inv d' wl' L /\
    del d' c = true /\ (length wl' + count_live d' = length wl + count_live d)%nat.
Proof.
  intros [Hl Hs Hw Ht] Hc Hsc Hdc. pose proof (succs_range bbs He _ _ Hsc) as [_ Hrs].
  unfold visit_succ. rewrite (vec_at_del bbs) by done. cbn.
  destruct (del d s) eqn:Ed.
  { exists d, wl. split_and!; try done. split; try done. intros s' Hr.
    destruct (Ht s' Hr) as [[->|?]%elem_of_cons|?]; [|auto..].
    destruct Hr as (_ & Hr & _). congruence. }
  destruct (block_at bbs s Hrs) as (bb & Hbb & _ & _ & Hp). rewrite Hbb. cbn. rewrite Hp.
  assert (Hpr : forall p, p ∈ preds bbs s -> in_range bbs p)
    by (intros p Hp1; exact (proj1 (preds_range bbs He _ _ Hp1))).
  rewrite all_deleted_spec by done. cbn.
  destruct (forallb _ _) eqn:Ea.
  - rewrite forallb_elem in Ea. unfold in_range in Hrs.
    assert (Hlook : d !! Z.to_nat s = Some false).
    { unfold del in Ed. destruct (d !! Z.to_nat s) as [x|] eqn:Hx; cbn in Ed; [by rewrite <- Ed|].
      apply lookup_ge_None_1 in Hx. unfold vec_size in *. lia. }
    rewrite (vec_set_lookup d s true false ltac:(lia) Hlook). cbn.
    eexists _, _. split; [done|].
    assert (Hins : forall b, 0 <= b ->
      del (<[Z.to_nat s:=true]> d) b = bool_decide (b = s) || del d b).
    { intros. apply del_insert; unfold vec_size in *; lia. }
    assert (Hdead : Dead bbs s).
    { split; [done|right|intros p ?; apply Hs; auto].
      apply (succs_preds bbs He) in Hsc. intros E. rewrite E in Hsc. by apply not_elem_of_nil in Hsc. }
    unfold in_range in *.
    split_and!; [split| |rewrite length_app, <- (count_live_insert _ _ Hlook); cbn; lia].
    + by rewrite length_insert.
    + intros b Hb. rewrite Hins by (unfold in_range in Hb; lia). case_bool_decide; subst; [done|]. by apply Hs.
    + intros b [Hb| ->%list_elem_of_singleton]%elem_of_app; [pose proof (Hw _ Hb) as [Hb1 Hb2]|];
        rewrite Hins by lia.
      * rewrite Hb2. by rewrite orb_true_r.
      * by rewrite bool_decide_true.
    + intros s' (Hr & Hds & H0 & Hall). rewrite Hins in Hds by (unfold in_range in *; lia).
      apply orb_false_iff in Hds as [Hne%bool_decide_eq_false Hds].
      destruct (decide (s ∈ preds bbs s')) as [Hin|Hnin].
      { right. exists s. split; [done|]. apply elem_of_app. right. by left. }
      destruct (Ht s') as [[->|?]%elem_of_cons|(p & ? & ?)]; [|done|auto|].
      * split_and!; try done. intros p Hp'. specialize (Hall _ Hp').
        pose proof (preds_range bbs He _ _ Hp') as [? ?]. unfold in_range in *.
        rewrite Hins in Hall by lia. case_bool_decide; [congruence|done].
      * right. exists p. split; [done|]. apply elem_of_app. by left.
    + rewrite Hins by lia. rewrite Hdc. by rewrite orb_true_r.
  - exists d, wl. split_and!; try done. split; try done. intros s' Hr.
    destruct (Ht s' Hr) as [[->|?]%elem_of_cons|?]; [|auto..].
    destruct Hr as (_ & _ & _ & Hr). apply (forallb_elem (del d)) in Hr. congruence.
Qed.

Lemma visit_succs_spec c L d wl :
  del_inv d wl L -> in_range bbs c -> (forall s, s ∈ L -> s ∈ succs bbs c) -> del d c = true ->
  exists d' wl', visit_succs bbs d wl L = Ok (d', wl') /\ del_inv d' wl' [] /\
    (length wl' + count_live d' = length wl + count_live d)%nat.
Proof.
  revert d wl. induction L as [|s L IH]; intros d wl Hi Hc Hs Hd; cbn; [by exists d, wl|].
  destruct (visit_succ_spec d wl c s L) as (d1 & wl1 & -> & Hi1 & Hd1 & E1); try done.
  { apply Hs. by left. }
  cbn. destruct (IH d1 wl1) as (d2 & wl2 & -> & Hi2 & E2); try done.
  { intros; apply Hs; by right. }
  exists d2, wl2. split_and!; [done..|]. lia.
Qed.

Lemma del_loop_spec fuel d wl : del_inv d wl [] -> (length wl + count_live d <= fuel)%nat ->
  exists d', del_loop fuel bbs d wl = Ok d' /\ del_inv d' [] [].
Proof.
  revert d wl. induction fuel as [|fuel IH]; intros d [|c wl] Hi Hf; cbn in Hf; try lia;
    [by exists d..|].
  cbn. destruct (di_wl _ _ _ Hi c) as [Hc Hdc]; [by left|].
  destruct (block_at bbs c Hc) as (bb & Hbb & _ & Hsu & _). rewrite Hbb. cbn. rewrite Hsu.
  destruct (visit_succs_spec c (succs bbs c) d wl) as (d1 & wl1 & -> & Hi1 & E1); [|done..|].
  - destruct Hi as [Hl Hs Hw Ht]. split; try done.
    + intros b ?. apply Hw. by right.
    + intros s Hr. destruct (Ht s Hr) as [?%not_elem_of_nil|(p & Hp & [->|?]%elem_of_cons)];
        [done| |eauto]. left. by apply succs_preds.
  - cbn. apply IH; [done|lia].
Qed.

Lemma del_init_spec i l : 0 <= i ->
  let '(d, wl) := del_init i l in
  length d = length l /\ (length wl + count_live d = length l)%nat /\
  (forall b, b ∈ wl -> i <= b < i + vec_size l /\ d !! Z.to_nat (b - i) = Some true) /\
  (forall n bb, l !! n = Some bb ->
     d !! n = Some (bool_decide (i + Z.of_nat n <> 0 /\ Predecessors bb = [])) /\
     (d !! n = Some true -> i + Z.of_nat n ∈ wl)).
Proof.
  revert i. induction l as [|b l IH]; intros i Hi; cbn [del_init].
  { split_and!; try done. by intros b ?%not_elem_of_nil. }
  specialize (IH (i + 1) ltac:(lia)). destruct (del_init (i + 1) l) as [d wl].
  destruct IH as (Hl & Hc & Hw & Hd).
  assert (Hif : (1 <=? i) && bool_decide (Predecessors b = [])
    = bool_decide (i <> 0 /\ Predecessors b = [])).
  { clear -Hi. destruct (decide (i = 0)) as [->|]; [symmetry; apply bool_decide_eq_false_2; by intros [? _]|].
    rewrite (proj2 (Z.leb_le 1 i)) by lia. cbn. apply bool_decide_ext. tauto. }
  rewrite Hif.
  assert (Hw' : forall x b', b' ∈ wl -> i <= b' < i + vec_size (b :: l) /\
    ((x :: d) !! Z.to_nat (b' - i) = Some true)).
  { intros x b' [? Hb']%Hw. unfold vec_size in *. cbn [length]. split; [lia|].
    replace (Z.to_nat (b' - i)) with (S (Z.to_nat (b' - (i + 1)))) by lia. done. }
  assert (Hd' : forall n bb, l !! n = Some bb ->
    d !! n = Some (bool_decide (i + Z.of_nat (S n) <> 0 /\ Predecessors bb = [])) /\
    (d !! n = Some true -> i + Z.of_nat (S n) ∈ wl)).
  { intros n bb Hn. replace (i + Z.of_nat (S n)) with (i + 1 + Z.of_nat n) by lia. by apply Hd. }
  destruct (bool_decide (i <> 0 /\ Predecessors b = [])) eqn:Hb;
    [apply bool_decide_eq_true in Hb|apply bool_decide_eq_false in Hb];
    unfold count_live in *; cbv beta iota zeta;
    [rewrite filter_cons_False by done|rewrite filter_cons_True by done]; cbn;
    (split_and!; [lia|lia| |]).
  - intros b' [->|?]%elem_of_cons; [|by apply Hw'].
    rewrite Z.sub_diag. unfold vec_size. cbn. split; [lia|done].
  - intros [|n] bb; cbn [lookup list_lookup].
    + intros [= <-]. rewrite Z.add_0_r, bool_decide_true by done. split; [done|]. by left.
    + intros [E Ht]%Hd'. split; [done|]. intros ?%Ht. by right.
  - intros b' ?. by apply Hw'.
  - intros [|n] bb; cbn [lookup list_lookup].
    + intros [= <-]. by rewrite Z.add_0_r, bool_decide_false by done.
    + apply Hd'.
Qed.

Lemma GetDeletedBlocks_correct : exists d, GetDeletedBlocks bbs = Ok d /\
  length d = length bbs /\ forall b, in_range bbs b -> del d b = true <-> Dead bbs b.
Proof.
  unfold GetDeletedBlocks. pose proof (del_init_spec 0 bbs ltac:(lia)) as Hinit.
  destruct (del_init 0 bbs) as [d wl]. destruct Hinit as (Hl & Hc & Hw & Hd).
  assert (Hdel : forall b, in_range bbs b ->
    del d b = bool_decide (b <> 0 /\ preds bbs b = []) /\ (del d b = true -> b ∈ wl)).
  { intros b Hb. destruct (block_at bbs b Hb) as (bb & _ & Hbb & _ & Hp).
    destruct (Hd _ _ Hbb) as [E Ht]. unfold in_range in Hb.
    rewrite Z2Nat.id in E, Ht by lia. rewrite Hp in E. unfold del. rewrite E. cbn.
    split; [done|]. intros T. apply Ht. by rewrite E, T. }
  destruct (del_loop_spec (length bbs) d wl) as (d' & HL & [Hl' Hs' _ Ht']); [|lia|].
  - split; [done| | |].
    + intros b Hb Hdb. destruct (Hdel b Hb) as [E _]. rewrite Hdb in E. symmetry in E.
      apply bool_decide_eq_true in E as [? Ep]. split; [done|by left|].
      rewrite Ep. by intros p ?%not_elem_of_nil.
    + intros b [Hb E]%Hw. rewrite Z.sub_0_r in E. unfold del. by rewrite E.
    + intros s (Hr & Hds & H0 & Hall). right. destruct (Hdel s Hr) as [E _].
      rewrite Hds in E. symmetry in E. apply bool_decide_eq_false in E.
      destruct (preds bbs s) as [|p ps] eqn:Ep.
      { destruct H0; [exfalso; apply E; split; done|done]. }
      exists p. split; [by left|]. apply Hdel; [|apply Hall; by left].
      apply (preds_range bbs He p s). rewrite Ep. by left.
  - exists d'. split_and!; [done..|]. intros b Hb. split; [by apply Hs'|].
    intros HD. induction HD as [b Hr H0 Hp IH].
    destruct (del d' b) eqn:E; [done|].
    destruct (Ht' b) as [?%not_elem_of_nil|(p & _ & ?%not_elem_of_nil)]; [|done..].
    split_and!; try done. intros p Hpb. apply IH; [done|].
    exact (proj1 (preds_range bbs He _ _ Hpb)).
Qed.
End deleted.

(**  Dropping blocks: on any control-flow graph whose predecessor lists
    mirror its successor lists, [GetDeletedBlocks] terminates without an error
    and marks exactly the least set of blocks all of whose predecessors are
    marked; when no edge enters the entry block, the entry is kept and every
    marked block is unreachable from it. *)
Theorem GetDeletedBlocks_spec (bbs : list BasicBlock) : edges_ok bbs ->
  exists deleted, GetDeletedBlocks bbs = Ok deleted /\
    length deleted = length bbs /\
    (forall b, in_range bbs b -> del deleted b = true <-> Dead bbs b) /\
    (preds bbs 0 = [] -> forall b, in_range bbs b ->
       reachable bbs b -> del deleted b = false).
Proof.
  intros He. destruct (GetDeletedBlocks_correct bbs He) as (d & ? & ? & Hd).
  exists d. split_and!; try done. intros Hp b Hb Hr.
  destruct (del d b) eqn:E; [|done]. apply Hd in E; [|done].
  by destruct (Dead_unreachable bbs He b Hp E).
Qed.

(** ** Operand rewriting *)

(** The value a chain of replacements ends in. *)
Inductive resolves (m : gmap Z Z) : Z -> Z -> Prop :=
| res_done v : m !! v = None -> resolves m v v
| res_step v v' w : m !! v = Some v' -> resolves m v' w -> resolves m v w.

(** No replacement leads back to itself. *)
Definition acyclic (m : gmap Z Z) : Prop :=
  exists rank : Z -> nat, forall k v w,
    m !! k = Some v -> m !! v = Some w -> (rank v < rank k)%nat.

(** Every key visited so far has a larger rank, so the visited keys are distinct
    and the map's size bounds the number of steps. *)
Lemma resolve_ranked (m : gmap Z Z) (rank : Z -> nat) fuel (seen : gset Z) v :
  (forall k v w, m !! k = Some v -> m !! v = Some w -> (rank v < rank k)%nat) ->
  seen ⊆ dom m -> (forall k, k ∈ seen -> m !! v <> None -> (rank v < rank k)%nat) ->
  (size m <= size seen + fuel)%nat ->
  exists w, resolve fuel m v = Ok w /\ resolves m v w.
Proof.
  intros Hr. revert seen v. induction fuel as [|fuel IH]; intros seen v Hs Hv Hf; cbn;
    (destruct (m !! v) as [v'|] eqn:E; [|by exists v; split; [|by constructor]]).
  1: assert (Hsub : seen ∪ {[v]} ⊆ dom m)
       by (apply union_subseteq; split; [done|]; apply singleton_subseteq_l, elem_of_dom; eauto).
  2: assert (Hsub : seen ∪ {[v]} ⊆ dom m)
       by (apply union_subseteq; split; [done|]; apply singleton_subseteq_l, elem_of_dom; eauto).
  all: assert (Hnew : v ∉ seen) by (intros Hin; specialize (Hv v Hin ltac:(congruence)); lia).
  all: assert (Hsz : size (seen ∪ {[v]}) = S (size seen))
         by (rewrite size_union, size_singleton by set_solver; lia).
  - apply subseteq_size in Hsub. rewrite size_dom in Hsub. lia.
  - destruct (IH (seen ∪ {[v]}) v') as (w & Hw & Hres); [done| |lia|].
    + intros k Hk Hn. destruct (m !! v') as [w|] eqn:E'; [|done].
      pose proof (Hr _ _ _ E E'). apply elem_of_union in Hk as [Hk|Hk%elem_of_singleton].
      * specialize (Hv k Hk ltac:(congruence)). lia.
      * by subst.
    + exists w. split; [done|]. by eapply res_step.
Qed.

Lemma resolve_spec m v : acyclic m ->
  exists w, resolve (size m) m v = Ok w /\ resolves m v w.
Proof.
  intros [rank Hr]. apply (resolve_ranked m rank _ ∅); [done|set_solver|set_solver|].
  rewrite size_empty. lia.
Qed.

(** A resolved operand still fits an argument field. *)
Lemma resolves_range m v w : map_Forall (fun _ x => is_uw 24 x) m ->
  resolves m v w -> is_uw 24 v -> is_uw 24 w.
Proof. intros Hm H. induction H; [done|]. intros _. apply IHresolves. by eapply Hm. Qed.

Definition group_of (instr : Z) : rewrite_kind :=
  default RK_none (rewrite_group <$> instr_opcode instr).

(** [instr'] is [instr] with its value operands resolved and nothing else changed. *)
Definition rewritten (m : gmap Z Z) (instr instr' : Z) : Prop :=
  instr_opcode instr' = instr_opcode instr /\
  Type2_Metadata instr' = Type2_Metadata instr /\
  match group_of instr with
  | RK_Type2 => resolves m (Type2_Arg0 instr) (Type2_Arg0 instr') /\
      resolves m (Type2_Arg1 instr) (Type2_Arg1 instr')
  | RK_Type3 => resolves m (Type3_Arg instr) (Type3_Arg instr') /\
      Type3_TypeID instr' = Type3_TypeID instr /\ Type3_Sarg instr' = Type3_Sarg instr
  | RK_Type5 => resolves m (Type5_Arg instr) (Type5_Arg instr') /\
      Type5_Marg0 instr' = Type5_Marg0 instr /\ Type5_Marg1 instr' = Type5_Marg1 instr
  | RK_none => instr' = instr
  end.

Lemma RewriteInstr_rewritten m instr : acyclic m -> map_Forall (fun _ x => is_uw 24 x) m ->
  exists instr', RewriteInstr instr m = Ok instr' /\ rewritten m instr instr'.
Proof.
  intros Ha Hm. unfold rewritten, RewriteInstr, group_of, instr_opcode.
  assert (Hf : forall off v w, resolves m (bf_get off 24 v) w -> is_uw 24 w)
    by (intros off v w H; apply (resolves_range m _ _ Hm H), bf_get_range; lia).
  destruct (rewrite_group <$> _) as [[| | |]|] eqn:E; cbn [default].
  - destruct (resolve_spec m (Type2_Arg0 instr) Ha) as (v0 & -> & H0).
    destruct (resolve_spec m (Type2_Arg1 instr) Ha) as (v1 & -> & H1). cbn.
    eexists. split; [done|]. autorewrite with bitfield in *.
    split_and!; repeat bf_step; [done..| |]; rewrite uw_id; eauto.
  - destruct (resolve_spec m (Type3_Arg instr) Ha) as (v0 & -> & H0). cbn.
    eexists. split; [done|]. autorewrite with bitfield in *.
    split_and!; repeat bf_step; try done. rewrite uw_id; eauto.
  - destruct (resolve_spec m (Type5_Arg instr) Ha) as (v0 & -> & H0). cbn.
    eexists. split; [done|]. autorewrite with bitfield in *.
    split_and!; repeat bf_step; try done. rewrite uw_id; eauto.
  - eexists. split; [done|]. done.
  - eexists. split; [done|]. done.
Qed.

(**  Operand rewriting: for an acyclic replacement map with 24-bit handles,
    [RewriteInstr] terminates without an error on every word; it keeps the
    opcode, the metadata and every field that is no value operand, and replaces
    each value operand of the word's format by the end of its replacement
    chain. *)
Theorem RewriteInstr_spec (value_map : gmap Z Z) (instr : Z) :
  acyclic value_map -> map_Forall (fun _ x => is_uw 24 x) value_map ->
  exists instr', RewriteInstr instr value_map = Ok instr' /\ rewritten value_map instr instr'.
Proof. apply RewriteInstr_rewritten. Qed.
