(* ===== verification/CfgMerge.v ===== *)
(** * Merging basic blocks: correctness

    What [MergeBasicBlocks] of src/khir/cfg_simplify.cc (modelled in
    CfgSimplify) does to the control-flow graph as a whole: every block that is
    left stands for a maximal chain of original blocks, and its segments list
    the chain's instructions in order without the phis, phi members and
    branches of the merged edges. *)
From S2P Require Import Prelude Opcode Instruction FunctionBuilder CfgSimplify.

(** ** Instruction ranges *)
Lemma seg_indices_split lo mid hi : lo <= mid + 1 -> mid <= hi ->
  seg_indices (lo, hi) = seg_indices (lo, mid) ++ seg_indices (mid + 1, hi).
Proof.
  intros. unfold seg_indices; cbn.
  replace (hi - lo + 1) with ((mid - lo + 1) + (hi - (mid + 1) + 1)) by lia.
  rewrite seqZ_app by lia. do 2 f_equal. lia.
Qed.

Lemma length_seg_indices lo hi : length (seg_indices (lo, hi)) = Z.to_nat (hi - lo + 1).
Proof. unfold seg_indices. by rewrite length_seqZ. Qed.

Lemma seg_indices_empty lo hi : hi < lo -> seg_indices (lo, hi) = [].
Proof. intros. unfold seg_indices. cbn. rewrite seqZ_nil by lia. done. Qed.

Definition flat (segs : list (Z * Z)) : list Z := segs ≫= seg_indices.

Lemma flat_app l l' : flat (l ++ l') = flat l ++ flat l'.
Proof. apply bind_app. Qed.

(** A segment, unless it is empty. *)
Definition keep (seg : Z * Z) : list (Z * Z) := if empty_seg seg then [] else [seg].

Lemma flat_keep seg : flat (keep seg) = seg_indices seg.
Proof.
  unfold keep, empty_seg. destruct seg as [lo hi]; cbn.
  destruct (Z.ltb_spec hi lo); cbn; [by rewrite seg_indices_empty|by rewrite app_nil_r].
Qed.

Lemma join_segments_keep l r x y :
  join_segments (l ++ [x]) (y :: r) = Ok (l ++ keep x ++ keep y ++ r).
Proof.
  unfold join_segments, keep. rewrite list.last_snoc. cbn. f_equal.
  rewrite length_app; cbn. replace (length l + 1 - 1)%nat with (length l) by lia.
  rewrite take_app_length.
  destruct (empty_seg x), (empty_seg y); cbn; by rewrite <- ?app_assoc.
Qed.

(** ** Phis that start a range *)
Section phis.
Context (instrs : list Z).

Definition opcode_at (k : Z) : option Opcode := instrs !! Z.to_nat k ≫= instr_opcode.

Fixpoint phi_count (n : nat) (lo : Z) : nat :=
  match n with
  | O => O
  | S n => if bool_decide (opcode_at lo = Some PHI) then S (phi_count n (lo + 1)) else O
  end.

Lemma phi_count_le n lo : (phi_count n lo <= n)%nat.
Proof. revert lo. induction n as [|n IH]; intros lo; cbn; [lia|]. case_bool_decide; [|lia]. specialize (IH (lo + 1)). lia. Qed.

Lemma phi_count_phi n lo k : (k < phi_count n lo)%nat -> opcode_at (lo + Z.of_nat k) = Some PHI.
Proof.
  revert lo k. induction n as [|n IH]; intros lo k; cbn; [lia|].
  case_bool_decide; [|lia]. destruct k as [|k]; [by rewrite Z.add_0_r|].
  intros Hk. replace (lo + Z.of_nat (S k)) with (lo + 1 + Z.of_nat k) by lia.
  apply IH. lia.
Qed.

Lemma phi_count_stop n lo : (phi_count n lo < n)%nat ->
  opcode_at (lo + Z.of_nat (phi_count n lo)) <> Some PHI.
Proof.
  revert lo. induction n as [|n IH]; intros lo; cbn; [lia|].
  case_bool_decide as Hb; [|by rewrite Z.add_0_r]. intros Hlt.
  replace (lo + Z.of_nat (S (phi_count n (lo + 1))))
    with (lo + 1 + Z.of_nat (phi_count n (lo + 1))) by lia.
  apply IH. lia.
Qed.

(** The phis are what the range's head determines: cutting the range behind
    them changes nothing. *)
Lemma phi_count_cut n m lo : (m <= n)%nat -> (phi_count n lo <= m)%nat ->
  phi_count m lo = phi_count n lo.
Proof.
  revert m lo. induction n as [|n IH]; intros [|m] lo Hmn Hle; cbn in *; try lia.
  case_bool_decide; [|done]. f_equal. apply IH; lia.
Qed.

Lemma phi_count_plain n lo : opcode_at lo <> Some PHI -> phi_count n lo = O.
Proof. destruct n; cbn; [done|]. intros. by rewrite bool_decide_false. Qed.

Lemma phi_count_strip n lo :
  phi_count (n - phi_count n lo) (lo + Z.of_nat (phi_count n lo)) = O.
Proof.
  destruct (decide (phi_count n lo < n)%nat) as [Hlt|Hge].
  - by apply phi_count_plain, phi_count_stop.
  - replace (n - phi_count n lo)%nat with O by lia. done.
Qed.

Definition seg_len (seg : Z * Z) : nat := Z.to_nat (seg.2 - seg.1 + 1).
Definition seg_phis (seg : Z * Z) : nat := phi_count (seg_len seg) seg.1.

(** What the loop over the phis of the merged block returns: their number, and
    the map extended with the operands of as many phi members. *)
Definition add_member (m : gmap Z Z) (w : Z) : gmap Z Z := <[Type2_Arg0 w := Type2_Arg1 w]> m.

Definition member_word (e : Z) (k : Z) : Z := default 0 (instrs !! Z.to_nat (e - 1 - k)).

Lemma merge_phis_spec rest lo e off vm :
  0 <= lo + off -> lo + off + Z.of_nat rest <= vec_size instrs ->
  (forall k, off <= k < off + Z.of_nat (phi_count rest (lo + off)) ->
     0 <= e - 1 - k /\ opcode_at (e - 1 - k) = Some PHI_MEMBER) ->
  merge_phis rest instrs lo e off vm =
    Ok (off + Z.of_nat (phi_count rest (lo + off)),
        foldl add_member vm (member_word e <$> seqZ off (Z.of_nat (phi_count rest (lo + off))))).
Proof.
  revert off vm. induction rest as [|rest IH]; intros off vm Hlo Hhi Hm; cbn.
  { by rewrite Z.add_0_r. }
  destruct (lookup_lt_is_Some_2 instrs (Z.to_nat (lo + off))) as [w Hw];
    [unfold vec_size in *; lia|].
  rewrite (proj2 (vec_at_Ok instrs (lo + off) w)) by done. cbn.
  cbn in Hm. assert (Hop : opcode_at (lo + off) = instr_opcode w)
    by (unfold opcode_at; by rewrite Hw).
  rewrite Hop in *.
  destruct (bool_decide (instr_opcode w = Some PHI)); [|by rewrite Z.add_0_r].
  destruct (Hm off) as [He Hmo]; [lia|].
  unfold opcode_at in Hmo. destruct (instrs !! Z.to_nat (e - 1 - off)) as [x|] eqn:Hx; [|done].
  rewrite (proj2 (vec_at_Ok instrs (e - 1 - off) x)) by done. cbn.
  rewrite (bool_decide_true (OpcodeFrom (Type2_Opcode x) = Some PHI_MEMBER)) by done.
  replace (lo + off + 1) with (lo + (off + 1)) in * by lia.
  rewrite IH; [|lia|lia|intros; apply Hm; lia].
  rewrite (seqZ_cons off) by lia. cbn. unfold member_word at 2. rewrite Hx. cbn.
  rewrite (Z.add_1_r off).
  replace (Z.pred (Z.of_nat (S (phi_count rest (lo + Z.succ off)))))
    with (Z.of_nat (phi_count rest (lo + Z.succ off))) by lia.
  do 2 f_equal. lia.
Qed.
End phis.

(** ** Chains of blocks *)
Section chains.
Context (instrs : list Z) (seg_of : Z -> Z * Z).

(** The number of phis a block starts with, and the indices of its instructions. *)
Definition ph (b : Z) : nat := seg_phis instrs (seg_of b).
Definition full (b : Z) : list Z := seg_indices (seg_of b).

(** The instructions of a chain: each merged edge loses its branch, the phi
    members before it and the phis behind it. *)
Fixpoint body (c : list Z) : list Z :=
  match c with
  | [] => []
  | b :: c =>
      match c with
      | [] => full b
      | b' :: _ => take (length (full b) - (ph b' + 1)) (full b) ++ drop (ph b') (body c)
      end
  end.

(** A block that ends in a terminator. *)
Definition closed (b : Z) : Prop :=
  0 <= (seg_of b).1 <= (seg_of b).2 /\ (seg_of b).2 < vec_size instrs /\
  exists w, instrs !! Z.to_nat (seg_of b).2 = Some w /\ terminates w = true.

(** The edge from [a] carries a phi member for each phi of [b]. *)
Definition members_ok (a b : Z) : Prop :=
  forall k, 0 <= k < Z.of_nat (ph b) ->
    (seg_of a).1 <= (seg_of a).2 - 1 - k /\
    opcode_at instrs ((seg_of a).2 - 1 - k) = Some PHI_MEMBER.

Definition good_edge (a b : Z) : Prop := closed a /\ closed b /\ members_ok a b.

(** Consecutive elements of [c] are related. *)
Fixpoint linked (R : Z -> Z -> Prop) (c : list Z) : Prop :=
  match c with
  | [] => True
  | b :: c => match c with [] => True | b' :: _ => R b b' end /\ linked R c
  end.

Lemma linked_app (R : Z -> Z -> Prop) c x y c' :
  linked R (c ++ [x]) -> R x y -> linked R (y :: c') -> linked R (c ++ x :: y :: c').
Proof.
  intros Hc Hxy Hy. induction c as [|b c IH]; cbn in *; [tauto|].
  destruct Hc as [Hb Hc]. split; [|by apply IH]. by destruct c.
Qed.

(** The phis at the front and the phi members at the back of a block do not
    overlap, and the terminator follows them. *)
Lemma closed_end b : closed b -> opcode_at instrs (seg_of b).2 <> Some PHI.
Proof.
  intros (_ & _ & w & Hw & Ht). unfold opcode_at. rewrite Hw. cbn. intros E.
  unfold terminates in Ht. unfold instr_opcode in E. by rewrite E in Ht.
Qed.

Lemma ph_room a b : good_edge a b ->
  (seg_of a).1 + Z.of_nat (ph a) + Z.of_nat (ph b) <= (seg_of a).2.
Proof.
  intros (Ha & _ & Hm). pose proof (closed_end a Ha) as Hend. destruct Ha as (Ha & _).
  pose proof (phi_count_le instrs (seg_len (seg_of a)) (seg_of a).1) as Hle.
  destruct (decide ((seg_of a).1 + Z.of_nat (ph a) + Z.of_nat (ph b) <= (seg_of a).2))
    as [|Hgt]; [done|exfalso].
  assert (Hphi : forall k, (seg_of a).1 <= k < (seg_of a).1 + Z.of_nat (ph a) ->
    opcode_at instrs k = Some PHI).
  { intros k Hk. replace k with ((seg_of a).1 + Z.of_nat (Z.to_nat (k - (seg_of a).1))) by lia.
    apply (phi_count_phi _ (seg_len (seg_of a))). unfold ph, seg_phis in *. lia. }
  unfold seg_len in Hle. unfold ph, seg_phis in Hphi.
  destruct (decide (ph b = O)) as [Hb|Hb].
  - apply Hend, Hphi. unfold ph, seg_phis, seg_len in *. lia.
  - destruct (Hm (Z.of_nat (ph b) - 1) ltac:(lia)) as [? Hmem].
    destruct (decide (ph a = O)) as [Ha0|Ha0]; [lia|].
    rewrite Hphi in Hmem; [done|]. unfold ph, seg_phis, seg_len in *. lia.
Qed.

Lemma length_full b : length (full b) = seg_len (seg_of b).
Proof. unfold full. destruct (seg_of b). apply length_seg_indices. Qed.

Lemma ph_le b : (ph b <= length (full b))%nat.
Proof. rewrite length_full. apply phi_count_le. Qed.

(** A chain has room for the phis of its head and, behind them, the phi
    members and the branch of an edge out of its last block. *)
Lemma body_room x c z n : linked good_edge (x :: c) -> list.last (x :: c) = Some z ->
  good_edge z n -> (ph x + ph n + 1 <= length (body (x :: c)))%nat.
Proof.
  revert x. induction c as [|y c IH]; intros x Hl Hz Hn.
  - injection Hz as <-. cbn. pose proof (ph_room _ _ Hn). rewrite length_full. unfold seg_len. lia.
  - destruct Hl as [Hxy Hl]. specialize (IH y Hl Hz Hn).
    change (body (x :: y :: c)) with
      (take (length (full x) - (ph y + 1)) (full x) ++ drop (ph y) (body (y :: c))).
    rewrite length_app, length_take, length_drop. pose proof (ph_room _ _ Hxy).
    pose proof (length_full x). unfold seg_len in *. lia.
Qed.

Definition trim_end {A} (n : nat) (l : list A) : list A := take (length l - n) l.

Lemma body_app x c z y c' : linked good_edge (x :: c) -> list.last (x :: c) = Some z ->
  good_edge z y ->
  body ((x :: c) ++ y :: c') = trim_end (ph y + 1) (body (x :: c)) ++ drop (ph y) (body (y :: c')).
Proof.
  revert x. induction c as [|x' c IH]; intros x Hl Hz Hy; [done|].
  destruct Hl as [Hxx Hl].
  change (body ((x :: x' :: c) ++ y :: c')) with
    (take (length (full x) - (ph x' + 1)) (full x) ++ drop (ph x') (body ((x' :: c) ++ y :: c'))).
  rewrite (IH x') by done. pose proof (body_room _ _ _ _ Hl Hz Hy) as Hroom.
  change (body (x :: x' :: c)) with
    (take (length (full x) - (ph x' + 1)) (full x) ++ drop (ph x') (body (x' :: c))).
  set (B := body (x' :: c)) in *. set (T := take _ (full x)). unfold trim_end.
  rewrite (drop_app_le (take _ B)) by (rewrite length_take; lia).
  rewrite length_app, length_drop. rewrite (take_app_ge T) by lia.
  rewrite <- app_assoc. f_equal. f_equal. rewrite skipn_firstn_comm. f_equal. lia.
Qed.

(** The segments of a block that stands for the chain from [h] to [z]. *)
Record seg_inv (segs : list (Z * Z)) (h z : Z) (c : list Z) : Prop := {
  si_nonempty : Forall (fun s => s.1 <= s.2) segs;
  si_last : exists lo, list.last segs = Some (lo, (seg_of z).2) /\
    lo + Z.of_nat (seg_phis instrs (lo, (seg_of z).2)) <= (seg_of z).1 + Z.of_nat (ph z);
  si_first : exists s, head segs = Some s /\ seg_phis instrs s = ph h;
  si_rest : Forall (fun s => opcode_at instrs s.1 <> Some PHI) (tail segs);
  si_body : flat segs = body c;
}.

Lemma seg_inv_single b : closed b -> seg_inv [seg_of b] b b [b].
Proof.
  intros (Hb & _). split.
  - apply list.Forall_singleton. lia.
  - exists (seg_of b).1. split; [by destruct (seg_of b)|]. unfold ph. by destruct (seg_of b).
  - by exists (seg_of b).
  - done.
  - cbn. by rewrite app_nil_r.
Qed.

Lemma seg_phis_plain s : opcode_at instrs s.1 <> Some PHI -> seg_phis instrs s = O.
Proof. apply phi_count_plain. Qed.

(** A segment without its phis, if anything is left of it, starts with another
    instruction. *)
Lemma strip_plain lo hi : lo + Z.of_nat (seg_phis instrs (lo, hi)) <= hi ->
  opcode_at instrs (lo + Z.of_nat (seg_phis instrs (lo, hi))) <> Some PHI.
Proof.
  unfold seg_phis, seg_len; cbn. intros H. apply phi_count_stop. lia.
Qed.

Lemma keep_cases lo hi :
  (lo <= hi /\ keep (lo, hi) = [(lo, hi)]) \/ (hi < lo /\ keep (lo, hi) = []).
Proof. unfold keep, empty_seg; cbn. destruct (Z.ltb_spec hi lo); auto. Qed.

Lemma trim_end_seg lo hi n : lo + Z.of_nat n <= hi + 1 ->
  seg_indices (lo, hi - Z.of_nat n) = trim_end n (seg_indices (lo, hi)).
Proof.
  intros. unfold trim_end. rewrite length_seg_indices.
  rewrite (seg_indices_split lo (hi - Z.of_nat n) hi) by lia.
  rewrite take_app_le by (rewrite length_seg_indices; lia).
  rewrite take_ge by (rewrite length_seg_indices; lia). done.
Qed.

Lemma drop_seg lo hi n : lo + Z.of_nat n <= hi + 1 ->
  seg_indices (lo + Z.of_nat n, hi) = drop n (seg_indices (lo, hi)).
Proof.
  intros. rewrite (seg_indices_split lo (lo + Z.of_nat n - 1) hi) by lia.
  replace (lo + Z.of_nat n - 1 + 1) with (lo + Z.of_nat n) by lia.
  rewrite drop_app_ge by (rewrite length_seg_indices; lia).
  rewrite length_seg_indices. replace (n - _)%nat with O by lia. done.
Qed.

Lemma keep_nonempty s : Forall (fun s => s.1 <= s.2) (keep s).
Proof.
  destruct s as [lo hi]. destruct (keep_cases lo hi) as [[? ->]|[? ->]]; [|constructor].
  by apply list.Forall_singleton.
Qed.

Lemma trim_end_app {A} n (l l' : list A) : (n <= length l')%nat ->
  trim_end n (l ++ l') = l ++ trim_end n l'.
Proof.
  intros. unfold trim_end. rewrite length_app, take_app_ge by lia. do 2 f_equal. lia.
Qed.

Section join.
Context (l r : list (Z * Z)) (lo a b x z y u : Z) (ci cj : list Z).
Local Abbreviation e := (seg_of z).2.
Local Abbreviation p := (ph y).
Context (Hi : seg_inv (l ++ [(lo, e)]) x z (x :: ci)) (Hj : seg_inv ((a, b) :: r) y u (y :: cj)).
Context (Hl : linked good_edge (x :: ci)) (Hz : list.last (x :: ci) = Some z).
Context (Hedge : good_edge z y) (Hu : closed u).

Lemma join_phis : seg_phis instrs (a, b) = p.
Proof. by destruct (si_first _ _ _ _ Hj) as (s & [= <-] & ?). Qed.

Lemma join_back : lo + Z.of_nat p <= e.
Proof.
  destruct (si_last _ _ _ _ Hi) as (lo' & E & ?). rewrite list.last_snoc in E.
  injection E as <-. pose proof (ph_room _ _ Hedge). lia.
Qed.

Lemma join_front : a <= b /\ a + Z.of_nat p <= b + 1.
Proof.
  pose proof (phi_count_le instrs (seg_len (a, b)) a). pose proof join_phis.
  pose proof (proj1 (proj1 (list.Forall_cons _ _ _) (si_nonempty _ _ _ _ Hj))).
  unfold seg_phis, seg_len in *; cbn in *. lia.
Qed.

(** If nothing follows the first segment of [j], its terminator stays. *)
Lemma join_front_single : r = [] -> a + Z.of_nat p <= b.
Proof.
  intros Hr. destruct (si_last _ _ _ _ Hj) as (a' & E & _). rewrite Hr in E.
  injection E as <- Hb. destruct join_front as [Hab _].
  destruct (decide (a + Z.of_nat p <= b)); [done|]. exfalso.
  apply (closed_end u Hu). rewrite <- Hb.
  replace b with (a + Z.of_nat (Z.to_nat (b - a))) by lia.
  apply (phi_count_phi _ (seg_len (a, b))). pose proof join_phis as E. unfold seg_phis in E.
  cbn in E. lia.
Qed.

Lemma join_plain : Forall (fun s => opcode_at instrs s.1 <> Some PHI)
  (keep (a + Z.of_nat p, b) ++ r).
Proof.
  apply Forall_app; split; [|apply Hj].
  destruct (keep_cases (a + Z.of_nat p) b) as [[? ->]|[? ->]]; [|constructor].
  apply list.Forall_singleton. cbn. rewrite <- join_phis in *. by apply strip_plain.
Qed.

Lemma join_last : exists lo',
  list.last (l ++ keep (lo, e - Z.of_nat p - 1) ++ keep (a + Z.of_nat p, b) ++ r)
    = Some (lo', (seg_of u).2) /\
  lo' + Z.of_nat (seg_phis instrs (lo', (seg_of u).2)) <= (seg_of u).1 + Z.of_nat (ph u).
Proof.
  destruct (si_last _ _ _ _ Hj) as (a' & Hlast & Ha').
  pose proof join_plain as Hplain. destruct (decide (r = [])) as [Hr|Hr].
  - pose proof (join_front_single Hr). pose proof join_phis as Hp.
    rewrite Hr in Hlast, Hplain |- *. injection Hlast as <- Hb.
    rewrite app_nil_r in Hplain |- *.
    destruct (keep_cases (a + Z.of_nat p) b) as [[_ E]|[? _]]; [rewrite E in Hplain |- *|lia].
    rewrite app_assoc, list.last_snoc. exists (a + Z.of_nat p). rewrite <- Hb. split; [done|].
    rewrite seg_phis_plain by exact (Forall_inv Hplain).
    rewrite <- Hb, Hp in Ha'. lia.
  - exists a'. split; [|done]. rewrite <- Hlast, !app_assoc, last_app.
    destruct r as [|r0 r']; [done|]. change (list.last ((a, b) :: r0 :: r')) with (list.last (r0 :: r')).
    destruct (list.last (r0 :: r')) eqn:E; [done|]. by apply last_None in E.
Qed.

Lemma join_first : exists s,
  head (l ++ keep (lo, e - Z.of_nat p - 1) ++ keep (a + Z.of_nat p, b) ++ r) = Some s /\
  seg_phis instrs s = ph x.
Proof.
  pose proof (body_room _ _ _ _ Hl Hz Hedge) as Hbr. rewrite <- (si_body _ _ _ _ Hi) in Hbr.
  pose proof (si_first _ _ _ _ Hi) as Hf. pose proof join_plain as Hplain.
  destruct l as [|s0 l']; [|exact Hf]. destruct Hf as (s & [= <-] & Hpx). cbn [app] in *.
  cbn in Hbr. rewrite app_nil_r, length_seg_indices in Hbr.
  destruct (keep_cases lo (e - Z.of_nat p - 1)) as [[? ->]|[? ->]]; cbn [app head].
  - eexists. split; [done|]. rewrite <- Hpx. unfold seg_phis in *. cbn [fst] in *.
    apply phi_count_cut; unfold seg_len in *; cbn in *; [lia|]. rewrite Hpx. lia.
  - replace (ph x) with O by lia.
    destruct (keep (a + Z.of_nat p, b) ++ r) as [|s1 rest] eqn:E.
    + exfalso. apply app_eq_nil in E as [E Hr]. pose proof (join_front_single Hr).
      destruct (keep_cases (a + Z.of_nat p) b) as [[_ Hk]|[? _]]; [congruence|lia].
    + exists s1. split; [done|]. by apply seg_phis_plain, (Forall_inv Hplain).
Qed.

Lemma join_rest : Forall (fun s => opcode_at instrs s.1 <> Some PHI)
  (tail (l ++ keep (lo, e - Z.of_nat p - 1) ++ keep (a + Z.of_nat p, b) ++ r)).
Proof.
  pose proof (si_rest _ _ _ _ Hi) as Hr. pose proof join_plain as Hplain.
  destruct l as [|s0 l']; cbn [app tail] in *.
  - destruct (keep_cases lo (e - Z.of_nat p - 1)) as [[? ->]|[? ->]]; cbn [app tail]; [done|].
    by apply Forall_tail.
  - apply Forall_app in Hr as [Rl Re]. rewrite Forall_app. split; [done|].
    rewrite Forall_app. split; [|done].
    destruct (keep_cases lo (e - Z.of_nat p - 1)) as [[? ->]|[? ->]]; [|constructor].
    apply list.Forall_singleton. exact (Forall_inv Re).
Qed.

Lemma join_flat :
  flat (l ++ keep (lo, e - Z.of_nat p - 1) ++ keep (a + Z.of_nat p, b) ++ r)
  = body ((x :: ci) ++ y :: cj).
Proof.
  pose proof join_back. destruct join_front as [? ?].
  rewrite (body_app x ci z y cj) by done.
  rewrite <- (si_body _ _ _ _ Hi), <- (si_body _ _ _ _ Hj).
  rewrite !flat_app, !flat_keep. change (flat ((a, b) :: r)) with (seg_indices (a, b) ++ flat r).
  change (flat [(lo, e)]) with (seg_indices (lo, e) ++ []). rewrite app_nil_r.
  rewrite trim_end_app by (rewrite length_seg_indices; lia).
  replace (e - Z.of_nat p - 1) with (e - Z.of_nat (p + 1)) by lia.
  rewrite trim_end_seg, drop_seg by lia.
  rewrite drop_app_le by (rewrite length_seg_indices; lia). by rewrite <- app_assoc.
Qed.

Lemma join_nonempty : Forall (fun s => s.1 <= s.2)
  (l ++ keep (lo, e - Z.of_nat p - 1) ++ keep (a + Z.of_nat p, b) ++ r).
Proof.
  pose proof (si_nonempty _ _ _ _ Hi) as [Ni _]%Forall_app.
  pose proof (si_nonempty _ _ _ _ Hj) as [_ Nj]%list.Forall_cons.
  rewrite !Forall_app. auto using keep_nonempty.
Qed.
End join.

(** Cutting the phis, phi members and branch of the edge and concatenating the
    segments gives the segments of the concatenated chain. *)
Lemma join_inv segs_i segs_j x z y u ci cj es ss :
  seg_inv segs_i x z (x :: ci) -> seg_inv segs_j y u (y :: cj) ->
  linked good_edge (x :: ci) -> list.last (x :: ci) = Some z -> good_edge z y -> closed u ->
  list.last segs_i = Some es -> head segs_j = Some ss ->
  exists segs,
    join_segments (set_back segs_i (es.1, es.2 - Z.of_nat (ph y) - 1))
      (set_front segs_j (ss.1 + Z.of_nat (ph y), ss.2)) = Ok segs /\
    seg_inv segs x u ((x :: ci) ++ y :: cj).
Proof.
  intros Hi Hj Hl Hz Hedge Hu Hes Hss. apply last_Some in Hes as [l ->].
  destruct segs_j as [|s r]; [done|]. injection Hss as ->. destruct es as [lo e], ss as [a b].
  destruct (si_last _ _ _ _ Hi) as (lo' & E & _). rewrite list.last_snoc in E.
  injection E as <- ->. unfold set_back, set_front. cbn [fst snd drop]. rewrite drop_0.
  rewrite length_app. cbn [length]. replace (length l + 1 - 1)%nat with (length l) by lia.
  rewrite take_app_length, join_segments_keep. eexists. split; [done|].
  split; eauto using join_nonempty, join_last, join_first, join_rest, join_flat.
Qed.
End chains.

(** ** Positions in a chain *)
Lemma linked_cut R l1 (q y : Z) l2 : linked R (l1 ++ q :: y :: l2) -> R q y.
Proof. induction l1 as [|a l1 IH]; cbn; [tauto|]. intros [_ ?]. by apply IH. Qed.

(** [b] comes right behind [a] in [c]. *)
Definition next_in (c : list Z) (a b : Z) : Prop := exists l1 l2, c = l1 ++ a :: b :: l2.

Lemma next_in_app c1 c2 a b : next_in (c1 ++ c2) a b ->
  next_in c1 a b \/ next_in c2 a b \/ (list.last c1 = Some a /\ head c2 = Some b).
Proof.
  intros (l1 & l2 & E). revert l1 E. induction c1 as [|x c1 IH]; intros l1 E; [right; left; by exists l1, l2|].
  destruct l1 as [|y l1]; cbn in E; injection E as -> E.
  - destruct c1 as [|y c1]; cbn in E; [right; right; by subst|]. injection E as -> E. left. by exists [], c1.
  - destruct (IH l1 E) as [(k1 & k2 & ->)|[?|[Hl ?]]]; [left; by exists (y :: k1), k2|by right; left|].
    right. right. split; [|done]. by destruct c1.
Qed.

Lemma chain_prev (x y : Z) c : y ∈ c -> exists l1 q l2, x :: c = l1 ++ q :: y :: l2.
Proof.
  revert x. induction c as [|a c IH]; intros x; [by intros ?%not_elem_of_nil|].
  intros [->|Hy]%elem_of_cons; [by exists [], x, c|].
  destruct (IH a Hy) as (l1 & q & l2 & ->). by exists (x :: l1), q, l2.
Qed.

Lemma chain_next (y : Z) c : y ∈ c -> list.last c <> Some y ->
  exists l1 q l2, c = l1 ++ y :: q :: l2.
Proof.
  intros (l1 & l2 & ->)%list_elem_of_split Hl. destruct l2 as [|q l2]; [|by exists l1, q, l2].
  by rewrite list.last_snoc in Hl.
Qed.

Lemma NoDup_last_cut l1 (q y : Z) l2 : NoDup (l1 ++ q :: y :: l2) ->
  list.last (l1 ++ q :: y :: l2) <> Some q.
Proof.
  intros Hn Hl. rewrite last_app_cons, last_cons_cons in Hl.
  apply list.NoDup_app in Hn as (_ & _ & [Hq _]%list.NoDup_cons).
  apply Hq. by apply last_Some_elem_of.
Qed.

(** ** The graph to merge *)
Definition seg_of (bbs : list BasicBlock) (b : Z) : Z * Z :=
  default (0, -1) (bbs !! Z.to_nat b ≫= fun bb => head (Segments bb)).

Section graph.
Context (instrs : list Z) (bbs : list BasicBlock) (d0 : list bool).

Definition live0 (b : Z) : Prop := in_range bbs b /\ del d0 b = false.
Definition lsucc (b : Z) : list Z := filter (fun x => del d0 x = false) (succs bbs b).
Definition lpred (b : Z) : list Z := filter (fun x => del d0 x = false) (preds bbs b).

(** An edge the pass merges: the only live edge out of [a] and into [b]. *)
Definition link (a b : Z) : Prop :=
  live0 a /\ live0 b /\ lsucc a = [b] /\ lpred b = [a].

(** The input of [MergeBasicBlocks]: both edge lists agree, no live edge enters
    the entry and every live block is reachable from it, each live block is one
    range of instructions that ends in a terminator, and an edge to be merged
    carries a phi member for each phi. *)
Record cfg_ok : Prop := {
  co_edges : edges_ok bbs;
  co_len : length d0 = length bbs;
  co_entry : lpred 0 = [];
  co_reach : forall b, live0 b -> rtc (fun a b => a ∈ lpred b) 0 b;
  co_seg : forall b, live0 b ->
    (exists bb, bbs !! Z.to_nat b = Some bb /\ Segments bb = [seg_of bbs b]) /\
    closed instrs (seg_of bbs) b;
  co_members : forall a b, link a b -> members_ok instrs (seg_of bbs) a b;
}.

Definition live (st : MergeState) (b : Z) : Prop :=
  in_range bbs b /\ del (ms_deleted st) b = false.

(** A replacement recorded for a merged edge. *)
Definition member_entry (k v : Z) : Prop :=
  exists a b n, link a b /\ 0 <= n < Z.of_nat (ph instrs (seg_of bbs) b) /\
    k = Type2_Arg0 (member_word instrs (seg_of bbs a).2 n) /\
    v = Type2_Arg1 (member_word instrs (seg_of bbs a).2 n).

(** The map has the phis of the merged edge from [a] to [b]. *)
Definition recorded (m : gmap Z Z) (a b : Z) : Prop :=
  forall n, 0 <= n < Z.of_nat (ph instrs (seg_of bbs) b) ->
    is_Some (m !! Type2_Arg0 (member_word instrs (seg_of bbs a).2 n)).

Section state.
Context (st : MergeState) (ch : Z -> list Z) (own : Z -> Z).

(** Block [i] of the state stands for the chain [ch i]; [own b] is the block
    whose chain contains [b]. *)
Record chain_inv (i z : Z) : Prop := {
  ci_head : exists c, ch i = i :: c;
  ci_nodup : NoDup (ch i);
  ci_last : list.last (ch i) = Some z;
  ci_link : linked link (ch i);
  ci_own : forall b, b ∈ ch i -> live0 b /\ own b = i;
  ci_succ : ms_succ st !! Z.to_nat i = Some (lsucc z);
  ci_pred : ms_pred st !! Z.to_nat i = Some (own <$> lpred i);
  ci_segs : exists bb, ms_blocks st !! Z.to_nat i = Some bb /\
    seg_inv instrs (seg_of bbs) (Segments bb) i z (ch i);
}.

Record merge_inv : Prop := {
  mi_blen : length (ms_blocks st) = length bbs;
  mi_dlen : length (ms_deleted st) = length bbs;
  mi_slen : length (ms_succ st) = length bbs;
  mi_plen : length (ms_pred st) = length bbs;
  mi_own : forall b, live0 b -> live st (own b) /\ b ∈ ch (own b);
  mi_chain : forall i, live st i -> exists z, chain_inv i z;
  mi_map : forall k v, ms_value_map st !! k = Some v -> member_entry k v;
  mi_recorded : forall i a b, live st i -> next_in (ch i) a b -> recorded (ms_value_map st) a b;
}.

Context (Hok : cfg_ok) (Hinv : merge_inv).

Lemma elem_lsucc a b : b ∈ lsucc a <-> b ∈ succs bbs a /\ del d0 b = false.
Proof. unfold lsucc. rewrite list_elem_of_filter. tauto. Qed.

Lemma lsucc_lpred a b : live0 a -> b ∈ lsucc a -> live0 b /\ a ∈ lpred b.
Proof.
  intros [? ?] [Hb ?]%elem_lsucc. split.
  - split; [|done]. by apply (succs_range bbs (co_edges Hok) a).
  - unfold lpred. apply list_elem_of_filter. split; [done|]. by apply succs_preds, Hb; apply Hok.
Qed.

Lemma lpred_lsucc a b : live0 b -> a ∈ lpred b -> live0 a /\ b ∈ lsucc a.
Proof.
  intros [? ?] [? Ha]%list_elem_of_filter. split.
  - split; [|done]. by apply (preds_range bbs (co_edges Hok) a b).
  - apply elem_lsucc. split; [|done]. by apply succs_preds, Ha; apply Hok.
Qed.

Lemma chain_self i z : chain_inv i z -> live0 i /\ own i = i.
Proof. intros H. destruct (ci_head _ _ H) as [c E]. apply (ci_own _ _ H). rewrite E. by left. Qed.

Lemma chain_last_live i z : chain_inv i z -> live0 z /\ own z = i.
Proof. intros H. apply (ci_own _ _ H). apply last_Some_elem_of, H. Qed.

(** A successor of the last block of a chain is the head of a chain. *)
Lemma succ_live i z j : chain_inv i z -> j ∈ lsucc z -> live st j.
Proof.
  intros H Hj. destruct (chain_last_live _ _ H) as [Hz Hoz].
  destruct (lsucc_lpred z j Hz Hj) as [Hj0 Hzj].
  destruct (mi_own Hinv j Hj0) as [Hl Hin]. destruct (mi_chain Hinv _ Hl) as [u Hu].
  destruct (ci_head _ _ Hu) as [c Ec]. rewrite Ec in Hin.
  apply elem_of_cons in Hin as [E|Hin]; [by rewrite E|exfalso].
  destruct (chain_prev (own j) j c Hin) as (l1 & q & l2 & E). rewrite <- Ec in E.
  pose proof (ci_link _ _ Hu) as Hlk. rewrite E in Hlk. apply linked_cut in Hlk as (_ & _ & _ & Hp).
  rewrite Hp in Hzj. apply list_elem_of_singleton in Hzj as <-.
  destruct (ci_own _ _ Hu z) as [_ Hoz']; [rewrite E; set_solver|].
  assert (own j = i) as Eij by congruence. rewrite Eij in *.
  pose proof (ci_nodup _ _ H) as Hn. pose proof (ci_last _ _ H) as Hla. rewrite E in Hn, Hla.
  by apply (NoDup_last_cut l1 z j l2).
Qed.

(** A predecessor of a chain's head is the last block of its chain. *)
Lemma pred_last n p : live st n -> p ∈ lpred n -> chain_inv (own p) p.
Proof.
  intros Hn Hp. destruct (mi_chain Hinv _ Hn) as [u Hu]. destruct (chain_self _ _ Hu) as [Hn0 Hon].
  destruct (lpred_lsucc p n Hn0 Hp) as [Hp0 Hnp].
  destruct (mi_own Hinv p Hp0) as [Hl Hin]. destruct (mi_chain Hinv _ Hl) as [z Hz].
  destruct (decide (z = p)) as [->|Hne]; [done|exfalso].
  destruct (chain_next p (ch (own p)) Hin) as (l1 & q & l2 & E).
  { rewrite (ci_last _ _ Hz). congruence. }
  pose proof (ci_link _ _ Hz) as Hlk. rewrite E in Hlk. apply linked_cut in Hlk as (_ & _ & Hs & _).
  rewrite Hs in Hnp. apply list_elem_of_singleton in Hnp as <-.
  destruct (ci_own _ _ Hz n) as [_ Ho]; [rewrite E; set_solver|].
  destruct (ci_head _ _ Hz) as [c Ec]. pose proof (ci_nodup _ _ Hz) as Hnd.
  rewrite <- Ho, Hon in Ec. rewrite <- Ho, Hon in E, Hnd. rewrite Ec in E, Hnd.
  destruct l1 as [|a l1]; cbn in E; injection E as -> ->.
  - apply list.NoDup_cons in Hnd as [Hx _]. apply Hx. by left.
  - apply list.NoDup_cons in Hnd as [Hx _]. apply Hx. set_solver.
Qed.

(** A chain whose last block leads back to its head, and nowhere else, cannot be
    reached from the entry. *)
Lemma no_cycle i z : chain_inv i z -> lpred i <> [z].
Proof.
  intros H Hcyc. destruct (chain_self _ _ H) as [Hi _]. destruct (ci_head _ _ H) as [c Ec].
  assert (Hclosed : forall b p, b ∈ ch i -> p ∈ lpred b -> p ∈ ch i).
  { intros b p Hb Hp. rewrite Ec in Hb. apply elem_of_cons in Hb as [->|Hb].
    - rewrite Hcyc in Hp. apply list_elem_of_singleton in Hp as ->. apply last_Some_elem_of, H.
    - destruct (chain_prev i b c Hb) as (l1 & q & l2 & E). rewrite <- Ec in E.
      pose proof (ci_link _ _ H) as Hlk. rewrite E in Hlk.
      apply linked_cut in Hlk as (_ & _ & _ & Hq). rewrite Hq in Hp.
      apply list_elem_of_singleton in Hp as ->. rewrite E. set_solver. }
  assert (H0 : 0 ∉ ch i).
  { intros Hin. rewrite Ec in Hin. apply elem_of_cons in Hin as [<-|Hin].
    - by rewrite (co_entry Hok) in Hcyc.
    - destruct (chain_prev i 0 c Hin) as (l1 & q & l2 & E). rewrite <- Ec in E.
      pose proof (ci_link _ _ H) as Hlk. rewrite E in Hlk.
      apply linked_cut in Hlk as (_ & _ & _ & Hq). by rewrite (co_entry Hok) in Hq. }
  assert (Hout : forall b, rtc (fun a b => a ∈ lpred b) 0 b -> b ∉ ch i).
  { apply rtc_ind_r; [done|]. intros a b _ Hab IH Hin. eauto. }
  apply (Hout i); [by apply (co_reach Hok)|]. rewrite Ec. by left.
Qed.

Lemma merge_edge i z j p : chain_inv i z -> lsucc z = [j] -> ms_pred st !! Z.to_nat j = Some [p] ->
  live st j /\ link z j /\ j <> i.
Proof.
  intros H Hs Hp. assert (Hj : j ∈ lsucc z) by (rewrite Hs; by left).
  pose proof (succ_live _ _ _ H Hj) as Hlj. destruct (chain_last_live _ _ H) as [Hz _].
  destruct (lsucc_lpred z j Hz Hj) as [Hj0 Hzj]. destruct (mi_chain Hinv _ Hlj) as [u Hu].
  rewrite (ci_pred _ _ Hu) in Hp. injection Hp as Hp.
  assert (Hlp : lpred j = [z]).
  { destruct (lpred j) as [|q [|q' l]]; [done| |done]. by apply list_elem_of_singleton in Hzj as ->. }
  split_and!; try done. intros ->. by apply (no_cycle _ _ H).
Qed.

Lemma link_good a b : link a b -> good_edge instrs (seg_of bbs) a b.
Proof.
  intros H. pose proof (co_members Hok _ _ H). destruct H as (Ha & Hb & _).
  split_and!; try done; by apply (co_seg Hok).
Qed.

Lemma linked_impl (R R' : Z -> Z -> Prop) c :
  (forall a b, R a b -> R' a b) -> linked R c -> linked R' c.
Proof.
  intros HR. induction c as [|x c IH]; [done|]. intros [Hx Hc].
  split; [destruct c; auto|auto].
Qed.

Lemma rename_pred_idemp j i l : rename_pred j i (rename_pred j i l) = rename_pred j i l.
Proof.
  unfold rename_pred. rewrite <- list_fmap_compose. apply list_fmap_ext. intros _ x _. cbn.
  destruct (Z.eqb_spec x j); [|by destruct (Z.eqb_spec x j)]. by destruct (Z.eqb_spec i j).
Qed.

(** A block may be a target twice; renaming twice changes nothing more. *)
Lemma rename_preds_spec j i nexts pred0 :
  (forall n, n ∈ nexts -> 0 <= n < vec_size pred0) ->
  exists pred', rename_preds pred0 j i nexts = Ok pred' /\ length pred' = length pred0 /\
    forall k, pred' !! k = (if decide (Z.of_nat k ∈ nexts) then rename_pred j i else id)
      <$> pred0 !! k.
Proof.
  revert pred0. induction nexts as [|n nexts IH]; intros pred0 Hn; cbn.
  { exists pred0. split_and!; try done. intros k. rewrite decide_False by apply not_elem_of_nil.
    by rewrite option_fmap_id. }
  destruct (Hn n) as [Hn0 Hn1]; [by left|]. unfold vec_size in *.
  destruct (lookup_lt_is_Some_2 pred0 (Z.to_nat n)) as [ps Hps]; [lia|].
  rewrite (proj2 (vec_at_Ok pred0 n ps)) by done. cbn.
  rewrite (vec_set_lookup _ n _ ps) by done. cbn.
  destruct (IH (<[Z.to_nat n := rename_pred j i ps]> pred0)) as (pred' & -> & Hl & Hk).
  { intros m Hm. rewrite length_insert. apply Hn. by right. }
  exists pred'. rewrite length_insert in Hl. split_and!; try done. intros k. rewrite Hk.
  destruct (decide (k = Z.to_nat n)) as [->|Hne].
  - rewrite list_lookup_insert_eq, Hps by lia. cbn. rewrite Z2Nat.id by lia.
    rewrite (decide_True (P := n ∈ n :: nexts)) by (by left).
    case_decide; cbn; by rewrite ?rename_pred_idemp.
  - rewrite list_lookup_insert_ne by done.
    rewrite (decide_ext (Z.of_nat k ∈ n :: nexts) (Z.of_nat k ∈ nexts)); [done|].
    rewrite elem_of_cons. split; [|by right]. intros [?|?]; [lia|done].
Qed.
End state.

(** ** One merge *)
Lemma elem_seg_indices k lo hi : k ∈ seg_indices (lo, hi) <-> lo <= k <= hi.
Proof. unfold seg_indices. rewrite elem_of_seqZ. cbn. lia. Qed.

Lemma body_elem c k : k ∈ body instrs (seg_of bbs) c -> exists b, b ∈ c /\ k ∈ full (seg_of bbs) b.
Proof.
  induction c as [|b c IH]; cbn [body]; [by intros ?%not_elem_of_nil|].
  destruct c as [|b' c]; [intros; exists b; split; [by left|done]|].
  intros [Hk|Hk]%elem_of_app.
  - exists b. split; [by left|].
    rewrite <- (take_drop (length (full (seg_of bbs) b) - (ph instrs (seg_of bbs) b' + 1))).
    apply elem_of_app. by left.
  - destruct IH as (b'' & ? & ?); [|exists b''; split; [by right|done]].
    rewrite <- (take_drop (ph instrs (seg_of bbs) b')). apply elem_of_app. by right.
Qed.

(** Every segment of a block lies in the instruction vector. *)
Lemma seg_bounds st ch own i z bb s : cfg_ok -> chain_inv st ch own i z ->
  seg_inv instrs (seg_of bbs) (Segments bb) i z (ch i) -> s ∈ Segments bb ->
  0 <= s.1 /\ s.2 < vec_size instrs.
Proof.
  intros Hok H Hs Hin. destruct s as [lo hi].
  assert (Hle : lo <= hi).
  { pose proof (si_nonempty _ _ _ _ _ _ Hs) as Hn. rewrite Forall_forall in Hn.
    apply (Hn (lo, hi)). by apply list_elem_of_In. }
  assert (Hk : forall k, lo <= k <= hi -> 0 <= k < vec_size instrs).
  { intros k Hk. destruct (body_elem (ch i) k) as (b & Hb & Hf).
    - rewrite <- (si_body _ _ _ _ _ _ Hs). apply list_elem_of_bind. exists (lo, hi).
      split; [by apply elem_seg_indices|done].
    - destruct (ci_own _ _ _ _ _ H b Hb) as [Hlb _]. destruct (co_seg Hok b Hlb) as [_ (? & ? & _)].
      unfold full in Hf. destruct (seg_of bbs b) as [sb eb]. apply elem_seg_indices in Hf. cbn in *. lia. }
  pose proof (Hk lo ltac:(lia)). pose proof (Hk hi ltac:(lia)). cbn. lia.
Qed.

Lemma add_members_lookup ws m k v : foldl add_member m ws !! k = Some v ->
  m !! k = Some v \/ exists w, w ∈ ws /\ k = Type2_Arg0 w /\ v = Type2_Arg1 w.
Proof.
  revert m. induction ws as [|w ws IH]; intros m; cbn; [auto|]. intros H.
  apply IH in H as [H|(w' & ? & ?)]; [|right; exists w'; split; [by right|done]].
  unfold add_member in H. apply lookup_insert_Some in H as [[<- <-]|[_ H]]; [|auto].
  right. exists w. split; [by left|done].
Qed.

Lemma add_members_dom ws m k : is_Some (m !! k) \/ k ∈ (Type2_Arg0 <$> ws) ->
  is_Some (foldl add_member m ws !! k).
Proof.
  revert m. induction ws as [|w ws IH]; intros m; cbn; [by intros [?|?%not_elem_of_nil]|].
  intros [H|[->|H]%elem_of_cons]; apply IH; [left|left|by right]; unfold add_member.
  - rewrite lookup_insert_is_Some. destruct (decide (Type2_Arg0 w = k)); auto.
  - by rewrite lookup_insert_eq.
Qed.

Section step.
Context (st : MergeState) (ch : Z -> list Z) (own : Z -> Z) (i z j u p : Z).
Context (Hok : cfg_ok) (Hinv : merge_inv st ch own) (Hli : live st i).
Context (Hi : chain_inv st ch own i z) (Hs : lsucc z = [j]).
Context (Hp : ms_pred st !! Z.to_nat j = Some [p]) (Hj : chain_inv st ch own j u).

Definition ch' (k : Z) : list Z := if decide (k = i) then ch i ++ ch j else ch k.
Definition own' (b : Z) : Z := if own b =? j then i else own b.

(** The state after the merge, field by field. *)
Record merged (st' : MergeState) : Prop := {
  md_blen : length (ms_blocks st') = length (ms_blocks st);
  md_block : exists bb, ms_blocks st' !! Z.to_nat i = Some bb /\
    seg_inv instrs (seg_of bbs) (Segments bb) i u (ch i ++ ch j);
  md_blocks : forall k, k <> Z.to_nat i -> k <> Z.to_nat j ->
    ms_blocks st' !! k = ms_blocks st !! k;
  md_deleted : ms_deleted st' = <[Z.to_nat j := true]> (ms_deleted st);
  md_succ : ms_succ st' = <[Z.to_nat i := lsucc u]> (ms_succ st);
  md_plen : length (ms_pred st') = length (ms_pred st);
  md_pred : forall k, ms_pred st' !! k =
    (if decide (Z.of_nat k ∈ lsucc u) then rename_pred j i else id) <$> ms_pred st !! k;
  md_map : forall k v, ms_value_map st' !! k = Some v -> member_entry k v;
  md_keeps : forall k, is_Some (ms_value_map st !! k) -> is_Some (ms_value_map st' !! k);
  md_recorded : recorded (ms_value_map st') z j;
}.

Lemma merge_pair_eval : exists st', merge_pair instrs st i j = Ok st' /\ merged st'.
Proof.
  destruct (merge_edge st ch own Hok Hinv i z j p Hi Hs Hp) as (Hlj & Hlk & Hne).
  pose proof (link_good Hok _ _ Hlk) as Hge.
  destruct Hli as [[? ?] _]. destruct (proj1 Hlj) as [? ?].
  destruct (ci_segs _ _ _ _ _ Hi) as (bi & Hbi & Hsi).
  destruct (ci_segs _ _ _ _ _ Hj) as (bj & Hbj & Hsj).
  destruct (ci_head _ _ _ _ _ Hi) as [c Ec]. destruct (ci_head _ _ _ _ _ Hj) as [c' Ec'].
  destruct (si_last _ _ _ _ _ _ Hsi) as (lo & Hes & _).
  destruct (si_first _ _ _ _ _ _ Hsj) as (ss & Hss & Hph).
  assert (Hb : 0 <= ss.1 /\ ss.2 < vec_size instrs).
  { apply (seg_bounds st ch own j u bj ss Hok Hj Hsj). destruct (Segments bj); [done|].
    injection Hss as ->. by left. }
  assert (Hn : ss.1 <= ss.2).
  { pose proof (si_nonempty _ _ _ _ _ _ Hsj) as Hn. destruct (Segments bj); [done|].
    injection Hss as ->. exact (Forall_inv Hn). }
  destruct (join_inv instrs (seg_of bbs) (Segments bi) (Segments bj) i z j u c c'
    (lo, (seg_of bbs z).2) ss) as (segs & Hjoin & Hsegs); rewrite <- ?Ec, <- ?Ec'; try done.
  { eapply linked_impl; [apply (link_good Hok)|apply Hi]. }
  { apply Hi. }
  { apply (co_seg Hok). by eapply chain_last_live. }
  unfold merge_pair.
  rewrite (proj2 (vec_at_Ok (ms_blocks st) i bi)), (proj2 (vec_at_Ok (ms_blocks st) j bj)) by done. cbn [mbind Res_bind].
  rewrite Hes. cbn [mbind Res_bind opt_ub]. rewrite Hss. cbn [mbind Res_bind opt_ub fst snd].
  pose proof Hph as Hph'. unfold seg_phis, seg_len in Hph'. cbn [fst snd] in Hph'.
  rewrite (merge_phis_spec instrs _ ss.1 (seg_of bbs z).2 0); rewrite Z.add_0_r, ?Hph'; [|lia|lia|].
  2: { intros k Hk. destruct Hge as (Hcz & _ & Hm). destruct (Hm k ltac:(lia)) as [? ?].
       destruct Hcz as (? & _). split; [lia|done]. }
  cbn [mbind Res_bind]. rewrite (proj2 (Z.eqb_neq i j)) by done. cbn [fst snd] in Hjoin.
  rewrite Z.add_0_l, Hjoin. cbn [mbind Res_bind].
  rewrite (vec_set_lookup _ j _ bj) by done. cbn [mbind Res_bind].
  rewrite (vec_set_lookup _ i _ bi) by (rewrite ?list_lookup_insert_ne by lia; done).
  cbn [mbind Res_bind].
  assert (Hdl : (Z.to_nat j < length (ms_deleted st))%nat)
    by (rewrite (mi_dlen _ _ _ Hinv); unfold vec_size in *; lia).
  destruct (lookup_lt_is_Some_2 _ _ Hdl) as [dj Hdj].
  rewrite (vec_set_lookup _ j _ dj) by done. cbn [mbind Res_bind].
  rewrite (proj2 (vec_at_Ok (ms_succ st) j (lsucc u))) by (split; [done|apply Hj]).
  cbn [mbind Res_bind].
  rewrite (vec_set_lookup _ i _ (lsucc z)) by (done || apply Hi). cbn [mbind Res_bind].
  destruct (rename_preds_spec j i (lsucc u) (ms_pred st)) as (pred' & -> & Hpl & Hpk).
  { intros n Hin. unfold vec_size. rewrite (mi_plen _ _ _ Hinv).
    by apply (succ_live st ch own Hok Hinv j u n Hj Hin). }
  cbn [mbind Res_bind]. eexists. split; [done|]. split; cbn; try done.
  - by rewrite !length_insert.
  - exists (SetSegments bi segs). rewrite Ec, Ec'. split; [|exact Hsegs].
    apply list_lookup_insert_eq. rewrite length_insert. by apply lookup_lt_Some in Hbi.
  - intros k ? ?. by rewrite !list_lookup_insert_ne by done.
  - intros k v [Hv|(w & Hw & -> & ->)]%add_members_lookup; [by apply (mi_map _ _ _ Hinv)|].
    apply list_elem_of_fmap in Hw as (n & -> & Hn').
    apply elem_of_seqZ in Hn'. exists z, j, n. split_and!; try done; lia.
  - intros k Hk. apply add_members_dom. by left.
  - intros n Hn'. apply add_members_dom. right. apply list_elem_of_fmap_2, list_elem_of_fmap_2, elem_of_seqZ. lia.
Qed.

Lemma merged_live st' : merged st' -> forall k, live st' k <-> live st k /\ k <> j.
Proof.
  intros Hm k. destruct (merge_edge st ch own Hok Hinv i z j p Hi Hs Hp) as ([[? ?] _] & _ & Hne).
  unfold live, in_range in *. split.
  - intros [Hk Hd]. rewrite (md_deleted _ Hm), del_insert in Hd
      by (unfold vec_size in *; rewrite ?(mi_dlen _ _ _ Hinv); lia).
    apply orb_false_iff in Hd as [?%bool_decide_eq_false ?]. done.
  - intros [[Hk Hd] Hkj]. split; [done|]. rewrite (md_deleted _ Hm), del_insert
      by (unfold vec_size in *; rewrite ?(mi_dlen _ _ _ Hinv); lia).
    by rewrite Hd, bool_decide_false.
Qed.

Lemma own_rename n : own' <$> lpred n = rename_pred j i (own <$> lpred n).
Proof. unfold rename_pred. by rewrite <- list_fmap_compose. Qed.

(** The predecessor lists of live blocks follow the renaming; where the code does
    not rename, [j] does not occur. *)
Lemma merged_pred st' n : merged st' -> live st n -> n <> j ->
  ms_pred st' !! Z.to_nat n = Some (own' <$> lpred n).
Proof.
  intros Hm Hn Hnj. destruct (mi_chain _ _ _ Hinv _ Hn) as [v Hv].
  rewrite (md_pred _ Hm), (ci_pred _ _ _ _ _ Hv), own_rename. cbn.
  destruct Hn as [[? ?] ?]. rewrite Z2Nat.id by lia. case_decide as Hin; [done|].
  f_equal. unfold rename_pred, id. rewrite <- (list_fmap_id (own <$> lpred n)) at 1.
  apply list_fmap_ext. intros k x Hx. cbn. destruct (Z.eqb_spec x j) as [->|]; [|done].
  exfalso. apply list_elem_of_lookup_2, list_elem_of_fmap in Hx as (q & Hq & Hqn).
  pose proof (pred_last st ch own Hok Hinv n q ltac:(by repeat split) Hqn) as Hlast.
  rewrite <- Hq in Hlast.
  assert (u = q) as <- by (pose proof (ci_last _ _ _ _ _ Hlast); pose proof (ci_last _ _ _ _ _ Hj); congruence).
  apply Hin. destruct (chain_self _ _ _ _ _ Hv) as [Hn0 _]. by apply (lpred_lsucc Hok).
Qed.

Lemma merged_chain_i st' : merged st' -> chain_inv st' ch' own' i u.
Proof.
  intros Hm. destruct (merge_edge st ch own Hok Hinv i z j p Hi Hs Hp) as (Hlj & Hlk & Hne).
  destruct (ci_head _ _ _ _ _ Hi) as [c Ec]. destruct (ci_head _ _ _ _ _ Hj) as [c' Ec'].
  assert (Hch : ch' i = ch i ++ ch j) by (unfold ch'; by rewrite decide_True).
  split; rewrite ?Hch.
  - rewrite Ec. cbn. by eexists.
  - apply list.NoDup_app. split_and!; [apply Hi| |apply Hj].
    intros b [_ ?]%(ci_own _ _ _ _ _ Hi) [_ ?]%(ci_own _ _ _ _ _ Hj). congruence.
  - rewrite Ec', last_app_cons, <- Ec'. apply Hj.
  - pose proof (ci_last _ _ _ _ _ Hi) as Hla. pose proof (ci_link _ _ _ _ _ Hi) as Hl1.
    pose proof (ci_link _ _ _ _ _ Hj) as Hl2. apply last_Some in Hla as [l E].
    rewrite E in Hl1 |- *. rewrite Ec' in Hl2 |- *. rewrite <- app_assoc. by apply linked_app.
  - unfold own'. intros b [[? ->]%(ci_own _ _ _ _ _ Hi)|[? ->]%(ci_own _ _ _ _ _ Hj)]%elem_of_app.
    + by rewrite (proj2 (Z.eqb_neq i j)) by done.
    + by rewrite Z.eqb_refl.
  - rewrite (md_succ _ Hm). apply list_lookup_insert_eq. rewrite (mi_slen _ _ _ Hinv).
    destruct Hli as [[? ?] _]. unfold vec_size in *. lia.
  - by apply merged_pred.
  - apply (md_block _ Hm).
Qed.

Lemma merged_chain_other st' k v : merged st' -> live st k -> k <> i -> k <> j ->
  chain_inv st ch own k v -> chain_inv st' ch' own' k v.
Proof.
  intros Hm Hk Hki Hkj Hv. pose proof (proj1 Hk) as [? ?]. destruct Hli as [[? ?] _].
  destruct (merge_edge st ch own Hok Hinv i z j p Hi Hs Hp) as ([[? ?] _] & _ & _).
  assert (Hch : ch' k = ch k) by (unfold ch'; by rewrite decide_False).
  split; rewrite ?Hch; try apply Hv.
  - intros b [? Ho]%(ci_own _ _ _ _ _ Hv). unfold own'. rewrite Ho.
    by rewrite (proj2 (Z.eqb_neq k j)) by done.
  - rewrite (md_succ _ Hm), list_lookup_insert_ne by lia. apply Hv.
  - by apply merged_pred.
  - rewrite (md_blocks _ Hm) by lia. apply Hv.
Qed.

Lemma merged_inv st' : merged st' -> merge_inv st' ch' own'.
Proof.
  intros Hm. pose proof (merged_live _ Hm) as Hlive.
  destruct (merge_edge st ch own Hok Hinv i z j p Hi Hs Hp) as (_ & _ & Hne).
  split.
  - rewrite (md_blen _ Hm). apply Hinv.
  - rewrite (md_deleted _ Hm), length_insert. apply Hinv.
  - rewrite (md_succ _ Hm), length_insert. apply Hinv.
  - rewrite (md_plen _ Hm). apply Hinv.
  - intros b Hb. destruct (mi_own _ _ _ Hinv b Hb) as [Hl Hin]. unfold own', ch'.
    destruct (Z.eqb_spec (own b) j) as [E|E].
    + rewrite decide_True, Hlive by done. split; [done|]. apply elem_of_app. right. by rewrite <- E.
    + rewrite Hlive. split; [done|]. case_decide as E'; [|done].
      apply elem_of_app. left. by rewrite <- E'.
  - intros k [Hk Hkj]%Hlive. destruct (decide (k = i)) as [->|Hki].
    + exists u. by apply merged_chain_i.
    + destruct (mi_chain _ _ _ Hinv k Hk) as [v Hv]. exists v. by apply merged_chain_other.
  - apply (md_map _ Hm).
  - intros k a b [Hk Hkj]%Hlive Hab n Hn. assert (next_in (ch k) a b -> is_Some (ms_value_map st' !! Type2_Arg0 (member_word instrs (seg_of bbs a).2 n))) as Hold.
    { intros H. apply (md_keeps _ Hm). by apply (mi_recorded _ _ _ Hinv k a b Hk H). }
    unfold ch' in Hab. case_decide as E; [|by apply Hold]. subst k.
    apply next_in_app in Hab as [H|[H|[Ha Hb]]]; [by apply Hold| |].
    + apply (md_keeps _ Hm). apply (mi_recorded _ _ _ Hinv j a b); [|done|done].
      by destruct (merge_edge st ch own Hok Hinv i z j p Hi Hs Hp) as (? & _).
    + rewrite (ci_last _ _ _ _ _ Hi) in Ha. injection Ha as <-.
      destruct (ci_head _ _ _ _ _ Hj) as [c Ec]. rewrite Ec in Hb. injection Hb as <-. by apply (md_recorded _ Hm).
Qed.

Lemma merged_count st' : merged st' ->
  S (count_live (ms_deleted st')) = count_live (ms_deleted st).
Proof.
  intros Hm. rewrite (md_deleted _ Hm). apply count_live_insert.
  destruct (merge_edge st ch own Hok Hinv i z j p Hi Hs Hp) as ([[? ?] Hd] & _ & _).
  unfold del in Hd. destruct (ms_deleted st !! Z.to_nat j) eqn:E; [by cbn in Hd; subst|].
  apply lookup_ge_None_1 in E. rewrite (mi_dlen _ _ _ Hinv) in E. unfold vec_size in *. lia.
Qed.
End step.

(** ** The merge loops *)

(** The chain of [i] cannot be extended. *)
Definition maximal (ch : Z -> list Z) (i : Z) : Prop :=
  forall z j, list.last (ch i) = Some z -> ~ link z j.

(** Going from [st] to [st'], blocks only disappear and no chain but that of [i] changes. *)
Definition only_extends (i : Z) (st st' : MergeState) (ch ch1 : Z -> list Z) : Prop :=
  forall k, live st' k -> live st k /\ (k <> i -> ch1 k = ch k).

Lemma stop_maximal st ch own i z : cfg_ok -> merge_inv st ch own -> chain_inv st ch own i z ->
  (forall j p, lsucc z = [j] -> ms_pred st !! Z.to_nat j <> Some [p]) -> maximal ch i.
Proof.
  intros Hok Hinv Hi Hstop z' j Hz (_ & _ & Hs & Hp).
  assert (z' = z) as -> by (pose proof (ci_last _ _ _ _ _ Hi); congruence).
  assert (Hj : live st j) by (apply (succ_live st ch own Hok Hinv i z); [done|rewrite Hs; by left]).
  destruct (mi_chain _ _ _ Hinv _ Hj) as [u Hu]. apply (Hstop j (own z) Hs).
  by rewrite (ci_pred _ _ _ _ _ Hu), Hp.
Qed.

Lemma live_count st i : length (ms_deleted st) = length bbs -> live st i ->
  (0 < count_live (ms_deleted st))%nat.
Proof.
  intros Hl [[? ?] Hd]. unfold del in Hd. unfold vec_size in *.
  destruct (lookup_lt_is_Some_2 (ms_deleted st) (Z.to_nat i)) as [x Hx]; [lia|].
  rewrite Hx in Hd. cbn in Hd. subst. apply count_live_insert in Hx. lia.
Qed.

Lemma merge_loop_spec fuel st ch own i : cfg_ok -> merge_inv st ch own -> live st i ->
  (count_live (ms_deleted st) <= fuel)%nat ->
  exists st' ch1 own1, merge_loop fuel instrs st i = Ok st' /\ merge_inv st' ch1 own1 /\
    live st' i /\ maximal ch1 i /\ only_extends i st st' ch ch1.
Proof.
  intros Hok. revert st ch own. induction fuel as [|fuel IH]; intros st ch own Hinv Hli Hf.
  { pose proof (live_count st i (mi_dlen _ _ _ Hinv) Hli). lia. }
  destruct (mi_chain _ _ _ Hinv _ Hli) as [z Hi]. pose proof (proj1 Hli) as [Hi0 _].
  assert (Hstop : (forall j p, lsucc z = [j] -> ms_pred st !! Z.to_nat j <> Some [p]) ->
    exists st' ch1 own1, Ok st = Ok st' /\ merge_inv st' ch1 own1 /\
      live st' i /\ maximal ch1 i /\ only_extends i st st' ch ch1).
  { intros Hno. exists st, ch, own. split_and!; try done. by eapply stop_maximal. }
  cbn. rewrite (proj2 (vec_at_Ok (ms_succ st) i (lsucc z))) by (split; [done|apply Hi]). cbn.
  destruct (lsucc z) as [|j [|j' l]] eqn:Es; [by apply Hstop| |by apply Hstop].
  assert (Hlj : live st j) by (apply (succ_live st ch own Hok Hinv i z); [done|rewrite Es; by left]).
  destruct (mi_chain _ _ _ Hinv _ Hlj) as [u Hj]. pose proof (proj1 Hlj) as [Hj0 _].
  rewrite (proj2 (vec_at_Ok (ms_pred st) j (own <$> lpred j))) by (split; [done|apply Hj]).
  destruct (own <$> lpred j) as [|p [|p' l]] eqn:Ep; cbn.
  1,3: apply Hstop; intros j' q [= ->]; rewrite (ci_pred _ _ _ _ _ Hj); congruence.
  assert (Hp : ms_pred st !! Z.to_nat j = Some [p]) by (by rewrite (ci_pred _ _ _ _ _ Hj), Ep).
  destruct (merge_pair_eval st ch own i z j u p Hok Hinv Hli Hi Es Hp Hj) as (st1 & -> & Hm). cbn.
  pose proof (merged_live st ch own i z j u p Hok Hinv Hi Es Hp st1 Hm) as Hl1.
  destruct (merge_edge st ch own Hok Hinv i z j p Hi Es Hp) as (_ & _ & Hne).
  destruct (IH st1 (ch' ch i j) (own' own i j)) as (st2 & ch2 & own2 & -> & H2 & Hl2 & Hmax & Hext).
  - by eapply merged_inv.
  - apply Hl1. done.
  - pose proof (merged_count st ch own i z j u p Hok Hinv Hi Es Hp st1 Hm). lia.
  - exists st2, ch2, own2. split_and!; try done. intros k Hk. destruct (Hext k Hk) as [Hk1 Hc].
    apply Hl1 in Hk1 as [? ?]. split; [done|]. intros Hki. rewrite Hc by done. unfold ch'.
    by rewrite decide_False.
Qed.

Lemma count_live_le d : (count_live d <= length d)%nat.
Proof. apply length_filter. Qed.

Lemma merge_all_spec ids st ch own : cfg_ok -> merge_inv st ch own ->
  (forall i, i ∈ ids -> in_range bbs i) ->
  exists st' ch1 own1, merge_all instrs st ids = Ok st' /\ merge_inv st' ch1 own1 /\
    forall k, live st' k -> live st k /\ (k ∈ ids \/ maximal ch k -> maximal ch1 k).
Proof.
  intros Hok. revert st ch own. induction ids as [|i ids IH]; intros st ch own Hinv Hr.
  { exists st, ch, own. split_and!; try done. intros k Hk. split; [done|].
    by intros [?%not_elem_of_nil|?]. }
  cbn [merge_all]. assert (Hri : in_range bbs i) by (apply Hr; by left).
  rewrite (vec_at_del bbs) by (done || apply Hinv). cbn [mbind Res_bind].
  assert (exists st1 ch1 own1,
    (if del (ms_deleted st) i then Ok st else merge_loop (length (ms_blocks st)) instrs st i) = Ok st1 /\
    merge_inv st1 ch1 own1 /\ (live st1 i -> maximal ch1 i) /\ only_extends i st st1 ch ch1)
    as (st1 & ch1 & own1 & -> & Hinv1 & Hmax & Hext).
  { destruct (del (ms_deleted st) i) eqn:Ed.
    - exists st, ch, own. split_and!; try done. intros [_ ?]. congruence.
    - destruct (merge_loop_spec (length (ms_blocks st)) st ch own i)
        as (st1 & ch1 & own1 & ? & ? & ? & ? & ?); try done.
      + pose proof (count_live_le (ms_deleted st)).
        rewrite (mi_blen _ _ _ Hinv), <- (mi_dlen _ _ _ Hinv). done.
      + by exists st1, ch1, own1. }
  cbn [mbind Res_bind].
  destruct (IH st1 ch1 own1 Hinv1) as (st2 & ch2 & own2 & -> & Hinv2 & H2); [intros; apply Hr; by right|].
  exists st2, ch2, own2. split_and!; try done. intros k Hk. destruct (H2 k Hk) as [Hk1 Hm].
  destruct (Hext k Hk1) as [Hk0 Hc]. split; [done|]. intros Hor. apply Hm.
  destruct (decide (k = i)) as [->|Hne]; [right; auto|].
  destruct Hor as [[?|?]%elem_of_cons|Hmx]; [done|auto|]. right.
  unfold maximal. rewrite Hc by done. exact Hmx.
Qed.

(** ** The initial state *)
Lemma live_only_spec l : length d0 = length bbs -> (forall x, x ∈ l -> in_range bbs x) ->
  live_only d0 l = Ok (filter (fun x => del d0 x = false) l).
Proof.
  intros Hl. induction l as [|x l IH]; intros Hr; [done|]. cbn [live_only].
  rewrite (vec_at_del bbs) by (done || apply Hr; by left). cbn [mbind Res_bind].
  rewrite IH by (intros; apply Hr; by right). cbn [mbind Res_bind]. f_equal.
  destruct (del d0 x) eqn:E; [by rewrite filter_cons_False by congruence|].
  by rewrite filter_cons_True.
Qed.

Lemma live_edges_spec l : length d0 = length bbs ->
  (forall b x, b ∈ l -> x ∈ Successors b \/ x ∈ Predecessors b -> in_range bbs x) ->
  live_edges d0 l = Ok ((fun b => filter (fun x => del d0 x = false) (Successors b)) <$> l,
                        (fun b => filter (fun x => del d0 x = false) (Predecessors b)) <$> l).
Proof.
  intros Hl. induction l as [|b l IH]; intros Hr; [done|]. cbn [live_edges].
  assert (Hb : forall x, x ∈ Successors b \/ x ∈ Predecessors b -> in_range bbs x)
    by (intros x; apply Hr; by left).
  rewrite (live_only_spec (Successors b)) by auto. cbn [mbind Res_bind].
  rewrite (live_only_spec (Predecessors b)) by auto. cbn [mbind Res_bind].
  rewrite IH; [done|]. intros b' x ?. apply Hr. by right.
Qed.

Lemma edge_lists_range : edges_ok bbs -> forall b x, b ∈ bbs ->
  x ∈ Successors b \/ x ∈ Predecessors b -> in_range bbs x.
Proof.
  intros He b x [n Hn]%list_elem_of_lookup_1 Hx.
  destruct (block_at bbs (Z.of_nat n)) as (bb & _ & Hbb & Hs & Hp).
  { apply lookup_lt_Some in Hn. unfold in_range, vec_size. lia. }
  rewrite Nat2Z.id, Hn in Hbb. injection Hbb as <-. rewrite Hs, Hp in Hx.
  destruct Hx as [Hx|Hx]; [by apply (succs_range bbs He (Z.of_nat n))|].
  by apply (preds_range bbs He x (Z.of_nat n)).
Qed.

Definition st0 : MergeState :=
  MkMS bbs d0 ((fun b => filter (fun x => del d0 x = false) (Successors b)) <$> bbs)
    ((fun b => filter (fun x => del d0 x = false) (Predecessors b)) <$> bbs) ∅.

Lemma init_inv : cfg_ok -> merge_inv st0 (fun i => [i]) id.
Proof.
  intros Hok. split; cbn; try done; try (by rewrite length_fmap).
  - apply Hok.
  - intros b Hb. split; [done|by left].
  - intros i Hi. exists i. destruct (block_at bbs i (proj1 Hi)) as (bb & _ & Hbb & Hsu & Hpr).
    destruct (co_seg Hok i Hi) as [(bb' & Hbb' & Hseg) Hcl].
    assert (bb' = bb) as -> by congruence. split; cbn; try done.
    + by exists [].
    + apply NoDup_singleton.
    + by intros b ->%list_elem_of_singleton.
    + rewrite list_lookup_fmap, Hbb. cbn. by rewrite Hsu.
    + rewrite list_lookup_fmap, Hbb. cbn. by rewrite Hpr, list_fmap_id.
    + exists bb. split; [done|]. rewrite Hseg. by apply seg_inv_single.
  - intros i a b _ (l1 & l2 & E). apply (f_equal length) in E. rewrite length_app in E. cbn in E. lia.
Qed.

(** When no chain can be extended, every edge to merge is inside a chain. *)
Lemma link_neighbours st ch own a b : cfg_ok -> merge_inv st ch own ->
  (forall i, live st i -> maximal ch i) -> link a b -> live st (own a) /\ next_in (ch (own a)) a b.
Proof.
  intros Hok Hinv Hmax Hab. pose proof Hab as (Ha & _ & Hs & _).
  destruct (mi_own _ _ _ Hinv a Ha) as [Hl Hin]. split; [done|]. destruct (mi_chain _ _ _ Hinv _ Hl) as [z Hz].
  destruct (chain_next a (ch (own a)) Hin) as (l1 & q & l2 & E).
  { intros Hla. by apply (Hmax _ Hl a b Hla). }
  pose proof (ci_link _ _ _ _ _ Hz) as Hlk. rewrite E in Hlk. apply linked_cut in Hlk as (_ & _ & Hq & _).
  rewrite Hs in Hq. injection Hq as <-. by exists l1, l2.
Qed.

(** ** Rewriting the merged program *)
Lemma resolves_done m v w : resolves m v w -> m !! w = None.
Proof. by induction 1. Qed.

Lemma resolves_trans m v w x : resolves m v w -> resolves m w x -> resolves m v x.
Proof.
  intros H Hx. assert (x = w) as ->; [|done].
  apply resolves_done in H. inversion Hx; congruence.
Qed.

(** An instruction that two overlapping segments share is rewritten twice. *)
Lemma rewritten_trans m a b c : rewritten m a b -> rewritten m b c -> rewritten m a c.
Proof.
  intros (Ho & Hm & Ha) (Ho' & Hm' & Hb). unfold rewritten. split_and!; [congruence..|].
  unfold group_of in *. rewrite Ho in Hb. destruct (default _ _).
  - destruct Ha, Hb. eauto using resolves_trans.
  - destruct Ha as (?&?&?), Hb as (?&?&?). split_and!; eauto using resolves_trans; congruence.
  - destruct Ha as (?&?&?), Hb as (?&?&?). split_and!; eauto using resolves_trans; congruence.
  - congruence.
Qed.

(** [idxs] are rewritten, the other words stay. *)
Definition rewrites (m : gmap Z Z) (idxs : list Z) (l l' : list Z) : Prop :=
  length l' = length l /\
  forall k w, l !! k = Some w -> exists w', l' !! k = Some w' /\
    (Z.of_nat k ∈ idxs -> rewritten m w w') /\ (Z.of_nat k ∉ idxs -> w' = w).

Lemma rewrites_trans m i1 i2 l l1 l2 :
  rewrites m i1 l l1 -> rewrites m i2 l1 l2 -> rewrites m (i1 ++ i2) l l2.
Proof.
  intros [E1 H1] [E2 H2]. split; [congruence|]. intros k w Hk.
  destruct (H1 k w Hk) as (w1 & Hk1 & Hr1 & Hn1). destruct (H2 k w1 Hk1) as (w2 & Hk2 & Hr2 & Hn2).
  exists w2. split; [done|]. rewrite elem_of_app. split.
  - intros Hin. destruct (decide (Z.of_nat k ∈ i1)) as [Hi1|Hi1], (decide (Z.of_nat k ∈ i2)) as [Hi2|Hi2].
    + eapply rewritten_trans; eauto.
    + rewrite Hn2 by done. auto.
    + rewrite Hn1 in Hr2 by done. auto.
    + tauto.
  - intros Hni. rewrite Hn2, Hn1; tauto.
Qed.

Section rewriting.
Context (m : gmap Z Z) (Hac : acyclic m) (H24 : map_Forall (fun _ x => is_uw 24 x) m).

Lemma rewrite_range_spec idxs l : (forall k, k ∈ idxs -> 0 <= k < vec_size l) ->
  exists l', rewrite_range l m idxs = Ok l' /\ rewrites m idxs l l'.
Proof.
  revert l. induction idxs as [|k idxs IH]; intros l Hr; cbn.
  { exists l. split; [done|]. split; [done|]. intros k w Hk. exists w. split_and!; try done.
    by intros ?%not_elem_of_nil. }
  destruct (Hr k) as [Hk0 Hk1]; [by left|]. unfold vec_size in *.
  destruct (lookup_lt_is_Some_2 l (Z.to_nat k)) as [w Hw]; [lia|].
  rewrite (proj2 (vec_at_Ok l k w)) by done. cbn.
  destruct (RewriteInstr_rewritten m w Hac H24) as (w' & -> & Hrw). cbn.
  rewrite (vec_set_lookup l k w' w) by done. cbn.
  destruct (IH (<[Z.to_nat k := w']> l)) as (l' & -> & Hl').
  { intros x Hx. rewrite length_insert. apply Hr. by right. }
  exists l'. split; [done|]. apply (rewrites_trans m [k] idxs l (<[Z.to_nat k := w']> l)); [|done].
  split; [by rewrite length_insert|]. intros n x Hx.
  destruct (decide (n = Z.to_nat k)) as [->|Hne].
  - exists w'. rewrite list_elem_of_singleton, list_lookup_insert_eq by (by eapply lookup_lt_Some).
    assert (x = w) as -> by congruence. rewrite Z2Nat.id by lia. split_and!; done.
  - exists x. rewrite list_elem_of_singleton, list_lookup_insert_ne by done. split_and!; try done. lia.
Qed.

(** The indices of the live blocks' instructions, the first block being number [i]. *)
Fixpoint live_flat (d : list bool) (i : Z) (bs : list BasicBlock) : list Z :=
  match bs with
  | [] => []
  | b :: bs => (if del d i then [] else flat (Segments b)) ++ live_flat d (i + 1) bs
  end.

Lemma rewrite_blocks_spec d bs i l : 0 <= i -> i + vec_size bs <= vec_size d ->
  (forall k, k ∈ live_flat d i bs -> 0 <= k < vec_size l) ->
  exists l', rewrite_blocks l m d i bs = Ok l' /\ rewrites m (live_flat d i bs) l l'.
Proof.
  unfold vec_size.
  revert i l. induction bs as [|b bs IH]; intros i l Hi Hd Hr; cbn [rewrite_blocks live_flat length] in *.
  { apply (rewrite_range_spec [] l). by intros k ?%not_elem_of_nil. }
  destruct (lookup_lt_is_Some_2 d (Z.to_nat i)) as [x Hx]; [lia|].
  rewrite (proj2 (vec_at_Ok d i x)) by done. cbn [mbind Res_bind].
  assert (Hdel : del d i = x) by (unfold del; by rewrite Hx). rewrite Hdel in *.
  assert (exists l1, (if x then Ok l else rewrite_range l m (Segments b ≫= seg_indices)) = Ok l1 /\
    rewrites m (if x then [] else flat (Segments b)) l l1) as (l1 & -> & Hl1).
  { destruct x; [apply (rewrite_range_spec [] l); by intros k ?%not_elem_of_nil|].
    apply rewrite_range_spec. intros k Hk. apply Hr. apply elem_of_app. by left. }
  cbn [mbind Res_bind]. destruct (IH (i + 1) l1) as (l2 & -> & Hl2); [lia|lia| |].
  - intros k Hk. rewrite (proj1 Hl1). apply Hr. apply elem_of_app. by right.
  - exists l2. split; [done|]. by eapply rewrites_trans.
Qed.

Lemma elem_live_flat d bs i k : 0 <= i -> k ∈ live_flat d i bs <->
  exists n b, bs !! n = Some b /\ del d (i + Z.of_nat n) = false /\ k ∈ flat (Segments b).
Proof.
  revert i. induction bs as [|b bs IH]; intros i Hi; cbn [live_flat].
  { split; [by intros ?%not_elem_of_nil|by intros (?&?&?&_)]. }
  rewrite elem_of_app, IH by lia. split.
  - intros [Hk|(n & b' & Hn & Hd & Hk)].
    + exists O, b. rewrite Z.add_0_r. destruct (del d i); [by apply not_elem_of_nil in Hk|done].
    + exists (S n), b'. split_and!; try done. by replace (i + Z.of_nat (S n)) with (i + 1 + Z.of_nat n) by lia.
  - intros ([|n] & b' & Hn & Hd & Hk).
    + injection Hn as ->. rewrite Z.add_0_r in Hd. left. by rewrite Hd.
    + right. exists n, b'. split_and!; try done. by replace (i + 1 + Z.of_nat n) with (i + Z.of_nat (S n)) by lia.
Qed.
End rewriting.

Lemma store_edges_spec d succ pred bs i : 0 <= i -> i + vec_size bs <= vec_size d ->
  i + vec_size bs <= vec_size succ -> i + vec_size bs <= vec_size pred ->
  exists bs', store_edges d succ pred i bs = Ok bs' /\ length bs' = length bs /\
    forall n b, bs !! n = Some b -> exists b', bs' !! n = Some b' /\
      Segments b' = Segments b /\
      (del d (i + Z.of_nat n) = false ->
         succ !! Z.to_nat (i + Z.of_nat n) = Some (Successors b') /\
         pred !! Z.to_nat (i + Z.of_nat n) = Some (Predecessors b')).
Proof.
  unfold vec_size.
  revert i. induction bs as [|b bs IH]; intros i Hi Hd Hs Hp; cbn [store_edges length] in *.
  { by exists []. }
  destruct (lookup_lt_is_Some_2 d (Z.to_nat i)) as [x Hx]; [lia|].
  destruct (lookup_lt_is_Some_2 succ (Z.to_nat i)) as [s Hsx]; [lia|].
  destruct (lookup_lt_is_Some_2 pred (Z.to_nat i)) as [p Hpx]; [lia|].
  rewrite (proj2 (vec_at_Ok d i x)), (proj2 (vec_at_Ok succ i s)), (proj2 (vec_at_Ok pred i p)) by done.
  destruct (IH (i + 1)) as (bs' & HE & Hl & Hn); [lia..|].
  assert (Hd0 : del d i = x) by (unfold del; by rewrite Hx).
  exists ((if x then b else SetPredecessors (SetSuccessors b s) p) :: bs').
  split_and!; [by destruct x; cbn [mbind Res_bind]; rewrite HE|cbn; lia|].
  intros [|n] b0 Hb.
  - injection Hb as ->. eexists. split; [done|]. rewrite Z.add_0_r, Hd0.
    destruct x; [done|]. done.
  - destruct (Hn n b0 Hb) as (b' & ? & ? & HH). exists b'. split_and!; try done.
    by replace (i + Z.of_nat (S n)) with (i + 1 + Z.of_nat n) by lia.
Qed.

(** ** The whole pass *)

(** Replacements do not go round in circles: in SSA form the value a phi member
    of a merged edge wraps is available before the phi. *)
Definition members_acyclic : Prop :=
  exists rank : Z -> nat, forall k v w,
    member_entry k v -> member_entry v w -> (rank v < rank k)%nat.

Lemma map_acyclic st ch own : members_acyclic -> merge_inv st ch own ->
  acyclic (ms_value_map st) /\ map_Forall (fun _ x => is_uw 24 x) (ms_value_map st).
Proof.
  intros [rank Hr] Hinv. split.
  - exists rank. intros k v w Hk Hv. eapply Hr; by eapply (mi_map _ _ _ Hinv).
  - intros k v (a & b & n & _ & _ & _ & ->)%(mi_map _ _ _ Hinv). rewrite Arg1_bf.
    apply bf_get_range. lia.
Qed.

(** Block [i] of the result stands for the chain [ch i]. *)
Record chain_block (instrs' : list Z) (bbs' : list BasicBlock) (d' : list bool)
    (ch : Z -> list Z) (own : Z -> Z) (m : gmap Z Z) (i : Z) : Prop := {
  cb_head : exists c, ch i = i :: c;
  cb_nodup : NoDup (ch i);
  cb_link : linked link (ch i);
  cb_maximal : maximal ch i;
  cb_own : forall b, b ∈ ch i -> live0 b /\ own b = i;
  cb_block : exists bb z, bbs' !! Z.to_nat i = Some bb /\ list.last (ch i) = Some z /\
    flat (Segments bb) = body instrs (seg_of bbs) (ch i) /\
    (exists lo, list.last (Segments bb) = Some (lo, (seg_of bbs z).2) /\ lo <= (seg_of bbs z).2) /\
    Successors bb = lsucc z /\ Predecessors bb = own <$> lpred i;
  cb_succs : forall z j, list.last (ch i) = Some z -> j ∈ lsucc z -> del d' j = false;
  cb_preds : forall p, p ∈ lpred i -> list.last (ch (own p)) = Some p;
  cb_instrs : forall k, k ∈ body instrs (seg_of bbs) (ch i) ->
    exists w w', instrs !! Z.to_nat k = Some w /\ instrs' !! Z.to_nat k = Some w' /\
      rewritten m w w';
}.

(** The graph [MergeBasicBlocks] leaves: the chains partition the live blocks. *)
Record merge_result (instrs' : list Z) (bbs' : list BasicBlock) (d' : list bool)
    (ch : Z -> list Z) (own : Z -> Z) (m : gmap Z Z) : Prop := {
  mr_len : length d' = length bbs /\ length bbs' = length bbs /\ length instrs' = length instrs;
  mr_own : forall b, live0 b ->
    in_range bbs (own b) /\ del d' (own b) = false /\ b ∈ ch (own b);
  mr_chain : forall i, in_range bbs i -> del d' i = false ->
    chain_block instrs' bbs' d' ch own m i;
  mr_links : forall a b, link a b -> in_range bbs (own a) /\ del d' (own a) = false /\ next_in (ch (own a)) a b;
  (* the map has the phis of all merged edges, with their operands, and nothing else *)
  mr_map : forall k v, m !! k = Some v -> member_entry k v;
  mr_recorded : forall k v, member_entry k v -> is_Some (m !! k);
  mr_value : forall k v, member_entry k v -> (forall v', member_entry k v' -> v' = v) -> m !! k = Some v;
}.

Lemma live_flat_range st ch own k : cfg_ok -> merge_inv st ch own ->
  k ∈ live_flat (ms_deleted st) 0 (ms_blocks st) -> 0 <= k < vec_size instrs.
Proof.
  intros Hok Hinv (n & b & Hn & Hd & Hk)%elem_live_flat; [|lia]. rewrite Z.add_0_l in Hd.
  assert (Hl : live st (Z.of_nat n)).
  { split; [|done]. apply lookup_lt_Some in Hn. rewrite (mi_blen _ _ _ Hinv) in Hn.
    unfold in_range, vec_size. lia. }
  destruct (mi_chain _ _ _ Hinv _ Hl) as [z Hz]. destruct (ci_segs _ _ _ _ _ Hz) as (bb & Hbb & Hs).
  rewrite Nat2Z.id in Hbb. assert (bb = b) as -> by congruence.
  apply list_elem_of_bind in Hk as ([lo hi] & Hk%elem_seg_indices & Hin).
  destruct (seg_bounds st ch own _ z b _ Hok Hz Hs Hin). cbn in *. lia.
Qed.

Lemma MergeBasicBlocks_result : cfg_ok -> members_acyclic ->
  exists instrs' bbs' d' ch own m,
    MergeBasicBlocks instrs bbs d0 = Ok (instrs', bbs', d') /\
    merge_result instrs' bbs' d' ch own m.
Proof.
  intros Hok Hac. unfold MergeBasicBlocks.
  rewrite live_edges_spec by (apply Hok || apply edge_lists_range, Hok). cbn [mbind Res_bind].
  destruct (merge_all_spec (block_ids bbs) st0 (fun i => [i]) id) as (st & ch & own & E & Hinv & Hmax);
    [done|by apply init_inv|by intros i Hi%elem_of_seqZ|].
  unfold st0 in E. rewrite E. cbn [mbind Res_bind].
  destruct (map_acyclic st ch own Hac Hinv) as [Ha H24].
  destruct (rewrite_blocks_spec (ms_value_map st) Ha H24 (ms_deleted st) (ms_blocks st) 0 instrs)
    as (instrs' & -> & Hlen & Hrw);
    [lia|unfold vec_size; rewrite (mi_blen _ _ _ Hinv), (mi_dlen _ _ _ Hinv); lia|
     intros k; by apply (live_flat_range st ch own)|].
  cbn [mbind Res_bind].
  destruct (store_edges_spec (ms_deleted st) (ms_succ st) (ms_pred st) (ms_blocks st) 0)
    as (bbs' & -> & Hbl & Hst); [lia|unfold vec_size; rewrite (mi_blen _ _ _ Hinv);
      rewrite ?(mi_dlen _ _ _ Hinv), ?(mi_slen _ _ _ Hinv), ?(mi_plen _ _ _ Hinv); lia..|].
  exists instrs', bbs', (ms_deleted st), ch, own, (ms_value_map st). split; [done|].
  assert (forall a b, link a b -> live st (own a) /\ next_in (ch (own a)) a b) as Hlinks.
  { intros a b. apply (link_neighbours st); [done|done|]. intros i [Hi Hd]. apply (Hmax i (conj Hi Hd)). left. by apply elem_of_seqZ. }
  assert (forall k v, member_entry k v -> is_Some (ms_value_map st !! k)) as Hrec.
  { intros k v (a & b & n & Hab & Hn & -> & _). destruct (Hlinks a b Hab) as [Hl Hx].
    by apply (mi_recorded _ _ _ Hinv _ a b Hl Hx). }
  split; [split_and!; [apply Hinv|rewrite Hbl; apply Hinv|done]| | | |apply Hinv|done|].
  { intros b Hb. destruct (mi_own _ _ _ Hinv b Hb) as [[? ?] ?]. done. }
  2: { intros a b Hab. by destruct (Hlinks a b Hab) as [[? ?] ?]. }
  2: { intros k v Hkv Hu. destruct (Hrec k v Hkv) as [v' Hv']. rewrite Hv'. f_equal. apply Hu. by apply (mi_map _ _ _ Hinv). }
  intros i Hi Hd. destruct (mi_chain _ _ _ Hinv i (conj Hi Hd)) as [z Hz].
  destruct (ci_segs _ _ _ _ _ Hz) as (bb & Hbb & Hs). pose proof Hi as [Hi0 _].
  split; try apply Hz.
  - apply (Hmax i (conj Hi Hd)). left. by apply elem_of_seqZ.
  - destruct (Hst _ _ Hbb) as (b' & Hb' & Hseg & Hed). rewrite Z.add_0_l, Z2Nat.id in Hed by lia.
    destruct (Hed Hd) as [Hsu Hpr]. rewrite (ci_succ _ _ _ _ _ Hz) in Hsu.
    rewrite (ci_pred _ _ _ _ _ Hz) in Hpr. injection Hsu as Hsu. injection Hpr as Hpr.
    exists b', z. rewrite Hseg. split_and!; try done; [apply Hz|apply Hs|].
    destruct (si_last _ _ _ _ _ _ Hs) as (lo & Hlo & _). exists lo. split; [done|].
    pose proof (si_nonempty _ _ _ _ _ _ Hs) as Hne. apply last_Some in Hlo as [l' El].
    rewrite El in Hne. apply Forall_app in Hne as [_ Hne]. exact (Forall_inv Hne).
  - intros z' j Hz' Hj. rewrite (ci_last _ _ _ _ _ Hz) in Hz'. injection Hz' as <-.
    by apply (succ_live st ch own Hok Hinv i z j Hz Hj).
  - intros p Hp. apply (pred_last st ch own Hok Hinv i p (conj Hi Hd) Hp).
  - intros k Hk. assert (Hin : k ∈ live_flat (ms_deleted st) 0 (ms_blocks st)).
    { apply elem_live_flat; [lia|]. exists (Z.to_nat i), bb. rewrite Z.add_0_l, Z2Nat.id by lia.
      split_and!; try done. by rewrite (si_body _ _ _ _ _ _ Hs). }
    pose proof (live_flat_range st ch own k Hok Hinv Hin) as Hr. unfold vec_size in Hr.
    destruct (lookup_lt_is_Some_2 instrs (Z.to_nat k)) as [w Hw]; [lia|].
    destruct (Hrw _ _ Hw) as (w' & Hw' & Hyes & _). exists w, w'. split_and!; try done.
    apply Hyes. by rewrite Z2Nat.id by lia.
Qed.
End graph.

