(* ===== verification/CfgOutput.v ===== *)
(** * The result of control-flow simplification

    [CFGSimplify] of src/khir/cfg_simplify.cc from end to end: the blocks that
    are left are renumbered in order, their terminators name the new numbers,
    and the output is again a control-flow graph with the entry block first. *)
From S2P Require Import Prelude Opcode Instruction FunctionBuilder CfgSimplify CfgMerge.

(** ** Numbering *)

(** The live blocks in order, the first entry being block [i]. *)
Fixpoint live_ids (deleted : list bool) (i : Z) : list Z :=
  match deleted with
  | [] => []
  | true :: deleted => live_ids deleted (i + 1)
  | false :: deleted => i :: live_ids deleted (i + 1)
  end.

Lemma live_ids_spec d i x : x ∈ live_ids d i <->
  i <= x < i + vec_size d /\ d !! Z.to_nat (x - i) = Some false.
Proof.
  unfold vec_size. revert i. induction d as [|b d IH]; intros i; cbn [live_ids length].
  { split; [by intros ?%not_elem_of_nil|lia]. }
  assert (Hs : forall b', i + 1 <= x ->
    (b' :: d) !! Z.to_nat (x - i) = d !! Z.to_nat (x - (i + 1))).
  { intros b' ?. by replace (Z.to_nat (x - i)) with (S (Z.to_nat (x - (i + 1)))) by lia. }
  destruct b; rewrite ?elem_of_cons, IH.
  - split.
    + intros [? ?]. rewrite Hs by lia. split; [lia|done].
    + intros [? H]. destruct (decide (x = i)) as [->|]; [by rewrite Z.sub_diag in H|].
      rewrite Hs in H by lia. split; [lia|done].
  - split.
    + intros [->|[? ?]]; [rewrite Z.sub_diag; split; [lia|done]|]. rewrite Hs by lia. split; [lia|done].
    + intros [? H]. destruct (decide (x = i)) as [->|]; [by left|right].
      rewrite Hs in H by lia. split; [lia|done].
Qed.

Lemma live_ids_ge d i n x : live_ids d i !! n = Some x -> i + Z.of_nat n <= x.
Proof.
  revert i n. induction d as [|[] d IH]; intros i n; cbn [live_ids]; [done| |].
  - intros H%IH. lia.
  - destruct n as [|n]; [intros [= ->]; lia|]. intros H%IH. lia.
Qed.

Lemma live_ids_nodup d i : NoDup (live_ids d i).
Proof.
  revert i. induction d as [|[] d IH]; intros i; cbn [live_ids]; [apply NoDup_nil_2|done|].
  apply list.NoDup_cons. split; [|done]. rewrite live_ids_spec. lia.
Qed.

(** [bb_idx] maps a live block to its position. *)
Lemma number_blocks_spec d i new x k : number_blocks d i new !! x = Some k <->
  exists n, k = new + Z.of_nat n /\ live_ids d i !! n = Some x.
Proof.
  revert i new. induction d as [|[] d IH]; intros i new; cbn [number_blocks live_ids].
  - rewrite lookup_empty. split; [done|by intros (n & _ & ?)].
  - apply IH.
  - rewrite lookup_insert_Some, IH. split.
    + intros [[<- <-]|[_ (n & -> & Hn)]]; [exists O; split; [lia|done]|].
      exists (S n). split; [lia|done].
    + intros ([|n] & -> & Hn).
      * injection Hn as ->. left. split; [done|lia].
      * right. split; [|exists n; split; [lia|done]].
        assert (x ∈ live_ids d (i + 1)) as Hx%live_ids_spec by (by eapply list_elem_of_lookup_2).
        lia.
Qed.

Lemma number_blocks_live d x : x ∈ live_ids d 0 -> exists k,
  number_blocks d 0 0 !! x = Some k /\ 0 <= k <= x /\ live_ids d 0 !! Z.to_nat k = Some x.
Proof.
  intros [n Hn]%list_elem_of_lookup_1. exists (Z.of_nat n). pose proof (live_ids_ge _ _ _ _ Hn).
  split_and!; [|lia|lia|by rewrite Nat2Z.id]. apply number_blocks_spec. by exists n.
Qed.

Section output.
Context (d : list bool).
Local Abbreviation heads := (live_ids d 0).

(** Block [t] of the old numbering is block [k] of the new one. *)
Definition at_pos (t k : Z) : Prop := 0 <= k /\ heads !! Z.to_nat k = Some t.

Lemma at_pos_fun l k1 k2 : Forall2 at_pos l k1 -> Forall2 at_pos l k2 -> k1 = k2.
Proof.
  intros H. revert k2. induction H as [|t k l ks [Hk0 Hk] _ IH]; intros k2 H2.
  { by apply Forall2_nil_inv_l in H2. }
  apply Forall2_cons_inv_l in H2 as (k' & ks' & [Hk0' Hk'] & H2 & ->).
  f_equal; [|by apply IH].
  pose proof (NoDup_lookup _ _ _ _ (live_ids_nodup d 0) Hk Hk'). lia.
Qed.

Lemma head_live x : x ∈ heads -> vec_at d x = Ok false.
Proof.
  intros [? H]%live_ids_spec. rewrite Z.sub_0_r in H. apply vec_at_Ok. split; [lia|done].
Qed.

Lemma bb_at_head x : x ∈ heads -> exists k,
  bb_at (number_blocks d 0 0) x = Ok k /\ at_pos x k /\ k <= x.
Proof.
  intros (k & Hk & ? & ?)%number_blocks_live. exists k. unfold bb_at. rewrite Hk.
  split; [done|]. split; [split; [lia|done]|lia].
Qed.

Lemma renumber_spec l : (forall x, x ∈ l -> x ∈ heads) ->
  exists ks, renumber d (number_blocks d 0 0) l = Ok ks /\ Forall2 at_pos l ks.
Proof.
  induction l as [|x l IH]; intros Hl; cbn [renumber]; [by exists []|].
  rewrite head_live by (apply Hl; by left). cbn [mbind Res_bind].
  destruct (bb_at_head x) as (k & -> & Hk & _); [apply Hl; by left|]. cbn [mbind Res_bind].
  destruct IH as (ks & -> & Hks); [intros; apply Hl; by right|].
  exists (k :: ks). split; [done|]. by constructor.
Qed.

Definition end_of (b : BasicBlock) : Z := default (-1) (snd <$> list.last (Segments b)).

(** A block that can be renumbered: its edges lead to live blocks and it ends in
    a terminator that names its successors. *)
Record ready (l : list Z) (b : BasicBlock) : Prop := {
  rd_pred : forall x, x ∈ Predecessors b -> x ∈ heads;
  rd_succ : forall x, x ∈ Successors b -> x ∈ heads;
  rd_end : 0 <= end_of b;
  rd_term : exists w, l !! Z.to_nat (end_of b) = Some w /\ terminates w = true /\
    targets w = Successors b;
}.

(** A terminator with other targets. *)
Definition retarget (w : Z) (ks : list Z) : Z :=
  match ks with
  | [] => w
  | [k] => Type5_SetMarg0 w k
  | k1 :: k2 :: _ => Type5_SetMarg1 (Type5_SetMarg0 w k1) k2
  end.

(** The renumbered block, the words going from [l] to [l']. *)
Record renumbered (l l' : list Z) (b b' : BasicBlock) : Prop := {
  rn_segs : Segments b' = Segments b;
  rn_pred : Forall2 at_pos (Predecessors b) (Predecessors b');
  rn_succ : Forall2 at_pos (Successors b) (Successors b');
  rn_term : exists w, l !! Z.to_nat (end_of b) = Some w /\
    l' !! Z.to_nat (end_of b) = Some (retarget w (Successors b')) /\
    terminates (retarget w (Successors b')) = true /\ targets (retarget w (Successors b')) = Successors b';
}.

Lemma terminates_cases w : terminates w = true ->
  (instr_opcode w = Some BR /\ targets w = [Type5_Marg0 w]) \/
  (instr_opcode w = Some CONDBR /\ targets w = [Type5_Marg0 w; Type5_Marg1 w]) \/
  ((instr_opcode w = Some RETURN \/ instr_opcode w = Some RETURN_VALUE) /\ targets w = []).
Proof.
  unfold terminates, targets, instr_opcode. destruct (OpcodeFrom _) as [[]|]; try done; auto.
Qed.

Lemma marg_fits w k : 0 <= k <= Type5_Marg0 w \/ 0 <= k <= Type5_Marg1 w -> is_uw 12 k.
Proof.
  autorewrite with bitfield. pose proof (bf_get_range 20 12 ltac:(lia) w).
  pose proof (bf_get_range 8 12 ltac:(lia) w). unfold is_uw in *. lia.
Qed.

Lemma targets_br w k : instr_opcode w = Some BR -> is_uw 12 k ->
  terminates (Type5_SetMarg0 w k) = true /\ targets (Type5_SetMarg0 w k) = [k].
Proof.
  unfold instr_opcode, terminates, targets. intros Ho Hk. bf_simpl.
  rewrite Opcode_bf in Ho. rewrite Ho. split; [done|]. by rewrite uw_id.
Qed.

Lemma targets_condbr w k1 k2 : instr_opcode w = Some CONDBR -> is_uw 12 k1 -> is_uw 12 k2 ->
  terminates (Type5_SetMarg1 (Type5_SetMarg0 w k1) k2) = true /\
  targets (Type5_SetMarg1 (Type5_SetMarg0 w k1) k2) = [k1; k2].
Proof.
  unfold instr_opcode, terminates, targets. intros Ho H1 H2. bf_simpl.
  rewrite Opcode_bf in Ho. rewrite Ho. split; [done|]. by rewrite !uw_id.
Qed.

Lemma RewriteBlock_spec l b : ready l b -> exists b' l',
  RewriteBlock b l d (number_blocks d 0 0) = Ok (b', l') /\ renumbered l l' b b' /\
  length l' = length l /\ forall k, k <> Z.to_nat (end_of b) -> l' !! k = l !! k.
Proof.
  intros [Hp Hs He (w & Hw & Ht & Htg)]. unfold RewriteBlock.
  destruct (renumber_spec _ Hp) as (ps & -> & Hps). cbn [mbind Res_bind].
  destruct (renumber_spec _ Hs) as (ss & -> & Hss). cbn [mbind Res_bind Segments].
  unfold end_of in *.
  change (Segments (SetSuccessors (SetPredecessors b ps) ss)) with (Segments b).
  destruct (list.last (Segments b)) as [[lo e]|] eqn:El; cbn in He; [|lia].
  cbn [mbind Res_bind opt_ub fmap option_fmap option_map default snd] in *.
  rewrite (proj2 (vec_at_Ok l e w)) by done. cbn [mbind Res_bind].
  change (OpcodeFrom (Type5_Opcode w)) with (instr_opcode w).
  assert (Hfin : forall w', w' = retarget w ss -> terminates w' = true -> targets w' = ss -> exists b' l',
    Ok (SetSuccessors (SetPredecessors b ps) ss, <[Z.to_nat e := w']> l) = Ok (b', l') /\
    renumbered l l' b b' /\ length l' = length l /\
    forall k, k <> Z.to_nat e -> l' !! k = l !! k).
  { intros w' -> Hw1 Hw2. eexists _, _. split; [done|]. split_and!; [|apply length_insert|].
    - split; try done. exists w. unfold end_of. rewrite El. cbn.
      rewrite list_lookup_insert_eq by (by eapply lookup_lt_Some). done.
    - intros k Hk. by rewrite list_lookup_insert_ne by done. }
  destruct (terminates_cases w Ht) as [[Ho E]|[[Ho E]|[Ho E]]]; rewrite E in Htg;
    rewrite <- Htg in Hs, Hss.
  - rewrite Ho. destruct (bb_at_head (Type5_Marg0 w)) as (k & -> & Hk & Hle); [apply Hs; by left|].
    cbn [mbind Res_bind]. rewrite (vec_set_lookup l e _ w) by done. cbn [mbind Res_bind].
    destruct (targets_br w k Ho) as [? Et]; [apply (marg_fits w); left; split; [apply Hk|done]|].
    assert ([k] = ss) as Ess by (eapply at_pos_fun; [|done]; by repeat constructor; apply Hk).
    apply Hfin; [by rewrite <- Ess|done|by rewrite Et].
  - rewrite Ho. destruct (bb_at_head (Type5_Marg0 w)) as (k1 & -> & Hk1 & Hle1); [apply Hs; by left|].
    cbn [mbind Res_bind].
    destruct (bb_at_head (Type5_Marg1 w)) as (k2 & -> & Hk2 & Hle2); [apply Hs; right; by left|].
    cbn [mbind Res_bind]. rewrite (vec_set_lookup l e _ w) by done. cbn [mbind Res_bind].
    destruct (targets_condbr w k1 k2 Ho) as [? Et];
      [apply (marg_fits w); left; split; [apply Hk1|done]|
       apply (marg_fits w); right; split; [apply Hk2|done]|].
    assert ([k1; k2] = ss) as Ess by (eapply at_pos_fun; [|done]; by repeat constructor; apply Hk1 || apply Hk2).
    apply Hfin; [by rewrite <- Ess|done|by rewrite Et].
  - apply Forall2_nil_inv_l in Hss as ->.
    pose proof (Hfin w eq_refl Ht E) as Hret. rewrite (list_insert_id l (Z.to_nat e) w Hw) in Hret.
    by destruct Ho as [-> | ->].
Qed.

Lemma ready_frame l l' b : (l' !! Z.to_nat (end_of b) = l !! Z.to_nat (end_of b)) ->
  ready l b -> ready l' b.
Proof. intros E [? ? ? (w & ? & ? & ?)]. split; try done. exists w. by rewrite E. Qed.

Lemma renumbered_frame l1 l1' l l' b b' : l !! Z.to_nat (end_of b) = l1 !! Z.to_nat (end_of b) ->
  l' !! Z.to_nat (end_of b) = l1' !! Z.to_nat (end_of b) ->
  renumbered l1 l1' b b' -> renumbered l l' b b'.
Proof. intros E E' [? ? ? (w & ? & ? & ?)]. split; try done. exists w. by rewrite E, E'. Qed.

(** The live blocks of [bs], whose first element is block [i]. *)
Definition live_block (i : Z) (bs : list BasicBlock) (x : Z) (b : BasicBlock) : Prop :=
  i <= x /\ bs !! Z.to_nat (x - i) = Some b /\ del d x = false.

Lemma live_block_tail i b0 bs x b : 0 <= i ->
  live_block (i + 1) bs x b -> live_block i (b0 :: bs) x b.
Proof.
  intros ? (? & Hb & ?). split_and!; [lia| |done].
  by replace (Z.to_nat (x - i)) with (S (Z.to_nat (x - (i + 1)))) by lia.
Qed.

Lemma live_ids_drop i (x : bool) : 0 <= i -> d !! Z.to_nat i = Some x ->
  live_ids (drop (Z.to_nat i) d) i =
    (if x then [] else [i]) ++ live_ids (drop (Z.to_nat (i + 1)) d) (i + 1).
Proof.
  intros ? Hx. rewrite (drop_S _ _ _ Hx). replace (S (Z.to_nat i)) with (Z.to_nat (i + 1)) by lia.
  by destruct x.
Qed.

Lemma output_blocks_spec bs i l : 0 <= i -> i + vec_size bs = vec_size d ->
  (forall x b, live_block i bs x b -> ready l b) ->
  (forall x y b b', live_block i bs x b -> live_block i bs y b' -> end_of b = end_of b' -> x = y) ->
  exists l' out, output_blocks l d (number_blocks d 0 0) i bs = Ok (l', out) /\
    length l' = length l /\
    Forall2 (fun x b' => exists b, live_block i bs x b /\ renumbered l l' b b')
      (live_ids (drop (Z.to_nat i) d) i) out /\
    (forall k, (forall x b, live_block i bs x b -> k <> Z.to_nat (end_of b)) -> l' !! k = l !! k).
Proof.
  unfold vec_size. revert i l. induction bs as [|b bs IH]; intros i l Hi Hlen Hready Hends.
  { cbn in Hlen. exists l, []. rewrite drop_ge by lia. by split_and!. }
  cbn [length] in Hlen. cbn [output_blocks].
  destruct (lookup_lt_is_Some_2 d (Z.to_nat i)) as [x Hx]; [lia|].
  rewrite (proj2 (vec_at_Ok d i x)) by done. cbn [mbind Res_bind].
  rewrite (live_ids_drop i x) by done.
  assert (Hself : x = false -> live_block i (b :: bs) i b).
  { intros ->. split_and!; [lia|by rewrite Z.sub_diag|]. unfold del. by rewrite Hx. }
  assert (Hnext : forall y b', live_block (i + 1) bs y b' -> live_block i (b :: bs) y b')
    by (intros; by apply live_block_tail).
  destruct x.
  - destruct (IH (i + 1) l) as (l' & out & -> & Hl & Hf & Hfr); [lia|lia|eauto|eauto|].
    exists l', out. split_and!; try done.
    + eapply Forall2_impl; [|exact Hf]. intros y b' (b0 & ? & ?). eauto.
    + intros k Hk. apply Hfr. eauto.
  - specialize (Hself eq_refl).
    destruct (RewriteBlock_spec l b) as (b' & l1 & -> & Hren & Hl1 & Hfr1); [by eapply Hready|].
    cbn [mbind Res_bind].
    assert (Hne : forall y b0, live_block (i + 1) bs y b0 ->
      0 <= end_of b0 /\ Z.to_nat (end_of b0) <> Z.to_nat (end_of b)).
    { intros y b0 Hy. pose proof (rd_end _ _ (Hready _ _ (Hnext _ _ Hy))).
      pose proof (rd_end _ _ (Hready _ _ Hself)). split; [done|]. intros E.
      pose proof (Hends _ _ _ _ Hself (Hnext _ _ Hy) ltac:(lia)). destruct Hy. lia. }
    destruct (IH (i + 1) l1) as (l' & out & -> & Hl & Hf & Hfr); [lia|lia| |eauto|].
    { intros y b0 Hy. apply (ready_frame l); [|eauto]. by apply Hfr1, (Hne y b0). }
    exists l', (b' :: out). split_and!; [done|congruence| |].
    + constructor.
      * exists b. split; [done|]. apply (renumbered_frame l l1); [done| |done]. apply Hfr.
        intros y b0 Hy. destruct (Hne y b0 Hy). done.
      * eapply Forall2_impl; [|exact Hf]. intros y b0 (b1 & Hy & ?). exists b1. split; [eauto|].
        apply (renumbered_frame l1 l'); [|done|done]. symmetry. by apply Hfr1, (Hne y b1).
    + intros k Hk. rewrite Hfr by eauto. apply Hfr1. eauto.
Qed.
End output.

(** ** The pass from end to end *)
Section simplify.
Context (instrs : list Z) (bbs : list BasicBlock) (d : list bool).

(** The input of the pass, [d] being the blocks [GetDeletedBlocks] drops: besides
    what merging needs, each live block's terminator names its successors and
    no two live blocks share a terminator. *)
Record simplify_ok : Prop := {
  so_deleted : GetDeletedBlocks bbs = Ok d;
  so_entry : bbs <> [] /\ preds bbs 0 = [];
  so_cfg : cfg_ok instrs bbs d;
  so_acyclic : members_acyclic instrs bbs d;
  so_targets : forall b w, live0 bbs d b ->
    instrs !! Z.to_nat (seg_of bbs b).2 = Some w -> targets w = succs bbs b;
  so_ends : forall a b, live0 bbs d a -> live0 bbs d b ->
    (seg_of bbs a).2 = (seg_of bbs b).2 -> a = b;
}.

(** Block [k] of the output, which stands for the chain [c]. *)
Record out_block (heads : list Z) (instrs' : list Z) (m : gmap Z Z) (bb : BasicBlock) (c : list Z) : Prop := {
  ob_live : forall b, b ∈ c -> live0 bbs d b;
  ob_link : linked (link bbs d) c;
  ob_body : flat (Segments bb) = body instrs (seg_of bbs) c;
  ob_end : exists z w w1 w', list.last c = Some z /\ end_of bb = (seg_of bbs z).2 /\
    instrs !! Z.to_nat (end_of bb) = Some w /\ rewritten m w w1 /\ w' = retarget w1 (Successors bb) /\
    instrs' !! Z.to_nat (end_of bb) = Some w' /\ terminates w' = true /\ targets w' = Successors bb /\
    Forall2 (fun t k => 0 <= k /\ heads !! Z.to_nat k = Some t) (succs bbs z) (Successors bb);
}.

(** The output of the pass: [heads] are the first blocks of the chains, [m] maps the phis
    of the merged edges to their values. *)
Record simplify_result (instrs' : list Z) (out : list BasicBlock) (heads : list Z)
    (ch : Z -> list Z) (m : gmap Z Z) : Prop := {
  sr_entry : heads !! O = Some 0;
  sr_blocks : Forall2 (fun i bb =>
    (exists c, ch i = i :: c) /\ out_block heads instrs' m bb (ch i)) heads out;
  sr_cover : forall b, live0 bbs d b -> exists i, i ∈ heads /\ b ∈ ch i /\
    forall i', i' ∈ heads -> b ∈ ch i' -> i' = i;
  (* every edge that can be merged is: its ends are neighbours in a chain *)
  sr_merged : forall a b, link bbs d a b -> exists i, i ∈ heads /\ next_in (ch i) a b;
  (* the phis of these edges are replaced by the operands of their members *)
  sr_map : forall k v, m !! k = Some v -> member_entry instrs bbs d k v;
  sr_recorded : forall k v, member_entry instrs bbs d k v -> is_Some (m !! k);
  sr_value : forall k v, member_entry instrs bbs d k v ->
    (forall v', member_entry instrs bbs d k v' -> v' = v) -> m !! k = Some v;
  (* in every instruction that does not end a block *)
  sr_instrs : forall i k, i ∈ heads -> k ∈ body instrs (seg_of bbs) (ch i) ->
    (forall bb, bb ∈ out -> Z.to_nat k <> Z.to_nat (end_of bb)) ->
    exists w w', instrs !! Z.to_nat k = Some w /\ instrs' !! Z.to_nat k = Some w' /\ rewritten m w w';
  sr_edges : edges_ok out;
}.

Context (Hok : simplify_ok).

Lemma live0_dead b : in_range bbs b -> live0 bbs d b <-> ~ Dead bbs b.
Proof.
  intros Hb. destruct (GetDeletedBlocks_correct bbs (co_edges _ _ _ (so_cfg Hok))) as (d1 & E & _ & Hd).
  rewrite (so_deleted Hok) in E. injection E as <-. unfold live0. rewrite <- (Hd b Hb).
  destruct (del d b); intuition congruence.
Qed.

(** A live block's successors are live. *)
Lemma lsucc_all b : live0 bbs d b -> lsucc bbs d b = succs bbs b.
Proof.
  intros Hb. apply list_filter_all. intros x Hx.
  pose proof (co_edges _ _ _ (so_cfg Hok)) as He. pose proof (succs_range bbs He _ _ Hx) as [? Hr].
  destruct (del d x) eqn:E; [exfalso|done].
  assert (~ ~ Dead bbs x) as HD by (rewrite <- live0_dead by done; intros [_ ?]; congruence).
  apply HD. intros HDx. apply (proj1 (live0_dead b ltac:(done)) Hb).
  inversion HDx as [? _ _ Hp]. subst. apply Hp. by apply succs_preds.
Qed.

Lemma entry_live : live0 bbs d 0.
Proof.
  destruct (so_entry Hok) as [Hne Hp].
  assert (in_range bbs 0) as Hr by (unfold in_range, vec_size; destruct bbs; [done|cbn; lia]).
  apply live0_dead; [done|]. intros HD. inversion HD as [? _ [H|H] _]; congruence.
Qed.

Section merged.
Context (instrs1 : list Z) (bbs1 : list BasicBlock) (d1 : list bool).
Context (ch : Z -> list Z) (own : Z -> Z) (m : gmap Z Z).
Context (Hmr : merge_result instrs bbs d instrs1 bbs1 d1 ch own m).

Lemma elem_heads i : i ∈ live_ids d1 0 <-> in_range bbs i /\ del d1 i = false.
Proof.
  destruct (mr_len _ _ _ _ _ _ _ _ _ Hmr) as (Hl & _ & _).
  rewrite live_ids_spec, Z.sub_0_r, Z.add_0_l. unfold in_range, vec_size, del. rewrite Hl.
  split.
  - intros [? E]. by rewrite E.
  - intros [? E]. split; [done|]. destruct (lookup_lt_is_Some_2 d1 (Z.to_nat i)) as [x Hx]; [lia|].
    by rewrite Hx in *; cbn in E; subst.
Qed.

Lemma head_chain i : i ∈ live_ids d1 0 -> chain_block instrs bbs d instrs1 bbs1 d1 ch own m i.
Proof. intros [? ?]%elem_heads. by apply (mr_chain _ _ _ _ _ _ _ _ _ Hmr). Qed.

Lemma rewritten_targets a b : rewritten m a b -> terminates a = true ->
  terminates b = true /\ targets b = targets a.
Proof.
  intros (Ho & _ & Hg) Ht. split; [unfold terminates in *; unfold instr_opcode in Ho; by rewrite Ho|].
  pose proof (terminates_cases a Ht) as Hc. unfold group_of in Hg.
  unfold targets. change (OpcodeFrom (GenericInstructionReader_Opcode b)) with (instr_opcode b).
  change (OpcodeFrom (GenericInstructionReader_Opcode a)) with (instr_opcode a). rewrite Ho.
  destruct Hc as [[E _]|[[E _]|[[E|E] _]]]; rewrite E in *; cbn in Hg; try done.
  - by rewrite Hg.
  - by destruct Hg as (_ & -> & ->).
Qed.

(** The terminator of a block the merge leaves. *)
Lemma head_end i z : i ∈ live_ids d1 0 -> list.last (ch i) = Some z ->
  exists w w1, instrs !! Z.to_nat (seg_of bbs z).2 = Some w /\ instrs1 !! Z.to_nat (seg_of bbs z).2 = Some w1 /\
    rewritten m w w1.
Proof.
  intros Hi Hz. pose proof (head_chain i Hi) as Hc.
  destruct (cb_block _ _ _ _ _ _ _ _ _ _ Hc) as (bb & z' & _ & Hz' & Hb & (lo & Hlo & Hle) & _).
  assert (z' = z) as -> by congruence. apply (cb_instrs _ _ _ _ _ _ _ _ _ _ Hc).
  rewrite <- Hb. apply list_elem_of_bind. exists (lo, (seg_of bbs z).2).
  split; [by apply elem_seg_indices|]. by apply last_Some_elem_of.
Qed.

(** Every block the merge leaves can be renumbered. *)
Lemma head_ready i : i ∈ live_ids d1 0 -> exists bb z, bbs1 !! Z.to_nat i = Some bb /\
  list.last (ch i) = Some z /\ live0 bbs d z /\ own z = i /\
  flat (Segments bb) = body instrs (seg_of bbs) (ch i) /\ end_of bb = (seg_of bbs z).2 /\
  Successors bb = succs bbs z /\ Predecessors bb = own <$> lpred bbs d i /\
  ready d1 instrs1 bb.
Proof.
  intros Hi. pose proof (head_chain i Hi) as Hc. pose proof (so_cfg Hok) as Hcfg.
  destruct (cb_block _ _ _ _ _ _ _ _ _ _ Hc) as (bb & z & Hbb & Hz & Hb & (lo & Hlo & Hle) & Hs & Hp).
  destruct (cb_own _ _ _ _ _ _ _ _ _ _ Hc z) as [Hz0 Hoz]; [by apply last_Some_elem_of|].
  assert (Hend : end_of bb = (seg_of bbs z).2) by (unfold end_of; by rewrite Hlo).
  rewrite (lsucc_all z Hz0) in Hs. destruct (co_seg _ _ _ Hcfg z Hz0) as [_ (Hse & _ & w & Hw & Ht)].
  exists bb, z. split_and!; try done. split.
  - rewrite Hp. intros x (p & -> & Hpx)%list_elem_of_fmap.
    destruct (cb_own _ _ _ _ _ _ _ _ _ _ Hc i) as [Hi0 _].
    { destruct (cb_head _ _ _ _ _ _ _ _ _ _ Hc) as [c ->]. by left. }
    destruct (lpred_lsucc instrs bbs d Hcfg p i Hi0 Hpx) as [Hp0 _].
    apply elem_heads. by destruct (mr_own _ _ _ _ _ _ _ _ _ Hmr p Hp0) as (? & ? & _).
  - rewrite Hs, <- (lsucc_all z Hz0). intros x Hx. apply elem_heads.
    split; [|by eapply (cb_succs _ _ _ _ _ _ _ _ _ _ Hc)].
    by apply (lsucc_lpred instrs bbs d Hcfg z x Hz0 Hx).
  - rewrite Hend. lia.
  - destruct (head_end i z Hi Hz) as (w0 & w' & Hw0 & Hw' & Hrw).
    assert (w0 = w) as -> by congruence. destruct (rewritten_targets w w' Hrw Ht) as [? Htg].
    exists w'. rewrite Hend. split_and!; try done. rewrite Htg, Hs. by apply (so_targets Hok).
Qed.

Lemma output_result : exists instrs' out,
  output_blocks instrs1 d1 (number_blocks d1 0 0) 0 bbs1 = Ok (instrs', out) /\
  Forall2 (fun i bb => exists b1, bbs1 !! Z.to_nat i = Some b1 /\ renumbered d1 instrs1 instrs' b1 bb)
    (live_ids d1 0) out /\
  forall k, (forall bb, bb ∈ out -> k <> Z.to_nat (end_of bb)) -> instrs' !! k = instrs1 !! k.
Proof.
  destruct (mr_len _ _ _ _ _ _ _ _ _ Hmr) as (Hl & Hl1 & _).
  assert (Hlb : forall x b, live_block d1 0 bbs1 x b -> x ∈ live_ids d1 0 /\ bbs1 !! Z.to_nat x = Some b).
  { intros x b (? & Hb & Hd). rewrite Z.sub_0_r in Hb. split; [|done]. apply elem_heads.
    split; [|done]. apply lookup_lt_Some in Hb. unfold in_range, vec_size. lia. }
  destruct (output_blocks_spec d1 bbs1 0 instrs1) as (l' & out & E & _ & Hf & Hfr).
  - lia.
  - unfold vec_size. lia.
  - intros x b [Hx Hb]%Hlb. destruct (head_ready x Hx) as (bb & z & Hbb & _ & _ & _ & _ & _ & _ & _ & Hr).
    by assert (bb = b) as <- by congruence.
  - intros x y b b' [Hx Hb]%Hlb [Hy Hb']%Hlb Hee.
    destruct (head_ready x Hx) as (bb & z & Hbb & _ & Hz & Ho & _ & He & _).
    destruct (head_ready y Hy) as (bb' & z' & Hbb' & _ & Hz' & Ho' & _ & He' & _).
    assert (bb = b) as -> by congruence. assert (bb' = b') as -> by congruence.
    rewrite <- Ho, <- Ho'. f_equal. apply (so_ends Hok); [done..|congruence].
  - exists l', out. split; [done|]. split.
    { eapply Forall2_impl; [|exact Hf]. intros x b' (b & [_ ?]%Hlb & ?). eauto. }
    intros k Hk. apply Hfr. intros x b Hb. pose proof (Hlb x b Hb) as [Hx Hxb]. apply list_elem_of_lookup_1 in Hx as [n Hn].
    change (drop (Z.to_nat 0) d1) with d1 in Hf. destruct (Forall2_lookup_l _ _ _ _ _ Hf Hn) as (b' & Hb' & b0 & [_ Hb0]%Hlb & Hr).
    assert (b0 = b) as -> by congruence. replace (end_of b) with (end_of b') by (unfold end_of; by rewrite (rn_segs _ _ _ _ _ Hr)).
    apply Hk. by eapply list_elem_of_lookup_2.
Qed.

(** *** The edges of the output *)
Definition pos (k : Z) : option Z := if k <? 0 then None else live_ids d1 0 !! Z.to_nat k.

Lemma at_pos_pos t k : at_pos d1 t k <-> pos k = Some t.
Proof.
  unfold at_pos, pos. destruct (Z.ltb_spec k 0); [split; [lia|done]|]. intuition.
Qed.

Lemma count_pos l ks k : Forall2 (at_pos d1) l ks ->
  count_occ Z.eq_dec ks k = match pos k with Some t => count_occ Z.eq_dec l t | None => O end.
Proof.
  induction 1 as [|t0 k0 l ks Hp H IH]; cbn; [by destruct (pos k)|].
  apply at_pos_pos in Hp. destruct (Z.eq_dec k0 k) as [->|Hne].
  - rewrite Hp in *. rewrite IH. by destruct (Z.eq_dec t0 t0).
  - rewrite IH. destruct (pos k) as [t|] eqn:Ek; [|done].
    destruct (Z.eq_dec t0 t) as [->|]; [|done]. exfalso. apply Hne.
    unfold pos in Hp, Ek. destruct (Z.ltb_spec k0 0), (Z.ltb_spec k 0); try done.
    pose proof (NoDup_lookup _ _ _ _ (live_ids_nodup d1 0) Hp Ek). lia.
Qed.

Lemma count_filter (P : Z -> Prop) `{!forall x, Decision (P x)} l x : P x ->
  count_occ Z.eq_dec (filter P l) x = count_occ Z.eq_dec l x.
Proof.
  intros Hx. induction l as [|y l IH]; [done|]. rewrite filter_cons.
  case_decide; cbn; rewrite IH; destruct (Z.eq_dec y x); congruence.
Qed.

Lemma count_own i z n : i ∈ live_ids d1 0 -> n ∈ live_ids d1 0 -> list.last (ch i) = Some z ->
  own z = i -> count_occ Z.eq_dec (own <$> lpred bbs d n) i = count_occ Z.eq_dec (lpred bbs d n) z.
Proof.
  intros Hi Hn Hz Ho. pose proof (cb_preds _ _ _ _ _ _ _ _ _ _ (head_chain n Hn)) as Hp.
  induction (lpred bbs d n) as [|p l IH]; [done|]. cbn.
  rewrite IH by (intros; apply Hp; by right).
  destruct (Z.eq_dec (own p) i) as [E|E], (Z.eq_dec p z) as [E'|E']; try done; [|congruence].
  pose proof (Hp p ltac:(by left)). congruence.
Qed.

Lemma row_out (f : BasicBlock -> list Z) out k (P : Z -> BasicBlock -> Prop) :
  Forall2 P (live_ids d1 0) out ->
  match pos k with
  | Some i => exists bb, P i bb /\ row (f <$> out) k = f bb
  | None => row (f <$> out) k = []
  end.
Proof.
  intros H. unfold pos, row. destruct (Z.ltb_spec k 0); [done|]. rewrite list_lookup_fmap.
  destruct (live_ids d1 0 !! Z.to_nat k) as [i|] eqn:Ei.
  - destruct (Forall2_lookup_l _ _ _ _ _ H Ei) as (bb & Hbb & HP). exists bb. by rewrite Hbb.
  - apply lookup_ge_None_1 in Ei. rewrite (list.Forall2_length _ _ _ H) in Ei.
    by rewrite lookup_ge_None_2.
Qed.

Lemma output_edges instrs' out :
  Forall2 (fun i bb => exists b1, bbs1 !! Z.to_nat i = Some b1 /\ renumbered d1 instrs1 instrs' b1 bb)
    (live_ids d1 0) out -> edges_ok out.
Proof.
  intros H a b. unfold edge_count.
  pose proof (row_out Successors out a _ H) as Ha. pose proof (row_out Predecessors out b _ H) as Hb.
  assert (Hpos : forall k t, pos k = Some t -> t ∈ live_ids d1 0).
  { intros k t. unfold pos. destruct (k <? 0); [done|]. apply list_elem_of_lookup_2. }
  destruct (pos a) as [i|] eqn:Ea; [destruct Ha as (ba & (b1 & Hb1 & Hr) & ->)|rewrite Ha];
    (destruct (pos b) as [n|] eqn:Eb; [destruct Hb as (bn & (b2 & Hb2 & Hr2) & ->)|rewrite Hb]).
  - rewrite (count_pos _ _ _ (rn_succ _ _ _ _ _ Hr)), (count_pos _ _ _ (rn_pred _ _ _ _ _ Hr2)), Ea, Eb.
    destruct (head_ready i (Hpos _ _ Ea)) as (bb & z & Hbb & Hz & Hz0 & Ho & _ & _ & Hs & _).
    destruct (head_ready n (Hpos _ _ Eb)) as (bb' & z' & Hbb' & _ & _ & _ & _ & _ & _ & Hp & _).
    assert (bb = b1) as -> by congruence. assert (bb' = b2) as -> by congruence.
    rewrite Hs, Hp, (count_own i z n) by eauto. unfold lpred. rewrite count_filter by apply Hz0.
    apply (co_edges _ _ _ (so_cfg Hok)).
  - rewrite (count_pos _ _ _ (rn_succ _ _ _ _ _ Hr)), Eb. done.
  - rewrite (count_pos _ _ _ (rn_pred _ _ _ _ _ Hr2)), Ea. done.
  - done.
Qed.

Lemma output_block instrs' i bb : i ∈ live_ids d1 0 ->
  (exists b1, bbs1 !! Z.to_nat i = Some b1 /\ renumbered d1 instrs1 instrs' b1 bb) ->
  (exists c, ch i = i :: c) /\ out_block (live_ids d1 0) instrs' m bb (ch i).
Proof.
  intros Hi (b1 & Hb1 & [Hseg Hpr Hsu (w1 & Hw1 & Hw & Ht & Htg)]). pose proof (head_chain i Hi) as Hc.
  destruct (head_ready i Hi) as (b1' & z & Hb1' & Hz & Hz0 & Ho & Hb & He & Hs & Hp & _).
  assert (b1' = b1) as -> by congruence. split; [apply Hc|].
  destruct (head_end i z Hi Hz) as (w & w1' & Hw0 & Hw1' & Hrw).
  split; [intros b Hbc; by apply (cb_own _ _ _ _ _ _ _ _ _ _ Hc b Hbc)|apply Hc|by rewrite Hseg|]. exists z, w, w1, (retarget w1 (Successors bb)).
  assert (Hend : end_of bb = end_of b1) by (unfold end_of; by rewrite Hseg).
  rewrite Hend. rewrite He in *. assert (w1' = w1) as -> by congruence. split_and!; try done. by rewrite <- Hs.
Qed.

Lemma simplify_finish : exists instrs' out,
  output_blocks instrs1 d1 (number_blocks d1 0 0) 0 bbs1 = Ok (instrs', out) /\
  simplify_result instrs' out (live_ids d1 0) ch m.
Proof.
  destruct output_result as (instrs' & out & E & Hf & Hfr). exists instrs', out. split; [done|]. split.
  - pose proof entry_live as H0. destruct (mr_own _ _ _ _ _ _ _ _ _ Hmr 0 H0) as (Hr & Hd & Hin).
    assert (Hh : own 0 ∈ live_ids d1 0) by (by apply elem_heads).
    pose proof (head_chain _ Hh) as Hc. destruct (cb_head _ _ _ _ _ _ _ _ _ _ Hc) as [c Ec].
    assert (Ho : own 0 = 0).
    { rewrite Ec in Hin. apply elem_of_cons in Hin as [?|Hin]; [done|exfalso].
      destruct (chain_prev (own 0) 0 c Hin) as (l1 & q & l2 & El). rewrite <- Ec in El.
      pose proof (cb_link _ _ _ _ _ _ _ _ _ _ Hc) as Hl. rewrite El in Hl.
      apply linked_cut in Hl as (_ & _ & _ & Hp). by rewrite (co_entry _ _ _ (so_cfg Hok)) in Hp. }
    rewrite Ho in Hh. apply list_elem_of_lookup_1 in Hh as [k Hk].
    pose proof (live_ids_ge _ _ _ _ Hk). by replace O with k by lia.
  - apply Forall2_same_length_lookup_2; [by apply (list.Forall2_length _ _ _ Hf)|].
    intros k i bb Hi Hbb. apply output_block; [by eapply list_elem_of_lookup_2|].
    by destruct (Forall2_lookup_lr _ _ _ _ _ _ Hf Hi Hbb) as (b1 & ? & ?); exists b1.
  - intros b Hb. destruct (mr_own _ _ _ _ _ _ _ _ _ Hmr b Hb) as (Hr & Hd & Hin).
    exists (own b). split_and!; [by apply elem_heads|done|]. intros i' Hi' Hb'.
    symmetry. by apply (cb_own _ _ _ _ _ _ _ _ _ _ (head_chain i' Hi')).
  - intros a b Hab. destruct (mr_links _ _ _ _ _ _ _ _ _ Hmr a b Hab) as (? & ? & ?). exists (own a).
    split; [by apply elem_heads|done].
  - apply Hmr.
  - apply Hmr.
  - apply Hmr.
  - intros i k Hi Hk Hend. destruct (cb_instrs _ _ _ _ _ _ _ _ _ _ (head_chain i Hi) k Hk) as (w & w' & ? & ? & ?).
    exists w, w'. by rewrite Hfr.
  - by eapply output_edges.
Qed.
End merged.
End simplify.

Lemma CFGSimplify_result (instrs : list Z) (bbs : list BasicBlock) (deleted : list bool) :
  simplify_ok instrs bbs deleted ->
  exists instrs' out heads ch value_map, CFGSimplify instrs bbs = Ok (instrs', out) /\
    simplify_result instrs bbs deleted instrs' out heads ch value_map.
Proof.
  intros Hok. unfold CFGSimplify. rewrite (so_deleted _ _ _ Hok). cbn [mbind Res_bind].
  destruct (MergeBasicBlocks_result instrs bbs deleted (so_cfg _ _ _ Hok) (so_acyclic _ _ _ Hok))
    as (instrs1 & bbs1 & d1 & ch & own & m & -> & Hmr). cbn [mbind Res_bind].
  destruct (simplify_finish instrs bbs deleted Hok instrs1 bbs1 d1 ch own m Hmr)
    as (instrs' & out & E & Hres).
  exists instrs', out, (live_ids d1 0), ch, m. done.
Qed.


(** ** An example: three blocks in a row, a phi on the first edge, and an
    unreachable block. *)
Module CfgDemo.
Definition br (t : Z) : Z := Type5_SetMarg0 (Type5_SetOpcode 0 (OpcodeTo BR)) t.
Definition binary (o : Opcode) (a b : Z) : Z :=
  Type2_SetArg1 (Type2_SetArg0 (Type2_SetOpcode 0 (OpcodeTo o)) a) b.

Definition instrs : list Z :=
  [binary I64_ADD 100 100; binary PHI_MEMBER 3 0; br 1;
   OpcodeTo PHI; binary I64_ADD 3 3; br 2; OpcodeTo RETURN; OpcodeTo RETURN].
Definition bbs : list BasicBlock :=
  [MkBB [(0, 2)] [1] []; MkBB [(3, 5)] [2] [0]; MkBB [(6, 6)] [] [1]; MkBB [(7, 7)] [] []].
Definition deleted : list bool := [false; false; false; true].

(** A finite check of [edges_ok]. *)
Definition edges_check (l : list BasicBlock) : bool :=
  forallb (fun a => forallb (fun b =>
    Nat.eqb (edge_count (Successors <$> l) a b) (edge_count (Predecessors <$> l) b a))
    (block_ids l)) (block_ids l) &&
  forallb (fun b => forallb (fun x => bool_decide (0 <= x < vec_size l)) (Successors b) &&
    forallb (fun x => bool_decide (0 <= x < vec_size l)) (Predecessors b)) l.

Lemma edges_check_ok l : edges_check l = true -> edges_ok l.
Proof.
  intros [Hc Hr]%andb_true_iff a b.
  assert (Hrow : forall f : BasicBlock -> list Z,
    (forall bb x, bb ∈ l -> x ∈ f bb -> 0 <= x < vec_size l) ->
    forall u v, edge_count (f <$> l) u v <> O -> 0 <= u < vec_size l /\ 0 <= v < vec_size l).
  { intros f Hf u v Hn. assert (Hin : v ∈ row (f <$> l) u) by (apply elem_of_row; lia).
    split; [apply row_range in Hin; unfold vec_size in *; by rewrite length_fmap in Hin|].
    unfold row in Hin. destruct (u <? 0); [by apply not_elem_of_nil in Hin|].
    rewrite list_lookup_fmap in Hin. destruct (l !! Z.to_nat u) as [bb|] eqn:E; [|by apply not_elem_of_nil in Hin].
    apply (Hf bb); [by eapply list_elem_of_lookup_2|done]. }
  rewrite forallb_elem in Hr.
  assert (Hs := Hrow Successors). assert (Hp := Hrow Predecessors). clear Hrow.
  destruct (decide (0 <= a < vec_size l /\ 0 <= b < vec_size l)) as [[Ha Hb]|Hn].
  - rewrite forallb_elem in Hc. specialize (Hc a ltac:(by apply elem_of_seqZ)).
    rewrite forallb_elem in Hc. specialize (Hc b ltac:(by apply elem_of_seqZ)).
    by apply Nat.eqb_eq in Hc.
  - assert (edge_count (Successors <$> l) a b = O) as ->.
    { destruct (decide (edge_count (Successors <$> l) a b = O)); [done|]. exfalso. apply Hn.
      apply Hs; [|done]. intros bb x Hbb Hx. specialize (Hr bb Hbb).
      apply andb_true_iff in Hr as [Hr _]. rewrite forallb_elem in Hr.
      by apply Hr, bool_decide_eq_true in Hx. }
    symmetry. destruct (decide (edge_count (Predecessors <$> l) b a = O)); [done|]. exfalso.
    apply Hn. cut (0 <= b < vec_size l /\ 0 <= a < vec_size l); [tauto|]. apply Hp; [|done].
    intros bb x Hbb Hx. specialize (Hr bb Hbb).
    apply andb_true_iff in Hr as [_ Hr]. rewrite forallb_elem in Hr.
    by apply Hr, bool_decide_eq_true in Hx.
Qed.

Lemma demo_live b : live0 bbs deleted b -> b = 0 \/ b = 1 \/ b = 2.
Proof.
  intros [[? ?] Hd]. change (vec_size bbs) with 4 in *.
  assert (b = 0 \/ b = 1 \/ b = 2 \/ b = 3) as [->|[->|[->| ->]]] by lia; auto. done.
Qed.

Lemma demo_link a b : link bbs deleted a b -> (a = 0 /\ b = 1) \/ (a = 1 /\ b = 2).
Proof.
  intros (Ha & Hb & Hs & _). apply demo_live in Ha as [->|[->| ->]]; vm_compute in Hs;
    simplify_eq; auto.
Qed.

Lemma demo_ph : ph instrs (seg_of bbs) 1 = 1%nat /\ ph instrs (seg_of bbs) 2 = 0%nat.
Proof. by vm_compute. Qed.

Lemma demo_cfg_ok : cfg_ok instrs bbs deleted.
Proof.
  split.
  - by apply edges_check_ok.
  - done.
  - done.
  - intros b [->|[->| ->]]%demo_live; [apply rtc_refl|apply rtc_once; by left|].
    apply (rtc_l _ 0 1); [by left|]. apply rtc_once. by left.
  - intros b [->|[->| ->]]%demo_live; (split; [by eexists|]); (split_and!; [done..|by eexists]).
  - intros a b [[-> ->]|[-> ->]]%demo_link k Hk; destruct demo_ph as [E1 E2];
      [rewrite E1 in Hk|rewrite E2 in Hk; lia].
    assert (k = 0) as -> by lia. done.
Qed.

Lemma demo_acyclic : members_acyclic instrs bbs deleted.
Proof.
  assert (H : forall k v, member_entry instrs bbs deleted k v -> k = 3 /\ v = 0).
  { intros k v (a & b & n & [[-> ->]|[-> ->]]%demo_link & Hn & -> & ->);
      destruct demo_ph as [E1 E2]; [rewrite E1 in Hn|rewrite E2 in Hn; lia].
    assert (n = 0) as -> by lia. done. }
  exists (fun _ => O). intros k v w [_ ->]%H [? _]%H. done.
Qed.



(** What the pass makes of it: one block, the phi replaced by the value 0. *)
Lemma demo_output : CFGSimplify instrs bbs =
  Ok ([binary I64_ADD 100 100; binary PHI_MEMBER 3 0; br 1; OpcodeTo PHI;
       binary I64_ADD 0 0; br 2; OpcodeTo RETURN; OpcodeTo RETURN],
      [MkBB [(0, 0); (4, 4); (6, 6)] [] []]).
Proof. by vm_compute. Qed.

Lemma GetDeletedBlocks_spec_witness : exists deleted, GetDeletedBlocks bbs = Ok deleted /\
  length deleted = length bbs /\
  (forall b, in_range bbs b -> del deleted b = true <-> Dead bbs b) /\
  (preds bbs 0 = [] -> forall b, in_range bbs b -> reachable bbs b -> del deleted b = false).
Proof. apply GetDeletedBlocks_spec. by apply edges_check_ok. Defined.

Lemma RewriteInstr_spec_witness : exists instr',
  RewriteInstr (binary I64_ADD 3 3) {[3 := 0]} = Ok instr' /\
  rewritten {[3 := 0]} (binary I64_ADD 3 3) instr'.
Proof.
  apply RewriteInstr_spec.
  - exists (fun _ => O). intros k v w [<- <-]%lookup_singleton_Some [? ?]%lookup_singleton_Some. done.
  - apply map_Forall_singleton. done.
Defined.
End CfgDemo.

(**  The entry block is not exempt from deletion: a function whose entry
    returns and whose only other block is unreachable and branches to the entry
    loses both blocks, so the pass outputs a function without any block. *)
Theorem CFGSimplify_entry_deleted :
  exists instrs bbs, edges_ok bbs /\ reachable bbs 0 /\
    GetDeletedBlocks bbs = Ok [true; true] /\ CFGSimplify instrs bbs = Ok (instrs, []).
Proof.
  exists [OpcodeTo RETURN; CfgDemo.br 0], [MkBB [(0, 0)] [] [1]; MkBB [(1, 1)] [0] []].
  split_and!; [by apply CfgDemo.edges_check_ok|constructor|done|done].
Qed.

(**  The function pointer of an indirect call is not rewritten: when it is a
    phi of a merged block, the phi is cut out of the block but the call still
    names it.  In the example the phi is instruction 2, which is in no segment
    of the output, and is the operand of the call at index 3. *)
Theorem CFGSimplify_call_indirect_dangling :
  exists instrs bbs out instrs' w,
    CFGSimplify instrs bbs = Ok (instrs', [out]) /\
    flat (Segments out) = [3; 4] /\
    instrs' !! 3%nat = Some w /\ instr_opcode w = Some CALL_INDIRECT /\ Type3_Arg w = 2.
Proof.
  set (call := Type3_SetArg (Type3_SetOpcode 0 (OpcodeTo CALL_INDIRECT)) 2).
  set (instrs := [CfgDemo.binary PHI_MEMBER 2 8388608; CfgDemo.br 1; OpcodeTo PHI; call;
                  OpcodeTo RETURN]).
  exists instrs, [MkBB [(0, 1)] [1] []; MkBB [(2, 4)] [] [0]], (MkBB [(3, 4)] [] []), instrs, call.
  by vm_compute.
Qed.
