(* ===== verification/Build.v ===== *)
(** * Building the program

    [ProgramBuilder::Build] of src/khir/program_builder.cc, which runs the
    control-flow simplifier on every function, and the [Function] and [Program]
    classes of src/khir/program.h it fills in. *)
From Stdlib Require Import SpecFloat.
From S2P Require Import Prelude Opcode Instruction FunctionBuilder ProgramBuilder CfgSimplify CfgMerge CfgOutput.

Record Function := MkFunction {
  fn_external : bool;
  fn_addr : Z;
  fn_name : string;
  fn_type : Z;
  fn_instructions : list Z;
  fn_basic_blocks : list BasicBlock;
}.

Record Program (TM : Type) := MkProgram {
  pr_type_manager : TM;
  pr_functions : list Function;
  pr_constant_instrs : list Z;
  pr_ptr_constants : list Z;
  pr_i64_constants : list Z;
  pr_f64_constants : list spec_float;
  pr_char_array_constants : list string;
  pr_struct_constants : list (Z * list Z);
  pr_array_constants : list (Z * list Z);
  pr_globals : list (Z * Z * Z);
  pr_vec4_constants : list (list Z);
  pr_vec8_constants : list (list Z);
}.
Arguments MkProgram {TM}.
Arguments pr_functions {TM} _.

(** The loop that makes a [BasicBlock] of each block record; [i] is the index of
    the first one. *)
Fixpoint basic_blocks_of (f : FunctionBuilder) (i : Z) (bbs : list (Z * Z))
    : Res (list BasicBlock) :=
  match bbs with
  | [] => Ok []
  | seg :: bbs =>
      succ ← vec_at (fb_successors f) i;
      pred ← vec_at (fb_predecessors f) i;
      rest ← basic_blocks_of f (i + 1) bbs;
      Ok (MkBB [seg] succ pred :: rest)
  end.

Definition build_function (f : FunctionBuilder) : Res Function :=
  if fb_external f
  then Ok (MkFunction true (fb_func f) (fb_name f) (fb_function_type f) [] [])
  else
    bbs ← basic_blocks_of f 0 (fb_basic_blocks f);
    '(instrs, bbs) ← CFGSimplify (fb_instructions f) bbs;
    Ok (MkFunction false 0 (fb_name f) (fb_function_type f) instrs bbs).

Fixpoint build_functions (fs : list FunctionBuilder) : Res (list Function) :=
  match fs with
  | [] => Ok []
  | f :: fs => fn ← build_function f; fns ← build_functions fs; Ok (fn :: fns)
  end.

Definition Build {TM} (pb : ProgramBuilder TM) : Res (Program TM) :=
  fns ← build_functions (functions pb);
  Ok (MkProgram (type_manager pb) fns (constant_instrs pb) (ptr_constants pb)
        (i64_constants pb) (f64_constants pb) (char_array_constants pb)
        (struct_constants pb) (array_constants pb) (globals pb)
        (vec4_constants pb) (vec8_constants pb)).

(** ** From the builder to the simplifier *)

(** The blocks the simplifier is given. *)
Definition blocks_of (f : FunctionBuilder) : list BasicBlock :=
  zip_with (fun seg '(succ, pred) => MkBB [seg] succ pred) (fb_basic_blocks f)
    (zip (fb_successors f) (fb_predecessors f)).

Lemma blocks_of_lookup f n : fb_wf f -> forall bb, blocks_of f !! n = Some bb <->
  exists seg, fb_basic_blocks f !! n = Some seg /\ Segments bb = [seg] /\
    fb_successors f !! n = Some (Successors bb) /\
    fb_predecessors f !! n = Some (Predecessors bb).
Proof.
  intros Hwf bb. unfold blocks_of. rewrite lookup_zip_with_Some. split.
  - intros (seg & [s p] & -> & Hseg & (s' & p' & [= <- <-] & Hs & Hp)%lookup_zip_with_Some).
    by exists seg.
  - intros (seg & Hseg & Hsg & Hs & Hp). exists seg, (Successors bb, Predecessors bb).
    split; [by destruct bb; cbn in *; subst|]. split; [done|]. apply lookup_zip_with_Some. eauto.
Qed.

Lemma length_blocks_of f : fb_wf f -> length (blocks_of f) = length (fb_basic_blocks f).
Proof.
  intros Hwf. unfold blocks_of. rewrite length_zip_with, length_zip_with.
  rewrite (wf_succ_len f Hwf), (wf_pred_len f Hwf). lia.
Qed.

Lemma fmap_blocks_of f : fb_wf f ->
  Successors <$> blocks_of f = fb_successors f /\ Predecessors <$> blocks_of f = fb_predecessors f.
Proof.
  intros Hwf. pose proof (wf_succ_len f Hwf) as Hs. pose proof (wf_pred_len f Hwf) as Hp.
  unfold blocks_of. revert Hs Hp. generalize (fb_successors f), (fb_predecessors f).
  induction (fb_basic_blocks f) as [|seg l IH]; intros [|s ss] [|p ps] Hs Hp; try done.
  cbn in *. destruct (IH ss ps) as [E1 E2]; [lia..|]. by rewrite E1, E2.
Qed.

Lemma basic_blocks_of_spec f : fb_wf f ->
  basic_blocks_of f 0 (fb_basic_blocks f) = Ok (blocks_of f).
Proof.
  intros Hwf. pose proof (wf_succ_len f Hwf) as Hs. pose proof (wf_pred_len f Hwf) as Hp.
  unfold blocks_of.
  enough (H : forall n l, drop n (fb_basic_blocks f) = l ->
    basic_blocks_of f (Z.of_nat n) l =
    Ok (zip_with (fun seg '(succ, pred) => MkBB [seg] succ pred) l
          (zip (drop n (fb_successors f)) (drop n (fb_predecessors f))))) by (by apply (H O)).
  intros n l. revert n. induction l as [|seg l IH]; intros n El; [done|].
  assert (Hn : (n < length (fb_basic_blocks f))%nat).
  { apply (f_equal length) in El. rewrite length_drop in El. cbn in El. lia. }
  destruct (lookup_lt_is_Some_2 (fb_successors f) n) as [s Hsn]; [lia|].
  destruct (lookup_lt_is_Some_2 (fb_predecessors f) n) as [p Hpn]; [lia|].
  cbn [basic_blocks_of]. rewrite (vec_at_nat _ _ _ Hsn), (vec_at_nat _ _ _ Hpn).
  cbn [mbind Res_bind]. replace (Z.of_nat n + 1) with (Z.of_nat (S n)) by lia.
  rewrite (IH (S n)).
  - cbn [mbind Res_bind]. by rewrite (drop_S _ _ _ Hsn), (drop_S _ _ _ Hpn).
  - change (S n) with (1 + n)%nat. rewrite Nat.add_comm, <- drop_drop, El. done.
Qed.

(** What a function must satisfy, besides what the builder guarantees, for the
    pass to go through: no branch to the entry, every block that is not dropped
    is reachable and terminated, phis have their members and do not refer to
    each other in circles.  [d] are the blocks that are dropped. *)
Record function_ok (f : FunctionBuilder) (d : list bool) : Prop := {
  fo_deleted : GetDeletedBlocks (blocks_of f) = Ok d;
  fo_entry : fb_basic_blocks f <> [] /\ preds (blocks_of f) 0 = [];
  fo_reach : forall b, in_range (blocks_of f) b -> Dead (blocks_of f) b \/ reachable (blocks_of f) b;
  fo_closed : forall b, reachable (blocks_of f) b -> closed_block f b;
  fo_members : forall a b, link (blocks_of f) d a b ->
    members_ok (fb_instructions f) (seg_of (blocks_of f)) a b;
  fo_acyclic : members_acyclic (fb_instructions f) (blocks_of f) d;
}.

Section bridge.
Context (f : FunctionBuilder) (d : list bool) (Hwf : fb_wf f) (Hfo : function_ok f d).
Local Abbreviation bbs := (blocks_of f).

Lemma bridge_edges : edges_ok bbs.
Proof. unfold edges_ok. destruct (fmap_blocks_of f Hwf) as [-> ->]. apply Hwf. Qed.

Lemma bridge_deleted : length d = length bbs /\
  forall b, in_range bbs b -> del d b = true <-> Dead bbs b.
Proof.
  destruct (GetDeletedBlocks_correct bbs bridge_edges) as (d' & E & ? & ?).
  rewrite (fo_deleted _ _ Hfo) in E. by injection E as <-.
Qed.

Lemma bridge_live b : live0 bbs d b <-> in_range bbs b /\ reachable bbs b.
Proof.
  destruct bridge_deleted as [_ Hd]. unfold live0. split; intros [Hb H]; (split; [done|]).
  - destruct (fo_reach _ _ Hfo b Hb) as [HD|?]; [|done]. apply Hd in HD; [|done]. congruence.
  - destruct (del d b) eqn:E; [exfalso|done]. apply Hd in E; [|done].
    by apply (Dead_unreachable bbs bridge_edges b (proj2 (fo_entry _ _ Hfo)) E).
Qed.

(** The record of a live block: its range ends in a terminator that names its successors. *)
Lemma bridge_block b : live0 bbs d b -> exists bb s e w, 0 <= b /\
  bbs !! Z.to_nat b = Some bb /\ Segments bb = [(s, e)] /\ seg_of bbs b = (s, e) /\
  fb_basic_blocks f !! Z.to_nat b = Some (s, e) /\ 0 <= s <= e /\
  fb_instructions f !! Z.to_nat e = Some w /\ terminates w = true /\ targets w = succs bbs b.
Proof.
  intros Hb. apply bridge_live in Hb as [Hr Hreach].
  destruct (fo_closed _ _ Hfo b Hreach) as (? & s & e & Hbb & He).
  destruct (block_at bbs b Hr) as (bb & _ & Hat & Hs & _).
  pose proof Hat as Hat'. apply (blocks_of_lookup f _ Hwf) in Hat' as (seg & Hseg & Hsg & _).
  assert (seg = (s, e)) as -> by congruence.
  destruct (wf_blocks f Hwf _ _ _ Hbb) as [(?&_)|(Hse & w & Hw & Ht & Hrow)]; [lia|].
  rewrite Z2Nat.id in Hrow by lia. exists bb, s, e, w. split_and!; try done; try lia.
  - unfold seg_of. rewrite Hat. cbn. by rewrite Hsg.
  - rewrite <- Hrow. unfold succs. by destruct (fmap_blocks_of f Hwf) as [-> _].
Qed.

Lemma bridge_reach b : live0 bbs d b -> rtc (fun a b => a ∈ lpred bbs d b) 0 b.
Proof.
  intros [_ Hr]%bridge_live. induction Hr as [|a b Hr IH Hab]; [apply rtc_refl|].
  eapply rtc_r; [exact IH|]. apply list_elem_of_filter.
  split; [|by apply (succs_preds bbs bridge_edges)]. apply bridge_live.
  split; [|done]. by apply (succs_range bbs bridge_edges a b).
Qed.

Lemma bridge_ok : simplify_ok (fb_instructions f) bbs d.
Proof.
  assert (Hcfg : cfg_ok (fb_instructions f) bbs d).
  { split.
    - apply bridge_edges.
    - apply bridge_deleted.
    - unfold lpred. by rewrite (proj2 (fo_entry _ _ Hfo)).
    - apply bridge_reach.
    - intros b Hb. destruct (bridge_block b Hb) as (bb & s & e & w & ? & ? & ? & E & ? & ? & Hw & ? & ?).
      split; [exists bb; by rewrite E|]. unfold closed. rewrite E. cbn. split; [done|]. split; [|eauto].
      apply lookup_lt_Some in Hw. unfold vec_size. lia.
    - apply Hfo. }
  split; [apply Hfo| |done|apply Hfo| |].
  - destruct (fo_entry _ _ Hfo) as [Hne ?]. split; [|done]. intros E.
    apply (f_equal length) in E. rewrite (length_blocks_of f Hwf) in E.
    by destruct (fb_basic_blocks f).
  - intros b w Hb Hw. destruct (bridge_block b Hb) as (bb & s & e & w' & ? & ? & ? & E & ? & ? & Hw' & ? & ?).
    rewrite E in Hw. cbn in Hw. congruence.
  - intros a b Ha Hb Hab.
    destruct (bridge_block a Ha) as (? & s & e & ? & ? & ? & ? & E & Hba & ? & _).
    destruct (bridge_block b Hb) as (? & s' & e' & ? & ? & ? & ? & E' & Hbb & ? & _).
    rewrite E, E' in Hab. cbn in Hab. subst e'.
    pose proof (wf_ends f Hwf _ _ _ _ e ltac:(lia) Hba Hbb). lia.
Qed.
End bridge.

(** ** The built program *)

(** What [Build] makes of one function. *)
Definition built (f : FunctionBuilder) (fn : Function) : Prop :=
  fn_name fn = fb_name f /\ fn_type fn = fb_function_type f /\
  fn_external fn = fb_external f /\
  if fb_external f then fn_addr fn = fb_func f
  else exists d heads ch value_map, GetDeletedBlocks (blocks_of f) = Ok d /\
         simplify_result (fb_instructions f) (blocks_of f) d
           (fn_instructions fn) (fn_basic_blocks fn) heads ch value_map.

Definition buildable (f : FunctionBuilder) : Prop :=
  fb_reachable f /\ (fb_external f = false -> exists d, function_ok f d).

Lemma build_function_spec f : buildable f ->
  exists fn, build_function f = Ok fn /\ built f fn.
Proof.
  intros [Hr Hok]. unfold build_function, built. destruct (fb_external f); [by eexists|].
  destruct (Hok eq_refl) as [d Hd]. pose proof (fb_reachable_wf f Hr) as Hwf.
  rewrite basic_blocks_of_spec by done. cbn [mbind Res_bind].
  destruct (CFGSimplify_result _ _ _ (bridge_ok f d Hwf Hd)) as (instrs' & out & heads & ch & m & -> & Hres).
  cbn [mbind Res_bind]. eexists. split; [done|]. split_and!; try done. exists d, heads, ch, m.
  split; [apply Hd|done].
Qed.

(** The pools and the types of the program are those of the builder. *)
Record handed_over {TM} (pb : ProgramBuilder TM) (p : Program TM) : Prop := {
  ho_type_manager : pr_type_manager _ p = type_manager pb;
  ho_constant_instrs : pr_constant_instrs _ p = constant_instrs pb;
  ho_ptr : pr_ptr_constants _ p = ptr_constants pb;
  ho_i64 : pr_i64_constants _ p = i64_constants pb;
  ho_f64 : pr_f64_constants _ p = f64_constants pb;
  ho_char_array : pr_char_array_constants _ p = char_array_constants pb;
  ho_struct : pr_struct_constants _ p = struct_constants pb;
  ho_array : pr_array_constants _ p = array_constants pb;
  ho_globals : pr_globals _ p = globals pb;
  ho_vec4 : pr_vec4_constants _ p = vec4_constants pb;
  ho_vec8 : pr_vec8_constants _ p = vec8_constants pb;
}.

(** C36.  Building a program: when every function is a reachable state of a function
    builder and each internal one satisfies [function_ok] (no branch to the entry, every
    block that is not dropped reachable and terminated, a phi member for each phi on an
    edge to be merged, no circle of phi members), [Build] returns a program without an
    error: its functions keep order, name, type and address, the body of each internal
    function is the control-flow graph of the blocks the builder recorded, simplified (one
    block per maximal chain, operands rewritten), and all constant pools, the globals and the type manager are handed over unchanged. *)
Theorem Build_spec {TM} (pb : ProgramBuilder TM) :
  Forall buildable (functions pb) ->
  exists p, Build pb = Ok p /\ Forall2 built (functions pb) (pr_functions p) /\ handed_over pb p.
Proof.
  intros H. unfold Build.
  assert (exists fns, build_functions (functions pb) = Ok fns /\ Forall2 built (functions pb) fns)
    as (fns & -> & Hf).
  { induction H as [|f fs Hf _ (fns & IH & Hfns)]; [by exists []|].
    destruct (build_function_spec f Hf) as (fn & Hfn & Hb). exists (fn :: fns).
    cbn. rewrite Hfn. cbn. rewrite IH. split; [done|]. by constructor. }
  cbn. eexists. by split_and!; [| |split].
Qed.

(** A program with one function that returns. *)
Module BuildDemo.
Definition f : FunctionBuilder :=
  MkFB "main" VoidType [] [] 11 0 false [(0, 0)] [[]] [[]] [0] [OpcodeTo RETURN] 0.

Lemma f_reachable : fb_reachable f.
Proof.
  exists "main", 11, VoidType, [], false, 0.
  eapply rtc_l; [by eapply step_generate|]. eapply rtc_l; [by eapply (step_set_current _ 0)|].
  eapply rtc_l; [|apply rtc_refl]. by eapply (step_append _ (OpcodeTo RETURN) 0).
Qed.

Lemma f_entry b : in_range (blocks_of f) b -> b = 0.
Proof. unfold in_range. change (vec_size (blocks_of f)) with 1. lia. Qed.

Lemma f_link a b : ~ link (blocks_of f) [false] a b.
Proof. intros ([->%f_entry _] & _ & Hs & _). done. Qed.

Lemma f_ok : function_ok f [false].
Proof.
  split; try done.
  - intros b ->%f_entry. right. constructor.
  - intros b Hr. assert (b = 0) as ->.
    { destruct Hr as [|a b Hr Hab]; [done|]. apply f_entry.
      by apply (succs_range (blocks_of f) (CfgDemo.edges_check_ok (blocks_of f) eq_refl) a b). }
    split; [done|]. by exists 0, 0.
  - by intros a b ?%f_link.
  - exists (fun _ => O). by intros k v w (a & b & n & ?%f_link & _).
Qed.

Lemma Build_spec_witness : exists p, Build (set_functions [f] (ProgramBuilder_new tt)) = Ok p /\
  Forall2 built [f] (pr_functions p).
Proof.
  destruct (Build_spec (set_functions [f] (ProgramBuilder_new tt))) as (p & ? & ? & _).
  - apply list.Forall_singleton. split; [apply f_reachable|]. intros _. exists [false]. apply f_ok.
  - by exists p.
Defined.
End BuildDemo.
