(* ===== verification/ColumnIndexBucket.v ===== *)
(** * Buckets of tuple indices and their intersection

    src/runtime/column_index_bucket.h and .cc: a growable array of increasing
    tuple indices, the binary search [FastForwardBucket], and the resumable
    intersection of several buckets. *)
From S2P Require Import Prelude.

(** ** The bucket *)

(** [bk_data] is the allocation [data] points to, [None] a cell that has not
    been written.  The allocator only hands out memory; it is not a field. *)
Record ColumnIndexBucket := MkBucket {
  bk_data : list (option Z);
  bk_size : Z;
  bk_capacity : Z;
}.

Definition EMPTY : ColumnIndexBucket := MkBucket [] 0 0.

(** [allocator->Allocate(n * sizeof(int32_t))]: [n] cells to write to. *)
Definition allocate_cells (n : Z) : list (option Z) := replicate (Z.to_nat n) None.

Definition BucketInit : ColumnIndexBucket := MkBucket (allocate_cells 4) 0 4.

(** [memcpy(dst, src, n)] on cells: undefined when either array is too short. *)
Definition memcpy_cells (dst src : list (option Z)) (n : Z) : Res (list (option Z)) :=
  if (vec_size src <? n) || (vec_size dst <? n) then UB
  else Ok (take (Z.to_nat n) src ++ drop (Z.to_nat n) dst).

Definition BucketPushBack (v : ColumnIndexBucket) (idx : Z) : Res ColumnIndexBucket :=
  v ← (if bk_capacity v =? bk_size v then
         capacity ← signed_result 32 (bk_capacity v * 2);
         data ← memcpy_cells (allocate_cells capacity) (bk_data v) (bk_size v);
         Ok (MkBucket data (bk_size v) capacity)
       else Ok v);
  data ← vec_set (bk_data v) (bk_size v) (Some idx);
  size ← signed_result 32 (bk_size v + 1);
  Ok (MkBucket data size (bk_capacity v)).

(** [bucket->data[i]]; reading a cell that was not written is undefined. *)
Definition GetBucketValue (b : ColumnIndexBucket) (idx : Z) : Res Z :=
  o ← vec_at (bk_data b) idx; opt_ub o.

(** The binary search; [start + end] is computed in [int].  The measure
    [end - start + 1] drops in each iteration, so [size + 1] rounds suffice. *)
Fixpoint ff_loop (fuel : nat) (b : ColumnIndexBucket) (prev_tuple start end_ next : Z)
    : Res Z :=
  match fuel with
  | O => NoFuel
  | S fuel =>
      if start <=? end_ then
        sum ← signed_result 32 (start + end_);
        let mid := Z.quot sum 2 in
        x ← GetBucketValue b mid;
        if x <? prev_tuple
        then ff_loop fuel b prev_tuple (mid + 1) end_ next
        else ff_loop fuel b prev_tuple start (mid - 1) mid
      else Ok next
  end.

Definition FastForwardBucket (b : ColumnIndexBucket) (prev_tuple : Z) : Res Z :=
  if bk_size b =? 0 then Ok INT32_MAX
  else ff_loop (S (Z.to_nat (bk_size b))) b prev_tuple 0 (bk_size b - 1) INT32_MAX.

Definition BucketListGet (bs : list ColumnIndexBucket) (idx : Z) : Res ColumnIndexBucket :=
  vec_at bs idx.

(** ** Intersection

    [intersection_state] has one cursor per bucket.  The results a call writes
    to [result[0..n)] are returned as a list; its length is the returned
    [result_size]. *)
Fixpoint BucketListSortedIntersectionInit (bs : list ColumnIndexBucket) (next_tuple : Z)
    : Res (list Z) :=
  match bs with
  | [] => Ok []
  | b :: bs =>
      s ← FastForwardBucket b next_tuple;
      ss ← BucketListSortedIntersectionInit bs next_tuple; Ok (s :: ss)
  end.

(** One bucket: copy from the cursor on. *)
Fixpoint scan1 (fuel : nat) (b : ColumnIndexBucket) (max s : Z) (res : list Z)
    : Res (list Z * Z) :=
  match fuel with
  | O => NoFuel
  | S fuel =>
      if (s <? bk_size b) && (vec_size res <? max) then
        x ← GetBucketValue b s; scan1 fuel b max (s + 1) (res ++ [x])
      else Ok (res, s)
  end.

(** Two buckets: leapfrog. *)
Fixpoint scan2 (fuel : nat) (b0 b1 : ColumnIndexBucket) (max s0 s1 : Z) (res : list Z)
    : Res (list Z * (Z * Z)) :=
  match fuel with
  | O => NoFuel
  | S fuel =>
      if (s0 <? bk_size b0) && (s1 <? bk_size b1) && (vec_size res <? max) then
        left ← GetBucketValue b0 s0;
        right ← GetBucketValue b1 s1;
        if left <? right then s0 ← FastForwardBucket b0 right; scan2 fuel b0 b1 max s0 s1 res
        else if right <? left
        then s1 ← FastForwardBucket b1 left; scan2 fuel b0 b1 max s0 s1 res
        else scan2 fuel b0 b1 max (s0 + 1) (s1 + 1) (res ++ [left])
      else Ok (res, (s0, s1))
  end.

(** Three or more: the first loop, is some cursor past its end? *)
Fixpoint any_done (bs : list ColumnIndexBucket) (ss : list Z) : Res bool :=
  match bs, ss with
  | [], _ => Ok false
  | b :: bs, s :: ss => if bk_size b <=? s then Ok true else any_done bs ss
  | _ :: _, [] => UB
  end.

(** The bucket with the fewest entries left, the first of them in a tie. *)
Fixpoint min_list_from (n : nat) (i : Z) (bs : list ColumnIndexBucket) (ss : list Z)
    (min_list : Z) : Res Z :=
  match n with
  | O => Ok min_list
  | S n =>
      b ← vec_at bs i; s ← vec_at ss i;
      bm ← vec_at bs min_list; sm ← vec_at ss min_list;
      min_list_from n (i + 1) bs ss
        (if bk_size b - s <? bk_size bm - sm then i else min_list)
  end.

(** How the inner loop over the other buckets ends: every bucket holds the
    candidate, some bucket is exhausted, or some bucket skips past it. *)
Inductive probe := AllEqual | Exhausted | Skip (current : Z).

Fixpoint probe_all (n : nat) (i min_list candidate : Z) (bs : list ColumnIndexBucket)
    (ss : list Z) : Res (probe * list Z) :=
  match n with
  | O => Ok (AllEqual, ss)
  | S n =>
      if i =? min_list then probe_all n (i + 1) min_list candidate bs ss else
      b ← vec_at bs i;
      s ← FastForwardBucket b candidate;
      ss ← vec_set ss i s;
      if bk_size b <=? s then Ok (Exhausted, ss) else
      current ← GetBucketValue b s;
      if candidate <? current then Ok (Skip current, ss)
      else probe_all n (i + 1) min_list candidate bs ss
  end.

Fixpoint scan_min (fuel : nat) (min_list max : Z) (bs : list ColumnIndexBucket)
    (ss : list Z) (res : list Z) : Res (list Z * list Z) :=
  match fuel with
  | O => NoFuel
  | S fuel =>
      bm ← vec_at bs min_list;
      idx ← vec_at ss min_list;
      if negb (idx <? bk_size bm) then Ok (res, ss) else
      if vec_size res =? max then Ok (res, ss) else
      candidate ← GetBucketValue bm idx;
      '(p, ss) ← probe_all (length bs) 0 min_list candidate bs ss;
      match p with
      | Exhausted => Ok (res, ss)
      | Skip current =>
          s ← FastForwardBucket bm current;
          ss ← vec_set ss min_list s;
          scan_min fuel min_list max bs ss res
      | AllEqual =>
          s ← vec_at ss min_list;
          ss ← vec_set ss min_list (s + 1);
          scan_min fuel min_list max bs ss (res ++ [candidate])
      end
  end.

(** Each loop moves a cursor forward in each round: the sum of the sizes bounds
    the number of rounds. *)
Definition rounds (bs : list ColumnIndexBucket) : nat :=
  S (sum_list ((fun b => Z.to_nat (bk_size b)) <$> bs)).
Arguments rounds : simpl never.

Definition BucketListSortedIntersectionPopulateResult (bs : list ColumnIndexBucket)
    (ss : list Z) (result_max_size : Z) : Res (list Z * list Z) :=
  match bs with
  | [] => Ok ([], ss)
  | [b] =>
      s ← vec_at ss 0; '(res, s) ← scan1 (rounds bs) b result_max_size s [];
      ss ← vec_set ss 0 s; Ok (res, ss)
  | [b0; b1] =>
      s0 ← vec_at ss 0; s1 ← vec_at ss 1;
      '(res, (s0, s1)) ← scan2 (rounds bs) b0 b1 result_max_size s0 s1 [];
      ss ← vec_set ss 0 s0; ss ← vec_set ss 1 s1; Ok (res, ss)
  | _ =>
      done ← any_done bs ss;
      if (done : bool) then Ok ([], ss) else
      min_list ← min_list_from (length bs - 1) 1 bs ss 0;
      scan_min (rounds bs) min_list result_max_size bs ss []
  end.

(** The filtered variant takes the address of the first selected bucket and
    reads [index_filter_size] consecutive buckets from there. *)
Definition BucketListSortedIntersectionPopulateResultFilter (bs : list ColumnIndexBucket)
    (ss : list Z) (result_max_size : Z) (index_filter : list Z) : Res (list Z * list Z) :=
  first ← vec_at index_filter 0;
  let n := length index_filter in
  if (first <? 0) || (vec_size bs <? first + Z.of_nat n) then UB else
  BucketListSortedIntersectionPopulateResult
    (take n (drop (Z.to_nat first) bs)) ss result_max_size.

Definition BucketListSortedIntersectionResultGet (result : list Z) (idx : Z) : Res Z :=
  vec_at result idx.

(** ** Representation *)

(** [holds b l]: the first [size] cells of the bucket are the list [l]. *)
Definition holds (b : ColumnIndexBucket) (l : list Z) : Prop :=
  bk_size b = vec_size l /\ take (length l) (bk_data b) = Some <$> l.

(** A bucket that can be pushed to: [capacity] is the size of the allocation. *)
Definition bucket_wf (b : ColumnIndexBucket) (l : list Z) : Prop :=
  holds b l /\ bk_capacity b = vec_size (bk_data b) /\ 4 <= bk_capacity b.

(** Strictly increasing lists. *)
Definition incr (l : list Z) : Prop :=
  forall i j x y, l !! i = Some x -> l !! j = Some y -> (i < j)%nat -> x < y.

Lemma incr_le l i j x y : incr l -> l !! i = Some x -> l !! j = Some y ->
  (i <= j)%nat -> x <= y.
Proof.
  intros Hl Hx Hy Hij. destruct (decide (i = j)) as [->|]; [simplify_eq; lia|].
  pose proof (Hl i j x y Hx Hy). lia.
Qed.

Lemma holds_read b l i x : holds b l -> l !! i = Some x -> GetBucketValue b (Z.of_nat i) = Ok x.
Proof.
  intros [_ Hd] Hx. unfold GetBucketValue.
  rewrite (vec_at_nat _ _ (Some x)); [done|].
  assert (Hi : (i < length l)%nat) by (by eapply lookup_lt_Some).
  rewrite <- (lookup_take_lt (bk_data b) (length l) i) by done.
  by rewrite Hd, list_lookup_fmap, Hx.
Qed.

Lemma holds_at b l z : holds b l -> 0 <= z < bk_size b ->
  exists x, l !! Z.to_nat z = Some x /\ GetBucketValue b z = Ok x.
Proof.
  intros Hb Hz. destruct (lookup_lt_is_Some_2 l (Z.to_nat z)) as [x Hx].
  { destruct Hb as [Hs _]. unfold vec_size in *. lia. }
  exists x. split; [done|]. rewrite <- (Z2Nat.id z) by lia. by apply (holds_read _ l).
Qed.

Lemma holds_length b l : holds b l -> (length l <= length (bk_data b))%nat.
Proof.
  intros [_ Hd]. apply (f_equal length) in Hd. rewrite length_take, length_fmap in Hd. lia.
Qed.

Lemma BucketInit_wf : bucket_wf BucketInit [].
Proof. by vm_compute. Qed.

(** Growing keeps the contents and makes room for one more. *)
Lemma push_snoc b l x : holds b l -> vec_size l < vec_size (bk_data b) -> vec_size l < 2 ^ 30 ->
  exists data size, vec_set (bk_data b) (bk_size b) (Some x) = Ok data /\
    signed_result 32 (bk_size b + 1) = Ok size /\ length data = length (bk_data b) /\
    holds (MkBucket data size (bk_capacity b)) (l ++ [x]).
Proof.
  intros [Hs Hd] Hlt Hmax. exists (<[length l := Some x]> (bk_data b)), (bk_size b + 1).
  unfold vec_size in *. split_and!.
  - apply vec_set_Ok. unfold vec_size. split; [lia|]. by rewrite Hs, Nat2Z.id.
  - apply signed_result_id. unfold is_sw. lia.
  - by rewrite length_insert.
  - split; cbn; unfold vec_size; rewrite length_app; cbn; [lia|].
    rewrite Nat.add_1_r, take_insert_snoc by lia. by rewrite Hd, fmap_app.
Qed.

(** After the capacity check there is room for one more entry. *)
Lemma BucketPushBack_room b l : bucket_wf b l -> bk_capacity b < 2 ^ 30 ->
  exists b1,
    (if bk_capacity b =? bk_size b then
       capacity ← signed_result 32 (bk_capacity b * 2);
       data ← memcpy_cells (allocate_cells capacity) (bk_data b) (bk_size b);
       Ok (MkBucket data (bk_size b) capacity)
     else Ok b) = Ok b1 /\
    bucket_wf b1 l /\ vec_size l < vec_size (bk_data b1) /\ vec_size l < 2 ^ 30.
Proof.
  intros (Hb & Hc & H4) Hmax. pose proof (holds_length _ _ Hb) as Hle.
  pose proof Hb as [Hs Hd]. unfold vec_size in *.
  destruct (Z.eqb_spec (bk_capacity b) (bk_size b)) as [He|He].
  - rewrite signed_result_id by (unfold is_sw; lia). cbn. unfold memcpy_cells, vec_size.
    unfold allocate_cells. rewrite length_replicate.
    rewrite (proj2 (Z.ltb_ge _ _)), (proj2 (Z.ltb_ge _ _)) by lia. cbn.
    rewrite Hs, Nat2Z.id, drop_replicate. eexists; split; [done|].
    assert (Hl1 : length (take (length l) (bk_data b) ++
      replicate (Z.to_nat (bk_capacity b * 2) - length l) None) = (2 * length l)%nat).
    { rewrite length_app, length_take, length_replicate. lia. }
    unfold bucket_wf, holds, vec_size. cbn. rewrite Hl1.
    split_and!; [done| |lia..].
    rewrite take_app_le, take_take by (rewrite length_take; lia). by rewrite Nat.min_id.
  - exists b. split_and!; [done|by split_and!|lia..].
Qed.

(**  [BucketPushBack] appends: on a bucket that holds [l] (with fewer than
    2^30 entries, so that doubling the capacity stays within [int32_t]) it
    returns, and the bucket then holds [l] followed by the new index. *)
Theorem BucketPushBack_appends (b : ColumnIndexBucket) (l : list Z) (x : Z) :
  bucket_wf b l -> bk_capacity b < 2 ^ 30 ->
  exists b', BucketPushBack b x = Ok b' /\ bucket_wf b' (l ++ [x]).
Proof.
  intros Hb Hmax. destruct (BucketPushBack_room b l Hb Hmax) as (b1 & Hg & (Hb1 & Hc1 & H4) & Hr & Hm).
  unfold BucketPushBack. rewrite Hg. cbn.
  destruct (push_snoc b1 l x Hb1 Hr Hm) as (data & size & -> & H2 & H3 & ?).
  cbn. rewrite H2. cbn. eexists; split; [done|].
  split_and!; [done|unfold vec_size in *; cbn; lia|cbn; lia].
Qed.

(** ** Binary search *)

(** The position of the first entry not below [t]. *)
Definition lower_bound (l : list Z) (t : Z) : nat := length (filter (fun x => x < t) l).

(** The cursor [FastForwardBucket] returns for it. *)
Definition cursor (l : list Z) (t : Z) : Z :=
  if decide (lower_bound l t < length l)%nat then Z.of_nat (lower_bound l t) else INT32_MAX.

(** A split of [l] at [k] into entries below [t] and entries not below [t]. *)
Definition splits (l : list Z) (t : Z) (k : nat) : Prop :=
  (k <= length l)%nat /\
  (forall x, x ∈ take k l -> x < t) /\ (forall x, x ∈ drop k l -> t <= x).

Lemma splits_filter l t k : splits l t k ->
  filter (fun x => x < t) l = take k l /\ filter (fun x => t <= x) l = drop k l.
Proof.
  intros (Hk & Hlt & Hge). rewrite <- (take_drop k l) at 1 3.
  rewrite !list.filter_app. split.
  - rewrite list_filter_all by done. rewrite list_filter_none, app_nil_r; [done|].
    intros x ?%Hge. lia.
  - rewrite list_filter_none by (intros x ?%Hlt; lia). by rewrite list_filter_all.
Qed.

Lemma splits_lower_bound l t k : splits l t k -> k = lower_bound l t.
Proof.
  intros Hs. unfold lower_bound. destruct (splits_filter _ _ _ Hs) as [-> _].
  rewrite length_take. destruct Hs. lia.
Qed.

Lemma incr_cons x l : incr (x :: l) -> incr l /\ forall y, y ∈ l -> x < y.
Proof.
  intros Hl. split.
  - intros i j a b Ha Hb ?. apply (Hl (S i) (S j)); [done..|lia].
  - intros y [i Hy]%list_elem_of_lookup. apply (Hl 0%nat (S i)); [done..|lia].
Qed.

Lemma lower_bound_splits l t : incr l -> splits l t (lower_bound l t).
Proof.
  unfold lower_bound. induction l as [|x l IH]; intros Hl.
  - by split_and!; [cbn; lia|intros ? ?%elem_of_nil..].
  - apply incr_cons in Hl as [Hl Hx]. rewrite filter_cons. case_decide; cbn.
    + destruct (IH Hl) as (? & H1 & H2). split_and!; cbn; [lia| |done].
      intros y [->|?]%elem_of_cons; [done|auto].
    + rewrite list_filter_none by (intros y ?%Hx; lia). cbn.
      split_and!; [lia|by intros ? ?%elem_of_nil|].
      intros y [->|?%Hx]%elem_of_cons; lia.
Qed.

Section search.
Context (b : ColumnIndexBucket) (l : list Z) (t : Z).
Context (Hb : holds b l) (Hl : incr l) (Hsz : vec_size l <= 2 ^ 30).

(** The loop invariant: everything left of [start] is below [t], everything
    right of [end] is not, and [next] is the position after [end]. *)
Lemma ff_loop_spec fuel start end_ next :
  0 <= start <= end_ + 1 -> end_ < bk_size b -> (Z.to_nat (end_ - start + 1) < fuel)%nat ->
  (forall i x, l !! i = Some x -> Z.of_nat i < start -> x < t) ->
  (forall i x, l !! i = Some x -> end_ < Z.of_nat i -> t <= x) ->
  next = (if end_ + 1 <? bk_size b then end_ + 1 else INT32_MAX) ->
  ff_loop fuel b t start end_ next = Ok (cursor l t).
Proof.
  pose proof Hb as [Hs _].
  revert start end_ next. induction fuel as [|fuel IH]; intros start end_ next; [lia|].
  intros Hr He Hf Hlo Hhi ->. cbn. destruct (Z.leb_spec start end_).
  - rewrite signed_result_id by (unfold is_sw, vec_size in *; lia). cbn.
    rewrite Z.quot_div_nonneg by lia.
    assert (Hm : start <= (start + end_) / 2 <= end_)
      by (split; [apply Z.div_le_lower_bound|apply Z.div_le_upper_bound]; lia).
    destruct (holds_at b l ((start + end_) / 2) Hb) as (x & Hx & ->); [lia|]. cbn.
    destruct (Z.ltb_spec x t).
    + apply IH; try done; try lia. intros i y Hy ?.
      pose proof (incr_le l i (Z.to_nat ((start + end_) / 2)) y x Hl Hy Hx). lia.
    + apply IH; try done; try lia.
      * intros i y Hy ?.
        pose proof (incr_le l (Z.to_nat ((start + end_) / 2)) i x y Hl Hx Hy). lia.
      * rewrite Z.sub_add, (proj2 (Z.ltb_lt _ _)); lia.
  - assert (start = end_ + 1) as -> by lia. f_equal. unfold cursor.
    assert (Hk : splits l t (Z.to_nat (end_ + 1))).
    { unfold vec_size in *. split_and!; [lia| |].
      - intros x [i Hx]%list_elem_of_lookup. apply lookup_take_Some in Hx as [Hx ?].
        apply (Hlo i); [done|lia].
      - intros x [i Hx]%list_elem_of_lookup. rewrite lookup_drop in Hx.
        apply (Hhi (Z.to_nat (end_ + 1) + i)%nat); [done|lia]. }
    rewrite <- (splits_lower_bound _ _ _ Hk). unfold vec_size in *.
    case_decide; destruct (Z.ltb_spec (end_ + 1) (bk_size b)); lia.
Qed.
End search.

Lemma FastForwardBucket_cursor b l t : holds b l -> incr l -> vec_size l <= 2 ^ 30 ->
  FastForwardBucket b t = Ok (cursor l t).
Proof.
  intros Hb Hl Hsz. pose proof Hb as [Hs _]. unfold FastForwardBucket.
  destruct (Z.eqb_spec (bk_size b) 0) as [E|E]; unfold vec_size in *.
  - destruct l; [|cbn in *; lia]. done.
  - apply (ff_loop_spec b l); try done; try lia.
    + intros i x Hx%lookup_lt_Some. lia.
    + by rewrite (proj2 (Z.ltb_ge _ _)) by lia.
Qed.

(**  [FastForwardBucket] is a correct, terminating binary search: on an
    increasing bucket of at most 2^30 entries (so that [start + end] stays in
    range) it returns the index of the first entry that is not below the given
    tuple, and INT32_MAX exactly when every entry is below it. *)
Theorem FastForwardBucket_spec (b : ColumnIndexBucket) (l : list Z) (t : Z) :
  holds b l -> incr l -> vec_size l <= 2 ^ 30 ->
  exists r, FastForwardBucket b t = Ok r /\
    ((r = INT32_MAX /\ forall x, x ∈ l -> x < t) \/
     (0 <= r < vec_size l /\ exists y, l !! Z.to_nat r = Some y /\ t <= y /\
        forall i x, l !! i = Some x -> Z.of_nat i < r -> x < t)).
Proof.
  intros Hb Hl Hsz. exists (cursor l t). split; [by apply FastForwardBucket_cursor|].
  destruct (lower_bound_splits l t Hl) as (? & Hlt & Hge). unfold cursor, vec_size.
  case_decide.
  - right. split; [lia|]. rewrite Nat2Z.id.
    destruct (lookup_lt_is_Some_2 l (lower_bound l t)) as [y Hy]; [done|]. exists y.
    split_and!; [done| |].
    + apply Hge. apply list_elem_of_lookup. exists 0%nat. by rewrite lookup_drop, Nat.add_0_r.
    + intros i x Hx ?. apply Hlt, list_elem_of_lookup. exists i. rewrite lookup_take_lt by lia. done.
  - left. split; [done|]. intros x Hx. apply Hlt. by rewrite take_ge by lia.
Qed.

(** ** What a cursor leaves to be read *)
Definition rest (l : list Z) (s : Z) : list Z := drop (Z.to_nat s) l.

Lemma rest_cons b l s : holds b l -> 0 <= s < bk_size b ->
  exists x, GetBucketValue b s = Ok x /\ rest l s = x :: rest l (s + 1) /\
    l !! Z.to_nat s = Some x.
Proof.
  intros Hb Hs. destruct (holds_at b l s Hb Hs) as (x & Hx & Hr). exists x.
  split_and!; [done| |done]. unfold rest. rewrite Z2Nat.inj_add, Nat.add_1_r by lia.
  by apply drop_S.
Qed.

Lemma rest_nil b l s : holds b l -> bk_size b <= s -> rest l s = [].
Proof. intros [Hs _] ?. apply drop_ge. unfold vec_size in *. lia. Qed.

Lemma rest_cursor l t : incr l -> vec_size l <= 2 ^ 30 ->
  rest l (cursor l t) = filter (fun x => t <= x) l /\ 0 <= cursor l t.
Proof.
  intros Hl Hsz. destruct (splits_filter _ _ _ (lower_bound_splits l t Hl)) as [_ ->].
  unfold rest, cursor, vec_size in *. case_decide.
  - rewrite Nat2Z.id. split; [done|lia].
  - split; [|done]. rewrite !drop_ge; [done|lia|unfold INT32_MAX; lia].
Qed.

(** Fast-forwarding from an entry below [t] keeps the unread entries from [t] on. *)
Lemma rest_skip l s x t : incr l -> vec_size l <= 2 ^ 30 ->
  l !! Z.to_nat s = Some x -> x < t ->
  rest l (cursor l t) = filter (fun y => t <= y) (rest l s).
Proof.
  intros Hl Hsz Hx Ht. destruct (rest_cursor l t Hl Hsz) as [-> _]. unfold rest.
  rewrite <- (take_drop (Z.to_nat s) l) at 1. rewrite list.filter_app, list_filter_none; [done|].
  intros y [i Hy]%list_elem_of_lookup. apply lookup_take_Some in Hy as [Hy ?].
  pose proof (Hl _ _ _ _ Hy Hx). lia.
Qed.

Lemma incr_drop l n : incr l -> incr (drop n l).
Proof. intros Hl i j x y. rewrite !lookup_drop. intros ? ? ?. eapply Hl; [done..|lia]. Qed.

(** Advancing the reader emits [out] and leaves [I']; it stops early only when
    the result is full. *)
Definition emitted (max : Z) (res I out I' : list Z) : Prop :=
  I = out ++ I' /\ vec_size (res ++ out) <= max /\
  (vec_size (res ++ out) < max -> I' = []).

Lemma emitted_nil max res I :
  vec_size res <= max -> (vec_size res < max -> I = []) -> emitted max res I [] I.
Proof. unfold emitted. rewrite app_nil_r. done. Qed.

Lemma emitted_cons max res x I out I' :
  emitted max (res ++ [x]) I out I' -> emitted max res (x :: I) (x :: out) I'.
Proof. unfold emitted. rewrite <- app_assoc. cbn. intros (-> & ? & ?). done. Qed.

Lemma emitted_take max I out I' : 0 <= max ->
  emitted max [] I out I' -> out = take (Z.to_nat max) I.
Proof.
  unfold emitted, vec_size. cbn. intros ? (-> & ? & Hn).
  destruct (decide (Z.of_nat (length out) < max)).
  - rewrite Hn, app_nil_r, take_ge by lia. done.
  - rewrite take_app_length' by lia. done.
Qed.

Lemma scan1_spec fuel b l max s res :
  holds b l -> 0 <= s -> vec_size res <= max -> (length (rest l s) < fuel)%nat ->
  exists out s', scan1 fuel b max s res = Ok (res ++ out, s') /\ 0 <= s' /\
    emitted max res (rest l s) out (rest l s').
Proof.
  intros Hb. revert s res. induction fuel as [|fuel IH]; intros s res Hs Hr Hf; [lia|]. cbn.
  destruct (Z.ltb_spec s (bk_size b)) as [Hlt|Hge]; cbn.
  - destruct (rest_cons b l s Hb) as (x & Hx & E & _); [done|].
    destruct (Z.ltb_spec (vec_size res) max).
    + rewrite Hx. cbn. rewrite E in *. cbn in Hf.
      destruct (IH (s + 1) (res ++ [x])) as (out & s' & -> & ? & He);
        [lia|unfold vec_size in *; rewrite length_app; cbn; lia|lia|].
      exists (x :: out), s'. rewrite <- app_assoc. split_and!; [done..|by apply emitted_cons].
    + exists [], s. rewrite app_nil_r. split_and!; [done..|apply emitted_nil; lia].
  - exists [], s. rewrite app_nil_r. split_and!; [done..|apply emitted_nil; [done|]].
    intros _. by eapply rest_nil.
Qed.

(** ** Two buckets *)
Definition inter (a X : list Z) : list Z := filter (fun x => x ∈ X) a.

Lemma inter_skip_left a X t : (forall x, x ∈ X -> t <= x) ->
  inter a X = inter (filter (fun y => t <= y) a) X.
Proof.
  intros HX. unfold inter. rewrite list_filter_filter. apply list_filter_ext. naive_solver.
Qed.

Lemma inter_skip_right a X t : (forall x, x ∈ a -> t <= x) ->
  inter a X = inter a (filter (fun y => t <= y) X).
Proof.
  intros Ha. apply list_filter_ext. intros x Hx. rewrite list_elem_of_filter. naive_solver.
Qed.

Lemma inter_cons x a X : incr (x :: a) -> inter (x :: a) (x :: X) = x :: inter a X.
Proof.
  intros [_ Hx]%incr_cons. unfold inter. rewrite filter_cons_True by (by left). f_equal.
  apply list_filter_ext. intros y ?%Hx. rewrite elem_of_cons. intuition lia.
Qed.

Lemma incr_head_le x a y : incr (x :: a) -> y ∈ x :: a -> x <= y.
Proof. intros [_ H]%incr_cons [->|?%H]%elem_of_cons; lia. Qed.

Lemma length_filter_cons_False (P : Z -> Prop) `{!forall x, Decision (P x)} x a :
  ~ P x -> (length (filter P (x :: a)) < length (x :: a))%nat.
Proof. intros. rewrite filter_cons_False by done. pose proof (length_filter P a). cbn. lia. Qed.

Section two.
Context (b0 b1 : ColumnIndexBucket) (l0 l1 : list Z) (max : Z).
Context (H0 : holds b0 l0) (H1 : holds b1 l1) (I0 : incr l0) (I1 : incr l1).
Context (Z0 : vec_size l0 <= 2 ^ 30) (Z1 : vec_size l1 <= 2 ^ 30).

Lemma scan2_spec fuel s0 s1 res :
  0 <= s0 -> 0 <= s1 -> vec_size res <= max ->
  (length (rest l0 s0) + length (rest l1 s1) < fuel)%nat ->
  exists out s0' s1', scan2 fuel b0 b1 max s0 s1 res = Ok (res ++ out, (s0', s1')) /\
    0 <= s0' /\ 0 <= s1' /\
    emitted max res (inter (rest l0 s0) (rest l1 s1)) out (inter (rest l0 s0') (rest l1 s1')).
Proof.
  revert s0 s1 res. induction fuel as [|fuel IH]; intros s0 s1 res ? ? Hr Hf; [lia|]. cbn.
  destruct (Z.ltb_spec s0 (bk_size b0)) as [L0|L0]; cbn.
  2: { exists [], s0, s1. rewrite app_nil_r. split_and!; [done..|apply emitted_nil; [done|]].
       intros _. by rewrite (rest_nil b0). }
  destruct (Z.ltb_spec s1 (bk_size b1)) as [L1|L1]; cbn.
  2: { exists [], s0, s1. rewrite app_nil_r. split_and!; [done..|apply emitted_nil; [done|]].
       intros _. rewrite (rest_nil b1 l1) by done. apply list_filter_none.
       by intros ? _ ?%elem_of_nil. }
  destruct (Z.ltb_spec (vec_size res) max) as [Lm|Lm].
  2: { exists [], s0, s1. rewrite app_nil_r. split_and!; [done..|apply emitted_nil; lia]. }
  destruct (rest_cons b0 l0 s0 H0) as (x & -> & E0 & X0); [done|].
  destruct (rest_cons b1 l1 s1 H1) as (y & -> & E1 & Y1); [done|]. cbn.
  pose proof (incr_drop l0 (Z.to_nat s0) I0) as J0. fold (rest l0 s0) in J0. rewrite E0 in J0.
  pose proof (incr_drop l1 (Z.to_nat s1) I1) as J1. fold (rest l1 s1) in J1. rewrite E1 in J1.
  destruct (Z.ltb_spec x y); [|destruct (Z.ltb_spec y x)].
  - rewrite (FastForwardBucket_cursor b0 l0) by done. cbn.
    pose proof (rest_skip l0 s0 x y I0 Z0 X0) as Hk. rewrite E0 in Hk.
    rewrite E0, E1, (inter_skip_left _ (y :: _) y), <- Hk, <- E1 by
      (try lia; intros ?; by apply incr_head_le).
    apply IH; [by apply rest_cursor|done|done|].
    pose proof (length_filter_cons_False (fun z => y <= z) x (rest l0 (s0 + 1))) as Hlen.
    rewrite Hk by lia. rewrite E0 in Hf. lia.
  - rewrite (FastForwardBucket_cursor b1 l1) by done. cbn.
    pose proof (rest_skip l1 s1 y x I1 Z1 Y1) as Hk. rewrite E1 in Hk.
    rewrite E1, E0, (inter_skip_right (x :: _) _ x), <- Hk, <- E0 by
      (try lia; intros ?; by apply incr_head_le).
    apply IH; [done|by apply rest_cursor|done|].
    pose proof (length_filter_cons_False (fun z => x <= z) y (rest l1 (s1 + 1))) as Hlen.
    rewrite Hk by lia. rewrite E1 in Hf. lia.
  - assert (y = x) as -> by lia. rewrite E0, E1, inter_cons by done.
    rewrite E0, E1 in Hf. cbn in Hf.
    destruct (IH (s0 + 1) (s1 + 1) (res ++ [x])) as (out & s0' & s1' & -> & ? & ? & He);
      [lia|lia|unfold vec_size in *; rewrite length_app; cbn; lia|lia|].
    exists (x :: out), s0', s1'. rewrite <- app_assoc.
    split_and!; [done..|by apply emitted_cons].
Qed.
End two.

(** ** Any number of buckets *)
Definition buckets_ok (bs : list ColumnIndexBucket) (ls : list (list Z)) : Prop :=
  Forall2 holds bs ls /\ forall l, l ∈ ls -> incr l /\ vec_size l <= 2 ^ 30.

Lemma buckets_lookup bs ls i b : buckets_ok bs ls -> bs !! i = Some b ->
  exists l, ls !! i = Some l /\ l ∈ ls /\ holds b l /\ incr l /\ vec_size l <= 2 ^ 30.
Proof.
  intros [HF Ha] Hi. destruct (Forall2_lookup_l _ _ _ _ _ HF Hi) as (l & Hl & Hh).
  assert (l ∈ ls) by (by eapply list_elem_of_lookup_2). exists l. split_and!; try done; by apply Ha.
Qed.

Definition in_all (ls : list (list Z)) (x : Z) : Prop := Forall (fun l => x ∈ l) ls.
#[export] Instance in_all_dec ls x : Decision (in_all ls x).
Proof. unfold in_all. apply _. Defined.

Section many.
Context (bs : list ColumnIndexBucket) (ls : list (list Z)) (Hok : buckets_ok bs ls).
Context (m : nat) (bm : ColumnIndexBucket) (lm : list Z) (max : Z).
Context (Hbm : bs !! m = Some bm) (Hlm : ls !! m = Some lm) (Hm : holds bm lm).
Context (Im : incr lm) (Zm : vec_size lm <= 2 ^ 30).

(** What the outcome of the inner loop says about the other lists. *)
Definition probe_ok (p : probe) (c : Z) (i n : nat) : Prop :=
  match p with
  | AllEqual => forall j l, (i <= j < i + n)%nat -> j <> m -> ls !! j = Some l -> c ∈ l
  | Exhausted => exists l, l ∈ ls /\ forall x, x ∈ l -> x < c
  | Skip cur => c < cur /\ exists l, l ∈ ls /\ forall x, x ∈ l -> c <= x -> cur <= x
  end.

Lemma probe_all_spec n i c ss : length ss = length bs -> (i + n <= length bs)%nat ->
  exists p ss', probe_all n (Z.of_nat i) (Z.of_nat m) c bs ss = Ok (p, ss') /\
    length ss' = length bs /\ ss' !! m = ss !! m /\ probe_ok p c i n.
Proof.
  revert i ss. induction n as [|n IH]; intros i ss Hss Hi.
  { exists AllEqual, ss. split_and!; [done..|]. cbn. intros. lia. }
  cbn. replace (Z.of_nat i + 1) with (Z.of_nat (S i)) by lia.
  destruct (Z.eqb_spec (Z.of_nat i) (Z.of_nat m)) as [E|E].
  - destruct (IH (S i) ss) as (p & ss' & -> & ? & ? & Hp); [done|lia|].
    exists p, ss'. split_and!; [done..|]. destruct p; cbn in *; try done.
    intros j l ? ? ?. apply (Hp j); [lia|done..].
  - destruct (lookup_lt_is_Some_2 bs i) as [b Hb]; [lia|].
    destruct (buckets_lookup _ _ _ _ Hok Hb) as (l & Hl & Hin & Hh & Hinc & Hz).
    rewrite (vec_at_nat _ _ b) by done. cbn.
    rewrite (FastForwardBucket_cursor b l) by done. cbn.
    destruct (rest_cursor l c Hinc Hz) as [Hrest Hnn].
    destruct (lookup_lt_is_Some_2 ss i) as [s Hs]; [lia|].
    rewrite (vec_set_lookup _ _ _ s) by (rewrite ?Nat2Z.id; done || lia).
    cbn. rewrite Nat2Z.id. set (ss1 := <[i := cursor l c]> ss).
    assert (Hl1 : length ss1 = length bs) by (by unfold ss1; rewrite length_insert).
    assert (Hm1 : ss1 !! m = ss !! m) by (apply list_lookup_insert_ne; lia).
    destruct (Z.leb_spec (bk_size b) (cursor l c)) as [Hd|Hd].
    + exists Exhausted, ss1. split_and!; [done..|]. exists l. split; [done|].
      intros x Hx. rewrite (rest_nil b l) in Hrest by done.
      destruct (decide (c <= x)); [|lia].
      assert (x ∈ filter (fun x => c <= x) l) as Hf by (by apply list_elem_of_filter).
      rewrite <- Hrest in Hf. by apply elem_of_nil in Hf.
    + destruct (rest_cons b l (cursor l c) Hh) as (y & -> & Ey & _); [done|]. cbn.
      rewrite Hrest in Ey.
      assert (Hy : c <= y /\ y ∈ l).
      { apply (list_elem_of_filter (fun x => c <= x)). rewrite Ey. by left. }
      destruct (Z.ltb_spec c y).
      * exists (Skip y), ss1. split_and!; [done..|]. split; [done|]. exists l. split; [done|].
        intros x Hx ?. apply (incr_head_le _ (rest l (cursor l c + 1))).
        -- rewrite <- Ey, <- Hrest. by apply incr_drop.
        -- rewrite <- Ey. by apply list_elem_of_filter.
      * destruct (IH (S i) ss1) as (p & ss' & -> & ? & ? & Hp); [done|lia|].
        exists p, ss'. split_and!; [done|done|congruence|]. destruct p; cbn in *; try done.
        intros j l' ? ? Hj. destruct (decide (j = i)) as [->|]; [|apply (Hp j); [lia|done..]].
        assert (l' = l) as -> by congruence. assert (c = y) as -> by lia. apply Hy.
Qed.

Lemma in_all_elem x l : in_all ls x -> l ∈ ls -> x ∈ l.
Proof.
  intros Hx [j Hj]%list_elem_of_lookup. apply (Forall_lookup_1 _ _ _ _ Hx Hj).
Qed.

Lemma in_all_candidate c s : lm !! s = Some c -> probe_ok AllEqual c 0 (length bs) ->
  in_all ls c.
Proof.
  intros Hc Hp. apply Forall_lookup. intros j l Hj.
  destruct (decide (j = m)) as [->|].
  - assert (l = lm) as -> by congruence. by eapply list_elem_of_lookup_2.
  - apply (Hp j); [|done..]. destruct Hok as [HF _].
    apply lookup_lt_Some in Hj. rewrite (Forall2_length HF). lia.
Qed.

Lemma scan_min_spec fuel ss s res :
  length ss = length bs -> ss !! m = Some s -> 0 <= s -> vec_size res <= max ->
  (length (rest lm s) < fuel)%nat ->
  exists out ss' I', scan_min fuel (Z.of_nat m) max bs ss res = Ok (res ++ out, ss') /\
    emitted max res (filter (in_all ls) (rest lm s)) out I'.
Proof.
  revert ss s res. induction fuel as [|fuel IH]; intros ss s res Hss Hs Hnn Hr Hf; [lia|].
  cbn. rewrite (vec_at_nat _ _ bm), (vec_at_nat _ _ s) by done. cbn.
  destruct (Z.ltb_spec s (bk_size bm)) as [Hlt|Hge]; cbn.
  2: { exists [], ss, []. rewrite app_nil_r. split; [done|].
       rewrite (rest_nil bm lm) by done. by apply emitted_nil. }
  destruct (Z.eqb_spec (vec_size res) max) as [He|He].
  { exists [], ss. eexists. rewrite app_nil_r. split; [done|]. apply emitted_nil; lia. }
  destruct (rest_cons bm lm s Hm) as (c & -> & Ec & Hc); [done|]. cbn.
  destruct (probe_all_spec (length bs) 0 c ss) as (p & ss1 & Hpr & Hl1 & Hm1 & Hp);
    [done|lia|].
  change (Z.of_nat 0) with 0 in Hpr. rewrite Hpr. cbn. rewrite Hs in Hm1.
  pose proof (incr_drop lm (Z.to_nat s) Im) as Hi. fold (rest lm s) in Hi. rewrite Ec in Hi.
  assert (Hset : forall z, vec_set ss1 (Z.of_nat m) z = Ok (<[m := z]> ss1)).
  { intros z. rewrite (vec_set_lookup _ _ _ s); rewrite ?Nat2Z.id; done || lia. }
  assert (Hget : forall z : Z, <[m := z]> ss1 !! m = Some z).
  { intros z. apply list_lookup_insert_eq. by eapply lookup_lt_Some. }
  destruct p as [| |cur].
  - rewrite (vec_at_nat _ _ s) by done. cbn. rewrite Hset. cbn.
    rewrite Ec, filter_cons_True by (by eapply in_all_candidate).
    rewrite Ec in Hf. cbn in Hf.
    destruct (IH (<[m := s + 1]> ss1) (s + 1) (res ++ [c])) as (out & ss' & I' & -> & ?);
      [by rewrite length_insert|done|lia|unfold vec_size in *; rewrite length_app; cbn; lia|lia|].
    exists (c :: out), ss', I'. rewrite <- app_assoc. split; [done|by apply emitted_cons].
  - exists [], ss1, []. rewrite app_nil_r. split; [done|].
    destruct Hp as (l & Hin & Hl). rewrite Ec, list_filter_none; [by apply emitted_nil|].
    intros y Hy Hall. pose proof (Hl y (in_all_elem _ _ Hall Hin)).
    pose proof (incr_head_le _ _ _ Hi Hy). lia.
  - destruct Hp as (Hcc & l & Hin & Hl). rewrite (FastForwardBucket_cursor bm lm) by done. cbn.
    rewrite Hset. cbn.
    pose proof (rest_skip lm s c cur Im Zm Hc Hcc) as Hk.
    assert (Heq : filter (in_all ls) (rest lm s) = filter (in_all ls) (rest lm (cursor lm cur))).
    { rewrite Hk, list_filter_filter. apply list_filter_ext. intros y Hy. rewrite Ec in Hy.
      split; [|by intros []]. intros Hall. split; [done|].
      apply Hl; [by eapply in_all_elem|]. by eapply incr_head_le. }
    rewrite Heq. apply IH; [by rewrite length_insert|done|by apply rest_cursor|done|].
    pose proof (length_filter_cons_False (fun z => cur <= z) c (rest lm (s + 1))).
    rewrite Hk, Ec. rewrite Ec in Hf. lia.
Qed.
End many.

Lemma incr_filter (P : Z -> Prop) `{!forall x, Decision (P x)} l : incr l -> incr (filter P l).
Proof.
  induction l as [|x l IH]; intros Hl; [done|]. apply incr_cons in Hl as [Hl Hx].
  rewrite filter_cons. case_decide; [|by apply IH].
  intros i j a b Ha Hb Hij. destruct j as [|j]; [lia|]. cbn in Hb.
  destruct i as [|i]; cbn in Ha.
  - simplify_eq. apply Hx. apply list_elem_of_lookup_2 in Hb.
    by apply list_elem_of_filter in Hb as [_ ?].
  - apply (IH Hl i j); [done..|lia].
Qed.

(** An increasing list is determined by its elements. *)
Lemma incr_ext a b : incr a -> incr b -> (forall x, x ∈ a <-> x ∈ b) -> a = b.
Proof.
  revert b. induction a as [|x a IH]; intros b Ha Hb He.
  - destruct b as [|y b]; [done|]. by pose proof (proj2 (He y) (list_elem_of_here _ _)) as ?%elem_of_nil.
  - destruct b as [|y b]; [by pose proof (proj1 (He x) (list_elem_of_here _ _)) as ?%elem_of_nil|].
    assert (Hxy : x = y).
    { pose proof (incr_head_le _ _ x Hb (proj1 (He x) (list_elem_of_here _ _))).
      pose proof (incr_head_le _ _ y Ha (proj2 (He y) (list_elem_of_here _ _))). lia. }
    subst y. f_equal. apply incr_cons in Ha as [Ha Hxa]. apply incr_cons in Hb as [Hb Hxb].
    apply IH; [done..|]. intros z. pose proof (He z) as Hz. rewrite !elem_of_cons in Hz.
    split; intros Hin; [pose proof (Hxa z Hin)|pose proof (Hxb z Hin)];
      destruct Hz as [Hz1 Hz2]; [destruct Hz1|destruct Hz2]; auto; lia.
Qed.

(** The specification: the tuples from [t] on that are in every bucket. *)
Definition common (ls : list (list Z)) (t : Z) : list Z :=
  filter (fun x => t <= x /\ in_all ls x) (default [] (ls !! 0%nat)).

Section batch.
Context (bs : list ColumnIndexBucket) (ls : list (list Z)) (Hok : buckets_ok bs ls).
Context (t : Z).

(** Any bucket can be scanned in place of the first. *)
Lemma common_any j l : ls !! j = Some l ->
  filter (in_all ls) (filter (fun x => t <= x) l) = common ls t.
Proof.
  intros Hj. destruct Hok as [_ Hall]. unfold common.
  destruct (ls !! 0%nat) as [l0|] eqn:E; [|by destruct ls].
  apply list_elem_of_lookup_2 in Hj as Hl, E as Hl0. cbn.
  apply incr_ext; [by apply incr_filter, incr_filter, Hall|by apply incr_filter, Hall|].
  intros x. rewrite !list_elem_of_filter. split.
  - intros (? & ? & ?). split_and!; [done..|by eapply in_all_elem].
  - intros ((? & ?) & ?). split_and!; [done..|by eapply in_all_elem].
Qed.

Lemma intersection_init : BucketListSortedIntersectionInit bs t = Ok ((fun l => cursor l t) <$> ls).
Proof.
  destruct Hok as [HF Hall]. clear Hok. induction HF as [|b l bs' ls' Hb HF IH]; [done|].
  cbn. destruct (Hall l) as [? ?]; [by left|].
  rewrite (FastForwardBucket_cursor b l) by done. cbn.
  rewrite IH; [done|]. intros ? ?. apply Hall. by right.
Qed.

Lemma rounds_enough m b : bs !! m = Some b -> (Z.to_nat (bk_size b) < rounds bs)%nat.
Proof.
  clear Hok. unfold rounds. revert m. induction bs as [|b' bs' IH]; intros m Hm; [done|].
  destruct m as [|m]; simplify_eq/=; [lia|]. pose proof (IH m Hm). cbn in *. lia.
Qed.

Lemma any_done_spec ss : length ss = length bs ->
  exists d, any_done bs ss = Ok d /\
    (d = true -> exists i b s, bs !! i = Some b /\ ss !! i = Some s /\ bk_size b <= s).
Proof.
  clear Hok. revert ss. induction bs as [|b bs' IH]; intros [|s ss] Hl; simplify_eq/=; [by eexists|].
  destruct (Z.leb_spec (bk_size b) s).
  - eexists; split; [done|]. intros _. exists 0%nat, b, s. done.
  - destruct (IH ss) as (d & -> & Hd); [done|]. exists d. split; [done|].
    intros (i & ? & ? & ?)%Hd. exists (S i). eauto.
Qed.

Lemma min_list_from_spec n i mn ss : length ss = length bs ->
  (i + n <= length bs)%nat -> (mn < length bs)%nat ->
  exists m, min_list_from n (Z.of_nat i) bs ss (Z.of_nat mn) = Ok (Z.of_nat m) /\
    (m < length bs)%nat.
Proof.
  clear Hok. intros Hss. revert i mn. induction n as [|n IH]; intros i mn Hi Hmn; [by exists mn|].
  destruct (lookup_lt_is_Some_2 bs i) as [b Hb]; [lia|].
  destruct (lookup_lt_is_Some_2 ss i) as [s Hs]; [lia|].
  destruct (lookup_lt_is_Some_2 bs mn) as [bm Hbm]; [lia|].
  destruct (lookup_lt_is_Some_2 ss mn) as [sm Hsm]; [lia|].
  cbn. rewrite (vec_at_nat _ _ _ Hb), (vec_at_nat _ _ _ Hs). cbn.
  rewrite (vec_at_nat _ _ _ Hbm), (vec_at_nat _ _ _ Hsm). cbn.
  replace (Z.of_nat i + 1) with (Z.of_nat (S i)) by lia.
  destruct (bk_size b - s <? bk_size bm - sm); apply IH; lia.
Qed.
End batch.

(** The three cases of [BucketListSortedIntersectionPopulateResult] on the
    cursors [BucketListSortedIntersectionInit] leaves. *)
Lemma first_batch_many bs ls t max :
  buckets_ok bs ls -> (3 <= length bs)%nat -> 0 <= max ->
  exists ss', BucketListSortedIntersectionPopulateResult bs ((fun l => cursor l t) <$> ls) max
    = Ok (take (Z.to_nat max) (common ls t), ss').
Proof.
  intros Hok Hn Hmax. pose proof (Forall2_length (proj1 Hok)) as Hlen.
  set (ss := (fun l => cursor l t) <$> ls).
  assert (Hss : length ss = length bs) by (unfold ss; by rewrite length_fmap).
  assert (Hcase : BucketListSortedIntersectionPopulateResult bs ss max =
    (done ← any_done bs ss;
     if (done : bool) then Ok ([], ss) else
     min_list ← min_list_from (length bs - 1) 1 bs ss 0;
     scan_min (rounds bs) min_list max bs ss [])).
  { destruct bs as [|? [|? [|? ?]]]; cbn in Hn; done || lia. }
  rewrite Hcase. destruct (any_done_spec bs ss Hss) as ([] & -> & Hd); cbn.
  - destruct (Hd eq_refl) as (i & b & s & Hb & Hs & Hge).
    destruct (buckets_lookup _ _ _ _ Hok Hb) as (l & Hl & Hin & Hh & Hinc & Hz).
    unfold ss in Hs. rewrite list_lookup_fmap, Hl in Hs. injection Hs as <-.
    destruct (rest_cursor l t Hinc Hz) as [Hr _]. rewrite (rest_nil b l) in Hr by done.
    rewrite <- (common_any bs ls Hok t i l Hl), <- Hr, filter_nil, take_nil. by eexists.
  - destruct (min_list_from_spec bs (length bs - 1) 1 0 ss) as (m & Hm & Hlt); [done|lia..|].
    change (Z.of_nat 0) with 0 in Hm. change (Z.of_nat 1) with 1 in Hm. rewrite Hm. cbn.
    destruct (lookup_lt_is_Some_2 bs m Hlt) as [bm Hbm].
    destruct (buckets_lookup _ _ _ _ Hok Hbm) as (lm & Hlm & Hin & Hh & Hinc & Hz).
    destruct (rest_cursor lm t Hinc Hz) as [Hr Hnn].
    destruct (scan_min_spec bs ls Hok m bm lm max Hbm Hlm Hh Hinc Hz (rounds bs) ss
      (cursor lm t) []) as (out & ss' & I' & -> & He).
    + done.
    + unfold ss. by rewrite list_lookup_fmap, Hlm.
    + done.
    + done.
    + pose proof (rounds_enough bs m bm Hbm). destruct Hh as [Hsz _].
      unfold rest. rewrite length_drop. unfold vec_size in *. lia.
    + exists ss'. rewrite Hr, (common_any bs ls Hok t m lm Hlm) in He.
      apply emitted_take in He; [|done]. by subst.
Qed.

Lemma first_batch_two b0 b1 l0 l1 t max :
  buckets_ok [b0; b1] [l0; l1] -> 0 <= max ->
  exists ss', BucketListSortedIntersectionPopulateResult [b0; b1] [cursor l0 t; cursor l1 t] max
    = Ok (take (Z.to_nat max) (common [l0; l1] t), ss').
Proof.
  intros Hok Hmax. pose proof Hok as [HF Hall].
  apply Forall2_cons_1 in HF as [H0 HF]. apply Forall2_cons_1 in HF as [H1 _].
  destruct (Hall l0) as [I0 Z0]; [by left|]. destruct (Hall l1) as [I1 Z1]; [by right; left|].
  destruct (rest_cursor l0 t I0 Z0) as [R0 N0]. destruct (rest_cursor l1 t I1 Z1) as [R1 N1].
  destruct (scan2_spec b0 b1 l0 l1 max H0 H1 I0 I1 Z0 Z1 (rounds [b0; b1])
    (cursor l0 t) (cursor l1 t) []) as (out & s0 & s1 & Hs & _ & _ & He); [done..| |].
  { unfold rounds, rest. rewrite !length_drop. destruct H0 as [? _], H1 as [? _].
    unfold vec_size in *. cbn. lia. }
  apply emitted_take in He as ->; [|done].
  assert (Hc : inter (rest l0 (cursor l0 t)) (rest l1 (cursor l1 t)) = common [l0; l1] t).
  { rewrite R0, R1, <- (common_any [b0; b1] [l0; l1] Hok t 0 l0) by done.
    apply list_filter_ext. intros x. rewrite !list_elem_of_filter. unfold in_all.
    rewrite !list.Forall_cons, list.Forall_nil. naive_solver. }
  rewrite Hc in Hs. eexists.
  change (BucketListSortedIntersectionPopulateResult [b0; b1] [cursor l0 t; cursor l1 t] max)
    with ('(res, (s0, s1)) ← scan2 (rounds [b0; b1]) b0 b1 max (cursor l0 t) (cursor l1 t) [];
          ss ← vec_set [cursor l0 t; cursor l1 t] 0 s0; ss ← vec_set ss 1 s1; Ok (res, ss)).
  by rewrite Hs.
Qed.

Lemma first_batch_one b l t max :
  buckets_ok [b] [l] -> 0 <= max ->
  exists ss', BucketListSortedIntersectionPopulateResult [b] [cursor l t] max
    = Ok (take (Z.to_nat max) (common [l] t), ss').
Proof.
  intros Hok Hmax. pose proof Hok as [HF Hall].
  apply Forall2_cons_1 in HF as [H0 _]. destruct (Hall l) as [I0 Z0]; [by left|].
  destruct (rest_cursor l t I0 Z0) as [R0 N0].
  destruct (scan1_spec (rounds [b]) b l max (cursor l t) []) as (out & s & Hs & _ & He);
    [done..| |].
  { unfold rounds, rest. rewrite length_drop. destruct H0 as [? _]. unfold vec_size in *. cbn. lia. }
  apply emitted_take in He as ->; [|done].
  assert (Hc : rest l (cursor l t) = common [l] t).
  { rewrite R0, <- (common_any [b] [l] Hok t 0 l) by done.
    symmetry. apply list_filter_all. intros x [_ ?]%list_elem_of_filter.
    unfold in_all. by rewrite Forall_singleton. }
  rewrite Hc in Hs. eexists.
  change (BucketListSortedIntersectionPopulateResult [b] [cursor l t] max)
    with ('(res, s) ← scan1 (rounds [b]) b max (cursor l t) [];
          ss ← vec_set [cursor l t] 0 s; Ok (res, ss)).
  by rewrite Hs.
Qed.

(** Intersection: after [BucketListSortedIntersectionInit] with a tuple
    [t], one call of [BucketListSortedIntersectionPopulateResult] returns, and
    returns exactly the first [max] tuples from [t] on that are in every
    bucket, in increasing order, for one, two and more buckets alike. *)
Theorem intersection_first_batch (bs : list ColumnIndexBucket) (ls : list (list Z)) (t max : Z) :
  buckets_ok bs ls -> bs <> [] -> 0 <= max ->
  exists ss ss', BucketListSortedIntersectionInit bs t = Ok ss /\
    BucketListSortedIntersectionPopulateResult bs ss max =
      Ok (take (Z.to_nat max) (common ls t), ss').
Proof.
  intros Hok Hne Hmax. eexists. rewrite (intersection_init _ _ Hok).
  pose proof (Forall2_length (proj1 Hok)) as Hlen.
  destruct bs as [|b0 [|b1 [|b2 bs]]], ls as [|l0 [|l1 ls]]; try done;
    try (destruct ls; [|done]).
  - destruct (first_batch_one b0 l0 t max Hok Hmax) as [ss' ?]. by exists ss'.
  - destruct (first_batch_two b0 b1 l0 l1 t max Hok Hmax) as [ss' ?]. by exists ss'.
  - destruct (first_batch_many _ _ t max Hok) as [ss' ?]; [cbn; lia|done|]. by exists ss'.
Qed.

(**  Resuming with two buckets: from any cursors, a call emits the next
    common tuples, at most [max] of them, and leaves cursors from which exactly
    the remaining ones can be read; it stops short of [max] only at the end.
    Repeated calls therefore enumerate the intersection once. *)
Theorem intersection_resume_two (b0 b1 : ColumnIndexBucket) (l0 l1 : list Z) (s0 s1 max : Z) :
  buckets_ok [b0; b1] [l0; l1] -> 0 <= s0 -> 0 <= s1 -> 0 <= max ->
  exists out s0' s1',
    BucketListSortedIntersectionPopulateResult [b0; b1] [s0; s1] max = Ok (out, [s0'; s1']) /\
    0 <= s0' /\ 0 <= s1' /\
    inter (rest l0 s0) (rest l1 s1) = out ++ inter (rest l0 s0') (rest l1 s1') /\
    vec_size out <= max /\
    (vec_size out < max -> inter (rest l0 s0') (rest l1 s1') = []).
Proof.
  intros [HF Hall] N0 N1 Hmax.
  apply Forall2_cons_1 in HF as [H0 HF]. apply Forall2_cons_1 in HF as [H1 _].
  destruct (Hall l0) as [I0 Z0]; [by left|]. destruct (Hall l1) as [I1 Z1]; [by right; left|].
  destruct (scan2_spec b0 b1 l0 l1 max H0 H1 I0 I1 Z0 Z1 (rounds [b0; b1]) s0 s1 [])
    as (out & s0' & s1' & Hs & ? & ? & He); [done..| |].
  { unfold rounds, rest. rewrite !length_drop. destruct H0 as [? _], H1 as [? _].
    unfold vec_size in *. cbn. lia. }
  exists out, s0', s1'. split; [|by destruct He].
  change (BucketListSortedIntersectionPopulateResult [b0; b1] [s0; s1] max)
    with ('(res, (t0, t1)) ← scan2 (rounds [b0; b1]) b0 b1 max s0 s1 [];
          ss ← vec_set [s0; s1] 0 t0; ss ← vec_set ss 1 t1; Ok (res, ss)).
  by rewrite Hs.
Qed.

(** A bucket with the given entries. *)
Definition bucket_of (l : list Z) : ColumnIndexBucket :=
  MkBucket (Some <$> l) (vec_size l) (vec_size l).

Lemma holds_bucket_of l : holds (bucket_of l) l.
Proof. split; [done|]. cbn. by rewrite take_ge by (by rewrite length_fmap). Qed.

(** A decidable form of [incr], for concrete lists. *)
Fixpoint incrb (l : list Z) : bool :=
  match l with
  | [] => true
  | x :: l => forallb (fun y => x <? y) l && incrb l
  end.

Lemma incrb_incr l : incrb l = true -> incr l.
Proof.
  induction l as [|x l IH]; cbn; [done|]. intros [Hf Hl]%andb_true_iff.
  intros i j a b Ha Hb Hij. destruct j as [|j]; [lia|]. cbn in Hb.
  destruct i as [|i]; cbn in Ha.
  - simplify_eq. rewrite forallb_elem in Hf. apply Z.ltb_lt, Hf.
    by eapply list_elem_of_lookup_2.
  - apply (IH Hl i j); [done..|lia].
Qed.

Lemma buckets_ok_of ls :
  forallb (fun l => incrb l && (vec_size l <=? 2 ^ 30)) ls = true ->
  buckets_ok (bucket_of <$> ls) ls.
Proof.
  intros Hf. split.
  - clear Hf. induction ls; constructor; [apply holds_bucket_of|done].
  - rewrite forallb_elem in Hf. intros l [Hl Hs]%Hf%andb_true_iff.
    split; [by apply incrb_incr|by apply Z.leb_le].
Qed.

(**  Three buckets, resumed: when a call stops because the result is full, only
    the cursor of the scanned bucket has moved past the last tuple it emitted.
    If another bucket is the shortest one on the next call, that call starts at
    the same tuple and emits it again. *)
Theorem intersection_resume_duplicates :
  let bs := bucket_of <$> [[5; 20; 21; 22]; [1; 2; 3; 4; 5]; [1; 2; 3; 4; 5]] in
  BucketListSortedIntersectionInit bs 0 = Ok [0; 0; 0] /\
  BucketListSortedIntersectionPopulateResult bs [0; 0; 0] 1 = Ok ([5], [1; 4; 4]) /\
  BucketListSortedIntersectionPopulateResult bs [1; 4; 4] 1 = Ok ([5], [0; 5; 4]).
Proof. by vm_compute. Qed.

(**  The filtered variant ignores which buckets the filter names: with the
    filter [[0; 2]] it intersects buckets 0 and 1. *)
Theorem intersection_filter_consecutive :
  let bs := bucket_of <$> [[1; 2]; [1]; [2]] in
  exists ss, BucketListSortedIntersectionPopulateResultFilter bs [0; 0] 10 [0; 2] = Ok ([1], ss).
Proof. eexists. vm_compute. reflexivity. Qed.

Lemma BucketPushBack_appends_witness :
  exists b', BucketPushBack BucketInit 7 = Ok b' /\ bucket_wf b' [7].
Proof. apply (BucketPushBack_appends BucketInit [] 7); [apply BucketInit_wf|done]. Defined.

Lemma FastForwardBucket_spec_witness :
  exists r, FastForwardBucket (bucket_of [0; 4; 5; 8; 9]) 6 = Ok r /\
    ((r = INT32_MAX /\ forall x, x ∈ [0; 4; 5; 8; 9] -> x < 6) \/
     (0 <= r < 5 /\ exists y, [0; 4; 5; 8; 9] !! Z.to_nat r = Some y /\ 6 <= y /\
        forall i x, [0; 4; 5; 8; 9] !! i = Some x -> Z.of_nat i < r -> x < 6)).
Proof.
  apply (FastForwardBucket_spec (bucket_of [0; 4; 5; 8; 9]) [0; 4; 5; 8; 9] 6).
  - apply holds_bucket_of.
  - by apply incrb_incr.
  - done.
Defined.

Lemma intersection_first_batch_witness :
  exists ss ss',
    BucketListSortedIntersectionInit (bucket_of <$> [[1; 5; 7; 9]; [2; 5; 9]; [0; 5; 6; 9]]) 2 = Ok ss /\
    BucketListSortedIntersectionPopulateResult
      (bucket_of <$> [[1; 5; 7; 9]; [2; 5; 9]; [0; 5; 6; 9]]) ss 64 = Ok ([5; 9], ss').
Proof.
  apply (intersection_first_batch (bucket_of <$> [[1; 5; 7; 9]; [2; 5; 9]; [0; 5; 6; 9]])
    [[1; 5; 7; 9]; [2; 5; 9]; [0; 5; 6; 9]] 2 64).
  - by apply buckets_ok_of.
  - done.
  - done.
Defined.

Lemma intersection_resume_two_witness :
  exists out s0' s1',
    BucketListSortedIntersectionPopulateResult (bucket_of <$> [[1; 5; 9]; [5; 9]]) [1; 0] 1
      = Ok (out, [s0'; s1']) /\ 0 <= s0' /\ 0 <= s1' /\
    inter [5; 9] [5; 9] = out ++ inter (rest [1; 5; 9] s0') (rest [5; 9] s1') /\
    vec_size out <= 1 /\
    (vec_size out < 1 -> inter (rest [1; 5; 9] s0') (rest [5; 9] s1') = []).
Proof.
  apply (intersection_resume_two (bucket_of [1; 5; 9]) (bucket_of [5; 9]) [1; 5; 9] [5; 9] 1 0 1).
  - by apply (buckets_ok_of [[1; 5; 9]; [5; 9]]).
  - done.
  - done.
  - done.
Defined.
