(* ===== verification/BucketBatches.v ===== *)
(** * Reading an intersection batch by batch

    The callers of src/runtime/column_index_bucket.cc read an intersection of buckets
    into an array of fixed size, call after call, until a call returns nothing.  The
    calls together return the tuples all buckets have, in order.  With three or more
    buckets the last tuple of a full batch can come again at the start of the next. *)
From stdpp Require Import sorting.
From S2P Require Import Prelude ColumnIndexBucket.

(** The calls from cursors [ss] on: [n] batches that together are [L]. *)
Inductive enumerates (bs : list ColumnIndexBucket) (max : Z) : nat -> list Z -> list Z -> Prop :=
| enumerates_end ss ss' : BucketListSortedIntersectionPopulateResult bs ss max = Ok ([], ss') ->
    enumerates bs max 0 ss []
| enumerates_more n ss out ss' L : out <> [] ->
    BucketListSortedIntersectionPopulateResult bs ss max = Ok (out, ss') ->
    enumerates bs max n ss' L -> enumerates bs max (S n) ss (out ++ L).

(** The same calls with the batches kept apart. *)
Inductive batches (bs : list ColumnIndexBucket) (max : Z) : list Z -> list (list Z) -> Prop :=
| batches_end ss ss' : BucketListSortedIntersectionPopulateResult bs ss max = Ok ([], ss') -> batches bs max ss []
| batches_more ss out ss' outs : out <> [] ->
    BucketListSortedIntersectionPopulateResult bs ss max = Ok (out, ss') ->
    batches bs max ss' outs -> batches bs max ss (out :: outs).

(** A list cut into batches: each has [max] elements and the last one fewer.  Where
    [again] holds, the last element of a full batch may begin the next one too. *)
Inductive cut (again : Prop) (max : Z) : list Z -> list (list Z) -> Prop :=
| cut_none : cut again max [] []
| cut_last l : vec_size l < max -> cut again max l [l]
| cut_full out d l outs : vec_size (out ++ [d]) = max -> cut again max l outs ->
    cut again max ((out ++ [d]) ++ l) ((out ++ [d]) :: outs)
| cut_again out d l outs : again -> vec_size (out ++ [d]) = max -> cut again max (d :: l) outs ->
    cut again max ((out ++ [d]) ++ l) ((out ++ [d]) :: outs).

(** ** Common tuples *)
Lemma common_elem ls t x : ls <> [] -> x ∈ common ls t <-> t <= x /\ in_all ls x.
Proof.
  destruct ls as [|l ls]; [done|]. intros _. unfold common, in_all. cbn. rewrite list_elem_of_filter, list.Forall_cons. tauto.
Qed.

Lemma common_incr bs ls t : buckets_ok bs ls -> incr (common ls t).
Proof.
  intros [_ Hall]. unfold common. destruct ls as [|l ls]; [done|]. cbn. apply incr_filter, Hall. by left.
Qed.

Lemma incr_app a b : incr (a ++ b) -> incr a.
Proof. intros H i j x y Hx Hy. apply (H i j); by apply lookup_app_l_Some. Qed.

Lemma snoc_le L pre d I : incr L -> (pre ++ [d]) ++ I = L -> forall x, x ∈ pre ++ [d] -> x <= d.
Proof.
  intros Hi E x [i Hx]%list_elem_of_lookup. pose proof (lookup_lt_Some _ _ _ Hx) as Hil. rewrite length_app in Hil. cbn in Hil.
  apply (incr_le L i (length pre)); [done| | |lia].
  - rewrite <- E. by apply lookup_app_l_Some.
  - rewrite <- E, <- (assoc_L (++)). by apply list_lookup_middle.
Qed.

(** What follows the first [out] of the common tuples. *)
Lemma common_rest bs ls t out c I : buckets_ok bs ls -> ls <> [] -> common ls t = (out ++ [c]) ++ I -> I = common ls (c + 1).
Proof.
  intros Hok Hne E. pose proof (common_incr bs ls t Hok) as Hi. rewrite E in Hi. apply incr_ext.
  - replace I with (drop (length (out ++ [c])) ((out ++ [c]) ++ I)) by by rewrite drop_app_length. by apply incr_drop.
  - by eapply common_incr.
  - intros x. rewrite (common_elem ls (c + 1)) by done.
    assert (forall y, y ∈ I -> c < y) as Hgt.
    { intros y [k Hk]%list_elem_of_lookup. apply (Hi (length out) (length out + 1 + k)%nat); [| |lia].
      - rewrite <- (assoc_L (++)). by apply list_lookup_middle.
      - rewrite lookup_app_r by (rewrite length_app; cbn; lia). rewrite length_app. cbn. rewrite <- Hk. f_equal. lia. }
    split.
    + intros Hx. pose proof (Hgt x Hx). assert (x ∈ common ls t) as Hc by (rewrite E; apply elem_of_app; by right).
      apply common_elem in Hc as [? ?]; [|done]. split; [lia|done].
    + intros [Hx Hall]. assert (t <= c) as Htc.
      { assert (c ∈ common ls t) as [? _]%common_elem; [|done|done]. rewrite E. apply elem_of_app. left. apply elem_of_app. right. by left. }
      assert (x ∈ common ls t) as Hin by (apply common_elem; [done|split; [lia|done]]).
      rewrite E in Hin. apply elem_of_app in Hin as [Hin|Hin]; [|done]. exfalso.
      apply list_elem_of_lookup in Hin as [k Hk]. pose proof (lookup_lt_Some _ _ _ Hk) as Hl. rewrite length_app in Hl. cbn in Hl.
      assert (x <= c); [|lia]. apply (incr_le _ k (length out) x c Hi); [by apply lookup_app_l_Some| |lia].
      rewrite <- (assoc_L (++)). by apply list_lookup_middle.
Qed.

(** ** Three or more buckets *)
Section many.
Context (bs : list ColumnIndexBucket) (ls : list (list Z)) (Hok : buckets_ok bs ls).

(** Reading bucket [l] from [s] on meets the common tuples from [t] on. *)
Definition covers (l : list Z) (s t : Z) : Prop := 0 <= s /\ filter (in_all ls) (rest l s) = common ls t.

(** The cursors behind tuple [c]: each at [c] or right behind it. *)
Definition behind (ss : list Z) (c : Z) : Prop :=
  length ss = length bs /\
  forall j l s, ls !! j = Some l -> ss !! j = Some s -> covers l s c \/ covers l s (c + 1).

Definition exhausted (ss : list Z) : Prop :=
  exists i b s, bs !! i = Some b /\ ss !! i = Some s /\ bk_size b <= s.

Lemma covers_cursor j l t : ls !! j = Some l -> covers l (cursor l t) t.
Proof using Hok.
  intros Hj. destruct Hok as [_ Hall]. apply list_elem_of_lookup_2 in Hj as Hl. destruct (Hall l Hl) as [Hi Hz].
  destruct (rest_cursor l t Hi Hz) as [Hr Hn]. split; [done|]. rewrite Hr. by apply (common_any bs ls Hok t j l).
Qed.

Lemma covers_next j l s c : ls !! j = Some l -> 0 <= s -> l !! Z.to_nat s = Some c -> covers l (s + 1) (c + 1).
Proof using Hok.
  intros Hj Hs Hc. pose proof Hok as [_ Hall]. apply list_elem_of_lookup_2 in Hj as Hl. destruct (Hall l Hl) as [Hi Hz].
  split; [lia|]. rewrite <- (common_any bs ls Hok (c + 1) j l Hj). f_equal. unfold rest. rewrite Z2Nat.inj_add, Nat.add_1_r by lia.
  rewrite <- (take_drop (S (Z.to_nat s)) l) at 2. rewrite list.filter_app, list_filter_none, list_filter_all; [done| |].
  - intros x [k Hk]%list_elem_of_lookup. rewrite lookup_drop in Hk. pose proof (Hi _ _ _ _ Hc Hk). lia.
  - intros x [k Hk]%list_elem_of_lookup. apply lookup_take_Some in Hk as [Hk ?]. pose proof (incr_le l _ _ _ _ Hi Hk Hc). lia.
Qed.

Section scan.
Context (m : nat) (bm : ColumnIndexBucket) (lm : list Z) (max : Z).
Context (Hbm : bs !! m = Some bm) (Hlm : ls !! m = Some lm) (Hm : holds bm lm).

Lemma probe_all_cursors n : forall i c ss p ss', length ss = length bs ->
  probe_all n (Z.of_nat i) (Z.of_nat m) c bs ss = Ok (p, ss') ->
  length ss' = length bs /\ ss' !! m = ss !! m /\ (forall j, (j < i)%nat -> ss' !! j = ss !! j) /\
  (p = AllEqual -> forall j l, (i <= j < i + n)%nat -> j <> m -> ls !! j = Some l -> ss' !! j = Some (cursor l c)) /\
  (p = Exhausted -> exhausted ss').
Proof using Hok.
  induction n as [|n IH]; intros i c ss p ss' Hl; cbn [probe_all].
  { intros [= <- <-]. split_and!; try done. intros. lia. }
  replace (Z.of_nat i + 1) with (Z.of_nat (S i)) by lia. destruct (Z.eqb_spec (Z.of_nat i) (Z.of_nat m)) as [E|E].
  - intros H. destruct (IH _ _ _ _ _ Hl H) as (? & ? & Hlo & Heq & ?). split_and!; try done; [intros; apply Hlo; lia|].
    intros Hp j l Hj Hne. apply Heq; [done|lia|done].
  - destruct (bs !! i) as [b|] eqn:Hb.
    2: { unfold vec_at. rewrite Nat2Z.id, Hb. destruct (_ <? 0); done. }
    rewrite (vec_at_nat _ _ _ Hb). cbn [mbind Res_bind].
    destruct (buckets_lookup _ _ _ _ Hok Hb) as (l & Hli & Hin & Hh & Hinc & Hz).
    rewrite (FastForwardBucket_cursor b l) by done. cbn [mbind Res_bind].
    destruct (lookup_lt_is_Some_2 ss i) as [s Hs]; [rewrite Hl; by eapply lookup_lt_Some|].
    rewrite (vec_set_lookup _ _ _ s) by (rewrite ?Nat2Z.id; done || lia). cbn [mbind Res_bind]. rewrite Nat2Z.id.
    set (ss1 := <[i := cursor l c]> ss). assert (length ss1 = length bs) as Hl1 by (unfold ss1; by rewrite length_insert).
    assert (i < length ss)%nat as Hi by (by eapply lookup_lt_Some).
    assert (ss1 !! i = Some (cursor l c)) as Hi1 by (by apply list_lookup_insert_eq).
    assert (ss1 !! m = ss !! m) as Hm1 by (apply list_lookup_insert_ne; lia).
    assert (forall j, (j < i)%nat -> ss1 !! j = ss !! j) as Hlo1 by (intros; apply list_lookup_insert_ne; lia).
    destruct (Z.leb_spec (bk_size b) (cursor l c)).
    { intros [= <- <-]. split_and!; try done. intros _. by exists i, b, (cursor l c). }
    destruct (GetBucketValue b (cursor l c)) as [y| | |]; cbn [mbind Res_bind]; [|done..].
    destruct (c <? y); [intros [= <- <-]; by split_and!|].
    intros H'. destruct (IH _ _ _ _ _ Hl1 H') as (? & ? & Hlo & Heq & ?). split_and!; try done; [congruence| |].
    + intros j Hj. rewrite Hlo, Hlo1 by lia. done.
    + intros Hp j l' Hj Hne Hjl. destruct (decide (j = i)) as [->|]; [|apply Heq; [done|lia|done..]].
      rewrite Hlo, Hi1 by lia. congruence.
Qed.

Lemma scan_min_cursors fuel : forall ss s res r ss', length ss = length bs -> ss !! m = Some s -> 0 <= s ->
  (vec_size res = max -> exists pre c, res = pre ++ [c] /\ behind ss c) ->
  scan_min fuel (Z.of_nat m) max bs ss res = Ok (r, ss') -> length ss' = length bs /\
  (vec_size r = max -> exists pre c, r = pre ++ [c] /\ behind ss' c) /\ (vec_size r <> max -> exhausted ss').
Proof using Hok Hbm Hlm Hm.
  destruct Hok as [_ Hall]. destruct (Hall lm) as [Hinc Hz]; [by eapply list_elem_of_lookup_2|]. clear Hall.
  induction fuel as [|fuel IH]; intros ss s res r ss' Hl Hs Hn Hfull; [done|]. cbn [scan_min].
  rewrite (vec_at_nat _ _ _ Hbm), (vec_at_nat _ _ _ Hs). cbn [mbind Res_bind].
  destruct (Z.ltb_spec s (bk_size bm)) as [Hlt|Hge]; cbn [negb].
  2: { intros [= <- <-]. split_and!; [done|done|]. intros _. by exists m, bm, s. }
  destruct (Z.eqb_spec (vec_size res) max) as [He|He]; [by intros [= <- <-]|].
  destruct (rest_cons bm lm s Hm) as (c & -> & _ & Hc); [done|]. cbn [mbind Res_bind].
  destruct (probe_all _ _ _ _ _ _) as [[p ss1]| | |] eqn:Hpr; cbn [mbind Res_bind]; [|done..].
  change 0 with (Z.of_nat 0) in Hpr. destruct (probe_all_cursors _ _ _ _ _ _ Hl Hpr) as (Hl1 & Hm1 & _ & Heq & Hex). rewrite Hs in Hm1.
  assert (forall z : Z, vec_set ss1 (Z.of_nat m) z = Ok (<[m := z]> ss1)) as Hset.
  { intros z. rewrite (vec_set_lookup _ _ _ s); rewrite ?Nat2Z.id; done || lia. }
  assert (forall z : Z, <[m := z]> ss1 !! m = Some z) as Hget by (intros; apply list_lookup_insert_eq; by eapply lookup_lt_Some).
  destruct p as [| |cur].
  - rewrite (vec_at_nat _ _ _ Hm1). cbn [mbind Res_bind]. rewrite Hset. cbn [mbind Res_bind]. apply (IH _ (s + 1)); [by rewrite length_insert|done|lia|].
    intros _. exists res, c. split; [done|]. split; [by rewrite length_insert|]. intros j l z Hj Hzj.
    destruct (decide (j = m)) as [->|Hne].
    + rewrite Hget in Hzj. injection Hzj as <-. right. assert (l = lm) as -> by congruence. by apply (covers_next m).
    + rewrite list_lookup_insert_ne in Hzj by done. left. rewrite (Heq eq_refl j l) in Hzj; [injection Hzj as <-; by apply (covers_cursor j)| |done..].
      apply lookup_lt_Some in Hj. pose proof (Forall2_length (proj1 Hok)). lia.
  - intros [= <- <-]. split_and!; [done|intros; lia|]. intros _. by apply Hex.
  - rewrite (FastForwardBucket_cursor bm lm) by done. cbn [mbind Res_bind]. rewrite Hset. cbn [mbind Res_bind].
    apply (IH _ (cursor lm cur)); [by rewrite length_insert|done|by apply rest_cursor|by intros].
Qed.
End scan.
End many.

(** ** One call *)

(** The cursors from which the common tuples from [c] are read, with three or more
    buckets those from [c] or from behind it. *)
Definition cursors_at (bs : list ColumnIndexBucket) (ls : list (list Z)) (ss : list Z) (c : Z) : Prop :=
  match bs with
  | [_] => exists l s, ls = [l] /\ ss = [s] /\ 0 <= s /\ rest l s = common ls c
  | [_; _] => exists l0 l1 s0 s1, ls = [l0; l1] /\ ss = [s0; s1] /\ 0 <= s0 /\ 0 <= s1 /\
      inter (rest l0 s0) (rest l1 s1) = common ls c
  | _ => behind bs ls ss c
  end.

(** Where the cursors are behind a full batch whose last tuple is [d]. *)
Definition after (bs : list ColumnIndexBucket) (d : Z) : Z := if decide (length bs < 3)%nat then d + 1 else d.

(** The outcome of a call from cursors at [c]. *)
Definition batch_ok (bs : list ColumnIndexBucket) (ls : list (list Z)) (ss : list Z) (c max : Z) : Prop :=
  exists t ss', c <= t <= c + 1 /\ ((length bs < 3)%nat -> t = c) /\
    BucketListSortedIntersectionPopulateResult bs ss max = Ok (take (Z.to_nat max) (common ls t), ss') /\
    (max <= vec_size (common ls t) ->
      exists pre d, take (Z.to_nat max) (common ls t) = pre ++ [d] /\ cursors_at bs ls ss' (after bs d)) /\
    (vec_size (common ls t) < max ->
      exists ss'', BucketListSortedIntersectionPopulateResult bs ss' max = Ok ([], ss'')).

(** From what is emitted to the next cursors. *)
Lemma emitted_next bs ls t max out I : buckets_ok bs ls -> ls <> [] -> 0 < max ->
  ColumnIndexBucket.emitted max [] (common ls t) out I ->
  out = take (Z.to_nat max) (common ls t) /\
  (max <= vec_size (common ls t) -> exists pre d, out = pre ++ [d] /\ I = common ls (d + 1)) /\
  (vec_size (common ls t) < max -> I = []).
Proof.
  intros Hok Hne Hmax He. pose proof (emitted_take max _ _ _ ltac:(lia) He) as Eo. split; [done|].
  destruct He as (E & Hle & Hlt). cbn [app] in *. split.
  - intros Hsz. destruct out as [|d out _] using rev_ind.
    { exfalso. symmetry in Eo. apply (f_equal length) in Eo. rewrite length_take in Eo. unfold vec_size in *. cbn in Eo. lia. }
    exists out, d. split; [done|]. by apply (common_rest bs ls t out d I).
  - intros Hsz. apply Hlt. rewrite Eo, take_ge by (unfold vec_size in *; lia). done.
Qed.

Lemma one_batch b ls ss c max : buckets_ok [b] ls -> 0 < max -> cursors_at [b] ls ss c -> batch_ok [b] ls ss c max.
Proof.
  intros Hok Hmax (l & s & -> & -> & Hs & E). pose proof Hok as [HF _]. apply Forall2_cons_1 in HF as [Hb _].
  assert (forall s, BucketListSortedIntersectionPopulateResult [b] [s] max =
    '(res, s) ← scan1 (rounds [b]) b max s []; Ok (res, [s])) as Hcall.
  { intros s1. change (BucketListSortedIntersectionPopulateResult [b] [s1] max)
      with ('(res, s) ← scan1 (rounds [b]) b max s1 []; ss ← vec_set [s1] 0 s; Ok (res, ss)).
    by destruct (scan1 _ _ _ _ _) as [[? ?]| | |]. }
  assert (forall s, 0 <= s -> exists out s', scan1 (rounds [b]) b max s [] = Ok (out, s') /\ 0 <= s' /\
    ColumnIndexBucket.emitted max [] (rest l s) out (rest l s')) as Hscan.
  { intros s1 Hs1. destruct (scan1_spec (rounds [b]) b l max s1 []) as (out & s' & H); [done|done|unfold vec_size; cbn; lia| |by exists out, s'].
    unfold rounds, rest. rewrite length_drop. destruct Hb as [? _]. unfold vec_size in *. cbn. lia. }
  destruct (Hscan s Hs) as (out & s' & Ec & Hs' & He). rewrite E in He.
  destruct (emitted_next [b] [l] c max out (rest l s') Hok) as (-> & Hfull & Hend); [done|done|done|].
  exists c, [s']. rewrite Hcall, Ec. split_and!; [lia|lia|done|done| |].
  - intros Hsz. destruct (Hfull Hsz) as (pre & d & -> & Er). exists pre, d. split; [done|].
    exists l, s'. by split_and!.
  - intros Hsz. destruct (Hscan s' Hs') as (out' & s'' & Ec' & _ & He'). rewrite (Hend Hsz) in He'.
    destruct He' as (E' & _). symmetry in E'. apply app_nil in E' as [-> _]. rewrite Hcall, Ec'. by eexists.
Qed.

Lemma two_batch b0 b1 ls ss c max : buckets_ok [b0; b1] ls -> 0 < max -> cursors_at [b0; b1] ls ss c -> batch_ok [b0; b1] ls ss c max.
Proof.
  intros Hok Hmax (l0 & l1 & s0 & s1 & -> & -> & Hs0 & Hs1 & E).
  assert (forall s0 s1, 0 <= s0 -> 0 <= s1 -> exists out s0' s1',
    BucketListSortedIntersectionPopulateResult [b0; b1] [s0; s1] max = Ok (out, [s0'; s1']) /\ 0 <= s0' /\ 0 <= s1' /\
    ColumnIndexBucket.emitted max [] (inter (rest l0 s0) (rest l1 s1)) out (inter (rest l0 s0') (rest l1 s1'))) as Hscan.
  { intros u0 u1 H0 H1. destruct (intersection_resume_two b0 b1 l0 l1 u0 u1 max Hok H0 H1) as (out & s0' & s1' & ? & ? & ? & ? & ? & ?); [lia|].
    by exists out, s0', s1'. }
  destruct (Hscan s0 s1 Hs0 Hs1) as (out & s0' & s1' & Ec & Hs0' & Hs1' & He). rewrite E in He.
  destruct (emitted_next [b0; b1] [l0; l1] c max out _ Hok ltac:(done) Hmax He) as (-> & Hfull & Hend).
  exists c, [s0'; s1']. split_and!; [lia|lia|done|done| |].
  - intros Hsz. destruct (Hfull Hsz) as (pre & d & -> & Er). exists pre, d. split; [done|].
    exists l0, l1, s0', s1'. by split_and!.
  - intros Hsz. destruct (Hscan s0' s1' Hs0' Hs1') as (out' & ? & ? & Ec' & _ & _ & He'). rewrite (Hend Hsz) in He'.
    destruct He' as (E' & _). symmetry in E'. apply app_nil in E' as [-> _]. rewrite Ec'. by eexists.
Qed.

Lemma any_done_exhausted bs : forall ss, length ss = length bs -> exhausted bs ss -> any_done bs ss = Ok true.
Proof.
  induction bs as [|b bs IH]; intros [|s ss] Hl (i & b' & s' & Hb & Hs & Hle); try done. cbn [any_done].
  destruct (Z.leb_spec (bk_size b) s); [done|]. apply IH; [by injection Hl|]. destruct i as [|i]; [|by exists i, b', s'].
  injection Hb as <-. injection Hs as <-. lia.
Qed.

Lemma many_batch bs ls ss c max : buckets_ok bs ls -> (3 <= length bs)%nat -> 0 < max -> behind bs ls ss c ->
  exists t ss', c <= t <= c + 1 /\
    BucketListSortedIntersectionPopulateResult bs ss max = Ok (take (Z.to_nat max) (common ls t), ss') /\
    (max <= vec_size (common ls t) -> exists pre d, take (Z.to_nat max) (common ls t) = pre ++ [d] /\ behind bs ls ss' d) /\
    (vec_size (common ls t) < max -> exists ss'', BucketListSortedIntersectionPopulateResult bs ss' max = Ok ([], ss'')).
Proof.
  intros Hok Hn Hmax [Hl Hcov]. pose proof (Forall2_length (proj1 Hok)) as Hlen.
  assert (forall ss, BucketListSortedIntersectionPopulateResult bs ss max =
    (done ← any_done bs ss; if (done : bool) then Ok ([], ss) else
     min_list ← min_list_from (length bs - 1) 1 bs ss 0; scan_min (rounds bs) min_list max bs ss [])) as Hcall.
  { intros u. destruct bs as [|? [|? [|? ?]]]; cbn in Hn; done || lia. }
  assert (forall ss, length ss = length bs -> exhausted bs ss -> BucketListSortedIntersectionPopulateResult bs ss max = Ok ([], ss)) as Hend.
  { intros u Hu He. by rewrite Hcall, any_done_exhausted. }
  destruct (any_done_spec bs ss Hl) as ([] & Hd & Hex).
  - destruct (Hex eq_refl) as (i & b & s & Hb & Hs & Hge). destruct (buckets_lookup _ _ _ _ Hok Hb) as (l & Hli & _ & Hh & _).
    assert (exists t, c <= t <= c + 1 /\ common ls t = []) as (t & Ht & E).
    { destruct (Hcov i l s Hli Hs) as [[_ E]|[_ E]]; rewrite (rest_nil b l) in E by done; cbn in E; [exists c|exists (c + 1)]; split; done || lia. }
    exists t, ss. rewrite E. split_and!; [lia|lia|rewrite Hcall, Hd; by rewrite take_nil| |].
    + unfold vec_size. cbn. lia.
    + intros _. exists ss. by rewrite Hcall, Hd.
  - rewrite Hcall, Hd. cbn [mbind Res_bind].
    destruct (min_list_from_spec bs (length bs - 1) 1 0 ss) as (m & Hmin & Hlt); [done|lia..|].
    change (Z.of_nat 0) with 0 in Hmin. change (Z.of_nat 1) with 1 in Hmin. rewrite Hmin. cbn [mbind Res_bind].
    destruct (lookup_lt_is_Some_2 bs m Hlt) as [bm Hbm]. destruct (buckets_lookup _ _ _ _ Hok Hbm) as (lm & Hlm & _ & Hh & Hinc & Hz).
    destruct (lookup_lt_is_Some_2 ss m) as [s Hs]; [lia|].
    assert (exists t, c <= t <= c + 1 /\ 0 <= s /\ filter (in_all ls) (rest lm s) = common ls t) as (t & Ht & Hs0 & E).
    { destruct (Hcov m lm s Hlm Hs) as [[? ?]|[? ?]]; [exists c|exists (c + 1)]; split_and!; done || lia. }
    destruct (scan_min_spec bs ls Hok m bm lm max Hbm Hlm Hh Hinc Hz (rounds bs) ss s []) as (out & ss' & I & Hsc & He).
    { done. } { done. } { done. } { unfold vec_size. cbn. lia. }
    { pose proof (rounds_enough bs m bm Hbm). destruct Hh as [Hsz _]. unfold rest. rewrite length_drop. unfold vec_size in *. lia. }
    rewrite E in He. cbn [app] in Hsc.
    destruct (scan_min_cursors bs ls Hok m bm lm max Hbm Hlm Hh (rounds bs) ss s [] out ss' Hl Hs Hs0) as (Hl' & Hfull & Hex'); [unfold vec_size; cbn; lia|done|].
    destruct (emitted_next bs ls t max out I Hok) as (Eo & _ & _); [by destruct ls|done|done|]. rewrite Hsc.
    assert (vec_size out = Z.min max (vec_size (common ls t))) as Hsz by (rewrite Eo; unfold vec_size; rewrite length_take; lia).
    exists t, ss'. split_and!; [lia|lia|by rewrite Eo| |].
    + intros Hge. rewrite <- Eo. apply Hfull. lia.
    + intros Hlt'. exists ss'. apply Hend; [done|]. apply Hex'. lia.
Qed.

Lemma batch bs ls ss c max : buckets_ok bs ls -> bs <> [] -> 0 < max -> cursors_at bs ls ss c -> batch_ok bs ls ss c max.
Proof.
  intros Hok Hne Hmax Hc. destruct bs as [|b0 [|b1 [|b2 bs]]]; [done|by apply one_batch|by apply two_batch|].
  destruct (many_batch (b0 :: b1 :: b2 :: bs) ls ss c max) as (t & ss' & Ht & H); [done|cbn; lia|done|done|].
  exists t, ss'. split_and!; try apply Ht; [cbn; lia|apply H..].
Qed.

(** ** All calls *)
Lemma length_filter_mono {A} (P Q : A -> Prop) `{!forall x, Decision (P x), !forall x, Decision (Q x)} (l : list A) :
  (forall x, P x -> Q x) -> (length (filter P l) <= length (filter Q l))%nat.
Proof.
  intros HPQ. induction l as [|x l IH]; [done|]. rewrite !filter_cons. destruct (decide (P x)) as [Hp|].
  - rewrite decide_True by by apply HPQ. cbn [length]. lia.
  - case_decide; cbn [length]; lia.
Qed.

Lemma common_mono ls c t : c <= t -> (length (common ls t) <= length (common ls c))%nat.
Proof. intros Hct. apply length_filter_mono. intros x [? ?]. split; [lia|done]. Qed.

Lemma StronglySorted_incr l : incr l -> StronglySorted Z.le l.
Proof.
  induction l as [|x l IH]; [constructor|]. intros Hi. apply incr_cons in Hi as [Hi Hx]. constructor; [by apply IH|].
  apply Forall_forall. intros y Hy%list_elem_of_In. pose proof (Hx y Hy). lia.
Qed.

Lemma StronglySorted_append (a b : list Z) : StronglySorted Z.le a -> StronglySorted Z.le b ->
  (forall x y, x ∈ a -> y ∈ b -> x <= y) -> StronglySorted Z.le (a ++ b).
Proof.
  intros Ha Hb Hab. induction Ha as [|x a Ha IH Hx]; [done|]. cbn. constructor.
  - apply IH. intros; apply Hab; [by right|done].
  - apply Forall_forall. intros y [Hy|Hy]%list_elem_of_In%elem_of_app; [eapply list.Forall_forall in Hx; done|apply Hab; [by left|done]].
Qed.

Lemma incr_suffix a b : incr (a ++ b) -> incr b.
Proof. intros H. rewrite <- (drop_app_length a b). by apply incr_drop. Qed.

(** A list that is cut into batches has their elements, in order. *)
Lemma cut_sorted again max l outs : cut again max l outs -> incr l ->
  StronglySorted Z.le (concat outs) /\ (forall x, x ∈ concat outs <-> x ∈ l).
Proof.
  induction 1 as [|l Hl|out d l outs Hsz Hc IH|out d l outs Ha Hsz Hc IH]; intros Hi; cbn.
  - by split; [constructor|].
  - rewrite app_nil_r. split; [by apply StronglySorted_incr|done].
  - destruct IH as [Hs Hin]; [by eapply incr_suffix|]. pose proof (snoc_le _ out d l Hi eq_refl) as Hle. split.
    + apply StronglySorted_append; [by eapply StronglySorted_incr, incr_app|done|]. intros x y Hx Hy%Hin.
      apply list_elem_of_lookup in Hy as [k Hk]. pose proof (Hle x Hx).
      assert (d < y); [|lia]. apply (Hi (length out) (length out + 1 + k)%nat); [| |lia].
      * rewrite <- (assoc_L (++)). by apply list_lookup_middle.
      * rewrite lookup_app_r by (rewrite length_app; cbn; lia). rewrite length_app. cbn. rewrite <- Hk. f_equal. lia.
    + intros x. rewrite !(elem_of_app (out ++ [d])), Hin. done.
  - pose proof Hi as Hi'. rewrite <- (assoc_L (++)) in Hi'. apply incr_suffix in Hi'. cbn in Hi'.
    destruct IH as [Hs Hin]; [done|]. pose proof (snoc_le _ out d l Hi eq_refl) as Hle. split.
    + apply StronglySorted_append; [by eapply StronglySorted_incr, incr_app|done|]. intros x y Hx Hy%Hin.
      pose proof (Hle x Hx). apply incr_cons in Hi' as [_ Hd]. apply elem_of_cons in Hy as [->|Hy]; [lia|].
      pose proof (Hd y Hy). lia.
    + intros x. rewrite !(elem_of_app (out ++ [d])), Hin, elem_of_cons, elem_of_app, list_elem_of_singleton. tauto.
Qed.

(** Where no element comes again, the batches are the list. *)
Lemma cut_concat again max l outs : ~ again -> cut again max l outs -> concat outs = l.
Proof. induction 2; cbn; rewrite ?app_nil_r; [done|done|congruence|done]. Qed.

Lemma batches_enumerates bs max ss outs : batches bs max ss outs -> enumerates bs max (length outs) ss (concat outs).
Proof. induction 1; [by eapply enumerates_end|by eapply enumerates_more]. Qed.

(** The common tuples from a common tuple on. *)
Lemma common_cons bs ls t d : buckets_ok bs ls -> ls <> [] -> d ∈ common ls t -> common ls d = d :: common ls (d + 1).
Proof.
  intros Hok Hne Hd. apply common_elem in Hd as [_ Hd]; [|done].
  assert (forall x, x ∈ common ls (d + 1) -> d < x) as Hgt by (intros x [? _]%common_elem; [lia|done]).
  apply incr_ext; [by eapply common_incr| |].
  - intros [|i] [|j] x y Hx Hy Hij; cbn in Hx, Hy; [lia| |lia|].
    + injection Hx as <-. by apply Hgt, (list_elem_of_lookup_2 _ j).
    + apply (common_incr bs ls (d + 1) Hok i j); [done|done|lia].
  - intros x. rewrite elem_of_cons, !common_elem by done. split.
    + intros [Hx Hall]. destruct (decide (x = d)); [by left|right]. split; [lia|done].
    + intros [->|[? ?]]; [by split|]. split; [lia|done].
Qed.

Lemma common_skip bs ls t t' max : buckets_ok bs ls -> ls <> [] -> 0 < max -> t <= t' <= t + 1 ->
  take (Z.to_nat max) (common ls t) = take (Z.to_nat max) (common ls t') -> common ls t' = common ls t.
Proof.
  intros Hok Hne Hmax Ht E. destruct (decide (t' = t)) as [->|]; [done|]. replace t' with (t + 1) in * by lia. clear t' Ht n.
  destruct (decide (t ∈ common ls t)) as [Hin|Hn].
  - exfalso. assert (t ∈ take (Z.to_nat max) (common ls (t + 1))) as Hx.
    { rewrite <- E, (common_cons bs ls t t) by done. destruct (Z.to_nat max) eqn:?; [lia|]. by left. }
    apply elem_of_take in Hx as (i & Hx & _). apply list_elem_of_lookup_2 in Hx. apply common_elem in Hx as [? _]; [lia|done].
  - apply incr_ext; [by eapply common_incr|by eapply common_incr|]. intros x. rewrite !common_elem by done. split.
    + intros [? ?]. split; [lia|done].
    + intros [Hx Hall]. split; [|done]. destruct (decide (x = t)) as [->|]; [|lia]. exfalso. apply Hn, common_elem; [done|]. by split.
Qed.

(** All calls from cursors at [c]. *)
Lemma batches_from bs ls max : buckets_ok bs ls -> bs <> [] -> 0 < max -> ((3 <= length bs)%nat -> 2 <= max) -> forall k c ss,
  (length (common ls c) <= k)%nat -> cursors_at bs ls ss c ->
  exists t ss' outs, c <= t <= c + 1 /\ ((length bs < 3)%nat -> t = c) /\
    BucketListSortedIntersectionPopulateResult bs ss max = Ok (take (Z.to_nat max) (common ls t), ss') /\
    batches bs max ss' outs /\ (length outs <= k)%nat /\ (vec_size (common ls t) < max -> outs = []) /\
    cut (3 <= length bs)%nat max (common ls t) (take (Z.to_nat max) (common ls t) :: outs).
Proof.
  intros Hok Hne Hmax Hmax2. assert (ls <> []) as Hls by (destruct Hok as [HF _]; by destruct HF).
  induction k as [k IH] using lt_wf_ind. intros c ss Hk Hc.
  destruct (batch bs ls ss c max Hok Hne Hmax Hc) as (t & ss' & Ht & Htc & Hcall & Hfull & Hend).
  pose proof (common_mono ls c t ltac:(lia)) as Hlt. exists t, ss'.
  destruct (decide (vec_size (common ls t) < max)) as [Hs|Hs].
  { destruct (Hend Hs) as [ss'' Hc']. exists []. split_and!; try done; [lia|lia|by eapply batches_end|cbn; lia|].
    rewrite take_ge by (unfold vec_size in *; lia). by apply cut_last. }
  destruct (Hfull ltac:(lia)) as (pre & d & E & Hcd). rewrite E in Hcall |- *.
  assert (vec_size (pre ++ [d]) = max) as Hsz by (rewrite <- E; unfold vec_size in *; rewrite length_take; lia).
  pose proof (take_drop (Z.to_nat max) (common ls t)) as Esplit. rewrite E in Esplit.
  pose proof (common_rest bs ls t pre d _ Hok Hls (eq_sym Esplit)) as Erest. rewrite Erest in Esplit.
  assert (d ∈ common ls t) as Hdt by (rewrite <- Esplit, elem_of_app; left; rewrite elem_of_app; right; by left).
  pose proof (common_cons bs ls t d Hok Hls Hdt) as Ed.
  assert (length (common ls t) = Z.to_nat max + length (common ls (d + 1)))%nat as Hlen by
    (rewrite <- Esplit, length_app; unfold vec_size in Hsz; lia).
  assert (length (common ls (after bs d)) < length (common ls t))%nat as Hdec.
  { unfold after. case_decide; [lia|]. rewrite Ed. cbn [length]. specialize (Hmax2 ltac:(lia)). lia. }
  destruct (IH (length (common ls (after bs d))) ltac:(lia) (after bs d) ss' ltac:(lia) Hcd)
    as (t2 & ss2 & outs & Ht2 & Htc2 & Hcall2 & Hb & Hlo & _ & Hcut).
  assert (exists outs', batches bs max ss' outs' /\ cut (3 <= length bs)%nat max (common ls t2) outs' /\ (length outs' <= S (length outs))%nat) as (outs' & Hb' & Hcut' & Hlo').
  { destruct (common ls t2) as [|x l] eqn:E2.
    - rewrite take_nil in Hcall2. exists []. split_and!; [by eapply batches_end|apply cut_none|cbn; lia].
    - eexists. split_and!; [eapply batches_more; [|done|done]|done|done]. destruct (Z.to_nat max) eqn:?; [lia|done]. }
  exists outs'. split_and!; try done; [lia|lia|intros; lia|].
  rewrite <- Esplit. unfold after in *. case_decide as Hb3.
  - rewrite (Htc2 Hb3) in Hcut'. by apply cut_full.
  - destruct (decide (t2 = d)) as [->|].
    + rewrite Ed in Hcut'. apply cut_again; [lia|done|done].
    + replace t2 with (d + 1) in Hcut' by lia. by apply cut_full.
Qed.

Lemma cursors_init bs ls t : buckets_ok bs ls -> bs <> [] -> cursors_at bs ls ((fun l => cursor l t) <$> ls) t.
Proof.
  intros Hok Hne. pose proof Hok as [HF Hall]. pose proof (Forall2_length HF) as Hlen.
  assert (behind bs ls ((fun l => cursor l t) <$> ls) t) as Hb.
  { split; [by rewrite length_fmap|]. intros j l s Hj Hs. left. rewrite list_lookup_fmap, Hj in Hs. injection Hs as <-. by apply (covers_cursor bs ls Hok j). }
  destruct bs as [|b0 [|b1 [|b2 bs]]]; [done| | |done].
  - destruct ls as [|l [|]]; [done| |done]. destruct (Hall l) as [Hi Hz]; [by left|]. destruct (rest_cursor l t Hi Hz) as [Hr Hn].
    exists l, (cursor l t). split_and!; try done. rewrite Hr, <- (common_any [b0] [l] Hok t 0 l) by done.
    symmetry. apply list_filter_all. intros x [_ ?]%list_elem_of_filter. unfold in_all. by rewrite Forall_singleton.
  - destruct ls as [|l0 [|l1 [|]]]; [done|done| |done]. destruct (Hall l0) as [I0 Z0]; [by left|]. destruct (Hall l1) as [I1 Z1]; [by right; left|].
    destruct (rest_cursor l0 t I0 Z0) as [R0 N0], (rest_cursor l1 t I1 Z1) as [R1 N1].
    exists l0, l1, (cursor l0 t), (cursor l1 t). split_and!; try done. rewrite R0, R1, <- (common_any [b0; b1] [l0; l1] Hok t 0 l0) by done.
    apply list_filter_ext. intros x. rewrite !list_elem_of_filter. unfold in_all. rewrite !list.Forall_cons, list.Forall_nil. naive_solver.
Qed.

Lemma common_rounds bs ls t : buckets_ok bs ls -> (length (common ls t) < rounds bs)%nat.
Proof.
  intros [HF _]. unfold common. destruct HF as [|b l bs ls [Hsz _] HF]; [cbn; unfold rounds; lia|].
  cbn. pose proof (length_filter (fun x => t <= x /\ in_all (l :: ls) x) l). unfold rounds, vec_size in *. cbn. lia.
Qed.

(** All batches of an intersection. *)
Lemma intersection_batches bs ls t max : buckets_ok bs ls -> bs <> [] -> 0 < max -> ((3 <= length bs)%nat -> 2 <= max) ->
  exists ss ss' outs, let out := take (Z.to_nat max) (common ls t) in
    BucketListSortedIntersectionInit bs t = Ok ss /\
    BucketListSortedIntersectionPopulateResult bs ss max = Ok (out, ss') /\
    batches bs max ss' outs /\ (length outs <= rounds bs)%nat /\ (vec_size (common ls t) < max -> outs = []) /\
    cut (3 <= length bs)%nat max (common ls t) (out :: outs).
Proof.
  intros Hok Hne Hmax Hmax2. assert (ls <> []) as Hls by (destruct Hok as [HF _]; by destruct HF).
  pose proof (cursors_init bs ls t Hok Hne) as Hc. rewrite (intersection_init bs ls Hok).
  destruct (intersection_first_batch bs ls t max Hok Hne ltac:(lia)) as (ss0 & ss' & Hi & Hcall).
  rewrite (intersection_init bs ls Hok) in Hi. injection Hi as <-. pose proof (common_rounds bs ls t Hok) as Hr.
  destruct (batches_from bs ls max Hok Hne Hmax Hmax2 (length (common ls t)) t _ ltac:(done) Hc)
    as (t' & ss2 & outs & Ht & _ & Hcall2 & Hb & Hn & Hend & Hcut).
  rewrite Hcall in Hcall2. injection Hcall2 as E <-. rewrite <- E in Hcut.
  rewrite (common_skip bs ls t t' max) in Hend, Hcut by done. eexists _, ss', outs. cbn zeta. split_and!; try done. lia.
Qed.

(** The tuples the calls return, as one list. *)
Lemma intersection_read bs ls t max : buckets_ok bs ls -> bs <> [] -> 2 <= max ->
  exists ss ss' n L, let out := take (Z.to_nat max) (common ls t) in
    BucketListSortedIntersectionInit bs t = Ok ss /\
    BucketListSortedIntersectionPopulateResult bs ss max = Ok (out, ss') /\
    enumerates bs max n ss' L /\ (n <= rounds bs)%nat /\
    StronglySorted Z.le (out ++ L) /\ (forall x, x ∈ out ++ L <-> x ∈ common ls t) /\
    (vec_size (common ls t) < max -> L = []).
Proof.
  intros Hok Hne Hmax. destruct (intersection_batches bs ls t max Hok Hne ltac:(lia) ltac:(lia)) as (ss & ss' & outs & Hi & Hc & Hb & Hn & Hend & Hcut).
  exists ss, ss', (length outs), (concat outs). cbn zeta. apply batches_enumerates in Hb.
  apply cut_sorted in Hcut as [Hs Hin]; [|by eapply common_incr]. split_and!; try done. intros H. by rewrite Hend.
Qed.

(** C38. Reading an intersection in batches: the calls after
    [BucketListSortedIntersectionInit] with a tuple [t] return, until one returns nothing,
    the tuples from [t] on that are in every bucket, in order, cut into full batches and a
    last one that is not full.  With one or two buckets they are exactly these tuples,
    each once, for any result size from one on; with three or more buckets, and a result
    size from two on, the last tuple of a full batch, and no other, may come once more at
    the start of the next batch.  The number of calls is bounded by the sizes of the
    buckets. *)
Theorem intersection_enumerates (bs : list ColumnIndexBucket) (ls : list (list Z)) (t max : Z) :
  buckets_ok bs ls -> bs <> [] -> 0 < max -> ((3 <= length bs)%nat -> 2 <= max) ->
  exists ss ss' outs, let out := take (Z.to_nat max) (common ls t) in
    BucketListSortedIntersectionInit bs t = Ok ss /\
    BucketListSortedIntersectionPopulateResult bs ss max = Ok (out, ss') /\
    batches bs max ss' outs /\ (length outs <= rounds bs)%nat /\ (vec_size (common ls t) < max -> outs = []) /\
    cut (3 <= length bs)%nat max (common ls t) (out :: outs) /\
    ((length bs < 3)%nat -> out ++ concat outs = common ls t) /\
    StronglySorted Z.le (out ++ concat outs) /\ (forall x, x ∈ out ++ concat outs <-> x ∈ common ls t).
Proof.
  intros Hok Hne Hmax Hmax2. destruct (intersection_batches bs ls t max Hok Hne Hmax Hmax2) as (ss & ss' & outs & Hi & Hc & Hb & Hn & Hend & Hcut).
  exists ss, ss', outs. cbn zeta. pose proof (cut_sorted _ _ _ _ Hcut (common_incr bs ls t Hok)) as [Hs Hin]. split_and!; try done.
  intros H3. eapply cut_concat with (2 := Hcut). lia.
Qed.

Lemma intersection_enumerates_witness :
  let ls := [[5; 20; 21; 22]; [1; 2; 3; 4; 5; 20; 22]; [1; 2; 3; 4; 5; 20; 21; 22]] in let bs := bucket_of <$> ls in
  exists ss ss' outs, let out := take (Z.to_nat 2) (common ls 3) in
    BucketListSortedIntersectionInit bs 3 = Ok ss /\
    BucketListSortedIntersectionPopulateResult bs ss 2 = Ok (out, ss') /\
    batches bs 2 ss' outs /\ (length outs <= rounds bs)%nat /\ (vec_size (common ls 3) < 2 -> outs = []) /\
    cut (3 <= length bs)%nat 2 (common ls 3) (out :: outs) /\
    ((length bs < 3)%nat -> out ++ concat outs = common ls 3) /\
    StronglySorted Z.le (out ++ concat outs) /\ (forall x, x ∈ out ++ concat outs <-> x ∈ common ls 3).
Proof.
  intros ls bs. apply (intersection_enumerates bs ls 3 2); [by apply buckets_ok_of; vm_compute|done|lia|lia].
Defined.
