(* ===== verification/ArtNode.v ===== *)
(** * Nodes of the tuple index table

    src/runtime/tuple_idx_table/{key,leaf,node,node4,node16,node48,node256}: the
    keys (byte strings) and the inner nodes of the adaptive radix tree, with
    the same arrays as the C++ classes.  Every operation is related to one
    abstract view of a node, its entries: the (byte, child) pairs in increasing
    order of the byte. *)
From stdpp Require Import sorting.
From S2P Require Import Prelude.

(** ** Keys *)

(** The bytes of an [int32_t] in memory order (little endian). *)
Definition le_bytes (z : Z) : list Z :=
  [u8 z; u8 (Z.shiftr z 8); u8 (Z.shiftr z 16); u8 (Z.shiftr z 24)].

(** [Key::CreateKey]: a copy of the bytes of the array. *)
Definition CreateKey (data : list Z) : list Z := data ≫= le_bytes.

(** [Key::operator<], the loop over the common length, then the lengths. *)
Fixpoint Key_lt (a b : list Z) : bool :=
  match a, b with
  | x :: a, y :: b => if x <? y then true else if y <? x then false else Key_lt a b
  | _, _ => (length a <? length b)%nat
  end.
Fixpoint Key_gt (a b : list Z) : bool :=
  match a, b with
  | x :: a, y :: b => if y <? x then true else if x <? y then false else Key_gt a b
  | _, _ => (length b <? length a)%nat
  end.
Fixpoint Key_ge (a b : list Z) : bool :=
  match a, b with
  | x :: a, y :: b => if y <? x then true else if x <? y then false else Key_ge a b
  | _, _ => (length b <=? length a)%nat
  end.
Definition Key_eq (a b : list Z) : bool :=
  if negb (length a =? length b)%nat then false
  else forallb (fun p => p.1 =? p.2) (zip a b).

(** ** Nodes

    [prefix] is the used part of the prefix buffer ([prefix_length] bytes). *)
Inductive node : Type :=
| Leaf (value : list Z)
| Node4 (prefix : list Z) (count : Z) (key : list Z) (child : list (option node))
| Node16 (prefix : list Z) (count : Z) (key : list Z) (child : list (option node))
| Node48 (prefix : list Z) (count : Z) (child_index : list Z) (child : list (option node))
| Node256 (prefix : list Z) (count : Z) (child : list (option node)).

Definition EMPTY_MARKER : Z := 48.

(** The constructors of the node classes. *)
Definition Node4_new (prefix : list Z) : node :=
  Node4 prefix 0 (replicate 4 0) (replicate 4 None).
Definition Node16_new (prefix : list Z) : node :=
  Node16 prefix 0 (replicate 16 16) (replicate 16 None).
Definition Node48_new (prefix : list Z) : node :=
  Node48 prefix 0 (replicate 256 EMPTY_MARKER) (replicate 48 None).
Definition Node256_new (prefix : list Z) : node :=
  Node256 prefix 0 (replicate 256 None).

Definition node_prefix (n : node) : list Z :=
  match n with
  | Leaf _ => []
  | Node4 p _ _ _ | Node16 p _ _ _ | Node48 p _ _ _ | Node256 p _ _ => p
  end.
Definition set_prefix (n : node) (p : list Z) : node :=
  match n with
  | Leaf v => Leaf v
  | Node4 _ c k ch => Node4 p c k ch
  | Node16 _ c k ch => Node16 p c k ch
  | Node48 _ c ci ch => Node48 p c ci ch
  | Node256 _ c ch => Node256 p c ch
  end.

(** [Node::PrefixMismatch]: the number of prefix bytes the key matches. *)
Fixpoint PrefixMismatch_loop (prefix : list Z) (key : list Z) (depth pos : Z) : Res Z :=
  match prefix with
  | [] => Ok pos
  | b :: prefix =>
      x ← vec_at key (depth + pos);
      if negb (x =? b) then Ok pos else PrefixMismatch_loop prefix key depth (pos + 1)
  end.
Definition PrefixMismatch (n : node) (key : list Z) (depth : Z) : Res Z :=
  PrefixMismatch_loop (node_prefix n) key depth 0.

(** ** Positions *)

(** The search loops of [Node4] and [Node16] over the first [count] keys. *)
Fixpoint key_pos (keys : list Z) (k pos : Z) : Z :=
  match keys with
  | [] => -1
  | x :: keys => if x =? k then pos else key_pos keys k (pos + 1)
  end.

(** The loops of [Node48] and [Node256] over the slots from [pos] on: the first
    slot that is in use. *)
Fixpoint scan_from (pos : Z) (used : list bool) : Z :=
  match used with
  | [] => -1
  | u :: used => if u then pos else scan_from (pos + 1) used
  end.

Definition slot_used (i : Z) : bool := negb (i =? EMPTY_MARKER).
Definition is_child (o : option node) : bool := match o with Some _ => true | None => false end.

Definition Node4_GetChildPos (count : Z) (key : list Z) (k : Z) : Res Z :=
  Ok (key_pos (take (Z.to_nat count) key) k 0).
Definition Node16_GetChildPos (count : Z) (key : list Z) (k : Z) : Res Z :=
  Ok (key_pos (take (Z.to_nat count) key) k 0).
Definition Node48_GetChildPos (child_index : list Z) (k : Z) : Res Z :=
  i ← vec_at child_index k; Ok (if slot_used i then k else -1).
Definition Node256_GetChildPos (child : list (option node)) (k : Z) : Res Z :=
  c ← vec_at child k; Ok (if is_child c then k else -1).

(** The virtual calls of [Node] dispatch on the kind of the node. *)
Definition GetChildPos (n : node) (k : Z) : Res Z :=
  match n with
  | Leaf _ => Ok (-1)
  | Node4 _ count key _ => Node4_GetChildPos count key k
  | Node16 _ count key _ => Node16_GetChildPos count key k
  | Node48 _ _ child_index _ => Node48_GetChildPos child_index k
  | Node256 _ _ child => Node256_GetChildPos child k
  end.

Definition Node4_GetNextPos (count pos : Z) : Z :=
  if pos =? -1 then 0 else if pos + 1 <? count then pos + 1 else -1.
Definition Node16_GetNextPos (count pos : Z) : Z :=
  if pos =? -1 then 0 else if pos + 1 <? count then pos + 1 else -1.
Definition Node48_GetNextPos (child_index : list Z) (pos : Z) : Z :=
  let start := if pos =? -1 then 0 else pos + 1 in
  scan_from start (slot_used <$> drop (Z.to_nat start) child_index).
Definition Node256_GetNextPos (child : list (option node)) (pos : Z) : Z :=
  let start := if pos =? -1 then 0 else pos + 1 in
  scan_from start (is_child <$> drop (Z.to_nat start) child).
Definition GetNextPos (n : node) (pos : Z) : Z :=
  match n with
  | Leaf _ => -1
  | Node4 _ count _ _ => Node4_GetNextPos count pos
  | Node16 _ count _ _ => Node16_GetNextPos count pos
  | Node48 _ _ child_index _ => Node48_GetNextPos child_index pos
  | Node256 _ _ child => Node256_GetNextPos child pos
  end.

Definition Node4_GetMin : Z := 0.
Definition Node16_GetMin : Z := 0.
Definition Node48_GetMin (child_index : list Z) : Z := scan_from 0 (slot_used <$> child_index).
Definition Node256_GetMin (child : list (option node)) : Z := scan_from 0 (is_child <$> child).
Definition GetMin (n : node) : Z :=
  match n with
  | Leaf _ => 0
  | Node4 _ _ _ _ => Node4_GetMin
  | Node16 _ _ _ _ => Node16_GetMin
  | Node48 _ _ child_index _ => Node48_GetMin child_index
  | Node256 _ _ child => Node256_GetMin child
  end.

(** [GetChildGreaterEqual]: the first position whose byte is at least [k], and
    what is written to [equal], if anything; where the search fails the base
    class throws, except in [Node256]. *)
Definition Node_GetChildGreaterEqual : Res (Z * option bool) :=
  Throw "Unimplemented GetChildGreaterEqual for Node".
Fixpoint key_pos_ge (keys : list Z) (k pos : Z) : option (Z * option bool) :=
  match keys with
  | [] => None
  | x :: keys => if k <=? x then Some (pos, Some (x =? k)) else key_pos_ge keys k (pos + 1)
  end.
Definition Node4_GetChildGreaterEqual (count : Z) (key : list Z) (k : Z) : Res (Z * option bool) :=
  match key_pos_ge (take (Z.to_nat count) key) k 0 with
  | Some r => Ok r
  | None => Node_GetChildGreaterEqual
  end.
Definition Node16_GetChildGreaterEqual (count : Z) (key : list Z) (k : Z) : Res (Z * option bool) :=
  match key_pos_ge (take (Z.to_nat count) key) k 0 with
  | Some r => Ok r
  | None => Node_GetChildGreaterEqual
  end.
Definition Node48_GetChildGreaterEqual (child_index : list Z) (k : Z) : Res (Z * option bool) :=
  let pos := scan_from k (slot_used <$> drop (Z.to_nat k) child_index) in
  if pos =? -1 then Node_GetChildGreaterEqual else Ok (pos, Some (pos =? k)).
Definition Node256_GetChildGreaterEqual (child : list (option node)) (k : Z)
    : Res (Z * option bool) :=
  let pos := scan_from k (is_child <$> drop (Z.to_nat k) child) in
  Ok (pos, if pos =? -1 then None else Some (pos =? k)).
Definition GetChildGreaterEqual (n : node) (k : Z) : Res (Z * option bool) :=
  match n with
  | Leaf _ => Node_GetChildGreaterEqual
  | Node4 _ count key _ => Node4_GetChildGreaterEqual count key k
  | Node16 _ count key _ => Node16_GetChildGreaterEqual count key k
  | Node48 _ _ child_index _ => Node48_GetChildGreaterEqual child_index k
  | Node256 _ _ child => Node256_GetChildGreaterEqual child k
  end.

(** [GetChild]: the child in the slot at a position; [null] when it is empty. *)
Definition Node4_GetChild (count : Z) (child : list (option node)) (pos : Z) : Res (option node) :=
  if count <=? pos then Throw "invalid pos" else vec_at child pos.
Definition Node16_GetChild (child : list (option node)) (pos : Z) : Res (option node) :=
  vec_at child pos.
Definition Node48_GetChild (child_index : list Z) (child : list (option node)) (pos : Z)
    : Res (option node) :=
  i ← vec_at child_index pos; if negb (slot_used i) then Throw "Invalid" else vec_at child i.
Definition Node256_GetChild (child : list (option node)) (pos : Z) : Res (option node) :=
  c ← vec_at child pos; if is_child c then Ok c else Throw "invalid child".
Definition GetChild (n : node) (pos : Z) : Res (option node) :=
  match n with
  | Leaf _ => UB
  | Node4 _ count _ child => Node4_GetChild count child pos
  | Node16 _ _ _ child => Node16_GetChild child pos
  | Node48 _ _ child_index child => Node48_GetChild child_index child pos
  | Node256 _ _ child => Node256_GetChild child pos
  end.

(** Unfolds the virtual calls on a node of a known kind. *)
Ltac node_ops :=
  cbv beta iota delta [GetChildPos Node4_GetChildPos Node16_GetChildPos Node48_GetChildPos
    Node256_GetChildPos GetNextPos Node4_GetNextPos Node16_GetNextPos Node48_GetNextPos
    Node256_GetNextPos GetChild Node4_GetChild Node16_GetChild Node48_GetChild
    Node256_GetChild] in *.

(** A write through the pointer [GetChild] returns. *)
Definition set_child (n : node) (pos : Z) (c : node) : Res node :=
  match n with
  | Leaf _ => UB
  | Node4 p count key child => ch ← vec_set child pos (Some c); Ok (Node4 p count key ch)
  | Node16 p count key child => ch ← vec_set child pos (Some c); Ok (Node16 p count key ch)
  | Node48 p count ci child =>
      i ← vec_at ci pos; ch ← vec_set child i (Some c); Ok (Node48 p count ci ch)
  | Node256 p count child => ch ← vec_set child pos (Some c); Ok (Node256 p count ch)
  end.

(** ** Insertion *)
Definition Node256_Insert (p : list Z) (count : Z) (child : list (option node))
    (key_byte : Z) (c : node) : Res node :=
  ch ← vec_set child key_byte (Some c); Ok (Node256 p (u16 (count + 1)) ch).

(** The first null slot. *)
Fixpoint null_slot (child : list (option node)) (pos : Z) : Res Z :=
  match child with
  | [] => UB
  | Some _ :: child => null_slot child (pos + 1)
  | None :: _ => Ok pos
  end.

(** The children of a [Node48] as the 256 slots of a [Node256]. *)
Definition slots48 (ci : list Z) (child : list (option node)) : list (option node) :=
  (fun i => if slot_used i then default None (child !! Z.to_nat i) else None) <$> ci.

Definition Node48_Insert (p : list Z) (count : Z) (ci : list Z) (child : list (option node))
    (key_byte : Z) (c : node) : Res node :=
  if count <? 48 then
    o ← vec_at child count;
    pos ← (if is_child o then null_slot child 0 else Ok count);
    ch ← vec_set child pos (Some c);
    ci ← vec_set ci key_byte pos;
    Ok (Node48 p (u16 (count + 1)) ci ch)
  else Node256_Insert p count (slots48 ci child) key_byte c.

(** [key[i] = key[i - 1]] for i from [i] down, [steps] times. *)
Fixpoint shift_right {A} (steps : nat) (l : list A) (i : Z) : Res (list A) :=
  match steps with
  | O => Ok l
  | S steps => x ← vec_at l (i - 1); l ← vec_set l i x; shift_right steps l (i - 1)
  end.

(** [while (pos < count && key[pos] < key_byte) pos++]. *)
Fixpoint insert_pos (keys : list Z) (key_byte : Z) : Z :=
  match keys with
  | [] => 0
  | x :: keys => if x <? key_byte then 1 + insert_pos keys key_byte else 0
  end.

(** The insertion into a sorted key array that is not full. *)
Definition small_insert (count : Z) (key : list Z) (child : list (option node))
    (key_byte : Z) (c : node) : Res (Z * list Z * list (option node)) :=
  let pos := insert_pos (take (Z.to_nat count) key) key_byte in
  o ← vec_at child pos;
  '(key, child) ← (if is_child o then
       key ← shift_right (Z.to_nat (count - pos)) key count;
       child ← shift_right (Z.to_nat (count - pos)) child count;
       Ok (key, child)
     else Ok (key, child));
  key ← vec_set key pos key_byte;
  child ← vec_set child pos (Some c);
  Ok (u16 (count + 1), key, child).

(** The loop that fills a new [Node48]: [child_index[key[i]] = i]. *)
Fixpoint index_keys (keys : list Z) (i : Z) (ci : list Z) : Res (list Z) :=
  match keys with
  | [] => Ok ci
  | k :: keys => ci ← vec_set ci k i; index_keys keys (i + 1) ci
  end.

Definition Node16_Insert (p : list Z) (count : Z) (key : list Z) (child : list (option node))
    (key_byte : Z) (c : node) : Res node :=
  if count <? 16 then
    '(count, key, child) ← small_insert count key child key_byte c;
    Ok (Node16 p count key child)
  else
    ci ← index_keys (take (Z.to_nat count) key) 0 (replicate 256 EMPTY_MARKER);
    Node48_Insert p count ci (take (Z.to_nat count) child ++ replicate (48 - Z.to_nat count) None)
      key_byte c.

Definition Node4_Insert (p : list Z) (count : Z) (key : list Z) (child : list (option node))
    (key_byte : Z) (c : node) : Res node :=
  if count <? 4 then
    '(count, key, child) ← small_insert count key child key_byte c;
    Ok (Node4 p count key child)
  else
    Node16_Insert p 4 (take 4 key ++ replicate 12 16) (take 4 child ++ replicate 12 None)
      key_byte c.

Definition InsertLeaf (n : node) (key_byte : Z) (c : node) : Res node :=
  match n with
  | Leaf _ => Throw "Unrecognized leaf type for insert"
  | Node4 p count key child => Node4_Insert p count key child key_byte c
  | Node16 p count key child => Node16_Insert p count key child key_byte c
  | Node48 p count ci child => Node48_Insert p count ci child key_byte c
  | Node256 p count child => Node256_Insert p count child key_byte c
  end.

(** ** The entries of a node *)

(** The slots in use from byte [i] on. *)
Fixpoint tbl_entries (i : Z) (t : list (option node)) : list (Z * node) :=
  match t with
  | [] => []
  | Some c :: t => (i, c) :: tbl_entries (i + 1) t
  | None :: t => tbl_entries (i + 1) t
  end.

Definition entries (n : node) : list (Z * node) :=
  match n with
  | Leaf _ => []
  | Node4 _ count key child | Node16 _ count key child =>
      zip (take (Z.to_nat count) key) (omap id (take (Z.to_nat count) child))
  | Node48 _ _ ci child => tbl_entries 0 (slots48 ci child)
  | Node256 _ _ child => tbl_entries 0 child
  end.

(** Entries in increasing order of a byte. *)
Definition es_ok (es : list (Z * node)) : Prop :=
  StronglySorted Z.lt es.*1 /\ Forall (is_uw 8) es.*1.

(** The arrays of [Node4] and [Node16] hold [es] and are otherwise empty. *)
Definition small_rep (cap : nat) (count : Z) (key : list Z) (child : list (option node))
    (es : list (Z * node)) : Prop :=
  count = vec_size es /\ exists pad, length pad = (cap - length es)%nat /\ (length es <= cap)%nat /\
    key = es.*1 ++ pad /\ child = (Some <$> es.*2) ++ replicate (cap - length es) None.

(** The invariant of each kind of inner node. *)
Definition node_wf (n : node) : Prop :=
  match n with
  | Leaf _ => False
  | Node4 _ count key child => exists es, small_rep 4 count key child es /\ es_ok es
  | Node16 _ count key child => exists es, small_rep 16 count key child es /\ es_ok es
  | Node48 _ count ci child =>
      length ci = 256%nat /\ 0 <= count <= 48 /\
      (exists cs, length cs = Z.to_nat count /\
         child = (Some <$> cs) ++ replicate (48 - Z.to_nat count) None) /\
      (forall b i, ci !! b = Some i -> i = EMPTY_MARKER \/ 0 <= i < count) /\
      (forall b b' i, ci !! b = Some i -> ci !! b' = Some i -> i <> EMPTY_MARKER -> b = b')
  | Node256 _ _ child => length child = 256%nat
  end.

(** *** Tables of slots *)
Lemma tbl_entries_elem i t b c :
  (b, c) ∈ tbl_entries i t <-> i <= b /\ t !! Z.to_nat (b - i) = Some (Some c).
Proof.
  revert i. induction t as [|[c'|] t IH]; intros i; cbn.
  - rewrite elem_of_nil. by split; [|intros [_ ?]].
  - rewrite elem_of_cons, IH. split.
    + intros [[= -> ->]|[? Hl]]; [split; [lia|by rewrite Z.sub_diag]|]. split; [lia|].
      replace (Z.to_nat (b - i)) with (S (Z.to_nat (b - (i + 1)))) by lia. done.
    + intros [? Hl]. destruct (decide (b = i)) as [->|].
      * rewrite Z.sub_diag in Hl. left. by simplify_eq/=.
      * right. split; [lia|].
        by replace (Z.to_nat (b - i)) with (S (Z.to_nat (b - (i + 1)))) in Hl by lia.
  - rewrite IH. split.
    + intros [? Hl]. split; [lia|].
      replace (Z.to_nat (b - i)) with (S (Z.to_nat (b - (i + 1)))) by lia. done.
    + intros [? Hl]. destruct (decide (b = i)) as [->|]; [by rewrite Z.sub_diag in Hl|].
      split; [lia|]. by replace (Z.to_nat (b - i)) with (S (Z.to_nat (b - (i + 1)))) in Hl by lia.
Qed.

Lemma tbl_entries_ge i t b : b ∈ (tbl_entries i t).*1 -> i <= b < i + vec_size t.
Proof.
  intros ([b' c] & -> & Hb)%list_elem_of_fmap. apply tbl_entries_elem in Hb as [? Hl].
  apply lookup_lt_Some in Hl. unfold vec_size. cbn. lia.
Qed.

Lemma tbl_entries_sorted i t : StronglySorted Z.lt (tbl_entries i t).*1.
Proof.
  revert i. induction t as [|[c|] t IH]; intros i; cbn; [constructor| |apply IH].
  constructor; [apply IH|]. rewrite Forall_forall. intros b Hb.
  apply list_elem_of_In, tbl_entries_ge in Hb. lia.
Qed.

Lemma tbl_entries_ok t : length t = 256%nat -> es_ok (tbl_entries 0 t).
Proof.
  intros Hl. split; [apply tbl_entries_sorted|]. rewrite Forall_forall. intros b Hb.
  apply list_elem_of_In, tbl_entries_ge in Hb. unfold is_uw, vec_size in *. lia.
Qed.

(** *** Small nodes *)
Lemma small_rep_take cap count key child es : small_rep cap count key child es ->
  take (Z.to_nat count) key = es.*1 /\ take (Z.to_nat count) child = Some <$> es.*2.
Proof.
  intros (-> & pad & ? & ? & -> & ->). unfold vec_size. rewrite Nat2Z.id.
  rewrite !take_app_length' by (by rewrite !length_fmap). done.
Qed.

Lemma omap_Some {A} (l : list A) : omap id (Some <$> l) = l.
Proof. induction l as [|x l IH]; [done|]. cbn. by rewrite IH. Qed.

Lemma small_entries cap count key child es : small_rep cap count key child es ->
  zip (take (Z.to_nat count) key) (omap id (take (Z.to_nat count) child)) = es.
Proof. intros [-> ->]%small_rep_take. by rewrite omap_Some, zip_fst_snd. Qed.

Lemma key_pos_spec keys k pos : 0 <= pos ->
  (k ∉ keys /\ key_pos keys k pos = -1) \/
  (exists i, keys !! i = Some k /\ key_pos keys k pos = pos + Z.of_nat i).
Proof.
  revert pos. induction keys as [|x keys IH]; intros pos Hp; cbn.
  - left. split; [apply not_elem_of_nil|done].
  - destruct (Z.eqb_spec x k) as [->|Hne].
    + right. exists 0%nat. split; [done|lia].
    + destruct (IH (pos + 1)) as [[? ?]|(i & ? & ->)]; [lia| |].
      * left. split; [|done]. rewrite not_elem_of_cons. by split.
      * right. exists (S i). split; [done|lia].
Qed.

Lemma small_child cap count key child es i e : small_rep cap count key child es ->
  es !! i = Some e -> vec_at child (Z.of_nat i) = Ok (Some e.2) /\ Z.of_nat i < count.
Proof.
  intros (-> & pad & ? & ? & -> & ->) Hi. split.
  - apply vec_at_nat, lookup_app_l_Some. by rewrite !list_lookup_fmap, Hi.
  - apply lookup_lt_Some in Hi. unfold vec_size. lia.
Qed.

Lemma small_set cap count key child es i k c c' : small_rep cap count key child es ->
  es !! i = Some (k, c) ->
  exists child', vec_set child (Z.of_nat i) (Some c') = Ok child' /\
    small_rep cap count key child' (<[i := (k, c')]> es).
Proof.
  intros Hr Hi. pose proof (lookup_lt_Some _ _ _ Hi) as Hlt.
  destruct (small_child _ _ _ _ _ _ _ Hr Hi) as [[_ Hc]%vec_at_Ok _].
  eexists. split; [by apply (vec_set_lookup _ _ _ (Some c)); [lia|]|].
  destruct Hr as (-> & pad & ? & ? & -> & ->). rewrite Nat2Z.id.
  unfold small_rep, vec_size. rewrite length_insert. split; [done|]. exists pad.
  split_and!; [done|done| |].
  - rewrite list_fmap_insert. cbn. f_equal. symmetry. apply list_insert_id.
    by rewrite list_lookup_fmap, Hi.
  - rewrite insert_app_l by (by rewrite !length_fmap). by rewrite !list_fmap_insert.
Qed.

(** Shifting the tail of an array and storing at the gap inserts an element. *)
Lemma shift_insert {A} (a m r : list A) (y x : A) :
  (shift_right (length m) (a ++ m ++ y :: r) (Z.of_nat (length a + length m))
     ≫= fun l => vec_set l (Z.of_nat (length a)) x) = Ok (a ++ x :: m ++ r).
Proof.
  revert y r. induction m as [|z m IH] using rev_ind; intros y r.
  - cbn. rewrite (vec_set_lookup _ _ _ y); [|lia|];
      rewrite ?Nat2Z.id; [by rewrite insert_app_r_alt, Nat.sub_diag by lia|].
    by rewrite list_lookup_middle.
  - rewrite length_app, Nat.add_comm. cbn [length Nat.add shift_right].
    assert (Hz : (a ++ (m ++ [z]) ++ y :: r) !! (length a + length m)%nat = Some z).
    { rewrite lookup_app_r by lia. rewrite lookup_app_l by (rewrite length_app; cbn; lia).
      rewrite lookup_app_r by lia. by replace (length a + length m - length a - length m)%nat with 0%nat by lia. }
    assert (Hy : (a ++ (m ++ [z]) ++ y :: r) !! (length a + S (length m))%nat = Some y).
    { rewrite lookup_app_r by lia. rewrite lookup_app_r by (rewrite length_app; cbn; lia).
      rewrite length_app. cbn.
      by replace (length a + S (length m) - length a - (length m + 1))%nat with 0%nat by lia. }
    replace (Z.of_nat (length a + S (length m)) - 1) with (Z.of_nat (length a + length m)) by lia.
    rewrite (vec_at_nat _ _ _ Hz). cbn.
    rewrite (vec_set_lookup _ _ _ y) by (rewrite ?Nat2Z.id; done || lia). cbn.
    rewrite Nat2Z.id.
    assert (E : <[(length a + S (length m))%nat := z]> (a ++ (m ++ [z]) ++ y :: r) =
                a ++ m ++ z :: z :: r).
    { rewrite insert_app_r_alt by lia. f_equal. rewrite insert_app_r_alt by
        (rewrite length_app; cbn; lia). rewrite length_app. cbn.
      replace (length a + S (length m) - length a - (length m + 1))%nat with 0%nat by lia.
      by rewrite <- app_assoc. }
    rewrite E, IH, <- app_assoc. done.
Qed.

(** The insertion point splits the entries. *)
Lemma insert_pos_split (es : list (Z * node)) k : StronglySorted Z.lt es.*1 -> k ∉ es.*1 ->
  exists e1 e2, es = e1 ++ e2 /\ insert_pos es.*1 k = Z.of_nat (length e1) /\
    (forall b, b ∈ e1.*1 -> b < k) /\ (forall b, b ∈ e2.*1 -> k < b).
Proof.
  induction es as [|[b c] es IH]; intros Hs Hk; cbn.
  - exists [], []. split_and!; [done|done|by intros ? ?%elem_of_nil..].
  - cbn in Hs, Hk. apply StronglySorted_inv in Hs as [Hs Hall].
    apply not_elem_of_cons in Hk as [Hne Hk]. destruct (Z.ltb_spec b k).
    + destruct (IH Hs Hk) as (e1 & e2 & -> & -> & H1 & H2).
      exists ((b, c) :: e1), e2. split_and!; [done|cbn; lia| |done].
      cbn. intros x [->|?]%elem_of_cons; [done|auto].
    + exists [], ((b, c) :: es). split_and!; [done|done|by intros ? ?%elem_of_nil|].
      cbn. intros x [->|Hx]%elem_of_cons; [lia|].
      rewrite Forall_forall in Hall. apply list_elem_of_In in Hx. specialize (Hall x Hx). lia.
Qed.

Lemma StronglySorted_insert (l1 l2 : list Z) k :
  StronglySorted Z.lt (l1 ++ l2) -> (forall b, b ∈ l1 -> b < k) -> (forall b, b ∈ l2 -> k < b) ->
  StronglySorted Z.lt (l1 ++ k :: l2).
Proof.
  induction l1 as [|x l1 IH]; cbn; intros Hs H1 H2.
  - constructor; [done|]. rewrite Forall_forall. intros b Hb. apply H2. by apply list_elem_of_In.
  - apply StronglySorted_inv in Hs as [Hs Hall]. constructor.
    + apply IH; [done| |done]. intros b ?. apply H1. by right.
    + rewrite Forall_forall in *. intros b Hb. apply list_elem_of_In in Hb.
      rewrite elem_of_app, elem_of_cons in Hb.
      assert (x < k) by (apply H1; by left).
      destruct Hb as [Hb|[->|Hb]]; [|done|specialize (H2 _ Hb); lia].
      apply Hall, list_elem_of_In, elem_of_app. by left.
Qed.

Lemma es_ok_insert e1 e2 k c : es_ok (e1 ++ e2) -> is_uw 8 k ->
  (forall b, b ∈ e1.*1 -> b < k) -> (forall b, b ∈ e2.*1 -> k < b) -> es_ok (e1 ++ (k, c) :: e2).
Proof.
  unfold es_ok. rewrite !fmap_app, fmap_cons. cbn. intros [Hs Hf] Hk H1 H2. split.
  - by apply StronglySorted_insert.
  - apply Forall_app in Hf as [? ?]. apply Forall_app. split; [done|by constructor].
Qed.

(** Both arrays of a small node that is not full, after an insertion. *)
Lemma small_insert_spec cap count key child es k c :
  small_rep cap count key child es -> es_ok es -> (length es < cap)%nat -> (cap <= 48)%nat ->
  is_uw 8 k -> k ∉ es.*1 ->
  exists key' child' es',
    small_insert count key child k c = Ok (count + 1, key', child') /\
    small_rep cap (count + 1) key' child' es' /\ es_ok es' /\
    forall e, e ∈ es' <-> e ∈ es \/ e = (k, c).
Proof.
  intros Hr Hok Hlt Hcap Hk Hnin. destruct (small_rep_take _ _ _ _ _ Hr) as [Htk _].
  destruct Hr as (Hc & pad & Hpad & _ & Hkey & Hchild).
  destruct (insert_pos_split es k (proj1 Hok) Hnin) as (e1 & e2 & -> & Hpos & H1 & H2).
  rewrite length_app in *.
  destruct pad as [|y pad]; [cbn in Hpad; lia|]. cbn in Hpad.
  assert (Hrep : replicate (cap - (length e1 + length e2)) (@None node) =
    None :: replicate (cap - (length e1 + length e2) - 1) None).
  { by replace (cap - (length e1 + length e2))%nat with
      (S (cap - (length e1 + length e2) - 1))%nat at 1 by lia. }
  assert (Hcnt : u16 (count + 1) = count + 1).
  { apply uw_id. unfold is_uw, vec_size in *. rewrite length_app in Hc. lia. }
  set (e' := e1 ++ (k, c) :: e2).
  exists (e'.*1 ++ pad), ((Some <$> e'.*2) ++ replicate (cap - length e') None), e'.
  unfold small_insert. rewrite Htk, Hpos, Hcnt.
  assert (Hkey' : key = e1.*1 ++ e2.*1 ++ y :: pad).
  { rewrite Hkey, fmap_app, <- app_assoc. done. }
  assert (Hchild' : child = (Some <$> e1.*2) ++ (Some <$> e2.*2) ++
    None :: replicate (cap - (length e1 + length e2) - 1) None).
  { rewrite Hchild, fmap_app, fmap_app, Hrep, <- app_assoc. done. }
  assert (Hi : Z.of_nat (length e1 + length e2) = count)
    by (rewrite Hc; unfold vec_size; rewrite length_app; done).
  pose proof (shift_insert e1.*1 e2.*1 pad y k) as S1.
  pose proof (shift_insert (Some <$> e1.*2) (Some <$> e2.*2)
    (replicate (cap - (length e1 + length e2) - 1) None) None (Some c)) as S2.
  rewrite !length_fmap, Hi, <- Hkey' in S1. rewrite !length_fmap, Hi, <- Hchild' in S2.
  replace (Z.to_nat (count - Z.of_nat (length e1))) with (length e2) by lia.
  assert (Hat : exists o, vec_at child (Z.of_nat (length e1)) = Ok o /\
    (is_child o = false -> length e2 = 0%nat)).
  { rewrite Hchild'. destruct e2 as [|[b d] e2].
    - exists None. split; [|done]. apply vec_at_nat.
      by rewrite lookup_app_r, !length_fmap, Nat.sub_diag by (rewrite !length_fmap; lia).
    - exists (Some d). split; [|done]. apply vec_at_nat.
      by rewrite lookup_app_r, !length_fmap, Nat.sub_diag by (rewrite !length_fmap; lia). }
  destruct Hat as (o & -> & Hn). cbn.
  assert (Hrun : (('(key, child) ← (if is_child o then
       key ← shift_right (length e2) key count;
       child ← shift_right (length e2) child count; Ok (key, child)
     else Ok (key, child));
    key ← vec_set key (Z.of_nat (length e1)) k;
    child ← vec_set child (Z.of_nat (length e1)) (Some c);
    Ok (count + 1, key, child)) : Res (Z * list Z * list (option node))) =
    Ok (count + 1, e1.*1 ++ k :: e2.*1 ++ pad, (Some <$> e1.*2) ++ Some c :: (Some <$> e2.*2) ++
      replicate (cap - (length e1 + length e2) - 1) None)).
  { destruct (is_child o).
    - apply bind_Ok in S1 as (key1 & -> & S1). apply bind_Ok in S2 as (ch1 & -> & S2).
      cbn. rewrite S1. cbn. by rewrite S2.
    - destruct e2 as [|? e2]; [|by discriminate Hn]. clear - S1 S2.
      cbn [length shift_right mbind Res_bind] in S1, S2 |- *. rewrite S1.
      cbn [mbind Res_bind]. by rewrite S2. }
  split_and!.
  - etransitivity; [apply Hrun|]. unfold e'. rewrite !fmap_app, !fmap_cons, length_app.
    cbn [length fst snd]. rewrite <- !app_assoc. cbn [app].
    by replace (cap - (length e1 + S (length e2)))%nat with
      (cap - (length e1 + length e2) - 1)%nat by lia.
  - split; [unfold e', vec_size; rewrite length_app; cbn; lia|]. exists pad.
    unfold e'. rewrite length_app. cbn. split_and!; [lia|lia|done|done].
  - by apply es_ok_insert.
  - intros e. unfold e'. rewrite !elem_of_app, elem_of_cons. tauto.
Qed.

(** *** Growing *)

(** The index a [Node16] hands to a new [Node48]. *)
Lemma index_keys_spec keys i ci :
  NoDup keys -> Forall (is_uw 8) keys -> length ci = 256%nat ->
  exists ci', index_keys keys i ci = Ok ci' /\ length ci' = 256%nat /\
    (forall j k, keys !! j = Some k -> ci' !! Z.to_nat k = Some (i + Z.of_nat j)) /\
    (forall b, Z.of_nat b ∉ keys -> ci' !! b = ci !! b).
Proof.
  revert i ci. induction keys as [|k keys IH]; intros i ci Hnd Hu Hl.
  - exists ci. split_and!; done.
  - apply list.NoDup_cons in Hnd as [Hk Hnd]. apply list.Forall_cons in Hu as [[? ?] Hu].
    destruct (lookup_lt_is_Some_2 ci (Z.to_nat k)) as [x Hx]; [lia|]. cbn.
    rewrite (vec_set_lookup _ _ _ x) by done. cbn.
    destruct (IH (i + 1) (<[Z.to_nat k := i]> ci)) as (ci' & -> & Hl' & H1 & H2);
      [done|done|by rewrite length_insert|].
    exists ci'. split_and!; [done|done| |].
    + intros [|j] k' Hj; simplify_eq/=.
      * rewrite H2 by (by rewrite Z2Nat.id). rewrite list_lookup_insert_eq by lia. f_equal. lia.
      * rewrite (H1 _ _ Hj). f_equal. lia.
    + intros b Hb. apply not_elem_of_cons in Hb as [? Hb]. rewrite (H2 b Hb).
      apply list_lookup_insert_ne. lia.
Qed.

Lemma es_ok_NoDup es : es_ok es -> NoDup es.*1.
Proof.
  intros [Hs _]. induction Hs as [|b l Hs IH Hall]; constructor; [|done].
  intros Hin%list_elem_of_In. rewrite Forall_forall in Hall. specialize (Hall b Hin). lia.
Qed.

(** A slot of the 256-slot view of a [Node48]. *)
Lemma slots48_lookup ci child b : slots48 ci child !! b =
  (fun i => if slot_used i then default None (child !! Z.to_nat i) else None) <$> ci !! b.
Proof. unfold slots48. by rewrite list_lookup_fmap. Qed.

Lemma slot_used_spec i : slot_used i = true <-> i <> EMPTY_MARKER.
Proof. unfold slot_used. destruct (Z.eqb_spec i EMPTY_MARKER); cbn; split; congruence. Qed.

Lemma child48_used (cs : list node) i : 0 <= i < vec_size cs ->
  exists c, cs !! Z.to_nat i = Some c /\
    ((Some <$> cs) ++ replicate (48 - length cs) None) !! Z.to_nat i = Some (Some c).
Proof.
  intros Hi. unfold vec_size in Hi. destruct (lookup_lt_is_Some_2 cs (Z.to_nat i)) as [c Hc]; [lia|].
  exists c. split; [done|]. apply lookup_app_l_Some. by rewrite list_lookup_fmap, Hc.
Qed.

(** A full [Node16] becomes a [Node48] with the same entries. *)
Lemma grow48 p es : length es = 16%nat -> es_ok es ->
  exists ci, index_keys es.*1 0 (replicate 256 EMPTY_MARKER) = Ok ci /\
    let n := Node48 p 16 ci ((Some <$> es.*2) ++ replicate 32 None) in
    node_wf n /\ forall e, e ∈ entries n <-> e ∈ es.
Proof.
  intros Hl Hok.
  destruct (index_keys_spec es.*1 0 (replicate 256 EMPTY_MARKER)) as (ci & Hci & Hlen & H1 & H2);
    [by apply es_ok_NoDup|apply Hok|by rewrite length_replicate|].
  exists ci. split; [done|].
  assert (Hcase : forall b i, ci !! b = Some i -> i = EMPTY_MARKER \/
    exists j c, es !! j = Some (Z.of_nat b, c) /\ i = Z.of_nat j).
  { intros b i Hb. destruct (decide (Z.of_nat b ∈ es.*1)) as [Hin|Hin].
    - right. apply list_elem_of_lookup in Hin as [j Hj]. pose proof (H1 _ _ Hj) as Hc.
      rewrite Nat2Z.id, Hb in Hc. rewrite list_lookup_fmap_Some in Hj.
      destruct Hj as ([k c] & ? & Hj). cbn in *. subst k. exists j, c. split; [done|]. 
      by injection Hc.
    - left. rewrite (H2 b Hin), lookup_replicate in Hb. by destruct Hb. }
  assert (Hback : forall j b c, es !! j = Some (b, c) -> ci !! Z.to_nat b = Some (Z.of_nat j) /\ 0 <= b).
  { intros j b c Hj. assert (Hk : es.*1 !! j = Some b) by (by rewrite list_lookup_fmap, Hj).
    split; [by rewrite (H1 _ _ Hk)|]. destruct Hok as [_ Hu].
    apply (Forall_lookup_1 _ _ _ _ Hu) in Hk. unfold is_uw in Hk. lia. }
  split.
  - split_and!; [done|done|done| | |].
    + exists es.*2. split; [by rewrite length_fmap, Hl|done].
    + intros b i [->|(j & c & Hj & ->)]%Hcase; [by left|right].
      apply lookup_lt_Some in Hj. lia.
    + intros b b' i Hb Hb' Hne. apply Hcase in Hb as [|(j & c & Hj & ->)]; [done|].
      apply Hcase in Hb' as [|(j' & c' & Hj' & E)]; [done|].
      assert (j = j') as -> by lia. rewrite Hj in Hj'. simplify_eq. lia.
  - intros [b c]. cbn. rewrite tbl_entries_elem, Z.sub_0_r, slots48_lookup, fmap_Some. split.
    + intros (? & i & Hi & Hc). apply Hcase in Hi as [->|(j & d & Hj & ->)]; [done|].
      destruct (slot_used (Z.of_nat j)); [|done].
      rewrite Nat2Z.id, lookup_app_l in Hc by (rewrite !length_fmap; by eapply lookup_lt_Some).
      rewrite !list_lookup_fmap, Hj in Hc. cbn in Hc. injection Hc as <-.
      apply list_elem_of_lookup. exists j. rewrite Hj. do 2 f_equal. lia.
    + intros [j Hj]%list_elem_of_lookup. destruct (Hback _ _ _ Hj) as [Hc ?]. split; [done|].
      exists (Z.of_nat j). split; [done|].
      rewrite (proj2 (slot_used_spec _)) by (apply lookup_lt_Some in Hj; unfold EMPTY_MARKER; lia).
      rewrite Nat2Z.id, lookup_app_l by (rewrite !length_fmap; by eapply lookup_lt_Some).
      by rewrite !list_lookup_fmap, Hj.
Qed.

(** Filling an empty slot of a table, and replacing the child of a used one. *)
Lemma tbl_insert_elem t k c b d : 0 <= k < vec_size t ->
  (b, d) ∈ tbl_entries 0 (<[Z.to_nat k := Some c]> t) <->
  (b = k /\ d = c) \/ (b <> k /\ (b, d) ∈ tbl_entries 0 t).
Proof.
  intros Hk. unfold vec_size in Hk. rewrite !tbl_entries_elem, Z.sub_0_r.
  destruct (decide (b = k)) as [->|Hne].
  - rewrite list_lookup_insert_eq by lia. split; [intros [? [= ->]]; by left|].
    intros [[_ ->]|[? _]]; [split; [lia|done]|done].
  - split.
    + intros [? Hl]. rewrite list_lookup_insert_ne in Hl by lia. right. by split.
    + intros [[? ?]|[_ [? ?]]]; [done|]. split; [done|]. by rewrite list_lookup_insert_ne by lia.
Qed.

(** For a byte that has no entry, replacing is adding. *)
Lemma add_fresh (es : list (Z * node)) k c b d : k ∉ es.*1 ->
  ((b = k /\ d = c) \/ (b <> k /\ (b, d) ∈ es)) <-> (b, d) ∈ es \/ (b, d) = (k, c).
Proof.
  intros Hk. split.
  - intros [[-> ->]|[_ ?]]; auto.
  - intros [Hin|[= -> ->]]; [|by left]. right. split; [|done]. intros ->. apply Hk.
    apply list_elem_of_fmap. by exists (k, d).
Qed.

(** Writing slot [i] of a [Node48]'s child array, where only byte [k] uses it. *)
Lemma slots48_set ci child k i c :
  ci !! Z.to_nat k = Some i -> i <> EMPTY_MARKER -> 0 <= i < vec_size child ->
  (forall b, ci !! b = Some i -> b = Z.to_nat k) -> (forall b j, ci !! b = Some j -> 0 <= j) ->
  slots48 ci (<[Z.to_nat i := Some c]> child) = <[Z.to_nat k := Some c]> (slots48 ci child).
Proof.
  intros Hk Hne Hi Hinj Hnn. unfold vec_size in Hi. apply list_eq. intros b. rewrite slots48_lookup.
  destruct (decide (b = Z.to_nat k)) as [->|Hb].
  - rewrite Hk. cbn. rewrite (proj2 (slot_used_spec i)) by done.
    rewrite list_lookup_insert_eq by lia. cbn. rewrite list_lookup_insert_eq; [done|].
    unfold slots48. rewrite length_fmap. by eapply lookup_lt_Some.
  - rewrite list_lookup_insert_ne, slots48_lookup by done.
    destruct (ci !! b) as [j|] eqn:Ej; [|done]. cbn. f_equal.
    destruct (slot_used j) eqn:Hu; [|done].
    destruct (decide (Z.to_nat j = Z.to_nat i)) as [E|E]; [|by rewrite list_lookup_insert_ne].
    pose proof (Hnn _ _ Ej). assert (j = i) as -> by lia. by apply Hinj in Ej.
Qed.

Lemma node48_nonneg p count ci child b j :
  node_wf (Node48 p count ci child) -> ci !! b = Some j -> 0 <= j.
Proof. intros (_ & ? & _ & Hv & _) Hb. destruct (Hv _ _ Hb) as [->|]; [done|lia]. Qed.

Lemma Node48_Insert_spec p count ci child k c :
  node_wf (Node48 p count ci child) -> is_uw 8 k ->
  k ∉ (entries (Node48 p count ci child)).*1 ->
  exists n', Node48_Insert p count ci child k c = Ok n' /\ node_wf n' /\ node_prefix n' = p /\
    forall e, e ∈ entries n' <-> e ∈ entries (Node48 p count ci child) \/ e = (k, c).
Proof.
  intros Hwf [Hk0 Hk1] Hnin.
  assert (Hnn : forall b j, ci !! b = Some j -> 0 <= j) by (intros; by eapply node48_nonneg).
  destruct Hwf as (Hlen & Hcnt & (cs & Hcs & Hch) & Hv & Hinj).
  unfold Node48_Insert. destruct (Z.ltb_spec count 48) as [Hlt|Hge].
  - assert (Hfree : child !! Z.to_nat count = Some None).
    { rewrite Hch, lookup_app_r by (rewrite length_fmap; lia). apply lookup_replicate.
      rewrite length_fmap. split; [done|lia]. }
    rewrite (proj2 (vec_at_Ok _ _ None)) by (split; [lia|done]). cbn.
    rewrite (vec_set_lookup _ _ _ None) by (done || lia). cbn.
    destruct (lookup_lt_is_Some_2 ci (Z.to_nat k)) as [i0 Hi0]; [lia|].
    rewrite (vec_set_lookup _ _ _ i0) by done. cbn. rewrite uw_id by (unfold is_uw; lia).
    eexists. split; [done|].
    assert (Hlook : forall b i, <[Z.to_nat k := count]> ci !! b = Some i ->
      (b = Z.to_nat k /\ i = count) \/ (b <> Z.to_nat k /\ ci !! b = Some i)).
    { intros b i Hb. apply list_lookup_insert_Some in Hb as [(-> & -> & _)|[? ?]]; auto. }
    assert (Hne : forall b i, ci !! b = Some i -> i <> count).
    { intros b i Hb ->. destruct (Hv _ _ Hb); unfold EMPTY_MARKER in *; lia. }
    split; [split_and!|split; [done|]].
    + by rewrite length_insert.
    + lia.
    + lia.
    + exists (cs ++ [c]). rewrite length_app, fmap_app. cbn. split; [lia|].
      rewrite Hch, <- app_assoc. rewrite <- Hcs, insert_app_r_alt by (rewrite length_fmap; lia).
      rewrite length_fmap, Nat.sub_diag, Hcs.
      replace (48 - Z.to_nat count)%nat with (S (48 - Z.to_nat (count + 1))) by lia. done.
    + intros b i [[-> ->]|[_ Hb]]%Hlook; [right; lia|]. destruct (Hv _ _ Hb); [by left|right; lia].
    + intros b b' i Hb Hb' Hi. apply Hlook in Hb as [[-> ->]|[? Hb]];
        apply Hlook in Hb' as [[-> E]|[? Hb']]; subst; try done;
        [by apply Hne in Hb'|by apply Hne in Hb|by eapply Hinj].
    + assert (E : slots48 (<[Z.to_nat k := count]> ci) (<[Z.to_nat count := Some c]> child) =
                  <[Z.to_nat k := Some c]> (slots48 ci child)).
      { apply list_eq. intros b. rewrite slots48_lookup.
        destruct (decide (b = Z.to_nat k)) as [->|Hb].
        - rewrite !list_lookup_insert_eq; [|unfold slots48; rewrite length_fmap; lia|lia]. cbn.
          rewrite (proj2 (slot_used_spec count)) by (unfold EMPTY_MARKER; lia).
          rewrite list_lookup_insert_eq; [done|]. by eapply lookup_lt_Some.
        - rewrite !list_lookup_insert_ne, slots48_lookup by done.
          destruct (ci !! b) as [j|] eqn:Ej; [|done]. cbn. f_equal.
          pose proof (Hnn _ _ Ej). pose proof (Hne _ _ Ej).
          by rewrite list_lookup_insert_ne by lia. }
      intros [b d]. cbn. rewrite E, tbl_insert_elem; [by apply add_fresh|].
      unfold vec_size, slots48. rewrite length_fmap. lia.
  - unfold Node256_Insert.
    assert (Hl : length (slots48 ci child) = 256%nat) by (unfold slots48; by rewrite length_fmap).
    destruct (lookup_lt_is_Some_2 (slots48 ci child) (Z.to_nat k)) as [o Ho]; [lia|].
    rewrite (vec_set_lookup _ _ _ o) by done. cbn. eexists. split; [done|].
    split_and!; [cbn; by rewrite length_insert|done|].
    intros [b d]. cbn. rewrite tbl_insert_elem; [by apply add_fresh|]. unfold vec_size. lia.
Qed.

Lemma Node16_Insert_spec p count key child k c :
  node_wf (Node16 p count key child) -> is_uw 8 k ->
  k ∉ (entries (Node16 p count key child)).*1 ->
  exists n', Node16_Insert p count key child k c = Ok n' /\ node_wf n' /\ node_prefix n' = p /\
    forall e, e ∈ entries n' <-> e ∈ entries (Node16 p count key child) \/ e = (k, c).
Proof.
  intros (es & Hr & Hok) Hk. cbn [entries]. rewrite (small_entries _ _ _ _ _ Hr). intros Hnin.
  pose proof Hr as (Hc & pad & ? & Hle & _). unfold vec_size in Hc. unfold Node16_Insert.
  destruct (Z.ltb_spec count 16).
  - destruct (small_insert_spec 16 count key child es k c) as (key' & ch' & es' & -> & Hr' & Hok' & He);
      [done|done|lia|lia|done|done|].
    cbn. eexists. split; [done|]. split_and!; [by exists es'|done|].
    intros e. cbn [entries]. by rewrite (small_entries _ _ _ _ _ Hr').
  - destruct (small_rep_take _ _ _ _ _ Hr) as [-> ->].
    destruct (grow48 p es) as (ci & -> & Hwf & He); [lia|done|]. cbn [mbind Res_bind].
    replace count with 16 by lia. change (48 - Z.to_nat 16)%nat with 32%nat.
    destruct (Node48_Insert_spec p 16 ci ((Some <$> es.*2) ++ replicate 32 None) k c Hwf Hk)
      as (n' & Hn & ? & ? & He').
    { intros ([b d] & -> & Hin)%list_elem_of_fmap. apply He in Hin. apply Hnin.
      apply list_elem_of_fmap. by exists (b, d). }
    exists n'. split_and!; [done..|]. intros e. by rewrite He', He.
Qed.

Lemma Node4_Insert_spec p count key child k c :
  node_wf (Node4 p count key child) -> is_uw 8 k ->
  k ∉ (entries (Node4 p count key child)).*1 ->
  exists n', Node4_Insert p count key child k c = Ok n' /\ node_wf n' /\ node_prefix n' = p /\
    forall e, e ∈ entries n' <-> e ∈ entries (Node4 p count key child) \/ e = (k, c).
Proof.
  intros (es & Hr & Hok) Hk. cbn [entries]. rewrite (small_entries _ _ _ _ _ Hr). intros Hnin.
  pose proof Hr as (Hc & pad & ? & Hle & Hkey & Hchild). unfold vec_size in Hc.
  unfold Node4_Insert. destruct (Z.ltb_spec count 4).
  - destruct (small_insert_spec 4 count key child es k c) as (key' & ch' & es' & -> & Hr' & Hok' & He);
      [done|done|lia|lia|done|done|].
    cbn. eexists. split; [done|]. split_and!; [by exists es'|done|].
    intros e. cbn [entries]. by rewrite (small_entries _ _ _ _ _ Hr').
  - assert (Hl : length es = 4%nat) by lia.
    assert (Hr' : small_rep 16 4 (take 4 key ++ replicate 12 16) (take 4 child ++ replicate 12 None) es).
    { destruct (small_rep_take _ _ _ _ _ Hr) as [T1 T2].
      replace (Z.to_nat count) with 4%nat in * by lia. rewrite T1, T2.
      split; [unfold vec_size; lia|]. exists (replicate 12 16).
      rewrite Hl, length_replicate. split_and!; [done|lia|done|done]. }
    destruct (Node16_Insert_spec p 4 (take 4 key ++ replicate 12 16) (take 4 child ++ replicate 12 None) k c)
      as (n' & Hn & ? & ? & He); [by exists es|done| |].
    { cbn [entries]. by rewrite (small_entries _ _ _ _ _ Hr'). }
    exists n'. split_and!; [done..|]. intros e. rewrite He. cbn [entries].
    by rewrite (small_entries _ _ _ _ _ Hr').
Qed.

Lemma entries_ok n : node_wf n -> es_ok (entries n).
Proof.
  destruct n as [v|p cnt key ch|p cnt key ch|p cnt ci ch|p cnt ch]; cbn [node_wf entries].
  - done.
  - intros (es & Hr & ?). by rewrite (small_entries _ _ _ _ _ Hr).
  - intros (es & Hr & ?). by rewrite (small_entries _ _ _ _ _ Hr).
  - intros (? & _). apply tbl_entries_ok. unfold slots48. by rewrite length_fmap.
  - apply tbl_entries_ok.
Qed.

Lemma InsertLeaf_adds n k c : node_wf n -> is_uw 8 k -> k ∉ (entries n).*1 ->
  exists n', InsertLeaf n k c = Ok n' /\ node_wf n' /\ node_prefix n' = node_prefix n /\
    forall e, e ∈ entries n' <-> e ∈ entries n \/ e = (k, c).
Proof.
  destruct n as [v|p cnt key ch|p cnt key ch|p cnt ci ch|p cnt ch]; intros Hwf Hk Hnin.
  - done.
  - by apply Node4_Insert_spec.
  - by apply Node16_Insert_spec.
  - by apply Node48_Insert_spec.
  - cbn in Hwf. destruct Hk. destruct (lookup_lt_is_Some_2 ch (Z.to_nat k)) as [o Ho]; [lia|].
    cbn. unfold Node256_Insert. rewrite (vec_set_lookup _ _ _ o) by done. cbn.
    eexists. split; [done|]. split_and!; [cbn; by rewrite length_insert|done|].
    intros [b d]. cbn. rewrite tbl_insert_elem; [by apply add_fresh|]. unfold vec_size. lia.
Qed.

(** What [GetChildPos] finds: a position whose slot holds the child of byte [k],
    and writing that slot replaces exactly that child. *)
Definition finds (n : node) (k : Z) (c : node) (pos : Z) : Prop :=
  pos <> -1 /\ GetChild n pos = Ok (Some c) /\
  forall c', exists n', set_child n pos c' = Ok n' /\ node_wf n' /\
    node_prefix n' = node_prefix n /\
    forall b d, (b, d) ∈ entries n' <-> (b = k /\ d = c') \/ (b <> k /\ (b, d) ∈ entries n).

Lemma es_insert_elem (es : list (Z * node)) i k c c' b d : NoDup es.*1 -> es !! i = Some (k, c) ->
  (b, d) ∈ <[i := (k, c')]> es <-> (b = k /\ d = c') \/ (b <> k /\ (b, d) ∈ es).
Proof.
  intros Hnd Hi. assert (Hlt : (i < length es)%nat) by (by eapply lookup_lt_Some).
  rewrite !list_elem_of_lookup. split.
  - intros [j Hj]. apply list_lookup_insert_Some in Hj as [(-> & [= <- <-] & _)|[Hne Hj]]; [by left|].
    right. split; [|by exists j]. intros ->. apply Hne.
    apply (NoDup_lookup es.*1 i j k Hnd); by rewrite list_lookup_fmap, ?Hi, ?Hj.
  - intros [[-> ->]|[Hb [j Hj]]].
    + exists i. by rewrite list_lookup_insert_eq.
    + exists j. rewrite list_lookup_insert_ne; [done|]. intros ->. congruence.
Qed.

Lemma GetChildPos_small cap count key child es k :
  small_rep cap count key child es -> es_ok es -> k ∈ es.*1 ->
  exists c i, es !! i = Some (k, c) /\ key_pos (take (Z.to_nat count) key) k 0 = Z.of_nat i /\
    vec_at child (Z.of_nat i) = Ok (Some c) /\ Z.of_nat i < count.
Proof.
  intros Hr Hok Hin. destruct (small_rep_take _ _ _ _ _ Hr) as [-> _].
  destruct (key_pos_spec es.*1 k 0) as [[? _]|(i & Hi & E)]; [done|done|].
  apply list_lookup_fmap_Some in Hi as ([k' c] & -> & Hi). exists c, i.
  cbn [fst] in *.
  destruct (small_child _ _ _ _ _ _ _ Hr Hi). split_and!; [done|rewrite E; lia|done|done].
Qed.

Lemma es_ok_replace es i k c c' : es_ok es -> es !! i = Some (k, c) -> es_ok (<[i := (k, c')]> es).
Proof.
  intros [? ?] Hi. unfold es_ok. rewrite list_fmap_insert. cbn.
  rewrite list_insert_id by (by rewrite list_lookup_fmap, Hi). done.
Qed.

Lemma GetChildPos_found n k : node_wf n -> is_uw 8 k -> k ∈ (entries n).*1 ->
  exists c pos, (k, c) ∈ entries n /\ GetChildPos n k = Ok pos /\ finds n k c pos.
Proof.
  intros Hwf [Hk0 Hk1] Hin. destruct n as [v|p cnt key ch|p cnt key ch|p cnt ci ch|p cnt ch]; [done|..].
  1,2: destruct Hwf as (es & Hr & Hok); cbn [entries] in *;
    rewrite (small_entries _ _ _ _ _ Hr) in *;
    destruct (GetChildPos_small _ _ _ _ _ _ Hr Hok Hin) as (c & i & Hi & Hp & Hc & Hlt);
    exists c, (Z.of_nat i); node_ops; rewrite Hp;
    (split; [by eapply list_elem_of_lookup_2|]); (split; [done|]);
    (split; [lia|]); (split; [node_ops; by rewrite ?(proj2 (Z.leb_gt _ _)) by lia|]);
    intros c'; destruct (small_set _ _ _ _ _ _ _ _ c' Hr Hi) as (ch' & Hs & Hr');
    cbn [set_child]; rewrite Hs; cbn [mbind Res_bind]; eexists; (split; [done|]);
    split_and!; [exists (<[i := (k, c')]> es); split; [done|by eapply es_ok_replace]|done|];
    intros b d; cbn [entries]; rewrite (small_entries _ _ _ _ _ Hr), (small_entries _ _ _ _ _ Hr');
    apply es_insert_elem with c; [by apply es_ok_NoDup|done].
  - pose proof Hwf as (Hlen & Hcnt & (cs & Hcs & Hch) & Hv & Hinj).
    apply list_elem_of_fmap in Hin as ([k' c] & -> & Hin). cbn [fst] in *.
    pose proof Hin as Hin'. cbn [entries] in Hin. rewrite tbl_entries_elem, Z.sub_0_r, slots48_lookup in Hin.
    destruct Hin as [_ Hs]. apply fmap_Some in Hs as (i & Hi & E).
    destruct (slot_used i) eqn:Hu; [|done].
    assert (Hr : 0 <= i < cnt) by (apply slot_used_spec in Hu; by destruct (Hv _ _ Hi)).
    assert (Hc : ch !! Z.to_nat i = Some (Some c)).
    { destruct (ch !! Z.to_nat i) as [o|] eqn:Eo; [|done]. cbn in E. congruence. }
    exists c, k'. split; [done|]. node_ops.
    rewrite (proj2 (vec_at_Ok _ _ i)) by done. cbn. rewrite Hu. split; [done|].
    split; [lia|]. split; [node_ops; rewrite (proj2 (vec_at_Ok _ _ i)) by done; cbn; rewrite Hu; cbn;
                           apply vec_at_Ok; split; [lia|done]|].
    intros c'. cbn [set_child]. rewrite (proj2 (vec_at_Ok _ _ i)) by done. cbn [mbind Res_bind].
    rewrite (vec_set_lookup _ _ _ (Some c)) by (done || lia). cbn [mbind Res_bind].
    eexists. split; [done|]. split_and!; [|done|].
    + split_and!; [done|lia|lia| |done|done]. exists (<[Z.to_nat i := c']> cs).
      rewrite length_insert, Hch, insert_app_l, list_fmap_insert by (rewrite length_fmap; lia). done.
    + intros b d. cbn [entries]. rewrite (slots48_set _ _ k'); [apply tbl_insert_elem|..].
      * unfold vec_size, slots48. rewrite length_fmap. lia.
      * done.
      * by apply slot_used_spec.
      * apply lookup_lt_Some in Hc. unfold vec_size. lia.
      * intros b' Hb'. eapply Hinj; [done|done|]. by apply slot_used_spec.
      * intros. by eapply node48_nonneg.
  - cbn in Hwf. apply list_elem_of_fmap in Hin as ([k' c] & -> & Hin). cbn [fst] in *.
    pose proof Hin as Hin'. cbn [entries] in Hin. rewrite tbl_entries_elem, Z.sub_0_r in Hin.
    destruct Hin as [_ Hs]. exists c, k'. split; [done|]. node_ops.
    rewrite (proj2 (vec_at_Ok _ _ (Some c))) by done. split; [done|].
    split; [lia|]. split; [node_ops; by rewrite (proj2 (vec_at_Ok _ _ (Some c)))|].
    intros c'. cbn [set_child]. rewrite (vec_set_lookup _ _ _ (Some c)) by done. cbn [mbind Res_bind].
    eexists. split; [done|]. split_and!; [cbn; by rewrite length_insert|done|].
    intros b d. cbn [entries]. apply tbl_insert_elem. unfold vec_size. lia.
Qed.

Lemma GetChildPos_missing n k : node_wf n -> is_uw 8 k -> k ∉ (entries n).*1 ->
  GetChildPos n k = Ok (-1).
Proof.
  intros Hwf [Hk0 Hk1] Hin. destruct n as [v|p cnt key ch|p cnt key ch|p cnt ci ch|p cnt ch]; [done|..].
  1,2: destruct Hwf as (es & Hr & Hok); cbn [entries] in *;
    rewrite (small_entries _ _ _ _ _ Hr) in *; node_ops;
    destruct (small_rep_take _ _ _ _ _ Hr) as [-> _];
    destruct (key_pos_spec es.*1 k 0) as [[_ ->]|(i & Hi & _)]; [done|done|];
    by apply list_elem_of_lookup_2 in Hi.
  - pose proof Hwf as (Hlen & Hcnt & (cs & Hcs & Hch) & Hv & Hinj).
    destruct (lookup_lt_is_Some_2 ci (Z.to_nat k)) as [i Hi]; [lia|]. node_ops.
    rewrite (proj2 (vec_at_Ok _ _ i)) by done. cbn. destruct (slot_used i) eqn:Hu; [|done].
    exfalso. apply Hin. assert (Hr : 0 <= i < cnt) by (apply slot_used_spec in Hu; by destruct (Hv _ _ Hi)).
    destruct (child48_used cs i) as (c & _ & Hc); [unfold vec_size; lia|].
    apply list_elem_of_fmap. exists (k, c). split; [done|]. cbn [entries].
    rewrite tbl_entries_elem, Z.sub_0_r, slots48_lookup, Hi. cbn. rewrite Hu, Hch, <- Hcs, Hc. done.
  - cbn in Hwf. destruct (lookup_lt_is_Some_2 ch (Z.to_nat k)) as [[c|] Hc]; [lia|..]; node_ops.
    + exfalso. apply Hin, list_elem_of_fmap. exists (k, c). split; [done|]. cbn [entries].
      by rewrite tbl_entries_elem, Z.sub_0_r.
    + by rewrite (proj2 (vec_at_Ok _ _ None)).
Qed.

(** ** Positions enumerate the entries in order *)
Definition pos_of (n : node) (i : nat) : Z :=
  match n with
  | Node4 _ _ _ _ | Node16 _ _ _ _ => Z.of_nat i
  | _ => default (-1) ((entries n).*1 !! i)
  end.

Lemma scan_from_entries start t : scan_from start (is_child <$> t) =
  match tbl_entries start t with [] => -1 | (b, _) :: _ => b end.
Proof. revert start. induction t as [|[c|] t IH]; intros start; cbn; [done|done|apply IH]. Qed.

Lemma scan_from_first start t :
  scan_from start (is_child <$> t) = default (-1) ((tbl_entries start t).*1 !! 0%nat).
Proof. rewrite scan_from_entries. by destruct (tbl_entries start t) as [|[b c] l]. Qed.

Lemma tbl_entries_next i t j b c : tbl_entries i t !! j = Some (b, c) ->
  tbl_entries (b + 1) (drop (Z.to_nat (b + 1 - i)) t) = drop (S j) (tbl_entries i t).
Proof.
  revert i j. induction t as [|o t IH]; intros i j Hj; [done|].
  assert (Hge : forall j', tbl_entries (i + 1) t !! j' = Some (b, c) ->
    Z.to_nat (b + 1 - i) = S (Z.to_nat (b + 1 - (i + 1)))).
  { intros j' Hj'. apply list_elem_of_lookup_2, tbl_entries_elem in Hj' as [? _]. lia. }
  destruct o as [c'|]; cbn in Hj.
  - destruct j as [|j]; simplify_eq/=.
    + replace (Z.to_nat (b + 1 - b)) with 1%nat by lia. cbn. by rewrite !drop_0.
    + rewrite (Hge j) by done. cbn. by apply IH.
  - rewrite (Hge j) by done. cbn. by apply IH.
Qed.

Lemma slots48_used p cnt ci ch : node_wf (Node48 p cnt ci ch) ->
  slot_used <$> ci = is_child <$> slots48 ci ch.
Proof.
  intros (_ & Hcnt & (cs & Hcs & Hch) & Hv & _). unfold slots48. rewrite <- list_fmap_compose.
  apply list_fmap_ext. intros b i Hi. cbn. destruct (slot_used i) eqn:Hu; [|done].
  destruct (Hv _ _ Hi) as [->|?]; [done|].
  destruct (child48_used cs i) as (c & _ & Hc); [unfold vec_size; lia|].
  by rewrite Hch, <- Hcs, Hc.
Qed.

Section positions.
Context (n : node) (Hwf : node_wf n).

Lemma GetNextPos_first : entries n <> [] -> GetNextPos n (-1) = pos_of n 0.
Proof.
  destruct n as [v|p cnt key ch|p cnt key ch|p cnt ci ch|p cnt ch]; intros Hne; [done..| |].
  - node_ops; cbn [Z.eqb Pos.eqb]. change (Z.to_nat 0) with 0%nat. rewrite drop_0.
    rewrite (slots48_used _ _ _ _ Hwf). apply scan_from_first.
  - node_ops; cbn [Z.eqb Pos.eqb]. change (Z.to_nat 0) with 0%nat. rewrite drop_0. apply scan_from_first.
Qed.

Lemma GetNextPos_tbl t i : length t = 256%nat -> (i < length (tbl_entries 0 t))%nat ->
  exists b, (tbl_entries 0 t).*1 !! i = Some b /\ 0 <= b < 256 /\
    scan_from (b + 1) (is_child <$> drop (Z.to_nat (b + 1)) t) =
    default (-1) ((tbl_entries 0 t).*1 !! S i).
Proof.
  intros Hl Hi. destruct (lookup_lt_is_Some_2 _ _ Hi) as [[b c] Hb].
  exists b. split; [by rewrite list_lookup_fmap, Hb|]. split.
  - assert (Hin : b ∈ (tbl_entries 0 t).*1).
    { apply list_elem_of_fmap. exists (b, c). split; [done|]. by eapply list_elem_of_lookup_2. }
    apply tbl_entries_ge in Hin. unfold vec_size in Hin. lia.
  - rewrite scan_from_first. pose proof (tbl_entries_next _ _ _ _ _ Hb) as E.
    rewrite Z.sub_0_r in E. rewrite E, !list_lookup_fmap, lookup_drop, Nat.add_0_r. done.
Qed.

Lemma GetNextPos_next i : (i < length (entries n))%nat -> pos_of n i <> -1 /\
  GetNextPos n (pos_of n i) =
    if decide (S i < length (entries n))%nat then pos_of n (S i) else -1.
Proof.
  assert (Hd : forall (l : list Z) j, default (-1) (l !! j) =
    if decide (j < length l)%nat then default (-1) (l !! j) else -1).
  { intros l j. case_decide; [done|]. by rewrite lookup_ge_None_2 by lia. }
  destruct n as [v|p cnt key ch|p cnt key ch|p cnt ci ch|p cnt ch]; intros Hi; [done|..].
  1,2: destruct Hwf as (es & Hr & _); cbn [entries pos_of] in *; node_ops;
    rewrite (small_entries _ _ _ _ _ Hr) in *; destruct Hr as (-> & _);
    (split; [lia|]); destruct (Z.eqb_spec (Z.of_nat i) (-1)); [lia|]; unfold vec_size;
    destruct (Z.ltb_spec (Z.of_nat i + 1) (Z.of_nat (length es))); case_decide; lia.
  - destruct (GetNextPos_tbl (slots48 ci ch) i) as (b & Hb & Hr & Hn); [|done|].
    { unfold slots48. rewrite length_fmap. apply Hwf. }
    cbn [pos_of entries]. rewrite Hb. cbn [default from_option id]. split; [lia|].
    rewrite <- (length_fmap fst), <- Hd, <- Hn. node_ops.
    destruct (Z.eqb_spec b (-1)); [lia|]. f_equal.
    by rewrite !fmap_drop, (slots48_used _ _ _ _ Hwf).
  - destruct (GetNextPos_tbl ch i) as (b & Hb & Hr & Hn); [done|done|].
    cbn [pos_of entries]. rewrite Hb. cbn [default from_option id]. split; [lia|].
    rewrite <- (length_fmap fst), <- Hd, <- Hn. node_ops.
    by destruct (Z.eqb_spec b (-1)); [lia|].
Qed.

Lemma GetChild_pos i b c : entries n !! i = Some (b, c) -> GetChild n (pos_of n i) = Ok (Some c).
Proof.
  intros Hi. destruct n as [v|p cnt key ch|p cnt key ch|p cnt ci ch|p cnt ch]; [done|..].
  1,2: destruct Hwf as (es & Hr & _); cbn [entries pos_of] in *; node_ops;
    rewrite (small_entries _ _ _ _ _ Hr) in *;
    destruct (small_child _ _ _ _ _ _ _ Hr Hi); by rewrite ?(proj2 (Z.leb_gt _ _)) by lia.
  - assert (Hin : (b, c) ∈ entries (Node48 p cnt ci ch)) by (by eapply list_elem_of_lookup_2).
    cbn [pos_of]. rewrite list_lookup_fmap, Hi. cbn [fmap option_fmap option_map default from_option fst id].
    assert (Hu : is_uw 8 b /\ b ∈ (entries (Node48 p cnt ci ch)).*1).
    { assert (Hb : b ∈ (entries (Node48 p cnt ci ch)).*1) by (apply list_elem_of_fmap; by exists (b, c)).
      split; [|done]. destruct (entries_ok _ Hwf) as [_ Hf]. rewrite Forall_forall in Hf.
      by apply Hf, list_elem_of_In. }
    destruct Hu as [Hu Hb]. destruct (GetChildPos_found _ b Hwf Hu Hb) as (c' & pos & Hin' & Hp & _ & Hg & _).
    assert (c' = c) as ->.
    { apply tbl_entries_elem in Hin as [_ H1]. apply tbl_entries_elem in Hin' as [_ H2]. congruence. }
    assert (pos = b) as ->; [|done]. node_ops. apply bind_Ok in Hp as (i' & _ & Hp).
    injection Hp as <-. destruct (slot_used i'); [done|]. done.
  - cbn [pos_of entries] in *. rewrite list_lookup_fmap, Hi. cbn.
    apply list_elem_of_lookup_2, tbl_entries_elem in Hi as [? Hi]. rewrite Z.sub_0_r in Hi.
    node_ops. by rewrite (proj2 (vec_at_Ok _ _ (Some c))).
Qed.
End positions.
