(* ===== verification/TupleIdxTable.v ===== *)
(** * The tuple index table

    src/runtime/tuple_idx_table/tuple_idx_table.h and .cc: a set of tuples kept
    as an adaptive radix tree over the bytes of the tuples, with an iterator.
    The table refines a set: [Insert] adds a tuple and tells whether it was
    new, and an iteration lists the set in the order of [Key::operator<]. *)
From stdpp Require Import sorting.
From S2P Require Import Prelude ArtNode.

(** ** Insertion *)

(** The loop that compares an existing leaf with the new key: [None] when they
    are the same key, otherwise the length of their common part from [depth]. *)
Fixpoint leaf_prefix (fuel : nat) (existing key : list Z) (depth new_prefix_length : Z)
    : Res (option Z) :=
  match fuel with
  | O => NoFuel
  | S fuel =>
      if (depth + new_prefix_length =? vec_size existing) && (vec_size existing =? vec_size key)
      then Ok None
      else
        x ← vec_at existing (depth + new_prefix_length);
        y ← vec_at key (depth + new_prefix_length);
        if x =? y then leaf_prefix fuel existing key depth (new_prefix_length + 1)
        else Ok (Some new_prefix_length)
  end.

(** [memcpy(dst, &src[from], n)]. *)
Definition slice (l : list Z) (from n : Z) : list Z :=
  take (Z.to_nat n) (drop (Z.to_nat from) l).

(** A new [Node4] with the given prefix and two children. *)
Definition Node4_pair (prefix : list Z) (b1 : Z) (c1 : node) (b2 : Z) (c2 : node) : Res node :=
  n ← InsertLeaf (Node4_new prefix) b1 c1; InsertLeaf n b2 c2.

(** [node] is passed by reference; the result is its new value.  The recursion
    consumes at least one byte of the key, so its length bounds the depth. *)
Fixpoint InsertImpl (fuel : nat) (n : option node) (key : list Z) (depth : Z)
    : Res (bool * node) :=
  match fuel with
  | O => NoFuel
  | S fuel =>
      match n with
      | None => Ok (true, Leaf key)
      | Some (Leaf existing) =>
          r ← leaf_prefix (S (length existing)) existing key depth 0;
          match r with
          | None => Ok (false, Leaf existing)
          | Some len =>
              b1 ← vec_at existing (depth + len);
              b2 ← vec_at key (depth + len);
              n ← Node4_pair (slice key depth len) b1 (Leaf existing) b2 (Leaf key);
              Ok (true, n)
          end
      | Some n =>
          let prefix_length := vec_size (node_prefix n) in
          mismatch_pos ← (if prefix_length =? 0 then Ok 0 else PrefixMismatch n key depth);
          if negb (prefix_length =? 0) && negb (mismatch_pos =? prefix_length) then
            b1 ← vec_at (node_prefix n) mismatch_pos;
            b2 ← vec_at key (depth + mismatch_pos);
            let rest := drop (Z.to_nat (mismatch_pos + 1)) (node_prefix n) in
            n' ← Node4_pair (slice (node_prefix n) 0 mismatch_pos)
                   b1 (set_prefix n rest) b2 (Leaf key);
            Ok (true, n')
          else
            let depth := depth + prefix_length in
            k ← vec_at key depth;
            pos ← GetChildPos n k;
            if negb (pos =? -1) then
              child ← GetChild n pos;
              '(b, child) ← InsertImpl fuel child key (depth + 1);
              n ← set_child n pos child;
              Ok (b, n)
            else
              n ← InsertLeaf n k (Leaf key);
              Ok (true, n)
      end
  end.

Record TupleIdxTable := MkTable { tree : option node }.
Definition Create : TupleIdxTable := MkTable None.

Definition Insert (t : TupleIdxTable) (tuple_idx : list Z) : Res (bool * TupleIdxTable) :=
  let key := CreateKey tuple_idx in
  '(b, n) ← InsertImpl (S (length key)) (tree t) key 0;
  Ok (b, MkTable (Some n)).

(** ** Iteration *)

(** [IteratorEntry] is a node pointer and a position; [Iterator] the current
    leaf, the depth and the stack vector. *)
Record Iterator := MkIt {
  it_node : option (list Z);
  it_depth : Z;
  it_stack : list (option node * Z);
}.
Definition CreateIt : Iterator := MkIt None 0 [].

Definition SetEntry (it : Iterator) (entry_depth : Z) (e : option node * Z) : Res Iterator :=
  let size := vec_size (it_stack it) in
  let stack :=
    if size <? entry_depth + 1
    then it_stack it ++
         replicate (Z.to_nat (Z.max (Z.max 8 (entry_depth + 1)) (size * 2) - size)) (None, 0)
    else it_stack it in
  stack ← vec_set stack entry_depth e;
  Ok (MkIt (it_node it) (it_depth it) stack).

(** The first position and child of an inner node, as [BeginImpl] finds them. *)
Definition first_child (n : node) : Res (Z * option node) :=
  match n with
  | Leaf _ => UB
  | Node4 _ _ _ child | Node16 _ _ _ child => c ← vec_at child 0; Ok (0, c)
  | Node48 _ _ ci child =>
      let pos := scan_from 0 (slot_used <$> ci) in
      i ← vec_at ci pos; c ← vec_at child i; Ok (pos, c)
  | Node256 _ _ child =>
      let pos := scan_from 0 (is_child <$> child) in
      c ← vec_at child pos; Ok (pos, c)
  end.

Fixpoint BeginImpl (fuel : nat) (it : Iterator) (n : node) : Res Iterator :=
  match fuel with
  | O => NoFuel
  | S fuel =>
      match n with
      | Leaf key => Ok (MkIt (Some key) (it_depth it) (it_stack it))
      | n =>
          '(pos, next) ← first_child n;
          it ← SetEntry it (it_depth it) (Some n, pos);
          next ← opt_ub next;
          BeginImpl fuel (MkIt (it_node it) (it_depth it + 1) (it_stack it)) next
      end
  end.

Definition Begin (fuel : nat) (t : TupleIdxTable) (it : Iterator) : Res (bool * Iterator) :=
  match tree t with
  | Some n => it ← BeginImpl fuel it n; Ok (true, it)
  | None => Ok (false, it)
  end.

(** The loop of [IteratorNext]. *)
Fixpoint next_loop (fuel : nat) (it : Iterator) : Res (bool * Iterator) :=
  match fuel with
  | O => NoFuel
  | S fuel =>
      if 0 <? it_depth it then
        '(o, pos) ← vec_at (it_stack it) (it_depth it - 1);
        n ← opt_ub o;
        match n with
        | Leaf key => Ok (true, MkIt (Some key) (it_depth it) (it_stack it))
        | n =>
            let pos := GetNextPos n pos in
            stack ← vec_set (it_stack it) (it_depth it - 1) (Some n, pos);
            let it := MkIt (it_node it) (it_depth it) stack in
            if negb (pos =? -1) then
              child ← GetChild n pos;
              it ← SetEntry it (it_depth it) (child, -1);
              next_loop fuel (MkIt (it_node it) (it_depth it + 1) (it_stack it))
            else next_loop fuel (MkIt (it_node it) (it_depth it - 1) (it_stack it))
        end
      else Ok (false, it)
  end.

Definition IteratorNext (fuel : nat) (it : Iterator) : Res (bool * Iterator) :=
  skip ← (if it_depth it =? 0 then Ok false else
            '(o, _) ← vec_at (it_stack it) (it_depth it - 1);
            n ← opt_ub o; Ok (match n with Leaf _ => true | _ => false end));
  next_loop fuel (MkIt (it_node it)
    (if (skip : bool) then it_depth it - 1 else it_depth it) (it_stack it)).

(** [Key::Data]: the bytes of a key read as an array of [int32_t]. *)
Fixpoint Data (bytes : list Z) : list Z :=
  match bytes with
  | b0 :: b1 :: b2 :: b3 :: bytes =>
      i32 (b0 + b1 * 2 ^ 8 + b2 * 2 ^ 16 + b3 * 2 ^ 24) :: Data bytes
  | _ => []
  end.

(** [Get]: the tuple of the current leaf. *)
Definition Get (it : Iterator) : Res (list Z) := key ← opt_ub (it_node it); Ok (Data key).

(** [proxy::TupleIdxTable::ForEach]: the generated loop that hands every tuple
    of the table to a handler; the tuples, in the order they are handed over. *)
Fixpoint ForEach_loop (steps fuel : nat) (has_next : bool) (it : Iterator) : Res (list (list Z)) :=
  match steps with
  | O => NoFuel
  | S steps =>
      if has_next then
        tuple ← Get it;
        '(has_next, it) ← IteratorNext fuel it;
        rest ← ForEach_loop steps fuel has_next it;
        Ok (tuple :: rest)
      else Ok []
  end.
Definition ForEach (fuel : nat) (t : TupleIdxTable) : Res (list (list Z)) :=
  '(has_next, it) ← Begin fuel t CreateIt; ForEach_loop fuel fuel has_next it.

(** ** The tree invariant *)

(** [mem k n]: some leaf below [n] holds the key [k]. *)
Inductive mem (k : list Z) : node -> Prop :=
| mem_leaf : mem k (Leaf k)
| mem_inner n b c : (b, c) ∈ entries n -> mem k c -> mem k n.

(** [art len p n]: a subtree reached by the bytes [p], all of whose keys have
    [len] bytes and continue the path that leads to them. *)
Inductive art (len : nat) : list Z -> node -> Prop :=
| art_leaf p k :
    p `prefix_of` k -> length k = len -> Forall (is_uw 8) k -> art len p (Leaf k)
| art_inner p n :
    node_wf n -> entries n <> [] ->
    (forall b c, (b, c) ∈ entries n -> art len (p ++ node_prefix n ++ [b]) c) -> art len p n.

Lemma mem_leaf_inv k k' : mem k (Leaf k') <-> k = k'.
Proof.
  split; [|intros ->; constructor]. inversion 1 as [|? ? ? Hin]; subst; [done|].
  by apply elem_of_nil in Hin.
Qed.

Lemma mem_inner_iff k n : node_wf n -> mem k n <-> exists b c, (b, c) ∈ entries n /\ mem k c.
Proof.
  intros Hwf. split; [|intros (? & ? & ? & ?); by econstructor].
  inversion 1; subst; [done|eauto].
Qed.

Lemma art_leaf_inv len p k : art len p (Leaf k) ->
  p `prefix_of` k /\ length k = len /\ Forall (is_uw 8) k.
Proof. by inversion 1. Qed.

Lemma art_inner_inv len p n : node_wf n -> art len p n ->
  entries n <> [] /\ forall b c, (b, c) ∈ entries n -> art len (p ++ node_prefix n ++ [b]) c.
Proof. intros Hwf Ha. inversion Ha; subst; [done|by split]. Qed.

Lemma art_depth len p n : art len p n -> (length p <= len)%nat.
Proof.
  induction 1 as [p k Hp Hl _|p n Hwf Hne _ IH].
  - apply prefix_length in Hp. lia.
  - destruct (entries n) as [|[b c] es]; [done|]. pose proof (IH b c (list_elem_of_here _ _)) as H.
    rewrite !length_app in H. lia.
Qed.

Lemma art_inner_depth len p n : node_wf n -> art len p n ->
  (length p + length (node_prefix n) < len)%nat.
Proof.
  intros Hwf Ha. destruct (art_inner_inv _ _ _ Hwf Ha) as [Hne Hc].
  destruct (entries n) as [|[b c] es]; [done|].
  pose proof (art_depth _ _ _ (Hc b c (list_elem_of_here _ _))) as H.
  rewrite !length_app in H. cbn in H. lia.
Qed.

(** The bytes of a prefix are bytes of keys. *)
Lemma art_prefix_bytes len p n : art len p n -> Forall (is_uw 8) (node_prefix n).
Proof.
  intros Ha. assert (H : exists k, Forall (is_uw 8) k /\ p ++ node_prefix n `prefix_of` k).
  { induction Ha as [p k Hp Hl Hb|p n Hwf Hne _ IH].
    - exists k. cbn. by rewrite app_nil_r.
    - destruct (entries n) as [|[b c] es]; [done|].
      destruct (IH b c (list_elem_of_here _ _)) as (k & ? & Hp). exists k. split; [done|].
      etrans; [|done]. rewrite <- !app_assoc, (app_assoc p (node_prefix n)). by apply prefix_app_r. }
  destruct H as (k & Hb & [s ->]). by apply Forall_app in Hb as [[_ ?]%Forall_app _].
Qed.

(** Every key below a subtree continues its path and has [len] bytes. *)
Lemma art_mem len p n k : art len p n -> mem k n -> p `prefix_of` k /\ length k = len.
Proof.
  intros Ha. induction Ha as [p k' Hp Hl _|p n Hwf Hne _ IH].
  - by intros ->%mem_leaf_inv.
  - intros (b & c & Hin & Hm)%mem_inner_iff; [|done]. destruct (IH b c Hin Hm) as [Hp Hl].
    split; [|done]. etrans; [|done]. by apply prefix_app_r.
Qed.

(** The byte after the prefix of a node tells which child a key is below. *)
Lemma art_mem_byte len p pre b c k t :
  art len (p ++ pre ++ [b]) c -> mem (p ++ pre ++ k :: t) c -> b = k.
Proof.
  intros Ha Hm. destruct (art_mem _ _ _ _ Ha Hm) as [[s Hs] _].
  rewrite <- !app_assoc in Hs. apply app_inv_head, app_inv_head in Hs. by simplify_eq/=.
Qed.

(** ** The two comparison loops *)

(** Two strings of the same length are equal or first differ somewhere. *)
Lemma first_difference (s1 s2 : list Z) : length s1 = length s2 ->
  s1 = s2 \/ exists q x t1 y t2, s1 = q ++ x :: t1 /\ s2 = q ++ y :: t2 /\ x <> y.
Proof.
  revert s2. induction s1 as [|x s1 IH]; intros [|y s2] Hl; simplify_eq/=; [by left|].
  destruct (decide (x = y)) as [->|Hne].
  - destruct (IH s2) as [->|(q & x & t1 & z & t2 & -> & -> & ?)]; [done|by left|].
    right. exists (y :: q), x, t1, z, t2. done.
  - right. exists [], x, s1, y, s2. done.
Qed.

Lemma vec_at_middle {A} (a s : list A) (x : A) i :
  i = vec_size a -> vec_at (a ++ x :: s) i = Ok x.
Proof. intros ->. unfold vec_size. apply vec_at_nat. by rewrite list_lookup_middle. Qed.

Lemma leaf_prefix_same fuel a s depth npl :
  depth + npl = vec_size a -> (length s < fuel)%nat ->
  leaf_prefix fuel (a ++ s) (a ++ s) depth npl = Ok None.
Proof.
  revert fuel a npl. induction s as [|x s IH]; intros [|fuel] a npl Ha Hf; try (cbn in *; lia); cbn.
  - rewrite app_nil_r, Ha, !Z.eqb_refl. done.
  - rewrite Ha. destruct (Z.eqb_spec (vec_size a) (vec_size (a ++ x :: s))) as [E|E].
    { unfold vec_size in E. rewrite length_app in E. cbn in E. lia. }
    cbn. rewrite !(vec_at_middle _ _ x) by done. cbn. rewrite Z.eqb_refl.
    replace (a ++ x :: s) with ((a ++ [x]) ++ s) by (by rewrite <- app_assoc).
    apply IH; [unfold vec_size in *; rewrite length_app; cbn; lia|cbn in Hf; lia].
Qed.

Lemma leaf_prefix_diff fuel a q x t1 y t2 depth npl :
  depth + npl = vec_size a -> x <> y -> (length q < fuel)%nat ->
  leaf_prefix fuel (a ++ q ++ x :: t1) (a ++ q ++ y :: t2) depth npl =
    Ok (Some (npl + vec_size q)).
Proof.
  revert fuel a npl. induction q as [|z q IH]; intros [|fuel] a npl Ha Hne Hf;
    try (cbn in *; lia); cbn; rewrite Ha.
  - destruct (Z.eqb_spec (vec_size a) (vec_size (a ++ x :: t1))) as [E|E].
    { unfold vec_size in E. rewrite length_app in E. cbn in E. lia. }
    cbn. rewrite (vec_at_middle _ _ x), (vec_at_middle _ _ y) by done. cbn.
    destruct (Z.eqb_spec x y); [done|]. unfold vec_size. cbn. do 2 f_equal. lia.
  - destruct (Z.eqb_spec (vec_size a) (vec_size (a ++ z :: q ++ x :: t1))) as [E|E].
    { unfold vec_size in E. rewrite length_app in E. cbn in E. lia. }
    cbn. rewrite !(vec_at_middle _ _ z) by done. cbn. rewrite Z.eqb_refl.
    replace (a ++ z :: q ++ x :: t1) with ((a ++ [z]) ++ q ++ x :: t1) by (by rewrite <- app_assoc).
    replace (a ++ z :: q ++ y :: t2) with ((a ++ [z]) ++ q ++ y :: t2) by (by rewrite <- app_assoc).
    rewrite IH; [|unfold vec_size in *; rewrite length_app; cbn; lia|done|cbn in Hf; lia].
    unfold vec_size. cbn. do 2 f_equal. lia.
Qed.

Lemma PrefixMismatch_match pre a s depth pos :
  depth + pos = vec_size a ->
  PrefixMismatch_loop pre (a ++ pre ++ s) depth pos = Ok (pos + vec_size pre).
Proof.
  revert a pos. induction pre as [|b pre IH]; intros a pos Ha; cbn.
  - f_equal. unfold vec_size. cbn. lia.
  - rewrite (vec_at_middle _ _ b) by done. cbn. rewrite Z.eqb_refl. cbn.
    replace (a ++ b :: pre ++ s) with ((a ++ [b]) ++ pre ++ s) by (by rewrite <- app_assoc).
    rewrite IH by (unfold vec_size in *; rewrite length_app; cbn; lia).
    f_equal. unfold vec_size. cbn. lia.
Qed.

Lemma PrefixMismatch_diff q x t1 y t2 a depth pos :
  depth + pos = vec_size a -> x <> y ->
  PrefixMismatch_loop (q ++ x :: t1) (a ++ q ++ y :: t2) depth pos = Ok (pos + vec_size q).
Proof.
  revert a pos. induction q as [|b q IH]; intros a pos Ha Hne; cbn.
  - rewrite (vec_at_middle _ _ y) by done. cbn.
    destruct (Z.eqb_spec y x); [congruence|]. cbn. f_equal. unfold vec_size. cbn. lia.
  - rewrite (vec_at_middle _ _ b) by done. cbn. rewrite Z.eqb_refl. cbn.
    replace (a ++ b :: q ++ y :: t2) with ((a ++ [b]) ++ q ++ y :: t2) by (by rewrite <- app_assoc).
    rewrite IH; [|unfold vec_size in *; rewrite length_app; cbn; lia|done].
    f_equal. unfold vec_size. cbn. lia.
Qed.

(** A prefix against the rest of a key: it matches, or they first differ. *)
Lemma prefix_cases (pre s : list Z) : (length pre < length s)%nat ->
  (exists k t, s = pre ++ k :: t) \/
  (exists q x t1 y t2, pre = q ++ x :: t1 /\ s = q ++ y :: t2 /\ x <> y).
Proof.
  intros Hl. destruct (first_difference pre (take (length pre) s)) as [E|D].
  - rewrite length_take. lia.
  - left. destruct (drop (length pre) s) as [|k t] eqn:Ed.
    + apply (f_equal length) in Ed. rewrite length_drop in Ed. cbn in Ed. lia.
    + exists k, t. rewrite <- Ed. rewrite <- (take_drop (length pre) s) at 1. by rewrite <- E.
  - right. destruct D as (q & x & t1 & y & t2 & H1 & H2 & Hne).
    exists q, x, t1, y, (t2 ++ drop (length pre) s). split_and!; [done| |done].
    rewrite <- (take_drop (length pre) s) at 1. rewrite H2, <- app_assoc. done.
Qed.

(** ** Insertion refines adding to a set *)
Section insertion.
Context (len : nat).

Lemma Node4_new_wf pre : node_wf (Node4_new pre) /\ entries (Node4_new pre) = [].
Proof.
  assert (Hr : small_rep 4 0 (replicate 4 0) (replicate 4 None) []).
  { split; [done|]. exists (replicate 4 0). split_and!; cbn; lia || done. }
  split; [|done]. exists []. split; [done|]. split; constructor.
Qed.

Lemma Node4_pair_spec pre b1 c1 b2 c2 : is_uw 8 b1 -> is_uw 8 b2 -> b1 <> b2 ->
  exists n, Node4_pair pre b1 c1 b2 c2 = Ok n /\ node_wf n /\ node_prefix n = pre /\
    forall e, e ∈ entries n <-> e = (b1, c1) \/ e = (b2, c2).
Proof.
  intros H1 H2 Hne. destruct (Node4_new_wf pre) as [Hw He].
  destruct (InsertLeaf_adds (Node4_new pre) b1 c1 Hw H1) as (n1 & Hn1 & Hw1 & Hp1 & He1).
  { rewrite He. apply not_elem_of_nil. }
  destruct (InsertLeaf_adds n1 b2 c2 Hw1 H2) as (n2 & Hn2 & Hw2 & Hp2 & He2).
  { intros ([b c] & -> & Hin)%list_elem_of_fmap. apply He1 in Hin as [Hin|[= -> ->]]; [|done].
    rewrite He in Hin. by apply elem_of_nil in Hin. }
  unfold Node4_pair. rewrite Hn1. cbn. exists n2. split_and!; [done|done|by rewrite Hp2, Hp1|].
  intros e. rewrite He2, He1, He, elem_of_nil. tauto.
Qed.

(** A pair of subtrees that continue a common path with different bytes. *)
Lemma pair_art p q x c1 y c2 :
  is_uw 8 x -> is_uw 8 y -> x <> y ->
  art len (p ++ q ++ [x]) c1 -> art len (p ++ q ++ [y]) c2 ->
  exists n, Node4_pair q x c1 y c2 = Ok n /\ art len p n /\
    forall k, mem k n <-> mem k c1 \/ mem k c2.
Proof.
  intros Hx Hy Hne H1 H2. destruct (Node4_pair_spec q x c1 y c2 Hx Hy Hne) as (n & Hn & Hw & Hp & He).
  exists n. split; [done|]. split.
  - apply art_inner; [done| |].
    + intros E. pose proof (proj2 (He (x, c1)) (or_introl eq_refl)) as Hin. rewrite E in Hin.
      by apply elem_of_nil in Hin.
    + intros b c [[= -> ->]|[= -> ->]]%He; by rewrite Hp.
  - intros k. rewrite mem_inner_iff by done. split.
    + intros (b & c & [[= -> ->]|[= -> ->]]%He & ?); auto.
    + intros [?|?]; eexists _, _; rewrite He; eauto.
Qed.

Lemma bytes_middle (a s : list Z) x : Forall (is_uw 8) (a ++ x :: s) -> is_uw 8 x.
Proof. intros [_ [? _]%list.Forall_cons]%Forall_app. done. Qed.

Lemma slice_middle (a q s : list Z) :
  slice (a ++ q ++ s) (vec_size a) (vec_size q) = q.
Proof.
  unfold slice, vec_size. rewrite !Nat2Z.id, drop_app_length, take_app_length. done.
Qed.

Lemma Insert_leaf p k' key fuel :
  art len p (Leaf k') -> p `prefix_of` key -> length key = len -> Forall (is_uw 8) key ->
  exists b n', InsertImpl (S fuel) (Some (Leaf k')) key (vec_size p) = Ok (b, n') /\
    art len p n' /\ (forall k, mem k n' <-> mem k (Leaf k') \/ k = key) /\
    (b = false <-> mem key (Leaf k')).
Proof.
  intros Ha [s2 ->] Hl Hb. pose proof Ha as ([s1 ->] & Hl1 & Hb1)%art_leaf_inv.
  destruct (first_difference s1 s2) as [->|(q & x & t1 & y & t2 & -> & -> & Hne)].
  { rewrite !length_app in *. lia. }
  - exists false, (Leaf (p ++ s2)). cbn [InsertImpl].
    rewrite leaf_prefix_same by (rewrite ?length_app; lia). split_and!; [done|done|..].
    + intros k. rewrite mem_leaf_inv. tauto.
    + by rewrite mem_leaf_inv.
  - cbn [InsertImpl]. rewrite leaf_prefix_diff by (rewrite ?length_app; done || lia).
    cbn [mbind Res_bind]. rewrite Z.add_0_l, !app_assoc.
    rewrite (vec_at_middle _ _ x), (vec_at_middle _ _ y) by
      (unfold vec_size; rewrite length_app; lia). cbn [mbind Res_bind].
    rewrite <- (app_assoc p q (y :: t2)), slice_middle, !app_assoc.
    destruct (pair_art p q x (Leaf ((p ++ q) ++ x :: t1)) y (Leaf ((p ++ q) ++ y :: t2)))
      as (n & -> & Hart & Hm).
    + rewrite app_assoc in Hb1. by eapply bytes_middle.
    + rewrite app_assoc in Hb. by eapply bytes_middle.
    + done.
    + rewrite app_assoc in Hl1, Hb1. apply art_leaf; [|done|done]. exists t1. by rewrite <- !app_assoc.
    + rewrite app_assoc in Hl, Hb. apply art_leaf; [|done|done]. exists t2.
      by rewrite <- !app_assoc.
    + exists true, n. split_and!; [done|done|..].
      * intros k. by rewrite Hm, !mem_leaf_inv.
      * rewrite mem_leaf_inv. split; [done|]. rewrite <- !app_assoc.
        intros E%app_inv_head%app_inv_head. congruence.
Qed.

Lemma set_prefix_wf n r : node_wf n ->
  node_wf (set_prefix n r) /\ entries (set_prefix n r) = entries n /\ node_prefix (set_prefix n r) = r.
Proof. by destruct n. Qed.

(** A key that leaves the path inside the prefix of an inner node. *)
Lemma split_prefix p n q x t1 y t2 :
  node_wf n -> art len p n -> node_prefix n = q ++ x :: t1 -> x <> y ->
  is_uw 8 x -> length (p ++ q ++ y :: t2) = len -> Forall (is_uw 8) (p ++ q ++ y :: t2) ->
  exists n', Node4_pair q x (set_prefix n t1) y (Leaf (p ++ q ++ y :: t2)) = Ok n' /\
    art len p n' /\ (forall k, mem k n' <-> mem k n \/ k = p ++ q ++ y :: t2).
Proof.
  intros Hwf Ha Hp Hne Hx Hl Hb. destruct (set_prefix_wf n t1 Hwf) as (Hw' & He' & Hp').
  destruct (art_inner_inv _ _ _ Hwf Ha) as [Hnil Hc].
  destruct (pair_art p q x (set_prefix n t1) y (Leaf (p ++ q ++ y :: t2))) as (n' & Hn & Hart & Hm).
  - done.
  - rewrite app_assoc in Hb. by eapply bytes_middle.
  - done.
  - apply art_inner; [done|by rewrite He'|]. rewrite He', Hp'. intros b c Hin.
    specialize (Hc b c Hin). rewrite Hp in Hc. by rewrite <- !app_assoc in *.
  - apply art_leaf; [|done|done]. exists t2. by rewrite <- !app_assoc.
  - exists n'. split_and!; [done|done|]. intros k. rewrite Hm, mem_leaf_inv.
    rewrite !mem_inner_iff by done. by rewrite He'.
Qed.

(** The body of [InsertImpl] on an inner node. *)
Lemma InsertImpl_inner fuel n key depth : node_wf n ->
  InsertImpl (S fuel) (Some n) key depth =
  (mismatch_pos ← (if vec_size (node_prefix n) =? 0 then Ok 0 else PrefixMismatch n key depth);
   if negb (vec_size (node_prefix n) =? 0) && negb (mismatch_pos =? vec_size (node_prefix n)) then
     b1 ← vec_at (node_prefix n) mismatch_pos;
     b2 ← vec_at key (depth + mismatch_pos);
     n' ← Node4_pair (slice (node_prefix n) 0 mismatch_pos)
            b1 (set_prefix n (drop (Z.to_nat (mismatch_pos + 1)) (node_prefix n))) b2 (Leaf key);
     Ok (true, n')
   else
     k ← vec_at key (depth + vec_size (node_prefix n));
     pos ← GetChildPos n k;
     if negb (pos =? -1) then
       child ← GetChild n pos;
       '(b, child) ← InsertImpl fuel child key (depth + vec_size (node_prefix n) + 1);
       n ← set_child n pos child;
       Ok (b, n)
     else n ← InsertLeaf n k (Leaf key); Ok (true, n)).
Proof. by destruct n. Qed.

(** The prefix check on a key that goes on with the whole prefix, and on one
    that does not. *)
Lemma Insert_match fuel p n k t : node_wf n ->
  InsertImpl (S fuel) (Some n) (p ++ node_prefix n ++ k :: t) (vec_size p) =
  (pos ← GetChildPos n k;
   if negb (pos =? -1) then
     child ← GetChild n pos;
     '(b, child) ← InsertImpl fuel child (p ++ node_prefix n ++ k :: t)
                     (vec_size (p ++ node_prefix n ++ [k]));
     n ← set_child n pos child;
     Ok (b, n)
   else n ← InsertLeaf n k (Leaf (p ++ node_prefix n ++ k :: t)); Ok (true, n)).
Proof.
  intros Hwf. rewrite InsertImpl_inner by done. unfold PrefixMismatch.
  rewrite PrefixMismatch_match by lia. rewrite Z.add_0_l.
  replace (if vec_size (node_prefix n) =? 0 then Ok 0 else Ok (vec_size (node_prefix n)))
    with (Ok (vec_size (node_prefix n)))
    by (destruct (Z.eqb_spec (vec_size (node_prefix n)) 0); congruence).
  cbn [mbind Res_bind]. rewrite Z.eqb_refl, andb_false_r.
  rewrite (app_assoc p (node_prefix n) (k :: t)).
  rewrite (vec_at_middle _ _ k) by (unfold vec_size; rewrite length_app; lia).
  cbn [mbind Res_bind].
  replace (vec_size p + vec_size (node_prefix n) + 1) with (vec_size (p ++ node_prefix n ++ [k]))
    by (unfold vec_size; rewrite !length_app; cbn; lia). done.
Qed.

Lemma Insert_mismatch fuel p n q x t1 y t2 :
  node_wf n -> node_prefix n = q ++ x :: t1 -> x <> y ->
  InsertImpl (S fuel) (Some n) (p ++ q ++ y :: t2) (vec_size p) =
  (n' ← Node4_pair q x (set_prefix n t1) y (Leaf (p ++ q ++ y :: t2)); Ok (true, n')).
Proof.
  intros Hwf Hp Hne. rewrite InsertImpl_inner by done. unfold PrefixMismatch. rewrite Hp.
  rewrite PrefixMismatch_diff, Z.add_0_l by (done || lia).
  assert (Hlt : vec_size (q ++ x :: t1) <> 0 /\ vec_size q <> vec_size (q ++ x :: t1)).
  { unfold vec_size. rewrite length_app. cbn. lia. }
  destruct Hlt as [E1 E2].
  destruct (Z.eqb_spec (vec_size (q ++ x :: t1)) 0); [done|]. cbn [mbind Res_bind].
  destruct (Z.eqb_spec (vec_size q) (vec_size (q ++ x :: t1))); [done|]. cbn [negb andb].
  rewrite (vec_at_middle _ _ x) by done. cbn [mbind Res_bind].
  rewrite (app_assoc p q (y :: t2)).
  rewrite (vec_at_middle _ _ y) by (unfold vec_size; rewrite length_app; lia).
  cbn [mbind Res_bind]. rewrite (slice_middle [] q (x :: t1) : slice (q ++ x :: t1) 0 _ = q).
  replace (Z.to_nat (vec_size q + 1)) with (S (length q)) by (unfold vec_size; lia).
  assert (Hd : drop (S (length q)) (q ++ x :: t1) = t1) by
    (rewrite (cons_middle x q t1), app_assoc; apply drop_app_length'; rewrite length_app; cbn; lia).
  by rewrite Hd.
Qed.

(** What an insertion below [n] guarantees. *)
Definition inserted (p : list Z) (n : node) (key : list Z) (r : Res (bool * node)) : Prop :=
  exists b n', r = Ok (b, n') /\ art len p n' /\
    (forall k, mem k n' <-> mem k n \/ k = key) /\ (b = false <-> mem key n).

(** The next byte has no child: a leaf is added to the node. *)
Lemma Insert_new_child p n k t :
  node_wf n -> art len p n -> k ∉ (entries n).*1 ->
  length (p ++ node_prefix n ++ k :: t) = len ->
  Forall (is_uw 8) (p ++ node_prefix n ++ k :: t) ->
  inserted p n (p ++ node_prefix n ++ k :: t)
    (n ← InsertLeaf n k (Leaf (p ++ node_prefix n ++ k :: t)); Ok (true, n)).
Proof.
  intros Hwf Ha Hnin Hl Hb. destruct (art_inner_inv _ _ _ Hwf Ha) as [Hne Hc].
  assert (Hk : is_uw 8 k) by (rewrite app_assoc in Hb; by eapply bytes_middle).
  set (key := p ++ node_prefix n ++ k :: t) in *.
  destruct (InsertLeaf_adds n k (Leaf key) Hwf Hk Hnin) as (n' & -> & Hw' & Hp' & He').
  cbn. exists true, n'. split; [done|]. split_and!.
  - apply art_inner; [done| |].
    + intros E. pose proof (proj2 (He' (k, Leaf key)) (or_intror eq_refl)) as Hin.
      rewrite E in Hin. by apply elem_of_nil in Hin.
    + rewrite Hp'. intros b c [Hin|[= -> ->]]%He'; [by apply Hc|]. apply art_leaf; [|done|done].
      exists t. unfold key. by rewrite <- !app_assoc.
  - intros x. rewrite !mem_inner_iff by done. split.
    + intros (b & c & [Hin|[= -> ->]]%He' & Hm); [left; eauto|right; by apply mem_leaf_inv].
    + intros [(b & c & Hin & Hm)| ->]; [exists b, c; rewrite He'; auto|].
      exists k, (Leaf key). rewrite He', mem_leaf_inv. auto.
  - split; [done|]. intros (b & c & Hin & Hm)%mem_inner_iff; [|done].
    exfalso. apply Hnin, list_elem_of_fmap. exists (b, c). split; [|done]. cbn.
    symmetry. eapply art_mem_byte; [by apply Hc|done].
Qed.

(** The next byte has a child: the key goes below it. *)
Lemma Insert_below p n k t c pos r :
  node_wf n -> art len p n -> (k, c) ∈ entries n -> finds n k c pos ->
  inserted (p ++ node_prefix n ++ [k]) c (p ++ node_prefix n ++ k :: t) r ->
  inserted p n (p ++ node_prefix n ++ k :: t)
    ('(b, child) ← r; n ← set_child n pos child; Ok (b, n)).
Proof.
  intros Hwf Ha Hin (Hpos & _ & Hset) (b & c' & -> & Hac & Hm & Hb).
  destruct (art_inner_inv _ _ _ Hwf Ha) as [Hne Hc].
  destruct (Hset c') as (n' & Hs & Hw' & Hp' & He'). cbn. rewrite Hs. cbn.
  assert (Hnd : forall d, (k, d) ∈ entries n -> d = c).
  { intros d Hd. apply list_elem_of_lookup in Hd as [i Hi]. apply list_elem_of_lookup in Hin as [j Hj].
    assert (i = j) as ->; [|congruence].
    apply (NoDup_lookup (entries n).*1 i j k); [by apply es_ok_NoDup, entries_ok|..];
      by rewrite list_lookup_fmap, ?Hi, ?Hj. }
  exists b, n'. split; [done|]. split_and!.
  - apply art_inner; [done| |].
    + intros E. pose proof (proj2 (He' k c') (or_introl (conj eq_refl eq_refl))) as Hx.
      rewrite E in Hx. by apply elem_of_nil in Hx.
    + rewrite Hp'. intros b' d [[-> ->]|[_ Hd]]%He'; [done|by apply Hc].
  - intros x. rewrite !mem_inner_iff by done. split.
    + intros (b' & d & [[-> ->]|[_ Hd]]%He' & Hx); [|left; eauto].
      apply Hm in Hx as [Hx| ->]; [left; eauto|by right].
    + intros [(b' & d & Hd & Hx)| ->].
      * destruct (decide (b' = k)) as [->|Hne'].
        -- rewrite (Hnd _ Hd) in Hx. exists k, c'. split; [apply He'; by left|]. apply Hm. by left.
        -- exists b', d. split; [apply He'; by right|done].
      * exists k, c'. split; [apply He'; by left|]. apply Hm. by right.
  - rewrite Hb, (mem_inner_iff _ n) by done. split; [eauto|].
    intros (b' & d & Hd & Hx). assert (b' = k) as -> by (by eapply art_mem_byte; [apply Hc|]).
    by rewrite <- (Hnd _ Hd).
Qed.

Lemma InsertImpl_spec p n fuel key :
  art len p n -> p `prefix_of` key -> length key = len -> Forall (is_uw 8) key ->
  (len - length p < fuel)%nat -> inserted p n key (InsertImpl fuel (Some n) key (vec_size p)).
Proof.
  intros Ha. revert fuel. induction Ha as [p k' Hp Hl Hb|p n Hwf Hne Hc IH];
    intros [|fuel] Hpk Hlk Hbk Hf; try lia.
  - apply Insert_leaf; [by apply art_leaf|done..].
  - assert (Ha : art len p n) by (by apply art_inner).
    pose proof (art_inner_depth len p n Hwf Ha) as Hd. destruct Hpk as [s ->].
    destruct (prefix_cases (node_prefix n) s) as [(k & t & ->)|(q & x & t1 & y & t2 & Hq & -> & Hxy)].
    { rewrite length_app in Hlk. lia. }
    + rewrite Insert_match by done.
      assert (Hk : is_uw 8 k) by (rewrite app_assoc in Hbk; by eapply bytes_middle).
      destruct (decide (k ∈ (entries n).*1)) as [Hin|Hnin].
      * destruct (GetChildPos_found n k Hwf Hk Hin) as (c & pos & He & -> & Hfind).
        pose proof Hfind as (Hpos & Hg & _). cbn [mbind Res_bind].
        destruct (Z.eqb_spec pos (-1)); [done|]. cbn [negb]. rewrite Hg.
        cbn [mbind Res_bind]. apply (Insert_below p n k t c pos); [done..|]. apply (IH k c He).
        -- exists t. by rewrite <- !app_assoc.
        -- done.
        -- done.
        -- rewrite !length_app. cbn. lia.
      * rewrite GetChildPos_missing by done. cbn [mbind Res_bind Z.eqb negb].
        by apply Insert_new_child.
    + rewrite (Insert_mismatch fuel p n q x t1 y t2) by done.
      destruct (split_prefix p n q x t1 y t2) as (n' & -> & Hart & Hm); [done..| |done|done|].
      { pose proof (art_prefix_bytes len p n Ha) as Hbs. rewrite Hq in Hbs. by eapply bytes_middle. }
      cbn. exists true, n'. split_and!; [done..|]. split; [done|]. intros Hmem.
      exfalso. destruct (proj1 (mem_inner_iff _ _ Hwf) Hmem) as (b & c & Hin & Hx).
      destruct (art_mem _ _ _ _ (Hc b c Hin) Hx) as [[s Hs] _].
      rewrite Hq, <- !app_assoc in Hs. apply app_inv_head, app_inv_head in Hs. by simplify_eq/=.
Qed.
End insertion.

(** ** Enumerating the keys of a subtree *)

(** [enum n ks m]: an iteration below [n] meets the keys [ks] in this order and
    takes at most [m] steps of the loop of [IteratorNext]. *)
Inductive enum : node -> list (list Z) -> nat -> Prop :=
| enum_leaf k : enum (Leaf k) [k] 1
| enum_inner n (ys : list (list (list Z) * nat)) :
    node_wf n -> entries n <> [] -> length ys = length (entries n) ->
    (forall i b c y, entries n !! i = Some (b, c) -> ys !! i = Some y -> enum c y.1 y.2) ->
    enum n (concat ys.*1) (S (sum_list ys.*2 + length ys)).

Lemma list_choice {A B} (R : A -> B -> Prop) (l : list A) :
  (forall i x, l !! i = Some x -> exists y, R x y) ->
  exists ys, length ys = length l /\ forall i x y, l !! i = Some x -> ys !! i = Some y -> R x y.
Proof.
  induction l as [|x l IH]; intros H; [by exists []|].
  destruct (H 0%nat x eq_refl) as [y Hy]. destruct IH as (ys & Hl & Hys).
  { intros i a Hi. by apply (H (S i)). }
  exists (y :: ys). split; [cbn; lia|]. intros [|i] a b Ha Hb; simplify_eq/=; [done|].
  by eapply Hys.
Qed.

Definition Key_ltP (a b : list Z) : Prop := Key_lt a b = true.

Lemma Key_lt_byte p b b' s s' : b < b' -> Key_ltP (p ++ b :: s) (p ++ b' :: s').
Proof.
  intros Hb. unfold Key_ltP. induction p as [|x p IH]; cbn.
  - by rewrite (proj2 (Z.ltb_lt _ _)).
  - by rewrite Z.ltb_irrefl.
Qed.

Lemma concat_sorted (kss : list (list (list Z))) :
  (forall i ks, kss !! i = Some ks -> StronglySorted Key_ltP ks) ->
  (forall i j ks ks' x y, (i < j)%nat -> kss !! i = Some ks -> kss !! j = Some ks' ->
     x ∈ ks -> y ∈ ks' -> Key_ltP x y) ->
  StronglySorted Key_ltP (concat kss).
Proof.
  induction kss as [|ks kss IH]; intros H1 H2; [constructor|]. cbn.
  assert (Hs : StronglySorted Key_ltP (concat kss)).
  { apply IH; [intros i ? ?; by apply (H1 (S i))|].
    intros i j ? ? ? ? ? ? ? ? ?. eapply (H2 (S i) (S j)); [lia|done..]. }
  assert (Hx : forall x y, x ∈ ks -> y ∈ concat kss -> Key_ltP x y).
  { intros x y Hx Hy. apply list_elem_of_In, in_concat in Hy as (ks' & Hin & Hy).
    apply list_elem_of_In in Hin, Hy. apply list_elem_of_lookup in Hin as [j Hj].
    by eapply (H2 0%nat (S j)); [lia|..]. }
  apply StronglySorted_app_2; [done| |done]. by apply (H1 0%nat).
Qed.

Lemma StronglySorted_lookup' {A} (R : A -> A -> Prop) l i j x y :
  StronglySorted R l -> l !! i = Some x -> l !! j = Some y -> (i < j)%nat -> R x y.
Proof.
  intros Hs Hx Hy Hij. rewrite <- (take_drop j l) in Hs.
  eapply StronglySorted_app_1_elem_of; [done|..].
  - apply list_elem_of_lookup. exists i. by rewrite lookup_take_lt.
  - apply list_elem_of_lookup. exists 0%nat. by rewrite lookup_drop, Nat.add_0_r.
Qed.

Lemma elem_of_concat' (kss : list (list (list Z))) x :
  x ∈ concat kss <-> exists i ks, kss !! i = Some ks /\ x ∈ ks.
Proof.
  rewrite list_elem_of_In, in_concat. split.
  - intros (ks & Hin & Hx). apply list_elem_of_In in Hin, Hx.
    apply list_elem_of_lookup in Hin as [i Hi]. eauto.
  - intros (i & ks & Hi & Hx). exists ks. rewrite <- !list_elem_of_In.
    split; [by eapply list_elem_of_lookup_2|done].
Qed.

Lemma entries_lt n i j b b' c c' : node_wf n -> (i < j)%nat ->
  entries n !! i = Some (b, c) -> entries n !! j = Some (b', c') -> b < b'.
Proof.
  intros Hwf Hij Hi Hj. destruct (entries_ok n Hwf) as [Hs _].
  by eapply (StronglySorted_lookup' _ _ i j _ _ Hs); rewrite ?list_lookup_fmap, ?Hi, ?Hj.
Qed.

(** Every subtree can be enumerated: the keys below it, in key order. *)
Lemma art_enum len p n : art len p n -> exists ks m, enum n ks m /\
  (forall k, k ∈ ks <-> mem k n) /\ StronglySorted Key_ltP ks.
Proof.
  induction 1 as [p k _ _ _|p n Hwf Hne Hc IH].
  - exists [k], 1%nat. split_and!; [constructor| |by repeat constructor].
    intros k'. by rewrite list_elem_of_singleton, mem_leaf_inv.
  - destruct (list_choice (fun e y => enum e.2 y.1 y.2 /\ (forall k, k ∈ y.1 <-> mem k e.2) /\
      StronglySorted Key_ltP y.1) (entries n)) as (ys & Hl & Hys).
    { intros i [b c] Hi. destruct (IH b c) as (ks & m & ?); [by eapply list_elem_of_lookup_2|].
      by exists (ks, m). }
    assert (Hy : forall i ks, ys.*1 !! i = Some ks -> exists b c, entries n !! i = Some (b, c) /\
      (forall k, k ∈ ks <-> mem k c) /\ StronglySorted Key_ltP ks).
    { intros i ks Hi. rewrite list_lookup_fmap_Some in Hi. destruct Hi as (y & -> & Hi).
      destruct (lookup_lt_is_Some_2 (entries n) i) as [[b c] He].
      { rewrite <- Hl. by eapply lookup_lt_Some. }
      exists b, c. split; [done|]. by destruct (Hys _ _ _ He Hi) as (_ & ? & ?). }
    eexists _, _. split; [by apply (enum_inner n ys); [..|intros i b c y He Hi; apply (Hys _ _ _ He Hi)]|].
    split.
    + intros k. rewrite elem_of_concat', mem_inner_iff by done. split.
      * intros (i & ks & Hi & Hk). destruct (Hy _ _ Hi) as (b & c & He & Hm & _).
        exists b, c. split; [by eapply list_elem_of_lookup_2|by apply Hm].
      * intros (b & c & [i He]%list_elem_of_lookup & Hk).
        destruct (lookup_lt_is_Some_2 ys i) as [y Hi]; [rewrite Hl; by eapply lookup_lt_Some|].
        exists i, y.1. split; [by rewrite list_lookup_fmap, Hi|]. by apply (Hys _ _ _ He Hi).
    + apply concat_sorted.
      * intros i ks Hi. by destruct (Hy _ _ Hi) as (b & c & _ & _ & ?).
      * intros i j ks ks' x y Hij Hi Hj Hx Hx'.
        destruct (Hy _ _ Hi) as (b & c & He & Hm & _). destruct (Hy _ _ Hj) as (b' & c' & He' & Hm' & _).
        apply Hm in Hx. apply Hm' in Hx'.
        destruct (art_mem _ _ _ _ (Hc b c (list_elem_of_lookup_2 _ _ _ He)) Hx) as [[s ->] _].
        destruct (art_mem _ _ _ _ (Hc b' c' (list_elem_of_lookup_2 _ _ _ He')) Hx') as [[s' ->] _].
        rewrite <- !app_assoc, !(app_assoc p). apply Key_lt_byte. by eapply entries_lt.
Qed.

(** ** The iterator walks the enumeration *)

(** The used part of the iterator's stack, topmost entry first. *)
Definition view (it : Iterator) (st : list (node * Z)) : Prop :=
  it_depth it = vec_size st /\ (length st <= length (it_stack it))%nat /\
  take (length st) (it_stack it) = rev ((fun e => (Some e.1, e.2)) <$> st).

(** The next child to visit: [pos] is -1 or the position of the entry before. *)
Definition resume (n : node) (pos : Z) (i : nat) : Prop :=
  (pos = -1 /\ i = 0%nat) \/
  (exists j, i = S j /\ (j < length (entries n))%nat /\ pos = pos_of n j).

(** What a stack has left to visit, and in how many steps of the loop. *)
Inductive rem : list (node * Z) -> list (list Z) -> nat -> Prop :=
| rem_nil : rem [] [] 0
| rem_leaf k pos st ks m : rem st ks m -> rem ((Leaf k, pos) :: st) (k :: ks) (S m)
| rem_inner n (ys : list (list (list Z) * nat)) pos i st ks m :
    node_wf n -> entries n <> [] -> length ys = length (entries n) ->
    (forall i b c y, entries n !! i = Some (b, c) -> ys !! i = Some y -> enum c y.1 y.2) ->
    resume n pos i -> rem st ks m ->
    rem ((n, pos) :: st) (concat (drop i ys).*1 ++ ks)
      (S (sum_list (drop i ys).*2 + length (drop i ys)) + m).

(** Pushing a subtree that is not visited yet. *)
Lemma rem_push n ksn mn st ks m : enum n ksn mn -> rem st ks m ->
  rem ((n, -1) :: st) (ksn ++ ks) (mn + m).
Proof.
  intros He Hr. destruct He as [k|n ys Hwf Hne Hl Hc]; [by apply rem_leaf|].
  apply (rem_inner n ys (-1) 0); try done. by left.
Qed.

Lemma view_top it n pos st : view it ((n, pos) :: st) ->
  0 < it_depth it /\ vec_at (it_stack it) (it_depth it - 1) = Ok (Some n, pos).
Proof.
  intros (Hd & Hl & Ht). unfold vec_size in Hd. cbn in *. split; [lia|].
  replace (it_depth it - 1) with (Z.of_nat (length st)) by lia. apply vec_at_nat.
  rewrite <- (lookup_take_lt _ (S (length st))) by lia. rewrite Ht.
  by rewrite lookup_app_r, length_rev, length_fmap, Nat.sub_diag by (rewrite length_rev, length_fmap; lia).
Qed.

Lemma view_pop it n pos st : view it ((n, pos) :: st) ->
  view (MkIt (it_node it) (it_depth it - 1) (it_stack it)) st.
Proof.
  intros (Hd & Hl & Ht). unfold view, vec_size in *. cbn in *. split_and!; [lia|lia|].
  apply (f_equal (take (length st))) in Ht. rewrite take_take, Nat.min_l in Ht by lia.
  by rewrite take_app_length' in Ht by (rewrite length_rev, length_fmap; done).
Qed.

Lemma view_set it n pos pos' st : view it ((n, pos) :: st) ->
  exists stack, vec_set (it_stack it) (it_depth it - 1) (Some n, pos') = Ok stack /\
    view (MkIt (it_node it) (it_depth it) stack) ((n, pos') :: st).
Proof.
  intros Hv. destruct (view_top _ _ _ _ Hv) as [H0 [Hge Hat]%vec_at_Ok].
  rewrite (vec_set_lookup _ _ _ _ Hge Hat). eexists. split; [done|].
  destruct (view_pop _ _ _ _ Hv) as (_ & Hl & Ht). destruct Hv as (Hd & Hl' & _).
  unfold view, vec_size in *. cbn in *. rewrite length_insert. split_and!; [lia|lia|].
  replace (Z.to_nat (it_depth it - 1)) with (length st) by lia.
  by rewrite take_insert_snoc, Ht by lia.
Qed.

Lemma view_push it st n pos : view it st ->
  exists it', SetEntry it (it_depth it) (Some n, pos) = Ok it' /\ it_node it' = it_node it /\
    it_depth it' = it_depth it /\
    view (MkIt (it_node it') (it_depth it' + 1) (it_stack it')) ((n, pos) :: st).
Proof.
  intros (Hd & Hl & Ht). unfold SetEntry.
  set (stack := if vec_size (it_stack it) <? it_depth it + 1 then _ else _).
  assert (Hs : it_stack it `prefix_of` stack /\ (length st < length stack)%nat).
  { unfold stack. destruct (Z.ltb_spec (vec_size (it_stack it)) (it_depth it + 1)).
    - split; [by apply prefix_app_r|]. rewrite length_app, length_replicate.
      unfold vec_size in *. lia.
    - split; [done|]. unfold vec_size in *. lia. }
  destruct Hs as [[ext Hext] Hlt].
  destruct (lookup_lt_is_Some_2 stack (length st) Hlt) as [x Hx].
  assert (E : Z.to_nat (it_depth it) = length st) by (unfold vec_size in *; lia).
  rewrite (vec_set_lookup _ _ _ x) by (rewrite ?E; done || (unfold vec_size in *; lia)). cbn.
  eexists. split; [done|]. split_and!; [done..|]. unfold view, vec_size in *. cbn.
  rewrite length_insert. split_and!; [lia|lia|]. rewrite E, take_insert_snoc by done.
  by rewrite Hext, take_app_le, Ht by lia.
Qed.

Lemma resume_step n pos i : node_wf n -> entries n <> [] -> resume n pos i ->
  if decide (i < length (entries n))%nat
  then GetNextPos n pos = pos_of n i /\ pos_of n i <> -1
  else GetNextPos n pos = -1.
Proof.
  intros Hwf Hne [[-> ->]|(j & -> & Hj & ->)].
  - assert (0 < length (entries n))%nat by (destruct (entries n); [done|cbn; lia]).
    rewrite decide_True by done. split; [by apply GetNextPos_first|].
    by apply (GetNextPos_next n Hwf).
  - destruct (GetNextPos_next n Hwf j Hj) as [_ ->]. case_decide; [|done]. split; [done|].
    by apply (GetNextPos_next n Hwf).
Qed.

Lemma next_loop_inner fuel it n pos st : node_wf n -> view it ((n, pos) :: st) ->
  exists stack, view (MkIt (it_node it) (it_depth it) stack) ((n, GetNextPos n pos) :: st) /\
    next_loop (S fuel) it =
      (let it := MkIt (it_node it) (it_depth it) stack in
       if negb (GetNextPos n pos =? -1) then
         child ← GetChild n (GetNextPos n pos);
         it ← SetEntry it (it_depth it) (child, -1);
         next_loop fuel (MkIt (it_node it) (it_depth it + 1) (it_stack it))
       else next_loop fuel (MkIt (it_node it) (it_depth it - 1) (it_stack it))).
Proof.
  intros Hwf Hv. destruct (view_top _ _ _ _ Hv) as [Hd Hat].
  destruct (view_set it n pos (GetNextPos n pos) st Hv) as (stack & Hs & Hv').
  exists stack. split; [done|]. cbn [next_loop]. rewrite (proj2 (Z.ltb_lt _ _)) by done.
  rewrite Hat. cbn [mbind Res_bind opt_ub].
  destruct n; [done|..]; rewrite Hs; done.
Qed.

(** The loop of [IteratorNext]: it stops at the next key, or at the end. *)
Lemma next_loop_spec fuel it st ks m :
  view it st -> rem st ks m -> (m < fuel)%nat ->
  match ks with
  | [] => exists it', next_loop fuel it = Ok (false, it')
  | k :: ks' => exists it' st' pos m', next_loop fuel it = Ok (true, it') /\
      it_node it' = Some k /\ view it' ((Leaf k, pos) :: st') /\ rem st' ks' m' /\ (m' <= m)%nat
  end.
Proof.
  revert it st ks m. induction fuel as [|fuel IH]; intros it st ks m Hv Hr Hf; [lia|].
  destruct Hr as [|k pos st ks m Hr|n ys pos i st ks m Hwf Hne Hl Hc Hres Hr].
  - exists it. cbn. destruct Hv as (Hd & _). rewrite Hd. done.
  - destruct (view_top _ _ _ _ Hv) as [Hd Hat]. cbn. rewrite (proj2 (Z.ltb_lt _ _)) by done.
    rewrite Hat. cbn. eexists _, st, pos, m. split; [done|]. split; [done|].
    split; [exact Hv|]. split; [done|lia].
  - destruct (next_loop_inner fuel it n pos st Hwf Hv) as (stack & Hv' & ->).
    pose proof (resume_step n pos i Hwf Hne Hres) as Hstep. cbv zeta. case_decide as Hi.
    + destruct Hstep as [Hp Hp1]. rewrite Hp in *.
      destruct (Z.eqb_spec (pos_of n i) (-1)); [done|]. cbn [negb].
      destruct (lookup_lt_is_Some_2 (entries n) i Hi) as [[b c] He].
      destruct (lookup_lt_is_Some_2 ys i) as [y Hy]; [lia|].
      rewrite (GetChild_pos n Hwf i b c He). cbn [mbind Res_bind].
      destruct (view_push _ _ c (-1) Hv') as (it2 & -> & _ & _ & Hv2). cbn [mbind Res_bind].
      rewrite (drop_S ys y i Hy) in *. rewrite !fmap_cons in *.
      cbn [concat sum_list_with length id] in *. rewrite <- app_assoc.
      assert (Hrem : rem ((c, -1) :: (n, pos_of n i) :: st)
        (y.1 ++ (concat (drop (S i) ys).*1 ++ ks))
        (y.2 + (S (sum_list (drop (S i) ys).*2 + length (drop (S i) ys)) + m))).
      { apply rem_push; [by eapply Hc|]. apply (rem_inner n ys (pos_of n i) (S i)); try done.
        right. exists i. done. }
      specialize (IH _ _ _ _ Hv2 Hrem ltac:(lia)).
      destruct (y.1 ++ (concat (drop (S i) ys).*1 ++ ks)) as [|k ks'] eqn:E; [done|].
      destruct IH as (it' & st' & pos' & m' & ? & ? & ? & ? & ?).
      exists it', st', pos', m'. split_and!; try done. lia.
    + rewrite Hstep in *. cbn [negb Z.eqb]. rewrite (drop_ge ys) by lia. cbn [fmap list_fmap concat app].
      apply view_pop in Hv'. specialize (IH _ _ _ _ Hv' Hr).
      rewrite (drop_ge ys) in Hf by lia. cbn in Hf.
      destruct ks as [|k ks']; [apply IH; lia|].
      destruct IH as (it' & st' & pos' & m' & ? & ? & ? & ? & ?); [lia|].
      exists it', st', pos', m'. split_and!; try done. cbn. lia.
Qed.

(** [IteratorNext] from a state that has [ks] left. *)
Definition iter_left (it : Iterator) (ks : list (list Z)) (m : nat) : Prop :=
  exists st, rem st ks m /\
    (view it st /\ (forall k pos st', st <> (Leaf k, pos) :: st') \/
     exists k pos, view it ((Leaf k, pos) :: st)).

Lemma IteratorNext_spec fuel it ks m : iter_left it ks m -> (m < fuel)%nat ->
  match ks with
  | [] => exists it', IteratorNext fuel it = Ok (false, it')
  | k :: ks' => exists it' m', IteratorNext fuel it = Ok (true, it') /\
      it_node it' = Some k /\ iter_left it' ks' m' /\ (m' <= m)%nat
  end.
Proof.
  intros (st & Hr & Hst) Hf.
  assert (Hskip : exists it1, IteratorNext fuel it = next_loop fuel it1 /\ view it1 st).
  { unfold IteratorNext. destruct Hst as [[Hv Hnl]|(k & pos & Hv)].
    - exists it. split; [|done]. destruct it as [nd d stack]. cbn in *.
      destruct st as [|[n pos] st'].
      + destruct Hv as (Hd & _). cbn in Hd. rewrite Hd. done.
      + destruct (view_top _ _ _ _ Hv) as [Hd Hat]. cbn in Hd, Hat.
        destruct (Z.eqb_spec d 0); [lia|]. rewrite Hat. cbn.
        destruct n; [by destruct (Hnl value pos st')|done..].
    - eexists. split; [|by apply (view_pop it (Leaf k) pos)].
      destruct (view_top _ _ _ _ Hv) as [Hd Hat].
      destruct (Z.eqb_spec (it_depth it) 0); [lia|]. rewrite Hat. done. }
  destruct Hskip as (it1 & -> & Hv). pose proof (next_loop_spec fuel it1 st ks m Hv Hr Hf) as H.
  destruct ks as [|k ks']; [done|]. destruct H as (it' & st' & pos & m' & ? & ? & ? & ? & ?).
  exists it', m'. split_and!; try done. exists st'. split; [done|]. right. eauto.
Qed.

(** ** Starting an iteration *)
Lemma first_child_spec n b c es : node_wf n -> entries n = (b, c) :: es ->
  first_child n = Ok (pos_of n 0, Some c).
Proof.
  intros Hwf He. assert (Hi : entries n !! 0%nat = Some (b, c)) by (by rewrite He).
  pose proof (GetChild_pos n Hwf 0 b c Hi) as Hg.
  destruct n as [v|p cnt key ch|p cnt key ch|p cnt ci ch|p cnt ch]; [done|..].
  - node_ops; cbn [first_child pos_of] in Hg |- *. change (Z.of_nat 0) with 0 in *. case_match; [done|]. by rewrite Hg.
  - node_ops; cbn [first_child pos_of] in Hg |- *. change (Z.of_nat 0) with 0 in *. by rewrite Hg.
  - cbn [first_child]. rewrite (slots48_used _ _ _ _ Hwf), scan_from_first.
    change (default (-1) ((tbl_entries 0 (slots48 ci ch)).*1 !! 0%nat))
      with (pos_of (Node48 p cnt ci ch) 0).
    node_ops. apply bind_Ok in Hg as (i & -> & Hg). cbn.
    destruct (slot_used i); [|done]. cbn in Hg. by rewrite Hg.
  - cbn [first_child]. rewrite scan_from_first.
    change (default (-1) ((tbl_entries 0 ch).*1 !! 0%nat)) with (pos_of (Node256 p cnt ch) 0).
    node_ops. apply bind_Ok in Hg as (o & -> & Hg). cbn.
    destruct (is_child o); [|done]. by injection Hg as ->.
Qed.

Definition no_leaf_top (st : list (node * Z)) : Prop :=
  forall k pos st', st <> (Leaf k, pos) :: st'.

Lemma BeginImpl_spec n ksn mn : enum n ksn mn -> forall fuel it st ks m,
  view it st -> rem st ks m -> no_leaf_top st -> (mn <= fuel)%nat ->
  exists k ksn' it' st' m', ksn = k :: ksn' /\ BeginImpl fuel it n = Ok it' /\
    it_node it' = Some k /\ view it' st' /\ no_leaf_top st' /\ rem st' (ksn' ++ ks) m' /\
    (m' <= mn + m)%nat.
Proof.
  induction 1 as [k|n ys Hwf Hne Hl Hc IH]; intros fuel it st ks m Hv Hr Hnl Hf.
  - destruct fuel as [|fuel]; [lia|]. cbn. exists k, []. eexists _, st, m. split_and!; try done. lia.
  - destruct fuel as [|fuel]; [lia|].
    destruct (entries n) as [|[b c] es] eqn:He; [done|]. destruct ys as [|y ys]; [done|].
    assert (Hb : BeginImpl (S fuel) it n =
      ('(pos, next) ← first_child n; it ← SetEntry it (it_depth it) (Some n, pos);
       next ← opt_ub next; BeginImpl fuel (MkIt (it_node it) (it_depth it + 1) (it_stack it)) next))
      by (by destruct n).
    rewrite Hb, (first_child_spec n b c es) by done. cbn [mbind Res_bind].
    destruct (view_push it st n (pos_of n 0) Hv) as (it1 & -> & _ & _ & Hv1). cbn [mbind Res_bind opt_ub].
    assert (Hr1 : rem ((n, pos_of n 0) :: st) (concat (drop 1 (y :: ys)).*1 ++ ks)
      (S (sum_list (drop 1 (y :: ys)).*2 + length (drop 1 (y :: ys))) + m)).
    { apply (rem_inner n (y :: ys) (pos_of n 0) 1); rewrite ?He; try done.
      right. exists 0%nat. rewrite He. split_and!; [done|cbn; lia|done]. }
    rewrite !fmap_cons in *. cbn [drop concat sum_list_with length id] in *. rewrite drop_0 in *.
    destruct (IH 0%nat b c y eq_refl eq_refl fuel _ _ _ _ Hv1 Hr1)
      as (k & ksn' & it' & st' & m' & Ek & -> & ? & ? & ? & ? & ?); [|lia|].
    { intros k pos st' [= E _]. subst n. done. }
    exists k, (ksn' ++ concat ys.*1), it', st', m'. rewrite Ek, <- !app_assoc.
    split_and!; try done. lia.
Qed.

(** ** Keys of tuples *)
Lemma le_bytes_range z : Forall (is_uw 8) (le_bytes z).
Proof. repeat constructor; apply Z.mod_pos_bound; lia. Qed.

Lemma CreateKey_range l : Forall (is_uw 8) (CreateKey l).
Proof.
  unfold CreateKey. induction l as [|z l IH]; [constructor|]. cbn [mbind list_bind].
  apply Forall_app. split; [apply le_bytes_range|done].
Qed.

Lemma CreateKey_length l : length (CreateKey l) = (4 * length l)%nat.
Proof.
  unfold CreateKey. induction l as [|z l IH]; [done|]. cbn [mbind list_bind].
  rewrite length_app, IH. cbn. lia.
Qed.

Lemma Data_CreateKey l : Forall (is_sw 32) l -> Data (CreateKey l) = l.
Proof.
  induction 1 as [|z l Hz _ IH]; [done|].
  change (CreateKey (z :: l)) with (le_bytes z ++ CreateKey l).
  unfold le_bytes. cbn [app Data]. rewrite IH. f_equal. rewrite <- (sw_id 32 z) at 5 by done.
  rewrite <- (sw_uw 32 z). rewrite <- sw_uw. f_equal.
  rewrite !Z.shiftr_div_pow2 by lia. unfold uw. Z.to_euclidean_division_equations. lia.
Qed.

Lemma CreateKey_inj a b : Forall (is_sw 32) a -> Forall (is_sw 32) b ->
  CreateKey a = CreateKey b -> a = b.
Proof. intros Ha Hb E. by rewrite <- (Data_CreateKey a), <- (Data_CreateKey b), E. Qed.

(** ** Refinement: the table is a set of tuples *)

(** The table represents the set [S] of tuples of [m] 32-bit integers. *)
Record table_rep (m : nat) (t : TupleIdxTable) (S : gset (list Z)) : Prop := {
  tr_tuples : forall x, x ∈ S -> length x = m /\ Forall (is_sw 32) x;
  tr_tree : match tree t with
            | None => S = ∅
            | Some n => art (4 * m) [] n /\
                forall k, mem k n <-> exists x, x ∈ S /\ k = CreateKey x
            end;
}.

Lemma Create_rep m : table_rep m Create ∅.
Proof. split; [set_solver|done]. Qed.

Lemma Insert_spec (m : nat) (t : TupleIdxTable) (S : gset (list Z)) (x : list Z) :
  table_rep m t S -> length x = m -> Forall (is_sw 32) x ->
  exists t', Insert t x = Ok (bool_decide (x ∉ S), t') /\ table_rep m t' ({[x]} ∪ S).
Proof.
  intros [Ht Htree] Hl Hx. unfold Insert.
  assert (Hkl : length (CreateKey x) = (4 * m)%nat) by (rewrite CreateKey_length; lia).
  assert (Htup : forall y, y ∈ {[x]} ∪ S -> length y = m /\ Forall (is_sw 32) y) by set_solver.
  destruct (tree t) as [n|].
  - destruct Htree as [Ha Hm].
    destruct (InsertImpl_spec (4 * m) [] n (Datatypes.S (length (CreateKey x))) (CreateKey x))
      as (b & n' & Hi & Ha' & Hm' & Hb); [done|by apply prefix_nil|done|apply CreateKey_range|cbn; lia|].
    change (vec_size []) with 0 in Hi. rewrite Hi. cbn [mbind Res_bind].
    exists (MkTable (Some n')). split; [|split; [done|split; [done|]]].
    + do 2 f_equal. rewrite Hm in Hb.
      destruct b; case_bool_decide as Hin; try done.
      * exfalso. assert (true = false) by (apply Hb; eauto). done.
      * exfalso. destruct (proj1 Hb eq_refl) as (y & Hy & E).
        apply Hin. rewrite (CreateKey_inj x y); [done|done|by apply Ht|done].
    + intros k. rewrite Hm', Hm. set_solver.
  - subst S. cbn. eexists. split; [done|]. split; cbn; [done|]. split.
    + apply art_leaf; [by apply prefix_nil|done|apply CreateKey_range].
    + intros k. rewrite mem_leaf_inv. set_solver.
Qed.

(** C32.  [Insert] refines insertion into a set: on a table of tuples of [m]
    integers it returns, tells whether the tuple is new, and leaves a table of
    exactly the old tuples and the new one, through leaf splits, prefix splits
    and the growth of nodes from 4 to 16, 48 and 256 children. *)
Theorem Insert_refines (m : nat) (t : TupleIdxTable) (S : gset (list Z)) (x : list Z) :
  table_rep m t S -> length x = m -> Forall (is_sw 32) x ->
  exists b t', Insert t x = Ok (b, t') /\ (b = true <-> x ∉ S) /\ table_rep m t' ({[x]} ∪ S).
Proof.
  intros. destruct (Insert_spec m t S x) as (t' & ? & ?); [done..|].
  exists (bool_decide (x ∉ S)), t'. by rewrite bool_decide_eq_true.
Qed.

Lemma sorted_NoDup ks : StronglySorted Key_ltP ks -> NoDup ks.
Proof.
  assert (Hirr : forall k, Key_lt k k = false).
  { induction k as [|x k IH]; cbn; [done|]. by rewrite Z.ltb_irrefl. }
  induction 1 as [|k ks Hs IH Hall]; constructor; [|done]. intros Hin%list_elem_of_In.
  rewrite Forall_forall in Hall. specialize (Hall k Hin). unfold Key_ltP in Hall.
  by rewrite Hirr in Hall.
Qed.

Lemma sorted_fmap (l : list (list Z)) : StronglySorted Key_ltP (CreateKey <$> l) ->
  StronglySorted (fun a b => Key_lt (CreateKey a) (CreateKey b) = true) l.
Proof.
  induction l as [|x l IH]; [constructor|]. rewrite fmap_cons.
  intros [Hs Hall]%StronglySorted_inv. constructor; [by apply IH|].
  rewrite Forall_fmap in Hall. exact Hall.
Qed.

Lemma list_fmap_id' {A} (f : A -> A) (l : list A) : (forall x, x ∈ l -> f x = x) -> f <$> l = l.
Proof.
  intros Hf. induction l as [|x l IH]; [done|]. rewrite fmap_cons, (Hf x), IH; [done| |by left].
  intros y ?. apply Hf. by right.
Qed.

Lemma ForEach_loop_spec steps fuel it k ks m :
  it_node it = Some k -> iter_left it ks m -> (m < fuel)%nat -> (length ks + 1 < steps)%nat ->
  ForEach_loop steps fuel true it = Ok (Data <$> (k :: ks)).
Proof.
  revert it k ks m. induction steps as [|steps IH]; intros it k ks m Hn Hl Hf Hs; [lia|].
  cbn. unfold Get. rewrite Hn. cbn. pose proof (IteratorNext_spec fuel it ks m Hl Hf) as H.
  destruct ks as [|k' ks].
  - destruct H as (it' & ->). cbn. destruct steps; [cbn in Hs; lia|]. done.
  - destruct H as (it' & m' & -> & Hn' & Hl' & ?). cbn.
    rewrite (IH it' k' ks m' Hn' Hl'); [done|lia|cbn in Hs; lia].
Qed.

(** C33.  Iterating over a table terminates and hands over every tuple of the
    set exactly once, in the order of [Key::operator<] on their keys. *)
Theorem ForEach_enumerates (m : nat) (t : TupleIdxTable) (S : gset (list Z)) :
  table_rep m t S ->
  exists N, forall fuel, (N <= fuel)%nat -> exists l, ForEach fuel t = Ok l /\
    l ≡ₚ elements S /\
    StronglySorted (fun a b => Key_lt (CreateKey a) (CreateKey b) = true) l.
Proof.
  intros [Ht Htree]. unfold ForEach, Begin. destruct (tree t) as [n|].
  2: { subst S. exists 1%nat. intros [|fuel] ?; [lia|]. exists []. rewrite elements_empty.
       split_and!; [done|done|constructor]. }
  destruct Htree as [Ha Hm]. destruct (art_enum _ _ _ Ha) as (ks & M & He & Hk & Hs).
  exists (Datatypes.S (M + length ks + 2)). intros fuel Hf.
  assert (Hl : exists l, ks = CreateKey <$> l /\ forall x, x ∈ l <-> x ∈ S).
  { exists (Data <$> ks).
    assert (Hd : forall k, k ∈ ks -> exists x, x ∈ S /\ k = CreateKey x /\ Data k = x).
    { intros k (x & Hx & ->)%Hk%Hm. exists x. rewrite Data_CreateKey; [done|by apply Ht]. }
    split_and!.
    - rewrite <- list_fmap_compose. symmetry. apply list_fmap_id'. intros k (x & _ & -> & E)%Hd.
      cbn. by rewrite E.
    - intros x. rewrite list_elem_of_fmap. split.
      + intros (k & -> & (y & Hy & _ & ->)%Hd). done.
      + intros Hx. exists (CreateKey x). rewrite Data_CreateKey by (by apply Ht).
        split; [done|]. apply Hk, Hm. eauto. }
  destruct Hl as (l & -> & Hin). exists l.
  destruct (BeginImpl_spec n _ M He fuel CreateIt [] [] 0)
    as (k & ks' & it & st & m' & E & -> & Hn & Hv & Hnl & Hr & Hm');
    [by split_and!|constructor|done|lia|].
  rewrite app_nil_r in Hr. cbn. split_and!.
  - rewrite (ForEach_loop_spec fuel fuel it k ks' m' Hn); [| |lia|].
    + rewrite <- E, <- list_fmap_compose. f_equal. apply list_fmap_id'. intros x Hx. cbn.
      apply Data_CreateKey. by apply Ht, Hin.
    + exists st. split; [done|]. left. done.
    + apply (f_equal length) in E. rewrite length_fmap in E, Hf. cbn in E. lia.
  - apply NoDup_Permutation; [|apply NoDup_elements|intros x; by rewrite elem_of_elements].
    apply (NoDup_fmap_1 CreateKey). by apply sorted_NoDup.
  - by apply sorted_fmap.
Qed.

(**  Node growth keeps a node sorted: inserting a byte that has no entry
    into an inner node of any kind, growing it if it is full, keeps the node
    well formed with its entries in increasing byte order, and adds exactly the
    new entry; [GetChildPos] then finds it. *)
Theorem node_insert_sorted (n : node) (k : Z) (c : node) :
  node_wf n -> is_uw 8 k -> k ∉ (entries n).*1 ->
  exists n', InsertLeaf n k c = Ok n' /\ node_wf n' /\ es_ok (entries n') /\
    (forall e, e ∈ entries n' <-> e ∈ entries n \/ e = (k, c)) /\
    exists pos, GetChildPos n' k = Ok pos /\ GetChild n' pos = Ok (Some c).
Proof.
  intros Hwf Hk Hnin. destruct (InsertLeaf_adds n k c Hwf Hk Hnin) as (n' & ? & Hwf' & _ & He).
  exists n'. split_and!; [done|done|by apply entries_ok|done|].
  assert (Hin : (k, c) ∈ entries n') by (apply He; by right).
  destruct (GetChildPos_found n' k Hwf' Hk) as (c' & pos & Hin' & ? & _ & Hg & _).
  { apply list_elem_of_fmap. by exists (k, c). }
  exists pos. split; [done|]. apply He in Hin' as [Hin'|[= ->]]; [|done].
  exfalso. apply Hnin, list_elem_of_fmap. by exists (k, c').
Qed.

(**  Keys: the bytes of a tuple read back as the tuple, so different
    tuples of 32-bit integers have different keys. *)
Theorem key_roundtrip (x : list Z) : Forall (is_sw 32) x ->
  Data (CreateKey x) = x /\ forall y, Forall (is_sw 32) y -> CreateKey x = CreateKey y -> x = y.
Proof. intros Hx. split; [by apply Data_CreateKey|]. intros y Hy. by apply CreateKey_inj. Qed.

(** A table built by a list of insertions. *)
Definition insert_all (l : list (list Z)) : TupleIdxTable :=
  foldl (fun t x => match Insert t x with Ok (_, t') => t' | _ => t end) Create l.

Lemma insert_all_rep m l : Forall (fun x => length x = m /\ Forall (is_sw 32) x) l ->
  exists S, table_rep m (insert_all l) S /\ forall x, x ∈ S <-> x ∈ l.
Proof.
  unfold insert_all. intros Hl.
  assert (H : forall t S, table_rep m t S ->
    exists S', table_rep m (foldl (fun t x => match Insert t x with Ok (_, t') => t' | _ => t end) t l) S' /\
      forall x, x ∈ S' <-> x ∈ l \/ x ∈ S).
  { induction Hl as [|y l [Hy1 Hy2] _ IH]; intros t S Ht; cbn [foldl].
    - exists S. split; [done|]. intros x. rewrite elem_of_nil. tauto.
    - destruct (Insert_spec m t S y Ht Hy1 Hy2) as (t' & -> & Ht').
      destruct (IH t' _ Ht') as (S' & ? & HS'). exists S'. split; [done|]. intros x.
      rewrite HS', elem_of_cons. set_solver. }
  destruct (H Create ∅ (Create_rep m)) as (S & ? & HS). exists S. split; [done|]. set_solver.
Qed.

Lemma Insert_refines_witness :
  exists b t', Insert (insert_all []) [7; -1] = Ok (b, t') /\
    (b = true <-> [7; -1] ∉ (∅ : gset (list Z))) /\ table_rep 2 t' ({[ [7; -1] ]} ∪ ∅).
Proof.
  apply (Insert_refines 2 (insert_all []) ∅ [7; -1]).
  - apply Create_rep.
  - done.
  - by repeat constructor.
Defined.

Lemma ForEach_enumerates_witness :
  exists (S : gset (list Z)) N, [1; 0; 2] ∈ S /\ forall fuel, (N <= fuel)%nat ->
    exists l, ForEach fuel (insert_all [[1; 0; 2]; [0; 1; 2]; [1; 2; 0]]) = Ok l /\
    l ≡ₚ elements S /\
    StronglySorted (fun a b => Key_lt (CreateKey a) (CreateKey b) = true) l.
Proof.
  destruct (insert_all_rep 3 [[1; 0; 2]; [0; 1; 2]; [1; 2; 0]]) as (S & HS & Hin);
    [by repeat constructor|].
  destruct (ForEach_enumerates 3 _ S HS) as [N HN]. exists S, N.
  split; [apply Hin; by left|done].
Defined.

Lemma node_insert_sorted_witness :
  exists n', InsertLeaf (Node4_new [1]) 200 (Leaf [5]) = Ok n' /\ node_wf n' /\ es_ok (entries n') /\
    (forall e, e ∈ entries n' <-> e ∈ entries (Node4_new [1]) \/ e = (200, Leaf [5])) /\
    exists pos, GetChildPos n' 200 = Ok pos /\ GetChild n' pos = Ok (Some (Leaf [5])).
Proof.
  apply (node_insert_sorted (Node4_new [1]) 200 (Leaf [5])).
  - apply Node4_new_wf.
  - done.
  - apply not_elem_of_nil.
Defined.

Lemma key_roundtrip_witness : Data (CreateKey [300; -2]) = [300; -2].
Proof. by refine (proj1 (key_roundtrip [300; -2] _)); repeat constructor. Defined.
