(* ===== verification/SkinnerState.v ===== *)
(** * Skinner join: recorded progress

    [JoinState] of src/runtime/skinner_join_executor.cc.  The join runs in
    episodes, each with its own join order; after an episode the last tuple
    combination it completed is recorded in a tree of shared order prefixes, and
    [offset] records, per table, how many of its tuples are finished for good.
    Tuple indices are the [int32_t] values of the source; they stay between -1
    and a table's cardinality, so no operation on them overflows. *)
From S2P Require Import Prelude.

#[warnings="-register-all"]
Inductive ProgressTree : Type :=
| PNode (last_completed_tuple : Z) (child_nodes : list (option ProgressTree)).

Definition pt_last (p : ProgressTree) : Z := let 'PNode x _ := p in x.
Definition pt_kids (p : ProgressTree) : list (option ProgressTree) := let 'PNode _ k := p in k.

(** [ProgressTree(num_tables)] with its tuple set. *)
Definition ProgressTree_new (num_tables : nat) (x : Z) : ProgressTree :=
  PNode x (replicate num_tables None).

Record JoinState := MkJS {
  finished : bool;
  cardinalities : list Z;
  root : ProgressTree;
  offset : list Z;
}.

(** The constructor; the tuple of the root is never read. *)
Definition JoinState_new (cards : list Z) : JoinState :=
  MkJS false cards (ProgressTree_new (length cards) 0) (replicate (length cards) (-1)).

Definition IsComplete (s : JoinState) : bool := finished s.
Definition GetOffset (s : JoinState) : list Z := offset s.

Fixpoint IsJoinCompleted (last cards : list Z) : Res bool :=
  match last, cards with
  | [], _ => Ok true
  | x :: last, c :: cards => if x =? c - 1 then IsJoinCompleted last cards else Ok false
  | _ :: _, [] => UB
  end.

(** ** [GetLastCompletedTupleIdx] *)

(** The loop that sets the remaining tables to 0. *)
Fixpoint set_all (x : Z) (last : list Z) (tables : list Z) : Res (list Z) :=
  match tables with
  | [] => Ok last
  | t :: tables => last ← vec_set last t x; set_all x last tables
  end.

(** The loop that decrements, over the order from its end: [None] when the
    first table is reached with value 0. *)
Fixpoint decrement (cards : list Z) (last : list Z) (rorder : list Z) : Res (option (list Z)) :=
  match rorder with
  | [] => Ok (Some last)
  | table :: rorder =>
      x ← vec_at last table;
      if x =? 0 then
        match rorder with
        | [] => Ok None
        | _ =>
            c ← vec_at cards table;
            last ← vec_set last table (c - 1);
            decrement cards last rorder
        end
      else last ← vec_set last table (x - 1); Ok (Some last)
  end.

(** The walk down the tree; [is_root] tells whether [prev] is the root and
    [rest] are the tables of the order still to visit. *)
Fixpoint walk (cards order : list Z) (prev : ProgressTree) (is_root : bool)
    (rest : list Z) (last : list Z) : Res (option (list Z)) :=
  match rest with
  | [] => Ok (Some last)
  | table :: rest' =>
      curr ← vec_at (pt_kids prev) table;
      match curr with
      | None =>
          if is_root then Ok None else
          last ← set_all 0 last rest;
          decrement cards last (reverse order)
      | Some curr =>
          last ← vec_set last table (pt_last curr);
          walk cards order curr false rest' last
      end
  end.

Definition GetLastCompletedTupleIdx (s : JoinState) (order : list Z) : Res (option (list Z)) :=
  walk (cardinalities s) order (root s) true order (replicate (length order) 0).

(** ** [Update] *)

(** Whether every table of the list is at its last tuple. *)
Fixpoint at_last (last cards : list Z) (tables : list Z) : Res bool :=
  match tables with
  | [] => Ok true
  | t :: tables =>
      x ← vec_at last t; c ← vec_at cards t;
      if x =? c - 1 then at_last last cards tables else Ok false
  end.

Definition update_offset (cards : list Z) (order last offset : list Z) : Res (list Z) :=
  first_table ← vec_at order 0;
  last_finished_tuple ← vec_at last first_table;
  completed ← at_last last cards (tail order);
  let last_finished_tuple :=
    if completed : bool then last_finished_tuple else last_finished_tuple - 1 in
  o ← vec_at offset first_table;
  vec_set offset first_table (Z.max last_finished_tuple o).

(** The loop that appends the rest of an order as new nodes below [prev]. *)
Fixpoint set_path (num_tables : nat) (last : list Z) (prev : ProgressTree) (rest : list Z)
    : Res ProgressTree :=
  match rest with
  | [] => Ok prev
  | table :: rest =>
      x ← vec_at last table;
      curr ← set_path num_tables last (ProgressTree_new num_tables x) rest;
      kids ← vec_set (pt_kids prev) table (Some curr);
      Ok (PNode (pt_last prev) kids)
  end.

(** The loop over the order in [Update]. *)
Fixpoint update_tree (num_tables : nat) (last : list Z) (prev : ProgressTree) (rest : list Z)
    : Res ProgressTree :=
  match rest with
  | [] => Ok prev
  | table :: rest' =>
      x ← vec_at last table;
      curr ← vec_at (pt_kids prev) table;
      match curr with
      | None => set_path num_tables last prev rest
      | Some curr =>
          if x <? pt_last curr then Throw "Negative progress was made" else
          curr ← (if pt_last curr <? x then
                    set_path num_tables last
                      (PNode x (replicate (length (pt_kids curr)) None)) rest'
                  else update_tree num_tables last curr rest');
          kids ← vec_set (pt_kids prev) table (Some curr);
          Ok (PNode (pt_last prev) kids)
      end
  end.

Definition Update (s : JoinState) (order last : list Z) : Res JoinState :=
  if finished s then Throw "Already done executing join." else
  completed ← IsJoinCompleted last (cardinalities s);
  if completed : bool then Ok (MkJS true (cardinalities s) (root s) (offset s)) else
  offset ← update_offset (cardinalities s) order last (offset s);
  root ← update_tree (length order) last (root s) order;
  Ok (MkJS false (cardinalities s) root offset).

(** ** Lexicographic order *)
Fixpoint lex_lt (a b : list Z) : Prop :=
  match a, b with
  | x :: a, y :: b => x < y \/ (x = y /\ lex_lt a b)
  | _, _ => False
  end.

Definition lex_le (a b : list Z) : Prop := a = b \/ lex_lt a b.

Lemma lex_lt_irrefl a : ~ lex_lt a a.
Proof. induction a as [|x a IH]; cbn; [auto|]. intros [?|[_ ?]]; [lia|auto]. Qed.

Lemma lex_lt_trans a b c : lex_lt a b -> lex_lt b c -> lex_lt a c.
Proof.
  revert b c. induction a as [|x a IH]; intros [|y b] [|z c]; cbn; try tauto.
  intros [?|[-> ?]] [?|[-> ?]]; [left; lia|left; lia|left; lia|right; eauto].
Qed.

Lemma lex_lt_le_trans a b c : lex_lt a b -> lex_le b c -> lex_lt a c.
Proof. intros Hab [<-|?]; [done|]. by eapply lex_lt_trans. Qed.

Lemma lex_le_lt_trans a b c : lex_le a b -> lex_lt b c -> lex_lt a c.
Proof. intros [->|?] Hbc; [done|]. by eapply lex_lt_trans. Qed.

Lemma lex_le_trans a b c : lex_le a b -> lex_le b c -> lex_le a c.
Proof. intros [->|?] [<-|?]; [by left|by right|by right|right; by eapply lex_lt_trans]. Qed.

Lemma lex_total a b : length a = length b -> lex_lt a b \/ a = b \/ lex_lt b a.
Proof.
  revert b. induction a as [|x a IH]; intros [|y b]; cbn; intros Hl; try lia; [auto|].
  destruct (Z.lt_trichotomy x y) as [?|[->|?]]; [auto| |auto].
  destruct (IH b) as [?|[->|?]]; [lia|auto..].
Qed.

Lemma lex_not_lt a b : length a = length b -> ~ lex_lt a b <-> lex_le b a.
Proof.
  intros Hl. split.
  - intros Hn. destruct (lex_total a b Hl) as [?|[->|?]]; [done|by left|by right].
  - intros [->|H] H'; [by apply (lex_lt_irrefl a)|]. apply (lex_lt_irrefl a).
    by eapply lex_lt_trans.
Qed.

(** Comparing lists with a common split point. *)
Lemma lex_lt_app a b c d : length a = length b ->
  lex_lt (a ++ c) (b ++ d) <-> lex_lt a b \/ (a = b /\ lex_lt c d).
Proof.
  revert b. induction a as [|x a IH]; intros [|y b]; cbn; intros Hl; try lia; [tauto|].
  rewrite IH by lia. split.
  - intros [?|[-> [?|[-> ?]]]]; auto.
  - intros [[?|[-> ?]]|[[= -> ->] ?]]; auto.
Qed.

Lemma lex_le_app a b c d : length a = length b ->
  lex_le (a ++ c) (b ++ d) <-> lex_lt a b \/ (a = b /\ lex_le c d).
Proof.
  intros Hl. unfold lex_le at 1. rewrite lex_lt_app by done. split.
  - intros [E|[?|[? ?]]]; [|by left|right; split; [done|by right]].
    apply app_inj_1 in E as [-> ->]; [|done]. right. split; [done|by left].
  - intros [?|[-> [->|?]]]; auto.
Qed.

Lemma elem_snoc {A} (l : list A) x : x ∈ l ++ [x].
Proof. apply elem_of_app. right. by left. Qed.

Lemma elem_snoc_l {A} (l : list A) x y : y ∈ l -> y ∈ l ++ [x].
Proof. intros. apply elem_of_app. by left. Qed.

Lemma not_elem_snoc {A} (l : list A) x y : (y ∉ l ++ [x]) -> (y ∉ l) /\ y <> x.
Proof. rewrite elem_of_app, list_elem_of_singleton. tauto. Qed.

Lemma NoDup_snoc {A} (l : list A) x : NoDup (l ++ [x]) -> NoDup l /\ x ∉ l.
Proof.
  intros (? & Hd & _)%list.NoDup_app. split; [done|]. intros Hx. apply (Hd x Hx). by left.
Qed.

(** ** Tuples and orders *)
Definition get (v : list Z) (t : Z) : Z := v !!! Z.to_nat t.
Definition upd (v : list Z) (t x : Z) : list Z := <[Z.to_nat t := x]> v.

Lemma vec_at_get v t : 0 <= t < vec_size v -> vec_at v t = Ok (get v t).
Proof.
  intros Ht. unfold vec_size in Ht. apply vec_at_Ok. split; [lia|].
  apply list_lookup_lookup_total_lt. lia.
Qed.

Lemma vec_set_upd v t x : 0 <= t < vec_size v -> vec_set v t x = Ok (upd v t x).
Proof. intros. by apply vec_set_Ok. Qed.

Lemma get_upd v t x t' : 0 <= t < vec_size v -> 0 <= t' ->
  get (upd v t x) t' = if decide (t' = t) then x else get v t'.
Proof.
  unfold get, upd, vec_size. intros Ht Ht'. case_decide; subst.
  - by rewrite list_lookup_total_insert_eq by lia.
  - by rewrite list_lookup_total_insert_ne by lia.
Qed.

Lemma vec_size_upd v t x : vec_size (upd v t x) = vec_size v.
Proof. unfold vec_size, upd. by rewrite length_insert. Qed.

(** The coordinates of a tuple in the order of the tables [o]. *)
Definition proj (o : list Z) (v : list Z) : list Z := get v <$> o.

Lemma length_proj o v : length (proj o v) = length o.
Proof. apply length_fmap. Qed.

Lemma proj_app o o' v : proj (o ++ o') v = proj o v ++ proj o' v.
Proof. apply fmap_app. Qed.

Lemma proj_ext o v w : (forall t, t ∈ o -> get v t = get w t) -> proj o v = proj o w.
Proof. intros H. apply list_fmap_ext. intros i t Ht. by apply H, list_elem_of_lookup_2 with i. Qed.

Lemma proj_upd_notin o v t x : 0 <= t < vec_size v -> t ∉ o -> (forall u, u ∈ o -> 0 <= u) ->
  proj o (upd v t x) = proj o v.
Proof.
  intros Ht Hn Hpos. apply proj_ext. intros u Hu. rewrite get_upd by eauto.
  rewrite decide_False; [done|]. by intros ->.
Qed.

Section join.
Context (cards : list Z).
Local Abbreviation n := (vec_size cards).

(** A combination of one tuple per table. *)
Definition tup (v : list Z) : Prop :=
  vec_size v = n /\ forall t, 0 <= t < n -> 0 <= get v t < get cards t.

(** A join order names every table once. *)
Definition is_order (o : list Z) : Prop := o ≡ₚ seqZ 0 n.

Lemma order_range o t : is_order o -> t ∈ o -> 0 <= t < n.
Proof. unfold is_order. intros Ho. rewrite Ho, elem_of_seqZ. lia. Qed.

Lemma order_elem o t : is_order o -> 0 <= t < n -> t ∈ o.
Proof. unfold is_order. intros Ho ?. rewrite Ho, elem_of_seqZ. lia. Qed.

Lemma order_nodup o : is_order o -> NoDup o.
Proof. unfold is_order. intros Ho. rewrite Ho. apply NoDup_seqZ. Qed.

Lemma order_length o : is_order o -> length o = length cards.
Proof. unfold is_order. intros Ho. rewrite Ho, length_seqZ. unfold vec_size. lia. Qed.

(** [last] holds a tuple index for every table of [o]. *)
Definition in_cards (o : list Z) (last : list Z) : Prop :=
  forall t, t ∈ o -> 0 <= t < n /\ 0 <= get last t < get cards t.

Lemma tup_in_cards o v : is_order o -> tup v -> in_cards o v.
Proof. intros Ho [_ Hv] t Ht. pose proof (order_range o t Ho Ht). auto. Qed.

Lemma in_cards_tup o v : is_order o -> vec_size v = n -> in_cards o v -> tup v.
Proof. intros Ho Hl H. split; [done|]. intros t Ht. apply H. by apply order_elem. Qed.

(** Two tuples with the same coordinates are the same. *)
Lemma proj_inj o v w : is_order o -> tup v -> tup w -> proj o v = proj o w -> v = w.
Proof.
  intros Ho [Hv _] [Hw _] E. unfold vec_size in *. apply list_eq_same_length with (length cards); [lia|lia|].
  intros i x y Hi Hx Hy.
  assert (Ht : Z.of_nat i ∈ o) by (apply order_elem; [done|unfold vec_size; lia]).
  apply list_elem_of_lookup_1 in Ht as [k Hk].
  assert (Ek : proj o v !! k = proj o w !! k) by (by rewrite E).
  unfold proj in Ek. rewrite !list_lookup_fmap, Hk in Ek. cbn in Ek. unfold get in Ek.
  rewrite Nat2Z.id in Ek. rewrite !list_lookup_total_alt, Hx, Hy in Ek. by injection Ek.
Qed.

(** ** Decrementing *)

(** The last coordinate is not 0: only it changes. *)
Lemma decrement_step o t last : t ∉ o -> vec_size last = n -> in_cards (o ++ [t]) last ->
  get last t <> 0 ->
  exists last', decrement cards last (reverse (o ++ [t])) = Ok (Some last') /\
    vec_size last' = n /\ in_cards (o ++ [t]) last' /\
    (forall u, 0 <= u -> u ∉ o ++ [t] -> get last' u = get last u) /\
    forall v, in_cards (o ++ [t]) v ->
      lex_lt (proj (o ++ [t]) v) (proj (o ++ [t]) last) <->
      lex_le (proj (o ++ [t]) v) (proj (o ++ [t]) last').
Proof.
  intros Hno Hl Hc Hx. destruct (Hc t (elem_snoc o t)) as [Ht Htr].
  exists (upd last t (get last t - 1)). rewrite reverse_snoc. cbn [decrement].
  rewrite (vec_at_get last) by lia. cbn [mbind Res_bind]. rewrite (proj2 (Z.eqb_neq _ _)) by done.
  rewrite vec_set_upd by lia. cbn [mbind Res_bind]. rewrite vec_size_upd. split_and!; try done.
  - intros u Hu. destruct (Hc u Hu) as [? ?]. split; [done|]. rewrite get_upd by lia.
    case_decide; subst; lia.
  - intros u Hu Hnu. apply not_elem_snoc in Hnu as [_ ?].
    rewrite get_upd by lia. by rewrite decide_False.
  - intros v Hv. rewrite !proj_app. rewrite (proj_upd_notin o) by
      (lia || done || (intros u Hu; by apply (Hc u), elem_snoc_l)).
    cbn. rewrite get_upd, decide_True by (done || lia).
    rewrite lex_lt_app, lex_le_app by (by rewrite !length_proj).
    unfold lex_le. cbn. split; (intros [?|[? H]]; [by left|right; split; [done|]]).
    + assert (get v t < get last t) by tauto.
      destruct (decide (get v t = get last t - 1)) as [->|]; [by left|right; left; lia].
    + left. destruct H as [[= ->]|[?|[_ []]]]; lia.
Qed.

(** The predecessor in the lexicographic order of [o]: [None] at the first tuple. *)
Lemma decrement_spec o t last : NoDup (o ++ [t]) -> vec_size last = n -> in_cards (o ++ [t]) last ->
  (decrement cards last (reverse (o ++ [t])) = Ok None /\ forall u, u ∈ o ++ [t] -> get last u = 0) \/
  exists last', decrement cards last (reverse (o ++ [t])) = Ok (Some last') /\
    vec_size last' = n /\ in_cards (o ++ [t]) last' /\
    (forall u, 0 <= u -> u ∉ o ++ [t] -> get last' u = get last u) /\
    forall v, in_cards (o ++ [t]) v ->
      lex_lt (proj (o ++ [t]) v) (proj (o ++ [t]) last) <->
      lex_le (proj (o ++ [t]) v) (proj (o ++ [t]) last').
Proof.
  revert t last. induction o as [|t' o IH] using rev_ind; intros t last Hnd Hl Hc;
    destruct (Hc t (elem_snoc _ t)) as [Ht Htr]; apply NoDup_snoc in Hnd as [Hnd Hnt];
    (destruct (decide (get last t = 0)) as [Hx|Hx]; [|right; by apply decrement_step]).
  - left. split; [|by intros u ->%list_elem_of_singleton]. cbn [app].
    change (reverse [t]) with [t]. cbn [decrement]. rewrite (vec_at_get last) by lia.
    cbn [mbind Res_bind]. by rewrite Hx.
  - set (last1 := upd last t (get cards t - 1)).
    assert (Hpos : forall u, u ∈ o ++ [t'] -> 0 <= u) by (intros u Hu; by apply (Hc u), elem_snoc_l).
    assert (Hget : forall u, 0 <= u -> get last1 u = if decide (u = t) then get cards t - 1 else get last u)
      by (intros; apply get_upd; lia).
    assert (Hrun : decrement cards last (reverse ((o ++ [t']) ++ [t])) =
      decrement cards last1 (reverse (o ++ [t']))).
    { rewrite (reverse_snoc (o ++ [t']) t). cbn [decrement]. rewrite (vec_at_get last) by lia.
      cbn [mbind Res_bind]. rewrite Hx. cbn [Z.eqb]. rewrite reverse_snoc.
      rewrite (vec_at_get cards) by lia. cbn [mbind Res_bind]. rewrite vec_set_upd by lia. done. }
    rewrite Hrun. destruct (IH t' last1) as [[-> Hz]|(last' & -> & Hl' & Hc' & Hsame & Hlex)].
    + done.
    + unfold last1. by rewrite vec_size_upd.
    + intros u Hu. destruct (Hc u (elem_snoc_l _ _ _ Hu)) as [? ?]. split; [done|]. rewrite Hget by lia.
      rewrite decide_False; [done|]. by intros ->.
    + left. split; [done|]. intros u [Hu| ->%list_elem_of_singleton]%elem_of_app; [|done].
      specialize (Hz u Hu). rewrite Hget, decide_False in Hz; [done|by intros ->|eauto].
    + right. exists last'. assert (Hlt : get last' t = get cards t - 1).
      { rewrite Hsame by (lia || done). rewrite Hget, decide_True by (done || lia). done. }
      split_and!; try done.
      * intros u [Hu| ->%list_elem_of_singleton]%elem_of_app; [by apply Hc'|].
        split; [done|]. lia.
      * intros u Hu [Hnu Hne]%not_elem_snoc. rewrite Hsame, Hget, decide_False by done. done.
      * intros v Hv. rewrite !(proj_app (o ++ [t'])).
        assert (Hp1 : proj (o ++ [t']) last1 = proj (o ++ [t']) last) by (apply proj_upd_notin; [lia|done..]).
        rewrite lex_lt_app, lex_le_app by (by rewrite !length_proj).
        assert (Hv' : in_cards (o ++ [t']) v) by (intros u Hu; by apply Hv, elem_snoc_l).
        pose proof (Hlex v Hv') as Hiff. rewrite Hp1 in Hiff. rewrite Hiff.
        destruct (Hv t (elem_snoc _ t)) as [_ Hvt]. unfold lex_le. cbn. rewrite Hx, Hlt. split.
        -- intros [[->|?]|[_ [?|[_ []]]]]; [|by left|lia]. right. split; [done|].
           destruct (decide (get v t = get cards t - 1)) as [->|]; [by left|right; left; lia].
        -- intros [?|[-> _]]; [by left; right|by left; left].
Qed.

(** ** What the state says

    [Done v] stands for: combination [v] needs no further work. *)
Definition kid (p : ProgressTree) (t : Z) : option ProgressTree :=
  if t <? 0 then None else mjoin (pt_kids p !! Z.to_nat t).

(** The tuples along a path of the tree and the node it ends in. *)
Fixpoint path (p : ProgressTree) (ts : list Z) : option (list Z * ProgressTree) :=
  match ts with
  | [] => Some ([], p)
  | t :: ts =>
      match kid p t with
      | Some c => match path c ts with Some (xs, q) => Some (pt_last c :: xs, q) | None => None end
      | None => None
      end
  end.

Lemma path_app p ts ts' : path p (ts ++ ts') =
  match path p ts with
  | Some (xs, q) =>
      match path q ts' with Some (ys, r) => Some (xs ++ ys, r) | None => None end
  | None => None
  end.
Proof.
  revert p. induction ts as [|t ts IH]; intros p; cbn.
  { by destruct (path p ts') as [[? ?]|]. }
  destruct (kid p t) as [c|]; [|done]. rewrite IH. destruct (path c ts) as [[xs q]|]; [|done].
  by destruct (path q ts') as [[? ?]|].
Qed.

Lemma path_length p ts xs q : path p ts = Some (xs, q) -> length xs = length ts.
Proof.
  revert p xs. induction ts as [|t ts IH]; intros p xs; cbn; [by intros [= <- <-]|].
  destruct (kid p t) as [c|]; [|done]. destruct (path c ts) as [[ys r]|] eqn:E; [|done].
  intros [= <- <-]. cbn. by rewrite (IH _ _ E).
Qed.

Section state.
Context (Done : list Z -> Prop).

(** Everything before the tuples of a path is done, and so is the combination a
    complete path names. *)
Definition path_ok (ts xs : list Z) (q : ProgressTree) : Prop :=
  length (pt_kids q) = length cards /\
  Forall2 (fun t x => 0 <= x < get cards t) ts xs /\
  forall v, tup v -> lex_lt (proj ts v) xs \/ (length ts = length cards /\ proj ts v = xs) -> Done v.

Record state_inv (s : JoinState) : Prop := {
  sv_cards : cardinalities s = cards;
  sv_tree : forall ts xs q, path (root s) ts = Some (xs, q) -> path_ok ts xs q;
  sv_offlen : length (offset s) = length cards;
  sv_offset : forall t, 0 <= t < n ->
    -1 <= get (offset s) t < get cards t - 1 /\
    forall v, tup v -> get v t <= get (offset s) t -> Done v;
  sv_finished : finished s = true -> forall v, tup v -> Done v;
}.

(** A tuple that is at least as far as everything recorded along the order. *)
Definition ahead (p : ProgressTree) (order fin : list Z) : Prop :=
  forall ts rest xs q, order = ts ++ rest -> path p ts = Some (xs, q) ->
    ~ lex_lt (proj ts fin) xs.

(** ** [GetLastCompletedTupleIdx] *)
Lemma decide_cons (u t : Z) ts (f : Z -> Z) (d : Z) :
  (if decide (u ∈ ts) then f u else if decide (u = t) then f t else d) =
  if decide (u ∈ t :: ts) then f u else d.
Proof.
  destruct (decide (u ∈ ts)); [by rewrite decide_True by (by right)|].
  destruct (decide (u = t)) as [->|]; [by rewrite decide_True by (by left)|].
  rewrite decide_False; [done|]. by intros [?|?]%elem_of_cons.
Qed.

Lemma set_all_spec x ts last : (forall t, t ∈ ts -> 0 <= t < vec_size last) ->
  exists last', set_all x last ts = Ok last' /\ vec_size last' = vec_size last /\
    forall u, 0 <= u -> get last' u = if decide (u ∈ ts) then x else get last u.
Proof.
  revert last. induction ts as [|t ts IH]; intros last Hr; cbn [set_all].
  { exists last. split_and!; try done. }
  assert (Ht : 0 <= t < vec_size last) by (apply Hr; by left).
  rewrite vec_set_upd by done. cbn [mbind Res_bind].
  destruct (IH (upd last t x)) as (last' & -> & Hl & Hg).
  { intros u Hu. rewrite vec_size_upd. apply Hr. by right. }
  exists last'. rewrite vec_size_upd in Hl. split_and!; try done. intros u Hu.
  rewrite Hg, get_upd by done. apply (decide_cons u t ts (fun _ => x)).
Qed.

(** What [GetLastCompletedTupleIdx] returns for an order. *)
Record resume_ok (s : JoinState) (order : list Z) (r : option (list Z)) : Prop := {
  ro_tup : forall l, r = Some l -> tup l;
  ro_done : forall l v, r = Some l -> tup v -> lex_le (proj order v) (proj order l) -> Done v;
  ro_ahead : forall fin, tup fin ->
    (forall l, r = Some l -> lex_lt (proj order l) (proj order fin)) -> ahead (root s) order fin;
}.

Lemma kid_vec_at p t : length (pt_kids p) = length cards -> 0 <= t < n ->
  vec_at (pt_kids p) t = Ok (kid p t).
Proof.
  intros Hl Ht. unfold vec_size in Ht.
  destruct (lookup_lt_is_Some_2 (pt_kids p) (Z.to_nat t)) as [c Hc]; [lia|].
  unfold kid. rewrite Hc, (proj2 (Z.ltb_ge t 0)) by lia. apply vec_at_Ok. split; [lia|done].
Qed.

(** [fin] is ahead of a path when it is not before it, and nothing is recorded
    behind the path. *)
Lemma ahead_stop p order fin pre xs q rest :
  order = pre ++ rest -> path p pre = Some (xs, q) ->
  (forall t rest', rest = t :: rest' -> kid q t = None) ->
  lex_le xs (proj pre fin) -> ahead p order fin.
Proof.
  intros Ho Hp Hk Hle ts rest' ys q' Eo Hts Hlt.
  assert (Hpre : exists post, pre = ts ++ post).
  { rewrite Ho in Eo. apply app_eq_inv in Eo as [(k & -> & _)|(k & -> & Ek)]; [by exists k|].
    destruct k as [|t' k]; [exists []; by rewrite !app_nil_r|]. subst rest.
    rewrite path_app, Hp in Hts. cbn in Hts. by rewrite (Hk t' _ eq_refl) in Hts. }
  destruct Hpre as [post ->]. rewrite path_app, Hts in Hp.
  destruct (path q' post) as [[zs r]|]; [|done]. injection Hp as <- <-.
  rewrite proj_app in Hle.
  assert (Hl : length ys = length (proj ts fin)) by (rewrite length_proj; by eapply path_length).
  apply lex_le_app in Hle as [H|[H _]]; [|rewrite H in Hlt; by apply lex_lt_irrefl in Hlt|done].
  apply (lex_lt_irrefl ys). by eapply lex_lt_trans.
Qed.

Context (Hpos : forall t, 0 <= t < n -> 0 < get cards t).

Lemma lex_zero_le xs ys : length xs = length ys -> Forall (fun x => x = 0) xs ->
  Forall (fun y => 0 <= y) ys -> lex_le xs ys.
Proof.
  revert ys. induction xs as [|x xs IH]; intros [|y ys]; cbn; intros Hl Hx Hy; try lia; [by left|].
  apply list.Forall_cons in Hx as [-> Hx]. apply list.Forall_cons in Hy as [Hy0 Hy].
  destruct (IH ys ltac:(lia) Hx Hy) as [->|H].
  - destruct (decide (y = 0)) as [->|]; [by left|right; left; lia].
  - right. destruct (decide (y = 0)) as [->|]; [by right|left; lia].
Qed.

Lemma proj_nonneg o v : in_cards o v -> Forall (fun y => 0 <= y) (proj o v).
Proof.
  intros H. unfold proj. apply Forall_fmap, Forall_forall. intros t Ht. cbn.
  destruct (H t) as [_ ?]; [by apply list_elem_of_In|]. lia.
Qed.

Lemma path_in_cards pre xs last : Forall2 (fun t x => 0 <= x < get cards t) pre xs ->
  proj pre last = xs -> (forall t, t ∈ pre -> 0 <= t < n) -> in_cards pre last.
Proof.
  intros Hf <- Hr t Ht. split; [by apply Hr|]. unfold proj in Hf. rewrite Forall2_fmap_r in Hf.
  apply list_elem_of_lookup_1 in Ht as [i Hi]. by apply (Forall2_lookup_lr _ _ _ _ _ _ Hf Hi Hi).
Qed.

(** A partial path: the rest of the order starts from 0, one step back. *)
Lemma walk_partial s order pre xs q rest last :
  state_inv s -> is_order order -> order = pre ++ rest -> path (root s) pre = Some (xs, q) ->
  (forall t rest', rest = t :: rest' -> kid q t = None) ->
  vec_size last = n -> proj pre last = xs -> order <> [] ->
  exists r, (last ← set_all 0 last rest; decrement cards last (reverse order)) = Ok r /\
    resume_ok s order r.
Proof.
  intros Hs Ho Eo Hp Hk Hl Hpx Hne. destruct (sv_tree _ Hs _ _ _ Hp) as (_ & Hf & Hdone).
  pose proof (order_nodup _ Ho) as Hnd. rewrite Eo in Hnd. apply list.NoDup_app in Hnd as (_ & Hdis & _).
  assert (Hr : forall t, t ∈ order -> 0 <= t < n) by (intros; by eapply order_range).
  destruct (set_all_spec 0 rest last) as (l1 & -> & Hl1 & Hg).
  { intros t Ht. rewrite Hl. apply Hr. rewrite Eo. apply elem_of_app. by right. }
  cbn [mbind Res_bind].
  assert (Hp1 : proj pre l1 = xs).
  { rewrite <- Hpx. apply proj_ext. intros t Ht. rewrite Hg, decide_False; [done| |].
    - intros Ht'. by apply (Hdis t).
    - apply Hr. rewrite Eo. apply elem_of_app. by left. }
  assert (Hz : Forall (fun x => x = 0) (proj rest l1)).
  { unfold proj. apply Forall_fmap, Forall_forall. intros t Ht%list_elem_of_In. cbn.
    rewrite Hg, decide_True; [done..|]. apply Hr. rewrite Eo. apply elem_of_app. by right. }
  assert (Hc : in_cards order l1).
  { intros t Ht. specialize (Hr t Ht) as Htr. rewrite Eo in Ht. apply elem_of_app in Ht as [Ht|Ht].
    - apply (path_in_cards pre xs l1 Hf Hp1); [|done]. intros u Hu. apply Hr. rewrite Eo.
      apply elem_of_app. by left.
    - split; [done|]. rewrite Hg, decide_True by (done || lia). specialize (Hpos t Htr). lia. }
  assert (Hlex : forall v, tup v -> lex_lt (proj order v) (proj order l1) <-> lex_lt (proj pre v) xs).
  { intros v Hv. rewrite Eo, !proj_app, Hp1, lex_lt_app by (rewrite <- Hp1; by rewrite !length_proj).
    split; [|by left]. intros [?|[_ Hlt]]; [done|exfalso].
    apply (lex_lt_irrefl (proj rest l1)). eapply lex_le_lt_trans; [|exact Hlt].
    apply lex_zero_le; [by rewrite !length_proj|done|]. apply proj_nonneg. intros t Ht.
    apply (tup_in_cards order v Ho Hv). rewrite Eo. apply elem_of_app. by right. }
  destruct (exists_last Hne) as (o' & t' & Eo'). rewrite Eo'.
  destruct (decrement_spec o' t' l1) as [[-> Hzero]|(l & -> & Hlen & Hcl & _ & Hpred)];
    rewrite <- ?Eo' in *; [by apply order_nodup|by rewrite Hl1|done| |].
  - exists None. split; [done|]. split; [done..|]. intros fin Hfin _.
    apply (ahead_stop _ _ _ pre xs q rest); try done. rewrite <- Hp1.
    apply lex_zero_le; [by rewrite !length_proj| |].
    + unfold proj. apply Forall_fmap, Forall_forall. intros t Ht%list_elem_of_In. cbn.
      apply Hzero. rewrite Eo. apply elem_of_app. by left.
    + apply proj_nonneg. intros t Ht. apply (tup_in_cards order fin Ho Hfin). rewrite Eo.
      apply elem_of_app. by left.
  - exists (Some l). split; [done|]. split.
    + intros ? [= <-]. by apply (in_cards_tup order).
    + intros ? v [= <-] Hv Hle. apply Hdone; [done|left]. apply (Hlex v Hv).
      apply Hpred; [by apply tup_in_cards|done].
    + intros fin Hfin Hgt. apply (ahead_stop _ _ _ pre xs q rest); try done.
      apply lex_not_lt; [rewrite length_proj; by rewrite (path_length _ _ _ _ Hp)|].
      rewrite <- (Hlex fin Hfin), Hpred by (by apply tup_in_cards). intros Hle.
      apply (lex_lt_irrefl (proj order l)). eapply lex_lt_le_trans; [|exact Hle]. by apply Hgt.
Qed.

Lemma walk_spec s order rest pre xs q last :
  state_inv s -> is_order order -> order <> [] -> order = pre ++ rest ->
  path (root s) pre = Some (xs, q) -> vec_size last = n -> proj pre last = xs ->
  exists r, walk cards order q (bool_decide (pre = [])) rest last = Ok r /\ resume_ok s order r.
Proof.
  intros Hs Ho Hne. revert pre xs q last. induction rest as [|t rest IH];
    intros pre xs q last Eo Hp Hl Hpx; cbn [walk].
  - exists (Some last). split; [done|]. rewrite app_nil_r in Eo. subst pre.
    destruct (sv_tree _ Hs _ _ _ Hp) as (_ & Hf & Hdone).
    split.
    + intros ? [= <-]. apply (in_cards_tup order); [done..|].
      apply (path_in_cards order xs); [done..|]. intros; by eapply order_range.
    + intros ? v [= <-] Hv Hle. apply Hdone; [done|]. rewrite Hpx in Hle.
      destruct Hle as [->|?]; [right; split; [by apply order_length|done]|by left].
    + intros fin Hfin Hgt. apply (ahead_stop _ _ _ order xs q []); [by rewrite app_nil_r|done..|].
      right. rewrite <- Hpx. by apply Hgt.
  - destruct (sv_tree _ Hs _ _ _ Hp) as (Hlen & _ & _).
    assert (Ht : 0 <= t < n) by (apply (order_range order); [done|]; rewrite Eo; set_solver).
    rewrite kid_vec_at by done. cbn [mbind Res_bind]. destruct (kid q t) as [c|] eqn:Ek.
    + rewrite vec_set_upd by lia. cbn [mbind Res_bind].
      destruct (IH (pre ++ [t]) (xs ++ [pt_last c]) c (upd last t (pt_last c))) as (r & Hw & Hr).
      * by rewrite <- app_assoc.
      * rewrite path_app, Hp. cbn. by rewrite Ek.
      * by rewrite vec_size_upd.
      * rewrite proj_app. cbn. rewrite get_upd, decide_True by (done || lia). f_equal.
        rewrite proj_upd_notin; [done|lia| |].
        -- pose proof (order_nodup _ Ho) as Hnd. rewrite Eo in Hnd.
           apply list.NoDup_app in Hnd as (_ & Hd & _). intros Hin. apply (Hd t Hin). by left.
        -- intros u Hu. apply (order_range order u Ho). rewrite Eo. apply elem_of_app. by left.
      * exists r. split; [|done]. rewrite bool_decide_false in Hw; [done|]. by destruct pre.
    + case_bool_decide as Hpre.
      * exists None. split; [done|]. split; [done..|]. intros fin Hfin _. subst pre.
        injection Hp as <- <-. apply (ahead_stop _ _ _ [] [] (root s) (t :: rest)); [done..| |by left].
        by intros ? ? [= <- _].
      * apply (walk_partial s order pre xs q (t :: rest) last); try done. by intros ? ? [= <- _].
Qed.

Lemma GetLastCompletedTupleIdx_ok s order : state_inv s -> is_order order -> order <> [] ->
  exists r, GetLastCompletedTupleIdx s order = Ok r /\ resume_ok s order r.
Proof.
  intros Hs Ho Hne. unfold GetLastCompletedTupleIdx. rewrite (sv_cards _ Hs).
  apply (walk_spec s order order [] []); try done. unfold vec_size.
  by rewrite length_replicate, (order_length order).
Qed.

(** ** [Update] *)
Definition full_kids (p : ProgressTree) : Prop :=
  forall ts xs q, path p ts = Some (xs, q) -> length (pt_kids q) = length cards.

(** The tree [p'] is [p] with the path of [rest] set to the tuple [last]; paths
    that leave it are those of [p]. *)
Definition sets_path (p p' : ProgressTree) (last rest : list Z) : Prop :=
  pt_last p' = pt_last p /\ (exists q, path p' rest = Some (proj rest last, q)) /\
  forall ts xs q, path p' ts = Some (xs, q) ->
    (length (pt_kids q) = length cards /\ (exists r, rest = ts ++ r) /\ xs = proj ts last) \/
    path p ts = Some (xs, q).

Lemma kid_insert p t c u : length (pt_kids p) = length cards -> 0 <= t < n ->
  kid (PNode (pt_last p) (<[Z.to_nat t := Some c]> (pt_kids p))) u =
    if decide (u = t) then Some c else kid p u.
Proof.
  intros Hl Ht. unfold vec_size in Ht. unfold kid. cbn. case_decide; subst.
  - rewrite (proj2 (Z.ltb_ge t 0)) by lia. by rewrite list_lookup_insert_eq by lia.
  - destruct (Z.ltb_spec u 0); [done|]. by rewrite list_lookup_insert_ne by lia.
Qed.

(** Replacing one child. *)
Lemma sets_path_kid p t c c' last rest : length (pt_kids p) = length cards -> 0 <= t < n ->
  pt_last c = get last t -> (exists q, path c rest = Some (proj rest last, q)) ->
  (forall ts xs q, path c ts = Some (xs, q) ->
     (length (pt_kids q) = length cards /\ (exists r, rest = ts ++ r) /\ xs = proj ts last) \/
     path c' ts = Some (xs, q) /\ kid p t = Some c' /\ pt_last c' = get last t) ->
  sets_path p (PNode (pt_last p) (<[Z.to_nat t := Some c]> (pt_kids p))) last (t :: rest).
Proof.
  intros Hl Ht Hx [q0 Hq0] Hc. split; [done|]. split.
  { exists q0. cbn [path]. rewrite kid_insert, decide_True, Hq0, Hx by done. done. }
  intros [|u ts] xs q.
  - intros [= <- <-]. left. cbn. rewrite length_insert. split_and!; [done|by eexists|done].
  - cbn [path]. rewrite kid_insert by done. case_decide; [subst u|by right].
    destruct (path c ts) as [[ys r]|] eqn:E; [|done]. intros [= <- <-].
    destruct (Hc _ _ _ E) as [(? & (r' & ->) & ->)|(E' & Hk & Hx')].
    + left. cbn. rewrite Hx. split_and!; [done|by exists r'|done].
    + right. rewrite Hk, E'. congruence.
Qed.

Lemma path_bare x k ts xs q : path (PNode x (replicate k None)) ts = Some (xs, q) ->
  ts = [] /\ xs = [] /\ q = PNode x (replicate k None).
Proof.
  destruct ts as [|t ts]; cbn; [by intros [= <- <-]|]. unfold kid. cbn.
  destruct (t <? 0); [done|]. destruct (replicate k None !! Z.to_nat t) eqn:E; [|done].
  by apply lookup_replicate in E as [-> _].
Qed.

Lemma set_path_spec rest last p : length (pt_kids p) = length cards -> vec_size last = n ->
  (forall t, t ∈ rest -> 0 <= t < n) ->
  exists p', set_path (length cards) last p rest = Ok p' /\ sets_path p p' last rest.
Proof.
  revert p. induction rest as [|t rest IH]; intros p Hp Hl Hr; cbn [set_path].
  { exists p. split; [done|]. split; [done|]. split; [by eexists|auto]. }
  assert (Ht : 0 <= t < n) by (apply Hr; by left).
  rewrite vec_at_get by lia. cbn [mbind Res_bind].
  destruct (IH (ProgressTree_new (length cards) (get last t))) as (c & -> & Hlast & Hex & Hc).
  { apply length_replicate. }
  { done. }
  { intros; apply Hr; by right. }
  cbn [mbind Res_bind]. unfold vec_size in Ht.
  destruct (lookup_lt_is_Some_2 (pt_kids p) (Z.to_nat t)) as [k Hk]; [lia|].
  rewrite (vec_set_lookup _ t _ k) by (done || lia). cbn [mbind Res_bind]. eexists. split; [done|].
  apply (sets_path_kid p t c c); [done|unfold vec_size; lia|done|done|].
  intros ts xs q Hq. left. destruct (Hc _ _ _ Hq) as [?|(-> & -> & ->)%path_bare]; [done|].
  split_and!; [apply length_replicate|by eexists|done].
Qed.

Lemma update_tree_spec rest last p : full_kids p -> vec_size last = n ->
  (forall t, t ∈ rest -> 0 <= t < n) -> ahead p rest last ->
  exists p', update_tree (length cards) last p rest = Ok p' /\ sets_path p p' last rest.
Proof.
  revert p. induction rest as [|t rest IH]; intros p Hp Hl Hr Ha; cbn [update_tree].
  { exists p. split; [done|]. split; [done|]. split; [by eexists|auto]. }
  assert (Hkp : length (pt_kids p) = length cards) by (by apply (Hp [] [] p)).
  assert (Ht : 0 <= t < n) by (apply Hr; by left).
  rewrite vec_at_get, kid_vec_at by (done || lia). cbn [mbind Res_bind].
  destruct (kid p t) as [c|] eqn:Ek; [|by apply set_path_spec].
  assert (Hc1 : path p [t] = Some ([pt_last c], c)) by (cbn; by rewrite Ek).
  assert (Hge : pt_last c <= get last t).
  { destruct (decide (pt_last c <= get last t)); [done|]. exfalso.
    apply (Ha [t] rest _ _ eq_refl Hc1). cbn. left. lia. }
  rewrite (proj2 (Z.ltb_ge _ _)) by lia.
  assert (Hset : forall k, exists kids, vec_set (pt_kids p) t (Some k) = Ok kids /\
    kids = <[Z.to_nat t := Some k]> (pt_kids p)).
  { intros k. unfold vec_size in Ht.
    destruct (lookup_lt_is_Some_2 (pt_kids p) (Z.to_nat t)) as [k0 Hk0]; [lia|].
    rewrite (vec_set_lookup _ t _ k0) by (done || lia). by eexists. }
  destruct (Z.ltb_spec (pt_last c) (get last t)).
  - destruct (set_path_spec rest last (PNode (get last t) (replicate (length (pt_kids c)) None)))
      as (c' & -> & Hlast & Hex & Hc'); [cbn; rewrite length_replicate; by eapply Hp|done|
                                    intros; apply Hr; by right|].
    cbn [mbind Res_bind]. destruct (Hset c') as (kids & -> & ->). cbn [mbind Res_bind].
    eexists. split; [done|]. apply (sets_path_kid p t c' c); [done..|].
    intros ts xs q Hq. left. destruct (Hc' _ _ _ Hq) as [?|(-> & -> & ->)%path_bare]; [done|].
    split_and!; [cbn; rewrite length_replicate; by eapply Hp|by eexists|done].
  - destruct (IH c) as (c' & -> & Hlast & Hex & Hc').
    + intros ts xs q Hq. apply (Hp (t :: ts) (pt_last c :: xs)). cbn. by rewrite Ek, Hq.
    + done.
    + intros; apply Hr; by right.
    + intros ts r xs q -> Hq Hlt. apply (Ha (t :: ts) r (pt_last c :: xs) q eq_refl).
      * cbn. by rewrite Ek, Hq.
      * cbn. right. split; [lia|done].
    + cbn [mbind Res_bind]. destruct (Hset c') as (kids & -> & ->). cbn [mbind Res_bind].
      eexists. split; [done|]. apply (sets_path_kid p t c' c); [done|done|rewrite Hlast; lia|done|].
      intros ts xs q Hq. destruct (Hc' _ _ _ Hq) as [?|?]; [by left|right].
      split_and!; [done|done|lia].
Qed.

Lemma lex_pointwise o v w : (forall t, t ∈ o -> get v t <= get w t) -> lex_le (proj o v) (proj o w).
Proof.
  induction o as [|t o IH]; intros H; [by left|]. cbn. pose proof (H t ltac:(by left)).
  destruct (decide (get v t = get w t)) as [E|]; [|right; left; lia].
  destruct IH as [E'|?]; [intros; apply H; by right| |].
  - left. change (get v t :: proj o v = get w t :: proj o w). congruence.
  - right. right. done.
Qed.

Lemma IsJoinCompleted_spec (v c : list Z) : length v = length c ->
  exists b, IsJoinCompleted v c = Ok b /\
    (b = true <-> forall t, 0 <= t < vec_size c -> get v t = get c t - 1).
Proof.
  revert c. induction v as [|x v IH]; intros [|y c] Hl; cbn [IsJoinCompleted]; try (cbn in Hl; lia).
  { exists true. split; [done|]. split; [|done]. unfold vec_size. cbn. lia. }
  destruct (IH c ltac:(cbn in Hl; lia)) as (b & Hb & Hiff).
  assert (Hsucc : forall (z : Z) l t, 0 <= t -> get (z :: l) (t + 1) = get l t).
  { intros z l t Ht. unfold get. by replace (Z.to_nat (t + 1)) with (S (Z.to_nat t)) by lia. }
  destruct (Z.eqb_spec x (y - 1)) as [Hx|Hx].
  - exists b. split; [done|]. rewrite Hiff. unfold vec_size. cbn [length]. split; intros H t Ht.
    + destruct (decide (t = 0)) as [->|]; [by unfold get; cbn|].
      replace t with ((t - 1) + 1) by lia. rewrite !Hsucc by lia. apply H. unfold vec_size. lia.
    + rewrite <- (Hsucc x v), <- (Hsucc y c) by lia. apply H. lia.
  - exists false. split; [done|]. split; [done|]. intros H. exfalso. apply Hx.
    apply (H 0). unfold vec_size. cbn. lia.
Qed.

Lemma at_last_spec v tables : vec_size v = n -> (forall t, t ∈ tables -> 0 <= t < n) ->
  exists b, at_last v cards tables = Ok b /\
    (b = true <-> forall t, t ∈ tables -> get v t = get cards t - 1).
Proof.
  intros Hv. induction tables as [|t ts IH]; intros Hr; cbn [at_last].
  { exists true. split; [done|]. split; [|done]. by intros _ t ?%not_elem_of_nil. }
  assert (Ht : 0 <= t < n) by (apply Hr; by left).
  rewrite !vec_at_get by lia. cbn [mbind Res_bind].
  destruct (Z.eqb_spec (get v t) (get cards t - 1)) as [E|E].
  - destruct IH as (b & -> & Hb); [intros; apply Hr; by right|]. exists b. split; [done|].
    rewrite Hb. split; intros H u Hu; [|apply H; by right].
    apply elem_of_cons in Hu as [->|?]; auto.
  - exists false. split; [done|]. split; [done|]. intros H. exfalso. apply E, H. by left.
Qed.

(** An order's first table may be advanced to the last index all of whose
    combinations are done. *)
Lemma update_offset_spec s order fin :
  state_inv s -> is_order order -> order <> [] -> tup fin ->
  (forall v, tup v -> lex_le (proj order v) (proj order fin) -> Done v) ->
  ~ (forall t, 0 <= t < n -> get fin t = get cards t - 1) ->
  exists off, update_offset cards order fin (offset s) = Ok off /\ length off = length cards /\
    forall t, 0 <= t < n -> -1 <= get off t < get cards t - 1 /\
      forall v, tup v -> get v t <= get off t -> Done v.
Proof.
  intros Hs Ho Hne Hfin Hdone Hnot. destruct order as [|f rest]; [done|].
  pose proof (sv_offlen _ Hs) as Hol.
  assert (Hr : forall t, t ∈ f :: rest -> 0 <= t < n) by (intros; by eapply order_range).
  assert (Hf : 0 <= f < n) by (apply Hr; by left).
  assert (Hfv : vec_size fin = n) by apply Hfin.
  assert (Hov : vec_size (offset s) = n) by (unfold vec_size; by rewrite Hol).
  unfold update_offset. rewrite (vec_at_get (f :: rest) 0) by (unfold vec_size; cbn; lia).
  change (get (f :: rest) 0) with f. cbn [mbind Res_bind tail].
  rewrite (vec_at_get fin f) by lia. cbn [mbind Res_bind].
  destruct (at_last_spec fin rest Hfv) as (b & -> & Hb); [intros; apply Hr; by right|].
  cbn [mbind Res_bind]. rewrite (vec_at_get (offset s) f) by lia. cbn [mbind Res_bind].
  rewrite vec_set_upd by lia. eexists. split; [done|].
  split; [unfold upd; by rewrite length_insert|]. intros t Ht. rewrite get_upd by lia.
  destruct (sv_offset _ Hs t Ht) as [Hob Hod]. case_decide as E; [subst t|done].
  destruct (proj2 Hfin f Hf) as [Hf0 Hf1].
  assert (Hstrict : forall v, tup v -> get v f < get fin f -> Done v).
  { intros v Hv Hlt. apply Hdone; [done|]. right. left. done. }
  destruct b.
  - pose proof (proj1 Hb eq_refl) as Hrest. split.
    + assert (get fin f <> get cards f - 1); [|lia]. intros E. apply Hnot. intros t Ht'.
      pose proof (order_elem _ t Ho Ht') as Hin. apply elem_of_cons in Hin as [->|?]; auto.
    + intros v Hv Hle. destruct (decide (get v f <= get (offset s) f)); [by apply Hod|].
      apply Hdone; [done|]. apply lex_pointwise. intros t Hin.
      apply elem_of_cons in Hin as [->|Hin]; [lia|]. rewrite Hrest by done.
      pose proof (proj2 Hv t (Hr t ltac:(by right))). lia.
  - split; [lia|]. intros v Hv Hle. destruct (decide (get v f <= get (offset s) f)); [by apply Hod|].
    apply Hstrict; [done|lia].
Qed.

Lemma sets_path_ok p p' order fin : is_order order -> tup fin ->
  (forall v, tup v -> lex_le (proj order v) (proj order fin) -> Done v) ->
  sets_path p p' fin order -> (forall ts xs q, path p ts = Some (xs, q) -> path_ok ts xs q) ->
  forall ts xs q, path p' ts = Some (xs, q) -> path_ok ts xs q.
Proof.
  intros Ho Hfin Hdone (_ & _ & Hset) Hold ts xs q Hq.
  destruct (Hset _ _ _ Hq) as [(Hk & [r Er] & ->)|?]; [|by apply Hold].
  split_and!; [done| |].
  - unfold proj. apply Forall2_fmap_r, Forall_Forall2_diag, Forall_forall. intros t Ht%list_elem_of_In.
    apply (tup_in_cards order fin Ho Hfin). rewrite Er. apply elem_of_app. by left.
  - intros v Hv Hlt. apply Hdone; [done|]. rewrite Er, !proj_app.
    apply lex_le_app; [by rewrite !length_proj|]. destruct Hlt as [?|[Hlen Heq]]; [by left|right].
    split; [done|]. assert (r = []) as ->; [|by left].
    apply (f_equal length) in Er. rewrite length_app, Hlen, (order_length order Ho) in Er.
    destruct r; [done|cbn in Er; lia].
Qed.

Lemma Update_ok s order fin :
  state_inv s -> finished s = false -> is_order order -> order <> [] -> tup fin ->
  (forall v, tup v -> lex_le (proj order v) (proj order fin) -> Done v) ->
  ahead (root s) order fin ->
  exists s', Update s order fin = Ok s' /\ state_inv s' /\
    (finished s' = true <-> forall t, 0 <= t < n -> get fin t = get cards t - 1) /\
    (finished s' = false -> sets_path (root s) (root s') fin order).
Proof.
  intros Hs Hnf Ho Hne Hfin Hdone Ha. unfold Update. rewrite Hnf, (sv_cards _ Hs).
  assert (Hfv : length fin = length cards) by (pose proof (proj1 Hfin); unfold vec_size in *; lia).
  destruct (IsJoinCompleted_spec fin cards Hfv) as (b & -> & Hb). cbn [mbind Res_bind].
  destruct b.
  - eexists. split; [done|]. split; [|by split; [tauto|]]. pose proof (proj1 Hb eq_refl) as Hmax.
    destruct Hs. split; cbn; try done. intros _ v Hv. apply Hdone; [done|].
    apply lex_pointwise. intros t Ht. pose proof (order_range _ _ Ho Ht) as Hr.
    rewrite Hmax by done. pose proof (proj2 Hv t Hr). lia.
  - assert (Hnot : ~ (forall t, 0 <= t < n -> get fin t = get cards t - 1)) by (rewrite <- Hb; done).
    destruct (update_offset_spec s order fin) as (off & -> & Hol & Hod); try done.
    cbn [mbind Res_bind]. rewrite (order_length order Ho).
    destruct (update_tree_spec order fin (root s)) as (r & -> & Hset); try done.
    { intros ts xs q Hq. apply (sv_tree _ Hs _ _ _ Hq). }
    { apply Hfin. }
    { intros; by eapply order_range. }
    cbn [mbind Res_bind]. eexists. split; [done|]. split; [|by split; [split; [done|tauto]|]].
    split; cbn; try done. by eapply sets_path_ok; [..|exact Hset|apply Hs].
Qed.

(** A complete path is returned as it is. *)
Lemma walk_path s order rest pre xs q ys q' last :
  state_inv s -> is_order order -> order = pre ++ rest ->
  path (root s) pre = Some (xs, q) -> path q rest = Some (ys, q') ->
  vec_size last = n -> proj pre last = xs ->
  exists l, walk cards order q (bool_decide (pre = [])) rest last = Ok (Some l) /\
    vec_size l = n /\ proj order l = xs ++ ys.
Proof.
  intros Hs Ho. revert pre xs q ys last. induction rest as [|t rest IH];
    intros pre xs q ys last Eo Hp Hq Hl Hpx; cbn [walk].
  { exists last. injection Hq as <- <-. rewrite app_nil_r in *. subst. done. }
  cbn [path] in Hq. destruct (kid q t) as [c|] eqn:Ek; [|done].
  destruct (path c rest) as [[zs q'']|] eqn:Ec; [|done]. injection Hq as <- <-.
  destruct (sv_tree _ Hs _ _ _ Hp) as (Hlen & _ & _).
  assert (Hr : forall u, u ∈ order -> 0 <= u < n) by (intros; by eapply order_range).
  assert (Ht : 0 <= t < n) by (apply Hr; rewrite Eo; apply elem_of_app; right; by left).
  rewrite kid_vec_at, Ek by done. cbn [mbind Res_bind]. rewrite vec_set_upd by lia.
  cbn [mbind Res_bind].
  destruct (IH (pre ++ [t]) (xs ++ [pt_last c]) c zs (upd last t (pt_last c))) as (l & Hw & ? & E).
  - by rewrite <- app_assoc.
  - rewrite path_app, Hp. cbn. by rewrite Ek.
  - done.
  - by rewrite vec_size_upd.
  - rewrite proj_app. cbn. rewrite get_upd, decide_True by (done || lia). f_equal.
    rewrite proj_upd_notin; [done|lia| |].
    + pose proof (order_nodup _ Ho) as Hnd. rewrite Eo in Hnd.
      apply list.NoDup_app in Hnd as (_ & Hd & _). intros Hin. apply (Hd t Hin). by left.
    + intros u Hu. apply Hr. rewrite Eo. apply elem_of_app. by left.
  - exists l. rewrite bool_decide_false in Hw by (by destruct pre). rewrite <- app_assoc in E. done.
Qed.

Lemma resume_path s order fin q : state_inv s -> is_order order -> tup fin ->
  path (root s) order = Some (proj order fin, q) ->
  GetLastCompletedTupleIdx s order = Ok (Some fin).
Proof.
  intros Hs Ho Hfin Hp. unfold GetLastCompletedTupleIdx. rewrite (sv_cards _ Hs).
  destruct (walk_path s order order [] [] (root s) _ q (replicate (length order) 0) Hs Ho eq_refl eq_refl Hp)
    as (l & Hw & Hl & E).
  - unfold vec_size. by rewrite length_replicate, (order_length order).
  - done.
  - cbn in Hw. rewrite Hw. do 2 f_equal. apply (proj_inj order); [done| |done|done].
    destruct (sv_tree _ Hs _ _ _ Hp) as (_ & Hf & _).
    apply (in_cards_tup order); [done..|]. apply (path_in_cards order (proj order fin)); [done..|].
    intros; by eapply order_range.
Qed.
End state.
End join.
