(* ===== verification/SkinnerExec.v ===== *)
(** * Skinner join: executing one join order

    The join environment of src/runtime/skinner_join_executor.cc
    ([PermutableJoinEnvironment]) together with the table functions the
    permutable translator generates for it
    (src/compile/translators/permutable_skinner_join_translator.cc): one
    function per table, which enumerates tuples of the table from the resume
    point, checks the predicates that are flagged for it and calls the function
    of the next table in the order, and a handler for complete tuples that
    inserts the tuple indices into the tuple index table and emits new ones.
    Where equality predicates are flagged, the tuples are those in the
    intersection of the buckets that the indexes of their columns hold for the
    values of the other tables; otherwise all tuples of the table.

    What the translator compiles from the query's expressions is an argument
    ([JoinCode]): the value of a predicate on a combination of tuples, which
    predicates compare two columns, and the bucket such a predicate looks up.
    The tuple index table is used through the interface [TupleSet]. *)
From Stdlib Require Import SpecFloat.
From S2P Require Import Prelude ColumnIndexBucket SkinnerState ProgramBuilder.

(** ** The tuple index table, as the join uses it *)
Class TupleSet (T : Type) := {
  ts_Insert : T -> list Z -> Res (bool * T);
  ts_holds : nat -> T -> gset (list Z) -> Prop;
  ts_Insert_spec : forall m t S x, ts_holds m t S -> length x = m -> Forall (is_sw 32) x ->
    exists b t', ts_Insert t x = Ok (b, t') /\ (b = true <-> x ∉ S) /\ ts_holds m t' ({[x]} ∪ S);
}.

(** ** The code of the predicates

    [code_cond]: a predicate on a combination, [None] for null.  [index_bucket]:
    for a predicate that compares a column of the given table with another
    column, the bucket of the index for the value of the other column, [None]
    when that is null; a bucket without data does not exist.
    [bucket_list_max_size] cells are allocated for the buckets of a table. *)
Record JoinCode := MkCode {
  code_cond :> Z -> list Z -> option bool;
  IsEqualityPredicate : Z -> bool;
  index_bucket : Z -> Z -> list Z -> option ColumnIndexBucket;
  bucket_list_max_size : Z;
}.

Definition DoesNotExist (b : ColumnIndexBucket) : bool := bool_decide (bk_data b = []).

(** ** State shared with the generated code

    [PermutableExecutionEngineFlags], the tuple index table and the tuples handed
    to the parent operator.  An entry of [join_handler_fn_arr] is the table whose
    function it holds, or [None] for the handler of complete tuples. *)
Record Engine (T : Type) := MkEngine {
  join_handler_fn_arr : list (option Z);
  flag_arr : list Z;
  progress_arr : list Z;
  table_ctr : Z;
  idx_arr : list Z;
  num_result_tuples : Z;
  offset_arr : list Z;
  tuple_table : T;
  emitted : list (list Z);
}.
Arguments MkEngine {T}.
Arguments join_handler_fn_arr {T} _.
Arguments flag_arr {T} _.
Arguments progress_arr {T} _.
Arguments table_ctr {T} _.
Arguments idx_arr {T} _.
Arguments num_result_tuples {T} _.
Arguments offset_arr {T} _.
Arguments tuple_table {T} _.
Arguments emitted {T} _.

Section engine.
Context {T : Type} `{TupleSet T}.
Context (cards : list Z) (pred_table_to_flag : gmap (Z * Z) Z) (cond : JoinCode).

Definition set_idx_arr (e : Engine T) (v : list Z) : Engine T :=
  MkEngine (join_handler_fn_arr e) (flag_arr e) (progress_arr e) (table_ctr e) v
    (num_result_tuples e) (offset_arr e) (tuple_table e) (emitted e).
Definition set_table_ctr (e : Engine T) (v : Z) : Engine T :=
  MkEngine (join_handler_fn_arr e) (flag_arr e) (progress_arr e) v (idx_arr e)
    (num_result_tuples e) (offset_arr e) (tuple_table e) (emitted e).

(** The handler of complete tuples. *)
Definition valid_tuple_handler (budget : Z) (resume_progress : bool) (e : Engine T)
    : Res (Z * Engine T) :=
  '(fresh, tab) ← ts_Insert (tuple_table e) (idx_arr e);
  Ok (budget, MkEngine (join_handler_fn_arr e) (flag_arr e) (progress_arr e) (table_ctr e)
        (idx_arr e) (num_result_tuples e + 1) (offset_arr e) tab
        (if fresh : bool then emitted e ++ [idx_arr e] else emitted e)).

(** The predicates of table [t]: each one whose flag is set must be true (not
    false and not null). *)
Fixpoint check_preds (t : Z) (e : Engine T) (preds : list (Z * Z * Z)) : Res bool :=
  match preds with
  | [] => Ok true
  | (pred, table, flag) :: preds =>
      if table =? t then
        flag_value ← vec_at (flag_arr e) flag;
        if flag_value =? 0 then check_preds t e preds
        else if bool_decide (cond pred (idx_arr e) = Some true) then check_preds t e preds
        else Ok false
      else check_preds t e preds
  end.

(** One tuple of a table: check its predicates and call the next table; [next]
    is how the loop goes on. *)
Definition visit (handler : Z -> bool -> Engine T -> Res (Z * Engine T)) (t tuple budget : Z)
    (resume_progress : bool) (e : Engine T) (next : Z -> Engine T -> Res (Z * Engine T))
    : Res (Z * Engine T) :=
  let budget := budget - 1 in
  idx ← vec_set (idx_arr e) t tuple;
  let e := set_idx_arr e idx in
  holds ← check_preds t e (map_to_list pred_table_to_flag);
  if negb holds then
    if budget =? 0 then Ok (-1, set_table_ctr e t) else next budget e
  else if budget =? 0 then Ok (-2, set_table_ctr e t)
  else
    '(next_budget, e) ← handler budget resume_progress e;
    if next_budget <? 0 then Ok (next_budget, e) else next next_budget e.

(** The loop over the tuples of a table; [rest] counts the tuples from [next] to
    the end of the table. *)
Fixpoint scan_loop (handler : Z -> bool -> Engine T -> Res (Z * Engine T)) (t : Z)
    (rest : nat) (next budget : Z) (resume_progress : bool) (e : Engine T)
    : Res (Z * Engine T) :=
  match rest with
  | O => Ok (budget, e)
  | S rest =>
      visit handler t next budget resume_progress e
        (fun budget e => scan_loop handler t rest (next + 1) budget false e)
  end.

(** The buckets for the flagged equality predicates of table [t], or [None] when
    one of them leaves no tuple. *)
Fixpoint collect_buckets (t : Z) (e : Engine T) (preds : list (Z * Z * Z)) (bucket_list : list ColumnIndexBucket)
    : Res (option (list ColumnIndexBucket)) :=
  match preds with
  | [] => Ok (Some bucket_list)
  | (pred, table, flag) :: preds =>
      if (table =? t) && IsEqualityPredicate cond pred then
        flag_value ← vec_at (flag_arr e) flag;
        if flag_value =? 0 then collect_buckets t e preds bucket_list
        else
          match index_bucket cond pred t (idx_arr e) with
          | None => Ok None
          | Some bucket =>
              if bucket_list_max_size cond <=? vec_size bucket_list then UB
              else if DoesNotExist bucket then Ok None
              else collect_buckets t e preds (bucket_list ++ [bucket])
          end
      else collect_buckets t e preds bucket_list
  end.

(** No tuple of table [t] can follow: this costs one step. *)
Definition no_bucket (t cardinality initial_budget : Z) (e : Engine T) : Res (Z * Engine T) :=
  let budget := initial_budget - 1 in
  if budget =? 0 then
    idx ← vec_set (idx_arr e) t (cardinality - 1); Ok (-1, set_table_ctr (set_idx_arr e idx) t)
  else Ok (budget, e).

(** The loop over one batch of the intersection. *)
Fixpoint result_loop (handler : Z -> bool -> Engine T -> Res (Z * Engine T)) (t : Z)
    (result : list Z) (budget : Z) (resume_progress : bool) (e : Engine T)
    (next : Z -> Engine T -> Res (Z * Engine T)) : Res (Z * Engine T) :=
  match result with
  | [] => next budget e
  | tuple :: result =>
      visit handler t tuple budget resume_progress e
        (fun budget e => result_loop handler t result budget false e next)
  end.

Definition result_max_size : Z := 64.

(** The loop over the batches. *)
Fixpoint index_loop (fuel : nat) (handler : Z -> bool -> Engine T -> Res (Z * Engine T)) (t : Z)
    (bucket_list : list ColumnIndexBucket) (cursors result : list Z) (budget : Z)
    (resume_progress : bool) (progress_next_tuple : Z) (e : Engine T) : Res (Z * Engine T) :=
  match fuel with
  | O => NoFuel
  | S fuel =>
      match result with
      | [] => Ok (budget, e)
      | first :: _ =>
          result_loop handler t result budget (resume_progress && (first =? progress_next_tuple)) e
            (fun budget e =>
               '(result, cursors) ← BucketListSortedIntersectionPopulateResult bucket_list cursors result_max_size;
               index_loop fuel handler t bucket_list cursors result budget resume_progress progress_next_tuple e)
      end
  end.

(** The function of table [t].  Each call goes one table further in the order:
    [depth] is fuel for as many tables as are left. *)
Fixpoint table_function (depth : nat) (t : Z) (initial_budget : Z) (resume_progress : bool)
    (e : Engine T) : Res (Z * Engine T) :=
  match depth with
  | O => NoFuel
  | S depth =>
      handler ← vec_at (join_handler_fn_arr e) t;
      let handler := match handler with
                     | Some t' => table_function depth t'
                     | None => valid_tuple_handler
                     end in
      cardinality ← vec_at cards t;
      buckets ← collect_buckets t e (map_to_list pred_table_to_flag) [];
      match buckets with
      | None => no_bucket t cardinality initial_budget e
      | Some bucket_list =>
          progress_next_tuple ← (if resume_progress then vec_at (progress_arr e) t else Ok 0);
          o ← vec_at (offset_arr e) t;
          let offset_next_tuple := o + 1 in
          let initial_next_tuple :=
            if progress_next_tuple <? offset_next_tuple then offset_next_tuple
            else progress_next_tuple in
          if 0 <? vec_size bucket_list then
            cursors ← BucketListSortedIntersectionInit bucket_list initial_next_tuple;
            '(result, cursors) ← BucketListSortedIntersectionPopulateResult bucket_list cursors result_max_size;
            index_loop (S (S (rounds bucket_list))) handler t bucket_list cursors result initial_budget
              resume_progress progress_next_tuple e
          else
            let continue_resume_progress :=
              resume_progress && (initial_next_tuple =? progress_next_tuple) in
            scan_loop handler t (Z.to_nat (cardinality - initial_next_tuple)) initial_next_tuple
              initial_budget continue_resume_progress e
      end
  end.
End engine.

(** ** The environment *)

(** [JoinEnvironment::ComputeLastCompletedTuple]: the first loop copies the
    indices and finds the position of [table_ctr] in the order. *)
Fixpoint copy_idx (idx last : list Z) (order : list Z) : Res (list Z) :=
  match order with
  | [] => Ok last
  | t :: order => x ← vec_at idx t; last ← vec_set last t x; copy_idx idx last order
  end.

Fixpoint find_ctr (table_ctr : Z) (i table_ctr_idx : Z) (order : list Z) : Z :=
  match order with
  | [] => table_ctr_idx
  | t :: order => find_ctr table_ctr (i + 1) (if table_ctr =? t then i else table_ctr_idx) order
  end.

Fixpoint fill_last (cards last : list Z) (tables : list Z) : Res (list Z) :=
  match tables with
  | [] => Ok last
  | t :: tables => c ← vec_at cards t; last ← vec_set last t (c - 1); fill_last cards last tables
  end.

(** Decrement by one, wrapping around at the first tuple. *)
Fixpoint decrement_wrap (cards last : list Z) (rorder : list Z) : Res (list Z) :=
  match rorder with
  | [] => Ok last
  | t :: rorder =>
      x ← vec_at last t;
      if x =? 0 then c ← vec_at cards t; last ← vec_set last t (c - 1); decrement_wrap cards last rorder
      else vec_set last t (x - 1)
  end.

Definition ComputeLastCompletedTuple (order cards : list Z) (status table_ctr : Z) (idx : list Z)
    : Res (list Z) :=
  last ← copy_idx idx (replicate (length order) 0) order;
  let rest := drop (Z.to_nat (find_ctr table_ctr 0 (-1) order + 1)) order in
  if status =? -2 then
    last ← set_all 0 last rest;
    decrement_wrap cards last (reverse order)
  else fill_last cards last rest.

(** [JoinEnvironment::Reward]; [w] and [p] are [weight] and [progress]. *)
Fixpoint reward_loop (offset initial final cards : list Z) (w p : spec_float) (order : list Z)
    : Res spec_float :=
  match order with
  | [] => Ok p
  | t :: order =>
      c ← vec_at cards t; o ← vec_at offset t; i ← vec_at initial t; f ← vec_at final t;
      let w := F_mul w (F_div (F_of_Z 1) (F_of_Z (c - o))) in
      let p := F_add p (F_mul (F_of_Z (Z.max o f - Z.max o i)) w) in
      reward_loop offset initial final cards w p order
  end.

Definition F_half : spec_float := F_div (F_of_Z 1) (F_of_Z 2).

Definition Reward (order offset initial final cards : list Z) (num_result_tuples budget : Z)
    : Res spec_float :=
  p ← reward_loop offset initial final cards (F_of_Z 1) (F_of_Z 0) order;
  Ok (F_add (F_mul F_half p)
        (F_div (F_mul F_half (F_of_Z num_result_tuples)) (F_of_Z budget))).

(** [PermutableJoinEnvironment]; [table_functions_] holds the function of each
    table at its index and is not stored. *)
Record Environment := MkEnv {
  num_preds : Z;
  num_flags : Z;
  budget_per_episode : Z;
  env_flags : gmap (Z * Z) Z;
  table_connections : gset (Z * Z);
  env_cards : list Z;
}.

Definition IsConnected (env : Environment) (joined_tables : list Z) (table : Z) : bool :=
  existsb (fun table1 => bool_decide ((table1, table) ∈ table_connections env)) joined_tables.

Section environment.
Context {T : Type} `{TupleSet T}.
Context (env : Environment) (cond : JoinCode).

Fixpoint set_handlers (handlers : list (option Z)) (order : list Z) : Res (list (option Z)) :=
  match order with
  | [] => Ok handlers
  | t :: order =>
      handlers ← vec_set handlers t (head order);
      set_handlers handlers order
  end.

Definition SetJoinOrder (e : Engine T) (order : list Z) : Res (Engine T) :=
  handlers ← set_handlers (join_handler_fn_arr e) order;
  Ok (MkEngine handlers (flag_arr e) (progress_arr e) (table_ctr e) (idx_arr e)
        (num_result_tuples e) (offset_arr e) (tuple_table e) (emitted e)).

Fixpoint resume_loop (last offset progress offs : list Z) (tables : list Z)
    : Res (list Z * list Z) :=
  match tables with
  | [] => Ok (progress, offs)
  | t :: tables =>
      o ← vec_at offset t; l ← vec_at last t;
      progress ← vec_set progress t (Z.max o l);
      offs ← vec_set offs t o;
      resume_loop last offset progress offs tables
  end.

Definition SetResumeProgress (e : Engine T) (order last offset : list Z) : Res (Engine T) :=
  '(progress, offs) ← resume_loop last offset (progress_arr e) (offset_arr e)
                        (seqZ 0 (vec_size last));
  first ← vec_at order 0;
  Ok (MkEngine (join_handler_fn_arr e) (flag_arr e) progress first (idx_arr e) 0 offs
        (tuple_table e) (emitted e)).

(** The predicates that become available with [table]. *)
Fixpoint toggle_preds (num_tables : Z) (available : list Z) (table : Z) (executed : gset Z)
    (flags : list Z) (preds : list Z) : Res (gset Z * list Z) :=
  match preds with
  | [] => Ok (executed, flags)
  | pred :: preds =>
      if bool_decide (pred ∈ executed) then toggle_preds num_tables available table executed flags preds
      else if forallb (fun t => bool_decide (env_flags env !! (pred, t) = None) ||
                                bool_decide (t ∈ available)) (seqZ 0 num_tables) then
        match env_flags env !! (pred, table) with
        | Some flag =>
            flags ← vec_set flags flag 1;
            toggle_preds num_tables available table ({[pred]} ∪ executed) flags preds
        | None => Throw "raw_hash_map::at"
        end
      else toggle_preds num_tables available table executed flags preds
  end.

Fixpoint toggle_loop (num_tables : Z) (available : list Z) (executed : gset Z)
    (flags : list Z) (order : list Z) : Res (list Z) :=
  match order with
  | [] => Ok flags
  | table :: order =>
      '(executed, flags) ← toggle_preds num_tables (table :: available) table executed flags
                             (seqZ 0 (num_preds env));
      toggle_loop num_tables (table :: available) executed flags order
  end.

Definition TogglePredicateFlags (e : Engine T) (order : list Z) : Res (Engine T) :=
  flags ← set_all 0 (flag_arr e) (seqZ 0 (num_flags env));
  flags ← toggle_loop (vec_size order) [] ∅ flags order;
  Ok (MkEngine (join_handler_fn_arr e) flags (progress_arr e) (table_ctr e) (idx_arr e)
        (num_result_tuples e) (offset_arr e) (tuple_table e) (emitted e)).

(** [PermutableJoinEnvironment::Execute].  [offset] is a reference into the state,
    so that the reward is computed with the offsets after the update. *)
Definition Execute (s : JoinState) (e : Engine T) (order : list Z)
    : Res (spec_float * JoinState * Engine T) :=
  initial ← GetLastCompletedTupleIdx s order;
  let initial_or := default (replicate (length order) (-1)) initial in
  e ← SetJoinOrder e order;
  e ← TogglePredicateFlags e order;
  e ← SetResumeProgress e order initial_or (GetOffset s);
  first ← vec_at order 0;
  '(status, e) ← table_function (env_cards env) (env_flags env) cond (length order) first
                   (budget_per_episode env) (bool_decide (is_Some initial)) e;
  final ← ComputeLastCompletedTuple order (env_cards env) status (table_ctr e) (idx_arr e);
  s ← Update s order final;
  reward ← Reward order (GetOffset s) initial_or final (env_cards env)
             (num_result_tuples e) (budget_per_episode env);
  Ok (reward, s, e).
End environment.
