(* ===== verification/SkinnerScan.v ===== *)
(** * Skinner join: what one episode does

    The table functions of SkinnerExec, run for one join order from a resume
    point: which combinations are dealt with when they return, what is emitted,
    and how far an episode gets with its budget. *)
From stdpp Require Import sorting.
From S2P Require Import Prelude ColumnIndexBucket BucketBatches SkinnerState SkinnerExec.

Section scan.
Context {T : Type} `{TupleSet T}.
Context (cards : list Z) (np : Z) (ptf : gmap (Z * Z) Z) (cond : JoinCode).
Context (nf : Z) (order off r : list Z).
Local Abbreviation n := (vec_size cards).
Local Abbreviation tup := (tup cards).

(** A combination all predicates accept. *)
Definition valid (v : list Z) : Prop := forall p, 0 <= p < np -> cond p v = Some true.

(** [S] are the combinations emitted so far: [v] needs no more work. *)
Definition DoneS (S : gset (list Z)) (v : list Z) : Prop := valid v -> v ∈ S.

(** The predicates that compare columns of two tables, and the buckets they look
    up: the tuples of table [t] whose column has the value of the other one. *)
Record index_ok : Prop := {
  ix_two : forall p t f, IsEqualityPredicate cond p = true -> ptf !! (p, t) = Some f ->
    exists u g, u <> t /\ ptf !! (p, u) = Some g;
  ix_bucket : forall p t f v, IsEqualityPredicate cond p = true -> ptf !! (p, t) = Some f -> vec_size v = n ->
    (forall u g, ptf !! (p, u) = Some g -> u <> t -> 0 <= get v u < get cards u) ->
    match index_bucket cond p t v with
    | None => forall x, 0 <= x < get cards t -> cond p (upd v t x) <> Some true
    | Some b => exists l, holds b l /\ incr l /\ vec_size l <= 2 ^ 30 /\
        forall x, x ∈ l <-> 0 <= x < get cards t /\ cond p (upd v t x) = Some true
    end;
  ix_room : forall t, vec_size (filter (fun q : Z * Z * Z => q.1.2 = t /\ IsEqualityPredicate cond q.1.1 = true) (map_to_list ptf))
    <= bucket_list_max_size cond;
}.

(** The predicates: [ptf] names the tables of each one, whose tuples alone
    determine its value. *)
Record preds_ok : Prop := {
  po_cards : forall t, 0 <= t < n -> 0 < get cards t <= INT32_MAX;
  po_range : forall p t f, ptf !! (p, t) = Some f -> 0 <= p < np /\ 0 <= t < n;
  po_some : forall p, 0 <= p < np -> exists t f, ptf !! (p, t) = Some f;
  po_local : forall p v w, (forall t f, ptf !! (p, t) = Some f -> get v t = get w t) ->
    cond p v = cond p w;
  po_index : index_ok;
}.

(** Table [t] is the last one of predicate [p] in the order. *)
Definition last_table (p t : Z) : Prop :=
  exists pre post, order = pre ++ t :: post /\
    forall t' f, ptf !! (p, t') = Some f -> t' ∈ pre ++ [t].

Definition flags_ok (flags : list Z) : Prop :=
  forall p t f, ptf !! (p, t) = Some f ->
    0 <= f < vec_size flags /\ (get flags f <> 0 <-> last_table p t).

(** The engine during an episode. *)
Record base (e : Engine T) (S : gset (list Z)) : Prop := {
  b_sizes : vec_size (join_handler_fn_arr e) = n /\ vec_size (flag_arr e) = nf;
  b_handlers : forall pre t post, order = pre ++ t :: post ->
    vec_at (join_handler_fn_arr e) t = Ok (head post);
  b_flags : flags_ok (flag_arr e);
  b_off : offset_arr e = off;
  b_prog : progress_arr e = r;
  b_idx : vec_size (idx_arr e) = n;
  b_rep : ts_holds (length cards) (tuple_table e) S;
  b_sound : forall x, x ∈ S -> tup x /\ valid x;
  b_emit : NoDup (emitted e) /\ forall x, x ∈ emitted e <-> x ∈ S;
}.

(** What holds when the tables of [pre] have their tuples: all predicates on
    them accept, and everything before the resume point is done. *)
Record entry (e : Engine T) (S : gset (list Z)) (resume : bool) (pre : list Z) : Prop := {
  en_range : in_cards cards pre (idx_arr e);
  en_preds : forall p, 0 <= p < np -> (forall t f, ptf !! (p, t) = Some f -> t ∈ pre) ->
    cond p (idx_arr e) = Some true;
  en_off : forall t v, 0 <= t < n -> tup v -> get v t <= get off t -> DoneS S v;
  en_resume : resume = true -> tup r /\ (forall t, 0 <= t < n -> get off t <= get r t) /\
    proj pre (idx_arr e) = proj pre r /\
    forall v, tup v -> lex_lt (proj order v) (proj order r) -> DoneS S v;
}.

Definition firsts (ts : list Z) : list Z := (fun t => get off t + 1) <$> ts.
Definition maxes (ts : list Z) : list Z := (fun t => get cards t - 1) <$> ts.
Definition zeros (ts : list Z) : list Z := (fun _ => 0) <$> ts.

(** The call returned with budget left: every combination that extends the
    prefix is done. *)
Record done_out (pre suf : list Z) (b : Z) (resume : bool) (s : Z) (e e' : Engine T)
    (S' : gset (list Z)) : Prop := {
  do_budget : 0 < s <= b;
  do_ctr : table_ctr e' = table_ctr e;
  do_all : forall v, tup v -> proj pre v = proj pre (idx_arr e) -> DoneS S' v;
  do_idx : forall t post, pre = [] -> suf = t :: post -> get (idx_arr e') t = get cards t - 1;
  do_cost : resume = true -> (forall t, t ∈ suf -> get r t = get cards t - 1) ->
    b - s <= Z.of_nat (length suf);
}.

(** The budget ran out at table [u] of the suffix, behind the tuples the index
    array holds (status -1) or before them (status -2). *)
Record stopped (pre suf : list Z) (s : Z) (e e' : Engine T) (S' : gset (list Z))
    (mid : list Z) (u : Z) (post : list Z) : Prop := {
  st_suf : suf = mid ++ u :: post;
  st_status : s = -1 \/ s = -2;
  st_ctr : table_ctr e' = u;
  st_range : in_cards cards (mid ++ [u]) (idx_arr e');
  st_done : forall v, tup v -> proj pre v = proj pre (idx_arr e) ->
    lex_lt (proj (mid ++ [u]) v) (proj (mid ++ [u]) (idx_arr e')) \/
    (s = -1 /\ proj (mid ++ [u]) v = proj (mid ++ [u]) (idx_arr e')) -> DoneS S' v;
}.

(** A stop is strictly behind the resume point; for status -2 there is a
    combination in between, so that the tuple before the stop exists and is
    behind the resume point too. *)
Definition past_resume (suf : list Z) (s : Z) (w post : list Z) : Prop :=
  (s = -1 -> lex_lt (proj suf r) (w ++ maxes post)) /\
  (s = -2 -> exists z, Forall2 (fun t x => 0 <= x < get cards t) suf z /\
     lex_lt (proj suf r) z /\ lex_lt z (w ++ zeros post)).

(** The progress a stop makes when the budget is large enough. *)
Record stop_out (pre suf : list Z) (b : Z) (resume : bool) (s : Z) (e e' : Engine T)
    (S' : gset (list Z)) (mid : list Z) (u : Z) (post : list Z) : Prop := {
  so_stopped : stopped pre suf s e e' S' mid u post;
  so_first : resume = false -> Z.of_nat (length suf) < b -> s = -2 ->
    lex_lt (firsts suf) (proj (mid ++ [u]) (idx_arr e') ++ zeros post);
  so_prog : resume = true -> 2 * Z.of_nat (length suf) < b ->
    past_resume suf s (proj (mid ++ [u]) (idx_arr e')) post;
}.

(** What a call that enumerates the tables [suf] behind the prefix [pre] returns. *)
Definition call_post (pre suf : list Z) (b : Z) (resume : bool) (e : Engine T)
    (S : gset (list Z)) (res : Res (Z * Engine T)) : Prop :=
  exists s e' S', res = Ok (s, e') /\ S ⊆ S' /\ base e' S' /\
    (forall t, t ∈ pre -> get (idx_arr e') t = get (idx_arr e) t) /\
    (done_out pre suf b resume s e e' S' \/
     exists mid u post, stop_out pre suf b resume s e e' S' mid u post).

Definition call_ok (pre suf : list Z) (h : Z -> bool -> Engine T -> Res (Z * Engine T)) : Prop :=
  forall b resume e S, 0 < b -> base e S -> entry e S resume pre ->
    call_post pre suf b resume e S (h b resume e).

Context (Hpo : preds_ok) (Ho : is_order cards order).
Context (Hofflen : vec_size off = n).
Context (Hoff : forall t, 0 <= t < n -> -1 <= get off t < get cards t - 1).

Lemma DoneS_mono S S' v : S ⊆ S' -> DoneS S v -> DoneS S' v.
Proof. intros Hs Hd Hv. by apply Hs, Hd. Qed.

(** ** A complete tuple *)
Lemma tup_i32 v : tup v -> length v = length cards /\ Forall (is_sw 32) v.
Proof.
  intros [Hl Hv]. assert (Hlen : length v = length cards) by (unfold vec_size in Hl; lia).
  split; [done|]. apply Forall_lookup_2. intros i x Hx.
  assert (Hi : 0 <= Z.of_nat i < n) by (apply lookup_lt_Some in Hx; unfold vec_size; lia).
  pose proof (Hv _ Hi) as Hi'. pose proof (po_cards Hpo _ Hi) as Hc.
  assert (Ex : get v (Z.of_nat i) = x) by (unfold get; by rewrite Nat2Z.id, list_lookup_total_alt, Hx).
  unfold is_sw, INT32_MAX in *. lia.
Qed.

Lemma handler_ok : call_ok order [] valid_tuple_handler.
Proof.
  intros b resume e S Hb Hba [Hr Hp Ho' Hres].
  assert (Htup : tup (idx_arr e)) by (apply (in_cards_tup cards order); [done|apply Hba|done]).
  assert (Hval : valid (idx_arr e)).
  { intros p Hp'. apply Hp; [done|]. intros t f Hf. apply (order_elem cards); [done|].
    by eapply (po_range Hpo). }
  destruct (tup_i32 _ Htup) as [Hlen Hi32]. unfold valid_tuple_handler.
  destruct (ts_Insert_spec (length cards) (tuple_table e) S (idx_arr e)) as (fresh & tab & -> & Hfr & Hrep);
    [apply Hba|done..|].
  cbn [mbind Res_bind]. eexists b, _, ({[idx_arr e]} ∪ S). split; [done|].
  split; [apply union_subseteq_r|]. split; [|split; [done|left]].
  - destruct Hba as [? ? ? ? ? ? ? Hsound [Hnd Hem]]. split; cbn; try done.
    + intros x [->%elem_of_singleton|?]%elem_of_union; auto.
    + destruct fresh.
      * split; [apply list.NoDup_app; split_and!; [done| |apply NoDup_singleton]|].
        -- intros x Hx%Hem ->%list_elem_of_singleton. by apply (proj1 Hfr).
        -- intros x. rewrite elem_of_app, Hem, list_elem_of_singleton, elem_of_union, elem_of_singleton. tauto.
      * split; [done|]. intros x. rewrite Hem, elem_of_union, elem_of_singleton.
        destruct (decide (idx_arr e ∈ S)); [split; [tauto|by intros [->|?]]|].
        exfalso. assert (false = true) by (by apply Hfr). done.
  - split; cbn; try done; try lia.
    intros v Hv E _. apply elem_of_union. left. apply elem_of_singleton.
    by apply (proj_inj cards order).
Qed.

(** ** The predicates of one table *)
Lemma check_preds_spec t e S l : base e S -> (forall x, x ∈ l -> x ∈ map_to_list ptf) ->
  exists b, check_preds cond t e l = Ok b /\
    (b = true <-> forall p f, (p, t, f) ∈ l -> get (flag_arr e) f <> 0 ->
      cond p (idx_arr e) = Some true).
Proof.
  intros Hb. induction l as [|[[p u] f] l IH]; intros Hl; cbn [check_preds].
  { exists true. split; [done|]. split; [|done]. by intros _ ? ? ?%not_elem_of_nil. }
  destruct IH as (b & Hcb & Hiff); [intros; apply Hl; by right|].
  assert (Hf : ptf !! (p, u) = Some f) by (apply elem_of_map_to_list, Hl; by left).
  destruct (b_flags _ _ Hb p u f Hf) as [Hfr _].
  assert (Hskip : (u = t -> get (flag_arr e) f <> 0 -> cond p (idx_arr e) = Some true) ->
    exists b', check_preds cond t e l = Ok b' /\ (b' = true <-> forall p0 f0,
      (p0, t, f0) ∈ (p, u, f) :: l -> get (flag_arr e) f0 <> 0 -> cond p0 (idx_arr e) = Some true)).
  { intros Hh. exists b. split; [done|]. rewrite Hiff. split; intros H' p0 f0 Hin Hnz.
    - apply elem_of_cons in Hin as [[= -> <- ->]|?]; eauto.
    - eapply H'; [by right|done]. }
  destruct (Z.eqb_spec u t) as [->|Hne]; [|by apply Hskip].
  rewrite vec_at_get by done. cbn [mbind Res_bind].
  destruct (Z.eqb_spec (get (flag_arr e) f) 0) as [Hz|Hnz]; [by apply Hskip|].
  case_bool_decide as Hc; [by apply Hskip|]. exists false. split; [done|]. split; [done|].
  intros Hall. exfalso. apply Hc. eapply Hall; [by left|done].
Qed.

Lemma order_split_eq pre t post pre' post' :
  order = pre ++ t :: post -> order = pre' ++ t :: post' -> pre = pre' /\ post = post'.
Proof.
  intros E E'. pose proof (order_nodup cards order Ho) as Hnd.
  rewrite E in E'. rewrite E in Hnd. clear E. revert pre' E' Hnd.
  induction pre as [|x pre IH]; intros [|y pre']; cbn; intros E' Hnd;
    apply list.NoDup_cons in Hnd as [Hn Hnd].
  - by injection E' as ->.
  - injection E' as -> Et. exfalso. apply Hn. rewrite Et. apply elem_of_app. right. by left.
  - injection E' as -> Et. exfalso. apply Hn. apply elem_of_app. right. by left.
  - injection E' as -> Et. destruct (IH pre' Et Hnd) as [-> ->]. done.
Qed.

(** After the check the predicates of the longer prefix hold, or no combination
    that extends it is valid. *)
Lemma check_step pre t post e (e0 : Engine T) S : order = pre ++ t :: post -> base e S ->
  (forall p, 0 <= p < np -> (forall t f, ptf !! (p, t) = Some f -> t ∈ pre) ->
    cond p (idx_arr e0) = Some true) ->
  (forall u, u ∈ pre -> get (idx_arr e) u = get (idx_arr e0) u) ->
  exists b, check_preds cond t e (map_to_list ptf) = Ok b /\
    if b then forall p, 0 <= p < np -> (forall t' f, ptf !! (p, t') = Some f -> t' ∈ pre ++ [t]) ->
      cond p (idx_arr e) = Some true
    else forall v, proj (pre ++ [t]) v = proj (pre ++ [t]) (idx_arr e) -> ~ valid v.
Proof.
  intros Eo Hb Hpre Heq.
  destruct (check_preds_spec t e S (map_to_list ptf) Hb) as (b & Hcb & Hiff); [done|].
  exists b. split; [done|]. destruct b.
  - intros p Hp Hin. pose proof (proj1 Hiff eq_refl) as Hall.
    destruct (ptf !! (p, t)) as [f|] eqn:Hf.
    + apply (Hall p f); [by apply elem_of_map_to_list|]. apply (b_flags _ _ Hb p t f Hf). by exists pre, post.
    + assert (Hin' : forall t' f, ptf !! (p, t') = Some f -> t' ∈ pre).
      { intros t' f Hf'. pose proof (Hin _ _ Hf') as [?| ->%list_elem_of_singleton]%elem_of_app; [done|congruence]. }
      rewrite <- (Hpre p Hp Hin'). apply (po_local Hpo). intros u f Hu. apply Heq. by eapply Hin'.
  - intros v Hv Hval. assert (false = true) as E; [|done]. apply Hiff. intros p f Hin Hnz.
    apply elem_of_map_to_list in Hin. destruct (proj1 (proj2 (b_flags _ _ Hb p t f Hin)) Hnz) as (pre' & post' & E' & Hall).
    destruct (order_split_eq _ _ _ _ _ Eo E') as [<- <-].
    rewrite <- (Hval p); [|by eapply (po_range Hpo)]. apply (po_local Hpo). intros u g Hu.
    pose proof (Hall _ _ Hu) as Hu'. apply list_elem_of_lookup_1 in Hu' as [i Hi].
    assert (El : proj (pre ++ [t]) v !! i = proj (pre ++ [t]) (idx_arr e) !! i) by (by rewrite Hv).
    unfold proj in El. rewrite !list_lookup_fmap, Hi in El. by injection El.
Qed.

(** ** The loop over one table *)
Section table.
Context (pre : list Z) (t : Z) (post : list Z) (Eo : order = pre ++ t :: post).
Context (h : Z -> bool -> Engine T -> Res (Z * Engine T)) (Hh : call_ok (pre ++ [t]) post h).

Lemma t_range : 0 <= t < n.
Proof. apply (order_range cards order); [done|]. rewrite Eo. apply elem_of_app. right. by left. Qed.

Lemma t_notin : t ∉ pre.
Proof.
  pose proof (order_nodup cards order Ho) as Hnd. rewrite Eo in Hnd.
  apply list.NoDup_app in Hnd as (_ & Hd & _). intros Ht. apply (Hd t Ht). by left.
Qed.

Lemma pre_range u : u ∈ pre -> 0 <= u < n.
Proof. intros. apply (order_range cards order); [done|]. rewrite Eo. apply elem_of_app. by left. Qed.

Lemma idx_pre e S x u : base e S -> u ∈ pre -> get (upd (idx_arr e) t x) u = get (idx_arr e) u.
Proof.
  intros Hb Hu. pose proof t_range. pose proof (pre_range u Hu).
  rewrite get_upd by (rewrite ?(b_idx _ _ Hb); lia). rewrite decide_False; [done|].
  intros ->. by apply t_notin.
Qed.

Lemma idx_t e S x : base e S -> get (upd (idx_arr e) t x) t = x.
Proof.
  intros Hb. pose proof t_range. rewrite get_upd by (rewrite ?(b_idx _ _ Hb); lia).
  by rewrite decide_True.
Qed.

Lemma proj_snoc_idx e S x v : base e S -> proj pre v = proj pre (idx_arr e) -> get v t = x ->
  proj (pre ++ [t]) v = proj (pre ++ [t]) (upd (idx_arr e) t x).
Proof.
  intros Hb E Hvx. rewrite !proj_app, E. cbn. rewrite (idx_t e S x Hb), Hvx. f_equal.
  apply proj_ext. intros y Hy. by rewrite (idx_pre e S).
Qed.

Lemma base_idx e S x : base e S -> base (set_idx_arr e (upd (idx_arr e) t x)) S.
Proof. intros []. split; cbn; try done. by rewrite vec_size_upd. Qed.

Lemma base_ctr e S x : base e S -> base (set_table_ctr e x) S.
Proof. intros []. by split. Qed.

(** The prefix grows by the tuple of [t]. *)
Lemma entry_snoc e S resume x : base e S -> entry e S resume pre -> 0 <= x < get cards t ->
  (resume = true -> x = get r t) ->
  (forall p, 0 <= p < np -> (forall t' f, ptf !! (p, t') = Some f -> t' ∈ pre ++ [t]) ->
    cond p (upd (idx_arr e) t x) = Some true) ->
  entry (set_idx_arr e (upd (idx_arr e) t x)) S resume (pre ++ [t]).
Proof.
  intros Hb [Hr _ Ho' Hres] Hx Hrx Hp. split; cbn; [|done|done|].
  - intros u [Hu| ->%list_elem_of_singleton]%elem_of_app.
    + rewrite (idx_pre e S x u Hb Hu). by apply Hr.
    + rewrite (idx_t e S x Hb). split; [apply t_range|done].
  - intros ->. destruct (Hres eq_refl) as (? & ? & E & ?). split_and!; try done.
    rewrite !proj_app. cbn. rewrite (idx_t e S x Hb), <- (Hrx eq_refl), <- E. f_equal.
    apply proj_ext. intros u Hu. by apply (idx_pre e S).
Qed.

Lemma entry_mono e e' S S' : entry e S false pre -> S ⊆ S' ->
  (forall u, u ∈ pre -> get (idx_arr e') u = get (idx_arr e) u) -> entry e' S' false pre.
Proof.
  intros [Hr Hp Ho' _] HS Hu. split; [| | |done].
  - intros u Hu'. rewrite Hu by done. by apply Hr.
  - intros p Hp' Hin. rewrite <- (Hp p Hp' Hin). apply (po_local Hpo). intros u f Hf. by eapply Hu, Hin.
  - intros. eapply DoneS_mono; [done|by eapply Ho'].
Qed.

(** A stop at [t] itself. *)
Lemma stopped_here s e e' S' x : s = -1 \/ s = -2 -> table_ctr e' = t ->
  get (idx_arr e') t = x -> 0 <= x < get cards t ->
  (forall v, tup v -> proj pre v = proj pre (idx_arr e) ->
    get v t < x \/ (s = -1 /\ get v t = x) -> DoneS S' v) ->
  stopped pre (t :: post) s e e' S' [] t post.
Proof.
  intros Hs Hc <- Hx Hd. split; try done.
  - intros u ->%list_elem_of_singleton. split; [apply t_range|done].
  - cbn. intros v Hv E Hlt. apply Hd; [done..|]. destruct Hlt as [[?|[_ []]]|[? [= ?]]]; auto.
Qed.

(** A stop in the call for the next table. *)
Lemma stopped_cons s e x e1 e' S S' mid u post' : base e S -> S ⊆ S' ->
  e1 = set_idx_arr e (upd (idx_arr e) t x) ->
  stopped (pre ++ [t]) post s e1 e' S' mid u post' ->
  get (idx_arr e') t = x -> 0 <= x < get cards t ->
  (forall v, tup v -> proj pre v = proj pre (idx_arr e) -> get v t < x -> DoneS S v) ->
  stopped pre (t :: post) s e e' S' (t :: mid) u post'.
Proof.
  intros Hb HS -> [Hsuf Hs Hc Hr Hd] Hx Hxr Hlt. cbn in Hd. split; try done.
  - by rewrite Hsuf.
  - intros y Hy. cbn in Hy. apply elem_of_cons in Hy as [->|Hy]; [|by apply Hr].
    rewrite Hx. split; [apply t_range|done].
  - intros v Hv E Hcmp. cbn [proj fmap list_fmap app lex_lt] in Hcmp. rewrite Hx in Hcmp.
    assert (Hin : get v t = x -> proj (pre ++ [t]) v = proj (pre ++ [t]) (upd (idx_arr e) t x)).
    { by apply (proj_snoc_idx e S). }
    destruct Hcmp as [[?|[Hvx ?]]|[? [= Hvx ?]]].
    + eapply DoneS_mono; [done|by apply Hlt].
    + apply Hd; [done|by apply Hin|by left].
    + apply Hd; [done|by apply Hin|by right].
Qed.

Lemma stopped_transport s e e0 e' S' mid u post' :
  (forall y, y ∈ pre -> get (idx_arr e0) y = get (idx_arr e) y) ->
  stopped pre (t :: post) s e0 e' S' mid u post' -> stopped pre (t :: post) s e e' S' mid u post'.
Proof.
  intros Hy [? ? ? ? Hd]. split; try done. intros v Hv E. apply Hd; [done|]. rewrite E.
  apply proj_ext. intros y Hy'. by rewrite Hy.
Qed.

(** A stop behind tuple [x] of [t]. *)
Lemma stopped_head s e e' S' mid u post' x l m :
  stopped pre (t :: post) s e e' S' mid u post' -> x < get (idx_arr e') t ->
  lex_lt (x :: l) (proj (mid ++ [u]) (idx_arr e') ++ m).
Proof.
  intros [E _ _ _ _] Hx. destruct mid as [|y mid]; injection E as E1 E2; cbn; left; congruence.
Qed.

(** The tuples of [L], one after the other. *)
Fixpoint visits (L : list Z) (b : Z) (resume : bool) (e : Engine T) : Res (Z * Engine T) :=
  match L with
  | [] => Ok (b, e)
  | x :: L => visit ptf cond h t x b resume e (fun b e => visits L b false e)
  end.

(** One iteration: either it goes on behind tuple [next], or it stops. *)
Definition iter_next (L : list Z) (next b : Z) (resume : bool) (e e' : Engine T) (S' : gset (list Z)) : Prop :=
  exists b', visits (next :: L) b resume e = visits L b' false e' /\
    0 < b' < b /\ table_ctr e' = table_ctr e /\
    (forall v, tup v -> proj pre v = proj pre (idx_arr e) -> get v t = next -> DoneS S' v) /\
    (resume = true -> (forall u, u ∈ post -> get r u = get cards u - 1) ->
      b - b' <= 1 + Z.of_nat (length post)).

Definition iter_stop (L : list Z) (next b : Z) (resume : bool) (e e' : Engine T) (S' : gset (list Z)) : Prop :=
  exists s mid u post', visits (next :: L) b resume e = Ok (s, e') /\
    stopped pre (t :: post) s e e' S' mid u post' /\
    (resume = false -> Z.of_nat (length (t :: post)) < b -> s = -2 ->
      lex_lt (next :: firsts post) (proj (mid ++ [u]) (idx_arr e') ++ zeros post')) /\
    (resume = true -> 2 * Z.of_nat (length (t :: post)) < b ->
      past_resume (t :: post) s (proj (mid ++ [u]) (idx_arr e')) post').

Lemma past_resume_cons s x w post' : x = get r t -> 0 <= x < get cards t ->
  past_resume post s w post' -> past_resume (t :: post) s (x :: w) post'.
Proof.
  intros -> Hx [H1 H2]. split.
  - intros Hs. cbn. right. auto.
  - intros Hs. destruct (H2 Hs) as (z & Hz & Hl & Hr). exists (get r t :: z). split_and!.
    + by constructor.
    + cbn. by right.
    + cbn. by right.
Qed.

Lemma scan_call L next b resume e S : base e S ->
  entry (set_idx_arr e (upd (idx_arr e) t next)) S resume (pre ++ [t]) -> 1 < b ->
  0 <= next < get cards t -> (resume = true -> next = get r t) ->
  (forall v, tup v -> proj pre v = proj pre (idx_arr e) -> get v t < next -> DoneS S v) ->
  visits (next :: L) b resume e =
    ('(next_budget, e) ← h (b - 1) resume (set_idx_arr e (upd (idx_arr e) t next));
     if next_budget <? 0 then Ok (next_budget, e) else visits L next_budget false e) ->
  exists e' S', S ⊆ S' /\ base e' S' /\
    (forall u, u ∈ pre -> get (idx_arr e') u = get (idx_arr e) u) /\ get (idx_arr e') t = next /\
    (iter_next L next b resume e e' S' \/ iter_stop L next b resume e e' S').
Proof.
  intros Hb Hen H1 Hx Hrx Hlt Heq.
  destruct (Hh (b - 1) resume _ S ltac:(lia) (base_idx e S next Hb) Hen)
    as (s & e' & S' & Er & HS & Hb' & Hpre & Hout). rewrite Er in Heq. cbn [mbind Res_bind] in Heq.
  cbn [set_idx_arr idx_arr] in Hpre.
  assert (Hpt : get (idx_arr e') t = next).
  { rewrite (Hpre t (elem_snoc pre t)). by apply (idx_t e S). }
  exists e', S'. split_and!; try done.
  { intros u Hu. rewrite (Hpre u (elem_snoc_l pre t u Hu)). by apply (idx_pre e S). }
  destruct Hout as [[Hs Hc Hall _ Hcost]|(mid & u & post' & [Hst Hf Hp])].
  - left. exists s. rewrite (proj2 (Z.ltb_ge s 0)) in Heq by lia. split_and!; try done; try lia.
    + intros v Hv E Hvx. apply Hall; [done|]. by apply (proj_snoc_idx e S).
    + intros Hres Hmax. specialize (Hcost Hres Hmax). lia.
  - right. exists s, (t :: mid), u, post'. pose proof (st_status _ _ _ _ _ _ _ _ _ Hst) as Hs.
    rewrite (proj2 (Z.ltb_lt s 0)) in Heq by lia. split_and!; [done| | |].
    + by eapply stopped_cons.
    + intros Hres Hlen E. cbn. right. split; [done|]. apply Hf; [done|cbn in Hlen; lia|done].
    + intros Hres Hlen. cbn [length] in Hlen. cbn. rewrite Hpt.
      apply past_resume_cons; [by apply Hrx|done|]. apply Hp; [done|lia].
Qed.

Lemma scan_step L next b resume e S : base e S -> entry e S resume pre -> 0 < b ->
  0 <= next < get cards t -> (resume = true -> next = get r t) ->
  (forall v, tup v -> proj pre v = proj pre (idx_arr e) -> get v t < next -> DoneS S v) ->
  exists e' S', S ⊆ S' /\ base e' S' /\
    (forall u, u ∈ pre -> get (idx_arr e') u = get (idx_arr e) u) /\ get (idx_arr e') t = next /\
    (iter_next L next b resume e e' S' \/ iter_stop L next b resume e e' S').
Proof.
  intros Hb Hen Hbp Hx Hrx Hlt. pose proof t_range as Ht. set (e1 := set_idx_arr e (upd (idx_arr e) t next)).
  assert (Hb1 : base e1 S) by by apply base_idx.
  assert (Hpre : forall u, u ∈ pre -> get (idx_arr e1) u = get (idx_arr e) u) by
    (intros; by apply (idx_pre e S)).
  assert (Hpt : get (idx_arr e1) t = next) by by apply (idx_t e S).
  destruct (check_step pre t post e1 e S Eo Hb1 (en_preds _ _ _ _ Hen) Hpre) as (c & Ec & Hc).
  assert (Heq : visits (next :: L) b resume e =
    if negb c then if b - 1 =? 0 then Ok (-1, set_table_ctr e1 t) else visits L (b - 1) false e1
    else if b - 1 =? 0 then Ok (-2, set_table_ctr e1 t)
    else '(next_budget, e) ← h (b - 1) resume e1;
      if next_budget <? 0 then Ok (next_budget, e) else visits L next_budget false e).
  { cbn [visits]. unfold visit. rewrite vec_set_upd by (rewrite (b_idx _ _ Hb); lia). cbn [mbind Res_bind].
    fold e1. rewrite Ec. done. }
  assert (Hstop : forall s, b = 1 -> (s = -1 /\ c = false) \/ s = -2 ->
    visits (next :: L) b resume e = Ok (s, set_table_ctr e1 t) ->
    iter_stop L next b resume e (set_table_ctr e1 t) S).
  { intros s Hb0 Hs E. exists s, [], t, post. split_and!; [done| |cbn; intros; lia|cbn; intros; lia].
    apply (stopped_here s e _ _ next); [tauto|done|done|done|]. intros v Hv Ev [?|[-> Hvx]]; [by apply Hlt|].
    destruct Hs as [[_ ->]|?]; [|lia]. intros Hval. exfalso. refine (Hc v _ Hval).
    by apply (proj_snoc_idx e S). }
  destruct (Z.eqb_spec (b - 1) 0) as [Hb0|Hb0].
  - exists (set_table_ctr e1 t), S. split_and!; [done|by apply base_ctr|done|done|right].
    destruct c; cbn in Heq; (eapply Hstop; [lia| |exact Heq]); auto.
  - destruct c; cbn [negb] in Heq.
    + apply (scan_call L next b resume e S); try done; try lia. by apply entry_snoc.
    + exists e1, S. split_and!; [done..|left]. exists (b - 1). split_and!; [done|lia|lia|done| |lia].
      intros v Hv Ev Hvx Hval. exfalso. refine (Hc v _ Hval). by apply (proj_snoc_idx e S).
Qed.

(** The loop over [L], not resuming; [next] is a lower bound of the tuples. *)
Definition loop_done (L : list Z) (b s : Z) (e e' : Engine T) (S' : gset (list Z)) : Prop :=
  0 < s <= b /\ table_ctr e' = table_ctr e /\
  (forall v, tup v -> proj pre v = proj pre (idx_arr e) -> DoneS S' v) /\
  get (idx_arr e') t = default (get (idx_arr e) t) (list.last L) /\ (L = [] -> s = b).

Definition loop_stop (next b s : Z) (e e' : Engine T) (S' : gset (list Z)) : Prop :=
  exists mid u post', stopped pre (t :: post) s e e' S' mid u post' /\
    next <= get (idx_arr e') t < get cards t /\
    (Z.of_nat (length (t :: post)) < b -> s = -2 ->
      lex_lt (next :: firsts post) (proj (mid ++ [u]) (idx_arr e') ++ zeros post')).

(** The tuples a loop goes through, in order, and no other tuple needs work. *)
Record goes_through (L : list Z) (e : Engine T) (S : gset (list Z)) : Prop := {
  gt_sorted : StronglySorted Z.le L;
  gt_range : forall x, x ∈ L -> 0 <= x < get cards t;
  gt_rest : forall v, tup v -> proj pre v = proj pre (idx_arr e) -> get v t ∉ L -> DoneS S v;
}.

Lemma goes_through_lt x L e S v : goes_through (x :: L) e S -> tup v -> proj pre v = proj pre (idx_arr e) -> get v t < x -> DoneS S v.
Proof.
  intros [Hs _ Hrest] Hv E Hvx. apply StronglySorted_inv in Hs as [_ Hx]. apply Hrest; [done..|]. intros [?|Hin]%elem_of_cons; [lia|].
  eapply list.Forall_forall in Hx; [|done]. lia.
Qed.

(** Behind the first tuple. *)
Lemma goes_through_tail x L e S e1 S1 : goes_through (x :: L) e S -> S ⊆ S1 -> proj pre (idx_arr e1) = proj pre (idx_arr e) ->
  (forall v, tup v -> proj pre v = proj pre (idx_arr e) -> get v t = x -> DoneS S1 v) -> goes_through L e1 S1.
Proof.
  intros [Hs Hr Hrest] HS E Hx. apply StronglySorted_inv in Hs as [Hs _]. split; [done|intros y Hy; apply Hr; by right|].
  intros v Hv Ev Hvn. rewrite E in Ev. destruct (decide (get v t = x)) as [Hvx|]; [by apply Hx|].
  eapply DoneS_mono; [done|]. apply Hrest; [done|done|]. by intros [?|?]%elem_of_cons.
Qed.

Lemma stopped_t_range s e e' S' mid u post' : stopped pre (t :: post) s e e' S' mid u post' ->
  0 <= get (idx_arr e') t < get cards t.
Proof.
  intros [E _ _ Hr _]. apply Hr. destruct mid as [|y mid]; injection E as -> _; by left.
Qed.

Lemma scan_list L : forall b e S, base e S -> entry e S false pre -> 0 < b -> goes_through L e S ->
  exists s e' S', visits L b false e = Ok (s, e') /\ S ⊆ S' /\ base e' S' /\
    (forall u, u ∈ pre -> get (idx_arr e') u = get (idx_arr e) u) /\
    (loop_done L b s e e' S' \/
     exists mid u post', stopped pre (t :: post) s e e' S' mid u post' /\ get (idx_arr e') t ∈ L).
Proof.
  induction L as [|x L IH]; intros b e S Hb Hen Hbp Hgt.
  { exists b, e, S. split_and!; try done. left. split_and!; [lia|lia|done| |done|done].
    intros v Hv E. apply Hgt; [done..|]. apply not_elem_of_nil. }
  pose proof (gt_range _ _ _ Hgt x ltac:(by left)) as Hxr.
  destruct (scan_step L x b false e S Hb Hen Hbp Hxr ltac:(done) (fun v => goes_through_lt x L e S v Hgt))
    as (e1 & S1 & HS1 & Hb1 & Hpre1 & Hpt1 & [(b' & Eq & Hb' & Hc1 & Hall1 & _)|(s & mid & u & post' & Eq & Hst & _ & _)]).
  - assert (Epre : proj pre (idx_arr e1) = proj pre (idx_arr e)) by by apply proj_ext.
    destruct (IH b' e1 S1) as (s & e' & S' & Eq' & HS' & Hbe' & Hpre' & Hout);
      [done|by apply (entry_mono e e1 S S1)|lia|by apply (goes_through_tail x L e S)|].
    exists s, e', S'. rewrite Eq. split_and!; [done|by etrans|done| |].
    { intros u Hu. rewrite Hpre' by done. by apply Hpre1. }
    destruct Hout as [(? & ? & Hall & Hi & _)|(mid & u & post' & Hst & Hin)].
    + left. split_and!; [lia|lia|congruence|by rewrite <- Epre| |done]. rewrite Hi, Hpt1, list.last_cons. by destruct (list.last L).
    + right. exists mid, u, post'. split; [by apply (stopped_transport s e e1)|by right].
  - exists s, e1, S1. split_and!; try done. right. exists mid, u, post'. split; [done|]. rewrite Hpt1. by left.
Qed.

(** The first tuple is not below [next], and the others are behind it. *)
Definition above (next : Z) (L : list Z) : Prop :=
  match L with [] => True | x :: L => next <= x /\ forall y, y ∈ L -> next < y end.

Lemma scan_plain next L b e S : base e S -> entry e S false pre -> 0 < b -> goes_through L e S -> above next L ->
  exists s e' S', visits L b false e = Ok (s, e') /\ S ⊆ S' /\ base e' S' /\
    (forall u, u ∈ pre -> get (idx_arr e') u = get (idx_arr e) u) /\
    (loop_done L b s e e' S' \/ loop_stop next b s e e' S').
Proof.
  intros Hb Hen Hbp Hgt Hab. destruct L as [|x L].
  { destruct (scan_list [] b e S Hb Hen Hbp Hgt) as (s & e' & S' & ? & ? & ? & ? & [?|(? & ? & ? & _ & []%not_elem_of_nil)]).
    exists s, e', S'. split_and!; try done. by left. }
  destruct Hab as [Hnx Hny]. pose proof (gt_range _ _ _ Hgt x ltac:(by left)) as Hxr.
  destruct (scan_step L x b false e S Hb Hen Hbp Hxr ltac:(done) (fun v => goes_through_lt x L e S v Hgt))
    as (e1 & S1 & HS1 & Hb1 & Hpre1 & Hpt1 & [(b' & Eq & Hb' & Hc1 & Hall1 & _)|(s & mid & u & post' & Eq & Hst & Hf & _)]).
  - assert (Epre : proj pre (idx_arr e1) = proj pre (idx_arr e)) by by apply proj_ext.
    destruct (scan_list L b' e1 S1) as (s & e' & S' & Eq' & HS' & Hbe' & Hpre' & Hout);
      [done|by apply (entry_mono e e1 S S1)|lia|by apply (goes_through_tail x L e S)|].
    exists s, e', S'. rewrite Eq. split_and!; [done|by etrans|done| |].
    { intros u Hu. rewrite Hpre' by done. by apply Hpre1. }
    destruct Hout as [(? & ? & Hall & Hi & _)|(mid & u & post' & Hst & Hin)].
    + left. split_and!; [lia|lia|congruence|by rewrite <- Epre| |done]. rewrite Hi, Hpt1, list.last_cons. by destruct (list.last L).
    + right. pose proof (Hny _ Hin). exists mid, u, post'. split_and!; [by apply (stopped_transport s e e1)|lia|by eapply stopped_t_range|].
      intros _ _. by apply (stopped_head s e1 e' S' mid u post').
  - exists s, e1, S1. split_and!; try done. right. exists mid, u, post'.
    split_and!; [done|lia|by eapply stopped_t_range|]. intros Hlen Hs. destruct (decide (next = x)) as [->|]; [by apply Hf|].
    apply (stopped_head s e e1 S1 mid u post'); [done|lia].
Qed.

Lemma maxes_le l : (forall u, u ∈ l -> get r u < get cards u) -> lex_le (proj l r) (maxes l).
Proof.
  induction l as [|u l IH]; intros Hl; [by left|]. pose proof (Hl u ltac:(by left)) as Hu.
  destruct IH as [E|Hlt]; [intros; apply Hl; by right| |];
    destruct (decide (get r u = get cards u - 1)) as [E'|].
  - left. cbn. f_equal; done.
  - right. cbn. left. lia.
  - right. cbn. right. done.
  - right. cbn. left. lia.
Qed.

Lemma maxes_inj l u : proj l r = maxes l -> u ∈ l -> get r u = get cards u - 1.
Proof.
  induction l as [|x l IH]; [by intros _ ?%not_elem_of_nil|]. cbn. intros [= E1 E2] Hu.
  apply elem_of_cons in Hu as [->|Hu]; auto.
Qed.

Lemma Forall2_fmap_self {A B} (P : A -> B -> Prop) (f : A -> B) l :
  (forall x, x ∈ l -> P x (f x)) -> Forall2 P l (f <$> l).
Proof.
  intros Hp. apply Forall2_fmap_r, Forall_Forall2_diag, Forall_forall. intros x Hx.
  by apply Hp, list_elem_of_In.
Qed.

(** A loop that starts behind the resume tuple of [t] and stops is past the
    resume point, if there is budget for it or more left to do at the resume
    tuple itself. *)
Lemma loop_past_resume b s e e' S' : tup r ->
  ((forall u, u ∈ post -> get r u = get cards u - 1) -> Z.of_nat (length (t :: post)) < b) ->
  loop_stop (get r t + 1) b s e e' S' ->
  exists mid u post', stopped pre (t :: post) s e e' S' mid u post' /\
    past_resume (t :: post) s (proj (mid ++ [u]) (idx_arr e')) post'.
Proof.
  intros Hr Hb (mid & u & post' & Hst & Hle & Hf). exists mid, u, post'. split; [done|].
  assert (Hpost : forall x, x ∈ post -> 0 <= x < n).
  { intros x Hx. apply (order_range cards order); [done|]. rewrite Eo. apply elem_of_app. right. by right. }
  pose proof (proj2 Hr t t_range) as Hrt.
  split; intros Hs; [apply (stopped_head s e e' S' mid u post'); [done|lia]|].
  destruct (maxes_le post) as [E|Hlt].
  { intros x Hx. by apply (proj2 Hr), Hpost. }
  - exists (get r t + 1 :: firsts post). split_and!; [|cbn; left; lia|].
    + constructor; [lia|]. apply Forall2_fmap_self. intros x Hx. pose proof (Hoff x (Hpost x Hx)). lia.
    + apply Hf; [|done]. apply Hb. intros x. by apply maxes_inj.
  - exists (get r t :: maxes post). split_and!; [|cbn; by right|].
    + constructor; [lia|]. apply Forall2_fmap_self. intros x Hx.
      pose proof (proj2 Hr x (Hpost x Hx)). lia.
    + apply (stopped_head s e e' S' mid u post'); [done|lia].
Qed.

Lemma done_of_loop L b b' resume s e e1 e' S' : loop_done L b' s e1 e' S' -> b' <= b ->
  table_ctr e1 = table_ctr e -> proj pre (idx_arr e1) = proj pre (idx_arr e) ->
  (pre = [] -> default (get (idx_arr e1) t) (list.last L) = get cards t - 1) ->
  (resume = true -> (forall u, u ∈ t :: post -> get r u = get cards u - 1) ->
    b - s <= Z.of_nat (length (t :: post))) ->
  done_out pre (t :: post) b resume s e e' S'.
Proof.
  intros (Hs & Hc & Hall & Hi & _) Hb Hc' E Hl Hcost. split; [lia|congruence|by rewrite <- E| |done].
  intros t' post' Hp [= <- _]. rewrite Hi. by apply Hl.
Qed.

(** No resuming: the loop starts behind the offset. *)
Lemma scan_fresh L b e S : 0 < b -> base e S -> entry e S false pre -> goes_through L e S -> above (get off t + 1) L ->
  (pre = [] -> list.last L = Some (get cards t - 1)) -> call_post pre (t :: post) b false e S (visits L b false e).
Proof.
  intros Hb Hba Hen Hgt Hab Hl.
  destruct (scan_plain (get off t + 1) L b e S) as (s & e' & S' & Eq & HS & Hb' & Hpre & Hout); [done..|].
  exists s, e', S'. split_and!; try done.
  destruct Hout as [Hd|(mid & u & post' & Hst & Hle & Hf)]; [left|right].
  - apply (done_of_loop L b b false s e e e' S'); try done. intros Hp. by rewrite Hl.
  - exists mid, u, post'. split; [done| |done]. intros _ Hlen Hs. by apply Hf.
Qed.

(** The loop starts behind the tuple of [t] at the resume point. *)
Lemma scan_skip L b e S : 0 < b -> base e S -> entry e S true pre -> goes_through L e S -> above (get r t + 1) L ->
  (pre = [] -> list.last L = Some (get cards t - 1)) -> call_post pre (t :: post) b true e S (visits L b false e).
Proof.
  intros Hb Hba Hen Hgt Hab Hl. destruct (en_resume _ _ _ _ Hen eq_refl) as (Hr & _ & _ & _).
  assert (Hen' : entry e S false pre) by (by destruct Hen; split).
  destruct (scan_plain (get r t + 1) L b e S) as (s & e' & S' & Eq & HS & Hb' & Hpre & Hout); [done..|].
  exists s, e', S'. split_and!; try done. destruct Hout as [Hd|Hst]; [left|right].
  - apply (done_of_loop L b b true s e e e' S'); try done; [intros Hp; by rewrite Hl|]. intros _ Hmax.
    destruct Hd as (_ & _ & _ & _ & Hnil). rewrite Hnil; [lia|]. destruct L as [|x L]; [done|]. exfalso.
    pose proof (Hmax t ltac:(by left)). pose proof (gt_range _ _ _ Hgt x ltac:(by left)). destruct Hab. lia.
  - destruct (decide (2 * Z.of_nat (length (t :: post)) < b)) as [Hlen|Hlen].
    + destruct (loop_past_resume b s e e' S' Hr) as (mid & u & post' & ? & ?);
        [cbn [length] in *; intros; lia|done|]. by exists mid, u, post'.
    + destruct Hst as (mid & u & post' & ? & _). by exists mid, u, post'.
Qed.

(** The tuple of [t] at the resume point is visited again, resuming. *)
Lemma scan_resume L b e S : 0 < b -> base e S -> entry e S true pre -> goes_through (get r t :: L) e S ->
  above (get r t + 1) L -> (pre = [] -> list.last (get r t :: L) = Some (get cards t - 1)) ->
  call_post pre (t :: post) b true e S (visits (get r t :: L) b true e).
Proof.
  intros Hb Hba Hen Hgt Hab Hl. destruct (en_resume _ _ _ _ Hen eq_refl) as (Hr & _ & Epr & Hdone).
  pose proof (proj2 Hr t t_range) as Hrng.
  destruct (scan_step L (get r t) b true e S Hba Hen Hb Hrng ltac:(done) (fun v => goes_through_lt _ L e S v Hgt))
    as (e1 & S1 & HS1 & Hb1 & Hpre1 & Hpt1 & [(b' & Eq & Hb' & Hc1 & Hall1 & Hcost)|(s & mid & u & post' & Eq & Hst & _ & Hp)]).
  2: { exists s, e1, S1. split_and!; try done. right. by exists mid, u, post'. }
  assert (Epre : proj pre (idx_arr e1) = proj pre (idx_arr e)) by by apply proj_ext.
  assert (Hgt1 : goes_through L e1 S1) by by apply (goes_through_tail (get r t) L e S).
  destruct (scan_plain (get r t + 1) L b' e1 S1) as (s & e' & S' & Eq' & HS' & Hbe' & Hpre' & Hout).
  { done. }
  { apply (entry_mono e e1 S S1); try done. by destruct Hen; split. }
  { lia. }
  { done. }
  { done. }
  exists s, e', S'. rewrite Eq. split_and!; [done|by etrans|done|by intros u Hu; rewrite Hpre', Hpre1|].
  destruct Hout as [Hd|Hst]; [left|right].
  - apply (done_of_loop L b b' true s e e1 e' S'); try done; [lia| |].
    + intros Hp. specialize (Hl Hp). rewrite list.last_cons in Hl. destruct (list.last L); cbn; [congruence|]. rewrite Hpt1. congruence.
    + intros _ Hmax. pose proof (Hmax t ltac:(by left)). destruct Hd as (_ & _ & _ & _ & Hnil).
      assert (L = []) as ->.
      { destruct L as [|x L]; [done|]. exfalso. pose proof (gt_range _ _ _ Hgt1 x ltac:(by left)). destruct Hab. lia. }
      rewrite Hnil by done. cbn [length]. specialize (Hcost eq_refl ltac:(intros; apply Hmax; by right)). lia.
  - destruct (decide (2 * Z.of_nat (length (t :: post)) < b)) as [Hlen|Hlen].
    + destruct (loop_past_resume b' s e1 e' S' Hr) as (mid & u & post' & ? & ?); [|done|].
      { intros Hmax. specialize (Hcost eq_refl Hmax). cbn [length] in *. lia. }
      exists mid, u, post'. split; [by apply (stopped_transport s e e1)|done|done].
    + destruct Hst as (mid & u & post' & ? & _). exists mid, u, post'.
      split; [by apply (stopped_transport s e e1)|done|done].
Qed.

(** ** The loops as lists of visits *)
Lemma scan_loop_visits k : forall next b resume e, scan_loop ptf cond h t k next b resume e = visits (seqZ next (Z.of_nat k)) b resume e.
Proof using Type.
  induction k as [|k IH]; intros next b resume e; [done|]. cbn [scan_loop]. rewrite seqZ_cons by lia. cbn [visits].
  replace (Z.pred (Z.of_nat (Datatypes.S k))) with (Z.of_nat k) by lia. unfold visit.
  destruct (vec_set _ _ _) as [idx| | |]; cbn [mbind Res_bind]; [|done..]. destruct (check_preds _ _ _ _) as [c| | |]; cbn [mbind Res_bind]; [|done..].
  rewrite IH. destruct c; cbn [negb]; [|done]. destruct (_ =? 0); [done|]. destruct (h _ _ _) as [[nb e']| | |]; cbn [mbind Res_bind]; [|done..].
  by rewrite IH.
Qed.

Lemma visit_ext x b resume (e : Engine T) k k' : (forall b e, k b e = k' b e) ->
  visit ptf cond h t x b resume e k = visit ptf cond h t x b resume e k'.
Proof using Type.
  intros Hk. unfold visit. destruct (vec_set _ _ _) as [idx| | |]; cbn [mbind Res_bind]; [|done..].
  destruct (check_preds _ _ _ _) as [c| | |]; cbn [mbind Res_bind]; [|done..]. rewrite !Hk.
  destruct c; cbn [negb]; [|done]. destruct (_ =? 0); [done|]. destruct (h _ _ _) as [[nb e']| | |]; cbn [mbind Res_bind]; [|done..]. by rewrite Hk.
Qed.

Lemma result_loop_visits L2 next : (forall b e, next b e = visits L2 b false e) -> forall L1 b resume e, (L1 = [] -> resume = false) ->
  result_loop ptf cond h t L1 b resume e next = visits (L1 ++ L2) b resume e.
Proof using Type.
  intros Hn. induction L1 as [|x L1 IH]; intros b resume e Hr; cbn [result_loop app visits]; [by rewrite (Hr eq_refl)|].
  apply visit_ext. intros b' e'. by apply IH.
Qed.

Lemma index_loop_visits bs resume prog n cursors L : enumerates bs result_max_size n cursors L ->
  forall fuel result b e, (n + 2 <= fuel)%nat -> (result = [] -> L = []) ->
  (resume = true -> forall x, x ∈ L -> prog < x) ->
  index_loop ptf cond fuel h t bs cursors result b resume prog e =
  visits (result ++ L) b (resume && match result with [] => false | x :: _ => x =? prog end) e.
Proof using Type.
  intros He. induction He as [ss ss' Hc|n ss out ss' L Hout Hc He IH]; intros fuel result b e Hf Hnil Hprog;
    (destruct fuel as [|fuel]; [lia|]); cbn [index_loop]; (destruct result as [|first result]; [pose proof (Hnil eq_refl); first [done|by destruct out]|]).
  - apply result_loop_visits; [|done]. intros b' e'. rewrite Hc. cbn [mbind Res_bind]. destruct fuel as [|fuel]; [lia|]. done.
  - apply result_loop_visits; [|done]. intros b' e'. rewrite Hc. cbn [mbind Res_bind].
    rewrite IH; [|lia|by destruct out|intros Hr x Hx; apply Hprog; [done|apply elem_of_app; by right]].
    f_equal. destruct out as [|x out]; [done|]. destruct resume; [|done]. cbn [andb]. apply Z.eqb_neq.
    pose proof (Hprog eq_refl x ltac:(by left)). lia.
Qed.

(** ** The buckets of a table *)

(** No combination that extends the prefix and has no tuple of [l] is valid. *)
Definition leaves (e : Engine T) (l : list Z) : Prop :=
  (forall x, x ∈ l -> 0 <= x < get cards t) /\
  forall v, tup v -> proj pre v = proj pre (idx_arr e) -> get v t ∉ l -> ~ valid v.

Definition buckets_leave (e : Engine T) (bs : list ColumnIndexBucket) (ls : list (list Z)) : Prop :=
  buckets_ok bs ls /\ (pre = [] -> bs = []) /\ forall l, l ∈ ls -> leaves e l.

Lemma flagged_bucket e S resume p f : base e S -> entry e S resume pre -> ptf !! (p, t) = Some f ->
  IsEqualityPredicate cond p = true -> get (flag_arr e) f <> 0 ->
  pre <> [] /\
  match index_bucket cond p t (idx_arr e) with
  | None => leaves e []
  | Some b => exists l, holds b l /\ incr l /\ vec_size l <= 2 ^ 30 /\ leaves e l
  end.
Proof.
  intros Hb Hen Hf Heq Hfl. pose proof (po_index Hpo) as Hix.
  pose proof (proj1 (proj2 (b_flags _ _ Hb p t f Hf)) Hfl) as (pre' & post' & E' & Hall).
  destruct (order_split_eq _ _ _ _ _ Eo E') as [<- <-].
  assert (Hothers : forall u g, ptf !! (p, u) = Some g -> u <> t -> u ∈ pre).
  { intros u g Hu Hne. pose proof (Hall u g Hu) as [?| ->%list_elem_of_singleton]%elem_of_app; done. }
  assert (Hval : forall v, tup v -> proj pre v = proj pre (idx_arr e) -> cond p v = cond p (upd (idx_arr e) t (get v t))).
  { intros v Hv E. apply (po_local Hpo). intros u g Hu. destruct (decide (u = t)) as [->|Hne].
    - symmetry. by apply (idx_t e S).
    - rewrite (idx_pre e S) by (done || by eapply Hothers). pose proof (Hothers u g Hu Hne) as Hin.
      apply list_elem_of_lookup in Hin as [i Hi]. assert (El : proj pre v !! i = proj pre (idx_arr e) !! i) by (by rewrite E).
      unfold proj in El. rewrite !list_lookup_fmap, Hi in El. by injection El. }
  assert (Hinv : forall v, valid v -> cond p v = Some true) by (intros v Hv; apply Hv; by eapply (po_range Hpo)).
  split.
  { intros ->. destruct (ix_two Hix p t f Heq Hf) as (u & g & Hne & Hu). by apply (Hothers u g), not_elem_of_nil in Hu. }
  pose proof (ix_bucket Hix p t f (idx_arr e) Heq Hf (b_idx _ _ Hb)) as Hbk.
  specialize (Hbk ltac:(intros u g Hu Hne; apply (en_range _ _ _ _ Hen); by eapply Hothers)).
  destruct (index_bucket cond p t (idx_arr e)) as [b|].
  - destruct Hbk as (l & Hh' & Hi & Hz & Hl). exists l. split_and!; [done..|]. split.
    + intros x Hx. by apply Hl in Hx as [? _].
    + intros v Hv E Hn Hvv. apply Hn, Hl. split; [apply Hv, t_range|]. rewrite <- Hval by done. by apply Hinv.
  - split; [by intros x []%not_elem_of_nil|]. intros v Hv E _ Hvv. apply (Hbk (get v t)); [apply Hv, t_range|].
    rewrite <- Hval by done. by apply Hinv.
Qed.

Lemma collect_from e S resume : base e S -> entry e S resume pre -> forall preds bs ls,
  (forall q, q ∈ preds -> q ∈ map_to_list ptf) ->
  vec_size bs + vec_size (filter (fun q : Z * Z * Z => q.1.2 = t /\ IsEqualityPredicate cond q.1.1 = true) preds) <= bucket_list_max_size cond ->
  buckets_leave e bs ls ->
  exists o, collect_buckets cond t e preds bs = Ok o /\
    match o with
    | None => pre <> [] /\ leaves e []
    | Some bs' => exists ls', buckets_leave e bs' ls'
    end.
Proof.
  intros Hb Hen. induction preds as [|[[p u] f] preds IH]; intros bs ls Hin Hroom Hbl; cbn [collect_buckets].
  { exists (Some bs). split; [done|]. by exists ls. }
  assert (Hin' : forall q, q ∈ preds -> q ∈ map_to_list ptf) by (intros; apply Hin; by right).
  assert (Hf : ptf !! (p, u) = Some f) by (apply elem_of_map_to_list, Hin; by left).
  destruct (Z.eqb_spec u t) as [->|Hne]; cbn [andb].
  2: { apply (IH bs ls); [done| |done]. by rewrite filter_cons_False in Hroom by (cbn; by intros [? _]). }
  destruct (IsEqualityPredicate cond p) eqn:Heq; cbn [andb].
  2: { apply (IH bs ls); [done| |done]. rewrite filter_cons_False in Hroom; [done|]. cbn. intros [_ ?]. congruence. }
  rewrite filter_cons_True in Hroom by done. unfold vec_size in Hroom at 2. cbn [length] in Hroom. rewrite Nat2Z.inj_succ in Hroom.
  fold (vec_size (filter (fun q : Z * Z * Z => q.1.2 = t /\ IsEqualityPredicate cond q.1.1 = true) preds)) in Hroom.
  rewrite vec_at_get by by apply (b_flags _ _ Hb p t f Hf). cbn [mbind Res_bind].
  destruct (Z.eqb_spec (get (flag_arr e) f) 0) as [Hz|Hnz]; [apply (IH bs ls); [done|lia|done]|].
  destruct (flagged_bucket e S resume p f Hb Hen Hf Heq Hnz) as [Hpre Hbk].
  destruct (index_bucket cond p t (idx_arr e)) as [b|]; [|by exists None].
  destruct Hbk as (l & Hh' & Hi & Hsz & Hl).
  assert (0 <= vec_size (filter (fun q : Z * Z * Z => q.1.2 = t /\ IsEqualityPredicate cond q.1.1 = true) preds)) by (unfold vec_size; lia).
  rewrite (proj2 (Z.leb_gt _ _)) by lia. unfold DoesNotExist. case_bool_decide as Hd.
  { exists None. split_and!; try done. assert (l = []) as ->; [|done]. destruct Hh' as [_ Ht]. rewrite Hd, take_nil in Ht. by destruct l. }
  apply (IH (bs ++ [b]) (ls ++ [l])); [done| |].
  - unfold vec_size in *. rewrite length_app. cbn. lia.
  - destruct Hbl as ([HF Hall] & _ & Hlv). split_and!; [split|done|].
    + apply Forall2_app; [done|]. by constructor.
    + intros l' [?| ->%list_elem_of_singleton]%elem_of_app; [by apply Hall|done].
    + intros l' [?| ->%list_elem_of_singleton]%elem_of_app; [by apply Hlv|done].
Qed.

Lemma collect_ok e S resume : base e S -> entry e S resume pre ->
  exists o, collect_buckets cond t e (map_to_list ptf) [] = Ok o /\
    match o with
    | None => pre <> [] /\ leaves e []
    | Some bs => exists ls, buckets_leave e bs ls
    end.
Proof.
  intros Hb Hen. apply (collect_from e S resume Hb Hen _ [] []); [done| |].
  - apply (ix_room (po_index Hpo) t).
  - split_and!; [split; [constructor|by intros ? []%not_elem_of_nil]|done|by intros ? []%not_elem_of_nil].
Qed.

(** A predicate leaves no tuple. *)
Lemma no_bucket_ok b resume e S : 0 < b -> base e S -> entry e S resume pre -> pre <> [] -> leaves e [] ->
  call_post pre (t :: post) b resume e S (no_bucket t (get cards t) b e).
Proof.
  intros Hb Hba Hen Hpre [_ Hno]. pose proof t_range as Ht. pose proof (po_cards Hpo t Ht) as Hc.
  assert (Hall : forall v, tup v -> proj pre v = proj pre (idx_arr e) -> DoneS S v).
  { intros v Hv E Hvv. exfalso. apply (Hno v Hv E); [apply not_elem_of_nil|done]. }
  unfold no_bucket. destruct (Z.eqb_spec (b - 1) 0) as [Hz|Hnz].
  - rewrite vec_set_upd by (rewrite (b_idx _ _ Hba); lia). cbn [mbind Res_bind].
    set (e1 := set_idx_arr e (upd (idx_arr e) t (get cards t - 1))). exists (-1), (set_table_ctr e1 t), S.
    split_and!; [done|done|by apply base_ctr, base_idx|intros u Hu; by apply (idx_pre e S)|right].
    exists [], t, post. split; [|done|intros; cbn [length] in *; lia].
    apply (stopped_here _ e _ _ (get cards t - 1)); [by left|done|by apply (idx_t e S)|lia|]. intros v Hv E _. by apply Hall.
  - exists (b - 1), e, S. split_and!; try done. left. split; [lia|done|done|done|]. intros _ _. cbn [length]. lia.
Qed.

(** ** The tuples a call goes through *)

(** The tuples before the first one of a call are done. *)
Definition first_tuple (resume : bool) : Z :=
  let progress := if resume then get r t else 0 in
  if progress <? get off t + 1 then get off t + 1 else progress.

Lemma before_first e S resume v : entry e S resume pre -> tup v -> proj pre v = proj pre (idx_arr e) ->
  get v t < first_tuple resume -> DoneS S v.
Proof.
  intros Hen Hv E Hlt. pose proof t_range as Ht. pose proof (Hoff t Ht). pose proof (proj2 Hv t Ht).
  destruct (decide (get v t <= get off t)) as [Hle|Hle]; [by apply (en_off _ _ _ _ Hen t v Ht)|].
  unfold first_tuple in Hlt. destruct resume; [|destruct (0 <? get off t + 1); lia].
  destruct (en_resume _ _ _ _ Hen eq_refl) as (Hr & _ & Epr & Hdone). apply Hdone; [done|].
  rewrite Eo, !proj_app. apply lex_lt_app; [by rewrite !length_proj|]. right. split; [congruence|]. cbn. left.
  destruct (get r t <? get off t + 1); lia.
Qed.

Lemma goes_all e S resume : entry e S resume pre -> 0 <= first_tuple resume ->
  goes_through (seqZ (first_tuple resume) (get cards t - first_tuple resume)) e S.
Proof.
  intros Hen H0. split.
  - apply StronglySorted_incr. intros i j x y Hx Hy Hij. apply lookup_seqZ in Hx as [-> ?], Hy as [-> ?]. lia.
  - intros x Hx%elem_of_seqZ. lia.
  - intros v Hv E Hn. apply (before_first e S resume); [done..|]. destruct (decide (get v t < first_tuple resume)); [done|].
    exfalso. apply Hn, elem_of_seqZ. pose proof (proj2 Hv t t_range). lia.
Qed.

Lemma goes_common e S resume bs ls L : entry e S resume pre -> buckets_leave e bs ls -> bs <> [] -> StronglySorted Z.le L ->
  (forall x, x ∈ L <-> x ∈ common ls (first_tuple resume)) -> goes_through L e S.
Proof.
  intros Hen (Hok & _ & Hlv) Hne Hs HL.
  assert (Hls : ls <> []) by (destruct Hok as [HF _]; by destruct HF). split; [done| |].
  - intros x Hx%HL%common_elem; [|done]. destruct Hx as [_ Hall]. destruct ls as [|l ls]; [done|].
    apply list.Forall_cons in Hall as [Hxl _]. by apply (proj1 (Hlv l ltac:(by left))).
  - intros v Hv E Hn. destruct (decide (get v t < first_tuple resume)) as [Hlt|Hge]; [by apply (before_first e S resume)|].
    intros Hvv. exfalso. apply Hn, HL, common_elem; [done|]. split; [lia|].
    apply list.Forall_forall. intros l Hl. destruct (decide (get v t ∈ l)); [done|]. exfalso. by apply (proj2 (Hlv l Hl) v).
Qed.

(** Of the tuples a loop goes through, the first two come once. *)
Definition strict2 (L : list Z) : Prop :=
  forall i j x y, (i < 2)%nat -> (i < j)%nat -> L !! i = Some x -> L !! j = Some y -> x < y.

Lemma strict2_incr L : incr L -> strict2 L.
Proof. intros Hi i j x y _ Hij Hx Hy. by apply (Hi i j). Qed.

Lemma strict2_batches C L : incr C -> let out := take (Z.to_nat result_max_size) C in
  StronglySorted Z.le (out ++ L) -> (vec_size C < result_max_size -> L = []) -> strict2 (out ++ L).
Proof.
  intros Hi out Hs Hnil i j x y Hi2 Hij Hx Hy.
  assert (Hio : incr out) by (intros a b u w Hu Hw; apply lookup_take_Some in Hu as [Hu _], Hw as [Hw _]; by apply (Hi a b)).
  destruct (decide (vec_size C < result_max_size)) as [Hlt|Hge].
  { rewrite (Hnil Hlt), app_nil_r in Hx, Hy. by apply (Hio i j). }
  assert (Hlen : length out = 64%nat) by (unfold out, result_max_size, vec_size in *; rewrite length_take; lia).
  rewrite lookup_app_l in Hx by lia. destruct (decide (j < 64)%nat) as [Hj|Hj].
  { rewrite lookup_app_l in Hy by lia. by apply (Hio i j). }
  rewrite lookup_app_r in Hy by lia. apply list_elem_of_lookup_2 in Hy.
  destruct (lookup_lt_is_Some_2 out 63) as [z Hz]; [lia|].
  assert (x < z) by (apply (Hio i 63%nat); [done|done|lia]). assert (z <= y); [|lia].
  apply list_elem_of_lookup_2 in Hz. clear -Hs Hz Hy. induction out as [|w out IH]; [by apply not_elem_of_nil in Hz|].
  cbn in Hs. apply StronglySorted_inv in Hs as [Hs Hw]. apply elem_of_cons in Hz as [->|Hz]; [|by apply IH].
  eapply list.Forall_forall in Hw; [exact Hw|]. apply elem_of_app. by right.
Qed.

Lemma above_strict next L : strict2 L -> (forall x, x ∈ L -> next <= x) -> above next L.
Proof.
  intros Hs Hn. destruct L as [|x L]; [done|]. pose proof (Hn x ltac:(by left)). cbn. split; [done|].
  intros y [j Hj]%list_elem_of_lookup. pose proof (Hs 0%nat (Datatypes.S j) x y ltac:(lia) ltac:(lia) eq_refl Hj). lia.
Qed.

Lemma above_tail x L : strict2 (x :: L) -> above (x + 1) L.
Proof.
  intros Hs. destruct L as [|y L]; [done|]. pose proof (Hs 0%nat 1%nat x y ltac:(lia) ltac:(lia) eq_refl eq_refl). cbn. split; [lia|].
  intros z [j Hj]%list_elem_of_lookup. pose proof (Hs 1%nat (Datatypes.S (Datatypes.S j)) y z ltac:(lia) ltac:(lia) eq_refl Hj). lia.
Qed.

(** Going through [L]: resuming when its first tuple is that of the resume point. *)
Lemma visits_ok L b resume e S : 0 < b -> base e S -> entry e S resume pre -> goes_through L e S -> strict2 L ->
  (forall x, x ∈ L -> first_tuple resume <= x) -> (pre = [] -> list.last L = Some (get cards t - 1)) ->
  call_post pre (t :: post) b resume e S
    (visits L b (resume && match L with [] => false | x :: _ => x =? get r t end) e).
Proof.
  intros Hb Hba Hen Hgt Hs Hge Hl. pose proof (Hoff t t_range) as Ho'. destruct resume; cbn [andb].
  - destruct (en_resume _ _ _ _ Hen eq_refl) as (Hr & Hor & _ & _). specialize (Hor t t_range).
    assert (get r t <= first_tuple true) by (unfold first_tuple; destruct (Z.ltb_spec (get r t) (get off t + 1)); lia).
    destruct L as [|x L]; [by apply (scan_skip [])|]. destruct (Z.eqb_spec x (get r t)) as [->|Hne].
    + apply scan_resume; [done..|by apply above_tail|done].
    + apply scan_skip; try done. apply above_strict; [done|]. intros y Hy. pose proof (Hge x ltac:(by left)).
      apply elem_of_cons in Hy as [->|[j Hj]%list_elem_of_lookup]; [lia|].
      pose proof (Hs 0%nat (Datatypes.S j) x y ltac:(lia) ltac:(lia) eq_refl Hj). lia.
  - apply scan_fresh; try done. apply above_strict; [done|]. intros x Hx%Hge. unfold first_tuple in Hx.
    destruct (Z.ltb_spec 0 (get off t + 1)); lia.
Qed.

Lemma scan_all_ok b resume e S : 0 < b -> base e S -> entry e S resume pre ->
  call_post pre (t :: post) b resume e S
    (scan_loop ptf cond h t (Z.to_nat (get cards t - first_tuple resume)) (first_tuple resume) b
      (resume && (first_tuple resume =? (if resume then get r t else 0))) e).
Proof.
  intros Hb Hba Hen. pose proof t_range as Ht. pose proof (Hoff t Ht) as Ho'. pose proof (po_cards Hpo t Ht) as Hc.
  assert (H0 : 0 <= first_tuple resume < get cards t).
  { unfold first_tuple. destruct resume; [|destruct (Z.ltb_spec 0 (get off t + 1)); lia].
    destruct (en_resume _ _ _ _ Hen eq_refl) as (Hr & _). pose proof (proj2 Hr t Ht). destruct (Z.ltb_spec (get r t) (get off t + 1)); lia. }
  rewrite scan_loop_visits, Z2Nat.id by lia. set (L := seqZ _ _).
  assert (Hcons : L = first_tuple resume :: seqZ (first_tuple resume + 1) (get cards t - first_tuple resume - 1)).
  { subst L. by rewrite seqZ_cons by lia. }
  replace (resume && (first_tuple resume =? (if resume then get r t else 0)))
    with (resume && match L with [] => false | x :: _ => x =? get r t end) by (rewrite Hcons; by destruct resume).
  apply visits_ok; try done.
  - apply (goes_all e S resume); [done|lia].
  - apply strict2_incr. intros i j x y Hx Hy Hij. apply lookup_seqZ in Hx as [-> ?], Hy as [-> ?]. lia.
  - intros x Hx%elem_of_seqZ. lia.
  - intros _. subst L. replace (get cards t - first_tuple resume) with (get cards t - first_tuple resume - 1 + 1) by lia.
    rewrite seqZ_app by lia. replace (seqZ _ 1) with [get cards t - 1]; [by rewrite list.last_snoc|].
    rewrite seqZ_cons, seqZ_nil by lia. f_equal. lia.
Qed.

Lemma index_ok_call b resume e S bs ls : 0 < b -> base e S -> entry e S resume pre -> buckets_leave e bs ls -> bs <> [] ->
  call_post pre (t :: post) b resume e S
    (cursors ← BucketListSortedIntersectionInit bs (first_tuple resume);
     '(result, cursors) ← BucketListSortedIntersectionPopulateResult bs cursors result_max_size;
     index_loop ptf cond (Datatypes.S (Datatypes.S (rounds bs))) h t bs cursors result b resume (if resume then get r t else 0) e).
Proof.
  intros Hb Hba Hen Hbl Hne. pose proof Hbl as (Hok & Hp0 & _).
  destruct (intersection_read bs ls (first_tuple resume) result_max_size Hok Hne) as (ss & ss' & n & L & Hi & Hc & He & Hn & Hs & HL & Hnil);
    [unfold result_max_size; lia|].
  rewrite Hi. cbn [mbind Res_bind]. rewrite Hc. cbn [mbind Res_bind]. set (out := take _ _) in *.
  assert (Hls : ls <> []) by (destruct Hok as [HF _]; by destruct HF).
  assert (Hinc : incr (common ls (first_tuple resume))) by by eapply common_incr.
  pose proof (strict2_batches _ L Hinc Hs Hnil) as Hst. fold out in Hst.
  assert (Hge : forall x, x ∈ out ++ L -> first_tuple resume <= x) by (intros x Hx%HL; by apply common_elem in Hx as [? _]).
  assert (Hlong : out = [] -> L = []).
  { intros Eo'. apply Hnil. assert (common ls (first_tuple resume) = []) as ->; [|done].
    apply (f_equal length) in Eo'. unfold out in Eo'. rewrite length_take in Eo'. cbn [length] in Eo'.
    destruct (common ls (first_tuple resume)); [done|]. unfold result_max_size in Eo'. cbn [length] in Eo'. lia. }
  assert (Hprog : resume = true -> forall x, x ∈ L -> get r t < x).
  { intros -> x Hx. assert (get r t <= first_tuple true) by (unfold first_tuple; destruct (Z.ltb_spec (get r t) (get off t + 1)); lia).
    destruct out as [|y out]; [rewrite Hlong in Hx by done; by apply not_elem_of_nil in Hx|].
    pose proof (Hge y ltac:(by left)). apply list_elem_of_lookup in Hx as [j Hj].
    assert (y < x); [|lia]. apply (Hst 0%nat (Datatypes.S (length out + j)) y x); [lia|lia|done|].
    rewrite lookup_app_r by (cbn [length]; lia). rewrite <- Hj. f_equal. cbn [length]. lia. }
  rewrite (index_loop_visits bs resume _ n ss' L) by (done || lia || (destruct resume; [by apply Hprog|done])).
  replace (resume && match out with [] => false | x :: _ => x =? (if resume then get r t else 0) end)
    with (resume && match out ++ L with [] => false | x :: _ => x =? get r t end).
  2: { destruct resume; [|done]. destruct out; [by rewrite Hlong|done]. }
  apply visits_ok; try done.
  - by apply (goes_common e S resume bs ls).
  - intros Hp. by specialize (Hp0 Hp).
Qed.
End table.

(** ** The function of a table *)
Lemma table_function_ok depth pre t post : order = pre ++ t :: post -> (length post < depth)%nat ->
  call_ok pre (t :: post) (table_function cards ptf cond depth t).
Proof.
  revert pre t post. induction depth as [|depth IH]; intros pre t post Eo Hd; [lia|].
  assert (Ht : 0 <= t < n) by by apply (t_range pre t post).
  set (h := match head post with Some t' => table_function cards ptf cond depth t' | None => valid_tuple_handler end).
  assert (Hh : call_ok (pre ++ [t]) post h).
  { destruct post as [|t' post]; subst h; cbn.
    - rewrite <- Eo. apply handler_ok.
    - apply IH; [by rewrite <- app_assoc|cbn in Hd; lia]. }
  intros b resume e S Hb Hba Hen. cbn [table_function]. rewrite (b_handlers _ _ Hba _ _ _ Eo).
  cbn [mbind Res_bind]. fold h. rewrite (vec_at_get cards) by lia. cbn [mbind Res_bind].
  destruct (collect_ok pre t post Eo h Hh e S resume Hba Hen) as ([bs|] & -> & Hc); cbn [mbind Res_bind].
  2: { destruct Hc as [Hpre Hl]. by apply no_bucket_ok. }
  destruct Hc as [ls Hbl]. rewrite (b_off _ _ Hba), (b_prog _ _ Hba).
  replace (if resume then vec_at r t else Ok 0) with (Ok (if resume then get r t else 0)).
  2: { destruct resume; [|done]. destruct (en_resume _ _ _ _ Hen eq_refl) as (Hr & _). by rewrite (vec_at_get r) by (rewrite (proj1 Hr); lia). }
  cbn [mbind Res_bind]. rewrite (vec_at_get off) by lia. cbn [mbind Res_bind]. fold (first_tuple t resume).
  destruct (Z.ltb_spec 0 (vec_size bs)) as [Hsz|Hsz].
  - apply (index_ok_call pre t post Eo h Hh b resume e S bs ls); try done. by intros ->.
  - by apply (scan_all_ok pre t post Eo h Hh).
Qed.
End scan.
