(* ===== verification/SkinnerEpisode.v ===== *)
(** * Skinner join: one episode

    [Execute] of the join environment for one join order: setting up the
    handlers, the predicate flags and the resume point, running the table
    functions (SkinnerScan), computing the last completed tuple and recording it
    (SkinnerState).  An episode with a budget of more than two steps per table
    keeps the invariant of the recorded progress, never throws, and gets
    strictly behind the point it resumed from. *)
From S2P Require Import Prelude ProgramBuilder SkinnerState SkinnerExec SkinnerScan.

(** ** Setting up an order *)
Lemma set_handlers_spec order (hs : list (option Z)) : NoDup order ->
  (forall t, t ∈ order -> 0 <= t < vec_size hs) ->
  exists hs', set_handlers hs order = Ok hs' /\ vec_size hs' = vec_size hs /\
    (forall t, 0 <= t -> t ∉ order -> vec_at hs' t = vec_at hs t) /\
    forall pre t post, order = pre ++ t :: post -> vec_at hs' t = Ok (head post).
Proof.
  revert hs. induction order as [|u order IH]; intros hs Hnd Hr; cbn [set_handlers].
  { exists hs. split_and!; try done. by intros [|? ?] ? ? ?. }
  apply list.NoDup_cons in Hnd as [Hu Hnd]. assert (Hur : 0 <= u < vec_size hs) by (apply Hr; by left).
  unfold vec_size in Hur. destruct (lookup_lt_is_Some_2 hs (Z.to_nat u)) as [h0 Hh0]; [lia|].
  rewrite (vec_set_lookup hs u _ h0) by (done || lia). cbn [mbind Res_bind].
  assert (Hsz : forall x, vec_size (<[Z.to_nat u := x]> hs) = vec_size hs) by
    (intros; unfold vec_size; by rewrite length_insert).
  destruct (IH (<[Z.to_nat u := head order]> hs)) as (hs' & -> & Hl & Hout & Hin);
    [done|intros t Ht; rewrite Hsz; apply Hr; by right|].
  exists hs'. split_and!; [done|by rewrite Hl, Hsz| |].
  - intros t Ht Hn. apply not_elem_of_cons in Hn as [Hne Hn]. rewrite Hout by done. unfold vec_at.
    destruct (t <? 0); [done|]. by rewrite list_lookup_insert_ne by lia.
  - intros [|x pre] t post; cbn; intros E; injection E as -> E.
    + rewrite Hout, E by (done || lia). apply vec_at_Ok. split; [lia|].
      rewrite list_lookup_insert_eq by lia. done.
    + by eapply Hin.
Qed.

Lemma resume_loop_spec last off prog offs ts :
  (forall t, t ∈ ts -> 0 <= t < vec_size last /\ t < vec_size off /\ t < vec_size prog /\ t < vec_size offs) ->
  exists prog' offs', resume_loop last off prog offs ts = Ok (prog', offs') /\
    vec_size prog' = vec_size prog /\ vec_size offs' = vec_size offs /\
    (forall u, 0 <= u -> get prog' u = if decide (u ∈ ts) then Z.max (get off u) (get last u) else get prog u) /\
    (forall u, 0 <= u -> get offs' u = if decide (u ∈ ts) then get off u else get offs u).
Proof.
  revert prog offs. induction ts as [|t ts IH]; intros prog offs Hr; cbn [resume_loop].
  { exists prog, offs. split_and!; try done. }
  destruct (Hr t ltac:(by left)) as (? & ? & ? & ?).
  rewrite (vec_at_get off), (vec_at_get last) by lia. cbn [mbind Res_bind].
  rewrite !vec_set_upd by lia. cbn [mbind Res_bind].
  destruct (IH (upd prog t (Z.max (get off t) (get last t))) (upd offs t (get off t)))
    as (prog' & offs' & -> & Hp & Ho & Hgp & Hgo).
  { intros u Hu. rewrite !vec_size_upd. apply Hr. by right. }
  rewrite vec_size_upd in Hp, Ho. exists prog', offs'. split_and!; try done; intros u Hu.
  - rewrite Hgp, get_upd by lia. apply (decide_cons u t ts (fun u => Z.max (get off u) (get last u))).
  - rewrite Hgo, get_upd by lia. apply (decide_cons u t ts (get off)).
Qed.

(** ** The last completed tuple *)
Lemma copy_idx_spec idx last ts : (forall t, t ∈ ts -> 0 <= t < vec_size idx /\ t < vec_size last) ->
  exists l, copy_idx idx last ts = Ok l /\ vec_size l = vec_size last /\
    forall u, 0 <= u -> get l u = if decide (u ∈ ts) then get idx u else get last u.
Proof.
  revert last. induction ts as [|t ts IH]; intros last Hr; cbn [copy_idx].
  { exists last. split_and!; try done. }
  destruct (Hr t ltac:(by left)). rewrite (vec_at_get idx) by lia. cbn [mbind Res_bind].
  rewrite vec_set_upd by lia. cbn [mbind Res_bind].
  destruct (IH (upd last t (get idx t))) as (l & -> & Hl & Hg).
  { intros u Hu. rewrite vec_size_upd. apply Hr. by right. }
  rewrite vec_size_upd in Hl. exists l. split_and!; try done. intros u Hu.
  rewrite Hg, get_upd by lia. apply (decide_cons u t ts (get idx)).
Qed.

Lemma fill_last_spec cards last ts : (forall t, t ∈ ts -> 0 <= t < vec_size cards /\ t < vec_size last) ->
  exists l, fill_last cards last ts = Ok l /\ vec_size l = vec_size last /\
    forall u, 0 <= u -> get l u = if decide (u ∈ ts) then get cards u - 1 else get last u.
Proof.
  revert last. induction ts as [|t ts IH]; intros last Hr; cbn [fill_last].
  { exists last. split_and!; try done. }
  destruct (Hr t ltac:(by left)). rewrite (vec_at_get cards) by lia. cbn [mbind Res_bind].
  rewrite vec_set_upd by lia. cbn [mbind Res_bind].
  destruct (IH (upd last t (get cards t - 1))) as (l & -> & Hl & Hg).
  { intros u Hu. rewrite vec_size_upd. apply Hr. by right. }
  rewrite vec_size_upd in Hl. exists l. split_and!; try done. intros u Hu.
  rewrite Hg, get_upd by lia. apply (decide_cons u t ts (fun u => get cards u - 1)).
Qed.

Lemma find_ctr_notin u i k order : u ∉ order -> find_ctr u i k order = k.
Proof.
  revert i k. induction order as [|t order IH]; intros i k Hn; [done|]. cbn.
  apply not_elem_of_cons in Hn as [Hne Hn]. rewrite (proj2 (Z.eqb_neq u t)) by done. by apply IH.
Qed.

Lemma find_ctr_spec u i k pre post : NoDup (pre ++ u :: post) ->
  find_ctr u i k (pre ++ u :: post) = i + vec_size pre.
Proof.
  revert i k. induction pre as [|t pre IH]; intros i k Hnd; cbn in *;
    apply list.NoDup_cons in Hnd as [Hn Hnd].
  - rewrite Z.eqb_refl, find_ctr_notin by done. unfold vec_size. cbn. lia.
  - rewrite IH by done. unfold vec_size. cbn. lia.
Qed.

(** With a predecessor to go to, wrapping never happens. *)
Lemma decrement_wrap_eq cards last l ro : ro <> [] -> decrement cards last ro = Ok (Some l) ->
  decrement_wrap cards last ro = Ok l.
Proof.
  revert last. induction ro as [|t ro IH]; intros last Hne; [done|].
  cbn [decrement decrement_wrap]. destruct (vec_at last t) as [x| | |]; cbn [mbind Res_bind]; try done.
  destruct (x =? 0).
  - destruct ro as [|t' ro]; [done|].
    destruct (vec_at cards t) as [c| | |]; cbn [mbind Res_bind]; try done.
    destruct (vec_set last t (c - 1)); cbn [mbind Res_bind]; try done. by apply IH.
  - destruct (vec_set last t (x - 1)); cbn [mbind Res_bind]; try done. by intros [= ->].
Qed.

Section episode.
Context {T : Type} `{TupleSet T}.
Context (env : Environment) (cond : JoinCode).
Local Abbreviation cards := (env_cards env).
Local Abbreviation ptf := (env_flags env).
Local Abbreviation np := (num_preds env).
Local Abbreviation n := (vec_size cards).

(** The environment the translator sets up: predicates over their tables, and
    one flag per predicate and table. *)
Record env_ok : Prop := {
  eo_preds : preds_ok cards np ptf cond;
  eo_nonempty : cards <> [];
  eo_flag : forall p t f, ptf !! (p, t) = Some f -> 0 <= f < num_flags env;
  eo_inj : forall p t p' t' f, ptf !! (p, t) = Some f -> ptf !! (p', t') = Some f -> p = p' /\ t = t';
}.
Context (Henv : env_ok).

(** ** The predicate flags *)
Definition covered (p : Z) (ts : list Z) : Prop := forall t f, ptf !! (p, t) = Some f -> t ∈ ts.

Lemma covered_dec p available :
  forallb (fun t => bool_decide (ptf !! (p, t) = None) || bool_decide (t ∈ available)) (seqZ 0 n)
    = true <-> covered p available.
Proof.
  rewrite forallb_elem. split.
  - intros Hall t f Hf. pose proof (po_range _ _ _ _ (eo_preds Henv) _ _ _ Hf) as [_ Ht].
    specialize (Hall t ltac:(apply elem_of_seqZ; lia)). rewrite Hf in Hall. cbn in Hall.
    by apply bool_decide_eq_true in Hall.
  - intros Hc t _. destruct (ptf !! (p, t)) as [f|] eqn:E; [|done]. cbn. apply bool_decide_eq_true.
    by eapply Hc.
Qed.

(** The flags after the tables [pre], and for [t] after the predicates [ps]. *)
Record toggled (order pre : list Z) (t : Z) (ps : list Z) (executed : gset Z) (flags : list Z) : Prop := {
  tg_exec : forall p, 0 <= p < np -> p ∈ executed <-> covered p pre \/ (p ∈ ps /\ covered p (pre ++ [t]));
  tg_size : vec_size flags = num_flags env;
  tg_flags : forall p u f, ptf !! (p, u) = Some f ->
    get flags f <> 0 <-> last_table ptf order p u /\ (u ∈ pre \/ (u = t /\ p ∈ ps));
}.

Lemma toggle_preds_spec order pre t post available executed flags ps qs :
  is_order cards order -> order = pre ++ t :: post -> (forall u, u ∈ available <-> u ∈ pre ++ [t]) ->
  (forall p, p ∈ qs -> 0 <= p < np) ->
  toggled order pre t ps executed flags ->
  exists executed' flags', toggle_preds env n available t executed flags qs = Ok (executed', flags') /\
    toggled order pre t (ps ++ qs) executed' flags'.
Proof.
  intros Ho Eo Hav. revert executed flags ps. induction qs as [|p qs IH]; intros executed flags ps Hq Ht;
    cbn [toggle_preds].
  { exists executed, flags. split; [done|]. by rewrite app_nil_r. }
  pose proof (order_nodup cards order Ho) as Hnd. rewrite Eo in Hnd.
  apply list.NoDup_app in Hnd as (_ & Hdis & _).
  assert (Htn : t ∉ pre) by (intros Hin; apply (Hdis t Hin); by left).
  assert (Hp : 0 <= p < np) by (apply Hq; by left).
  replace (ps ++ p :: qs) with ((ps ++ [p]) ++ qs) by by rewrite <- app_assoc.
  assert (Hcov : covered p available <-> covered p (pre ++ [t])) by
    (split; intros Hc u f Hf; apply Hav; by eapply Hc).
  assert (Hmono : covered p pre -> covered p (pre ++ [t])) by
    (intros Hc u f Hf; apply elem_of_app; left; by eapply Hc).
  assert (Hlt : forall u f, ptf !! (p, u) = Some f -> u = t -> last_table ptf order p u -> covered p (pre ++ [t])).
  { intros u f Hf -> (pre' & post' & E' & Hall) v g Hv.
    destruct (order_split_eq cards order Ho _ _ _ _ _ Eo E') as [-> _]. by eapply Hall. }
  destruct Ht as [Hex Hsz Hfl].
  assert (Hkeep : (covered p pre \/ (p ∈ ps /\ covered p (pre ++ [t]))) \/ ~ covered p (pre ++ [t]) ->
    toggled order pre t (ps ++ [p]) executed flags).
  { intros Hk. split; [|done|].
    - intros q Hqr. rewrite Hex, elem_of_app, list_elem_of_singleton by done. split; [tauto|].
      intros [?|[[?| ->] ?]]; [by left|by right|tauto].
    - intros q u f Hf. rewrite (Hfl q u f Hf), elem_of_app, list_elem_of_singleton. split; [tauto|].
      intros [Hl [?|[-> [?| ->]]]]; [tauto|tauto|]. split; [done|].
      pose proof (Hlt t f Hf eq_refl Hl) as Hc. destruct Hk as [[Hk|[? _]]|?]; [|tauto|done].
      left. by eapply Hk. }
  case_bool_decide as Hpe.
  { apply IH; [intros; apply Hq; by right|]. apply Hkeep. left. by apply Hex. }
  pose proof (covered_dec p available) as Hdec. rewrite Hcov in Hdec.
  destruct (forallb _ _) eqn:Efa.
  - pose proof (proj1 Hdec eq_refl) as Hc.
    destruct (ptf !! (p, t)) as [f|] eqn:Hf.
    2: { exfalso. apply Hpe, Hex; [done|]. left. intros u g Hu.
         pose proof (Hc u g Hu) as [?| ->%list_elem_of_singleton]%elem_of_app; [done|congruence]. }
    pose proof (eo_flag Henv _ _ _ Hf) as Hfr. rewrite vec_set_upd by lia. cbn [mbind Res_bind].
    apply IH; [intros; apply Hq; by right|]. split; [| |].
    + intros q Hqr. rewrite elem_of_union, elem_of_singleton, Hex, elem_of_app, list_elem_of_singleton by done.
      split; [intros [->|?]; tauto|]. intros [?|[[?| ->] ?]]; tauto.
    + by rewrite vec_size_upd.
    + intros q u g Hg. pose proof (eo_flag Henv _ _ _ Hg). rewrite get_upd by lia.
      rewrite elem_of_app, list_elem_of_singleton. case_decide as Egf.
      * subst g. destruct (eo_inj Henv _ _ _ _ _ Hf Hg) as [<- <-]. split; [|done]. intros _.
        split; [|by auto]. by exists pre, post.
      * rewrite (Hfl q u g Hg). split; [tauto|]. intros [Hl [?|[-> [?| ->]]]]; [tauto|tauto|]. congruence.
  - apply IH; [intros; apply Hq; by right|]. apply Hkeep. right. intros Hc%Hdec. congruence.
Qed.

Lemma toggle_loop_spec order post pre available executed flags :
  is_order cards order -> order = pre ++ post -> (forall u, u ∈ available <-> u ∈ pre) ->
  (forall p, 0 <= p < np -> p ∈ executed <-> covered p pre) -> vec_size flags = num_flags env ->
  (forall p u f, ptf !! (p, u) = Some f -> get flags f <> 0 <-> last_table ptf order p u /\ u ∈ pre) ->
  exists flags', toggle_loop env n available executed flags post = Ok flags' /\
    vec_size flags' = num_flags env /\ flags_ok ptf order flags'.
Proof.
  intros Ho. revert pre available executed flags. induction post as [|t post IH];
    intros pre available executed flags Eo Hav Hex Hsz Hfl; cbn [toggle_loop].
  - exists flags. split; [done|]. split; [done|]. intros p t f Hf. split; [rewrite Hsz; by eapply (eo_flag Henv)|].
    rewrite (Hfl _ _ _ Hf). split; [tauto|]. intros Hl. split; [done|].
    destruct Hl as (pre' & post' & E' & _). rewrite app_nil_r in Eo. rewrite <- Eo, E'.
    apply elem_of_app. right. by left.
  - assert (Hav' : forall u, u ∈ t :: available <-> u ∈ pre ++ [t]).
    { intros u. rewrite elem_of_cons, elem_of_app, list_elem_of_singleton, Hav. tauto. }
    destruct (toggle_preds_spec order pre t post (t :: available) executed flags [] (seqZ 0 np) Ho Eo)
      as (executed' & flags' & -> & [Hex' Hsz' Hfl']); [done|intros p Hp%elem_of_seqZ; lia| |].
    { split; [|done|].
      - intros p Hp. rewrite Hex by done. split; [by left|]. by intros [?|[?%not_elem_of_nil _]].
      - intros p u f Hf. rewrite (Hfl _ _ _ Hf). split; [tauto|].
        intros [? [?|[_ ?%not_elem_of_nil]]]; done. }
    cbn [app] in Hex', Hfl'. cbn [mbind Res_bind]. apply (IH (pre ++ [t])); [by rewrite <- app_assoc|done| |done|].
    + intros p Hp. rewrite Hex' by done. split; [|right; split; [apply elem_of_seqZ; lia|done]].
      intros [Hc|[_ ?]]; [|done]. intros u f Hf. apply elem_of_app. left. by eapply Hc.
    + intros p u f Hf. rewrite (Hfl' _ _ _ Hf), elem_of_app, list_elem_of_singleton.
      pose proof (po_range _ _ _ _ (eo_preds Henv) _ _ _ Hf) as [Hp _].
      assert (p ∈ seqZ 0 np) by (apply elem_of_seqZ; lia). tauto.
Qed.

Lemma TogglePredicateFlags_spec (e : Engine T) order : is_order cards order ->
  vec_size (flag_arr e) = num_flags env ->
  exists flags, TogglePredicateFlags env e order =
      Ok (MkEngine (join_handler_fn_arr e) flags (progress_arr e) (table_ctr e) (idx_arr e)
            (num_result_tuples e) (offset_arr e) (tuple_table e) (emitted e)) /\
    vec_size flags = num_flags env /\ flags_ok ptf order flags.
Proof.
  intros Ho Hsz. unfold TogglePredicateFlags.
  destruct (set_all_spec 0 (seqZ 0 (num_flags env)) (flag_arr e)) as (fl & -> & Hl & Hg).
  { intros t Ht%elem_of_seqZ. lia. }
  cbn [mbind Res_bind].
  assert (En : vec_size order = n) by (unfold vec_size; by rewrite (order_length cards order Ho)).
  rewrite En. destruct (toggle_loop_spec order order [] [] ∅ fl Ho eq_refl) as (flags & -> & Hs & Hf).
  - done.
  - intros p Hp. split; [by intros ?%not_elem_of_empty|]. intros Hc.
    destruct (po_some _ _ _ _ (eo_preds Henv) p Hp) as (t & f & Hf). by apply Hc, not_elem_of_nil in Hf.
  - lia.
  - intros p u f Hf. pose proof (eo_flag Henv _ _ _ Hf).
    rewrite Hg, decide_True by (lia || (apply elem_of_seqZ; lia)). split; [done|].
    by intros [_ ?%not_elem_of_nil].
  - cbn [mbind Res_bind]. by exists flags.
Qed.

(** ** The last completed tuple of an episode *)
Lemma order_nonempty order : is_order cards order -> order <> [].
Proof.
  intros Ho ->. apply (eo_nonempty Henv). pose proof (order_length cards [] Ho) as Hl.
  by destruct cards.
Qed.

Lemma cards_pos t : 0 <= t < n -> 0 < get cards t.
Proof. intros Ht. pose proof (po_cards _ _ _ _ (eo_preds Henv) t Ht). lia. Qed.

(** The first part of the computation: the indices, and the tables behind the
    one the scan stopped at. *)
Lemma compute_common order mid u post s idx : is_order cards order -> order = mid ++ u :: post ->
  vec_size idx = n ->
  exists l, vec_size l = n /\ (forall t, t ∈ order -> get l t = get idx t) /\
    ComputeLastCompletedTuple order cards s u idx =
      if s =? -2 then last ← set_all 0 l post; decrement_wrap cards last (reverse order)
      else fill_last cards l post.
Proof.
  intros Ho Eo Hi. unfold ComputeLastCompletedTuple.
  assert (Hr : forall t, t ∈ order -> 0 <= t < n) by (intros; by eapply order_range).
  destruct (copy_idx_spec idx (replicate (length order) 0) order) as (l & -> & Hl & Hg).
  { intros t Ht%Hr. unfold vec_size at 2. rewrite length_replicate, (order_length cards order Ho).
    unfold vec_size in *. lia. }
  exists l. split_and!.
  - rewrite Hl. unfold vec_size. by rewrite length_replicate, (order_length cards order Ho).
  - intros t Ht. rewrite Hg, decide_True by (done || by apply Hr). done.
  - cbn [mbind Res_bind]. pose proof (order_nodup cards order Ho) as Hnd. rewrite Eo in Hnd.
    assert (Ef : find_ctr u 0 (-1) order = 0 + vec_size mid) by (rewrite Eo; by apply find_ctr_spec).
    rewrite Ef. replace (drop _ _) with post; [done|]. rewrite Eo.
    replace (Z.to_nat (0 + vec_size mid + 1)) with (length (mid ++ [u]))
      by (rewrite length_app; unfold vec_size; cbn; lia).
    rewrite (cons_middle u mid post), (assoc_L app), drop_app_length. done.
Qed.

Lemma order_parts order mid u post : is_order cards order -> order = mid ++ u :: post ->
  (forall t, t ∈ mid ++ [u] -> 0 <= t < n /\ t ∉ post) /\ (forall t, t ∈ post -> 0 <= t < n).
Proof.
  intros Ho Eo. assert (Hr : forall t, t ∈ order -> 0 <= t < n) by (intros; by eapply order_range).
  pose proof (order_nodup cards order Ho) as Hnd. rewrite Eo, (cons_middle u mid post), (assoc_L app) in Hnd, Hr.
  apply list.NoDup_app in Hnd as (_ & Hd & _). split; intros t Ht.
  - split; [apply Hr, elem_of_app; by left|by apply Hd].
  - apply Hr, elem_of_app. by right.
Qed.

(** Status -1: the rest of the order is at its last tuples. *)
Lemma compute_fill order mid u post s idx : is_order cards order -> order = mid ++ u :: post ->
  vec_size idx = n -> in_cards cards (mid ++ [u]) idx -> s <> -2 ->
  exists fin, ComputeLastCompletedTuple order cards s u idx = Ok fin /\ tup cards fin /\
    proj order fin = proj (mid ++ [u]) idx ++ maxes cards post.
Proof.
  intros Ho Eo Hi Hc Hs. destruct (compute_common order mid u post s idx Ho Eo Hi) as (l & Hl & Hg & ->).
  rewrite (proj2 (Z.eqb_neq _ _)) by done. destruct (order_parts _ _ _ _ Ho Eo) as [Hpre Hpost].
  destruct (fill_last_spec cards l post) as (fin & -> & Hfl & Hfg).
  { intros t Ht%Hpost. rewrite Hl. lia. }
  assert (Hmid : forall t, t ∈ mid ++ [u] -> get fin t = get idx t).
  { intros t Ht. destruct (Hpre t Ht). rewrite Hfg, decide_False by (done || lia). apply Hg.
    rewrite Eo, (cons_middle u mid post), (assoc_L app). apply elem_of_app. by left. }
  assert (Hrest : forall t, t ∈ post -> get fin t = get cards t - 1).
  { intros t Ht. by rewrite Hfg, decide_True by (done || by apply Hpost). }
  exists fin. split; [done|]. split.
  - apply (in_cards_tup cards order); [done|lia|]. intros t Ht.
    rewrite Eo, (cons_middle u mid post), (assoc_L app) in Ht. apply elem_of_app in Ht as [Ht|Ht].
    + rewrite Hmid by done. by apply Hc.
    + rewrite Hrest by done. pose proof (Hpost t Ht) as Htr. pose proof (cards_pos t Htr). lia.
  - rewrite Eo, (cons_middle u mid post), (assoc_L app), proj_app. f_equal; [by apply proj_ext|].
    apply list_fmap_ext. intros i t Ht. apply Hrest. by eapply list_elem_of_lookup_2.
Qed.

Lemma zeros_nil_lt ts z : length z = length ts -> Forall (fun x => 0 <= x) z -> ~ lex_lt z (zeros ts).
Proof.
  intros Hl Hz Hlt. apply (lex_lt_irrefl z). eapply lex_lt_le_trans; [exact Hlt|].
  apply lex_zero_le; [unfold zeros; by rewrite length_fmap| |done].
  unfold zeros. by apply Forall_fmap, Forall_forall.
Qed.

(** Status -2: one step back from the tuple the scan stopped at. *)
Lemma compute_back order mid u post idx z : is_order cards order -> order = mid ++ u :: post ->
  vec_size idx = n -> in_cards cards (mid ++ [u]) idx ->
  length z = length order -> Forall (fun x => 0 <= x) z ->
  lex_lt z (proj (mid ++ [u]) idx ++ zeros post) ->
  exists fin, ComputeLastCompletedTuple order cards (-2) u idx = Ok fin /\ tup cards fin /\
    forall v, tup cards v ->
      lex_lt (proj order v) (proj (mid ++ [u]) idx ++ zeros post) <-> lex_le (proj order v) (proj order fin).
Proof.
  intros Ho Eo Hi Hc Hzl Hz Hlt.
  destruct (compute_common order mid u post (-2) idx Ho Eo Hi) as (l & Hl & Hg & ->).
  change (-2 =? -2) with true. destruct (order_parts _ _ _ _ Ho Eo) as [Hpre Hpost].
  destruct (set_all_spec 0 post l) as (l1 & -> & Hl1 & Hg1).
  { intros t Ht%Hpost. rewrite Hl. lia. }
  cbn [mbind Res_bind].
  assert (Hmid : forall t, t ∈ mid ++ [u] -> get l1 t = get idx t).
  { intros t Ht. destruct (Hpre t Ht). rewrite Hg1, decide_False by (done || lia). apply Hg.
    rewrite Eo, (cons_middle u mid post), (assoc_L app). apply elem_of_app. by left. }
  assert (Hrest : forall t, t ∈ post -> get l1 t = 0).
  { intros t Ht. by rewrite Hg1, decide_True by (done || by apply Hpost). }
  assert (Hproj : proj order l1 = proj (mid ++ [u]) idx ++ zeros post).
  { rewrite Eo, (cons_middle u mid post), (assoc_L app), proj_app. f_equal; [by apply proj_ext|].
    apply list_fmap_ext. intros i t Ht. apply Hrest. by eapply list_elem_of_lookup_2. }
  assert (Hcl : in_cards cards order l1).
  { intros t Ht. rewrite Eo, (cons_middle u mid post), (assoc_L app) in Ht. apply elem_of_app in Ht as [Ht|Ht].
    - rewrite Hmid by done. by apply Hc.
    - rewrite Hrest by done. pose proof (Hpost t Ht) as Htr. pose proof (cards_pos t Htr). lia. }
  rewrite <- Hproj in Hlt |- *. destruct (exists_last (order_nonempty order Ho)) as (o' & t' & Eo').
  destruct (decrement_spec cards o' t' l1) as [[_ Hzero]|(fin & Hd & Hfl & Hcf & _ & Hpred)];
    rewrite <- ?Eo' in *; [by apply (order_nodup cards)|lia|done| |].
  - exfalso. refine (zeros_nil_lt order z Hzl Hz _). replace (zeros order) with (proj order l1); [done|].
    apply list_fmap_ext. intros i t Ht. apply Hzero. by eapply list_elem_of_lookup_2.
  - exists fin. split; [apply decrement_wrap_eq; [|done]|].
    { rewrite Eo', reverse_snoc. done. }
    split; [by apply (in_cards_tup cards order)|]. intros v Hv. apply Hpred. by apply tup_in_cards.
Qed.

(** Every list of coordinates in range is one of a tuple. *)
Lemma proj_surj o z (v0 : list Z) : NoDup o -> (forall t, t ∈ o -> 0 <= t < n) -> length z = length o ->
  vec_size v0 = n -> exists v, vec_size v = n /\ proj o v = z.
Proof.
  revert z. induction o as [|t o IH]; intros z Hnd Hr Hz Hv.
  { exists v0. split; [done|]. by destruct z. }
  destruct z as [|x z]; [done|]. apply list.NoDup_cons in Hnd as [Hn Hnd].
  destruct (IH z Hnd) as (v & Hvl & Hp); [intros; apply Hr; by right|by injection Hz|done|].
  pose proof (Hr t ltac:(by left)) as Ht. exists (upd v t x). split; [by rewrite vec_size_upd|].
  cbn. rewrite get_upd, decide_True by (done || lia). f_equal. rewrite <- Hp.
  apply proj_upd_notin; [lia|done|]. intros y Hy. apply Hr. by right.
Qed.

Lemma tup_of order z : is_order cards order -> Forall2 (fun t x => 0 <= x < get cards t) order z ->
  exists v, tup cards v /\ proj order v = z.
Proof.
  intros Ho Hz. assert (Hr : forall t, t ∈ order -> 0 <= t < n) by (intros; by eapply order_range).
  destruct (proj_surj order z cards (order_nodup cards order Ho) Hr) as (v & Hv & Hp);
    [symmetry; by eapply list.Forall2_length|done|]. exists v. split; [|done].
  apply (in_cards_tup cards order); [done..|]. by apply (path_in_cards cards order z).
Qed.

(** ** The engine between episodes *)
Record eng (e : Engine T) (S : gset (list Z)) : Prop := {
  eg_handlers : vec_size (join_handler_fn_arr e) = n;
  eg_flags : vec_size (flag_arr e) = num_flags env;
  eg_prog : vec_size (progress_arr e) = n;
  eg_idx : vec_size (idx_arr e) = n;
  eg_off : vec_size (offset_arr e) = n;
  eg_rep : ts_holds (length cards) (tuple_table e) S;
  eg_sound : forall x, x ∈ S -> tup cards x /\ valid np cond x;
  eg_emit : NoDup (emitted e) /\ forall x, x ∈ emitted e <-> x ∈ S;
}.

Local Abbreviation Done := (DoneS np cond).
Local Abbreviation sinv S := (state_inv cards (Done S)).

(** The engine when the first table function is called. *)
Record ready (s : JoinState) (S : gset (list Z)) (order : list Z) (r0 : option (list Z))
    (off r : list Z) (e : Engine T) : Prop := {
  rd_base : base cards np ptf cond (num_flags env) order off r e S;
  rd_entry : entry cards np ptf cond order off r e S (bool_decide (is_Some r0)) [];
  rd_ctr : Some (table_ctr e) = head order;
  rd_offlen : vec_size off = n;
  rd_proglen : vec_size r = n;
  rd_off : forall t, 0 <= t < n -> get off t = get (offset s) t;
  rd_last : forall l, r0 = Some l -> lex_le (proj order l) (proj order r);
}.

(** The resume point, moved forward to the offsets: everything before it is done. *)
Lemma clamp_done (P : list Z -> Prop) order l r off : is_order cards order ->
  (forall t, 0 <= t < n -> get r t = Z.max (get off t) (get l t)) ->
  (forall t v, 0 <= t < n -> tup cards v -> get v t <= get off t -> P v) ->
  (forall v, tup cards v -> lex_le (proj order v) (proj order l) -> P v) ->
  forall v, tup cards v -> lex_lt (proj order v) (proj order r) -> P v.
Proof.
  intros Ho Hr Hoff Hl v Hv Hlt.
  assert (Hex : lex_lt (proj order v) (proj order l) \/ exists t, 0 <= t < n /\ get v t <= get off t).
  { assert (Hrng : forall t, t ∈ order -> 0 <= t < n) by (intros; by eapply order_range).
    clear Ho Hl. induction order as [|t o IH]; [done|]. cbn in Hlt.
    pose proof (Hrng t ltac:(by left)) as Ht. rewrite Hr in Hlt by done.
    destruct (decide (get v t <= get off t)); [right; by exists t|].
    destruct Hlt as [?|[? Hlt]]; [left; cbn; left; lia|].
    destruct IH as [?|?]; [done|intros; apply Hrng; by right| |].
    - left. cbn. right. split; [lia|done].
    - by right. }
  destruct Hex as [?|(t & Ht & Hle)]; [apply Hl; [done|by right]|by eapply Hoff].
Qed.

Lemma setup_ok s e S order r0 : sinv S s -> eng e S -> is_order cards order ->
  resume_ok cards (Done S) s order r0 ->
  exists off r e1,
    (e ← SetJoinOrder e order; e ← TogglePredicateFlags env e order;
     SetResumeProgress e order (default (replicate (length order) (-1)) r0) (GetOffset s)) = Ok e1 /\
    ready s S order r0 off r e1.
Proof.
  intros Hs He Ho Hro.
  assert (Hr : forall t, t ∈ order -> 0 <= t < n) by (intros; by eapply order_range).
  pose proof (order_length cards order Ho) as Hol.
  destruct (set_handlers_spec order (join_handler_fn_arr e) (order_nodup cards order Ho)) as (hs & Eh & Hhl & _ & Hh).
  { intros t Ht. rewrite (eg_handlers _ _ He). by apply Hr. }
  unfold SetJoinOrder. rewrite Eh. cbn [mbind Res_bind].
  destruct (TogglePredicateFlags_spec (MkEngine hs (flag_arr e) (progress_arr e) (table_ctr e) (idx_arr e)
        (num_result_tuples e) (offset_arr e) (tuple_table e) (emitted e)) order Ho) as (fl & Ef & Hfl & Hfok);
    [apply He|].
  rewrite Ef. cbn [mbind Res_bind]. unfold SetResumeProgress.
  cbn [join_handler_fn_arr flag_arr progress_arr table_ctr idx_arr num_result_tuples offset_arr tuple_table emitted].
  set (last := default (replicate (length order) (-1)) r0).
  assert (Hll : vec_size last = n).
  { subst last. destruct r0 as [l|]; cbn.
    - by apply (ro_tup _ _ _ _ _ Hro l).
    - unfold vec_size. by rewrite length_replicate, Hol. }
  pose proof (sv_offlen _ _ _ Hs) as Hofl. unfold GetOffset.
  destruct (resume_loop_spec last (offset s) (progress_arr e) (offset_arr e) (seqZ 0 (vec_size last)))
    as (r & off & -> & Hrl & Hoffl & Hgr & Hgo).
  { intros t Ht%elem_of_seqZ. rewrite Hll in *. rewrite (eg_prog _ _ He), (eg_off _ _ He).
    unfold vec_size in *. lia. }
  cbn [mbind Res_bind].
  assert (exists f rest, order = f :: rest) as (f & rest & Eord).
  { pose proof (order_nonempty _ Ho). destruct order; [done|]. by eexists _, _. }
  assert (E0 : vec_at order 0 = Ok f) by (by rewrite Eord). rewrite E0. cbn [mbind Res_bind].
  rewrite (eg_prog _ _ He) in Hrl. rewrite (eg_off _ _ He) in Hoffl.
  assert (Hin : forall t, 0 <= t < n -> t ∈ seqZ 0 (vec_size last)) by
    (intros t Ht; apply elem_of_seqZ; lia).
  assert (Hoff : forall t, 0 <= t < n -> get off t = get (offset s) t).
  { intros t Ht. rewrite Hgo, decide_True by (lia || by apply Hin). done. }
  assert (Hrt : forall t, 0 <= t < n -> get r t = Z.max (get off t) (get last t)).
  { intros t Ht. rewrite Hgr, decide_True, Hoff by (lia || by apply Hin). done. }
  assert (Hoffd : forall t v, 0 <= t < n -> tup cards v -> get v t <= get off t -> Done S v).
  { intros t v Ht Hv Hle. rewrite Hoff in Hle by done. by apply (sv_offset _ _ _ Hs t Ht). }
  eexists off, r, _. split; [done|]. destruct He as [Hes1 Hes2 Hes3 Hes4 Hes5 Hes6 Hes7 Hes8].
  split; cbn; try done.
  - split; cbn; try done. by rewrite Hhl.
  - split; cbn; try done.
    + by intros ? ?%not_elem_of_nil.
    + intros p Hp Hno. exfalso. destruct (po_some _ _ _ _ (eo_preds Henv) p Hp) as (t & f' & Hf).
      by apply Hno, not_elem_of_nil in Hf.
    + intros Hres%bool_decide_eq_true. destruct Hres as [l El]. subst r0. cbn in last. subst last.
      destruct (ro_tup _ _ _ _ _ Hro l eq_refl) as [Hl1 Hl2]. split_and!; [|intros t Ht; rewrite Hrt by done; lia|done|].
      * split; [done|]. intros t Ht. rewrite Hrt by done. pose proof (Hl2 t Ht).
        pose proof (proj1 (sv_offset _ _ _ Hs t Ht)). rewrite Hoff by done. lia.
      * apply (clamp_done _ order l r off); try done. intros v Hv. by apply (ro_done _ _ _ _ _ Hro l).
  - by rewrite Eord.
  - intros l ->. apply lex_pointwise. intros t Ht%Hr. rewrite Hrt by done. subst last. cbn. lia.
Qed.

Lemma ahead_max (P : list Z -> Prop) s order fin : state_inv cards P s -> is_order cards order ->
  (forall t, 0 <= t < n -> get fin t = get cards t - 1) -> ahead (root s) order fin.
Proof.
  intros Hs Ho Hmax ts rest xs q Eo Hp Hlt.
  destruct (sv_tree _ _ _ Hs _ _ _ Hp) as (_ & Hf & _).
  apply (lex_lt_irrefl xs). eapply lex_le_lt_trans; [|exact Hlt].
  assert (Hr : forall t, t ∈ ts -> 0 <= t < n).
  { intros t Ht. apply (order_range cards order); [done|]. rewrite Eo. apply elem_of_app. by left. }
  clear Hp Hlt Eo. induction Hf as [|t x ts xs Hx Hf IH]; [by left|].
  pose proof (Hmax t (Hr t ltac:(by left))) as Hm.
  destruct IH as [->|?]; [intros; apply Hr; by right| |]; cbn;
    (destruct (decide (x = get fin t)) as [E|]; [rewrite E|right; left; lia]).
  - by left.
  - right. right. done.
Qed.

Lemma state_inv_mono S S' s : S ⊆ S' -> sinv S s -> sinv S' s.
Proof.
  intros HS [Hc Ht Hol Hof Hfin]. split; try done.
  - intros ts xs q Hp. destruct (Ht _ _ _ Hp) as (? & ? & Hd). split_and!; try done.
    intros v Hv Hc'. eapply DoneS_mono; [done|by apply Hd].
  - intros t Htr. destruct (Hof t Htr) as [? Hd]. split; [done|]. intros v Hv Hle.
    eapply DoneS_mono; [done|by apply Hd].
  - intros Hf v Hv. eapply DoneS_mono; [done|by apply Hfin].
Qed.

(** What the last completed tuple of an episode tells. *)
Record final_ok (S' : gset (list Z)) (order : list Z) (r0 : option (list Z)) (fin : list Z) : Prop := {
  fo_tup : tup cards fin;
  fo_done : forall v, tup cards v -> lex_le (proj order v) (proj order fin) -> Done S' v;
  fo_prog : (forall t, 0 <= t < n -> get fin t = get cards t - 1) \/
    forall l, r0 = Some l -> lex_lt (proj order l) (proj order fin);
}.

Lemma all_max order mid u post fin idx : is_order cards order -> order = mid ++ u :: post ->
  mid = [] -> get idx u = get cards u - 1 -> proj order fin = proj (mid ++ [u]) idx ++ maxes cards post ->
  forall t, 0 <= t < n -> get fin t = get cards t - 1.
Proof.
  intros Ho Eo -> Hu Hp t Ht. cbn in *. rewrite Hu in Hp. apply (maxes_inj cards fin order).
  - rewrite Hp, Eo. done.
  - by apply (order_elem cards).
Qed.

Section run.
Context (s : JoinState) (S : gset (list Z)) (order : list Z) (r0 : option (list Z)).
Context (off r : list Z) (e1 : Engine T) (Hs : sinv S s) (Ho : is_order cards order).
Context (Hrd : ready s S order r0 off r e1).
Context (Hbudget : 2 * n < budget_per_episode env).
Local Abbreviation resume := (bool_decide (is_Some r0)).

Lemma len_order : Z.of_nat (length order) = n.
Proof. rewrite (order_length cards order Ho). done. Qed.

Lemma final_done st e' S' :
  done_out cards np cond r [] order (budget_per_episode env) resume st e1 e' S' ->
  vec_size (idx_arr e') = n ->
  exists fin, ComputeLastCompletedTuple order cards st (table_ctr e') (idx_arr e') = Ok fin /\
    final_ok S' order r0 fin.
Proof.
  intros [Hst Hc Hall Hi _] Hidx. pose proof (rd_ctr _ _ _ _ _ _ _ Hrd) as Hh.
  destruct order as [|f rest] eqn:Eord; [by destruct (order_nonempty _ Ho)|]. injection Hh as Hf.
  rewrite Hc, Hf. rewrite <- Eord in *. specialize (Hi f rest eq_refl Eord).
  assert (Hfr : 0 <= f < n) by (apply (order_range cards order); [done|]; rewrite Eord; by left).
  pose proof (cards_pos f Hfr).
  destruct (compute_fill order [] f rest st (idx_arr e') Ho Eord Hidx) as (fin & -> & Htup & Hp); [|lia|].
  { intros t ->%list_elem_of_singleton. split; [done|lia]. }
  exists fin. split; [done|]. split; [done|intros; by apply Hall|left].
  by apply (all_max order [] f rest fin (idx_arr e')).
Qed.

Lemma firsts_range : Forall2 (fun t x => 0 <= x < get cards t) order (firsts off order).
Proof.
  apply Forall2_fmap_self. intros t Ht. pose proof (order_range cards order t Ho Ht) as Htr.
  rewrite (rd_off _ _ _ _ _ _ _ Hrd) by done.
  pose proof (proj1 (sv_offset _ _ _ Hs t Htr)). lia.
Qed.

Lemma range_nonneg z : Forall2 (fun t x => 0 <= x < get cards t) order z ->
  length z = length order /\ Forall (fun x => 0 <= x) z.
Proof.
  intros Hz. split; [symmetry; by eapply list.Forall2_length|].
  apply Forall_lookup_2. intros i x Hx. apply (Forall2_lookup_r _ _ _ _ _ Hz) in Hx as (t & _ & ?). lia.
Qed.

Lemma final_stop st e' S' mid u post :
  stop_out cards np cond off r [] order (budget_per_episode env) resume st e1 e' S' mid u post ->
  vec_size (idx_arr e') = n ->
  exists fin, ComputeLastCompletedTuple order cards st (table_ctr e') (idx_arr e') = Ok fin /\
    final_ok S' order r0 fin.
Proof.
  intros [[Eo Hst -> Hr Hd] Hfirst Hprog] Hidx. pose proof len_order as Hlen.
  assert (Hsplit : forall v, proj order v = proj (mid ++ [u]) v ++ proj post v).
  { intros v. by rewrite Eo, (cons_middle u mid post), (assoc_L app), proj_app. }
  assert (Hres : forall l, r0 = Some l -> past_resume cards r order st (proj (mid ++ [u]) (idx_arr e')) post).
  { intros l ->. apply Hprog; [done|lia]. }
  assert (Hll : forall l, r0 = Some l -> lex_le (proj order l) (proj order r)) by apply Hrd.
  pose proof firsts_range as Hfr. destruct Hst as [-> | ->].
  - destruct (compute_fill order mid u post (-1) (idx_arr e') Ho Eo Hidx Hr) as (fin & -> & Htup & Hp); [lia|].
    exists fin. split; [done|]. split; [done| |right].
    + intros v Hv Hle. apply Hd; [done..|]. rewrite Hp, Hsplit in Hle.
      apply lex_le_app in Hle as [?|[? _]]; [by left|by right|by rewrite !length_proj].
    + intros l El. rewrite Hp. eapply lex_le_lt_trans; [by apply Hll|]. by apply (Hres l El).
  - assert (exists z, Forall2 (fun t x => 0 <= x < get cards t) order z /\
      lex_lt z (proj (mid ++ [u]) (idx_arr e') ++ zeros post) /\
      forall l, r0 = Some l -> lex_lt (proj order l) z) as (z & Hz & Hzw & Hlz).
    { destruct r0 as [l|] eqn:Er0.
      - destruct (proj2 (Hres l eq_refl) eq_refl) as (z & ? & Hrz & ?). exists z. split_and!; try done.
        intros l' El. eapply lex_le_lt_trans; [by apply Hll|done].
      - exists (firsts off order). split_and!; [done| |done]. apply Hfirst; [done|lia|done]. }
    destruct (range_nonneg z Hz) as [Hzl Hz0].
    destruct (compute_back order mid u post (idx_arr e') z Ho Eo Hidx Hr Hzl Hz0 Hzw)
      as (fin & -> & Htup & Hp).
    exists fin. split; [done|]. split; [done| |right].
    + intros v Hv Hle. apply Hp in Hle; [|done]. rewrite Hsplit in Hle.
      apply lex_lt_app in Hle as [?|[_ Hlt]]; [by apply Hd; [done..|left]| |by rewrite !length_proj].
      exfalso. apply (zeros_nil_lt post (proj post v)); [by rewrite length_proj| |done].
      apply (proj_nonneg cards). intros t Ht. apply (tup_in_cards cards order v Ho Hv).
      rewrite Eo. apply elem_of_app. right. by right.
    + intros l El. destruct (tup_of order z Ho Hz) as (vz & Hvz & Ez).
      eapply lex_lt_le_trans; [by apply Hlz|]. rewrite <- Ez. apply Hp; [done|]. by rewrite Ez.
Qed.

Lemma run_episode first : head order = Some first ->
  exists st e' S' fin,
    table_function cards ptf cond (length order) first (budget_per_episode env) resume e1 = Ok (st, e') /\
    S ⊆ S' /\ eng e' S' /\
    ComputeLastCompletedTuple order cards st (table_ctr e') (idx_arr e') = Ok fin /\
    final_ok S' order r0 fin.
Proof.
  intros Hh. assert (exists rest, order = first :: rest) as [rest Eord].
  { clear - Hh. destruct order as [|f rest]; [done|]. injection Hh as ->. by exists rest. }
  pose proof len_order as Hlen. assert (0 < n) by (rewrite <- Hlen, Eord; cbn; lia).
  assert (Hoff : forall t, 0 <= t < n -> -1 <= get off t < get cards t - 1).
  { intros t Htr. rewrite (rd_off _ _ _ _ _ _ _ Hrd) by done. by apply (sv_offset _ _ _ Hs). }
  assert (Hdepth : (length rest < length order)%nat) by (rewrite Eord; cbn; lia).
  pose proof (table_function_ok cards np ptf cond (num_flags env) order off r (eo_preds Henv) Ho
    (rd_offlen _ _ _ _ _ _ _ Hrd) Hoff (length order) [] first rest Eord Hdepth
    (budget_per_episode env) resume e1 S ltac:(lia) (rd_base _ _ _ _ _ _ _ Hrd)
    (rd_entry _ _ _ _ _ _ _ Hrd)) as (st & e' & S' & Ht & HS & Hb & _ & Hout).
  assert (exists fin, ComputeLastCompletedTuple order cards st (table_ctr e') (idx_arr e') = Ok fin /\
    final_ok S' order r0 fin) as (fin & Hf & Hfo).
    { rewrite <- Eord in Hout. destruct Hout as [Hd|(mid & u & post & Hst)].
      - apply final_done; [done|apply Hb].
      - by apply (final_stop st e' S' mid u post); [|apply Hb]. }
  exists st, e', S', fin. split_and!; try done. destruct Hb as [[? ?] ? ? Hbo Hbp ? ? ? ?].
  split; try done; [rewrite Hbp; apply (rd_proglen _ _ _ _ _ _ _ Hrd)|rewrite Hbo; apply (rd_offlen _ _ _ _ _ _ _ Hrd)].
Qed.
End run.

(** ** [Execute] *)
Lemma reward_loop_ok off initial final order w p :
  (forall t, t ∈ order -> 0 <= t < n /\ t < vec_size off /\ t < vec_size initial /\ t < vec_size final) ->
  exists q, reward_loop off initial final cards w p order = Ok q.
Proof.
  revert w p. induction order as [|t order IH]; intros w p Hr; cbn [reward_loop]; [by eexists|].
  destruct (Hr t ltac:(by left)) as (? & ? & ? & ?).
  rewrite (vec_at_get cards), (vec_at_get off), (vec_at_get initial), (vec_at_get final) by lia.
  cbn [mbind Res_bind]. apply IH. intros; apply Hr; by right.
Qed.

Lemma Execute_ok s e S order :
  sinv S s -> eng e S -> finished s = false -> is_order cards order ->
  2 * n < budget_per_episode env ->
  exists rew s' e' S' r0 fin, Execute env cond s e order = Ok (rew, s', e') /\
    S ⊆ S' /\ sinv S' s' /\ eng e' S' /\
    GetLastCompletedTupleIdx s order = Ok r0 /\ Update s order fin = Ok s' /\
    final_ok S' order r0 fin /\
    (finished s' = true <-> forall t, 0 <= t < n -> get fin t = get cards t - 1) /\
    (finished s' = false -> sets_path cards (root s) (root s') fin order).
Proof.
  intros Hs He Hnf Ho Hb. pose proof (order_nonempty order Ho) as Hne.
  destruct (GetLastCompletedTupleIdx_ok cards (Done S) cards_pos s order Hs Ho Hne) as (r0 & Hg & Hro).
  destruct (setup_ok s e S order r0 Hs He Ho Hro) as (off & r & e1 & Hsetup & Hrd).
  assert (exists first, head order = Some first /\ vec_at order 0 = Ok first) as (first & Hh & H0).
  { destruct order as [|f rest]; [done|]. by exists f. }
  destruct (run_episode s S order r0 off r e1 Hs Ho Hrd Hb first Hh) as (st & e' & S' & fin & Ht & HS & He' & Hc & Hfo).
  pose proof (state_inv_mono S S' s HS Hs) as Hs'.
  destruct (Update_ok cards (Done S') s order fin Hs' Hnf Ho Hne) as (s' & Hu & Hs'' & Hfin & Hset);
    [apply Hfo|apply Hfo| |].
  { destruct (fo_prog _ _ _ _ Hfo) as [Hmax|Hlt]; [by apply (ahead_max (Done S))|].
    apply (ro_ahead _ _ _ _ _ Hro); [apply Hfo|done]. }
  assert (Hir : vec_size (default (replicate (length order) (-1)) r0) = n).
  { destruct r0 as [l|]; cbn; [by apply (ro_tup _ _ _ _ _ Hro l)|].
    unfold vec_size. by rewrite length_replicate, (order_length cards order Ho). }
  destruct (reward_loop_ok (offset s') (default (replicate (length order) (-1)) r0) fin order (F_of_Z 1) (F_of_Z 0))
    as (q & Hq).
  { intros t Ht'. pose proof (order_range cards order t Ho Ht'). rewrite Hir.
    pose proof (proj1 (fo_tup _ _ _ _ Hfo)). pose proof (sv_offlen _ _ _ Hs'').
    unfold vec_size in *. lia. }
  eexists _, s', e', S', r0, fin. split_and!; try done. unfold Execute. rewrite Hg. cbn [mbind Res_bind].
  destruct (SetJoinOrder e order) as [e2| | |]; cbn [mbind Res_bind] in Hsetup |- *; try done.
  destruct (TogglePredicateFlags env e2 order) as [e3| | |]; cbn [mbind Res_bind] in Hsetup |- *; try done.
  rewrite Hsetup. cbn [mbind Res_bind]. rewrite H0. cbn [mbind Res_bind]. rewrite Ht. cbn [mbind Res_bind].
  rewrite Hc. cbn [mbind Res_bind]. rewrite Hu. cbn [mbind Res_bind]. unfold Reward, GetOffset.
  rewrite Hq. cbn [mbind Res_bind]. done.
Qed.
End episode.
