(* ===== verification/SkinnerJoin.v ===== *)
(** * Skinner join: the whole join

    The main loop of src/runtime/skinner_join_executor.cc
    ([ExecutePermutableSkinnerJoin]): episodes run until the recorded progress
    says that the join is complete.  The orders of the episodes come from an
    arbitrary strategy, which may use the rewards of the episodes before; the
    agent of the source is one (SkinnerUct).

    The loop ends: each episode that does not finish the join records, for its
    order, a combination that no recorded path of the order covered before, and
    no coverage is ever lost.  When it ends, the tuples handed to the parent
    operator are those of a nested-loop join over all combinations. *)
From S2P Require Import Prelude ColumnIndexBucket ProgramBuilder TupleIdxTable SkinnerState SkinnerExec SkinnerScan SkinnerEpisode.
From Stdlib Require Import SpecFloat.

(** ** The main loop *)
Fixpoint read_cells (arr : list Z) (cells : list Z) : Res (list Z) :=
  match cells with
  | [] => Ok []
  | i :: cells => x ← vec_at arr i; rest ← read_cells arr cells; Ok (x :: rest)
  end.

Definition ReconstructCardinalities (num_tables : Z) (idx_arr : list Z) : Res (list Z) :=
  read_cells idx_arr (seqZ 0 num_tables).

Section loop.
Context {T : Type} `{TupleSet T}.
Context (cond : JoinCode) (choose : list spec_float -> list Z).

Fixpoint join_loop (env : Environment) (fuel : nat) (rewards : list spec_float) (s : JoinState)
    (e : Engine T) : Res (Engine T) :=
  if IsComplete s then Ok e else
  match fuel with
  | O => NoFuel
  | S fuel =>
      '(reward, s, e) ← Execute env cond s e (choose rewards);
      join_loop env fuel (rewards ++ [reward]) s e
  end.

(** The cardinalities arrive in the index array. *)
Definition ExecutePermutableSkinnerJoin (fuel : nat) (num_tables num_preds num_flags budget : Z)
    (pred_table_to_flag : gmap (Z * Z) Z) (connections : gset (Z * Z)) (e : Engine T)
    : Res (Engine T) :=
  cards ← ReconstructCardinalities num_tables (idx_arr e);
  if existsb (fun x => x =? 0) cards then Ok e else
  join_loop (MkEnv num_preds num_flags budget pred_table_to_flag connections cards) fuel []
    (JoinState_new cards) e.
End loop.

(** ** The nested-loop join *)
Fixpoint all_tups (cards : list Z) : list (list Z) :=
  match cards with
  | [] => [[]]
  | c :: cards => x ← seqZ 0 c; (cons x) <$> all_tups cards
  end.

Definition validb (np : Z) (cond : JoinCode) (v : list Z) : bool :=
  forallb (fun p => bool_decide (cond p v = Some true)) (seqZ 0 np).

Definition nested_loop_join (cards : list Z) (np : Z) (cond : JoinCode) : list (list Z) :=
  filter (fun v => validb np cond v = true) (all_tups cards).

Lemma validb_spec np cond v : validb np cond v = true <-> valid np cond v.
Proof.
  unfold validb, valid. rewrite forallb_elem. split.
  - intros Hv p Hp. specialize (Hv p ltac:(apply elem_of_seqZ; lia)). by apply bool_decide_eq_true in Hv.
  - intros Hv p Hp%elem_of_seqZ. apply bool_decide_eq_true. apply Hv. lia.
Qed.

Lemma elem_of_all_tups cards v : v ∈ all_tups cards <-> Forall2 (fun c x => 0 <= x < c) cards v.
Proof.
  revert v. induction cards as [|c cards IH]; intros v; cbn.
  - rewrite list_elem_of_singleton. split; [by intros ->|by inversion 1].
  - rewrite list_elem_of_bind. split.
    + intros (x & Hin & Hx%elem_of_seqZ). apply list_elem_of_fmap in Hin as (w & -> & Hw%IH).
      constructor; [lia|done].
    + inversion 1 as [|? x ? w Hx Hw]; subst. exists x. split; [|apply elem_of_seqZ; lia].
      apply list_elem_of_fmap. exists w. split; [done|]. by apply IH.
Qed.

Lemma NoDup_all_tups cards : NoDup (all_tups cards).
Proof.
  induction cards as [|c cards IH]; cbn; [apply NoDup_singleton|].
  apply NoDup_bind; [|intros; by apply (NoDup_fmap_2 _)|apply NoDup_seqZ].
  intros x y v _ _ Hx Hy. apply list_elem_of_fmap in Hx as (? & -> & _).
  apply list_elem_of_fmap in Hy as (? & ? & _). congruence.
Qed.

Lemma tup_all_tups cards v : tup cards v <-> v ∈ all_tups cards.
Proof.
  rewrite elem_of_all_tups. unfold tup, vec_size. split.
  - intros [Hl Hv]. apply Forall2_same_length_lookup_2; [lia|]. intros i c x Hc Hx.
    specialize (Hv (Z.of_nat i)). unfold get in Hv. rewrite Nat2Z.id, !list_lookup_total_alt, Hc, Hx in Hv.
    apply Hv. apply lookup_lt_Some in Hc. lia.
  - intros Hf. pose proof (list.Forall2_length _ _ _ Hf) as Hl. split; [lia|]. intros t Ht.
    destruct (lookup_lt_is_Some_2 cards (Z.to_nat t)) as [c Hc]; [lia|].
    destruct (lookup_lt_is_Some_2 v (Z.to_nat t)) as [x Hx]; [lia|].
    unfold get. rewrite !list_lookup_total_alt, Hc, Hx. by apply (Forall2_lookup_lr _ _ _ _ _ _ Hf Hc Hx).
Qed.

(** ** Covered combinations *)
#[global] Instance lex_lt_dec a b : Decision (lex_lt a b).
Proof.
  revert b. induction a as [|x a IH]; intros [|y b]; cbn; try apply _.
Defined.

(** Some prefix of the order [o] has a recorded path behind [v]. *)
Definition seen (p : ProgressTree) (o v : list Z) : Prop :=
  exists ts rest xs q, o = ts ++ rest /\ path p ts = Some (xs, q) /\
    (lex_lt (proj ts v) xs \/ (rest = [] /\ proj ts v = xs)).

Definition seen_at (p : ProgressTree) (o v : list Z) (k : nat) : Prop :=
  match path p (take k o) with
  | Some (xs, _) => lex_lt (proj (take k o) v) xs \/ (drop k o = [] /\ proj (take k o) v = xs)
  | None => False
  end.

#[global] Instance seen_at_dec p o v k : Decision (seen_at p o v k).
Proof. unfold seen_at. destruct (path p (take k o)) as [[xs q]|]; apply _. Defined.

#[global] Instance seen_dec p o v : Decision (seen p o v).
Proof.
  destruct (decide (Exists (seen_at p o v) (seq 0 (S (length o))))) as [He|Hn]; [left|right].
  - apply list.Exists_exists in He as (k & _ & Hk). unfold seen_at in Hk.
    destruct (path p (take k o)) as [[xs q]|] eqn:E; [|done].
    exists (take k o), (drop k o), xs, q. by rewrite take_drop.
  - intros (ts & rest & xs & q & -> & Hp & Hv). apply Hn, list.Exists_exists. exists (length ts).
    split; [apply elem_of_seq; rewrite length_app; lia|]. unfold seen_at.
    rewrite take_app_length, drop_app_length, Hp. done.
Defined.

(** Replacing the child of [t] by one that covers as much. *)
Lemma seen_kid (cards : list Z) p t c' o v : length (pt_kids p) = length cards -> 0 <= t < vec_size cards ->
  (forall c, kid p t = Some c -> pt_last c < pt_last c' \/
    (pt_last c = pt_last c' /\ forall o v, seen c o v -> seen c' o v)) ->
  seen p o v -> seen (PNode (pt_last p) (<[Z.to_nat t := Some c']> (pt_kids p))) o v.
Proof.
  intros Hl Ht Hc (ts & rest & xs & q & -> & Hp & Hv). destruct ts as [|u ts].
  { injection Hp as <- <-. eexists [], rest, [], _. split_and!; [done..|]. exact Hv. }
  cbn in Hp. destruct (kid p u) as [c|] eqn:Eu; [|done].
  destruct (path c ts) as [[ys q']|] eqn:Ec; [|done]. injection Hp as <- <-.
  destruct (decide (u = t)) as [->|Hne].
  - cbn in Hv. destruct (Hc c Eu) as [Hlt|[Heq Hmono]].
    + exists [t], (ts ++ rest), [pt_last c'], c'. split_and!; [done| |].
      * cbn. by rewrite (kid_insert cards), decide_True by done.
      * left. cbn. destruct Hv as [[?|[? _]]|[_ [= ? _]]]; left; lia.
    + destruct (decide (get v t < pt_last c)) as [Hlt|Hge].
      * exists [t], (ts ++ rest), [pt_last c'], c'. split_and!; [done| |left; cbn; left; lia].
        cbn. by rewrite (kid_insert cards), decide_True by done.
      * destruct (Hmono (ts ++ rest) v) as (ts' & rest' & zs & q2 & E' & Hp' & Hv').
        { exists ts, rest, ys, q'. split_and!; [done..|]. destruct Hv as [[?|[_ ?]]|[? [= _ ?]]]; [lia|by left|by right]. }
        exists (t :: ts'), rest', (pt_last c' :: zs), q2. split_and!.
        -- cbn. by rewrite E'.
        -- cbn. by rewrite (kid_insert cards), decide_True, Hp' by done.
        -- cbn. assert (get v t = pt_last c') as -> by (destruct Hv as [[?|[? _]]|[_ [= ? _]]]; lia).
           destruct Hv' as [?|[? <-]]; [left; by right|by right].
  - exists (u :: ts), rest, (pt_last c :: ys), q'. split_and!; [done| |done].
    cbn. by rewrite (kid_insert cards), decide_False, Eu, Ec by done.
Qed.

Lemma set_path_last k last p rest p' : set_path k last p rest = Ok p' -> pt_last p' = pt_last p.
Proof.
  destruct rest as [|t rest]; cbn [set_path]; [by intros [= <-]|].
  destruct (vec_at last t) as [x| | |]; cbn [mbind Res_bind]; try done.
  destruct (set_path k last _ rest) as [c| | |]; cbn [mbind Res_bind]; try done.
  destruct (vec_set (pt_kids p) t _) as [kids| | |]; cbn [mbind Res_bind]; try done. by intros [= <-].
Qed.

Lemma update_tree_seen cards rest last p p' : full_kids cards p ->
  (forall t, t ∈ rest -> 0 <= t < vec_size cards) ->
  update_tree (length cards) last p rest = Ok p' ->
  pt_last p' = pt_last p /\ forall o v, seen p o v -> seen p' o v.
Proof.
  revert p p'. induction rest as [|t rest IH]; intros p p' Hp Hr; [by intros [= <-]|].
  assert (Hkp : length (pt_kids p) = length cards) by (by apply (Hp [] [] p)).
  assert (Ht : 0 <= t < vec_size cards) by (apply Hr; by left).
  cbn [update_tree]. destruct (vec_at last t) as [x| | |] eqn:Ex; cbn [mbind Res_bind]; try done.
  rewrite (kid_vec_at cards) by done. cbn [mbind Res_bind].
  assert (Hfin : forall c', (kids ← vec_set (pt_kids p) t (Some c'); Ok (PNode (pt_last p) kids)) = Ok p' ->
    (forall c, kid p t = Some c -> pt_last c < pt_last c' \/
      (pt_last c = pt_last c' /\ forall o v, seen c o v -> seen c' o v)) ->
    pt_last p' = pt_last p /\ forall o v, seen p o v -> seen p' o v).
  { intros c' E Hc'. destruct (vec_set (pt_kids p) t (Some c')) as [kids| | |] eqn:Es;
      cbn [mbind Res_bind] in E; try done.
    injection E as <-. apply vec_set_Ok in Es as [_ ->]. split; [done|]. intros o v. by apply (seen_kid cards). }
  destruct (kid p t) as [c|] eqn:Ek.
  - destruct (Z.ltb_spec x (pt_last c)); [done|]. destruct (Z.ltb_spec (pt_last c) x).
    + destruct (set_path _ last _ rest) as [c'| | |] eqn:Ec; cbn [mbind Res_bind]; try done.
      intros E. apply (Hfin c' E). intros ? [= <-]. left. apply set_path_last in Ec. rewrite Ec. done.
    + destruct (update_tree _ last c rest) as [c'| | |] eqn:Ec; cbn [mbind Res_bind]; try done.
      intros E. apply (Hfin c' E). intros ? [= <-]. right.
      destruct (IH c c') as [-> ?]; [|intros; apply Hr; by right|done|done].
      intros ts xs q Hq. apply (Hp (t :: ts) (pt_last c :: xs)). cbn. by rewrite Ek, Hq.
  - cbn [set_path]. rewrite Ex. cbn [mbind Res_bind].
    destruct (set_path _ last (ProgressTree_new _ x) rest) as [c'| | |]; cbn [mbind Res_bind]; try done.
    intros E. by apply (Hfin c' E).
Qed.

(** ** The measure *)
Definition open_pairs (s : JoinState) : list (list Z * list Z) :=
  filter (fun ov => ~ seen (root s) ov.1 ov.2)
    (list_prod (permutations (seqZ 0 (vec_size (cardinalities s)))) (all_tups (cardinalities s))).

Lemma length_filter_lt {A} (P Q : A -> Prop) `{!forall x, Decision (P x)} `{!forall x, Decision (Q x)} (l : list A) x :
  (forall y, Q y -> P y) -> x ∈ l -> P x -> ~ Q x -> (length (filter Q l) < length (filter P l))%nat.
Proof.
  intros HQP Hx HPx HQx.
  assert (Hle : forall k, (length (filter Q k) <= length (filter P k))%nat).
  { induction k as [|y k IH]; [done|]. rewrite !filter_cons.
    destruct (decide (Q y)), (decide (P y)); cbn; try lia. exfalso; eauto. }
  induction l as [|y l IH]; [by apply not_elem_of_nil in Hx|]. rewrite !filter_cons.
  apply elem_of_cons in Hx as [->|Hx].
  - rewrite decide_False, decide_True by done. cbn. pose proof (Hle l). lia.
  - specialize (IH Hx). destruct (decide (Q y)), (decide (P y)); cbn; try lia. exfalso; eauto.
Qed.

Section correct.
Context {T : Type} `{TupleSet T}.
Context (env : Environment) (cond : JoinCode) (Henv : env_ok env cond).
Local Abbreviation cards := (env_cards env).
Local Abbreviation np := (num_preds env).
Local Abbreviation n := (vec_size cards).

(** The tuple an unfinished episode records was not covered before. *)
Lemma fin_fresh (P : list Z -> Prop) s order r0 fin : state_inv cards P s -> is_order cards order ->
  order <> [] -> tup cards fin -> GetLastCompletedTupleIdx s order = Ok r0 ->
  (forall l, r0 = Some l -> lex_lt (proj order l) (proj order fin)) -> ~ seen (root s) order fin.
Proof.
  intros Hs Ho Hne Hfin Hg Hlt (ts & rest & xs & q & Eo & Hp & Hv).
  destruct (GetLastCompletedTupleIdx_ok cards P (cards_pos env cond Henv) s order Hs Ho Hne) as (r1 & Hg' & Hro).
  assert (r1 = r0) as -> by congruence.
  pose proof (ro_ahead _ _ _ _ _ Hro fin Hfin Hlt ts rest xs q Eo Hp) as Hnlt.
  destruct Hv as [?|[-> Hv]]; [done|]. rewrite app_nil_r in Eo. subst ts xs.
  unfold GetLastCompletedTupleIdx in Hg. rewrite (sv_cards _ _ _ Hs) in Hg.
  rewrite (resume_path cards P s order fin q Hs Ho Hfin Hp) in Hg'. injection Hg' as <-.
  apply (lex_lt_irrefl (proj order fin)). by apply Hlt.
Qed.

Lemma Execute_progress s e S order :
  state_inv cards (DoneS np cond S) s -> eng env cond e S -> finished s = false ->
  is_order cards order -> 2 * n < budget_per_episode env ->
  exists rew s' e' S', Execute env cond s e order = Ok (rew, s', e') /\
    S ⊆ S' /\ state_inv cards (DoneS np cond S') s' /\ eng env cond e' S' /\
    (finished s' = true \/ (length (open_pairs s') < length (open_pairs s))%nat).
Proof.
  intros Hs He Hnf Ho Hb.
  destruct (Execute_ok env cond Henv s e S order Hs He Hnf Ho Hb)
    as (rew & s' & e' & S' & r0 & fin & Hex & HS & Hs' & He' & Hg & Hu & Hfo & Hfin & Hset).
  exists rew, s', e', S'. split_and!; try done. destruct (finished s') eqn:Ef'; [by left|right].
  destruct (Hset eq_refl) as (_ & [q Hq] & _). unfold open_pairs.
  rewrite (sv_cards _ _ _ Hs), (sv_cards _ _ _ Hs').
  apply (length_filter_lt _ _ _ (order, fin)); cbn.
  - intros [o v]. cbn. intros Hn Hseen. apply Hn. unfold Update in Hu. rewrite Hnf in Hu.
    destruct (IsJoinCompleted _ _) as [[]| | |]; cbn [mbind Res_bind] in Hu; try done.
    { injection Hu as <-. done. }
    destruct (update_offset _ _ _ _) as [off| | |]; cbn [mbind Res_bind] in Hu; try done.
    rewrite (order_length cards order Ho) in Hu.
    destruct (update_tree _ _ _ _) as [p'| | |] eqn:Et; cbn [mbind Res_bind] in Hu; try done.
    injection Hu as <-. cbn. apply (update_tree_seen cards order fin (root s) p'); try done.
    + intros ts xs r Hr. apply (sv_tree _ _ _ Hs _ _ _ Hr).
    + intros t Ht. by eapply order_range.
  - apply list_elem_of_In, List.in_prod_iff. split; apply list_elem_of_In;
      [by apply permutations_Permutation|]. apply tup_all_tups. apply Hfo.
  - apply (fin_fresh (DoneS np cond S) s order r0 fin); try done; [by apply (order_nonempty env cond)|apply Hfo|].
    destruct (fo_prog _ _ _ _ _ _ Hfo) as [Hmax|?]; [|done]. by apply Hfin in Hmax.
  - intros Hn. apply Hn. exists order, [], (proj order fin), q. rewrite app_nil_r. split_and!; [done..|by right].
Qed.

Lemma join_loop_ok choose fuel rewards s e S : (forall h, is_order cards (choose h)) ->
  2 * n < budget_per_episode env ->
  state_inv cards (DoneS np cond S) s -> eng env cond e S -> (length (open_pairs s) < fuel)%nat ->
  exists e' S', join_loop cond choose env fuel rewards s e = Ok e' /\ eng env cond e' S' /\
    forall v, tup cards v -> DoneS np cond S' v.
Proof.
  intros Hch Hb. revert rewards s e S. induction fuel as [|fuel IH]; intros rewards s e S Hs He Hm; [lia|].
  cbn [join_loop]. unfold IsComplete. destruct (finished s) eqn:Ef.
  { exists e, S. split_and!; try done. by apply (sv_finished _ _ _ Hs). }
  destruct (Execute_progress s e S (choose rewards) Hs He Ef (Hch rewards) Hb)
    as (rew & s' & e' & S' & -> & HS & Hs' & He' & Hprog). cbn [mbind Res_bind].
  destruct Hprog as [Hf|Hlt].
  - exists e', S'. destruct fuel; cbn [join_loop]; unfold IsComplete; rewrite Hf; (split_and!; try done;
      by apply (sv_finished _ _ _ Hs')).
  - apply (IH _ s' e' S'); [done..|lia].
Qed.

Lemma JoinState_new_inv (P : list Z -> Prop) : (forall t, 0 <= t < n -> 0 < get cards t) ->
  state_inv cards P (JoinState_new cards).
Proof.
  intros Hpos. unfold JoinState_new. split; cbn; try done.
  - intros ts xs q Hp. apply path_bare in Hp as (-> & -> & ->). split_and!; [apply length_replicate|constructor|].
    intros v Hv [[]|[Hl _]]. exfalso. apply (eo_nonempty _ _ Henv). by destruct cards.
  - apply length_replicate.
  - intros t Ht. pose proof (Hpos t Ht). unfold get at 1 2 4. unfold vec_size in Ht.
    assert (Hr : replicate (length cards) (-1) !!! Z.to_nat t = -1).
    { apply lookup_total_replicate_2. lia. }
    rewrite Hr. split; [lia|]. intros v Hv Hle. pose proof (proj2 Hv t Ht). unfold get in *. lia.
Qed.
End correct.

(** ** The join as a whole *)
Record join_input (cards : list Z) (np nf : Z) (ptf : gmap (Z * Z) Z)
    (cond : JoinCode) : Prop := {
  ji_nonempty : cards <> [];
  ji_cards : forall c, c ∈ cards -> 0 <= c <= INT32_MAX;
  ji_range : forall p t f, ptf !! (p, t) = Some f ->
    0 <= p < np /\ 0 <= t < vec_size cards /\ 0 <= f < nf;
  ji_some : forall p, 0 <= p < np -> exists t f, ptf !! (p, t) = Some f;
  ji_inj : forall p t p' t' f, ptf !! (p, t) = Some f -> ptf !! (p', t') = Some f -> p = p' /\ t = t';
  ji_local : forall p v w, (forall t f, ptf !! (p, t) = Some f -> get v t = get w t) -> cond p v = cond p w;
  ji_index : index_ok cards ptf cond;
}.

Lemma get_elem (l : list Z) t : 0 <= t < vec_size l -> get l t ∈ l.
Proof.
  unfold vec_size, get. intros Ht. apply list_elem_of_lookup_2 with (Z.to_nat t).
  apply list_lookup_lookup_total_lt. lia.
Qed.

Lemma join_input_env cards np nf ptf cond b con : join_input cards np nf ptf cond ->
  (forall c, c ∈ cards -> c <> 0) -> env_ok (MkEnv np nf b ptf con cards) cond.
Proof.
  intros [Hne Hc Hr Hs Hi Hl Hix] Hnz. split; cbn; try done.
  - split; try done.
    + intros t Ht. pose proof (get_elem cards t Ht) as Hin. pose proof (Hc _ Hin). pose proof (Hnz _ Hin). lia.
    + intros p t f Hf. pose proof (Hr _ _ _ Hf). tauto.
  - intros p t f Hf. by apply (Hr _ _ _ Hf).
Qed.

Lemma read_cells_drop (pre l : list Z) :
  read_cells (pre ++ l) (seqZ (vec_size pre) (vec_size l)) = Ok l.
Proof.
  revert pre. induction l as [|x l IH]; intros pre; [done|].
  unfold vec_size at 2. cbn [length]. rewrite seqZ_cons by lia.
  cbn [read_cells].
  assert (Ex : vec_at (pre ++ x :: l) (vec_size pre) = Ok x) by (apply vec_at_nat; by rewrite list_lookup_middle).
  rewrite Ex.
  cbn [mbind Res_bind]. specialize (IH (pre ++ [x])). rewrite <- app_assoc in IH. cbn in IH.
  replace (Z.succ (vec_size pre)) with (vec_size (pre ++ [x])) by
    (unfold vec_size; rewrite length_app; cbn; lia).
  replace (Z.pred (Z.of_nat (S (length l)))) with (vec_size l) by (unfold vec_size; lia).
  by rewrite IH.
Qed.

Lemma ReconstructCardinalities_spec (cards : list Z) :
  ReconstructCardinalities (vec_size cards) cards = Ok cards.
Proof. apply (read_cells_drop []). Qed.

Lemma all_tups_zero cards : 0 ∈ cards -> all_tups cards = [].
Proof.
  intros H0. destruct (all_tups cards) as [|v l] eqn:E; [done|]. exfalso.
  assert (Hv : v ∈ all_tups cards) by (rewrite E; by left). apply elem_of_all_tups in Hv.
  apply list_elem_of_lookup_1 in H0 as [i Hi]. destruct (Forall2_lookup_l _ _ _ _ _ Hv Hi) as (x & _ & Hx). lia.
Qed.

(** A number of episodes that is always enough. *)
Definition max_episodes (cards : list Z) : nat :=
  S (length (permutations (seqZ 0 (vec_size cards))) * length (all_tups cards)).

Lemma open_pairs_bound cards : (length (open_pairs (JoinState_new cards)) < max_episodes cards)%nat.
Proof.
  unfold open_pairs, max_episodes. cbn [JoinState_new cardinalities]. rewrite <- List.length_prod.
  pose proof (length_filter (fun ov => ~ seen (root (JoinState_new cards)) ov.1 ov.2)
    (list_prod (permutations (seqZ 0 (vec_size cards))) (all_tups cards))). lia.
Qed.

(** The state the generated code passes to the join. *)
Record initial_engine {T} `{TupleSet T} (cards : list Z) (nf : Z) (e : Engine T) : Prop := {
  ie_idx : idx_arr e = cards;
  ie_handlers : vec_size (join_handler_fn_arr e) = vec_size cards;
  ie_flags : vec_size (flag_arr e) = nf;
  ie_prog : vec_size (progress_arr e) = vec_size cards;
  ie_off : vec_size (offset_arr e) = vec_size cards;
  ie_table : ts_holds (length cards) (tuple_table e) ∅;
  ie_emit : emitted e = [];
}.

Lemma skinner_join_result {T} `{TupleSet T} cards np nf ptf cond con budget choose fuel (e : Engine T) :
  join_input cards np nf ptf cond -> initial_engine cards nf e ->
  2 * vec_size cards < budget -> (forall h, is_order cards (choose h)) ->
  (max_episodes cards <= fuel)%nat ->
  exists e', ExecutePermutableSkinnerJoin cond choose fuel (vec_size cards) np nf budget ptf con e = Ok e' /\
    emitted e' ≡ₚ nested_loop_join cards np cond.
Proof.
  intros Hin Hie Hb Hch Hf. unfold ExecutePermutableSkinnerJoin.
  rewrite (ie_idx _ _ _ Hie), ReconstructCardinalities_spec. cbn [mbind Res_bind].
  destruct (existsb (fun x => x =? 0) cards) eqn:Ez.
  { apply existsb_exists in Ez as (x & Hx%list_elem_of_In & ->%Z.eqb_eq). exists e. split; [done|].
    unfold nested_loop_join. by rewrite (ie_emit _ _ _ Hie), all_tups_zero. }
  assert (Hnz : forall c, c ∈ cards -> c <> 0).
  { intros c Hc ->. assert (existsb (fun x => x =? 0) cards = true); [|congruence].
    apply existsb_exists. exists 0. split; [by apply list_elem_of_In|done]. }
  set (env := MkEnv np nf budget ptf con cards).
  pose proof (join_input_env cards np nf ptf cond budget con Hin Hnz) as Henv.
  destruct (join_loop_ok env cond Henv choose fuel [] (JoinState_new cards) e ∅ Hch Hb)
    as (e' & S' & -> & He' & Hall).
  - apply (JoinState_new_inv env cond Henv). apply (cards_pos env cond Henv).
  - destruct Hie as [Hi ? ? ? ? ? Hem]. split; cbn; try done.
    + by rewrite Hi.
    + rewrite Hem. split; [apply NoDup_nil_2|]. intros x. rewrite elem_of_nil, elem_of_empty. done.
  - pose proof (open_pairs_bound cards). cbn. lia.
  - exists e'. split; [done|]. destruct (eg_emit _ _ _ _ He') as [Hnd Hem]. cbn in *.
    apply NoDup_Permutation; [done|by apply list.NoDup_filter, NoDup_all_tups|].
    intros x. rewrite Hem. unfold nested_loop_join. rewrite list_elem_of_filter, validb_spec, <- tup_all_tups.
    split.
    + intros Hx. destruct (eg_sound _ _ _ _ He' x Hx). tauto.
    + intros [? ?]. by apply Hall.
Qed.

(** The tuple index table of the source is such a set. *)
#[global] Instance TupleIdxTable_set : TupleSet TupleIdxTable.
Proof.
  refine {| ts_Insert := Insert; ts_holds := table_rep |}. intros m t S x Ht Hl Hx.
  destruct (Insert_spec m t S x Ht Hl Hx) as (t' & HI & Hr). exists (bool_decide (x ∉ S)), t'.
  split; [done|]. split; [by rewrite bool_decide_eq_true|done].
Defined.

(** ** Properties *)

(** C1. The join is a nested-loop join.  For tables of up to 2^31 - 1 rows,
    predicates that depend on the tables they name, indexes whose buckets are the
    tuples an equality predicate accepts, a budget of more than two steps per table and any strategy that picks join orders, the main loop of
    [ExecutePermutableSkinnerJoin] ends, without an exception, after at most
    [max_episodes] episodes, and the tuple combinations handed to the parent
    operator are exactly the combinations all predicates accept, each once. *)
Theorem skinner_join_correct (cards : list Z) (np nf budget : Z) (ptf : gmap (Z * Z) Z)
    (con : gset (Z * Z)) (cond : JoinCode) (choose : list spec_float -> list Z)
    (fuel : nat) (e : Engine TupleIdxTable) :
  join_input cards np nf ptf cond -> initial_engine cards nf e ->
  2 * vec_size cards < budget -> (forall h, is_order cards (choose h)) ->
  (max_episodes cards <= fuel)%nat ->
  exists e', ExecutePermutableSkinnerJoin cond choose fuel (vec_size cards) np nf budget ptf con e = Ok e' /\
    emitted e' ≡ₚ nested_loop_join cards np cond.
Proof. apply skinner_join_result. Qed.


(** Recording and resuming.  When [Update] records the tuple an order got to
    and the join is not finished by it, [GetLastCompletedTupleIdx] of the same
    order gives this tuple back. *)
Theorem resume_after_update (cards : list Z) (P : list Z -> Prop) (s s' : JoinState) (order fin : list Z) :
  state_inv cards P s -> finished s = false -> is_order cards order -> order <> [] -> tup cards fin ->
  (forall v, tup cards v -> lex_le (proj order v) (proj order fin) -> P v) ->
  ahead (root s) order fin -> Update s order fin = Ok s' -> finished s' = false ->
  state_inv cards P s' /\ GetLastCompletedTupleIdx s' order = Ok (Some fin).
Proof.
  intros Hs Hnf Ho Hne Hfin Hd Ha Hu Hf.
  destruct (Update_ok cards P s order fin Hs Hnf Ho Hne Hfin Hd Ha) as (s1 & Hu1 & Hs1 & _ & Hset).
  assert (s1 = s') as -> by congruence. split; [done|].
  destruct (Hset Hf) as (_ & [q Hq] & _). by apply (resume_path cards P s' order fin q).
Qed.

Module SkinnerDemo.
(** Two tables of two and three rows with the equality predicate that the row
    numbers are the same, and an index of both. *)
Definition cards : list Z := [2; 3].
Definition ptf : gmap (Z * Z) Z := {[ (0, 0) := 0; (0, 1) := 1 ]}.
Definition cond : JoinCode := MkCode
  (fun p v => if p =? 0 then Some (get v 0 =? get v 1) else None) (fun p => p =? 0)
  (fun p t v => Some (bucket_of (filter (fun x => x = get v (1 - t)) (seqZ 0 (get cards t))))) 2.
Definition engine (cards : list Z) (nf : nat) : Engine TupleIdxTable :=
  MkEngine (Some <$> seqZ 0 (vec_size cards)) (replicate nf 0) (replicate (length cards) 0) 0 cards 0
    (replicate (length cards) 0) Create [].

(** A strategy that alternates between the two orders. *)
Definition choose (h : list spec_float) : list Z := if Nat.even (length h) then [0; 1] else [1; 0].

Lemma input : join_input cards 1 2 ptf cond.
Proof.
  assert (Hl : forall p t f, ptf !! (p, t) = Some f -> p = 0 /\ ((t = 0 /\ f = 0) \/ (t = 1 /\ f = 1))).
  { intros p t f Hf. unfold ptf in Hf. apply lookup_insert_Some in Hf as [[[= <- <-] <-]|[_ Hf]]; [auto|].
    apply lookup_singleton_Some in Hf as [[= <- <-] <-]. auto. }
  split.
  - done.
  - intros c Hc. unfold INT32_MAX. apply elem_of_cons in Hc as [->|Hc]; [lia|].
    apply list_elem_of_singleton in Hc as ->. lia.
  - intros p t f Hf%Hl. unfold vec_size. cbn. lia.
  - intros p Hp. exists 0, 0. assert (p = 0) as -> by lia. done.
  - intros p t p' t' f Hf%Hl Hf'%Hl. lia.
  - intros p v w Hvw. cbn. destruct (Z.eqb_spec p 0) as [->|]; [|done].
    by rewrite (Hvw 0 0), (Hvw 1 1).
  - split.
    + intros p t f _ Hf%Hl. destruct Hf as [-> [[-> ->]|[-> ->]]]; [by exists 1, 1|by exists 0, 0].
    + intros p t f v _ Hf%Hl Hv _. cbn [index_bucket cond]. set (l := filter _ _). exists l.
      split; [apply holds_bucket_of|]. split; [|split].
      * apply incr_filter. intros i j x y Hx Hy Hij. apply lookup_seqZ in Hx as [-> ?], Hy as [-> ?]. lia.
      * unfold l, vec_size. pose proof (length_filter (fun x => x = get v (1 - t)) (seqZ 0 (get cards t))) as Hlen.
        rewrite length_seqZ in Hlen. assert (get cards t <= 3) by (destruct Hf as [_ [[-> _]|[-> _]]]; by vm_compute). lia.
      * intros x. unfold l. rewrite list_elem_of_filter, elem_of_seqZ.
        assert (0 <= t < vec_size v) by (rewrite Hv; unfold vec_size; cbn; lia).
        destruct Hf as [-> [[-> _]|[-> _]]]; cbn [code_cond cond Z.eqb]; rewrite !get_upd by lia;
          repeat (first [rewrite decide_True by done|rewrite decide_False by done]).
        -- rewrite (inj_iff Some), Z.eqb_eq. change (1 - 0) with 1; change (1 - 1) with 0. split; intros [? ?]; split; lia.
        -- rewrite (inj_iff Some), Z.eqb_eq. change (1 - 0) with 1; change (1 - 1) with 0. split; intros [? ?]; split; lia.
    + intros t. unfold vec_size. cbn [bucket_list_max_size cond].
      pose proof (length_filter (fun q : Z * Z * Z => q.1.2 = t /\ IsEqualityPredicate cond q.1.1 = true) (map_to_list ptf)) as Hlen.
      assert (length (map_to_list ptf) = 2%nat) by by vm_compute. lia.
Qed.

Lemma engine_initial cards nf : cards <> [] -> initial_engine cards (Z.of_nat nf) (engine cards nf).
Proof.
  intros Hne. split; cbn; try apply Create_rep; unfold vec_size;
    rewrite ?length_replicate, ?length_fmap, ?length_seqZ, ?Nat2Z.id; done.
Qed.

Lemma choose_order h : is_order cards (choose h).
Proof. unfold choose, is_order. cbn. destruct (Nat.even (length h)); [done|]. apply Permutation_swap. Qed.

Definition env : Environment := MkEnv 1 2 5 ptf ∅ cards.

Lemma env_fine : env_ok env cond.
Proof.
  apply (join_input_env cards 1 2 ptf cond 5 ∅ input). intros c Hc.
  apply elem_of_cons in Hc as [->|Hc]; [lia|]. apply list_elem_of_singleton in Hc as ->. lia.
Qed.

Lemma new_state_inv P : state_inv cards P (JoinState_new cards).
Proof. apply (JoinState_new_inv env cond env_fine). apply (cards_pos env cond env_fine). Qed.

Lemma engine_eng : eng env cond (engine cards 2) ∅.
Proof.
  destruct (engine_initial cards 2 ltac:(done)) as [Hi ? ? ? ? ? Hem]. split; cbn; try done.
  split; [apply NoDup_nil_2|]. intros x. rewrite elem_of_nil, elem_of_empty. done.
Qed.
End SkinnerDemo.

Lemma skinner_join_correct_witness : exists e',
  ExecutePermutableSkinnerJoin SkinnerDemo.cond SkinnerDemo.choose 13 2 1 2 5 SkinnerDemo.ptf ∅
    (SkinnerDemo.engine SkinnerDemo.cards 2) = Ok e' /\
  emitted e' ≡ₚ [[0; 0]; [1; 1]].
Proof.
  apply (skinner_join_correct SkinnerDemo.cards 1 2 5 SkinnerDemo.ptf ∅ SkinnerDemo.cond SkinnerDemo.choose 13
    (SkinnerDemo.engine SkinnerDemo.cards 2)).
  - apply SkinnerDemo.input.
  - by apply (SkinnerDemo.engine_initial SkinnerDemo.cards 2).
  - by vm_compute.
  - apply SkinnerDemo.choose_order.
  - by apply Nat.leb_le; vm_compute.
Defined.


Lemma resume_after_update_witness : exists s',
  Update (JoinState_new [2; 3]) [1; 0] [0; 1] = Ok s' /\
  state_inv [2; 3] (fun _ => True) s' /\ GetLastCompletedTupleIdx s' [1; 0] = Ok (Some [0; 1]).
Proof.
  eexists. split; [vm_compute; reflexivity|].
  apply (resume_after_update [2; 3] (fun _ => True) (JoinState_new [2; 3])); try done.
  - apply (SkinnerDemo.new_state_inv (fun _ => True)).
  - apply (SkinnerDemo.choose_order [F_of_Z 0]).
  - apply tup_all_tups. vm_compute. by repeat constructor.
  - intros ts rest xs q Eo Hp. apply path_bare in Hp as (-> & -> & ->). by intros [].
Defined.

(** No predicates. *)
Definition no_code : JoinCode := MkCode (fun _ _ => None) (fun _ => false) (fun _ _ _ => None) 0.

(** A budget that is too small loses results.  With one step per episode,
    the scan of a single table stops before its first tuple; going back from
    there, [ComputeLastCompletedTuple] wraps around to the last tuple of the
    table, and the join is complete without having produced anything. *)
Theorem small_budget_loses : exists e',
  ExecutePermutableSkinnerJoin no_code (fun _ => [0]) 1 1 0 0 1 ∅ ∅ (SkinnerDemo.engine [2] 0) = Ok e' /\
  emitted e' = [] /\ nested_loop_join [2] 0 no_code = [[0]; [1]].
Proof. eexists. split; [vm_compute; reflexivity|]. split; reflexivity. Qed.
