(* ===== verification/SkinnerUct.v ===== *)
(** * Skinner join: the agent that picks join orders

    [UctNode] and [UctJoinAgent] of src/runtime/skinner_join_executor.cc: a
    search tree over join orders that learns from the rewards of the episodes.
    A node stands for a prefix of the order; an action of a node is a table that
    is not joined yet.  The agent only sees the environment through the
    interface [JoinEnvironment].

    The random engine, [std::shuffle], [std::log] and [std::sqrt] are arguments;
    a node's engine is seeded by the clock, so that the engine of a new node is
    an arbitrary function of the round and the tables joined.  The branches for
    [USE_HEURISTIC_ == false] are dead code ([USE_HEURISTIC_] is a constant). *)
From Stdlib Require Import SpecFloat.
From S2P Require Import Prelude ProgramBuilder Doubles SkinnerState SkinnerExec.

(** The abstract class [JoinEnvironment], as the agent uses it. *)
Class JoinEnvironment (E : Type) := {
  env_IsConnected : E -> list Z -> Z -> bool;
  env_Execute : E -> list Z -> Res (spec_float * E);
}.

(** The library functions the agent calls. *)
Record Library (G : Type) := MkLib {
  rng_next : G -> Z * G;
  rng_shuffle : G -> list Z -> list Z * G;
  rng_seed : Z -> gset Z -> G;
  lib_log : spec_float -> spec_float;
  lib_sqrt : spec_float -> spec_float;
}.
Arguments MkLib {G}.
Arguments rng_next {G} _ _.
Arguments rng_shuffle {G} _ _ _.
Arguments rng_seed {G} _ _ _.
Arguments lib_log {G} _ _.
Arguments lib_sqrt {G} _ _.

(** The fields of a node; the reference to the environment is threaded. *)
Record NodeData (G : Type) := MkData {
  created_in : Z;
  tree_level : Z;
  num_tables : Z;
  num_actions : Z;
  priority_actions : list Z;
  num_visits : Z;
  num_tries_per_action : list Z;
  acc_reward_per_action : list spec_float;
  joined_tables : gset Z;
  recommended_actions : gset Z;
  unjoined_tables : list Z;
  table_per_action : list Z;
  rng : G;
}.
Arguments MkData {G}.
Arguments created_in {G} _.
Arguments tree_level {G} _.
Arguments num_tables {G} _.
Arguments num_actions {G} _.
Arguments priority_actions {G} _.
Arguments num_visits {G} _.
Arguments num_tries_per_action {G} _.
Arguments acc_reward_per_action {G} _.
Arguments joined_tables {G} _.
Arguments recommended_actions {G} _.
Arguments unjoined_tables {G} _.
Arguments table_per_action {G} _.
Arguments rng {G} _.

#[warnings="-register-all"]
Inductive UctNode (G : Type) : Type :=
| Node (d : NodeData G) (child_nodes : list (option (UctNode G))).
Arguments Node {G}.

Definition F_zero : spec_float := F_of_Z 0.
Definition F_neg_one : spec_float := F_of_Z (-1).
(** [EXPLORATION_WEIGHT_], the double nearest to 1E-5. *)
Definition EXPLORATION_WEIGHT : spec_float := F_div (F_of_Z 1) (F_of_Z 100000).

(** [table_per_action_[action++] = table] for each table. *)
Fixpoint fill_actions (tpa : list Z) (action : Z) (tables : list Z) : Res (list Z) :=
  match tables with
  | [] => Ok tpa
  | t :: tables => tpa ← vec_set tpa action t; fill_actions tpa (action + 1) tables
  end.

(** [std::find] and [erase]; erasing the end iterator is undefined. *)
Fixpoint erase_first (x : Z) (l : list Z) : Res (list Z) :=
  match l with
  | [] => UB
  | y :: l => if y =? x then Ok l else rest ← erase_first x l; Ok (y :: rest)
  end.

Section uct.
Context {G E : Type} `{JoinEnvironment E} (lib : Library G).

(** The constructor of the root; a negative vector size throws. *)
Definition UctNode_root (round_ctr n : Z) (already_joined : list Z) : Res (UctNode G) :=
  let na := n - vec_size already_joined in
  if na <? 0 then Throw "vector" else
  let joined := list_to_set already_joined in
  let unjoined := filter (fun i => i ∉ joined) (seqZ 0 n) in
  tpa ← fill_actions (replicate (Z.to_nat na) 0) 0 unjoined;
  Ok (Node (MkData round_ctr 0 n na (seqZ 0 na) 0 (replicate (Z.to_nat na) 0)
              (replicate (Z.to_nat na) F_zero) joined (list_to_set (seqZ 0 na)) unjoined tpa
              (rng_seed lib round_ctr joined))
        (replicate (Z.to_nat na) None)).

(** The actions whose table is connected to the joined ones. *)
Fixpoint connected_actions (env : E) (joined : gset Z) (tpa : list Z) (acts : list Z) : Res (gset Z) :=
  match acts with
  | [] => Ok ∅
  | i :: acts =>
      table ← vec_at tpa i;
      rest ← connected_actions env joined tpa acts;
      Ok (if env_IsConnected env (elements joined) table then {[i]} ∪ rest else rest)
  end.

(** The constructor of a child. *)
Definition UctNode_child (env : E) (round_ctr : Z) (parent : NodeData G) (joined_table : Z) : Res (UctNode G) :=
  let na := num_actions parent - 1 in
  if na <? 0 then Throw "vector" else
  let joined := {[joined_table]} ∪ joined_tables parent in
  unjoined ← erase_first joined_table (unjoined_tables parent);
  tpa ← fill_actions (replicate (Z.to_nat na) 0) 0 unjoined;
  recommended ← connected_actions env joined tpa (seqZ 0 na);
  let recommended := if decide (recommended = ∅) then list_to_set (seqZ 0 na) else recommended in
  Ok (Node (MkData round_ctr (tree_level parent + 1) (num_tables parent) na
              (filter (fun i => i ∈ recommended) (seqZ 0 na)) 0 (replicate (Z.to_nat na) 0)
              (replicate (Z.to_nat na) F_zero) joined recommended unjoined tpa
              (rng_seed lib round_ctr joined))
        (replicate (Z.to_nat na) None)).

Definition set_rng (d : NodeData G) (prio : list Z) (g : G) : NodeData G :=
  MkData (created_in d) (tree_level d) (num_tables d) (num_actions d) prio (num_visits d)
    (num_tries_per_action d) (acc_reward_per_action d) (joined_tables d) (recommended_actions d)
    (unjoined_tables d) (table_per_action d) g.

(** The quality of an action in [SelectAction]. *)
Definition quality (d : NodeData G) (action : Z) : Res spec_float :=
  acc ← vec_at (acc_reward_per_action d) action;
  tries ← vec_at (num_tries_per_action d) action;
  let mean_reward := F_div acc (F_of_Z tries) in
  let exploration := lib_sqrt lib (F_div (lib_log lib (F_of_Z (num_visits d))) (F_of_Z tries)) in
  Ok (F_add mean_reward (F_mul EXPLORATION_WEIGHT exploration)).

(** The loop over the actions, starting at a random one. *)
Fixpoint best_loop (d : NodeData G) (offset : Z) (best_action : Z) (best_quality : spec_float)
    (idxs : list Z) : Res Z :=
  match idxs with
  | [] => Ok best_action
  | action_idx :: idxs =>
      let action := (offset + action_idx) mod num_actions d in
      if decide (recommended_actions d = ∅) then Throw "no recommended actions with heuristic."
      else if bool_decide (action ∉ recommended_actions d) then best_loop d offset best_action best_quality idxs
      else
        q ← quality d action;
        if SFltb best_quality q then best_loop d offset action q idxs
        else best_loop d offset best_action best_quality idxs
  end.

Definition SelectAction (d : NodeData G) : Res (Z * NodeData G) :=
  let '(r, g) := rng_next lib (rng d) in
  match priority_actions d with
  | [] =>
      best ← best_loop d (r mod num_actions d) (-1) F_neg_one (seqZ 0 (num_actions d));
      Ok (best, set_rng d [] g)
  | prio =>
      let action_idx := r mod vec_size prio in
      action ← vec_at prio action_idx;
      Ok (action, set_rng d (delete (Z.to_nat action_idx) prio) g)
  end.

Definition UpdateStatistics (d : NodeData G) (action : Z) (reward : spec_float) : Res (NodeData G) :=
  tries ← vec_at (num_tries_per_action d) action;
  new_tries ← vec_set (num_tries_per_action d) action (tries + 1);
  acc ← vec_at (acc_reward_per_action d) action;
  new_acc ← vec_set (acc_reward_per_action d) action (F_add acc reward);
  Ok (MkData (created_in d) (tree_level d) (num_tables d) (num_actions d) (priority_actions d)
        (num_visits d + 1) new_tries new_acc (joined_tables d) (recommended_actions d)
        (unjoined_tables d) (table_per_action d) (rng d)).

(** The two searches of [Playout] for the table at one position: a connected
    one, or else any that is not joined. *)
Definition next_connected (env : E) (joined : gset Z) (unjoined : list Z) : option Z :=
  List.find (fun t => bool_decide (t ∉ joined) && env_IsConnected env (elements joined) t) unjoined.

Definition next_any (joined : gset Z) (unjoined : list Z) : option Z :=
  List.find (fun t => bool_decide (t ∉ joined)) unjoined.

Fixpoint playout_loop (env : E) (unjoined : list Z) (joined : gset Z) (order : list Z)
    (positions : list Z) : Res (list Z) :=
  match positions with
  | [] => Ok order
  | pos :: positions =>
      match (match next_connected env joined unjoined with
             | Some t => Some t
             | None => next_any joined unjoined
             end) with
      | Some t =>
          order ← vec_set order pos t;
          playout_loop env unjoined ({[t]} ∪ joined) order positions
      | None => playout_loop env unjoined joined order positions
      end
  end.

Definition Playout (env : E) (d : NodeData G) (order : list Z)
    : Res (spec_float * NodeData G * list Z * E) :=
  let k := Z.of_nat (size (joined_tables d)) in
  last_table ← vec_at order k;
  let joined := {[last_table]} ∪ joined_tables d in
  let unjoined := filter (fun i => (i ∉ joined_tables d) /\ i <> last_table) (seqZ 0 (num_tables d)) in
  let '(unjoined, g) := rng_shuffle lib (rng d) unjoined in
  order ← playout_loop env unjoined joined order (seqZ (k + 1) (num_tables d - (k + 1)));
  '(reward, env) ← env_Execute env order;
  Ok (reward, set_rng d (priority_actions d) g, order, env).

(** [Sample]; each level joins one table, [fuel] counts the levels. *)
Fixpoint Sample (fuel : nat) (env : E) (round_ctr : Z) (node : UctNode G) (order : list Z)
    : Res (spec_float * UctNode G * list Z * E) :=
  match fuel with
  | O => NoFuel
  | S fuel =>
      let 'Node d kids := node in
      if num_actions d =? 0 then
        '(reward, env) ← env_Execute env order;
        Ok (reward, node, order, env)
      else
        '(action, d) ← SelectAction d;
        table ← vec_at (table_per_action d) action;
        order ← vec_set order (Z.of_nat (size (joined_tables d))) table;
        child ← vec_at kids action;
        child ← (match child with
                 | None =>
                     if created_in d =? round_ctr then Ok None
                     else (c ← UctNode_child env round_ctr d table; Ok (Some c))
                 | Some c => Ok (Some c)
                 end);
        '(reward, d, child, order, env) ←
          (match child with
           | Some c =>
               '(reward, c, order, env) ← Sample fuel env round_ctr c order;
               Ok (reward, d, Some c, order, env)
           | None =>
               '(reward, d, order, env) ← Playout env d order;
               Ok (reward, d, None, order, env)
           end);
        kids ← vec_set kids action child;
        d ← UpdateStatistics d action reward;
        Ok (reward, Node d kids, order, env)
  end.

(** ** The agent *)
Record UctJoinAgent := MkAgent {
  round_ctr : Z;
  agent_num_tables : Z;
  should_forget : bool;
  next_forget : Z;
  joined : list Z;
  agent_root : UctNode G;
  agent_order : list Z;
}.

Definition UctJoinAgent_new (n : Z) (forget : bool) (already_joined : list Z) : Res UctJoinAgent :=
  r ← UctNode_root 0 n already_joined;
  order ← fill_actions (replicate (Z.to_nat n) 0) 0 already_joined;
  Ok (MkAgent 0 n forget 10 already_joined r order).

Definition Act (a : UctJoinAgent) (env : E) : Res (UctJoinAgent * E) :=
  let round := round_ctr a + 1 in
  '(_, node, order, env) ←
    Sample (S (Z.to_nat (agent_num_tables a))) env round (agent_root a) (agent_order a);
  if should_forget a && (round =? next_forget a) then
    node ← UctNode_root round (agent_num_tables a) (joined a);
    Ok (MkAgent round (agent_num_tables a) (should_forget a) (next_forget a * 10) (joined a) node order, env)
  else Ok (MkAgent round (agent_num_tables a) (should_forget a) (next_forget a) (joined a) node order, env).
End uct.

(** ** Doubles that are not negative *)
Definition nonneg (x : spec_float) : Prop :=
  match x with
  | S754_zero _ | S754_infinity false | S754_finite false _ _ => True
  | _ => False
  end.

Lemma shr_1_nonneg mrs : 0 <= shr_m mrs -> 0 <= shr_m (shr_1 mrs).
Proof. destruct mrs as [m r s]. destruct m as [|[?|?|]|?]; cbn; lia. Qed.

Lemma iter_shr_nonneg p mrs : 0 <= shr_m mrs -> 0 <= shr_m (SpecFloat.iter_pos shr_1 p mrs).
Proof.
  revert mrs. induction p as [p IH|p IH|]; intros mrs Hm; cbn.
  - apply IH, IH. by apply shr_1_nonneg.
  - by apply IH, IH.
  - by apply shr_1_nonneg.
Qed.

Lemma shr_fexp_nonneg m e l : 0 <= m -> 0 <= shr_m (shr_fexp prec emax m e l).1.
Proof.
  intros Hm. unfold shr_fexp, shr. assert (0 <= shr_m (shr_record_of_loc m l)) by
    (destruct l as [|[]]; done). destruct (_ - e) as [|p|p]; cbn [fst]; [done| |done].
  by apply iter_shr_nonneg.
Qed.

Lemma round_nonneg m l : 0 <= m -> 0 <= round_nearest_even m l.
Proof. destruct l as [|[]]; cbn; try lia. destruct (Z.even m); lia. Qed.

Lemma round_aux_nonneg m e l : 0 <= m -> nonneg (binary_round_aux prec emax false m e l).
Proof.
  intros Hm. unfold binary_round_aux. pose proof (shr_fexp_nonneg m e l Hm) as H1.
  destruct (shr_fexp prec emax m e l) as [mrs1 e1]. cbn [fst] in H1.
  pose proof (shr_fexp_nonneg (round_nearest_even (shr_m mrs1) (loc_of_shr_record mrs1)) e1 loc_Exact
    (round_nonneg _ _ H1)) as H2.
  destruct (shr_fexp prec emax _ e1 loc_Exact) as [mrs2 e2]. cbn [fst] in H2.
  destruct (shr_m mrs2) as [|p|p]; [done| |lia]. by destruct (e2 <=? emax - prec).
Qed.

Lemma normalize_nonneg m e : 0 <= m -> nonneg (binary_normalize prec emax m e false).
Proof.
  intros Hm. destruct m as [|p|p]; [done| |lia]. cbn. unfold binary_round.
  destruct (shl_align p e _) as [mz ez]. by apply round_aux_nonneg.
Qed.

Lemma add_nonneg x y : nonneg x -> nonneg y -> nonneg (F_add x y).
Proof.
  unfold F_add. destruct x as [[]|[]| |[] mx ex], y as [[]|[]| |[] my ey]; cbn; try done.
  intros _ _. by apply (normalize_nonneg (Zpos _ + Zpos _)).
Qed.

Lemma mul_nonneg x m e : nonneg x -> nonneg (F_mul (S754_finite false m e) x).
Proof.
  unfold F_mul. destruct x as [[]|[]| |[] mx ex]; cbn; try done.
  intros _. by apply (round_aux_nonneg (Zpos _)).
Qed.

Lemma div_nonneg x m e : nonneg x -> nonneg (F_div x (S754_finite false m e)).
Proof.
  unfold F_div. destruct x as [[]|[]| |[] mx ex]; cbn; try done. intros _.
  unfold SFdiv_core_binary. set (s := _ - _ - _).
  set (m' := match s with Z0 => Zpos mx | Zpos _ => Z.shiftl (Zpos mx) s | Zneg _ => 0 end).
  assert (Hm' : 0 <= m') by (subst m'; destruct s; [lia|apply Z.shiftl_nonneg; lia|lia]).
  pose proof (Z_div_mod m' (Zpos m) ltac:(lia)) as Hd. destruct (Z.div_eucl m' (Zpos m)) as [q r].
  apply round_aux_nonneg. nia.
Qed.

Lemma neg_one_lt x : nonneg x -> SFltb F_neg_one x = true.
Proof. by destruct x as [[]|[]| |[] mx ex]. Qed.

(** A positive integer of few bits converts to a positive double. *)
Lemma F_of_Z_pos z : 0 < z < 2 ^ 31 -> exists m e, F_of_Z z = S754_finite false m e.
Proof.
  intros [Hz Hb]. destruct z as [|p|p]; try lia. destruct (F_of_Z_exact p Hb) as (_ & -> & _). by eexists _, _.
Qed.

(** ** Join orders and their prefixes *)
Lemma perm_full (P : list Z) n : NoDup P -> (forall t, t ∈ P -> 0 <= t < n) -> vec_size P = n ->
  P ≡ₚ seqZ 0 n.
Proof.
  intros Hnd Hr Hl. apply submseteq_length_Permutation.
  - apply NoDup_submseteq; [done|]. intros t Ht%Hr. apply elem_of_seqZ. lia.
  - rewrite length_seqZ. unfold vec_size in Hl. lia.
Qed.

(** A prefix that is not complete leaves a table out. *)
Lemma missing_table (P : list Z) n : vec_size P < n -> exists t, 0 <= t < n /\ t ∉ P.
Proof.
  intros Hl. destruct (decide (Forall (fun t => t ∈ P) (seqZ 0 n))) as [Hall|Hn].
  - exfalso. assert (seqZ 0 n ⊆+ P) as Hs%submseteq_length.
    { apply NoDup_submseteq; [apply NoDup_seqZ|]. intros t Ht. by apply (proj1 (Forall_forall _ _) Hall), list_elem_of_In. }
    rewrite length_seqZ in Hs. unfold vec_size in Hl. lia.
  - apply not_Forall_Exists in Hn; [|apply _]. apply list.Exists_exists in Hn as (t & Ht & Hn).
    exists t. apply elem_of_seqZ in Ht. split; [lia|done].
Qed.

(** The vector [order] starts with the prefix [P]. *)
Record pfx (n : Z) (P order : list Z) : Prop := {
  px_len : vec_size order = n;
  px_take : take (length P) order = P;
  px_nodup : NoDup P;
  px_range : forall t, t ∈ P -> 0 <= t < n;
}.

Lemma pfx_le n P order : pfx n P order -> vec_size P <= n.
Proof.
  intros [Hl Ht _ _]. apply (f_equal length) in Ht. rewrite length_take in Ht. unfold vec_size in *. lia.
Qed.

Lemma pfx_full n P order : pfx n P order -> vec_size P = n -> order = P /\ order ≡ₚ seqZ 0 n.
Proof.
  intros Hp Hl. assert (order = P) as ->.
  { rewrite <- (px_take _ _ _ Hp), take_ge; [done|]. pose proof (px_len _ _ _ Hp). unfold vec_size in *. lia. }
  split; [done|]. apply perm_full; [apply Hp|apply Hp|done].
Qed.

Lemma pfx_snoc n P order t : pfx n P order -> vec_size P < n -> 0 <= t < n -> t ∉ P ->
  exists order', vec_set order (vec_size P) t = Ok order' /\ pfx n (P ++ [t]) order' /\
    forall Q, (length Q <= length P)%nat -> take (length Q) order = Q -> take (length Q) order' = Q.
Proof.
  intros [Hl Ht Hnd Hr] Hlt Htr Hn. unfold vec_size in *.
  exists (<[length P := t]> order). split.
  { apply vec_set_Ok. unfold vec_size. split; [lia|]. by rewrite Nat2Z.id. }
  split; [split|].
  - unfold vec_size. by rewrite length_insert.
  - rewrite length_app. cbn. rewrite Nat.add_1_r, take_insert_snoc by lia. by rewrite Ht.
  - apply list.NoDup_app. split_and!; [done| |apply NoDup_singleton]. intros x Hx ->%list_elem_of_singleton. done.
  - intros x [Hx| ->%list_elem_of_singleton]%elem_of_app; auto.
  - intros Q HQ HtQ. rewrite take_insert_ge by lia. done.
Qed.

Lemma set_snoc (P : list Z) t : ({[t]} ∪ list_to_set P : gset Z) = list_to_set (P ++ [t]).
Proof. rewrite list_to_set_app_L. cbn. rewrite (right_id_L ∅ (∪)). apply (comm_L (∪)). Qed.

(** ** [Playout] *)
Section playout.
Context {G E : Type} `{JoinEnvironment E} (lib : Library G).

Lemma find_none {A} (f : A -> bool) l x : List.find f l = None -> x ∈ l -> f x = false.
Proof. intros Hf Hx. apply (List.find_none _ _ Hf). by apply list_elem_of_In. Qed.

Lemma playout_loop_ok env n unjoined k P order :
  pfx n P order -> n = vec_size P + Z.of_nat k -> (forall t, 0 <= t < n -> t ∉ P -> t ∈ unjoined) ->
  (forall t, t ∈ unjoined -> 0 <= t < n) ->
  exists order', playout_loop env unjoined (list_to_set P) order (seqZ (vec_size P) (Z.of_nat k)) = Ok order' /\
    vec_size order' = n /\ order' ≡ₚ seqZ 0 n /\ take (length P) order' = P.
Proof.
  revert P order. induction k as [|k IH]; intros P order Hp Hn Hun Hur.
  { exists order. destruct (pfx_full n P order Hp) as [_ ?]; [lia|]. split_and!; try done; apply Hp. }
  rewrite seqZ_cons by lia. cbn [playout_loop].
  destruct (missing_table P n) as (t0 & Ht0 & Hn0); [lia|].
  assert (exists t, (match next_connected env (list_to_set P) unjoined with
      | Some t => Some t | None => next_any (list_to_set P) unjoined end) = Some t /\ t ∈ unjoined /\ t ∉ P)
    as (t & -> & Htu & HtP).
  { unfold next_connected, next_any. destruct (List.find _ unjoined) as [t|] eqn:E1.
    - exists t. split; [done|]. apply List.find_some in E1 as [Hin%list_elem_of_In Ht]. split; [done|].
      apply andb_true_iff in Ht as [Ht _]. apply bool_decide_eq_true in Ht. by rewrite elem_of_list_to_set in Ht.
    - destruct (List.find (fun t => bool_decide (t ∉ list_to_set P)) unjoined) as [t|] eqn:E2.
      + exists t. split; [done|]. apply List.find_some in E2 as [Hin%list_elem_of_In Ht]. split; [done|].
        apply bool_decide_eq_true in Ht. by rewrite elem_of_list_to_set in Ht.
      + exfalso. pose proof (find_none _ _ t0 E2 (Hun t0 Ht0 Hn0)) as Hf. apply bool_decide_eq_false in Hf.
        apply Hf. by rewrite elem_of_list_to_set. }
  destruct (pfx_snoc n P order t Hp) as (order1 & -> & Hp1 & Hkeep); [lia|by apply Hur|done|].
  cbn [mbind Res_bind].
  assert (Hs : vec_size (P ++ [t]) = vec_size P + 1) by (unfold vec_size; rewrite length_app; cbn; lia).
  destruct (IH (P ++ [t]) order1 Hp1) as (order' & Hloop & ? & ? & Htk).
  - lia.
  - intros u Hu Hnu. apply Hun; [done|]. intros HuP. apply Hnu, elem_of_app. by left.
  - done.
  - exists order'. rewrite Hs in Hloop. replace (Z.succ (vec_size P)) with (vec_size P + 1) by lia.
    replace (Z.pred (Z.of_nat (S k))) with (Z.of_nat k) by lia.
    rewrite set_snoc.
    split_and!; try done. rewrite length_app in Htk. cbn in Htk.
    transitivity (take (length P) (take (length P + 1) order')).
    { rewrite take_take. f_equal. lia. }
    by rewrite Htk, take_app_length.
Qed.
End playout.

(** ** Nodes *)
Section nodes.
Context {G E : Type} `{JoinEnvironment E} (lib : Library G).

(** What the code relies on of the library functions. *)
Record lib_ok : Prop := {
  lk_rng : forall g, 0 <= (rng_next lib g).1;
  lk_shuffle : forall g l, (rng_shuffle lib g l).1 ≡ₚ l;
  lk_log : forall m, 1 <= m < 2 ^ 31 -> nonneg (lib_log lib (F_of_Z m));
  lk_sqrt : forall x, nonneg x -> nonneg (lib_sqrt lib x);
}.
Context (Hlib : lib_ok) (n : Z).

Definition unjoined_of (P : list Z) : list Z := filter (fun t => t ∉ P) (seqZ 0 n).

(** The data of the node for the prefix [P], with at most [R] visits.  Every
    recommended action that is not in the priority list has been tried, except
    possibly [ex], the action that is being tried. *)
Record data_ok (R : Z) (P : list Z) (ex : option Z) (d : NodeData G) : Prop := {
  dk_tables : num_tables d = n;
  dk_actions : num_actions d = n - vec_size P /\ 0 <= num_actions d;
  dk_joined : joined_tables d = list_to_set P;
  dk_nodup : NoDup P;
  dk_range : forall t, t ∈ P -> 0 <= t < n;
  dk_unjoined : unjoined_tables d = unjoined_of P;
  dk_tpa : table_per_action d = unjoined_of P;
  dk_tries_len : vec_size (num_tries_per_action d) = num_actions d;
  dk_acc_len : vec_size (acc_reward_per_action d) = num_actions d;
  dk_rec : 0 < num_actions d -> recommended_actions d <> ∅;
  dk_rec_range : forall a, a ∈ recommended_actions d -> 0 <= a < num_actions d;
  dk_prio : forall a, a ∈ priority_actions d -> a ∈ recommended_actions d;
  dk_visits : 0 <= num_visits d <= R;
  dk_tries : forall a t, num_tries_per_action d !! a = Some t -> 0 <= t <= num_visits d;
  dk_tried : forall a, a ∈ recommended_actions d -> (a ∉ priority_actions d) -> ex <> Some a ->
    exists t, vec_at (num_tries_per_action d) a = Ok t /\ 1 <= t;
  dk_acc : Forall nonneg (acc_reward_per_action d);
}.

Inductive node_ok (R : Z) : list Z -> UctNode G -> Prop :=
| node_ok_intro P d kids : data_ok R P None d -> vec_size kids = num_actions d ->
    (forall a c t, kids !! a = Some (Some c) -> unjoined_of P !! a = Some t -> node_ok R (P ++ [t]) c) ->
    node_ok R P (Node d kids).

Lemma unjoined_length P : NoDup P -> (forall t, t ∈ P -> 0 <= t < n) -> vec_size P <= n ->
  vec_size (unjoined_of P) = n - vec_size P.
Proof.
  intros Hnd Hr Hle. assert (Hp : seqZ 0 n ≡ₚ P ++ unjoined_of P).
  { unfold unjoined_of. apply NoDup_Permutation; [apply NoDup_seqZ| |].
    - apply list.NoDup_app. split_and!; [done| |apply list.NoDup_filter, NoDup_seqZ].
      intros t Ht [Hn _]%list_elem_of_filter. done.
    - intros t. rewrite elem_of_app, list_elem_of_filter, elem_of_seqZ. split.
      + intros Ht. destruct (decide (t ∈ P)); [by left|by right].
      + intros [Ht%Hr|[_ Ht]]; lia. }
  apply Permutation_length in Hp. rewrite length_app, length_seqZ in Hp. unfold vec_size in *. lia.
Qed.

Lemma fill_actions_ok (pre l rest tl : list Z) : length rest = length l ->
  fill_actions (pre ++ rest ++ tl) (vec_size pre) l = Ok (pre ++ l ++ tl).
Proof.
  revert pre rest. induction l as [|x l IH]; intros pre rest Hl; cbn [fill_actions].
  { by destruct rest. }
  destruct rest as [|y rest]; [done|].
  assert (Es : vec_set (pre ++ (y :: rest) ++ tl) (vec_size pre) x = Ok ((pre ++ [x]) ++ rest ++ tl)).
  { apply vec_set_Ok. unfold vec_size. rewrite length_app, Nat2Z.id. split; [cbn; lia|].
    rewrite <- app_assoc. rewrite insert_app_r_alt, Nat.sub_diag by lia. done. }
  rewrite Es. cbn [mbind Res_bind].
  replace (vec_size pre + 1) with (vec_size (pre ++ [x])) by (unfold vec_size; rewrite length_app; cbn; lia).
  rewrite IH by (by injection Hl). by rewrite <- app_assoc.
Qed.

Lemma fill_new (k : Z) (l : list Z) : vec_size l = k -> fill_actions (replicate (Z.to_nat k) 0) 0 l = Ok l.
Proof.
  intros <-. unfold vec_size. rewrite Nat2Z.id.
  pose proof (fill_actions_ok [] l (replicate (length l) 0) []) as Hf. cbn in Hf. rewrite !app_nil_r in Hf.
  apply Hf. by rewrite length_replicate.
Qed.

Lemma replicate_size {A} (x : A) k : 0 <= k -> vec_size (replicate (Z.to_nat k) x) = k.
Proof. intros. unfold vec_size. rewrite length_replicate. lia. Qed.

(** A fresh node. *)
Lemma fresh_node_ok R P d k : 0 <= R -> NoDup P -> (forall t, t ∈ P -> 0 <= t < n) ->
  k = n - vec_size P -> 0 <= k -> num_tables d = n -> num_actions d = k ->
  joined_tables d = list_to_set P -> unjoined_tables d = unjoined_of P -> table_per_action d = unjoined_of P ->
  num_tries_per_action d = replicate (Z.to_nat k) 0 -> acc_reward_per_action d = replicate (Z.to_nat k) F_zero ->
  (0 < k -> recommended_actions d <> ∅) -> (forall a, a ∈ recommended_actions d -> 0 <= a < k) ->
  (forall a, a ∈ priority_actions d <-> a ∈ recommended_actions d) -> num_visits d = 0 ->
  node_ok R P (Node d (replicate (Z.to_nat k) None)).
Proof.
  intros HR Hnd Hr Hk Hk0 Ht Ha Hj Hu Htp Htr Hacc Hrec Hrr Hprio Hv. constructor.
  - split; rewrite ?Ha, ?Htr, ?Hacc, ?Hv; try done; try lia.
    + by apply replicate_size.
    + by apply replicate_size.
    + intros a. apply Hprio.
    + intros a t [-> _]%lookup_replicate. lia.
    + intros a Hra Hna. by destruct Hna; apply Hprio.
    + by apply Forall_replicate.
  - rewrite Ha. by apply replicate_size.
  - intros a c t [Hc _]%lookup_replicate. done.
Qed.

Lemma UctNode_root_ok R round P : 0 <= R -> NoDup P -> (forall t, t ∈ P -> 0 <= t < n) -> vec_size P <= n ->
  exists node, UctNode_root lib round n P = Ok node /\ node_ok R P node.
Proof.
  intros HR Hnd Hr Hle. unfold UctNode_root. rewrite (proj2 (Z.ltb_ge _ _)) by lia.
  assert (Hu : filter (fun i => i ∉ (list_to_set P : gset Z)) (seqZ 0 n) = unjoined_of P).
  { apply list_filter_ext. intros t _. by rewrite elem_of_list_to_set. }
  rewrite Hu, fill_new by (by apply unjoined_length). cbn [mbind Res_bind]. eexists. split; [done|].
  apply fresh_node_ok; cbn; try done; try lia.
  - intros Hk Ee. assert (Hin : 0 ∈ (list_to_set (seqZ 0 (n - vec_size P)) : gset Z)).
    { apply elem_of_list_to_set, elem_of_seqZ. lia. }
    rewrite Ee in Hin. by apply not_elem_of_empty in Hin.
  - intros a Ha%elem_of_list_to_set%elem_of_seqZ. lia.
  - intros a. by rewrite elem_of_list_to_set.
Qed.

Lemma connected_actions_ok env joined tpa acts : (forall a, a ∈ acts -> 0 <= a < vec_size tpa) ->
  exists s, connected_actions env joined tpa acts = Ok s /\ forall a, a ∈ s -> a ∈ acts.
Proof.
  induction acts as [|a acts IH]; intros Hr; cbn [connected_actions].
  { exists ∅. split; [done|]. by intros a ?%not_elem_of_empty. }
  rewrite vec_at_get by (apply Hr; by left). set (t := get tpa a).
  cbn [mbind Res_bind]. destruct IH as (s & -> & Hs); [intros; apply Hr; by right|]. cbn [mbind Res_bind].
  eexists. split; [done|]. intros b Hb. destruct (env_IsConnected env _ t).
  - apply elem_of_union in Hb as [->%elem_of_singleton|Hb]; [by left|right; by apply Hs].
  - right. by apply Hs.
Qed.

Lemma erase_first_ok x l : x ∈ l -> NoDup l -> erase_first x l = Ok (filter (fun y => y <> x) l).
Proof.
  induction l as [|y l IH]; intros Hx Hnd; [by apply not_elem_of_nil in Hx|].
  apply list.NoDup_cons in Hnd as [Hy Hnd]. cbn [erase_first]. destruct (Z.eqb_spec y x) as [->|Hne].
  - rewrite filter_cons_False by (intros []; done). f_equal. symmetry. apply list_filter_all.
    intros z Hz ->. done.
  - apply elem_of_cons in Hx as [->|Hx]; [done|]. rewrite IH by done. cbn [mbind Res_bind].
    by rewrite filter_cons_True.
Qed.

Lemma unjoined_snoc P t : unjoined_of (P ++ [t]) = filter (fun y => y <> t) (unjoined_of P).
Proof.
  unfold unjoined_of. rewrite list_filter_filter. apply list_filter_ext. intros y _.
  rewrite elem_of_app, list_elem_of_singleton. tauto.
Qed.

Lemma unjoined_elem P a t : unjoined_of P !! a = Some t -> 0 <= t < n /\ t ∉ P.
Proof.
  intros Ht%list_elem_of_lookup_2. apply list_elem_of_filter in Ht as [Hn Ht%elem_of_seqZ]. split; [lia|done].
Qed.

Lemma UctNode_child_ok env R R' round P ex d a t : 0 <= R' -> data_ok R P ex d -> 0 < num_actions d ->
  unjoined_of P !! a = Some t ->
  exists node, UctNode_child lib env round d t = Ok node /\ node_ok R' (P ++ [t]) node.
Proof.
  intros HR Hd Ha Ht. destruct (unjoined_elem P a t Ht) as [Htr HtP].
  destruct (dk_actions _ _ _ _ Hd) as [Hna Hna0].
  assert (Hs : vec_size (P ++ [t]) = vec_size P + 1) by (unfold vec_size; rewrite length_app; cbn; lia).
  assert (Hnd : NoDup (P ++ [t])).
  { apply list.NoDup_app. split_and!; [apply Hd| |apply NoDup_singleton].
    intros x Hx ->%list_elem_of_singleton. done. }
  assert (Hr : forall u, u ∈ P ++ [t] -> 0 <= u < n).
  { intros u [Hu| ->%list_elem_of_singleton]%elem_of_app; [by apply (dk_range _ _ _ _ Hd)|done]. }
  unfold UctNode_child. rewrite (proj2 (Z.ltb_ge _ _)) by lia.
  rewrite (dk_unjoined _ _ _ _ Hd), erase_first_ok, <- unjoined_snoc.
  2: by eapply list_elem_of_lookup_2.
  2: apply list.NoDup_filter, NoDup_seqZ.
  cbn [mbind Res_bind]. assert (Hlen : vec_size (unjoined_of (P ++ [t])) = num_actions d - 1).
  { rewrite unjoined_length by (done || lia). lia. }
  rewrite fill_new by done. cbn [mbind Res_bind]. rewrite (dk_joined _ _ _ _ Hd), set_snoc.
  destruct (connected_actions_ok env (list_to_set (P ++ [t])) (unjoined_of (P ++ [t])) (seqZ 0 (num_actions d - 1)))
    as (s & -> & Hsr).
  { intros b Hb%elem_of_seqZ. lia. }
  cbn [mbind Res_bind]. set (rec := if decide (s = ∅) then _ else s).
  assert (Hrec : forall b, b ∈ rec -> b ∈ seqZ 0 (num_actions d - 1)).
  { subst rec. intros b. destruct (decide (s = ∅)); [by rewrite elem_of_list_to_set|apply Hsr]. }
  eexists. split; [done|]. apply fresh_node_ok; cbn; try done; try lia.
  - apply (dk_tables _ _ _ _ Hd).
  - intros Hk. subst rec. destruct (decide (s = ∅)) as [_|]; [|done]. intros Ee.
    assert (Hin : 0 ∈ (list_to_set (seqZ 0 (num_actions d - 1)) : gset Z)).
    { apply elem_of_list_to_set, elem_of_seqZ. lia. }
    rewrite Ee in Hin. by apply not_elem_of_empty in Hin.
  - intros b Hb%Hrec%elem_of_seqZ. lia.
  - intros b. rewrite list_elem_of_filter. split; [tauto|]. intros Hb. split; [done|by apply Hrec].
Qed.

(** ** [SelectAction] *)
Lemma vec_at_ok {A} (l : list A) i : 0 <= i < vec_size l ->
  exists x, vec_at l i = Ok x /\ l !! Z.to_nat i = Some x.
Proof.
  unfold vec_size. intros Hi. destruct (lookup_lt_is_Some_2 l (Z.to_nat i)) as [x Hx]; [lia|].
  exists x. split; [|done]. apply vec_at_Ok. split; [lia|done].
Qed.

Lemma quality_ok R P d a : R < 2 ^ 31 -> data_ok R P None d -> a ∈ recommended_actions d ->
  a ∉ priority_actions d -> exists q, quality lib d a = Ok q /\ nonneg q.
Proof.
  intros HR Hd Ha Hp. pose proof (dk_rec_range _ _ _ _ Hd a Ha) as Har.
  destruct (dk_tried _ _ _ _ Hd a Ha Hp) as (t & Et & Ht); [done|].
  destruct (vec_at_ok (acc_reward_per_action d) a) as (acc & Eacc & Hacc); [by rewrite (dk_acc_len _ _ _ _ Hd)|].
  assert (Hl : num_tries_per_action d !! Z.to_nat a = Some t) by by apply vec_at_Ok in Et as [_ ?].
  pose proof (dk_tries _ _ _ _ Hd _ _ Hl) as Htv. pose proof (dk_visits _ _ _ _ Hd) as Hv.
  unfold quality. rewrite Eacc, Et. cbn [mbind Res_bind]. eexists. split; [done|].
  destruct (F_of_Z_pos t) as (m & e & ->); [lia|].
  assert (EXPLORATION_WEIGHT = S754_finite false 5902958103587057 (-69)) as -> by reflexivity.
  apply add_nonneg; [apply div_nonneg|apply mul_nonneg, (lk_sqrt Hlib), div_nonneg, (lk_log Hlib); lia].
  by eapply Forall_lookup_1 in Hacc; [|apply (dk_acc _ _ _ _ Hd)].
Qed.

Lemma best_loop_ok R P d offset idxs ba bq : R < 2 ^ 31 -> data_ok R P None d -> 0 < num_actions d ->
  priority_actions d = [] ->
  exists b, best_loop lib d offset ba bq idxs = Ok b /\
    (ba ∈ recommended_actions d -> b ∈ recommended_actions d) /\
    (bq = F_neg_one -> (exists i, i ∈ idxs /\ (offset + i) mod num_actions d ∈ recommended_actions d) ->
      b ∈ recommended_actions d).
Proof.
  intros HR Hd Hna Hp. revert ba bq. induction idxs as [|i idxs IH]; intros ba bq; cbn [best_loop].
  { exists ba. split_and!; try done. by intros _ (i & ?%not_elem_of_nil & _). }
  rewrite decide_False by (by apply (dk_rec _ _ _ _ Hd)). case_bool_decide as Hrec.
  - destruct (IH ba bq) as (b & -> & H1 & H2). exists b. split_and!; try done. intros Hq (j & Hj & Hjr).
    apply elem_of_cons in Hj as [->|Hj]; [done|]. eauto.
  - destruct (quality_ok R P d ((offset + i) mod num_actions d) HR Hd Hrec) as (q & -> & Hq).
    { rewrite Hp. apply not_elem_of_nil. }
    cbn [mbind Res_bind]. destruct (SFltb bq q) eqn:Elt.
    + destruct (IH ((offset + i) mod num_actions d) q) as (b & -> & H1 & H2). exists b. split_and!; auto.
    + destruct (IH ba bq) as (b & -> & H1 & H2). exists b. split_and!; try done.
      intros -> _. by rewrite neg_one_lt in Elt.
Qed.

(** Starting anywhere, the loop visits every action. *)
Lemma rotation offset na a : 0 <= a < na -> exists i, i ∈ seqZ 0 na /\ (offset + i) mod na = a.
Proof.
  intros Ha. exists ((a - offset) mod na). split; [apply elem_of_seqZ; pose proof (Z.mod_pos_bound (a - offset) na); lia|].
  rewrite Zplus_mod_idemp_r. replace (offset + (a - offset)) with a by lia. apply Z.mod_small. lia.
Qed.

Lemma set_rng_ok R P ex ex' d prio g : data_ok R P ex d ->
  (forall a, a ∈ prio -> a ∈ priority_actions d) ->
  (forall a, a ∈ recommended_actions d -> (a ∉ prio) -> ex' <> Some a -> (a ∉ priority_actions d) /\ ex <> Some a) ->
  data_ok R P ex' (set_rng d prio g).
Proof.
  intros [? ? ? ? ? ? ? ? ? ? ? Hprio ? ? Htried ?] Hin Hex. split; cbn; try done.
  - intros a Ha. apply Hprio, Hin, Ha.
  - intros a Ha Hn Hne. destruct (Hex a Ha Hn Hne). by apply Htried.
Qed.

Lemma SelectAction_ok R P d : R < 2 ^ 31 -> data_ok R P None d -> 0 < num_actions d ->
  exists a d', SelectAction lib d = Ok (a, d') /\ a ∈ recommended_actions d /\
    data_ok R P (Some a) d' /\ recommended_actions d' = recommended_actions d.
Proof.
  intros HR Hd Hna. unfold SelectAction. pose proof (lk_rng Hlib (rng d)) as Hg.
  destruct (rng_next lib (rng d)) as [r g]. cbn in Hg.
  destruct (priority_actions d) as [|p0 ps] eqn:Ep.
  - destruct (best_loop_ok R P d (r mod num_actions d) (seqZ 0 (num_actions d)) (-1) F_neg_one HR Hd Hna Ep)
      as (b & -> & _ & Hb). cbn [mbind Res_bind].
    assert (Hbr : b ∈ recommended_actions d).
    { apply Hb; [done|]. pose proof (dk_rec _ _ _ _ Hd Hna) as Hne. apply set_choose_L in Hne as [a Ha].
      destruct (rotation (r mod num_actions d) (num_actions d) a) as (i & Hi & <-).
      - by apply (dk_rec_range _ _ _ _ Hd).
      - by exists i. }
    eexists b, _. split_and!; [done..| |done]. apply (set_rng_ok R P None); [done| |].
    + by intros a ?%not_elem_of_nil.
    + intros a Ha _ _. rewrite Ep. split; [apply not_elem_of_nil|done].
  - set (prio := p0 :: ps) in *. assert (Hp : 0 < vec_size prio) by (unfold vec_size; cbn; lia).
    pose proof (Z.mod_pos_bound r (vec_size prio) Hp) as Hi.
    destruct (vec_at_ok prio (r mod vec_size prio) Hi) as (a & Ea & Hla). rewrite Ea. cbn [mbind Res_bind].
    assert (Hap : a ∈ priority_actions d) by (rewrite Ep; by eapply list_elem_of_lookup_2).
    eexists a, _. split_and!; [done|by apply (dk_prio _ _ _ _ Hd)| |done].
    apply (set_rng_ok R P None); [done| |].
    + intros b Hb. rewrite Ep. apply (elem_of_submseteq (delete (Z.to_nat (r mod vec_size prio)) prio)); [done|].
      apply sublist_submseteq, sublist_delete.
    + intros b Hb Hn Hne. split; [|done]. rewrite Ep. intros Hbp. apply Hn.
      rewrite (delete_Permutation prio (Z.to_nat (r mod vec_size prio)) a Hla) in Hbp.
      apply elem_of_cons in Hbp as [->|?]; [done|done].
Qed.

(** ** [Sample] *)
Lemma data_ok_mono R R' P ex d : R <= R' -> data_ok R P ex d -> data_ok R' P ex d.
Proof. intros HR []. split; try done. lia. Qed.

Lemma node_ok_mono R R' P node : R <= R' -> node_ok R P node -> node_ok R' P node.
Proof.
  intros HR. induction 1 as [P d kids Hd Hl Hk IH]. constructor; [by eapply data_ok_mono|done|done].
Qed.

Lemma UpdateStatistics_ok R P d a r : data_ok R P (Some a) d -> a ∈ recommended_actions d -> nonneg r ->
  exists d', UpdateStatistics d a r = Ok d' /\ data_ok (R + 1) P None d' /\ num_actions d' = num_actions d.
Proof.
  intros Hd Ha Hr. pose proof (dk_rec_range _ _ _ _ Hd a Ha) as Har.
  pose proof (dk_tries_len _ _ _ _ Hd) as Htl. pose proof (dk_acc_len _ _ _ _ Hd) as Hal.
  destruct (vec_at_ok (num_tries_per_action d) a) as (t & Et & Hlt); [lia|].
  destruct (vec_at_ok (acc_reward_per_action d) a) as (acc & Eacc & Hacc); [lia|].
  unfold UpdateStatistics. rewrite Et. cbn [mbind Res_bind].
  rewrite (vec_set_lookup _ a _ t) by (done || lia). cbn [mbind Res_bind]. rewrite Eacc. cbn [mbind Res_bind].
  rewrite (vec_set_lookup _ a _ acc) by (done || lia). cbn [mbind Res_bind]. eexists. split; [done|].
  split; [|done]. pose proof (dk_tries _ _ _ _ Hd _ _ Hlt) as Htv.
  destruct Hd as [? ? ? ? ? ? ? ? ? ? Hrr ? Hv Htr Htried Hac]. split; cbn; try done.
  - unfold vec_size. by rewrite length_insert.
  - unfold vec_size. by rewrite length_insert.
  - lia.
  - intros b u Hb. destruct (decide (b = Z.to_nat a)) as [->|Hne].
    + rewrite list_lookup_insert_eq in Hb by (by eapply lookup_lt_Some). injection Hb as <-. lia.
    + rewrite list_lookup_insert_ne in Hb by done. pose proof (Htr _ _ Hb). lia.
  - intros b Hb Hn _. destruct (decide (b = a)) as [->|Hne].
    + exists (t + 1). split; [|lia]. apply vec_at_Ok. split; [lia|].
      by rewrite list_lookup_insert_eq by (by eapply lookup_lt_Some).
    + destruct (Htried b Hb Hn) as (u & Hu & ?); [congruence|]. exists u. split; [|done].
      apply vec_at_Ok in Hu as [? Hu]. apply vec_at_Ok. split; [done|].
      rewrite list_lookup_insert_ne; [done|]. pose proof (Hrr b Hb). lia.
  - apply Forall_insert; [done|]. apply add_nonneg; [|done]. by eapply Forall_lookup_1 in Hacc; [|exact Hac].
Qed.

Lemma Playout_ok env R P ex d order t J :
  data_ok R P ex d -> pfx n (P ++ [t]) order -> J `prefix_of` P ->
  (forall o, o ≡ₚ seqZ 0 n -> J `prefix_of` o -> exists r env', env_Execute env o = Ok (r, env') /\ nonneg r) ->
  exists o r d' env', Playout lib env d order = Ok (r, d', o, env') /\ o ≡ₚ seqZ 0 n /\ vec_size o = n /\
    take (length (P ++ [t])) o = P ++ [t] /\ env_Execute env o = Ok (r, env') /\ nonneg r /\
    data_ok R P ex d' /\ recommended_actions d' = recommended_actions d.
Proof.
  intros Hd Hp HJ Hex. unfold Playout. rewrite (dk_joined _ _ _ _ Hd), (dk_tables _ _ _ _ Hd).
  assert (Hsz : Z.of_nat (size (list_to_set P : gset Z)) = vec_size P).
  { unfold vec_size. rewrite size_list_to_set by apply (dk_nodup _ _ _ _ Hd). done. }
  rewrite Hsz. pose proof (pfx_le _ _ _ Hp) as Hle.
  assert (Hs : vec_size (P ++ [t]) = vec_size P + 1) by (unfold vec_size; rewrite length_app; cbn; lia).
  assert (Hlast : vec_at order (vec_size P) = Ok t).
  { apply vec_at_Ok. unfold vec_size. rewrite Nat2Z.id. split; [lia|].
    rewrite <- (lookup_take_lt order (length (P ++ [t]))) by (rewrite length_app; cbn; lia).
    rewrite (px_take _ _ _ Hp). by rewrite list_lookup_middle. }
  rewrite Hlast. cbn [mbind Res_bind]. rewrite set_snoc.
  set (un := filter _ _). pose proof (lk_shuffle Hlib (rng d) un) as Hsh.
  destruct (rng_shuffle lib (rng d) un) as [un' g]. cbn in Hsh.
  assert (Hun : forall u, u ∈ un' <-> 0 <= u < n /\ u ∉ P ++ [t]).
  { intros u. rewrite Hsh. subst un. rewrite list_elem_of_filter, elem_of_seqZ, elem_of_list_to_set, elem_of_app,
      list_elem_of_singleton. split; [intros [[? ?] ?]; split; [lia|tauto]|]. intros [? Hn]. split; [tauto|lia]. }
  destruct (playout_loop_ok env n un' (Z.to_nat (n - (vec_size P + 1))) (P ++ [t]) order Hp) as (o & Hloop & Hol & Hop & Htk).
  { lia. }
  { intros u Hu Hn. by apply Hun. }
  { intros u Hu%Hun. tauto. }
  rewrite Hs, Z2Nat.id in Hloop by lia. rewrite Hloop. cbn [mbind Res_bind].
  destruct (Hex o Hop) as (r & env' & He & Hr).
  { etrans; [exact HJ|]. etrans; [apply (prefix_app_r P P [t]); done|]. rewrite <- Htk. apply prefix_take. }
  rewrite He. cbn [mbind Res_bind]. eexists o, r, _, env'. split_and!; try done.
  apply (set_rng_ok R P ex); try done.
Qed.

Lemma node_ok_child R P d kids a c t : node_ok R P (Node d kids) -> kids !! a = Some (Some c) ->
  unjoined_of P !! a = Some t -> node_ok R (P ++ [t]) c.
Proof. intros Hn. inversion Hn; subst. eauto. Qed.

(** What [Sample] does: it completes the prefix to an order of all tables and
    runs one episode with it. *)
Definition sampled (env : E) (R : Z) (P : list Z) (res : Res (spec_float * UctNode G * list Z * E)) : Prop :=
  exists o r node' env', res = Ok (r, node', o, env') /\ o ≡ₚ seqZ 0 n /\ vec_size o = n /\
    take (length P) o = P /\ env_Execute env o = Ok (r, env') /\ nonneg r /\ node_ok (R + 1) P node'.

Lemma take_prefix_shorter (P o : list Z) t : take (length (P ++ [t])) o = P ++ [t] -> take (length P) o = P.
Proof.
  intros Ht. transitivity (take (length P) (take (length (P ++ [t])) o)).
  - rewrite take_take. f_equal. rewrite length_app. lia.
  - by rewrite Ht, take_app_length.
Qed.

(** The last part of [Sample]: the child is stored and the statistics updated. *)
Lemma finish_ok R P d d2 kids a t child r (o : list Z) (env' : E) :
  node_ok R P (Node d kids) -> data_ok R P (Some a) d2 -> a ∈ recommended_actions d2 ->
  unjoined_of P !! Z.to_nat a = Some t -> nonneg r ->
  (forall c, child = Some c -> node_ok (R + 1) (P ++ [t]) c) ->
  exists node', (kids ← vec_set kids a child; d ← UpdateStatistics d2 a r; Ok (r, Node d kids, o, env')) =
      Ok (r, node', o, env') /\ node_ok (R + 1) P node'.
Proof.
  intros Hnode Hd2 Ha Ht Hr Hchild. inversion Hnode as [P' d' kids' Hd Hkl Hkids E1 E2]. subst P' d' kids'.
  destruct (dk_actions _ _ _ _ Hd) as [Hna _]. destruct (dk_actions _ _ _ _ Hd2) as [Hna2 _].
  pose proof (dk_rec_range _ _ _ _ Hd2 a Ha) as Har.
  destruct (vec_at_ok kids a) as (c0 & _ & Hc0); [lia|].
  rewrite (vec_set_lookup _ a _ c0) by (done || lia). cbn [mbind Res_bind].
  destruct (UpdateStatistics_ok R P d2 a r Hd2 Ha Hr) as (d3 & -> & Hd3 & Hna3). cbn [mbind Res_bind].
  eexists. split; [done|]. constructor; [done| |].
  - unfold vec_size in *. rewrite length_insert. lia.
  - intros b c u Hb Hu. destruct (decide (b = Z.to_nat a)) as [->|Hne].
    + rewrite list_lookup_insert_eq in Hb by (by eapply lookup_lt_Some). injection Hb as ->.
      assert (u = t) as -> by congruence. by apply Hchild.
    + rewrite list_lookup_insert_ne in Hb by done. eapply node_ok_mono; [|by eapply Hkids]. lia.
Qed.

Lemma Sample_ok fuel env R round P node order J :
  0 <= R -> R + 1 < 2 ^ 31 -> node_ok R P node -> pfx n P order -> J `prefix_of` P ->
  n - vec_size P < Z.of_nat fuel ->
  (forall o, o ≡ₚ seqZ 0 n -> J `prefix_of` o -> exists r env', env_Execute env o = Ok (r, env') /\ nonneg r) ->
  sampled env R P (Sample lib fuel env round node order).
Proof.
  intros HR0 HR Hnode Hpx HJ Hfuel Hex. revert P node order Hnode Hpx HJ Hfuel.
  induction fuel as [|fuel IH]; intros P node order Hnode Hpx HJ Hfuel.
  { pose proof (pfx_le _ _ _ Hpx). lia. }
  inversion Hnode as [P' d kids Hd Hkl Hkids E1 E2]. subst P' node.
  destruct (dk_actions _ _ _ _ Hd) as [Hna Hna0]. cbn [Sample].
  destruct (Z.eqb_spec (num_actions d) 0) as [Hz|Hz].
  { destruct (pfx_full n P order Hpx) as [Eo Hperm]; [lia|].
    destruct (Hex order Hperm) as (r & env' & He & Hr).
    { by rewrite Eo. }
    rewrite He. cbn [mbind Res_bind]. exists order, r, (Node d kids), env'. split_and!; try done; try apply Hpx.
    eapply node_ok_mono; [|exact Hnode]. lia. }
  destruct (SelectAction_ok R P d ltac:(lia) Hd ltac:(lia)) as (a & d1 & -> & Ha & Hd1 & Hrec).
  cbn [mbind Res_bind]. destruct (dk_actions _ _ _ _ Hd1) as [Hna1 _].
  pose proof (dk_rec_range _ _ _ _ Hd a Ha) as Har.
  destruct (vec_at_ok (table_per_action d1) a) as (t & Et & Hlt).
  { rewrite (dk_tpa _ _ _ _ Hd1), unjoined_length; [lia|apply Hd|apply Hd|lia]. }
  rewrite Et. cbn [mbind Res_bind]. rewrite (dk_tpa _ _ _ _ Hd1) in Hlt.
  destruct (unjoined_elem P _ t Hlt) as [Htr HtP].
  assert (Hsz : Z.of_nat (size (joined_tables d1)) = vec_size P).
  { rewrite (dk_joined _ _ _ _ Hd1), size_list_to_set by apply (dk_nodup _ _ _ _ Hd1). done. }
  rewrite Hsz. destruct (pfx_snoc n P order t Hpx) as (order1 & -> & Hpx1 & _); [lia|done..|].
  cbn [mbind Res_bind]. destruct (vec_at_ok kids a) as (ch & Ech & Hlch); [lia|]. rewrite Ech. cbn [mbind Res_bind].
  rewrite <- Hrec in Ha.
  assert (Hs : vec_size (P ++ [t]) = vec_size P + 1) by (unfold vec_size; rewrite length_app; cbn; lia).
  assert (HJ1 : J `prefix_of` P ++ [t]) by by apply prefix_app_r.
  assert (Hsub : forall c, node_ok R (P ++ [t]) c ->
    sampled env R P ('(reward, d, child, order, env) ←
        ('(reward, c, order, env) ← Sample lib fuel env round c order1;
         Ok (reward, d1, Some c, order, env));
      kids ← vec_set kids a child; d ← UpdateStatistics d a reward; Ok (reward, Node d kids, order, env))).
  { intros c Hc. destruct (IH (P ++ [t]) c order1 Hc Hpx1 HJ1 ltac:(lia))
      as (o & r & c' & env' & -> & Hop & Hol & Htk & He & Hr & Hc'). cbn [mbind Res_bind].
    destruct (finish_ok R P d d1 kids a t (Some c') r o env' Hnode Hd1 Ha Hlt Hr) as (node' & Hfin & Hok).
    { intros ? [= <-]. done. }
    cbn [mbind Res_bind] in Hfin. rewrite Hfin. exists o, r, node', env'. split_and!; try done.
    by eapply take_prefix_shorter. }
  destruct ch as [c|]; [|destruct (Z.eqb_spec (created_in d1) round)]; cbn [mbind Res_bind].
  - by apply Hsub, (Hkids (Z.to_nat a)).
  - destruct (Playout_ok env R P (Some a) d1 order1 t J Hd1 Hpx1 HJ Hex)
      as (o & r & d2 & env' & -> & Hop & Hol & Htk & He & Hr & Hd2 & Hrec2). cbn [mbind Res_bind].
    rewrite <- Hrec2 in Ha.
    destruct (finish_ok R P d d2 kids a t None r o env' Hnode Hd2 Ha Hlt Hr) as (node' & Hfin & Hok); [done|].
    cbn [mbind Res_bind] in Hfin. rewrite Hfin. exists o, r, node', env'. split_and!; try done.
    by eapply take_prefix_shorter.
  - destruct (UctNode_child_ok env R R round P (Some a) d1 (Z.to_nat a) t HR0 Hd1 ltac:(lia) Hlt) as (c & -> & Hc).
    cbn [mbind Res_bind]. by apply Hsub.
Qed.

(** ** The agent *)
Record agent_ok (R : Z) (a : UctJoinAgent (G := G)) : Prop := {
  ak_round : round_ctr a = R;
  ak_tables : agent_num_tables a = n;
  ak_root : node_ok R (joined a) (agent_root a);
  ak_order : pfx n (joined a) (agent_order a);
}.

Lemma UctJoinAgent_new_ok forget J : NoDup J -> (forall t, t ∈ J -> 0 <= t < n) -> vec_size J <= n ->
  exists a, UctJoinAgent_new lib n forget J = Ok a /\ agent_ok 0 a /\ joined a = J.
Proof.
  intros Hnd Hr Hle. unfold UctJoinAgent_new.
  destruct (UctNode_root_ok 0 0 J) as (node & -> & Hok); try done. cbn [mbind Res_bind].
  unfold vec_size in Hle.
  assert (Hfill : fill_actions (replicate (Z.to_nat n) 0) 0 J = Ok (J ++ replicate (Z.to_nat n - length J) 0)).
  { pose proof (fill_actions_ok [] J (replicate (length J) 0) (replicate (Z.to_nat n - length J) 0)) as Hf.
    cbn in Hf. rewrite <- replicate_add in Hf.
    replace (length J + (Z.to_nat n - length J))%nat with (Z.to_nat n) in Hf by lia.
    apply Hf. by rewrite length_replicate. }
  rewrite Hfill. cbn [mbind Res_bind]. eexists. split; [done|]. split; [|done]. split; cbn; try done.
  split; [unfold vec_size; rewrite length_app, length_replicate; lia|apply take_app_length|done|done].
Qed.

Lemma Act_ok R a env : 0 <= R -> R + 1 < 2 ^ 31 -> agent_ok R a ->
  (forall o, o ≡ₚ seqZ 0 n -> joined a `prefix_of` o -> exists r env', env_Execute env o = Ok (r, env') /\ nonneg r) ->
  exists o r a' env', Act lib a env = Ok (a', env') /\ o ≡ₚ seqZ 0 n /\ joined a `prefix_of` o /\
    env_Execute env o = Ok (r, env') /\ agent_ok (R + 1) a' /\ joined a' = joined a.
Proof.
  intros HR0 HR [Hround Htab Hroot Hord] Hex. unfold Act. rewrite Htab, Hround.
  assert (Hn : 0 <= n) by (rewrite <- (px_len _ _ _ Hord); unfold vec_size; lia).
  assert (Hj : 0 <= vec_size (joined a)) by (unfold vec_size; lia).
  destruct (Sample_ok (S (Z.to_nat n)) env R (R + 1) (joined a) (agent_root a) (agent_order a) (joined a)
    HR0 HR Hroot Hord) as (o & r & node' & env' & -> & Hop & Hol & Htk & He & Hr & Hnode); [done|lia|done|].
  cbn [mbind Res_bind]. pose proof (prefix_take o (length (joined a))) as Hpre. rewrite Htk in Hpre.
  assert (Hpx : pfx n (joined a) o) by (split; [done|done|apply Hord|apply Hord]).
  destruct (should_forget a && (R + 1 =? next_forget a)).
  - destruct (UctNode_root_ok (R + 1) (R + 1) (joined a)) as (node2 & -> & Hok2);
      [lia|apply Hord|apply Hord|by eapply pfx_le|].
    cbn [mbind Res_bind]. eexists o, r, _, env'. split_and!; try done; by split.
  - eexists o, r, _, env'. split_and!; try done; by split.
Qed.
End nodes.

(** ** A run of the agent *)
Section run.
Context {G E : Type} `{JoinEnvironment E}.

Fixpoint acts (lib : Library G) (k : nat) (a : UctJoinAgent (G := G)) (env : E) : Res (UctJoinAgent (G := G) * E) :=
  match k with
  | O => Ok (a, env)
  | S k => '(a, env) ← Act lib a env; acts lib k a env
  end.

(** The environment went from one state to another by these episodes. *)
Fixpoint episodes (env : E) (orders : list (list Z)) (env' : E) : Prop :=
  match orders with
  | [] => env' = env
  | o :: orders => exists r env1, env_Execute env o = Ok (r, env1) /\ episodes env1 orders env'
  end.

(** An environment that can run every join order with the prefix [J]. *)
Definition serves (n : Z) (J : list Z) (Inv : E -> Prop) : Prop :=
  forall env o, Inv env -> o ≡ₚ seqZ 0 n -> J `prefix_of` o ->
    exists r env', env_Execute env o = Ok (r, env') /\ nonneg r /\ Inv env'.

Lemma acts_ok lib n R k J Inv a env : lib_ok lib -> 0 <= R -> R + Z.of_nat k < 2 ^ 31 ->
  agent_ok n R a -> joined a = J -> serves n J Inv -> Inv env ->
  exists a' env' orders, acts lib k a env = Ok (a', env') /\ length orders = k /\ episodes env orders env' /\
    Forall (fun o => o ≡ₚ seqZ 0 n /\ J `prefix_of` o) orders.
Proof.
  intros Hlib HR. revert R a env HR. induction k as [|k IH]; intros R a env HR Hk Ha Hj Hs Hi.
  { exists a, env, []. split_and!; try done. }
  destruct (Act_ok lib Hlib n R a env HR ltac:(lia) Ha) as (o & r & a1 & env1 & Hact & Hop & Hpre & He & Ha1 & Hj1).
  { intros o Ho Hp. rewrite Hj in Hp. destruct (Hs env o Hi Ho Hp) as (r & env' & ? & ? & _). eauto. }
  rewrite Hj in Hpre. destruct (Hs env o Hi Hop Hpre) as (r' & env1' & He' & _ & Hi1).
  assert (env1' = env1) as -> by congruence.
  destruct (IH (R + 1) a1 env1) as (a2 & env2 & os & Hacts & Hlen & Hep & Hall); [lia|lia|done|congruence|done|done|].
  exists a2, env2, (o :: os). cbn [acts]. rewrite Hact. cbn [mbind Res_bind]. split_and!; [done|cbn; lia| |].
  - exists r, env1. done.
  - by constructor.
Qed.
End run.

(** C37. The agent of the search tree.  Given random numbers, a shuffle that
    permutes, logarithms and square roots that are not negative, and an
    environment that runs every join order of the [n] tables that starts with the
    fixed prefix and rewards it with a number that is not negative, the agent can
    act any number of times below 2^31: no action is ever out of range, and each
    time it runs exactly one episode, with an order that names every table once
    and starts with the prefix. *)
Theorem uct_agent_orders (G E : Type) (EI : JoinEnvironment E) (lib : Library G) (n : Z) (J : list Z)
    (forget : bool) (Inv : E -> Prop) (env : E) (k : nat) :
  lib_ok lib -> NoDup J -> (forall t, t ∈ J -> 0 <= t < n) -> vec_size J <= n -> Z.of_nat k < 2 ^ 31 ->
  serves n J Inv -> Inv env ->
  exists a a' env' orders, UctJoinAgent_new lib n forget J = Ok a /\ acts lib k a env = Ok (a', env') /\
    length orders = k /\ episodes env orders env' /\
    Forall (fun o => o ≡ₚ seqZ 0 n /\ J `prefix_of` o) orders.
Proof.
  intros Hlib Hnd Hr Hle Hk Hs Hi. destruct (UctJoinAgent_new_ok lib n forget J Hnd Hr Hle) as (a & Ha & Hok & Hj).
  destruct (acts_ok lib n 0 k J Inv a env Hlib ltac:(lia) ltac:(lia) Hok Hj Hs Hi) as (a' & env' & os & ?).
  by exists a, a', env', os.
Qed.

Module UctDemo.
(** An environment that records the orders, and library functions that are
    constant. *)
#[global] Instance log_env : JoinEnvironment (list (list Z)) := {|
  env_IsConnected := fun _ joined t => bool_decide (t - 1 ∈ joined);
  env_Execute := fun log o => Ok (F_of_Z 1, log ++ [o]);
|}.

Definition lib : Library Z :=
  MkLib (fun g => (g mod 16, (g * 5 + 3) mod 16)) (fun g l => (reverse l, g)) (fun r _ => r)
    (fun _ => F_zero) (fun x => x).

Lemma lib_fine : lib_ok lib.
Proof.
  split; cbn; try done.
  - intros g. apply Z.mod_pos_bound. lia.
  - intros g l. apply reverse_Permutation.
Qed.
End UctDemo.

Lemma uct_agent_orders_witness : exists a a' env' orders,
  UctJoinAgent_new UctDemo.lib 3 true [1] = Ok a /\ acts UctDemo.lib 12 a [] = Ok (a', env') /\
  length orders = 12%nat /\ episodes [] orders env' /\
  Forall (fun o => o ≡ₚ seqZ 0 3 /\ [1] `prefix_of` o) orders.
Proof.
  apply (uct_agent_orders Z (list (list Z)) UctDemo.log_env UctDemo.lib 3 [1] true (fun _ => True) [] 12).
  - apply UctDemo.lib_fine.
  - apply NoDup_singleton.
  - intros t ->%list_elem_of_singleton. lia.
  - by vm_compute.
  - by vm_compute.
  - intros env o _ _ _. by eexists _, _.
  - done.
Defined.

(** Rewards can be negative.  An episode that moved from the last
    combination below row 1 of the first table to one below row 2 made progress,
    but the terms of [Reward], added up in doubles, cancel to a negative number;
    [UpdateStatistics] asserts that the accumulated reward of an action, zero at
    first, is not negative. *)
Theorem reward_negative :
  let order := [0; 1; 2; 3; 4] in
  let cards := [5; 59212; 54725; 38487; 49263] in
  let initial := [1; 59211; 54724; 38486; 49262] in
  let final := [2; 0; 0; 0; 900] in
  lex_lt (proj order initial) (proj order final) /\
  exists q, Reward order [1; 0; 0; 0; 0] initial final cards 0 10000 = Ok q /\
    SFltb (F_add F_zero q) F_zero = true.
Proof. split; [vm_compute; by left|]. eexists. split; [vm_compute; reflexivity|]. by vm_compute. Qed.
