(* ===== verification/LiveInterval.v ===== *)
(** * Registers and live intervals

    src/khir/asm/register.cc and register_assignment.cc: the numbering of the
    registers the x86 backend allocates; and the class [LiveInterval] of
    live_intervals.cc, the range of instruction positions in which a value needs
    its register. *)
From S2P Require Import Prelude Opcode Instruction.

(** ** Registers

    The asmjit operand a register wraps is identified with the register. *)
Inductive GPRegister : Set :=
  | RAX | RBX | RCX | RDX | RSI | RDI | RSP | RBP
  | R8 | R9 | R10 | R11 | R12 | R13 | R14 | R15.

Definition GPRegister_Id (r : GPRegister) : Z :=
  match r with
  | RAX => 0 | RBX => 1 | RCX => 2 | RDX => 3 | RSI => 4 | RDI => 5 | RSP => 6 | RBP => 7
  | R8 => 8 | R9 => 9 | R10 => 10 | R11 => 11 | R12 => 12 | R13 => 13 | R14 => 14
  | R15 => 15
  end.

Definition GPRegister_FromId (id : Z) : Res GPRegister :=
  match id with
  | 0 => Ok RAX | 1 => Ok RBX | 2 => Ok RCX | 3 => Ok RDX | 4 => Ok RSI | 5 => Ok RDI
  | 6 => Ok RSP | 7 => Ok RBP | 8 => Ok R8 | 9 => Ok R9 | 10 => Ok R10 | 11 => Ok R11
  | 12 => Ok R12 | 13 => Ok R13 | 14 => Ok R14 | 15 => Ok R15
  | _ => Throw "Invalid GPRegister ID."
  end.

Definition IsGPRegister (id : Z) : bool := (0 <=? id) && (id <=? 15).

Inductive VRegister : Set :=
  | M0 | M1 | M2 | M3 | M4 | M5 | M6 | M7 | M8 | M9 | M10 | M11 | M12 | M13 | M14 | M15.

Definition VRegister_Id (r : VRegister) : Z :=
  match r with
  | M0 => 50 | M1 => 51 | M2 => 52 | M3 => 53 | M4 => 54 | M5 => 55 | M6 => 56 | M7 => 57
  | M8 => 58 | M9 => 59 | M10 => 60 | M11 => 61 | M12 => 62 | M13 => 63 | M14 => 64
  | M15 => 65
  end.

Definition VRegister_FromId (id : Z) : Res VRegister :=
  match id with
  | 50 => Ok M0 | 51 => Ok M1 | 52 => Ok M2 | 53 => Ok M3 | 54 => Ok M4 | 55 => Ok M5
  | 56 => Ok M6 | 57 => Ok M7 | 58 => Ok M8 | 59 => Ok M9 | 60 => Ok M10 | 61 => Ok M11
  | 62 => Ok M12 | 63 => Ok M13 | 64 => Ok M14 | 65 => Ok M15
  | _ => Throw "Invalid VRegister ID."
  end.

Definition IsVRegister (id : Z) : bool := (50 <=? id) && (id <=? 65).

Definition IFlag : Z := 100.
Definition FFlag : Z := 101.

(** ** [RegisterAssignment]: a register, or -1 for a value on the stack *)
Definition RegisterAssignment_default : Z := -1.
Definition RegisterAssignment_Spill : Z := -1.
Definition RegisterAssignment_IsRegister (r : Z) : bool := 0 <=? r.

(** ** [LiveInterval] *)
Record LiveInterval := MkLI {
  Undef : bool;
  Start : Z;
  End_ : Z;
  li_value : Z;
  li_type : Z;
  li_register : Z;
  SpillCost : Z;
}.

#[export] Instance LiveInterval_eq_dec : EqDecision LiveInterval.
Proof. solve_decision. Defined.

(** The two constructors. *)
Definition LiveInterval_reg (reg : Z) : LiveInterval :=
  MkLI true (-1) (-1) (u32 (-1)) (u16 (-1)) reg INT32_MAX.
Definition LiveInterval_value (v t : Z) : LiveInterval := MkLI true (-1) (-1) v t (-1) 0.

Definition Extend (l : LiveInterval) (x : Z) : LiveInterval :=
  MkLI false
    (if (Start l =? -1) || (x <? Start l) then x else Start l)
    (if (End_ l =? -1) || (End_ l <? x) then x else End_ l)
    (li_value l) (li_type l) (li_register l) (SpillCost l).

Definition ChangeToPrecolored (l : LiveInterval) (reg : Z) : LiveInterval :=
  MkLI (Undef l) (Start l) (End_ l) (u32 (-1)) (u16 (-1)) reg INT32_MAX.

Definition IsPrecolored (l : LiveInterval) : bool := 0 <=? li_register l.

(** [1.5 * pow(10, d)] truncated to an [int], saturating: 1 for [d = 0] and
    15 * 10^(d-1) for [d > 0], all exact doubles below 2^31. *)
Definition use_cost (loop_depth : Z) : Z :=
  Z.min INT32_MAX (3 * 10 ^ loop_depth / 2).

Definition UpdateSpillCostWithUse (l : LiveInterval) (loop_depth : Z) : LiveInterval :=
  if IsPrecolored l then l else
  let to_add := use_cost loop_depth in
  MkLI (Undef l) (Start l) (End_ l) (li_value l) (li_type l) (li_register l)
    (if INT32_MAX - to_add <? SpillCost l then INT32_MAX else SpillCost l + to_add).

Definition li_Type (l : LiveInterval) : Res Z :=
  if IsPrecolored l then Throw "Not a virtual live interval" else Ok (li_type l).
Definition li_Value (l : LiveInterval) : Res Z :=
  if IsPrecolored l then Throw "Not a virtual live interval" else Ok (li_value l).
Definition PrecoloredRegister (l : LiveInterval) : Res Z :=
  if IsPrecolored l then Ok (li_register l) else Throw "Not a precolored live interval".

(** The spill cost never leaves the range of an [int]. *)
Lemma UpdateSpillCostWithUse_range l d :
  0 <= d -> 0 <= SpillCost l <= INT32_MAX ->
  SpillCost l <= SpillCost (UpdateSpillCostWithUse l d) <= INT32_MAX.
Proof.
  intros Hd Hc. unfold UpdateSpillCostWithUse. case_match; [lia|]. cbn [SpillCost].
  assert (0 <= use_cost d) as Hu.
  { unfold use_cost. apply Z.min_glb; [done|]. apply Z.div_pos; [|lia].
    pose proof (Z.pow_nonneg 10 d). lia. }
  case_match; lia.
Qed.

(** Two ranges that share a position. *)
Definition overlap (a b : LiveInterval) : Prop := Start a <= End_ b /\ Start b <= End_ a.
#[export] Instance overlap_dec a b : Decision (overlap a b).
Proof. apply _. Defined.

(** Extending covers the old range and the new point, and nothing more. *)
Definition covers (l : LiveInterval) (p : Z) : Prop :=
  Undef l = false /\ Start l <= p <= End_ l.

(** Invariant of the class: undefined, or a range of positions. *)
Definition li_ok (l : LiveInterval) : Prop :=
  if Undef l then Start l = -1 /\ End_ l = -1 else 0 <= Start l <= End_ l.

Lemma Extend_ok l x : li_ok l -> 0 <= x -> li_ok (Extend l x).
Proof. unfold li_ok, Extend. intros. cbn. destruct (Undef l); repeat case_match; lia. Qed.

Lemma Extend_covers l x p : li_ok l -> 0 <= x ->
  covers (Extend l x) p <->
    (p = x \/ covers l p \/ (Undef l = false /\ (Start l <= p <= x \/ x <= p <= End_ l))).
Proof.
  unfold li_ok, covers, Extend. intros Hl Hx. cbn.
  destruct (Undef l).
  - destruct Hl as [-> ->]. cbn. split; [intros []; left; lia|]. intros [->|[[[=] _]|[[=] _]]].
    split; [done|lia].
  - destruct (Z.eqb_spec (Start l) (-1)), (Z.eqb_spec (End_ l) (-1)),
      (Z.ltb_spec x (Start l)), (Z.ltb_spec (End_ l) x); cbn; split; intros; lia || (intuition lia).
Qed.

#[export] Hint Resolve Extend_ok : kush.
