(* ===== verification/LinearScan.v ===== *)
(** * Register allocation by linear scan

    src/khir/asm/linear_scan_reg_alloc.cc and stack_spill_reg_alloc.cc.  The scan
    visits the live intervals by increasing start and keeps, for each of the two
    register classes, the set of free registers and the active intervals ordered
    by end.

    Two standard containers leave a choice open: which element of an
    [unordered_set] comes first ([pick]) and how [std::sort] orders intervals
    with the same start ([sort]). *)
From stdpp Require Import sorting.
From S2P Require Import Prelude Opcode Instruction ProgramBuilder LiveInterval.

(** ** [std::multiset] ordered by end: equal keys keep their insertion order *)
Fixpoint active_insert (i : LiveInterval) (active : list LiveInterval) : list LiveInterval :=
  match active with
  | [] => [i]
  | j :: rest => if End_ i <? End_ j then i :: active else j :: active_insert i rest
  end.

(** The register an active interval holds. *)
Definition interval_reg (assignments : list Z) (j : LiveInterval) : Res Z :=
  if IsPrecolored j then Ok (li_register j) else vec_at assignments (Value_GetIdx (li_value j)).

Definition IsVector (t : Z) : bool := (t =? F64Type) || (t =? I32Vec8Type) || (t =? I1Vec8Type).

(** The registers of a class, those of its active intervals included. *)
Fixpoint Union (active : list LiveInterval) (res : gset Z) (assignments : list Z)
    : Res (gset Z) :=
  match active with
  | [] => Ok res
  | x :: active =>
      r ← interval_reg assignments x;
      if RegisterAssignment_IsRegister r then Union active ({[r]} ∪ res) assignments
      else Throw "assert"
  end.

(** ** Spilling *)

(** The loop of [SpillMinCost]: the position of the first virtual interval with
    the least cost. *)
Fixpoint spill_min_loop (active : list LiveInterval) (k : nat) (undef : bool)
    (min_spill_cost : Z) (min_spill_it : option nat) : option nat :=
  match active with
  | [] => min_spill_it
  | j :: active =>
      if IsPrecolored j then spill_min_loop active (S k) undef min_spill_cost min_spill_it
      else if undef then spill_min_loop active (S k) false (SpillCost j) (Some k)
      else if SpillCost j <? min_spill_cost
      then spill_min_loop active (S k) undef (SpillCost j) (Some k)
      else spill_min_loop active (S k) undef min_spill_cost min_spill_it
  end.

(** The loop of [MaybeSpillMinCost]: cheaper than the interval at hand only. *)
Fixpoint maybe_spill_loop (active : list LiveInterval) (k : nat)
    (min_spill_cost : Z) (min_spill_it : option nat) : option nat :=
  match active with
  | [] => min_spill_it
  | j :: active =>
      if IsPrecolored j then maybe_spill_loop active (S k) min_spill_cost min_spill_it
      else if SpillCost j <? min_spill_cost
      then maybe_spill_loop active (S k) (SpillCost j) (Some k)
      else maybe_spill_loop active (S k) min_spill_cost min_spill_it
  end.

(** What a class of registers and the assignments look like after a call. *)
Definition ClassState : Type := list Z * gset Z * list LiveInterval.

(** The end of both functions: the interval at [k] loses its register. *)
Definition spill_position (k : nat) (st : ClassState) : Res (Z * ClassState) :=
  let '(assignments, free, active) := st in
  j ← opt_ub (active !! k);
  v ← li_Value j;
  reg ← vec_at assignments (Value_GetIdx v);
  assignments ← vec_set assignments (Value_GetIdx v) RegisterAssignment_Spill;
  Ok (reg, (assignments, {[reg]} ∪ free, delete k active)).

Definition SpillMinCost (st : ClassState) : Res (Z * ClassState) :=
  let '(assignments, free, active) := st in
  if decide (active = []) then Throw "Nothing to spill." else
  match spill_min_loop active 0 true INT32_MAX None with
  | None => Throw "No spillable register exists"
  | Some k => spill_position k st
  end.

Definition MaybeSpillMinCost (st : ClassState) (maybe : LiveInterval) : Res (Z * ClassState) :=
  let '(assignments, free, active) := st in
  if decide (active = []) then Throw "Nothing to spill." else
  match maybe_spill_loop active 0 (SpillCost maybe) None with
  | None => Ok (-1, st)
  | Some k => spill_position k st
  end.

(** ** Adding an interval *)

(** The interval of [active] that holds [reg] gives it up for [to_add]. *)
Fixpoint evict (all : list LiveInterval) (k : nat) (active : list LiveInterval) (reg : Z)
    (to_add : LiveInterval) (assignments : list Z) : Res (list Z * list LiveInterval) :=
  match active with
  | [] => Throw "Register should have been in free: "
  | j :: active =>
      j_reg ← interval_reg assignments j;
      if negb (reg =? j_reg) then evict all (S k) active reg to_add assignments
      else if IsPrecolored j then Throw "Two precolored intervals conflicting."
      else
        assignments ← vec_set assignments (Value_GetIdx (li_value j)) RegisterAssignment_Spill;
        Ok (assignments, active_insert to_add (delete k all))
  end.

Section Pick.
Context (pick : gset Z -> Z).

Definition AddPrecoloredInterval (to_add : LiveInterval) (st : ClassState)
    : Res (LiveInterval * ClassState) :=
  let '(assignments, free, active) := st in
  if IsPrecolored to_add then
    let reg := li_register to_add in
    if decide (reg ∈ free)
    then Ok (to_add, (assignments, free ∖ {[reg]}, active_insert to_add active))
    else
      '(assignments, active) ← evict active 0 active reg to_add assignments;
      Ok (to_add, (assignments, free, active))
  else if decide (free = ∅) then
    '(free_reg, (assignments, free, active)) ← SpillMinCost st;
    let to_add := ChangeToPrecolored to_add free_reg in
    Ok (to_add, (assignments, free ∖ {[free_reg]}, active_insert to_add active))
  else
    let reg := pick free in
    let to_add := ChangeToPrecolored to_add reg in
    Ok (to_add, (assignments, free ∖ {[reg]}, active_insert to_add active)).

Fixpoint ExpireOldIntervals (current : LiveInterval) (assignments : list Z) (free : gset Z)
    (active : list LiveInterval) : Res (gset Z * list LiveInterval) :=
  match active with
  | [] => Ok (free, [])
  | j :: rest =>
      if Start current <=? End_ j then Ok (free, active)
      else
        r ← interval_reg assignments j;
        if RegisterAssignment_IsRegister r
        then ExpireOldIntervals current assignments ({[r]} ∪ free) rest
        else Throw "assert"
  end.

Definition SpillAtInterval (curr : LiveInterval) (st : ClassState) : Res ClassState :=
  let '(assignments, free, active) := st in
  v ← li_Value curr;
  let curr_idx := Value_GetIdx v in
  if decide (free = ∅) then
    '(free_reg, (assignments, free, active)) ← MaybeSpillMinCost st curr;
    if free_reg =? -1 then
      assignments ← vec_set assignments curr_idx RegisterAssignment_Spill;
      Ok (assignments, free, active)
    else
      assignments ← vec_set assignments curr_idx free_reg;
      Ok (assignments, free ∖ {[free_reg]}, active_insert curr active)
  else
    let reg := pick free in
    assignments ← vec_set assignments curr_idx reg;
    Ok (assignments, free ∖ {[reg]}, active_insert curr active).

(** ** The scan *)
Definition free_vector0 : gset Z := list_to_set (VRegister_Id <$>
  [M0; M1; M2; M3; M4; M5; M6; M7; M8; M9; M10; M11; M12; M13; M14]).
Definition free_normal0 : gset Z := list_to_set (GPRegister_Id <$>
  [RBX; RCX; RDX; RSI; RDI; R8; R9; R10; R11; R12; R13; R14; R15]).

Record ScanState := MkScan {
  assignments : list Z;
  free_normal : gset Z;
  active_normal : list LiveInterval;
  free_vector : gset Z;
  active_vector : list LiveInterval;
}.

Definition on_normal (s : ScanState) : ClassState :=
  (assignments s, free_normal s, active_normal s).
Definition on_vector (s : ScanState) : ClassState :=
  (assignments s, free_vector s, active_vector s).
Definition set_normal (s : ScanState) (c : ClassState) : ScanState :=
  let '(a, f, l) := c in MkScan a f l (free_vector s) (active_vector s).
Definition set_vector (s : ScanState) (c : ClassState) : ScanState :=
  let '(a, f, l) := c in MkScan a (free_normal s) (active_normal s) f l.
Definition set_assignment (s : ScanState) (i r : Z) : Res ScanState :=
  a ← vec_set (assignments s) i r;
  Ok (MkScan a (free_normal s) (active_normal s) (free_vector s) (active_vector s)).

Definition is_int_cmp (o : Opcode) : bool :=
  match o with
  | I1_CMP_EQ | I1_CMP_NE
  | I8_CMP_EQ | I8_CMP_NE | I8_CMP_LT | I8_CMP_LE | I8_CMP_GT | I8_CMP_GE
  | I16_CMP_EQ | I16_CMP_NE | I16_CMP_LT | I16_CMP_LE | I16_CMP_GT | I16_CMP_GE
  | I32_CMP_EQ | I32_CMP_NE | I32_CMP_LT | I32_CMP_LE | I32_CMP_GT | I32_CMP_GE
  | I64_CMP_EQ | I64_CMP_NE | I64_CMP_LT | I64_CMP_LE | I64_CMP_GT | I64_CMP_GE
  | I32_CMP_EQ_ANY_CONST_VEC4 | I32_CMP_EQ_ANY_CONST_VEC8 => true
  | _ => false
  end.

Definition is_float_cmp (o : Opcode) : bool :=
  match o with
  | F64_CMP_EQ | F64_CMP_NE | F64_CMP_LT | F64_CMP_LE | F64_CMP_GT | F64_CMP_GE => true
  | _ => false
  end.

Definition is_int_store (o : Opcode) : bool :=
  match o with I8_STORE | I16_STORE | I32_STORE | I64_STORE | PTR_STORE => true | _ => false end.

Definition instr_opcode (instrs : list Z) (i : Z) : Res (option Opcode) :=
  w ← vec_at instrs i; Ok (OpcodeFrom (GenericInstructionReader_Opcode w)).

(** A compare whose only use is the branch that follows it lives in a flag. *)
Definition assign_flag (instrs : list Z) (i : LiveInterval) (idx flag : Z) (s : ScanState)
    : Res ScanState :=
  if Start i + 1 =? End_ i then
    o ← instr_opcode instrs (idx + 1);
    if decide (o = Some CONDBR) then set_assignment s idx flag else Ok s
  else Ok s.

(** The default case of the switch. *)
Definition scan_value (i : LiveInterval) (s : ScanState) : Res ScanState :=
  t ← li_Type i;
  if IsVector t then c ← SpillAtInterval i (on_vector s); Ok (set_vector s c)
  else c ← SpillAtInterval i (on_normal s); Ok (set_normal s c).

(** The switch over the opcode of a virtual interval's value. *)
Definition scan_virtual (instrs : list Z) (i : LiveInterval) (s : ScanState) : Res ScanState :=
  v ← li_Value i;
  let idx := Value_GetIdx v in
  o ← instr_opcode instrs idx;
  match o with
  | None => scan_value i s
  | Some o =>
      if is_int_cmp o then assign_flag instrs i idx IFlag s
      else if is_float_cmp o then assign_flag instrs i idx FFlag s
      else if decide (o = I32_VEC8_MASK_STORE) then
        '(i, c) ← AddPrecoloredInterval i (on_vector s);
        reg ← PrecoloredRegister i;
        set_assignment (set_vector s c) idx reg
      else if is_int_store o then
        '(i, c) ← AddPrecoloredInterval i (on_normal s);
        reg ← PrecoloredRegister i;
        set_assignment (set_normal s c) idx reg
      else scan_value i s
  end.

Definition scan_precolored (i : LiveInterval) (s : ScanState) : Res ScanState :=
  if IsVRegister (li_register i) then
    '(_, c) ← AddPrecoloredInterval i (on_vector s); Ok (set_vector s c)
  else if IsGPRegister (li_register i) then
    '(_, c) ← AddPrecoloredInterval i (on_normal s); Ok (set_normal s c)
  else Throw "Invalid precolored register".

(** One turn of the loop. *)
Definition alloc_step (instrs : list Z) (s : ScanState) (i : LiveInterval) : Res ScanState :=
  u ← Union (active_normal s) (free_normal s) (assignments s);
  if negb (Nat.eqb (size u) 13) then Throw "assert" else
  u ← Union (active_vector s) (free_vector s) (assignments s);
  if negb (Nat.eqb (size u) 15) then Throw "assert" else
  if Undef i then Throw "assert" else
  '(fn, an) ← ExpireOldIntervals i (assignments s) (free_normal s) (active_normal s);
  '(fv, av) ← ExpireOldIntervals i (assignments s) (free_vector s) (active_vector s);
  let s := MkScan (assignments s) fn an fv av in
  if IsPrecolored i then scan_precolored i s else scan_virtual instrs i s.

Fixpoint alloc_loop (instrs : list Z) (s : ScanState) (live_intervals : list LiveInterval)
    : Res ScanState :=
  match live_intervals with
  | [] => Ok s
  | i :: rest => s ← alloc_step instrs s i; alloc_loop instrs s rest
  end.

Definition scan_init (instrs : list Z) : ScanState :=
  MkScan (replicate (length instrs) RegisterAssignment_default) free_normal0 [] free_vector0 [].

Definition LinearScan (sort : list LiveInterval -> list LiveInterval) (instrs : list Z)
    (live_intervals : list LiveInterval) : Res (list Z) :=
  s ← alloc_loop instrs (scan_init instrs) (sort live_intervals);
  Ok (assignments s).

End Pick.

(** ** The allocator that keeps every value on the stack

    Only stores get a register, the same one for all of a class. *)
Definition stack_spill_reg (o : option Opcode) : Z :=
  match o with
  | Some (I8_STORE | I16_STORE | I32_STORE | I64_STORE | PTR_STORE) => GPRegister_Id R15
  | Some I32_VEC8_MASK_STORE => VRegister_Id M14
  | _ => RegisterAssignment_default
  end.

Definition StackSpillingRegisterAlloc (instrs : list Z) : list Z :=
  (fun w => stack_spill_reg (OpcodeFrom (GenericInstructionReader_Opcode w))) <$> instrs.

(** ** Colours

    [colour asg o] is the register of an interval: its own when it is
    precoloured, the assigned one otherwise (-1 on the stack). *)
Definition idx_of (o : LiveInterval) : Z := Value_GetIdx (li_value o).
Definition colour (asg : list Z) (o : LiveInterval) : Z :=
  if IsPrecolored o then li_register o else default (-1) (asg !! Z.to_nat (idx_of o)).

(** A property of all pairs of different positions. *)
Lemma ForallOrdPairs_perm {A} (R : A -> A -> Prop) l k :
  Symmetric R -> l ≡ₚ k -> List.ForallOrdPairs R l -> List.ForallOrdPairs R k.
Proof.
  intros HR. induction 1 as [|x l k H IH|x y l|l1 l2 l3 _ IH1 _ IH2]; intros Hl; eauto.
  - inversion Hl; subst. constructor; [|eauto]. by rewrite <- H.
  - inversion Hl as [|? ? Hy Hl']; subst. inversion Hl'; subst. inversion Hy; subst.
    repeat constructor; done || by apply HR.
Qed.

Lemma ForallOrdPairs_impl {A} (R S : A -> A -> Prop) l :
  (forall a b, a ∈ l -> b ∈ l -> R a b -> S a b) ->
  List.ForallOrdPairs R l -> List.ForallOrdPairs S l.
Proof.
  intros Hi H. induction H as [|a l Ha H IH]; constructor.
  - apply list.Forall_forall. intros b Hb. apply Hi; [by left|by right|].
    rewrite list.Forall_forall in Ha. auto.
  - apply IH. intros b c ??. apply Hi; by right.
Qed.

Lemma ForallOrdPairs_nodup {A} (R : A -> A -> Prop) l :
  NoDup l -> (forall a b, a ∈ l -> b ∈ l -> a <> b -> R a b) -> List.ForallOrdPairs R l.
Proof.
  induction 1 as [|a l Ha Hl IH]; intros H; constructor.
  - apply list.Forall_forall. intros b Hb. apply H; [by left|by right|]. by intros ->.
  - apply IH. intros b c ??. apply H; by right.
Qed.

(** ** The active list *)
Lemma active_insert_perm i l : active_insert i l ≡ₚ i :: l.
Proof.
  induction l as [|j l IH]; cbn; [done|]. case_match; [done|].
  rewrite IH. apply Permutation_swap.
Qed.

Abbreviation by_end := (fun a b => End_ a <= End_ b).
Abbreviation by_start := (fun a b => Start a <= Start b).

Lemma active_insert_sorted i l :
  StronglySorted by_end l -> StronglySorted by_end (active_insert i l).
Proof.
  induction 1 as [|j l Hl IH Hj]; cbn; [by repeat constructor|].
  destruct (Z.ltb_spec (End_ i) (End_ j)).
  - constructor; [by constructor|]. constructor; [lia|]. eapply list.Forall_impl; [exact Hj|]. cbn. lia.
  - constructor; [done|]. rewrite active_insert_perm. constructor; [lia|done].
Qed.

Lemma StronglySorted_delete {A} (R : A -> A -> Prop) l k :
  StronglySorted R l -> StronglySorted R (delete k l).
Proof.
  intros H. revert k. induction H as [|a l Hl IH Ha]; intros k; [destruct k; constructor|].
  destruct k; cbn; [done|]. constructor; [apply IH|].
  rewrite list.Forall_forall in *. intros x Hx. apply Ha. eapply elem_of_sublist, sublist_delete. exact Hx.
Qed.

Section Correct.
Context (pick : gset Z -> Z) (instrs : list Z).

(** The intervals of stores, which are forced into a register. *)
Definition interval_opcode (o : LiveInterval) : option Opcode :=
  w ← instrs !! Z.to_nat (idx_of o); OpcodeFrom (GenericInstructionReader_Opcode w).
Definition is_store (o : LiveInterval) : bool :=
  negb (IsPrecolored o) &&
  match interval_opcode o with
  | Some op => is_int_store op || bool_decide (op = I32_VEC8_MASK_STORE)
  | None => false
  end.

Definition no_share (R : gset Z) (asg : list Z) (a b : LiveInterval) : Prop :=
  overlap a b -> colour asg a ∈ R -> colour asg a <> colour asg b.

(** What holds of one class of registers [R] after the intervals of [P]: every
    register is free or held by one active interval, an active interval is an
    interval of [P] or a store of [P] with the register it got, and an interval
    of [P] with a register of the class is over before [t] or active. *)
Record class_inv (R : gset Z) (P : list LiveInterval) (t : Z) (asg : list Z)
    (free : gset Z) (act : list LiveInterval) : Prop := {
  ci_nodup : NoDup (colour asg <$> act);
  ci_regs : forall r, r ∈ R <-> r ∈ free \/ r ∈ colour asg <$> act;
  ci_free : forall r, r ∈ free -> r ∉ colour asg <$> act;
  ci_sorted : StronglySorted by_end act;
  ci_orig : forall j, j ∈ act -> (j ∈ P /\ is_store j = false) \/
    exists o, o ∈ P /\ is_store o = true /\ colour asg o ∈ R /\ j = ChangeToPrecolored o (colour asg o);
  ci_live : forall o, o ∈ P -> colour asg o ∈ R ->
    End_ o < t \/ o ∈ act \/ ChangeToPrecolored o (colour asg o) ∈ act;
  ci_pairs : List.ForallOrdPairs (no_share R asg) P;
}.

(** What the proof needs of the intervals seen so far. *)
Record seen_ok (P : list LiveInterval) (asg : list Z) : Prop := {
  so_len : length asg = length instrs;
  so_range : forall o, o ∈ P -> IsPrecolored o = false -> 0 <= idx_of o < vec_size instrs;
  so_inj : forall a b, a ∈ P -> b ∈ P -> IsPrecolored a = false -> IsPrecolored b = false ->
    idx_of a = idx_of b -> a = b;
}.

Lemma ChangeToPrecolored_colour asg o r : 0 <= r -> colour asg (ChangeToPrecolored o r) = r.
Proof. intros. unfold colour, IsPrecolored. cbn. by rewrite (proj2 (Z.leb_le 0 r)). Qed.

Lemma colour_insert_ne asg o i r :
  (IsPrecolored o = false -> idx_of o <> i) -> 0 <= i ->
  (IsPrecolored o = false -> 0 <= idx_of o) ->
  colour (<[Z.to_nat i := r]> asg) o = colour asg o.
Proof.
  intros H Hi Ho. unfold colour. destruct (IsPrecolored o); [done|].
  rewrite list_lookup_insert_ne; [done|]. specialize (H eq_refl). specialize (Ho eq_refl). lia.
Qed.

Lemma colour_insert_eq asg o r :
  IsPrecolored o = false -> 0 <= idx_of o < vec_size asg ->
  colour (<[Z.to_nat (idx_of o) := r]> asg) o = r.
Proof.
  unfold vec_size. intros H ?. unfold colour. rewrite H, list_lookup_insert_eq by lia. done.
Qed.

Section Class.
Context (R : gset Z) (R_reg : forall r, r ∈ R -> 0 <= r).

Lemma store_precoloured o r : r ∈ R -> IsPrecolored (ChangeToPrecolored o r) = true.
Proof. intros Hr%R_reg. unfold IsPrecolored. cbn. by apply Z.leb_le. Qed.

Lemma is_store_virtual o : is_store o = true -> IsPrecolored o = false.
Proof. unfold is_store. by destruct (IsPrecolored o). Qed.

(** A virtual active interval is an interval seen. *)
Lemma active_virtual P t asg free act j :
  class_inv R P t asg free act -> j ∈ act -> IsPrecolored j = false ->
  j ∈ P /\ is_store j = false.
Proof.
  intros H Hj E. destruct (ci_orig _ _ _ _ _ _ H j Hj) as [?|(o & _ & _ & Hr & ->)]; [done|].
  by rewrite store_precoloured in E.
Qed.

Lemma active_reg P t asg free act j :
  class_inv R P t asg free act -> seen_ok P asg -> j ∈ act ->
  interval_reg asg j = Ok (colour asg j) /\ colour asg j ∈ R.
Proof.
  intros H Hs Hj. split.
  - unfold interval_reg, colour. destruct (IsPrecolored j) eqn:E; [done|].
    destruct (active_virtual _ _ _ _ _ _ H Hj E) as [HP _].
    pose proof (so_range _ _ Hs j HP E) as Hr. unfold vec_size in Hr.
    rewrite <- (so_len _ _ Hs) in Hr.
    destruct (lookup_lt_is_Some_2 asg (Z.to_nat (idx_of j))) as [r Hr']; [lia|].
    rewrite Hr'. apply vec_at_Ok. split; [apply Hr|done].
  - apply (ci_regs _ _ _ _ _ _ H). right. apply list_elem_of_fmap. eauto.
Qed.

(** The registers of [active] make up the class with the free ones. *)
Lemma Union_ok P t asg free act :
  class_inv R P t asg free act -> seen_ok P asg -> Union act free asg = Ok R.
Proof.
  intros H Hs.
  assert (forall l f, l ⊆ act -> Union l f asg = Ok (list_to_set (colour asg <$> l) ∪ f)) as E.
  { induction l as [|j l IH]; intros f Hl; cbn; [by rewrite (left_id_L ∅ (∪))|].
    destruct (active_reg P t asg free act j) as [-> Hj]; [done..|apply Hl; by left|].
    cbn. unfold RegisterAssignment_IsRegister.
    rewrite (proj2 (Z.leb_le _ _) (R_reg _ Hj)). rewrite IH.
    - f_equal. by rewrite (assoc_L (∪)), (comm_L (∪) (list_to_set _)).
    - intros x ?. apply Hl. by right. }
  rewrite E by done. f_equal. apply set_eq. intros r.
  rewrite elem_of_union, elem_of_list_to_set, (ci_regs _ _ _ _ _ _ H). tauto.
Qed.

(** Changing assignments outside the class. *)
Lemma class_frame P P' t asg asg' free act :
  (forall o, o ∈ P -> colour asg' o = colour asg o \/
    (~ colour asg o ∈ R /\ ~ colour asg' o ∈ R)) ->
  (P' = P \/ exists i, P' = i :: P /\ colour asg' i ∉ R) ->
  class_inv R P t asg free act -> class_inv R P' t asg' free act.
Proof.
  intros Hc HP H.
  assert (forall o, o ∈ P -> colour asg o ∈ R -> colour asg' o = colour asg o) as Hsame.
  { intros o Ho Hr. destruct (Hc o Ho) as [?|[??]]; [done|]. done. }
  assert (forall o, o ∈ P -> colour asg' o ∈ R -> colour asg' o = colour asg o) as Hsame'.
  { intros o Ho Hr. destruct (Hc o Ho) as [?|[??]]; [done|]. done. }
  assert (colour asg' <$> act = colour asg <$> act) as Ea.
  { apply list_fmap_ext. intros k j Hj%list_elem_of_lookup_2.
    assert (colour asg j ∈ R) as Hr.
    { apply (ci_regs _ _ _ _ _ _ H). right. apply list_elem_of_fmap. eauto. }
    destruct (ci_orig _ _ _ _ _ _ H j Hj) as [[??]|(o & _ & _ & Ho & ->)]; [auto|].
    rewrite !ChangeToPrecolored_colour; auto. }
  assert (List.ForallOrdPairs (no_share R asg') P) as Hp.
  { eapply ForallOrdPairs_impl, (ci_pairs _ _ _ _ _ _ H). intros a b Ha Hb Hn Ho Hr Eq.
    pose proof (Hsame' a Ha Hr) as E1. pose proof Hr as Hrb. rewrite Eq in Hrb.
    pose proof (Hsame' b Hb Hrb) as E2. apply Hn; [done| |]; congruence. }
  assert (forall o, o ∈ P' -> colour asg' o ∈ R -> o ∈ P) as HP'.
  { destruct HP as [->|(i & -> & Hi)]; [auto|]. intros o [->|Ho]%elem_of_cons Hr; done. }
  assert (P ⊆ P') as Hsub.
  { destruct HP as [->|(i & -> & _)]; [done|]. intros x ?. by right. }
  split.
  - rewrite Ea. apply H.
  - intros r. rewrite Ea. apply H.
  - intros r. rewrite Ea. apply H.
  - apply H.
  - intros j Hj. destruct (ci_orig _ _ _ _ _ _ H j Hj) as [[??]|(o & Ho & Hs & Hr & ->)].
    + left. auto.
    + right. exists o. rewrite (Hsame o Ho Hr). auto.
  - intros o Ho Hr. pose proof (HP' o Ho Hr) as Ho'. pose proof (Hsame' o Ho' Hr) as E.
    rewrite E in Hr |- *. by apply (ci_live _ _ _ _ _ _ H).
  - destruct HP as [->|(i & -> & Hi)]; [done|]. constructor; [|done].
    apply list.Forall_forall. intros b _ _ Hr. done.
Qed.

Lemma class_later P t t' asg free act :
  t <= t' -> class_inv R P t asg free act -> class_inv R P t' asg free act.
Proof.
  intros Ht []; split; try done. intros o Ho Hr.
  destruct (ci_live0 o Ho Hr) as [?|?]; [left; lia|by right].
Qed.

(** The intervals that end before the current one give their registers back. *)
Lemma expire_ok P t asg free act i :
  class_inv R P t asg free act -> seen_ok P asg -> t <= Start i ->
  exists free' act', ExpireOldIntervals i asg free act = Ok (free', act') /\
    class_inv R P (Start i) asg free' act' /\ forall j, j ∈ act' -> Start i <= End_ j.
Proof.
  intros H Hs Ht. apply (class_later _ _ _ _ _ _ Ht) in H. clear Ht. revert free H.
  induction act as [|j act IH]; intros free H; cbn.
  - exists free, []. split; [done|]. split; [done|by intros j ?%not_elem_of_nil].
  - destruct (Z.leb_spec (Start i) (End_ j)) as [Hj|Hj].
    + exists free, (j :: act). split; [done|].
      pose proof (ci_sorted _ _ _ _ _ _ H) as Hso. inversion Hso as [|? ? _ Hall]; subst.
      split; [done|]. intros k [->|Hk]%elem_of_cons; [done|].
      rewrite list.Forall_forall in Hall. specialize (Hall k Hk). cbn in Hall. lia.
    + destruct (active_reg P (Start i) asg free (j :: act) j) as [-> Hr]; [done..|by left|].
      cbn. unfold RegisterAssignment_IsRegister.
      rewrite (proj2 (Z.leb_le _ _) (R_reg _ Hr)). apply IH.
      destruct H as [Hn Hrg Hf Hso Ho Hl Hp]. cbn in *.
      apply list.NoDup_cons in Hn as [Hn1 Hn2]. split; try done.
      * intros r. rewrite Hrg, elem_of_union, elem_of_singleton, elem_of_cons. tauto.
      * intros r [->%elem_of_singleton|Hin]%elem_of_union; [done|].
        specialize (Hf r Hin). rewrite elem_of_cons in Hf. tauto.
      * by inversion Hso.
      * intros k Hk. apply Ho. by right.
      * intros o Hin Hc. destruct (Hl o Hin Hc) as [?|[[->|?]%elem_of_cons|[E|?]%elem_of_cons]];
          [by left|by left|by auto| |by auto].
        left. apply (f_equal End_) in E. cbn in E. lia.
Qed.

(** ** Spilling one active virtual interval *)
Definition spilled (asg : list Z) (j : LiveInterval) : list Z :=
  <[Z.to_nat (idx_of j) := -1]> asg.

Lemma spilled_seen P asg j : seen_ok P asg -> seen_ok P (spilled asg j).
Proof. intros []; split; try done. unfold spilled. by rewrite length_insert. Qed.

Lemma spilled_colour P asg j o :
  seen_ok P asg -> j ∈ P -> o ∈ P -> IsPrecolored j = false ->
  (o = j /\ colour (spilled asg j) o = -1) \/
  (o <> j /\ colour (spilled asg j) o = colour asg o).
Proof.
  intros Hs Hj Ho E. pose proof (so_range _ _ Hs j Hj E) as Hr.
  destruct (decide (o = j)) as [->|Hn].
  - left. split; [done|]. apply colour_insert_eq; [done|]. unfold vec_size in *.
    by rewrite (so_len _ _ Hs).
  - right. split; [done|]. apply colour_insert_ne.
    + intros Eo Hi. apply Hn. by apply (so_inj _ _ Hs).
    + lia.
    + intros Eo. by apply (so_range _ _ Hs o Ho Eo).
Qed.

Lemma NoDup_fmap_elem {A B} (f : A -> B) (l : list A) x y :
  NoDup (f <$> l) -> x ∈ l -> y ∈ l -> f x = f y -> x = y.
Proof.
  intros Hn [i Hi]%list_elem_of_lookup_1 [k Hk]%list_elem_of_lookup_1 E.
  assert (i = k) as ->; [|congruence].
  apply (NoDup_lookup _ _ _ (f x) Hn); rewrite list_lookup_fmap; [by rewrite Hi|].
  by rewrite Hk, E.
Qed.

Lemma delete_fmap_elem {A B} (f : A -> B) (l : list A) k a :
  NoDup (f <$> l) -> l !! k = Some a ->
  forall x, x ∈ delete k l <-> x ∈ l /\ f x <> f a.
Proof.
  intros Hn Hk x. rewrite (delete_Permutation l k a Hk) in Hn. cbn in Hn.
  apply list.NoDup_cons in Hn as [Hn _].
  rewrite (delete_Permutation l k a Hk) at 2. rewrite elem_of_cons. split.
  - intros Hx. split; [by right|]. intros E. apply Hn. rewrite <- E. by apply list_elem_of_fmap_2.
  - intros [[->|?] Hne]; done.
Qed.

Lemma spill_inv P t asg free act k j :
  class_inv R P t asg free act -> seen_ok P asg -> act !! k = Some j ->
  IsPrecolored j = false ->
  class_inv R P t (spilled asg j) ({[colour asg j]} ∪ free) (delete k act).
Proof.
  intros H Hs Hk E. pose proof (list_elem_of_lookup_2 _ _ _ Hk) as Hj.
  destruct (active_virtual _ _ _ _ _ _ H Hj E) as [HjP Hst].
  pose proof (delete_fmap_elem _ _ _ _ (ci_nodup _ _ _ _ _ _ H) Hk) as Hd.
  assert (forall x, x ∈ delete k act -> colour (spilled asg j) x = colour asg x) as Hc.
  { intros x [Hx Hne]%Hd. destruct (IsPrecolored x) eqn:Ex; [unfold colour; by rewrite Ex|].
    destruct (active_virtual _ _ _ _ _ _ H Hx Ex) as [HxP _].
    destruct (spilled_colour P asg j x) as [[-> _]|[_ ?]]; done. }
  assert (colour (spilled asg j) <$> delete k act = colour asg <$> delete k act) as Ed.
  { apply list_fmap_ext. intros n x Hx%list_elem_of_lookup_2. auto. }
  assert (colour asg <$> act ≡ₚ colour asg j :: (colour asg <$> delete k act)) as Hp.
  { by rewrite (delete_Permutation _ _ _ Hk) at 1. }
  assert (forall o, o ∈ P -> colour (spilled asg j) o ∈ R ->
    o <> j /\ colour (spilled asg j) o = colour asg o) as Hcr.
  { intros o Ho Hr. destruct (spilled_colour P asg j o) as [[-> Eo]|?]; try done.
    rewrite Eo in Hr. by apply R_reg in Hr. }
  destruct H as [Hn Hrg Hf Hso Ho Hl Hpr]. pose proof Hn as Hn0. rewrite Hp in Hn.
  apply list.NoDup_cons in Hn as [Hn1 Hn2]. split.
  - by rewrite Ed.
  - intros r. rewrite Ed, Hrg, Hp, elem_of_cons, elem_of_union, elem_of_singleton. tauto.
  - intros r. rewrite Ed, elem_of_union, elem_of_singleton. intros [->|Hr]; [done|].
    specialize (Hf r Hr). rewrite Hp, elem_of_cons in Hf. tauto.
  - by apply StronglySorted_delete.
  - intros x [Hx Hne]%Hd. destruct (Ho x Hx) as [?|(o & HoP & Hos & Hor & ->)]; [by left|].
    right. exists o. destruct (spilled_colour P asg j o) as [[-> _]|[Hoj ->]]; try done.
    congruence.
  - intros o HoP Hr. destruct (Hcr o HoP Hr) as [Hoj Eo]. rewrite Eo in Hr |- *.
    destruct (Hl o HoP Hr) as [?|[?|Hx]]; [by left| |].
    + right. left. apply Hd. split; [done|]. intros E'. apply Hoj.
      by eapply (NoDup_fmap_elem _ _ _ _ Hn0).
    + right. right. apply Hd. split; [done|]. intros E'.
      pose proof (NoDup_fmap_elem _ _ _ _ Hn0 Hx Hj E') as <-. by rewrite store_precoloured in E.
  - eapply ForallOrdPairs_impl, Hpr. intros a b Ha Hb Hs' Hov Hr.
    destruct (Hcr a Ha Hr) as [Haj Ea]. rewrite Ea in Hr |- *. intros Eq.
    pose proof Hr as Hrb. rewrite Eq in Hrb. destruct (Hcr b Hb Hrb) as [Hbj Eb].
    rewrite Eb in Eq. by apply Hs'.
Qed.

(** ** Giving a free register to an interval *)
Lemma add_inv P t asg asg' free act i j r :
  class_inv R P t asg free act -> (forall o, o ∈ P -> colour asg' o = colour asg o) ->
  t <= Start i -> r ∈ free -> colour asg' i = r ->
  (j = i /\ is_store i = false) \/ (is_store i = true /\ j = ChangeToPrecolored i r) ->
  class_inv R (i :: P) t asg' (free ∖ {[r]}) (active_insert j act).
Proof.
  intros H Hc Ht Hr Ei Hj.
  assert (r ∈ R) as HR by (apply (ci_regs _ _ _ _ _ _ H); by left).
  assert (colour asg' j = r) as Ej.
  { destruct Hj as [[-> _]|[_ ->]]; [done|]. by apply ChangeToPrecolored_colour, R_reg. }
  assert (colour asg' <$> act = colour asg <$> act) as Ea.
  { apply list_fmap_ext. intros k x Hx%list_elem_of_lookup_2.
    destruct (ci_orig _ _ _ _ _ _ H x Hx) as [[??]|(o & _ & _ & Ho & ->)]; [auto|].
    rewrite !ChangeToPrecolored_colour; auto. }
  assert (colour asg' <$> active_insert j act ≡ₚ r :: (colour asg <$> act)) as Hp.
  { rewrite active_insert_perm. cbn. by rewrite Ej, Ea. }
  assert (forall o, o ∈ P -> colour asg o = r -> End_ o < t) as Hold.
  { intros o Ho Eo. pose proof (ci_free _ _ _ _ _ _ H r Hr) as Hnf.
    destruct (ci_live _ _ _ _ _ _ H o Ho) as [?|[Hin|Hin]]; [by rewrite Eo|done|..];
      destruct Hnf; apply list_elem_of_fmap; eexists; (split; [|exact Hin]); [done|].
    rewrite Eo. by rewrite ChangeToPrecolored_colour by auto. }
  destruct H as [Hn Hrg Hf Hso Ho Hl Hpr]. split.
  - rewrite Hp. apply list.NoDup_cons. auto.
  - intros x. rewrite Hp, Hrg, elem_of_cons, elem_of_difference, elem_of_singleton.
    destruct (decide (x = r)) as [->|]; tauto.
  - intros x. rewrite Hp, elem_of_cons, elem_of_difference, elem_of_singleton.
    intros [Hx Hne] [?|?]; [done|]. by apply (Hf x).
  - by apply active_insert_sorted.
  - intros x. rewrite active_insert_perm, elem_of_cons. intros [->|Hx].
    + destruct Hj as [[-> ?]|[? ->]]; [left; split; [by left|done]|].
      right. exists i. rewrite Ei. split; [by left|done].
    + destruct (Ho x Hx) as [[??]|(o & HoP & Hs & Hor & ->)].
      * left. split; [by right|done].
      * right. exists o. rewrite (Hc o HoP). split; [by right|done].
  - intros o [->|HoP]%elem_of_cons Hor.
    + right. rewrite !active_insert_perm, Ei. destruct Hj as [[-> _]|[_ ->]].
      * left. by left.
      * right. by left.
    + rewrite (Hc o HoP) in Hor |- *. rewrite !active_insert_perm, !elem_of_cons.
      destruct (Hl o HoP Hor) as [?|[?|?]]; auto.
  - constructor.
    + apply list.Forall_forall. intros o HoP [Hov1 Hov2] _ Eq. rewrite Ei in Eq.
      rewrite (Hc o HoP) in Eq. specialize (Hold o HoP (eq_sym Eq)). lia.
    + eapply ForallOrdPairs_impl, Hpr. intros a b Ha Hb Hns. unfold no_share.
      by rewrite !Hc by done.
Qed.

(** ** The searches for an interval to spill *)
Lemma spill_min_loop_Some active k undef c it n :
  spill_min_loop active k undef c it = Some n ->
  it = Some n \/ exists m j, n = (k + m)%nat /\ active !! m = Some j /\ IsPrecolored j = false.
Proof.
  revert k undef c it. induction active as [|j active IH]; intros k undef c it; cbn; [by left|].
  assert (forall u c' it', spill_min_loop active (S k) u c' it' = Some n ->
    (it' = it \/ (it' = Some k /\ IsPrecolored j = false)) ->
    it = Some n \/ exists m j', n = (k + m)%nat /\ (j :: active) !! m = Some j' /\
      IsPrecolored j' = false) as Hstep.
  { intros u c' it' [->|(m & j' & -> & Hm & Hp)]%IH Hi.
    - destruct Hi as [<-|[[= ->] Hp]]; [by left|]. right. exists 0%nat, j. split_and!; [lia|done..].
    - right. exists (S m), j'. split_and!; [lia|done..]. }
  destruct (IsPrecolored j) eqn:E; [intros H; eapply Hstep; eauto|].
  destruct undef; [intros H; eapply Hstep; eauto|].
  case_match; intros H'; eapply Hstep; eauto.
Qed.

Lemma spill_min_loop_found active k c it :
  Exists (fun j => IsPrecolored j = false) active ->
  is_Some (spill_min_loop active k true c it).
Proof.
  assert (forall l k c n, is_Some (spill_min_loop l k false c (Some n))) as Hf.
  { induction l as [|j l IH]; intros k' c' n; cbn; [eauto|]. repeat case_match; apply IH. }
  intros H. revert k c it. induction H as [j l Hj|j l _ IH]; intros k c it; cbn.
  - rewrite Hj. apply Hf.
  - destruct (IsPrecolored j); [apply IH|apply Hf].
Qed.

(** Once a candidate is known the two searches are the same. *)
Lemma maybe_spill_loop_min active k c it :
  maybe_spill_loop active k c it = spill_min_loop active k false c it.
Proof.
  revert k c it. induction active as [|j active IH]; intros k c it; cbn; [done|].
  by rewrite !IH.
Qed.

Lemma spill_position_ok P t asg free act k j :
  class_inv R P t asg free act -> seen_ok P asg -> act !! k = Some j ->
  IsPrecolored j = false ->
  spill_position k (asg, free, act) =
    Ok (colour asg j, (spilled asg j, {[colour asg j]} ∪ free, delete k act)).
Proof.
  intros H Hs Hk E. pose proof (list_elem_of_lookup_2 _ _ _ Hk) as Hj.
  destruct (active_virtual _ _ _ _ _ _ H Hj E) as [HjP _].
  destruct (active_reg _ _ _ _ _ _ H Hs Hj) as [Hreg _].
  unfold interval_reg in Hreg. rewrite E in Hreg.
  unfold spill_position, li_Value. rewrite Hk. cbn. rewrite E. cbn. rewrite Hreg. cbn.
  apply vec_at_Ok in Hreg as [? Hl]. by erewrite vec_set_lookup.
Qed.

(** ** Obtaining a register

    The assignments change by at most one spill of an active virtual interval of
    the class. *)
Definition spills (P : list LiveInterval) (asg asg' : list Z) : Prop :=
  asg' = asg \/ exists j, j ∈ P /\ IsPrecolored j = false /\ is_store j = false /\
    colour asg j ∈ R /\ asg' = spilled asg j.

Definition acquired (P : list LiveInterval) (t : Z) (asg : list Z) (r : Z) (c : ClassState)
    : Prop :=
  let '(asg', free', act') := c in
  class_inv R P t asg' free' act' /\ r ∈ free' /\ spills P asg asg' /\ seen_ok P asg'.

Lemma acquired_spill P t asg free act k j :
  class_inv R P t asg free act -> seen_ok P asg -> act !! k = Some j ->
  IsPrecolored j = false ->
  acquired P t asg (colour asg j) (spilled asg j, {[colour asg j]} ∪ free, delete k act).
Proof.
  intros H Hs Hk E. pose proof (list_elem_of_lookup_2 _ _ _ Hk) as Hj.
  destruct (active_virtual _ _ _ _ _ _ H Hj E) as [HjP Hst].
  destruct (active_reg _ _ _ _ _ _ H Hs Hj) as [_ Hr].
  split; [by apply spill_inv|]. split; [|split; [right; by exists j|by apply spilled_seen]].
  apply elem_of_union. left. by apply elem_of_singleton.
Qed.

Lemma acquired_free P t asg free act r :
  class_inv R P t asg free act -> seen_ok P asg -> r ∈ free ->
  acquired P t asg r (asg, free, act).
Proof. intros H Hs Hr. split; [done|]. split; [done|]. split; [by left|done]. Qed.

Lemma SpillMinCost_ok P t asg free act :
  class_inv R P t asg free act -> seen_ok P asg ->
  Exists (fun j => IsPrecolored j = false) act ->
  exists r c, SpillMinCost (asg, free, act) = Ok (r, c) /\ acquired P t asg r c.
Proof.
  intros H Hs Hex. unfold SpillMinCost.
  rewrite decide_False by (intros ->; inversion Hex).
  destruct (spill_min_loop_found act 0 INT32_MAX None Hex) as [n Hn]. rewrite Hn.
  apply spill_min_loop_Some in Hn as [[=]|(m & j & -> & Hm & Hp)].
  erewrite spill_position_ok by done. eexists _, _. split; [done|]. by apply acquired_spill.
Qed.

Lemma MaybeSpillMinCost_ok P t asg free act i :
  class_inv R P t asg free act -> seen_ok P asg -> act <> [] ->
  MaybeSpillMinCost (asg, free, act) i = Ok (-1, (asg, free, act)) \/
  exists r c, MaybeSpillMinCost (asg, free, act) i = Ok (r, c) /\ acquired P t asg r c.
Proof.
  intros H Hs Hne. unfold MaybeSpillMinCost. rewrite decide_False by done.
  rewrite maybe_spill_loop_min.
  destruct (spill_min_loop act 0 false (SpillCost i) None) as [n|] eqn:Hn; [|by left].
  right. apply spill_min_loop_Some in Hn as [[=]|(m & j & -> & Hm & Hp)].
  erewrite spill_position_ok by done. eexists _, _. split; [done|]. by apply acquired_spill.
Qed.

(** A class without a free register has an active interval. *)
Lemma active_nonempty P t asg free act r :
  class_inv R P t asg free act -> r ∈ R -> free = ∅ -> act <> [].
Proof.
  intros H Hr -> ->. apply (ci_regs _ _ _ _ _ _ H) in Hr as [?%not_elem_of_empty|?]; [done|].
  by apply not_elem_of_nil in H0.
Qed.

(** Handing the acquired register to [j]. *)
Definition handed (c : ClassState) (r : Z) (j : LiveInterval) : ClassState :=
  let '(asg, free, act) := c in (asg, free ∖ {[r]}, active_insert j act).

Context (pick_in : forall s : gset Z, s <> ∅ -> pick s ∈ s).

(** A store: some register of the class, taken from a virtual interval if none
    is free. *)
Lemma AddPrecoloredInterval_store P t asg free act i r0 :
  class_inv R P t asg free act -> seen_ok P asg -> r0 ∈ R -> IsPrecolored i = false ->
  (forall j, j ∈ act -> IsPrecolored j = false) ->
  exists r c, AddPrecoloredInterval pick i (asg, free, act) =
      Ok (ChangeToPrecolored i r, handed c r (ChangeToPrecolored i r)) /\
    acquired P t asg r c.
Proof.
  intros H Hs Hr0 Ei Hact. unfold AddPrecoloredInterval. rewrite Ei.
  destruct (decide (free = ∅)) as [Hf|Hf].
  - destruct (SpillMinCost_ok P t asg free act) as (r & [[asg' free'] act'] & -> & Hc); try done.
    { pose proof (active_nonempty _ _ _ _ _ _ H Hr0 Hf) as Hne. destruct act as [|j act]; [done|].
      left. apply Hact. by left. }
    cbn. eexists r, (asg', free', act'). done.
  - eexists (pick free), (asg, free, act). split; [done|]. apply acquired_free; auto.
Qed.

Lemma evict_ok P t asg free act all k reg i :
  class_inv R P t asg free all -> seen_ok P asg -> all = take k all ++ act ->
  (k <= length all)%nat ->
  reg ∈ colour asg <$> act ->
  (forall j, j ∈ act -> IsPrecolored j = true -> li_register j <> reg) ->
  exists m j, all !! m = Some j /\ IsPrecolored j = false /\ colour asg j = reg /\
    evict all k act reg i asg = Ok (spilled asg j, active_insert i (delete m all)).
Proof.
  intros H Hs. revert k. induction act as [|j act IH]; intros k Hall Hk Hin Hno;
    [by apply not_elem_of_nil in Hin|].
  assert (all !! k = Some j) as Hkj.
  { rewrite Hall. rewrite lookup_app_r by (rewrite length_take; lia).
    rewrite length_take. by replace (k - k `min` length all)%nat with 0%nat by lia. }
  pose proof (list_elem_of_lookup_2 _ _ _ Hkj) as Hj.
  destruct (active_reg _ _ _ _ _ _ H Hs Hj) as [Hreg _]. cbn [evict]. rewrite Hreg. cbn.
  destruct (Z.eqb_spec reg (colour asg j)) as [E|E]; cbn.
  - destruct (IsPrecolored j) eqn:Ep.
    { exfalso. apply (Hno j); [by left|done|]. unfold colour in E. by rewrite Ep in E. }
    destruct (active_virtual _ _ _ _ _ _ H Hj Ep) as [HjP _].
    unfold interval_reg in Hreg. rewrite Ep in Hreg. apply vec_at_Ok in Hreg as [? Hl].
    erewrite vec_set_lookup by done. exists k, j. done.
  - apply IH.
    + rewrite Hall at 1. rewrite (take_S_r _ _ _ Hkj), <- (assoc_L (++)). done.
    + apply lookup_lt_Some in Hkj. lia.
    + cbn in Hin. apply elem_of_cons in Hin as [?|?]; done.
    + intros x ?. apply Hno. by right.
Qed.

Lemma AddPrecoloredInterval_precoloured P t asg free act i :
  class_inv R P t asg free act -> seen_ok P asg ->
  IsPrecolored i = true -> li_register i ∈ R ->
  (forall j, j ∈ act -> IsPrecolored j = true -> li_register j <> li_register i) ->
  exists c, AddPrecoloredInterval pick i (asg, free, act) =
      Ok (i, handed c (li_register i) i) /\ acquired P t asg (li_register i) c.
Proof.
  intros H Hs Ei Hr Hno. unfold AddPrecoloredInterval. rewrite Ei.
  destruct (decide (li_register i ∈ free)) as [Hf|Hf].
  - exists (asg, free, act). split; [done|]. by apply acquired_free.
  - assert (li_register i ∈ colour asg <$> act) as Hin.
    { apply (ci_regs _ _ _ _ _ _ H) in Hr as [?|?]; done. }
    destruct (evict_ok P t asg free act act 0 (li_register i) i) as (m & j & Hm & Hp & Hc & ->);
      try done; [lia|].
    cbn. eexists (spilled asg j, {[colour asg j]} ∪ free, delete m act). cbn. split.
    + do 4 f_equal. rewrite Hc. apply set_eq. intros x.
      rewrite elem_of_difference, elem_of_union, !elem_of_singleton.
      split; [|tauto]. intros Hx. split; [by right|]. by intros ->.
    + rewrite <- Hc. by apply acquired_spill.
Qed.

(** A value: a register, or the stack. *)
Lemma SpillAtInterval_ok P t asg free act i r0 :
  class_inv R P t asg free act -> seen_ok P asg -> r0 ∈ R -> IsPrecolored i = false ->
  0 <= idx_of i < vec_size instrs ->
  SpillAtInterval pick i (asg, free, act) =
      Ok (<[Z.to_nat (idx_of i) := -1]> asg, free, act) \/
  exists r (c : ClassState), SpillAtInterval pick i (asg, free, act) =
      Ok (let '(asg', free', act') := c in
          (<[Z.to_nat (idx_of i) := r]> asg', free' ∖ {[r]}, active_insert i act')) /\
    acquired P t asg r c.
Proof.
  intros H Hs Hr0 Ei Hidx. unfold SpillAtInterval, li_Value. rewrite Ei. cbn [mbind Res_bind].
  fold (idx_of i).
  assert (forall (asg' : list Z) r, length asg' = length instrs ->
    vec_set asg' (idx_of i) r = Ok (<[Z.to_nat (idx_of i) := r]> asg')) as Hset.
  { intros asg' r E. apply vec_set_Ok. unfold vec_size in *. by rewrite E. }
  destruct (decide (free = ∅)) as [Hf|Hf].
  - pose proof (active_nonempty _ _ _ _ _ _ H Hr0 Hf) as Hne.
    destruct (MaybeSpillMinCost_ok P t asg free act i) as [->|(r & [[asg' free'] act'] & -> & Hc)];
      try done; cbn [mbind Res_bind].
    + left. cbn. by rewrite Hset by apply Hs.
    + right. exists r, (asg', free', act'). split; [|done]. destruct Hc as (Hc & Hr & _ & Hs').
      assert (r ∈ R) as ?%R_reg by (apply (ci_regs _ _ _ _ _ _ Hc); by left).
      rewrite (proj2 (Z.eqb_neq _ _)) by lia. by rewrite Hset by apply Hs'.
  - right. exists (pick free), (asg, free, act). rewrite Hset by apply Hs. split; [done|].
    apply acquired_free; auto.
Qed.

End Class.

(** ** The two classes together *)
Definition class_of (o : LiveInterval) : gset Z :=
  if match interval_opcode o with
     | Some op => if is_store o then bool_decide (op = I32_VEC8_MASK_STORE) else IsVector (li_type o)
     | None => false
     end
  then free_vector0 else free_normal0.

Definition followed_by_branch (o : LiveInterval) : Prop :=
  Start o + 1 = End_ o /\ instr_opcode instrs (idx_of o + 1) = Ok (Some CONDBR).

(** What the value of a virtual interval may be given: a compare a flag, if it
    feeds the branch after it; a store a register of its class; any other value
    a register of its class or the stack. *)
Definition assigned_ok (asg : list Z) (o : LiveInterval) : Prop :=
  match interval_opcode o with
  | Some op =>
      if is_int_cmp op then
        colour asg o = -1 \/ (colour asg o = IFlag /\ followed_by_branch o)
      else if is_float_cmp op then
        colour asg o = -1 \/ (colour asg o = FFlag /\ followed_by_branch o)
      else (colour asg o = -1 /\ is_store o = false) \/ colour asg o ∈ class_of o
  | None => False
  end.

Record assigned (P : list LiveInterval) (asg : list Z) : Prop := {
  as_seen : seen_ok P asg;
  as_ok : forall o, o ∈ P -> IsPrecolored o = false -> assigned_ok asg o;
  as_rest : forall k, 0 <= k < vec_size instrs ->
    (forall o, o ∈ P -> IsPrecolored o = false -> idx_of o <> k) ->
    asg !! Z.to_nat k = Some (-1);
}.

Definition fixed (o : LiveInterval) : bool := IsPrecolored o || is_store o.

(** ** Well-formed intervals *)
Record interval_ok (i : LiveInterval) : Prop := {
  io_defined : Undef i = false;
  io_range : Start i <= End_ i;
  io_reg : IsPrecolored i = true -> li_register i ∈ free_normal0 ∪ free_vector0;
  io_idx : IsPrecolored i = false -> 0 <= idx_of i < vec_size instrs;
  io_op : IsPrecolored i = false -> is_Some (interval_opcode i);
  io_next : forall op, IsPrecolored i = false -> interval_opcode i = Some op ->
    is_int_cmp op || is_float_cmp op = true -> idx_of i + 1 < vec_size instrs;
}.

(** Two intervals belong to different values; and of two that need particular
    registers at a common position neither is a store and the registers differ. *)
Definition pair_ok (a b : LiveInterval) : Prop :=
  (IsPrecolored a = false -> IsPrecolored b = false -> idx_of a <> idx_of b) /\
  (fixed a = true -> fixed b = true -> overlap a b ->
   is_store a = false /\ is_store b = false /\ li_register a <> li_register b).

Definition intervals_ok (ivs : list LiveInterval) : Prop :=
  Forall interval_ok ivs /\ List.ForallOrdPairs pair_ok ivs.

#[local] Instance pair_ok_sym : Symmetric pair_ok.
Proof.
  intros a b [H1 H2]. split.
  - intros ?? E. by apply H1.
  - intros ?? [??]. by destruct H2 as (?&?&?).
Qed.

Lemma intervals_ok_perm l k : l ≡ₚ k -> intervals_ok l -> intervals_ok k.
Proof.
  intros E [H1 H2]. split; [by rewrite <- E|]. by eapply ForallOrdPairs_perm; [apply _|..].
Qed.

Lemma free_normal0_reg r : r ∈ free_normal0 -> 0 <= r < 16.
Proof.
  unfold free_normal0. rewrite elem_of_list_to_set. intros H.
  repeat (apply elem_of_cons in H as [->|H]; [cbn; lia|]). by apply not_elem_of_nil in H.
Qed.
Lemma free_vector0_reg r : r ∈ free_vector0 -> 50 <= r < 65.
Proof.
  unfold free_vector0. rewrite elem_of_list_to_set. intros H.
  repeat (apply elem_of_cons in H as [->|H]; [cbn; lia|]). by apply not_elem_of_nil in H.
Qed.

Lemma assigned_ok_ext asg asg' o :
  colour asg' o = colour asg o -> assigned_ok asg o -> assigned_ok asg' o.
Proof. unfold assigned_ok. intros ->. done. Qed.

(** A virtual interval with an allocatable register may go to the stack. *)
Lemma assigned_ok_spill R asg asg' o :
  (R = free_normal0 \/ R = free_vector0) -> colour asg o ∈ R -> is_store o = false ->
  colour asg' o = -1 -> assigned_ok asg o -> assigned_ok asg' o.
Proof.
  intros HR Hc Hs E. assert (0 <= colour asg o < 65) as Hr.
  { destruct HR as [-> | ->]; [apply free_normal0_reg in Hc|apply free_vector0_reg in Hc]; lia. }
  unfold assigned_ok, IFlag, FFlag. destruct (interval_opcode o); [|done].
  repeat case_match; intros H'; auto.
Qed.

(** ** One interval *)
Section Step.
Context (pick_in : forall s : gset Z, s <> ∅ -> pick s ∈ s).
Context (P : list LiveInterval) (i : LiveInterval).
Context (Hi : interval_ok i) (HP : Forall (pair_ok i) P).

Lemma fresh_idx o : o ∈ P -> IsPrecolored i = false -> IsPrecolored o = false ->
  idx_of o <> idx_of i.
Proof.
  intros Ho Ei Eo E. rewrite list.Forall_forall in HP. destruct (HP o Ho) as [H _].
  by apply H.
Qed.

Lemma seen_cons asg : seen_ok P asg -> seen_ok (i :: P) asg.
Proof.
  intros Hs. split; [apply Hs|..].
  - intros o [->|Ho]%elem_of_cons E; [by apply Hi|by apply (so_range _ _ Hs)].
  - intros a b [->|Ha]%elem_of_cons [->|Hb]%elem_of_cons Ea Eb E; [done| | |].
    + by apply eq_sym, fresh_idx in E.
    + by apply fresh_idx in E.
    + by apply (so_inj _ _ Hs).
Qed.

(** The assignments after the turn: the register [r] for a virtual interval. *)
Definition assign (asg : list Z) (r : Z) : list Z :=
  if IsPrecolored i then asg else <[Z.to_nat (idx_of i) := r]> asg.

Lemma assign_colour asg r o : seen_ok P asg -> o ∈ P -> colour (assign asg r) o = colour asg o.
Proof.
  intros Hs Ho. unfold assign. destruct (IsPrecolored i) eqn:Ei; [done|].
  apply colour_insert_ne.
  - intros Eo. by apply fresh_idx.
  - by apply Hi.
  - intros Eo. by apply (so_range _ _ Hs).
Qed.

Lemma assign_colour_new asg r : seen_ok P asg ->
  (IsPrecolored i = true -> r = li_register i) -> colour (assign asg r) i = r.
Proof.
  intros Hs Hr. unfold assign. destruct (IsPrecolored i) eqn:Ei.
  - unfold colour. rewrite Ei. symmetry. auto.
  - apply colour_insert_eq; [done|]. unfold vec_size. rewrite (so_len _ _ Hs). by apply Hi.
Qed.

Lemma assign_assigned asg r : assigned P asg ->
  (IsPrecolored i = true -> r = li_register i) ->
  (IsPrecolored i = false -> assigned_ok (assign asg r) i) -> assigned (i :: P) (assign asg r).
Proof.
  intros [Hs Hok Hrest] Hr Hai. pose proof (seen_cons _ Hs) as Hs'. split.
  - destruct Hs' as [E ??]; split; [|done..]. unfold assign. case_match; [done|].
    by rewrite length_insert.
  - intros o [->|Ho]%elem_of_cons E; [by apply Hai|].
    eapply assigned_ok_ext; [by apply assign_colour|]. by apply Hok.
  - intros k Hk Hno. unfold assign. destruct (IsPrecolored i) eqn:Ei.
    + apply Hrest; [done|]. intros o Ho. apply Hno. by right.
    + pose proof (io_idx _ Hi Ei) as Hidx. assert (idx_of i <> k) by (apply Hno; [by left|done]).
      rewrite list_lookup_insert_ne by lia. apply Hrest; [done|]. intros o Ho. apply Hno. by right.
Qed.

Lemma spills_assigned R asg asg' : (R = free_normal0 \/ R = free_vector0) ->
  spills R P asg asg' -> assigned P asg -> assigned P asg'.
Proof.
  intros HR [->|(j & Hj & Ej & Hst & Hc & ->)] H; [done|]. destruct H as [Hs Hok Hrest]. split.
  - by apply spilled_seen.
  - intros o Ho Eo. destruct (spilled_colour P asg j o) as [[-> E]|[_ E]]; try done.
    + by eapply assigned_ok_spill; [..|apply Hok].
    + by eapply assigned_ok_ext; [|apply Hok].
  - intros k Hk Hno. unfold spilled. pose proof (Hno j Hj Ej). pose proof (so_range _ _ Hs j Hj Ej).
    rewrite list_lookup_insert_ne by lia. by apply Hrest.
Qed.

(** The invariant of the whole scan, one class at a time: [R] is the class the
    interval is given a register of, [R'] the other one. *)
Section Install.
Context (R R' : gset Z) (HR : R = free_normal0 /\ R' = free_vector0 \/
                              R = free_vector0 /\ R' = free_normal0).

Lemma install_disj r : r ∈ R -> ~ r ∈ R'.
Proof.
  intros H H'. destruct HR as [[-> ->]|[-> ->]];
    [apply free_normal0_reg in H; apply free_vector0_reg in H'
    |apply free_normal0_reg in H'; apply free_vector0_reg in H]; lia.
Qed.
Lemma install_reg r : r ∈ R -> 0 <= r.
Proof.
  destruct HR as [[-> ->]|[-> ->]]; intros H;
    [apply free_normal0_reg in H|apply free_vector0_reg in H]; lia.
Qed.
Lemma install_reg' r : r ∈ R' -> 0 <= r.
Proof.
  destruct HR as [[-> ->]|[-> ->]]; intros H;
    [apply free_vector0_reg in H|apply free_normal0_reg in H]; lia.
Qed.

Lemma install asg asg1 free1 act1 free' act' r j :
  acquired R P (Start i) asg r (asg1, free1, act1) ->
  class_inv R' P (Start i) asg free' act' -> assigned P asg ->
  (IsPrecolored i = true -> r = li_register i) ->
  (j = i /\ is_store i = false) \/ (is_store i = true /\ j = ChangeToPrecolored i r) ->
  (IsPrecolored i = false -> assigned_ok (assign asg1 r) i) ->
  class_inv R (i :: P) (Start i) (assign asg1 r) (free1 ∖ {[r]}) (active_insert j act1) /\
  class_inv R' (i :: P) (Start i) (assign asg1 r) free' act' /\
  assigned (i :: P) (assign asg1 r).
Proof.
  intros (Hc & Hr & Hsp & Hs1) Hc' Has Hri Hj Hok.
  assert (r ∈ R) as HrR by (apply (ci_regs _ _ _ _ _ _ Hc); by left).
  split_and!.
  - eapply add_inv; try done; [apply install_reg| |by apply assign_colour_new].
    intros o Ho. by apply assign_colour.
  - eapply class_frame, Hc'; [apply install_reg'| |].
    + intros o Ho. rewrite assign_colour by done.
      destruct Hsp as [->|(k & Hk & Ek & _ & Hck & ->)]; [by left|].
      destruct (spilled_colour P asg k o) as [[-> E]|[_ E]]; [apply Has|done..| |by left].
      right. split; [by apply install_disj|]. rewrite E. by intros ?%install_reg'.
    + right. exists i. split; [done|]. rewrite assign_colour_new by done. by apply install_disj.
  - apply assign_assigned; [|done..]. eapply spills_assigned; [|done..].
    destruct HR as [[-> _]|[-> _]]; auto.
Qed.

(** An interval that gets no register of either class. *)
Lemma install_none asg free act free' act' r :
  IsPrecolored i = false -> ~ r ∈ R -> ~ r ∈ R' ->
  class_inv R P (Start i) asg free act -> class_inv R' P (Start i) asg free' act' ->
  assigned P asg -> assigned_ok (assign asg r) i ->
  class_inv R (i :: P) (Start i) (assign asg r) free act /\
  class_inv R' (i :: P) (Start i) (assign asg r) free' act' /\
  assigned (i :: P) (assign asg r).
Proof.
  intros Ei Hr Hr' Hc Hc' Has Hok. pose proof (as_seen _ _ Has) as Hs.
  assert (colour (assign asg r) i = r) as E by (apply assign_colour_new; [done|congruence]).
  split_and!.
  - eapply class_frame, Hc; [apply install_reg| |].
    + intros o Ho. left. by apply assign_colour.
    + right. exists i. by rewrite E.
  - eapply class_frame, Hc'; [apply install_reg'| |].
    + intros o Ho. left. by apply assign_colour.
    + right. exists i. by rewrite E.
  - apply assign_assigned; [done|congruence|done].
Qed.
End Install.

Context (Hst : forall o, o ∈ P -> Start o <= Start i).

(** An active interval with a fixed register belongs to one that overlaps [i]. *)
Lemma active_fixed R asg free act j :
  class_inv R P (Start i) asg free act -> j ∈ act -> Start i <= End_ j ->
  IsPrecolored j = true ->
  exists o, pair_ok i o /\ overlap i o /\ fixed o = true /\
    (is_store o = false -> li_register j = li_register o).
Proof.
  intros H Hj He Ep. pose proof (io_range _ Hi) as Hr.
  rewrite list.Forall_forall in HP.
  destruct (ci_orig _ _ _ _ _ _ H j Hj) as [[Ho Hs]|(o & Ho & Hs & Hc & ->)].
  - exists j. specialize (Hst j Ho). unfold fixed. rewrite Ep. split_and!; auto; split; lia.
  - exists o. specialize (Hst o Ho). cbn in He. unfold fixed. rewrite Hs, orb_true_r.
    split_and!; auto; [split; lia|done].
Qed.

Lemma no_fixed_at_store R asg free act j :
  class_inv R P (Start i) asg free act -> (forall j, j ∈ act -> Start i <= End_ j) ->
  is_store i = true -> j ∈ act -> IsPrecolored j = false.
Proof.
  intros H He Es Hj. apply not_true_is_false. intros Ep.
  destruct (active_fixed R asg free act j) as (o & [_ Hp] & Hov & Hf & _); auto.
  destruct Hp as (E & _ & _); [unfold fixed; by rewrite Es, orb_true_r|done..|]. congruence.
Qed.

Lemma other_fixed_reg R asg free act j :
  class_inv R P (Start i) asg free act -> (forall j, j ∈ act -> Start i <= End_ j) ->
  IsPrecolored i = true -> j ∈ act -> IsPrecolored j = true -> li_register j <> li_register i.
Proof.
  intros H He Ei Hj Ep. destruct (active_fixed R asg free act j) as (o & [_ Hp] & Hov & Hf & Hr); auto.
  destruct Hp as (_ & Eo & Hne); [unfold fixed; by rewrite Ei|done..|]. rewrite Hr by done. congruence.
Qed.

(** The state after the intervals of [P]. *)
Definition scan_inv (Q : list LiveInterval) (t : Z) (s : ScanState) : Prop :=
  class_inv free_normal0 Q t (assignments s) (free_normal s) (active_normal s) /\
  class_inv free_vector0 Q t (assignments s) (free_vector s) (active_vector s) /\
  assigned Q (assignments s).

(** No interval active any more ends before [i]. *)
Definition expired (s : ScanState) : Prop :=
  (forall j, j ∈ active_normal s -> Start i <= End_ j) /\
  (forall j, j ∈ active_vector s -> Start i <= End_ j).

Lemma RBX_normal : 1 ∈ free_normal0. Proof. by vm_compute. Qed.
Lemma M0_vector : 50 ∈ free_vector0. Proof. by vm_compute. Qed.

Lemma scan_precolored_ok s :
  scan_inv P (Start i) s -> expired s -> IsPrecolored i = true ->
  exists s', scan_precolored pick i s = Ok s' /\ scan_inv (i :: P) (Start i) s'.
Proof.
  intros (Hn & Hv & Has) [Hen Hev] Ei. pose proof (io_reg _ Hi Ei) as Hr.
  assert (is_store i = false) as Es by (unfold is_store; by rewrite Ei).
  unfold scan_precolored, IsVRegister, IsGPRegister.
  apply elem_of_union in Hr as [Hr|Hr].
  - pose proof (free_normal0_reg _ Hr). rewrite (proj2 (Z.leb_gt 50 _)) by lia. cbn [andb].
    rewrite !(proj2 (Z.leb_le _ _)) by lia. cbn [andb].
    destruct (AddPrecoloredInterval_precoloured free_normal0 (fun r H => proj1 (free_normal0_reg r H))
      P (Start i) (assignments s) (free_normal s) (active_normal s) i)
      as ([[a f] l] & E & Hc); try done; [apply Has|intros j ??; by apply (other_fixed_reg _ _ _ _ _ Hn)|].
    unfold on_normal. rewrite E. eexists. split; [done|].
    destruct (install free_normal0 free_vector0 ltac:(by left) (assignments s) a f l
      (free_vector s) (active_vector s) (li_register i) i) as (H1 & H2 & H3); try done; auto;
      [congruence|].
    unfold assign in *. rewrite Ei in *. done.
  - pose proof (free_vector0_reg _ Hr). rewrite !(proj2 (Z.leb_le _ _)) by lia. cbn [andb].
    destruct (AddPrecoloredInterval_precoloured free_vector0
      (fun r H => Z.le_trans 0 50 r ltac:(done) (proj1 (free_vector0_reg r H)))
      P (Start i) (assignments s) (free_vector s) (active_vector s) i)
      as ([[a f] l] & E & Hc); try done; [apply Has|intros j ??; by apply (other_fixed_reg _ _ _ _ _ Hv)|].
    unfold on_vector. rewrite E. eexists. split; [done|].
    destruct (install free_vector0 free_normal0 ltac:(by right) (assignments s) a f l
      (free_normal s) (active_normal s) (li_register i) i) as (H1 & H2 & H3); try done; auto;
      [congruence|].
    unfold assign in *. rewrite Ei in *. done.
Qed.

(** A compare gets its flag or stays without a register. *)
Lemma assign_flag_ok s flag :
  scan_inv P (Start i) s -> IsPrecolored i = false -> 65 <= flag ->
  idx_of i + 1 < vec_size instrs ->
  (forall asg, colour asg i = -1 \/ (colour asg i = flag /\ followed_by_branch i) ->
    assigned_ok asg i) ->
  exists s', assign_flag instrs i (idx_of i) flag s = Ok s' /\ scan_inv (i :: P) (Start i) s'.
Proof.
  intros (Hn & Hv & Has) Ei Hflag Hnext Hok. pose proof (as_seen _ _ Has) as Hs.
  pose proof (io_idx _ Hi Ei) as Hidx.
  assert (forall r, (r = -1 \/ (r = flag /\ followed_by_branch i)) ->
    scan_inv (i :: P) (Start i) (MkScan (assign (assignments s) r) (free_normal s)
      (active_normal s) (free_vector s) (active_vector s))) as Hset.
  { intros r Hr. apply (install_none free_normal0 free_vector0); try done; auto.
    - intros ?%free_normal0_reg. destruct Hr as [->|[-> _]]; lia.
    - intros ?%free_vector0_reg. destruct Hr as [->|[-> _]]; lia.
    - apply Hok. by rewrite assign_colour_new by (done || congruence). }
  assert (scan_inv (i :: P) (Start i) s) as Hno.
  { specialize (Hset (-1) ltac:(by left)). unfold assign in Hset. rewrite Ei in Hset.
    rewrite list_insert_id in Hset; [by destruct s|]. apply (as_rest _ _ Has); [done|].
    intros o Ho Eo. by apply fresh_idx. }
  unfold assign_flag. destruct (Z.eqb_spec (Start i + 1) (End_ i)) as [E|E]; [|by exists s].
  unfold vec_size in Hnext.
  destruct (lookup_lt_is_Some_2 instrs (Z.to_nat (idx_of i + 1))) as [w Hw]; [lia|].
  assert (instr_opcode instrs (idx_of i + 1) =
    Ok (OpcodeFrom (GenericInstructionReader_Opcode w))) as Hop.
  { unfold instr_opcode. assert (vec_at instrs (idx_of i + 1) = Ok w) as ->; [|done].
    apply vec_at_Ok. split; [lia|done]. }
  rewrite Hop. cbn [mbind Res_bind]. case_decide as Eo; [|by exists s].
  unfold set_assignment. pose proof (so_len _ _ Hs) as Hl.
  assert (vec_set (assignments s) (idx_of i) flag = Ok (assign (assignments s) flag)) as ->.
  { apply vec_set_Ok. unfold assign. rewrite Ei. unfold vec_size in *. by rewrite Hl. }
  eexists. split; [done|]. apply Hset. right. split; [done|]. split; [done|]. by rewrite Hop, Eo.
Qed.

Lemma class_of_assigned asg op :
  interval_opcode i = Some op -> is_int_cmp op = false -> is_float_cmp op = false ->
  colour asg i ∈ class_of i -> assigned_ok asg i.
Proof. intros E E1 E2 H. unfold assigned_ok. rewrite E, E1, E2. by right. Qed.

Section Cases.
Context (R R' : gset Z) (HR : R = free_normal0 /\ R' = free_vector0 \/
                              R = free_vector0 /\ R' = free_normal0).
Context (asg : list Z) (free free' : gset Z) (act act' : list LiveInterval).
Context (HcR : class_inv R P (Start i) asg free act).
Context (HcR' : class_inv R' P (Start i) asg free' act') (Has : assigned P asg).
Context (Ei : IsPrecolored i = false) (HRi : class_of i = R) (op : Opcode).
Context (Hop : interval_opcode i = Some op).
Context (Hcmp : is_int_cmp op = false) (Hcmp' : is_float_cmp op = false).

Lemma class_inhabited : exists r, r ∈ R.
Proof. destruct HR as [[-> _]|[-> _]]; [exists 1; apply RBX_normal|exists 50; apply M0_vector]. Qed.

Lemma store_case :
  (forall j, j ∈ act -> Start i <= End_ j) -> is_store i = true ->
  exists r a f l, AddPrecoloredInterval pick i (asg, free, act) =
      Ok (ChangeToPrecolored i r, (a, f, l)) /\
    IsPrecolored (ChangeToPrecolored i r) = true /\
    vec_set a (idx_of i) r = Ok (assign a r) /\
    class_inv R (i :: P) (Start i) (assign a r) f l /\
    class_inv R' (i :: P) (Start i) (assign a r) free' act' /\ assigned (i :: P) (assign a r).
Proof.
  intros He Es. destruct class_inhabited as [r0 Hr0].
  destruct (AddPrecoloredInterval_store R (install_reg R R' HR) pick_in P (Start i) asg free act i r0)
    as (r & [[a f] l] & E & Hc); try done; [apply Has|intros j ?; by apply (no_fixed_at_store _ _ _ _ _ HcR)|].
  pose proof Hc as (Hc1 & Hrf & _ & Hs1).
  assert (r ∈ R) as HrR by (apply (ci_regs _ _ _ _ _ _ Hc1); by left).
  exists r, a, (f ∖ {[r]}), (active_insert (ChangeToPrecolored i r) l). split; [done|].
  split; [unfold IsPrecolored; cbn; by apply Z.leb_le, (install_reg R R' HR)|].
  split.
  { apply vec_set_Ok. unfold assign. rewrite Ei. pose proof (io_idx _ Hi Ei).
    unfold vec_size in *. by rewrite (so_len _ _ Hs1). }
  apply (install R R' HR asg a f l free' act' r); try done; [congruence|by right|].
  intros _. eapply class_of_assigned; try done. rewrite assign_colour_new by (done || congruence).
  by rewrite HRi.
Qed.

Lemma value_case : is_store i = false ->
  exists a f l, SpillAtInterval pick i (asg, free, act) = Ok (a, f, l) /\
    class_inv R (i :: P) (Start i) a f l /\
    class_inv R' (i :: P) (Start i) a free' act' /\ assigned (i :: P) a.
Proof.
  intros Es. destruct class_inhabited as [r0 Hr0].
  destruct (SpillAtInterval_ok R (install_reg R R' HR) pick_in P (Start i) asg free act i r0)
    as [E|(r & [[a f] l] & E & Hc)]; try done; [apply Has|by apply Hi|..]; rewrite E.
  - exists (assign asg (-1)), free, act. split; [unfold assign; by rewrite Ei|].
    apply (install_none R R' HR); try done.
    + by intros ?%(install_reg R R' HR).
    + by intros ?%(install_reg' R R' HR).
    + unfold assigned_ok. rewrite Hop, Hcmp, Hcmp'. left. split; [|done].
      apply assign_colour_new; [apply Has|congruence].
  - pose proof Hc as (Hc1 & Hrf & _ & Hs1).
    assert (r ∈ R) as HrR by (apply (ci_regs _ _ _ _ _ _ Hc1); by left).
    exists (assign a r), (f ∖ {[r]}), (active_insert i l). split; [unfold assign; by rewrite Ei|].
    apply (install R R' HR asg a f l free' act' r); try done; [congruence|by left|].
    intros _. eapply class_of_assigned; try done.
    rewrite assign_colour_new by (done || congruence). by rewrite HRi.
Qed.
End Cases.

Lemma scan_virtual_ok s :
  scan_inv P (Start i) s -> expired s -> IsPrecolored i = false ->
  exists s', scan_virtual pick instrs i s = Ok s' /\ scan_inv (i :: P) (Start i) s'.
Proof.
  intros Hinv [Hen Hev] Ei. pose proof Hinv as (Hn & Hv & Has).
  destruct (io_op _ Hi Ei) as [op Hop]. pose proof (io_idx _ Hi Ei) as Hidx.
  unfold scan_virtual, scan_value, li_Value, li_Type. rewrite Ei. cbn [mbind Res_bind]. fold (idx_of i).
  assert (instr_opcode instrs (idx_of i) = Ok (Some op)) as ->.
  { unfold interval_opcode in Hop. apply bind_Some in Hop as (w & Hw & Hop).
    unfold instr_opcode. assert (vec_at instrs (idx_of i) = Ok w) as ->.
    { apply vec_at_Ok. split; [lia|done]. }
    cbn. by rewrite Hop. }
  cbn [mbind Res_bind opt_ub].
  destruct (is_int_cmp op) eqn:Ec1.
  { apply assign_flag_ok; try done; [by eapply (io_next _ Hi op); rewrite ?Ec1|].
    intros asg. unfold assigned_ok. by rewrite Hop, Ec1. }
  destruct (is_float_cmp op) eqn:Ec2.
  { apply assign_flag_ok; try done; [by eapply (io_next _ Hi op); rewrite ?Ec1, ?Ec2|].
    intros asg. unfold assigned_ok. by rewrite Hop, Ec1, Ec2. }
  case_decide as Em.
  { assert (is_store i = true) as Es.
    { unfold is_store. by rewrite Ei, Hop, bool_decide_true, orb_true_r by done. }
    destruct (store_case free_vector0 free_normal0 ltac:(by right) _ _ _ _ _ Hv Hn Has Ei) with (op := op)
      as (r & a & f & l & E & Ep & Eset & H1 & H2 & H3); try done.
    { unfold class_of. by rewrite Hop, Es, bool_decide_true. }
    unfold on_vector. rewrite E. cbn [mbind Res_bind]. unfold PrecoloredRegister. rewrite Ep.
    cbn [mbind Res_bind]. unfold set_assignment. cbn. rewrite Eset. eexists. split; [done|].
    done. }
  destruct (is_int_store op) eqn:Eis.
  { assert (is_store i = true) as Es by (unfold is_store; by rewrite Ei, Hop, Eis).
    destruct (store_case free_normal0 free_vector0 ltac:(by left) _ _ _ _ _ Hn Hv Has Ei) with (op := op)
      as (r & a & f & l & E & Ep & Eset & H1 & H2 & H3); try done.
    { unfold class_of. by rewrite Hop, Es, bool_decide_false. }
    unfold on_normal. rewrite E. cbn [mbind Res_bind]. unfold PrecoloredRegister. rewrite Ep.
    cbn [mbind Res_bind]. unfold set_assignment. cbn. rewrite Eset. eexists. split; [done|].
    done. }
  assert (is_store i = false) as Es.
  { unfold is_store. by rewrite Ei, Hop, Eis, bool_decide_false. }
  destruct (IsVector (li_type i)) eqn:Et.
  - destruct (value_case free_vector0 free_normal0 ltac:(by right) _ _ _ _ _ Hv Hn Has Ei) with (op := op)
      as (a & f & l & E & H1 & H2 & H3); try done.
    { unfold class_of. by rewrite Hop, Es, Et. }
    unfold on_vector. rewrite E. by eexists.
  - destruct (value_case free_normal0 free_vector0 ltac:(by left) _ _ _ _ _ Hn Hv Has Ei) with (op := op)
      as (a & f & l & E & H1 & H2 & H3); try done.
    { unfold class_of. by rewrite Hop, Es, Et. }
    unfold on_normal. rewrite E. by eexists.
Qed.

Lemma alloc_step_ok t s : t <= Start i ->
  scan_inv P t s ->
  exists s', alloc_step pick instrs s i = Ok s' /\ scan_inv (i :: P) (Start i) s'.
Proof.
  intros Ht (Hn & Hv & Has). unfold alloc_step. pose proof (as_seen _ _ Has) as Hs.
  rewrite (Union_ok _ (install_reg _ free_vector0 ltac:(by left)) _ _ _ _ _ Hn Hs). cbn [mbind Res_bind].
  replace (size free_normal0) with 13%nat by (by vm_compute). cbn [Nat.eqb negb].
  rewrite (Union_ok _ (install_reg _ free_normal0 ltac:(by right)) _ _ _ _ _ Hv Hs). cbn [mbind Res_bind].
  replace (size free_vector0) with 15%nat by (by vm_compute). cbn [Nat.eqb negb].
  rewrite (io_defined _ Hi).
  destruct (expire_ok free_normal0 (install_reg _ _ ltac:(by left)) _ _ _ _ _ _ Hn Hs Ht)
    as (fn & an & -> & Hn' & Hen).
  destruct (expire_ok free_vector0 (install_reg _ _ ltac:(by right)) _ _ _ _ _ _ Hv Hs Ht)
    as (fv & av & -> & Hv' & Hev). cbn [mbind Res_bind].
  destruct (IsPrecolored i) eqn:Ei;
    [apply scan_precolored_ok|apply scan_virtual_ok]; by try split.
Qed.
End Step.

(** ** The whole scan *)
Lemma alloc_loop_ok (pick_in : forall s : gset Z, s <> ∅ -> pick s ∈ s) P t s ivs :
  scan_inv P t s -> Forall interval_ok ivs -> List.ForallOrdPairs pair_ok ivs ->
  StronglySorted by_start ivs ->
  (forall i, i ∈ ivs -> t <= Start i /\ Forall (fun o => pair_ok i o /\ Start o <= Start i) P) ->
  exists s' t', alloc_loop pick instrs s ivs = Ok s' /\ scan_inv (rev ivs ++ P) t' s'.
Proof.
  intros Hs Hok Hp Hsort. revert P t s Hs.
  induction ivs as [|i ivs IH]; intros P t s Hs HP; cbn; [by exists s, t|].
  inversion Hok as [|? ? Hi Hok']; subst. inversion Hp as [|? ? Hpi Hp']; subst.
  inversion Hsort as [|? ? Hsort' Hsi]; subst.
  destruct (HP i ltac:(by left)) as [Ht Hi'].
  destruct (alloc_step_ok pick_in P i Hi) with (t := t) (s := s) as (s1 & -> & Hs1);
    [by eapply list.Forall_impl; [exact Hi'|intros ? []]| |done..|].
  { rewrite list.Forall_forall in Hi'. intros o Ho. by apply Hi'. }
  cbn [mbind Res_bind]. destruct (IH Hok' Hp' Hsort' (i :: P) (Start i) s1 Hs1) as (s2 & t2 & E & H2).
  - intros k Hk. rewrite list.Forall_forall in Hsi, Hpi. specialize (Hsi k Hk). cbn in Hsi.
    split; [done|]. constructor; [split; [by apply pair_ok_sym, Hpi|done]|].
    by apply (HP k); right.
  - exists s2, t2. split; [done|]. by rewrite <- (assoc_L (++)).
Qed.

Lemma scan_init_inv t : scan_inv [] t (scan_init instrs).
Proof.
  assert (forall R, class_inv R [] t (replicate (length instrs) RegisterAssignment_default) R [])
    as H.
  { intros R. split; try done; try (by intros ? ?%not_elem_of_nil); cbn; try constructor.
    - auto.
    - by intros [?|?%not_elem_of_nil].
    - intros r _. apply not_elem_of_nil. }
  split; [apply H|split; [apply H|]]. cbn. split.
  - split; [by rewrite length_replicate|by intros * ?%not_elem_of_nil..].
  - by intros ? ?%not_elem_of_nil.
  - intros k Hk _. unfold vec_size in Hk. apply lookup_replicate. split; [done|lia].
Qed.
End Correct.

(** What the allocator guarantees: one assignment per instruction; two intervals
    that share a position never share a register; stores, compares and values get
    what [assigned_ok] says; instructions without an interval get nothing. *)
Definition allocation_ok (instrs : list Z) (ivs : list LiveInterval) (asg : list Z) : Prop :=
  length asg = length instrs /\
  List.ForallOrdPairs (no_share (free_normal0 ∪ free_vector0) asg) ivs /\
  (forall i, i ∈ ivs -> IsPrecolored i = false -> assigned_ok instrs asg i) /\
  (forall k, 0 <= k < vec_size instrs ->
    (forall i, i ∈ ivs -> IsPrecolored i = false -> idx_of i <> k) ->
    asg !! Z.to_nat k = Some (-1)).

#[local] Instance no_share_sym R asg : Symmetric (no_share R asg).
Proof. intros a b H [??] Hr E. apply H; [split; done|by rewrite <- E|done]. Qed.

Lemma scan_inv_allocation instrs P t s ivs :
  scan_inv instrs P t s -> P ≡ₚ ivs -> allocation_ok instrs ivs (assignments s).
Proof.
  intros (Hn & Hv & [[] Hok Hrest]) E. split; [done|]. split_and!.
  - eapply ForallOrdPairs_perm; [apply _|exact E|].
    pose proof (ci_pairs _ _ _ _ _ _ _ Hn) as H1. pose proof (ci_pairs _ _ _ _ _ _ _ Hv) as H2.
    clear -H1 H2. induction P as [|a P IH]; constructor.
    + inversion H1 as [|? ? F1]; inversion H2 as [|? ? F2]; subst.
      rewrite list.Forall_forall in *. intros b Hb Hov [Hr|Hr]%elem_of_union; [by apply F1|by apply F2].
    + inversion H1; inversion H2; auto.
  - intros i Hi. rewrite <- E in Hi. auto.
  - intros k Hk Hno. apply Hrest; [done|]. intros o Ho. rewrite E in Ho. auto.
Qed.

Lemma linear_scan_allocates pick sort instrs ivs
    (pick_in : forall s : gset Z, s <> ∅ -> pick s ∈ s)
    (sort_perm : forall l, sort l ≡ₚ l)
    (sort_sorted : forall l, StronglySorted by_start (sort l)) :
  intervals_ok instrs ivs ->
  exists asg, LinearScan pick sort instrs ivs = Ok asg /\ allocation_ok instrs ivs asg.
Proof.
  intros Hok. pose proof (intervals_ok_perm _ _ _ (symmetry (sort_perm ivs)) Hok) as [H1 H2].
  assert (exists t, forall i, i ∈ sort ivs -> t <= Start i) as [t Ht].
  { pose proof (sort_sorted ivs) as Hs. destruct (sort ivs) as [|i l].
    - exists 0. by intros ? ?%not_elem_of_nil.
    - exists (Start i). inversion Hs as [|? ? _ Hall]; subst. rewrite list.Forall_forall in Hall.
      intros j [->|Hj]%elem_of_cons; [done|]. by apply Hall. }
  destruct (alloc_loop_ok pick instrs pick_in [] t (scan_init instrs) (sort ivs))
    as (s & t' & E & Hinv); [apply scan_init_inv|done|done|apply sort_sorted| |].
  { intros i Hi. split; [auto|constructor]. }
  unfold LinearScan. rewrite E. eexists. split; [done|]. eapply scan_inv_allocation; [done|].
  rewrite app_nil_r, <- Permutation_rev. apply sort_perm.
Qed.

(** C5. Linear scan terminates without an exception on well-formed live
    intervals, and its result is a correct allocation: two intervals that share
    a position never share a general-purpose or vector register, every store has
    a register of its class, a compare is in a flag only if the next instruction
    branches on it, and every other value is in a register of its class or on
    the stack; whatever element of a hash set comes first and however the sort
    orders intervals with the same start. *)
Theorem linear_scan_safe pick sort instrs ivs
    (pick_in : forall s : gset Z, s <> ∅ -> pick s ∈ s)
    (sort_perm : forall l, sort l ≡ₚ l)
    (sort_sorted : forall l, StronglySorted by_start (sort l)) :
  intervals_ok instrs ivs ->
  exists asg, LinearScan pick sort instrs ivs = Ok asg /\ allocation_ok instrs ivs asg.
Proof. by apply linear_scan_allocates. Qed.

(** The StoreInstructionForcedIntoRegister shape: two arguments, a store of the
    second through the first, a return. *)
Module LinearScanDemo.

Definition arg : Z := OpcodeTo FUNC_ARG.
Definition instrs : list Z := [arg; arg; OpcodeTo I32_STORE; OpcodeTo RETURN].
Definition ivs : list LiveInterval :=
  [MkLI false 0 2 0 I8PtrType (-1) 3; MkLI false 1 2 1 I32Type (-1) 3;
   MkLI false 2 2 2 VoidType (-1) 0;
   MkLI false 0 0 (u32 (-1)) (u16 (-1)) 5 INT32_MAX; MkLI false 0 1 (u32 (-1)) (u16 (-1)) 4 INT32_MAX].
Definition pick (s : gset Z) : Z := hd 0 (elements s).
#[export] Instance by_start_dec a b : Decision (by_start a b) := Z_le_dec _ _.
Definition sort : list LiveInterval -> list LiveInterval := merge_sort by_start.

Lemma pick_in (s : gset Z) : s <> ∅ -> pick s ∈ s.
Proof.
  intros H. unfold pick. destruct (elements s) as [|x l] eqn:E.
  - destruct H. apply leibniz_equiv, elements_empty_inv. by rewrite E.
  - apply elem_of_elements. rewrite E. by left.
Qed.

Lemma sort_perm l : sort l ≡ₚ l.
Proof. apply merge_sort_Permutation. Qed.
Lemma sort_sorted l : StronglySorted by_start (sort l).
Proof. apply StronglySorted_merge_sort; [intros a b c; cbn; lia|intros a b; cbn; lia]. Qed.

Lemma intervals : intervals_ok instrs ivs.
Proof.
  split.
  - apply list.Forall_forall. intros i Hi.
    repeat (apply elem_of_cons in Hi as [->|Hi]; [split; (done || (vm_compute; by eauto))|]).
    by apply not_elem_of_nil in Hi.
  - assert (forall a b, a ∈ ivs -> b ∈ ivs -> a <> b -> pair_ok instrs a b) as H.
    { intros a b Ha Hb Hn.
      repeat (apply elem_of_cons in Ha as [->|Ha]; [|]); [..|by apply not_elem_of_nil in Ha];
      (repeat (apply elem_of_cons in Hb as [->|Hb]; [|]); [..|by apply not_elem_of_nil in Hb]);
      try done; (split; [by vm_compute|]); intros Hf1 Hf2 [Ho1 Ho2]; cbn in Ho1, Ho2;
      done || lia || (split_and!; by vm_compute). }
    apply ForallOrdPairs_nodup; [|done]. by apply (bool_decide_unpack (NoDup ivs)); vm_compute.
Qed.

(** The two arguments move out of the registers of the calling convention, and
    the store gets a third register. *)
Lemma demo_scan : LinearScan pick sort instrs ivs = Ok [15; 11; 13; -1].
Proof. by vm_compute. Qed.

Lemma linear_scan_safe_witness :
  exists asg, LinearScan pick sort instrs ivs = Ok asg /\ allocation_ok instrs ivs asg.
Proof.
  apply linear_scan_safe.
  - apply pick_in.
  - apply sort_perm.
  - apply sort_sorted.
  - apply intervals.
Defined.

End LinearScanDemo.

(** ** The stack-spilling allocator meets the same specification

    Every store has its interval, which [ComputeLiveIntervals] makes sure of. *)
Definition stores_covered (instrs : list Z) (ivs : list LiveInterval) : Prop :=
  forall k w, instrs !! k = Some w ->
    stack_spill_reg (OpcodeFrom (GenericInstructionReader_Opcode w)) <> -1 ->
    exists i, i ∈ ivs /\ IsPrecolored i = false /\ idx_of i = Z.of_nat k.

Lemma stack_spill_store o : stack_spill_reg (Some o) <> -1 <->
  is_int_store o || bool_decide (o = I32_VEC8_MASK_STORE) = true.
Proof.
  destruct (decide (o = I32_VEC8_MASK_STORE)) as [->|Hn]; [by cbn|].
  rewrite bool_decide_false, orb_false_r by done. by destruct o; cbn; (split; [|done]).
Qed.

Lemma stack_spill_colour instrs i op :
  IsPrecolored i = false -> interval_opcode instrs i = Some op ->
  colour (StackSpillingRegisterAlloc instrs) i = stack_spill_reg (Some op).
Proof.
  intros Ei Hop. unfold interval_opcode in Hop. apply bind_Some in Hop as (w & Hw & Hop).
  unfold colour. rewrite Ei. unfold StackSpillingRegisterAlloc.
  by rewrite list_lookup_fmap, Hw; cbn; rewrite Hop.
Qed.

Lemma stack_spill_assigned instrs i op :
  IsPrecolored i = false -> interval_opcode instrs i = Some op ->
  assigned_ok instrs (StackSpillingRegisterAlloc instrs) i.
Proof.
  intros Ei Hop. unfold assigned_ok. rewrite Hop, (stack_spill_colour _ _ _ Ei Hop).
  unfold class_of, is_store. rewrite Hop, Ei.
  destruct (decide (op = I32_VEC8_MASK_STORE)) as [->|Hn]; [right; by vm_compute|].
  rewrite bool_decide_false by done.
  destruct op; cbn; try (left; done); try (left; split; done); right; by vm_compute.
Qed.

(** The allocator that spills everything meets the specification of linear
    scan: whenever the intervals are well-formed and every store has one, its
    assignment never lets two overlapping intervals share a register, and gives
    stores a register and every other value the stack. *)
Theorem stack_spill_safe instrs ivs :
  intervals_ok instrs ivs -> stores_covered instrs ivs ->
  allocation_ok instrs ivs (StackSpillingRegisterAlloc instrs).
Proof.
  intros [H1 H2] Hst. rewrite list.Forall_forall in H1. split_and!.
  - apply length_fmap.
  - eapply ForallOrdPairs_impl, H2. intros a b Ha Hb [_ Hp] Hov Hr E.
    assert (forall o, o ∈ ivs -> colour (StackSpillingRegisterAlloc instrs) o
      ∈ free_normal0 ∪ free_vector0 -> fixed instrs o = true /\
      (is_store instrs o = false -> colour (StackSpillingRegisterAlloc instrs) o = li_register o))
      as Hfix.
    { intros o Ho Hc. unfold fixed, is_store. destruct (IsPrecolored o) eqn:Eo.
      - split; [done|]. intros _. unfold colour. by rewrite Eo.
      - destruct (io_op _ _ (H1 o Ho) Eo) as [op Hop].
        rewrite (stack_spill_colour _ _ _ Eo Hop) in Hc. rewrite Hop. cbn.
        assert (is_int_store op || bool_decide (op = I32_VEC8_MASK_STORE) = true) as ->; [|done].
        apply stack_spill_store. intros E'. rewrite E' in Hc.
        apply elem_of_union in Hc as [?%free_normal0_reg|?%free_vector0_reg]; lia. }
    destruct (Hfix a Ha Hr) as [Fa Ra]. rewrite E in Hr. destruct (Hfix b Hb Hr) as [Fb Rb].
    destruct (Hp Fa Fb Hov) as (Ea & Eb & Hne). apply Hne. by rewrite <- Ra, <- Rb.
  - intros i Hi Ei. destruct (io_op _ _ (H1 i Hi) Ei) as [op Hop]. by eapply stack_spill_assigned.
  - intros k Hk Hno. unfold vec_size in Hk.
    destruct (lookup_lt_is_Some_2 instrs (Z.to_nat k)) as [w Hw]; [lia|].
    unfold StackSpillingRegisterAlloc. rewrite list_lookup_fmap, Hw. cbn. f_equal.
    destruct (decide (stack_spill_reg (OpcodeFrom (GenericInstructionReader_Opcode w)) = -1))
      as [?|Hn]; [done|].
    destruct (Hst _ _ Hw Hn) as (i & Hi & Ei & Hidx). destruct (Hno i Hi Ei). lia.
Qed.

Lemma stack_spill_safe_witness :
  allocation_ok LinearScanDemo.instrs LinearScanDemo.ivs
    (StackSpillingRegisterAlloc LinearScanDemo.instrs).
Proof.
  apply stack_spill_safe; [apply LinearScanDemo.intervals|].
  intros [|[|[|[|k]]]] w [= <-] Hn; try done.
  exists (MkLI false 2 2 2 VoidType (-1) 0). split; [right; right; by left|]. done.
Defined.
