(* ===== verification/Operands.v ===== *)
(** * What an instruction reads and writes

    src/khir/asm/materialize_gep.cc and the operand functions of
    src/khir/asm/live_intervals.cc, on which liveness and the costs of intervals
    are built.  A value is its serialized word ([Value(instr_idx)] is the word
    [instr_idx]). *)
From S2P Require Import Prelude Opcode Instruction ProgramBuilder CfgSimplify LiveInterval.

Abbreviation opcode_of w := (OpcodeFrom (GenericInstructionReader_Opcode w)).

(** ** Addresses that are used as values *)
Definition is_gep_opcode (o : option Opcode) : bool :=
  match o with Some (GEP_STATIC | GEP_DYNAMIC) => true | _ => false end.

(** The instruction is read before the value is known not to be a constant. *)
Definition MarkMaterialization (value : Z) (instrs : list Z) (should_materialize : list bool)
    : Res (list bool) :=
  w ← vec_at instrs (Value_GetIdx value);
  if negb (Value_IsConstantGlobal value) && is_gep_opcode (opcode_of w)
  then vec_set should_materialize (Value_GetIdx value) true
  else Ok should_materialize.

Definition materialize_operand (w : Z) : option Z :=
  match opcode_of w with
  | Some (GEP_DYNAMIC | RETURN_VALUE | CALL_INDIRECT | PTR_CAST | CALL_ARG) => Some (Type3_Arg w)
  | Some (PTR_STORE | PHI_MEMBER) => Some (Type2_Arg1 w)
  | Some (GEP_STATIC_OFFSET | PTR_CMP_NULLPTR) => Some (Type2_Arg0 w)
  | _ => None
  end.

Definition materialize_instr (instrs : list Z) (should_materialize : list bool) (i : Z)
    : Res (list bool) :=
  w ← vec_at instrs i;
  match materialize_operand w with
  | Some value => MarkMaterialization value instrs should_materialize
  | None => Ok should_materialize
  end.

(** The instructions of a block in order: each with the start of its segment. *)
Definition bb_instrs (bb : BasicBlock) : list (Z * Z) :=
  mjoin ((fun '(seg_start, seg_end) =>
    (fun i => (seg_start, i)) <$> seqZ seg_start (seg_end - seg_start + 1)) <$> Segments bb).

Definition ComputeGEPMaterialize (instrs : list Z) (basic_blocks : list BasicBlock)
    : Res (list bool) :=
  foldM (fun m bb => foldM (fun m '(_, i) => materialize_instr instrs m i) m (bb_instrs bb))
    (replicate (length instrs) false) basic_blocks.

(** ** Operands *)
Definition IsGep (v : Z) (instructions : list Z) : Res bool :=
  if Value_IsConstantGlobal v then Ok false else
  w ← vec_at instructions (Value_GetIdx v); Ok (is_gep_opcode (opcode_of w)).

(** A value the code reads unless it is a constant. *)
Definition read (v : Z) : list Z := if Value_IsConstantGlobal v then [] else [v].

Definition GetReadValuesGEP (instr_idx : Z) (instrs : list Z) : Res (list Z) :=
  w ← vec_at instrs instr_idx;
  match opcode_of w with
  | Some GEP_STATIC =>
      w' ← vec_at instrs (instr_idx - 1);
      if decide (opcode_of w' = Some GEP_STATIC_OFFSET) then Ok (read (Type2_Arg0 w'))
      else Throw "Invalid GEP_STATIC_OFFSET"
  | Some GEP_DYNAMIC =>
      w' ← vec_at instrs (instr_idx - 1);
      if decide (opcode_of w' = Some GEP_DYNAMIC_OFFSET)
      then Ok (read (Type3_Arg w) ++ read (Type2_Arg0 w') ++ read (Type2_Arg1 w'))
      else Throw "Invalid GEP_DYNAMIC_OFFSET"
  | _ => Throw "Not a GEP"
  end.

Definition TypeOfValue (instr : Z) : Res Z :=
  match opcode_of instr with
  | Some (I1_AND | I1_OR | I1_CMP_EQ | I1_CMP_NE | I1_LNOT
    | I8_CMP_EQ | I8_CMP_NE | I8_CMP_LT | I8_CMP_LE | I8_CMP_GT | I8_CMP_GE
    | I16_CMP_EQ | I16_CMP_NE | I16_CMP_LT | I16_CMP_LE | I16_CMP_GT | I16_CMP_GE
    | I32_CMP_EQ | I32_CMP_NE | I32_CMP_LT | I32_CMP_LE | I32_CMP_GT | I32_CMP_GE
    | I64_CMP_EQ | I64_CMP_NE | I64_CMP_LT | I64_CMP_LE | I64_CMP_GT | I64_CMP_GE
    | F64_CMP_EQ | F64_CMP_NE | F64_CMP_LT | F64_CMP_LE | F64_CMP_GT | F64_CMP_GE
    | PTR_CMP_NULLPTR | I1_LOAD | I32_CMP_EQ_ANY_CONST_VEC4 | I32_CMP_EQ_ANY_CONST_VEC8) =>
      Ok I1Type
  | Some MASK_TO_PERMUTE => Ok I32Vec8PtrType
  | Some (I64_POPCOUNT | I1_VEC8_MASK_EXTRACT) => Ok I64Type
  | Some (I32_VEC8_CMP_EQ | I32_VEC8_CMP_NE | I32_VEC8_CMP_LT | I32_VEC8_CMP_LE
    | I32_VEC8_CMP_GT | I32_VEC8_CMP_GE | I1_VEC8_AND | I1_VEC8_OR | I1_VEC8_NOT) =>
      Ok I1Vec8Type
  | Some (I8_ADD | I8_MUL | I8_SUB | I8_LOAD | I1_ZEXT_I8) => Ok I8Type
  | Some (I16_ADD | I16_MUL | I16_SUB | I16_LOAD | I64_TRUNC_I16) => Ok I16Type
  | Some (I32_ADD | I32_MUL | I32_SUB | I32_LOAD | I64_TRUNC_I32) => Ok I32Type
  | Some (I32_VEC8_ADD | I32_CONV_I32_VEC8 | I32_VEC8_LOAD | I32_VEC8_PERMUTE) => Ok I32Vec8Type
  | Some (I64_LSHIFT | I64_RSHIFT | I64_AND | I64_XOR | I64_OR | I64_ADD | I64_MUL | I64_SUB
    | I1_ZEXT_I64 | I8_ZEXT_I64 | I16_ZEXT_I64 | I32_ZEXT_I64 | F64_CONV_I64 | I64_LOAD) =>
      Ok I64Type
  | Some (F64_ADD | F64_MUL | F64_SUB | F64_DIV | I8_CONV_F64 | I16_CONV_F64 | I32_CONV_F64
    | I64_CONV_F64 | F64_LOAD) => Ok F64Type
  | Some (RETURN | I8_STORE | I16_STORE | I32_STORE | I64_STORE | F64_STORE | PTR_STORE
    | I32_VEC8_MASK_STORE | RETURN_VALUE | CONDBR | BR) => Ok VoidType
  | Some (CALL_INDIRECT | PHI | CALL | PTR_LOAD | PTR_CAST | GEP_STATIC | GEP_DYNAMIC
    | FUNC_ARG) => Ok (Type3_TypeID instr)
  | Some (GEP_STATIC_OFFSET | GEP_DYNAMIC_OFFSET | PHI_MEMBER | CALL_ARG
    | I32_VEC8_MASK_STORE_INFO) => Ok VoidType
  | None => UB
  end.

Definition GetWrittenValue (instr_idx : Z) (instrs : list Z) (materialize_gep : list bool)
    : Res (option Z) :=
  instr ← vec_at instrs instr_idx;
  match opcode_of instr with
  | Some (CALL | CALL_INDIRECT) =>
      Ok (if Type3_TypeID instr =? VoidType then None else Some instr_idx)
  | Some PHI_MEMBER => Ok (Some (Value_GetIdx (Type2_Arg0 instr)))
  | Some (GEP_DYNAMIC | GEP_STATIC) =>
      m ← vec_at materialize_gep instr_idx; Ok (if m : bool then Some instr_idx else None)
  | Some (I8_STORE | I16_STORE | I32_STORE | I64_STORE | F64_STORE | PTR_STORE
    | I32_VEC8_MASK_STORE | I32_VEC8_MASK_STORE_INFO | GEP_STATIC_OFFSET | GEP_DYNAMIC_OFFSET
    | BR | CONDBR | RETURN | RETURN_VALUE | PHI) => Ok None
  | Some _ => Ok (Some instr_idx)
  | None => UB
  end.

(** An address operand that must be a value of its own. *)
Definition read_materialized (v : Z) (instrs : list Z) (materialize_gep : list bool)
    (msg : string) : Res (list Z) :=
  g ← IsGep v instrs;
  if g : bool then
    m ← vec_at materialize_gep (Value_GetIdx v);
    if m : bool then Ok (read v) else Throw msg
  else Ok (read v).

(** An address operand that may be folded into the instruction. *)
Definition read_address (v : Z) (instrs : list Z) (materialize_gep : list bool)
    : Res (list Z) :=
  g ← IsGep v instrs;
  if g : bool then
    m ← vec_at materialize_gep (Value_GetIdx v);
    if m : bool then Ok (read v) else GetReadValuesGEP (Value_GetIdx v) instrs
  else Ok (read v).

(** The arguments right before a call: the loop from [j] down to the start of
    the segment, [n] steps at most. *)
Fixpoint preceding_args (n : nat) (j : Z) (instrs : list Z) : Res (list Z) :=
  match n with
  | O => Ok []
  | S n =>
      w ← vec_at instrs j;
      if decide (opcode_of w = Some CALL_ARG) then
        rest ← preceding_args n (j - 1) instrs; Ok (j :: rest)
      else Ok []
  end.

Definition GetReadValues (instr_idx seg_start : Z) (materialize_gep : list bool)
    (instrs : list Z) : Res (list Z) :=
  instr ← vec_at instrs instr_idx;
  match opcode_of instr with
  | Some PHI_MEMBER =>
      read_materialized (Type2_Arg1 instr) instrs materialize_gep
        "Requried materialized GEP into PHI_MEMBER."
  | Some (I1_LNOT | MASK_TO_PERMUTE | I64_POPCOUNT | I1_VEC8_MASK_EXTRACT | I1_VEC8_NOT
    | I1_ZEXT_I8 | I1_ZEXT_I64 | I8_ZEXT_I64 | I8_CONV_F64 | I16_ZEXT_I64 | I16_CONV_F64
    | I32_ZEXT_I64 | I32_CONV_F64 | I32_CONV_I32_VEC8 | I64_CONV_F64 | I64_TRUNC_I16
    | I64_TRUNC_I32 | F64_CONV_I64) => Ok (read (Type2_Arg0 instr))
  | Some PTR_CMP_NULLPTR =>
      read_materialized (Type2_Arg0 instr) instrs materialize_gep
        "Requried materialized GEP into PTR_CMP_NULLPTR."
  | Some (I1_LOAD | I8_LOAD | I16_LOAD | I32_LOAD | I32_VEC8_LOAD | I64_LOAD | F64_LOAD) =>
      read_address (Type2_Arg0 instr) instrs materialize_gep
  | Some PTR_CAST =>
      read_materialized (Type3_Arg instr) instrs materialize_gep
        "Required materialized GEP into PTR_CAST."
  | Some PTR_LOAD => read_address (Type3_Arg instr) instrs materialize_gep
  | Some (I8_STORE | I16_STORE | I32_STORE | I64_STORE | F64_STORE | PTR_STORE) =>
      a ← read_address (Type2_Arg0 instr) instrs materialize_gep;
      b ← read_materialized (Type2_Arg1 instr) instrs materialize_gep
        "Required materialized GEP into XXX_STORE.";
      Ok (a ++ b)
  | Some CONDBR => Ok (read (Type5_Arg instr))
  | Some (RETURN_VALUE | CALL_ARG) =>
      read_materialized (Type3_Arg instr) instrs materialize_gep
        "Required materialized GEP into RETURN_VALUE/CALL_ARG."
  | Some CALL_INDIRECT =>
      f ← read_materialized (Type3_Arg instr) instrs materialize_gep
        "Required materialized GEP into CALL_INDIRECT.";
      args ← preceding_args (Z.to_nat (instr_idx - seg_start)) (instr_idx - 1) instrs;
      Ok (f ++ args)
  | Some CALL => preceding_args (Z.to_nat (instr_idx - seg_start)) (instr_idx - 1) instrs
  | Some (GEP_DYNAMIC | GEP_STATIC) =>
      m ← vec_at materialize_gep instr_idx;
      if m : bool then GetReadValuesGEP instr_idx instrs else Ok []
  | Some I32_VEC8_MASK_STORE =>
      a ← read_address (Type2_Arg0 instr) instrs materialize_gep;
      b ← read_materialized (Type2_Arg1 instr) instrs materialize_gep
        "Required materialized GEP into XXX_STORE.";
      info ← vec_at instrs (instr_idx - 1);
      Ok (a ++ b ++ read (Type2_Arg0 info))
  | Some (RETURN | BR | FUNC_ARG | GEP_STATIC_OFFSET | GEP_DYNAMIC_OFFSET | PHI
    | I32_VEC8_MASK_STORE_INFO) => Ok []
  | Some _ => Ok (read (Type2_Arg0 instr) ++ read (Type2_Arg1 instr))
  | None => UB
  end.

(** ** Types *)
Definition is_extension (o : option Opcode) : bool :=
  match o with
  | Some (GEP_STATIC_OFFSET | GEP_DYNAMIC_OFFSET | PHI_MEMBER | CALL_ARG
    | I32_VEC8_MASK_STORE_INFO) => true
  | _ => false
  end.

(** The two type functions agree: the type by which the allocator chooses a
    register class ([TypeOf] of live_intervals.cc) is the type the program builder
    gives the instruction, for every instruction the builder types; the builder
    rejects exactly the extension words, which the allocator calls void. *)
Theorem value_types_agree {TM} (pb : ProgramBuilder TM) (instr t : Z) :
  TypeOfInstr instr pb = Ok (t, pb) <->
  TypeOfValue instr = Ok t /\ is_extension (opcode_of instr) = false.
Proof.
  unfold TypeOfInstr, TypeOfValue. destruct (opcode_of instr) as [[]|];
    cbn; unfold mret, M_ret, throw, lift; split;
    try (intros [= ->]; done); try (intros [[= ->] _]; done); try (by intros [_ [=]]); done.
Qed.

(** ** Which addresses become values *)
Section Materialize.
Context (instrs : list Z).

(** The operand of an instruction that must be a value of its own. *)
Definition demands (i : Z) (k : nat) : Prop :=
  exists w v, instrs !! Z.to_nat i = Some w /\ materialize_operand w = Some v /\
    Value_IsConstantGlobal v = false /\ Value_GetIdx v = Z.of_nat k /\
    exists w', instrs !! k = Some w' /\ is_gep_opcode (opcode_of w') = true.

(** Instructions whose checked operand has an index inside the function. *)
Definition operand_in_range (i : Z) : Prop :=
  exists w, vec_at instrs i = Ok w /\
    forall v, materialize_operand w = Some v -> Value_GetIdx v < vec_size instrs.

Definition marked (m : list bool) (P : nat -> Prop) : Prop :=
  length m = length instrs /\ forall k, m !! k = Some true <-> P k.

Lemma GetIdx_nonneg v : 0 <= Value_GetIdx v.
Proof. unfold Value_GetIdx. apply Z.land_nonneg. by right. Qed.

Lemma materialize_instr_ok m P i : operand_in_range i -> marked m P ->
  exists m', materialize_instr instrs m i = Ok m' /\ marked m' (fun k => P k \/ demands i k).
Proof.
  intros (w & Hw & Hv) [Hlen Hm]. unfold materialize_instr. rewrite Hw. cbn [mbind Res_bind].
  apply vec_at_Ok in Hw as [_ Hw].
  destruct (materialize_operand w) as [v|] eqn:Ev.
  - specialize (Hv v eq_refl). unfold MarkMaterialization. pose proof (GetIdx_nonneg v) as Hv0.
    unfold vec_size in Hv. destruct (lookup_lt_is_Some_2 instrs (Z.to_nat (Value_GetIdx v))) as [w' Hw']; [lia|].
    assert (vec_at instrs (Value_GetIdx v) = Ok w') as -> by (by apply vec_at_Ok).
    cbn [mbind Res_bind].
    assert (forall k, demands i k <-> negb (Value_IsConstantGlobal v) && is_gep_opcode (opcode_of w') = true
      /\ k = Z.to_nat (Value_GetIdx v)) as Hd.
    { intros k. rewrite andb_true_iff, negb_true_iff. split.
      - intros (w2 & v2 & Hw2 & Hv2 & Hc & Hidx & w3 & Hw3 & Hg). simplify_eq.
        rewrite Hidx, Nat2Z.id in Hw' |- *. simplify_eq. done.
      - intros [[Hc Hg] ->]. exists w, v. split_and!; try done; [lia|]. by exists w'. }
    destruct (negb (Value_IsConstantGlobal v) && is_gep_opcode (opcode_of w')).
    + assert (vec_set m (Value_GetIdx v) true = Ok (<[Z.to_nat (Value_GetIdx v) := true]> m)) as ->.
      { apply vec_set_Ok. unfold vec_size. rewrite Hlen. done. }
      eexists. split; [done|]. split; [by rewrite length_insert|]. intros k. rewrite Hd.
      destruct (decide (k = Z.to_nat (Value_GetIdx v))) as [->|Hn].
      * rewrite list_lookup_insert_eq by lia. tauto.
      * rewrite list_lookup_insert_ne by done. rewrite Hm. tauto.
    + exists m. split; [done|]. split; [done|]. intros k. rewrite Hm, Hd. intuition congruence.
  - exists m. split; [done|]. split; [done|]. intros k. rewrite Hm. split; [by left|].
    intros [?|(w2 & v2 & Hw2 & Hv2 & _)]; [done|]. simplify_eq.
Qed.

Lemma materialize_list m P l : (forall p, p ∈ l -> operand_in_range p.2) -> marked m P ->
  exists m', foldM (fun m '(_, i) => materialize_instr instrs m i) m l = Ok m' /\
    marked m' (fun k => P k \/ exists p : Z * Z, p ∈ l /\ demands p.2 k).
Proof.
  revert m P. induction l as [|[ss i] l IH]; intros m P Hr Hm; cbn [foldM].
  - exists m. split; [done|]. split; [apply Hm|]. intros k. rewrite (proj2 Hm k). split; [by left|].
    intros [?|(p & ?%not_elem_of_nil & _)]; done.
  - destruct (materialize_instr_ok m P i) as (m1 & -> & H1); [apply (Hr (ss, i)); by left|done|].
    cbn [mbind Res_bind]. destruct (IH m1 _ ltac:(intros; apply Hr; by right) H1) as (m2 & -> & [Hl2 H2]).
    exists m2. split; [done|]. split; [done|]. intros k. rewrite H2. split.
    + intros [[?|?]|(p & ? & ?)]; [by left|right; exists (ss, i); split; [by left|done]|].
      right. exists p. split; [by right|done].
    + intros [?|(p & [->|?]%elem_of_cons & ?)]; [tauto|tauto|]. right. by exists p.
Qed.

Lemma materialize_blocks m P bbs :
  (forall bb p, bb ∈ bbs -> p ∈ bb_instrs bb -> operand_in_range p.2) -> marked m P ->
  exists m', foldM (fun m bb => foldM (fun m '(_, i) => materialize_instr instrs m i) m (bb_instrs bb)) m bbs
      = Ok m' /\
    marked m' (fun k => P k \/ exists bb p, bb ∈ bbs /\ p ∈ bb_instrs bb /\ demands p.2 k).
Proof.
  revert m P. induction bbs as [|bb bbs IH]; intros m P Hr Hm; cbn [foldM].
  - exists m. split; [done|]. split; [apply Hm|]. intros k. rewrite (proj2 Hm k). split; [by left|].
    intros [?|(bb & p & ?%not_elem_of_nil & _)]; done.
  - destruct (materialize_list m P (bb_instrs bb)) as (m1 & -> & H1); [intros p; apply Hr; by left|done|].
    cbn [mbind Res_bind]. destruct (IH m1 _ ltac:(intros bb' p' ?; apply Hr; by right) H1) as (m2 & -> & [Hl2 H2]).
    exists m2. split; [done|]. split; [done|]. intros k. rewrite H2. split.
    + intros [[?|(p & ? & ?)]|(bb' & p & ? & ?)]; [by left| |].
      * right. exists bb, p. split; [by left|done].
      * right. exists bb', p. split; [by right|done].
    + intros [?|(bb' & p & [->|?]%elem_of_cons & ? & ?)]; [tauto| |].
      * left. right. by exists p.
      * right. by exists bb', p.
Qed.
End Materialize.

(** [ComputeGEPMaterialize] marks exactly the address computations that an
    instruction of the function uses as a value, whenever the operand indices it
    reads lie inside the function; and then no operand of such an instruction
    makes the operand functions throw for want of a materialized address. *)
Theorem gep_materialize_exact instrs bbs :
  (forall bb p, bb ∈ bbs -> p ∈ bb_instrs bb -> operand_in_range instrs p.2) ->
  exists m, ComputeGEPMaterialize instrs bbs = Ok m /\ length m = length instrs /\
    (forall k, m !! k = Some true <->
      exists bb p, bb ∈ bbs /\ p ∈ bb_instrs bb /\ demands instrs p.2 k) /\
    (forall bb p w v msg, bb ∈ bbs -> p ∈ bb_instrs bb -> vec_at instrs p.2 = Ok w ->
      materialize_operand w = Some v -> read_materialized v instrs m msg = Ok (read v)).
Proof.
  intros Hr. destruct (materialize_blocks instrs (replicate (length instrs) false) (fun _ => False) bbs)
    as (m & E & Hl & Hm); [done| |].
  { split; [apply length_replicate|]. intros k. rewrite lookup_replicate. split; [by intros [[=] _]|done]. }
  exists m. split; [done|]. split; [done|].
  assert (forall k, m !! k = Some true <->
    exists bb p, bb ∈ bbs /\ p ∈ bb_instrs bb /\ demands instrs p.2 k) as Hm' by (intros k; rewrite Hm; tauto).
  split; [done|]. intros bb p w v msg Hbb Hp Hw Hv.
  destruct (Hr bb p Hbb Hp) as (w' & Hw' & Hrange). assert (w' = w) as -> by congruence.
  specialize (Hrange v Hv). unfold read_materialized, IsGep.
  destruct (Value_IsConstantGlobal v) eqn:Hc; [done|]. unfold vec_size in Hrange.
  pose proof (GetIdx_nonneg v) as Hv0.
  destruct (lookup_lt_is_Some_2 instrs (Z.to_nat (Value_GetIdx v))) as [wv Hwv]; [lia|].
  assert (vec_at instrs (Value_GetIdx v) = Ok wv) as -> by (by apply vec_at_Ok).
  cbn [mbind Res_bind]. destruct (is_gep_opcode (opcode_of wv)) eqn:Hg; [|done].
  assert (vec_at m (Value_GetIdx v) = Ok true) as ->; [|done].
  apply vec_at_Ok. split; [done|]. apply Hm'. exists bb, p. split_and!; try done.
  exists w, v. apply vec_at_Ok in Hw as [_ Hw]. split_and!; try done; [lia|]. by exists wv.
Qed.

Module OperandsDemo.
Definition typed (o : Opcode) (a : Z) : Z := Type3_SetArg (Type3_SetOpcode 0 (OpcodeTo o)) a.
Definition binary (o : Opcode) (a b : Z) : Z :=
  Type2_SetArg1 (Type2_SetArg0 (Type2_SetOpcode 0 (OpcodeTo o)) a) b.

(** An address is computed, loaded through, and returned. *)
Definition instrs : list Z :=
  [typed FUNC_ARG 0; binary GEP_STATIC_OFFSET 0 0; typed GEP_STATIC 1; binary I32_LOAD 2 0;
   typed RETURN_VALUE 2].
Definition bbs : list BasicBlock := [MkBB [(0, 4)] [] []].

Lemma gep_materialize_exact_witness :
  exists m, ComputeGEPMaterialize instrs bbs = Ok m /\ length m = length instrs /\
    (forall k, m !! k = Some true <->
      exists bb p, bb ∈ bbs /\ p ∈ bb_instrs bb /\ demands instrs p.2 k) /\
    (forall bb p w v msg, bb ∈ bbs -> p ∈ bb_instrs bb -> vec_at instrs p.2 = Ok w ->
      materialize_operand w = Some v -> read_materialized v instrs m msg = Ok (read v)).
Proof.
  apply gep_materialize_exact. intros bb p ->%list_elem_of_singleton Hp.
  assert (bb_instrs (MkBB [(0, 4)] [] []) = [(0, 0); (0, 1); (0, 2); (0, 3); (0, 4)]) as Eb by (by vm_compute).
  rewrite Eb in Hp. repeat (apply elem_of_cons in Hp as [->|Hp];
    [eexists; split; [by vm_compute|intros v Hv; vm_compute in Hv; simplify_eq; by vm_compute]|]).
  by apply not_elem_of_nil in Hp.
Defined.

(** [ComputeGEPMaterialize] reads the instruction of an operand before it
    checks that the operand is not a constant: a function whose only instruction
    returns the second constant of the program reads past the end of its
    instructions. *)
Theorem gep_materialize_constant_oob :
  exists v, Value_make 1 true = Ok v /\
    ComputeGEPMaterialize [typed RETURN_VALUE v] [MkBB [(0, 0)] [] []] = UB.
Proof. exists 8388609. split; by vm_compute. Qed.
End OperandsDemo.
