(* ===== verification/Liveness.v ===== *)
(** * Liveness of values

    The first part of [ComputeLiveIntervals] (src/khir/asm/live_intervals.cc):
    the values a block reads before writing them, the values it writes, and the
    worklist that propagates liveness against the edges.  Sets of values are
    [gset]s; the order in which a hash set is walked makes no difference. *)
From S2P Require Import Prelude Opcode Instruction ProgramBuilder CfgSimplify LiveInterval Operands.

(** ** One block *)
Definition uses_step (instrs : list Z) (gep_materialize : list bool)
    (st : gset Z * gset Z) (p : Z * Z) : Res (gset Z * gset Z) :=
  let '(values, written_to) := st in
  let '(seg_start, i) := p in
  reads ← GetReadValues i seg_start gep_materialize instrs;
  let values := foldl (fun vs v => if decide (v ∈ written_to) then vs else {[v]} ∪ vs)
                  values reads in
  written_value ← GetWrittenValue i instrs gep_materialize;
  Ok (values, match written_value with
              | Some v => {[v]} ∪ written_to
              | None => written_to
              end).

Definition AddExternalUses (values : gset Z) (instrs : list Z) (gep_materialize : list bool)
    (bb : BasicBlock) : Res (gset Z) :=
  '(values, _) ← foldM (uses_step instrs gep_materialize) (values, ∅) (bb_instrs bb);
  Ok values.

Definition defs_step (instrs : list Z) (gep_materialize : list bool)
    (values : gset Z) (p : Z * Z) : Res (gset Z) :=
  v ← GetWrittenValue p.2 instrs gep_materialize;
  Ok (match v with Some v => {[v]} ∪ values | None => values end).

Definition AddDefs (values : gset Z) (instrs : list Z) (gep_materialize : list bool)
    (bb : BasicBlock) : Res (gset Z) :=
  foldM (defs_step instrs gep_materialize) values (bb_instrs bb).

(** ** The worklist *)
Definition UnionLive (successors : list Z) (live_in : list (gset Z)) : Res (gset Z) :=
  foldM (fun (out : gset Z) i => l ← vec_at live_in i; Ok (l ∪ out)) ∅ successors.

(** The stack is a list whose head is the top. *)
Fixpoint liveness_loop (fuel : nat) (bb : list BasicBlock) (defs live_in : list (gset Z))
    (worklist : list Z) : Res (list (gset Z)) :=
  match worklist with
  | [] => Ok live_in
  | curr_block :: worklist =>
      match fuel with
      | O => NoFuel
      | S fuel =>
          b ← vec_at bb curr_block;
          live_out ← UnionLive (Successors b) live_in;
          live ← vec_at live_in curr_block;
          d ← vec_at defs curr_block;
          let live' := live ∪ (live_out ∖ d) in
          live_in ← vec_set live_in curr_block live';
          let worklist := if Nat.eqb (size live') (size live) then worklist
                          else rev (Predecessors b) ++ worklist in
          liveness_loop fuel bb defs live_in worklist
      end
  end.

(** Every value that is live anywhere is read somewhere; a block is pushed again
    only after one of its successors has gained a value. *)
Definition liveness_fuel (bb : list BasicBlock) (uses : list (gset Z)) : nat :=
  length bb + size (⋃ uses) * sum_list (length ∘ Predecessors <$> bb).

Definition block_sets (instrs : list Z) (gep_materialize : list bool) (bb : list BasicBlock)
    : Res (list (gset Z) * list (gset Z)) :=
  foldM (fun '(uses, defs) b =>
    u ← AddExternalUses ∅ instrs gep_materialize b;
    d ← AddDefs ∅ instrs gep_materialize b;
    Ok (uses ++ [u], defs ++ [d])) ([], []) bb.

Definition ComputeLiveness (instrs : list Z) (gep_materialize : list bool)
    (bb : list BasicBlock) : Res (list (gset Z)) :=
  '(live_in, defs) ← block_sets instrs gep_materialize bb;
  liveness_loop (liveness_fuel bb live_in) bb defs live_in (rev (seqZ 0 (vec_size bb))).

(** ** Reading and writing along a path

    An event is what one instruction reads and then writes. *)
Definition event : Type := list Z * option Z.

Definition instr_event (instrs : list Z) (gep_materialize : list bool) (p : Z * Z) : Res event :=
  reads ← GetReadValues p.2 p.1 gep_materialize instrs;
  written ← GetWrittenValue p.2 instrs gep_materialize;
  Ok (reads, written).

(** [v] is read before it is written. *)
Fixpoint exposed (v : Z) (evs : list event) : Prop :=
  match evs with
  | [] => False
  | (reads, written) :: evs => v ∈ reads \/ (written <> Some v /\ exposed v evs)
  end.

Definition writes (v : Z) (evs : list event) : Prop := Some v ∈ evs.*2.

#[export] Instance exposed_dec v evs : Decision (exposed v evs).
Proof. induction evs as [|[r w] evs IH]; cbn; apply _. Defined.
#[export] Instance writes_dec v evs : Decision (writes v evs).
Proof. unfold writes. apply _. Defined.

Lemma writes_app v e1 e2 : writes v (e1 ++ e2) <-> writes v e1 \/ writes v e2.
Proof. unfold writes. by rewrite fmap_app, elem_of_app. Qed.

Lemma exposed_app v e1 e2 :
  exposed v (e1 ++ e2) <-> exposed v e1 \/ (~ writes v e1 /\ exposed v e2).
Proof.
  induction e1 as [|[r w] e1 IH]; cbn.
  - unfold writes. cbn. rewrite elem_of_nil. tauto.
  - rewrite IH. unfold writes. cbn. rewrite elem_of_cons.
    destruct (decide (w = Some v)) as [->|]; intuition congruence.
Qed.

(** Blocks [b], then those of [bs], each a successor of the one before. *)
Fixpoint cfg_path (succs : Z -> list Z) (b : Z) (bs : list Z) : Prop :=
  match bs with
  | [] => True
  | s :: bs => s ∈ succs b /\ cfg_path succs s bs
  end.

(** [v] is live at the start of [b]: some path of the control-flow graph from
    [b] reads it before writing it. *)
Definition LiveIn (succs : Z -> list Z) (evs : Z -> list event) (b v : Z) : Prop :=
  exists bs, cfg_path succs b bs /\ exposed v (evs b ++ mjoin (evs <$> bs)).

Lemma LiveIn_unfold succs evs b v :
  LiveIn succs evs b v <->
    exposed v (evs b) \/ (~ writes v (evs b) /\ exists s, s ∈ succs b /\ LiveIn succs evs s v).
Proof.
  split.
  - intros ([|s bs] & Hp & He); cbn in *; rewrite exposed_app in He.
    + destruct He as [?|[_ []]]. by left.
    + destruct He as [?|[? ?]]; [by left|]. right. split; [done|]. exists s.
      split; [apply Hp|]. exists bs. by split; [apply Hp|].
  - intros [He|(Hw & s & Hs & bs & Hp & He)].
    + exists []. split; [done|]. cbn. by rewrite app_nil_r.
    + exists (s :: bs). split; [done|]. cbn. rewrite exposed_app. auto.
Qed.

(** ** The sets of a block *)
Section Block.
Context (instrs : list Z) (mat : list bool).

Definition events_of (bb : BasicBlock) (evs : list event) : Prop :=
  Forall2 (fun p e => instr_event instrs mat p = Ok e) (bb_instrs bb) evs.

Lemma instr_event_Ok p r w : instr_event instrs mat p = Ok (r, w) ->
  GetReadValues p.2 p.1 mat instrs = Ok r /\ GetWrittenValue p.2 instrs mat = Ok w.
Proof. unfold instr_event. intros H. by ok_inv; simplify_eq. Qed.

Lemma add_reads (written : gset Z) reads (values : gset Z) v :
  v ∈ foldl (fun (vs : gset Z) v => if decide (v ∈ written) then vs else {[v]} ∪ vs)
    values reads <-> v ∈ values \/ (v ∈ reads /\ ~ v ∈ written).
Proof.
  revert values. induction reads as [|r reads IH]; intros values; cbn.
  - rewrite elem_of_nil. tauto.
  - rewrite IH, elem_of_cons. case_decide as Hr.
    + split; [tauto|]. intros [?|[[->|?] ?]]; tauto.
    + rewrite elem_of_union, elem_of_singleton. split; [|tauto].
      intros [[->|?]|?]; tauto.
Qed.

Lemma AddExternalUses_ok bb evs : events_of bb evs ->
  exists u, AddExternalUses ∅ instrs mat bb = Ok u /\ forall v, v ∈ u <-> exposed v evs.
Proof.
  unfold AddExternalUses, events_of. generalize (bb_instrs bb) as l.
  assert (forall l values written, Forall2 (fun p e => instr_event instrs mat p = Ok e) l evs ->
    exists u w, foldM (uses_step instrs mat) (values, written) l = Ok (u, w) /\
      forall v, v ∈ u <-> v ∈ values \/ (~ v ∈ written /\ exposed v evs)) as H.
  { intros l values written Hl. revert values written.
    induction Hl as [|[ss i] [r w] l evs He Hl IH]; intros values written.
    - exists values, written. split; [done|]. cbn. tauto.
    - apply instr_event_Ok in He as [Hr Hw]. cbn [fst snd] in Hr, Hw.
      cbn [foldM uses_step]. rewrite Hr. cbn [mbind Res_bind]. rewrite Hw. cbn [mbind Res_bind].
      match goal with |- context [foldM _ (?a, ?b) l] =>
        destruct (IH a b) as (u & w' & E & Hu) end. exists u, w'. split; [exact E|].
      intros v. rewrite Hu, add_reads. cbn [exposed].
      destruct w as [x|]; [rewrite elem_of_union, elem_of_singleton|].
      + destruct (decide (x = v)) as [->|]; intuition congruence.
      + intuition congruence. }
  intros l Hl. destruct (H l ∅ ∅ Hl) as (u & w & E & Hu). exists u. rewrite E. split; [done|].
  intros v. rewrite Hu, elem_of_empty. tauto.
Qed.

Lemma AddDefs_ok bb evs : events_of bb evs ->
  exists d, AddDefs ∅ instrs mat bb = Ok d /\ forall v, v ∈ d <-> writes v evs.
Proof.
  unfold AddDefs, events_of. generalize (bb_instrs bb) as l.
  assert (forall l values, Forall2 (fun p e => instr_event instrs mat p = Ok e) l evs ->
    exists d, foldM (defs_step instrs mat) values l = Ok d /\
      forall v, v ∈ d <-> v ∈ values \/ writes v evs) as H.
  { intros l values Hl. revert values. induction Hl as [|[ss i] [r w] l evs He Hl IH]; intros values.
    - exists values. split; [done|]. unfold writes. cbn. intros v. rewrite elem_of_nil. tauto.
    - apply instr_event_Ok in He as [_ Hw]. cbn [fst snd] in Hw.
      cbn [foldM].
      assert (defs_step instrs mat values (ss, i) =
        Ok (match w with Some v => {[v]} ∪ values | None => values end)) as ->
        by (unfold defs_step; cbn; by rewrite Hw).
      cbn [mbind Res_bind].
      match goal with |- context [foldM _ ?a l] => destruct (IH a) as (d & E & Hd) end. exists d. split; [exact E|].
      intros v. rewrite Hd. unfold writes. cbn. rewrite elem_of_cons.
      destruct w as [x|]; [rewrite elem_of_union, elem_of_singleton|]; intuition congruence. }
  intros l Hl. destruct (H l ∅ Hl) as (d & E & Hd). exists d. split; [done|].
  intros v. rewrite Hd, elem_of_empty. tauto.
Qed.
End Block.

(** ** The fixpoint *)
Section Worklist.
Context (bbs : list BasicBlock) (He : edges_ok bbs).

Definition set_at (l : list (gset Z)) (b : Z) : gset Z := default ∅ (l !! Z.to_nat b).

Lemma vec_at_set (l : list (gset Z)) b : length l = length bbs -> in_range bbs b ->
  vec_at l b = Ok (set_at l b).
Proof.
  unfold in_range, vec_size, set_at. intros Hl [??].
  destruct (lookup_lt_is_Some_2 l (Z.to_nat b)) as [x Hx]; [lia|].
  rewrite Hx. apply vec_at_Ok. split; [lia|done].
Qed.

Lemma set_at_insert (l : list (gset Z)) b s b' : length l = length bbs -> in_range bbs b ->
  0 <= b' -> set_at (<[Z.to_nat b := s]> l) b' = if decide (b' = b) then s else set_at l b'.
Proof.
  unfold in_range, vec_size, set_at. intros Hl [??] ?. case_decide; subst.
  - by rewrite list_lookup_insert_eq by lia.
  - by rewrite list_lookup_insert_ne by lia.
Qed.

Lemma UnionLive_ok (l : list (gset Z)) ss : length l = length bbs ->
  (forall s, s ∈ ss -> in_range bbs s) ->
  exists o, UnionLive ss l = Ok o /\ forall v, v ∈ o <-> exists s, s ∈ ss /\ v ∈ set_at l s.
Proof.
  intros Hl Hr. unfold UnionLive.
  assert (forall o, exists o', foldM (fun (out : gset Z) i => l ← vec_at l i; Ok (l ∪ out)) o ss
    = Ok o' /\ forall v, v ∈ o' <-> v ∈ o \/ exists s, s ∈ ss /\ v ∈ set_at l s) as H.
  { induction ss as [|s ss IH]; intros o; cbn [foldM].
    - exists o. split; [done|]. intros v. split; [by left|].
      intros [?|(s & ?%not_elem_of_nil & _)]; done.
    - rewrite vec_at_set by (done || (apply Hr; by left)). cbn [mbind Res_bind].
      destruct (IH ltac:(intros; apply Hr; by right) (set_at l s ∪ o)) as (o' & -> & Ho').
      exists o'. split; [done|]. intros v. rewrite Ho', elem_of_union. split.
      + intros [[?|?]|(s' & ? & ?)]; [right; exists s; split; [by left|done]|by left|].
        right. exists s'. split; [by right|done].
      + intros [?|(s' & [->|?]%elem_of_cons & ?)]; [tauto..|]. right. by exists s'. }
  destruct (H ∅) as (o & E & Ho). exists o. split; [done|]. intros v. rewrite Ho, elem_of_empty.
  tauto.
Qed.

Context (evs : Z -> list event) (uses defs : list (gset Z)).
Context (Huses : length uses = length bbs) (Hdefs : length defs = length bbs).
Context (uses_ok : forall b v, in_range bbs b -> v ∈ set_at uses b <-> exposed v (evs b)).
Context (defs_ok : forall b v, in_range bbs b -> v ∈ set_at defs b <-> writes v (evs b)).

(** The invariant of the loop: only live values are recorded, every value a block
    reads first is, and a block off the worklist is consistent with its
    successors. *)
Record live_inv (live_in : list (gset Z)) (worklist : list Z) : Prop := {
  li_len : length live_in = length bbs;
  li_work : forall b, b ∈ worklist -> in_range bbs b;
  li_sound : forall b v, in_range bbs b -> v ∈ set_at live_in b -> LiveIn (succs bbs) evs b v;
  li_uses : forall b, in_range bbs b -> set_at uses b ⊆ set_at live_in b;
  li_below : forall b, in_range bbs b -> set_at live_in b ⊆ ⋃ uses;
  li_fix : forall b s v, in_range bbs b -> b ∉ worklist -> s ∈ succs bbs b ->
    v ∈ set_at live_in s -> v ∉ set_at defs b -> v ∈ set_at live_in b;
}.

Definition live_left (live_in : list (gset Z)) : nat :=
  sum_list (zip_with (fun l b => (size (⋃ uses) - size l) * length (Predecessors b))%nat
    live_in bbs).

Lemma sum_list_insert (l : list nat) i x y : l !! i = Some y ->
  (sum_list (<[i := x]> l) + y = sum_list l + x)%nat.
Proof.
  revert i. induction l as [|z l IH]; intros [|i] H; try done.
  - injection H as ->. cbn. lia.
  - specialize (IH i H). change (<[S i := x]> (z :: l)) with (z :: <[i := x]> l).
    cbn [sum_list_with]. lia.
Qed.

Lemma live_left_insert live_in b bb s :
  live_in !! b <> None -> bbs !! b = Some bb ->
  (size s <= size (⋃ uses))%nat -> (size (set_at live_in (Z.of_nat b)) < size s)%nat ->
  (live_left (<[b := s]> live_in) + length (Predecessors bb) <= live_left live_in)%nat.
Proof.
  intros Hb Hbb Hs Hlt. destruct (live_in !! b) as [l|] eqn:El; [|done].
  unfold set_at in Hlt. rewrite Nat2Z.id, El in Hlt. cbn in Hlt. unfold live_left.
  rewrite <- (list_insert_id bbs b bb) at 1 by done. rewrite <- insert_zip_with.
  match goal with |- (sum_list (<[_ := ?x]> ?z) + _ <= _)%nat =>
    pose proof (sum_list_insert z b x ((size (⋃ uses) - size l) * length (Predecessors bb))%nat)
      as H end.
  rewrite lookup_zip_with, El, Hbb in H. specialize (H eq_refl). nia.
Qed.

(** What one turn does to the set of the block it takes. *)
Definition grown (live_in : list (gset Z)) (b : Z) (live_out : gset Z) : gset Z :=
  set_at live_in b ∪ (live_out ∖ set_at defs b).

Lemma grown_inv live_in b wl live_out wl' :
  live_inv live_in (b :: wl) ->
  (forall v, v ∈ live_out <-> exists s, s ∈ succs bbs b /\ v ∈ set_at live_in s) ->
  (forall x, x ∈ wl' -> in_range bbs x) -> wl ⊆ wl' ->
  (grown live_in b live_out = set_at live_in b \/ preds bbs b ⊆ wl') ->
  live_inv (<[Z.to_nat b := grown live_in b live_out]> live_in) wl'.
Proof.
  intros H Ho Hwl' Hsub Hpush. pose proof (li_len _ _ H) as Hl.
  assert (in_range bbs b) as Hb by (apply (li_work _ _ H); by left).
  assert (forall x, in_range bbs x -> set_at (<[Z.to_nat b := grown live_in b live_out]> live_in) x
    = if decide (x = b) then grown live_in b live_out else set_at live_in x) as Hset.
  { intros x Hx. apply set_at_insert; [done..|apply Hx]. }
  assert (forall v, v ∈ grown live_in b live_out <-> v ∈ set_at live_in b \/
    ((exists s, s ∈ succs bbs b /\ v ∈ set_at live_in s) /\ ~ writes v (evs b))) as Hg.
  { intros v. unfold grown. by rewrite elem_of_union, elem_of_difference, Ho, defs_ok. }
  split.
  - by rewrite length_insert.
  - done.
  - intros x v Hx. rewrite Hset by done. case_decide; [subst x|by apply H].
    rewrite Hg. intros [?|[(s & Hs & Hv) Hw]]; [by apply H|].
    apply LiveIn_unfold. right. split; [done|]. exists s. split; [done|].
    apply H; [|done]. by apply (succs_range _ He) in Hs as [_ ?].
  - intros x Hx v Hv. rewrite Hset by done. apply (li_uses _ _ H x Hx) in Hv.
    case_decide; [subst x; apply Hg; by left|done].
  - intros x Hx v. rewrite Hset by done. case_decide; [subst x|by apply H].
    rewrite Hg. intros [?|[(s & Hs & Hv) _]]; [by apply (li_below _ _ H b)|].
    apply (li_below _ _ H s); [|done]. by apply (succs_range _ He) in Hs as [_ ?].
  - intros x s v Hx Hxw Hs Hv Hd. pose proof (succs_range _ He _ _ Hs) as [_ Hsr].
    rewrite Hset in Hv by done. rewrite Hset by done.
    assert (s = b -> v ∈ set_at live_in b) as Hsb.
    { intros ->. rewrite decide_True in Hv by done. destruct Hpush as [<-|Hp]; [done|].
      destruct Hxw. by apply Hp, succs_preds. }
    assert (v ∈ set_at live_in s) as Hv'.
    { case_decide; [subst s; auto|done]. }
    destruct (decide (x = b)) as [->|].
    + apply Hg. right. split; [by exists s|]. by rewrite <- defs_ok.
    + apply (li_fix _ _ H x s v); try done. rewrite elem_of_cons. intros [?|?]; [done|]. auto.
Qed.

Lemma liveness_loop_ok fuel live_in wl :
  live_inv live_in wl -> (length wl + live_left live_in <= fuel)%nat ->
  exists l, liveness_loop fuel bbs defs live_in wl = Ok l /\ live_inv l [].
Proof.
  revert live_in wl. induction fuel as [|fuel IH]; intros live_in wl H Hf.
  - destruct wl; [|cbn in Hf; lia]. by exists live_in.
  - destruct wl as [|b wl]; [by exists live_in|]. cbn [liveness_loop length] in *.
    assert (in_range bbs b) as Hb by (apply (li_work _ _ H); by left).
    pose proof (li_len _ _ H) as Hl.
    destruct (block_at bbs b Hb) as (bb & -> & Hbb & Es & Ep). cbn [mbind Res_bind].
    destruct (UnionLive_ok live_in (Successors bb)) as (o & -> & Ho); [done| |].
    { intros s Hs. rewrite Es in Hs. by apply (succs_range _ He) in Hs as [_ ?]. }
    rewrite Es in Ho. cbn [mbind Res_bind]. rewrite !vec_at_set by done. cbn [mbind Res_bind].
    fold (grown live_in b o).
    assert (vec_set live_in b (grown live_in b o) =
      Ok (<[Z.to_nat b := grown live_in b o]> live_in)) as ->.
    { apply vec_set_Ok. unfold in_range, vec_size in *. by rewrite Hl. }
    cbn [mbind Res_bind].
    assert (set_at live_in b ⊆ grown live_in b o) as Hsub by apply union_subseteq_l.
    destruct (Nat.eqb_spec (size (grown live_in b o)) (size (set_at live_in b))) as [E|E].
    + assert (grown live_in b o = set_at live_in b) as Eg.
      { symmetry. apply leibniz_equiv, set_subseteq_size_equiv; [done|lia]. }
      apply IH.
      * apply grown_inv with (wl := wl); try done; [|by left].
        intros x ?. apply (li_work _ _ H). by right.
      * rewrite Eg. unfold set_at in *. unfold in_range, vec_size in Hb.
        destruct (lookup_lt_is_Some_2 live_in (Z.to_nat b)) as [l Hlb]; [lia|].
        rewrite Hlb. cbn. rewrite list_insert_id by done. lia.
    + assert (live_inv (<[Z.to_nat b := grown live_in b o]> live_in)
        (rev (Predecessors bb) ++ wl)) as Hi.
      { apply grown_inv with (wl := wl); try done.
        - intros x. rewrite elem_of_app. intros [Hx|Hx].
          + rewrite Ep in Hx. apply list_elem_of_In, in_rev, list_elem_of_In in Hx.
            by apply (preds_range _ He) in Hx as [? _].
          + apply (li_work _ _ H). by right.
        - intros x ?. apply elem_of_app. by right.
        - right. rewrite <- Ep. intros x Hx. apply elem_of_app. left.
          by apply list_elem_of_In, in_rev; rewrite rev_involutive; apply list_elem_of_In. }
      apply IH; [done|]. rewrite length_app, length_rev.
      pose proof (live_left_insert live_in (Z.to_nat b) bb (grown live_in b o)) as Hdec.
      rewrite Z2Nat.id in Hdec by apply Hb. unfold in_range, vec_size in Hb.
      destruct (lookup_lt_is_Some_2 live_in (Z.to_nat b)) as [l Hlb]; [lia|].
      assert (size (grown live_in b o) <= size (⋃ uses))%nat as Hle.
      { apply subseteq_size. pose proof (li_below _ _ Hi b Hb) as Hbl.
        rewrite set_at_insert, decide_True in Hbl by (done || apply Hb). done. }
      pose proof (subseteq_size _ _ Hsub). specialize (Hdec ltac:(by rewrite Hlb) Hbb Hle ltac:(lia)).
      lia.
Qed.

Lemma live_inv_exact l b v : live_inv l [] -> in_range bbs b ->
  v ∈ set_at l b <-> LiveIn (succs bbs) evs b v.
Proof.
  intros H Hb. split; [by apply H|]. intros (bs & Hp & Hex). revert b Hb Hp Hex.
  induction bs as [|s bs IH]; intros b Hb Hp Hex; cbn in Hex; rewrite exposed_app in Hex;
    destruct Hex as [Hex|[Hw Hex]].
  1, 3: apply (li_uses _ _ H b Hb); by apply uses_ok.
  - done.
  - destruct Hp as [Hs Hp]. pose proof (succs_range _ He _ _ Hs) as [_ Hsr].
    apply (li_fix _ _ H b s v); try done; [apply not_elem_of_nil|by apply IH|].
    by rewrite defs_ok.
Qed.

Lemma set_at_below b : in_range bbs b -> set_at uses b ⊆ ⋃ uses.
Proof.
  unfold in_range, vec_size, set_at. intros [??] v Hv.
  destruct (uses !! Z.to_nat b) as [u|] eqn:E; [|by apply not_elem_of_empty in Hv].
  apply elem_of_union_list. exists u. split; [|done]. by eapply list_elem_of_lookup_2.
Qed.

Lemma live_inv_init : live_inv uses (rev (seqZ 0 (vec_size bbs))).
Proof.
  assert (forall b, b ∈ rev (seqZ 0 (vec_size bbs)) <-> in_range bbs b) as Hw.
  { intros b. rewrite list_elem_of_In, <- in_rev, <- list_elem_of_In, elem_of_seqZ.
    unfold in_range. lia. }
  split; try done.
  - intros b. apply Hw.
  - intros b v Hb Hv. apply LiveIn_unfold. left. by apply uses_ok.
  - intros b Hb. by apply set_at_below.
  - intros b s v Hb Hn. destruct Hn. by apply Hw.
Qed.

Lemma live_left_init : (live_left uses <= size (⋃ uses) * sum_list (length ∘ Predecessors <$> bbs))%nat.
Proof.
  unfold live_left. clear. generalize (size (⋃ uses)) as n. intros n. revert uses.
  induction bbs as [|b bbs' IH]; intros [|u us]; cbn [zip_with sum_list_with fmap list_fmap]; try lia.
  specialize (IH us). unfold id, compose in *. nia.
Qed.

Lemma liveness_worklist :
  exists l, liveness_loop (liveness_fuel bbs uses) bbs defs uses (rev (seqZ 0 (vec_size bbs))) = Ok l /\
    length l = length bbs /\
    forall b v, in_range bbs b -> v ∈ set_at l b <-> LiveIn (succs bbs) evs b v.
Proof.
  destruct (liveness_loop_ok (liveness_fuel bbs uses) uses (rev (seqZ 0 (vec_size bbs))))
    as (l & E & Hl).
  - apply live_inv_init.
  - rewrite length_rev, length_seqZ. pose proof live_left_init. unfold liveness_fuel, vec_size. lia.
  - exists l. split; [done|]. split; [apply Hl|]. intros. by apply live_inv_exact.
Qed.
End Worklist.

(** ** All blocks *)
Definition events_at (E : list (list event)) (b : Z) : list event := default [] (E !! Z.to_nat b).

(** The events of every block of a function. *)
Definition code_events (instrs : list Z) (mat : list bool) (bbs : list BasicBlock)
    (E : list (list event)) : Prop := Forall2 (events_of instrs mat) bbs E.

Lemma block_sets_ok instrs mat bbs E : code_events instrs mat bbs E ->
  exists uses defs, block_sets instrs mat bbs = Ok (uses, defs) /\
    Forall2 (fun u evs => forall v, v ∈ u <-> exposed v evs) uses E /\
    Forall2 (fun d evs => forall v, v ∈ d <-> writes v evs) defs E.
Proof.
  intros HE. unfold block_sets.
  assert (forall E0 us ds,
    Forall2 (fun u evs => forall v, v ∈ u <-> exposed v evs) us E0 ->
    Forall2 (fun d evs => forall v, v ∈ d <-> writes v evs) ds E0 ->
    exists uses defs, foldM (fun '(uses, defs) b =>
      u ← AddExternalUses ∅ instrs mat b; d ← AddDefs ∅ instrs mat b;
      Ok (uses ++ [u], defs ++ [d])) (us, ds) bbs = Ok (uses, defs) /\
    Forall2 (fun u evs => forall v, v ∈ u <-> exposed v evs) uses (E0 ++ E) /\
    Forall2 (fun d evs => forall v, v ∈ d <-> writes v evs) defs (E0 ++ E)) as H.
  { induction HE as [|bb evs bbs E Hb HE IH]; intros E0 us ds Hu Hd; cbn [foldM].
    - exists us, ds. by rewrite app_nil_r.
    - destruct (AddExternalUses_ok _ _ _ _ Hb) as (u & -> & Hu'). cbn [mbind Res_bind].
      destruct (AddDefs_ok _ _ _ _ Hb) as (d & -> & Hd'). cbn [mbind Res_bind].
      destruct (IH (E0 ++ [evs]) (us ++ [u]) (ds ++ [d])) as (uses & defs & -> & H1 & H2);
        [by apply List.Forall2_app; [|constructor]..|].
      exists uses, defs. rewrite <- (assoc_L (++)) in H1, H2. done. }
  apply (H [] [] []); constructor.
Qed.

Lemma set_at_Forall2 (P : Z -> list event -> Prop) sets E b v :
  Forall2 (fun s evs => forall v, v ∈ s <-> P v evs) sets E -> 0 <= b < vec_size E ->
  v ∈ set_at sets b <-> P v (events_at E b).
Proof.
  unfold set_at, events_at, vec_size. intros H Hb.
  destruct (lookup_lt_is_Some_2 E (Z.to_nat b)) as [evs Hevs]; [lia|].
  destruct (Forall2_lookup_r _ _ _ _ _ H Hevs) as (s & Hs & Hsp). rewrite Hs, Hevs. apply Hsp.
Qed.

Lemma ComputeLiveness_ok instrs mat bbs E :
  edges_ok bbs -> code_events instrs mat bbs E ->
  exists l, ComputeLiveness instrs mat bbs = Ok l /\ length l = length bbs /\
    forall b v, in_range bbs b -> v ∈ set_at l b <-> LiveIn (succs bbs) (events_at E) b v.
Proof.
  intros He HE. destruct (block_sets_ok _ _ _ _ HE) as (uses & defs & Hbs & Hu & Hd).
  unfold ComputeLiveness. rewrite Hbs. cbn [mbind Res_bind].
  pose proof (list.Forall2_length _ _ _ Hu). pose proof (list.Forall2_length _ _ _ Hd).
  pose proof (list.Forall2_length _ _ _ HE).
  assert (forall b, in_range bbs b -> 0 <= b < vec_size E) as Hr.
  { unfold in_range, vec_size. intros; lia. }
  apply (liveness_worklist bbs He (events_at E) uses defs); [lia|lia|..];
    intros b v Hb%Hr; by apply set_at_Forall2.
Qed.

(** C6. The worklist of [ComputeLiveIntervals] ends, and what it computes is
    liveness: a value is in [live_in] of a block exactly when some path of the
    control-flow graph starting there reads the value before any instruction
    writes it.  The only assumptions are that the recorded edges are consistent
    and that every instruction's operands can be decoded. *)
Theorem liveness_exact instrs mat bbs E :
  edges_ok bbs -> code_events instrs mat bbs E ->
  exists l, ComputeLiveness instrs mat bbs = Ok l /\ length l = length bbs /\
    forall b v, in_range bbs b -> v ∈ set_at l b <-> LiveIn (succs bbs) (events_at E) b v.
Proof. apply ComputeLiveness_ok. Qed.
