(* ===== verification/LiveIntervals.v ===== *)
(** * Live intervals

    [ComputeLiveIntervals] of src/khir/asm/live_intervals.cc after the liveness
    worklist: every instruction gets a position, the interval of a value is
    extended over the positions where it is live, stores get a point, arguments
    and calls get intervals of fixed registers, and uses add to the cost of
    spilling.  The loop depth of each block, which comes from the loop tree of
    src/khir/asm/loops.cc, is an argument. *)
From S2P Require Import Prelude Opcode Instruction ProgramBuilder CfgSimplify LiveInterval Operands Liveness.

(** ** Positions *)
Definition points (bb : list BasicBlock) : list (Z * (Z * Z)) :=
  mjoin (imap (fun b blk => (fun p => (Z.of_nat b, p)) <$> bb_instrs blk) bb).

(** [instr_map]: blocks in order, instructions in order. *)
Definition number_points (m : gmap (Z * Z) Z) (total : Z) (l : list (Z * (Z * Z)))
    : gmap (Z * Z) Z * Z :=
  foldl (fun '(m, total_past_instrs) '(bb_idx, (_, i)) =>
    (<[(bb_idx, i) := total_past_instrs]> m, total_past_instrs + 1)) (m, total) l.

Definition make_instr_map (bb : list BasicBlock) : gmap (Z * Z) Z :=
  (number_points ∅ 0 (points bb)).1.

Definition map_at (m : gmap (Z * Z) Z) (k : Z * Z) : Res Z :=
  match m !! k with Some x => Ok x | None => Throw "out_of_range" end.

(** ** Extending intervals *)
Definition li_update (f : LiveInterval -> LiveInterval) (live_intervals : list LiveInterval)
    (i : Z) : Res (list LiveInterval) :=
  l ← vec_at live_intervals i; vec_set live_intervals i (f l).

Definition extend_all (x : Z) (live_intervals : list LiveInterval) (live : gset Z)
    : Res (list LiveInterval) :=
  foldM (fun l v => li_update (fun li => Extend li x) l (Value_GetIdx v)) live_intervals
    (elements live).

(** One instruction of the backward walk over a block. *)
Definition walk_step (instrs : list Z) (gep_materialize : list bool) (instr_map : gmap (Z * Z) Z)
    (bb_idx : Z) (st : list LiveInterval * gset Z) (p : Z * Z)
    : Res (list LiveInterval * gset Z) :=
  let '(live_intervals, currently_live) := st in
  let '(seg_start, i) := p in
  x ← map_at instr_map (bb_idx, i);
  live_intervals ← extend_all x live_intervals currently_live;
  written_value ← GetWrittenValue i instrs gep_materialize;
  let currently_live := match written_value with
                        | Some v => currently_live ∖ {[v]}
                        | None => currently_live
                        end in
  reads ← GetReadValues i seg_start gep_materialize instrs;
  let currently_live := list_to_set reads ∪ currently_live in
  live_intervals ← extend_all x live_intervals currently_live;
  Ok (live_intervals, currently_live).

Definition walk_block (instrs : list Z) (gep_materialize : list bool)
    (instr_map : gmap (Z * Z) Z) (live_in : list (gset Z))
    (live_intervals : list LiveInterval) (b : Z * BasicBlock) : Res (list LiveInterval) :=
  let '(bb_idx, bb) := b in
  currently_live ← UnionLive (Successors bb) live_in;
  '(live_intervals, currently_live) ←
    foldM (walk_step instrs gep_materialize instr_map bb_idx) (live_intervals, currently_live)
      (rev (bb_instrs bb));
  l ← vec_at live_in bb_idx;
  if decide (currently_live = l) then Ok live_intervals else Throw "Invalid liveness".

Definition with_ids (bb : list BasicBlock) : list (Z * BasicBlock) :=
  imap (fun b blk => (Z.of_nat b, blk)) bb.

(** ** Stores *)
Definition is_any_store (o : option Opcode) : bool :=
  match o with
  | Some (I8_STORE | I16_STORE | I32_STORE | I64_STORE | F64_STORE | PTR_STORE
    | I32_VEC8_MASK_STORE) => true
  | _ => false
  end.

Definition store_step (instrs : list Z) (instr_map : gmap (Z * Z) Z)
    (live_intervals : list LiveInterval) (p : Z * (Z * Z)) : Res (list LiveInterval) :=
  let '(bb_idx, (_, i)) := p in
  w ← vec_at instrs i;
  if is_any_store (opcode_of w) then
    x ← map_at instr_map (bb_idx, i); li_update (fun l => Extend l x) live_intervals i
  else Ok live_intervals.

(** ** Registers fixed by the calling convention *)
Definition normal_arg_reg : list Z := GPRegister_Id <$> [RDI; RSI; RDX; RCX; R8; R9].
Definition fp_arg_reg : list Z := VRegister_Id <$> [M0; M1; M2; M3; M4; M5; M6; M7].
Definition normal_caller_save : list Z := GPRegister_Id <$> [R10; R11].
Definition fp_caller_save : list Z := VRegister_Id <$> [M8; M9; M10; M11; M12; M13; M14].

(** The loop over the leading [FUNC_ARG] instructions: [l] are the instructions
    from [i] on. *)
Fixpoint func_args (l : list Z) (i normal_arg_ctr fp_arg_ctr : Z) (instr_map : gmap (Z * Z) Z)
    (live_intervals : list LiveInterval) : Res (list LiveInterval) :=
  match l with
  | [] => Ok live_intervals
  | w :: l =>
      if decide (opcode_of w = Some FUNC_ARG) then
        let fp := Type3_TypeID w =? F64Type in
        reg ← (if fp then vec_at fp_arg_reg fp_arg_ctr else vec_at normal_arg_reg normal_arg_ctr);
        first ← map_at instr_map (0, 0);
        last ← map_at instr_map (0, i);
        let interval := Extend (Extend (LiveInterval_reg reg) first) last in
        func_args l (i + 1) (if fp then normal_arg_ctr else normal_arg_ctr + 1)
          (if fp then fp_arg_ctr + 1 else fp_arg_ctr) instr_map (live_intervals ++ [interval])
      else Ok live_intervals
  end.

(** The registers of [regs] from the counter on, at the position of a call. *)
Definition clobber (x : Z) (regs : list Z) : list LiveInterval :=
  (fun reg => Extend (LiveInterval_reg reg) x) <$> regs.

Record CallState := MkCall {
  call_intervals : list LiveInterval;
  call_normal_ctr : Z;
  call_fp_ctr : Z;
}.

Definition call_step (instrs : list Z) (instr_map : gmap (Z * Z) Z) (s : CallState)
    (p : Z * (Z * Z)) : Res CallState :=
  let '(bb_idx, (_, i)) := p in
  let '(MkCall lis nctr fctr) := s in
  w ← vec_at instrs i;
  i_type ← TypeOfValue w;
  match opcode_of w with
  | Some CALL_ARG =>
      if i_type =? F64Type then
        if vec_size fp_arg_reg <=? fctr then Ok (MkCall lis nctr (fctr + 1))
        else
          reg ← vec_at fp_arg_reg fctr;
          lis ← li_update (fun l => ChangeToPrecolored l reg) lis i;
          Ok (MkCall lis nctr (fctr + 1))
      else
        if vec_size normal_arg_reg <=? nctr then Ok (MkCall lis (nctr + 1) fctr)
        else
          reg ← vec_at normal_arg_reg nctr;
          lis ← li_update (fun l => ChangeToPrecolored l reg) lis i;
          Ok (MkCall lis (nctr + 1) fctr)
  | Some (CALL_INDIRECT | CALL) =>
      x ← map_at instr_map (bb_idx, i);
      Ok (MkCall (lis ++ clobber x (drop (Z.to_nat nctr) normal_arg_reg)
                      ++ clobber x (drop (Z.to_nat fctr) fp_arg_reg)
                      ++ clobber x normal_caller_save ++ clobber x fp_caller_save) 0 0)
  | _ => Ok s
  end.

(** ** Costs *)
Definition cost_step (instrs : list Z) (gep_materialize : list bool) (loop_depth : list Z)
    (lis : list LiveInterval) (p : Z * (Z * Z)) : Res (list LiveInterval) :=
  let '(bb_idx, (seg_start, i)) := p in
  written_value ← GetWrittenValue i instrs gep_materialize;
  d ← vec_at loop_depth bb_idx;
  lis ← match written_value with
        | Some v => li_update (fun l => UpdateSpillCostWithUse l d) lis (Value_GetIdx v)
        | None => Ok lis
        end;
  reads ← GetReadValues i seg_start gep_materialize instrs;
  foldM (fun lis v => li_update (fun l => UpdateSpillCostWithUse l d) lis (Value_GetIdx v))
    lis reads.

(** ** The whole function *)
Definition initial_intervals (instrs : list Z) : Res (list LiveInterval) :=
  foldM (fun lis '(i, w) => t ← TypeOfValue w; Ok (lis ++ [LiveInterval_value i t])) []
    (imap (fun i w => (Z.of_nat i, w)) instrs).

(** Everything but the costs. *)
Definition live_ranges (instrs : list Z) (gep_materialize : list bool) (bb : list BasicBlock)
    : Res (list LiveInterval) :=
  live_in ← ComputeLiveness instrs gep_materialize bb;
  lis ← initial_intervals instrs;
  let instr_map := make_instr_map bb in
  lis ← foldM (walk_block instrs gep_materialize instr_map live_in) lis (with_ids bb);
  lis ← foldM (store_step instrs instr_map) lis (points bb);
  lis ← func_args instrs 0 0 0 instr_map lis;
  s ← foldM (call_step instrs instr_map) (MkCall lis 0 0) (points bb);
  Ok (call_intervals s).

Definition ComputeLiveIntervals (instrs : list Z) (gep_materialize : list bool)
    (bb : list BasicBlock) (loop_depth : list Z) : Res (list LiveInterval) :=
  lis ← live_ranges instrs gep_materialize bb;
  lis ← foldM (cost_step instrs gep_materialize loop_depth) lis (points bb);
  Ok (filter (fun l => Undef l = false) lis).

(** ** Lists of lists *)
Lemma mjoin_split {A} (l : list (list A)) b x : l !! b = Some x ->
  mjoin l = mjoin (take b l) ++ x ++ mjoin (drop (S b) l).
Proof.
  intros H. rewrite <- (take_drop_middle _ _ _ H) at 1. by rewrite join_app.
Qed.

Lemma mjoin_lookup {A} (l : list (list A)) b x k y : l !! b = Some x -> x !! k = Some y ->
  mjoin l !! (length (mjoin (take b l)) + k)%nat = Some y.
Proof.
  intros Hb Hk. rewrite (mjoin_split _ _ _ Hb), lookup_app_r by lia.
  rewrite Nat.add_comm, Nat.add_sub. rewrite lookup_app_l; [done|]. by apply lookup_lt_Some in Hk.
Qed.

Lemma mjoin_lookup_inv {A} (l : list (list A)) p y : mjoin l !! p = Some y ->
  exists b x k, l !! b = Some x /\ x !! k = Some y /\ p = (length (mjoin (take b l)) + k)%nat.
Proof.
  revert p. induction l as [|x l IH]; intros p H; cbn in H; [done|].
  destruct (decide (p < length x)%nat).
  - rewrite lookup_app_l in H by done. by exists O, x, p.
  - rewrite lookup_app_r in H by lia. destruct (IH _ H) as (b & x' & k & Hb & Hk & E).
    exists (S b), x', k. split_and!; [done..|].
    change (mjoin (take (S b) (x :: l))) with (x ++ mjoin (take b l)). rewrite length_app. lia.
Qed.

Lemma mjoin_Forall2 {A B} (P : A -> B -> Prop) l k :
  Forall2 (Forall2 P) l k -> Forall2 P (mjoin l) (mjoin k).
Proof. induction 1; cbn; [constructor|]. by apply List.Forall2_app. Qed.

(** ** Folding fallible steps *)
(** A loop succeeds and keeps an invariant that depends on how far it is. *)
Lemma foldM_inv {A S} (f : S -> A -> Res S) (Inv : nat -> S -> Prop) l s :
  (forall k a s, l !! k = Some a -> Inv k s -> exists s', f s a = Ok s' /\ Inv (Datatypes.S k) s') ->
  Inv O s -> exists s', foldM f s l = Ok s' /\ Inv (length l) s'.
Proof.
  revert Inv s. induction l as [|a l IH]; intros Inv s Hstep Hs; cbn; [by exists s|].
  destruct (Hstep O a s eq_refl Hs) as (s1 & -> & Hs1). cbn.
  apply (IH (fun k => Inv (Datatypes.S k))); [|done].
  intros k b s2 Hk. by apply (Hstep (Datatypes.S k)).
Qed.

(** ** The numbering *)
Definition point_key (p : Z * (Z * Z)) : Z * Z := (p.1, p.2.2).

Lemma number_points_other m t l k : k ∉ point_key <$> l ->
  (number_points m t l).1 !! k = m !! k.
Proof.
  revert m t. induction l as [|[b [ss i]] l IH]; intros m t Hk; cbn; [done|].
  rewrite fmap_cons, not_elem_of_cons in Hk. destruct Hk as [Hn Hk]. unfold number_points in IH.
  rewrite IH by done. by rewrite lookup_insert_ne.
Qed.

Lemma number_points_lookup m t l p x : NoDup (point_key <$> l) -> l !! p = Some x ->
  (number_points m t l).1 !! point_key x = Some (t + Z.of_nat p).
Proof.
  revert m t p. induction l as [|[b [ss i]] l IH]; intros m t p Hn Hp; [done|].
  rewrite fmap_cons in Hn. apply list.NoDup_cons in Hn as [Hb Hn].
  unfold number_points in *. cbn [foldl]. destruct p as [|p].
  - injection Hp as <-. pose proof (number_points_other (<[(b, i) := t]> m) (t + 1) l (b, i)) as H.
    unfold number_points in H. rewrite Z.add_0_r. change (point_key (b, (ss, i))) with (b, i). rewrite H by done.
    by rewrite lookup_insert_eq.
  - cbn in Hp. rewrite (IH _ _ p) by done. f_equal. lia.
Qed.

(** ** Hulls

    An interval that spans a set of positions and no more: undefined when the
    set is empty, from its least to its greatest element otherwise. *)
Definition hull (l : LiveInterval) (X : Z -> Prop) : Prop :=
  li_ok l /\ (forall p, X p -> covers l p) /\ (Undef l = false -> X (Start l) /\ X (End_ l)).

Lemma hull_ext l X Y : (forall p, X p <-> Y p) -> hull l X -> hull l Y.
Proof.
  intros H (H1 & H2 & H3). split; [done|]. split; [intros p ?%H; auto|]. intros Hu.
  destruct (H3 Hu). by rewrite <- !H.
Qed.

Lemma hull_extend l X x : hull l X -> 0 <= x -> hull (Extend l x) (fun p => X p \/ p = x).
Proof.
  intros (H1 & H2 & H3) Hx. split; [by apply Extend_ok|]. split.
  - intros p Hp. apply Extend_covers; [done..|]. destruct Hp as [?%H2| ->]; auto.
  - intros _. unfold Extend. cbn [Start End_]. unfold li_ok in H1.
    destruct (Undef l) eqn:E.
    + destruct H1 as [-> ->]. cbn. auto.
    + destruct (H3 eq_refl) as [Hs He]. split; case_match; auto.
Qed.

(** The intervals of the instructions, each the hull of its set of positions. *)
Record hulls (n : nat) (ts : list Z) (X : nat -> Z -> Prop) (lis : list LiveInterval) : Prop := {
  hs_len : length lis = n;
  hs_hull : forall i l, lis !! i = Some l -> hull l (X i) /\ li_register l = -1 /\
    li_value l = Z.of_nat i /\ ts !! i = Some (li_type l);
}.

Lemma hulls_ext n ts X Y lis : (forall i p, (i < n)%nat -> X i p <-> Y i p) ->
  hulls n ts X lis -> hulls n ts Y lis.
Proof.
  intros H [Hl Hh]. split; [done|]. intros i l Hi. pose proof (lookup_lt_Some _ _ _ Hi).
  destruct (Hh i l Hi) as (H1 & H2). split; [|done].
  eapply hull_ext, H1. intros p. apply H. lia.
Qed.

Lemma hulls_extend_one n ts X lis i x : hulls n ts X lis -> 0 <= i < Z.of_nat n -> 0 <= x ->
  exists lis', li_update (fun l => Extend l x) lis i = Ok lis' /\
    hulls n ts (fun j p => X j p \/ (Z.of_nat j = i /\ p = x)) lis'.
Proof.
  intros [Hl Hh] Hi Hx. unfold li_update.
  destruct (lookup_lt_is_Some_2 lis (Z.to_nat i)) as [l Hli]; [lia|].
  assert (vec_at lis i = Ok l) as -> by (apply vec_at_Ok; split; [lia|done]).
  cbn [mbind Res_bind]. erewrite vec_set_lookup by (done || lia). eexists. split; [done|].
  split; [by rewrite length_insert|]. intros j l' Hj.
  destruct (decide (j = Z.to_nat i)) as [->|Hn].
  - rewrite list_lookup_insert_eq in Hj by lia. injection Hj as <-.
    destruct (Hh _ _ Hli) as (H1 & H2). cbn. split; [|done].
    eapply hull_ext, hull_extend, Hx; [|exact H1]. intros p. cbn. intuition lia.
  - rewrite list_lookup_insert_ne in Hj by done. destruct (Hh _ _ Hj) as (H1 & H2).
    split; [|done]. eapply hull_ext, H1. intros p. split; [auto|]. intros [?|[? _]]; [done|lia].
Qed.

Definition idx_ok (n : nat) : Prop := Z.of_nat n <= 2 ^ 23.

Lemma GetIdx_id n v : idx_ok n -> 0 <= v < Z.of_nat n -> Value_GetIdx v = v.
Proof.
  unfold idx_ok, Value_GetIdx. intros Hn Hv. change 0x7FFFFF with (Z.ones 23).
  rewrite Z.land_ones by lia. apply Z.mod_small. lia.
Qed.

Lemma hulls_extend_all n ts X lis (live : gset Z) x : idx_ok n -> hulls n ts X lis ->
  (forall v, v ∈ live -> 0 <= v < Z.of_nat n) -> 0 <= x ->
  exists lis', extend_all x lis live = Ok lis' /\
    hulls n ts (fun j p => X j p \/ (Z.of_nat j ∈ live /\ p = x)) lis'.
Proof.
  intros Hn Hh Hlive Hx. unfold extend_all.
  destruct (foldM_inv (fun l v => li_update (fun li => Extend li x) l (Value_GetIdx v))
    (fun k => hulls n ts (fun j p => X j p \/ (Z.of_nat j ∈ take k (elements live) /\ p = x)))
    (elements live) lis) as (lis' & E & H').
  - intros k v s Hk Hs. assert (v ∈ live) as Hv.
    { apply elem_of_elements. by eapply list_elem_of_lookup_2. }
    rewrite (GetIdx_id n) by auto. destruct (hulls_extend_one _ _ _ _ v x Hs) as (s' & E & Hs'); auto.
    exists s'. split; [done|]. eapply hulls_ext, Hs'. intros j p _. cbn.
    rewrite (take_S_r _ _ _ Hk), elem_of_app, list_elem_of_singleton. tauto.
  - eapply hulls_ext, Hh. intros j p _. cbn. rewrite elem_of_nil. tauto.
  - exists lis'. split; [done|]. eapply hulls_ext, H'. intros j p _. cbn.
    by rewrite firstn_all, elem_of_elements.
Qed.

(** ** Liveness at an instruction

    [LiveFrom b k v]: [v] is live right before the [k]-th instruction of block
    [b] (right after the last one for [k] the length of the block). *)
Definition LiveFrom (succs : Z -> list Z) (evs : Z -> list event) (b : Z) (k : nat) (v : Z) : Prop :=
  exposed v (drop k (evs b)) \/
  (~ writes v (drop k (evs b)) /\ exists s, s ∈ succs b /\ LiveIn succs evs s v).

Lemma LiveFrom_0 succs evs b v : LiveFrom succs evs b 0 v <-> LiveIn succs evs b v.
Proof. unfold LiveFrom. rewrite drop_0. symmetry. apply LiveIn_unfold. Qed.

Lemma LiveFrom_end succs evs b k v : (length (evs b) <= k)%nat ->
  LiveFrom succs evs b k v <-> exists s, s ∈ succs b /\ LiveIn succs evs s v.
Proof.
  intros Hk. unfold LiveFrom. rewrite drop_ge by done. cbn. unfold writes. cbn.
  rewrite elem_of_nil. tauto.
Qed.

Lemma LiveFrom_step succs evs b k r w v : evs b !! k = Some (r, w) ->
  LiveFrom succs evs b k v <-> v ∈ r \/ (w <> Some v /\ LiveFrom succs evs b (S k) v).
Proof.
  intros Hk. unfold LiveFrom. rewrite (drop_S (A := event) (evs b) (r, w) k Hk). cbn [exposed].
  unfold writes. cbn. rewrite elem_of_cons.
  destruct (decide (w = Some v)) as [->|]; [|intuition congruence].
  intuition congruence.
Qed.

Section Code.
Context (instrs : list Z) (mat : list bool) (bbs : list BasicBlock) (E : list (list event)) (ts : list Z).
Context (Hedges : edges_ok bbs) (Hev : code_events instrs mat bbs E).
Local Abbreviation n := (length instrs).
Context (Hn : idx_ok n) (Hkeys : NoDup (point_key <$> points bbs)).
Context (Hreads : forall e v, e ∈ mjoin E -> v ∈ e.1 -> 0 <= v < Z.of_nat n).

Local Abbreviation evs := (events_at E).
Local Abbreviation live := (LiveFrom (succs bbs) evs).

(** The position of the first instruction of a block. *)
Definition base (b : nat) : nat := length (mjoin (take b E)).

Lemma exposed_read v l : exposed v l -> exists e, e ∈ l /\ v ∈ e.1.
Proof.
  induction l as [|[r w] l IH]; cbn; [done|]. intros [?|[_ H]].
  - exists (r, w). split; [by left|done].
  - destruct (IH H) as (e & ? & ?). exists e. split; [by right|done].
Qed.

Lemma events_at_elem b e : e ∈ evs b -> e ∈ mjoin E.
Proof.
  unfold events_at. destruct (E !! Z.to_nat b) as [l|] eqn:El; [|by intros ?%not_elem_of_nil].
  intros He. apply list_elem_of_join. exists l. split; [done|]. by eapply list_elem_of_lookup_2.
Qed.

Lemma LiveIn_read b v : LiveIn (succs bbs) evs b v -> exists e, e ∈ mjoin E /\ v ∈ e.1.
Proof.
  intros (bs & _ & (e & He & Hv)%exposed_read). exists e. split; [|done].
  apply elem_of_app in He as [He|He]; [by eapply events_at_elem|].
  apply list_elem_of_join in He as (l & Hl & (s & -> & _)%list_elem_of_fmap). by eapply events_at_elem.
Qed.

(** A live value is read somewhere. *)
Lemma live_read b k v : live b k v -> exists e, e ∈ mjoin E /\ v ∈ e.1.
Proof.
  intros [(e & He & Hv)%exposed_read|(_ & s & _ & H)]; [|by eapply LiveIn_read].
  exists e. split; [|done]. apply (events_at_elem b). rewrite <- (take_drop k). apply elem_of_app. by right.
Qed.

Lemma live_range b k v : live b k v -> 0 <= v < Z.of_nat n.
Proof. intros (e & He & Hv)%live_read. by apply (Hreads e). Qed.

(** Points and events have the same shape. *)
Definition block_points (b : nat) (blk : BasicBlock) : list (Z * (Z * Z)) :=
  (fun p => (Z.of_nat b, p)) <$> bb_instrs blk.

Lemma points_shape : Forall2 (Forall2 (fun p e => instr_event instrs mat p.2 = Ok e))
  (imap block_points bbs) E.
Proof.
  apply Forall2_lookup. intros b. rewrite list_lookup_imap.
  destruct (bbs !! b) as [blk|] eqn:Eb; cbn.
  - destruct (Forall2_lookup_l _ _ _ _ _ Hev Eb) as (ev & Eev & Hb). rewrite Eev. constructor.
    unfold block_points. apply Forall2_fmap_l. exact Hb.
  - assert (E !! b = None) as ->; [|constructor]. apply lookup_ge_None in Eb.
    apply lookup_ge_None. by rewrite <- (list.Forall2_length _ _ _ Hev).
Qed.

Lemma points_events : Forall2 (fun p e => instr_event instrs mat p.2 = Ok e) (points bbs) (mjoin E).
Proof. apply mjoin_Forall2, points_shape. Qed.

Lemma base_points b : length (mjoin (take b (imap block_points bbs))) = base b.
Proof.
  unfold base. eapply list.Forall2_length, mjoin_Forall2, Forall2_take, points_shape.
Qed.

(** The position of the [k]-th instruction of block [b]. *)
Lemma point_lookup b blk k p : bbs !! b = Some blk -> bb_instrs blk !! k = Some p ->
  points bbs !! (base b + k)%nat = Some (Z.of_nat b, p).
Proof.
  intros Hb Hk. rewrite <- base_points. apply (mjoin_lookup (imap block_points bbs) b (block_points b blk)).
  - by rewrite list_lookup_imap, Hb.
  - unfold block_points. by rewrite list_lookup_fmap, Hk.
Qed.

Lemma point_lookup_inv q x : points bbs !! q = Some x ->
  exists b blk k, bbs !! b = Some blk /\ bb_instrs blk !! k = Some x.2 /\
    x.1 = Z.of_nat b /\ q = (base b + k)%nat.
Proof.
  intros H. apply (mjoin_lookup_inv (imap block_points bbs)) in H as (b & l & k & Hb & Hk & ->).
  rewrite list_lookup_imap in Hb. destruct (bbs !! b) as [blk|] eqn:Eb; [|done].
  injection Hb as <-. unfold block_points in Hk. rewrite list_lookup_fmap in Hk.
  destruct (bb_instrs blk !! k) as [p|] eqn:Ek; [|done]. injection Hk as <-.
  exists b, blk, k. rewrite base_points. done.
Qed.

Lemma block_events b blk : bbs !! b = Some blk ->
  exists ev, E !! b = Some ev /\ evs (Z.of_nat b) = ev /\ events_of instrs mat blk ev.
Proof.
  intros Hb. destruct (Forall2_lookup_l _ _ _ _ _ Hev Hb) as (ev & Hl & Hok).
  exists ev. unfold events_at. by rewrite Nat2Z.id, Hl.
Qed.

Lemma event_lookup b blk k p : bbs !! b = Some blk -> bb_instrs blk !! k = Some p ->
  exists e, evs (Z.of_nat b) !! k = Some e /\ instr_event instrs mat p = Ok e /\
    mjoin E !! (base b + k)%nat = Some e.
Proof.
  intros Hb Hk. destruct (block_events _ _ Hb) as (ev & Hl & -> & Hok).
  destruct (Forall2_lookup_l _ _ _ _ _ Hok Hk) as (e & He & Hi). exists e. split_and!; try done.
  by apply (mjoin_lookup E b ev).
Qed.

Lemma map_at_point q x : points bbs !! q = Some x ->
  map_at (make_instr_map bbs) (point_key x) = Ok (Z.of_nat q).
Proof.
  intros H. unfold map_at, make_instr_map. by rewrite (number_points_lookup _ _ _ q).
Qed.

(** ** The walk over the blocks *)

(** [v] is live right before or right after the instruction at position [q]. *)
Definition live_point (v : Z) (q : Z) : Prop :=
  exists b blk k, bbs !! b = Some blk /\ (k < length (bb_instrs blk))%nat /\
    q = Z.of_nat (base b + k) /\ (live (Z.of_nat b) k v \/ live (Z.of_nat b) (S k) v).

(** The same, in the blocks before [m]. *)
Definition live_point_before (m : nat) (v : Z) (q : Z) : Prop :=
  exists b blk k, (b < m)%nat /\ bbs !! b = Some blk /\ (k < length (bb_instrs blk))%nat /\
    q = Z.of_nat (base b + k) /\ (live (Z.of_nat b) k v \/ live (Z.of_nat b) (S k) v).

Section Walk.
Context (live_in : list (gset Z)) (Hlen : length live_in = length bbs).
Context (Hlive : forall b v, in_range bbs b ->
  v ∈ set_at live_in b <-> LiveIn (succs bbs) evs b v).

Lemma walk_step_ok X lis cur b blk k ss i :
  bbs !! b = Some blk -> bb_instrs blk !! k = Some (ss, i) ->
  hulls n ts X lis -> (forall v, v ∈ cur <-> live (Z.of_nat b) (S k) v) ->
  exists lis' cur', walk_step instrs mat (make_instr_map bbs) (Z.of_nat b) (lis, cur) (ss, i)
      = Ok (lis', cur') /\
    hulls n ts (fun j p => X j p \/ (p = Z.of_nat (base b + k) /\
      (live (Z.of_nat b) k (Z.of_nat j) \/ live (Z.of_nat b) (S k) (Z.of_nat j)))) lis' /\
    (forall v, v ∈ cur' <-> live (Z.of_nat b) k v).
Proof.
  intros Hb Hk Hh Hcur. destruct (event_lookup _ _ _ _ Hb Hk) as ([r w] & He & Hi & _).
  apply instr_event_Ok in Hi as [Hr Hw]. cbn [fst snd] in Hr, Hw.
  unfold walk_step. pose proof (map_at_point _ _ (point_lookup _ _ _ _ Hb Hk)) as Hm.
  cbn in Hm. unfold point_key in Hm. cbn in Hm. rewrite Hm. cbn [mbind Res_bind].
  destruct (hulls_extend_all n ts X lis cur (Z.of_nat (base b + k)) Hn Hh) as (l1 & -> & H1);
    [intros v ?%Hcur; by eapply live_range|lia|].
  cbn [mbind Res_bind]. rewrite Hw. cbn [mbind Res_bind]. rewrite Hr. cbn [mbind Res_bind].
  set (cur' := list_to_set r ∪ match w with Some v => cur ∖ {[v]} | None => cur end : gset Z).
  assert (forall v, v ∈ cur' <-> live (Z.of_nat b) k v) as Hcur'.
  { intros v. rewrite (LiveFrom_step _ _ _ _ _ _ _ He), <- Hcur. unfold cur'.
    rewrite elem_of_union, elem_of_list_to_set. destruct w as [x|].
    - rewrite elem_of_difference, elem_of_singleton. intuition congruence.
    - intuition congruence. }
  destruct (hulls_extend_all n ts _ l1 cur' (Z.of_nat (base b + k)) Hn H1) as (l2 & -> & H2);
    [intros v ?%Hcur'; by eapply live_range|lia|].
  cbn [mbind Res_bind]. exists l2, cur'. split_and!; [done| |done].
  eapply hulls_ext, H2. intros j p _. cbn. rewrite Hcur, Hcur'. tauto.
Qed.

Lemma walk_block_ok X lis b blk :
  bbs !! b = Some blk -> hulls n ts X lis ->
  exists lis', walk_block instrs mat (make_instr_map bbs) live_in lis (Z.of_nat b, blk) = Ok lis' /\
    hulls n ts (fun j p => X j p \/ exists k, (k < length (bb_instrs blk))%nat /\
      p = Z.of_nat (base b + k) /\
      (live (Z.of_nat b) k (Z.of_nat j) \/ live (Z.of_nat b) (S k) (Z.of_nat j))) lis'.
Proof.
  intros Hb Hh. unfold walk_block.
  assert (in_range bbs (Z.of_nat b)) as Hbr.
  { apply lookup_lt_Some in Hb. unfold in_range, vec_size. lia. }
  assert (Successors blk = succs bbs (Z.of_nat b)) as Es.
  { destruct (block_at bbs _ Hbr) as (blk' & _ & Hb' & Es & _). rewrite Nat2Z.id in Hb'. congruence. }
  destruct (UnionLive_ok bbs live_in (Successors blk)) as (o & -> & Ho); [done| |].
  { intros s Hs. rewrite Es in Hs. by apply (succs_range _ Hedges) in Hs as [_ ?]. }
  cbn [mbind Res_bind]. set (m := length (bb_instrs blk)).
  destruct (block_events _ _ Hb) as (ev & _ & Eev & Hok).
  pose proof (list.Forall2_length _ _ _ Hok) as Hlev.
  destruct (foldM_inv (walk_step instrs mat (make_instr_map bbs) (Z.of_nat b))
    (fun t st => hulls n ts (fun j p => X j p \/ exists k, (m - t <= k < m)%nat /\
        p = Z.of_nat (base b + k) /\
        (live (Z.of_nat b) k (Z.of_nat j) \/ live (Z.of_nat b) (S k) (Z.of_nat j))) st.1 /\
      forall v, v ∈ st.2 <-> live (Z.of_nat b) (m - t) v)
    (rev (bb_instrs blk)) (lis, o)) as ([lis' cur'] & -> & Hl & Hc).
  - intros t [ss i] [l c] Ht [Hl Hc]. cbn [fst snd] in *.
    pose proof (lookup_lt_Some _ _ _ Ht) as Htl. rewrite length_rev in Htl. fold m in Htl.
    assert (bb_instrs blk !! (m - S t)%nat = Some (ss, i)) as Hk.
    { rewrite <- Ht, rev_alt. symmetry. by apply reverse_lookup. }
    replace (m - t)%nat with (S (m - S t)) in Hc by lia.
    destruct (walk_step_ok _ l c b blk _ ss i Hb Hk Hl Hc) as (l' & c' & E' & Hl' & Hc').
    exists (l', c'). split; [exact E'|]. cbn. split; [|done].
    eapply hulls_ext, Hl'. intros j p _. cbn. split.
    + intros [[?|(k & ? & ?)]|[? ?]]; [by left|right; exists k; split; [lia|done]|].
      right. exists (m - S t)%nat. split; [lia|done].
    + intros [?|(k & ? & ? & ?)]; [by left; left|].
      destruct (decide (k = m - S t)%nat) as [->|]; [by right|]. left. right. exists k.
      split; [lia|done].
  - cbn. split.
    + eapply hulls_ext, Hh. intros j p _. split; [by left|]. intros [?|(k & ? & _)]; [done|lia].
    + intros v. rewrite Ho, LiveFrom_end by (rewrite Eev; lia). rewrite Es.
      split; intros (s & Hs & Hv); exists s; (split; [done|]); apply Hlive in Hv || apply Hlive;
        try done; by apply (succs_range _ Hedges) in Hs as [_ ?].
  - cbn [fst snd] in *. rewrite length_rev in Hl, Hc. fold m in Hl, Hc. cbn [mbind Res_bind].
    rewrite (vec_at_set bbs) by done. cbn [mbind Res_bind].
    rewrite decide_True.
    + exists lis'. split; [done|]. eapply hulls_ext, Hl. intros j p _. cbn. split.
      * intros [?|(k & ? & ?)]; [by left|]. right. exists k. split; [lia|done].
      * intros [?|(k & ? & ?)]; [by left|]. right. exists k. split; [lia|done].
    + apply set_eq. intros v. rewrite Hc, Nat.sub_diag, LiveFrom_0. symmetry. by apply Hlive.
Qed.

Lemma walk_all X lis : hulls n ts X lis ->
  exists lis', foldM (walk_block instrs mat (make_instr_map bbs) live_in) lis (with_ids bbs) = Ok lis' /\
    hulls n ts (fun j p => X j p \/ live_point (Z.of_nat j) p) lis'.
Proof.
  intros Hh. destruct (foldM_inv (walk_block instrs mat (make_instr_map bbs) live_in)
    (fun m => hulls n ts (fun j p => X j p \/ live_point_before m (Z.of_nat j) p))
    (with_ids bbs) lis) as (lis' & -> & H').
  - intros b x s Hx Hs. unfold with_ids in Hx. rewrite list_lookup_imap in Hx.
    destruct (bbs !! b) as [blk|] eqn:Hb; [|done]. injection Hx as <-.
    destruct (walk_block_ok _ _ _ _ Hb Hs) as (s' & E' & Hs'). exists s'. split; [done|].
    eapply hulls_ext, Hs'. intros j p _. cbn. split.
    + intros [[?|(b' & blk' & k & ? & ?)]|(k & ? & ? & ?)]; [by left| |].
      * right. exists b', blk', k. split; [lia|done].
      * right. exists b, blk, k. split; [lia|done].
    + intros [?|(b' & blk' & k & Hlt & Hb' & ? & ? & ?)]; [by left; left|].
      destruct (decide (b' = b)) as [->|].
      * right. exists k. rewrite Hb in Hb'. injection Hb' as <-. done.
      * left. right. exists b', blk', k. split; [lia|done].
  - eapply hulls_ext, Hh. intros j p _. split; [by left|]. intros [?|(? & ? & ? & ? & _)]; [done|lia].
  - exists lis'. split; [done|]. eapply hulls_ext, H'. intros j p _. cbn.
    unfold with_ids. rewrite length_imap. split; (intros [?|H]; [by left|right]).
    + destruct H as (b & blk & k & _ & H). by exists b, blk, k.
    + destruct H as (b & blk & k & Hb & H). exists b, blk, k. split; [by apply lookup_lt_Some in Hb|done].
Qed.
End Walk.

(** ** Before the walk, and after the stores *)
Context (Hts : Forall2 (fun w t => TypeOfValue w = Ok t) instrs ts).

Definition op_at (i : Z) : option Opcode := w ← instrs !! Z.to_nat i; opcode_of w.

Lemma initial_ok : exists lis, initial_intervals instrs = Ok lis /\ hulls n ts (fun _ _ => False) lis.
Proof.
  unfold initial_intervals.
  destruct (foldM_inv (fun lis '(i, w) => t ← TypeOfValue w; Ok (lis ++ [LiveInterval_value i t]))
    (fun k lis => hulls k ts (fun _ _ => False) lis)
    (imap (fun i w => (Z.of_nat i, w)) instrs) []) as (lis & -> & H).
  - intros k [i w] s Hk [Hl Hh]. rewrite list_lookup_imap in Hk.
    destruct (instrs !! k) as [w'|] eqn:Ew; [|done]. injection Hk as <- <-.
    destruct (Forall2_lookup_l _ _ _ _ _ Hts Ew) as (t & Et & ->). cbn [mbind Res_bind].
    eexists. split; [done|]. split; [rewrite length_app; cbn; lia|].
    intros j l [Hj|[Hge Hj]]%lookup_app_Some; [by apply Hh|].
    apply list_lookup_singleton_Some in Hj as [Hjk <-]. assert (j = k) as -> by lia.
    by split_and!.
  - by split.
  - rewrite length_imap in H. by exists lis.
Qed.

Lemma point_instr q b ss i : points bbs !! q = Some (b, (ss, i)) ->
  exists w, vec_at instrs i = Ok w /\ instrs !! Z.to_nat i = Some w /\ 0 <= i < Z.of_nat n.
Proof.
  intros Hq. destruct (Forall2_lookup_l _ _ _ _ _ points_events Hq) as ([r w] & _ & He).
  apply instr_event_Ok in He as [_ Hw]. unfold GetWrittenValue in Hw. cbn in Hw.
  apply bind_Ok in Hw as (x & Hx & _). exists x. split; [done|].
  apply vec_at_Ok in Hx as [? Hx]. split; [done|]. apply lookup_lt_Some in Hx. lia.
Qed.

Definition store_point (i : Z) (p : Z) : Prop :=
  exists q b ss, points bbs !! q = Some (b, (ss, i)) /\ p = Z.of_nat q /\
    is_any_store (op_at i) = true.

Lemma store_all X lis : hulls n ts X lis ->
  exists lis', foldM (store_step instrs (make_instr_map bbs)) lis (points bbs) = Ok lis' /\
    hulls n ts (fun j p => X j p \/ store_point (Z.of_nat j) p) lis'.
Proof.
  intros Hh. destruct (foldM_inv (store_step instrs (make_instr_map bbs))
    (fun m => hulls n ts (fun j p => X j p \/ (store_point (Z.of_nat j) p /\ p < Z.of_nat m)))
    (points bbs) lis) as (lis' & -> & H').
  - intros q [b [ss i]] s Hq Hs. destruct (point_instr _ _ _ _ Hq) as (w & Hw & Hw' & Hi).
    unfold store_step. rewrite Hw. cbn [mbind Res_bind].
    assert (op_at i = opcode_of w) as Eop by (unfold op_at; by rewrite Hw').
    assert (forall j p, store_point j p /\ p < Z.of_nat (S q) <->
      (store_point j p /\ p < Z.of_nat q) \/ (j = i /\ p = Z.of_nat q /\ is_any_store (op_at i) = true))
      as Hsp.
    { intros j p. split.
      - intros [Hsp Hlt]. destruct (decide (p = Z.of_nat q)) as [->|]; [|left; split; [done|lia]].
        right. destruct Hsp as (q' & b' & ss' & Hq' & Eq & Hst). assert (q' = q) as -> by lia.
        rewrite Hq in Hq'. simplify_eq. done.
      - intros [[? ?]|(-> & -> & ?)]; [split; [done|lia]|]. split; [|lia]. exists q, b, ss. done. }
    destruct (is_any_store (opcode_of w)) eqn:Est.
    + pose proof (map_at_point _ _ Hq) as Hm. unfold point_key in Hm. cbn in Hm. rewrite Hm.
      cbn [mbind Res_bind].
      destruct (hulls_extend_one _ _ _ _ i (Z.of_nat q) Hs) as (s' & E' & Hs'); [lia..|].
      exists s'. split; [done|]. eapply hulls_ext, Hs'. intros j p _. cbn. rewrite Hsp, Eop. tauto.
    + exists s. split; [done|]. eapply hulls_ext, Hs. intros j p _. rewrite Hsp, Eop.
      intuition congruence.
  - eapply hulls_ext, Hh. intros j p _. split; [by left|]. intros [?|[(q & ? & ? & _ & -> & _) ?]]; [done|lia].
  - exists lis'. split; [done|]. eapply hulls_ext, H'. intros j p _. cbn.
    split; (intros [?|Hx]; [by left|right]); [by destruct Hx|]. split; [done|].
    destruct Hx as (q & b & ss & Hq & -> & _). apply lookup_lt_Some in Hq. lia.
Qed.

(** The positions the interval of an instruction spans. *)
Definition span (j : nat) (p : Z) : Prop := live_point (Z.of_nat j) p \/ store_point (Z.of_nat j) p.

Lemma ranges_ok : exists live_in lis0 lis,
  ComputeLiveness instrs mat bbs = Ok live_in /\ initial_intervals instrs = Ok lis0 /\
  (lis1 ← foldM (walk_block instrs mat (make_instr_map bbs) live_in) lis0 (with_ids bbs);
   foldM (store_step instrs (make_instr_map bbs)) lis1 (points bbs)) = Ok lis /\
  hulls n ts span lis.
Proof.
  destruct (ComputeLiveness_ok _ _ _ _ Hedges Hev) as (live_in & E1 & Hl & Hlive).
  destruct initial_ok as (lis0 & E2 & H0).
  destruct (walk_all live_in Hl Hlive _ _ H0) as (lis1 & E3 & H1).
  destruct (store_all _ _ H1) as (lis & E4 & H2).
  exists live_in, lis0, lis. split_and!; try done; [by rewrite E3|].
  eapply hulls_ext, H2. intros j p _. unfold span. tauto.
Qed.

End Code.
