(* ===== verification/RegAlloc.v ===== *)
(** * Register allocation of a function

    [LinearScanRegisterAlloc] of src/khir/asm/linear_scan_reg_alloc.cc: the live
    intervals of LiveIntervals handed to the scan of LinearScan.  This file shows
    that the intervals the one computes are those the other needs, so that values
    that are live together never share a register. *)
From stdpp Require Import sorting.
From S2P Require Import Prelude Opcode Instruction ProgramBuilder CfgSimplify CfgOutput LiveInterval LinearScan Operands Liveness LiveIntervals.

Definition LinearScanRegisterAlloc (pick : gset Z -> Z)
    (sort : list LiveInterval -> list LiveInterval) (instrs : list Z)
    (materialize_gep : list bool) (bb : list BasicBlock) (loop_depth : list Z)
    : Res (list Z) :=
  live_intervals ← ComputeLiveIntervals instrs materialize_gep bb loop_depth;
  LinearScan pick sort instrs live_intervals.

(** ** What the code of a function must look like *)
Definition is_call (o : option Opcode) : bool :=
  match o with Some (CALL | CALL_INDIRECT) => true | _ => false end.

Definition is_cmp (o : option Opcode) : bool :=
  match o with Some op => is_int_cmp op || is_float_cmp op | None => false end.

(** The instruction at a position. *)
Definition instr_at (bbs : list BasicBlock) (q : nat) : option Z :=
  (fun p : Z * (Z * Z) => p.2.2) <$> points bbs !! q.
Definition pos_opcode (instrs : list Z) (bbs : list BasicBlock) (q : nat) : option Opcode :=
  i ← instr_at bbs q; op_at instrs i.

(** The leading [FUNC_ARG] instructions. *)
Fixpoint leading_args (l : list Z) : list Z :=
  match l with
  | [] => []
  | w :: l => if decide (opcode_of w = Some FUNC_ARG) then w :: leading_args l else []
  end.
Definition is_fp_arg (w : Z) : bool := Type3_TypeID w =? F64Type.
Definition fp_count (l : list Z) : nat := length (filter (fun w => is_fp_arg w = true) l).
Definition normal_count (l : list Z) : nat := length (filter (fun w => is_fp_arg w = false) l).

Record code_ok (instrs : list Z) (mat : list bool) (bbs : list BasicBlock)
    (E : list (list event)) (ts : list Z) : Prop := {
  ck_edges : edges_ok bbs;
  ck_events : code_events instrs mat bbs E;
  ck_types : Forall2 (fun w t => TypeOfValue w = Ok t) instrs ts;
  ck_size : idx_ok (length instrs);
  (* an instruction belongs to one block *)
  ck_points : NoDup ((fun p : Z * (Z * Z) => p.2.2) <$> points bbs);
  (* operands are instructions, stores are not *)
  ck_reads : forall e v, e ∈ mjoin E -> v ∈ e.1 ->
    0 <= v < vec_size instrs /\ is_any_store (op_at instrs v) = false;
  ck_writes : forall e v, e ∈ mjoin E -> e.2 = Some v -> 0 <= v < vec_size instrs;
  (* the arguments of a call come right before it, and only the call reads them *)
  ck_args : forall q, pos_opcode instrs bbs q = Some CALL_ARG ->
    pos_opcode instrs bbs (S q) = Some CALL_ARG \/ is_call (pos_opcode instrs bbs (S q)) = true;
  ck_read_arg : forall q b ss i e v, points bbs !! q = Some (b, (ss, i)) ->
    mjoin E !! q = Some e -> v ∈ e.1 -> op_at instrs v = Some CALL_ARG ->
    is_call (pos_opcode instrs bbs q) = true /\
    exists p ss', (p < q)%nat /\ points bbs !! p = Some (b, (ss', v)) /\
      forall r, (p <= r < q)%nat -> pos_opcode instrs bbs r = Some CALL_ARG;
  ck_call_reads : forall p q v e, (p < q)%nat -> instr_at bbs p = Some v ->
    (forall r, (p <= r < q)%nat -> pos_opcode instrs bbs r = Some CALL_ARG) ->
    is_call (pos_opcode instrs bbs q) = true -> mjoin E !! q = Some e -> v ∈ e.1;
  (* the parameters come first in the first block, and fit the registers *)
  ck_params : forall j, (j < length (leading_args instrs))%nat ->
    exists ss, points bbs !! j = Some (0, (ss, Z.of_nat j));
  ck_fp : (fp_count (leading_args instrs) <= 8)%nat;
  ck_normal : (normal_count (leading_args instrs) <= 6)%nat;
  (* a compare is not the last instruction *)
  ck_cmp : forall i, 0 <= i -> is_cmp (op_at instrs i) = true -> i + 1 < vec_size instrs;
}.

(** ** Labels

    Every interval has a label that says where it comes from: the value of an
    instruction, a parameter, or a register that the call at a position
    destroys. *)
Inductive label :=
| LValue (i : nat)
| LParam (j : nat)
| LClobber (q : nat) (r : Z).

Section Fixed.
Context (instrs : list Z) (mat : list bool) (bbs : list BasicBlock).
Context (E : list (list event)) (ts : list Z) (Hck : code_ok instrs mat bbs E ts).
Local Abbreviation n := (length instrs).
Local Abbreviation pop := (pos_opcode instrs bbs).
Local Abbreviation span := (span instrs bbs E).
Local Abbreviation instr_map := (make_instr_map bbs).

(** The number of call arguments right before a position. *)
Fixpoint run (q : nat) : nat :=
  match q with
  | O => O
  | S q => if decide (pop q = Some CALL_ARG) then S (run q) else O
  end.

(** The register of a parameter. *)
Definition param_reg (j : nat) : option Z :=
  w ← instrs !! j;
  if is_fp_arg w then fp_arg_reg !! fp_count (take j instrs)
  else normal_arg_reg !! normal_count (take j instrs).

(** The registers a call destroys besides those of its arguments. *)
Definition clobbered (q : nat) : list Z :=
  drop (run q) normal_arg_reg ++ fp_arg_reg ++ normal_caller_save ++ fp_caller_save.

(** What is known of a labelled interval once the calls at the positions below
    [m] are handled. *)
Definition facts (m : nat) (lab : label) (l : LiveInterval) : Prop :=
  match lab with
  | LValue i => hull l (span i) /\
      ((exists p, (p < m)%nat /\ instr_at bbs p = Some (Z.of_nat i) /\
          pop p = Some CALL_ARG /\ normal_arg_reg !! run p = Some (li_register l)) \/
       (li_register l = -1 /\ li_value l = Z.of_nat i /\ ts !! i = Some (li_type l) /\
        forall p, (p < m)%nat -> instr_at bbs p = Some (Z.of_nat i) -> pop p = Some CALL_ARG ->
          normal_arg_reg !! run p = None))
  | LParam j => Undef l = false /\ Start l = 0 /\ End_ l = Z.of_nat j /\
      (j < length (leading_args instrs))%nat /\ param_reg j = Some (li_register l)
  | LClobber q r => Undef l = false /\ Start l = Z.of_nat q /\ End_ l = Z.of_nat q /\
      is_call (pop q) = true /\ li_register l = r /\ r ∈ clobbered q
  end.

Lemma keys_nodup : NoDup (point_key <$> points bbs).
Proof.
  apply (NoDup_fmap_1 snd). rewrite <- list_fmap_compose. exact (ck_points _ _ _ _ _ Hck).
Qed.

Lemma map_at_pos q x : points bbs !! q = Some x -> map_at instr_map (point_key x) = Ok (Z.of_nat q).
Proof. apply map_at_point, keys_nodup. Qed.

Lemma pop_point q b ss i : points bbs !! q = Some (b, (ss, i)) -> pop q = op_at instrs i.
Proof. intros H. unfold pos_opcode, instr_at. by rewrite H. Qed.

Lemma instr_at_inj p q i : instr_at bbs p = Some i -> instr_at bbs q = Some i -> p = q.
Proof.
  intros Hp Hq. eapply (NoDup_lookup _ _ _ i (ck_points _ _ _ _ _ Hck)); by rewrite list_lookup_fmap.
Qed.

(** ** Parameters *)
Lemma leading_args_app pre l : Forall (fun w => opcode_of w = Some FUNC_ARG) pre ->
  leading_args (pre ++ l) = pre ++ leading_args l.
Proof. induction 1; cbn; [done|]. rewrite decide_True by done. by f_equal. Qed.

Lemma counts_app w pre : 
  fp_count (pre ++ [w]) = (fp_count pre + if is_fp_arg w then 1 else 0)%nat /\
  normal_count (pre ++ [w]) = (normal_count pre + if is_fp_arg w then 0 else 1)%nat.
Proof.
  unfold fp_count, normal_count. rewrite !list.filter_app, !length_app, !filter_cons, !filter_nil.
  destruct (is_fp_arg w); repeat case_decide; cbn; (done || (split; lia)).
Qed.

Lemma count_app_le pre l :
  (fp_count pre <= fp_count (pre ++ l))%nat /\ (normal_count pre <= normal_count (pre ++ l))%nat.
Proof. unfold fp_count, normal_count. rewrite !list.filter_app, !length_app. lia. Qed.

Lemma Extend_param reg j : 0 <= j ->
  let l := Extend (Extend (LiveInterval_reg reg) 0) j in
  Undef l = false /\ Start l = 0 /\ End_ l = j /\ li_register l = reg.
Proof.
  intros Hj. cbn. destruct (Z.ltb_spec j 0); [lia|]. destruct (Z.ltb_spec 0 j); split_and!; try done; lia.
Qed.

Lemma func_args_ok m l pre lis :
  instrs = pre ++ l -> Forall (fun w => opcode_of w = Some FUNC_ARG) pre ->
  exists FA, func_args l (Z.of_nat (length pre)) (Z.of_nat (normal_count pre))
      (Z.of_nat (fp_count pre)) instr_map lis = Ok (lis ++ FA) /\
    Forall2 (facts m) (LParam <$> seq (length pre) (length (leading_args l))) FA.
Proof.
  revert pre lis. induction l as [|w l IH]; intros pre lis Hi Hpre; cbn [func_args leading_args].
  { exists []. rewrite app_nil_r. split; [done|constructor]. }
  case_decide as Hw; [|exists []; rewrite app_nil_r; split; [done|constructor]].
  pose proof (leading_args_app pre (w :: l) Hpre) as Hlead. rewrite <- Hi in Hlead.
  cbn [leading_args] in Hlead. rewrite decide_True in Hlead by done.
  assert (length pre < length (leading_args instrs))%nat as Hlt.
  { rewrite Hlead, length_app. cbn. lia. }
  pose proof (ck_fp _ _ _ _ _ Hck) as Hfp. pose proof (ck_normal _ _ _ _ _ Hck) as Hno.
  rewrite Hlead in Hfp, Hno. change (w :: leading_args l) with ([w] ++ leading_args l) in Hfp, Hno.
  rewrite (assoc_L (++)) in Hfp, Hno.
  destruct (count_app_le (pre ++ [w]) (leading_args l)) as [Hle1 Hle2].
  destruct (counts_app w pre) as [C1 C2].
  assert (instrs !! length pre = Some w) as Hlook.
  { rewrite Hi. by apply list_lookup_middle. }
  assert (take (length pre) instrs = pre) as Htake by (rewrite Hi; apply take_app_length).
  assert (exists reg, (if Type3_TypeID w =? F64Type then vec_at fp_arg_reg (Z.of_nat (fp_count pre))
    else vec_at normal_arg_reg (Z.of_nat (normal_count pre))) = Ok reg /\
    param_reg (length pre) = Some reg) as (reg & Hreg & Hp).
  { unfold param_reg. rewrite Hlook. cbn. rewrite Htake. unfold is_fp_arg in *.
    destruct (Type3_TypeID w =? F64Type).
    - destruct (lookup_lt_is_Some_2 fp_arg_reg (fp_count pre)) as [r Hr]; [cbn; lia|].
      exists r. split; [by apply vec_at_nat|done].
    - destruct (lookup_lt_is_Some_2 normal_arg_reg (normal_count pre)) as [r Hr]; [cbn; lia|].
      exists r. split; [by apply vec_at_nat|done]. }
  rewrite Hreg. cbn [mbind Res_bind].
  destruct (ck_params _ _ _ _ _ Hck 0) as [ss0 H0]; [lia|].
  destruct (ck_params _ _ _ _ _ Hck (length pre) Hlt) as [ssj Hj].
  pose proof (map_at_pos _ _ H0) as M0. pose proof (map_at_pos _ _ Hj) as Mj.
  unfold point_key in M0, Mj. cbn [fst snd] in M0, Mj. change (Z.of_nat 0) with 0 in M0.
  rewrite M0. cbn [mbind Res_bind]. rewrite Mj. cbn [mbind Res_bind].
  destruct (IH (pre ++ [w])
    (lis ++ [Extend (Extend (LiveInterval_reg reg) 0) (Z.of_nat (length pre))])) as (FA & EF & HF).
  { by rewrite <- (assoc_L (++)). }
  { by apply List.Forall_app; split; [|constructor]. }
  rewrite C1, C2, !length_app in EF. cbn [length] in EF. unfold is_fp_arg in EF.
  exists (Extend (Extend (LiveInterval_reg reg) 0) (Z.of_nat (length pre)) :: FA). split.
  - rewrite <- (assoc_L (++)) in EF. cbn [app] in EF. rewrite <- EF.
    replace (Z.of_nat (length pre + 1)) with (Z.of_nat (length pre) + 1) by lia.
    f_equal; destruct (Type3_TypeID w =? F64Type); lia.
  - cbn [length seq fmap list_fmap]. constructor.
    + destruct (Extend_param reg (Z.of_nat (length pre))) as (? & ? & ? & ?); [lia|].
      cbn [facts]. by split_and!; try congruence.
    + rewrite length_app, Nat.add_1_r in HF. exact HF.
Qed.

(** ** Calls *)
Lemma facts_next m lab l :
  (forall i, lab = LValue i -> instr_at bbs m = Some (Z.of_nat i) -> pop m = Some CALL_ARG ->
    normal_arg_reg !! run m = None) ->
  facts m lab l -> facts (S m) lab l.
Proof.
  intros Hm. destruct lab as [i|j|q r]; cbn; [|done..].
  intros [Hh [(p & ? & H)|(H1 & H2 & H3 & H4)]]; (split; [done|]).
  - left. exists p. split; [lia|done].
  - right. split_and!; try done. intros p Hp Hi Hop.
    destruct (decide (p = m)) as [->|]; [by apply (Hm i)|]. apply H4; [lia|done..].
Qed.

(** The labels after the calls below [m]. *)
Definition labels (m : nat) : list label :=
  (LValue <$> seq 0 n) ++ (LParam <$> seq 0 (length (leading_args instrs))) ++
  mjoin ((fun q => if is_call (pop q) then LClobber q <$> clobbered q else []) <$> seq 0 m).

Lemma labels_S m : labels (S m) =
  labels m ++ (if is_call (pop m) then LClobber m <$> clobbered m else []).
Proof.
  unfold labels. rewrite seq_S, fmap_app, join_app. cbn. by rewrite app_nil_r, !(assoc_L (++)).
Qed.

Lemma normal_arg_reg_nodup : NoDup normal_arg_reg.
Proof. by apply (bool_decide_unpack (NoDup normal_arg_reg)); vm_compute. Qed.
Lemma fp_arg_reg_nodup : NoDup fp_arg_reg.
Proof. by apply (bool_decide_unpack (NoDup fp_arg_reg)); vm_compute. Qed.

(** The registers that calls may destroy. *)
Definition caller_saved : list Z :=
  normal_arg_reg ++ fp_arg_reg ++ normal_caller_save ++ fp_caller_save.
Lemma caller_saved_nodup : NoDup caller_saved.
Proof. by apply (bool_decide_unpack (NoDup caller_saved)); vm_compute. Qed.

Lemma normal_arg_other r : r ∈ normal_arg_reg ->
  ~ r ∈ fp_arg_reg ++ normal_caller_save ++ fp_caller_save.
Proof.
  intros Hr. pose proof caller_saved_nodup as H. unfold caller_saved in H.
  apply list.NoDup_app in H as (_ & H & _). by apply H.
Qed.

Lemma clobbered_nodup q : NoDup (clobbered q).
Proof.
  eapply sublist_NoDup; [apply caller_saved_nodup|]. unfold clobbered, caller_saved.
  apply sublist_app; [apply sublist_drop|done].
Qed.

#[local] Instance LValue_inj : Inj (=) (=) LValue.
Proof. by intros ?? [= ->]. Qed.
#[local] Instance LParam_inj : Inj (=) (=) LParam.
Proof. by intros ?? [= ->]. Qed.
#[local] Instance LClobber_inj q : Inj (=) (=) (LClobber q).
Proof. by intros ?? [= ->]. Qed.

Lemma labels_nodup m : NoDup (labels m).
Proof.
  induction m as [|m IH].
  - unfold labels. cbn [seq fmap list_fmap]. rewrite app_nil_r. apply list.NoDup_app. split_and!.
    + apply (NoDup_fmap_2 LValue), NoDup_seq.
    + intros x (i & -> & _)%list_elem_of_fmap (j & [=] & _)%list_elem_of_fmap.
    + apply (NoDup_fmap_2 LParam), NoDup_seq.
  - rewrite labels_S. apply list.NoDup_app. split; [done|]. destruct (is_call (pop m)); [|split].
    + split; [|apply (NoDup_fmap_2 (LClobber m)), clobbered_nodup].
      intros x Hx (r & -> & _)%list_elem_of_fmap. unfold labels in Hx. rewrite !elem_of_app in Hx.
      destruct Hx as [(i & [=] & _)%list_elem_of_fmap|[(i & [=] & _)%list_elem_of_fmap|Hx]].
      apply list_elem_of_join in Hx as (l & Hl & (q & -> & Hq)%list_elem_of_fmap).
      destruct (is_call (pop q)); [|by apply not_elem_of_nil in Hl].
      apply list_elem_of_fmap in Hl as (r' & [= <- <-] & _). apply elem_of_seq in Hq. lia.
    + intros x _. apply not_elem_of_nil.
    + constructor.
Qed.

Lemma hull_precolor l X reg : hull l X -> hull (ChangeToPrecolored l reg) X.
Proof. by intros (? & ? & ?). Qed.

Lemma clobber_facts m q : is_call (pop q) = true ->
  Forall2 (facts m) (LClobber q <$> clobbered q)
    ((fun reg => Extend (LiveInterval_reg reg) (Z.of_nat q)) <$> clobbered q).
Proof.
  intros Hq. apply Forall2_fmap_l, Forall2_fmap_r. apply list.Forall_Forall2_diag, list.Forall_forall.
  intros r Hr. cbn. by split_and!.
Qed.

Definition call_inv (m : nat) (s : CallState) : Prop :=
  Forall2 (facts m) (labels m) (call_intervals s) /\
  call_normal_ctr s = Z.of_nat (run m) /\ call_fp_ctr s = 0.

Lemma labels_value q i : (i < n)%nat -> labels q !! i = Some (LValue i).
Proof.
  intros Hi. unfold labels. rewrite lookup_app_l by (by rewrite length_fmap, length_seq).
  by rewrite list_lookup_fmap, lookup_seq_lt.
Qed.

Lemma update_value q i lis reg :
  Forall2 (facts q) (labels q) lis -> (i < n)%nat ->
  instr_at bbs q = Some (Z.of_nat i) -> pop q = Some CALL_ARG ->
  normal_arg_reg !! run q = Some reg ->
  exists lis', li_update (fun l => ChangeToPrecolored l reg) lis (Z.of_nat i) = Ok lis' /\
    Forall2 (facts (S q)) (labels q) lis'.
Proof.
  intros Hl Hi Hat Hop Hreg. pose proof (labels_value q i Hi) as Hlab.
  destruct (Forall2_lookup_l _ _ _ _ _ Hl Hlab) as (l & Hli & [Hh _]).
  unfold li_update. rewrite (vec_at_nat _ _ _ Hli). cbn [mbind Res_bind].
  erewrite vec_set_lookup by (rewrite ?Nat2Z.id; done || lia). rewrite Nat2Z.id.
  eexists. split; [done|]. apply Forall2_same_length_lookup.
  split; [rewrite length_insert; by eapply list.Forall2_length|].
  intros k lab l' Hk Hl'. destruct (decide (k = i)) as [->|Hne].
  - rewrite Hlab in Hk. injection Hk as <-.
    rewrite list_lookup_insert_eq in Hl' by (by eapply lookup_lt_Some). injection Hl' as <-.
    cbn. split; [by apply hull_precolor|]. left. exists q. split; [lia|done].
  - rewrite list_lookup_insert_ne in Hl' by done.
    destruct (Forall2_lookup_l _ _ _ _ _ Hl Hk) as (l2 & Hl2 & Hf). simplify_eq.
    apply facts_next; [|done]. intros i' -> Hat' _. exfalso. apply Hne.
    assert (i' = i) as -> by (apply Nat2Z.inj; congruence).
    by eapply (NoDup_lookup _ _ _ _ (labels_nodup q)).
Qed.

Lemma call_step_ok q x s : points bbs !! q = Some x -> call_inv q s ->
  exists s', call_step instrs instr_map s x = Ok s' /\ call_inv (S q) s'.
Proof.
  intros Hq (Hl & Hn & Hf). destruct x as [b [ss i]]. destruct s as [lis nctr fctr]. cbn in Hl, Hn, Hf.
  subst nctr fctr. unfold call_step.
  destruct (point_instr _ _ _ _ (ck_events _ _ _ _ _ Hck) _ _ _ _ Hq) as (w & -> & Hw & Hi).
  cbn [mbind Res_bind].
  destruct (Forall2_lookup_l _ _ _ _ _ (ck_types _ _ _ _ _ Hck) Hw) as (t & _ & Ht). rewrite Ht.
  cbn [mbind Res_bind].
  assert (pop q = opcode_of w) as Hpop.
  { rewrite (pop_point _ _ _ _ Hq). unfold op_at. by rewrite Hw. }
  assert (instr_at bbs q = Some i) as Hat by (unfold instr_at; by rewrite Hq).
  assert ((pop q = Some CALL_ARG -> normal_arg_reg !! run q = None) ->
    Forall2 (facts (S q)) (labels q) lis) as Hl'.
  { intros H. eapply list.Forall2_impl; [exact Hl|]. intros lab l'. apply facts_next. auto. }
  assert (run (S q) = if decide (pop q = Some CALL_ARG) then S (run q) else O) as Hrun by done.
  assert (pop q <> Some CALL_ARG -> is_call (pop q) = false -> run q = O) as Hother.
  { intros H1 H2. destruct q as [|q']; [done|]. cbn [run]. destruct (decide (pop q' = Some CALL_ARG)) as [Hc|]; [|done].
    destruct (ck_args _ _ _ _ _ Hck _ Hc); congruence. }
  destruct (decide (pop q = Some CALL_ARG)) as [Hc|Hc].
  - rewrite <- Hpop, Hc. unfold TypeOfValue in Ht. rewrite <- Hpop, Hc in Ht. injection Ht as <-.
    cbn [Z.eqb VoidType F64Type].
    assert (is_call (pop q) = false) as Hnc by (by rewrite Hc).
    destruct (Z.leb_spec (vec_size normal_arg_reg) (Z.of_nat (run q))) as [Hge|Hlt].
    + eexists. split; [done|]. split; cbn [call_intervals].
      * rewrite labels_S, Hnc, app_nil_r. apply Hl'. intros _. apply lookup_ge_None.
        unfold vec_size in Hge. lia.
      * cbn. rewrite decide_True by done. split; [lia|done].
    + destruct (lookup_lt_is_Some_2 normal_arg_reg (run q)) as [reg Hreg].
      { unfold vec_size in Hlt. lia. }
      rewrite (vec_at_nat _ _ _ Hreg). cbn [mbind Res_bind].
      destruct (update_value q (Z.to_nat i) lis reg) as (lis' & Hu & Hl2); try done; try lia.
      { rewrite Z2Nat.id by lia. done. }
      rewrite Z2Nat.id in Hu by lia. rewrite Hu. cbn [mbind Res_bind]. eexists. split; [done|].
      split; cbn; [by rewrite labels_S, Hnc, app_nil_r|]. rewrite decide_True by done. split; [lia|done].
  - destruct (is_call (pop q)) eqn:Hcall.
    + pose proof (map_at_pos _ _ Hq) as Hm. unfold point_key in Hm. cbn [fst snd] in Hm.
      exists (MkCall (lis ++ ((fun reg => Extend (LiveInterval_reg reg) (Z.of_nat q)) <$> clobbered q)) 0 0).
      split.
      * rewrite Hpop in Hcall. destruct (opcode_of w) as [[]|]; try done; rewrite Hm; cbn [mbind Res_bind];
          unfold clobbered, clobber; rewrite Nat2Z.id, !fmap_app; done.
      * split; cbn; [|by rewrite decide_False]. rewrite labels_S, Hcall.
        apply List.Forall2_app; [by apply Hl'|]. by apply clobber_facts.
    + exists (MkCall lis (Z.of_nat (run q)) 0). split.
      * rewrite Hpop in Hc, Hcall. destruct (opcode_of w) as [[]|]; done.
      * split; cbn [call_intervals]; [rewrite labels_S, Hcall, app_nil_r; by apply Hl'|].
        cbn. rewrite decide_False by done.
        by rewrite Hother.
Qed.

Local Abbreviation total := (length (points bbs)).

Lemma live_ranges_ok : exists lis, live_ranges instrs mat bbs = Ok lis /\
  Forall2 (facts total) (labels total) lis.
Proof.
  destruct (ranges_ok instrs mat bbs E ts) as (live_in & lis0 & lis & E1 & E2 & E3 & Hh);
    [apply Hck|apply Hck|apply Hck|apply keys_nodup
    |intros e v He Hv; by apply (ck_reads _ _ _ _ _ Hck e)|apply Hck|].
  unfold live_ranges. rewrite E1. cbn [mbind Res_bind]. rewrite E2. cbn [mbind Res_bind].
  apply bind_Ok in E3 as (lis1 & E3 & E4). rewrite E3. cbn [mbind Res_bind]. rewrite E4.
  cbn [mbind Res_bind].
  destruct (func_args_ok O instrs [] lis) as (FA & EF & HF); [done|constructor|].
  change (func_args instrs 0 0 0 instr_map lis = Ok (lis ++ FA)) in EF. rewrite EF.
  cbn [mbind Res_bind].
  destruct (foldM_inv (call_step instrs instr_map) call_inv (points bbs) (MkCall (lis ++ FA) 0 0))
    as (s & -> & Hs & _).
  - intros q x s. apply call_step_ok.
  - split; [|done]. cbn [call_intervals]. unfold labels. rewrite app_nil_r. apply List.Forall2_app; [|exact HF].
    apply Forall2_same_length_lookup. split; [by rewrite length_fmap, length_seq, (hs_len _ _ _ _ Hh)|].
    intros i lab l Hlab Hl. rewrite list_lookup_fmap in Hlab.
    destruct (seq 0 n !! i) as [i'|] eqn:Ei; [|done]. apply lookup_seq in Ei as [-> Hi].
    injection Hlab as <-. destruct (hs_hull _ _ _ _ Hh i l Hl) as (? & ? & ? & ?).
    split; [done|]. right. split_and!; [done..|]. intros p Hp. lia.
  - by exists (call_intervals s).
Qed.

(** ** Costs *)
Definition same_range (l l' : LiveInterval) : Prop :=
  Undef l' = Undef l /\ Start l' = Start l /\ End_ l' = End_ l /\ li_value l' = li_value l /\
  li_type l' = li_type l /\ li_register l' = li_register l.

Lemma same_range_cost l d : same_range l (UpdateSpillCostWithUse l d).
Proof. unfold UpdateSpillCostWithUse. by case_match. Qed.

Lemma facts_same_range m lab l l' : same_range l l' -> facts m lab l -> facts m lab l'.
Proof.
  intros (E1 & E2 & E3 & E4 & E5 & E6).
  destruct lab; cbn; unfold hull, li_ok, covers; by rewrite E1, E2, E3, ?E4, ?E5, E6.
Qed.

Lemma cost_update L lis d v : Forall2 (facts total) L lis -> (n <= length L)%nat ->
  0 <= v < vec_size instrs ->
  exists lis', li_update (fun l => UpdateSpillCostWithUse l d) lis (Value_GetIdx v) = Ok lis' /\
    Forall2 (facts total) L lis'.
Proof.
  intros Hl HL Hv. rewrite (GetIdx_id n) by (done || apply Hck). pose proof (list.Forall2_length _ _ _ Hl).
  unfold vec_size in Hv. destruct (lookup_lt_is_Some_2 lis (Z.to_nat v)) as [l Hli]; [lia|].
  destruct (Forall2_lookup_r _ _ _ _ _ Hl Hli) as (lab & Hlab & Hfact).
  unfold li_update. assert (vec_at lis v = Ok l) as -> by (apply vec_at_Ok; split; [lia|done]).
  cbn [mbind Res_bind]. erewrite vec_set_lookup by (done || lia). eexists. split; [done|].
  rewrite <- (list_insert_id L (Z.to_nat v) lab) by done. apply Forall2_insert; [done|].
  eapply facts_same_range, Hfact. apply same_range_cost.
Qed.

Lemma cost_step_ok loop_depth L lis q x :
  length loop_depth = length bbs -> (n <= length L)%nat -> Forall2 (facts total) L lis ->
  points bbs !! q = Some x ->
  exists lis', cost_step instrs mat loop_depth lis x = Ok lis' /\ Forall2 (facts total) L lis'.
Proof.
  intros Hd HL Hl Hq. destruct x as [b [ss i]]. unfold cost_step.
  destruct (Forall2_lookup_l _ _ _ _ _ (points_events _ _ _ _ (ck_events _ _ _ _ _ Hck)) Hq)
    as ([r w] & He & Hev).
  apply instr_event_Ok in Hev as [Hr Hw]. cbn [fst snd] in Hr, Hw. rewrite Hw. cbn [mbind Res_bind].
  apply list_elem_of_lookup_2 in He.
  destruct (point_lookup_inv instrs mat bbs E (ck_events _ _ _ _ _ Hck) _ _ Hq)
    as (b' & blk & k & Hb & _ & Eb & _). cbn in Eb. subst b.
  destruct (lookup_lt_is_Some_2 loop_depth b') as [d Hdb].
  { rewrite Hd. by eapply lookup_lt_Some. }
  rewrite (vec_at_nat _ _ _ Hdb). cbn [mbind Res_bind].
  assert (exists l1, match w with
    | Some v => li_update (fun l => UpdateSpillCostWithUse l d) lis (Value_GetIdx v)
    | None => Ok lis end = Ok l1 /\ Forall2 (facts total) L l1) as (l1 & -> & H1).
  { destruct w as [v|]; [|by exists lis]. apply cost_update; [done..|].
    by apply (ck_writes _ _ _ _ _ Hck _ _ He). }
  cbn [mbind Res_bind]. rewrite Hr. cbn [mbind Res_bind].
  destruct (foldM_inv (fun lis v => li_update (fun l => UpdateSpillCostWithUse l d) lis (Value_GetIdx v))
    (fun _ l => Forall2 (facts total) L l) r l1) as (l2 & -> & H2); [|done|by exists l2].
  intros k' v s Hv%list_elem_of_lookup_2 Hs. apply cost_update; [done..|].
  by apply (ck_reads _ _ _ _ _ Hck _ _ He).
Qed.

Lemma ComputeLiveIntervals_ok loop_depth : length loop_depth = length bbs ->
  exists lis, ComputeLiveIntervals instrs mat bbs loop_depth =
      Ok (filter (fun l => Undef l = false) lis) /\ Forall2 (facts total) (labels total) lis.
Proof.
  intros Hd. unfold ComputeLiveIntervals. destruct live_ranges_ok as (lis & -> & Hl).
  cbn [mbind Res_bind].
  destruct (foldM_inv (cost_step instrs mat loop_depth)
    (fun _ l => Forall2 (facts total) (labels total) l) (points bbs) lis) as (lis' & -> & H').
  - intros q x s Hq Hs. eapply cost_step_ok; try done.
    unfold labels. rewrite length_app, length_fmap, length_seq. lia.
  - done.
  - by exists lis'.
Qed.

(** ** Where the fixed intervals lie *)
Lemma exposed_first v l : exposed v l -> exists j e, l !! j = Some e /\ v ∈ e.1 /\
  forall j' e', (j' < j)%nat -> l !! j' = Some e' -> e'.2 <> Some v.
Proof.
  induction l as [|[r w] l IH]; cbn; [done|]. intros [Hr|[Hw H]].
  - exists O, (r, w). split_and!; [done..|lia].
  - destruct (IH H) as (j & e & Hj & Hv & Hb). exists (S j), e. split_and!; [done..|].
    intros [|j'] e' Hlt Hj'; [by injection Hj' as <-|]. apply (Hb j'); [lia|done].
Qed.

Lemma event_point b k e : events_at E (Z.of_nat b) !! k = Some e ->
  exists p, points bbs !! (base E b + k)%nat = Some (Z.of_nat b, p) /\
    mjoin E !! (base E b + k)%nat = Some e /\ instr_event instrs mat p = Ok e.
Proof.
  unfold events_at. rewrite Nat2Z.id. destruct (E !! b) as [ev|] eqn:Eb; [|done]. intros He.
  destruct (Forall2_lookup_r _ _ _ _ _ (ck_events _ _ _ _ _ Hck) Eb) as (blk & Hb & Hok).
  destruct (Forall2_lookup_r _ _ _ _ _ Hok He) as (p & Hp & Hpe). exists p. split_and!; [|by apply (mjoin_lookup E b ev)|done].
  by eapply point_lookup; [apply Hck|..].
Qed.

Lemma points_block b k x : points bbs !! k = Some (Z.of_nat b, x) ->
  exists k', k = (base E b + k')%nat /\ is_Some (events_at E (Z.of_nat b) !! k').
Proof.
  intros H. destruct (point_lookup_inv instrs mat bbs E (ck_events _ _ _ _ _ Hck) _ _ H)
    as (b' & blk & k' & Hb & Hk & Eb & ->). cbn in Eb. apply Nat2Z.inj in Eb as <-.
  exists k'. split; [done|].
  destruct (event_lookup instrs mat bbs E (ck_events _ _ _ _ _ Hck) _ _ _ _ Hb Hk) as (e & ? & _). eauto.
Qed.

(** The range of the argument at position [p] of the call at position [q]. *)
Definition arg_range (p q : nat) (v : Z) : Prop :=
  (p < q)%nat /\ instr_at bbs p = Some v /\ is_call (pop q) = true /\
  forall r, (p <= r < q)%nat -> pop r = Some CALL_ARG.

(** An argument writes itself. *)
Lemma written_arg q b ss v e : points bbs !! q = Some (b, (ss, v)) -> mjoin E !! q = Some e ->
  op_at instrs v = Some CALL_ARG -> e.2 = Some v.
Proof.
  intros Hp He Hop.
  destruct (Forall2_lookup_l _ _ _ _ _ (points_events _ _ _ _ (ck_events _ _ _ _ _ Hck)) Hp)
    as ([r w] & He' & Hev). pose proof (eq_trans (eq_sym He) He') as [= ->].
  apply instr_event_Ok in Hev as [_ Hw]. unfold GetWrittenValue in Hw. cbn [fst snd] in Hw.
  apply bind_Ok in Hw as (word & Hword & Hw). apply vec_at_Ok in Hword as [_ Hword].
  unfold op_at in Hop. rewrite Hword in Hop. cbn in Hop. rewrite Hop in Hw. by injection Hw as <-.
Qed.

Lemma arg_read b j e v : events_at E (Z.of_nat b) !! j = Some e -> v ∈ e.1 ->
  op_at instrs v = Some CALL_ARG ->
  exists k, (k < j)%nat /\ arg_range (base E b + k) (base E b + j) v /\
    exists e', events_at E (Z.of_nat b) !! k = Some e' /\ e'.2 = Some v.
Proof.
  intros He Hv Hop. destruct (event_point _ _ _ He) as ([ss i] & Hp & HE & _).
  destruct (ck_read_arg _ _ _ _ _ Hck _ _ _ _ _ _ Hp HE Hv Hop) as (Hc & p & ss' & Hlt & Hpp & Hrun).
  destruct (points_block _ _ _ Hpp) as (k & -> & [e' He']). exists k.
  split; [lia|]. split; [split_and!; [done|unfold instr_at; by rewrite Hpp|done|done]|].
  exists e'. split; [done|]. destruct (event_point _ _ _ He') as (x & Hx & Hxe & _).
  by eapply written_arg.
Qed.

Lemma arg_exposed b k v : exposed v (drop k (events_at E (Z.of_nat b))) ->
  op_at instrs v = Some CALL_ARG ->
  exists p q, arg_range p q v /\ (base E b <= p < base E b + k)%nat /\ (base E b + k <= q)%nat.
Proof.
  intros (j & e & Hj & Hv & Hbefore)%exposed_first Hop. rewrite lookup_drop in Hj.
  destruct (arg_read _ _ _ _ Hj Hv Hop) as (k' & Hlt & Hr & e' & He' & Hw).
  exists (base E b + k')%nat, (base E b + (k + j))%nat. split; [done|].
  destruct (decide (k' < k)%nat); [lia|]. exfalso. apply (Hbefore (k' - k)%nat e'); [lia| |done].
  rewrite lookup_drop. by replace (k + (k' - k))%nat with k' by lia.
Qed.

Lemma arg_not_live_in b v : op_at instrs v = Some CALL_ARG ->
  ~ LiveIn (succs bbs) (events_at E) b v.
Proof.
  intros Hop (bs & _ & He). revert b He. induction bs as [|s bs IH]; intros b He;
    cbn in He; rewrite exposed_app in He; destruct He as [He|[_ He]]; [|done| |by apply IH in He].
  all: assert (events_at E b = events_at E (Z.of_nat (Z.to_nat b))) as Eb
    by (unfold events_at; by rewrite Nat2Z.id).
  all: rewrite Eb, <- (drop_0 (events_at E _)) in He.
  all: destruct (arg_exposed _ _ _ He Hop) as (p & q & _ & Hlt & _); lia.
Qed.

(** The span of an argument lies between it and its call. *)
Lemma span_arg i x : op_at instrs (Z.of_nat i) = Some CALL_ARG -> span i x ->
  exists p q, arg_range p q (Z.of_nat i) /\ Z.of_nat p <= x <= Z.of_nat q.
Proof.
  intros Hop [(b & blk & k & Hb & Hk & -> & Hl)|(q & b & ss & _ & _ & Hst)].
  - assert (forall k', LiveFrom (succs bbs) (events_at E) (Z.of_nat b) k' (Z.of_nat i) ->
      exists p q, arg_range p q (Z.of_nat i) /\ (p < base E b + k' <= q)%nat) as Hlive.
    { intros k' [He|(_ & s & _ & Hs)]; [|by apply arg_not_live_in in Hs].
      destruct (arg_exposed _ _ _ He Hop) as (p & q & ? & ? & ?). exists p, q. split; [done|lia]. }
    destruct Hl as [Hl|Hl]; destruct (Hlive _ Hl) as (p & q & ? & ?); exists p, q; (split; [done|lia]).
  - by rewrite Hop in Hst.
Qed.

(** The span of a store is its own position. *)
Lemma span_store i x : is_any_store (op_at instrs (Z.of_nat i)) = true -> span i x ->
  exists q, x = Z.of_nat q /\ instr_at bbs q = Some (Z.of_nat i).
Proof.
  intros Hst [(b & blk & k & Hb & Hk & -> & Hl)|(q & b & ss & Hq & -> & _)].
  - exfalso. destruct Hl as [Hl|Hl]; apply live_read in Hl as (e & He & Hv);
      apply (ck_reads _ _ _ _ _ Hck _ _ He) in Hv as [_ ?]; congruence.
  - exists q. split; [done|]. unfold instr_at. by rewrite Hq.
Qed.

Lemma span_nonneg i x : span i x -> 0 <= x.
Proof. intros [(b & blk & k & _ & _ & -> & _)|(q & b & ss & _ & -> & _)]; lia. Qed.

Lemma run_add p d : (forall r, (p <= r < p + d)%nat -> pop r = Some CALL_ARG) ->
  run (p + d) = (run p + d)%nat.
Proof.
  induction d as [|d IH]; intros H; [by rewrite !Nat.add_0_r|].
  rewrite Nat.add_succ_r. cbn [run]. rewrite decide_True by (apply H; lia).
  rewrite IH by (intros; apply H; lia). lia.
Qed.

(** Two arguments whose ranges meet belong to the same call. *)
Lemma arg_range_meet p q v p' q' v' x : arg_range p q v -> arg_range p' q' v' ->
  (p <= x <= q)%nat -> (p' <= x <= q')%nat -> q = q'.
Proof.
  intros (_ & _ & Hc & Hr) (_ & _ & Hc' & Hr') ??.
  destruct (Nat.lt_trichotomy q q') as [Hlt|[?|Hlt]]; [exfalso|done|exfalso].
  - rewrite (Hr' q) in Hc by lia. done.
  - rewrite (Hr q') in Hc' by lia. done.
Qed.

(** ** Different labels never need the same register at the same position *)
Definition occupies (q : nat) (lab : label) (l : LiveInterval) : Prop :=
  match lab with
  | LValue i =>
      (is_store instrs l = true /\ instr_at bbs q = Some (Z.of_nat i) /\
       is_any_store (op_at instrs (Z.of_nat i)) = true) \/
      (is_store instrs l = false /\ exists p c, arg_range p c (Z.of_nat i) /\ (p <= q <= c)%nat /\
       normal_arg_reg !! run p = Some (li_register l))
  | LParam j => is_store instrs l = false /\ (q <= j < length (leading_args instrs))%nat /\
      param_reg j = Some (li_register l)
  | LClobber c r => is_store instrs l = false /\ q = c /\ is_call (pop c) = true /\
      li_register l = r /\ r ∈ clobbered c
  end.

Lemma leading_lookup l j : (j < length (leading_args l))%nat ->
  exists w, l !! j = Some w /\ opcode_of w = Some FUNC_ARG.
Proof.
  revert j. induction l as [|w l IH]; cbn; [lia|]. case_decide as Hw; cbn; [|lia].
  intros [|j] Hj; [by exists w|]. apply IH. lia.
Qed.

Lemma param_opcode j : (j < length (leading_args instrs))%nat -> pop j = Some FUNC_ARG.
Proof.
  intros Hj. destruct (ck_params _ _ _ _ _ Hck j Hj) as [ss Hp]. rewrite (pop_point _ _ _ _ Hp).
  destruct (leading_lookup _ _ Hj) as (w & Hw & Hop). unfold op_at. by rewrite Nat2Z.id, Hw.
Qed.

Lemma param_reg_inj j j' r : (j < j')%nat -> param_reg j = Some r -> param_reg j' <> Some r.
Proof.
  intros Hlt Hj Hj'. unfold param_reg in *.
  destruct (instrs !! j) as [w|] eqn:Ew; [|done]. destruct (instrs !! j') as [w'|]; [|done].
  cbn in Hj, Hj'.
  assert (take j' instrs = take j instrs ++ [w] ++ drop (S j) (take j' instrs)) as Et.
  { rewrite <- (take_drop_middle (take j' instrs) j w) at 1.
    - by rewrite take_take, Nat.min_l by lia.
    - by rewrite lookup_take_lt. }
  pose proof (counts_app w (take j instrs)) as [C1 C2].
  pose proof (count_app_le (take j instrs ++ [w]) (drop (S j) (take j' instrs))) as [L1 L2].
  rewrite <- (assoc_L (++)), <- Et in L1, L2.
  destruct (is_fp_arg w), (is_fp_arg w').
  - pose proof (NoDup_lookup _ _ _ _ fp_arg_reg_nodup Hj Hj'). lia.
  - apply list_elem_of_lookup_2 in Hj, Hj'. apply (normal_arg_other r); [done|].
    apply elem_of_app. by left.
  - apply list_elem_of_lookup_2 in Hj, Hj'. apply (normal_arg_other r); [done|].
    apply elem_of_app. by left.
  - pose proof (NoDup_lookup _ _ _ _ normal_arg_reg_nodup Hj Hj'). lia.
Qed.

Lemma arg_range_opcode p q c v : arg_range p c v -> (p <= q <= c)%nat ->
  pop q = Some CALL_ARG \/ (q = c /\ is_call (pop q) = true).
Proof.
  intros (_ & _ & Hc & Hr) Hq. destruct (decide (q = c)) as [->|]; [by right|].
  left. apply Hr. lia.
Qed.

Lemma store_opcode q i : instr_at bbs q = Some i -> pop q = op_at instrs i.
Proof. unfold pos_opcode. by intros ->. Qed.

Lemma args_distinct p p' c v v' : arg_range p c v -> arg_range p' c v' -> run p = run p' -> v = v'.
Proof.
  intros (Hlt & Hp & _ & Hr) (Hlt' & Hp' & _ & Hr') E0.
  assert (p = p') as ->; [|congruence].
  destruct (Nat.lt_trichotomy p p') as [H|[?|H]]; [exfalso|done|exfalso].
  - pose proof (run_add p (p' - p)) as H0. replace (p + (p' - p))%nat with p' in H0 by lia.
    rewrite H0 in E0 by (intros; apply Hr; lia). lia.
  - pose proof (run_add p' (p - p')) as H0. replace (p' + (p - p'))%nat with p in H0 by lia.
    rewrite H0 in E0 by (intros; apply Hr'; lia). lia.
Qed.

Lemma arg_not_clobbered p c v r : arg_range p c v -> normal_arg_reg !! run p = Some r ->
  ~ r ∈ clobbered c.
Proof.
  intros (Hlt & _ & _ & Hr) Hreg Hin. pose proof (run_add p (c - p)) as H0.
  replace (p + (c - p))%nat with c in H0 by lia. specialize (H0 ltac:(intros; apply Hr; lia)).
  unfold clobbered in Hin. apply elem_of_app in Hin as [Hin|Hin].
  - apply list_elem_of_lookup_1 in Hin as [k Hk]. rewrite lookup_drop in Hk.
    pose proof (NoDup_lookup _ _ _ _ normal_arg_reg_nodup Hreg Hk). lia.
  - by apply (normal_arg_other r); [by eapply list_elem_of_lookup_2|].
Qed.

(** What stands at an occupied position: a store, an argument or its call, a
    parameter, a call. *)
Lemma occupies_opcode q lab l : occupies q lab l ->
  match lab with
  | LValue i => if is_store instrs l then is_any_store (pop q) = true
                else pop q = Some CALL_ARG \/ is_call (pop q) = true
  | LParam _ => pop q = Some FUNC_ARG
  | LClobber _ _ => is_call (pop q) = true
  end.
Proof.
  destruct lab as [i|j|c r]; cbn [occupies].
  - intros [(-> & Hq & Hs)|(-> & p & c & Hr & Hq & _)].
    + by rewrite (store_opcode _ _ Hq).
    + destruct (arg_range_opcode _ _ _ _ Hr Hq) as [?|[_ ?]]; auto.
  - intros (_ & Hq & _). apply param_opcode. lia.
  - by intros (_ & -> & ? & _).
Qed.

Lemma opcode_kinds o :
  ~ (is_any_store o = true /\ is_call o = true) /\
  ~ (is_any_store o = true /\ o = Some CALL_ARG) /\
  ~ (is_any_store o = true /\ o = Some FUNC_ARG) /\
  ~ (is_call o = true /\ o = Some CALL_ARG) /\ ~ (is_call o = true /\ o = Some FUNC_ARG).
Proof.
  split_and!; intros [H1 H2]; try (by rewrite H2 in H1). destruct o as [[]|]; done.
Qed.

Lemma occupies_distinct q lab l lab' l' :
  occupies q lab l -> occupies q lab' l' -> lab <> lab' ->
  is_store instrs l = false /\ is_store instrs l' = false /\ li_register l <> li_register l'.
Proof.
  intros H H' Hne. pose proof (occupies_opcode _ _ _ H) as Ho.
  pose proof (occupies_opcode _ _ _ H') as Ho'. pose proof (opcode_kinds (pop q)) as Hk.
  destruct lab as [i|j|c r], lab' as [i'|j'|c' r']; cbn [occupies] in H, H'.
  - destruct H as [(Es & Hq & _)|(Es & p & c & Hr & Hp & Hreg)];
      destruct H' as [(Es' & Hq' & _)|(Es' & p' & c' & Hr' & Hp' & Hreg')];
      rewrite Es in Ho; rewrite Es' in Ho'; [|exfalso; tauto..|].
    + exfalso. apply Hne. f_equal. apply Nat2Z.inj. congruence.
    + split_and!; [done..|]. intros Eq. rewrite Eq in Hreg.
      pose proof (arg_range_meet _ _ _ _ _ _ q Hr Hr' Hp Hp') as ->.
      pose proof (NoDup_lookup _ _ _ _ normal_arg_reg_nodup Hreg Hreg') as Er.
      apply Hne. f_equal. apply Nat2Z.inj. by eapply args_distinct.
  - exfalso. rewrite Ho' in Ho. destruct (is_store instrs l); [done|]. by destruct Ho.
  - destruct H as [(Es & _)|(Es & p & c & Hr & Hp & Hreg)]; rewrite Es in Ho; [exfalso; tauto|].
    destruct H' as (Es' & -> & _ & -> & Hin). split_and!; [done..|]. intros Eq.
    destruct (arg_range_opcode _ _ _ _ Hr Hp) as [?|[-> _]]; [tauto|].
    rewrite <- Eq in Hin. by eapply arg_not_clobbered.
  - exfalso. rewrite Ho in Ho'. destruct (is_store instrs l'); [done|]. by destruct Ho'.
  - destruct H as (Es & Hj & Hreg), H' as (Es' & Hj' & Hreg'). split_and!; [done..|]. intros Eq.
    rewrite Eq in Hreg. destruct (Nat.lt_trichotomy j j') as [Hlt|[->|Hlt]]; [|done|];
      by eapply param_reg_inj.
  - exfalso. tauto.
  - destruct H' as [(Es & _)|(Es & p & c' & Hr & Hp & Hreg)]; rewrite Es in Ho'; [exfalso; tauto|].
    destruct H as (Es' & -> & _ & -> & Hin). split_and!; [done..|]. intros Eq.
    destruct (arg_range_opcode _ _ _ _ Hr Hp) as [?|[-> _]]; [tauto|].
    rewrite Eq in Hin. by eapply arg_not_clobbered.
  - exfalso. tauto.
  - destruct H as (Es & -> & _ & -> & _), H' as (Es' & -> & _ & -> & _). split_and!; [done..|].
    intros ->. done.
Qed.

(** ** From labels to the requirements of the scan *)
Lemma caller_saved_ok r : r ∈ caller_saved -> 0 <= r /\ r ∈ free_normal0 ∪ free_vector0.
Proof.
  assert (Forall (fun r => r ∈ free_normal0 ∪ free_vector0) caller_saved) as H.
  { apply (bool_decide_unpack (Forall (fun r => r ∈ free_normal0 ∪ free_vector0) caller_saved)).
    by vm_compute. }
  rewrite list.Forall_forall in H. intros Hr%H. split; [|done].
  apply elem_of_union in Hr as [?%free_normal0_reg|?%free_vector0_reg]; lia.
Qed.

Lemma arg_reg_saved q r : normal_arg_reg !! q = Some r -> r ∈ caller_saved.
Proof. intros H%list_elem_of_lookup_2. apply elem_of_app. by left. Qed.

Lemma param_reg_saved j r : param_reg j = Some r -> r ∈ caller_saved.
Proof.
  unfold param_reg. destruct (instrs !! j) as [w|]; [|done]. cbn [mbind option_bind].
  destruct (is_fp_arg w); intros H%list_elem_of_lookup_2.
  - apply elem_of_app. right. apply elem_of_app. by left.
  - apply elem_of_app. by left.
Qed.

Lemma clobbered_saved q r : r ∈ clobbered q -> r ∈ caller_saved.
Proof.
  unfold clobbered, caller_saved. rewrite !elem_of_app. intros [H|?]; [left|by right].
  rewrite <- (take_drop (run q)). apply elem_of_app. by right.
Qed.

(** The three ways in which a labelled interval can be. *)
Lemma facts_cases m lab l : facts m lab l ->
  (IsPrecolored l = true /\ li_register l ∈ caller_saved) \/
  (IsPrecolored l = false /\ exists i, lab = LValue i /\ (i < n)%nat /\ idx_of l = Z.of_nat i /\
    ts !! i = Some (li_type l)).
Proof.
  assert (li_register l ∈ caller_saved -> IsPrecolored l = true /\ li_register l ∈ caller_saved) as Hp.
  { intros H. split; [|done]. apply caller_saved_ok in H as [? _]. by apply Z.leb_le. }
  destruct lab as [i|j|q r]; cbn [facts].
  - intros [_ [(p & _ & _ & _ & Hr)|(Hr & Hv & Ht & _)]].
    + left. by eapply Hp, arg_reg_saved.
    + right. pose proof (lookup_lt_Some _ _ _ Ht) as Hi.
      rewrite <- (list.Forall2_length _ _ _ (ck_types _ _ _ _ _ Hck)) in Hi.
      split; [unfold IsPrecolored; by rewrite Hr|]. exists i. split_and!; try done.
      unfold idx_of. rewrite Hv. apply (GetIdx_id n); [apply Hck|lia].
  - intros (_ & _ & _ & _ & Hr). left. by eapply Hp, param_reg_saved.
  - intros (_ & _ & _ & _ & Hr & Hc). left. apply Hp. rewrite Hr. by eapply clobbered_saved.
Qed.

Lemma interval_op_at l i : idx_of l = i -> interval_opcode instrs l = op_at instrs i.
Proof. by intros <-. Qed.

Lemma is_store_any l : is_store instrs l = true -> is_any_store (op_at instrs (idx_of l)) = true.
Proof.
  unfold is_store. rewrite (interval_op_at _ _ eq_refl). destruct (IsPrecolored l); [done|]. cbn.
  destruct (op_at instrs (idx_of l)) as [op|]; [|done].
  destruct (decide (op = I32_VEC8_MASK_STORE)) as [->|Hn]; [done|].
  rewrite bool_decide_false, orb_false_r by done. by destruct op.
Qed.

Lemma is_store_precoloured l : IsPrecolored l = true -> is_store instrs l = false.
Proof. unfold is_store. by intros ->. Qed.

Lemma saved_precoloured l : li_register l ∈ caller_saved -> IsPrecolored l = true.
Proof. intros H. apply caller_saved_ok in H as [? _]. by apply Z.leb_le. Qed.

Lemma arg_hull i l p : hull l (span i) -> Undef l = false ->
  instr_at bbs p = Some (Z.of_nat i) -> pop p = Some CALL_ARG ->
  exists q, arg_range p q (Z.of_nat i) /\ Z.of_nat p <= Start l /\ End_ l <= Z.of_nat q.
Proof.
  intros (_ & _ & Hse) Hu Hp Hop. destruct (Hse Hu) as [Hs He].
  rewrite (store_opcode _ _ Hp) in Hop.
  destruct (span_arg _ _ Hop Hs) as (p1 & q1 & R1 & X1).
  destruct (span_arg _ _ Hop He) as (p2 & q2 & R2 & X2).
  assert (p1 = p) as -> by (eapply instr_at_inj; [apply R1|done]).
  assert (p2 = p) as -> by (eapply instr_at_inj; [apply R2|done]).
  assert (q2 = q1) as ->.
  { pose proof (proj1 R1). pose proof (proj1 R2). apply (arg_range_meet _ _ _ _ _ _ p R2 R1); lia. }
  exists q1. split; [done|lia].
Qed.

Lemma facts_occupies m lab l x : facts m lab l -> Undef l = false -> fixed instrs l = true ->
  Start l <= x <= End_ l -> exists q, x = Z.of_nat q /\ occupies q lab l.
Proof.
  intros Hf Hu Hfix Hx. pose proof (facts_cases _ _ _ Hf) as Hc.
  destruct lab as [i|j|q r]; cbn [facts] in Hf.
  - destruct Hf as [Hh [(p & _ & Hp & Hop & Hr)|(Hr & _)]].
    + destruct (arg_hull _ _ _ Hh Hu Hp Hop) as (q & R1 & X1).
      exists (Z.to_nat x). rewrite Z2Nat.id by lia. split; [done|]. right. split.
      * by eapply is_store_precoloured, saved_precoloured, arg_reg_saved.
      * exists p, q. split_and!; try done; lia.
    + destruct Hc as [[Hpre _]|[Hv (i' & [= <-] & _ & Hidx & _)]].
      { unfold IsPrecolored in Hpre. by rewrite Hr in Hpre. }
      unfold fixed in Hfix. rewrite Hv in Hfix. cbn in Hfix.
      pose proof (is_store_any _ Hfix) as Hst. rewrite Hidx in Hst.
      destruct Hh as (_ & _ & Hse). destruct (Hse Hu) as [Hs He].
      destruct (span_store _ _ Hst Hs) as (q1 & E1 & Hq1).
      destruct (span_store _ _ Hst He) as (q2 & E2 & Hq2).
      pose proof (instr_at_inj _ _ _ Hq1 Hq2) as <-.
      exists q1. split; [lia|]. by left.
  - destruct Hf as (_ & Hs & He & Hj & Hr). exists (Z.to_nat x). rewrite Z2Nat.id by lia.
    split; [done|]. split_and!; try done; try lia.
    by eapply is_store_precoloured, saved_precoloured, param_reg_saved.
  - destruct Hf as (_ & Hs & He & Hcall & Hr & Hin). exists q. split; [lia|].
    split_and!; try done. eapply is_store_precoloured, saved_precoloured. rewrite Hr.
    by eapply clobbered_saved.
Qed.

Lemma facts_range m lab l : facts m lab l -> Undef l = false -> Start l <= End_ l.
Proof.
  intros Hf Hu. destruct lab; cbn in Hf; [|lia|lia]. destruct Hf as [[Hok _] _].
  unfold li_ok in Hok. rewrite Hu in Hok. lia.
Qed.

Lemma facts_pair m lab l lab' l' : facts m lab l -> facts m lab' l' -> lab <> lab' ->
  Undef l = false -> Undef l' = false -> pair_ok instrs l l'.
Proof.
  intros Hf Hf' Hne Hu Hu'. split.
  - intros Hv Hv'. destruct (facts_cases _ _ _ Hf) as [[??]|[_ (i & -> & _ & -> & _)]]; [congruence|].
    destruct (facts_cases _ _ _ Hf') as [[??]|[_ (i' & -> & _ & -> & _)]]; [congruence|].
    intros E0. apply Hne. f_equal. lia.
  - intros Hx Hx' [Ho1 Ho2].
    assert (Start l <= End_ l /\ Start l' <= End_ l') as [Hr Hr'].
    { split; by eapply facts_range. }
    destruct (facts_occupies _ _ _ (Z.max (Start l) (Start l')) Hf Hu Hx) as (q & Eq & Hq); [lia|].
    destruct (facts_occupies _ _ _ (Z.max (Start l) (Start l')) Hf' Hu' Hx') as (q' & Eq' & Hq'); [lia|].
    assert (q' = q) as -> by lia. by eapply occupies_distinct.
Qed.

Lemma facts_interval_ok m lab l : facts m lab l -> Undef l = false -> interval_ok instrs l.
Proof.
  intros Hf Hu. split; [done|by eapply facts_range|..];
    destruct (facts_cases _ _ _ Hf) as [[Hp Hr]|[Hp (i & -> & Hi & Hidx & Ht)]];
    try (intros; congruence).
  - intros _. by apply caller_saved_ok.
  - intros _. rewrite Hidx. unfold vec_size. lia.
  - intros _. rewrite (interval_op_at _ _ Hidx). unfold op_at. rewrite Nat2Z.id.
    destruct (lookup_lt_is_Some_2 instrs i Hi) as [w Hw].
    destruct (Forall2_lookup_l _ _ _ _ _ (ck_types _ _ _ _ _ Hck) Hw) as (t & _ & Hty).
    rewrite Hw. cbn. unfold TypeOfValue in Hty. destruct (opcode_of w); [eauto|done].
  - intros op _ Hop Hcmp. rewrite Hidx. apply (ck_cmp _ _ _ _ _ Hck); [lia|].
    unfold is_cmp. by rewrite <- Hidx, <- (interval_op_at _ _ eq_refl), Hop.
Qed.

Lemma facts_intervals_ok m labs lis : Forall2 (facts m) labs lis -> NoDup labs ->
  intervals_ok instrs (filter (fun l => Undef l = false) lis).
Proof.
  intros Hf Hn. split.
  - apply list.Forall_forall. intros l [Hu Hl]%list_elem_of_filter.
    apply list_elem_of_lookup_1 in Hl as [k Hk].
    destruct (Forall2_lookup_r _ _ _ _ _ Hf Hk) as (lab & _ & ?). by eapply facts_interval_ok.
  - induction Hf as [|lab l labs lis Hl Hf IH]; [constructor|].
    apply list.NoDup_cons in Hn as [Hlab Hn]. rewrite filter_cons. case_decide as Hu; [|auto].
    constructor; [|auto]. apply list.Forall_forall. intros l' [Hu' Hl']%list_elem_of_filter.
    apply list_elem_of_lookup_1 in Hl' as [k Hk].
    destruct (Forall2_lookup_r _ _ _ _ _ Hf Hk) as (lab' & Hlab' & ?).
    eapply facts_pair; try done. intros ->. apply Hlab. by eapply list_elem_of_lookup_2.
Qed.

(** ** The result *)

(** The register of a value in the result, -1 for none. *)
Definition reg_of (asg : list Z) (v : Z) : Z := default (-1) (asg !! Z.to_nat v).

(** [v] is live right before or right after the instruction at position [q]. *)
Definition live_around (v : Z) (q : nat) : Prop := live_point bbs E v (Z.of_nat q).

Definition type_class (t : Z) : gset Z := if IsVector t then free_vector0 else free_normal0.

(** No value live around position [q], read there or not, has the register of [v]. *)
Definition scratch_at (asg : list Z) (v : Z) (q : nat) : Prop :=
  forall w, live_around w q -> reg_of asg w <> reg_of asg v.

Record regalloc_ok (asg : list Z) : Prop := {
  ra_len : length asg = n;
  ra_live : forall v w q, v <> w -> live_around v q -> live_around w q ->
    reg_of asg v ∈ free_normal0 ∪ free_vector0 -> reg_of asg v <> reg_of asg w;
  ra_call : forall v q, live_around v q -> is_call (pop q) = true -> ~ reg_of asg v ∈ caller_saved;
  ra_param : forall v q j r, (q <= j < length (leading_args instrs))%nat -> live_around v q ->
    param_reg j = Some r -> reg_of asg v <> r;
  ra_arg : forall v q p c a r, arg_range p c a -> normal_arg_reg !! run p = Some r ->
    (p <= q <= c)%nat -> live_around v q -> v <> a -> reg_of asg v <> r;
  ra_value : forall v op t q, live_around v q -> op_at instrs v = Some op -> ts !! Z.to_nat v = Some t ->
    is_cmp (Some op) = false -> reg_of asg v = -1 \/ reg_of asg v ∈ type_class t;
  ra_cmp : forall v op q, live_around v q -> op_at instrs v = Some op -> is_cmp (Some op) = true ->
    reg_of asg v = -1 \/ (instr_opcode instrs (v + 1) = Ok (Some CONDBR) /\
      reg_of asg v = (if is_int_cmp op then IFlag else FFlag));
  ra_store : forall v q, instr_at bbs q = Some v ->
    match op_at instrs v with
    | Some (I8_STORE | I16_STORE | I32_STORE | I64_STORE | PTR_STORE) =>
        reg_of asg v ∈ free_normal0 /\ scratch_at asg v q
    | Some I32_VEC8_MASK_STORE => reg_of asg v ∈ free_vector0 /\ scratch_at asg v q
    | _ => True
    end;
}.

Section Result.
Context (lis : list LiveInterval) (Hfacts : Forall2 (facts total) (labels total) lis).
Local Abbreviation outputs := (filter (fun l => Undef l = false) lis).
Context (asg : list Z) (Hasg : allocation_ok instrs outputs asg).

Lemma label_interval lab : lab ∈ labels total -> exists l, l ∈ lis /\ facts total lab l.
Proof.
  intros [k Hk]%list_elem_of_lookup_1. destruct (Forall2_lookup_l _ _ _ _ _ Hfacts Hk) as (l & Hl & ?).
  exists l. split; [by eapply list_elem_of_lookup_2|done].
Qed.

Lemma interval_label l : l ∈ outputs -> exists lab, facts total lab l.
Proof.
  intros [_ Hl]%list_elem_of_filter. apply list_elem_of_lookup_1 in Hl as [k Hk].
  destruct (Forall2_lookup_r _ _ _ _ _ Hfacts Hk) as (lab & _ & ?). by exists lab.
Qed.

Lemma outputs_share a b : a ∈ outputs -> b ∈ outputs -> a <> b -> overlap a b ->
  colour asg a ∈ free_normal0 ∪ free_vector0 -> colour asg a <> colour asg b.
Proof.
  intros Ha Hb Hne Hov Hr Heq. destruct Hasg as (_ & Hp & _).
  rewrite list_elem_of_In in Ha, Hb.
  destruct (List.ForallOrdPairs_In Hp a b Ha Hb) as [?|[H|H]]; [done|by apply H|].
  apply H; [destruct Hov; by split|by rewrite <- Heq|done].
Qed.

(** The interval of a value that spans position [x]. *)
Lemma value_interval i x : (i < n)%nat -> span i x ->
  exists l, l ∈ outputs /\ covers l x /\ facts total (LValue i) l /\
    ((IsPrecolored l = false /\ idx_of l = Z.of_nat i /\ colour asg l = reg_of asg (Z.of_nat i)) \/
     (IsPrecolored l = true /\ reg_of asg (Z.of_nat i) = -1)).
Proof.
  intros Hi Hx.
  pose proof (labels_value total i Hi) as Hlab.
  destruct (Forall2_lookup_l _ _ _ _ _ Hfacts Hlab) as (l & Hl & Hf).
  assert (covers l x) as Hc by (by apply (proj1 Hf)).
  exists l. split_and!; [apply list_elem_of_filter; split; [apply Hc|by eapply list_elem_of_lookup_2]|done..|].
  destruct (facts_cases _ _ _ Hf) as [[Hp _]|[Hv (i' & [= <-] & _ & Hidx & _)]].
  - right. split; [done|]. destruct Hasg as (Hlen & _ & _ & Hrest). unfold reg_of.
    rewrite Hrest; [done|unfold vec_size; lia|]. intros l' [Hu' Hl']%list_elem_of_filter Hv' Hidx'.
    apply list_elem_of_lookup_1 in Hl' as [k Hk].
    destruct (Forall2_lookup_r _ _ _ _ _ Hfacts Hk) as (lab & Hlab' & Hf').
    destruct (facts_cases _ _ _ Hf') as [[? _]|[_ (i' & -> & _ & Hidx2 & _)]]; [congruence|].
    assert (i' = i) as -> by lia.
    pose proof (NoDup_lookup _ _ _ _ (labels_nodup total) Hlab Hlab') as ->. congruence.
  - left. split_and!; [done..|]. unfold colour, reg_of. by rewrite Hv, Hidx.
Qed.

Lemma live_around_span v q : live_around v q -> exists i, v = Z.of_nat i /\ (i < n)%nat /\ span i (Z.of_nat q).
Proof.
  intros H. assert (0 <= v < vec_size instrs) as Hv.
  { destruct H as (b & blk & k & _ & _ & _ & Hl).
    destruct Hl as [Hl|Hl]; apply live_read in Hl as (e & He & Hv);
      by apply (ck_reads _ _ _ _ _ Hck _ _ He) in Hv as [? _]. }
  unfold vec_size in Hv. exists (Z.to_nat v). rewrite Z2Nat.id by lia. split_and!; [done|lia|].
  left. by rewrite Z2Nat.id by lia.
Qed.

(** A value live at a position does not hold a register that some precoloured
    interval holds there. *)
Lemma precoloured_conflict v q lab l r : live_around v q -> facts total lab l -> l ∈ outputs ->
  IsPrecolored l = true -> li_register l = r -> covers l (Z.of_nat q) ->
  r ∈ free_normal0 ∪ free_vector0 -> reg_of asg v <> r.
Proof.
  intros (i & -> & Hi & Hx)%live_around_span Hf Hl Hp Hr Hc Hin Heq.
  destruct (value_interval _ _ Hi Hx) as (lv & Hlv & Hcv & Hfv & [(Hv & Hidx & Hcol)|(_ & Hm)]).
  - apply (outputs_share l lv); try done.
    + intros ->. congruence.
    + destruct Hc, Hcv. split; lia.
    + unfold colour. rewrite Hp. by rewrite Hr.
    + rewrite Hcol, Heq. unfold colour. by rewrite Hp.
  - rewrite Heq in Hm. subst r. rewrite Hm in Hin.
    apply elem_of_union in Hin as [?%free_normal0_reg|?%free_vector0_reg]; lia.
Qed.

Lemma outputs_reg_nonneg r : r ∈ free_normal0 ∪ free_vector0 -> r <> -1.
Proof. intros [?%free_normal0_reg|?%free_vector0_reg]%elem_of_union; lia. Qed.

Lemma result_live v w q : v <> w -> live_around v q -> live_around w q ->
  reg_of asg v ∈ free_normal0 ∪ free_vector0 -> reg_of asg v <> reg_of asg w.
Proof.
  intros Hne (i & -> & Hi & Hx)%live_around_span (j & -> & Hj & Hy)%live_around_span Hr Heq.
  pose proof (outputs_reg_nonneg _ Hr) as Hn1.
  destruct (value_interval _ _ Hi Hx) as (l & Hl & Hc & _ & [(Hv & Hidx & Hcol)|(_ & Hm)]); [|done].
  destruct (value_interval _ _ Hj Hy) as (l' & Hl' & Hc' & _ & [(Hv' & Hidx' & Hcol')|(_ & Hm)]);
    [|congruence].
  apply (outputs_share l l'); try done; [intros ->; congruence| |congruence|congruence].
  destruct Hc, Hc'. split; lia.
Qed.

Lemma result_param v q j r : (q <= j < length (leading_args instrs))%nat -> live_around v q ->
  param_reg j = Some r -> reg_of asg v <> r.
Proof.
  intros Hq Hv Hr. destruct (label_interval (LParam j)) as (l & Hl & Hf).
  { unfold labels. rewrite !elem_of_app. right. left. apply list_elem_of_fmap_2, elem_of_seq. lia. }
  pose proof Hf as (Hu & Hs & He & _ & Hreg). rewrite Hr in Hreg. injection Hreg as Hreg.
  pose proof (param_reg_saved _ _ Hr) as Hsv.
  eapply (precoloured_conflict v q (LParam j) l r); try done.
  - by apply list_elem_of_filter.
  - apply saved_precoloured. by rewrite <- Hreg.
  - split; [done|lia].
  - by apply caller_saved_ok.
Qed.

Lemma result_clobber v q r : is_call (pop q) = true -> live_around v q -> r ∈ clobbered q ->
  reg_of asg v <> r.
Proof.
  intros Hq Hv Hr. destruct (label_interval (LClobber q r)) as (l & Hl & Hf).
  { unfold labels. rewrite !elem_of_app. right. right. apply list_elem_of_join.
    exists (LClobber q <$> clobbered q). split; [by apply list_elem_of_fmap_2|].
    apply list_elem_of_fmap. exists q. rewrite Hq. split; [done|]. apply elem_of_seq.
    split; [lia|]. cbn. destruct (points bbs !! q) as [x|] eqn:Ex; [by eapply lookup_lt_Some|].
    exfalso. unfold pos_opcode, instr_at in Hq. by rewrite Ex in Hq. }
  pose proof Hf as (Hu & Hs & He & _ & Hreg & _). pose proof (clobbered_saved _ _ Hr) as Hsv.
  eapply (precoloured_conflict v q (LClobber q r) l r); try done.
  - by apply list_elem_of_filter.
  - apply saved_precoloured. by rewrite Hreg.
  - split; [done|lia].
  - by apply caller_saved_ok.
Qed.

Lemma exposed_at v l j e : l !! j = Some e -> v ∈ e.1 ->
  (forall k e', (k < j)%nat -> l !! k = Some e' -> e'.2 <> Some v) -> exposed v l.
Proof.
  revert j. induction l as [|[r w] l IH]; intros j Hj Hv Hb; [done|]. cbn.
  destruct j as [|j]; [injection Hj as <-; by left|]. right. split.
  - apply (Hb O (r, w)); [lia|done].
  - apply (IH j); try done. intros k e' Hk. apply (Hb (S k)). lia.
Qed.

(** An argument is live from its own position to its call. *)
Lemma arg_live p c a : arg_range p c a -> live_around a p /\ live_around a c.
Proof.
  intros (Hlt & Hp & Hc & Hr). unfold pos_opcode, instr_at in Hc.
  destruct (points bbs !! c) as [[b [ss i]]|] eqn:Ec; [|done].
  destruct (Forall2_lookup_l _ _ _ _ _ (points_events _ _ _ _ (ck_events _ _ _ _ _ Hck)) Ec) as (e & He & _).
  assert (a ∈ e.1) as Ha.
  { eapply (ck_call_reads _ _ _ _ _ Hck p c); try done. unfold pos_opcode, instr_at. by rewrite Ec. }
  assert (op_at instrs a = Some CALL_ARG) as Hop.
  { rewrite <- (store_opcode _ _ Hp). apply Hr. lia. }
  destruct (ck_read_arg _ _ _ _ _ Hck _ _ _ _ _ _ Ec He Ha Hop) as (_ & p' & ss' & Hlt' & Hp' & _).
  assert (p' = p) as -> by (eapply instr_at_inj; [unfold instr_at; by rewrite Hp'|done]).
  destruct (point_lookup_inv instrs mat bbs E (ck_events _ _ _ _ _ Hck) _ _ Ec)
    as (bn & blk & kc & Hb & Hkc & Eb & ->). cbn in Eb. subst b.
  destruct (points_block _ _ _ Hp') as (kp & -> & [ep Hep]).
  destruct (event_lookup instrs mat bbs E (ck_events _ _ _ _ _ Hck) _ _ _ _ Hb Hkc) as (e2 & Hec & _ & He2).
  simplify_eq.
  destruct (block_events instrs mat bbs E (ck_events _ _ _ _ _ Hck) _ _ Hb) as (ev & _ & Eev & Hok).
  pose proof (list.Forall2_length _ _ _ Hok) as Hlev.
  pose proof (lookup_lt_Some _ _ _ Hkc) as Hkl. pose proof (lookup_lt_Some _ _ _ Hep) as Hpl.
  rewrite Eev in Hpl. split; exists bn, blk.
  - exists kp. split_and!; [done|lia|done|]. right. left.
    apply (exposed_at _ _ (kc - S kp) e); [|done|].
    { rewrite lookup_drop. by replace (S kp + (kc - S kp))%nat with kc by lia. }
    intros k e' Hk. rewrite lookup_drop. intros He'.
    destruct (event_point _ _ _ He') as ([ss2 i2] & Hp2 & HE2 & _).
    assert (op_at instrs i2 = Some CALL_ARG) as Hop2.
    { rewrite <- (pop_point _ _ _ _ Hp2). apply Hr. lia. }
    rewrite (written_arg _ _ _ _ _ Hp2 HE2 Hop2). intros [= ->].
    assert (base E bn + (S kp + k) = base E bn + kp)%nat; [|lia].
    eapply instr_at_inj; [unfold instr_at; by rewrite Hp2|done].
  - exists kc. split_and!; [done|lia|done|]. left. left.
    apply (exposed_at _ _ 0 e); [by rewrite lookup_drop, Nat.add_0_r|done|lia].
Qed.

Lemma pop_total q o : pop q = Some o -> (q < total)%nat.
Proof.
  unfold pos_opcode, instr_at. destruct (points bbs !! q) eqn:Ep; [|done]. intros _.
  by eapply lookup_lt_Some.
Qed.

Lemma result_arg v q p c a r : arg_range p c a -> normal_arg_reg !! run p = Some r ->
  (p <= q <= c)%nat -> live_around v q -> reg_of asg v <> r.
Proof.
  intros Hr Hreg Hq Hv. destruct (arg_live _ _ _ Hr) as [Hlp Hlc].
  destruct (live_around_span _ _ Hlp) as (i & -> & Hi & Hsp).
  destruct (live_around_span _ _ Hlc) as (i' & Ei & _ & Hsc). apply Nat2Z.inj in Ei as <-.
  destruct (value_interval _ _ Hi Hsp) as (l & Hl & Hcp & Hf & _).
  assert (pop p = Some CALL_ARG) as Hop by (apply Hr; pose proof (proj1 Hr); lia).
  assert (li_register l = r) as Er.
  { destruct Hf as [_ [(p' & _ & Hp' & _ & Hr')|(_ & _ & _ & Hno)]].
    - assert (p' = p) as -> by (eapply instr_at_inj; [done|apply Hr]). congruence.
    - rewrite (Hno p) in Hreg; [done|by eapply pop_total|apply Hr|done]. }
  pose proof (arg_reg_saved _ _ Hreg) as Hsv.
  eapply (precoloured_conflict v q (LValue i) l r); try done.
  - apply saved_precoloured. by rewrite Er.
  - assert (covers l (Z.of_nat c)) as [_ Hcc] by (by apply (proj1 Hf)).
    destruct Hcp as [Hu Hcp]. split; [done|]. lia.
  - by apply caller_saved_ok.
Qed.

Lemma run_back q d : (d <= run q)%nat ->
  (d <= q)%nat /\ run (q - d) = (run q - d)%nat /\
  forall r, (q - d <= r < q)%nat -> pop r = Some CALL_ARG.
Proof.
  induction d as [|d IH]; intros Hd; [rewrite !Nat.sub_0_r; split_and!; [lia|done|lia]|].
  destruct IH as (Hle & Hrun & Hall); [lia|].
  destruct (q - d)%nat as [|k] eqn:Ek; [cbn in Hrun; lia|]. cbn [run] in Hrun.
  destruct (decide (pop k = Some CALL_ARG)) as [Hk|]; [|lia].
  replace (q - S d)%nat with k by lia. split_and!; [lia|lia|]. intros r Hr.
  destruct (decide (r = k)) as [->|]; [done|]. apply Hall. lia.
Qed.

Lemma result_call v q : live_around v q -> is_call (pop q) = true -> ~ reg_of asg v ∈ caller_saved.
Proof.
  intros Hv Hq Hin. destruct (decide (reg_of asg v ∈ clobbered q)) as [Hc|Hc].
  { by eapply result_clobber. }
  assert (exists k, (k < run q)%nat /\ normal_arg_reg !! k = Some (reg_of asg v)) as (k & Hk & Hreg).
  { unfold caller_saved in Hin. apply elem_of_app in Hin as [Hin|Hin].
    - apply list_elem_of_lookup_1 in Hin as [k Hk]. exists k. split; [|done].
      destruct (decide (k < run q)%nat) as [|Hge]; [done|]. destruct Hc. unfold clobbered.
      apply elem_of_app. left. apply (list_elem_of_lookup_2 _ (k - run q)). rewrite lookup_drop.
      by replace (run q + (k - run q))%nat with k by lia.
    - destruct Hc. unfold clobbered. apply elem_of_app. by right. }
  destruct (run_back q (run q - k)) as (Hle & Hrun & Hall); [lia|].
  set (p := (q - (run q - k))%nat) in *.
  assert (pop p = Some CALL_ARG) as Hop by (apply Hall; lia).
  destruct (instr_at bbs p) as [a|] eqn:Ea; [|unfold pos_opcode in Hop; by rewrite Ea in Hop].
  assert (arg_range p q a) as Hr by (split_and!; [lia|done..]).
  apply (result_arg v q p q a (reg_of asg v) Hr); [|lia|done|done].
  replace (run p) with k by lia. done.
Qed.

(** What the value of a virtual interval got. *)
Lemma virtual_assigned l : l ∈ outputs -> IsPrecolored l = false -> assigned_ok instrs asg l.
Proof. destruct Hasg as (_ & _ & H & _). apply H. Qed.

Lemma live_not_store v q : live_around v q -> is_any_store (op_at instrs v) = false.
Proof.
  intros (b & blk & k & _ & _ & _ & Hl). destruct Hl as [Hl|Hl];
    apply live_read in Hl as (e & He & Hv); by apply (ck_reads _ _ _ _ _ Hck _ _ He) in Hv as [_ ?].
Qed.

Lemma live_assigned v q op : live_around v q -> op_at instrs v = Some op ->
  reg_of asg v = -1 \/ exists l i, v = Z.of_nat i /\ interval_opcode instrs l = Some op /\
    is_store instrs l = false /\ assigned_ok instrs asg l /\ colour asg l = reg_of asg v /\
    idx_of l = v /\ ts !! i = Some (li_type l).
Proof.
  intros Hl Hop. pose proof (live_not_store _ _ Hl) as Hns.
  destruct (live_around_span _ _ Hl) as (i & -> & Hi & Hx).
  destruct (value_interval _ _ Hi Hx) as (l & Hlo & Hc & Hf & [(Hv & Hidx & Hcol)|(_ & Hm)]); [|by left].
  right. exists l, i. rewrite (interval_op_at _ _ Hidx). split_and!; try done.
  - destruct (is_store instrs l) eqn:Es; [|done]. apply is_store_any in Es. rewrite Hidx in Es. congruence.
  - by apply virtual_assigned.
  - destruct (facts_cases _ _ _ Hf) as [[? _]|[_ (i' & [= <-] & _ & _ & Ht)]]; [congruence|done].
Qed.

Lemma result_value v op t q : live_around v q -> op_at instrs v = Some op ->
  ts !! Z.to_nat v = Some t -> is_cmp (Some op) = false ->
  reg_of asg v = -1 \/ reg_of asg v ∈ type_class t.
Proof.
  intros Hl Hop Ht Hc. destruct (live_assigned _ _ _ Hl Hop) as [?|(l & i & -> & Ho & Hs & Ha & Hcol & _ & Hty)];
    [by left|]. rewrite Nat2Z.id, Hty in Ht. injection Ht as <-.
  unfold assigned_ok in Ha. rewrite Ho in Ha. cbn in Hc. apply orb_false_iff in Hc as [Hc1 Hc2].
  rewrite Hc1, Hc2, Hcol in Ha. destruct Ha as [[? _]|Ha]; [by left|]. right.
  unfold class_of in Ha. rewrite Ho, Hs in Ha. exact Ha.
Qed.

Lemma result_cmp v op q : live_around v q -> op_at instrs v = Some op -> is_cmp (Some op) = true ->
  reg_of asg v = -1 \/ (instr_opcode instrs (v + 1) = Ok (Some CONDBR) /\
    reg_of asg v = (if is_int_cmp op then IFlag else FFlag)).
Proof.
  intros Hl Hop Hc. destruct (live_assigned _ _ _ Hl Hop) as [?|(l & i & -> & Ho & Hs & Ha & Hcol & Hidx & _)];
    [by left|]. unfold assigned_ok in Ha. rewrite Ho, Hcol in Ha. cbn in Hc. unfold followed_by_branch in Ha.
  rewrite Hidx in Ha. destruct (is_int_cmp op); cbn in Hc; [|rewrite Hc in Ha]; tauto.
Qed.

(** The interval of a store shares its register with no live value. *)
Lemma store_scratch l v q : l ∈ outputs -> covers l (Z.of_nat q) -> IsPrecolored l = false -> idx_of l = v ->
  colour asg l = reg_of asg v -> is_any_store (op_at instrs v) = true ->
  reg_of asg v ∈ free_normal0 ∪ free_vector0 -> scratch_at asg v q.
Proof.
  intros Hl Hc Hv Hidx Hcol Hst Hr w Hw Heq. pose proof (live_not_store _ _ Hw) as Hns.
  destruct (live_around_span _ _ Hw) as (i & -> & Hi & Hx).
  destruct (value_interval _ _ Hi Hx) as (l' & Hl' & Hc' & _ & [(Hv' & Hidx' & Hcol')|(_ & Hm)]).
  - apply (outputs_share l l'); try done; [intros ->; congruence| |congruence|congruence].
    destruct Hc, Hc'. split; lia.
  - apply (outputs_reg_nonneg _ Hr). congruence.
Qed.

Lemma result_store v q : instr_at bbs q = Some v ->
  match op_at instrs v with
  | Some (I8_STORE | I16_STORE | I32_STORE | I64_STORE | PTR_STORE) =>
      reg_of asg v ∈ free_normal0 /\ scratch_at asg v q
  | Some I32_VEC8_MASK_STORE => reg_of asg v ∈ free_vector0 /\ scratch_at asg v q
  | _ => True
  end.
Proof.
  intros Hq. destruct (op_at instrs v) as [op|] eqn:Hop; [|done].
  assert (is_int_store op || bool_decide (op = I32_VEC8_MASK_STORE) = true ->
    (reg_of asg v ∈ if bool_decide (op = I32_VEC8_MASK_STORE) then free_vector0 else free_normal0) /\
    scratch_at asg v q) as H.
  { intros Hst. assert (is_any_store (Some op) = true) as Hany.
    { destruct (decide (op = I32_VEC8_MASK_STORE)) as [->|Hn]; [done|].
      rewrite bool_decide_false, orb_false_r in Hst by done. by destruct op. }
    unfold instr_at in Hq. destruct (points bbs !! q) as [[b [ss i]]|] eqn:Ep; [|done].
    injection Hq as <-.
    destruct (point_instr _ _ _ _ (ck_events _ _ _ _ _ Hck) _ _ _ _ Ep) as (w & _ & _ & Hi).
    destruct (value_interval (Z.to_nat i) (Z.of_nat q)) as (l & Hl & Hcov & Hf & Hcase); [lia| |].
    { right. exists q, b, ss. rewrite Z2Nat.id by lia. by rewrite Hop. }
    rewrite Z2Nat.id in Hcase by lia.
    assert (IsPrecolored l = false /\ idx_of l = i /\ colour asg l = reg_of asg i) as (Hv & Hidx & Hcol).
    { destruct Hcase as [H|[Hp _]]; [done|]. exfalso.
      destruct Hf as [_ [(p & _ & Hp' & Hpo & _)|(Hr & _)]].
      - rewrite (store_opcode _ _ Hp'), Z2Nat.id in Hpo by lia. rewrite Hop in Hpo. injection Hpo as ->. done.
      - unfold IsPrecolored in Hp. by rewrite Hr in Hp. }
    pose proof (virtual_assigned _ Hl Hv) as Ha. unfold assigned_ok in Ha.
    rewrite (interval_op_at _ _ Hidx), Hop in Ha.
    assert (is_store instrs l = true) as Es.
    { unfold is_store. by rewrite Hv, (interval_op_at _ _ Hidx), Hop. }
    unfold class_of in Ha. rewrite (interval_op_at _ _ Hidx), Hop, Es, Hcol in Ha.
    assert (is_int_cmp op = false /\ is_float_cmp op = false) as [E1 E2] by (by destruct op).
    rewrite E1, E2 in Ha. destruct Ha as [[_ ?]|Ha]; [done|]. split; [done|].
    apply (store_scratch l i q); try done.
    - rewrite Hop. done.
    - rewrite <- Hcol in Ha |- *. destruct (bool_decide _); apply elem_of_union; auto. }
  destruct (decide (op = I32_VEC8_MASK_STORE)) as [->|Hn].
  - by apply H.
  - rewrite bool_decide_false in H by done. destruct op; try done; by apply H.
Qed.

Lemma regalloc_result : regalloc_ok asg.
Proof.
  split.
  - apply Hasg.
  - apply result_live.
  - apply result_call.
  - apply result_param.
  - intros v q p c a r Hr Hreg Hq Hv _. by eapply result_arg.
  - apply result_value.
  - apply result_cmp.
  - apply result_store.
Qed.
End Result.
End Fixed.

Lemma LinearScanRegisterAlloc_ok pick sort instrs mat bbs E ts loop_depth
    (pick_in : forall s : gset Z, s <> ∅ -> pick s ∈ s)
    (sort_perm : forall l, sort l ≡ₚ l)
    (sort_sorted : forall l, StronglySorted by_start (sort l)) :
  code_ok instrs mat bbs E ts -> length loop_depth = length bbs ->
  exists asg, LinearScanRegisterAlloc pick sort instrs mat bbs loop_depth = Ok asg /\
    regalloc_ok instrs bbs E ts asg.
Proof.
  intros Hck Hd. destruct (ComputeLiveIntervals_ok _ _ _ _ _ Hck loop_depth Hd) as (lis & El & Hf).
  unfold LinearScanRegisterAlloc. rewrite El. cbn [mbind Res_bind].
  pose proof (facts_intervals_ok _ _ _ _ _ Hck _ _ _ Hf (labels_nodup _ _ _)) as Hok.
  destruct (linear_scan_allocates pick sort instrs _ pick_in sort_perm sort_sorted Hok) as (asg & -> & Ha).
  exists asg. split; [done|]. by eapply regalloc_result.
Qed.


(** ** An example: two parameters, a call, a store and a loop *)
Module RegAllocDemo.

Definition binary (o : Opcode) (a b : Z) : Z :=
  Type2_SetArg1 (Type2_SetArg0 (Type2_SetOpcode 0 (OpcodeTo o)) a) b.
Definition typed (o : Opcode) (a t : Z) : Z :=
  Type3_SetTypeID (Type3_SetArg (Type3_SetOpcode 0 (OpcodeTo o)) a) t.
Definition branch (o : Opcode) (a t f : Z) : Z :=
  Type5_SetMarg1 (Type5_SetMarg0 (Type5_SetArg (Type5_SetOpcode 0 (OpcodeTo o)) a) t) f.

Definition instrs : list Z :=
  [typed FUNC_ARG 0 I8PtrType; typed FUNC_ARG 0 I32Type; binary I32_ADD 1 1; typed CALL_ARG 2 I32Type;
   typed CALL 0 I32Type; binary I32_STORE 0 4; branch BR 0 1 0;
   binary I32_CMP_LT 4 2; branch CONDBR 7 1 2; OpcodeTo RETURN].
Definition bbs : list BasicBlock :=
  [MkBB [(0, 6)] [1] []; MkBB [(7, 8)] [1; 2] [0; 1]; MkBB [(9, 9)] [] [1]].
Definition mat : list bool := replicate 10 false.
Definition E : list (list event) :=
  [[([], Some 0); ([], Some 1); ([1; 1], Some 2); ([2], Some 3); ([3], Some 4); ([0; 4], None); ([], None)];
   [([4; 2], Some 7); ([7], None)]; [([], None)]].
Definition ts : list Z :=
  [I8PtrType; I32Type; I32Type; VoidType; I32Type; VoidType; VoidType; I1Type; VoidType; VoidType].

Lemma points_eq : points bbs =
  [(0, (0, 0)); (0, (0, 1)); (0, (0, 2)); (0, (0, 3)); (0, (0, 4)); (0, (0, 5)); (0, (0, 6));
   (1, (7, 7)); (1, (7, 8)); (2, (9, 9))].
Proof. by vm_compute. Qed.

Ltac each q tac := do 10 (destruct q as [|q]; [tac|]); tac.

Lemma pop_arg q : pos_opcode instrs bbs q = Some CALL_ARG -> q = 3%nat.
Proof. unfold pos_opcode, instr_at. rewrite points_eq. each q done. Qed.
Lemma pop_call q : is_call (pos_opcode instrs bbs q) = true -> q = 4%nat.
Proof. unfold pos_opcode, instr_at. rewrite points_eq. each q done. Qed.

Lemma arg_value v : 0 <= v -> op_at instrs v = Some CALL_ARG -> v = 3.
Proof.
  intros Hv. unfold op_at. destruct (Z.to_nat v) as [|k] eqn:Ei; [done|].
  do 9 (destruct k as [|k]; [done || (intros _; lia)|]). done.
Qed.

Lemma reads_ok e v : e ∈ mjoin E -> v ∈ e.1 ->
  0 <= v < vec_size instrs /\ is_any_store (op_at instrs v) = false.
Proof.
  assert (Forall (fun e => Forall (fun v => 0 <= v < vec_size instrs /\
    is_any_store (op_at instrs v) = false) e.1) (mjoin E)) as H by (repeat constructor; by vm_compute).
  intros He Hv. rewrite list.Forall_forall in H. specialize (H e He).
  rewrite list.Forall_forall in H. auto.
Qed.

Lemma code : code_ok instrs mat bbs E ts.
Proof.
  split.
  - apply CfgDemo.edges_check_ok. by vm_compute.
  - repeat constructor; by vm_compute.
  - repeat constructor; by vm_compute.
  - by vm_compute.
  - by apply (bool_decide_unpack (NoDup _)); vm_compute.
  - apply reads_ok.
  - intros e v He. repeat (apply elem_of_cons in He as [->|He]; [by intros [= <-]|]).
    by apply not_elem_of_nil in He.
  - intros q ->%pop_arg. right. by vm_compute.
  - intros q b ss i e v Hq He Hv Hop. rewrite points_eq in Hq.
    assert (v = 3) as ->.
    { assert (0 <= v) by (apply list_elem_of_lookup_2 in He; by apply (reads_ok e)).
      by apply arg_value. }
    assert (q = 4%nat) as ->.
    { revert He Hv. clear. each q ltac:(done || (intros [= <-] Hv; cbn in Hv;
        repeat (apply elem_of_cons in Hv as [Hv|Hv]; [done|]); by apply not_elem_of_nil in Hv)). }
    injection Hq as <- <- <-. split; [by vm_compute|]. exists 3%nat, 0. rewrite points_eq. split_and!; [lia|done|].
    intros r Hr. assert (r = 3)%nat as -> by lia. by vm_compute.
  - intros p q v e Hpq Hp Hr ->%pop_call He. pose proof (pop_arg p (Hr p ltac:(lia))) as ->.
    injection He as <-. unfold instr_at in Hp. rewrite points_eq in Hp. injection Hp as <-. by left.
  - intros j Hj. exists 0. rewrite points_eq. assert (j < 2)%nat by done. by destruct j as [|[|j]]; [..|lia].
  - by vm_compute; lia.
  - by vm_compute; lia.
  - intros i Hi Hc. assert (i = 7) as ->; [|by vm_compute]. revert Hc. unfold op_at.
    destruct (Z.to_nat i) as [|k] eqn:Ei; [done|]. do 9 (destruct k as [|k]; [done || (intros _; lia)|]). done.
Qed.
(** Values 0 and 2, live across the call, are in R15 and R13; the compare is in
    the flags of the branch after it. *)
Lemma demo_alloc : LinearScanRegisterAlloc LinearScanDemo.pick LinearScanDemo.sort instrs mat bbs [0; 1; 0] =
  Ok [15; 11; 13; -1; -1; 11; -1; 100; -1; -1].
Proof. by vm_compute. Qed.

Lemma allocated : regalloc_ok instrs bbs E ts [15; 11; 13; -1; -1; 11; -1; 100; -1; -1].
Proof.
  destruct (LinearScanRegisterAlloc_ok LinearScanDemo.pick LinearScanDemo.sort instrs mat bbs E ts [0; 1; 0])
    as (asg & Ea & H); [apply LinearScanDemo.pick_in|apply LinearScanDemo.sort_perm
    |apply LinearScanDemo.sort_sorted|apply code|done|].
  rewrite demo_alloc in Ea. by injection Ea as <-.
Qed.


Lemma liveness_exact_witness :
  exists l, ComputeLiveness instrs mat bbs = Ok l /\ length l = length bbs /\
    forall b v, in_range bbs b -> v ∈ set_at l b <-> LiveIn (succs bbs) (events_at E) b v.
Proof. apply liveness_exact; apply code. Defined.

End RegAllocDemo.

