(* ===== verification/CallSequence.v ===== *)
(** * Passing arguments

    The cases [CALL_ARG] and [CALL]/[CALL_INDIRECT] of the x86 backend
    (src/khir/asm/asm_backend.cc): the operands of the argument instructions are
    collected, and in front of the call instruction moved one after the other to
    the registers of the calling convention, the rest to the stack.  A register
    file maps register numbers to their contents; the emitted moves are given by
    what they do to it. *)
From stdpp Require Import sorting.
From S2P Require Import Prelude Opcode Instruction ProgramBuilder CfgSimplify CfgOutput LiveInterval LinearScan Operands Liveness LiveIntervals RegAlloc.

(** ** The model *)
Record CallArgs := MkArgs {
  floating_point_call_args : list Z;
  regular_call_args : list (Z * Z);
}.

(** [CALL_ARG]: remember the operand with its type. *)
Definition collect_arg (s : CallArgs) (instr : Z) : CallArgs :=
  if Type3_TypeID instr =? F64Type
  then MkArgs (floating_point_call_args s ++ [Type3_Arg instr]) (regular_call_args s)
  else MkArgs (floating_point_call_args s)
         (regular_call_args s ++ [(Type3_Arg instr, Type3_TypeID instr)]).

Section Moves.
(** [is_ptr] is [TypeManager::IsPtrType]; [mem t v] is what reading the constant
    or the stack slot of the operand [v] as a [t] gives, errors included: the moves
    to registers leave both alone.  That the slots are read at the right address after
    the stack pointer was moved for stack arguments (the backend adds
    [dynamic_stack_alloc] to their offsets) is part of this argument and not modelled.  RAX and xmm15, the scratch registers of the
    moves, are never assigned to a value and not part of the file. *)
Context (is_ptr : Z -> bool) (asg : list Z) (mem : Z -> Z -> Res Z).

(** The source of a move: a constant, a register or a stack slot. *)
Definition move_operand (file : Z -> Z) (t v : Z) : Res Z :=
  if Value_IsConstantGlobal v then mem t v
  else if RegisterAssignment_IsRegister (reg_of asg (Value_GetIdx v))
  then r ← GPRegister_FromId (reg_of asg (Value_GetIdx v)); Ok (file (GPRegister_Id r))
  else mem t v.

Definition move_operand_f64 (file : Z -> Z) (v : Z) : Res Z :=
  if Value_IsConstantGlobal v then mem F64Type v
  else if RegisterAssignment_IsRegister (reg_of asg (Value_GetIdx v))
  then r ← VRegister_FromId (reg_of asg (Value_GetIdx v)); Ok (file (VRegister_Id r))
  else mem F64Type v.

Definition set_reg (file : Z -> Z) (r x : Z) : Z -> Z := fun r' => if r' =? r then x else file r'.

(** A move from a register to itself is not emitted. *)
Definition coalesced (reg v : Z) : bool :=
  negb (Value_IsConstantGlobal v) && (reg_of asg (Value_GetIdx v) =? reg).

(** [SextByteValue], [SextWordValue]: the operand is sign-extended. *)
Definition SextByteValue (file : Z -> Z) (reg t v : Z) : Res (Z -> Z) :=
  x ← move_operand file t v; Ok (set_reg file reg (u64 (i8 x))).
Definition SextWordValue (file : Z -> Z) (reg t v : Z) : Res (Z -> Z) :=
  x ← move_operand file t v; Ok (set_reg file reg (u64 (i16 x))).
(** [MoveDWordValue]: a 32-bit move clears the upper half. *)
Definition MoveDWordValue (file : Z -> Z) (reg t v : Z) : Res (Z -> Z) :=
  x ← move_operand file t v;
  if coalesced reg v then Ok file else Ok (set_reg file reg (u32 x)).
(** [MoveQWordValue] and [MovePtrValue]. *)
Definition MoveQWordValue (file : Z -> Z) (reg t v : Z) : Res (Z -> Z) :=
  x ← move_operand file t v;
  if coalesced reg v then Ok file else Ok (set_reg file reg x).
Definition MoveF64Value (file : Z -> Z) (reg v : Z) : Res (Z -> Z) :=
  x ← move_operand_f64 file v; Ok (set_reg file reg x).

(** The loop over the floating-point arguments. *)
Fixpoint pass_fp (file : Z -> Z) (regs args : list Z) {struct args} : Res (Z -> Z) :=
  match args, regs with
  | [], _ => Ok file
  | v :: args, reg :: regs => file ← MoveF64Value file reg v; pass_fp file regs args
  | _ :: _, [] => Throw "Too many floating point args for the call."
  end.

Definition move_arg (file : Z -> Z) (reg v t : Z) : Res (Z -> Z) :=
  if (t =? I1Type) || (t =? I8Type) then SextByteValue file reg t v
  else if t =? I16Type then SextWordValue file reg t v
  else if t =? I32Type then MoveDWordValue file reg t v
  else if t =? I64Type then MoveQWordValue file reg t v
  else if is_ptr t then MoveQWordValue file reg t v
  else Throw "Invalid argument type.".

(** The loop over the other arguments; what does not fit goes to the stack. *)
Fixpoint pass_regular (file : Z -> Z) (regs : list Z) (args : list (Z * Z)) {struct args}
    : Res ((Z -> Z) * list (Z * Z)) :=
  match args, regs with
  | (v, t) :: args', reg :: regs =>
      file ← move_arg file reg v t; pass_regular file regs args'
  | _, _ => Ok (file, args)
  end.

(** The space for the remaining arguments, a multiple of 16. *)
Definition dynamic_stack_alloc (remaining : Z) : Z :=
  if 0 <? remaining then
    let a := 8 * remaining in if a mod 16 =? 0 then a else a + (16 - a mod 16)
  else 0.

(** A store to the argument area: the number of bytes and what they hold. *)
Definition store_arg (file : Z -> Z) (v t : Z) : Res (Z * Z) :=
  if (t =? I1Type) || (t =? I8Type) then x ← move_operand file t v; Ok (1, u8 x)
  else if t =? I16Type then x ← move_operand file t v; Ok (2, u16 x)
  else if t =? I32Type then x ← move_operand file t v; Ok (4, u32 x)
  else if t =? I64Type then x ← move_operand file t v; Ok (8, x)
  else if is_ptr t then x ← move_operand file t v; Ok (8, x)
  else Throw "Invalid argument type.".

(** The stores of the remaining arguments, at increasing offsets. *)
Fixpoint pass_stack (file : Z -> Z) (offset : Z) (args : list (Z * Z))
    : Res (list (Z * (Z * Z))) :=
  match args with
  | [] => Ok []
  | (v, t) :: args =>
      x ← store_arg file v t;
      rest ← pass_stack file (offset + 8) args; Ok ((offset, x) :: rest)
  end.

Definition pass_args (file : Z -> Z) (s : CallArgs)
    : Res ((Z -> Z) * list (Z * (Z * Z))) :=
  file ← pass_fp file fp_arg_reg (floating_point_call_args s);
  '(file, rest) ← pass_regular file normal_arg_reg (regular_call_args s);
  stack ← pass_stack file 0 rest;
  Ok (file, stack).

(** ** Moves in order *)

(** An argument type the calling sequence knows. *)
Definition arg_type (t : Z) : bool :=
  (t =? I1Type) || (t =? I8Type) || (t =? I16Type) || (t =? I32Type) || (t =? I64Type) || is_ptr t.

(** The register content [y] passes the argument [x] of type [t]; the upper half
    of a 32-bit argument is free. *)
Definition reg_passes (t x y : Z) : Prop :=
  if (t =? I1Type) || (t =? I8Type) then y = u64 (i8 x)
  else if t =? I16Type then y = u64 (i16 x)
  else if t =? I32Type then u32 y = u32 x else y = x.

(** The bytes a stack argument has. *)
Definition stack_passes (t x : Z) : Z * Z :=
  if (t =? I1Type) || (t =? I8Type) then (1, u8 x)
  else if t =? I16Type then (2, u16 x)
  else if t =? I32Type then (4, u32 x) else (8, x).

(** An operand that is in none of the registers written so far. *)
Definition avoids (v : Z) (written : list Z) : Prop :=
  Value_IsConstantGlobal v = true \/ ~ reg_of asg (Value_GetIdx v) ∈ written.

Lemma FromId_Id id r : GPRegister_FromId id = Ok r -> GPRegister_Id r = id.
Proof. unfold GPRegister_FromId. intros H. repeat case_match; simplify_eq; cbn; lia. Qed.

Lemma operand_avoids file file' written t v :
  avoids v written -> (forall r, ~ r ∈ written -> file' r = file r) ->
  move_operand file' t v = move_operand file t v.
Proof.
  intros Hv Hf. unfold move_operand. destruct (Value_IsConstantGlobal v) eqn:Ec; [done|].
  destruct Hv as [?|Hv]; [congruence|]. case_match; [|done].
  destruct (GPRegister_FromId _) as [r| | |] eqn:Er; [|done..]. cbn [mbind Res_bind].
  f_equal. apply Hf. by rewrite (FromId_Id _ _ Er).
Qed.

Lemma coalesced_operand file t reg v x : 0 <= reg -> coalesced reg v = true ->
  move_operand file t v = Ok x -> file reg = x.
Proof.
  unfold coalesced, move_operand. intros Hreg [Hc Hr]%andb_prop H. apply negb_true_iff in Hc.
  rewrite Hc in H. apply Z.eqb_eq in Hr. rewrite Hr in H. unfold RegisterAssignment_IsRegister in H.
  rewrite (proj2 (Z.leb_le 0 reg)) in H by done.
  destruct (GPRegister_FromId reg) as [r| | |] eqn:Er; [|done..]. injection H as <-.
  by rewrite (FromId_Id _ _ Er).
Qed.

(** One move: it succeeds, writes nothing but its register, and passes the
    argument there. *)
Lemma move_arg_ok file reg v t x : 0 <= reg -> arg_type t = true ->
  move_operand file t v = Ok x ->
  exists file', move_arg file reg v t = Ok file' /\ (forall r, r <> reg -> file' r = file r) /\
    reg_passes t x (file' reg).
Proof.
  intros Hreg Ht Hx. unfold move_arg, reg_passes, SextByteValue, SextWordValue, MoveDWordValue, MoveQWordValue.
  assert (forall y, (forall r, r <> reg -> set_reg file reg y r = file r) /\ set_reg file reg y reg = y) as Hset.
  { intros y. unfold set_reg. split; [|by rewrite Z.eqb_refl]. intros r Hr. by rewrite (proj2 (Z.eqb_neq r reg)). }
  rewrite Hx. cbn [mbind Res_bind]. unfold arg_type in Ht.
  pose proof (fun H => coalesced_operand file t reg v x Hreg H Hx) as Hco.
  destruct ((t =? I1Type) || (t =? I8Type)); [eexists; split; [done|apply Hset]|].
  destruct (t =? I16Type); [eexists; split; [done|apply Hset]|].
  destruct (coalesced reg v).
  - rewrite <- Hco by done. exists file. by repeat case_match.
  - destruct (t =? I32Type).
    { eexists. split; [done|]. split; [apply Hset|]. rewrite (proj2 (Hset _)). unfold u32. by rewrite Z.mod_mod. }
    exists (set_reg file reg x). split; [by repeat case_match|apply Hset].
Qed.

Lemma store_arg_ok file v t x : arg_type t = true -> move_operand file t v = Ok x ->
  store_arg file v t = Ok (stack_passes t x).
Proof.
  intros Ht Hx. unfold store_arg, stack_passes. rewrite Hx. unfold arg_type in Ht. by repeat case_match.
Qed.

(** If every operand avoids the registers written before its turn, the arguments
    arrive. *)
Lemma pass_regular_ok file file0 written regs args :
  NoDup (written ++ regs) -> Forall (fun r => 0 <= r) regs ->
  (forall r, ~ r ∈ written -> file r = file0 r) ->
  (forall k v t, args !! k = Some (v, t) -> avoids v (written ++ take k regs)) ->
  (forall v t, (v, t) ∈ args -> arg_type t = true /\ exists x, move_operand file0 t v = Ok x) ->
  exists file', pass_regular file regs args = Ok (file', drop (length regs) args) /\
    (forall r, ~ r ∈ written ++ take (length args) regs -> file' r = file0 r) /\
    (forall r, r ∈ written -> file' r = file r) /\
    (forall k v t r x, args !! k = Some (v, t) -> regs !! k = Some r ->
      move_operand file0 t v = Ok x -> reg_passes t x (file' r)).
Proof.
  revert file written regs. induction args as [|[v t] args IH]; intros file written regs Hn Hnn Hf Ha Ht.
  { exists file. cbn. destruct regs; cbn; rewrite ?app_nil_r; split_and!; done. }
  destruct regs as [|reg regs].
  { exists file. cbn. rewrite app_nil_r. split_and!; try done. }
  cbn [pass_regular]. apply list.Forall_cons in Hnn as [Hreg0 Hnn].
  assert (move_operand file t v = move_operand file0 t v) as Ev.
  { eapply (operand_avoids _ _ written); [|exact Hf]. specialize (Ha 0%nat v t eq_refl).
    by rewrite app_nil_r in Ha. }
  destruct (Ht v t) as (Htype & x & Hx); [by left|].
  destruct (move_arg_ok file reg v t x) as (file1 & -> & Hkeep1 & Hval1); [done..|by rewrite Ev|].
  cbn [mbind Res_bind].
  assert (~ reg ∈ written /\ ~ reg ∈ regs /\ NoDup ((written ++ [reg]) ++ regs)) as (Hr1 & Hr2 & Hn').
  { rewrite <- (assoc_L (++)). split_and!; [..|exact Hn];
      apply list.NoDup_app in Hn as (_ & Hd & Hn2); apply list.NoDup_cons in Hn2 as [? _]; [|done].
    intros Hin. apply (Hd _ Hin). by left. }
  destruct (IH file1 (written ++ [reg]) regs) as (file' & E & Hother & Hkeep & Hval).
  - done.
  - done.
  - intros r Hr. rewrite elem_of_app, list_elem_of_singleton in Hr.
    rewrite Hkeep1 by tauto. apply Hf. tauto.
  - intros k v' t' Hk. rewrite <- (assoc_L (++)). by apply (Ha (S k) v' t').
  - intros v' t' Hin. apply Ht. by right.
  - exists file'. cbn [length drop]. split; [exact E|]. split_and!.
    + intros r Hr. apply Hother. by rewrite <- (assoc_L (++)).
    + intros r Hr. rewrite Hkeep by (apply elem_of_app; by left).
      apply Hkeep1. by intros ->.
    + intros [|k] v' t' r x' Hk Hreg Hx'; [|by eapply (Hval k)].
      cbn in Hk, Hreg. injection Hk as <- <-. injection Hreg as <-.
      rewrite Hkeep by (apply elem_of_app; right; by left). rewrite Hx in Hx'. by injection Hx' as <-.
Qed.

Lemma pass_fp_ok file regs args : (length args <= length regs)%nat ->
  (forall file v, v ∈ args -> exists x, move_operand_f64 file v = Ok x) ->
  exists file', pass_fp file regs args = Ok file' /\ forall r, ~ r ∈ regs -> file' r = file r.
Proof.
  revert file regs. induction args as [|v args IH]; intros file regs Hl Hr; [by exists file|].
  destruct regs as [|reg regs]; cbn in Hl; [lia|]. cbn [pass_fp]. unfold MoveF64Value.
  destruct (Hr file v) as [x ->]; [by left|]. cbn [mbind Res_bind].
  destruct (IH (set_reg file reg x) regs) as (file' & E & Hf); [lia|intros; apply Hr; by right|].
  exists file'. split; [done|]. intros r [Hr' Hr'']%not_elem_of_cons. rewrite Hf by done.
  unfold set_reg. by rewrite (proj2 (Z.eqb_neq r reg)).
Qed.

Lemma pass_stack_ok file offset args :
  (forall v t, (v, t) ∈ args -> arg_type t = true /\ exists x, move_operand file t v = Ok x) ->
  exists stack, pass_stack file offset args = Ok stack /\
    forall k v t x, args !! k = Some (v, t) -> move_operand file t v = Ok x ->
      stack !! k = Some (offset + 8 * Z.of_nat k, stack_passes t x).
Proof.
  revert offset. induction args as [|[v t] args IH]; intros offset Ht; [by exists []|].
  cbn [pass_stack]. destruct (Ht v t) as (Hty & x & Hx); [by left|].
  rewrite (store_arg_ok _ _ _ _ Hty Hx). cbn [mbind Res_bind].
  destruct (IH (offset + 8)) as (stack & -> & Hs); [intros v' t' ?; apply Ht; by right|].
  cbn [mbind Res_bind]. eexists. split; [done|]. intros [|k] v' t' x' Hk Hx'; cbn in Hk.
  - injection Hk as <- <-. rewrite Hx in Hx'. injection Hx' as <-. cbn. do 2 f_equal. lia.
  - etransitivity; [exact (Hs k v' t' x' Hk Hx')|]. do 2 f_equal. lia.
Qed.

Lemma dynamic_stack_alloc_ok m : 0 <= m ->
  dynamic_stack_alloc m mod 16 = 0 /\ 8 * m <= dynamic_stack_alloc m < 8 * m + 16.
Proof.
  intros Hm. unfold dynamic_stack_alloc. destruct (Z.ltb_spec 0 m); [|assert (m = 0) as -> by lia; done].
  cbv zeta. destruct (Z.eqb_spec (8 * m mod 16) 0) as [E|E]; [lia|].
  pose proof (Z.mod_pos_bound (8 * m) 16 ltac:(lia)). split; [|lia].
  rewrite (Z.div_mod (8 * m) 16) at 1 by lia.
  replace (16 * (8 * m / 16) + (8 * m) mod 16 + (16 - (8 * m) mod 16))
    with ((8 * m / 16 + 1) * 16) by lia. apply Z_mod_mult.
Qed.
End Moves.

(** The operands of a run of argument instructions. *)
Definition regular_arg (w : Z) : option (Z * Z) :=
  if Type3_TypeID w =? F64Type then None else Some (Type3_Arg w, Type3_TypeID w).

Lemma collect_args s ws : regular_call_args (foldl collect_arg s ws) =
  regular_call_args s ++ omap regular_arg ws.
Proof.
  revert s. induction ws as [|w ws IH]; intros s; cbn; [by rewrite app_nil_r|].
  rewrite IH. unfold collect_arg, regular_arg. destruct (Type3_TypeID w =? F64Type); cbn; [done|].
  by rewrite <- (assoc_L (++)).
Qed.

Lemma omap_lookup_pos {A B} (f : A -> option B) (l : list A) k y : omap f l !! k = Some y ->
  exists i x, l !! i = Some x /\ f x = Some y /\ (k <= i)%nat.
Proof.
  revert k. induction l as [|a l IH]; intros k Hk; cbn in Hk; [done|].
  destruct (f a) as [b|] eqn:Ea.
  - destruct k as [|k]; cbn in Hk; [injection Hk as <-; exists O, a; split_and!; [done..|lia]|].
    destruct (IH k Hk) as (i & x & ? & ? & ?). exists (S i), x. split_and!; [done..|lia].
  - destruct (IH k Hk) as (i & x & ? & ? & ?). exists (S i), x. split_and!; [done..|lia].
Qed.

Section Call.
Context (instrs : list Z) (mat : list bool) (bbs : list BasicBlock).
Context (E : list (list event)) (ts : list Z) (Hck : code_ok instrs mat bbs E ts).
Context (asg : list Z) (Hra : regalloc_ok instrs bbs E ts asg).
Local Abbreviation pop := (pos_opcode instrs bbs).
Local Abbreviation run := (run instrs bbs).

(** The instruction words of the arguments of the call at position [c]. *)
Definition call_words (c : nat) : list Z :=
  omap (fun q => i ← instr_at bbs q; instrs !! Z.to_nat i) (seq (c - run c) (run c)).

Definition call_operands (c : nat) : CallArgs := foldl collect_arg (MkArgs [] []) (call_words c).

Context (c : nat) (Hc : is_call (pop c) = true).

Lemma arg_position j : (j < run c)%nat ->
  exists a w, arg_range instrs bbs (c - run c + j) c a /\ run (c - run c + j) = j /\
    instrs !! Z.to_nat a = Some w /\ opcode_of w = Some CALL_ARG.
Proof.
  intros Hj. destruct (run_back instrs bbs c (run c - j)) as (Hle & Hrun & Hall); [lia|].
  destruct (run_back instrs bbs c (run c)) as (Hle' & _ & _); [lia|].
  replace (c - (run c - j))%nat with (c - run c + j)%nat in * by lia.
  assert (pop (c - run c + j) = Some CALL_ARG) as Hop by (apply Hall; lia).
  unfold pos_opcode in Hop. destruct (instr_at bbs (c - run c + j)) as [a|] eqn:Ea; [|done].
  cbn in Hop. unfold op_at in Hop. destruct (instrs !! Z.to_nat a) as [w|] eqn:Ew; [|done].
  exists a, w. split_and!; [split_and!; [lia|done..]|lia|done|done].
Qed.

Lemma call_words_lookup i w : call_words c !! i = Some w ->
  exists a, (i < run c)%nat /\ arg_range instrs bbs (c - run c + i) c a /\ run (c - run c + i) = i /\
    instrs !! Z.to_nat a = Some w /\ opcode_of w = Some CALL_ARG.
Proof.
  unfold call_words. intros Hi.
  assert (omap (fun q => i ← instr_at bbs q; instrs !! Z.to_nat i) (seq (c - run c) (run c)) =
    (fun q => default 0 (i ← instr_at bbs q; instrs !! Z.to_nat i)) <$> seq (c - run c) (run c)) as Eo.
  { assert (forall q, q ∈ seq (c - run c) (run c) ->
      is_Some (i ← instr_at bbs q; instrs !! Z.to_nat i)) as Hsome.
    { intros q Hq%elem_of_seq. destruct (arg_position (q - (c - run c))) as (a & w' & Hr & _ & Hw & _); [lia|].
      replace (c - run c + (q - (c - run c)))%nat with q in Hr by lia.
      destruct Hr as (_ & -> & _). cbn. by rewrite Hw. }
    revert Hsome. generalize (seq (c - run c) (run c)) as l. clear.
    induction l as [|q l IH]; intros Hs; cbn; [done|].
    destruct (Hs q) as [x Hx]; [by left|]. rewrite Hx. cbn. f_equal. apply IH. intros; apply Hs; by right. }
  rewrite Eo, list_lookup_fmap in Hi. destruct (seq (c - run c) (run c) !! i) as [q|] eqn:Eq; [|done].
  apply lookup_seq in Eq as [-> Hlt]. destruct (arg_position i Hlt) as (a & w' & Hr & Hrun & Hw & Hop).
  exists a. pose proof Hr as (_ & Ha & _). injection Hi as Hi. rewrite Ha in Hi. cbn in Hi.
  rewrite Hw in Hi. cbn in Hi. by subst w'.
Qed.

Lemma arg_block p a : arg_range instrs bbs p c a ->
  exists b ss, points bbs !! p = Some (Z.of_nat b, (ss, a)) /\
    exists x, points bbs !! c = Some (Z.of_nat b, x).
Proof.
  intros (Hlt & Hp & _ & Hr). pose proof Hc as Hc'. unfold pos_opcode, instr_at in Hc'.
  destruct (points bbs !! c) as [[b [ss i]]|] eqn:Ec; [|done].
  destruct (Forall2_lookup_l _ _ _ _ _ (points_events _ _ _ _ (ck_events _ _ _ _ _ Hck)) Ec) as (e & He & _).
  assert (a ∈ e.1) as Ha.
  { by eapply (ck_call_reads _ _ _ _ _ Hck p c). }
  assert (op_at instrs a = Some CALL_ARG) as Hop.
  { rewrite <- (store_opcode instrs bbs _ _ Hp). apply Hr. lia. }
  destruct (ck_read_arg _ _ _ _ _ Hck _ _ _ _ _ _ Ec He Ha Hop) as (_ & p' & ss' & _ & Hp' & _).
  assert (p' = p) as ->.
  { eapply (instr_at_inj instrs mat bbs E ts Hck); [unfold instr_at; by rewrite Hp'|done]. }
  destruct (point_lookup_inv instrs mat bbs E (ck_events _ _ _ _ _ Hck) _ _ Hp') as (bn & _ & _ & _ & _ & Eb & _).
  cbn in Eb. subst b. eauto.
Qed.

(** The operand of an argument is read by it. *)
Lemma arg_operand p a w : arg_range instrs bbs p c a -> instrs !! Z.to_nat a = Some w ->
  opcode_of w = Some CALL_ARG -> Value_IsConstantGlobal (Type3_Arg w) = false ->
  exists e, mjoin E !! p = Some e /\ Type3_Arg w ∈ e.1.
Proof.
  intros Hr Hw Hop Hconst. destruct (arg_block _ _ Hr) as (b & ss & Hp & _).
  destruct (Forall2_lookup_l _ _ _ _ _ (points_events _ _ _ _ (ck_events _ _ _ _ _ Hck)) Hp)
    as ([r wr] & He & Hev).
  exists (r, wr). split; [done|]. apply instr_event_Ok in Hev as [Hread _]. cbn [fst snd] in Hread |- *.
  unfold GetReadValues in Hread.
  destruct (point_instr _ _ _ _ (ck_events _ _ _ _ _ Hck) _ _ _ _ Hp) as (w' & Hw' & Hw2 & _).
  assert (w' = w) as -> by congruence. rewrite Hw' in Hread. cbn [mbind Res_bind] in Hread.
  rewrite Hop in Hread. unfold read_materialized, read in Hread. rewrite Hconst in Hread.
  apply bind_Ok in Hread as (g & _ & Hread). destruct g.
  - apply bind_Ok in Hread as (m & _ & Hread). destruct m; [|done]. injection Hread as <-. by left.
  - injection Hread as <-. by left.
Qed.

(** The operand of an argument is live since the first argument of the call. *)
Lemma operand_live i j a w : (j <= i < run c)%nat ->
  arg_range instrs bbs (c - run c + i) c a -> instrs !! Z.to_nat a = Some w ->
  opcode_of w = Some CALL_ARG -> Value_IsConstantGlobal (Type3_Arg w) = false ->
  0 <= Type3_Arg w < vec_size instrs /\ op_at instrs (Type3_Arg w) <> Some CALL_ARG /\
  live_around bbs E (Type3_Arg w) (c - run c + j).
Proof.
  intros Hij Hr Hw Hop Hconst. destruct (arg_operand _ _ _ Hr Hw Hop Hconst) as (e & He & Hv).
  destruct (arg_block _ _ Hr) as (b & ss & Hp & xc & Hxc).
  destruct (ck_reads _ _ _ _ _ Hck e _ (list_elem_of_lookup_2 _ _ _ He) Hv) as [Hrange _].
  assert (op_at instrs (Type3_Arg w) <> Some CALL_ARG) as Hna.
  { intros Ho. destruct (ck_read_arg _ _ _ _ _ Hck _ _ _ _ _ _ Hp He Hv Ho) as [Hcall _].
    rewrite (proj2 (proj2 (proj2 Hr))) in Hcall by (pose proof (proj1 Hr); lia). done. }
  split_and!; try done; try apply Hrange.
  destruct (arg_position j) as (aj & wj & Hrj & _); [lia|].
  destruct (arg_block _ _ Hrj) as (b' & ssj & Hpj & xc' & Hxc'). rewrite Hxc in Hxc'.
  injection Hxc' as Eb _. apply Nat2Z.inj in Eb as <-.
  destruct (points_block _ _ _ _ _ Hck _ _ _ Hp) as (ki & Eki & [ei Hei]).
  destruct (points_block _ _ _ _ _ Hck _ _ _ Hpj) as (kj & Ekj & [ej Hej]).
  destruct (event_point _ _ _ _ _ Hck _ _ _ Hei) as (? & _ & Hei' & _). rewrite <- Eki in Hei'.
  pose proof (eq_trans (eq_sym He) Hei') as [= <-].
  destruct (point_lookup_inv instrs mat bbs E (ck_events _ _ _ _ _ Hck) _ _ Hpj)
    as (b2 & blk & k2 & Hb & Hk2 & Eb & Ek2). cbn in Eb. apply Nat2Z.inj in Eb as <-.
  assert (k2 = kj) as -> by lia.
  exists b, blk, kj. split_and!; [done|by eapply lookup_lt_Some|by rewrite Ekj|]. left. left.
  apply (exposed_at _ _ (ki - kj) e); [|done|].
  { rewrite lookup_drop. by replace (kj + (ki - kj))%nat with ki by lia. }
  intros k e' Hk. rewrite lookup_drop. intros He'.
  destruct (event_point _ _ _ _ _ Hck _ _ _ He') as ([ss2 i2] & Hp2 & HE2 & _).
  assert (op_at instrs i2 = Some CALL_ARG) as Hop2.
  { rewrite <- (pop_point _ _ _ _ _ _ Hp2).
    apply (proj2 (proj2 (proj2 Hrj))). pose proof (proj1 Hr). lia. }
  rewrite (written_arg _ _ _ _ _ Hck _ _ _ _ _ Hp2 HE2 Hop2). intros [= ->]. done.
Qed.

Lemma operand_avoids_args k v t : regular_call_args (call_operands c) !! k = Some (v, t) ->
  avoids asg v (take k normal_arg_reg).
Proof.
  unfold call_operands. rewrite collect_args. cbn [regular_call_args app].
  intros (i & w & Hi & Hw & Hki)%omap_lookup_pos.
  unfold regular_arg in Hw. destruct (Type3_TypeID w =? F64Type); [done|]. injection Hw as <- <-.
  destruct (call_words_lookup _ _ Hi) as (a & Hlt & Hr & Hrun & Hwa & Hop).
  destruct (Value_IsConstantGlobal (Type3_Arg w)) eqn:Hconst; [by left|right].
  intros [j Hj]%list_elem_of_lookup_1. apply lookup_take_Some in Hj as [Hj Hjk].
  destruct (operand_live i j a w) as (Hrange & Hna & Hlive); [lia|done..|].
  destruct (arg_position j) as (aj & wj & Hrj & Hrunj & Hwj & Hopj); [lia|].
  rewrite (GetIdx_id (length instrs)) in Hj by (done || apply Hck).
  apply (ra_arg _ _ _ _ _ Hra (Type3_Arg w) (c - run c + j) (c - run c + j) c aj
    (reg_of asg (Type3_Arg w)) Hrj); try done; [by rewrite Hrunj|pose proof (proj1 Hrj); lia|].
  intros Heq. apply Hna. rewrite Heq. unfold op_at. by rewrite Hwj.
Qed.

(** A regular operand is not in a vector register. *)
Definition args_typed : Prop := forall v t, (v, t) ∈ regular_call_args (call_operands c) ->
  Value_IsConstantGlobal v = false ->
  exists t', ts !! Z.to_nat v = Some t' /\ IsVector t' = false.

Lemma operand_not_fp k v t : args_typed -> regular_call_args (call_operands c) !! k = Some (v, t) ->
  avoids asg v fp_arg_reg.
Proof.
  intros Hty Hk. pose proof (list_elem_of_lookup_2 _ _ _ Hk) as Hin.
  destruct (Value_IsConstantGlobal v) eqn:Hconst; [by left|right]. intros Hfp.
  destruct (Hty v t Hin Hconst) as (t' & Ht' & Hnv).
  unfold call_operands in Hk. rewrite collect_args in Hk. cbn [regular_call_args app] in Hk.
  apply omap_lookup_pos in Hk as (i & w & Hi & Hw & _).
  unfold regular_arg in Hw. destruct (Type3_TypeID w =? F64Type); [done|]. injection Hw as <- <-.
  destruct (call_words_lookup _ _ Hi) as (a & Hlt & Hr & Hrun & Hwa & Hop).
  destruct (operand_live i i a w) as (Hrange & Hna & Hlive); [lia|done..|].
  rewrite (GetIdx_id (length instrs)) in Hfp by (done || apply Hck).
  assert (50 <= reg_of asg (Type3_Arg w) <= 57) as Hreg.
  { revert Hfp. generalize (reg_of asg (Type3_Arg w)) as r. intros r Hfp. unfold fp_arg_reg in Hfp.
    repeat (apply elem_of_cons in Hfp as [->|Hfp]; [cbn; lia|]). by apply not_elem_of_nil in Hfp. }
  destruct (op_at instrs (Type3_Arg w)) as [op|] eqn:Eop.
  - destruct (is_cmp (Some op)) eqn:Ecmp.
    + destruct (ra_cmp _ _ _ _ _ Hra _ _ _ Hlive Eop Ecmp) as [?|[_ Hf]]; [lia|].
      unfold IFlag, FFlag in Hf. case_match; lia.
    + destruct (ra_value _ _ _ _ _ Hra _ _ _ _ Hlive Eop Ht' Ecmp) as [?|Hcl]; [lia|].
      unfold type_class in Hcl. rewrite Hnv in Hcl. apply free_normal0_reg in Hcl. lia.
  - unfold op_at in Eop. unfold vec_size in Hrange.
    destruct (lookup_lt_is_Some_2 instrs (Z.to_nat (Type3_Arg w))) as [w' Hw']; [lia|].
    rewrite Hw' in Eop. cbn in Eop.
    destruct (Forall2_lookup_l _ _ _ _ _ (ck_types _ _ _ _ _ Hck) Hw') as (t & _ & Ht).
    unfold TypeOfValue in Ht. by rewrite Eop in Ht.
Qed.
End Call.

(** C4. Arguments arrive: with the registers the allocator chose, the moves in
    front of a call leave the value of every integer or pointer argument, as it
    was before the moves, in its register of the calling convention or in its
    stack slot, although the moves are made one after the other and the source
    of one may be the target of another; the stack area is 16-byte aligned. *)
Theorem call_arguments_arrive is_ptr mem instrs mat bbs E ts asg c file :
  code_ok instrs mat bbs E ts -> regalloc_ok instrs bbs E ts asg ->
  is_call (pos_opcode instrs bbs c) = true ->
  args_typed instrs bbs ts c ->
  (length (floating_point_call_args (call_operands instrs bbs c)) <= 8)%nat ->
  (forall file v, v ∈ floating_point_call_args (call_operands instrs bbs c) ->
    exists x, move_operand_f64 asg mem file v = Ok x) ->
  (forall v t, (v, t) ∈ regular_call_args (call_operands instrs bbs c) ->
    arg_type is_ptr t = true /\ exists x, move_operand asg mem file t v = Ok x) ->
  exists file' stack, pass_args is_ptr asg mem file (call_operands instrs bbs c) = Ok (file', stack) /\
    (forall k v t x, regular_call_args (call_operands instrs bbs c) !! k = Some (v, t) ->
      move_operand asg mem file t v = Ok x ->
      match normal_arg_reg !! k with
      | Some r => reg_passes t x (file' r)
      | None => stack !! (k - 6)%nat = Some (8 * (Z.of_nat k - 6), stack_passes t x)
      end) /\
    (dynamic_stack_alloc (Z.of_nat (length stack))) mod 16 = 0.
Proof.
  intros Hck Hra Hc Hty Hfp Hfr Hw. set (s := call_operands instrs bbs c) in *. unfold pass_args.
  destruct (pass_fp_ok asg mem file fp_arg_reg (floating_point_call_args s)) as (file1 & -> & Hf1); [done..|].
  cbn [mbind Res_bind].
  assert (forall k v t, regular_call_args s !! k = Some (v, t) ->
    move_operand asg mem file1 t v = move_operand asg mem file t v) as Hop1.
  { intros k v t Hk. eapply operand_avoids; [|exact Hf1].
    by apply (operand_not_fp instrs mat bbs E ts Hck asg Hra c Hc k v t Hty). }
  assert (forall v t, (v, t) ∈ regular_call_args s ->
    arg_type is_ptr t = true /\ exists x, move_operand asg mem file1 t v = Ok x) as Hw1.
  { intros v t Hin. pose proof Hin as [k Hk]%list_elem_of_lookup_1. rewrite (Hop1 k v t Hk). by apply Hw. }
  destruct (pass_regular_ok is_ptr asg mem file1 file1 [] normal_arg_reg (regular_call_args s))
    as (file2 & -> & Hother & _ & Hval); [apply normal_arg_reg_nodup|by repeat constructor|done| |done|].
  { intros k v t Hk. by apply (operand_avoids_args instrs mat bbs E ts Hck asg Hra c Hc k v t). }
  cbn [mbind Res_bind].
  assert (forall k v t, drop 6 (regular_call_args s) !! k = Some (v, t) ->
    move_operand asg mem file2 t v = move_operand asg mem file1 t v) as Hop2.
  { intros k v t Hk. rewrite lookup_drop in Hk.
    eapply operand_avoids; [|exact Hother].
    pose proof (operand_avoids_args instrs mat bbs E ts Hck asg Hra c Hc _ v t Hk) as Ha.
    cbn [app]. apply lookup_lt_Some in Hk.
    rewrite take_ge in Ha by (cbn; lia). by rewrite take_ge by (cbn; lia). }
  destruct (pass_stack_ok is_ptr asg mem file2 0 (drop 6 (regular_call_args s))) as (stack & Es & Hstack).
  { intros v t Hin. pose proof Hin as [k Hk]%list_elem_of_lookup_1. rewrite (Hop2 k v t Hk).
    apply Hw1. rewrite lookup_drop in Hk. by eapply list_elem_of_lookup_2. }
  change (length normal_arg_reg) with 6%nat. rewrite Es. cbn [mbind Res_bind].
  exists file2, stack. split; [done|]. split; [|apply dynamic_stack_alloc_ok; lia].
  intros k v t x Hk Hx. rewrite <- (Hop1 k v t Hk) in Hx.
  destruct (normal_arg_reg !! k) as [r|] eqn:Hr; [by eapply Hval|].
  apply lookup_ge_None in Hr. cbn in Hr.
  assert (drop 6 (regular_call_args s) !! (k - 6)%nat = Some (v, t)) as Hk'.
  { rewrite lookup_drop. by replace (6 + (k - 6))%nat with k by lia. }
  rewrite (Hstack _ _ _ x Hk'); [do 2 f_equal; lia|]. by rewrite (Hop2 _ _ _ Hk').
Qed.

Module CallDemo.
Import RegAllocDemo.

Definition demo_asg : list Z := [15; 11; 13; -1; -1; 11; -1; 100; -1; -1].
Definition demo_mem (t v : Z) : Res Z := Ok 0.

(** The call of the example passes value 2, in R13, in RDI. *)
Lemma call_arguments_arrive_witness :
  exists file' stack, pass_args (fun _ => false) demo_asg demo_mem
      (fun r => r) (call_operands instrs bbs 4) = Ok (file', stack) /\
    (forall k v t x, regular_call_args (call_operands instrs bbs 4) !! k = Some (v, t) ->
      move_operand demo_asg demo_mem (fun r => r) t v = Ok x ->
      match normal_arg_reg !! k with
      | Some r => reg_passes t x (file' r)
      | None => stack !! (k - 6)%nat = Some (8 * (Z.of_nat k - 6), stack_passes t x)
      end) /\
    (dynamic_stack_alloc (Z.of_nat (length stack))) mod 16 = 0.
Proof.
  apply (call_arguments_arrive _ _ _ mat _ E ts).
  - apply code.
  - apply allocated.
  - by vm_compute.
  - assert (regular_call_args (call_operands instrs bbs 4) = [(2, I32Type)]) as Er by (by vm_compute).
    intros v t. rewrite Er. intros [= -> ->]%list_elem_of_singleton _. by exists I32Type.
  - assert (floating_point_call_args (call_operands instrs bbs 4) = []) as -> by (by vm_compute).
    cbn. lia.
  - assert (floating_point_call_args (call_operands instrs bbs 4) = []) as -> by (by vm_compute).
    intros _ v []%not_elem_of_nil.
  - assert (regular_call_args (call_operands instrs bbs 4) = [(2, I32Type)]) as Er by (by vm_compute).
    intros v t. rewrite Er. intros [= -> ->]%list_elem_of_singleton. split; [done|]. by eexists.
Defined.

(** ** Floating-point arguments

    [TypeOf] of a [CALL_ARG] is void, so the interval of a floating-point argument
    is given a general-purpose register and no xmm register is reserved between
    the arguments and the call. *)
Definition fp_instrs : list Z :=
  [typed FUNC_ARG 0 I8PtrType; binary F64_LOAD 0 0; binary F64_LOAD 0 0;
   typed CALL_ARG 1 F64Type; typed CALL_ARG 2 F64Type; typed CALL 0 VoidType; OpcodeTo RETURN].
Definition fp_bbs : list BasicBlock := [MkBB [(0, 6)] [] []].
Definition fp_pick (s : gset Z) : Z :=
  if decide (51 ∈ s) then 51 else if decide (50 ∈ s) then 50 else LinearScanDemo.pick s.

Lemma fp_pick_in (s : gset Z) : s <> ∅ -> fp_pick s ∈ s.
Proof. intros H. unfold fp_pick. repeat case_decide; [done..|]. by apply LinearScanDemo.pick_in. Qed.

(** Two floating-point arguments can overwrite each other: in a function that
    loads two doubles and passes them to a call, an allocation that linear scan
    makes has the first value in xmm1 and the second in xmm0, and after the moves
    in front of the call both xmm0 and xmm1 hold the first one. *)
Theorem fp_arguments_overwritten :
  exists asg, LinearScanRegisterAlloc fp_pick LinearScanDemo.sort fp_instrs (replicate 7 false) fp_bbs [0] = Ok asg /\
    floating_point_call_args (call_operands fp_instrs fp_bbs 5) = [1; 2] /\
    forall is_ptr mem file, move_operand_f64 asg mem file 1 = Ok (file 51) /\ move_operand_f64 asg mem file 2 = Ok (file 50) /\
      exists file' stack, pass_args is_ptr asg mem file (call_operands fp_instrs fp_bbs 5) = Ok (file', stack) /\
        file' 50 = file 51 /\ file' 51 = file 51.
Proof.
  exists [15; 51; 50; -1; -1; -1; -1]. split; [by vm_compute|]. split; [by vm_compute|].
  intros is_ptr mem file. split; [done|]. split; [done|]. eexists _, []. by split_and!.
Qed.

End CallDemo.
