(* ===== verification/Utilities.v ===== *)
(** * Utilities

    Small components the others rest on: the union-find of src/util/union_find.cc, the
    table of src/util/permute.cc that compresses a vector by a mask, and the bump
    allocator of src/runtime/allocator.cc. *)
From S2P Require Import Prelude.

(** ** Union-find (src/util/union_find.cc) *)
Fixpoint Find (fuel : nat) (parent : list Z) (i : Z) : Res (Z * list Z) :=
  match fuel with
  | O => NoFuel
  | S fuel =>
      p ← vec_at parent i;
      if p =? i then Ok (i, parent)
      else '(r, parent) ← Find fuel parent p; parent ← vec_set parent i r; Ok (r, parent)
  end.

(** A path to a root visits every element at most once. *)
Definition find_fuel (parent : list Z) : nat := length parent.

Definition Union (parent : list Z) (x y : Z) : Res (list Z) :=
  '(xset, parent) ← Find (find_fuel parent) parent x;
  '(yset, parent) ← Find (find_fuel parent) parent y;
  if xset =? yset then Ok parent else vec_set parent xset yset.

(** [n] steps lead from [i] to the root [r]. *)
Inductive root_in (parent : list Z) : nat -> Z -> Z -> Prop :=
| root_self i : vec_at parent i = Ok i -> root_in parent 0 i i
| root_step n i p r : vec_at parent i = Ok p -> p <> i -> root_in parent n p r ->
    root_in parent (S n) i r.

(** [root] gives the representative of every element. *)
Definition uf_ok (parent : list Z) (root : Z -> Z) : Prop :=
  forall i, 0 <= i < vec_size parent -> exists n, root_in parent n i (root i).

Lemma root_in_det parent n i r : root_in parent n i r ->
  forall n' r', root_in parent n' i r' -> n' = n /\ r' = r.
Proof.
  induction 1 as [i Hi|n i p r Hi Hp _ IH]; intros n' r' H'; inversion H'; subst; try congruence; [done|].
  assert (p0 = p) as -> by congruence. match goal with H : root_in _ n0 p r' |- _ => apply IH in H as [-> ->] end. done.
Qed.

Lemma root_in_root parent n i r : root_in parent n i r -> vec_at parent r = Ok r.
Proof. by induction 1. Qed.

(** The elements on the way to the root are distinct. *)
Lemma root_in_path parent n i r : root_in parent n i r ->
  exists path, length path = S n /\ NoDup path /\
    forall x, x ∈ path -> 0 <= x < vec_size parent /\ exists m, (m <= n)%nat /\ root_in parent m x r.
Proof.
  induction 1 as [i Hi|n i p r Hi Hp Hr (path & Hl & Hnd & Hin)].
  - exists [i]. split_and!; [done|apply NoDup_singleton|]. intros x ->%list_elem_of_singleton.
    split; [by eapply vec_at_range|]. exists 0%nat. split; [lia|by constructor].
  - assert (root_in parent (S n) i r) as Hi' by (by econstructor). exists (i :: path). split_and!; [cbn; lia| |].
    + apply list.NoDup_cons. split; [|done]. intros (_ & m & Hm & Hx)%Hin. destruct (root_in_det _ _ _ _ Hi' _ _ Hx). lia.
    + intros x [->|Hx]%elem_of_cons; [split; [by eapply vec_at_range|]; by exists (S n)|].
      destruct (Hin x Hx) as [? (m & ? & ?)]. split; [done|]. exists m. split; [lia|done].
Qed.

Lemma root_in_short parent n i r : root_in parent n i r -> (n < length parent)%nat.
Proof.
  intros (path & Hl & Hnd & Hin)%root_in_path.
  assert (path ⊆+ seqZ 0 (vec_size parent)) as Hs%submseteq_length.
  { apply NoDup_submseteq; [done|]. intros x [? _]%Hin. apply elem_of_seqZ. lia. }
  rewrite Hl, length_seqZ in Hs. unfold vec_size in Hs. lia.
Qed.

(** Pointing an element at its own root changes no root. *)
Lemma root_in_compress parent n i r : root_in parent n i r -> i <> r ->
  forall m j t, root_in parent m j t -> exists m', root_in (<[Z.to_nat i := r]> parent) m' j t.
Proof.
  intros Hi Hir m j t. assert (0 <= i < vec_size parent) as Hr by (destruct Hi; by eapply vec_at_range).
  pose proof (root_in_root _ _ _ _ Hi) as Hroot.
  assert (root_in (<[Z.to_nat i := r]> parent) 1 i r) as Hnew.
  { apply (root_step _ 0 i r); [by rewrite vec_at_insert, decide_True|done|].
    constructor. by rewrite vec_at_insert, decide_False by done. }
  induction 1 as [j Hj|m j p t Hj Hp Ht [m' IH]].
  - destruct (decide (j = i)) as [->|Hne]; [by destruct (root_in_det _ _ _ _ Hi 0%nat i (root_self _ _ Hj))|].
    exists 0%nat. constructor. by rewrite vec_at_insert, decide_False by done.
  - destruct (decide (j = i)) as [->|Hne].
    + destruct (root_in_det _ _ _ _ Hi _ _ (root_step _ _ _ _ _ Hj Hp Ht)) as [_ ->]. by exists 1%nat.
    + exists (S m'). eapply root_step; [by rewrite vec_at_insert, decide_False|done|done].
Qed.

(** Pointing a root at another root merges their classes. *)
Lemma root_in_link parent a b : vec_at parent a = Ok a -> vec_at parent b = Ok b -> a <> b ->
  forall m j t, root_in parent m j t ->
    exists m', root_in (<[Z.to_nat a := b]> parent) m' j (if decide (t = a) then b else t).
Proof.
  intros Ha Hb Hab m j t. pose proof (vec_at_range _ _ _ Ha) as Hr.
  induction 1 as [j Hj|m j p t Hj Hp Ht [m' IH]].
  - case_decide as E; subst.
    + exists 1%nat. apply (root_step _ 0 a b); [by rewrite vec_at_insert, decide_True|done|].
      constructor. by rewrite vec_at_insert, decide_False by done.
    + exists 0%nat. constructor. by rewrite vec_at_insert, decide_False.
  - assert (j <> a) by (intros ->; congruence).
    exists (S m'). eapply root_step; [by rewrite vec_at_insert, decide_False|done|done].
Qed.

Lemma Find_ok fuel : forall parent n i r, root_in parent n i r -> (n < fuel)%nat ->
  exists parent', Find fuel parent i = Ok (r, parent') /\ length parent' = length parent /\
    forall m j t, root_in parent m j t -> exists m', root_in parent' m' j t.
Proof.
  induction fuel as [|fuel IH]; intros parent n i r Hr Hn; [lia|]. cbn [Find].
  destruct Hr as [i Hi|n i p r Hi Hp Hr].
  - rewrite Hi. cbn [mbind Res_bind]. rewrite Z.eqb_refl. exists parent. split_and!; [done..|eauto].
  - rewrite Hi. cbn [mbind Res_bind]. rewrite (proj2 (Z.eqb_neq p i)) by done.
    destruct (IH parent n p r Hr ltac:(lia)) as (parent1 & -> & Hl & Hsame). cbn [mbind Res_bind].
    pose proof (root_step _ _ _ _ _ Hi Hp Hr) as Hi'. destruct (Hsame _ _ _ Hi') as [n1 Hi1].
    assert (i <> r) as Hne by (intros <-; apply root_in_root in Hr; congruence).
    assert (vec_set parent1 i r = Ok (<[Z.to_nat i:=r]> parent1)) as ->.
    { apply vec_set_Ok. split; [|done]. apply vec_at_range in Hi. unfold vec_size in *. lia. }
    cbn [mbind Res_bind]. eexists. split_and!; [done|by rewrite length_insert|].
    intros m j t [m1 Hj]%Hsame. by eapply root_in_compress.
Qed.

Lemma Find_root parent root i : uf_ok parent root -> 0 <= i < vec_size parent ->
  exists parent', Find (find_fuel parent) parent i = Ok (root i, parent') /\
    length parent' = length parent /\ uf_ok parent' root.
Proof.
  intros Hok Hi. destruct (Hok i Hi) as [n Hn].
  destruct (Find_ok (find_fuel parent) parent n i _ Hn (root_in_short _ _ _ _ Hn)) as (parent' & E & Hl & Hs).
  exists parent'. split_and!; [done..|]. intros j Hj. unfold vec_size in Hj. rewrite Hl in Hj.
  destruct (Hok j Hj) as [m Hm]. by eapply Hs.
Qed.

(** The classes of [x] and [y] become one, represented by the root of [y]; every
    other element keeps its representative. *)
Lemma Union_roots parent root x y : uf_ok parent root ->
  0 <= x < vec_size parent -> 0 <= y < vec_size parent ->
  exists parent', Union parent x y = Ok parent' /\ length parent' = length parent /\
    uf_ok parent' (fun j => if decide (root j = root x) then root y else root j).
Proof.
  intros Hok Hx Hy. unfold Union.
  destruct (Find_root parent root x Hok Hx) as (p1 & -> & Hl1 & Hok1). cbn [mbind Res_bind].
  assert (vec_size p1 = vec_size parent) as Hs1 by (unfold vec_size; lia).
  destruct (Find_root p1 root y Hok1) as (p2 & -> & Hl2 & Hok2); [lia|]. cbn [mbind Res_bind].
  assert (vec_size p2 = vec_size parent) as Hs2 by (unfold vec_size; lia).
  destruct (Hok2 x ltac:(lia)) as [nx Hnx]. destruct (Hok2 y ltac:(lia)) as [ny Hny].
  destruct (Z.eqb_spec (root x) (root y)) as [E|E].
  - exists p2. split_and!; [done|lia|]. intros j Hj. destruct (Hok2 j Hj) as [m Hm]. exists m. case_decide; congruence.
  - pose proof (root_in_root _ _ _ _ Hnx) as Ha. eexists. split_and!.
    + apply vec_set_Ok. split; [by apply vec_at_range in Ha|done].
    + rewrite length_insert. lia.
    + intros j Hj. unfold vec_size in Hj. rewrite length_insert in Hj. destruct (Hok2 j Hj) as [m Hm].
      by apply (root_in_link p2 (root x) (root y) Ha (root_in_root _ _ _ _ Hny) E m j _).
Qed.

(** Before any union every element is its own representative. *)
Lemma uf_initial n : uf_ok (seqZ 0 (Z.of_nat n)) (fun i => i).
Proof.
  intros i Hi. exists 0%nat. constructor. apply vec_at_Ok. split; [lia|]. apply lookup_seqZ.
  unfold vec_size in Hi. rewrite length_seqZ in Hi. lia.
Qed.

(** Unions, one after the other. *)
Definition unions (parent : list Z) (pairs : list (Z * Z)) : Res (list Z) :=
  foldM (fun parent xy => Union parent xy.1 xy.2) parent pairs.

(** Connected by the pairs, in either direction. *)
Definition linked (pairs : list (Z * Z)) : relation Z := rtsc (fun a b => (a, b) ∈ pairs).

Lemma linked_snoc pairs p a b : linked pairs a b -> linked (pairs ++ [p]) a b.
Proof. apply rtc_subrel. intros ?? [H|H]; [left|right]; apply elem_of_app; by left. Qed.

Lemma unions_roots n pairs : Forall (fun xy => 0 <= xy.1 < Z.of_nat n /\ 0 <= xy.2 < Z.of_nat n) pairs ->
  exists parent root, unions (seqZ 0 (Z.of_nat n)) pairs = Ok parent /\ length parent = n /\ uf_ok parent root /\
    (forall x y, (x, y) ∈ pairs -> root x = root y) /\ forall i, linked pairs i (root i).
Proof.
  unfold unions. induction pairs as [|[x y] pairs IH] using rev_ind; intros Hp.
  - exists (seqZ 0 (Z.of_nat n)), (fun i => i). split_and!; [done|by rewrite length_seqZ, Nat2Z.id|apply uf_initial|by intros ?? ?%not_elem_of_nil|reflexivity].
  - apply Forall_app in Hp as [Hp Hxy]. apply list.Forall_cons in Hxy as [Hxy _]. cbn [fst snd] in Hxy.
    destruct (IH Hp) as (parent & root & E & Hl & Hok & Hpairs & Hlinked).
    assert (vec_size parent = Z.of_nat n) as Hsz by (unfold vec_size; by rewrite Hl).
    destruct (Union_roots parent root x y Hok) as (parent' & E' & Hl' & Hok'); [rewrite Hsz; apply Hxy|rewrite Hsz; apply Hxy|].
    rewrite foldM_app, E. cbn [mbind Res_bind foldM fst snd]. rewrite E'. eexists _, _. split_and!; [done|lia|exact Hok'| |].
    + intros a b [H|[= -> ->]%list_elem_of_singleton]%elem_of_app; [by rewrite (Hpairs a b H)|].
      rewrite decide_True by done. by case_decide.
    + intros i. cbn beta. case_decide as Hi; [|by apply linked_snoc].
      transitivity x; [transitivity (root i); [by apply linked_snoc|]|].
      { rewrite Hi. unfold linked. symmetry. by apply linked_snoc. }
      transitivity y; [|by apply linked_snoc]. apply rtsc_lr, elem_of_app. right. by left.
Qed.

(** After any sequence of unions two elements have the same representative exactly
    when the pairs connect them; finding a representative always ends. *)
Theorem union_find_classes n pairs i j :
  Forall (fun xy => 0 <= xy.1 < Z.of_nat n /\ 0 <= xy.2 < Z.of_nat n) pairs ->
  0 <= i < Z.of_nat n -> 0 <= j < Z.of_nat n ->
  exists parent ri rj p p', unions (seqZ 0 (Z.of_nat n)) pairs = Ok parent /\
    Find (find_fuel parent) parent i = Ok (ri, p) /\ Find (find_fuel parent) parent j = Ok (rj, p') /\
    (ri = rj <-> linked pairs i j).
Proof.
  intros Hp Hi Hj. destruct (unions_roots n pairs Hp) as (parent & root & E & Hl & Hok & Hpairs & Hlinked).
  destruct (Find_root parent root i Hok) as (p & Ei & _); [unfold vec_size; by rewrite Hl|].
  destruct (Find_root parent root j Hok) as (p' & Ej & _); [unfold vec_size; by rewrite Hl|].
  exists parent, (root i), (root j), p, p'. split_and!; [done..|]. split.
  - intros Er. transitivity (root i); [done|]. rewrite Er. unfold linked. symmetry. apply Hlinked.
  - clear Hi Hj Ei Ej. intros H. induction H as [i|i k j Hik Hkj IH]; [done|]. transitivity (root k); [destruct Hik as [H%Hpairs|H%Hpairs]; congruence|done].
Qed.

Lemma union_find_classes_witness :
  exists parent ri rj p p', unions (seqZ 0 5) [(0, 1); (3, 4); (1, 4)] = Ok parent /\
    Find (find_fuel parent) parent 0 = Ok (ri, p) /\ Find (find_fuel parent) parent 3 = Ok (rj, p') /\
    (ri = rj <-> linked [(0, 1); (3, 4); (1, 4)] 0 3).
Proof.
  apply (union_find_classes 5 [(0, 1); (3, 4); (1, 4)] 0 3); [|lia..]. repeat constructor; cbn; lia.
Defined.

(** ** Compressing a vector by a mask (src/util/permute.cc)

    Row [i] of the table lists the bits set in [i], lowest first, then zeros. *)
Fixpoint entry_loop (i : Z) (bits : list Z) (next : Z) (row : list Z) : Res (list Z) :=
  match bits with
  | [] => Ok row
  | bit :: bits =>
      if Z.land i (Z.shiftl 1 bit) =? 0 then entry_loop i bits next row
      else row ← vec_set row next bit; entry_loop i bits (next + 1) row
  end.

Definition permutation_row (i : Z) : Res (list Z) := entry_loop i (seqZ 0 8) 0 (replicate 8 0).

Definition PermutationTable : Res (list (list Z)) :=
  foldM (fun values i => row ← permutation_row i; Ok (values ++ [row])) [] (seqZ 0 256).

Definition GetEntry (values : list (list Z)) (i : Z) : Res (list Z) := vec_at values i.

(** The lanes of a vector that a mask selects. *)
Definition selected (mask : Z) : list Z := filter (fun bit => Z.testbit mask bit) (seqZ 0 8).

Definition table_ok (values : list (list Z)) : bool :=
  bool_decide (values = (fun i => let s := selected i in s ++ replicate (8 - length s) 0) <$> seqZ 0 256).

Lemma table_rows : exists values, PermutationTable = Ok values /\
  values = (fun i => let s := selected i in s ++ replicate (8 - length s) 0) <$> seqZ 0 256.
Proof.
  destruct PermutationTable as [values| | |] eqn:E.
  - exists values. split; [done|].
    assert (match PermutationTable with Ok v => table_ok v | _ => false end = true) as H by (vm_compute; reflexivity).
    rewrite E in H. by apply bool_decide_eq_true in H.
  - assert (match PermutationTable with Ok v => true | _ => false end = true) as H by (vm_compute; reflexivity). by rewrite E in H.
  - assert (match PermutationTable with Ok v => true | _ => false end = true) as H by (vm_compute; reflexivity). by rewrite E in H.
  - assert (match PermutationTable with Ok v => true | _ => false end = true) as H by (vm_compute; reflexivity). by rewrite E in H.
Qed.

(** Permuting a vector of eight lanes by the entry of a mask moves the selected lanes to
    the front, in order. *)
Theorem permute_compresses mask (v : list Z) : 0 <= mask < 256 -> length v = 8%nat ->
  exists values perm lanes, PermutationTable = Ok values /\ GetEntry values mask = Ok perm /\
    mapM (vec_at v) perm = Ok lanes /\
    take (length (selected mask)) lanes = (fun j => default 0 (v !! Z.to_nat j)) <$> selected mask.
Proof.
  intros Hm Hv. destruct table_rows as (values & E & Hrows). set (s := selected mask).
  assert (forall l, (forall x, x ∈ l -> 0 <= x < 8) ->
    mapM (vec_at v) l = Ok ((fun j => default 0 (v !! Z.to_nat j)) <$> l)) as Hmap.
  { induction l as [|x l IH]; intros Hl; [done|]. cbn [mapM mbind Res_bind mret Res_ret].
    destruct (lookup_lt_is_Some_2 v (Z.to_nat x)) as [y Hy]; [specialize (Hl x ltac:(by left)); lia|].
    rewrite (proj2 (vec_at_Ok v x y)) by (split; [specialize (Hl x ltac:(by left)); lia|done]).
    cbn [mbind Res_bind]. rewrite IH by (intros; apply Hl; by right). cbn. by rewrite Hy. }
  assert (forall x, x ∈ s -> 0 <= x < 8) as Hs.
  { intros x [_ Hx]%list_elem_of_filter. apply elem_of_seqZ in Hx. lia. }
  exists values, (s ++ replicate (8 - length s) 0). eexists. split_and!; [done| | |].
  - apply vec_at_Ok. split; [lia|]. rewrite Hrows, list_lookup_fmap, lookup_seqZ_lt by lia. cbn. by rewrite Z2Nat.id, Z.add_0_l by lia.
  - apply Hmap. intros x [Hx|Hx]%elem_of_app; [by apply Hs|]. apply elem_of_replicate in Hx. lia.
  - rewrite fmap_app, take_app_length'; [done|by rewrite length_fmap].
Qed.

Lemma permute_compresses_witness :
  exists values perm lanes, PermutationTable = Ok values /\ GetEntry values 74 = Ok perm /\
    mapM (vec_at [10; 11; 12; 13; 14; 15; 16; 17]) perm = Ok lanes /\
    take (length (selected 74)) lanes = (fun j => default 0 ([10; 11; 12; 13; 14; 15; 16; 17] !! Z.to_nat j)) <$> selected 74.
Proof. apply (permute_compresses 74 [10; 11; 12; 13; 14; 15; 16; 17]); [lia|reflexivity]. Defined.

(** ** The bump allocator (src/runtime/allocator.cc)

    Pages are numbered in the order they are obtained; [pages_] lists them with their
    sizes.  An address is a page and an offset into it. *)
Definition PAGE_SIZE : Z := 65536.

Record Allocator := MkAllocator { pages_ : list (Z * Z); data_offset_ : Z }.

Definition Allocator_new : Allocator := MkAllocator [] PAGE_SIZE.

Definition Allocate (a : Allocator) (s : Z) : Res (Z * Z * Allocator) :=
  let page := vec_size (pages_ a) in
  if PAGE_SIZE <? s then Ok (page, 0, MkAllocator ((page, s) :: pages_ a) (data_offset_ a))
  else
    let a := if PAGE_SIZE <? data_offset_ a + s then MkAllocator (pages_ a ++ [(page, PAGE_SIZE)]) 0 else a in
    back ← opt_ub (list.last (pages_ a));
    Ok (back.1, data_offset_ a, MkAllocator (pages_ a) (data_offset_ a + s)).

(** A region is a page, an offset and a size. *)
Fixpoint allocate_all (a : Allocator) (sizes : list Z) : Res (list (Z * Z * Z) * Allocator) :=
  match sizes with
  | [] => Ok ([], a)
  | s :: sizes =>
      '(page, off, a) ← Allocate a s;
      '(regions, a) ← allocate_all a sizes;
      Ok ((page, off, s) :: regions, a)
  end.

Definition disjoint_regions (r1 r2 : Z * Z * Z) : Prop :=
  r1.1.1 <> r2.1.1 \/ r1.1.2 + r1.2 <= r2.1.2 \/ r2.1.2 + r2.2 <= r1.1.2.

(** Pages have distinct numbers below their count; the last page is full from
    [data_offset_] on, unless nothing was allocated in it. *)
Record allocator_ok (a : Allocator) (regions : list (Z * Z * Z)) : Prop := {
  al_nodup : NoDup (pages_ a).*1;
  al_pages : forall p, p ∈ pages_ a -> 0 <= p.1 < vec_size (pages_ a);
  al_offset : 0 <= data_offset_ a <= PAGE_SIZE;
  al_first : data_offset_ a < PAGE_SIZE -> exists p, list.last (pages_ a) = Some (p, PAGE_SIZE);
  al_regions : forall r, r ∈ regions -> 0 <= r.1.2 /\ exists size, (r.1.1, size) ∈ pages_ a /\ r.1.2 + r.2 <= size;
  al_last : forall r p, r ∈ regions -> list.last (pages_ a) = Some p -> data_offset_ a < PAGE_SIZE -> r.1.1 = p.1 ->
    r.1.2 + r.2 <= data_offset_ a;
}.

Lemma Allocate_ok a regions s : allocator_ok a regions -> 0 < s ->
  exists page off a', Allocate a s = Ok (page, off, a') /\ allocator_ok a' (regions ++ [(page, off, s)]) /\
    Forall (disjoint_regions (page, off, s)) regions.
Proof.
  intros [Hnd Hp Ho Hf Hr Hl] Hs. unfold Allocate. set (page := vec_size (pages_ a)).
  assert (forall p, p ∈ pages_ a -> p.1 <> page) as Hfresh by (intros p Hin%Hp; lia).
  assert (forall r, r ∈ regions -> r.1.1 <> page) as Hrf.
  { intros r (_ & size & Hin & _)%Hr. by apply Hfresh in Hin. }
  assert (page ∉ (pages_ a).*1) as Hno by (intros ([p z] & -> & Hin)%list_elem_of_fmap; by apply Hfresh in Hin).
  assert (Forall (disjoint_regions (page, 0, s)) regions) as Hdis.
  { apply list.Forall_forall. intros r Hin%Hrf. left. cbn. congruence. }
  destruct (Z.ltb_spec PAGE_SIZE s) as [Hbig|Hsmall].
  - eexists page, 0, _. split_and!; [done| |done]. split; cbn [pages_ data_offset_].
    + cbn. by apply list.NoDup_cons.
    + unfold vec_size. cbn [length]. intros p [->|Hin%Hp]%elem_of_cons; cbn; unfold page, vec_size in *; lia.
    + done.
    + intros [p E]%Hf. exists p. destruct (pages_ a); [done|exact E].
    + intros r [Hin| ->%list_elem_of_singleton]%elem_of_app; cbn; [|split; [lia|]; exists s; split; [by left|lia]].
      destruct (Hr r Hin) as (? & size & ? & ?). split; [done|]. exists size. split; [by right|done].
    + intros r p [Hin| ->%list_elem_of_singleton]%elem_of_app E Hd Hpg.
      * destruct (Hf Hd) as [q Eq]. apply (Hl r p Hin); [|done..]. by destruct (pages_ a).
      * cbn in Hpg. destruct (Hf Hd) as [q Eq]. assert (list.last (pages_ a) = Some p) as Ep by (by destruct (pages_ a)).
        apply list.last_Some_elem_of, Hfresh in Ep. congruence.
  - destruct (Z.ltb_spec PAGE_SIZE (data_offset_ a + s)) as [Hnew|Hfit].
    + cbn [pages_ data_offset_]. rewrite list.last_snoc. cbn [opt_ub mbind Res_bind fst]. eexists page, 0, _. split_and!; [done| |done].
      assert (forall p, p ∈ pages_ a ++ [(page, PAGE_SIZE)] -> 0 <= p.1 < page + 1) as Hrange.
      { intros p [Hin%Hp| ->%list_elem_of_singleton]%elem_of_app; cbn; unfold page, vec_size in *; lia. }
      split; cbn [pages_ data_offset_].
      * rewrite fmap_app. apply list.NoDup_app. split_and!; [done| |apply NoDup_singleton]. by intros x Hx ->%list_elem_of_singleton.
      * intros p Hin. specialize (Hrange p Hin). unfold vec_size, page in *. rewrite length_app. cbn. unfold vec_size in *. lia.
      * lia.
      * intros _. exists page. by rewrite list.last_snoc.
      * intros r [Hin| ->%list_elem_of_singleton]%elem_of_app; cbn.
        -- destruct (Hr r Hin) as (? & size & ? & ?). split; [done|]. exists size. split; [|done]. apply elem_of_app. by left.
        -- split; [lia|]. exists PAGE_SIZE. split; [apply elem_of_app; right; by left|lia].
      * intros r p Hin Ep _ Hpg. rewrite list.last_snoc in Ep. injection Ep as <-. cbn in Hpg.
        apply elem_of_app in Hin as [Hin%Hrf| ->%list_elem_of_singleton]; [done|cbn; lia].
    + destruct (Hf ltac:(lia)) as [q Eq]. rewrite Eq. cbn [opt_ub mbind Res_bind fst]. eexists q, (data_offset_ a), _. split_and!; [done| |].
      * split; cbn [pages_ data_offset_]; [done|done|lia|by eauto| |].
        -- intros r [Hin| ->%list_elem_of_singleton]%elem_of_app; [by apply Hr|]. cbn. split; [lia|].
           exists PAGE_SIZE. split; [by apply list.last_Some_elem_of|lia].
        -- intros r p [Hin| ->%list_elem_of_singleton]%elem_of_app E Hd Hpg; [|cbn; lia].
           pose proof (Hl r p Hin E ltac:(lia) Hpg). lia.
      * apply list.Forall_forall. intros r Hin. unfold disjoint_regions. cbn. destruct (decide (r.1.1 = q)) as [Hq|]; [|left; congruence].
        right. right. apply (Hl r _ Hin Eq); [lia|done].
Qed.

Lemma Allocator_new_ok : allocator_ok Allocator_new [].
Proof. by split; cbn; try lia; try (intros ? ?%not_elem_of_nil); [constructor|..]. Qed.

Lemma allocate_all_ok sizes : Forall (fun s => 0 < s) sizes -> forall a old, allocator_ok a old ->
  exists regions a', allocate_all a sizes = Ok (regions, a') /\ regions.*2 = sizes /\ allocator_ok a' (old ++ regions) /\
    forall i j r1 r2, (i < j)%nat -> (length old <= j)%nat -> (old ++ regions) !! i = Some r1 -> (old ++ regions) !! j = Some r2 ->
      disjoint_regions r2 r1.
Proof.
  induction 1 as [|s sizes Hs Hsizes IH]; intros a old Hok.
  - exists [], a. rewrite app_nil_r. split_and!; [done..|]. intros i j r1 r2 _ Hj _ Hr%lookup_lt_Some. lia.
  - destruct (Allocate_ok a old s Hok Hs) as (page & off & a1 & E & Hok1 & Hdis).
    destruct (IH a1 _ Hok1) as (regions & a' & E' & Hsz & Hok' & Hrest). cbn [allocate_all]. rewrite E. cbn [mbind Res_bind].
    rewrite E'. cbn [mbind Res_bind]. exists ((page, off, s) :: regions), a'. rewrite <- app_assoc in Hok', Hrest. cbn [app] in *.
    split_and!; [done|cbn; by rewrite Hsz|done|]. intros i j r1 r2 Hij Hj Hi Hj2.
    destruct (decide (j = length old)) as [->|]; [|apply (Hrest i j); [done|rewrite length_app; cbn; lia|done..]].
    rewrite list_lookup_middle in Hj2 by done. injection Hj2 as <-. rewrite lookup_app_l in Hi by done.
    by apply (list.Forall_lookup_1 _ _ _ _ Hdis Hi).
Qed.

(** Every allocation of at least one byte returns a region inside one page, and no two
    regions overlap, however sizes above and below the page size are mixed. *)
Theorem allocations_disjoint sizes : Forall (fun s => 0 < s) sizes ->
  exists regions a, allocate_all Allocator_new sizes = Ok (regions, a) /\ regions.*2 = sizes /\
    (forall r, r ∈ regions -> 0 <= r.1.2 /\ exists size, (r.1.1, size) ∈ pages_ a /\ r.1.2 + r.2 <= size) /\
    (forall i j r1 r2, i <> j -> regions !! i = Some r1 -> regions !! j = Some r2 -> disjoint_regions r1 r2).
Proof.
  intros Hs. destruct (allocate_all_ok sizes Hs Allocator_new [] Allocator_new_ok) as (regions & a & E & Hsz & Hok & Hdis).
  exists regions, a. split_and!; [done..|by apply Hok|]. intros i j r1 r2 Hij Hi Hj. cbn in Hdis.
  destruct (decide (i < j)%nat); [|by apply (Hdis j i); [lia|lia|..]].
  pose proof (Hdis i j r1 r2 ltac:(lia) ltac:(lia) Hi Hj) as [H|[H|H]]; [left; congruence|by right; right|by right; left].
Qed.

Lemma allocations_disjoint_witness :
  exists regions a, allocate_all Allocator_new [8; 70000; 65535; 2] = Ok (regions, a) /\ regions.*2 = [8; 70000; 65535; 2] /\
    (forall r, r ∈ regions -> 0 <= r.1.2 /\ exists size, (r.1.1, size) ∈ pages_ a /\ r.1.2 + r.2 <= size) /\
    (forall i j r1 r2, i <> j -> regions !! i = Some r1 -> regions !! j = Some r2 -> disjoint_regions r1 r2).
Proof. apply (allocations_disjoint [8; 70000; 65535; 2]). repeat constructor; lia. Defined.

(** The first allocation of no bytes reads the last of no pages. *)
Lemma allocate_nothing : Allocate Allocator_new 0 = UB.
Proof. reflexivity. Qed.
