(* ===== verification/Dominators.v ===== *)
(** * Dominators

    src/khir/asm/dominators.cc: the post-order of the blocks reachable from the entry,
    and the iterative computation of immediate dominators over it, in which two
    candidates are intersected by climbing the tree under construction.  Blocks, edges
    and [push_edge] (the push into a vector of vectors) are those of the builder. *)
From S2P Require Import Prelude FunctionBuilder CfgSimplify CfgOutput.

(** ** Post-order *)
Fixpoint POHelper (fuel : nat) (bb : list BasicBlock) (curr : Z) (st : list bool * list Z) : Res (list bool * list Z) :=
  match fuel with
  | O => NoFuel
  | S fuel =>
      v ← vec_at st.1 curr;
      if v : bool then Ok st
      else
        visited ← vec_set st.1 curr true;
        b ← vec_at bb curr;
        st ← foldM (fun st s => POHelper fuel bb s st) (visited, st.2) (Successors b);
        Ok (st.1, st.2 ++ [curr])
  end.

Definition GeneratePO (bb : list BasicBlock) : Res (list Z) :=
  st ← POHelper (S (length bb)) bb 0 (replicate (length bb) false, []);
  Ok st.2.

(** ** Immediate dominators *)
Definition po_labels (n : nat) (po : list Z) : Res (list Z) :=
  foldM (fun label i => b ← vec_at po i; vec_set label b i) (replicate n (-1)) (seqZ 0 (vec_size po)).

(** [finger] climbs until its label is at least that of [other]. *)
Fixpoint climb (fuel : nat) (label idom : list Z) (finger other : Z) : Res Z :=
  match fuel with
  | O => NoFuel
  | S fuel =>
      lf ← vec_at label finger;
      lo ← vec_at label other;
      if lf <? lo then up ← vec_at idom finger; climb fuel label idom up other else Ok finger
  end.

Fixpoint intersect (fuel : nat) (label idom : list Z) (finger1 finger2 : Z) : Res Z :=
  if finger1 =? finger2 then Ok finger1
  else
    match fuel with
    | O => NoFuel
    | S fuel =>
        finger1 ← climb (S (length label)) label idom finger1 finger2;
        finger2 ← climb (S (length label)) label idom finger2 finger1;
        intersect fuel label idom finger1 finger2
    end.

(** One predecessor of the block under consideration. *)
Definition meet_pred (label idom : list Z) (new_idom p : Z) : Res Z :=
  d ← vec_at idom p;
  if d <? 0 then Ok new_idom
  else if new_idom <? 0 then Ok p
  else intersect (2 * length label) label idom p new_idom.

Definition update_idom (bb : list BasicBlock) (label : list Z) (st : list Z * bool) (b : Z) : Res (list Z * bool) :=
  let '(idom, changed) := st in
  if b =? 0 then Ok st
  else
    blk ← vec_at bb b;
    new_idom ← foldM (meet_pred label idom) (-1) (Predecessors blk);
    if new_idom <? 0 then Throw "New idom not found."
    else
      d ← vec_at idom b;
      if d =? new_idom then Ok st else idom ← vec_set idom b new_idom; Ok (idom, true).

(** Rounds over the reverse post-order until nothing changes. *)
Fixpoint idom_loop (fuel : nat) (bb : list BasicBlock) (label rpo idom : list Z) : Res (list Z) :=
  match fuel with
  | O => NoFuel
  | S fuel =>
      '(idom, changed) ← foldM (update_idom bb label) (idom, false) rpo;
      if changed : bool then idom_loop fuel bb label rpo idom else Ok idom
  end.

Definition dom_children (idom : list Z) : Res (list (list Z)) :=
  foldM (fun dom_tree i => d ← vec_at idom i; if 0 <=? d then push_edge dom_tree d i else Ok dom_tree)
    (replicate (length idom) []) (seqZ 1 (vec_size idom - 1)).

Definition ComputeDominatorTree (bb : list BasicBlock) : Res (list (list Z)) :=
  po ← GeneratePO bb;
  label ← po_labels (length bb) po;
  idom ← vec_set (replicate (length bb) (-1)) 0 0;
  idom ← idom_loop (length bb + 2) bb label (rev po) idom;
  dom_children idom.

(** ** Depth-first search *)
Section PostOrder.
Context (bb : list BasicBlock) (He : edges_ok bb).

Definition visited (st : list bool * list Z) (x : Z) : Prop := del st.1 x = true.

(** What visiting [roots] adds: blocks not visited before, closed under successors, each
    a root or the successor of a block listed later. *)
Record dfs_adds (roots : Z -> Prop) (st st' : list bool * list Z) (new : list Z) : Prop := {
  da_length : length st'.1 = length bb;
  da_result : st'.2 = st.2 ++ new;
  da_nodup : NoDup new;
  da_range : forall x, x ∈ new -> in_range bb x;
  da_visited : forall x, 0 <= x -> visited st' x <-> visited st x \/ x ∈ new;
  da_new : forall x, x ∈ new -> ~ visited st x;
  da_from : forall x, x ∈ new -> exists r, roots r /\ rtc (fun a b => b ∈ succs bb a) r x;
  da_closed : forall x y, x ∈ new -> y ∈ succs bb x -> visited st' y;
  da_order : forall l1 x l2, new = l1 ++ x :: l2 -> roots x \/ exists p, p ∈ l2 /\ x ∈ succs bb p;
}.

Lemma del_range d x : del d x = true -> 0 <= x -> 0 <= x < vec_size d.
Proof.
  unfold del, vec_size. intros H ?. destruct (d !! Z.to_nat x) eqn:E; [|done].
  apply lookup_lt_Some in E. lia.
Qed.

Lemma dfs_adds_nil roots st : length st.1 = length bb -> dfs_adds roots st st [].
Proof.
  intros Hl. split; [done|by rewrite app_nil_r|constructor| | | | | |].
  all: try (by intros ? ?%not_elem_of_nil).
  - intros x _. rewrite elem_of_nil. tauto.
  - by intros x y ?%not_elem_of_nil.
  - by intros [|? ?].
Qed.

Lemma dfs_adds_app (r1 r2 r : Z -> Prop) st st1 st2 new1 new2 :
  (forall x, r1 x -> r x) -> (forall x, r2 x -> r x) ->
  dfs_adds r1 st st1 new1 -> dfs_adds r2 st1 st2 new2 -> dfs_adds r st st2 (new1 ++ new2).
Proof.
  intros Hr1 Hr2 [Hl1 Hs1 Hn1 Hg1 Hv1 Hf1 Ho1 Hc1 Hd1] [Hl2 Hs2 Hn2 Hg2 Hv2 Hf2 Ho2 Hc2 Hd2]. split.
  - done.
  - by rewrite Hs2, Hs1, (assoc_L (++)).
  - apply list.NoDup_app. split_and!; [done| |done]. intros x Hx Hx2. apply (Hf2 x Hx2), Hv1; [|by right]. apply (Hg1 x Hx).
  - intros x [Hx|Hx]%elem_of_app; [by apply Hg1|by apply Hg2].
  - intros x Hx. rewrite elem_of_app, Hv2, Hv1 by done. tauto.
  - intros x [Hx|Hx]%elem_of_app; [by apply Hf1|]. intros Hv. apply (Hf2 x Hx), Hv1; [|by left]. apply (Hg2 x Hx).
  - intros x [(q & ? & ?)%Ho1|(q & ? & ?)%Ho2]%elem_of_app; exists q; auto.
  - intros x y [Hx|Hx]%elem_of_app Hy; [|by eapply Hc2]. apply Hv2; [|left; by eapply Hc1]. by apply (succs_range _ He) in Hy as [_ [? _]].
  - intros l1 x l2 E. apply app_eq_inv in E as [(k & -> & E)|(k & -> & E)].
    + destruct k as [|x' k]; cbn in E.
      * destruct (Hd2 [] x l2 (eq_sym E)) as [|]; auto.
      * injection E as -> ->. destruct (Hd1 l1 x' k eq_refl) as [|(p & Hp & Hx)]; [by left; auto|right].
        exists p. split; [apply elem_of_app; by left|done].
    + destruct (Hd2 k x l2 E) as [|]; auto.
Qed.

Lemma count_live_mono (d d' : list bool) : length d' = length d ->
  (forall x, 0 <= x -> del d x = true -> del d' x = true) -> (count_live d' <= count_live d)%nat.
Proof.
  unfold count_live. revert d'. induction d as [|a d IH]; intros [|a' d'] Hl H; try done. cbn in Hl.
  assert (length (filter (.= false) d') <= length (filter (.= false) d))%nat as IH'.
  { apply IH; [lia|]. intros x Hx Hd. specialize (H (x + 1) ltac:(lia)). unfold del in *.
    replace (Z.to_nat (x + 1)) with (S (Z.to_nat x)) in H by lia. by apply H. }
  rewrite !filter_cons. specialize (H 0 ltac:(lia)). cbn in H. destruct a, a'; try (by specialize (H eq_refl)); repeat case_decide; cbn; try done; lia.
Qed.

Lemma dfs_adds_count roots st st' new : length st.1 = length bb -> dfs_adds roots st st' new ->
  (count_live st'.1 <= count_live st.1)%nat.
Proof.
  intros Hl H. apply count_live_mono; [rewrite Hl; apply H|]. intros x Hx Hv. apply (da_visited _ _ _ _ H); [done|by left].
Qed.

Lemma dfs_list (visit : Z -> list bool * list Z -> Res (list bool * list Z)) l : forall st,
  (forall x st', x ∈ l -> length st'.1 = length bb -> (count_live st'.1 <= count_live st.1)%nat ->
    exists st'' new, visit x st' = Ok st'' /\ dfs_adds (fun r => r = x) st' st'' new /\ visited st'' x) ->
  (forall x, x ∈ l -> in_range bb x) -> length st.1 = length bb ->
  exists st' new, foldM (fun st x => visit x st) st l = Ok st' /\ dfs_adds (fun r => r ∈ l) st st' new /\
    forall x, x ∈ l -> visited st' x.
Proof.
  induction l as [|x l IH]; intros st Hvisit Hl Hlen.
  - exists st, []. split_and!; [done|by apply dfs_adds_nil|by intros ? ?%not_elem_of_nil].
  - cbn [foldM]. destruct (Hvisit x st ltac:(by left) Hlen ltac:(done)) as (st1 & new1 & -> & H1 & Hx). cbn [mbind Res_bind].
    pose proof (dfs_adds_count _ _ _ _ Hlen H1) as Hc.
    destruct (IH st1) as (st2 & new2 & -> & H2 & Hall).
    { intros y st' Hy Hy1 Hy2. apply Hvisit; [by right|done|lia]. }
    { intros y Hy. apply Hl. by right. }
    { by apply H1. }
    exists st2, (new1 ++ new2). split_and!; [done| |].
    + eapply dfs_adds_app; [| |exact H1|exact H2]; [intros ? ->; by left|intros; by right].
    + intros y [->|Hy]%elem_of_cons; [|by apply Hall]. apply (da_visited _ _ _ _ H2); [|by left]. apply Hl. by left.
Qed.

Lemma POHelper_ok fuel : forall curr st, in_range bb curr -> length st.1 = length bb -> (count_live st.1 < fuel)%nat ->
  exists st' new, POHelper fuel bb curr st = Ok st' /\ dfs_adds (fun r => r = curr) st st' new /\ visited st' curr.
Proof.
  induction fuel as [|fuel IH]; intros curr st Hc Hl Hf; [lia|]. cbn [POHelper].
  rewrite (vec_at_del bb) by done. cbn [mbind Res_bind]. destruct (del st.1 curr) eqn:Ev.
  { exists st, []. split_and!; [done|by apply dfs_adds_nil|done]. }
  assert (vec_set st.1 curr true = Ok (<[Z.to_nat curr := true]> st.1)) as ->.
  { apply vec_set_Ok. unfold in_range, vec_size in *. split; [lia|done]. }
  cbn [mbind Res_bind]. destruct (block_at bb curr Hc) as (blk & -> & _ & Hsucc & _). cbn [mbind Res_bind]. rewrite Hsucc.
  set (st0 := (<[Z.to_nat curr := true]> st.1, st.2)).
  assert (S (count_live st0.1) = count_live st.1) as Hcount.
  { apply count_live_insert. unfold del in Ev. unfold in_range, vec_size in Hc.
    destruct (lookup_lt_is_Some_2 st.1 (Z.to_nat curr)) as [v Hv]; [lia|]. rewrite Hv in Ev |- *. cbn in Ev. by subst. }
  assert (forall x, 0 <= x -> visited st0 x <-> x = curr \/ visited st x) as Hv0.
  { intros x Hx. unfold visited, st0. cbn [fst]. rewrite del_insert by (unfold in_range, vec_size in *; lia).
    rewrite orb_true_iff, bool_decide_eq_true. done. }
  destruct (dfs_list (fun s st => POHelper fuel bb s st) (succs bb curr) st0) as (st1 & new & -> & H & Hall).
  - intros x st' Hx Hl' Hc'. apply IH; [by apply (succs_range _ He) in Hx as [_ ?]|done|lia].
  - intros x Hx. by apply (succs_range _ He) in Hx as [_ ?].
  - unfold st0. cbn. by rewrite length_insert.
  - cbn [mbind Res_bind]. eexists _, (new ++ [curr]). destruct H as [Hl1 Hs1 Hn1 Hg1 Hv1 Hf1 Ho1 Hc1 Hd1].
    assert (~ visited st curr) as Hnv by (unfold visited; by rewrite Ev).
    assert (visited st1 curr) as Hcurr by (apply Hv1; [apply Hc|]; left; apply Hv0; [apply Hc|by left]).
    split_and!; [done| |done]. split; cbn [fst snd].
    + done.
    + by rewrite Hs1, (assoc_L (++)).
    + apply list.NoDup_app. split_and!; [done| |apply NoDup_singleton]. intros x Hx ->%list_elem_of_singleton.
      apply (Hf1 curr Hx), Hv0; [apply Hc|by left].
    + intros x [Hx| ->%list_elem_of_singleton]%elem_of_app; [by apply Hg1|done].
    + intros x Hx. change (visited (st1.1, st1.2 ++ [curr]) x) with (visited st1 x).
      rewrite Hv1, Hv0, elem_of_app, list_elem_of_singleton by done. tauto.
    + intros x [Hx| ->%list_elem_of_singleton]%elem_of_app; [|done]. intros Hv. apply (Hf1 x Hx), Hv0; [apply (Hg1 x Hx)|by right].
    + intros x [(r & Hr & Hrx)%Ho1| ->%list_elem_of_singleton]%elem_of_app; exists curr; (split; [done|]); [|constructor].
      by eapply rtc_l.
    + intros x y [Hx| ->%list_elem_of_singleton]%elem_of_app Hy; [by eapply (Hc1 x)|by apply Hall].
    + intros l1 x l2 E. destruct (list.last l2) as [z|] eqn:Ez.
      * apply last_Some in Ez as [l2' ->]. rewrite app_comm_cons, (assoc_L (++)) in E. apply app_inj_tail in E as [E <-].
        right. destruct (Hd1 l1 x l2' E) as [Hr|(p & Hp & Hx)].
        -- exists curr. split; [apply elem_of_app; right; by left|done].
        -- exists p. split; [apply elem_of_app; by left|done].
      * apply last_None in Ez as ->. apply app_inj_tail in E as [_ ->]. by left.
Qed.

Lemma GeneratePO_ok : bb <> [] ->
  exists po, GeneratePO bb = Ok po /\ NoDup po /\ (forall x, x ∈ po <-> reachable bb x) /\
    forall l1 x l2, po = l1 ++ x :: l2 -> x = 0 \/ exists p, p ∈ l2 /\ x ∈ succs bb p.
Proof.
  intros Hne. unfold GeneratePO.
  assert (in_range bb 0) as H0 by (unfold in_range, vec_size; destruct bb; [done|cbn; lia]).
  destruct (POHelper_ok (S (length bb)) 0 (replicate (length bb) false, [])) as (st & new & -> & H & Hv); [done|cbn; by rewrite length_replicate| |].
  { cbn [fst]. unfold count_live. rewrite list_filter_all; [rewrite length_replicate; lia|].
    by intros ? [-> _]%elem_of_replicate. }
  cbn [mbind Res_bind]. destruct H as [_ Hs Hn Hg Hvis Hf Ho Hc Hd]. cbn in Hs. exists st.2. split_and!; [done|by rewrite Hs| |].
  - rewrite Hs. assert (forall x, 0 <= x -> visited st x <-> x ∈ new) as Hvn.
    { intros x Hx. rewrite Hvis by done. split; [|by right]. intros [Hv'|]; [|done]. unfold visited, del in Hv'. cbn in Hv'.
      destruct (replicate (length bb) false !! Z.to_nat x) as [v|] eqn:E; [|done]. apply lookup_replicate in E as [-> _]. done. }
    intros x. split.
    + intros (r & -> & Hr)%Ho. revert x Hr. apply (rtc_ind_r (reachable bb)); [constructor|]. intros y z _ Hyz IH. by apply (reach_succ bb y).
    + induction 1 as [|a b _ IH Hab]; [by apply Hvn|]. apply Hvn; [by apply (succs_range _ He) in Hab as [_ [? _]]|by eapply Hc].
  - rewrite Hs. intros l1 x l2 E. by apply Hd in E.
Qed.

Lemma po_labels_ok po : NoDup po -> (forall x, x ∈ po -> in_range bb x) ->
  exists label, po_labels (length bb) po = Ok label /\ length label = length bb /\
    forall i x, po !! i = Some x -> label !! Z.to_nat x = Some (Z.of_nat i).
Proof.
  intros Hnd Hr. unfold po_labels.
  destruct (foldM_prefix (fun label i => b ← vec_at po i; vec_set label b i)
    (fun done label => length label = length bb /\
       forall i x, (i < length done)%nat -> po !! i = Some x -> label !! Z.to_nat x = Some (Z.of_nat i))
    (seqZ 0 (vec_size po)) (replicate (length bb) (-1))) as (label & E & Hl & Hlab).
  - intros done a rest label Hseq [Hl Hlab].
    assert (a = Z.of_nat (length done) /\ (length done < length po)%nat) as [-> Hlen].
    { assert (seqZ 0 (vec_size po) !! length done = Some a) as Ha by (rewrite Hseq; by apply list_lookup_middle).
      apply lookup_seqZ in Ha. unfold vec_size in Ha. lia. }
    destruct (lookup_lt_is_Some_2 po (length done) Hlen) as [b Hb]. rewrite (vec_at_nat _ _ _ Hb). cbn [mbind Res_bind].
    pose proof (Hr b ltac:(by eapply list_elem_of_lookup_2)) as Hbr. unfold in_range, vec_size in Hbr.
    eexists. split; [apply vec_set_Ok; unfold vec_size; split; [lia|done]|]. split; [by rewrite length_insert|].
    intros i x Hi Hx. rewrite length_app in Hi. cbn in Hi. pose proof (Hr x ltac:(by eapply list_elem_of_lookup_2)) as Hxr.
    destruct (decide (i = length done)) as [->|Hne].
    + assert (x = b) as -> by congruence. by rewrite list_lookup_insert_eq by lia.
    + rewrite list_lookup_insert_ne; [apply Hlab; [lia|done]|]. intros Exb. apply Hne. apply (NoDup_lookup _ _ _ _ Hnd Hx).
      rewrite Hb. f_equal. unfold in_range in Hxr. lia.
  - split; [by rewrite length_replicate|]. intros i x Hi. cbn in Hi. lia.
  - exists label. split_and!; [done..|]. intros i x Hx. apply Hlab; [|done]. apply lookup_lt_Some in Hx. rewrite length_seqZ. unfold vec_size. lia.
Qed.
End PostOrder.

(** ** The order of the blocks *)
(** An entry of a vector in which -1 stands for none. *)
Definition num (l : list Z) (x : Z) : Z := default (-1) (l !! Z.to_nat x).

(** Labels number the reachable blocks, the reverse post-order lists them downwards, and
    every block but the entry has a predecessor with a higher label. *)
Record order_ok (bb : list BasicBlock) (label rpo : list Z) : Prop := {
  oo_length : length label = length bb;
  oo_reach : forall x, x ∈ rpo <-> reachable bb x;
  oo_range : forall x, x ∈ rpo -> 0 <= num label x < vec_size bb;
  oo_inj : forall x y, x ∈ rpo -> y ∈ rpo -> num label x = num label y -> x = y;
  oo_sorted : forall l1 x l2 y, rpo = l1 ++ x :: l2 -> y ∈ l1 -> num label x < num label y;
  oo_parent : forall x, x ∈ rpo -> x <> 0 -> exists p, p ∈ rpo /\ x ∈ succs bb p /\ num label x < num label p;
}.

Lemma reachable_range bb x : edges_ok bb -> bb <> [] -> reachable bb x -> in_range bb x.
Proof.
  intros He Hne Hr. destruct Hr as [|a b _ H]; [|by apply (succs_range _ He) in H as [_ ?]].
  unfold in_range, vec_size. destruct bb; [done|cbn; lia].
Qed.

Lemma order_exists bb : edges_ok bb -> bb <> [] ->
  exists po label, GeneratePO bb = Ok po /\ po_labels (length bb) po = Ok label /\ order_ok bb label (rev po).
Proof.
  intros He Hne. destruct (GeneratePO_ok bb He Hne) as (po & Epo & Hnd & Hreach & Hord).
  assert (forall x, x ∈ po -> in_range bb x) as Hrange by (intros x Hx%Hreach; by apply reachable_range).
  destruct (po_labels_ok bb po Hnd Hrange) as (label & El & Hl & Hlab). exists po, label. split_and!; [done..|].
  assert (forall i x, po !! i = Some x -> num label x = Z.of_nat i) as Hlab' by (intros i x Hx; unfold num; by rewrite (Hlab i x Hx)).
  assert (length po <= length bb)%nat as Hlen.
  { assert (po ⊆+ seqZ 0 (vec_size bb)) as Hs%submseteq_length.
    { apply NoDup_submseteq; [done|]. intros x Hx%Hrange. apply elem_of_seqZ. unfold in_range in Hx. lia. }
    rewrite length_seqZ in Hs. unfold vec_size in Hs. lia. }
  assert (forall x, x ∈ rev po <-> x ∈ po) as Hrev.
  { intros x. rewrite !list_elem_of_In, <- in_rev. done. }
  split.
  - done.
  - intros x. by rewrite Hrev.
  - intros x [i Hi]%Hrev%list_elem_of_lookup_1. rewrite (Hlab' i x Hi). apply lookup_lt_Some in Hi. unfold vec_size. lia.
  - intros x y [i Hi]%Hrev%list_elem_of_lookup_1 [j Hj]%Hrev%list_elem_of_lookup_1 E.
    rewrite (Hlab' i x Hi), (Hlab' j y Hj) in E. assert (i = j) as -> by lia. congruence.
  - intros l1 x l2 y E Hy. apply (f_equal (@rev Z)) in E. rewrite rev_involutive, rev_app_distr in E. cbn in E.
    assert (y ∈ rev l1) as [j Hj]%list_elem_of_lookup_1 by (rewrite list_elem_of_In, <- in_rev; by apply list_elem_of_In).
    rewrite (Hlab' (length (rev l2)) x) by (rewrite E, <- (assoc_L (++)); by apply list_lookup_middle).
    rewrite (Hlab' (length (rev l2) + S j)%nat y); [lia|]. rewrite E, <- (assoc_L (++)). rewrite lookup_app_r by lia. cbn [app].
    replace (length (rev l2) + S j - length (rev l2))%nat with (S j) by lia. done.
  - intros x Hx%Hrev H0. apply list_elem_of_lookup_1 in Hx as Hi. destruct Hi as [i Hi].
    pose proof (take_drop_middle po i x Hi) as E. destruct (Hord _ _ _ (eq_sym E)) as [->|(p & Hp & Hs)]; [done|].
    exists p. apply list_elem_of_lookup_1 in Hp as [j Hj]. rewrite lookup_drop in Hj.
    split_and!; [apply Hrev; by eapply list_elem_of_lookup_2|done|]. rewrite (Hlab' i x Hi), (Hlab' _ p Hj). lia.
Qed.

(** ** Dominance *)

(** [ns] are the blocks of a path from [a] to [b], last block first. *)
Inductive path (bb : list BasicBlock) (a : Z) : list Z -> Z -> Prop :=
| path_here : path bb a [a] a
| path_step ns b c : path bb a ns b -> c ∈ succs bb b -> path bb a (c :: ns) c.

(** Every path from the entry to [b] passes through [d]. *)
Definition dominates (bb : list BasicBlock) (d b : Z) : Prop := forall ns, path bb 0 ns b -> d ∈ ns.

Definition immediately_dominates (bb : list BasicBlock) (d b : Z) : Prop :=
  d <> b /\ dominates bb d b /\ forall e, e <> b -> dominates bb e b -> dominates bb e d.

Section Paths.
Context (bb : list BasicBlock).

Lemma path_reachable (a : Z) ns b : reachable bb a -> path bb a ns b -> reachable bb b /\ forall x, x ∈ ns -> reachable bb x.
Proof.
  intros Ha. induction 1 as [|ns b c Hp [Hb IH] Hbc].
  - split; [done|]. by intros x ->%list_elem_of_singleton.
  - pose proof (reach_succ bb b c Hb Hbc). split; [done|]. intros x [->|Hx]%elem_of_cons; auto.
Qed.

Lemma reachable_path b : reachable bb b -> exists ns, path bb 0 ns b.
Proof. induction 1 as [|a b _ [ns IH] Hab]; [exists [0]; constructor|]. exists (b :: ns). by eapply path_step. Qed.

Lemma path_ends a ns b : path bb a ns b -> b ∈ ns /\ a ∈ ns.
Proof. induction 1 as [|ns b c _ [IH1 IH2] _]; [split; by left|]. split; [by left|by right]. Qed.

(** The part of a path up to a block on it. *)
Lemma path_prefix a ns b x : path bb a ns b -> x ∈ ns -> exists l1 l2, ns = l1 ++ l2 /\ path bb a l2 x.
Proof.
  induction 1 as [|ns b c Hp IH Hbc]; intros Hx.
  - apply list_elem_of_singleton in Hx as ->. exists [], [a]. split; [done|constructor].
  - apply elem_of_cons in Hx as [->|Hx]; [exists [], (c :: ns); split; [done|by eapply path_step]|].
    destruct (IH Hx) as (l1 & l2 & -> & H). by exists (c :: l1), l2.
Qed.

Lemma path_concat a ns b ns' c : path bb a ns b -> path bb b ns' c ->
  exists l, path bb a l c /\ forall x, x ∈ l <-> x ∈ ns \/ x ∈ ns'.
Proof.
  intros Hp. induction 1 as [|ns' c d Hp' (l & Hl & Hin) Hcd].
  - exists ns. split; [done|]. intros x. rewrite list_elem_of_singleton. split; [by left|].
    intros [?| ->]; [done|]. by apply (path_ends _ _ _ Hp).
  - exists (d :: l). split; [by eapply path_step|]. intros x. rewrite !elem_of_cons, Hin. tauto.
Qed.

(** Cutting out the cycles of a path. *)
Lemma path_simple a ns b : path bb a ns b -> exists ns', path bb a ns' b /\ NoDup ns' /\ forall x, x ∈ ns' -> x ∈ ns.
Proof.
  induction 1 as [|ns b c Hp (ns' & Hp' & Hnd & Hin) Hbc].
  - exists [a]. split_and!; [constructor|apply NoDup_singleton|done].
  - destruct (decide (c ∈ ns')) as [Hc|Hc].
    + destruct (path_prefix a ns' b c Hp' Hc) as (l1 & l2 & -> & H). exists l2. split_and!; [done| |].
      * by apply list.NoDup_app in Hnd as (_ & _ & ?).
      * intros x Hx. right. apply Hin, elem_of_app. by right.
    + exists (c :: ns'). split_and!; [by eapply path_step|by apply list.NoDup_cons|].
      intros x [->|Hx]%elem_of_cons; [by left|right; auto].
Qed.

Lemma path_bound ns b : edges_ok bb -> bb <> [] -> path bb 0 ns b -> NoDup ns -> (length ns <= length bb)%nat.
Proof.
  intros He Hne Hp Hnd. assert (ns ⊆+ seqZ 0 (vec_size bb)) as Hs%submseteq_length.
  { apply NoDup_submseteq; [done|]. intros x Hx. apply elem_of_seqZ.
    pose proof (reachable_range bb x He Hne (proj2 (path_reachable 0 ns b (reach_entry bb) Hp) x Hx)) as Hr. unfold in_range in Hr. lia. }
  rewrite length_seqZ in Hs. unfold vec_size in Hs. lia.
Qed.

Lemma dominates_refl b : dominates bb b b.
Proof. intros ns H. by apply (path_ends _ _ _ H). Qed.

(** The last edge of a path. *)
Lemma path_last_edge a ns b : path bb a ns b -> b = a /\ ns = [a] \/
  exists p ns', ns = b :: ns' /\ path bb a ns' p /\ b ∈ succs bb p.
Proof. destruct 1; [by left|right; eauto]. Qed.

Lemma dominates_pred d b p : dominates bb d b -> d <> b -> b ∈ succs bb p -> dominates bb d p.
Proof. intros H Hne Hs ns Hp. specialize (H (b :: ns) (path_step _ _ _ _ _ Hp Hs)). by apply elem_of_cons in H as [?|?]. Qed.

Lemma dominates_preds d b : b <> 0 -> (forall p, reachable bb p -> b ∈ succs bb p -> dominates bb d p) -> dominates bb d b.
Proof.
  intros H0 H ns Hp. destruct (path_last_edge _ _ _ Hp) as [[-> _]|(p & ns' & -> & Hp' & Hs)]; [done|].
  right. apply (H p); [|done|done]. by apply (path_reachable 0 ns'); [constructor|].
Qed.

Lemma dominates_trans d e b : dominates bb d e -> dominates bb e b -> dominates bb d b.
Proof.
  intros Hde Heb ns Hp. destruct (path_prefix 0 ns b e Hp (Heb ns Hp)) as (l1 & l2 & -> & H).
  apply elem_of_app. right. by apply Hde.
Qed.
End Paths.

(** How many edges of a path do not lead to a lower label. *)
Fixpoint retreats (label : list Z) (ns : list Z) : nat :=
  match ns with
  | c :: (b :: _) as ns' => ((if (num label c <? num label b)%Z then 0 else 1) + retreats label ns')%nat
  | _ => 0
  end.

Lemma retreats_length label ns : (retreats label ns <= length ns - 1)%nat.
Proof. induction ns as [|c [|b ns] IH]; [done..|]. cbn in *. destruct (_ <? _); lia. Qed.

Lemma retreats_suffix label l1 l2 : (retreats label l2 <= retreats label (l1 ++ l2))%nat.
Proof.
  induction l1 as [|c l1 IH]; [done|]. cbn [app]. etransitivity; [exact IH|].
  destruct (l1 ++ l2) as [|b ns]; [done|]. change (retreats label (c :: b :: ns)) with ((if (num label c <? num label b)%Z then 0 else 1) + retreats label (b :: ns))%nat. lia.
Qed.

Lemma retreats_step bb label (a : Z) ns b c : path bb a ns b ->
  retreats label (c :: ns) = ((if (num label c <? num label b)%Z then 0 else 1) + retreats label ns)%nat.
Proof. by destruct 1. Qed.

(** ** The tree under construction *)

(** [d] is reached from [b] by climbing [f]. *)
Inductive anc (f : Z -> Z) (d : Z) : Z -> Prop :=
| anc_refl : anc f d d
| anc_up b : b <> 0 -> anc f d (f b) -> anc f d b.

Lemma anc_trans f d e b : anc f d e -> anc f e b -> anc f d b.
Proof. intros H. induction 1; [done|by apply anc_up]. Qed.

Section Tree.
Context (bb : list BasicBlock) (He : edges_ok bb) (Hne : bb <> []).
Context (label rpo : list Z) (Hord : order_ok bb label rpo).

(** [b] has a candidate. *)
Definition set_in (idom : list Z) (b : Z) : Prop := b ∈ rpo /\ 0 <= num idom b.

(** Candidates lead upwards, and a path from the candidate of a block to the block stays
    below the candidate. *)
Record tree_ok (idom : list Z) : Prop := {
  to_length : length idom = length bb;
  to_root : num idom 0 = 0;
  to_reach : forall b, in_range bb b -> 0 <= num idom b -> b ∈ rpo;
  to_set : forall b, set_in idom b -> b <> 0 -> set_in idom (num idom b);
  to_up : forall b, set_in idom b -> b <> 0 -> num label b < num label (num idom b);
  to_path : forall b, set_in idom b -> b <> 0 -> exists ns, path bb (num idom b) ns b /\
    forall x, x ∈ ns -> x = num idom b \/ num label x < num label (num idom b);
}.

Lemma rpo_range x : x ∈ rpo -> in_range bb x.
Proof. intros Hx%(oo_reach _ _ _ Hord). by apply reachable_range. Qed.

Lemma entry_in_rpo : 0 ∈ rpo.
Proof. apply (oo_reach _ _ _ Hord). constructor. Qed.

Lemma vec_at_num {A} (l : list Z) (b : list A) x : length l = length b -> 0 <= x < vec_size b -> vec_at l x = Ok (num l x).
Proof.
  unfold vec_size, num. intros Hl Hx. destruct (lookup_lt_is_Some_2 l (Z.to_nat x)) as [v Hv]; [lia|].
  rewrite Hv. apply vec_at_Ok. split; [lia|done].
Qed.

(** The entry has the highest label. *)
Lemma label_entry x : x ∈ rpo -> num label x <= num label 0.
Proof.
  intros Hx. pose proof (oo_range _ _ _ Hord) as Hr.
  assert (forall n x, x ∈ rpo -> Z.to_nat (vec_size bb - num label x) = n -> num label x <= num label 0) as H; [|by eapply H].
  clear x Hx. intros n. induction (lt_wf n) as [n _ IH]. intros x Hx E. destruct (decide (x = 0)) as [->|H0]; [lia|].
  destruct (oo_parent _ _ _ Hord x Hx H0) as (p & Hp & _ & Hlt). pose proof (Hr x Hx). pose proof (Hr p Hp).
  specialize (IH (Z.to_nat (vec_size bb - num label p)) ltac:(lia) p Hp eq_refl). lia.
Qed.

Section Climb.
Context (idom : list Z) (Ht : tree_ok idom).
#[local] Abbreviation f := (num idom).

Lemma anc_set d b : set_in idom b -> anc f d b -> set_in idom d /\ num label b <= num label d.
Proof.
  intros Hb H. induction H as [|b H0 H IH]; [split; [done|lia]|].
  destruct (IH (to_set _ Ht b Hb H0)) as [? ?]. split; [done|]. pose proof (to_up _ Ht b Hb H0). lia.
Qed.

Lemma anc_label d b : set_in idom b -> anc f d b -> d = b \/ num label b < num label d.
Proof.
  intros Hb H. destruct H as [|b H0 H]; [by left|right].
  destruct (anc_set d _ (to_set _ Ht b Hb H0) H). pose proof (to_up _ Ht b Hb H0). lia.
Qed.

Lemma anc_same_label d b : set_in idom b -> anc f d b -> num label d <= num label b -> d = b.
Proof. intros Hb H ?. destruct (anc_label d b Hb H); [done|lia]. Qed.

Lemma anc_antisym d b : set_in idom d -> set_in idom b -> anc f d b -> anc f b d -> d = b.
Proof. intros Hd Hb H1 H2. destruct (anc_set _ _ Hd H2). by apply anc_same_label. Qed.

(** The blocks between a block and its ancestor. *)
Lemma anc_path d b : set_in idom b -> anc f d b ->
  exists ns, path bb d ns b /\ forall x, x ∈ ns -> x = d \/ num label x < num label d.
Proof.
  intros Hb H. induction H as [|b H0 H IH].
  - exists [d]. split; [constructor|]. intros x ->%list_elem_of_singleton. by left.
  - destruct (IH (to_set _ Ht b Hb H0)) as (ns & Hp & Hns). destruct (to_path _ Ht b Hb H0) as (ns' & Hp' & Hns').
    destruct (path_concat bb d ns (f b) ns' b Hp Hp') as (l & Hl & Hin). exists l. split; [done|].
    destruct (anc_set _ _ (to_set _ Ht b Hb H0) H) as [_ Hle].
    intros x [Hx|Hx]%Hin; [by apply Hns|]. destruct (Hns' x Hx) as [->|Hlt]; [|right; lia].
    apply Hns. by apply (path_ends _ _ _ _ Hp).
Qed.

Lemma anc_root d : anc f d 0 -> d = 0.
Proof. by inversion 1. Qed.

Lemma climb_ok fuel : forall x y, set_in idom x -> set_in idom y ->
  (num label y - num label x < Z.of_nat fuel) -> (0 < fuel)%nat ->
  exists z, climb fuel label idom x y = Ok z /\ set_in idom z /\ num label y <= num label z /\
    num label x <= num label z /\ (num label x < num label y -> num label x < num label z) /\
    forall d, anc f d x /\ anc f d y <-> anc f d z /\ anc f d y.
Proof.
  induction fuel as [|fuel IH]; intros x y Hx Hy Hf Hpos; [lia|]. cbn [climb].
  pose proof (oo_length _ _ _ Hord) as Hll.
  rewrite (vec_at_num label bb x Hll (rpo_range x (proj1 Hx))). cbn [mbind Res_bind].
  rewrite (vec_at_num label bb y Hll (rpo_range y (proj1 Hy))). cbn [mbind Res_bind].
  destruct (Z.ltb_spec (num label x) (num label y)) as [Hlt|Hge].
  - assert (x <> 0) as H0 by (intros ->; pose proof (label_entry y (proj1 Hy)); lia).
    rewrite (vec_at_num idom bb x (to_length _ Ht) (rpo_range x (proj1 Hx))). cbn [mbind Res_bind].
    pose proof (to_up _ Ht x Hx H0). destruct (IH (f x) y) as (z & -> & Hz & H1 & H2 & H3 & H4); [by apply (to_set _ Ht)|done|lia|lia|].
    exists z. split_and!; [done..|lia|lia|]. intros d. rewrite <- H4. split.
    + intros [H5 H6]. split; [|done]. destruct H5; [|done]. destruct (anc_set _ _ Hy H6). lia.
    + intros [H5 H6]. split; [|done]. by apply anc_up.
  - exists x. split_and!; [done..|lia|done].
Qed.

(** [intersect] finds the lowest common ancestor. *)
Lemma intersect_ok fuel : forall x y, set_in idom x -> set_in idom y ->
  (num label 0 - num label x) + (num label 0 - num label y) <= Z.of_nat fuel ->
  exists z, intersect fuel label idom x y = Ok z /\ set_in idom z /\ forall d, anc f d z <-> anc f d x /\ anc f d y.
Proof.
  induction fuel as [|fuel IH]; intros x y Hx Hy Hf; cbn [intersect].
  all: destruct (Z.eqb_spec x y) as [->|Hne']; [exists y; split_and!; [done..|tauto]|].
  all: assert (num label x <> num label y) as Hl by (intros E; apply Hne', (oo_inj _ _ _ Hord); [apply Hx|apply Hy|done]).
  all: pose proof (label_entry x (proj1 Hx)); pose proof (label_entry y (proj1 Hy)).
  - lia.
  - pose proof (oo_range _ _ _ Hord x (proj1 Hx)). pose proof (oo_range _ _ _ Hord y (proj1 Hy)).
    pose proof (oo_length _ _ _ Hord) as Hll. unfold vec_size in *.
    destruct (climb_ok (S (length label)) x y Hx Hy) as (x' & -> & Hx' & A1 & A2 & A3 & A4); [lia..|]. cbn [mbind Res_bind].
    pose proof (oo_range _ _ _ Hord x' (proj1 Hx')) as Hr'. unfold vec_size in Hr'.
    destruct (climb_ok (S (length label)) y x' Hy Hx') as (y' & -> & Hy' & B1 & B2 & B3 & B4); [lia..|]. cbn [mbind Res_bind].
    destruct (IH x' y' Hx' Hy') as (z & -> & Hz & Hanc); [lia|]. exists z. split_and!; [done..|].
    intros d. rewrite Hanc. specialize (A4 d). specialize (B4 d). tauto.
Qed.

(** The predecessors with a candidate, intersected. *)
Lemma meet_preds_ok ps : (forall p, p ∈ ps -> in_range bb p) ->
  exists z, foldM (meet_pred label idom) (-1) ps = Ok z /\
    ((z = -1 /\ forall p, p ∈ ps -> ~ set_in idom p) \/
     (set_in idom z /\ (exists p, p ∈ ps /\ set_in idom p) /\
      forall d, anc f d z <-> forall p, p ∈ ps -> set_in idom p -> anc f d p)).
Proof.
  intros Hps. apply (foldM_prefix _ (fun done z => (z = -1 /\ forall p, p ∈ done -> ~ set_in idom p) \/
     (set_in idom z /\ (exists p, p ∈ done /\ set_in idom p) /\
      forall d, anc f d z <-> forall p, p ∈ done -> set_in idom p -> anc f d p))).
  2: { left. split; [done|]. by intros ? ?%not_elem_of_nil. }
  intros done p rest z E Hz. assert (in_range bb p) as Hp by (apply Hps; rewrite E; apply elem_of_app; right; by left).
  unfold meet_pred. rewrite (vec_at_num idom bb p (to_length _ Ht) Hp). cbn [mbind Res_bind].
  destruct (Z.ltb_spec (f p) 0) as [Hlt|Hge].
  - assert (~ set_in idom p) as Hns by (intros [_ ?]; lia). exists z. split; [done|].
    destruct Hz as [[-> Hz]|(Hz & (q & Hq & Hqs) & Hanc)]; [left|right].
    + split; [done|]. intros q [Hq| ->%list_elem_of_singleton]%elem_of_app; [by apply Hz|done].
    + split_and!; [done| |]; [exists q; split; [apply elem_of_app; by left|done]|].
      intros d. rewrite Hanc. split; intros Hd r Hr Hrs; apply Hd; [|done|apply elem_of_app; by left|done].
      apply elem_of_app in Hr as [?| ->%list_elem_of_singleton]; done.
  - assert (set_in idom p) as Hps' by (split; [by apply (to_reach _ Ht)|done]).
    destruct Hz as [[-> Hz]|(Hz & _ & Hanc)].
    + exists p. split; [done|right]. split_and!; [done|exists p; split; [apply elem_of_app; right; by left|done]|].
      intros d. split.
      * intros Hd q [Hq| ->%list_elem_of_singleton]%elem_of_app Hqs; [by apply Hz in Hqs|done].
      * intros Hd. apply Hd; [apply elem_of_app; right; by left|done].
    + assert (0 <= z) as Hz0 by (apply (rpo_range z (proj1 Hz))). rewrite (proj2 (Z.ltb_ge z 0) Hz0).
      destruct (intersect_ok (2 * length label) p z Hps' Hz) as (z' & -> & Hz' & Hanc').
      { pose proof (oo_range _ _ _ Hord p (proj1 Hps')). pose proof (oo_range _ _ _ Hord z (proj1 Hz)).
        pose proof (oo_range _ _ _ Hord 0 entry_in_rpo). pose proof (oo_length _ _ _ Hord). unfold vec_size in *. lia. }
      exists z'. split; [done|right]. split_and!; [done|exists p; split; [apply elem_of_app; right; by left|done]|].
      intros d. rewrite Hanc', Hanc. split.
      * intros [H1 H2] q [Hq| ->%list_elem_of_singleton]%elem_of_app Hqs; [by apply H2|done].
      * intros H. split; [apply H; [apply elem_of_app; right; by left|done]|]. intros q Hq. apply H, elem_of_app. by left.
Qed.
End Climb.

(** A new candidate [l] for [b]. *)
Section Update.
Context (idom : list Z) (Ht : tree_ok idom) (b l : Z).
Context (Hb : b ∈ rpo) (Hb0 : b <> 0) (Hl : set_in idom l) (Hbl : num label b < num label l).
#[local] Abbreviation f := (num idom).
#[local] Abbreviation idom' := (<[Z.to_nat b := l]> idom).
#[local] Abbreviation f' := (num idom').

Lemma num_update x : f' x = if decide (x = b) then l else f x.
Proof using Ht Hb Hb0 Hord He Hne.
  pose proof (rpo_range b Hb) as Hr. pose proof (to_length _ Ht). unfold in_range, vec_size in Hr. unfold num.
  case_decide as Hx; [subst; by rewrite list_lookup_insert_eq by lia|]. by rewrite list_lookup_insert_ne by lia.
Qed.

Lemma set_update x : set_in idom x -> set_in idom' x.
Proof using Ht Hb Hb0 Hord He Hne Hl.
  intros [? ?]. split; [done|]. rewrite num_update. case_decide; [|done]. apply (rpo_range l (proj1 Hl)).
Qed.

Lemma set_updated x : set_in idom' x <-> set_in idom x \/ x = b.
Proof using Ht Hb Hb0 Hord He Hne Hl.
  split; [|intros [?| ->]; [by apply set_update|split; [done|]]].
  - intros [? Hx]. rewrite num_update in Hx. case_decide; [by right|by left].
  - rewrite num_update, decide_True by done. apply (rpo_range l (proj1 Hl)).
Qed.

Lemma tree_update : (exists ns, path bb l ns b /\ forall x, x ∈ ns -> x = l \/ num label x < num label l) -> tree_ok idom'.
Proof using Ht Hb Hb0 Hord He Hne Hl Hbl.
  intros Hpath. split.
  - rewrite length_insert. apply Ht.
  - rewrite num_update, decide_False by done. apply Ht.
  - intros x Hx. rewrite num_update. case_decide as E; [by subst|]. by apply Ht.
  - intros x Hx H0. apply set_update. rewrite num_update. apply set_updated in Hx. case_decide; [done|]. apply (to_set _ Ht); [by destruct Hx|done].
  - intros x Hx H0. rewrite num_update. apply set_updated in Hx. case_decide; [by subst|]. apply (to_up _ Ht); [by destruct Hx|done].
  - intros x Hx H0. rewrite num_update. apply set_updated in Hx. case_decide; [by subst|]. apply (to_path _ Ht); [by destruct Hx|done].
Qed.

Lemma anc_outside d x : ~ anc f b x -> anc f d x <-> anc f' d x.
Proof using Ht Hb Hb0 Hord He Hne.
  intros Hno. split; intros H.
  - induction H as [|x H0 H IH]; [constructor|]. assert (x <> b) as Hx by (intros ->; apply Hno; constructor).
    apply anc_up; [done|]. rewrite num_update, decide_False by done. apply IH. intros Hp. by apply Hno, anc_up.
  - induction H as [|x H0 H IH]; [constructor|]. assert (x <> b) as Hx by (intros ->; apply Hno; constructor).
    apply anc_up; [done|]. rewrite num_update, decide_False in IH by done. apply IH. intros Hp. by apply Hno, anc_up.
Qed.

Lemma anc_kept d x : anc f d x -> anc f' d x \/ (anc f b x /\ anc f d b /\ d <> b).
Proof using Ht Hb Hb0 Hord He Hne.
  induction 1 as [|x H0 H IH]; [left; constructor|]. destruct (decide (x = b)) as [->|Hx].
  - destruct (decide (d = b)) as [->|Hd]; [left; constructor|right]. split_and!; [constructor|by apply anc_up|done].
  - destruct IH as [IH|(IH1 & IH2 & IH3)]; [left|right].
    + apply anc_up; [done|]. by rewrite num_update, decide_False.
    + split_and!; [by apply anc_up|done..].
Qed.

Lemma anc_gained d x : anc f' d x -> anc f d x \/ (anc f b x /\ anc f' d b).
Proof using Ht Hb Hb0 Hord He Hne.
  induction 1 as [|x H0 H IH]; [left; constructor|]. destruct (decide (x = b)) as [->|Hx].
  - right. split; [constructor|]. by apply anc_up.
  - rewrite num_update, decide_False in IH by done. destruct IH as [IH|[IH1 IH2]]; [left; by apply anc_up|right].
    split; [by apply anc_up|done].
Qed.

Lemma anc_below x : anc f b x -> anc f' b x.
Proof using Ht Hb Hb0 Hord He Hne. intros [H|(_ & _ & ?)]%anc_kept; done. Qed.

Lemma anc_updated d : anc f' d b <-> d = b \/ anc f d l.
Proof using Ht Hb Hb0 Hord He Hne Hl Hbl.
  assert (~ anc f b l) as Hno by (intros H; destruct (anc_set _ Ht _ _ Hl H); lia).
  rewrite (anc_outside d l Hno). split.
  - inversion 1 as [|? H0 H1]; [by left|right]. rewrite num_update, decide_True in H1 by done. done.
  - intros [->|H]; [constructor|]. apply anc_up; [done|]. by rewrite num_update, decide_True.
Qed.
End Update.

(** ** One round *)

(** [d] is on every path to [b] with fewer than [k] retreating edges. *)
Definition dom_below (k : nat) (d b : Z) : Prop :=
  forall ns, path bb 0 ns b -> (retreats label ns < k)%nat -> d ∈ ns.

(** Before round [k] the ancestors of a block are on all its paths with fewer than [k]
    retreating edges; what the round has done is right for one edge more. *)
Record round_inv (k : nat) (done : list Z) (idom : list Z) : Prop := {
  ri_tree : tree_ok idom;
  ri_sound : forall d b, set_in idom b -> dominates bb d b -> anc (num idom) d b;
  ri_done : forall x, x ∈ done -> set_in idom x /\ forall d, anc (num idom) d x -> dom_below (S k) d x;
  ri_rest : forall x d, set_in idom x -> anc (num idom) d x -> dom_below k d x;
  ri_first : k = O \/ forall x, x ∈ rpo -> set_in idom x;
}.

(** The candidate of [b] is the intersection of its predecessors. *)
Definition meets (idom : list Z) (b : Z) : Prop :=
  set_in idom b /\ forall d, anc (num idom) d (num idom b) <-> forall p, p ∈ preds bb b -> set_in idom p -> anc (num idom) d p.

Lemma rpo_before done b rest p : rpo = done ++ b :: rest -> p ∈ rpo -> num label b < num label p -> p ∈ done.
Proof.
  intros E Hp Hlt. rewrite E in Hp. apply elem_of_app in Hp as [?|[->|Hp]%elem_of_cons]; [done|lia|].
  apply list_elem_of_split in Hp as (r1 & r2 & ->).
  pose proof (oo_sorted _ _ _ Hord (done ++ b :: r1) p r2 b) as H. rewrite <- (assoc_L (++)) in H. specialize (H E).
  specialize (H ltac:(apply elem_of_app; right; by left)). lia.
Qed.

Lemma rpo_after done b rest x : rpo = done ++ b :: rest -> x ∈ done -> num label b < num label x.
Proof. intros E Hx. by apply (oo_sorted _ _ _ Hord done b rest). Qed.

Lemma preds_rpo b p : p ∈ rpo -> b ∈ succs bb p -> b ∈ rpo.
Proof. intros Hp%(oo_reach _ _ _ Hord) H. apply (oo_reach _ _ _ Hord). by eapply reach_succ. Qed.

Section Step.
Context (k : nat) (done rest : list Z) (b l : Z) (idom : list Z).
Context (E : rpo = done ++ b :: rest) (Hb0 : b <> 0) (Hinv : round_inv k done idom).
Context (Hl : set_in idom l) (Hbl : num label b < num label l).
Context (Hmeet : forall d, anc (num idom) d l <-> forall p, p ∈ preds bb b -> set_in idom p -> anc (num idom) d p).
#[local] Abbreviation f := (num idom).
#[local] Abbreviation idom' := (<[Z.to_nat b := l]> idom).
#[local] Abbreviation f' := (num idom').

Lemma step_in_rpo : b ∈ rpo.
Proof using E. rewrite E. apply elem_of_app. right. by left. Qed.
#[local] Hint Resolve step_in_rpo : core.

Lemma step_dominates d : dominates bb d b -> anc f' d b.
Proof using He Hne Hord E Hb0 Hinv Hl Hbl Hmeet.
  intros Hd. apply (anc_updated idom (ri_tree _ _ _ Hinv)); [done..|]. destruct (decide (d = b)) as [->|Hdb]; [by left|right].
  apply Hmeet. intros p Hp Hps. apply (ri_sound _ _ _ Hinv); [done|]. eapply dominates_pred; [done..|]. by apply (succs_preds bb He).
Qed.

Lemma step_sound d x : set_in idom' x -> dominates bb d x -> anc f' d x.
Proof using He Hne Hord E Hb0 Hinv Hl Hbl Hmeet.
  intros Hx Hd. pose proof (ri_tree _ _ _ Hinv) as Ht. apply (set_updated idom Ht b l) in Hx; [|done..].
  destruct (decide (x = b)) as [->|Hxb]; [by apply step_dominates|]. destruct Hx as [Hx| ->]; [|done].
  destruct (anc_kept idom Ht b l step_in_rpo Hb0 d x) as [?|(H1 & H2 & H3)]; [by apply (ri_sound _ _ _ Hinv)|done|].
  apply (anc_trans f' d b x); [|by apply (anc_below idom Ht)]. apply step_dominates.
  assert (num label b < num label d) as Hlt.
  { destruct (anc_label idom Ht d b) as [|]; [by apply (anc_set idom Ht b x Hx)|done..]. }
  destruct (anc_path idom Ht b x Hx H1) as (ns & Hp & Hns). intros ns' Hp'.
  destruct (path_concat bb 0 ns' b ns x Hp' Hp) as (pl & Hpl & Hin). apply Hd, Hin in Hpl as [?|Hdn]; [done|].
  destruct (Hns d Hdn) as [->|]; [done|lia].
Qed.

Lemma step_below d : anc f' d b -> dom_below (S k) d b.
Proof using He Hne Hord E Hb0 Hinv Hl Hbl Hmeet.
  pose proof (ri_tree _ _ _ Hinv) as Ht. intros [->|Hd]%(anc_updated idom Ht b l); [intros ns H _; by apply (path_ends _ _ _ _ H)| |done..].
  rewrite Hmeet in Hd. intros ns Hp Hr. destruct (path_last_edge _ _ _ _ Hp) as [[? _]|(p & ns' & -> & Hp' & Hs)]; [done|].
  right. rewrite (retreats_step bb label 0 ns' p b Hp') in Hr.
  assert (p ∈ rpo) as Hpr by (apply (oo_reach _ _ _ Hord); by apply (path_reachable bb 0 ns'); [constructor|]).
  apply (succs_preds bb He) in Hs. destruct (Z.ltb_spec (num label b) (num label p)) as [Hlt|Hge].
  - destruct (ri_done _ _ _ Hinv p (rpo_before done b rest p E Hpr Hlt)) as [Hps Hdone]. apply (Hdone d); [by apply Hd|done|lia].
  - assert (set_in idom p) as Hps by (destruct (ri_first _ _ _ Hinv) as [->|Hall]; [lia|by apply Hall]).
    apply (ri_rest _ _ _ Hinv p d Hps (Hd p Hs Hps) ns' Hp'). lia.
Qed.

Lemma step_inv : round_inv k (done ++ [b]) idom'.
Proof using He Hne Hord E Hb0 Hinv Hl Hbl Hmeet.
  pose proof (ri_tree _ _ _ Hinv) as Ht. split.
  - apply tree_update; [done..|]. destruct (oo_parent _ _ _ Hord b step_in_rpo Hb0) as (p & Hp & Hs & Hlt).
    destruct (ri_done _ _ _ Hinv p (rpo_before done b rest p E Hp Hlt)) as [Hps _].
    assert (anc f l p) as Hlp by (apply (Hmeet l); [constructor|by apply (succs_preds bb He)|done]).
    destruct (anc_path idom Ht l p Hps Hlp) as (ns & Hpath & Hns). exists (b :: ns). split; [by eapply path_step|].
    intros x [->|Hx]%elem_of_cons; [by right|by apply Hns].
  - apply step_sound.
  - intros x [Hx| ->%list_elem_of_singleton]%elem_of_app.
    + destruct (ri_done _ _ _ Hinv x Hx) as [Hxs Hxd]. split; [by apply set_update|]. intros d Hd. apply Hxd.
      apply (anc_outside idom Ht b l step_in_rpo Hb0 d x); [|done]. intros Hbx.
      destruct (anc_set idom Ht b x Hxs Hbx). pose proof (rpo_after done b rest x E Hx). lia.
    + split; [apply (set_updated idom Ht b l); [done..|by right]|]. intros d. apply step_below.
  - intros x d Hx Hd. apply (set_updated idom Ht b l) in Hx; [|done..].
    assert (forall d, anc f' d b -> dom_below k d b) as Hbk.
    { intros e He' ns Hp Hr. apply (step_below e He' ns Hp). lia. }
    destruct (decide (x = b)) as [->|Hxb]; [by apply Hbk|]. destruct Hx as [Hx| ->]; [|done].
    destruct (anc_gained idom Ht b l step_in_rpo Hb0 d x Hd) as [H|[H1 H2]]; [by apply (ri_rest _ _ _ Hinv)|].
    intros ns Hp Hr. destruct (path_prefix bb 0 ns x b Hp (ri_rest _ _ _ Hinv x b Hx H1 ns Hp Hr)) as (l1 & l2 & -> & Hp2).
    apply elem_of_app. right. apply (Hbk d H2 l2 Hp2). pose proof (retreats_suffix label l1 l2). lia.
  - destruct (ri_first _ _ _ Hinv) as [|Hall]; [by left|right]. intros x Hx. by apply set_update, Hall.
Qed.
End Step.

Lemma update_idom_ok k done b rest idom ch : rpo = done ++ b :: rest -> round_inv k done idom ->
  exists idom' ch', update_idom bb label (idom, ch) b = Ok (idom', ch') /\ round_inv k (done ++ [b]) idom' /\
    (ch' = false -> ch = false /\ idom' = idom /\ (b <> 0 -> meets idom b)) /\
    ((b <> 0 -> meets idom b) -> idom' = idom /\ ch' = ch).
Proof.
  intros E Hinv. pose proof (ri_tree _ _ _ Hinv) as Ht. assert (b ∈ rpo) as Hb by (rewrite E; apply elem_of_app; right; by left).
  unfold update_idom. destruct (Z.eqb_spec b 0) as [->|Hb0].
  - exists idom, ch. split_and!; [done| |by intros ->|done]. destruct Hinv as [I1 I2 I3 I4 I5]. split; [done|done| |done|done].
    intros x [Hx| ->%list_elem_of_singleton]%elem_of_app; [by apply I3|]. split; [split; [done|rewrite (to_root _ Ht); lia]|].
    intros d ->%anc_root ns Hp _. by apply (path_ends _ _ _ _ Hp).
  - pose proof (rpo_range b Hb) as Hr. destruct (block_at bb b Hr) as (blk & -> & _ & _ & Hpred). cbn [mbind Res_bind]. rewrite Hpred.
    destruct (oo_parent _ _ _ Hord b Hb Hb0) as (p & Hp & Hs & Hlt). pose proof (proj1 (succs_preds bb He _ _) Hs) as Hpb.
    destruct (ri_done _ _ _ Hinv p (rpo_before done b rest p E Hp Hlt)) as [Hps _].
    destruct (meet_preds_ok idom Ht (preds bb b)) as (z & -> & Hz); [intros q Hq; by apply (preds_range bb He) in Hq as [? _]|].
    cbn [mbind Res_bind]. destruct Hz as [[_ Hz]|(Hz & _ & Hmeet)]; [by apply Hz in Hps|].
    assert (num label b < num label z) as Hbz.
    { destruct (anc_set idom Ht z p Hps); [|lia]. apply (Hmeet z); [constructor|done..]. }
    pose proof (rpo_range z (proj1 Hz)) as Hzr. unfold in_range in Hzr, Hr. rewrite (proj2 (Z.ltb_ge z 0)) by lia.
    rewrite (vec_at_num idom bb b (to_length _ Ht) Hr). cbn [mbind Res_bind].
    pose proof (step_inv k done rest b z idom E Hb0 Hinv Hz Hbz Hmeet) as Hinv'.
    assert (meets idom b -> num idom b = z) as Huniq.
    { intros [Hbs Hm]. assert (forall d, anc (num idom) d (num idom b) <-> anc (num idom) d z) as Hsame by (intros d; by rewrite Hm, Hmeet).
      apply (anc_antisym idom Ht); [by apply (to_set _ Ht)|done|apply Hsame; constructor|apply Hsame; constructor]. }
    destruct (Z.eqb_spec (num idom b) z) as [Ez|Ez].
    + exists idom, ch. assert (<[Z.to_nat b := z]> idom = idom) as Eid.
      { apply list_insert_id. unfold num in Ez. pose proof (to_length _ Ht). destruct (lookup_lt_is_Some_2 idom (Z.to_nat b)) as [v Hv]; [unfold vec_size in Hr; lia|].
        rewrite Hv in Ez |- *. cbn in Ez. by subst. }
      rewrite Eid in Hinv'. split_and!; [done..| |done]. intros ->. split_and!; [done..|]. intros _. split; [split; [done|lia]|]. intros d. by rewrite Ez, Hmeet.
    + assert (vec_set idom b z = Ok (<[Z.to_nat b := z]> idom)) as ->.
      { apply vec_set_Ok. pose proof (to_length _ Ht). unfold vec_size in *. split; [lia|done]. }
      cbn [mbind Res_bind]. eexists _, true. split_and!; [done..|]. intros Hm. by destruct Ez; apply Huniq, Hm.
Qed.

(** One pass over the blocks. *)
Lemma round_ok k idom : round_inv k [] idom ->
  exists idom' ch, foldM (update_idom bb label) (idom, false) rpo = Ok (idom', ch) /\ round_inv k rpo idom' /\
    (ch = false -> idom' = idom /\ forall b, b ∈ rpo -> b <> 0 -> meets idom b) /\
    ((forall b, b ∈ rpo -> b <> 0 -> meets idom b) -> ch = false).
Proof.
  intros Hinv.
  destruct (foldM_prefix (update_idom bb label) (fun done st => round_inv k done st.1 /\
    (st.2 = false -> st.1 = idom /\ forall b, b ∈ done -> b <> 0 -> meets idom b) /\
    ((forall b, b ∈ rpo -> b <> 0 -> meets idom b) -> st = (idom, false))) rpo (idom, false)) as ([idom' ch] & Ef & H1 & H2 & H3).
  - intros done b rest [i c] E (H1 & H2 & H3). cbn [fst snd] in *.
    destruct (update_idom_ok k done b rest i c E H1) as (i' & c' & -> & H1' & Hf & Hm). exists (i', c'). split; [done|]. cbn [fst snd].
    split_and!; [done| |].
    + intros Hc'. destruct (Hf Hc') as (Hc & -> & Hb). destruct (H2 Hc) as [-> Hall]. split; [done|].
      intros x [Hx| ->%list_elem_of_singleton]%elem_of_app; [by apply Hall|done].
    + intros Hall. specialize (H3 Hall). injection H3 as -> ->. destruct Hm as [-> ->]; [|done].
      apply Hall. rewrite E. apply elem_of_app. right. by left.
  - split_and!; [done| |done]. intros _. split; [done|]. by intros ? ?%not_elem_of_nil.
  - exists idom', ch. split_and!; [done..|]. intros Hall. specialize (H3 Hall). congruence.
Qed.

Lemma round_next k idom : round_inv k rpo idom -> round_inv (S k) [] idom.
Proof.
  intros [I1 I2 I3 I4 I5]. split; [done|done|by intros ? ?%not_elem_of_nil| |].
  - intros x d [Hx _] Hd. by apply I3.
  - right. intros x Hx. by apply I3.
Qed.

(** ** The result *)

(** The ancestors of a block are its dominators. *)
Definition exact (idom : list Z) : Prop :=
  tree_ok idom /\ (forall x, x ∈ rpo -> set_in idom x) /\ forall x d, x ∈ rpo -> anc (num idom) d x <-> dominates bb d x.

(** After as many rounds as there are blocks every simple path is covered. *)
Lemma late_exact k idom : (length bb <= k)%nat -> k <> O -> round_inv k [] idom -> exact idom.
Proof.
  intros Hk Hk0 [I1 I2 _ I4 I5]. destruct I5 as [|Hall]; [done|]. split_and!; [done..|]. intros x d Hx. split; [|by apply I2, Hall].
  intros Hd ns Hp. destruct (path_simple bb 0 ns x Hp) as (ns' & Hp' & Hnd & Hin). apply Hin, (I4 x d (Hall x Hx) Hd ns' Hp').
  pose proof (path_bound bb ns' x He Hne Hp' Hnd). pose proof (retreats_length label ns').
  assert (0 < length ns')%nat by (destruct Hp'; cbn; lia). lia.
Qed.

Lemma exact_meets idom b : exact idom -> b ∈ rpo -> b <> 0 -> meets idom b.
Proof.
  intros (Ht & Hall & Hex) Hb H0. split; [by apply Hall|]. intros d.
  assert (num idom b ∈ rpo) as Hf by (by apply (to_set _ Ht b (Hall b Hb) H0)).
  pose proof (to_up _ Ht b (Hall b Hb) H0) as Hup.
  assert (anc (num idom) d (num idom b) <-> dominates bb d b /\ d <> b) as ->.
  { rewrite <- (Hex b d Hb). split.
    - intros H. split; [by apply anc_up|]. intros ->. destruct (anc_set idom Ht b _ (Hall _ Hf) H). lia.
    - intros [H Hd]. by destruct H. }
  split.
  - intros [Hd Hdb] p Hp [Hpr _]. apply Hex; [done|]. apply (dominates_pred bb d b p Hd Hdb). by apply (succs_preds bb He).
  - intros H. assert (forall p, p ∈ rpo -> b ∈ succs bb p -> dominates bb d p) as H'.
    { intros p Hpr Hp. apply (Hex p d Hpr), H; [by apply (succs_preds bb He)|by apply Hall]. }
    split; [apply dominates_preds; [done|]; intros p Hp%(oo_reach _ _ _ Hord); by apply H'|]. intros ->.
    destruct (oo_parent _ _ _ Hord b Hb H0) as (p & Hp & Hs & Hlt). pose proof (H' p Hp Hs) as Hd%(Hex p b Hp).
    destruct (anc_set idom Ht b p (Hall p Hp) Hd). lia.
Qed.

(** A state that a round does not change is exact. *)
Lemma stable_exact k idom : round_inv k rpo idom -> (forall b, b ∈ rpo -> b <> 0 -> meets idom b) -> exact idom.
Proof.
  intros Hinv Hm. pose proof (ri_tree _ _ _ Hinv) as Ht. assert (forall x, x ∈ rpo -> set_in idom x) as Hall by (intros x Hx; by apply (ri_done _ _ _ Hinv)).
  split_and!; [done..|]. intros x d Hx. split; [|by apply (ri_sound _ _ _ Hinv), Hall]. intros Hd ns Hp. revert d Hx Hd.
  induction Hp as [|ns p b Hp IH Hs]; intros d Hx Hd; [apply anc_root in Hd as ->; by left|].
  assert (p ∈ rpo) as Hpr by (apply (oo_reach _ _ _ Hord); by apply (path_reachable bb 0 ns); [constructor|]).
  destruct Hd as [|b H0 Hd]; [by left|]. right. apply IH; [done|]. apply (proj2 (Hm b Hx H0) d); [done|by apply (succs_preds bb He)|by apply Hall].
Qed.

Lemma idom_loop_ok fuel : forall k idom, round_inv k [] idom -> (length bb + 2 <= fuel + k)%nat -> (k <= length bb + 1)%nat ->
  exists idom', idom_loop fuel bb label rpo idom = Ok idom' /\ exact idom'.
Proof.
  induction fuel as [|fuel IH]; intros k idom Hinv Hf Hk; [lia|]. cbn [idom_loop].
  destruct (round_ok k idom Hinv) as (idom' & ch & -> & Hinv' & Hsame & Hstop). cbn [mbind Res_bind]. destruct ch.
  - apply (IH (S k)); [by apply round_next|lia|]. destruct (decide (k = length bb + 1)%nat) as [->|]; [|lia].
    assert (exact idom) as Hex by (apply (late_exact (length bb + 1)); [lia|lia|done]).
    assert (true = false) as [=]. apply Hstop. intros b Hb H0. by apply exact_meets.
  - destruct (Hsame eq_refl) as [-> Hm]. exists idom. split; [done|]. by eapply stable_exact.
Qed.

Lemma initial_inv : vec_set (replicate (length bb) (-1)) 0 0 = Ok (<[0%nat := 0]> (replicate (length bb) (-1))) /\
  round_inv 0 [] (<[0%nat := 0]> (replicate (length bb) (-1))).
Proof.
  assert (0 < length bb)%nat as Hpos by (destruct bb; [done|cbn; lia]).
  assert (forall x, 0 <= x -> num (<[0%nat := 0]> (replicate (length bb) (-1))) x = if decide (x = 0) then 0 else -1) as Hnum.
  { intros x Hx. unfold num. case_decide as E; [subst; by rewrite list_lookup_insert_eq by (rewrite length_replicate; lia)|].
    rewrite list_lookup_insert_ne by lia. destruct (replicate _ _ !! _) eqn:Er; [|done]. by apply lookup_replicate in Er as [-> _]. }
  assert (forall x, set_in (<[0%nat := 0]> (replicate (length bb) (-1))) x -> x = 0) as Hset.
  { intros x [Hx%rpo_range H]. rewrite Hnum in H by apply Hx. case_decide; [done|lia]. }
  split; [apply vec_set_Ok; unfold vec_size; rewrite length_replicate; split; [lia|done]|]. split.
  - split.
    + by rewrite length_insert, length_replicate.
    + by rewrite Hnum.
    + intros b Hb H. rewrite Hnum in H by apply Hb. case_decide; [subst; apply entry_in_rpo|lia].
    + by intros b ->%Hset.
    + by intros b ->%Hset.
    + by intros b ->%Hset.
  - intros d b ->%Hset Hd. specialize (Hd [0] (path_here _ _)). apply list_elem_of_singleton in Hd as ->. constructor.
  - by intros ? ?%not_elem_of_nil.
  - intros x d _ _ ns _ ?. lia.
  - by left.
Qed.
End Tree.

Lemma push_edge_ok E i x : 0 <= i < vec_size E -> exists E', push_edge E i x = Ok E'.
Proof.
  unfold vec_size, push_edge. intros Hi. destruct (lookup_lt_is_Some_2 E (Z.to_nat i)) as [r Hr]; [lia|].
  rewrite (proj2 (vec_at_Ok E i r)) by (split; [lia|done]). cbn [mbind Res_bind]. eexists. apply vec_set_Ok. unfold vec_size. split; [lia|done].
Qed.

Lemma dom_children_ok idom : (forall b, 0 < b < vec_size idom -> num idom b < vec_size idom) ->
  exists t, dom_children idom = Ok t /\ length t = length idom /\
    forall d b, b ∈ row t d <-> 0 < b < vec_size idom /\ 0 <= d /\ num idom b = d.
Proof.
  intros Hrange. unfold dom_children.
  destruct (foldM_prefix (fun dom_tree i => d ← vec_at idom i; if 0 <=? d then push_edge dom_tree d i else Ok dom_tree)
    (fun done t => length t = length idom /\ forall d b, b ∈ row t d <-> b ∈ done /\ 0 <= d /\ num idom b = d)
    (seqZ 1 (vec_size idom - 1)) (replicate (length idom) [])) as (t & E & Hl & Hrow).
  - intros done i rest t Es [Hl Hrow]. assert (i ∈ seqZ 1 (vec_size idom - 1)) as Hi by (rewrite Es; apply elem_of_app; right; by left).
    apply elem_of_seqZ in Hi. rewrite (vec_at_num idom idom i eq_refl) by lia. cbn [mbind Res_bind].
    destruct (Z.leb_spec 0 (num idom i)) as [H0|H0].
    + destruct (push_edge_ok t (num idom i) i) as [t' Ht']; [unfold vec_size; rewrite Hl; split; [done|apply Hrange; lia]|].
      exists t'. split; [done|]. destruct (row_push _ _ _ _ Ht') as [Hl' Hrow']. split; [lia|]. intros d b. rewrite Hrow', elem_of_app, list_elem_of_singleton.
      case_decide as Hd; [rewrite elem_of_app, list_elem_of_singleton|]; rewrite Hrow; naive_solver.
    + exists t. split; [done|]. split; [done|]. intros d b. rewrite Hrow, elem_of_app, list_elem_of_singleton. naive_solver lia.
  - rewrite length_replicate. split; [done|]. intros d b. unfold row. destruct (d <? 0); [by rewrite !elem_of_nil; tauto|].
    destruct (replicate (length idom) [] !! Z.to_nat d) as [r|] eqn:Er; cbn; [apply lookup_replicate in Er as [-> _]|]; rewrite !elem_of_nil; tauto.
  - exists t. split_and!; [done..|]. intros d b. rewrite Hrow, elem_of_seqZ. unfold vec_size. lia.
Qed.

(** The tree links every reachable block but the entry to its candidate, and candidates
    are exact. *)
Lemma dominator_tree bb : edges_ok bb -> bb <> [] ->
  exists label rpo idom t, ComputeDominatorTree bb = Ok t /\ order_ok bb label rpo /\ exact bb label rpo idom /\
    length t = length bb /\ forall d b, b ∈ row t d <-> b ∈ rpo /\ b <> 0 /\ num idom b = d.
Proof.
  intros He Hne. destruct (order_exists bb He Hne) as (po & label & Epo & El & Hord).
  destruct (initial_inv bb He Hne label (rev po) Hord) as [E0 Hinv].
  destruct (idom_loop_ok bb He Hne label (rev po) Hord (length bb + 2) 0 _ Hinv) as (idom & Ei & Hex); [lia..|].
  pose proof Hex as (Ht & Hall & _). pose proof (to_length _ _ _ _ Ht) as Hlen.
  assert (forall b, b ∈ rev po -> b <> 0 -> in_range bb (num idom b)) as Hup.
  { intros b Hb H0. apply (rpo_range bb He Hne label (rev po) Hord). by apply (to_set _ _ _ _ Ht b (Hall b Hb) H0). }
  assert (forall b, 0 < b < vec_size idom -> 0 <= num idom b -> b ∈ rev po) as Hreach.
  { intros b Hb Hn. apply (to_reach _ _ _ _ Ht); [|done]. unfold in_range, vec_size in *. lia. }
  destruct (dom_children_ok idom) as (t & Et & Hl & Hrow).
  { intros b Hb. destruct (decide (0 <= num idom b)) as [Hn|]; [|lia]. specialize (Hup b (Hreach b Hb Hn) ltac:(lia)).
    unfold in_range, vec_size in *. lia. }
  exists label, (rev po), idom, t. unfold ComputeDominatorTree. rewrite Epo. cbn [mbind Res_bind]. rewrite El. cbn [mbind Res_bind].
  rewrite E0. cbn [mbind Res_bind]. rewrite Ei. cbn [mbind Res_bind]. split_and!; [done..|lia|]. intros d b. rewrite Hrow. split.
  - intros (Hb & Hd & <-). split_and!; [by apply Hreach|lia|done].
  - intros (Hb & H0 & <-). pose proof (rpo_range bb He Hne label (rev po) Hord b Hb) as Hr. specialize (Hup b Hb H0).
    unfold in_range, vec_size in *. split_and!; [lia..|done].
Qed.

(** C7. The dominator tree is right: whatever the graph (irreducible and unreachable
    parts included), [ComputeDominatorTree] returns, and the children of a block are
    exactly the reachable blocks it immediately dominates. *)
Theorem dominator_tree_correct bb : edges_ok bb -> bb <> [] ->
  exists t, ComputeDominatorTree bb = Ok t /\ length t = length bb /\
    forall d b, b ∈ row t d <-> reachable bb b /\ immediately_dominates bb d b.
Proof.
  intros He Hne. destruct (dominator_tree bb He Hne) as (label & rpo & idom & t & E & Hord & (Ht & Hall & Hex) & Hl & Hrow).
  exists t. split_and!; [done..|]. intros d b. rewrite Hrow, <- (oo_reach _ _ _ Hord).
  assert (forall b, b ∈ rpo -> b <> 0 -> immediately_dominates bb (num idom b) b) as Himm.
  { intros x Hx H0. pose proof (to_up _ _ _ _ Ht x (Hall x Hx) H0) as Hlt. pose proof (to_set _ _ _ _ Ht x (Hall x Hx) H0) as [Hfx _].
    split_and!; [intros E'; rewrite E' in Hlt; lia|apply Hex; [done|]; apply anc_up; [done|constructor]|].
    intros e Hne' He'. apply Hex in He'; [|done]. apply Hex; [done|]. by destruct He'. }
  split.
  - intros (Hb & H0 & <-). auto.
  - intros (Hb & Hd & Hdom & Himmd). assert (b <> 0) as H0.
    { intros ->. specialize (Hdom [0] (path_here _ _)). by apply list_elem_of_singleton in Hdom. }
    split_and!; [done..|]. destruct (Himm b Hb H0) as (Hf1 & Hf2 & Hf3).
    pose proof (Hf3 d Hd Hdom) as H1. pose proof (Himmd _ Hf1 Hf2) as H2.
    pose proof (to_set _ _ _ _ Ht b (Hall b Hb) H0) as [Hfr _].
    assert (d ∈ rpo) as Hdr.
    { destruct (reachable_path bb b ltac:(by apply (oo_reach _ _ _ Hord))) as [ns Hp]. apply (oo_reach _ _ _ Hord).
      by apply (path_reachable bb 0 ns b (reach_entry bb) Hp), Hdom. }
    apply (anc_antisym bb label rpo idom Ht); [by apply Hall..|by apply Hex|by apply Hex].
Qed.

(** An irreducible graph: two blocks that lead to each other are both entered from
    outside; block 5 is not reachable. *)
Definition irreducible : list BasicBlock :=
  [MkBB [] [1; 2] []; MkBB [] [2; 3] [0; 2]; MkBB [] [1; 4] [0; 1]; MkBB [] [4] [1; 5]; MkBB [] [] [2; 3]; MkBB [] [3] []].

Lemma dominator_tree_correct_witness :
  exists t, ComputeDominatorTree irreducible = Ok t /\ length t = length irreducible /\
    forall d b, b ∈ row t d <-> reachable irreducible b /\ immediately_dominates irreducible d b.
Proof. apply (dominator_tree_correct irreducible); [apply CfgDemo.edges_check_ok; reflexivity|done]. Defined.

Example irreducible_tree : ComputeDominatorTree irreducible = Ok [[1; 2; 4]; [3]; []; []; []; []].
Proof. vm_compute. reflexivity. Qed.
