(* ===== verification/Loops.v ===== *)
(** * Loops

    src/khir/asm/loops.cc: the natural loops of a function and the tree of their
    nesting, built with union-find from the smallest loop up, and the depth of every
    block in that tree, by which src/khir/asm/live_intervals.cc weighs the cost of
    spilling a value.  [sort] is how [std::sort] orders headers whose loops have the
    same size.  Loops are [gset]s; the order in which a hash set is walked decides only
    how paths of the union-find are compressed. *)
From stdpp Require Import sorting.
From S2P Require Import Prelude FunctionBuilder CfgSimplify CfgMerge CfgOutput Utilities Dominators.

(** ** Dominance in the tree *)
Fixpoint DominatesHelper (fuel : nat) (dom_tree : list (list Z)) (curr target : Z) : Res bool :=
  match fuel with
  | O => NoFuel
  | S fuel =>
      if curr =? target then Ok true
      else
        children ← vec_at dom_tree curr;
        (fix loop (children : list Z) : Res bool :=
          match children with
          | [] => Ok false
          | x :: children =>
              found ← DominatesHelper fuel dom_tree x target;
              if found : bool then Ok true else loop children
          end) children
  end.

Definition Dominates (dom_tree : list (list Z)) (i j : Z) : Res bool :=
  DominatesHelper (S (length dom_tree)) dom_tree i j.

(** ** Natural loops *)
Definition add_backedges (bb : list BasicBlock) (dom_tree : list (list Z)) (backedges : list (list Z)) (i : Z)
    : Res (list (list Z)) :=
  b ← vec_at bb i;
  foldM (fun backedges j =>
    d ← Dominates dom_tree j i;
    if d : bool then push_edge backedges j i else Ok backedges) backedges (Successors b).

Definition FindBackedges (bb : list BasicBlock) (dom_tree : list (list Z)) : Res (list (list Z)) :=
  foldM (add_backedges bb dom_tree) (replicate (length bb) []) (seqZ 0 (vec_size bb)).

(** The predecessors of a block of the loop. *)
Definition visit_pred (dom_tree : list (list Z)) (i : Z) (st : list Z * list bool) (y : Z) : Res (list Z * list bool) :=
  let '(bfs, visited) := st in
  v ← vec_at visited y;
  if v : bool then Ok st
  else
    visited ← vec_set visited y true;
    d ← Dominates dom_tree i y;
    Ok (if d : bool then bfs ++ [y] else bfs, visited).

Fixpoint bfs_loop (fuel : nat) (bb : list BasicBlock) (dom_tree : list (list Z)) (i : Z)
    (bfs : list Z) (visited : list bool) (loop : gset Z) : Res (gset Z) :=
  match bfs with
  | [] => Ok loop
  | z :: bfs =>
      match fuel with
      | O => NoFuel
      | S fuel =>
          b ← vec_at bb z;
          '(bfs, visited) ← foldM (visit_pred dom_tree i) (bfs, visited) (Predecessors b);
          bfs_loop fuel bb dom_tree i bfs visited ({[z]} ∪ loop)
      end
  end.

Definition natural_loop (bb : list BasicBlock) (dom_tree : list (list Z)) (i : Z) (sources : list Z) : Res (gset Z) :=
  match sources with
  | [] => Ok ∅
  | _ =>
      visited ← vec_set (replicate (length bb) false) i true;
      visited ← foldM (fun visited z => vec_set visited z true) visited sources;
      bfs_loop (length sources + length bb) bb dom_tree i sources visited {[i]}
  end.

Definition natural_loops (bb : list BasicBlock) (dom_tree : list (list Z)) (backedges : list (list Z)) : Res (list (gset Z)) :=
  foldM (fun loops i =>
    sources ← vec_at backedges i;
    loop ← natural_loop bb dom_tree i sources;
    Ok (loops ++ [loop])) [] (seqZ 0 (vec_size bb)).

(** ** The tree of loops *)
Definition ConstructLoopTreeHelper (loops : list (gset Z)) (st : list (list Z) * list Z) (header : Z)
    : Res (list (list Z) * list Z) :=
  let '(loop_tree, union_find) := st in
  loop ← vec_at loops header;
  '(reps, union_find) ← foldM (fun '(reps, union_find) x =>
      '(r, union_find) ← Find (find_fuel union_find) union_find x;
      Ok ({[r]} ∪ reps, union_find)) (∅ : gset Z, union_find) (elements loop);
  let loop_tree_children := merge_sort Z.le (elements (reps ∖ {[header]})) in
  loop_tree ← vec_set loop_tree header loop_tree_children;
  union_find ← foldM (fun union_find x => Union union_find x header) union_find loop_tree_children;
  Ok (loop_tree, union_find).

Definition loop_size (loops : list (gset Z)) (i : Z) : nat := size (default ∅ (loops !! Z.to_nat i)).

Definition loop_headers (loops : list (gset Z)) : list Z :=
  filter (fun i => default ∅ (loops !! Z.to_nat i) <> ∅) (seqZ 0 (vec_size loops)).

Definition FindLoops (sort : (Z -> nat) -> list Z -> list Z) (bb : list BasicBlock) : Res (list (list Z)) :=
  dom_tree ← ComputeDominatorTree bb;
  backedges ← FindBackedges bb dom_tree;
  loops ← natural_loops bb dom_tree backedges;
  let order := sort (loop_size loops) (loop_headers loops) in
  '(loop_tree, _) ← foldM (ConstructLoopTreeHelper loops) (replicate (length bb) [], seqZ 0 (vec_size bb)) order;
  Ok loop_tree.

(** ** Depths *)
Definition mark_children (is_root : list bool) (children : list Z) : Res (list bool) :=
  foldM (fun is_root y => vec_set is_root y false) is_root children.

Fixpoint depth_dfs (fuel : nat) (loop_tree : list (list Z)) (curr curr_depth : Z) (loop_depth : list Z) : Res (list Z) :=
  match fuel with
  | O => NoFuel
  | S fuel =>
      loop_depth ← vec_set loop_depth curr curr_depth;
      children ← vec_at loop_tree curr;
      foldM (fun loop_depth next => depth_dfs fuel loop_tree next (curr_depth + 1) loop_depth) loop_depth children
  end.

Definition LoopDepths (sort : (Z -> nat) -> list Z -> list Z) (bb : list BasicBlock) : Res (list Z) :=
  loop_tree ← FindLoops sort bb;
  is_root ← foldM mark_children (replicate (length bb) true) loop_tree;
  foldM (fun loop_depth i =>
    r ← vec_at is_root i;
    if r : bool then depth_dfs (S (length bb)) loop_tree i 0 loop_depth else Ok loop_depth)
    (replicate (length bb) 0) (seqZ 0 (vec_size bb)).

(** Sorting by a key, with equal keys kept in order. *)
Definition by_key (key : Z -> nat) (a b : Z) : Prop := (key a <= key b)%nat.
#[export] Instance by_key_dec key : RelDecision (by_key key).
Proof. intros a b. unfold by_key. apply _. Defined.
Definition sort_by (key : Z -> nat) : list Z -> list Z := merge_sort (by_key key).

(** ** What a loop is *)

(** Dominance as the code asks for it: a block that is not reachable is dominated by
    itself only. *)
Definition dom_or_self (bb : list BasicBlock) (i j : Z) : Prop := i = j \/ (reachable bb j /\ dominates bb i j).

(** An edge back to a block that dominates its source. *)
Definition back_edge (bb : list BasicBlock) (z h : Z) : Prop := h ∈ succs bb z /\ dom_or_self bb h z.

Definition loop_header (bb : list BasicBlock) (h : Z) : Prop := exists z, back_edge bb z h.

(** The natural loop of a header: the header, and the blocks from which the source of a
    back edge is reached without passing the header. *)
Definition in_loop (bb : list BasicBlock) (h x : Z) : Prop :=
  loop_header bb h /\
  (x = h \/ exists z, back_edge bb z h /\ reachable bb x /\ exists ns, path bb x ns z /\ h ∉ ns).

Section Loops.
Context (bb : list BasicBlock) (He : edges_ok bb) (Hne : bb <> []).
Context (label rpo idom : list Z) (t : list (list Z)).
Context (Hord : order_ok bb label rpo) (Hex : exact bb label rpo idom).
Context (Htl : length t = length bb) (Hrow : forall d b, b ∈ row t d <-> b ∈ rpo /\ b <> 0 /\ num idom b = d).
#[local] Abbreviation f := (num idom).

Lemma tree_row d : in_range bb d -> exists r, vec_at t d = Ok r /\ r = row t d.
Proof using Htl.
  unfold in_range, vec_size, row. intros Hd. destruct (lookup_lt_is_Some_2 t (Z.to_nat d)) as [r Hr]; [lia|].
  exists r. rewrite (proj2 (Z.ltb_ge d 0)), Hr by lia. split; [apply vec_at_Ok; split; [lia|done]|done].
Qed.

(** Below a block are the blocks below its children. *)
Lemma anc_children d x : x ∈ rpo -> anc f d x <-> d = x \/ exists c, c ∈ row t d /\ anc f c x.
Proof using Hrow Hex.
  intros Hx. pose proof Hex as (Ht & Hall & _). split.
  - intros H. induction H as [|x H0 H IH]; [by left|right].
    assert (f x ∈ rpo) as Hfx by (by apply (to_set _ _ _ _ Ht x (Hall x Hx) H0)).
    destruct (IH Hfx) as [->|(c & Hc & Hcx)]; [exists x; split; [by apply Hrow|constructor]|].
    exists c. split; [done|by apply anc_up].
  - intros [->|(c & (Hc & H0 & <-)%Hrow & Hcx)]; [constructor|].
    apply (anc_trans f (f c) c x); [|done]. apply anc_up; [done|constructor].
Qed.

Lemma DominatesHelper_ok fuel : forall curr target, in_range bb curr ->
  (curr ∈ rpo -> num label curr < Z.of_nat fuel) -> (0 < fuel)%nat ->
  exists r, DominatesHelper fuel t curr target = Ok r /\ (r = true <-> curr = target \/ (target ∈ rpo /\ anc f curr target)).
Proof using Hrow Htl Hord Hne He Hex.
  induction fuel as [|fuel IH]; intros curr target Hc Hf Hpos; [lia|]. cbn [DominatesHelper].
  destruct (Z.eqb_spec curr target) as [->|Hct]; [exists true; split; [done|tauto]|].
  destruct (tree_row curr Hc) as (r & -> & Er). cbn [mbind Res_bind]. pose proof Hex as (Ht & Hall & _).
  assert (forall c, c ∈ r -> in_range bb c /\ (c ∈ rpo -> num label c < Z.of_nat fuel) /\ (0 < fuel)%nat) as Hr.
  { intros c Hcr. rewrite Er in Hcr. apply Hrow in Hcr as (Hcr & H0 & <-).
    pose proof (to_up _ _ _ _ Ht c (Hall c Hcr) H0) as Hup. pose proof (to_set _ _ _ _ Ht c (Hall c Hcr) H0) as [Hfr _].
    specialize (Hf Hfr). pose proof (oo_range _ _ _ Hord c Hcr). split_and!; [by apply (rpo_range bb He Hne label rpo Hord)|lia|lia]. }
  assert (exists b, (fix loop (children : list Z) : Res bool :=
      match children with
      | [] => Ok false
      | x :: children =>
          found ← DominatesHelper fuel t x target;
          if found : bool then Ok true else loop children
      end) r = Ok b /\ (b = true <-> exists c, c ∈ r /\ (c = target \/ (target ∈ rpo /\ anc f c target)))) as (b & -> & Hb).
  { clear Er. induction r as [|c r IHr].
    - exists false. split; [done|]. split; [done|]. by intros (c & ?%not_elem_of_nil & _).
    - destruct (Hr c ltac:(by left)) as (H1 & H2 & H3). destruct (IH c target H1 H2 H3) as (v & -> & Hv). cbn [mbind Res_bind].
      destruct IHr as (b & Eb & Hb); [intros; by apply Hr; right|]. destruct v.
      + exists true. split; [done|]. split; [|done]. intros _. exists c. split; [by left|by apply Hv].
      + exists b. split; [done|]. rewrite Hb. split; intros (e & He' & Hx); [exists e; split; [by right|done]|].
        apply elem_of_cons in He' as [->|He']; [by apply Hv in Hx|by exists e]. }
  exists b. split; [done|]. rewrite Hb, Er. split.
  - intros (c & Hc' & Hx). right. assert (target ∈ rpo) as Htr by (destruct Hx as [<-|[? _]]; [by apply Hrow in Hc' as [? _]|done]).
    split; [done|]. apply anc_children; [done|right]. exists c. split; [done|]. destruct Hx as [->|[_ ?]]; [constructor|done].
  - intros [?|[Htr Hanc]]; [done|]. apply anc_children in Hanc as [?|(c & Hc' & Hx)]; [done| |done]. exists c. auto.
Qed.

Lemma Dominates_ok i j : in_range bb i -> exists r, Dominates t i j = Ok r /\ (r = true <-> dom_or_self bb i j).
Proof using Hrow Htl Hord Hne He Hex.
  intros Hi. destruct (DominatesHelper_ok (S (length t)) i j Hi) as (r & E & Hr); [|lia|].
  { intros H%(oo_range _ _ _ Hord). unfold vec_size in H. lia. }
  exists r. split; [done|]. rewrite Hr. unfold dom_or_self. rewrite <- (oo_reach _ _ _ Hord). pose proof Hex as (_ & _ & Hd).
  split; (intros [|[Hj H]]; [by left|right; split; [done|by apply (Hd j i Hj)]]).
Qed.

(** ** Back edges *)
Lemma add_backedges_ok E i : in_range bb i -> length E = length bb ->
  exists E', add_backedges bb t E i = Ok E' /\ length E' = length bb /\
    forall h z, z ∈ row E' h <-> z ∈ row E h \/ (z = i /\ back_edge bb i h).
Proof using Hrow Htl Hord Hne He Hex.
  intros Hi Hl. unfold add_backedges. destruct (block_at bb i Hi) as (blk & -> & _ & Hs & _). cbn [mbind Res_bind]. rewrite Hs.
  destruct (foldM_prefix (fun backedges j => d ← Dominates t j i; if d : bool then push_edge backedges j i else Ok backedges)
    (fun done E' => length E' = length bb /\ forall h z, z ∈ row E' h <-> z ∈ row E h \/ (z = i /\ h ∈ done /\ dom_or_self bb h i))
    (succs bb i) E) as (E' & Ef & Hl' & Hr').
  - intros done j rest E1 Es [Hl1 Hr1]. assert (in_range bb j) as Hj.
    { apply (succs_range bb He i). rewrite Es. apply elem_of_app. right. by left. }
    destruct (Dominates_ok j i Hj) as (d & -> & Hd). cbn [mbind Res_bind]. destruct d.
    + destruct (push_edge_ok E1 j i) as [E2 E2e]; [unfold in_range, vec_size in *; lia|]. exists E2. split; [done|].
      destruct (row_push _ _ _ _ E2e) as [Hl2 Hr2]. split; [lia|]. intros h z. rewrite Hr2.
      assert (dom_or_self bb j i) as Hji by (by apply Hd).
      case_decide as E'; [subst; rewrite elem_of_app, list_elem_of_singleton|]; rewrite Hr1, elem_of_app, list_elem_of_singleton; naive_solver.
    + exists E1. split; [done|]. split; [done|]. intros h z. rewrite Hr1, elem_of_app, list_elem_of_singleton.
      assert (~ dom_or_self bb j i) as Hji by (intros ?%Hd; done). naive_solver.
  - split; [done|]. intros h z. rewrite elem_of_nil. tauto.
  - exists E'. split_and!; [done..|]. intros h z. rewrite Hr'. unfold back_edge. done.
Qed.

Lemma FindBackedges_ok : exists E, FindBackedges bb t = Ok E /\ length E = length bb /\
  forall h z, z ∈ row E h <-> back_edge bb z h.
Proof using Hrow Htl Hord Hne He Hex.
  unfold FindBackedges.
  destruct (foldM_prefix (add_backedges bb t) (fun done E => length E = length bb /\
    forall h z, z ∈ row E h <-> z ∈ done /\ back_edge bb z h) (seqZ 0 (vec_size bb)) (replicate (length bb) [])) as (E & Ef & Hl & Hr).
  - intros done i rest E Es [Hl Hr]. assert (in_range bb i) as Hi.
    { assert (i ∈ seqZ 0 (vec_size bb)) as H%elem_of_seqZ by (rewrite Es; apply elem_of_app; right; by left). unfold in_range. lia. }
    destruct (add_backedges_ok E i Hi Hl) as (E' & -> & Hl' & Hr'). exists E'. split_and!; [done..|].
    intros h z. rewrite Hr', Hr, elem_of_app, list_elem_of_singleton. naive_solver.
  - rewrite length_replicate. split; [done|]. intros h z. rewrite elem_of_nil. unfold row. destruct (h <? 0); [rewrite elem_of_nil; tauto|].
    destruct (replicate (length bb) [] !! Z.to_nat h) as [r|] eqn:Er; cbn; [apply lookup_replicate in Er as [-> _]|]; rewrite !elem_of_nil; tauto.
  - exists E. split_and!; [done..|]. intros h z. rewrite Hr. split; [tauto|]. intros H. split; [|done].
    apply elem_of_seqZ. destruct H as [H _]. apply (succs_range bb He) in H as [H _]. unfold in_range in H. lia.
Qed.

(** ** The backward search *)
Lemma dom_or_self_reachable i j : dom_or_self bb i j -> i <> j -> reachable bb j /\ dominates bb i j.
Proof. by intros [|]. Qed.

Lemma visit_preds_ok h ys V Q : in_range bb h -> length V = length bb -> (forall y, y ∈ ys -> in_range bb y) ->
  exists new V', foldM (visit_pred t h) (Q, V) ys = Ok (Q ++ new, V') /\ length V' = length bb /\
    (forall x, 0 <= x -> del V' x = true <-> del V x = true \/ x ∈ ys) /\
    (forall y, y ∈ new <-> y ∈ ys /\ del V y = false /\ dom_or_self bb h y) /\
    (length new + count_live V' <= count_live V)%nat.
Proof using Hrow Htl Hord Hne He Hex.
  intros Hh Hl Hys.
  destruct (foldM_prefix (visit_pred t h) (fun done st => exists new V', st = (Q ++ new, V') /\ length V' = length bb /\
    (forall x, 0 <= x -> del V' x = true <-> del V x = true \/ x ∈ done) /\
    (forall y, y ∈ new <-> y ∈ done /\ del V y = false /\ dom_or_self bb h y) /\
    (length new + count_live V' <= count_live V)%nat) ys (Q, V)) as ([Q' V'] & Ef & new & V1 & [= -> ->] & H).
  - intros done y rest st Es (new & V' & -> & Hl' & Hv & Hn & Hc). cbn [visit_pred].
    assert (in_range bb y) as Hy by (apply Hys; rewrite Es; apply elem_of_app; right; by left).
    rewrite (vec_at_del bb V' y Hl' Hy). cbn [mbind Res_bind]. destruct (del V' y) eqn:Ey.
    + eexists. split; [done|]. exists new, V'. split_and!; [done..| | |done].
      * intros x Hx. rewrite Hv, elem_of_app, list_elem_of_singleton by done. split; [tauto|]. intros [?|[?| ->]]; [tauto..|].
        apply Hv in Ey; [done|]. apply Hy.
      * intros x. rewrite Hn, elem_of_app, list_elem_of_singleton. split; [tauto|]. intros ([?| ->] & Hx & Hd); [tauto|].
        apply Hv in Ey as [?|?]; [congruence|tauto|apply Hy].
    + unfold in_range, vec_size in Hy. assert (vec_set V' y true = Ok (<[Z.to_nat y := true]> V')) as ->.
      { apply vec_set_Ok. unfold vec_size. split; [lia|done]. }
      cbn [mbind Res_bind]. destruct (Dominates_ok h y Hh) as (d & -> & Hd). cbn [mbind Res_bind].
      assert (S (count_live (<[Z.to_nat y := true]> V')) = count_live V') as Hcl.
      { apply count_live_insert. unfold del in Ey. destruct (lookup_lt_is_Some_2 V' (Z.to_nat y)) as [v Ev]; [lia|]. rewrite Ev in Ey |- *. cbn in Ey. by subst. }
      assert (forall x, 0 <= x -> del (<[Z.to_nat y := true]> V') x = true <-> del V x = true \/ x ∈ done ++ [y]) as Hv'.
      { intros x Hx. rewrite del_insert by (unfold vec_size; lia). rewrite orb_true_iff, bool_decide_eq_true, Hv, elem_of_app, list_elem_of_singleton by done. tauto. }
      assert (del V y = false /\ y ∉ done) as [Hy1 Hy2].
      { assert (~ (del V y = true \/ y ∈ done)) as Hno by (rewrite <- Hv by lia; congruence). split; [destruct (del V y); tauto|tauto]. }
      eexists. split; [done|]. destruct d.
      * exists (new ++ [y]), (<[Z.to_nat y := true]> V'). split_and!; [by rewrite (assoc_L (++))|by rewrite length_insert|done| |rewrite length_app; cbn; lia].
        intros x. rewrite !elem_of_app, list_elem_of_singleton, Hn. assert (dom_or_self bb h y) by (by apply Hd). naive_solver.
      * exists new, (<[Z.to_nat y := true]> V'). split_and!; [done|by rewrite length_insert|done| |lia].
        intros x. rewrite elem_of_app, list_elem_of_singleton, Hn. assert (~ dom_or_self bb h y) by (intros ?%Hd; done). naive_solver.
  - exists [], V. split_and!; [by rewrite app_nil_r|done| | |cbn; lia].
    + intros x _. rewrite elem_of_nil. tauto.
    + intros y. rewrite !elem_of_nil. tauto.
  - rewrite Ef. eauto 10.
Qed.

Record bfs_inv (h : Z) (Q : list Z) (V : list bool) (L : gset Z) : Prop := {
  bi_length : length V = length bb;
  bi_member : forall x, x ∈ Q \/ x ∈ L -> in_range bb x /\ in_loop bb h x;
  bi_header : h ∈ L /\ del V h = true;
  bi_visited : forall x, in_range bb x -> del V x = true -> x ∈ Q \/ x ∈ L \/ ~ dom_or_self bb h x;
  bi_sources : forall z, back_edge bb z h -> z ∈ Q \/ z ∈ L;
  bi_closed : forall x y, x ∈ L -> x <> h -> y ∈ preds bb x -> del V y = true;
}.

(** A predecessor of a block of the loop that the header dominates is in the loop. *)
Lemma in_loop_pred h z y : in_loop bb h z -> y ∈ preds bb z -> dom_or_self bb h y -> in_loop bb h y.
Proof using He.
  intros [Hh Hz] Hy Hd. split; [done|]. destruct (decide (y = h)) as [->|Hyh]; [by left|right].
  destruct (dom_or_self_reachable h y Hd) as [Hyr Hyd]; [done|]. apply (succs_preds bb He) in Hy. destruct Hz as [->|(z0 & Hz0 & _ & ns & Hp & Hns)].
  - exists y. split_and!; [done..|]. exists [y]. split; [constructor|]. by intros ->%list_elem_of_singleton.
  - exists z0. split_and!; [done..|].
    destruct (path_concat bb y [z; y] z ns z0 (path_step bb y [y] y z (path_here bb y) Hy) Hp) as (l & Hl & Hin).
    exists l. split; [done|]. intros [H|H]%Hin; [|done]. apply elem_of_cons in H as [->| ->%list_elem_of_singleton]; [|done].
    by apply Hns, (path_ends _ _ _ _ Hp).
Qed.

Lemma bfs_done h V L : bfs_inv h [] V L -> forall x, x ∈ L <-> in_loop bb h x.
Proof using He.
  intros [Hl Hm [HhL HhV] Hv Hs Hc] x. split; [intros Hx; by apply Hm; right|].
  intros [Hh [->|(z & Hz & Hxr & ns & Hp & Hns)]]; [done|].
  assert (z ∈ L) as HzL by (by destruct (Hs z Hz) as [?%not_elem_of_nil|?]). clear Hz. revert HzL Hns.
  induction Hp as [|ns b c Hp IH Hbc]; intros HcL Hns; [done|].
  apply not_elem_of_cons in Hns as [Hch Hns]. apply IH; [|done].
  assert (b <> h) as Hbh by (intros ->; apply Hns; by apply (path_ends _ _ _ _ Hp)).
  pose proof (proj1 (path_reachable bb x ns b Hxr Hp)) as Hbr. pose proof (proj1 (succs_preds bb He b c) Hbc) as Hpb.
  pose proof (preds_range bb He _ _ Hpb) as [Hrb Hrc].
  destruct (Hv b Hrb (Hc c b HcL ltac:(done) Hpb)) as [?%not_elem_of_nil|[?|Hnd]]; [done..|].
  destruct Hnd. right. split; [done|]. destruct (Hm c ltac:(by right)) as [_ [_ [->|(z & Hz & Hcr & ns' & Hp' & Hns')]]]; [done|].
  apply (dominates_pred bb h c b); [|done..]. intros l Hlp.
  destruct (path_concat bb 0 l c ns' z Hlp Hp') as (l' & Hl' & Hin). destruct Hz as [_ Hz].
  apply dom_or_self_reachable in Hz as [_ Hzd]; [|intros ->; apply Hns'; by apply (path_ends _ _ _ _ Hp')].
  specialize (Hzd l' Hl'). apply Hin in Hzd as [?|?]; done.
Qed.

Lemma bfs_loop_ok fuel : forall h Q V L, in_range bb h -> bfs_inv h Q V L -> (length Q + count_live V <= fuel)%nat ->
  exists L', bfs_loop fuel bb t h Q V L = Ok L' /\ forall x, x ∈ L' <-> in_loop bb h x.
Proof using Hrow Htl Hord Hne He Hex.
  induction fuel as [|fuel IH]; intros h [|z Q] V L Hh Hinv Hf; cbn [bfs_loop length] in *; try lia.
  1, 2: exists L; split; [done|]; by eapply bfs_done.
  destruct Hinv as [Hl Hm [HhL HhV] Hv Hs Hc]. destruct (Hm z ltac:(left; by left)) as [Hz Hzl].
  destruct (block_at bb z Hz) as (blk & -> & _ & _ & Hp). cbn [mbind Res_bind]. rewrite Hp.
  destruct (visit_preds_ok h (preds bb z) V Q Hh Hl) as (new & V' & -> & Hl' & Hv' & Hn & Hcnt).
  { intros y Hy. by apply (preds_range bb He) in Hy as [? _]. }
  cbn [mbind Res_bind]. apply IH; [done| |rewrite length_app; lia]. split.
  - done.
  - intros x [[Hx|Hx]%elem_of_app|Hx]; [apply Hm; left; by right| |].
    + apply Hn in Hx as (Hx & _ & Hd). split; [by apply (preds_range bb He) in Hx as [? _]|]. by eapply in_loop_pred.
    + apply elem_of_union in Hx as [->%elem_of_singleton|Hx]; [done|]. apply Hm. by right.
  - split; [apply elem_of_union; by right|]. apply Hv'; [apply Hh|by left].
  - intros x Hx HxV. apply Hv' in HxV as [HxV|HxV]; [| |apply Hx].
    + destruct (Hv x Hx HxV) as [[->|?]%elem_of_cons|[?|?]]; [right; left|left|right; left|by right; right].
      * apply elem_of_union. left. by apply elem_of_singleton.
      * apply elem_of_app. by left.
      * apply elem_of_union. by right.
    + destruct (del V x) eqn:Ev; [destruct (Hv x Hx Ev) as [[->|?]%elem_of_cons|[?|?]]; [right; left|left|right; left|by right; right]|].
      * apply elem_of_union. left. by apply elem_of_singleton.
      * apply elem_of_app. by left.
      * apply elem_of_union. by right.
      * destruct (Dominates_ok h x Hh) as ([|] & _ & Hd).
        -- left. apply elem_of_app. right. apply Hn. split_and!; [done..|by apply Hd].
        -- right. right. intros ?%Hd. done.
  - intros y Hy. destruct (Hs y Hy) as [[->|?]%elem_of_cons|?]; [right|left|right].
    + apply elem_of_union. left. by apply elem_of_singleton.
    + apply elem_of_app. by left.
    + apply elem_of_union. by right.
  - intros x y Hx Hxh Hy. apply Hv'; [by apply (preds_range bb He) in Hy as [[? _] _]|].
    apply elem_of_union in Hx as [->%elem_of_singleton|Hx]; [by right|]. left. by apply (Hc x).
Qed.

Lemma natural_loop_ok E h : in_range bb h -> (forall h z, z ∈ row E h <-> back_edge bb z h) ->
  exists L, natural_loop bb t h (row E h) = Ok L /\ forall x, x ∈ L <-> in_loop bb h x.
Proof using Hrow Htl Hord Hne He Hex.
  intros Hh HE. unfold natural_loop. destruct (row E h) as [|z0 zs] eqn:Er.
  { exists ∅. split; [done|]. intros x. rewrite elem_of_empty. split; [done|]. intros [[z Hz] _].
    apply HE in Hz. rewrite Er in Hz. by apply not_elem_of_nil in Hz. }
  rewrite <- Er. set (src := row E h). assert (forall z, z ∈ src -> in_range bb z) as Hsr.
  { intros z [Hz _]%HE. by apply (succs_range bb He) in Hz as [? _]. }
  assert (vec_set (replicate (length bb) false) h true = Ok (<[Z.to_nat h := true]> (replicate (length bb) false))) as ->.
  { apply vec_set_Ok. unfold in_range, vec_size in *. rewrite length_replicate. split; [lia|done]. }
  cbn [mbind Res_bind]. set (V0 := <[Z.to_nat h := true]> (replicate (length bb) false)).
  assert (length V0 = length bb) as Hl0 by (unfold V0; by rewrite length_insert, length_replicate).
  assert (forall x, 0 <= x -> del V0 x = true <-> x = h) as Hv0.
  { intros x Hx. unfold V0. rewrite del_insert by (unfold in_range, vec_size in *; rewrite ?length_replicate; lia).
    rewrite orb_true_iff, bool_decide_eq_true. unfold del. destruct (replicate (length bb) false !! Z.to_nat x) as [v|] eqn:Ev; cbn; [|naive_solver].
    apply lookup_replicate in Ev as [-> _]. naive_solver. }
  destruct (foldM_prefix (fun visited z => vec_set visited z true) (fun done V => length V = length bb /\
    forall x, 0 <= x -> del V x = true <-> x = h \/ x ∈ done) src V0) as (V & -> & Hl & Hv).
  { intros done z rest V Es [Hl Hv]. assert (in_range bb z) as Hz by (apply Hsr; rewrite Es; apply elem_of_app; right; by left).
    unfold in_range, vec_size in Hz. eexists. split; [apply vec_set_Ok; unfold vec_size; split; [lia|done]|]. split; [by rewrite length_insert|].
    intros x Hx. rewrite del_insert by (unfold vec_size; lia). rewrite orb_true_iff, bool_decide_eq_true, Hv, elem_of_app, list_elem_of_singleton by done. tauto. }
  { split; [done|]. intros x Hx. rewrite Hv0 by done. rewrite elem_of_nil. tauto. }
  cbn [mbind Res_bind]. apply bfs_loop_ok; [done| |].
  - assert (loop_header bb h) as Hhead by (exists z0; apply HE; rewrite Er; by left). split.
    + done.
    + intros x [Hx|Hx].
      * split; [by apply Hsr|]. split; [done|]. apply HE in Hx as Hb. destruct (decide (x = h)) as [|Hxh]; [by left|right].
        exists x. split; [done|]. destruct Hb as [_ Hd]. apply dom_or_self_reachable in Hd as [Hr _]; [|done]. split; [done|].
        exists [x]. split; [constructor|]. by intros ->%list_elem_of_singleton.
      * apply elem_of_singleton in Hx as ->. split; [done|]. split; [done|by left].
    + split; [by apply elem_of_singleton|]. apply Hv; [apply Hh|by left].
    + intros x Hx [->|Hxs]%Hv; [right; left; by apply elem_of_singleton|by left|apply Hx].
    + intros z Hz%HE. by left.
    + intros x y ->%elem_of_singleton. done.
  - pose proof (count_live_le V). lia.
Qed.

Lemma natural_loops_ok E : length E = length bb -> (forall h z, z ∈ row E h <-> back_edge bb z h) ->
  exists loops, natural_loops bb t E = Ok loops /\ length loops = length bb /\
    forall h, in_range bb h -> exists L, loops !! Z.to_nat h = Some L /\ forall x, x ∈ L <-> in_loop bb h x.
Proof using Hrow Htl Hord Hne He Hex.
  intros Hl HE. unfold natural_loops.
  destruct (foldM_prefix (fun loops i => sources ← vec_at E i; loop ← natural_loop bb t i sources; Ok (loops ++ [loop]))
    (fun done loops => length loops = length done /\ forall k L, loops !! k = Some L -> forall x, x ∈ L <-> in_loop bb (Z.of_nat k) x)
    (seqZ 0 (vec_size bb)) []) as (loops & Ef & Hll & Hloops).
  - intros done i rest loops Es [Hll Hloops].
    assert (seqZ 0 (vec_size bb) !! length done = Some i) as Hi by (rewrite Es; by apply list_lookup_middle).
    apply lookup_seqZ in Hi as [Hi1 Hi2]. unfold vec_size in Hi2.
    assert (vec_at E i = Ok (row E i)) as ->.
    { unfold row. rewrite (proj2 (Z.ltb_ge i 0)) by lia. destruct (lookup_lt_is_Some_2 E (Z.to_nat i)) as [r Hr]; [lia|].
      rewrite Hr. apply vec_at_Ok. split; [lia|done]. }
    cbn [mbind Res_bind]. destruct (natural_loop_ok E i) as (L & -> & HL); [unfold in_range, vec_size; lia|done|].
    cbn [mbind Res_bind]. eexists. split; [done|]. split; [rewrite !length_app; cbn; lia|]. intros k L' Hk.
    apply lookup_app_Some in Hk as [Hk|[Hk1 Hk2]]; [by apply Hloops|].
    apply list_lookup_singleton_Some in Hk2 as [Hk2 <-]. replace (Z.of_nat k) with i by lia. done.
  - split; [done|]. intros k L H. by rewrite lookup_nil in H.
  - exists loops. rewrite length_seqZ in Hll. split_and!; [done|unfold vec_size in Hll; lia|]. intros h Hh. unfold in_range, vec_size in Hh.
    destruct (lookup_lt_is_Some_2 loops (Z.to_nat h)) as [L HL]; [unfold vec_size in Hll; lia|]. exists L. split; [done|].
    intros x. rewrite (Hloops _ _ HL), Z2Nat.id by lia. done.
Qed.

(** ** Nesting *)
Lemma path_split a ns b m : path bb a ns b -> m ∈ ns ->
  exists l1 l2, ns = l1 ++ l2 /\ path bb a l2 m /\ path bb m (l1 ++ [m]) b.
Proof.
  induction 1 as [|ns b c Hp IH Hbc]; intros Hm.
  - apply list_elem_of_singleton in Hm as ->. exists [], [a]. split_and!; [done|constructor|constructor].
  - apply elem_of_cons in Hm as [->|Hm]; [exists [], (c :: ns); split_and!; [done|by eapply path_step|constructor]|].
    destruct (IH Hm) as (l1 & l2 & -> & H1 & H2). exists (c :: l1), l2. split_and!; [done..|]. by eapply path_step.
Qed.

Lemma in_loop_self h : loop_header bb h -> in_loop bb h h.
Proof. intros H. split; [done|by left]. Qed.

Lemma in_loop_dominated h x : in_loop bb h x -> x = h \/ (reachable bb x /\ dominates bb h x).
Proof.
  intros [_ [->|(z & [_ Hz] & Hr & ns & Hp & Hns)]]; [by left|right]. split; [done|]. intros l Hl.
  apply dom_or_self_reachable in Hz as [_ Hz]; [|intros ->; apply Hns; by apply (path_ends _ _ _ _ Hp)].
  destruct (path_concat bb 0 l x ns z Hl Hp) as (l' & Hl' & Hin). specialize (Hz l' Hl'). apply Hin in Hz as [?|?]; done.
Qed.

Lemma header_range h : loop_header bb h -> in_range bb h.
Proof using He. intros [z [Hz _]]. by apply (succs_range bb He) in Hz as [_ ?]. Qed.

Lemma in_loop_range h x : in_loop bb h x -> in_range bb x.
Proof using He Hne.
  intros H. destruct (in_loop_dominated h x H) as [->|[Hr _]]; [apply header_range, H|by apply reachable_range].
Qed.

Lemma anc_linear d e x : anc f d x -> anc f e x -> anc f d e \/ anc f e d.
Proof.
  induction 1 as [|x H0 H IH]; intros H'; [by right|]. destruct H' as [|x _ H']; [left; by apply anc_up|by apply IH].
Qed.

Lemma dominates_linear d e x : reachable bb x -> dominates bb d x -> dominates bb e x -> dominates bb d e \/ dominates bb e d.
Proof using Hrow Htl Hord Hne He Hex.
  intros Hx Hd Hee. pose proof Hex as (Ht & Hall & Hanc). pose proof (proj2 (oo_reach _ _ _ Hord x) Hx) as Hxr.
  destruct (reachable_path bb x Hx) as [ns Hp].
  assert (forall y, dominates bb y x -> y ∈ rpo) as Hr.
  { intros y Hy. apply (oo_reach _ _ _ Hord), (proj2 (path_reachable bb 0 ns x (reach_entry bb) Hp)), Hy, Hp. }
  pose proof Hd as Hd1. pose proof Hee as He1. apply Hanc in Hd, Hee; [|done..].
  destruct (anc_linear d e x Hd Hee) as [H|H]; [left|right]; by apply Hanc; [apply Hr|].
Qed.

Lemma dominates_antisym d e : reachable bb d -> reachable bb e -> dominates bb d e -> dominates bb e d -> d = e.
Proof using Hrow Htl Hord Hne He Hex.
  pose proof Hex as (Ht & Hall & Hanc). intros Hd%(oo_reach _ _ _ Hord) Hee%(oo_reach _ _ _ Hord) H1 H2.
  apply (anc_antisym bb label rpo idom Ht); [by apply Hall..|by apply Hanc|by apply Hanc].
Qed.

(** The loop of the dominated header lies inside. *)
Lemma loop_inside h1 h2 x : h1 <> h2 -> reachable bb h1 -> reachable bb h2 -> dominates bb h1 h2 ->
  in_loop bb h1 x -> in_loop bb h2 x -> (forall y, in_loop bb h2 y -> in_loop bb h1 y) /\ ~ in_loop bb h2 h1.
Proof using Hrow Htl Hord Hne He Hex.
  intros Hne' Hr1 Hr2 Hd H1 H2.
  assert (~ in_loop bb h2 h1) as Hno.
  { intros [->|[_ H]]%in_loop_dominated; [done|]. by apply Hne', dominates_antisym. }
  split; [|done]. destruct (decide (x = h1)) as [->|Hx1]; [done|]. destruct H1 as [Hh1 [->|(z1 & Hz1 & Hxr & ns1 & Hp1 & Hns1)]]; [done|].
  (* from h2 to x without h1 *)
  assert (exists l, path bb h2 l x /\ h1 ∉ l) as (l2 & Hl2 & Hn2).
  { destruct (reachable_path bb x Hxr) as [ns0 Hp0]. destruct (path_simple bb 0 ns0 x Hp0) as (ns & Hp & Hnd & _).
    assert (dominates bb h2 x) as Hd2 by (destruct (in_loop_dominated h2 x H2) as [->|[_ ?]]; [apply dominates_refl|done]).
    destruct (path_split 0 ns x h2 Hp (Hd2 ns Hp)) as (a & b & -> & Hb & Ha). exists (a ++ [h2]). split; [done|].
    intros [Hin| ->%list_elem_of_singleton]%elem_of_app; [|done]. apply list.NoDup_app in Hnd as (_ & Hdis & _).
    apply (Hdis h1 Hin), Hd, Hb. }
  assert (forall y l, reachable bb y -> path bb y l h2 -> h1 ∉ l -> in_loop bb h1 y) as Hjoin.
  { intros y l Hy Hl Hn. split; [done|right]. exists z1. split_and!; [done..|].
    destruct (path_concat bb y l h2 l2 x Hl Hl2) as (l' & Hl' & Hin'). destruct (path_concat bb y l' x ns1 z1 Hl' Hp1) as (l'' & Hl'' & Hin'').
    exists l''. split; [done|]. rewrite Hin'', Hin'. tauto. }
  intros y Hy. destruct (decide (y = h2)) as [->|Hy2].
  { apply (Hjoin h2 [h2]); [done|constructor|]. by intros ->%list_elem_of_singleton. }
  destruct Hy as [Hh2 [->|(z2 & Hz2 & Hyr & ns2 & Hp2 & Hns2)]]; [done|].
  apply (Hjoin y (h2 :: ns2)); [done|eapply path_step; [done|apply Hz2]|]. intros [->|Hin]%elem_of_cons; [done|].
  destruct (path_split y ns2 z2 h1 Hp2 Hin) as (a & b & -> & Hb & Ha). apply Hno. split; [done|right]. exists z2. split_and!; [done..|].
  exists (a ++ [h1]). split; [done|]. intros [?|?%list_elem_of_singleton]%elem_of_app; [|by subst].
  apply Hns2, elem_of_app. by left.
Qed.

(** Two loops with a block in common are nested. *)
Lemma loops_nest h1 h2 x : h1 <> h2 -> in_loop bb h1 x -> in_loop bb h2 x ->
  ((forall y, in_loop bb h2 y -> in_loop bb h1 y) /\ ~ in_loop bb h2 h1) \/
  ((forall y, in_loop bb h1 y -> in_loop bb h2 y) /\ ~ in_loop bb h1 h2).
Proof using Hrow Htl Hord Hne He Hex.
  intros Hne' H1 H2.
  assert (reachable bb x /\ dominates bb h1 x /\ dominates bb h2 x) as (Hx & Hd1 & Hd2).
  { destruct (in_loop_dominated h1 x H1) as [E1|[? ?]], (in_loop_dominated h2 x H2) as [E2|[? ?]]; try congruence.
    - split_and!; [done|rewrite E1; apply dominates_refl|done].
    - split_and!; [done|done|rewrite E2; apply dominates_refl].
    - done. }
  destruct (reachable_path bb x Hx) as [ns Hp].
  assert (forall h, dominates bb h x -> reachable bb h) as Hr.
  { intros h Hh. by apply (proj2 (path_reachable bb 0 ns x (reach_entry bb) Hp)), Hh. }
  destruct (dominates_linear h1 h2 x Hx Hd1 Hd2) as [H|H]; [left|right].
  - apply (loop_inside h1 h2 x); auto.
  - apply (loop_inside h2 h1 x); auto.
Qed.
End Loops.

Lemma in_nonempty (X : gset Z) x : x ∈ X -> X <> ∅.
Proof. set_solver. Qed.

(** ** The tree of a nested family

    [L h] is the loop of [h], empty when [h] heads none.  Any two loops with a block in
    common are nested, and only the inner header is in both. *)
Section Family.
Context (n : nat) (loops : list (gset Z)).
Definition loop_of (h : Z) : gset Z := default ∅ (loops !! Z.to_nat h).
#[local] Abbreviation L := loop_of.
Definition block (x : Z) : Prop := 0 <= x < Z.of_nat n.
Context (Hself : forall h, block h -> L h <> ∅ -> h ∈ L h).
Context (Hblock : forall h x, block h -> x ∈ L h -> block x).
Context (Hnest : forall h1 h2 x, block h1 -> block h2 -> h1 <> h2 -> x ∈ L h1 -> x ∈ L h2 ->
  (L h2 ⊆ L h1 /\ h1 ∉ L h2) \/ (L h1 ⊆ L h2 /\ h2 ∉ L h1)).

(** [h] heads the smallest loop around [c], apart from the loop of [c] itself. *)
Definition encloses (h c : Z) : Prop :=
  h <> c /\ c ∈ L h /\ forall h', block h' -> h' <> c -> c ∈ L h' -> L h ⊆ L h'.

Lemma nest_size h1 h2 x : block h1 -> block h2 -> h1 <> h2 -> x ∈ L h1 -> x ∈ L h2 ->
  (size (L h1) <= size (L h2))%nat -> L h1 ⊆ L h2 /\ h2 ∉ L h1.
Proof using Hnest Hself.
  intros B1 B2 Hne H1 H2 Hs. destruct (Hnest h1 h2 x) as [[Hsub Hno]|]; [done..| |done].
  assert (L h2 ⊂ L h1) as Hlt%subset_size; [|lia]. split; [done|]. intros Hback. apply Hno, Hback, Hself; [done|by eapply in_nonempty].
Qed.

(** *** Representatives *)

(** After the loops of [done] a block is represented by the header of the largest of
    them that contains it. *)
Definition root_ok (done : list Z) (root : Z -> Z) : Prop := forall x, block x ->
  ((forall h, h ∈ done -> x ∉ L h) /\ root x = x) \/
  (root x ∈ done /\ x ∈ L (root x) /\ forall h, h ∈ done -> x ∈ L h -> L h ⊆ L (root x)).

Lemma uf_ok_ext uf r1 r2 : uf_ok uf r1 -> (forall i, 0 <= i < vec_size uf -> r1 i = r2 i) -> uf_ok uf r2.
Proof. intros H E i Hi. destruct (H i Hi) as [k Hk]. exists k. by rewrite <- E. Qed.

Lemma find_reps l root : forall uf (reps : gset Z), length uf = n -> uf_ok uf root -> (forall x, x ∈ l -> block x) ->
  exists (reps' : gset Z) uf', foldM (fun '(reps, union_find) x =>
      '(r, union_find) ← Find (find_fuel union_find) union_find x;
      Ok ({[r]} ∪ reps, union_find)) (reps, uf) l = Ok (reps', uf') /\
    length uf' = n /\ uf_ok uf' root /\ forall c, c ∈ reps' <-> c ∈ reps \/ exists x, x ∈ l /\ c = root x.
Proof.
  induction l as [|x l IH]; intros uf reps Hl Hok Hb; cbn [foldM].
  - exists reps, uf. split_and!; [done..|]. intros c. split; [by left|]. by intros [?|(x & ?%not_elem_of_nil & _)].
  - destruct (Find_root uf root x Hok) as (uf1 & -> & Hl1 & Hok1); [unfold vec_size; rewrite Hl; apply Hb; by left|].
    cbn [mbind Res_bind]. destruct (IH uf1 ({[root x]} ∪ reps)) as (reps' & uf' & -> & Hl' & Hok' & Hr); [lia|done|intros; apply Hb; by right|].
    exists reps', uf'. split_and!; [done..|]. intros c. rewrite Hr, elem_of_union, elem_of_singleton. split.
    + intros [[->|?]|(y & ? & ->)]; [right; exists x; split; [by left|done]|by left|right; exists y; split; [by right|done]].
    + intros [?|(y & [->|?]%elem_of_cons & ->)]; [by left; right|by left; left|right; eauto].
Qed.

Lemma unions_to (cs : list Z) h root : forall uf, length uf = n -> uf_ok uf root -> block h -> root h = h -> NoDup cs ->
  (forall c, c ∈ cs -> block c /\ root c = c /\ c <> h) ->
  exists uf', foldM (fun union_find x => Union union_find x h) uf cs = Ok uf' /\ length uf' = n /\
    uf_ok uf' (fun j => if decide (root j ∈ cs) then h else root j).
Proof.
  intros uf Hl Hok Hh Hrh Hnd Hcs.
  destruct (foldM_prefix (fun union_find x => Union union_find x h) (fun done uf' => length uf' = n /\
    uf_ok uf' (fun j => if decide (root j ∈ done) then h else root j)) cs uf) as (uf' & E & H1 & H2); [| |by exists uf'].
  - intros done c rest uf1 Es [Hl1 Hok1]. destruct (Hcs c) as (Hc & Hrc & Hch); [rewrite Es; apply elem_of_app; right; by left|].
    destruct (Union_roots uf1 _ c h Hok1) as (uf2 & -> & Hl2 & Hok2); [unfold vec_size; rewrite Hl1; done..|].
    exists uf2. split; [done|]. split; [lia|]. eapply uf_ok_ext; [exact Hok2|]. intros j _. cbn beta.
    assert (c ∉ done) as Hcd.
    { rewrite Es in Hnd. apply list.NoDup_app in Hnd as (_ & Hd & _). intros Hin. apply (Hd c Hin). by left. }
    assert (h ∉ done) as Hhd.
    { intros Hin. destruct (Hcs h) as (_ & _ & ?); [rewrite Es; apply elem_of_app; by left|done]. }
    rewrite Hrh, (decide_False (P := h ∈ done)) by done. rewrite Hrc, (decide_False (P := c ∈ done)) by done.
    destruct (decide (root j ∈ done)) as [Hj|Hj].
    + rewrite decide_False by done. rewrite decide_True by (apply elem_of_app; by left). done.
    + destruct (decide (root j = c)) as [Hjc|Hjc].
      * rewrite decide_True; [done|]. apply elem_of_app. right. rewrite Hjc. by left.
      * rewrite decide_False; [done|]. intros [?|?%list_elem_of_singleton]%elem_of_app; done.
  - split; [done|]. eapply uf_ok_ext; [exact Hok|]. intros j _. cbn beta. rewrite decide_False; [done|apply not_elem_of_nil].
Qed.

(** *** One loop *)
Section Step.
Context (done rest : list Z) (h : Z) (root : Z -> Z).
Context (Hh : block h) (Hhl : L h <> ∅) (Hnew : h ∉ done).
Context (Hdone : forall h', h' ∈ done -> block h' /\ (size (L h') <= size (L h))%nat).
Context (Hrest : forall h', block h' -> h' ∉ done -> L h' <> ∅ -> (size (L h) <= size (L h'))%nat).
Context (Hroot : root_ok done root).

Lemma done_inside h' x : h' ∈ done -> x ∈ L h' -> x ∈ L h -> L h' ⊆ L h /\ h ∉ L h'.
Proof using Hnest Hself Hdone Hh Hnew.
  intros Hd H1 H2. destruct (Hdone h' Hd) as [Hb Hs]. apply (nest_size h' h x); [done..| |done|done|done]. by intros ->.
Qed.

Lemma header_root : root h = h.
Proof using Hnest Hself Hdone Hh Hnew Hhl Hroot.
  destruct (Hroot h Hh) as [[_ ?]|(Hd & Hin & _)]; [done|]. destruct (done_inside (root h) h Hd Hin) as [_ Hno]; [by apply Hself|done].
Qed.

(** Representatives stay inside the loop and represent themselves. *)
Lemma rep_inside x : x ∈ L h -> root x ∈ L h /\ root (root x) = root x.
Proof using Hnest Hself Hdone Hh Hnew Hhl Hroot Hblock.
  intros Hx. assert (block x) as Hbx by (by apply (Hblock h)).
  destruct (Hroot x Hbx) as [[Hno E]|(Hd & Hin & Hmax)]; [by rewrite !E|].
  destruct (Hdone _ Hd) as [Hb _]. assert (root x ∈ L (root x)) as Hrr by (apply Hself; [done|by eapply in_nonempty]).
  destruct (done_inside (root x) x Hd Hin Hx) as [Hsub _]. split; [by apply Hsub|].
  destruct (Hroot (root x) Hb) as [[Hno _]|(Hd2 & Hin2 & Hmax2)]; [by apply Hno in Hrr|].
  destruct (decide (root (root x) = root x)) as [|Hne]; [done|].
  destruct (Hdone _ Hd2) as [Hb2 _].
  pose proof (Hmax2 (root x) Hd Hrr) as Hs1. pose proof (Hmax (root (root x)) Hd2 (Hs1 x Hin)) as Hs2.
  destruct (Hnest (root (root x)) (root x) (root x)) as [[_ Hno]|[_ Hno]]; [done..| |].
  - destruct Hno. apply Hs2, Hself; [done|by eapply in_nonempty].
  - done.
Qed.

Lemma encloses_rep c : block c -> encloses h c <-> c <> h /\ exists x, x ∈ L h /\ c = root x.
Proof using Hnest Hself Hdone Hrest Hh Hnew Hhl Hroot Hblock.
  intros Hc. split.
  - intros (Hhc & Hin & Hmin). split; [done|]. exists c. split; [done|].
    destruct (Hroot c Hc) as [[_ E]|(Hd & Hin' & _)]; [done|]. destruct (decide (root c = c)) as [|Hne]; [done|].
    destruct (Hdone _ Hd) as [Hb _]. pose proof (Hmin (root c) Hb Hne Hin') as Hsub.
    destruct (done_inside (root c) c Hd Hin' Hin) as [_ Hno]. by destruct Hno; apply Hsub, Hself.
  - intros (Hch & x & Hx & ->). destruct (rep_inside x Hx) as [Hin Hrr]. split_and!; [done|done|].
    intros h' Hb' Hne' Hin'. destruct (decide (h' = h)) as [->|Hh'h]; [done|].
    destruct (decide (h' ∈ done)) as [Hd|Hd].
    + exfalso. destruct (Hroot (root x) Hc) as [[Hno _]|(Hd2 & Hin2 & Hmax2)]; [by apply (Hno h')|].
      rewrite Hrr in Hd2, Hin2, Hmax2. pose proof (Hmax2 h' Hd Hin') as Hsub.
      destruct (Hnest h' (root x) (root x)) as [[_ Hno]|[_ Hno]]; [done..| |done].
      apply Hno, Hsub, Hself; [done|by eapply in_nonempty].
    + assert (L h' <> ∅) as Hne by (by eapply in_nonempty). apply (nest_size h h' (root x)); [done..|by apply Hrest].
Qed.

Lemma root_next (cs : list Z) : (forall c, c ∈ cs <-> c <> h /\ exists x, x ∈ L h /\ c = root x) ->
  root_ok (done ++ [h]) (fun j => if decide (root j ∈ cs) then h else root j).
Proof using Hnest Hself Hdone Hrest Hh Hnew Hhl Hroot Hblock.
  intros Hcs. assert (forall j, block j -> (if decide (root j ∈ cs) then h else root j) = if decide (j ∈ L h) then h else root j) as E.
  { intros j Hj. destruct (decide (j ∈ L h)) as [Hin|Hno].
    - destruct (decide (root j ∈ cs)) as [|Hn]; [done|]. destruct (decide (root j = h)) as [|Hne]; [done|].
      destruct Hn. apply Hcs. split; [done|]. by exists j.
    - rewrite decide_False; [done|]. intros [_ (x & Hx & Er)]%Hcs. destruct (rep_inside x Hx) as [Hin _].
      destruct (Hroot j Hj) as [[_ Ej]|(Hd & Hinj & _)]; [rewrite Ej in Er; by subst|].
      destruct (done_inside (root j) (root j) Hd) as [Hsub _]; [apply Hself; [by apply Hdone|by eapply in_nonempty]|by rewrite Er|]. by apply Hno, Hsub. }
  intros x Hx. rewrite (E x Hx). destruct (decide (x ∈ L h)) as [Hin|Hno].
  - right. split_and!; [apply elem_of_app; right; by left|done|].
    intros h' [Hd| ->%list_elem_of_singleton]%elem_of_app Hin'; [|done]. by apply (done_inside h' x).
  - destruct (Hroot x Hx) as [[Hn Er]|(Hd & Hin & Hmax)]; [left|right].
    + split; [|done]. intros h' [Hd| ->%list_elem_of_singleton]%elem_of_app; [by apply Hn|done].
    + split_and!; [apply elem_of_app; by left|done|]. intros h' [Hd'| ->%list_elem_of_singleton]%elem_of_app Hin'; [by apply Hmax|done].
Qed.

Lemma ConstructLoopTreeHelper_ok lt uf : length loops = n -> length lt = n -> length uf = n -> uf_ok uf root ->
  exists lt' uf' root', ConstructLoopTreeHelper loops (lt, uf) h = Ok (lt', uf') /\ length lt' = n /\ length uf' = n /\
    uf_ok uf' root' /\ root_ok (done ++ [h]) root' /\
    (forall c, c ∈ row lt' h <-> encloses h c) /\ forall h', h' <> h -> row lt' h' = row lt h'.
Proof using Hnest Hself Hdone Hrest Hh Hnew Hhl Hroot Hblock.
  intros Hlen Hlt Huf Hok. unfold ConstructLoopTreeHelper.
  assert (vec_at loops h = Ok (L h)) as ->.
  { unfold loop_of. unfold block in Hh. destruct (lookup_lt_is_Some_2 loops (Z.to_nat h)) as [l Hl]; [lia|]. rewrite Hl. apply vec_at_Ok. split; [lia|done]. }
  cbn [mbind Res_bind]. destruct (find_reps (elements (L h)) root uf ∅ Huf Hok) as (reps & uf1 & -> & Hl1 & Hok1 & Hreps).
  { intros x Hx%elem_of_elements. by apply (Hblock h). }
  cbn [mbind Res_bind]. set (cs := merge_sort Z.le (elements (reps ∖ {[h]}))).
  assert (forall c, c ∈ cs <-> c <> h /\ exists x, x ∈ L h /\ c = root x) as Hcs.
  { intros c. unfold cs. rewrite (merge_sort_Permutation Z.le), elem_of_elements, elem_of_difference, elem_of_singleton, Hreps.
    rewrite elem_of_empty. setoid_rewrite elem_of_elements. tauto. }
  assert (vec_set lt h cs = Ok (<[Z.to_nat h := cs]> lt)) as ->.
  { apply vec_set_Ok. unfold vec_size. rewrite Hlt. split; [exact Hh|done]. }
  cbn [mbind Res_bind]. destruct (unions_to cs h root uf1 Hl1 Hok1 Hh header_root) as (uf' & -> & Hl' & Hok').
  { unfold cs. rewrite (merge_sort_Permutation Z.le). apply NoDup_elements. }
  { intros c (Hch & x & Hx & ->)%Hcs. destruct (rep_inside x Hx). split_and!; [by apply (Hblock h)|done|done]. }
  cbn [mbind Res_bind]. eexists _, uf', _. split_and!; [done|by rewrite length_insert|done|exact Hok'|by apply root_next| |].
  - intros c. unfold row. unfold block in Hh. rewrite (proj2 (Z.ltb_ge h 0)), list_lookup_insert_eq by lia. cbn [default]. rewrite Hcs. split.
    + intros (Hch & x & Hx & ->). destruct (rep_inside x Hx) as [Hin _]. assert (block (root x)) as Hb by (by apply (Hblock h)).
      apply (encloses_rep _ Hb). split; [done|by exists x].
    + intros H. assert (block c) as Hb by (destruct H as (_ & Hin & _); by apply (Hblock h)). by apply (encloses_rep _ Hb).
  - intros h' Hne. unfold row. destruct (Z.ltb_spec h' 0); [done|]. unfold block in Hh. by rewrite list_lookup_insert_ne by lia.
Qed.
End Step.

(** *** The whole tree *)
Definition by_size (a b : Z) : Prop := (size (L a) <= size (L b))%nat.

Lemma row_replicate k (h : Z) : row (replicate k []) h = [].
Proof.
  unfold row. destruct (h <? 0); [done|]. destruct (replicate k [] !! Z.to_nat h) as [r|] eqn:E; [|done]. by apply lookup_replicate in E as [-> _].
Qed.

Lemma sorted_before (done : list Z) h rest x : StronglySorted by_size (done ++ h :: rest) -> x ∈ done -> by_size x h.
Proof.
  induction done as [|y done IH]; intros Hs Hx; [by apply not_elem_of_nil in Hx|]. cbn in Hs. apply StronglySorted_inv in Hs as [Hs Hy].
  apply elem_of_cons in Hx as [->|Hx]; [|by apply IH]. rewrite list.Forall_forall in Hy. apply Hy, elem_of_app. right. by left.
Qed.

Lemma sorted_after (done : list Z) h rest x : StronglySorted by_size (done ++ h :: rest) -> x ∈ h :: rest -> by_size h x.
Proof.
  induction done as [|y done IH]; intros Hs Hx; cbn in Hs; apply StronglySorted_inv in Hs as [Hs Hy]; [|by apply IH].
  apply elem_of_cons in Hx as [->|Hx]; [unfold by_size; lia|]. rewrite list.Forall_forall in Hy. by apply Hy.
Qed.

Lemma loop_tree_ok order : length loops = n -> StronglySorted by_size order -> NoDup order ->
  (forall h, h ∈ order <-> block h /\ L h <> ∅) ->
  exists lt uf, foldM (ConstructLoopTreeHelper loops) (replicate n [], seqZ 0 (Z.of_nat n)) order = Ok (lt, uf) /\
    length lt = n /\ forall h c, block h -> c ∈ row lt h <-> encloses h c.
Proof using Hnest Hself Hblock.
  intros Hlen Hso Hnd Hhd.
  destruct (foldM_prefix (ConstructLoopTreeHelper loops) (fun done st => length st.1 = n /\ length st.2 = n /\
    (exists root, uf_ok st.2 root /\ root_ok done root) /\
    forall h, (h ∈ done -> forall c, c ∈ row st.1 h <-> encloses h c) /\ (h ∉ done -> row st.1 h = []))
    order (replicate n [], seqZ 0 (Z.of_nat n))) as ([lt uf] & E & Hlt & _ & _ & Hrows).
  - intros done h rest [lt uf] Es (Hlt & Huf & (root & Hok & Hroot) & Hrows). cbn [fst snd] in *.
    assert (h ∈ order) as Hh by (rewrite Es; apply elem_of_app; right; by left). apply Hhd in Hh as [Hb Hl].
    assert (h ∉ done) as Hnew.
    { rewrite Es in Hnd. apply list.NoDup_app in Hnd as (_ & Hd & _). intros Hin. apply (Hd h Hin). by left. }
    rewrite Es in Hso.
    destruct (ConstructLoopTreeHelper_ok done h root Hb Hl Hnew) with (lt := lt) (uf := uf) as (lt' & uf' & root' & -> & Hlt' & Huf' & Hok' & Hroot' & Hrow' & Hother); [| |done..|].
    { intros h' Hd. split; [apply Hhd; rewrite Es; apply elem_of_app; by left|]. by apply (sorted_before done h rest). }
    { intros h' Hb' Hd Hl'. assert (h' ∈ order) as Hin by (by apply Hhd). rewrite Es in Hin. apply elem_of_app in Hin as [?|?]; [done|].
      by apply (sorted_after done h rest). }
    eexists. split; [done|]. cbn [fst snd]. split_and!; [done|done|by exists root'|]. intros h'. rewrite elem_of_app, list_elem_of_singleton.
    destruct (decide (h' = h)) as [->|Hne]; [split; [done|tauto]|]. rewrite (Hother h' Hne). split; [intros [Hd|Hd]; [by apply (proj1 (Hrows h'))|done]|]. intros Hno. apply (proj2 (Hrows h')). tauto.
  - cbn [fst snd]. rewrite length_replicate, length_seqZ, Nat2Z.id. split_and!; [done|done| |].
    + exists (fun i => i). split; [apply uf_initial|]. intros x _. left. split; [|done]. by intros h ?%not_elem_of_nil.
    + intros h. rewrite row_replicate. split; [by intros ?%not_elem_of_nil|done].
  - exists lt, uf. cbn [fst snd] in *. split_and!; [done..|]. intros h c Hb. destruct (decide (h ∈ order)) as [Hin|Hno]; [by apply Hrows|].
    rewrite (proj2 (Hrows h) Hno). split; [by intros ?%not_elem_of_nil|]. intros (_ & Hc & _). destruct Hno. apply Hhd. split; [done|]. by eapply in_nonempty.
Qed.

(** *** Depths *)

(** The loops around a block, apart from its own. *)
Definition loop_depth_of (x : Z) : nat := length (filter (fun h => h <> x /\ x ∈ L h) (seqZ 0 (Z.of_nat n))).

Lemma depth_encloses h c : block h -> block c -> encloses h c -> loop_depth_of c = S (loop_depth_of h).
Proof using Hnest Hself Hblock.
  intros Bh Bc (Hne & Hc & Hmin). assert (h ∈ L h) as Hhh by (apply Hself; [done|by eapply in_nonempty]). unfold loop_depth_of. set (l := seqZ 0 (Z.of_nat n)).
  assert (filter (fun h' => h' <> c /\ c ∈ L h') l ≡ₚ h :: filter (fun h' => h' <> h /\ h ∈ L h') l) as ->; [|done].
  apply NoDup_Permutation; [apply list.NoDup_filter, NoDup_seqZ| |].
  - apply list.NoDup_cons. split; [|apply list.NoDup_filter, NoDup_seqZ]. by intros [[? _] _]%list_elem_of_filter.
  - intros h'. rewrite elem_of_cons, !list_elem_of_filter. unfold l. rewrite elem_of_seqZ. split.
    + intros [[Hn Hin] Hr]. destruct (decide (h' = h)) as [|Hh]; [by left|right]. split_and!; [done| |lia|lia].
      apply (Hmin h'); [unfold block; lia|done..].
    + intros [->|[[Hn Hin] Hr]]; [unfold block in Bh; split_and!; [done|done|lia|lia]|].
      assert (block h') as Bh' by (unfold block; lia). destruct (Hnest h h' h) as [[_ Hno]|[Hsub Hno]]; [done..| |].
      * done.
      * split_and!; [by intros ->|by apply Hsub|lia|lia].
Qed.

Lemma least_of {A} (m : A -> nat) (l : list A) : l <> [] -> exists a, a ∈ l /\ forall b, b ∈ l -> (m a <= m b)%nat.
Proof.
  induction l as [|a l IH]; intros H; [done|]. destruct l as [|b l].
  - exists a. split; [by left|]. intros b Hb. apply list_elem_of_singleton in Hb as ->. done.
  - destruct IH as (c & Hc & Hmin); [done|]. destruct (decide (m a <= m c)%nat) as [Hle|Hgt].
    + exists a. split; [by left|]. intros d [->|Hd]%elem_of_cons; [done|]. specialize (Hmin d Hd). lia.
    + exists c. split; [by right|]. intros d [->|Hd]%elem_of_cons; [lia|by apply Hmin].
Qed.

Lemma depth_positive c : loop_depth_of c <> O -> exists h, block h /\ encloses h c.
Proof using Hnest Hself Hblock.
  unfold loop_depth_of. intros H. destruct (least_of (fun h => size (L h)) (filter (fun h => h <> c /\ c ∈ L h) (seqZ 0 (Z.of_nat n)))) as (h & Hh & Hmin).
  { intros E. by rewrite E in H. }
  apply list_elem_of_filter in Hh as [[Hne Hc] Hr]. apply elem_of_seqZ in Hr. assert (block h) as Bh by (unfold block; lia).
  exists h. split; [done|]. split; [done|]. split; [done|]. intros h' Bh' Hne' Hc'. destruct (decide (h' = h)) as [->|Hh]; [done|].
  apply (nest_size h h' c); [done..|]. apply Hmin, list_elem_of_filter. split; [done|]. apply elem_of_seqZ. unfold block in *. lia.
Qed.

Lemma depth_zero c : block c -> loop_depth_of c = O <-> forall h, block h -> ~ encloses h c.
Proof using Hnest Hself Hblock.
  intros Bc. split.
  - intros H h Bh He. rewrite (depth_encloses h c Bh Bc He) in H. lia.
  - intros H. destruct (decide (loop_depth_of c = O)) as [|Hn]; [done|]. destruct (depth_positive c Hn) as (h & Bh & He). by destruct (H h Bh).
Qed.

Lemma depth_bound x : (loop_depth_of x <= n)%nat.
Proof. unfold loop_depth_of. pose proof (list.length_filter (fun h => h <> x /\ x ∈ L h) (seqZ 0 (Z.of_nat n))) as H. rewrite length_seqZ, Nat2Z.id in H. exact H. Qed.

Section Depths.
Context (lt : list (list Z)) (Hlt : length lt = n).
Context (Hrows : forall h c, block h -> c ∈ row lt h <-> encloses h c).

Definition child (h c : Z) : Prop := c ∈ row lt h.
Definition right_at (ds : list Z) (x : Z) : Prop := ds !! Z.to_nat x = Some (Z.of_nat (loop_depth_of x)).

Lemma child_block h c : child h c -> block h /\ block c /\ encloses h c.
Proof using Hblock Hrows Hlt.
  intros H. assert (block h) as Bh by (apply row_range in H; unfold vec_size in H; by rewrite Hlt in H).
  assert (encloses h c) as He by (by apply Hrows). split_and!; [done| |done]. destruct He as (_ & Hc & _). by apply (Hblock h).
Qed.

(** Every block lies below an outermost one. *)
Lemma outermost x : block x -> exists r, block r /\ loop_depth_of r = O /\ rtc child r x.
Proof using Hnest Hself Hblock Hrows Hlt.
  intros Bx. remember (loop_depth_of x) as d eqn:E. revert x Bx E. induction d as [|d IH]; intros x Bx E; [by exists x|].
  destruct (depth_positive x) as (h & Bh & He); [by rewrite <- E|]. pose proof (depth_encloses h x Bh Bx He) as Ed.
  destruct (IH h Bh) as (r & Br & Hr & Hrh); [lia|]. exists r. split_and!; [done|done|].
  eapply rtc_r; [exact Hrh|]. by apply Hrows.
Qed.

Lemma depth_dfs_ok fuel : forall curr ds, block curr -> length ds = n -> (n < fuel + loop_depth_of curr)%nat ->
  exists ds', depth_dfs fuel lt curr (Z.of_nat (loop_depth_of curr)) ds = Ok ds' /\ length ds' = n /\
    (forall x, block x -> right_at ds x -> right_at ds' x) /\ forall x, rtc child curr x -> right_at ds' x.
Proof using Hnest Hself Hblock Hrows Hlt.
  induction fuel as [|fuel IH]; intros curr ds Bc Hl Hf; [pose proof (depth_bound curr); lia|]. cbn [depth_dfs].
  unfold block in Bc. assert (vec_set ds curr (Z.of_nat (loop_depth_of curr)) = Ok (<[Z.to_nat curr := Z.of_nat (loop_depth_of curr)]> ds)) as ->.
  { apply vec_set_Ok. unfold vec_size. rewrite Hl. done. }
  cbn [mbind Res_bind]. set (ds0 := <[Z.to_nat curr := Z.of_nat (loop_depth_of curr)]> ds).
  assert (vec_at lt curr = Ok (row lt curr)) as ->.
  { unfold row. rewrite (proj2 (Z.ltb_ge curr 0)) by lia. destruct (lookup_lt_is_Some_2 lt (Z.to_nat curr)) as [r Hr]; [lia|].
    rewrite Hr. apply vec_at_Ok. split; [lia|done]. }
  cbn [mbind Res_bind].
  assert (right_at ds0 curr) as H0 by (unfold right_at, ds0; by rewrite list_lookup_insert_eq by lia).
  assert (forall x, block x -> right_at ds x -> right_at ds0 x) as Hkeep0.
  { intros x Bx Hx. destruct (decide (x = curr)) as [->|Hne]; [done|]. unfold right_at, ds0, block in *. by rewrite list_lookup_insert_ne by lia. }
  destruct (foldM_prefix (fun loop_depth next => depth_dfs fuel lt next (Z.of_nat (loop_depth_of curr) + 1) loop_depth)
    (fun done ds' => length ds' = n /\ (forall x, block x -> right_at ds0 x -> right_at ds' x) /\
       forall c x, c ∈ done -> rtc child c x -> right_at ds' x) (row lt curr) ds0) as (ds' & E & Hl' & Hkeep & Hall).
  - intros done c rest ds1 Es (Hl1 & Hkeep & Hall). assert (child curr c) as Hc by (unfold child; rewrite Es; apply elem_of_app; right; by left).
    destruct (child_block curr c Hc) as (_ & Bc' & He). pose proof (depth_encloses curr c Bc Bc' He) as Ed.
    destruct (IH c ds1 Bc' Hl1) as (ds2 & E & Hl2 & Hk2 & Ha2); [lia|]. replace (Z.of_nat (loop_depth_of curr) + 1) with (Z.of_nat (loop_depth_of c)) by lia.
    exists ds2. split_and!; [done|done|by auto|]. intros c' x [Hin| ->%list_elem_of_singleton]%elem_of_app Hx; [|by apply Ha2].
    apply Hk2; [|by apply (Hall c')]. assert (block c') as Bc2.
    { apply (child_block curr c'). unfold child. rewrite Es. apply elem_of_app. by left. }
    clear -Hx Bc2 Hblock Hrows Hlt. induction Hx as [|a b d Hab _ IH]; [done|]. apply IH. by apply (child_block a b).
  - split_and!; [unfold ds0; by rewrite length_insert|done|]. by intros c x ?%not_elem_of_nil.
  - exists ds'. split_and!; [done|done|auto|]. intros x Hx. apply rtc_inv in Hx as [<-|(c & Hc & Hx)]; [by apply Hkeep|by apply (Hall c)].
Qed.

Lemma is_root_ok : exists is_root, foldM mark_children (replicate n true) lt = Ok is_root /\ length is_root = n /\
  forall x, block x -> del is_root x = true <-> loop_depth_of x = O.
Proof using Hnest Hself Hblock Hrows Hlt.
  assert (forall r roots, length roots = n -> (forall c, c ∈ r -> block c) -> exists roots', mark_children roots r = Ok roots' /\
    length roots' = n /\ forall x, block x -> del roots' x = true <-> del roots x = true /\ x ∉ r) as Hmark.
  { intros r roots Hl Hr. unfold mark_children. apply (foldM_prefix (fun is_root y => vec_set is_root y false)
      (fun done roots' => length roots' = n /\ forall x, block x -> del roots' x = true <-> del roots x = true /\ x ∉ done)).
    - intros done y rest roots1 Es [Hl1 H1]. assert (block y) as By by (apply Hr; rewrite Es; apply elem_of_app; right; by left).
      eexists. split; [apply vec_set_Ok; unfold vec_size; rewrite Hl1; done|]. split; [by rewrite length_insert|].
      intros x Bx. unfold block in *. rewrite elem_of_app, list_elem_of_singleton. destruct (decide (x = y)) as [->|Hne].
      + unfold del at 1. rewrite list_lookup_insert_eq by lia. cbn. naive_solver.
      + unfold del at 1. rewrite list_lookup_insert_ne by lia. fold (del roots1 x). rewrite H1 by done. tauto.
    - split; [done|]. intros x _. rewrite elem_of_nil. tauto. }
  destruct (foldM_prefix mark_children (fun done roots => length roots = n /\
    forall x, block x -> del roots x = true <-> forall r, r ∈ done -> x ∉ r) lt (replicate n true)) as (roots & E & Hl & Hroots).
  - intros done r rest roots Es [Hl Hr]. destruct (Hmark r roots Hl) as (roots' & -> & Hl' & Hr').
    { intros c Hc. assert (lt !! length done = Some r) as Hrow by (rewrite Es; by apply list_lookup_middle).
      apply (child_block (Z.of_nat (length done)) c). unfold child, row. rewrite (proj2 (Z.ltb_ge _ 0)), Nat2Z.id, Hrow by lia. done. }
    exists roots'. split_and!; [done|done|]. intros x Bx. rewrite Hr', Hr by done. setoid_rewrite elem_of_app. setoid_rewrite list_elem_of_singleton. naive_solver.
  - rewrite length_replicate. split; [done|]. intros x Bx. split; [by intros _ r ?%not_elem_of_nil|]. intros _.
    unfold del. unfold block in Bx. rewrite lookup_replicate_2 by lia. done.
  - exists roots. split_and!; [done..|]. intros x Bx. rewrite Hroots, depth_zero by done. split.
    + intros H h Bh He. apply Hrows in He; [|done]. unfold row in He. destruct (h <? 0); [by apply not_elem_of_nil in He|].
      destruct (lt !! Z.to_nat h) as [r|] eqn:Er; [|by apply not_elem_of_nil in He]. by apply (H r (list_elem_of_lookup_2 _ _ _ Er)).
    + intros H r [k Hk]%list_elem_of_lookup_1 Hx. apply (H (Z.of_nat k)).
      * apply lookup_lt_Some in Hk. unfold block. lia.
      * apply Hrows; [apply lookup_lt_Some in Hk; unfold block; lia|]. unfold row. rewrite (proj2 (Z.ltb_ge _ 0)), Nat2Z.id, Hk by lia. done.
Qed.

Lemma loop_depths_ok : exists ds,
  (is_root ← foldM mark_children (replicate n true) lt;
   foldM (fun loop_depth i =>
     r ← vec_at is_root i;
     if r : bool then depth_dfs (S n) lt i 0 loop_depth else Ok loop_depth) (replicate n 0) (seqZ 0 (Z.of_nat n))) = Ok ds /\
  length ds = n /\ forall x, block x -> right_at ds x.
Proof using Hnest Hself Hblock Hrows Hlt.
  destruct is_root_ok as (roots & -> & Hlr & Hroots). cbn [mbind Res_bind].
  destruct (foldM_prefix (fun loop_depth i => r ← vec_at roots i; if r : bool then depth_dfs (S n) lt i 0 loop_depth else Ok loop_depth)
    (fun done ds => length ds = n /\ (forall x, block x -> loop_depth_of x = O -> right_at ds x) /\
       forall r x, r ∈ done -> block x -> loop_depth_of r = O -> rtc child r x -> right_at ds x) (seqZ 0 (Z.of_nat n)) (replicate n 0))
    as (ds & E & Hl & _ & Hall).
  - intros done i rest ds Es (Hl & Hz & Hall). assert (i ∈ seqZ 0 (Z.of_nat n)) as Hi%elem_of_seqZ by (rewrite Es; apply elem_of_app; right; by left).
    assert (block i) as Bi by (unfold block; lia).
    assert (vec_at roots i = Ok (del roots i)) as ->.
    { unfold del. destruct (lookup_lt_is_Some_2 roots (Z.to_nat i)) as [v Hv]; [lia|]. rewrite Hv. apply vec_at_Ok. split; [lia|done]. }
    cbn [mbind Res_bind]. destruct (del roots i) eqn:Er.
    + pose proof (proj1 (Hroots i Bi) Er) as E0. destruct (depth_dfs_ok (S n) i ds Bi Hl) as (ds' & E' & Hl' & Hk & Ha); [lia|].
      rewrite E0 in E'. cbn [Z.of_nat] in E'. exists ds'. split_and!; [done|done|auto|].
      intros r x [Hr| ->%list_elem_of_singleton]%elem_of_app Bx Hr0 Hx; [|by apply Ha]. apply Hk; [done|]. by apply (Hall r).
    + exists ds. split_and!; [done..|]. intros r x [Hr| ->%list_elem_of_singleton]%elem_of_app Bx Hr0 Hx; [by apply (Hall r)|].
      apply (Hroots i Bi) in Hr0. congruence.
  - rewrite length_replicate. split_and!; [done| |by intros ? ? ?%not_elem_of_nil]. intros x Bx E0. unfold right_at, block in *. rewrite E0.
    by rewrite lookup_replicate_2 by lia.
  - exists ds. split_and!; [done..|]. intros x Bx. destruct (outermost x Bx) as (r & Br & Hr & Hx). apply (Hall r x); [|done..].
    apply elem_of_seqZ. unfold block in Br. lia.
Qed.
End Depths.
End Family.

(** ** The result *)

(** The loop of [h] is the smallest around [c], apart from the loop [c] may head. *)
Definition innermost (bb : list BasicBlock) (h c : Z) : Prop :=
  h <> c /\ in_loop bb h c /\ forall h', h' <> c -> in_loop bb h' c -> forall y, in_loop bb h y -> in_loop bb h' y.

(** [d] loops contain [x], not counting the loop it heads. *)
Definition nesting (bb : list BasicBlock) (x : Z) (d : nat) : Prop :=
  exists hs, NoDup hs /\ (forall h, h ∈ hs <-> h <> x /\ in_loop bb h x) /\ length hs = d.

Record sort_ok (sort : (Z -> nat) -> list Z -> list Z) : Prop := {
  so_perm : forall key l, sort key l ≡ₚ l;
  so_sorted : forall key l, StronglySorted (by_key key) (sort key l);
}.

Lemma sort_by_ok : sort_ok sort_by.
Proof.
  split; intros key l; unfold sort_by; [apply merge_sort_Permutation|].
  assert (Transitive (by_key key)) by (intros a b c; unfold by_key; lia). assert (Total (by_key key)) by (intros a b; unfold by_key; lia).
  apply (StronglySorted_merge_sort (by_key key)).
Qed.

(** The loops of a graph are a nested family. *)
Lemma loops_family bb : edges_ok bb -> bb <> [] ->
  exists dom_tree backedges loops, ComputeDominatorTree bb = Ok dom_tree /\ FindBackedges bb dom_tree = Ok backedges /\
    natural_loops bb dom_tree backedges = Ok loops /\ length loops = length bb /\
    (forall h x, in_range bb h -> x ∈ loop_of loops h <-> in_loop bb h x) /\
    (forall h, block (length bb) h -> loop_of loops h <> ∅ -> h ∈ loop_of loops h) /\
    (forall h x, block (length bb) h -> x ∈ loop_of loops h -> block (length bb) x) /\
    (forall h1 h2 x, block (length bb) h1 -> block (length bb) h2 -> h1 <> h2 -> x ∈ loop_of loops h1 -> x ∈ loop_of loops h2 ->
      (loop_of loops h2 ⊆ loop_of loops h1 /\ h1 ∉ loop_of loops h2) \/ (loop_of loops h1 ⊆ loop_of loops h2 /\ h2 ∉ loop_of loops h1)).
Proof.
  intros He Hne. destruct (dominator_tree bb He Hne) as (label & rpo & idom & t & Et & Hord & Hex & Htl & Hrow).
  destruct (FindBackedges_ok bb He Hne label rpo idom t Hord Hex Htl Hrow) as (E & Ee & El & HE).
  destruct (natural_loops_ok bb He Hne label rpo idom t Hord Hex Htl Hrow E El HE) as (loops & Elp & Hll & Hloops).
  assert (forall h x, in_range bb h -> x ∈ loop_of loops h <-> in_loop bb h x) as Hin.
  { intros h x Hh. destruct (Hloops h Hh) as (L & HL & HLx). unfold loop_of. rewrite HL. apply HLx. }
  exists t, E, loops. split_and!; [done..| | |].
  - intros h Bh Hn. apply set_choose_L in Hn as [x [Hx _]%(Hin h x Bh)]. apply (Hin h h Bh). by apply in_loop_self.
  - intros h x Bh Hx%(Hin h x Bh). by apply (in_loop_range bb He Hne h).
  - intros h1 h2 x B1 B2 Hne' H1%(Hin h1 x B1) H2%(Hin h2 x B2).
    destruct (loops_nest bb He Hne label rpo idom t Hord Hex Htl Hrow h1 h2 x Hne' H1 H2) as [[Hs Hn]|[Hs Hn]]; [left|right]; split.
    + intros y Hy%(Hin h2 y B2). by apply (Hin h1 y B1), Hs.
    + by intros ?%(Hin h2 h1 B2).
    + intros y Hy%(Hin h1 y B1). by apply (Hin h2 y B2), Hs.
    + by intros ?%(Hin h1 h2 B1).
Qed.

Lemma FindLoops_encloses sort bb : sort_ok sort -> edges_ok bb -> bb <> [] ->
  exists loops lt, FindLoops sort bb = Ok lt /\ length lt = length bb /\ length loops = length bb /\
    (forall h x, in_range bb h -> x ∈ loop_of loops h <-> in_loop bb h x) /\
    (forall h c, block (length bb) h -> c ∈ row lt h <-> encloses (length bb) loops h c) /\
    (exists ds, LoopDepths sort bb = Ok ds /\ length ds = length bb /\ forall x, block (length bb) x -> right_at (length bb) loops ds x).
Proof.
  intros [Hp Hs] He Hne. destruct (loops_family bb He Hne) as (t & E & loops & Et & Ee & El & Hll & Hin & Hself & Hblock & Hnest).
  destruct (loop_tree_ok (length bb) loops Hself Hblock Hnest (sort (loop_size loops) (loop_headers loops))) as (lt & uf & Ef & Hlt & Hrows); [done|apply Hs| | |].
  { rewrite Hp. apply list.NoDup_filter, NoDup_seqZ. }
  { intros h. rewrite Hp. unfold loop_headers. rewrite list_elem_of_filter, elem_of_seqZ. unfold block, loop_of, vec_size. rewrite Hll. split; [intros [? ?]|intros [? ?]]; split; try done; lia. }
  assert (FindLoops sort bb = Ok lt) as Efl.
  { unfold FindLoops. rewrite Et. cbn [mbind Res_bind]. rewrite Ee. cbn [mbind Res_bind]. rewrite El. cbn [mbind Res_bind]. unfold vec_size. by rewrite Ef. }
  exists loops, lt. split_and!; [done..|]. unfold LoopDepths. rewrite Efl. cbn [mbind Res_bind].
  exact (loop_depths_ok (length bb) loops Hself Hblock Hnest lt Hlt Hrows).
Qed.

(** The tree hangs every block below the header of its innermost loop, whatever the order
    of loops of the same size. *)
Theorem find_loops_correct sort bb : sort_ok sort -> edges_ok bb -> bb <> [] ->
  exists lt, FindLoops sort bb = Ok lt /\ length lt = length bb /\ forall h c, c ∈ row lt h <-> innermost bb h c.
Proof.
  intros Hs He Hne. destruct (FindLoops_encloses sort bb Hs He Hne) as (loops & lt & E & Hlt & Hll & Hin & Hrows & _).
  exists lt. split_and!; [done..|]. intros h c. destruct (decide (block (length bb) h)) as [Bh|Bh].
  - rewrite (Hrows h c Bh). unfold encloses, innermost. rewrite (Hin h c Bh). split.
    + intros (Hn & Hc & Hmin). split_and!; [done..|]. intros h' Hn' Hc' y Hy. pose proof (header_range bb He h' (proj1 Hc')) as Bh'.
      apply (Hin h' y Bh'), (Hmin h' Bh' Hn'); [by apply Hin|by apply Hin].
    + intros (Hn & Hc & Hmin). split_and!; [done..|]. intros h' Bh' Hn' Hc'%(Hin h' c Bh') y Hy%(Hin h y Bh). by apply (Hin h' y Bh'), (Hmin h').
  - split.
    + intros H%row_range. destruct Bh. unfold block, vec_size in *. lia.
    + intros (_ & [Hh _] & _). by destruct Bh; apply (header_range bb He h).
Qed.

(** C8. The weight of spill costs: on every control-flow graph the computation of loops
    and depths returns, and the depth of a block is the number of natural loops that
    contain it, the loop it heads itself not counted. *)
Theorem loop_depths_correct sort bb : sort_ok sort -> edges_ok bb -> bb <> [] ->
  exists ds, LoopDepths sort bb = Ok ds /\ length ds = length bb /\
    forall x d, in_range bb x -> ds !! Z.to_nat x = Some (Z.of_nat d) <-> nesting bb x d.
Proof.
  intros Hs He Hne. destruct (FindLoops_encloses sort bb Hs He Hne) as (loops & lt & _ & _ & Hll & Hin & _ & ds & E & Hl & Hds).
  exists ds. split_and!; [done..|]. intros x d Hx. rewrite (Hds x Hx).
  set (hs := filter (fun h => h <> x /\ x ∈ loop_of loops h) (seqZ 0 (Z.of_nat (length bb)))).
  assert (NoDup hs) as Hnd by apply list.NoDup_filter, NoDup_seqZ.
  assert (forall h, h ∈ hs <-> h <> x /\ in_loop bb h x) as Hhs.
  { intros h. unfold hs. rewrite list_elem_of_filter, elem_of_seqZ. split.
    - intros [[? Hl1] Hr]. split; [done|]. apply Hin; [unfold in_range, vec_size; lia|done].
    - intros [? Hl1]. pose proof (header_range bb He h (proj1 Hl1)) as Hr. split; [split; [done|by apply Hin]|unfold in_range, vec_size in Hr; lia]. }
  split.
  - intros [= Ed%Nat2Z.inj]. exists hs. done.
  - intros (hs' & Hnd' & Hhs' & <-). do 2 f_equal. change (length hs = length hs'). apply Permutation_length, NoDup_Permutation; [done..|]. intros h. by rewrite Hhs, Hhs'.
Qed.

(** The nested loops of src/khir/asm/loops_test.cc. *)
Definition GenerateBlocks (succ : list (list Z)) : list BasicBlock :=
  imap (fun i s => MkBB [] s (filter (fun p => Z.of_nat i ∈ default [] (succ !! Z.to_nat p)) (seqZ 0 (vec_size succ)))) succ.
Definition nested : list BasicBlock := GenerateBlocks [[1]; [2; 5]; [3; 4]; [2]; [1]; []].

Lemma loop_depths_correct_witness :
  exists ds, LoopDepths sort_by nested = Ok ds /\ length ds = length nested /\
    forall x d, in_range nested x -> ds !! Z.to_nat x = Some (Z.of_nat d) <-> nesting nested x d.
Proof. apply (loop_depths_correct sort_by nested); [apply sort_by_ok|apply CfgDemo.edges_check_ok; reflexivity|done]. Defined.

(** The expected trees of the tests. *)
Example NoLoop : FindLoops sort_by (GenerateBlocks [[1]; [2; 3]; [4]; [4]; []]) = Ok [[]; []; []; []; []].
Proof. vm_compute. reflexivity. Qed.
Example SimpleLoop : FindLoops sort_by (GenerateBlocks [[1]; [2; 3]; [1]; []]) = Ok [[]; [2]; []; []].
Proof. vm_compute. reflexivity. Qed.
Example SimpleLoopWithEarlyReturn : FindLoops sort_by (GenerateBlocks [[1]; [2]; [3; 4]; []; [1]]) = Ok [[]; [2; 4]; []; []; []].
Proof. vm_compute. reflexivity. Qed.
Example NestedLoop : FindLoops sort_by nested = Ok [[]; [2; 4]; [3]; []; []; []].
Proof. vm_compute. reflexivity. Qed.
Example nested_depths : LoopDepths sort_by nested = Ok [0; 0; 1; 2; 1; 0].
Proof. vm_compute. reflexivity. Qed.
