(* ===== verification/AsmBlocks.v ===== *)
(** * Machine code of a function: branches, layout and frame

    src/khir/asm/asm_backend.cc around the translation of single instructions: the
    condition codes a comparison is stored or branched on with ([StoreCmpFlags],
    [StoreF64CmpFlags], [CondBrFlag], [CondBrF64Flag] and the branch cases of
    [TranslateInstr]), the order in which blocks are laid out (src/khir/asm/dfs_label.cc),
    and the stack frame.  What asmjit's methods do is the x86 architecture's [cmp],
    [test], [ucomisd], [setcc] and [jcc]. *)
From Stdlib Require Import SpecFloat.
From stdpp Require Import sorting.
From S2P Require Import Prelude Opcode Instruction FunctionBuilder ProgramBuilder ConstFold CfgSimplify CfgMerge CfgOutput LiveInterval LinearScan RegAlloc Dominators Loops.

(** ** Flags and conditions *)
Record Flags := MkFlags { ZF : bool; SF : bool; OF : bool; CF : bool; PF : bool }.

Inductive Cond := CE | CNE | CL | CLE | CG | CGE | CBE | CA | CAE | CP | CNP.

Definition cond_holds (c : Cond) (f : Flags) : bool :=
  match c with
  | CE => ZF f
  | CNE => negb (ZF f)
  | CL => xorb (SF f) (OF f)
  | CLE => ZF f || xorb (SF f) (OF f)
  | CG => negb (ZF f) && Bool.eqb (SF f) (OF f)
  | CGE => Bool.eqb (SF f) (OF f)
  | CBE => CF f || ZF f
  | CA => negb (CF f) && negb (ZF f)
  | CAE => negb (CF f)
  | CP => PF f
  | CNP => negb (PF f)
  end.

Definition parity (x : Z) : bool := negb (foldr xorb false (Z.testbit (uw 8 x) <$> seqZ 0 8)).

(** [cmp] of two w-bit operands. *)
Definition cmp_flags (w a b : Z) : Flags := {|
  ZF := uw w a =? uw w b;
  SF := sw w (a - b) <? 0;
  OF := negb (sw w a - sw w b =? sw w (a - b));
  CF := uw w a <? uw w b;
  PF := parity (a - b) |}.

(** [test] of a 32-bit register with itself. *)
Definition test_flags (x : Z) : Flags := {|
  ZF := uw 32 x =? 0; SF := sw 32 x <? 0; OF := false; CF := false; PF := parity x |}.

(** [ucomisd]; operands that do not compare set all three flags. *)
Definition ucomisd (a b : spec_float) : Flags :=
  match SFcompare a b with
  | None => MkFlags true false false true true
  | Some Eq => MkFlags true false false false false
  | Some Lt => MkFlags false false false true false
  | Some Gt => MkFlags false false false false false
  end.

(** ** Comparisons *)

(** The comparison of doubles swaps the operands of LT and LE. *)
Definition F64_cmp_flags (op : Opcode) (v0 v1 : spec_float) : Flags :=
  match op with F64_CMP_LT | F64_CMP_LE => ucomisd v1 v0 | _ => ucomisd v0 v1 end.

(** The [setcc] that stores the result of a comparison. *)
Definition StoreCmpFlags (op : Opcode) : Res Cond :=
  match op with
  | PTR_CMP_NULLPTR | I1_CMP_EQ | I8_CMP_EQ | I16_CMP_EQ | I32_CMP_EQ | I64_CMP_EQ => Ok CE
  | I1_CMP_NE | I8_CMP_NE | I16_CMP_NE | I32_CMP_NE | I64_CMP_NE
  | I32_CMP_EQ_ANY_CONST_VEC4 | I32_CMP_EQ_ANY_CONST_VEC8 => Ok CNE
  | I8_CMP_LT | I16_CMP_LT | I32_CMP_LT | I64_CMP_LT => Ok CL
  | I8_CMP_LE | I16_CMP_LE | I32_CMP_LE | I64_CMP_LE => Ok CLE
  | I8_CMP_GT | I16_CMP_GT | I32_CMP_GT | I64_CMP_GT => Ok CG
  | I8_CMP_GE | I16_CMP_GE | I32_CMP_GE | I64_CMP_GE => Ok CGE
  | _ => Throw "Not possible"
  end.

(** The byte stored for a comparison of doubles; EQ and NE combine two conditions. *)
Definition StoreF64CmpFlags (op : Opcode) (f : Flags) : Res Z :=
  let set c := if cond_holds c f then 1 else 0 in
  match op with
  | F64_CMP_EQ => Ok (Z.land (set CNP) (set CE))
  | F64_CMP_NE => Ok (Z.lor (set CP) (set CNE))
  | F64_CMP_LT | F64_CMP_GT => Ok (set CA)
  | F64_CMP_LE | F64_CMP_GE => Ok (set CAE)
  | _ => Throw "Impossible"
  end.

(** ** Branches *)

(** [CMP0 v] compares the byte of the value [v] with zero. *)
Inductive Inst := CMP0 (v : Z) | JCC (c : Cond) (label : Z) | JMP (label : Z).

Definition CondBrFlag (op : Opcode) (true_bb false_bb next_bb : Z) : Res (list Inst) :=
  let branch (c nc : Cond) :=
    if true_bb =? next_bb then [JCC nc false_bb]
    else if false_bb =? next_bb then [JCC c true_bb]
    else [JCC c true_bb; JMP false_bb] in
  match op with
  | I1_CMP_EQ | I8_CMP_EQ | I16_CMP_EQ | I32_CMP_EQ | I64_CMP_EQ => Ok (branch CE CNE)
  | I1_CMP_NE | I8_CMP_NE | I16_CMP_NE | I32_CMP_NE | I64_CMP_NE
  | I32_CMP_EQ_ANY_CONST_VEC4 | I32_CMP_EQ_ANY_CONST_VEC8 => Ok (branch CNE CE)
  | I8_CMP_LT | I16_CMP_LT | I32_CMP_LT | I64_CMP_LT => Ok (branch CL CGE)
  | I8_CMP_LE | I16_CMP_LE | I32_CMP_LE | I64_CMP_LE => Ok (branch CLE CG)
  | I8_CMP_GT | I16_CMP_GT | I32_CMP_GT | I64_CMP_GT => Ok (branch CG CLE)
  | I8_CMP_GE | I16_CMP_GE | I32_CMP_GE | I64_CMP_GE => Ok (branch CGE CL)
  | _ => Throw "Not possible"
  end.

Definition CondBrF64Flag (op : Opcode) (true_bb false_bb : Z) : Res (list Inst) :=
  match op with
  | F64_CMP_EQ => Ok [JCC CNE false_bb; JCC CP false_bb; JMP true_bb]
  | F64_CMP_NE => Ok [JCC CNE true_bb; JCC CNP false_bb; JMP true_bb]
  | F64_CMP_LT | F64_CMP_GT => Ok [JCC CBE false_bb; JMP true_bb]
  | F64_CMP_GE | F64_CMP_LE => Ok [JCC CAE true_bb; JMP false_bb]
  | _ => Throw "Not possible"
  end.

Definition jump_to (dest_bb next_bb : Z) : list Inst := if dest_bb =? next_bb then [] else [JMP dest_bb].

(** A condition that is a byte in a register or on the stack. *)
Definition cond_br_byte (v true_bb false_bb next_bb : Z) : list Inst :=
  CMP0 v ::
  (if next_bb =? true_bb then [JCC CE false_bb]
   else if next_bb =? false_bb then [JCC CNE true_bb]
   else [JCC CNE true_bb; JMP false_bb]).

(** The branch cases of [TranslateInstr]; [byte_constant] is [GetByteConstant]. *)
Definition TranslateBranch (byte_constant : Z -> Res Z) (instructions register_assign : list Z) (instr next_bb : Z) : Res (list Inst) :=
  match OpcodeFrom (GenericInstructionReader_Opcode instr) with
  | Some BR => Ok (jump_to (Type5_Marg0 instr) next_bb)
  | Some CONDBR =>
      let v := Type5_Arg instr in
      let true_bb := Type5_Marg0 instr in
      let false_bb := Type5_Marg1 instr in
      if Value_IsConstantGlobal v then
        c ← byte_constant v;
        Ok (jump_to (if c =? 0 then false_bb else true_bb) next_bb)
      else
        r ← vec_at register_assign (Value_GetIdx v);
        if (r =? IFlag) || (r =? FFlag) then
          w ← vec_at instructions (Value_GetIdx v);
          op ← opt_ub (OpcodeFrom (GenericInstructionReader_Opcode w));
          if r =? IFlag then CondBrFlag op true_bb false_bb next_bb else CondBrF64Flag op true_bb false_bb
        else Ok (cond_br_byte (Value_GetIdx v) true_bb false_bb next_bb)
  | _ => Throw "not a branch"
  end.

(** Where control goes: to the label of the first jump taken, else to the next block. *)
Fixpoint run (bytes : Z -> Z) (f : Flags) (code : list Inst) (next_bb : Z) : Z :=
  match code with
  | [] => next_bb
  | CMP0 v :: code => run bytes (cmp_flags 8 (bytes v) 0) code next_bb
  | JCC c label :: code => if cond_holds c f then label else run bytes f code next_bb
  | JMP label :: _ => label
  end.

(** ** What the conditions mean *)

(** The flags [f] are those of the comparison [op], whose result is [b].  Integers are
    compared as signed numbers of their width, an I1 as a byte; a comparison with a
    constant vector tests the mask of equal lanes. *)
Inductive compared : Opcode -> Flags -> bool -> Prop :=
| compared_int w c x y : compared (cmp_op w c) (cmp_flags (bits_of w) x y) (int_cmp c (sw (bits_of w) x) (sw (bits_of w) y))
| compared_I1_EQ x y : compared I1_CMP_EQ (cmp_flags 8 x y) (uw 8 x =? uw 8 y)
| compared_I1_NE x y : compared I1_CMP_NE (cmp_flags 8 x y) (negb (uw 8 x =? uw 8 y))
| compared_VEC4 x : compared I32_CMP_EQ_ANY_CONST_VEC4 (test_flags x) (negb (uw 32 x =? 0))
| compared_VEC8 x : compared I32_CMP_EQ_ANY_CONST_VEC8 (test_flags x) (negb (uw 32 x =? 0)).

Inductive compared_f64 : Opcode -> Flags -> bool -> Prop :=
| compared_F64 c x y : compared_f64 (F64_cmp_opcode c) (F64_cmp_flags (F64_cmp_opcode c) x y) (f64_cmp c x y).

(** Signed comparison by the flags of a subtraction. *)
Lemma sw_eq_uw w a b : 0 < w -> (sw w a =? sw w b) = (uw w a =? uw w b).
Proof.
  intros Hw. destruct (Z.eqb_spec (uw w a) (uw w b)) as [E|E], (Z.eqb_spec (sw w a) (sw w b)) as [E'|E']; try done; exfalso.
  - apply E'. rewrite <- (sw_uw w a), <- (sw_uw w b). by rewrite E.
  - apply E. rewrite <- (uw_sw w a), <- (uw_sw w b) by done. by rewrite E'.
Qed.

Lemma sw_wrap w x : 0 < w -> exists k, sw w x = x + k * 2 ^ w.
Proof.
  intros Hw. unfold sw. pose proof (Z_div_mod_eq_full x (2 ^ w)). destruct (_ <? _).
  - exists (- (x / 2 ^ w)). lia.
  - exists (- (x / 2 ^ w) - 1). lia.
Qed.

Lemma signed_less w a b : 1 < w ->
  xorb (sw w (a - b) <? 0) (negb (sw w a - sw w b =? sw w (a - b))) = (sw w a <? sw w b).
Proof.
  intros Hw. pose proof (sw_range w a ltac:(lia)) as Ha. pose proof (sw_range w b ltac:(lia)) as Hb. pose proof (sw_range w (a - b) ltac:(lia)) as Hd.
  unfold is_sw in *. pose proof (pow2_half w ltac:(lia)) as Hp.
  destruct (sw_wrap w a ltac:(lia)) as [ka Ea], (sw_wrap w b ltac:(lia)) as [kb Eb], (sw_wrap w (a - b) ltac:(lia)) as [kd Ed].
  assert (exists k, sw w (a - b) = sw w a - sw w b + k * 2 ^ w) as [k Ek] by (exists (kd - ka + kb); lia).
  set (P := 2 ^ (w - 1)) in *. assert (0 < P) by (apply Z.pow_pos_nonneg; lia). rewrite Hp in Ek.
  assert (k = 0 \/ k = 1 \/ k = -1) as Hk by nia.
  destruct Hk as [->|[->| ->]]; repeat case_match; cbn; destruct (Z.ltb_spec (sw w (a - b)) 0), (Z.ltb_spec (sw w a) (sw w b)),
    (Z.eqb_spec (sw w a - sw w b) (sw w (a - b))); cbn; try done; lia.
Qed.

Lemma bits_of_pos w : 1 < bits_of w.
Proof. by destruct w. Qed.

(** Each integer comparison is the condition its [setcc] and its jumps name. *)
Lemma StoreCmpFlags_cond op f b : compared op f b -> exists c, StoreCmpFlags op = Ok c /\ cond_holds c f = b.
Proof.
  destruct 1 as [w c x y|x y|x y|x|x].
  - pose proof (bits_of_pos w) as Hw. pose proof (sw_eq_uw (bits_of w) x y ltac:(lia)) as He. pose proof (signed_less (bits_of w) x y Hw) as Hl.
    exists (match c with EQ => CE | NE => CNE | LT => CL | LE => CLE | GT => CG | GE => CGE end). split; [by destruct w, c|].
    assert (forall s o : bool, Bool.eqb s o = negb (xorb s o)) as Hx by (by intros [] []).
    destruct c; cbn [cond_holds int_cmp cmp_flags ZF SF OF]; rewrite ?Hx, ?Hl, <- ?He; try done.
    + destruct (Z.eqb_spec (sw (bits_of w) x) (sw (bits_of w) y)), (Z.ltb_spec (sw (bits_of w) x) (sw (bits_of w) y)), (Z.leb_spec (sw (bits_of w) x) (sw (bits_of w) y)); cbn; try done; lia.
    + destruct (Z.eqb_spec (sw (bits_of w) x) (sw (bits_of w) y)), (Z.ltb_spec (sw (bits_of w) x) (sw (bits_of w) y)), (Z.ltb_spec (sw (bits_of w) y) (sw (bits_of w) x)); cbn; try done; lia.
    + destruct (Z.ltb_spec (sw (bits_of w) x) (sw (bits_of w) y)), (Z.leb_spec (sw (bits_of w) y) (sw (bits_of w) x)); cbn; try done; lia.
  - by exists CE.
  - by exists CNE.
  - by exists CNE.
  - by exists CNE.
Qed.

Definition cond_neg (c : Cond) : Cond :=
  match c with CE => CNE | CNE => CE | CL => CGE | CLE => CG | CG => CLE | CGE => CL | CBE => CA | CA => CBE | CAE => CAE | CP => CNP | CNP => CP end.

Lemma cond_neg_holds c f : c <> CAE -> cond_holds (cond_neg c) f = negb (cond_holds c f).
Proof. destruct c, f as [[] [] [] [] []]; done. Qed.

Lemma CondBrFlag_run op f b c true_bb false_bb next_bb bytes : compared op f b -> StoreCmpFlags op = Ok c -> cond_holds c f = b ->
  exists code, CondBrFlag op true_bb false_bb next_bb = Ok code /\ run bytes f code next_bb = if b then true_bb else false_bb.
Proof.
  intros Hc Hs Hb.
  assert (exists nc, CondBrFlag op true_bb false_bb next_bb = Ok (if true_bb =? next_bb then [JCC nc false_bb]
    else if false_bb =? next_bb then [JCC c true_bb] else [JCC c true_bb; JMP false_bb]) /\ cond_holds nc f = negb b) as (nc & -> & Hn).
  { exists (cond_neg c). destruct Hc as [w k x y|x y|x y|x|x]; [destruct w, k|..]; cbn in Hs; injection Hs as <-;
      (split; [reflexivity|]); rewrite <- Hb; by apply cond_neg_holds. }
  eexists. split; [done|]. destruct (Z.eqb_spec true_bb next_bb) as [<-|]; [cbn; rewrite Hn; by destruct b|].
  destruct (Z.eqb_spec false_bb next_bb) as [<-|]; cbn; rewrite Hb; by destruct b.
Qed.

Lemma SFcompare_swap x y : SFcompare y x = option_map CompOpp (SFcompare x y).
Proof.
  destruct x as [[]|[]| |[] m e], y as [[]|[]| |[] m' e']; cbn; try done.
  all: rewrite (Z.compare_antisym e e'); destruct (e ?= e') eqn:E; cbn; try done.
  all: rewrite Pos.compare_cont_antisym; cbn; by destruct (Pos.compare_cont _ _ _).
Qed.

(** NaN makes every comparison false but NE. *)
Lemma F64_flags c x y : let r := SFcompare x y in let f := F64_cmp_flags (F64_cmp_opcode c) x y in
  match c with
  | EQ => f64_cmp c x y = ZF f && negb (PF f)
  | NE => f64_cmp c x y = negb (ZF f) || PF f
  | LT | GT => f64_cmp c x y = negb (CF f) && negb (ZF f)
  | LE | GE => f64_cmp c x y = negb (CF f)
  end.
Proof.
  destruct c; cbn [F64_cmp_opcode F64_cmp_flags f64_cmp]; unfold SFeqb, SFltb, SFleb, ucomisd; rewrite ?(SFcompare_swap x y);
    destruct (SFcompare x y) as [[]|]; done.
Qed.

Lemma CondBrF64Flag_run op f b true_bb false_bb next_bb bytes : compared_f64 op f b ->
  exists code, CondBrF64Flag op true_bb false_bb = Ok code /\ run bytes f code next_bb = if b then true_bb else false_bb.
Proof.
  destruct 1 as [c x y]. pose proof (F64_flags c x y) as Hf. cbv zeta in Hf.
  set (b := f64_cmp c x y) in *. set (f := F64_cmp_flags (F64_cmp_opcode c) x y) in *. clearbody f b.
  destruct c; subst b; (eexists; split; [reflexivity|]); cbn; destruct (ZF f), (CF f), (PF f); done.
Qed.

(** What is stored for a comparison is what its branch tests. *)
Lemma StoreF64CmpFlags_value op f b : compared_f64 op f b -> StoreF64CmpFlags op f = Ok (if b then 1 else 0).
Proof.
  destruct 1 as [c x y]. pose proof (F64_flags c x y) as Hf. cbv zeta in Hf.
  set (b := f64_cmp c x y) in *. set (f := F64_cmp_flags (F64_cmp_opcode c) x y) in *. clearbody f b.
  destruct c; subst b; cbn; destruct (ZF f), (CF f), (PF f); done.
Qed.

(** [v] has the value [b] where the branch looks for it: in the flags of the comparison
    that computed it, or as a byte. *)
Definition holds_value (instructions register_assign : list Z) (v : Z) (bytes : Z -> Z) (f : Flags) (b : bool) : Prop :=
  exists (r w : Z) (op : Opcode), register_assign !! Z.to_nat v = Some r /\ instructions !! Z.to_nat v = Some w /\
    OpcodeFrom (GenericInstructionReader_Opcode w) = Some op /\
    if r =? IFlag then compared op f b
    else if r =? FFlag then compared_f64 op f b
    else bytes v = if b then 1 else 0.

Lemma cond_br_byte_run v true_bb false_bb next_bb (bytes : Z -> Z) f (b : bool) : bytes v = (if b then 1 else 0) ->
  run bytes f (cond_br_byte v true_bb false_bb next_bb) next_bb = if b then true_bb else false_bb.
Proof.
  intros Hv. unfold cond_br_byte. cbn [run]. rewrite Hv.
  destruct (Z.eqb_spec next_bb true_bb) as [<-|]; [by destruct b|]. destruct (Z.eqb_spec next_bb false_bb) as [<-|]; by destruct b.
Qed.

(** C9. Conditional branches of the x86 backend go where the condition says: whether the
    condition is still in the flags of a comparison (of integers or of doubles, NaN
    included) or is a byte, and whichever of the targets follows in the layout, the code
    emitted for CONDBR ends in the first target if the condition is true and in the second
    if not; no comparison the register allocator puts in a flag makes the translation
    throw. *)
Theorem branch_reaches_target byte_constant instructions register_assign bytes f instr next_bb b :
  OpcodeFrom (GenericInstructionReader_Opcode instr) = Some CONDBR ->
  Value_IsConstantGlobal (Type5_Arg instr) = false -> 0 <= Value_GetIdx (Type5_Arg instr) ->
  holds_value instructions register_assign (Value_GetIdx (Type5_Arg instr)) bytes f b ->
  exists code, TranslateBranch byte_constant instructions register_assign instr next_bb = Ok code /\
    run bytes f code next_bb = if b then Type5_Marg0 instr else Type5_Marg1 instr.
Proof.
  intros Hop Hc Hv (r & w & op & Hr & Hw & Ho & Hval). unfold TranslateBranch. rewrite Hop, Hc.
  rewrite (proj2 (vec_at_Ok register_assign _ r)) by done. cbn [mbind Res_bind].
  destruct (Z.eqb_spec r IFlag) as [Ei|Ei]; [|destruct (Z.eqb_spec r FFlag) as [Ef|Ef]]; cbn [orb].
  - rewrite (proj2 (vec_at_Ok instructions _ w)) by done. cbn [mbind Res_bind]. rewrite Ho. cbn [opt_ub mbind Res_bind].
    destruct (StoreCmpFlags_cond op f b Hval) as (c & Hs & Hb). by apply (CondBrFlag_run op f b c).
  - rewrite (proj2 (vec_at_Ok instructions _ w)) by done. cbn [mbind Res_bind]. rewrite Ho. cbn [opt_ub mbind Res_bind].
    by apply CondBrF64Flag_run.
  - eexists. split; [done|]. by apply cond_br_byte_run.
Qed.

Lemma branch_constant byte_constant instructions register_assign bytes f instr next_bb c :
  OpcodeFrom (GenericInstructionReader_Opcode instr) = Some CONDBR ->
  Value_IsConstantGlobal (Type5_Arg instr) = true -> byte_constant (Type5_Arg instr) = Ok c ->
  exists code, TranslateBranch byte_constant instructions register_assign instr next_bb = Ok code /\
    run bytes f code next_bb = if c =? 0 then Type5_Marg1 instr else Type5_Marg0 instr.
Proof.
  intros Hop Hc E. unfold TranslateBranch. rewrite Hop, Hc, E. cbn [mbind Res_bind]. eexists. split; [done|].
  unfold jump_to. by destruct (Z.eqb_spec (if c =? 0 then Type5_Marg1 instr else Type5_Marg0 instr) next_bb) as [<-|].
Qed.

Lemma branch_unconditional byte_constant instructions register_assign bytes f instr next_bb :
  OpcodeFrom (GenericInstructionReader_Opcode instr) = Some BR ->
  exists code, TranslateBranch byte_constant instructions register_assign instr next_bb = Ok code /\ run bytes f code next_bb = Type5_Marg0 instr.
Proof.
  intros Hop. unfold TranslateBranch. rewrite Hop. eexists. split; [done|].
  unfold jump_to. by destruct (Z.eqb_spec (Type5_Marg0 instr) next_bb) as [<-|].
Qed.

Module BranchDemo.
Definition binary (o : Opcode) (a b : Z) : Z :=
  Type2_SetArg1 (Type2_SetArg0 (Type2_SetOpcode 0 (OpcodeTo o)) a) b.
Definition condbr (v t f : Z) : Z :=
  Type5_SetMarg1 (Type5_SetMarg0 (Type5_SetArg (Type5_SetOpcode 0 (OpcodeTo CONDBR)) v) t) f.
(** 100 < -3 on a byte; the second target follows in the layout. *)
Lemma branch_reaches_target_witness :
  exists code, TranslateBranch (fun _ => UB) [binary I8_CMP_LT 5 6] [IFlag] (condbr 0 1 2) 2 = Ok code /\
    run (fun _ => 0) (cmp_flags 8 100 253) code 2 =
      if int_cmp LT (sw 8 100) (sw 8 253) then Type5_Marg0 (condbr 0 1 2) else Type5_Marg1 (condbr 0 1 2).
Proof.
  apply (branch_reaches_target (fun _ => UB) [binary I8_CMP_LT 5 6] [IFlag] (fun _ => 0) (cmp_flags 8 100 253) (condbr 0 1 2) 2
    (int_cmp LT (sw 8 100) (sw 8 253))); [reflexivity|reflexivity|vm_compute; discriminate|].
  exists IFlag, (binary I8_CMP_LT 5 6), I8_CMP_LT. repeat (split; [reflexivity|]). exact (compared_int W8 LT 100 253).
Defined.
End BranchDemo.

(** ** Layout *)

(** [LabelResult] with the counter and the visited blocks. *)
Record LabelState := MkLabels { preorder_label : list Z; postorder_label : list Z; ls_visited : list bool; ls_idx : Z }.

Fixpoint DFS (fuel : nat) (curr : Z) (bb : list BasicBlock) (st : LabelState) : Res LabelState :=
  match fuel with
  | O => NoFuel
  | S fuel =>
      pre ← vec_set (preorder_label st) curr (ls_idx st);
      visited ← vec_set (ls_visited st) curr true;
      b ← vec_at bb curr;
      st ← foldM (fun st succ =>
        v ← vec_at (ls_visited st) succ;
        if v : bool then Ok st else DFS fuel succ bb st)
        (MkLabels pre (postorder_label st) visited (ls_idx st + 1)) (Successors b);
      post ← vec_set (postorder_label st) curr (ls_idx st);
      Ok (MkLabels (preorder_label st) post (ls_visited st) (ls_idx st + 1))
  end.

Definition DFSLabel (bb : list BasicBlock) : Res LabelState :=
  let n := length bb in
  DFS (S n) 0 bb (MkLabels (replicate n (-1)) (replicate n (-1)) (replicate n false) 0).

(** [sort] is [std::sort] by descending label. *)
Definition block_order (sort : (Z -> Z) -> list Z -> list Z) (bb : list BasicBlock) : Res (list Z) :=
  labels ← DFSLabel bb;
  Ok (sort (num (postorder_label labels)) (seqZ 0 (vec_size bb))).

(** The labels follow the post-order: [st] is what [DFS] has where [POHelper] has [po]. *)
Record labels_ok (bb : list BasicBlock) (st : LabelState) (po : list bool * list Z) : Prop := {
  lb_visited : ls_visited st = po.1;
  lb_pre : length (preorder_label st) = length bb;
  lb_post : length (postorder_label st) = length bb;
  lb_length : length po.1 = length bb;
  lb_range : forall x, x ∈ po.2 -> in_range bb x;
  lb_finished : forall x, x ∈ po.2 -> del po.1 x = true;
  lb_idx : 0 <= ls_idx st;
  lb_done : forall x, in_range bb x -> x ∈ po.2 -> 0 <= num (postorder_label st) x < ls_idx st;
  lb_open : forall x, in_range bb x -> x ∉ po.2 -> num (postorder_label st) x = -1;
  lb_order : forall l1 x l2 y, po.2 = l1 ++ x :: l2 -> y ∈ l1 -> num (postorder_label st) y < num (postorder_label st) x;
}.

Lemma num_insert (l : list Z) i v x : 0 <= i < vec_size l -> 0 <= x ->
  num (<[Z.to_nat i := v]> l) x = if decide (x = i) then v else num l x.
Proof.
  unfold vec_size, num. intros Hi Hx. case_decide as E; [subst; by rewrite list_lookup_insert_eq by lia|].
  by rewrite list_lookup_insert_ne by lia.
Qed.

Lemma DFS_follows bb (He : edges_ok bb) fuel : forall curr st po, in_range bb curr -> labels_ok bb st po ->
  (count_live po.1 < fuel)%nat -> del po.1 curr = false ->
  exists st' po', POHelper fuel bb curr po = Ok po' /\ DFS fuel curr bb st = Ok st' /\ labels_ok bb st' po'.
Proof.
  induction fuel as [|fuel IH]; intros curr st po Hc Hst Hf Hnv; [lia|]. cbn [POHelper DFS].
  pose proof Hc as Hr. unfold in_range, vec_size in Hr.
  assert (curr ∉ po.2) as Hnp by (intros H%(lb_finished _ _ _ Hst); congruence).
  assert (vec_set (preorder_label st) curr (ls_idx st) = Ok (<[Z.to_nat curr := ls_idx st]> (preorder_label st))) as ->.
  { apply vec_set_Ok. unfold vec_size. rewrite (lb_pre _ _ _ Hst). split; [lia|done]. }
  cbn [mbind Res_bind]. rewrite (lb_visited _ _ _ Hst). assert (vec_set po.1 curr true = Ok (<[Z.to_nat curr := true]> po.1)) as ->.
  { apply vec_set_Ok. unfold vec_size. rewrite (lb_length _ _ _ Hst). split; [lia|done]. }
  cbn [mbind Res_bind]. rewrite (vec_at_del bb _ _ (lb_length _ _ _ Hst) Hc), Hnv. cbn [mbind Res_bind].
  destruct (block_at bb curr Hc) as (blk & -> & _ & Hsucc & _). cbn [mbind Res_bind]. rewrite Hsucc.
  set (po0 := (<[Z.to_nat curr := true]> po.1, po.2)). set (st0 := MkLabels _ _ _ _).
  assert (forall x, 0 <= x -> del po0.1 x = bool_decide (x = curr) || del po.1 x) as Hv0.
  { intros x Hx. unfold po0. cbn [fst]. rewrite del_insert; [done| |done]. unfold vec_size. rewrite (lb_length _ _ _ Hst). lia. }
  assert (S (count_live po0.1) = count_live po.1) as Hcount.
  { apply count_live_insert. unfold del in Hnv. destruct (lookup_lt_is_Some_2 po.1 (Z.to_nat curr)) as [v Hv]; [rewrite (lb_length _ _ _ Hst); lia|].
    rewrite Hv in Hnv |- *. cbn in Hnv. by subst. }
  assert (labels_ok bb st0 po0) as Hst0.
  { destruct Hst as [A1 A2 A3 A4 A5 A6 A7 A8 A9 A10]. split; cbn [st0 ls_visited preorder_label postorder_label ls_idx po0 fst snd]; try done.
    - by rewrite length_insert.
    - by rewrite length_insert.
    - intros x Hx. change (del po0.1 x = true). rewrite Hv0 by apply (A5 x Hx). rewrite A6 by done. by rewrite orb_true_r.
    - lia.
    - intros x Hx Hxp. specialize (A8 x Hx Hxp). lia. }
  assert (forall l, (forall x, x ∈ l -> in_range bb x) -> forall st po, labels_ok bb st po -> (count_live po.1 < fuel)%nat ->
    exists st' po', foldM (fun po s => POHelper fuel bb s po) po l = Ok po' /\
      foldM (fun st succ => v ← vec_at (ls_visited st) succ; if v : bool then Ok st else DFS fuel succ bb st) st l = Ok st' /\
      labels_ok bb st' po') as Hloop.
  { clear -IH He. induction l as [|x l IHl]; intros Hl st po Hst Hf; [by exists st, po|]. cbn [foldM].
    pose proof (Hl x ltac:(by left)) as Hx. rewrite (lb_visited _ _ _ Hst), (vec_at_del bb _ _ (lb_length _ _ _ Hst) Hx). cbn [mbind Res_bind].
    destruct (del po.1 x) eqn:Ev.
    - assert (POHelper fuel bb x po = Ok po) as ->.
      { destruct fuel; [lia|]. cbn [POHelper]. rewrite (vec_at_del bb _ _ (lb_length _ _ _ Hst) Hx), Ev. done. }
      cbn [mbind Res_bind]. apply IHl; [intros; apply Hl; by right|done|done].
    - destruct (POHelper_ok bb He fuel x po Hx (lb_length _ _ _ Hst) Hf) as (po1 & new & E1 & Hadd & _).
      destruct (IH x st po Hx Hst Hf Ev) as (st1 & po1' & E1' & -> & Hst1). rewrite E1 in E1'. injection E1' as <-. rewrite E1. cbn [mbind Res_bind].
      pose proof (dfs_adds_count bb _ _ _ _ (lb_length _ _ _ Hst) Hadd).
      apply IHl; [intros; apply Hl; by right|done|lia]. }
  assert (forall x, x ∈ succs bb curr -> in_range bb x) as Hsr by (intros x Hx; by apply (succs_range bb He) in Hx as [_ ?]).
  destruct (Hloop (succs bb curr) Hsr st0 po0 Hst0) as (st1 & po1 & E1 & -> & Hst1); [lia|].
  destruct (dfs_list bb He (fun s po => POHelper fuel bb s po) (succs bb curr) po0) as (po1' & new & E1' & Hadd & _); [|done|apply Hst0|].
  { intros x po2 Hx Hl2 Hc2. apply POHelper_ok; [done|by apply Hsr|done|lia]. }
  change (foldM (fun st s => POHelper fuel bb s st) (<[Z.to_nat curr:=true]> po.1, po.2) (succs bb curr)) with (foldM (fun po s => POHelper fuel bb s po) po0 (succs bb curr)).
  rewrite E1 in E1'. injection E1' as <-. rewrite E1. cbn [mbind Res_bind].
  assert (curr ∉ po1.2) as Hc1.
  { intros H. rewrite (da_result _ _ _ _ _ Hadd) in H. apply elem_of_app in H as [H|H]; [done|]. apply (da_new _ _ _ _ _ Hadd curr H). unfold visited.
    rewrite Hv0 by lia. by rewrite bool_decide_true. }
  destruct Hst1 as [A1 A2 A3 A4 A5 A6 A7 A8 A9 A10].
  assert (vec_set (postorder_label st1) curr (ls_idx st1) = Ok (<[Z.to_nat curr := ls_idx st1]> (postorder_label st1))) as ->.
  { apply vec_set_Ok. unfold vec_size. rewrite A3. split; [lia|done]. }
  cbn [mbind Res_bind]. eexists _, _. split_and!; [done|done|].
  assert (forall x, 0 <= x -> num (<[Z.to_nat curr:=ls_idx st1]> (postorder_label st1)) x = if decide (x = curr) then ls_idx st1 else num (postorder_label st1) x) as Hn.
  { intros x Hx. apply num_insert; [unfold vec_size; rewrite A3; lia|done]. }
  split; cbn [ls_visited preorder_label postorder_label ls_idx fst snd]; try done.
  - by rewrite length_insert.
  - intros x [Hx| ->%list_elem_of_singleton]%elem_of_app; [by apply A5|done].
  - intros x [Hx| ->%list_elem_of_singleton]%elem_of_app; [by apply A6|].
    apply (da_visited _ _ _ _ _ Hadd curr); [lia|left]. unfold visited. rewrite Hv0 by lia. by rewrite bool_decide_true.
  - lia.
  - intros x Hx Hxp. rewrite Hn by apply Hx. case_decide as E; [lia|]. apply elem_of_app in Hxp as [Hxp|?%list_elem_of_singleton]; [|done].
    specialize (A8 x Hx Hxp). lia.
  - intros x Hx [Hxp Hxc]%not_elem_of_app. rewrite Hn by apply Hx. rewrite decide_False by (intros ->; apply Hxc; by left). by apply A9.
  - intros l1 x l2 y E Hy. assert (forall z, z ∈ po1.2 -> num (<[Z.to_nat curr:=ls_idx st1]> (postorder_label st1)) z = num (postorder_label st1) z) as Hold.
    { intros z Hz. rewrite Hn by apply (A5 z Hz). rewrite decide_False; [done|congruence]. }
    destruct (list.last l2) as [z|] eqn:Ez.
    + apply last_Some in Ez as [l2' ->]. rewrite app_comm_cons, (assoc_L (++)) in E. apply app_inj_tail in E as [E <-].
      rewrite !Hold; [by apply (A10 l1 x l2' y)|rewrite E; apply elem_of_app; right; by left|rewrite E; apply elem_of_app; by left].
    + apply last_None in Ez as ->. apply app_inj_tail in E as [E <-]. rewrite <- E in Hy. rewrite Hold by done. rewrite Hn by lia. rewrite decide_True by done.
      by apply A8; [apply A5|].
Qed.

Lemma DFSLabel_follows bb po : edges_ok bb -> bb <> [] -> GeneratePO bb = Ok po ->
  exists st visited, DFSLabel bb = Ok st /\ labels_ok bb st (visited, po).
Proof.
  intros He Hne Epo. set (n := length bb). assert (in_range bb 0) as H0 by (unfold in_range, vec_size; destruct bb; [done|cbn; lia]).
  assert (labels_ok bb (MkLabels (replicate n (-1)) (replicate n (-1)) (replicate n false) 0) (replicate n false, [])) as Hinit.
  { split; cbn [ls_visited preorder_label postorder_label ls_idx fst snd]; try (by rewrite length_replicate); try done;
      try (by intros ? ?%not_elem_of_nil); try (by intros ? _ ?%not_elem_of_nil).
    - intros x _ _. unfold num. destruct (replicate n (-1) !! Z.to_nat x) eqn:E; [|done]. by apply lookup_replicate in E as [-> _].
    - by intros [|] ????. }
  destruct (DFS_follows bb He (S n) 0 _ _ H0 Hinit) as (st & po' & E1 & E2 & Hst).
  { cbn [fst]. pose proof (count_live_le (replicate n false)) as H. rewrite length_replicate in H. lia. }
  { unfold del. cbn [fst]. destruct (replicate n false !! Z.to_nat 0) eqn:E; [|done]. by apply lookup_replicate in E as [-> _]. }
  unfold GeneratePO in Epo. fold n in Epo. rewrite E1 in Epo. cbn in Epo. injection Epo as <-. destruct po' as [v po]. exists st, v. done.
Qed.

(** A dominator has the higher label. *)
Lemma dominates_label bb label rpo d b : order_ok bb label rpo -> b ∈ rpo -> dominates bb d b -> d <> b -> num label b < num label d.
Proof.
  intros Hord. remember (Z.to_nat (vec_size bb - num label b)) as k eqn:Ek. revert b Ek.
  induction (lt_wf k) as [k _ IH]. intros b -> Hb Hd Hne. destruct (decide (b = 0)) as [->|H0].
  - specialize (Hd [0] (path_here _ _)). by apply list_elem_of_singleton in Hd.
  - destruct (oo_parent _ _ _ Hord b Hb H0) as (p & Hp & Hs & Hlt). destruct (decide (d = p)) as [->|Hdp]; [done|].
    pose proof (oo_range _ _ _ Hord p Hp). pose proof (oo_range _ _ _ Hord b Hb).
    enough (num label p < num label d) by lia. apply (IH (Z.to_nat (vec_size bb - num label p))); [lia|done|done| |done].
    by apply (dominates_pred bb d b p).
Qed.

Record layout_sort (sort : (Z -> Z) -> list Z -> list Z) : Prop := {
  ls_perm : forall key l, sort key l ≡ₚ l;
  ls_sorted : forall key l, StronglySorted (fun a b => key b <= key a) (sort key l);
}.

Lemma sorted_precedes (key : Z -> Z) l x y : StronglySorted (fun a b => key b <= key a) l -> x ∈ l -> y ∈ l -> key y < key x ->
  exists l1 l2 l3, l = l1 ++ x :: l2 ++ y :: l3.
Proof.
  intros Hs Hx Hy Hlt. apply list_elem_of_split in Hx as (l1 & l' & ->). exists l1. apply elem_of_app in Hy as [Hy|[->|Hy]%elem_of_cons].
  - exfalso. induction l1 as [|z l1 IH]; [by apply not_elem_of_nil in Hy|]. cbn in Hs. apply StronglySorted_inv in Hs as [Hs Hz].
    apply elem_of_cons in Hy as [->|Hy]; [|by apply IH]. rewrite list.Forall_forall in Hz.
    specialize (Hz x ltac:(apply elem_of_app; right; by left)). lia.
  - lia.
  - apply list_elem_of_split in Hy as (l2 & l3 & ->). by exists l2, l3.
Qed.

(** C10. The layout of a function: for every graph [DFSLabel] ends, the order is a
    permutation of the blocks with the entry first, and a block comes after every other
    block that dominates it, so the code that computes a value, and reserves its stack slot
    if it has one, is translated before the code that uses it. *)
Theorem layout_respects_dominance sort bb : layout_sort sort -> edges_ok bb -> bb <> [] ->
  exists order, block_order sort bb = Ok order /\ order ≡ₚ seqZ 0 (vec_size bb) /\ head order = Some 0 /\
    forall d b, reachable bb b -> dominates bb d b -> d <> b -> exists l1 l2 l3, order = l1 ++ d :: l2 ++ b :: l3.
Proof.
  intros [Hperm Hsort] He Hne. destruct (order_exists bb He Hne) as (po & label & Epo & _ & Hord).
  destruct (DFSLabel_follows bb po He Hne Epo) as (st & vis & E & Hst). unfold block_order. rewrite E. cbn [mbind Res_bind].
  set (key := num (postorder_label st)). set (order := sort key (seqZ 0 (vec_size bb))).
  assert (forall x, x ∈ po <-> reachable bb x) as Hpo.
  { intros x. rewrite <- (oo_reach _ _ _ Hord), !list_elem_of_In, <- in_rev. done. }
  assert (forall x, in_range bb x -> x ∈ order) as Hin.
  { intros x Hx. unfold order. rewrite Hperm. apply elem_of_seqZ. unfold in_range in Hx. lia. }
  assert (forall d b, reachable bb b -> dominates bb d b -> d <> b -> d ∈ po /\ key b < key d) as Hkey.
  { intros d b Hb Hd Hdb. destruct (reachable_path bb b Hb) as [ns Hp].
    assert (d ∈ po) as Hdp by (apply Hpo, (proj2 (path_reachable bb 0 ns b (reach_entry bb) Hp)), Hd, Hp). split; [done|].
    pose proof (dominates_label bb label (rev po) d b Hord (proj2 (oo_reach _ _ _ Hord b) Hb) Hd Hdb) as Hlt.
    apply list_elem_of_split in Hdp as (l1 & l2 & ->). apply (lb_order _ _ _ Hst l1 d l2 b eq_refl).
    apply Hpo, elem_of_app in Hb as [Hb|[?|Hb]%elem_of_cons]; [done|by subst|].
    pose proof (oo_sorted _ _ _ Hord (rev l2) d (rev l1) b) as Ho. rewrite rev_app_distr in Ho. cbn [rev] in Ho. rewrite <- (assoc_L (++)) in Ho.
    specialize (Ho eq_refl ltac:(rewrite list_elem_of_In, <- in_rev; by apply list_elem_of_In)). lia. }
  assert (forall d b, reachable bb b -> dominates bb d b -> d <> b -> exists l1 l2 l3, order = l1 ++ d :: l2 ++ b :: l3) as Hbefore.
  { intros d b Hb Hd Hdb. destruct (Hkey d b Hb Hd Hdb) as [Hdp Hlt]. apply (sorted_precedes key); [apply Hsort|apply Hin, (lb_range _ _ _ Hst d Hdp)| |done].
    by apply Hin, reachable_range. }
  exists order. split_and!; [done|apply Hperm| |done]. pose proof (Hin 0 (reachable_range bb 0 He Hne (reach_entry bb))) as H0.
  assert (forall b, dominates bb 0 b) as Hdom0 by (intros b ns Hp; by apply (path_ends _ _ _ _ Hp)).
  destruct order as [|x l] eqn:El; [by apply not_elem_of_nil in H0|]. cbn. f_equal. destruct (decide (x = 0)) as [|Hx0]; [done|]. exfalso.
  assert (NoDup (x :: l)) as Hnd by (rewrite <- El; unfold order; rewrite Hperm; apply NoDup_seqZ).
  assert (in_range bb x) as Hxr.
  { assert (x ∈ order) as Hx by (rewrite El; by left). unfold order in Hx. rewrite Hperm in Hx. apply elem_of_seqZ in Hx. unfold in_range. lia. }
  destruct (decide (x ∈ po)) as [Hx|Hx].
  - destruct (Hbefore 0 x) as (l1 & l2 & l3 & E'); [by apply Hpo|done|done|]. apply list.NoDup_cons in Hnd as [Hno _].
    destruct l1 as [|y l1]; cbn in E'; [by injection E'|]. injection E' as _ ->. apply Hno, elem_of_app. right. right. apply elem_of_app. right. by left.
  - apply elem_of_cons in H0 as [?|H0]; [done|]. pose proof (Hsort key (seqZ 0 (vec_size bb))) as Hs. fold order in Hs. rewrite El in Hs.
    apply StronglySorted_inv in Hs as [_ Hs]. rewrite list.Forall_forall in Hs. specialize (Hs 0 H0).
    assert (0 <= key 0) by (apply (lb_done _ _ _ Hst); [by apply reachable_range; [..|constructor]|apply Hpo; constructor]).
    assert (key x = -1) by (by apply (lb_open _ _ _ Hst)). lia.
Qed.

Definition by_label (key : Z -> Z) (a b : Z) : Prop := key b <= key a.
#[export] Instance by_label_dec key : RelDecision (by_label key).
Proof. intros a b. unfold by_label. apply _. Defined.
Definition sort_labels (key : Z -> Z) : list Z -> list Z := merge_sort (by_label key).
Lemma sort_labels_ok : layout_sort sort_labels.
Proof.
  split; intros key l; [apply merge_sort_Permutation|].
  assert (Transitive (by_label key)) by (intros a b c; unfold by_label; lia). assert (Total (by_label key)) by (intros a b; unfold by_label; lia).
  apply (StronglySorted_merge_sort (by_label key)).
Qed.

Lemma layout_respects_dominance_witness :
  exists order, block_order sort_labels nested = Ok order /\ order ≡ₚ seqZ 0 (vec_size nested) /\ head order = Some 0 /\
    forall d b, reachable nested b -> dominates nested d b -> d <> b -> exists l1 l2 l3, order = l1 ++ d :: l2 ++ b :: l3.
Proof. apply (layout_respects_dominance sort_labels nested); [apply sort_labels_ok|apply CfgDemo.edges_check_ok; reflexivity|done]. Defined.

Example nested_order : block_order sort_labels nested = Ok [0; 1; 5; 2; 4; 3].
Proof. vm_compute. reflexivity. Qed.

(** ** The stack frame *)
(** The state of a [StackSlotAllocator] is its [size_]. *)
Definition StackSlotAllocator_new : Z := 0.

(** [AllocateSlot(bytes)] and [AllocateSlot(bytes, align)] return the slot and the new size. *)
Definition AllocateSlot (size_ : Z) (bytes : Z) : Res (Z * Z) :=
  s ← signed_result 32 (size_ + bytes); Ok (size_, s).
Definition AllocateSlot_aligned (size_ : Z) (bytes align : Z) : Res (Z * Z) :=
  size_ ← (if Z.rem size_ align =? 0 then Ok size_ else signed_result 32 (size_ + (align - Z.rem size_ align)));
  s ← signed_result 32 (size_ + bytes); Ok (size_, s).

(** The registers pushed by the prologue. *)
Definition callee_saved_registers : Z := 5.

Definition stack_frame_size (size_ : Z) : Z :=
  let frame := size_ + 8 * callee_saved_registers in
  if frame mod 32 =? 0 then frame else frame + (32 - frame mod 32).
Definition stack_alloc_size (size_ : Z) : Z := stack_frame_size size_ - 8 * callee_saved_registers.

(** [rsp] after the prologue: push rbp, align, push the saved registers, reserve. *)
Definition prologue_rsp (rsp size_ : Z) : Z :=
  let rbp := rsp - 8 in
  Z.land rbp (-32) - 8 * callee_saved_registers - stack_alloc_size size_.

(** A slot is requested with a size and, for vectors, an alignment. *)
Fixpoint allocate_slots (size_ : Z) (requests : list (Z * option Z)) : Res (list Z * Z) :=
  match requests with
  | [] => Ok ([], size_)
  | (bytes, align) :: requests =>
      '(slot, size_) ← match align with Some a => AllocateSlot_aligned size_ bytes a | None => AllocateSlot size_ bytes end;
      '(slots, size_) ← allocate_slots size_ requests;
      Ok (slot :: slots, size_)
  end.

Definition request_ok (r : Z * option Z) : Prop := 0 <= r.1 /\ (forall a, r.2 = Some a -> 0 < a /\ (a | 32)).
Definition slot_ok (rsp lo hi : Z) (r : Z * option Z) (slot : Z) : Prop :=
  lo <= slot /\ slot + r.1 <= hi /\ forall a, r.2 = Some a -> (rsp + slot) mod a = 0.

Lemma align_up x a : 0 <= x -> 0 < a -> let y := if Z.rem x a =? 0 then x else x + (a - Z.rem x a) in x <= y < x + a /\ y mod a = 0.
Proof.
  intros Hx Ha. rewrite Z.rem_mod_nonneg by lia. pose proof (Z.mod_pos_bound x a Ha). cbv zeta. destruct (Z.eqb_spec (x mod a) 0); [lia|].
  split; [lia|]. replace (x + (a - x mod a)) with ((x / a + 1) * a) by (pose proof (Z_div_mod_eq_full x a); lia). apply Z_mod_mult.
Qed.

(** Room for the requests, with the most alignment can cost. *)
Definition room (requests : list (Z * option Z)) : Z := foldr (fun r n => r.1 + 32 + n) 0 requests.

Lemma allocate_one rsp r size_ : rsp mod 32 = 0 -> request_ok r -> 0 <= size_ -> size_ + (r.1 + 32) < 2 ^ 31 ->
  exists slot size', (match r.2 with Some a => AllocateSlot_aligned size_ r.1 a | None => AllocateSlot size_ r.1 end) = Ok (slot, size') /\
    size' = slot + r.1 /\ size_ <= slot <= size_ + 32 /\ slot_ok rsp size_ size' r slot.
Proof.
  intros Hrsp [Hb Ha] Hs Hr. destruct r as [bytes [a|]]; cbn [fst snd] in *.
  - destruct (Ha a eq_refl) as [Ha0 Hdiv]. assert (a <= 32) by (by apply Z.divide_pos_le). pose proof (align_up size_ a Hs Ha0) as [Hx Hm].
    unfold AllocateSlot_aligned. set (y := if Z.rem size_ a =? 0 then size_ else size_ + (a - Z.rem size_ a)) in *.
    assert ((if Z.rem size_ a =? 0 then Ok size_ else signed_result 32 (size_ + (a - Z.rem size_ a))) = Ok y) as ->.
    { unfold y in *. destruct (Z.rem size_ a =? 0); [done|]. apply signed_result_id. unfold is_sw. change (2 ^ (32 - 1)) with (2 ^ 31). lia. }
    cbn [mbind Res_bind]. rewrite signed_result_id by (unfold is_sw; change (2 ^ (32 - 1)) with (2 ^ 31); lia). cbn [mbind Res_bind].
    exists y, (y + bytes). split_and!; [done|done|lia|lia|]. split_and!; cbn [fst snd]; [lia|lia|]. intros a' [= <-].
    rewrite Z.add_mod, Hm, Z.add_0_r by lia. rewrite Z.mod_mod by lia. apply Z.mod_divide; [lia|]. transitivity 32; [done|]. by apply Z.mod_divide.
  - unfold AllocateSlot. rewrite signed_result_id by (unfold is_sw; change (2 ^ (32 - 1)) with (2 ^ 31); lia). cbn [mbind Res_bind].
    exists size_, (size_ + bytes). split_and!; [done|done|lia|lia|]. split_and!; cbn [fst snd]; [lia|lia|done].
Qed.

Lemma allocate_slots_ok rsp requests : rsp mod 32 = 0 -> Forall request_ok requests -> forall size_, 0 <= size_ -> size_ + room requests < 2 ^ 31 ->
  exists slots size', allocate_slots size_ requests = Ok (slots, size') /\ size_ <= size' <= size_ + room requests /\
    Forall2 (slot_ok rsp size_ size') requests slots /\
    forall i j r s s', (i < j)%nat -> requests !! i = Some r -> slots !! i = Some s -> slots !! j = Some s' -> s + r.1 <= s'.
Proof.
  intros Hrsp. induction 1 as [|r requests Hr Hrs IH]; intros size_ Hs Hroom.
  - exists [], size_. cbn. split_and!; [done|lia|lia|constructor|done].
  - cbn in Hroom. fold (room requests) in Hroom. assert (0 <= room requests) as Hpos.
    { clear -Hrs. induction Hrs as [|q l [Hq _] _ IH]; [done|]. cbn. fold (room l). lia. }
    destruct (allocate_one rsp r size_ Hrsp Hr Hs) as (slot & size1 & E1 & -> & Hslot & Hok); [lia|]. destruct Hr as [Hb _].
    destruct (IH (slot + r.1)) as (slots & size' & E2 & Hsz & Hall & Hord); [lia|lia|].
    exists (slot :: slots), size'. destruct r as [bytes align]. cbn [allocate_slots fst snd] in *. rewrite E1. cbn [mbind Res_bind]. rewrite E2. cbn [mbind Res_bind].
    split_and!; [done|lia|cbn; fold (room requests); lia| |].
    + constructor; [destruct Hok as (? & ? & ?); split_and!; cbn [fst snd] in *; [lia|lia|done]|].
      eapply (list.Forall2_impl _ _ _ _ Hall). intros q s (? & ? & ?). split_and!; [lia|lia|done].
    + intros [|i] [|j] q s s' Hij Hq Hi Hj; cbn in *; [lia| |lia|by apply (Hord i j); [lia|..]]. injection Hq as <-. injection Hi as <-.
      destruct (Forall2_lookup_r _ _ _ _ _ Hall Hj) as (q' & _ & Hq' & _). cbn. exact Hq'.
Qed.

(** C11. The frame: the stack pointer is a multiple of 32 after the prologue, every slot
    lies in the reserved space below the saved registers, slots do not overlap, and a slot
    requested with an alignment has an aligned address, so that the 32-byte moves of
    vector values do not fault. *)
Theorem frame_layout rsp requests : 0 <= rsp -> Forall request_ok requests -> room requests < 2 ^ 31 ->
  exists slots size_, allocate_slots StackSlotAllocator_new requests = Ok (slots, size_) /\
    prologue_rsp rsp size_ mod 32 = 0 /\
    prologue_rsp rsp size_ + stack_alloc_size size_ + 8 * callee_saved_registers <= rsp - 8 /\
    Forall2 (slot_ok (prologue_rsp rsp size_) 0 (stack_alloc_size size_)) requests slots /\
    forall i j r s s', (i < j)%nat -> requests !! i = Some r -> slots !! i = Some s -> slots !! j = Some s' -> s + r.1 <= s'.
Proof.
  intros Hrsp Hreq Hroom.
  assert (forall size_, (prologue_rsp rsp size_) mod 32 = 0 /\ prologue_rsp rsp size_ + stack_alloc_size size_ + 8 * callee_saved_registers <= rsp - 8) as Hp.
  { intros size_. unfold prologue_rsp, stack_alloc_size, stack_frame_size, callee_saved_registers.
    set (frame := size_ + 8 * 5). assert (Z.land (rsp - 8) (-32) = (rsp - 8) - (rsp - 8) mod 32) as ->.
    { change (-32) with (Z.lnot (Z.ones 5)). rewrite <- Z.ldiff_land. rewrite Z.ldiff_ones_r by lia. rewrite Z.shiftl_mul_pow2, Z.shiftr_div_pow2 by lia.
      change (2 ^ 5) with 32. pose proof (Z_div_mod_eq_full (rsp - 8) 32). lia. }
    pose proof (Z_div_mod_eq_full frame 32). pose proof (Z_div_mod_eq_full (rsp - 8) 32). pose proof (Z.mod_pos_bound frame 32 ltac:(lia)).
    pose proof (Z.mod_pos_bound (rsp - 8) 32 ltac:(lia)). split.
    - destruct (Z.eqb_spec (frame mod 32) 0).
      + replace (_ - _ - _ - _) with (((rsp - 8) / 32 - frame / 32) * 32) by lia. apply Z_mod_mult.
      + replace (_ - _ - _ - _) with (((rsp - 8) / 32 - frame / 32 - 1) * 32) by lia. apply Z_mod_mult.
    - lia. }
  destruct (allocate_slots_ok 0 requests eq_refl Hreq 0) as (slots & size_ & E & Hsz & Hall & Hord); [lia|lia|].
  exists slots, size_. destruct (Hp size_) as [Hm Hle]. split_and!; [done|done|done| |done].
  destruct (allocate_slots_ok (prologue_rsp rsp size_) requests Hm Hreq 0) as (slots' & size' & E' & _ & Hall' & _); [lia|lia|].
  rewrite E in E'. injection E' as <- <-. eapply (list.Forall2_impl _ _ _ _ Hall'). intros r s (H1 & H2 & H3). split_and!; [lia| |done].
  unfold stack_alloc_size, stack_frame_size, callee_saved_registers. pose proof (Z.mod_pos_bound (size_ + 8 * 5) 32 ltac:(lia)). destruct (_ =? _); lia.
Qed.

Lemma frame_layout_witness :
  exists slots size_, allocate_slots StackSlotAllocator_new [(8, None); (32, Some 32); (8, None)] = Ok (slots, size_) /\
    prologue_rsp 140733193388000 size_ mod 32 = 0 /\
    prologue_rsp 140733193388000 size_ + stack_alloc_size size_ + 8 * callee_saved_registers <= 140733193388000 - 8 /\
    Forall2 (slot_ok (prologue_rsp 140733193388000 size_) 0 (stack_alloc_size size_)) [(8, None); (32, Some 32); (8, None)] slots /\
    forall i j r s s', (i < j)%nat -> [(8, None); (32, Some 32); (8, None)] !! i = Some r -> slots !! i = Some s -> slots !! j = Some s' -> s + r.1 <= s'.
Proof.
  apply (frame_layout 140733193388000 [(8, None); (32, Some 32); (8, None)]); [lia| |reflexivity].
  apply list.Forall_forall. intros r Hr. assert (r = (8, None) \/ r = (32, Some 32)) as [-> | ->] by set_solver.
  - split; [done|]. intros a [=].
  - split; [done|]. intros a [= <-]. split; [done|]. by exists 1.
Defined.

(** ** Registers *)

(** [LinearScanRegisterAlloc] with the loop depths it computes. *)
Definition AllocateRegisters (pick : gset Z -> Z) (sort : list LiveInterval -> list LiveInterval) (sort_loops : (Z -> nat) -> list Z -> list Z)
    (instrs : list Z) (materialize_gep : list bool) (bb : list BasicBlock) : Res (list Z) :=
  loop_depth ← LoopDepths sort_loops bb;
  LinearScanRegisterAlloc pick sort instrs materialize_gep bb loop_depth.

(** Register allocation with the depths of the real loops returns and is sound. *)
Theorem allocate_registers_sound pick sort sort_loops instrs mat bbs E ts
    (pick_in : forall s : gset Z, s <> ∅ -> pick s ∈ s)
    (sort_perm : forall l, sort l ≡ₚ l)
    (sort_sorted : forall l, StronglySorted by_start (sort l)) :
  sort_ok sort_loops -> bbs <> [] -> code_ok instrs mat bbs E ts ->
  exists asg, AllocateRegisters pick sort sort_loops instrs mat bbs = Ok asg /\ regalloc_ok instrs bbs E ts asg.
Proof.
  intros Hs Hne Hck. destruct (FindLoops_encloses sort_loops bbs Hs (ck_edges _ _ _ _ _ Hck) Hne) as (_ & _ & _ & _ & _ & _ & _ & ds & Ed & Hl & _).
  unfold AllocateRegisters. rewrite Ed. cbn [mbind Res_bind]. by apply LinearScanRegisterAlloc_ok.
Qed.
