(* ===== verification/Date.v ===== *)
(** * Dates

    src/runtime/date.cc: a date is stored as its Julian day number.  [BuildDate]
    and [SplitDate] are in 32-bit arithmetic; on the dates of the proleptic
    Gregorian calendar they are inverse to each other and keep the order. *)
From S2P Require Import Prelude.

(** ** The model *)
Record DateBuilder : Set := MkDate { year : Z; month : Z; day : Z }.

(** The arithmetic is unsigned; [julian] and [century] are signed variables. *)
Definition BuildDate (year month day : Z) : Z :=
  let '(month, year) :=
    if 2 <? month then (u32 (month + 1), u32 (year + 4800))
    else (u32 (month + 13), u32 (year + 4799)) in
  let century := i32 (year / 100) in
  let julian := i32 (u32 (u32 (year * 365) - 32167)) in
  let julian := i32 (julian + u32 (year / 4 - century + Z.quot century 4)) in
  let julian := i32 (julian + u32 (u32 (7834 * month) / 256 + day)) in
  u32 julian.

Definition Build (d : DateBuilder) : Z := BuildDate (u32 (year d)) (u32 (month d)) (u32 (day d)).

Definition SplitDate (jd : Z) : DateBuilder :=
  let julian := u32 (u32 jd + 32044) in
  let quad := julian / 146097 in
  let extra := u32 (u32 (julian - quad * 146097) * 4 + 3) in
  let julian := u32 (julian + u32 (60 + quad * 3 + extra / 146097)) in
  let quad := julian / 1461 in
  let julian := u32 (julian - quad * 1461) in
  let y := i32 (u32 (julian * 4) / 1461) in
  let julian := u32 ((if negb (y =? 0) then u32 (julian + 305) mod 365 else u32 (julian + 306) mod 366) + 123) in
  let y := i32 (u32 y + u32 (quad * 4)) in
  let quad := u32 (julian * 2141) / 65536 in
  MkDate (y - 4800) (i32 ((quad + 10) mod 12 + 1)) (i32 (u32 (julian - u32 (7834 * quad) / 256))).

Definition ExtractYear (value : Z) : Z := year (SplitDate value).

(** ** The calendar *)
Definition leap (y : Z) : bool := (y mod 4 =? 0) && (negb (y mod 100 =? 0) || (y mod 400 =? 0)).
Definition days_in_month (y m : Z) : Z :=
  if m =? 2 then (if leap y then 29 else 28)
  else if (m =? 4) || (m =? 6) || (m =? 9) || (m =? 11) then 30 else 31.

(** A date of the calendar. *)
Definition valid_date (d : DateBuilder) : bool :=
  (1 <=? month d) && (month d <=? 12) && (1 <=? day d) && (day d <=? days_in_month (year d) (month d)).

Definition next_day (d : DateBuilder) : DateBuilder :=
  if day d <? days_in_month (year d) (month d) then MkDate (year d) (month d) (day d + 1)
  else if month d <? 12 then MkDate (year d) (month d + 1) 1
  else MkDate (year d + 1) 1 1.

Definition date_lt (a b : DateBuilder) : Prop :=
  year a < year b \/ year a = year b /\ (month a < month b \/ month a = month b /\ day a < day b).

(** The years in which no intermediate result wraps around. *)
Definition year_ok (y : Z) : Prop := -4799 <= y <= 5000000.

(** ** Without machine widths *)
Definition build_z (y m d : Z) : Z :=
  let '(m, y) := if 2 <? m then (m + 1, y + 4800) else (m + 13, y + 4799) in
  y * 365 - 32167 + (y / 4 - y / 100 + y / 100 / 4) + 7834 * m / 256 + d.

Definition split_z (j : Z) : DateBuilder :=
  let julian := j + 32044 in
  let quad := julian / 146097 in
  let extra := (julian - quad * 146097) * 4 + 3 in
  let julian := julian + 60 + quad * 3 + extra / 146097 in
  let quad := julian / 1461 in
  let julian := julian - quad * 1461 in
  let y := julian * 4 / 1461 in
  let julian := (if negb (y =? 0) then (julian + 305) mod 365 else (julian + 306) mod 366) + 123 in
  let y := y + quad * 4 in
  let quad := julian * 2141 / 65536 in
  MkDate (y - 4800) ((quad + 10) mod 12 + 1) (julian - 7834 * quad / 256).

(** ** Years from March *)

(** The day that is [doy] days after the first of March of year [yr] - 4800; a
    year has a day 365 only if the February it ends with has 29 days. *)
Definition day_no (yr doy : Z) : Z := 365 * yr + yr / 4 - yr / 100 + yr / 400 + doy.
Definition in_year (yr doy : Z) : Prop := 0 <= doy <= 365 /\ (doy = 365 -> leap (yr + 1) = true).

Lemma leap_spec y : leap y = true <-> y mod 4 = 0 /\ (y mod 100 <> 0 \/ y mod 400 = 0).
Proof.
  unfold leap. rewrite andb_true_iff, orb_true_iff, negb_true_iff, !Z.eqb_eq, Z.eqb_neq. done.
Qed.

Lemma leap_shift y : leap (y + 4800) = leap y.
Proof.
  apply eq_true_iff_eq. rewrite !leap_spec. Z.to_euclidean_division_equations. lia.
Qed.

Lemma day_no_lt y1 d1 y2 d2 : in_year y1 d1 -> in_year y2 d2 -> y1 < y2 -> day_no y1 d1 < day_no y2 d2.
Proof.
  intros [H1 H1'] [H2 _] Hy. unfold day_no.
  assert (d1 < 365 \/ (y1 + 1) mod 4 = 0 /\ ((y1 + 1) mod 100 <> 0 \/ (y1 + 1) mod 400 = 0)) as Hd.
  { destruct (decide (d1 = 365)) as [->|]; [right; by apply leap_spec, H1'|lia]. }
  clear H1'. Z.to_euclidean_division_equations. lia.
Qed.

(** The steps of [split_z]. *)
Section Steps.
Context (yr doy : Z) (Hyr : 0 <= yr) (Hin : in_year yr doy).

Lemma in_year_leap : 0 <= doy <= 365 /\
  (doy < 365 \/ (yr + 1) mod 4 = 0 /\ ((yr + 1) mod 100 <> 0 \/ (yr + 1) mod 400 = 0)).
Proof using Hin.
  destruct Hin as [H1 H1']. split; [done|].
  destruct (decide (doy = 365)) as [->|]; [right; by apply leap_spec, H1'|lia].
Qed.

Lemma split_quad : day_no yr doy / 146097 = yr / 400.
Proof using Hin Hyr.
  pose proof in_year_leap. unfold day_no. clear Hin. Z.to_euclidean_division_equations. lia.
Qed.

(** The corrections of the centuries are undone. *)
Lemma split_centuries :
  day_no yr doy + 60 + yr / 400 * 3 + ((day_no yr doy - yr / 400 * 146097) * 4 + 3) / 146097 =
  365 * yr + yr / 4 + doy + 60.
Proof using Hin Hyr.
  assert (((day_no yr doy - yr / 400 * 146097) * 4 + 3) / 146097 = (yr mod 400) / 100) as ->;
    pose proof in_year_leap; unfold day_no; clear Hin; Z.to_euclidean_division_equations; lia.
Qed.

(** The calendar year that the day is in. *)
Definition cal_year : Z := if doy <? 306 then yr else yr + 1.

Lemma split_years (julian := 365 * yr + yr / 4 + doy + 60) :
  julian / 1461 = cal_year / 4 /\ (julian - cal_year / 4 * 1461) * 4 / 1461 = cal_year mod 4.
Proof using Hin Hyr.
  pose proof in_year_leap. unfold cal_year. subst julian. clear Hin.
  destruct (Z.ltb_spec doy 306); split; Z.to_euclidean_division_equations; lia.
Qed.

Lemma split_doy (julian := 365 * yr + yr / 4 + doy + 60 - cal_year / 4 * 1461) :
  (if negb (cal_year mod 4 =? 0) then (julian + 305) mod 365 else (julian + 306) mod 366) = doy.
Proof using Hin Hyr.
  pose proof in_year_leap as H. unfold cal_year in *. subst julian. clear Hin.
  destruct (Z.ltb_spec doy 306).
  - destruct (Z.eqb_spec (yr mod 4) 0); cbn [negb]; Z.to_euclidean_division_equations; lia.
  - destruct (Z.eqb_spec ((yr + 1) mod 4) 0); cbn [negb]; Z.to_euclidean_division_equations; lia.
Qed.
End Steps.

(** The months of such a year have the numbers 4 to 15. *)
Definition month_doy (mo d : Z) : Z := 7834 * mo / 256 + d - 123.
Definition in_month (yr mo d : Z) : Prop :=
  4 <= mo <= 15 /\ 1 <= d /\
  d <= (if mo =? 15 then if leap (yr + 1) then 29 else 28
        else if (mo =? 5) || (mo =? 7) || (mo =? 10) || (mo =? 12) then 30 else 31).

Lemma month_cases mo : 4 <= mo <= 15 -> In mo [4; 5; 6; 7; 8; 9; 10; 11; 12; 13; 14; 15].
Proof. cbn. lia. Qed.

Ltac each_month H := apply month_cases in H; cbn [In] in H; repeat destruct H as [<-|H].

Lemma in_month_bounds yr mo d : in_month yr mo d -> 4 <= mo <= 15 /\ 1 <= d <= 31 /\
  (mo = 15 -> d <= 28 \/ d = 29 /\ leap (yr + 1) = true) /\ (mo = 5 \/ mo = 7 \/ mo = 10 \/ mo = 12 -> d <= 30).
Proof.
  intros (Hm & H1 & H2). split; [done|]. split; [repeat case_match; lia|]. split.
  - intros ->. cbn in H2. case_match; [|lia]. destruct (decide (d = 29)); [by right|lia].
  - intros [->|[->|[->| ->]]]; cbn in H2; lia.
Qed.

Lemma split_month yr mo d (j := month_doy mo d + 123) : in_month yr mo d ->
  j * 2141 / 65536 = mo /\ j - 7834 * mo / 256 = d.
Proof.
  intros (Hm & H1 & H2 & H3)%in_month_bounds. subst j. unfold month_doy. split; [|lia].
  assert (mo = 15 -> d <= 29) by (intros; lia). clear H2.
  each_month Hm; Z.to_euclidean_division_equations; lia.
Qed.

Lemma month_in_year yr mo d : in_month yr mo d ->
  in_year yr (month_doy mo d) /\ (month_doy mo d < 306 <-> mo < 14).
Proof.
  intros (Hm & H1 & H2 & H3)%in_month_bounds. unfold in_year, month_doy.
  destruct (decide (mo = 15)) as [->|].
  - destruct (H2 eq_refl) as [|[-> ->]]; split; try (split; [|done]); Z.to_euclidean_division_equations; lia.
  - clear H2. each_month Hm; split; Z.to_euclidean_division_equations; lia.
Qed.

(** A date of the calendar in years from March. *)
Definition shift_year (d : DateBuilder) : Z := if 2 <? month d then year d + 4800 else year d + 4799.
Definition shift_month (d : DateBuilder) : Z := if 2 <? month d then month d + 1 else month d + 13.

Lemma valid_month d : valid_date d = true -> in_month (shift_year d) (shift_month d) (day d).
Proof.
  destruct d as [y m d]. unfold valid_date, in_month, shift_year, shift_month. cbn.
  rewrite !andb_true_iff, !Z.leb_le. unfold days_in_month. intros [[[H1 H2] H3] H4].
  destruct (Z.ltb_spec 2 m).
  - assert ((m + 1 =? 15) = false) as -> by lia. assert ((m =? 2) = false) as E by lia. rewrite E in H4.
    replace (m + 1 =? 5) with (m =? 4) by lia. replace (m + 1 =? 7) with (m =? 6) by lia.
    replace (m + 1 =? 10) with (m =? 9) by lia. replace (m + 1 =? 12) with (m =? 11) by lia.
    split_and!; [lia..|done].
  - assert (m = 1 \/ m = 2) as [->| ->] by lia; cbn in H4; (split; [lia|]); (split; [lia|]).
    { by change (1 + 13) with 14. }
    change (2 + 13) with 15. cbn.
    replace (y + 4799 + 1) with (y + 4800) by lia. by rewrite leap_shift.
Qed.

Lemma build_z_day d : build_z (year d) (month d) (day d) =
  day_no (shift_year d) (month_doy (shift_month d) (day d)) - 32044.
Proof.
  unfold build_z, day_no, month_doy, shift_year, shift_month.
  destruct (2 <? month d); Z.to_euclidean_division_equations; lia.
Qed.

Lemma split_build_z d : valid_date d = true -> -4799 <= year d -> split_z (build_z (year d) (month d) (day d)) = d.
Proof.
  intros Hv Hy. pose proof (valid_month d Hv) as Hm. destruct (month_in_year _ _ _ Hm) as [Hin Hcal].
  assert (0 <= shift_year d) as Hyr by (unfold shift_year; case_match; lia).
  rewrite build_z_day. unfold split_z. rewrite Z.sub_add, split_quad, split_centuries by done.
  destruct (split_years _ _ Hyr Hin) as [-> ->]. rewrite split_doy by done.
  destruct (split_month _ _ _ Hm) as [-> ->]. destruct d as [y m d]. cbn in *.
  unfold cal_year. revert Hcal. unfold shift_year, shift_month. cbn. intros Hcal.
  apply andb_true_iff in Hv as [[[H1 H2]%andb_true_iff _]%andb_true_iff _]. cbn in H1, H2.
  destruct (Z.ltb_spec 2 m); match goal with |- context [?j <? 306] => destruct (Z.ltb_spec j 306) end.
  all: f_equal; Z.to_euclidean_division_equations; lia.
Qed.

(** ** At machine width *)
Lemma u32_add x y : u32 (u32 x + y) = u32 (x + y).
Proof. unfold uw. by rewrite Zplus_mod_idemp_l. Qed.

Lemma i32_add x y : i32 (i32 x + u32 y) = i32 (x + y).
Proof.
  rewrite <- (sw_uw 32), <- (uw_add 32 (i32 x)), uw_sw, uw_idemp, uw_add by lia. apply sw_uw.
Qed.

Lemma build_z_bound d : valid_date d = true -> year_ok (year d) ->
  -32044 <= build_z (year d) (month d) (day d) < 2 ^ 31 - 2 ^ 20.
Proof.
  intros Hv Hy. pose proof (valid_month d Hv) as Hm. destruct (month_in_year _ _ _ Hm) as [[Hin _] _].
  rewrite build_z_day. revert Hin. generalize (month_doy (shift_month d) (day d)) as doy. intros doy Hin.
  unfold day_no, shift_year, year_ok in *. destruct (2 <? month d); Z.to_euclidean_division_equations; lia.
Qed.

Lemma build_core yr mo d : 0 <= yr < 2 ^ 23 -> 4 <= mo <= 15 -> 1 <= d <= 31 ->
  let century := i32 (yr / 100) in
  let julian := i32 (u32 (u32 (yr * 365) - 32167)) in
  let julian := i32 (julian + u32 (yr / 4 - century + Z.quot century 4)) in
  i32 (u32 (i32 (julian + u32 (u32 (7834 * mo) / 256 + d)))) =
  i32 (yr * 365 - 32167 + (yr / 4 - yr / 100 + yr / 100 / 4) + 7834 * mo / 256 + d).
Proof.
  intros Hy Hm Hd century. cbv zeta.
  assert (century = yr / 100) as ->.
  { apply sw_id; [done|]. unfold is_sw. Z.to_euclidean_division_equations. lia. }
  rewrite Z.quot_div_nonneg by (Z.to_euclidean_division_equations; lia).
  rewrite (uw_id 32 (7834 * mo)) by (unfold is_uw; lia).
  assert (i32 (u32 (u32 (yr * 365) - 32167)) = i32 (yr * 365 - 32167)) as ->.
  { rewrite sw_uw. unfold Z.sub. rewrite <- (sw_uw 32), u32_add. apply sw_uw. }
  rewrite (i32_add (yr * 365 - 32167)), i32_add, (sw_uw 32).
  rewrite (sw_id 32 (i32 _)); [f_equal; lia|lia|apply sw_range; lia].
Qed.

Lemma Build_z d : valid_date d = true -> year_ok (year d) -> i32 (Build d) = build_z (year d) (month d) (day d).
Proof.
  intros Hv Hy. pose proof (build_z_bound d Hv Hy) as Hb. pose proof (valid_month d Hv) as (_ & Hd1 & _).
  assert (1 <= month d <= 12 /\ day d <= 31) as [Hm Hd].
  { unfold valid_date, days_in_month in Hv. rewrite !andb_true_iff, !Z.leb_le in Hv. repeat case_match; lia. }
  destruct d as [y m d]. unfold year_ok in Hy. cbn in Hv, Hy, Hm, Hd, Hd1. unfold Build, BuildDate. cbn [year month day].
  rewrite (uw_id 32 m), (uw_id 32 d), !u32_add by (unfold is_uw; lia).
  revert Hb. unfold build_z. cbn [year month day]. destruct (Z.ltb_spec 2 m); intros Hb.
  - rewrite (uw_id 32 (m + 1)), (uw_id 32 (y + 4800)) by (unfold is_uw; lia).
    rewrite build_core by lia. apply sw_id; [done|]. unfold is_sw. lia.
  - rewrite (uw_id 32 (m + 13)), (uw_id 32 (y + 4799)) by (unfold is_uw; lia).
    rewrite build_core by lia. apply sw_id; [done|]. unfold is_sw. lia.
Qed.

Lemma SplitDate_z j : -32044 <= j < 2 ^ 31 - 2 ^ 20 -> SplitDate j = split_z j.
Proof.
  intros Hj. unfold SplitDate, split_z.
  rewrite (u32_add j 32044), (uw_id 32 (j + 32044)) by (unfold is_uw; lia).
  set (J := j + 32044). assert (0 <= J < 2 ^ 31 - 2 ^ 19) as HJ by lia. clearbody J. clear Hj.
  set (q := J / 146097). assert (0 <= q <= 20000 /\ 0 <= J - q * 146097 < 146097) as [Hq Hr].
  { subst q. Z.to_euclidean_division_equations. lia. }
  rewrite (uw_id 32 (J - _)), (uw_id 32 ((J - _) * 4 + 3)) by (unfold is_uw; lia).
  set (c := ((J - q * 146097) * 4 + 3) / 146097). assert (0 <= c <= 3) as Hc.
  { subst c. Z.to_euclidean_division_equations. lia. }
  clearbody c. rewrite (uw_id 32 (60 + q * 3 + c)), (uw_id 32 (J + (60 + q * 3 + c))) by (unfold is_uw; lia).
  replace (J + (60 + q * 3 + c)) with (J + 60 + q * 3 + c) by lia.
  set (K := J + 60 + q * 3 + c). assert (0 <= K < 2 ^ 31) as HK by lia. clearbody K. clear q Hq Hr J HJ c Hc.
  set (q := K / 1461). assert (0 <= q <= 2000000 /\ 0 <= K - q * 1461 < 1461) as [Hq Hr].
  { subst q. Z.to_euclidean_division_equations. lia. }
  rewrite (uw_id 32 (K - _)) by (unfold is_uw; lia). set (r := K - q * 1461) in *. clearbody r q.
  rewrite (uw_id 32 (r * 4)) by (unfold is_uw; lia).
  set (y := r * 4 / 1461). assert (0 <= y <= 3) as Hy by (subst y; Z.to_euclidean_division_equations; lia). clearbody y.
  rewrite (sw_id 32 y) by (unfold is_sw; lia).
  rewrite (uw_id 32 (r + 305)), (uw_id 32 (r + 306)) by (unfold is_uw; lia).
  set (e := if negb (y =? 0) then (r + 305) mod 365 else (r + 306) mod 366).
  assert (0 <= e <= 365) as He by (subst e; case_match; Z.to_euclidean_division_equations; lia). clearbody e.
  rewrite (uw_id 32 (e + 123)), (uw_id 32 y), (uw_id 32 (q * 4)) by (unfold is_uw; lia).
  rewrite (sw_id 32 (y + q * 4)) by (unfold is_sw; lia). rewrite (uw_id 32 ((e + 123) * 2141)) by (unfold is_uw; lia).
  set (m := (e + 123) * 2141 / 65536). assert (4 <= m <= 16 /\ 0 <= e + 123 - 7834 * m / 256 <= 366) as [Hm Hd].
  { subst m. Z.to_euclidean_division_equations. lia. }
  clearbody m. rewrite (uw_id 32 (7834 * m)) by (unfold is_uw; lia).
  rewrite (uw_id 32 (e + 123 - _)), (sw_id 32 (e + 123 - _)) by (unfold is_uw, is_sw; lia).
  rewrite sw_id; [done|done|]. unfold is_sw. Z.to_euclidean_division_equations. lia.
Qed.

(** ** Days follow each other *)
Lemma valid_spec d : valid_date d = true <->
  1 <= month d <= 12 /\ 1 <= day d <= days_in_month (year d) (month d).
Proof. unfold valid_date. rewrite !andb_true_iff, !Z.leb_le. lia. Qed.

Lemma days_in_month_bounds y m : 28 <= days_in_month y m <= 31.
Proof. unfold days_in_month. repeat case_match; lia. Qed.

Lemma next_day_valid d : valid_date d = true -> valid_date (next_day d) = true.
Proof.
  rewrite !valid_spec. destruct d as [y m d]. unfold next_day. cbn. intros [Hm Hd].
  pose proof (days_in_month_bounds y (m + 1)). pose proof (days_in_month_bounds (y + 1) 1).
  destruct (Z.ltb_spec d (days_in_month y m)); [cbn; lia|]. destruct (Z.ltb_spec m 12); cbn; lia.
Qed.

(** The length of a month, from the formula. *)
Lemma build_z_month y m : 1 <= m <= 11 -> build_z y (m + 1) 1 = build_z y m (days_in_month y m) + 1.
Proof.
  intros Hm. assert (leap y = true \/ ~ (y mod 4 = 0 /\ (y mod 100 <> 0 \/ y mod 400 = 0))) as Hl.
  { destruct (leap y) eqn:E; [by left|right]. rewrite <- leap_spec, E. done. }
  unfold build_z, days_in_month.
  destruct (Z.ltb_spec 2 (m + 1)), (Z.ltb_spec 2 m); try lia; cbn [fst snd].
  - assert ((m =? 2) = false) as -> by lia.
    assert (In m [3; 4; 5; 6; 7; 8; 9; 10; 11]) as Hin by (cbn; lia). cbn [In] in Hin.
    repeat destruct Hin as [<-|Hin]; cbn [Z.eqb Pos.eqb orb]; Z.to_euclidean_division_equations; lia.
  - assert (m = 2) as -> by lia. cbn [Z.eqb Pos.eqb]. destruct (leap y) eqn:E.
    + apply leap_spec in E. clear Hl. Z.to_euclidean_division_equations. lia.
    + destruct Hl as [|Hl]; [done|]. Z.to_euclidean_division_equations. lia.
  - assert (m = 1) as -> by lia. cbn [Z.eqb Pos.eqb orb]. Z.to_euclidean_division_equations. lia.
Qed.

Lemma build_z_next d (n := next_day d) : valid_date d = true ->
  build_z (year n) (month n) (day n) = build_z (year d) (month d) (day d) + 1.
Proof.
  rewrite valid_spec. subst n. destruct d as [y m d]. unfold next_day. cbn [year month day]. intros [Hm Hd].
  destruct (Z.ltb_spec d (days_in_month y m)); cbn [year month day].
  { unfold build_z. destruct (2 <? m); lia. }
  assert (d = days_in_month y m) as -> by lia. destruct (Z.ltb_spec m 12); cbn [year month day].
  { apply build_z_month. lia. }
  assert (m = 12) as -> by lia. unfold build_z, days_in_month. cbn. Z.to_euclidean_division_equations. lia.
Qed.

(** Every day number is the number of a date. *)
Lemma build_z_surj n : 0 <= n -> exists d, valid_date d = true /\ -4799 <= year d /\
  build_z (year d) (month d) (day d) = build_z (-4799) 1 1 + n.
Proof.
  revert n. apply natlike_ind.
  { exists (MkDate (-4799) 1 1). done. }
  intros n Hn (d & Hv & Hy & Hd). exists (next_day d). split_and!.
  - by apply next_day_valid.
  - unfold next_day. repeat case_match; cbn; lia.
  - rewrite build_z_next, Hd by done. lia.
Qed.

Lemma build_z_lt a b : valid_date a = true -> valid_date b = true -> date_lt a b ->
  build_z (year a) (month a) (day a) < build_z (year b) (month b) (day b).
Proof.
  intros Ha Hb Hlt. rewrite !build_z_day.
  pose proof (valid_month a Ha) as Hma. pose proof (valid_month b Hb) as Hmb.
  destruct (month_in_year _ _ _ Hma) as [Hia _], (month_in_year _ _ _ Hmb) as [Hib _].
  apply valid_spec in Ha, Hb.
  destruct (decide (shift_year a < shift_year b)) as [Hy|Hy].
  { pose proof (day_no_lt _ _ _ _ Hia Hib Hy). lia. }
  assert (shift_year a = shift_year b /\
    (shift_month a < shift_month b \/ shift_month a = shift_month b /\ day a < day b)) as [-> Hm].
  { unfold date_lt, shift_year, shift_month in *. destruct (Z.ltb_spec 2 (month a)), (Z.ltb_spec 2 (month b)); lia. }
  apply in_month_bounds in Hma as (H1 & H2 & H3 & H4), Hmb as (H1' & H2' & H3' & H4').
  assert (shift_month a = 15 -> day a <= 29) by (intros; lia). clear H3 H3' Ha Hb Hlt Hia Hib.
  unfold day_no, month_doy. destruct Hm as [Hm|[-> Hm]]; [|lia].
  generalize dependent (shift_month a). intros ma. generalize dependent (shift_month b). intros mb. intros.
  each_month H1; Z.to_euclidean_division_equations; lia.
Qed.

Lemma date_lt_total a b : date_lt a b \/ a = b \/ date_lt b a.
Proof.
  destruct a as [y m d], b as [y' m' d']. unfold date_lt. cbn.
  destruct (Z.lt_trichotomy y y') as [?|[->|?]]; [lia| |lia].
  destruct (Z.lt_trichotomy m m') as [?|[->|?]]; [lia| |lia].
  destruct (Z.lt_trichotomy d d') as [?|[->|?]]; [lia|right; by left|lia].
Qed.

(** C29. Dates round trip, both ways: the stored number of every date of the calendar
    from the year -4799 on splits into that date, and every number from the first
    of these dates to the last splits into a date of the calendar that has this
    number. *)
Theorem date_roundtrip :
  (forall d, valid_date d = true -> year_ok (year d) -> SplitDate (i32 (Build d)) = d) /\
  (forall j, i32 (Build (MkDate (-4799) 1 1)) <= j <= i32 (Build (MkDate 5000000 12 31)) ->
    valid_date (SplitDate j) = true /\ i32 (Build (SplitDate j)) = j).
Proof.
  split.
  - intros d Hv Hy. rewrite Build_z by done. rewrite SplitDate_z by (by apply build_z_bound).
    apply split_build_z; [done|]. by destruct Hy.
  - intros j Hj. rewrite !Build_z in Hj by (done || (unfold year_ok; cbn; lia)). cbn [year month day] in Hj.
    destruct (build_z_surj (j - build_z (-4799) 1 1)) as (d & Hv & Hy & Hd); [lia|].
    assert (year_ok (year d)) as Hyd.
    { split; [done|]. destruct (decide (year d <= 5000000)); [done|].
      pose proof (build_z_lt (MkDate 5000000 12 31) d eq_refl Hv ltac:(unfold date_lt; cbn; lia)). cbn [year month day] in *. lia. }
    pose proof (build_z_bound d Hv Hyd). replace j with (build_z (year d) (month d) (day d)) by lia.
    rewrite SplitDate_z, split_build_z by done. by rewrite Build_z.
Qed.

(** Dates are stored in calendar order: the stored numbers of two dates compare as
    the dates do, consecutive days have consecutive numbers, and the day
    2000-01-01 has its Julian day number 2451545.  Comparisons of date columns are
    comparisons of these numbers. *)
Theorem date_order a b : valid_date a = true -> valid_date b = true -> year_ok (year a) -> year_ok (year b) ->
  (i32 (Build a) < i32 (Build b) <-> date_lt a b) /\ (i32 (Build a) = i32 (Build b) <-> a = b) /\
  (year_ok (year (next_day a)) -> i32 (Build (next_day a)) = i32 (Build a) + 1) /\
  Build (MkDate 2000 1 1) = 2451545.
Proof.
  intros Ha Hb Hya Hyb. split_and!.
  - rewrite !Build_z by done. pose proof (build_z_lt b a Hb Ha) as Hba. split; [|by apply build_z_lt].
    intros. destruct (date_lt_total a b) as [?|[->|Hlt]]; [done|lia|]. specialize (Hba Hlt). lia.
  - rewrite !Build_z by done. split; [|by intros ->]. intros.
    destruct (date_lt_total a b) as [Hlt|[->|Hlt]]; [|done|]; apply build_z_lt in Hlt; done || lia.
  - intros. rewrite !Build_z by (done || by apply next_day_valid). by apply build_z_next.
  - reflexivity.
Qed.

Lemma date_order_witness :
  (i32 (Build (MkDate 1900 2 28)) < i32 (Build (MkDate 1900 3 1)) <-> date_lt (MkDate 1900 2 28) (MkDate 1900 3 1)) /\
  i32 (Build (next_day (MkDate 1900 2 28))) = i32 (Build (MkDate 1900 2 28)) + 1.
Proof.
  destruct (date_order (MkDate 1900 2 28) (MkDate 1900 3 1)) as (H1 & _ & H2 & _);
    [reflexivity|reflexivity|unfold year_ok; cbn; lia..|].
  split; [exact H1|]. apply H2. split; vm_compute; discriminate.
Defined.
