(* ===== verification/SqlValue.v ===== *)
(** * SQL values

    The values generated code computes with and their operations:
    src/catalog/sql_type.h, src/compile/proxy/value/*.cc (the typed wrappers of
    the program builder), src/compile/proxy/evaluate.cc (arithmetic, comparison,
    [Equal], [LessThan]) and the string functions of src/runtime/string.cc.  The
    definitions give what the generated code computes; a translation-time exception
    is a [Throw].  Strings are lists of byte values. *)
From Stdlib Require Import SpecFloat.
From S2P Require Import Prelude ProgramBuilder.

(** ** Strings *)

(** [string_view::compare]: bytes as unsigned numbers, then the length. *)
Fixpoint sv_compare (a b : list Z) : comparison :=
  match a, b with
  | [], [] => Eq
  | [], _ :: _ => Lt
  | _ :: _, [] => Gt
  | x :: a, y :: b => match Z.compare x y with Eq => sv_compare a b | c => c end
  end.

Fixpoint sv_starts (a b : list Z) : bool :=
  match a, b with
  | _, [] => true
  | [], _ :: _ => false
  | x :: a, y :: b => (x =? y) && sv_starts a b
  end.

(** [string_view::find], the least position. *)
Fixpoint sv_find (a b : list Z) (pos : Z) : option Z :=
  if sv_starts a b then Some pos
  else match a with [] => None | _ :: a => sv_find a b (pos + 1) end.

Definition Contains (s1 s2 : list Z) : bool :=
  match sv_find s1 s2 0 with Some _ => true | None => false end.
Definition EndsWith (s1 s2 : list Z) : bool :=
  if vec_size s2 <=? vec_size s1
  then match sv_compare (drop (length s1 - length s2) s1) s2 with Eq => true | _ => false end
  else false.
(** [rfind(s2, 0)] looks at position 0 only. *)
Definition StartsWith (s1 s2 : list Z) : bool := sv_starts s1 s2.
Definition Equals (s1 s2 : list Z) : bool :=
  match sv_compare s1 s2 with Eq => true | _ => false end.
Definition NotEquals (s1 s2 : list Z) : bool := negb (Equals s1 s2).
Definition LessThan_str (s1 s2 : list Z) : bool :=
  match sv_compare s1 s2 with Lt => true | _ => false end.
Definition LessThanEquals (s1 s2 : list Z) : bool :=
  match sv_compare s1 s2 with Gt => false | _ => true end.
Definition GreaterThan (s1 s2 : list Z) : bool :=
  match sv_compare s1 s2 with Gt => true | _ => false end.
Definition GreaterThanEquals (s1 s2 : list Z) : bool :=
  match sv_compare s1 s2 with Lt => false | _ => true end.

(** ** Values *)
Inductive TypeId : Set := SMALLINT | INT | BIGINT | REAL | DATE | TEXT | BOOLEAN | ENUM.
#[export] Instance TypeId_eq_dec : EqDecision TypeId.
Proof. solve_decision. Defined.

Record SqlType : Set := MkType { type_id : TypeId; enum_id : Z }.
#[export] Instance SqlType_eq_dec : EqDecision SqlType.
Proof. solve_decision. Defined.

(** The typed values; an integer is the signed number of its width. *)
Inductive IRValue : Set :=
| VBool (b : bool) | VInt16 (z : Z) | VInt32 (z : Z) | VInt64 (z : Z)
| VFloat64 (f : spec_float) | VDate (z : Z) | VString (s : list Z) | VEnum (id z : Z).

Definition ir_type (v : IRValue) : SqlType :=
  match v with
  | VBool _ => MkType BOOLEAN 0 | VInt16 _ => MkType SMALLINT 0 | VInt32 _ => MkType INT 0
  | VInt64 _ => MkType BIGINT 0 | VFloat64 _ => MkType REAL 0 | VDate _ => MkType DATE 0
  | VString _ => MkType TEXT 0 | VEnum id _ => MkType ENUM id
  end.

Record SQLValue : Set := MkSQL { sv_value : IRValue; sv_null : bool }.

Definition sv_type (v : SQLValue) : SqlType := ir_type (sv_value v).

(** [SQLValue::GetNotNullable] *)
Definition GetNotNullable (v : SQLValue) : SQLValue := MkSQL (sv_value v) false.

Section Evaluate.
(** The key of an enum value ([Enum::ToString] reads it from the enum's file)
    and [std::hash] of a string. *)
Context (enum_key : Z -> Z -> list Z) (string_hash : list Z -> Z).

(** ** Comparison of values *)

(** The operators [==] and [<] of the typed values, on operands of one type. *)
Definition ir_eq (a b : IRValue) : Res bool :=
  match a, b with
  | VBool x, VBool y => Ok (Bool.eqb x y)
  | VInt16 x, VInt16 y | VInt32 x, VInt32 y | VInt64 x, VInt64 y | VDate x, VDate y => Ok (x =? y)
  | VFloat64 x, VFloat64 y => Ok (f64_cmp EQ x y)
  | VString x, VString y => Ok (Equals x y)
  | VEnum i x, VEnum j y =>
      if i =? j then Ok (x =? y) else Throw "Comparing two different enums."
  | _, _ => UB
  end.

Definition ir_lt (a b : IRValue) : Res bool :=
  match a, b with
  | VBool _, _ => Throw "Can't be less than."
  | VInt16 x, VInt16 y | VInt32 x, VInt32 y | VInt64 x, VInt64 y | VDate x, VDate y => Ok (x <? y)
  | VFloat64 x, VFloat64 y => Ok (f64_cmp LT x y)
  | VString x, VString y => Ok (LessThan_str x y)
  | VEnum i x, VEnum j y => Ok (LessThan_str (enum_key i x) (enum_key j y))
  | _, _ => UB
  end.

(** Both branches are generated, so a translation error shows whatever the
    operands are at run time. *)
Definition Equal (lhs rhs : SQLValue) : Res bool :=
  eq ← ir_eq (sv_value lhs) (sv_value rhs);
  Ok (if sv_null lhs && sv_null rhs then true
      else if sv_null lhs || sv_null rhs then false else eq).

Definition LessThan (lhs rhs : SQLValue) : Res bool :=
  lt ← ir_lt (sv_value lhs) (sv_value rhs);
  Ok (if sv_null lhs && sv_null rhs then false
      else if sv_null lhs then false
      else if sv_null rhs then true else lt).

(** ** Hashing *)

(** [Hash] of the typed values: zero extension, and truncation of a double; the
    conversion of a double without an integer value gives the value
    of the hardware instruction. *)
Definition ir_hash (v : IRValue) : Z :=
  match v with
  | VBool b => Z.b2z b
  | VInt16 z => u16 z
  | VInt32 z | VDate z | VEnum _ z => u32 z
  | VInt64 z => z
  | VFloat64 f =>
      match F_trunc f with
      | Some z => if (- 2 ^ 63 <=? z) && (z <? 2 ^ 63) then z else - 2 ^ 63
      | None => - 2 ^ 63
      end
  | VString s => string_hash s
  end.

(** ** Arithmetic *)
Inductive BinaryOp : Set :=
| OpADD | OpSUB | OpMUL | OpDIV | OpEQ | OpNEQ | OpLT | OpLEQ | OpGT | OpGEQ | OpAND | OpOR
| OpSTARTS_WITH | OpENDS_WITH | OpCONTAINS.

Definition null_of (v : IRValue) : SQLValue := MkSQL v true.

(** [NullableTernary] on the null flags of two operands, both branches being
    generated: the exception of a branch shows in any case. *)
Definition unless_null (lhs rhs : SQLValue) (dflt : IRValue) (v : Res IRValue) : Res SQLValue :=
  x ← v;
  Ok (if sv_null lhs || sv_null rhs then null_of dflt else MkSQL x false).

Definition EvaluateBinaryBool (op : BinaryOp) (lhs rhs : SQLValue) : Res SQLValue :=
  unless_null lhs rhs (VBool false)
    match sv_value lhs, sv_value rhs with
    | VBool a, VBool b =>
        match op with
        | OpAND => Ok (VBool (a && b))
        | OpOR => Ok (VBool (a || b))
        | OpEQ => Ok (VBool (Bool.eqb a b))
        | OpNEQ => Ok (VBool (negb (Bool.eqb a b)))
        | _ => Throw "Invalid operator on Bool"
        end
    | _, _ => Throw "std::bad_cast"
    end.

(** The six comparisons of two integers. *)
Definition int_compare (op : BinaryOp) (a b : Z) : option bool :=
  match op with
  | OpEQ => Some (a =? b) | OpNEQ => Some (negb (a =? b))
  | OpLT => Some (a <? b) | OpLEQ => Some (a <=? b)
  | OpGT => Some (b <? a) | OpGEQ => Some (b <=? a)
  | _ => None
  end.

Definition is_compare (op : BinaryOp) : bool :=
  match op with OpEQ | OpNEQ | OpLT | OpLEQ | OpGT | OpGEQ => true | _ => false end.

Definition EvaluateBinaryDate (op : BinaryOp) (lhs rhs : SQLValue) : Res SQLValue :=
  if is_compare op then
    unless_null lhs rhs (VBool false)
      match sv_value lhs, sv_value rhs with
      | VDate a, VDate b => match int_compare op a b with
                            | Some c => Ok (VBool c) | None => Throw "Unreachable" end
      | _, _ => Throw "std::bad_cast"
      end
  else Throw "Invalid operator on numeric".

(** The numeric instances: the integer widths wrap around, [DIV] is for doubles. *)
Definition int_arith (op : BinaryOp) (w a b : Z) : option Z :=
  match op with
  | OpADD => Some (sw w (a + b)) | OpSUB => Some (sw w (a - b)) | OpMUL => Some (sw w (a * b))
  | _ => None
  end.

Definition f64_arith (op : BinaryOp) (a b : spec_float) : option spec_float :=
  match op with
  | OpADD => Some (F_add a b) | OpSUB => Some (F_sub a b) | OpMUL => Some (F_mul a b)
  | OpDIV => Some (F_div a b) | _ => None
  end.

Definition f64_compare (op : BinaryOp) (a b : spec_float) : option bool :=
  match op with
  | OpEQ => Some (f64_cmp EQ a b) | OpNEQ => Some (f64_cmp NE a b)
  | OpLT => Some (f64_cmp LT a b) | OpLEQ => Some (f64_cmp LE a b)
  | OpGT => Some (f64_cmp GT a b) | OpGEQ => Some (f64_cmp GE a b)
  | _ => None
  end.

Definition int_numeric (op : BinaryOp) (w : Z) (mk : Z -> IRValue) (lhs rhs : SQLValue) (a b : Z)
    : Res SQLValue :=
  match op with
  | OpDIV => Throw "Invalid arguments to div"
  | _ =>
      match int_arith op w a b, int_compare op a b with
      | Some c, _ => unless_null lhs rhs (sv_value lhs) (Ok (mk c))
      | None, Some c => unless_null lhs rhs (VBool false) (Ok (VBool c))
      | None, None => Throw "Invalid operator on numeric"
      end
  end.

Definition f64_numeric (op : BinaryOp) (lhs rhs : SQLValue) (a b : spec_float) : Res SQLValue :=
  match f64_arith op a b, f64_compare op a b with
  | Some c, _ =>
      unless_null lhs rhs
        match op with OpDIV => VFloat64 (F_of_Z 0) | _ => sv_value lhs end (Ok (VFloat64 c))
  | None, Some c => unless_null lhs rhs (VBool false) (Ok (VBool c))
  | None, None => Throw "Invalid operator on numeric"
  end.

Definition EvaluateBinaryNumeric (op : BinaryOp) (lhs rhs : SQLValue) : Res SQLValue :=
  match sv_value lhs, sv_value rhs with
  | VInt16 a, VInt16 b => int_numeric op 16 VInt16 lhs rhs a b
  | VInt32 a, VInt32 b => int_numeric op 32 VInt32 lhs rhs a b
  | VInt64 a, VInt64 b => int_numeric op 64 VInt64 lhs rhs a b
  | VFloat64 a, VFloat64 b => f64_numeric op lhs rhs a b
  | _, _ => Throw "std::bad_cast"
  end.

(** The operators on two strings. *)
Definition str_binary (op : BinaryOp) (a b : list Z) : option bool :=
  match op with
  | OpSTARTS_WITH => Some (StartsWith a b) | OpENDS_WITH => Some (EndsWith a b)
  | OpCONTAINS => Some (Contains a b)
  | OpEQ => Some (Equals a b) | OpNEQ => Some (NotEquals a b)
  | OpLT => Some (LessThan_str a b) | OpLEQ => Some (LessThanEquals a b)
  | OpGT => Some (GreaterThan a b) | OpGEQ => Some (GreaterThanEquals a b)
  | _ => None
  end.

Definition EvaluateBinaryString (op : BinaryOp) (lhs rhs : SQLValue) : Res SQLValue :=
  unless_null lhs rhs (VBool false)
    match sv_value lhs, sv_value rhs with
    | VString a, VString b => match str_binary op a b with
                              | Some c => Ok (VBool c)
                              | None => Throw "Invalid operator on string" end
    | _, _ => Throw "std::bad_cast"
    end.

(** Equality of enums compares the numbers; the order and the matching compare
    the keys, with another enum or with a string. *)
Definition EvaluateBinaryEnum (op : BinaryOp) (lhs rhs : SQLValue) : Res SQLValue :=
  unless_null lhs rhs (VBool false)
    match sv_value lhs with
    | VEnum i x =>
        match op, sv_value rhs with
        | OpEQ, VEnum j y =>
            if i =? j then Ok (VBool (x =? y)) else Throw "Comparing two different enums."
        | OpNEQ, VEnum j y =>
            if i =? j then Ok (VBool (negb (x =? y))) else Throw "Comparing two different enums."
        | (OpEQ | OpNEQ), _ => Throw "std::bad_cast"
        | (OpLT | OpLEQ | OpGT | OpGEQ), VEnum j y =>
            match str_binary op (enum_key i x) (enum_key j y) with
            | Some c => Ok (VBool c) | None => UB end
        | (OpLT | OpLEQ | OpGT | OpGEQ), VString s =>
            match str_binary op (enum_key i x) s with
            | Some c => Ok (VBool c) | None => UB end
        | OpLT, _ => Throw "Invalid types for enum LT"
        | OpLEQ, _ => Throw "Invalid types for enum LEQ"
        | OpGT, _ => Throw "Invalid types for enum GT"
        | OpGEQ, _ => Throw "Invalid types for enum GEQ"
        | (OpSTARTS_WITH | OpENDS_WITH | OpCONTAINS), VString s =>
            match str_binary op (enum_key i x) s with
            | Some c => Ok (VBool c) | None => UB end
        | (OpSTARTS_WITH | OpENDS_WITH | OpCONTAINS), _ => Throw "std::bad_cast"
        | _, _ => Throw "Invalid operator on enum"
        end
    | _ => Throw "std::bad_cast"
    end.

Definition EvaluateBinary (op : BinaryOp) (lhs rhs : SQLValue) : Res SQLValue :=
  match sv_value lhs with
  | VBool _ => EvaluateBinaryBool op lhs rhs
  | VInt16 _ | VInt32 _ | VInt64 _ | VFloat64 _ => EvaluateBinaryNumeric op lhs rhs
  | VDate _ => EvaluateBinaryDate op lhs rhs
  | VString _ => EvaluateBinaryString op lhs rhs
  | VEnum _ _ => EvaluateBinaryEnum op lhs rhs
  end.
End Evaluate.

(** ** Total preorders given by a comparison *)
Class PreorderCmp {A} (cmp : A -> A -> comparison) : Prop := {
  cmp_opp : forall x y, cmp y x = CompOpp (cmp x y);
  cmp_le_trans : forall x y z, cmp x y <> Gt -> cmp y z <> Gt -> cmp x z <> Gt;
}.

Arguments cmp_opp {A} cmp {_} _ _.
Arguments cmp_le_trans {A} cmp {_} _ _ _.

Lemma cmp_refl {A} (cmp : A -> A -> comparison) `{!PreorderCmp cmp} x : cmp x x = Eq.
Proof. pose proof (cmp_opp cmp x x) as H. by destruct (cmp x x). Qed.

(** Descending order. *)
Lemma PreorderCmp_flip {A} (cmp : A -> A -> comparison) `{!PreorderCmp cmp} :
  PreorderCmp (fun x y => cmp y x).
Proof.
  split; [intros; apply (cmp_opp cmp)|]. intros x y z Hxy Hyz. by apply (cmp_le_trans cmp z y x).
Qed.

(** The order of keys. *)
Lemma PreorderCmp_via {A B} (f : A -> B) (cmp : B -> B -> comparison) `{!PreorderCmp cmp} :
  PreorderCmp (fun x y => cmp (f x) (f y)).
Proof. split; [intros; apply (cmp_opp cmp)|]. intros x y z. apply (cmp_le_trans cmp). Qed.

(** First by one order, then by another. *)
Definition cmp_then (c d : comparison) : comparison := match c with Eq => d | _ => c end.

Lemma cmp_eq_compat {A} (cmp : A -> A -> comparison) `{!PreorderCmp cmp} x y z :
  cmp x y = Eq -> cmp x z = cmp y z.
Proof.
  intros Hxy. assert (cmp y x = Eq) as Hyx by (by rewrite (cmp_opp cmp x y), Hxy).
  assert (cmp y z <> Gt -> cmp x z <> Gt) as H1 by (intros; apply (cmp_le_trans cmp x y z); congruence).
  assert (cmp x z <> Gt -> cmp y z <> Gt) as H2 by (intros; apply (cmp_le_trans cmp y x z); congruence).
  assert (cmp z y <> Gt -> cmp z x <> Gt) as H3 by (intros; apply (cmp_le_trans cmp z y x); congruence).
  assert (cmp z x <> Gt -> cmp z y <> Gt) as H4 by (intros; apply (cmp_le_trans cmp z x y); congruence).
  rewrite (cmp_opp cmp x z), (cmp_opp cmp y z) in H3, H4.
  destruct (cmp x z), (cmp y z); cbn in *; try done; exfalso; naive_solver.
Qed.

Lemma PreorderCmp_then {A} (c d : A -> A -> comparison) `{!PreorderCmp c} `{!PreorderCmp d} :
  PreorderCmp (fun x y => cmp_then (c x y) (d x y)).
Proof.
  split.
  - intros x y. rewrite (cmp_opp c x y), (cmp_opp d x y). by destruct (c x y).
  - intros x y z. unfold cmp_then. pose proof (cmp_le_trans c x y z) as Hc.
    pose proof (cmp_le_trans d x y z) as Hd.
    destruct (c x y) eqn:Exy.
    + rewrite (cmp_eq_compat c x y z Exy). destruct (c y z); [exact Hd|done|done].
    + intros _ Hyz. assert (c y z <> Gt) as Hyz' by (by destruct (c y z)).
      specialize (Hc ltac:(done) Hyz'). destruct (c x z) eqn:Exz; [|done|done]. exfalso.
      assert (c z x = Eq) as Ezx by (by rewrite (cmp_opp c x z), Exz).
      apply Hyz'. rewrite (cmp_opp c z y), (cmp_eq_compat c z x y Ezx), Exy. done.
    + by intros H.
Qed.

#[export] Instance sv_compare_preorder : PreorderCmp sv_compare.
Proof.
  split.
  - intros x. induction x as [|a x IH]; intros [|b y]; cbn; try done.
    rewrite (Z.compare_antisym a b). destruct (a ?= b); cbn; [apply IH|done|done].
  - intros x. induction x as [|a x IH]; intros [|b y] [|c z]; cbn; try done.
    destruct (Z.compare_spec a b), (Z.compare_spec b c); subst; intros Hxy Hyz; try done;
      try (rewrite Z.compare_refl; by apply (IH y z)).
    all: rewrite (proj2 (Z.compare_lt_iff _ _)) by lia; done.
Qed.

Lemma sv_compare_eq x y : sv_compare x y = Eq <-> x = y.
Proof.
  split; [|intros ->; apply cmp_refl, _].
  revert y. induction x as [|a x IH]; intros [|b y]; cbn; try done.
  destruct (Z.compare_spec a b) as [->| |]; [|done|done]. intros H. f_equal. by apply IH.
Qed.

(** ** Order and equality of SQL values *)

(** A double as a list of numbers in the order of doubles. *)
Definition sf_key (f : spec_float) : list Z :=
  match f with
  | S754_nan => [3]
  | S754_infinity s => [if s then -2 else 2]
  | S754_zero _ => [0]
  | S754_finite s m e => if s then [-1; - e; - Zpos m] else [1; e; Zpos m]
  end.

Definition not_nan (f : spec_float) : Prop := f <> S754_nan.

Lemma SFcompare_key a b : not_nan a -> not_nan b ->
  SFcompare a b = Some (sv_compare (sf_key a) (sf_key b)).
Proof.
  intros Ha Hb. destruct a as [|[]| |[] m e], b as [|[]| |[] m' e']; try done; cbn.
  - rewrite Z.compare_opp, (Z.compare_antisym e e'). destruct (e ?= e'); cbn; try done.
    rewrite Z.compare_opp. change (Z.pos m' ?= Z.pos m) with (m' ?= m)%positive.
    rewrite (Pos.compare_antisym m m'). change (PosDef.Pos.compare_cont Eq m m') with (m ?= m')%positive.
    by destruct (m ?= m')%positive.
  - destruct (e ?= e'); try done.
    change (Z.pos m ?= Z.pos m') with (m ?= m')%positive.
    change (PosDef.Pos.compare_cont Eq m m') with (m ?= m')%positive. by destruct (m ?= m')%positive.
Qed.

(** No NaN; [LessThan] has no order for booleans. *)
Definition ir_ordered (v : IRValue) : Prop :=
  match v with VBool _ => False | VFloat64 f => not_nan f | _ => True end.

Section Order.
Context (enum_key : Z -> Z -> list Z).

Definition ir_key (v : IRValue) : list Z :=
  match v with
  | VBool b => [Z.b2z b]
  | VInt16 z | VInt32 z | VInt64 z | VDate z => [z]
  | VFloat64 f => sf_key f
  | VString s => s
  | VEnum i z => enum_key i z
  end.

(** Nulls come last. *)
Definition sql_key (v : SQLValue) : list Z := if sv_null v then [1] else 0 :: ir_key (sv_value v).

Definition sql_compare (a b : SQLValue) : comparison := sv_compare (sql_key a) (sql_key b).

#[export] Instance sql_compare_preorder : PreorderCmp sql_compare.
Proof. exact (PreorderCmp_via sql_key sv_compare). Qed.

Lemma ir_lt_key a b : ir_type a = ir_type b -> ir_ordered a -> ir_ordered b ->
  ir_lt enum_key a b =
  Ok (match sv_compare (ir_key a) (ir_key b) with Lt => true | _ => false end).
Proof.
  intros Ht Ha Hb. destruct a, b; try discriminate Ht; cbn [ir_lt ir_key ir_ordered f64_cmp] in *.
  all: try done; f_equal.
  4: { unfold SFltb. rewrite SFcompare_key by done. by case_match. }
  all: cbn; unfold Z.ltb; by destruct (z ?= z0).
Qed.

(** A value with an order: not a boolean, and no NaN unless it is null. *)
Definition sql_ordered (v : SQLValue) : Prop :=
  type_id (sv_type v) <> BOOLEAN /\ (sv_null v = false -> sv_value v <> VFloat64 S754_nan).

(** [LessThan] is the strict order of the keys. *)
Lemma LessThan_compare a b : sv_type a = sv_type b -> sql_ordered a -> sql_ordered b ->
  LessThan enum_key a b = Ok (match sql_compare a b with Lt => true | _ => false end).
Proof.
  intros Ht [Hba Ha] [Hbb Hb]. unfold LessThan.
  assert (exists r, ir_lt enum_key (sv_value a) (sv_value b) = Ok r) as [r Hr].
  { unfold sv_type in *. destruct (sv_value a), (sv_value b); try discriminate Ht; cbn in *; eauto; done. }
  unfold sql_compare, sql_key.
  destruct (sv_null a) eqn:Ena, (sv_null b) eqn:Enb; [rewrite Hr; done..|].
  rewrite ir_lt_key; [done|done|..]; unfold sv_type, ir_ordered, not_nan in *.
  - specialize (Ha eq_refl). destruct (sv_value a); try done. congruence.
  - specialize (Hb eq_refl). destruct (sv_value b); try done. congruence.
Qed.

(** ** Equality *)

End Order.

(** What [==] compares. *)
Definition ir_ident (v : IRValue) : list Z :=
  match v with
  | VBool b => [Z.b2z b]
  | VInt16 z | VInt32 z | VInt64 z | VDate z | VEnum _ z => [z]
  | VFloat64 f => sf_key f
  | VString s => s
  end.
Definition ir_num (v : IRValue) : bool :=
  match v with VFloat64 S754_nan => false | _ => true end.

Lemma SFeqb_key f g : SFeqb f g = true <->
  ir_num (VFloat64 f) = true /\ ir_num (VFloat64 g) = true /\ sf_key f = sf_key g.
Proof.
  destruct (ir_num (VFloat64 f)) eqn:Ef; [|split; [|naive_solver]; by destruct f, g].
  destruct (ir_num (VFloat64 g)) eqn:Eg; [|split; [|naive_solver]; by destruct f, g].
  unfold SFeqb. rewrite SFcompare_key by (by intros ->). rewrite <- sv_compare_eq.
  destruct (sv_compare (sf_key f) (sf_key g)); naive_solver.
Qed.

Lemma ir_eq_spec a b : ir_type a = ir_type b ->
  exists r, ir_eq a b = Ok r /\
    (r = true <-> ir_num a = true /\ ir_num b = true /\ ir_ident a = ir_ident b).
Proof.
  intros Ht. destruct a, b; try discriminate Ht; cbn [ir_eq].
  all: try (eexists; split; [done|]; cbn; rewrite Z.eqb_eq; naive_solver).
  - eexists. split; [done|]. destruct b, b0; naive_solver.
  - eexists. split; [done|]. apply SFeqb_key.
  - eexists. split; [done|]. cbn. unfold Equals. rewrite <- sv_compare_eq.
    destruct (sv_compare s s0); naive_solver.
  - cbn in Ht. injection Ht as ->. rewrite Z.eqb_refl. eexists. split; [done|]. cbn.
    rewrite Z.eqb_eq. naive_solver.
Qed.

(** The identity of a value, nulls being equal. *)
Definition sql_ident (v : SQLValue) : list Z := if sv_null v then [1] else 0 :: ir_ident (sv_value v).
Definition sql_num (v : SQLValue) : bool := sv_null v || ir_num (sv_value v).

Lemma Equal_spec a b : sv_type a = sv_type b ->
  exists r, Equal a b = Ok r /\
    (r = true <-> sql_num a = true /\ sql_num b = true /\ sql_ident a = sql_ident b).
Proof.
  intros Ht. destruct (ir_eq_spec _ _ Ht) as (r & Hr & Hiff). unfold Equal. rewrite Hr.
  cbn [mbind Res_bind]. eexists. split; [done|]. unfold sql_num, sql_ident.
  destruct (sv_null a), (sv_null b); cbn.
  1-3: split; [|intros (?&?&?)]; done.
  rewrite Hiff. split; intros (?&?&?); split_and!; congruence.
Qed.

Lemma ident_hash (string_hash : list Z -> Z) a b : ir_type a = ir_type b -> ir_num a = true -> ir_num b = true ->
  ir_ident a = ir_ident b -> ir_hash string_hash a = ir_hash string_hash b.
Proof.
  intros Ht Ha Hb Hi. destruct a, b; try discriminate Ht; cbn in Hi |- *; try congruence.
  destruct f as [|[]| |[] m e], f0 as [|[]| |[] m' e']; cbn in *; try done; try congruence.
  all: injection Hi as He Hm; assert (e = e') as -> by lia; assert (m = m') as -> by lia; done.
Qed.
