(* ===== verification/Struct.v ===== *)
(** * Structs of SQL values

    [StructBuilder] and [Struct] of src/compile/proxy/struct.cc: generated code
    keeps rows in memory as structs, a field with an extra null flag where it is
    nullable.  A struct is a list of cells, one for each field; its layout in bytes
    is the type manager's.  Memory that was not written holds arbitrary values. *)
From S2P Require Import Prelude ProgramBuilder SqlValue.

(** ** The model *)
Record StructBuilder := MkFormat {
  sb_types : list SqlType;
  sb_nullable : list bool;
}.

Definition StructBuilder_new : StructBuilder := MkFormat [] [].

(** [Add] returns the index of the new field. *)
Definition StructBuilder_Add (f : StructBuilder) (t : SqlType) (nullable : bool)
    : Z * StructBuilder :=
  (vec_size (sb_types f), MkFormat (sb_types f ++ [t]) (sb_nullable f ++ [nullable])).

Record Cell := MkCell { cell_value : IRValue; cell_null : bool }.
Abbreviation Struct := (list Cell).

Definition Struct_Get (f : StructBuilder) (st : Struct) (i : Z) : Res SQLValue :=
  t ← vec_at (sb_types f) i;
  nullable ← vec_at (sb_nullable f) i;
  c ← vec_at st i;
  if decide (ir_type (cell_value c) = t)
  then Ok (MkSQL (cell_value c) (if nullable : bool then cell_null c else false)) else UB.

(** A null only sets the flag; a field that is not nullable has no flag. *)
Definition Struct_Update (f : StructBuilder) (st : Struct) (i : Z) (v : SQLValue) : Res Struct :=
  nullable ← vec_at (sb_nullable f) i;
  c ← vec_at st i;
  if nullable : bool then
    if sv_null v then vec_set st i (MkCell (cell_value c) true)
    else vec_set st i (MkCell (sv_value v) false)
  else vec_set st i (MkCell (sv_value v) (cell_null c)).

Fixpoint pack_loop (f : StructBuilder) (st : Struct) (i : Z) (values : list SQLValue) : Res Struct :=
  match values with
  | [] => Ok st
  | v :: values => st ← Struct_Update f st i v; pack_loop f st (i + 1) values
  end.

Definition Pack (f : StructBuilder) (st : Struct) (values : list SQLValue) : Res Struct :=
  if vec_size values =? vec_size (sb_types f) then pack_loop f st 0 values
  else Throw "Must pack exactly number of values as fields in struct.".

Fixpoint unpack_loop (f : StructBuilder) (st : Struct) (i : Z) (n : nat) : Res (list SQLValue) :=
  match n with
  | O => Ok []
  | S n => v ← Struct_Get f st i; rest ← unpack_loop f st (i + 1) n; Ok (v :: rest)
  end.

Definition Unpack (f : StructBuilder) (st : Struct) : Res (list SQLValue) :=
  unpack_loop f st 0 (length (sb_types f)).

(** Memory for a struct that was not written yet: read as a type it gives some
    value of that type. *)
Definition fresh (uninit : SqlType -> Cell) (f : StructBuilder) : Struct := uninit <$> sb_types f.

(** ** Well-formed formats, structs and values *)
Definition format_ok (f : StructBuilder) : Prop := length (sb_nullable f) = length (sb_types f).

Definition struct_ok (f : StructBuilder) (st : Struct) : Prop :=
  Forall2 (fun t c => ir_type (cell_value c) = t) (sb_types f) st.

Lemma fresh_ok uninit f : Forall (fun t => ir_type (cell_value (uninit t)) = t) (sb_types f) ->
  struct_ok f (fresh uninit f).
Proof. intros H. apply Forall2_fmap_r, Forall_Forall2_diag. eapply list.Forall_impl; [apply H|done]. Qed.

(** A value that fits a field: its type, and no null where none can be kept. *)
Definition fits (t : SqlType) (nullable : bool) (v : SQLValue) : Prop :=
  sv_type v = t /\ (nullable = false -> sv_null v = false).

Definition row_fits (f : StructBuilder) (vs : list SQLValue) : Prop :=
  length vs = length (sb_types f) /\
  forall i t n v, sb_types f !! i = Some t -> sb_nullable f !! i = Some n -> vs !! i = Some v -> fits t n v.

(** Two values are the same for SQL: a null has no value. *)
Definition sql_equiv (a b : SQLValue) : Prop :=
  sv_type a = sv_type b /\ sv_null a = sv_null b /\ (sv_null a = false -> sv_value a = sv_value b).

#[export] Instance sql_equiv_equivalence : Equivalence sql_equiv.
Proof.
  unfold sql_equiv. split.
  - done.
  - intros a b (? & Hn & Hv). split_and!; [done..|]. rewrite <- Hn. intros Hf. symmetry. by apply Hv.
  - intros a b c (? & Hn & Hv) (? & Hn' & Hv'). split_and!; [congruence..|]. intros Hf.
    rewrite Hv by done. apply Hv'. congruence.
Qed.

#[export] Instance sql_key_proper ek : Proper (sql_equiv ==> eq) (sql_key ek).
Proof.
  intros a b (_ & Hn & Hv). unfold sql_key. rewrite <- Hn. destruct (sv_null a); [done|]. by rewrite Hv.
Qed.

#[export] Instance sql_ident_proper : Proper (sql_equiv ==> eq) sql_ident.
Proof.
  intros a b (_ & Hn & Hv). unfold sql_ident. rewrite <- Hn. destruct (sv_null a); [done|]. by rewrite Hv.
Qed.

#[export] Instance sql_num_proper : Proper (sql_equiv ==> eq) sql_num.
Proof.
  intros a b (_ & Hn & Hv). unfold sql_num. rewrite <- Hn. destruct (sv_null a); [done|]. by rewrite Hv.
Qed.

#[export] Instance sql_ordered_proper : Proper (sql_equiv ==> iff) sql_ordered.
Proof.
  assert (forall a b, sql_equiv a b -> sql_ordered a -> sql_ordered b) as H.
  { intros a b (Ht & Hn & Hv) [Ho Ho']. unfold sql_ordered. rewrite <- Ht, <- Hn. split; [done|].
    intros Hf. rewrite <- Hv by done. by apply Ho'. }
  intros a b Hab. split; apply H; [done|by symmetry].
Qed.

(** ** Writing and reading a field *)
Section Fields.
Context (f : StructBuilder) (Hf : format_ok f).

Lemma update_get st (i : nat) t n v : struct_ok f st -> sb_types f !! i = Some t ->
  sb_nullable f !! i = Some n -> fits t n v ->
  exists st', Struct_Update f st (Z.of_nat i) v = Ok st' /\ struct_ok f st' /\
    (exists v', Struct_Get f st' (Z.of_nat i) = Ok v' /\ sql_equiv v' v) /\
    (forall j, j <> i -> Struct_Get f st' (Z.of_nat j) = Struct_Get f st (Z.of_nat j)).
Proof.
  intros Hst Ht Hn [Hty Hnull]. destruct (Forall2_lookup_l _ _ _ _ _ Hst Ht) as (c & Hc & Hct).
  assert (forall c', ir_type (cell_value c') = t -> struct_ok f (<[i := c']> st)) as Hok.
  { intros c' Hc'. unfold struct_ok. rewrite <- (list_insert_id (sb_types f) i t) by done.
    by apply Forall2_insert. }
  assert (forall c', vec_set st (Z.of_nat i) c' = Ok (<[i := c']> st)) as Hset.
  { intros c'. rewrite (vec_set_lookup _ _ _ c), Nat2Z.id; [done|lia|by rewrite Nat2Z.id]. }
  assert (forall c' j, j <> i -> Struct_Get f (<[i := c']> st) (Z.of_nat j) = Struct_Get f st (Z.of_nat j)) as Hkeep.
  { intros c' j Hj. unfold Struct_Get. destruct (vec_at (sb_types f) _); cbn [mbind Res_bind]; [|done..].
    destruct (vec_at (sb_nullable f) _); cbn [mbind Res_bind]; [|done..].
    unfold vec_at. destruct (Z.of_nat j <? 0); [done|]. by rewrite Nat2Z.id, list_lookup_insert_ne. }
  assert (forall c', Struct_Get f (<[i := c']> st) (Z.of_nat i) =
    if decide (ir_type (cell_value c') = t)
    then Ok (MkSQL (cell_value c') (if n then cell_null c' else false)) else UB) as Hget.
  { intros c'. unfold Struct_Get. rewrite (vec_at_nat _ _ _ Ht), (vec_at_nat _ _ _ Hn). cbn [mbind Res_bind].
    rewrite (vec_at_nat _ _ c'); [done|]. apply list_lookup_insert_eq. by eapply lookup_lt_Some. }
  unfold Struct_Update. rewrite (vec_at_nat _ _ _ Hn), (vec_at_nat _ _ _ Hc). cbn [mbind Res_bind].
  destruct n; [destruct (sv_null v) eqn:Ev|]; rewrite Hset; eexists; (split; [done|]);
    (split; [by apply Hok|]); (split; [|by apply Hkeep]); rewrite Hget, decide_True by done;
    eexists; (split; [done|]); unfold sql_equiv, sv_type; cbn.
  - by rewrite Hct.
  - by rewrite Ev.
  - by rewrite Hnull.
Qed.

Lemma pack_loop_get vs : forall st i0, struct_ok f st ->
  (i0 + length vs <= length (sb_types f))%nat ->
  (forall j t n v, sb_types f !! (i0 + j)%nat = Some t -> sb_nullable f !! (i0 + j)%nat = Some n ->
    vs !! j = Some v -> fits t n v) ->
  exists st', pack_loop f st (Z.of_nat i0) vs = Ok st' /\ struct_ok f st' /\
    (forall j v, vs !! j = Some v -> exists v', Struct_Get f st' (Z.of_nat (i0 + j)) = Ok v' /\ sql_equiv v' v) /\
    (forall j, (j < i0)%nat -> Struct_Get f st' (Z.of_nat j) = Struct_Get f st (Z.of_nat j)).
Proof.
  induction vs as [|v vs IH]; intros st i0 Hst Hl Hfit; cbn [pack_loop].
  { exists st. split_and!; [done..| |done]. intros j v. by rewrite lookup_nil. }
  cbn in Hl. destruct (lookup_lt_is_Some_2 (sb_types f) i0) as [t Ht]; [lia|].
  destruct (lookup_lt_is_Some_2 (sb_nullable f) i0) as [n Hn]; [rewrite Hf; lia|].
  destruct (update_get st i0 t n v Hst Ht Hn) as (st1 & -> & Hst1 & Hget & Hkeep).
  { apply (Hfit 0%nat); rewrite ?Nat.add_0_r; done. }
  cbn [mbind Res_bind]. replace (Z.of_nat i0 + 1) with (Z.of_nat (S i0)) by lia.
  destruct (IH st1 (S i0)) as (st' & -> & Hst' & Hall & Hkeep'); [done|lia| |].
  { intros j t' n' v'. replace (S i0 + j)%nat with (i0 + S j)%nat by lia. intros. by eapply (Hfit (S j)). }
  exists st'. split_and!; [done..| |].
  - intros [|j] v'; cbn; intros Hj.
    + injection Hj as <-. rewrite Nat.add_0_r, Hkeep' by lia. exact Hget.
    + replace (i0 + S j)%nat with (S i0 + j)%nat by lia. by apply Hall.
  - intros j Hj. rewrite Hkeep' by lia. apply Hkeep. lia.
Qed.

Lemma unpack_loop_get st vs : forall i0,
  (forall j v, vs !! j = Some v -> exists v', Struct_Get f st (Z.of_nat (i0 + j)) = Ok v' /\ sql_equiv v' v) ->
  exists vs', unpack_loop f st (Z.of_nat i0) (length vs) = Ok vs' /\ Forall2 sql_equiv vs' vs.
Proof.
  induction vs as [|v vs IH]; intros i0 Hg; cbn [unpack_loop length]; [by exists []|].
  destruct (Hg 0%nat v eq_refl) as (v' & Hv' & He). rewrite Nat.add_0_r in Hv'. rewrite Hv'. cbn [mbind Res_bind].
  replace (Z.of_nat i0 + 1) with (Z.of_nat (S i0)) by lia.
  destruct (IH (S i0)) as (vs' & -> & Hvs').
  { intros j w Hj. replace (S i0 + j)%nat with (i0 + S j)%nat by lia. by apply (Hg (S j)). }
  cbn [mbind Res_bind]. exists (v' :: vs'). split; [done|]. by constructor.
Qed.

(** A row survives the struct. *)
Lemma pack_unpack st vs : struct_ok f st -> row_fits f vs ->
  exists st', Pack f st vs = Ok st' /\ struct_ok f st' /\
    exists vs', Unpack f st' = Ok vs' /\ Forall2 sql_equiv vs' vs.
Proof.
  intros Hst [Hl Hfit]. unfold Pack, vec_size. rewrite Hl, Z.eqb_refl.
  destruct (pack_loop_get vs st 0 Hst) as (st' & E & Hst' & Hget & _); [lia|done|].
  exists st'. split_and!; [done..|]. unfold Unpack. rewrite <- Hl.
  by apply (unpack_loop_get st' vs 0).
Qed.
End Fields.
