(* ===== verification/Aggregator.v ===== *)
(** * Aggregates

    [AggregateExpression] of src/plan/expression/aggregate_expression.cc and the
    aggregators of src/compile/proxy/aggregator.cc, which keep their state in fields
    of a group's struct: sum, minimum and maximum, average and count. *)
From Stdlib Require Import SpecFloat.
From S2P Require Import Prelude ProgramBuilder SqlValue Struct.

(** ** The model *)
Inductive AggregateType : Set := SUM | AVG | COUNT | MAX | MIN.
#[export] Instance AggregateType_eq_dec : EqDecision AggregateType.
Proof. solve_decision. Defined.

Definition is_number (t : TypeId) : bool :=
  match t with INT | SMALLINT | BIGINT | REAL => true | _ => false end.

Definition CalculateAggTypeId (type : AggregateType) (child_type : SqlType) : Res SqlType :=
  match type with
  | SUM =>
      if is_number (type_id child_type) then Ok child_type
      else Throw "Invalid input type for sum aggregate"
  | AVG =>
      if is_number (type_id child_type) then Ok (MkType REAL 0)
      else Throw "Invalid input type for avg aggregate"
  | COUNT => Ok (MkType BIGINT 0)
  | MIN | MAX =>
      match type_id child_type with
      | BOOLEAN => Throw "Invalid input type for max/min aggregate"
      | _ => Ok child_type
      end
  end.

(** An aggregate expression: its type, whether it is nullable, and the type of its
    argument. *)
Record AggregateExpression := MkAggExpr {
  ae_kind : AggregateType;
  ae_child : SqlType;
  ae_type : SqlType;
  ae_nullable : bool;
}.

Definition AggregateExpression_new (type : AggregateType) (child : SqlType) : Res AggregateExpression :=
  t ← CalculateAggTypeId type child;
  Ok (MkAggExpr type child t (negb (bool_decide (type = COUNT)))).

(** An aggregator with the fields it was given; only the average has two. *)
Record Aggregator := MkAgg { ag_expr : AggregateExpression; ag_field : Z; ag_count_field : Z }.

Definition ag_kind (a : Aggregator) : AggregateType := ae_kind (ag_expr a).

(** [AddFields] *)
Definition Sum_AddFields (f : StructBuilder) (e : AggregateExpression) : StructBuilder * Aggregator :=
  let '(i, f) := StructBuilder_Add f (ae_type e) (ae_nullable e) in (f, MkAgg e i (-1)).
Definition MinMax_AddFields (f : StructBuilder) (e : AggregateExpression) : StructBuilder * Aggregator :=
  let '(i, f) := StructBuilder_Add f (ae_type e) (ae_nullable e) in (f, MkAgg e i (-1)).
Definition Average_AddFields (f : StructBuilder) (e : AggregateExpression) : StructBuilder * Aggregator :=
  let '(i, f) := StructBuilder_Add f (MkType REAL 0) (ae_nullable e) in
  let '(j, f) := StructBuilder_Add f (MkType REAL 0) false in (f, MkAgg e i j).
Definition Count_AddFields (f : StructBuilder) (e : AggregateExpression) : StructBuilder * Aggregator :=
  let '(i, f) := StructBuilder_Add f (MkType BIGINT 0) false in (f, MkAgg e i (-1)).

Definition AddFields (f : StructBuilder) (e : AggregateExpression) : StructBuilder * Aggregator :=
  match ae_kind e with
  | SUM => Sum_AddFields f e
  | MIN | MAX => MinMax_AddFields f e
  | AVG => Average_AddFields f e
  | COUNT => Count_AddFields f e
  end.

(** [AverageAggregator::ToFloat] *)
Definition ToFloat (v : IRValue) : Res spec_float :=
  match v with
  | VFloat64 x => Ok x
  | VInt16 z | VInt32 z | VInt64 z => Ok (F_of_Z z)
  | _ => Throw "Can't convert to float."
  end.

Definition f64_value (v : SQLValue) : Res spec_float :=
  match sv_value v with VFloat64 x => Ok x | _ => UB end.
Definition i64_value (v : SQLValue) : Res Z :=
  match sv_value v with VInt64 x => Ok x | _ => UB end.

(** [v1 + v2] of the current sum and the next value. *)
Definition ir_add (cur next : IRValue) : Res IRValue :=
  match cur, next with
  | VInt16 a, VInt16 b => Ok (VInt16 (sw 16 (a + b)))
  | VInt32 a, VInt32 b => Ok (VInt32 (sw 32 (a + b)))
  | VInt64 a, VInt64 b => Ok (VInt64 (sw 64 (a + b)))
  | VFloat64 a, VFloat64 b => Ok (VFloat64 (F_add a b))
  | (VInt16 _ | VInt32 _ | VInt64 _ | VFloat64 _), _ => UB
  | _, _ => Throw "cannot compute sum of non-numeric col"
  end.

Section Model.
Context (enum_key : Z -> Z -> list Z) (f : StructBuilder).

(** [Initialize] with the value of the argument for the first row of a group; the
    sum, the minimum and the maximum start with it. *)
Definition Sum_Initialize (a : Aggregator) (entry : Struct) (value : SQLValue) : Res Struct :=
  Struct_Update f entry (ag_field a) value.

Definition MinMax_Initialize (a : Aggregator) (entry : Struct) (value : SQLValue) : Res Struct :=
  Struct_Update f entry (ag_field a) value.

Definition Average_Initialize (a : Aggregator) (entry : Struct) (value : SQLValue) : Res Struct :=
  x ← ToFloat (sv_value value);
  entry ← Struct_Update f entry (ag_field a)
    (if sv_null value then MkSQL (VFloat64 (F_of_Z 0)) true else MkSQL (VFloat64 x) false);
  Struct_Update f entry (ag_count_field a) (MkSQL (VFloat64 (F_of_Z 1)) false).

Definition Count_Initialize (a : Aggregator) (entry : Struct) : Res Struct :=
  Struct_Update f entry (ag_field a) (MkSQL (VInt64 1) false).

Definition Initialize (a : Aggregator) (entry : Struct) (value : SQLValue) : Res Struct :=
  match ag_kind a with
  | SUM => Sum_Initialize a entry value
  | MIN | MAX => MinMax_Initialize a entry value
  | AVG => Average_Initialize a entry value
  | COUNT => Count_Initialize a entry
  end.

(** [Update] with the value for a further row; all branches are generated, so a
    translation error shows whatever the values are at run time. *)
Definition Sum_Update (a : Aggregator) (entry : Struct) (next : SQLValue) : Res Struct :=
  current_value ← Struct_Get f entry (ag_field a);
  sum ← ir_add (sv_value current_value) (sv_value next);
  if sv_null next then Ok entry
  else if sv_null current_value then Struct_Update f entry (ag_field a) (GetNotNullable next)
  else Struct_Update f entry (ag_field a) (MkSQL sum false).

(** The comparison of the minimum and the maximum. *)
Definition replaces (min : bool) (next cur : IRValue) : Res bool :=
  match cur with
  | VBool _ => Throw "cannot compute min of non-numeric col"
  | _ => if min then ir_lt enum_key next cur else ir_lt enum_key cur next
  end.

Definition MinMax_Update (a : Aggregator) (entry : Struct) (next : SQLValue) : Res Struct :=
  current_value ← Struct_Get f entry (ag_field a);
  b ← replaces (bool_decide (ag_kind a = MIN)) (sv_value next) (sv_value current_value);
  if sv_null next then Ok entry
  else if sv_null current_value then Struct_Update f entry (ag_field a) (GetNotNullable next)
  else if b : bool then Struct_Update f entry (ag_field a) (GetNotNullable next) else Ok entry.

Definition Average_Update (a : Aggregator) (entry : Struct) (next : SQLValue) : Res Struct :=
  next_value ← ToFloat (sv_value next);
  record_count_field ← Struct_Get f entry (ag_count_field a);
  record_count ← f64_value record_count_field;
  current_value ← Struct_Get f entry (ag_field a);
  cma ← f64_value current_value;
  if sv_null next then Ok entry
  else if sv_null current_value then Struct_Update f entry (ag_field a) (MkSQL (VFloat64 next_value) false)
  else
    let next_record_count := F_add record_count (F_of_Z 1) in
    let next_cma := F_add cma (F_div (F_sub next_value cma) next_record_count) in
    entry ← Struct_Update f entry (ag_count_field a) (MkSQL (VFloat64 next_record_count) false);
    Struct_Update f entry (ag_field a) (MkSQL (VFloat64 next_cma) false).

Definition Count_Update (a : Aggregator) (entry : Struct) (next : SQLValue) : Res Struct :=
  record_count_field ← Struct_Get f entry (ag_field a);
  record_count ← i64_value record_count_field;
  if sv_null next then Ok entry
  else Struct_Update f entry (ag_field a) (MkSQL (VInt64 (sw 64 (record_count + 1))) false).

(** The virtual calls. *)
Definition Update (a : Aggregator) (entry : Struct) (next : SQLValue) : Res Struct :=
  match ag_kind a with
  | SUM => Sum_Update a entry next
  | MIN | MAX => MinMax_Update a entry next
  | AVG => Average_Update a entry next
  | COUNT => Count_Update a entry next
  end.

Definition Agg_Get (a : Aggregator) (entry : Struct) : Res SQLValue := Struct_Get f entry (ag_field a).
End Model.

(** ** What an aggregate computes *)

(** The state after some rows: the value, and the count of the average. *)
Record AggState := MkState { as_value : SQLValue; as_count : spec_float }.

Section Spec.
Context (enum_key : Z -> Z -> list Z).

Definition ok_or {A} (d : A) (r : Res A) : A := match r with Ok a => a | _ => d end.

Definition to_float (v : SQLValue) : spec_float := ok_or S754_nan (ToFloat (sv_value v)).

Definition agg_init (k : AggregateType) (v : SQLValue) : AggState :=
  match k with
  | SUM | MIN | MAX => MkState v S754_nan
  | AVG => MkState (MkSQL (VFloat64 (to_float v)) (sv_null v)) (F_of_Z 1)
  | COUNT => MkState (MkSQL (VInt64 1) false) S754_nan
  end.

(** [next] replaces [cur] as the minimum or maximum. *)
Definition better (k : AggregateType) (next cur : SQLValue) : bool :=
  ok_or false (replaces enum_key (bool_decide (k = MIN)) (sv_value next) (sv_value cur)).

Definition agg_step (k : AggregateType) (s : AggState) (v : SQLValue) : AggState :=
  let cur := as_value s in
  if sv_null v then s
  else
    match k with
    | SUM =>
        MkState (if sv_null cur then v
                 else MkSQL (ok_or (sv_value v) (ir_add (sv_value cur) (sv_value v))) false) (as_count s)
    | MIN | MAX =>
        MkState (if sv_null cur || better k v cur then v else cur) (as_count s)
    | AVG =>
        if sv_null cur then MkState (MkSQL (VFloat64 (to_float v)) false) (as_count s)
        else
          let c := F_add (as_count s) (F_of_Z 1) in
          let cma := to_float cur in
          MkState (MkSQL (VFloat64 (F_add cma (F_div (F_sub (to_float v) cma) c))) false) c
    | COUNT => MkState (MkSQL (VInt64 (sw 64 (ok_or 0 (i64_value cur) + 1))) false) (as_count s)
    end.

(** The state after the rows of a group, in order. *)
Definition agg_fold (k : AggregateType) (v : SQLValue) (vs : list SQLValue) : AggState :=
  foldl (agg_step k) (agg_init k v) vs.
End Spec.

(** ** The aggregators compute it *)

(** The fields an aggregator owns. *)
Definition ag_fields (a : Aggregator) : list Z :=
  match ag_kind a with AVG => [ag_field a; ag_count_field a] | _ => [ag_field a] end.

Definition field_is (f : StructBuilder) (i : Z) (t : SqlType) (n : bool) : Prop :=
  0 <= i /\ sb_types f !! Z.to_nat i = Some t /\ sb_nullable f !! Z.to_nat i = Some n.

(** The expression was accepted, and the fields are there. *)
Record agg_ok (f : StructBuilder) (a : Aggregator) : Prop := {
  ago_expr : AggregateExpression_new (ag_kind a) (ae_child (ag_expr a)) = Ok (ag_expr a);
  ago_field : field_is f (ag_field a) (ae_type (ag_expr a)) (ae_nullable (ag_expr a));
  ago_count : ag_kind a = AVG -> field_is f (ag_count_field a) (MkType REAL 0) false /\ ag_count_field a <> ag_field a;
}.

(** The struct holds the state. *)
Record agg_holds (f : StructBuilder) (a : Aggregator) (st : Struct) (s : AggState) : Prop := {
  ah_value : exists v, Struct_Get f st (ag_field a) = Ok v /\ sql_equiv v (as_value s);
  ah_count : ag_kind a = AVG -> Struct_Get f st (ag_count_field a) = Ok (MkSQL (VFloat64 (as_count s)) false);
}.

Section Refines.
Context (enum_key : Z -> Z -> list Z) (f : StructBuilder).

(** The state has the type of the aggregate, and a count is not null. *)
Definition state_ok (a : Aggregator) (s : AggState) : Prop :=
  sv_type (as_value s) = ae_type (ag_expr a) /\
  (ae_nullable (ag_expr a) = false -> sv_null (as_value s) = false).

(** A write to one field. *)
Lemma field_write st i t n v : struct_ok f st -> field_is f i t n -> fits t n v ->
  exists st', Struct_Update f st i v = Ok st' /\ struct_ok f st' /\
    (exists v', Struct_Get f st' i = Ok v' /\ sql_equiv v' v) /\
    (forall j, 0 <= j -> j <> i -> Struct_Get f st' j = Struct_Get f st j).
Proof.
  intros Hst (Hi & Ht & Hn) Hfit.
  destruct (update_get f st (Z.to_nat i) t n v Hst Ht Hn Hfit) as (st' & E & Hok & Hg & Hk).
  rewrite Z2Nat.id in * by done. exists st'. split_and!; [done..|]. intros j Hj Hne.
  specialize (Hk (Z.to_nat j)). rewrite Z2Nat.id in Hk by done. apply Hk. lia.
Qed.

Lemma get_not_null v w : sql_equiv v w -> sv_null w = false -> v = w.
Proof.
  intros (_ & Hn & Hv) Hw. rewrite Hw in Hn. specialize (Hv Hn). destruct v, w; cbn in *. congruence.
Qed.

Lemma ir_add_ok a b : ir_type a = ir_type b -> is_number (type_id (ir_type a)) = true ->
  exists c, ir_add a b = Ok c /\ ir_type c = ir_type a.
Proof. intros Ht Hn. destruct a, b; try discriminate Ht; try discriminate Hn; cbn; by eexists. Qed.

Lemma replaces_ok min a b : ir_type a = ir_type b -> type_id (ir_type a) <> BOOLEAN ->
  exists c, replaces enum_key min a b = Ok c.
Proof. intros Ht Hn. destruct min, a, b; try discriminate Ht; try done; cbn; by eexists. Qed.

Lemma ToFloat_ok v : is_number (type_id (ir_type v)) = true -> exists x, ToFloat v = Ok x.
Proof. intros Hn. destruct v; try discriminate Hn; cbn; by eexists. Qed.

(** What the type check of the expression gives. *)
Lemma agg_expr_type a : agg_ok f a ->
  match ag_kind a with
  | SUM => ae_type (ag_expr a) = ae_child (ag_expr a) /\ is_number (type_id (ae_child (ag_expr a))) = true /\
      ae_nullable (ag_expr a) = true
  | MIN | MAX => ae_type (ag_expr a) = ae_child (ag_expr a) /\ type_id (ae_child (ag_expr a)) <> BOOLEAN /\
      ae_nullable (ag_expr a) = true
  | AVG => ae_type (ag_expr a) = MkType REAL 0 /\ is_number (type_id (ae_child (ag_expr a))) = true /\
      ae_nullable (ag_expr a) = true
  | COUNT => ae_type (ag_expr a) = MkType BIGINT 0 /\ ae_nullable (ag_expr a) = false
  end.
Proof.
  intros [He _ _]. unfold AggregateExpression_new, ag_kind in *. destruct (ag_expr a) as [k c t n]; cbn in *.
  apply bind_Ok in He as (t' & Ht & He). injection He as <- <-. unfold CalculateAggTypeId in Ht.
  destruct k; cbn; try (destruct (is_number (type_id c)) eqn:E; [|discriminate Ht]; injection Ht as <-; done).
  - by injection Ht as <-.
  - destruct (type_id c) eqn:E; try discriminate Ht; by injection Ht as <-.
  - destruct (type_id c) eqn:E; try discriminate Ht; by injection Ht as <-.
Qed.

Lemma agg_init_ok a v : agg_ok f a -> sv_type v = ae_child (ag_expr a) -> state_ok a (agg_init (ag_kind a) v).
Proof.
  intros Ha Hv. pose proof (agg_expr_type a Ha) as He. unfold state_ok.
  destruct (ag_kind a); cbn [agg_init as_value]; destruct_and?; split; congruence || done.
Qed.

Lemma agg_step_ok a s v : agg_ok f a -> sv_type v = ae_child (ag_expr a) -> state_ok a s ->
  state_ok a (agg_step enum_key (ag_kind a) s v).
Proof.
  intros Ha Hv [Hs Hn]. pose proof (agg_expr_type a Ha) as He. unfold agg_step, state_ok.
  destruct (sv_null v); [done|]. destruct (ag_kind a); destruct He as [He He']; cbn [as_value].
  - destruct (sv_null (as_value s)); (split; [|done || intros; destruct_and!; congruence]); [congruence|].
    destruct (ir_add_ok (sv_value (as_value s)) (sv_value v)) as (c & -> & Hc);
      [unfold sv_type in *; congruence|unfold sv_type in *; rewrite Hs, He; apply He'|].
    unfold sv_type in *. cbn. congruence.
  - destruct (sv_null (as_value s)); cbn; (split; [done|by intros]).
  - split; [done|by intros].
  - destruct (_ || _); (split; [congruence|intros; destruct_and!; congruence]).
  - destruct (_ || _); (split; [congruence|intros; destruct_and!; congruence]).
Qed.

(** The struct gets the state, and nothing else changes. *)
Definition writes (a : Aggregator) (st st' : Struct) (s : AggState) : Prop :=
  struct_ok f st' /\ agg_holds f a st' s /\
  forall j, 0 <= j -> j ∉ ag_fields a -> Struct_Get f st' j = Struct_Get f st j.

Lemma in_field a : ag_field a ∈ ag_fields a.
Proof. unfold ag_fields. destruct (ag_kind a); by left. Qed.

(** Writing the value field alone. *)
Lemma value_write a st v s : agg_ok f a -> struct_ok f st -> sql_equiv v (as_value s) -> state_ok a s ->
  (ag_kind a = AVG -> Struct_Get f st (ag_count_field a) = Ok (MkSQL (VFloat64 (as_count s)) false)) ->
  exists st', Struct_Update f st (ag_field a) v = Ok st' /\ writes a st st' s.
Proof.
  intros Ha Hst Hv [Hs Hn] Hc. destruct Hv as (Htv & Hnv & Hvv).
  destruct (field_write st (ag_field a) _ _ v Hst (ago_field _ _ Ha)) as (st' & E & Hok & (v' & Hg & Hv') & Hk).
  { split; [congruence|]. intros Hf. rewrite Hnv. by apply Hn. }
  exists st'. split; [done|]. unfold writes. split_and!; [done| |].
  - split; [exists v'; split; [done|]; etransitivity; [done|by split_and!]|].
    intros Hav. destruct (ago_count _ _ Ha Hav) as ((Hc0 & _) & Hne). rewrite Hk by done. by apply Hc.
  - intros j Hj Hnj. apply Hk; [done|]. intros ->. by apply Hnj, in_field.
Qed.

(** Nothing to write. *)
Lemma no_write a st s : struct_ok f st -> agg_holds f a st s -> writes a st st s.
Proof. intros. unfold writes. by split_and!. Qed.

Lemma count_field_in a : ag_kind a = AVG -> ag_count_field a ∈ ag_fields a.
Proof. unfold ag_fields. intros ->. right. by left. Qed.

(** Writing both fields of an average, in either order. *)
Lemma count_write a st c : agg_ok f a -> ag_kind a = AVG -> struct_ok f st ->
  exists st', Struct_Update f st (ag_count_field a) (MkSQL (VFloat64 c) false) = Ok st' /\ struct_ok f st' /\
    Struct_Get f st' (ag_count_field a) = Ok (MkSQL (VFloat64 c) false) /\
    (forall j, 0 <= j -> j <> ag_count_field a -> Struct_Get f st' j = Struct_Get f st j).
Proof.
  intros Ha Hav Hst. destruct (ago_count _ _ Ha Hav) as (Hc & Hne).
  destruct (field_write st _ _ _ (MkSQL (VFloat64 c) false) Hst Hc) as (st' & E & Hok & (v & Hg & Hv) & Hk); [done|].
  exists st'. split_and!; [done..| |done]. rewrite Hg. by rewrite (get_not_null _ _ Hv).
Qed.

Lemma Initialize_ok a st v : agg_ok f a -> struct_ok f st -> sv_type v = ae_child (ag_expr a) ->
  exists st', Initialize f a st v = Ok st' /\ writes a st st' (agg_init (ag_kind a) v).
Proof.
  intros Ha Hst Hv. pose proof (agg_init_ok a v Ha Hv) as Hs. pose proof (agg_expr_type a Ha) as He.
  unfold Initialize, Sum_Initialize, MinMax_Initialize, Average_Initialize, Count_Initialize.
  destruct (ag_kind a) eqn:Ek; cbn [agg_init] in *;
    try (apply value_write; [done..|by rewrite Ek]).
  destruct He as (_ & Hn & _). destruct (ToFloat_ok (sv_value v)) as [x Hx]; [unfold sv_type in Hv; by rewrite Hv|].
  unfold to_float in *. rewrite Hx in *. cbn [mbind Res_bind ok_or] in *.
  set (w := if sv_null v then _ else _).
  assert (sql_equiv w (MkSQL (VFloat64 x) (sv_null v))) as Hw by (subst w; by destruct (sv_null v)).
  destruct (field_write st (ag_field a) _ _ w Hst (ago_field _ _ Ha)) as (st1 & -> & Hok1 & (v1 & Hg1 & Hv1) & Hk1).
  { destruct Hs as [Hs1 Hs2]. destruct Hw as (Hw1 & Hw2 & _). cbn in Hs1, Hs2. split; [by rewrite Hw1|].
    rewrite Hw2. exact Hs2. }
  cbn [mbind Res_bind]. destruct (count_write a st1 (F_of_Z 1) Ha Ek Hok1) as (st' & -> & Hok & Hg & Hk).
  destruct (ago_count _ _ Ha Ek) as (_ & Hne). destruct (ago_field _ _ Ha) as (Hf0 & _).
  exists st'. split; [done|]. unfold writes. split_and!; [done| |].
  - split; [|done]. exists v1. rewrite Hk by done. split; [done|]. by etransitivity.
  - intros j Hj Hnj. rewrite Hk, Hk1; try done; intros ->; [by apply Hnj, in_field|by apply Hnj, count_field_in].
Qed.

Lemma not_null_equiv w : sv_null w = false -> sql_equiv (GetNotNullable w) w.
Proof. destruct w. cbn. by intros ->. Qed.

(** A null leaves the state as it is. *)
Lemma null_step a st s v : struct_ok f st -> agg_holds f a st s -> sv_null v = true ->
  exists st', Ok st = Ok st' /\ writes a st st' (agg_step enum_key (ag_kind a) s v).
Proof. intros Hst Hh Hv. exists st. split; [done|]. unfold agg_step. rewrite Hv. by apply no_write. Qed.

Section Step.
Context (a : Aggregator) (st : Struct) (s : AggState) (v : SQLValue).
Context (Ha : agg_ok f a) (Hst : struct_ok f st) (Hv : sv_type v = ae_child (ag_expr a)).
Context (Hs : state_ok a s) (Hh : agg_holds f a st s).

Let step := exists st', Update enum_key f a st v = Ok st' /\ writes a st st' (agg_step enum_key (ag_kind a) s v).

Lemma sum_update_ok : ag_kind a = SUM -> step.
Proof using Ha Hst Hv Hs Hh.
  intros Ek. pose proof (agg_expr_type a Ha) as He. pose proof (agg_step_ok a s v Ha Hv Hs) as Hs'.
  pose proof Hh as [(cur & Hcur & Ht & Hn & Hc) _]. pose proof Hs as [Hst' _].
  unfold step, Update, Sum_Update, Average_Update, Count_Update. rewrite Ek in *. destruct He as (Hty & Hnum & _). rewrite Hcur. cbn [mbind Res_bind].
  destruct (ir_add_ok (sv_value cur) (sv_value v)) as (c & Ec & _);
    [unfold sv_type in *; congruence|unfold sv_type in *; by rewrite Ht, Hst', Hty|].
  rewrite Ec. cbn [mbind Res_bind].
  destruct (sv_null v) eqn:Ev; [rewrite <- Ek; by apply null_step|].
  unfold agg_step in *. rewrite Ev, <- Hn in *. destruct (sv_null cur) eqn:En.
  - apply value_write; try done; try (by apply not_null_equiv); by rewrite Ek.
  - rewrite <- Hc, Ec in * by done. apply value_write; try done; by rewrite Ek.
Qed.

Lemma minmax_update_ok : ag_kind a = MIN \/ ag_kind a = MAX -> step.
Proof using Ha Hst Hv Hs Hh.
  intros Ek. pose proof (agg_expr_type a Ha) as He. pose proof (agg_step_ok a s v Ha Hv Hs) as Hs'.
  pose proof Hh as [(cur & Hcur & Ht & Hn & Hc) _]. pose proof Hs as [Hst' _].
  assert (ae_type (ag_expr a) = ae_child (ag_expr a) /\ type_id (ae_child (ag_expr a)) <> BOOLEAN) as [Hty Hnb]
    by (destruct Ek as [Ek|Ek]; rewrite Ek in He; tauto).
  destruct (replaces_ok (bool_decide (ag_kind a = MIN)) (sv_value v) (sv_value cur)) as (c & Ec);
    [unfold sv_type in *; congruence|unfold sv_type in *; by rewrite Hv|].
  assert (Update enum_key f a st v = if sv_null v then Ok st
    else if sv_null cur || c then Struct_Update f st (ag_field a) (GetNotNullable v) else Ok st) as Eu.
  { unfold Update, MinMax_Update. destruct Ek as [Ek|Ek]; rewrite Ek in *; rewrite Hcur; cbn [mbind Res_bind]; rewrite Ec;
      cbn [mbind Res_bind]; destruct (sv_null v), (sv_null cur), c; done. }
  assert (agg_step enum_key (ag_kind a) s v = if sv_null v then s
    else MkState (if sv_null cur || c then v else as_value s) (as_count s)) as Es.
  { unfold agg_step. destruct Ek as [Ek|Ek]; rewrite Ek in *; destruct (sv_null v); try done; f_equal; rewrite <- Hn;
      (destruct (sv_null cur) eqn:En; [done|]); unfold better; rewrite <- Hc, Ec by done; done. }
  unfold step. rewrite Eu. destruct (sv_null v) eqn:Ev; [by apply null_step|]. rewrite Es in *.
  destruct (sv_null cur || c).
  - apply value_write; try done; try (by apply not_null_equiv); by destruct Ek as [-> | ->].
  - exists st. split; [done|]. apply no_write; [done|]. destruct Hh as [Hh1 Hh2]. by split.
Qed.

Lemma avg_update_ok : ag_kind a = AVG -> step.
Proof using Ha Hst Hv Hs Hh.
  intros Ek. pose proof (agg_expr_type a Ha) as He. pose proof (agg_step_ok a s v Ha Hv Hs) as Hs'.
  pose proof Hh as [(cur & Hcur & Ht & Hn & Hc) Hcount]. specialize (Hcount Ek). pose proof Hs as [Hst' _].
  unfold step, Update, Sum_Update, Average_Update, Count_Update. rewrite Ek in *. destruct He as (Hty & Hnum & _).
  destruct (ToFloat_ok (sv_value v)) as [x Hx]; [unfold sv_type in Hv; by rewrite Hv|].
  rewrite Hx, Hcount, Hcur. cbn [mbind Res_bind f64_value sv_value].
  assert (exists cma, sv_value cur = VFloat64 cma) as [cma Hcma].
  { rewrite Hst', Hty in Ht. unfold sv_type in Ht. destruct (sv_value cur); try discriminate Ht. by eexists. }
  unfold f64_value. rewrite Hcma. cbn [mbind Res_bind].
  destruct (sv_null v) eqn:Ev; [rewrite <- Ek; by apply null_step|].
  unfold agg_step, to_float in *. rewrite Ev, <- Hn, Hx in *. cbn [ok_or] in *. destruct (sv_null cur) eqn:En.
  { apply value_write; try done; by rewrite Ek. }
  rewrite <- Hc, Hcma in * by done. cbn [ToFloat ok_or] in *.
  destruct (count_write a st (F_add (as_count s) (F_of_Z 1)) Ha Ek Hst) as (st1 & -> & Hok1 & Hg1 & Hk1).
  cbn [mbind Res_bind].
  edestruct (value_write a st1 _ _ Ha Hok1 (reflexivity _) Hs') as (st' & E & Hok & Hh' & Hk); [done|].
  cbn [as_value] in E. rewrite E. eexists. split; [done|]. unfold writes. split_and!; [done..|].
  intros j Hj Hnj. rewrite Hk, Hk1; [done|done| |done|done]. intros ->. by apply Hnj, count_field_in.
Qed.

Lemma count_update_ok : ag_kind a = COUNT -> step.
Proof using Ha Hst Hv Hs Hh.
  intros Ek. pose proof (agg_expr_type a Ha) as He. pose proof (agg_step_ok a s v Ha Hv Hs) as Hs'.
  pose proof Hh as [(cur & Hcur & Ht & Hn & Hc) _]. pose proof Hs as [Hst' Hnn].
  unfold step, Update, Sum_Update, Average_Update, Count_Update. rewrite Ek in *. destruct He as [Hty Hnl]. rewrite Hcur. cbn [mbind Res_bind].
  assert (exists z, sv_value cur = VInt64 z) as [z Hz].
  { rewrite Hst', Hty in Ht. unfold sv_type in Ht. destruct (sv_value cur); try discriminate Ht. by eexists. }
  unfold i64_value. rewrite Hz. cbn [mbind Res_bind].
  destruct (sv_null v) eqn:Ev; [rewrite <- Ek; by apply null_step|].
  unfold agg_step, i64_value in *. rewrite Ev, <- Hc, Hz in * by (rewrite Hn; by apply Hnn). cbn [ok_or] in *.
  apply value_write; try done; by rewrite Ek.
Qed.
End Step.

(** [Update] makes one step. *)
Lemma agg_Update_ok a st s v : agg_ok f a -> struct_ok f st -> sv_type v = ae_child (ag_expr a) ->
  state_ok a s -> agg_holds f a st s ->
  exists st', Update enum_key f a st v = Ok st' /\ writes a st st' (agg_step enum_key (ag_kind a) s v).
Proof.
  intros. destruct (ag_kind a) eqn:Ek; rewrite <- Ek;
    [by apply sum_update_ok|by apply avg_update_ok|by apply count_update_ok|apply minmax_update_ok; auto..].
Qed.
End Refines.

(** ** Closed forms *)
Section Closed.
Context (enum_key : Z -> Z -> list Z).

Definition not_null (v : SQLValue) : Prop := sv_null v = false.
#[export] Instance not_null_dec v : Decision (not_null v).
Proof. unfold not_null. apply _. Defined.

(** The number an integer value holds. *)
Definition int_of (v : SQLValue) : Z :=
  match sv_value v with VInt16 z | VInt32 z | VInt64 z => z | _ => 0 end.
Definition int_width (t : SqlType) : Z :=
  match type_id t with SMALLINT => 16 | INT => 32 | _ => 64 end.
Definition is_int (t : SqlType) : Prop :=
  t = MkType SMALLINT 0 \/ t = MkType INT 0 \/ t = MkType BIGINT 0.

Definition sum_int (vs : list SQLValue) : Z := foldr (fun v z => int_of v + z) 0 (filter not_null vs).

Lemma sum_int_app l r : sum_int (l ++ r) = sum_int l + sum_int r.
Proof.
  unfold sum_int. rewrite list.filter_app, foldr_app. generalize (filter not_null r) as rr.
  induction (filter not_null l) as [|x xs IH]; intros rr; cbn; [lia|]. rewrite IH. lia.
Qed.

Lemma sw_add_l w a b : 0 < w -> sw w (sw w a + b) = sw w (a + b).
Proof.
  intros Hw. rewrite <- (sw_uw w (sw w a + b)), <- (sw_uw w (a + b)).
  by rewrite <- uw_add, uw_sw, uw_add.
Qed.

Lemma ir_add_int t a b : is_int t -> ir_type a = t -> ir_type b = t ->
  exists c, ir_add a b = Ok c /\ ir_type c = t /\
    int_of (MkSQL c false) = sw (int_width t) (int_of (MkSQL a false) + int_of (MkSQL b false)).
Proof.
  intros [->|[->| ->]] Ha Hb; destruct a; try discriminate Ha; destruct b; try discriminate Hb; by eexists.
Qed.

(** The sum of the values that are not null, wrapped to the width of the type. *)
Lemma sum_closed t v vs : is_int t -> Forall (fun w => sv_type w = t) (v :: vs) ->
  Forall (fun w => not_null w -> is_sw (int_width t) (int_of w)) (v :: vs) ->
  let r := as_value (agg_fold enum_key SUM v vs) in
  sv_type r = t /\ (sv_null r = true <-> Forall (fun w => sv_null w = true) (v :: vs)) /\
  (sv_null r = false -> int_of r = sw (int_width t) (sum_int (v :: vs))).
Proof.
  intros Hint Ht Hr. assert (0 < int_width t) as Hw by (by destruct Hint as [->|[->| ->]]).
  unfold agg_fold. induction vs as [|w vs IH] using rev_ind.
  { apply list.Forall_cons in Ht as [Ht _]. apply list.Forall_cons in Hr as [Hr _]. cbn [foldl agg_init as_value]. split_and!; [done| |].
    - rewrite list.Forall_singleton. done.
    - intros Hn. unfold sum_int. rewrite list.filter_cons_True by done. cbn.
      rewrite Z.add_0_r, sw_id; [done|done|]. by apply Hr. }
  change (v :: vs ++ [w]) with ((v :: vs) ++ [w]) in *.
  apply list.Forall_app in Ht as [Ht Hwt]. apply list.Forall_app in Hr as [Hr Hwr].
  rewrite list.Forall_singleton in Hwt, Hwr.
  destruct (IH Ht Hr) as (It & In & Iv). rewrite foldl_app. cbn [foldl].
  set (s := foldl (agg_step enum_key SUM) (agg_init SUM v) vs) in *. clearbody s. clear IH.
  rewrite sum_int_app, list.Forall_app, list.Forall_singleton.
  unfold agg_step. destruct (sv_null w) eqn:Ew.
  { split_and!; [done| |].
    - rewrite In. naive_solver.
    - intros Hn. rewrite Iv by done. f_equal. unfold sum_int at 3. rewrite list.filter_cons_False by (unfold not_null; congruence).
      cbn. lia. }
  cbn [as_value]. assert (sum_int [w] = int_of w) as Hone
    by (unfold sum_int; rewrite list.filter_cons_True by done; cbn; lia).
  destruct (sv_null (as_value s)) eqn:Es.
  - split_and!; [done|naive_solver|]. intros _. rewrite Hone.
    assert (sum_int (v :: vs) = 0) as ->; [|rewrite sw_id; [done|done|by apply Hwr]].
    unfold sum_int. rewrite list_filter_none; [done|]. intros x Hx Hxn. unfold not_null in Hxn.
    pose proof (proj1 (list.Forall_forall _ _) (proj1 In eq_refl) x Hx). cbn in *. congruence.
  - destruct (ir_add_int t (sv_value (as_value s)) (sv_value w) Hint It Hwt) as (c & -> & Hc & Hci). cbn [ok_or].
    split_and!; [done|naive_solver|]. intros _. rewrite Hone, Hci.
    change (int_of (MkSQL (sv_value (as_value s)) false)) with (int_of (as_value s)).
    rewrite Iv by done. change (int_of (MkSQL (sv_value w) false)) with (int_of w). by apply sw_add_l.
Qed.

(** The count: one for the first row, and one for every further value. *)
Lemma count_closed v vs : Z.of_nat (length vs) < 2 ^ 62 ->
  as_value (agg_fold enum_key COUNT v vs) = MkSQL (VInt64 (1 + vec_size (filter not_null vs))) false.
Proof.
  unfold agg_fold. induction vs as [|w vs IH] using rev_ind; intros Hl; [done|].
  rewrite length_app in Hl. cbn in Hl. rewrite foldl_app. cbn [foldl].
  set (s := foldl _ _ vs) in *. unfold agg_step, vec_size in *. rewrite list.filter_app, length_app.
  destruct (sv_null w) eqn:Ew.
  - rewrite IH, list.filter_cons_False by (lia || (unfold not_null; congruence)). cbn. do 2 f_equal. lia.
  - cbn [as_value]. rewrite IH, list.filter_cons_True by (lia || done). cbn. do 2 f_equal.
    assert (length (filter not_null vs) <= length vs)%nat by apply length_filter.
    rewrite sw_id; [lia|lia|]. split; lia.
Qed.

(** The order of an extreme. *)
Definition extreme_compare (k : AggregateType) (a b : SQLValue) : comparison :=
  if bool_decide (k = MIN) then sql_compare enum_key a b else sql_compare enum_key b a.

Lemma extreme_compare_preorder k : PreorderCmp (extreme_compare k).
Proof.
  unfold extreme_compare. destruct (bool_decide (k = MIN)); [apply _|]. apply (PreorderCmp_flip (sql_compare enum_key)).
Qed.

Lemma better_compare k v cur : sv_type v = sv_type cur -> sql_ordered v -> sql_ordered cur ->
  not_null v -> not_null cur ->
  better enum_key k v cur = match extreme_compare k v cur with Lt => true | _ => false end.
Proof.
  intros Ht [Hbv Hov] [Hbc Hoc] Hv Hc. specialize (Hov Hv). specialize (Hoc Hc).
  assert (ir_ordered (sv_value v)) as Hiv.
  { unfold sv_type in Hbv. destruct (sv_value v); try done. cbn. intros ->. done. }
  assert (ir_ordered (sv_value cur)) as Hic.
  { unfold sv_type in Hbc. destruct (sv_value cur); try done. cbn. intros ->. done. }
  unfold better, extreme_compare, replaces, sql_compare, sql_key. rewrite Hv, Hc. cbn [sv_compare]. rewrite !Z.compare_refl.
  assert (match sv_value cur with VBool _ => True | _ => False end -> False) as Hnb
    by (unfold sv_type in Hbc; by destruct (sv_value cur)).
  destruct (bool_decide (k = MIN)), (sv_value cur) eqn:Ec; try (exfalso; by apply Hnb);
    rewrite ir_lt_key by (done || unfold sv_type in Ht; congruence); done.
Qed.

(** The minimum or maximum: a value of the group that no other one beats. *)
Lemma extreme_closed k t v vs : k = MIN \/ k = MAX ->
  Forall (fun w => sv_type w = t /\ (not_null w -> sql_ordered w)) (v :: vs) ->
  let r := as_value (agg_fold enum_key k v vs) in
  (sv_null r = true <-> Forall (fun w => sv_null w = true) (v :: vs)) /\
  (not_null r -> r ∈ v :: vs /\ forall w, w ∈ v :: vs -> not_null w -> extreme_compare k r w <> Gt).
Proof.
  intros Hk Ht. unfold agg_fold. pose proof (extreme_compare_preorder k) as Hpre.
  assert (forall x, extreme_compare k x x <> Gt) as Hrefl by (intros; by rewrite (cmp_refl (extreme_compare k))).
  induction vs as [|w vs IH] using rev_ind.
  { destruct Hk as [-> | ->]; cbn [foldl agg_init as_value]; rewrite list.Forall_singleton;
      (split; [done|]); intros Hn; (split; [by left|]); intros w ->%list_elem_of_singleton _; apply Hrefl. }
  change (v :: vs ++ [w]) with ((v :: vs) ++ [w]) in *. rewrite list.Forall_app, list.Forall_singleton in Ht.
  destruct Ht as [Ht [Hwt Hwo]]. destruct (IH Ht) as (In & Iv). clear IH.
  rewrite foldl_app, list.Forall_app, list.Forall_singleton. cbn [foldl].
  set (s := foldl (agg_step enum_key k) (agg_init k v) vs) in *. clearbody s.
  destruct (sv_null w) eqn:Ew.
  { unfold agg_step. rewrite Ew. split; [naive_solver|]. intros Hn. destruct (Iv Hn) as [Hin Hmin].
    split; [apply elem_of_app; by left|]. intros x [Hx| ->%list_elem_of_singleton]%elem_of_app Hxn; [by apply Hmin|].
    unfold not_null in Hxn. congruence. }
  assert (agg_step enum_key k s w = MkState (if sv_null (as_value s) || better enum_key k w (as_value s) then w else as_value s)
    (as_count s)) as -> by (unfold agg_step; rewrite Ew; by destruct Hk as [-> | ->]).
  cbn [as_value]. destruct (sv_null (as_value s)) eqn:Es; cbn [orb].
  { split; [naive_solver|]. intros _. split; [apply elem_of_app; right; by left|].
    intros x [Hx| ->%list_elem_of_singleton]%elem_of_app Hxn; [|apply Hrefl]. unfold not_null in Hxn.
    pose proof (proj1 (list.Forall_forall _ _) (proj1 In eq_refl) x Hx). cbn in *. congruence. }
  destruct (Iv Es) as [Hin Hmin]. destruct (proj1 (list.Forall_forall _ _) Ht _ Hin) as [Hst Hso].
  specialize (Hwo Ew). specialize (Hso Es). rewrite better_compare by (done || congruence).
  destruct (extreme_compare k w (as_value s)) eqn:Ec.
  all: split; [rewrite ?Es, ?Ew; naive_solver|]; intros _; split; [apply elem_of_app; (by left) || (right; by left)|].
  all: intros x [Hx| ->%list_elem_of_singleton]%elem_of_app Hxn; [try by apply Hmin|try apply Hrefl].
  - rewrite (cmp_opp (extreme_compare k) w), Ec. done.
  - apply (cmp_le_trans (extreme_compare k) _ (as_value s)); [by rewrite Ec|by apply Hmin].
  - rewrite (cmp_opp (extreme_compare k) w), Ec. done.
Qed.

(** The values that are not null, as doubles. *)
Definition floats (vs : list SQLValue) : list spec_float := to_float <$> filter not_null vs.

Lemma floats_app l r : floats (l ++ r) = floats l ++ floats r.
Proof. unfold floats. by rewrite list.filter_app, fmap_app. Qed.

Lemma floats_null w : sv_null w = true -> floats [w] = [].
Proof. intros H. unfold floats. by rewrite list.filter_cons_False by (unfold not_null; congruence). Qed.

Lemma floats_value w : sv_null w = false -> floats [w] = [to_float w].
Proof. intros H. unfold floats. by rewrite list.filter_cons_True by done. Qed.

Lemma floats_nil vs : Forall (fun w => sv_null w = true) vs <-> floats vs = [].
Proof.
  unfold floats. induction vs as [|w vs IH]; [done|]. rewrite list.Forall_cons, IH. destruct (sv_null w) eqn:E.
  - rewrite list.filter_cons_False by (unfold not_null; congruence). tauto.
  - rewrite list.filter_cons_True by done. split; [by intros [? _]|done].
Qed.

(** Doubles added one after the other, and the mean that is corrected with each value. *)
Definition float_sum (xs : list spec_float) : spec_float :=
  match xs with [] => S754_nan | x :: xs => foldl F_add x xs end.

Definition mean_step (m : spec_float * spec_float) (x : spec_float) : spec_float * spec_float :=
  let c := F_add m.2 (F_of_Z 1) in (F_add m.1 (F_div (F_sub x m.1) c), c).
Definition running_mean (xs : list spec_float) : spec_float * spec_float :=
  match xs with [] => (S754_nan, F_of_Z 1) | x :: xs => foldl mean_step (x, F_of_Z 1) xs end.

Lemma float_sum_snoc xs x : xs <> [] -> float_sum (xs ++ [x]) = F_add (float_sum xs) x.
Proof. destruct xs as [|y xs]; [done|]. intros _. cbn. by rewrite foldl_app. Qed.

Lemma running_mean_snoc xs x : xs <> [] -> running_mean (xs ++ [x]) = mean_step (running_mean xs) x.
Proof. destruct xs as [|y xs]; [done|]. intros _. cbn. by rewrite foldl_app. Qed.

Lemma real_value v : sv_type v = MkType REAL 0 -> sv_value v = VFloat64 (to_float v).
Proof. unfold sv_type, to_float. by destruct (sv_value v). Qed.

(** The sum of doubles. *)
Lemma float_sum_closed v vs : Forall (fun w => sv_type w = MkType REAL 0) (v :: vs) ->
  let r := as_value (agg_fold enum_key SUM v vs) in
  sv_type r = MkType REAL 0 /\ (sv_null r = true <-> floats (v :: vs) = []) /\
  (sv_null r = false -> sv_value r = VFloat64 (float_sum (floats (v :: vs)))).
Proof.
  unfold agg_fold. induction vs as [|w vs IH] using rev_ind; intros Ht.
  { apply list.Forall_cons in Ht as [Ht _]. cbn [foldl agg_init as_value]. rewrite <- floats_nil, list.Forall_singleton.
    split_and!; [done|done|]. intros Hn. rewrite floats_value by done. by apply real_value. }
  change (v :: vs ++ [w]) with ((v :: vs) ++ [w]) in *. apply list.Forall_app in Ht as [Ht Hw].
  rewrite list.Forall_singleton in Hw. destruct (IH Ht) as (It & In & Iv). rewrite foldl_app. cbn [foldl].
  set (s := foldl (agg_step enum_key SUM) (agg_init SUM v) vs) in *. clearbody s. clear IH.
  rewrite floats_app. unfold agg_step. destruct (sv_null w) eqn:Ew; [by rewrite floats_null, app_nil_r|].
  rewrite (floats_value w) by done. cbn [as_value]. destruct (sv_null (as_value s)) eqn:Es.
  - rewrite (proj1 In eq_refl), Ew. cbn. split_and!; [done|done|]. intros _. by apply real_value.
  - rewrite (Iv eq_refl), (real_value w) by done. cbn [ir_add ok_or sv_null sv_value].
    split_and!; [done|split; [done|by intros [_ ?]%app_nil]|]. intros _. rewrite float_sum_snoc; [done|].
    intros E. apply In in E. done.
Qed.

(** The average. *)
Lemma avg_closed v vs : let s := agg_fold enum_key AVG v vs in
  as_count s = (running_mean (floats (v :: vs))).2 /\ (sv_null (as_value s) = true <-> floats (v :: vs) = []) /\
  (sv_null (as_value s) = false -> sv_value (as_value s) = VFloat64 (running_mean (floats (v :: vs))).1).
Proof.
  unfold agg_fold. induction vs as [|w vs IH] using rev_ind.
  { cbn [foldl agg_init as_value as_count sv_null sv_value]. destruct (sv_null v) eqn:Ev.
    - by rewrite floats_null.
    - by rewrite floats_value. }
  change (v :: vs ++ [w]) with ((v :: vs) ++ [w]) in *. cbn zeta in *. rewrite foldl_app. cbn [foldl].
  destruct IH as (Ic & In & Iv). set (s := foldl (agg_step enum_key AVG) (agg_init AVG v) vs) in *. clearbody s.
  rewrite floats_app. unfold agg_step. destruct (sv_null w) eqn:Ew; [by rewrite floats_null, app_nil_r|].
  rewrite (floats_value w) by done. cbn [as_value]. destruct (sv_null (as_value s)) eqn:Es.
  - pose proof (proj1 In eq_refl) as E. rewrite E in Ic |- *. cbn. by split_and!.
  - assert (floats (v :: vs) <> []) as Hne by (intros E; apply (proj2 In) in E; congruence).
    assert (to_float (as_value s) = (running_mean (floats (v :: vs))).1) as Em by (unfold to_float; by rewrite Iv).
    rewrite running_mean_snoc, Em by done. unfold mean_step. rewrite Ic. cbn [as_value as_count sv_null sv_value fst snd].
    split_and!; [done| |done]. split; [done|]. by intros [_ ?]%app_nil.
Qed.

(** What SQL asks of the value [x] of an aggregate over the non-empty column [vs]. *)
Definition agg_meaning (k : AggregateType) (vs : list SQLValue) (x : SQLValue) : Prop :=
  let all_null := Forall (fun w => sv_null w = true) vs in
  let t := sv_type x in
  match k with
  | SUM =>
      (is_int t -> Forall (fun w => not_null w -> is_sw (int_width t) (int_of w)) vs ->
        (sv_null x = true <-> all_null) /\ (not_null x -> int_of x = sw (int_width t) (sum_int vs))) /\
      (t = MkType REAL 0 ->
        (sv_null x = true <-> all_null) /\ (not_null x -> sv_value x = VFloat64 (float_sum (floats vs))))
  | AVG => (sv_null x = true <-> all_null) /\ (not_null x -> sv_value x = VFloat64 (running_mean (floats vs)).1)
  | MIN | MAX => Forall (fun w => not_null w -> sql_ordered w) vs ->
      (sv_null x = true <-> all_null) /\
      (not_null x -> x ∈ vs /\ forall w, w ∈ vs -> not_null w -> extreme_compare k x w <> Gt)
  | COUNT => vec_size vs < 2 ^ 62 ->
      x = MkSQL (VInt64 (vec_size (filter not_null vs) +
                         match vs with v :: _ => if sv_null v then 1 else 0 | [] => 0 end)) false
  end.

Lemma agg_fold_meaning k v vs x t : Forall (fun w => sv_type w = t) (v :: vs) -> (k = SUM -> sv_type x = t) ->
  sql_equiv x (as_value (agg_fold enum_key k v vs)) -> agg_meaning k (v :: vs) x.
Proof.
  intros Ht Hxt Hx. pose proof Hx as (_ & Hn & _).
  assert (not_null x -> x = as_value (agg_fold enum_key k v vs)) as Heq.
  { intros H. apply get_not_null; [done|]. unfold not_null in H. congruence. }
  unfold agg_meaning. cbv zeta. rewrite Hn. destruct k.
  - rewrite (Hxt eq_refl). split.
    + intros Hint Hr. destruct (sum_closed t v vs Hint Ht Hr) as (_ & H1 & H2). split; [done|].
      intros H. rewrite (Heq H). apply H2. unfold not_null in H |- *. congruence.
    + intros ->. destruct (float_sum_closed v vs Ht) as (_ & H1 & H2). rewrite floats_nil. split; [done|].
      intros H. rewrite (Heq H). apply H2. unfold not_null in H |- *. congruence.
  - destruct (avg_closed v vs) as (_ & H1 & H2). rewrite floats_nil. split; [done|].
    intros H. rewrite (Heq H). apply H2. unfold not_null in H |- *. congruence.
  - intros Hl. rewrite count_closed in Heq, Hn by (unfold vec_size in Hl; cbn [length] in Hl; lia).
    rewrite (Heq Hn). do 2 f_equal. unfold vec_size. destruct (sv_null v) eqn:Ev.
    + rewrite list.filter_cons_False by (unfold not_null; congruence). lia.
    + rewrite list.filter_cons_True by done. cbn [length]. lia.
  - intros Ho. destruct (extreme_closed MAX t v vs) as (H1 & H2); [by right|apply list.Forall_and; by split|].
    split; [done|]. intros H. rewrite (Heq H). apply H2. unfold not_null in H |- *. congruence.
  - intros Ho. destruct (extreme_closed MIN t v vs) as (H1 & H2); [by left|apply list.Forall_and; by split|].
    split; [done|]. intros H. rewrite (Heq H). apply H2. unfold not_null in H |- *. congruence.
Qed.

(** The type of an aggregate. *)
Lemma agg_fold_type k v vs t ty : Forall (fun w => sv_type w = t) (v :: vs) -> CalculateAggTypeId k t = Ok ty ->
  sv_type (as_value (agg_fold enum_key k v vs)) = ty.
Proof.
  intros [Hv Hvs]%list.Forall_cons Hty. unfold agg_fold.
  assert (sv_type (as_value (agg_init k v)) = ty) as Hs.
  { destruct k; cbn in Hty |- *; repeat case_match; congruence. }
  revert Hs. generalize (agg_init k v) as s. induction Hvs as [|w vs Hw _ IH]; intros s Hs; [done|]. cbn [foldl]. apply IH.
  unfold agg_step. destruct (sv_null w); [done|]. destruct k; cbn [as_value].
  - cbn in Hty. destruct (is_number (type_id t)) eqn:E; [|discriminate]. injection Hty as <-. destruct (sv_null (as_value s)); [done|].
    destruct s as [[cur n] c]. destruct w as [w nw]. unfold sv_type in *. cbn [sv_value as_value] in *. subst t.
    destruct w; try discriminate E; destruct cur; try discriminate Hs; done.
  - cbn in Hty. destruct (is_number (type_id t)); [|discriminate]. injection Hty as <-. by destruct (sv_null (as_value s)).
  - by injection Hty as <-.
  - assert (t = ty) as <- by (cbn in Hty; destruct (type_id t); congruence). by case_match.
  - assert (t = ty) as <- by (cbn in Hty; destruct (type_id t); congruence). by case_match.
Qed.

(** The meaning does not depend on what a null holds. *)
Definition same_value (v w : SQLValue) : Prop := sv_null v = sv_null w /\ (not_null v -> v = w).

Lemma same_filter vs ws : Forall2 same_value vs ws -> filter not_null vs = filter not_null ws.
Proof.
  induction 1 as [|v w vs ws [Hn Hv] _ IH]; [done|]. destruct (decide (not_null v)) as [E|E].
  - rewrite <- (Hv E), !list.filter_cons_True by done. by rewrite IH.
  - rewrite !list.filter_cons_False by (unfold not_null in *; congruence). done.
Qed.
Lemma same_null vs ws : Forall2 same_value vs ws ->
  Forall (fun w => sv_null w = true) vs <-> Forall (fun w => sv_null w = true) ws.
Proof. induction 1 as [|v w vs ws [Hn _] _ IH]; [done|]. by rewrite !list.Forall_cons, Hn, IH. Qed.
Lemma same_forall (P : SQLValue -> Prop) vs ws : Forall2 same_value vs ws ->
  Forall (fun w => not_null w -> P w) vs <-> Forall (fun w => not_null w -> P w) ws.
Proof.
  induction 1 as [|v w vs ws [Hn Hv] _ IH]; [done|]. rewrite !list.Forall_cons, IH. unfold not_null in *. rewrite <- Hn.
  split; (intros [H1 H2]; split; [|done]; intros H; specialize (Hv H); subst; auto).
Qed.
Lemma same_elem vs ws v : Forall2 same_value vs ws -> not_null v -> v ∈ vs <-> v ∈ ws.
Proof.
  intros Hs Hv. pose proof (same_filter vs ws Hs) as E.
  assert (v ∈ filter not_null vs <-> v ∈ filter not_null ws) as H by (by rewrite E).
  rewrite !list_elem_of_filter in H. tauto.
Qed.

Lemma agg_meaning_same k vs ws x : Forall2 same_value vs ws -> agg_meaning k vs x -> agg_meaning k ws x.
Proof.
  intros Hs. pose proof (same_filter vs ws Hs) as Hf. pose proof (same_null vs ws Hs) as Hn.
  unfold agg_meaning, sum_int, floats. destruct k; cbv zeta.
  - intros [H1 H2]. rewrite <- Hf, <- Hn. split; [|done]. intros Ht Hr. apply H1; [done|].
    by apply (same_forall (fun w => is_sw (int_width (sv_type x)) (int_of w)) vs ws).
  - by rewrite <- Hf, <- Hn.
  - unfold vec_size. rewrite <- Hf, <- (list.Forall2_length _ _ _ Hs). by destruct Hs as [|v w vs ws [-> _] _].
  - rewrite <- (same_forall sql_ordered vs ws Hs), <- Hn. intros H Ho. destruct (H Ho) as [H1 H2]. split; [done|].
    intros Hx. destruct (H2 Hx) as [Hin Hle]. split; [by apply (same_elem vs ws)|].
    intros w Hw Hwn. apply Hle; [|done]. by apply (same_elem vs ws).
  - rewrite <- (same_forall sql_ordered vs ws Hs), <- Hn. intros H Ho. destruct (H Ho) as [H1 H2]. split; [done|].
    intros Hx. destruct (H2 Hx) as [Hin Hle]. split; [by apply (same_elem vs ws)|].
    intros w Hw Hwn. apply Hle; [|done]. by apply (same_elem vs ws).
Qed.
End Closed.

(** ** The aggregators mean what SQL says *)
Section Values.
Context (enum_key : Z -> Z -> list Z) (f : StructBuilder).

(** The calls of the operators for the column of a group: [Initialize] with the first
    value, [Update] with every further one, and [Get] in the end. *)
Definition run_updates (a : Aggregator) (st : Struct) (vs : list SQLValue) : Res Struct :=
  foldl (fun r w => st ← r; Update enum_key f a st w) (Ok st) vs.
Definition run_aggregator (a : Aggregator) (st : Struct) (v : SQLValue) (vs : list SQLValue) : Res SQLValue :=
  st ← Initialize f a st v; st ← run_updates a st vs; Agg_Get f a st.

Lemma run_updates_ok a st s vs : agg_ok f a -> struct_ok f st -> state_ok a s -> agg_holds f a st s ->
  Forall (fun w => sv_type w = ae_child (ag_expr a)) vs ->
  exists st', run_updates a st vs = Ok st' /\ struct_ok f st' /\ state_ok a (foldl (agg_step enum_key (ag_kind a)) s vs) /\
    agg_holds f a st' (foldl (agg_step enum_key (ag_kind a)) s vs).
Proof.
  intros Ha Hst Hs Hh Ht. revert st s Hst Hs Hh. unfold run_updates.
  induction Ht as [|w vs Hw Ht IH]; intros st s Hst Hs Hh; [by exists st|].
  destruct (agg_Update_ok enum_key f a st s w Ha Hst Hw Hs Hh) as (st' & E & Hok & Hh' & _). cbn [foldl mbind Res_bind].
  rewrite E. apply IH; [done| |done]. by eapply agg_step_ok.
Qed.

(** C15. The aggregators of src/compile/proxy/aggregator.cc mean what SQL says.  Started
    on the first value of a column and updated with every further one, the fields of a
    struct hold the fold that grouping refers to, and reading the aggregate returns a
    value of the aggregate's type: for SUM over integers the sum of the values that are
    not null, modulo the width, over doubles these values added one after the other; for
    AVG their running mean; for MIN and MAX one of them that no other one beats; each of
    these null exactly when every value is null; for COUNT the number of values that are
    not null, plus one if the first one is null.  MIN and MAX need values in an order (no
    NaN), COUNT fewer than 2^62. *)
Theorem aggregate_values a st v vs : agg_ok f a -> struct_ok f st ->
  Forall (fun w => sv_type w = ae_child (ag_expr a)) (v :: vs) ->
  exists x, run_aggregator a st v vs = Ok x /\ sv_type x = ae_type (ag_expr a) /\
    sql_equiv x (as_value (agg_fold enum_key (ag_kind a) v vs)) /\
    agg_meaning enum_key (ag_kind a) (v :: vs) x.
Proof.
  intros Ha Hst Ht. pose proof Ht as [Hv Hvs]%list.Forall_cons. unfold run_aggregator.
  destruct (Initialize_ok f a st v Ha Hst Hv) as (st1 & -> & Hok1 & Hh1 & _). cbn [mbind Res_bind].
  destruct (run_updates_ok a st1 _ vs Ha Hok1 (agg_init_ok f a v Ha Hv) Hh1 Hvs) as (st2 & -> & _ & [Hty _] & [(x & Hx & Hxe) _]).
  cbn [mbind Res_bind]. exists x. assert (sv_type x = ae_type (ag_expr a)) as Htx by (destruct Hxe as [E _]; congruence).
  split_and!; [done..|]. eapply agg_fold_meaning; [exact Ht| |done].
  intros Hk. pose proof (agg_expr_type f a Ha) as He. rewrite Hk in He. destruct He as [He _]. congruence.
Qed.
End Values.

(** ** An example *)
Module AggregatorDemo.
Definition int_type : SqlType := MkType INT 0.
Definition int (z : Z) : SQLValue := MkSQL (VInt32 z) false.
Definition null : SQLValue := MkSQL (VInt32 0) true.
Definition sum_expr : AggregateExpression := MkAggExpr SUM int_type int_type true.
Definition fields : StructBuilder := (AddFields StructBuilder_new sum_expr).1.
Definition sum : Aggregator := (AddFields StructBuilder_new sum_expr).2.
Definition memory : Struct := [MkCell (VInt32 7) true].

Lemma sum_ok : agg_ok fields sum.
Proof. split; [done|by split_and!|done]. Defined.

(** The sum of 1, null and 3. *)
Lemma aggregate_values_witness : exists x, run_aggregator (fun _ _ => []) fields sum memory (int 1) [null; int 3] = Ok x /\
  not_null x /\ int_of x = 4.
Proof.
  destruct (aggregate_values (fun _ _ => []) fields sum memory (int 1) [null; int 3]) as (x & E & Hxt & _ & Hs & _).
  - apply sum_ok.
  - repeat constructor.
  - repeat constructor.
  - exists x. split; [done|]. rewrite Hxt in Hs. destruct Hs as [Hnull Hv]; [right; by left|repeat constructor; cbn; lia|].
    assert (not_null x) as Hn.
    { unfold not_null. destruct (sv_null x); [|done]. assert (Forall (fun w => sv_null w = true) [int 1; null; int 3]) as H by by apply Hnull.
      by apply list.Forall_cons in H as [? _]. }
    split; [done|]. by rewrite Hv.
Defined.

(** A first value that is null is counted. *)
Definition count_expr : AggregateExpression := MkAggExpr COUNT int_type (MkType BIGINT 0) false.
Example null_is_counted : run_aggregator (fun _ _ => []) (AddFields StructBuilder_new count_expr).1
  (AddFields StructBuilder_new count_expr).2 [MkCell (VInt64 0) false] null [null; int 3] = Ok (MkSQL (VInt64 2) false).
Proof. vm_compute. reflexivity. Qed.
End AggregatorDemo.
