(* ===== verification/Expression.v ===== *)
(** * Expressions

    The scalar expressions of a plan (src/plan/expression/) with the type and the
    nullability their constructors compute, and the code that
    [ExpressionTranslator] (src/compile/translators/expression_translator.cc)
    generates for them, as the value it computes from the rows of the operator's
    children.  All errors are errors of the translation. *)
From Stdlib Require Import SpecFloat.
From S2P Require Import Prelude ProgramBuilder Date SqlValue Struct Aggregator.

(** ** The model *)
Inductive UnaryOp : Set := OpNOT | OpIS_NULL.

Inductive Expression : Type :=
| LiteralExpr (value : IRValue) (null : bool)
| ColumnRefExpr (t : SqlType) (nullable : bool) (child_idx column_idx : Z)
| VirtualColumnRefExpr (t : SqlType) (nullable : bool) (column_idx : Z)
| UnaryArithmeticExpr (op : UnaryOp) (child : Expression)
| BinaryArithmeticExpr (op : BinaryOp) (left right : Expression)
| RegexpMatchingExpr (child : Expression) (regexp : list Z)
| CaseExpr (cond then_ else_ : Expression)
| IntToFloatConversionExpr (child : Expression)
| ExtractExpr (child : Expression)
| EnumInExpr (child : Expression) (values : list Z)
| AggregateExpr (kind : AggregateType) (child : Expression).

Definition Boolean : SqlType := MkType BOOLEAN 0.
Definition is_type (t : TypeId) (x : SqlType) : bool := bool_decide (type_id x = t).

(** The literals: [NULL] of a type has a value of that type. *)
Definition null_value (t : SqlType) : IRValue :=
  match type_id t with
  | BOOLEAN => VBool false | SMALLINT => VInt16 0 | INT => VInt32 0 | BIGINT => VInt64 0
  | REAL => VFloat64 (F_of_Z 0) | TEXT => VString [] | DATE => VDate (i32 (Build (MkDate 2000 1 1)))
  | ENUM => VEnum (enum_id t) (-1)
  end.
Definition NullLiteral (t : SqlType) : Expression := LiteralExpr (null_value t) true.

(** ** Types *)
Definition CalculateBinaryType (op : BinaryOp) (left right : SqlType) : Res SqlType :=
  if is_type ENUM left then
    match op with
    | OpEQ | OpNEQ =>
        if negb (bool_decide (left = right)) then Throw "Require same type arguments" else Ok Boolean
    | OpLT | OpLEQ | OpGT | OpGEQ | OpSTARTS_WITH | OpENDS_WITH | OpCONTAINS =>
        if negb (is_type TEXT right) && negb (bool_decide (left = right))
        then Throw "Require same type arguments" else Ok Boolean
    | _ => Throw "Invalid expr type"
    end
  else if is_type ENUM right then Throw "not supported yet"
  else if negb (bool_decide (left = right)) then Throw "Require same type arguments"
  else
    match op with
    | OpAND | OpOR | OpEQ | OpNEQ | OpLT | OpLEQ | OpGT | OpGEQ
    | OpSTARTS_WITH | OpENDS_WITH | OpCONTAINS => Ok Boolean
    | _ => Ok left
    end.

Definition CalculateUnaryType (op : UnaryOp) (child : SqlType) : Res SqlType :=
  match op with
  | OpNOT => if negb (is_type BOOLEAN child) then Throw "Not boolean child" else Ok Boolean
  | OpIS_NULL => Ok Boolean
  end.

Definition CalculateNullability (op : UnaryOp) (child : bool) : bool :=
  match op with OpIS_NULL => false | OpNOT => child end.

Definition CalculateRegexpType (child : SqlType) : Res SqlType :=
  if negb (is_type TEXT child) && negb (is_type ENUM child)
  then Throw "Invalid child type for LIKE. Expected text/enum." else Ok Boolean.

Definition CalculateType (cond left right : SqlType) : Res SqlType :=
  if negb (is_type BOOLEAN cond) then Throw "Non-boolean condition"
  else if negb (bool_decide (left = right)) then Throw "Case must have same type arguments"
  else Ok left.

Definition CalculateConvTypeId (child : SqlType) : Res SqlType :=
  if negb (is_type BIGINT child) && negb (is_type INT child) && negb (is_type SMALLINT child)
  then Throw "Non-integral child type for conversion." else Ok (MkType REAL 0).

Definition CalculateExtractTypeId (child : SqlType) : Res SqlType :=
  if negb (is_type DATE child) then Throw "Non-date child type for extract." else Ok (MkType INT 0).

Definition CalculateEnumInType (child : SqlType) : Res SqlType :=
  if negb (is_type ENUM child) then Throw "Invalid child type for Enum in. Expected enum." else Ok Boolean.

(** [Type()] of an expression: its constructor and those of its children run. *)
Fixpoint Type_ (e : Expression) : Res SqlType :=
  match e with
  | LiteralExpr v _ => Ok (ir_type v)
  | ColumnRefExpr t _ _ _ | VirtualColumnRefExpr t _ _ => Ok t
  | UnaryArithmeticExpr op c => t ← Type_ c; CalculateUnaryType op t
  | BinaryArithmeticExpr op l r => tl ← Type_ l; tr ← Type_ r; CalculateBinaryType op tl tr
  | RegexpMatchingExpr c _ => t ← Type_ c; CalculateRegexpType t
  | CaseExpr c l r => tc ← Type_ c; tl ← Type_ l; tr ← Type_ r; CalculateType tc tl tr
  | IntToFloatConversionExpr c => t ← Type_ c; CalculateConvTypeId t
  | ExtractExpr c => t ← Type_ c; CalculateExtractTypeId t
  | EnumInExpr c _ => t ← Type_ c; CalculateEnumInType t
  | AggregateExpr kind c => t ← Type_ c; CalculateAggTypeId kind t
  end.

Fixpoint Nullable (e : Expression) : bool :=
  match e with
  | LiteralExpr _ null => null
  | ColumnRefExpr _ n _ _ | VirtualColumnRefExpr _ n _ => n
  | AggregateExpr kind _ => negb (bool_decide (kind = COUNT))
  | UnaryArithmeticExpr op c => CalculateNullability op (Nullable c)
  | BinaryArithmeticExpr _ l r => Nullable l || Nullable r
  | RegexpMatchingExpr _ _ | EnumInExpr _ _ => false
  | CaseExpr _ l r => Nullable l || Nullable r
  | IntToFloatConversionExpr c | ExtractExpr c => Nullable c
  end.

(** ** Generated code *)

(** The current rows of the operator's children and its virtual columns. *)
Record Env := MkEnv { env_children : list (list SQLValue); env_virtual : list SQLValue }.

(** Both branches are generated (unless the condition is a constant) and have one type. *)
Definition NullableTernary (cond : bool) (then_ else_ : Res SQLValue) : Res SQLValue :=
  t ← then_; e ← else_;
  if negb (bool_decide (sv_type t = sv_type e)) then Throw "Must be same type returned from each branch."
  else Ok (if cond then t else e).

Definition as_bool (v : SQLValue) : Res bool :=
  match sv_value v with VBool b => Ok b | _ => Throw "std::bad_cast" end.

Definition bool_value (b null : bool) : SQLValue := MkSQL (VBool b) null.

(** [CmpEqConstI32]: any of the constants. *)
Definition CmpEqConst (x : Z) (constants : list Z) : bool := existsb (Z.eqb x) constants.

(** [n] values from [curr] on, filled up with [-1] to [size] constants. *)
Definition constants_from (values : list Z) (curr n size : nat) : list Z :=
  take n (drop curr values) ++ replicate (size - n) (-1).

(** [GenerateValues]: comparisons with eight or four constants at a time. *)
Fixpoint GenerateValues (fuel : nat) (x : Z) (values : list Z) (curr : nat) : Res bool :=
  match fuel with
  | O => NoFuel
  | S fuel =>
      let num_remaining := (length values - curr)%nat in
      if decide (8 < num_remaining)%nat then
        rest ← GenerateValues fuel x values (curr + 8);
        Ok (if CmpEqConst x (constants_from values curr 8 8) then true else rest)
      else if decide (5 <= num_remaining)%nat then Ok (CmpEqConst x (constants_from values curr num_remaining 8))
      else if decide (2 <= num_remaining)%nat then Ok (CmpEqConst x (constants_from values curr num_remaining 4))
      else v ← vec_at values (Z.of_nat curr); Ok (x =? v)
  end.

Section Compute.
(** The keys of the enums and the match of a string by a regular expression. *)
Context (enum_key : Z -> Z -> list Z) (like : list Z -> list Z -> bool) (env : Env).

Definition eval_binary (op : BinaryOp) (lhs : SQLValue) (rhs : Res SQLValue) : Res SQLValue :=
  match op with
  | OpAND =>
      b ← as_bool lhs;
      NullableTernary (sv_null lhs) (Ok (bool_value false true))
        (NullableTernary b rhs (Ok (bool_value false false)))
  | OpOR =>
      b ← as_bool lhs;
      NullableTernary (sv_null lhs) rhs
        (NullableTernary b (Ok (bool_value true false)) rhs)
  | _ => r ← rhs; EvaluateBinary enum_key op lhs r
  end.

Definition eval_regexp (lhs : SQLValue) (regexp : list Z) : Res SQLValue :=
  NullableTernary (sv_null lhs) (Ok (bool_value false false))
    match sv_value lhs with
    | VEnum id z => Ok (bool_value (like (enum_key id z) regexp) false)
    | VString s => Ok (bool_value (like s regexp) false)
    | _ => Throw "std::bad_cast"
    end.

Definition eval_conversion (v : SQLValue) : Res SQLValue :=
  NullableTernary (sv_null v) (Ok (MkSQL (VFloat64 (F_of_Z 0)) false))
    match sv_value v with
    | VInt16 z | VInt32 z | VInt64 z => Ok (MkSQL (VFloat64 (F_of_Z z)) false)
    | _ => Throw "Not an integer input."
    end.

Definition eval_extract (v : SQLValue) : Res SQLValue :=
  NullableTernary (sv_null v) (Ok (MkSQL (VInt32 0) true))
    match sv_value v with
    | VDate z => Ok (MkSQL (VInt32 (ExtractYear z)) false)
    | _ => UB
    end.

Definition eval_enum_in (lhs : SQLValue) (values : list Z) : Res SQLValue :=
  NullableTernary (sv_null lhs) (Ok (bool_value false false))
    match sv_value lhs with
    | VEnum _ x => b ← GenerateValues (S (length values)) x values 0; Ok (bool_value b false)
    | _ => Throw "std::bad_cast"
    end.

Fixpoint Compute_ (e : Expression) : Res SQLValue :=
  match e with
  | LiteralExpr v null => Ok (MkSQL v null)
  | ColumnRefExpr _ _ child col => values ← vec_at (env_children env) child; vec_at values col
  | VirtualColumnRefExpr _ _ col => vec_at (env_virtual env) col
  | UnaryArithmeticExpr OpIS_NULL c => v ← Compute_ c; Ok (bool_value (sv_null v) false)
  | UnaryArithmeticExpr OpNOT c =>
      v ← Compute_ c;
      NullableTernary (sv_null v) (Ok (bool_value false true)) (b ← as_bool v; Ok (bool_value (negb b) false))
  | BinaryArithmeticExpr op l r => lhs ← Compute_ l; eval_binary op lhs (Compute_ r)
  | RegexpMatchingExpr c regexp => lhs ← Compute_ c; eval_regexp lhs regexp
  | CaseExpr c l r =>
      cond ← Compute_ c;
      b ← match sv_value cond with VBool b => Ok b | _ => UB end;
      NullableTernary (sv_null cond) (Compute_ r) (NullableTernary b (Compute_ l) (Compute_ r))
  | IntToFloatConversionExpr c => v ← Compute_ c; eval_conversion v
  | ExtractExpr c => v ← Compute_ c; eval_extract v
  | EnumInExpr c values => lhs ← Compute_ c; eval_enum_in lhs values
  | AggregateExpr _ _ => Throw "Aggregate expression can't be derived"
  end.
End Compute.

(** ** Type soundness *)

(** The operators the translator has code for at the types of their operands; the
    constructors check less. *)
Definition is_match (op : BinaryOp) : bool :=
  match op with OpSTARTS_WITH | OpENDS_WITH | OpCONTAINS => true | _ => false end.
Definition is_arith (op : BinaryOp) : bool :=
  match op with OpADD | OpSUB | OpMUL => true | _ => false end.

Definition op_fits (op : BinaryOp) (l r : SqlType) : bool :=
  match type_id l with
  | BOOLEAN => bool_decide (l = r) && match op with OpAND | OpOR | OpEQ | OpNEQ => true | _ => false end
  | SMALLINT | INT | BIGINT => bool_decide (l = r) && (is_arith op || is_compare op)
  | REAL => bool_decide (l = r) && (is_arith op || is_compare op || match op with OpDIV => true | _ => false end)
  | DATE => bool_decide (l = r) && is_compare op
  | TEXT => bool_decide (l = r) && (is_compare op || is_match op)
  | ENUM =>
      match op with
      | OpEQ | OpNEQ => bool_decide (l = r)
      | OpLT | OpLEQ | OpGT | OpGEQ => bool_decide (l = r) || bool_decide (r = MkType TEXT 0)
      | OpSTARTS_WITH | OpENDS_WITH | OpCONTAINS => bool_decide (r = MkType TEXT 0)
      | _ => false
      end
  end.

Fixpoint translatable (e : Expression) : bool :=
  match e with
  | LiteralExpr _ _ | ColumnRefExpr _ _ _ _ | VirtualColumnRefExpr _ _ _ => true
  | AggregateExpr _ _ => false
  | UnaryArithmeticExpr _ c | RegexpMatchingExpr c _ | IntToFloatConversionExpr c | ExtractExpr c => translatable c
  | BinaryArithmeticExpr op l r =>
      translatable l && translatable r &&
      match Type_ l, Type_ r with Ok tl, Ok tr => op_fits op tl tr | _, _ => false end
  | CaseExpr c l r => translatable c && translatable l && translatable r
  | EnumInExpr c values => translatable c && negb (bool_decide (values = []))
  end.

(** The column references read values of their type. *)
Fixpoint refs_ok (env : Env) (e : Expression) : Prop :=
  match e with
  | ColumnRefExpr t n child col =>
      exists row v, vec_at (env_children env) child = Ok row /\ vec_at row col = Ok v /\ fits t n v
  | VirtualColumnRefExpr t n col => exists v, vec_at (env_virtual env) col = Ok v /\ fits t n v
  | LiteralExpr _ _ | AggregateExpr _ _ => True
  | UnaryArithmeticExpr _ c | RegexpMatchingExpr c _ | IntToFloatConversionExpr c | ExtractExpr c
  | EnumInExpr c _ => refs_ok env c
  | BinaryArithmeticExpr _ l r => refs_ok env l /\ refs_ok env r
  | CaseExpr c l r => refs_ok env c /\ refs_ok env l /\ refs_ok env r
  end.

Lemma NullableTernary_Ok c a b : sv_type a = sv_type b ->
  NullableTernary c (Ok a) (Ok b) = Ok (if c then a else b).
Proof. intros H. unfold NullableTernary. cbn [mbind Res_bind]. by rewrite bool_decide_eq_true_2. Qed.

Lemma value_of_type v t : ir_type v = t ->
  match type_id t with
  | BOOLEAN => exists b, v = VBool b | SMALLINT => exists z, v = VInt16 z | INT => exists z, v = VInt32 z
  | BIGINT => exists z, v = VInt64 z | REAL => exists f, v = VFloat64 f | DATE => exists z, v = VDate z
  | TEXT => exists s, v = VString s | ENUM => exists z, v = VEnum (enum_id t) z
  end.
Proof. intros <-. destruct v; cbn; eauto. Qed.

(** The operators of [EvaluateBinary]: a result of the type the constructor says,
    null exactly if an operand is. *)
Lemma EvaluateBinary_typed enum_key op a b : op_fits op (sv_type a) (sv_type b) = true ->
  exists v, EvaluateBinary enum_key op a b = Ok v /\
    CalculateBinaryType op (sv_type a) (sv_type b) = Ok (sv_type v) /\ sv_null v = sv_null a || sv_null b.
Proof.
  intros H. destruct a as [a na], b as [b nb]. unfold sv_type in *. cbn [sv_value] in *.
  unfold op_fits in H. destruct a; cbn [ir_type type_id] in H.
  1-7: apply andb_true_iff in H as [E H]; apply bool_decide_eq_true in E; destruct b; try discriminate E.
  1-7: destruct op; try discriminate H; destruct na, nb; (eexists; split; [reflexivity|split; reflexivity]).
  destruct op; try discriminate H; rewrite ?orb_true_iff, ?bool_decide_eq_true in H; destruct b.
  all: try discriminate H; try (destruct H as [H|H]; discriminate H).
  all: try (destruct H as [H|H]; [|discriminate H]); try (injection H as H; subst).
  all: unfold EvaluateBinary, EvaluateBinaryEnum, unless_null; cbn [sv_value sv_null]; rewrite ?Z.eqb_refl.
  all: (eexists; split; [reflexivity|]); split; [|by destruct na, nb].
  all: unfold CalculateBinaryType; cbn; rewrite ?bool_decide_eq_true_2 by done; by destruct na, nb.
Qed.

(** *** Lists of enum values *)
Lemma CmpEqConst_from x values curr n size : CmpEqConst x (constants_from values curr n size) = true <->
  x ∈ take n (drop curr values) \/ (n < size)%nat /\ x = -1.
Proof.
  unfold CmpEqConst, constants_from. rewrite existsb_app, orb_true_iff, !existsb_exists. setoid_rewrite Z.eqb_eq.
  split.
  - intros [(y & Hy & ->)|(y & Hy & ->)]; [left; by apply list_elem_of_In|right].
    apply list_elem_of_In, elem_of_replicate in Hy. lia.
  - intros [Hx|[Hn ->]]; [left; exists x|right; exists (-1)]; (split; [|done]); apply list_elem_of_In; [done|].
    apply elem_of_replicate. lia.
Qed.

Lemma GenerateValues_spec fuel x values curr : (length values - curr < fuel)%nat -> (curr < length values)%nat ->
  exists b, GenerateValues fuel x values curr = Ok b /\
    (x <> -1 -> b = true <-> x ∈ drop curr values).
Proof.
  revert curr. induction fuel as [|fuel IH]; intros curr Hf Hc; [lia|]. cbn [GenerateValues].
  assert (forall n size, (length values - curr <= n)%nat -> x <> -1 ->
    CmpEqConst x (constants_from values curr n size) = true <-> x ∈ drop curr values) as Hall.
  { intros n size Hn Hx. rewrite CmpEqConst_from, take_ge by (rewrite length_drop; lia). naive_solver. }
  case_decide as H8.
  - destruct (IH (curr + 8)%nat) as (b & -> & Hb); [lia..|]. cbn [mbind Res_bind]. eexists. split; [done|].
    intros Hx. rewrite <- (take_drop 8 (drop curr values)), elem_of_app, drop_drop.
    pose proof (CmpEqConst_from x values curr 8 8) as Hcmp. specialize (Hb Hx).
    destruct (CmpEqConst x _); [split; [|done]; intros _; left; destruct (proj1 Hcmp eq_refl) as [|[]]; [done|lia]|].
    rewrite Hb. split; [by right|]. intros [Hin|]; [|done]. discriminate (proj2 Hcmp (or_introl Hin)).
  - case_decide; [eexists; split; [done|]; by apply Hall|].
    case_decide; [eexists; split; [done|]; by apply Hall|].
    destruct (lookup_lt_is_Some_2 values curr Hc) as [v Hv]. rewrite (vec_at_nat _ _ _ Hv). cbn [mbind Res_bind].
    eexists. split; [done|]. intros _. rewrite (drop_S _ _ _ Hv), drop_ge by lia.
    rewrite Z.eqb_eq, list_elem_of_singleton. done.
Qed.

(** *** Each form of expression *)
Lemma fits_bool n b null : (n = false -> null = false) -> fits Boolean n (bool_value b null).
Proof. done. Qed.

Lemma as_bool_typed v : sv_type v = Boolean -> exists b, as_bool v = Ok b /\ sv_value v = VBool b.
Proof. destruct v as [[] n]; try discriminate. by eexists. Qed.

Lemma is_type_true t x : is_type t x = true <-> type_id x = t.
Proof. apply bool_decide_eq_true. Qed.

(** The type of a value of the type [t] with another number: only enums have one. *)
Lemma sv_type_id v t : type_id (sv_type v) = t -> t <> ENUM -> sv_type v = MkType t 0.
Proof. destruct v as [[] n]; cbn; by intros <- ?. Qed.

Section Sound.
Context (enum_key : Z -> Z -> list Z) (like : list Z -> list Z -> bool).

Lemma eval_binary_typed op a b t na nb : fits (sv_type a) na a -> fits (sv_type b) nb b ->
  op_fits op (sv_type a) (sv_type b) = true -> CalculateBinaryType op (sv_type a) (sv_type b) = Ok t ->
  exists v, eval_binary enum_key op a (Ok b) = Ok v /\ fits t (na || nb) v.
Proof.
  intros [_ Ha] [_ Hb] Hop Ht.
  assert ((op = OpAND \/ op = OpOR) \/ eval_binary enum_key op a (Ok b) = EvaluateBinary enum_key op a b) as [Hand| ->].
  { destruct op; cbn [eval_binary mbind Res_bind]; auto. }
  - assert (sv_type a = Boolean /\ sv_type b = Boolean) as [Ta Tb].
    { destruct a as [[] ?]; destruct Hand as [-> | ->]; try discriminate Hop.
      all: apply andb_true_iff in Hop as [E H]; try discriminate H.
      all: apply bool_decide_eq_true in E; (split; [done|]); by rewrite <- E. }
    assert (t = Boolean) as ->.
    { rewrite Ta, Tb in Ht. destruct Hand as [-> | ->]; cbn in Ht; by injection Ht as <-. }
    destruct (as_bool_typed a Ta) as (x & Hx & _). destruct Hand as [-> | ->]; cbn [eval_binary]; rewrite Hx.
    all: cbn [mbind Res_bind]; rewrite !NullableTernary_Ok by (destruct x; done).
    all: eexists; (split; [done|]); split; [destruct (sv_null a), x; done|].
    all: intros [En1 En2]%orb_false_iff; rewrite (Ha En1); destruct x; auto.
  - destruct (EvaluateBinary_typed enum_key op a b Hop) as (v & -> & Hv & Hn). exists v. split; [done|].
    split; [congruence|]. intros [En1 En2]%orb_false_iff. by rewrite Hn, Ha, Hb.
Qed.

Lemma eval_regexp_typed a t r : CalculateRegexpType (sv_type a) = Ok t ->
  exists v, eval_regexp enum_key like a r = Ok v /\ fits t false v.
Proof.
  intros H. destruct a as [[] n]; try discriminate H. all: injection H as <-.
  all: unfold eval_regexp; cbn [sv_null sv_value]; rewrite NullableTernary_Ok by done.
  all: eexists; split; [done|]; by destruct n.
Qed.

Lemma eval_conversion_typed a t n : CalculateConvTypeId (sv_type a) = Ok t ->
  exists v, eval_conversion a = Ok v /\ fits t n v.
Proof.
  intros H. destruct a as [[] m]; try discriminate H. all: injection H as <-.
  all: unfold eval_conversion; cbn [sv_null sv_value]; rewrite NullableTernary_Ok by done.
  all: eexists; split; [done|]; by destruct m.
Qed.

Lemma eval_extract_typed a t n : CalculateExtractTypeId (sv_type a) = Ok t -> (n = false -> sv_null a = false) ->
  exists v, eval_extract a = Ok v /\ fits t n v.
Proof.
  intros H Hn. destruct a as [[] m]; try discriminate H. injection H as <-.
  unfold eval_extract; cbn [sv_null sv_value]. rewrite NullableTernary_Ok by done.
  eexists. split; [done|]. destruct m; [|done]. split; [done|]. intros E. by specialize (Hn E).
Qed.

Lemma eval_enum_in_typed a t values : CalculateEnumInType (sv_type a) = Ok t -> values <> [] ->
  exists v, eval_enum_in a values = Ok v /\ fits t false v.
Proof.
  intros H Hv. destruct a as [[] m]; try discriminate H. injection H as <-. unfold eval_enum_in; cbn [sv_null sv_value].
  destruct (GenerateValues_spec (S (length values)) z values 0) as (b & -> & _); [lia|by destruct values; cbn; [|lia]|].
  cbn [mbind Res_bind]. rewrite NullableTernary_Ok by done. eexists. split; [done|]. by destruct m.
Qed.

Lemma eval_not_typed a n : fits Boolean n a ->
  exists v, NullableTernary (sv_null a) (Ok (bool_value false true)) (b ← as_bool a; Ok (bool_value (negb b) false)) = Ok v /\
    fits Boolean n v.
Proof.
  intros [Ht Hn]. destruct (as_bool_typed a Ht) as (b & -> & _). cbn [mbind Res_bind].
  rewrite NullableTernary_Ok by done. eexists. split; [done|]. split; [by destruct (sv_null a)|].
  intros E. by rewrite (Hn E).
Qed.

Lemma case_typed (c l r : SQLValue) t nl nr : sv_type c = Boolean -> fits t nl l -> fits t nr r ->
  exists v, (b ← match sv_value c with VBool b => Ok b | _ => UB end;
    NullableTernary (sv_null c) (Ok r) (NullableTernary b (Ok l) (Ok r))) = Ok v /\ fits t (nl || nr) v.
Proof.
  intros Hc [Hl Hnl] [Hr Hnr]. destruct (as_bool_typed c Hc) as (b & _ & ->). cbn [mbind Res_bind].
  rewrite !NullableTernary_Ok by (destruct b; congruence). eexists. split; [done|].
  split; [destruct (sv_null c), b; done|]. intros [E1 E2]%orb_false_iff. destruct (sv_null c), b; auto.
Qed.
End Sound.

(** ** Soundness *)
Lemma compute_fits enum_key like env e : forall t, Type_ e = Ok t -> translatable e = true -> refs_ok env e ->
  exists v, Compute_ enum_key like env e = Ok v /\ fits t (Nullable e) v.
Proof.
  induction e as [v n|ty n ch col|ty n col|op c IH|op l IHl r IHr|c IH rx|c IHc l IHl r IHr|c IH|c IH|c IH vs|k c IH];
    intros t Ht Htr Hr; cbn [Type_ translatable refs_ok Compute_ Nullable] in *.
  - injection Ht as <-. eexists. split; [done|]. by split.
  - injection Ht as <-. destruct Hr as (row & v & -> & Hv & Hf). cbn [mbind Res_bind]. eauto.
  - injection Ht as <-. done.
  - apply bind_Ok in Ht as (tc & Htc & Ht). destruct (IH tc Htc Htr Hr) as (v & Hv & Hf). rewrite Hv.
    destruct op; cbn in Ht |- *.
    + destruct (is_type BOOLEAN tc) eqn:E; [|discriminate]. apply is_type_true in E. injection Ht as <-.
      apply (eval_not_typed v (Nullable c)). destruct Hf as [Hf ?]. split; [|done]. rewrite <- Hf in E. by apply sv_type_id.
    + injection Ht as <-. eexists. split; [done|]. by apply fits_bool.
  - apply andb_true_iff in Htr as [[H1 H2]%andb_true_iff H3].
    apply bind_Ok in Ht as (tl & Htl & Ht). apply bind_Ok in Ht as (tr & Htr & Ht). rewrite Htl, Htr in H3.
    destruct Hr as [Hrl Hrr], (IHl tl Htl H1 Hrl) as (a & -> & [Ha Hna]), (IHr tr Htr H2 Hrr) as (b & -> & [Hb Hnb]).
    cbn [mbind Res_bind]. subst tl tr. by apply eval_binary_typed.
  - apply bind_Ok in Ht as (tc & Htc & Ht). destruct (IH tc Htc Htr Hr) as (v & -> & [<- _]). by apply eval_regexp_typed.
  - apply andb_true_iff in Htr as [[H1 H2]%andb_true_iff H3]. destruct Hr as (Hrc & Hrl & Hrr).
    apply bind_Ok in Ht as (tc & Htc & Ht). apply bind_Ok in Ht as (tl & Htl & Ht). apply bind_Ok in Ht as (tr & Htr & Ht).
    destruct (IHc tc Htc H1 Hrc) as (x & -> & [Hx _]), (IHl tl Htl H2 Hrl) as (a & -> & Ha), (IHr tr Htr H3 Hrr) as (b & -> & Hb).
    unfold CalculateType in Ht. destruct (is_type BOOLEAN tc) eqn:E; [|discriminate]. cbn in Ht. apply is_type_true in E.
    case_bool_decide; [|discriminate]. cbn in Ht. injection Ht as <-. subst tr. cbn [mbind Res_bind].
    apply case_typed; [rewrite <- Hx in E; by apply sv_type_id|done..].
  - apply bind_Ok in Ht as (tc & Htc & Ht). destruct (IH tc Htc Htr Hr) as (v & -> & [<- _]). by apply eval_conversion_typed.
  - apply bind_Ok in Ht as (tc & Htc & Ht). destruct (IH tc Htc Htr Hr) as (v & -> & [<- Hn]). by apply eval_extract_typed.
  - apply andb_true_iff in Htr as [Htr Hvs]. apply bind_Ok in Ht as (tc & Htc & Ht).
    destruct (IH tc Htc Htr Hr) as (v & -> & [<- _]). apply eval_enum_in_typed; [done|].
    by apply negb_true_iff, bool_decide_eq_false in Hvs.
  - discriminate.
Qed.

(** C20. Expressions are type sound: an expression whose constructors accept it, whose
    operators have code at the types of their operands, evaluated on rows whose
    columns have the declared types, is translated without an exception into code
    that computes a value of the expression's type; and an expression that is not
    nullable is never null, which is what lets a column without null flag store it. *)
Theorem compute_typed enum_key like env e t :
  Type_ e = Ok t -> translatable e = true -> refs_ok env e ->
  exists v, Compute_ enum_key like env e = Ok v /\ sv_type v = t /\ (Nullable e = false -> sv_null v = false).
Proof. intros. by apply compute_fits. Qed.

(** ** Three-valued logic *)

(** SQL's truth values; [None] is unknown. *)
Definition and3 (a b : option bool) : option bool :=
  match a, b with
  | Some false, _ | _, Some false => Some false
  | Some true, Some true => Some true
  | _, _ => None
  end.
Definition or3 (a b : option bool) : option bool :=
  match a, b with
  | Some true, _ | _, Some true => Some true
  | Some false, Some false => Some false
  | _, _ => None
  end.

(** The truth value of a Boolean, and the one SQL gives to a combination of
    conditions by [AND] and [OR]. *)
Definition truth (v : Res SQLValue) : option bool :=
  match v with Ok (MkSQL (VBool b) false) => Some b | _ => None end.

Fixpoint sql_truth (enum_key : Z -> Z -> list Z) (like : list Z -> list Z -> bool) (env : Env) (e : Expression) : option bool :=
  match e with
  | BinaryArithmeticExpr OpAND l r => and3 (sql_truth enum_key like env l) (sql_truth enum_key like env r)
  | BinaryArithmeticExpr OpOR l r => or3 (sql_truth enum_key like env l) (sql_truth enum_key like env r)
  | _ => truth (Compute_ enum_key like env e)
  end.

Definition accepts (t : option bool) : bool := match t with Some true => true | _ => false end.

Lemma accepts_and3 a b : accepts (and3 a b) = accepts a && accepts b.
Proof. by destruct a as [[]|], b as [[]|]. Qed.
Lemma accepts_or3 a b : accepts (or3 a b) = accepts a || accepts b.
Proof. by destruct a as [[]|], b as [[]|]. Qed.

(** The code of [AND] and [OR] gets at least the accepted rows right. *)
Lemma eval_and enum_key a b : sv_type a = Boolean -> sv_type b = Boolean ->
  accepts (truth (eval_binary enum_key OpAND a (Ok b))) = accepts (truth (Ok a)) && accepts (truth (Ok b)).
Proof. intros. destruct a as [[] na], b as [[] nb]; try discriminate. by destruct na, nb, b0, b. Qed.
Lemma eval_or enum_key a b : sv_type a = Boolean -> sv_type b = Boolean ->
  accepts (truth (eval_binary enum_key OpOR a (Ok b))) = accepts (truth (Ok a)) || accepts (truth (Ok b)).
Proof. intros. destruct a as [[] na], b as [[] nb]; try discriminate. by destruct na, nb, b0, b. Qed.

(** The operands of a connective that has code are Booleans that have code. *)
Definition boolean_expr (e : Expression) : Prop :=
  translatable e = true /\ exists t, Type_ e = Ok t /\ type_id t = BOOLEAN.

Lemma connective_operands op l r : op = OpAND \/ op = OpOR -> translatable (BinaryArithmeticExpr op l r) = true ->
  boolean_expr l /\ boolean_expr r.
Proof.
  intros Hop [[H1 H2]%andb_true_iff H3]%andb_true_iff. unfold boolean_expr.
  destruct (Type_ l) as [tl| | |]; try discriminate. destruct (Type_ r) as [tr| | |]; try discriminate.
  assert (tl = tr /\ type_id tl = BOOLEAN) as [<- Hb].
  { unfold op_fits in H3. destruct Hop as [-> | ->]; destruct (type_id tl); rewrite ?andb_false_r in H3; try discriminate.
    all: by apply andb_true_iff in H3 as [?%bool_decide_eq_true _]. }
  eauto 10.
Qed.

Lemma boolean_value enum_key like env e : boolean_expr e -> refs_ok env e ->
  exists v, Compute_ enum_key like env e = Ok v /\ sv_type v = Boolean.
Proof.
  intros (Htr & t & Ht & Hb) Hr. destruct (compute_fits enum_key like env e t Ht Htr Hr) as (v & Hv & <- & _).
  exists v. split; [done|]. by apply sv_type_id.
Qed.

Lemma filter_truth enum_key like env e :
  boolean_expr e -> refs_ok env e ->
  accepts (truth (Compute_ enum_key like env e)) = accepts (sql_truth enum_key like env e).
Proof.
  induction e as [v n|ty n ch col|ty n col|op c IH|op l IHl r IHr|c IH rx|c IHc l IHl r IHr|c IH|c IH|c IH vs|k c IH];
    intros He Hr; try done.
  assert ((op = OpAND \/ op = OpOR) \/ sql_truth enum_key like env (BinaryArithmeticExpr op l r) =
    truth (Compute_ enum_key like env (BinaryArithmeticExpr op l r))) as [Hop| ->] by (destruct op; auto); [|done].
  destruct (connective_operands op l r Hop (proj1 He)) as [Hl Hr'], Hr as [Hrl Hrr].
  destruct (boolean_value enum_key like env l Hl Hrl) as (a & Ha & Ta).
  destruct (boolean_value enum_key like env r Hr' Hrr) as (b & Hb & Tb).
  specialize (IHl Hl Hrl). specialize (IHr Hr' Hrr). cbn [Compute_]. rewrite Ha in IHl |- *. rewrite Hb in IHr |- *.
  cbn [mbind Res_bind]. destruct Hop as [-> | ->]; cbn [sql_truth].
  - by rewrite accepts_and3, eval_and, IHl, IHr.
  - by rewrite accepts_or3, eval_or, IHl, IHr.
Qed.

(** C23. A filter accepts the rows that SQL accepts: for a condition made of any Boolean
    expressions with [AND] and [OR], the generated code is true and not null exactly
    if the condition is true in SQL's three-valued logic, although the code takes
    NULL OR x to be x and NULL AND x to be NULL. *)
Theorem filter_accepts enum_key like env e :
  boolean_expr e -> refs_ok env e ->
  accepts (truth (Compute_ enum_key like env e)) = accepts (sql_truth enum_key like env e).
Proof. apply filter_truth. Qed.

(** Under [NOT] the difference shows. *)
Definition null_or_false : Expression :=
  UnaryArithmeticExpr OpNOT (BinaryArithmeticExpr OpOR (NullLiteral Boolean) (LiteralExpr (VBool false) false)).

(** NOT (NULL OR FALSE) is accepted by the generated code, and is unknown in SQL:
    a filter with a negated disjunction keeps rows that SQL rejects. *)
Lemma not_or_accepts_unknown enum_key like env :
  Compute_ enum_key like env null_or_false = Ok (bool_value true false) /\
  option_map negb (sql_truth enum_key like env
    (BinaryArithmeticExpr OpOR (NullLiteral Boolean) (LiteralExpr (VBool false) false))) = None.
Proof. done. Qed.

(** The conversion of a null integer is the number 0. *)
Lemma conversion_of_null enum_key like env :
  Compute_ enum_key like env (IntToFloatConversionExpr (NullLiteral (MkType INT 0))) = Ok (MkSQL (VFloat64 (F_of_Z 0)) false) /\
  Nullable (IntToFloatConversionExpr (NullLiteral (MkType INT 0))) = true.
Proof. done. Qed.

(** [x IN (v1, v2, ...)] of an enum, compared eight or four values at a time. *)
Lemma enum_in_spec enum_key like env c values id x : Compute_ enum_key like env c = Ok (MkSQL (VEnum id x) false) ->
  values <> [] -> x <> -1 ->
  exists b, Compute_ enum_key like env (EnumInExpr c values) = Ok (bool_value b false) /\ (b = true <-> x ∈ values).
Proof.
  intros Hc Hv Hx. cbn [Compute_]. rewrite Hc. cbn [mbind Res_bind]. unfold eval_enum_in. cbn [sv_null sv_value].
  destruct (GenerateValues_spec (S (length values)) x values 0) as (b & -> & Hb); [lia|by destruct values; cbn; [|lia]|].
  cbn [mbind Res_bind]. rewrite NullableTernary_Ok by done. exists b. split; [done|]. rewrite (Hb Hx). by rewrite drop_0.
Qed.

Module ExprDemo.
(** [year(d) < 2000 OR name LIKE r] over a row with a date and a nullable text. *)
Definition condition : Expression :=
  BinaryArithmeticExpr OpOR
    (BinaryArithmeticExpr OpLT (ExtractExpr (ColumnRefExpr (MkType DATE 0) false 0 0)) (LiteralExpr (VInt32 2000) false))
    (RegexpMatchingExpr (ColumnRefExpr (MkType TEXT 0) true 0 1) [97]).
Definition demo_env : Env :=
  MkEnv [[MkSQL (VDate (i32 (Build (MkDate 2013 5 7)))) false; MkSQL (VString []) true]] [].

Lemma condition_refs : refs_ok demo_env condition.
Proof.
  split; [split; [|exact I]|].
  - exists (nth 0 (env_children demo_env) []), (MkSQL (VDate (i32 (Build (MkDate 2013 5 7)))) false). done.
  - exists (nth 0 (env_children demo_env) []), (MkSQL (VString []) true). done.
Defined.

Lemma compute_typed_witness :
  exists v, Compute_ (fun _ _ => []) (fun _ _ => false) demo_env condition = Ok v /\ sv_type v = Boolean /\
    (Nullable condition = false -> sv_null v = false).
Proof. apply compute_typed; [reflexivity|reflexivity|apply condition_refs]. Defined.

Lemma filter_accepts_witness :
  accepts (truth (Compute_ (fun _ _ => []) (fun _ _ => false) demo_env condition)) =
  accepts (sql_truth (fun _ _ => []) (fun _ _ => false) demo_env condition).
Proof.
  apply filter_accepts; [|apply condition_refs]. split; [reflexivity|]. exists Boolean. by split.
Defined.

(** A conversion, division and a [CASE] on concrete rows. *)
Example expression_runs :
  Compute_ (fun _ _ => []) (fun _ _ => false) demo_env
    (CaseExpr condition (IntToFloatConversionExpr (LiteralExpr (VInt32 3) false))
       (BinaryArithmeticExpr OpDIV (LiteralExpr (VFloat64 (F_of_Z 3)) false) (LiteralExpr (VFloat64 (F_of_Z 2)) false)))
  = Ok (MkSQL (VFloat64 (F_div (F_of_Z 3) (F_of_Z 2))) false).
Proof. reflexivity. Qed.
End ExprDemo.

(** ** Rows that are the same for SQL *)
Record env_equiv (env env' : Env) : Prop := {
  ee_children : Forall2 (Forall2 sql_equiv) (env_children env) (env_children env');
  ee_virtual : Forall2 sql_equiv (env_virtual env) (env_virtual env');
}.

Lemma equiv_cases a a' : sql_equiv a a' ->
  a = a' \/ (sv_null a = true /\ sv_null a' = true /\ sv_type a = sv_type a').
Proof.
  intros (Ht & Hn & Hv). destruct (sv_null a) eqn:E; [right; by rewrite <- Hn|left].
  destruct a, a'; cbn in *. rewrite Hv by done. congruence.
Qed.

Lemma null_equiv a b : sv_type a = sv_type b -> sv_null a = true -> sv_null b = true -> sql_equiv a b.
Proof. intros ? Ha Hb. split_and!; [done|congruence|]. rewrite Ha. done. Qed.

Lemma vec_at_equiv {A} (R : A -> A -> Prop) l l' i x : Forall2 R l l' -> vec_at l i = Ok x ->
  exists x', vec_at l' i = Ok x' /\ R x x'.
Proof.
  intros HR [Hi Hx]%vec_at_Ok. destruct (Forall2_lookup_l _ _ _ _ _ HR Hx) as (x' & Hx' & ?).
  exists x'. split; [|done]. by apply vec_at_Ok.
Qed.

Lemma fits_equiv t n v v' : sql_equiv v v' -> fits t n v -> fits t n v'.
Proof. intros (Ht & Hn & _) [Hv Hf]. split; [congruence|]. rewrite <- Hn. done. Qed.

Lemma refs_ok_equiv env env' e : env_equiv env env' -> refs_ok env e -> refs_ok env' e.
Proof.
  intros [Hc Hv]. induction e; cbn [refs_ok]; try tauto.
  - intros (row & v & Hrow & Hcol & Hf). destruct (vec_at_equiv _ _ _ _ _ Hc Hrow) as (row' & Hrow' & Hr).
    destruct (vec_at_equiv _ _ _ _ _ Hr Hcol) as (v' & Hv' & He). exists row', v'. by eauto using fits_equiv.
  - intros (v & Hcol & Hf). destruct (vec_at_equiv _ _ _ _ _ Hv Hcol) as (v' & Hv' & He). eauto using fits_equiv.
Qed.

Section Equiv.
Context (enum_key : Z -> Z -> list Z) (like : list Z -> list Z -> bool).

(** Code that is the same constant for every null. *)
Lemma unary_equiv (g : SQLValue -> Res SQLValue) c a a' v v' :
  (forall x w, sv_null x = true -> g x = Ok w -> w = c) ->
  sql_equiv a a' -> g a = Ok v -> g a' = Ok v' -> sql_equiv v v'.
Proof.
  intros Hc [->|(Hn & Hn' & _)]%equiv_cases Hv Hv'; [by assert (v = v') as -> by congruence|].
  by rewrite (Hc _ _ Hn Hv), (Hc _ _ Hn' Hv').
Qed.

Lemma NullableTernary_true a e w : NullableTernary true (Ok a) e = Ok w -> w = a.
Proof.
  unfold NullableTernary. cbn [mbind Res_bind]. destruct e; cbn [mbind Res_bind]; try discriminate.
  case_match; congruence.
Qed.

Lemma binary_equiv op a a' b b' v v' : sql_equiv a a' -> sql_equiv b b' ->
  op_fits op (sv_type a) (sv_type b) = true ->
  eval_binary enum_key op a (Ok b) = Ok v -> eval_binary enum_key op a' (Ok b') = Ok v' -> sql_equiv v v'.
Proof.
  intros Ha Hb Hop Hv Hv'.
  assert ((op = OpAND \/ op = OpOR) \/ (forall x y, eval_binary enum_key op x (Ok y) = EvaluateBinary enum_key op x y)) as [Hand|E].
  { destruct op; auto. }
  - destruct (equiv_cases _ _ Ha) as [->|(Hn & Hn' & _)].
    + destruct Hand as [-> | ->]; cbn [eval_binary] in Hv, Hv'.
      all: apply bind_Ok in Hv as (x & Hx & Hv); rewrite Hx in Hv'; cbn [mbind Res_bind] in Hv'.
      all: revert Hv Hv'; unfold NullableTernary; cbn [mbind Res_bind]; repeat case_match; try discriminate.
      all: cbn [mbind Res_bind]; repeat case_match; try discriminate; by intros [= <-] [= <-].
    + destruct Hand as [-> | ->]; cbn [eval_binary] in Hv, Hv'; rewrite Hn in Hv; rewrite Hn' in Hv'.
      all: apply bind_Ok in Hv as (x & Hx & Hv); apply bind_Ok in Hv' as (x' & Hx' & Hv').
      all: apply NullableTernary_true in Hv, Hv'; by subst.
  - rewrite E in Hv, Hv'. pose proof Ha as (Ta & Na & _). pose proof Hb as (Tb & Nb & _).
    destruct (EvaluateBinary_typed enum_key op a b Hop) as (w & Hw & Tw & Nw).
    destruct (EvaluateBinary_typed enum_key op a' b') as (w' & Hw' & Tw' & Nw'); [by rewrite <- Ta, <- Tb|].
    assert (w = v) as -> by congruence. assert (w' = v') as -> by congruence.
    destruct (equiv_cases _ _ Ha) as [->|(Hn & Hn' & _)]; [destruct (equiv_cases _ _ Hb) as [->|(Hn & Hn' & _)]|].
    + by assert (v = v') as -> by congruence.
    + apply null_equiv; [congruence|rewrite Nw, Hn; apply orb_true_r|rewrite Nw', Hn'; apply orb_true_r].
    + apply null_equiv; [congruence|by rewrite Nw, Hn|by rewrite Nw', Hn'].
Qed.
End Equiv.

(** *** CASE *)
Lemma case_equiv c c' (l l' r r' : Res SQLValue) v v' : sql_equiv c c' ->
  (forall a a', l = Ok a -> l' = Ok a' -> sql_equiv a a') -> (forall d d', r = Ok d -> r' = Ok d' -> sql_equiv d d') ->
  (b ← match sv_value c with VBool b => Ok b | _ => UB end;
    NullableTernary (sv_null c) r (NullableTernary b l r)) = Ok v ->
  (b ← match sv_value c' with VBool b => Ok b | _ => UB end;
    NullableTernary (sv_null c') r' (NullableTernary b l' r')) = Ok v' -> sql_equiv v v'.
Proof.
  intros Hc Hl Hr (b & Hb & Hv)%bind_Ok (b' & Hb' & Hv')%bind_Ok.
  destruct l as [a| | |], r as [d| | |]; try discriminate Hv. destruct l' as [a'| | |], r' as [d'| | |]; try discriminate Hv'.
  specialize (Hl a a' eq_refl eq_refl). specialize (Hr d d' eq_refl eq_refl).
  assert (forall b x (a d : SQLValue) w, NullableTernary x (Ok d) (NullableTernary b (Ok a) (Ok d)) = Ok w ->
    w = if x then d else if b then a else d) as Hsel.
  { clear. intros b x a d w. unfold NullableTernary. cbn [mbind Res_bind]. repeat case_match; cbn [mbind Res_bind]; try discriminate.
    all: repeat case_match; congruence. }
  apply Hsel in Hv, Hv'. subst v v'. destruct (equiv_cases _ _ Hc) as [->|(-> & -> & _)]; [|done].
  assert (b = b') as -> by congruence. by destruct (sv_null c'), b'.
Qed.

(** The generated code cannot tell rows apart that are the same for SQL. *)
Lemma compute_equiv enum_key like env env' e : env_equiv env env' ->
  forall t, Type_ e = Ok t -> translatable e = true -> refs_ok env e ->
  forall v v', Compute_ enum_key like env e = Ok v -> Compute_ enum_key like env' e = Ok v' -> sql_equiv v v'.
Proof.
  intros He.
  induction e as [w n|ty n ch col|ty n col|op c IH|op l IHl r IHr|c IH rx|c IHc l IHl r IHr|c IH|c IH|c IH vs|k c IH];
    intros t Ht Htr Hr v v' Hv Hv'; cbn [Type_ translatable refs_ok Compute_] in *.
  - by assert (v = v') as -> by congruence.
  - apply bind_Ok in Hv as (row & Hrow & Hv). destruct (vec_at_equiv _ _ _ _ _ (ee_children _ _ He) Hrow) as (row' & Hrow' & Hrr).
    rewrite Hrow' in Hv'. cbn [mbind Res_bind] in Hv'. destruct (vec_at_equiv _ _ _ _ _ Hrr Hv) as (? & ? & ?). congruence.
  - destruct (vec_at_equiv _ _ _ _ _ (ee_virtual _ _ He) Hv) as (? & ? & ?). congruence.
  - apply bind_Ok in Ht as (tc & Htc & Ht). specialize (IH tc Htc Htr Hr). destruct op.
    all: apply bind_Ok in Hv as (a & Ha & Hv), Hv' as (a' & Ha' & Hv'); specialize (IH a a' Ha Ha').
    + eapply (unary_equiv (fun v => NullableTernary (sv_null v) _ _)); [|exact IH|exact Hv|exact Hv'].
      intros x w Hx. rewrite Hx. apply NullableTernary_true.
    + destruct IH as (_ & Hn & _). rewrite Hn in Hv. by assert (v = v') as -> by congruence.
  - apply andb_true_iff in Htr as [[H1 H2]%andb_true_iff H3]. destruct Hr as [Hrl Hrr].
    apply bind_Ok in Ht as (tl & Htl & Ht). apply bind_Ok in Ht as (tr & Htr & Ht). rewrite Htl, Htr in H3.
    apply bind_Ok in Hv as (a & Ha & Hv), Hv' as (a' & Ha' & Hv').
    destruct (compute_fits enum_key like env l tl Htl H1 Hrl) as (a0 & Ea & [Ta _]). assert (a0 = a) as -> by congruence.
    destruct (compute_fits enum_key like env r tr Htr H2 Hrr) as (b & Hb & [Tb _]).
    destruct (compute_fits enum_key like env' r tr Htr H2 (refs_ok_equiv _ _ _ He Hrr)) as (b' & Hb' & _).
    rewrite Hb in Hv. rewrite Hb' in Hv'. subst tl tr.
    eapply binary_equiv; [by eapply IHl|by eapply IHr|done|done|done].
  - apply bind_Ok in Ht as (tc & Htc & Ht). apply bind_Ok in Hv as (a & Ha & Hv), Hv' as (a' & Ha' & Hv').
    eapply (unary_equiv (fun x => eval_regexp enum_key like x rx)); [|by eapply IH|done|done].
    intros x w Hx. unfold eval_regexp. rewrite Hx. apply NullableTernary_true.
  - apply andb_true_iff in Htr as [[H1 H2]%andb_true_iff H3]. destruct Hr as (Hrc & Hrl & Hrr).
    apply bind_Ok in Ht as (tc & Htc & Ht). apply bind_Ok in Ht as (tl & Htl & Ht). apply bind_Ok in Ht as (tr & Htr & Ht).
    apply bind_Ok in Hv as (x & Hx & Hv), Hv' as (x' & Hx' & Hv'). specialize (IHc tc Htc H1 Hrc x x' Hx Hx').
    eapply case_equiv; [exact IHc|intros; by eapply IHl|intros; by eapply IHr|exact Hv|exact Hv'].
  - apply bind_Ok in Ht as (tc & Htc & Ht). apply bind_Ok in Hv as (a & Ha & Hv), Hv' as (a' & Ha' & Hv').
    eapply (unary_equiv eval_conversion); [|by eapply IH|done|done].
    intros x w Hx. unfold eval_conversion. rewrite Hx. apply NullableTernary_true.
  - apply bind_Ok in Ht as (tc & Htc & Ht). apply bind_Ok in Hv as (a & Ha & Hv), Hv' as (a' & Ha' & Hv').
    eapply (unary_equiv eval_extract); [|by eapply IH|done|done].
    intros x w Hx. unfold eval_extract. rewrite Hx. apply NullableTernary_true.
  - apply andb_true_iff in Htr as [Htr Hvs]. apply bind_Ok in Ht as (tc & Htc & Ht).
    apply bind_Ok in Hv as (a & Ha & Hv), Hv' as (a' & Ha' & Hv').
    eapply (unary_equiv (fun x => eval_enum_in x vs)); [|by eapply IH|done|done].
    intros x w Hx. unfold eval_enum_in. rewrite Hx. apply NullableTernary_true.
  - discriminate.
Qed.
