(* ===== verification/Vector.v ===== *)
(** * The runtime vector

    [Vector] of src/runtime/vector.cc: a growing array of equally large elements
    and its merge sort.  Elements are values of a type [A]; memory that was not
    written holds an arbitrary one. *)
From Stdlib Require Import Sorting.Sorted.
From S2P Require Import Prelude ProgramBuilder SqlValue.

(** ** The model *)
Record Vector (A : Type) := MkVec {
  element_size : Z;
  size : Z;
  capacity : Z;
  data : list A;
}.
Arguments MkVec {A} _ _ _ _.
Arguments element_size {A} _.
Arguments size {A} _.
Arguments capacity {A} _.
Arguments data {A} _.

Section Model.
Context {A : Type} (uninit : A).

Definition Create (element_size initial_capacity : Z) : Vector A :=
  MkVec element_size 0 initial_capacity (replicate (Z.to_nat initial_capacity) uninit).

(** [realloc] keeps what fits. *)
Definition Grow (vec : Vector A) (new_capacity : Z) : Vector A :=
  MkVec (element_size vec) (size vec) new_capacity
    (take (Z.to_nat new_capacity) (data vec) ++
     replicate (Z.to_nat new_capacity - length (data vec)) uninit).

(** [PushBack] returns the position of the new element, which the caller writes. *)
Definition PushBack (vec : Vector A) : Res (Z * Vector A) :=
  vec ← (if size vec =? capacity vec
         then c ← signed_result 32 (2 * capacity vec); Ok (Grow vec c) else Ok vec);
  s ← signed_result 32 (size vec + 1);
  Ok (size vec, MkVec (element_size vec) s (capacity vec) (data vec)).

(** An element read or written through the pointer [Get] returns. *)
Definition Read (vec : Vector A) (idx : Z) : Res A := vec_at (data vec) idx.
Definition Write (vec : Vector A) (idx : Z) (a : A) : Res (Vector A) :=
  d ← vec_set (data vec) idx a; Ok (MkVec (element_size vec) (size vec) (capacity vec) d).

(** [Size], which a null pointer also has. *)
Definition Size (vec : option (Vector A)) : Z := match vec with None => 0 | Some v => size v end.

(** ** Sorting *)
Context (comp_fn : A -> A -> Res bool).

(** [memcpy] of the elements [i] to [i + n - 1]. *)
Definition copy_out (d : list A) (i n : Z) : Res (list A) :=
  if (0 <=? i) && (i + n <=? vec_size d) then Ok (take (Z.to_nat n) (drop (Z.to_nat i) d)) else UB.

(** The two loops that copy what is left. *)
Fixpoint copy_rest (d : list A) (k : Z) (l : list A) : Res (list A) :=
  match l with
  | [] => Ok d
  | x :: l => d ← vec_set d k x; copy_rest d (k + 1) l
  end.

(** The loop over both halves: [v1] and [v2] are what is left of the copies. *)
Fixpoint merge_loop (v1 v2 : list A) (k : Z) (d : list A) {struct v1} : Res (list A) :=
  (fix go v2 k d :=
    match v1, v2 with
    | [], _ => copy_rest d k v2
    | _, [] => copy_rest d k v1
    | x :: v1, y :: v2 =>
        c ← comp_fn x y;
        if c : bool then d ← vec_set d k x; merge_loop v1 (y :: v2) (k + 1) d
        else d ← vec_set d k y; go v2 (k + 1) d
    end) v2 k d.

Definition Merge (d : list A) (l m r : Z) : Res (list A) :=
  v1 ← copy_out d l (m - l + 1);
  v2 ← copy_out d (m + 1) (r - m);
  merge_loop v1 v2 l d.

Fixpoint MergeSort (fuel : nat) (d : list A) (l r : Z) : Res (list A) :=
  match fuel with
  | O => NoFuel
  | S fuel =>
      if r <=? l then Ok d
      else
        let m := l + (r - l) / 2 in
        d ← MergeSort fuel d l m;
        d ← MergeSort fuel d (m + 1) r;
        Merge d l m r
  end.

(** A segment halves, so as many levels as elements are enough. *)
Definition Sort (vec : Vector A) : Res (Vector A) :=
  d ← MergeSort (S (Z.to_nat (size vec))) (data vec) 0 (size vec - 1);
  Ok (MkVec (element_size vec) (size vec) (capacity vec) d).
End Model.

(** ** Growing *)
Section Growing.
Context {A : Type} (uninit : A).

(** The vector holds the elements [xs]. *)
Record vec_rep (vec : Vector A) (xs : list A) : Prop := {
  vr_size : size vec = vec_size xs;
  vr_capacity : capacity vec = vec_size (data vec);
  vr_room : 0 < capacity vec;
  vr_data : take (length xs) (data vec) = xs;
}.

Lemma Vector_create_rep es c : 0 < c -> vec_rep (Create uninit es c) [].
Proof.
  intros Hc. split; cbn; [done| |done|done]. unfold vec_size. rewrite length_replicate. lia.
Qed.

Lemma vec_rep_le vec xs : vec_rep vec xs -> (length xs <= length (data vec))%nat.
Proof. intros [_ _ _ Hd]. rewrite <- Hd, length_take. lia. Qed.

Lemma Read_rep vec xs i x : vec_rep vec xs -> xs !! i = Some x -> Read vec (Z.of_nat i) = Ok x.
Proof.
  intros Hr Hx. apply vec_at_nat. rewrite <- (vr_data _ _ Hr) in Hx.
  by apply lookup_take_Some in Hx as [? _].
Qed.

(** Pushing an element, growing when the array is full. *)
Lemma PushBack_rep vec xs x : vec_rep vec xs -> vec_size xs + 1 < 2 ^ 30 ->
  exists vec' vec'', PushBack uninit vec = Ok (vec_size xs, vec') /\ Write vec' (vec_size xs) x = Ok vec'' /\
    vec_rep vec'' (xs ++ [x]).
Proof.
  intros Hr Hb. pose proof (vec_rep_le _ _ Hr) as Hle. destruct Hr as [Hs Hc Hroom Hd].
  set (grown := if size vec =? capacity vec then Grow uninit vec (2 * capacity vec) else vec).
  assert (PushBack uninit vec = Ok (vec_size xs,
    MkVec (element_size vec) (vec_size xs + 1) (capacity grown) (data grown))) as E.
  { unfold PushBack, grown. destruct (Z.eqb_spec (size vec) (capacity vec)) as [Heq|Hne].
    - rewrite signed_result_id by (unfold is_sw; lia). cbn [mbind Res_bind].
      cbn [Grow size element_size capacity data]. rewrite Hs, signed_result_id by (unfold is_sw, vec_size in *; lia). done.
    - cbn [mbind Res_bind]. rewrite Hs, signed_result_id by (unfold is_sw, vec_size in *; lia). done. }
  assert (capacity grown = vec_size (data grown) /\ (length xs < length (data grown))%nat /\
    take (length xs) (data grown) = xs) as (Hgc & Hgl & Hgd).
  { unfold grown. destruct (Z.eqb_spec (size vec) (capacity vec)) as [Heq|Hne]; cbn [Grow capacity data].
    - assert (length xs = length (data vec)) as Hl by (unfold vec_size in *; lia).
      rewrite take_ge by (unfold vec_size in *; lia).
      unfold vec_size. rewrite length_app, length_replicate.
      split_and!; [unfold vec_size in *; lia..|]. rewrite take_app_le by lia. done.
    - split_and!; [done| |done]. unfold vec_size in *. lia. }
  assert (vec_set (data grown) (vec_size xs) x = Ok (<[length xs := x]> (data grown))) as Eset.
  { apply vec_set_Ok. unfold vec_size. rewrite Nat2Z.id. split; [lia|done]. }
  eexists _, _. split; [exact E|]. unfold Write. cbn [data element_size size capacity]. rewrite Eset.
  cbn [mbind Res_bind]. split; [done|]. split; cbn [size capacity data].
  - unfold vec_size. rewrite length_app. cbn. lia.
  - unfold vec_size. by rewrite length_insert.
  - unfold vec_size in Hgc. lia.
  - rewrite length_app. cbn. rewrite Nat.add_1_r, take_insert_snoc by done. by rewrite Hgd.
Qed.

(** What holds of every cell of the array. *)
Lemma PushBack_cells (P : A -> Prop) vec i vec' : P uninit -> Forall P (data vec) ->
  PushBack uninit vec = Ok (i, vec') -> Forall P (data vec').
Proof.
  intros Hu Hd H. unfold PushBack in H. apply bind_Ok in H as (v1 & H1 & H).
  apply bind_Ok in H as (s & _ & H). injection H as _ <-. cbn [data].
  destruct (size vec =? capacity vec); [|by injection H1 as <-].
  apply bind_Ok in H1 as (c & _ & H1). injection H1 as <-. cbn [Grow data].
  apply list.Forall_app. split; [by apply Forall_take|by apply Forall_replicate].
Qed.

Lemma Write_cells (P : A -> Prop) (vec : Vector A) i a vec' : P a -> Forall P (data vec) ->
  Write vec i a = Ok vec' -> Forall P (data vec').
Proof.
  intros Ha Hd H. unfold Write in H. apply bind_Ok in H as (d & Hset & H). injection H as <-.
  apply vec_set_Ok in Hset as [_ ->]. by apply Forall_insert.
Qed.

Lemma Write_read (vec : Vector A) i a vec' : Write vec i a = Ok vec' -> exists b, Read vec i = Ok b.
Proof.
  intros H. unfold Write in H. apply bind_Ok in H as (d & Hset & _). apply vec_set_Ok in Hset as [Hi _].
  unfold vec_size in Hi. destruct (lookup_lt_is_Some_2 (data vec) (Z.to_nat i)) as [b Hb]; [lia|].
  exists b. apply vec_at_Ok. split; [lia|done].
Qed.
End Growing.

(** ** Sorting *)
Section Sorting.
Context {A : Type} (comp_fn : A -> A -> Res bool).
Context (cmp : A -> A -> comparison) (Hcmp : PreorderCmp cmp).

(** On the elements of a list the comparison function is the strict order. *)
Definition compares (xs : list A) : Prop :=
  forall x y, x ∈ xs -> y ∈ xs -> comp_fn x y = Ok (match cmp x y with Lt => true | _ => false end).

Definition le (x y : A) : Prop := cmp x y <> Gt.

#[local] Instance le_trans : Transitive le.
Proof. intros x y z. apply (cmp_le_trans cmp). Qed.

Lemma compares_sub xs ys : compares ys -> (forall x, x ∈ xs -> x ∈ ys) -> compares xs.
Proof. intros H Hsub x y Hx Hy. apply H; by apply Hsub. Qed.

(** The merge of two lists, ties from the right. *)
Fixpoint merge (v1 v2 : list A) {struct v1} : list A :=
  (fix go v2 :=
    match v1, v2 with
    | [], _ => v2
    | _, [] => v1
    | x :: v1, y :: v2 =>
        match cmp x y with Lt => x :: merge v1 (y :: v2) | _ => y :: go v2 end
    end) v2.

Lemma merge_nil_l v : merge [] v = v.
Proof. by destruct v. Qed.
Lemma merge_nil_r v : merge v [] = v.
Proof. by destruct v. Qed.
Lemma merge_cons x v1 y v2 : merge (x :: v1) (y :: v2) =
  match cmp x y with Lt => x :: merge v1 (y :: v2) | _ => y :: merge (x :: v1) v2 end.
Proof. done. Qed.

Lemma merge_perm v1 v2 : Permutation (merge v1 v2) (v1 ++ v2).
Proof.
  revert v2. induction v1 as [|x v1 IH1]; intros v2; [by rewrite merge_nil_l|].
  induction v2 as [|y v2 IH2]; [by rewrite merge_nil_r, app_nil_r|].
  rewrite merge_cons. destruct (cmp x y).
  2: { cbn. by rewrite IH1. }
  all: rewrite IH2; cbn; by rewrite (Permutation_middle (x :: v1) v2 y).
Qed.

Lemma merge_sorted v1 v2 : StronglySorted le v1 -> StronglySorted le v2 -> StronglySorted le (merge v1 v2).
Proof.
  revert v2. induction v1 as [|x v1 IH1]; intros v2 H1 H2; [by rewrite merge_nil_l|].
  induction v2 as [|y v2 IH2]; [by rewrite merge_nil_r|].
  apply StronglySorted_inv in H1 as [H1 Hx]. pose proof H2 as [H2' Hy]%StronglySorted_inv.
  rewrite merge_cons.
  assert (forall z w l, le z w -> Forall (le w) l -> Forall (le z) (w :: l)) as Hall.
  { intros z w l Hzw Hl. constructor; [done|]. eapply list.Forall_impl; [exact Hl|]. intros u. by apply le_trans. }
  destruct (cmp x y) eqn:E.
  2: { constructor; [by apply IH1|]. rewrite merge_perm. apply list.Forall_app. split; [done|].
       apply Hall; [|done]. unfold le. by rewrite E. }
  all: constructor; [by apply IH2|]; rewrite merge_perm.
  all: apply list.Forall_app; split; [|done]; apply Hall; [|done]; unfold le; rewrite (cmp_opp cmp x y), E; done.
Qed.

(** ** The loops *)
Lemma vec_set_app (pre : list A) z post x :
  vec_set (pre ++ z :: post) (vec_size pre) x = Ok (pre ++ x :: post).
Proof.
  apply vec_set_Ok. unfold vec_size. rewrite length_app. cbn. split; [lia|].
  rewrite Nat2Z.id, insert_app_r_alt, Nat.sub_diag by lia. done.
Qed.

Lemma vec_size_snoc (pre : list A) x : vec_size pre + 1 = vec_size (pre ++ [x]).
Proof. unfold vec_size. rewrite length_app. cbn. lia. Qed.

Lemma copy_rest_ok (l : list A) : forall pre old post : list A, length old = length l ->
  copy_rest (pre ++ old ++ post) (vec_size pre) l = Ok (pre ++ l ++ post).
Proof.
  induction l as [|x l IH]; intros pre [|z old] post Hl; try done. cbn [copy_rest app].
  rewrite vec_set_app. cbn [mbind Res_bind]. rewrite (vec_size_snoc pre x).
  replace (pre ++ x :: old ++ post) with ((pre ++ [x]) ++ old ++ post) by (by rewrite <- (assoc_L (++))).
  rewrite IH by (cbn in Hl; lia). by rewrite <- (assoc_L (++)).
Qed.

Lemma merge_loop_ok (v1 : list A) : forall v2 pre old post : list A, compares (v1 ++ v2) ->
  length old = (length v1 + length v2)%nat ->
  merge_loop comp_fn v1 v2 (vec_size pre) (pre ++ old ++ post) = Ok (pre ++ merge v1 v2 ++ post).
Proof.
  induction v1 as [|x v1 IH1]; intros v2 pre old post Hc Hl.
  { cbn [merge_loop]. rewrite merge_nil_l. destruct v2; by apply copy_rest_ok. }
  revert pre old Hl. induction v2 as [|y v2 IH2]; intros pre old Hl.
  { cbn [merge_loop]. rewrite merge_nil_r. apply copy_rest_ok. cbn in Hl |- *. lia. }
  destruct old as [|z old]; [done|].
  change (merge_loop comp_fn (x :: v1) (y :: v2) (vec_size pre) (pre ++ (z :: old) ++ post)) with
    (c ← comp_fn x y;
     if c : bool then d ← vec_set (pre ++ z :: old ++ post) (vec_size pre) x;
       merge_loop comp_fn v1 (y :: v2) (vec_size pre + 1) d
     else d ← vec_set (pre ++ z :: old ++ post) (vec_size pre) y;
       merge_loop comp_fn (x :: v1) v2 (vec_size pre + 1) d).
  rewrite Hc by (apply elem_of_app; set_solver). cbn [mbind Res_bind]. rewrite merge_cons.
  assert (forall w d', (pre ++ [w]) ++ d' ++ post = pre ++ w :: d' ++ post) as Happ
    by (intros; by rewrite <- (assoc_L (++))).
  destruct (cmp x y).
  2: { rewrite vec_set_app. cbn [mbind Res_bind]. rewrite (vec_size_snoc pre x).
       rewrite <- (Happ x old), IH1, Happ; [done| |cbn in Hl |- *; lia].
       eapply compares_sub; [exact Hc|]. set_solver. }
  all: rewrite vec_set_app; cbn [mbind Res_bind]; rewrite (vec_size_snoc pre y).
  all: rewrite <- (Happ y old), IH2, Happ; [done| |cbn in Hl |- *; lia].
  all: eapply compares_sub; [exact Hc|]; set_solver.
Qed.

Lemma copy_out_ok (pre seg post : list A) :
  copy_out (pre ++ seg ++ post) (vec_size pre) (vec_size seg) = Ok seg.
Proof.
  unfold copy_out, vec_size. rewrite !length_app.
  rewrite (proj2 (Z.leb_le _ _)), (proj2 (Z.leb_le _ _)) by lia. cbn.
  by rewrite !Nat2Z.id, drop_app_length, take_app_length.
Qed.

Lemma MergeSort_ok fuel : forall pre seg post : list A, (length seg <= fuel)%nat -> (0 < fuel)%nat -> compares seg ->
  exists seg', MergeSort comp_fn fuel (pre ++ seg ++ post) (vec_size pre) (vec_size pre + vec_size seg - 1) =
      Ok (pre ++ seg' ++ post) /\ Permutation seg' seg /\ StronglySorted le seg'.
Proof.
  induction fuel as [|fuel IH]; intros pre seg post Hl Hf Hc; [lia|]. cbn [MergeSort].
  destruct (Z.leb_spec (vec_size pre + vec_size seg - 1) (vec_size pre)) as [Hs|Hs].
  { exists seg. split_and!; [done..|]. unfold vec_size in Hs.
    destruct seg as [|x [|y seg]]; [constructor|by repeat constructor|cbn in Hs; lia]. }
  unfold vec_size in Hs.
  pose proof (Z.div_mod (vec_size seg - 1) 2 ltac:(lia)) as Hdiv.
  pose proof (Z.mod_pos_bound (vec_size seg - 1) 2 ltac:(lia)) as Hmod.
  set (h := Z.to_nat ((vec_size seg - 1) / 2 + 1)).
  assert (0 < h < length seg)%nat as Hh by (unfold h, vec_size in *; lia).
  assert (vec_size pre + (vec_size pre + vec_size seg - 1 - vec_size pre) / 2 =
    vec_size pre + Z.of_nat h - 1) as Em.
  { unfold h. replace (vec_size pre + vec_size seg - 1 - vec_size pre) with (vec_size seg - 1) by lia.
    unfold vec_size in *. lia. }
  rewrite Em. pose proof (take_drop h seg) as Eseg. set (s1 := take h seg) in *. set (s2 := drop h seg) in *.
  assert (length s1 = h) as Hl1 by (unfold s1; rewrite length_take; lia).
  assert (length s2 = (length seg - h)%nat) as Hl2 by (unfold s2; by rewrite length_drop).
  assert (compares s1 /\ compares s2) as [Hc1 Hc2].
  { split; (eapply compares_sub; [exact Hc|]); intros x Hx; rewrite <- Eseg, elem_of_app; tauto. }
  clearbody s1 s2 h. subst seg. rewrite length_app in *.
  destruct (IH pre s1 (s2 ++ post)) as (s1' & E1 & P1 & S1); [lia|lia|done|].
  rewrite <- (assoc_L (++) s1). unfold vec_size at 3 in E1. rewrite Hl1 in E1. rewrite E1.
  cbn [mbind Res_bind]. pose proof (Permutation_length P1) as Hl1'.
  destruct (IH (pre ++ s1') s2 post) as (s2' & E2 & P2 & S2); [lia|lia|done|].
  rewrite <- (assoc_L (++)) in E2.
  replace (vec_size pre + Z.of_nat h - 1 + 1) with (vec_size (pre ++ s1')) by (unfold vec_size; rewrite length_app; lia).
  replace (vec_size pre + vec_size (s1 ++ s2) - 1) with (vec_size (pre ++ s1') + vec_size s2 - 1)
    by (unfold vec_size; rewrite !length_app; lia).
  rewrite E2. cbn [mbind Res_bind]. rewrite <- (assoc_L (++)). pose proof (Permutation_length P2) as Hl2'.
  unfold Merge.
  replace (vec_size pre + Z.of_nat h - 1 - vec_size pre + 1) with (vec_size s1') by (unfold vec_size; lia).
  rewrite copy_out_ok. cbn [mbind Res_bind].
  replace (vec_size pre + Z.of_nat h - 1 + 1) with (vec_size (pre ++ s1')) by (unfold vec_size; rewrite length_app; lia).
  replace (vec_size (pre ++ s1') + vec_size s2 - 1 - (vec_size pre + Z.of_nat h - 1)) with (vec_size s2')
    by (unfold vec_size; rewrite length_app; lia).
  rewrite (assoc_L (++) pre s1'), copy_out_ok. cbn [mbind Res_bind].
  rewrite <- (assoc_L (++)), (assoc_L (++) s1').
  rewrite merge_loop_ok; [|eapply compares_sub; [exact Hc|]|by rewrite length_app].
  2: { intros x. by rewrite P1, P2. }
  exists (merge s1' s2'). split; [done|]. split; [|by apply merge_sorted].
  by rewrite merge_perm, P1, P2.
Qed.

(** [Sort] sorts the elements and keeps them. *)
Lemma Sort_rep vec xs : vec_rep vec xs -> compares xs ->
  exists vec' ys, Sort comp_fn vec = Ok vec' /\ vec_rep vec' ys /\ Permutation ys xs /\ StronglySorted le ys.
Proof.
  intros Hr Hc. pose proof (vec_rep_le _ _ Hr) as Hle. destruct Hr as [Hs Hcap Hroom Hd].
  destruct (MergeSort_ok (S (Z.to_nat (size vec))) [] xs (drop (length xs) (data vec)))
    as (ys & E & Hp & Hsort); [rewrite Hs; unfold vec_size; lia|lia|done|].
  pose proof (Permutation_length Hp) as Hlen. cbn [app] in E.
  assert (xs ++ drop (length xs) (data vec) = data vec) as Edata by (rewrite <- Hd at 1; apply take_drop).
  rewrite Edata in E. change (vec_size []) with 0 in E. rewrite Z.add_0_l, <- Hs in E.
  unfold Sort. rewrite E. cbn [mbind Res_bind]. eexists _, ys. split; [done|]. split; [|done].
  split; cbn [size capacity data]; [unfold vec_size in *; lia| |done|apply take_app_length].
  rewrite Hcap. unfold vec_size. rewrite length_app, length_drop. lia.
Qed.
End Sorting.
