(* ===== verification/Pipeline.v ===== *)
(** * Running pipelines

    Pipelines (src/execution/pipeline.cc, src/compile/proxy/pipeline.cc) and their
    execution (src/execution/executable_query.cc): the pipelines are sorted
    topologically, each is initialised and run, over its whole input or in chunks
    of tuples, and its input buffers are released after their last use. *)
From Stdlib Require Import Sorting.Sorted.
From S2P Require Import Prelude.

(** ** The model *)
Record Pipeline := MkPipeline {
  pl_driver : option Z;
  pl_pred : list Z;
  pl_succ : list Z;
  pl_split : bool;
}.

Definition Pipeline_new : Pipeline := MkPipeline None [] [] false.

(** [PipelineBuilder::CreatePipeline]: ids count up, so a pipeline's id is its
    position. *)
Definition CreatePipeline (ps : list Pipeline) : Z * list Pipeline :=
  (vec_size ps, ps ++ [Pipeline_new]).

Definition AddPredecessor (ps : list Pipeline) (p pred : Z) : Res (list Pipeline) :=
  a ← vec_at ps p;
  ps ← vec_set ps p (MkPipeline (pl_driver a) (pl_pred a ++ [pred]) (pl_succ a) (pl_split a));
  b ← vec_at ps pred;
  vec_set ps pred (MkPipeline (pl_driver b) (pl_pred b) (pl_succ b ++ [p]) (pl_split b)).

Definition SetDriver (ps : list Pipeline) (p pred : Z) : Res (list Pipeline) :=
  a ← vec_at ps p;
  ps ← vec_set ps p (MkPipeline (Some pred) (pl_pred a) (pl_succ a) (pl_split a));
  AddPredecessor ps p pred.

Definition SetSplit (ps : list Pipeline) (p : Z) (s : bool) : Res (list Pipeline) :=
  a ← vec_at ps p; vec_set ps p (MkPipeline (pl_driver a) (pl_pred a) (pl_succ a) s).

(** ** Topological order *)
Definition DfsState : Type := list bool * list Z.

Fixpoint TopSortVisit (fuel : nat) (ps : list Pipeline) (curr : Z) (st : DfsState) : Res DfsState :=
  match fuel with
  | O => NoFuel
  | S fuel =>
      let '(visited, order) := st in
      visited ← vec_set visited curr true;
      p ← vec_at ps curr;
      '(visited, order) ←
        (fix loop (next : list Z) (st : DfsState) : Res DfsState :=
          match next with
          | [] => Ok st
          | x :: next =>
              v ← vec_at st.1 x;
              st ← (if v : bool then Ok st else TopSortVisit fuel ps x st);
              loop next st
          end) (pl_succ p) (visited, order);
      Ok (visited, order ++ [curr])
  end.

(** The loop over the pipelines; the recursion is at most as deep as there are
    pipelines. *)
Fixpoint topsort_loop (fuel : nat) (ps : list Pipeline) (i : list Z) (st : DfsState) : Res DfsState :=
  match i with
  | [] => Ok st
  | x :: i =>
      v ← vec_at st.1 x;
      st ← (if v : bool then Ok st else TopSortVisit fuel ps x st);
      topsort_loop fuel ps i st
  end.

Definition topsort (ps : list Pipeline) : Res (list Z) :=
  '(_, order) ← topsort_loop (S (length ps)) ps (Z.of_nat <$> seq 0 (length ps))
    (replicate (length ps) false, []);
  Ok (rev order).

(** ** Execution *)
Inductive Event := EInit (p : Z) | EBody (p : Z) | EReset (p : Z).
#[export] Instance Event_eq_dec : EqDecision Event.
Proof. solve_decision. Defined.

Fixpoint CleanUpPredecessors (ps : list Pipeline) (preds : list Z) (users : list Z)
    : Res (list Event * list Z) :=
  match preds with
  | [] => Ok ([], users)
  | pred :: preds =>
      p ← vec_at ps pred;
      u ← vec_at users pred;
      users ← vec_set users pred (u + 1);
      '(tr, users) ← CleanUpPredecessors ps preds users;
      Ok ((if u + 1 =? vec_size (pl_succ p) then [EReset pred] else []) ++ tr, users)
  end.

Fixpoint execute_loop (ps : list Pipeline) (order : list Z) (users : list Z)
    : Res (list Event * list Z) :=
  match order with
  | [] => Ok ([], users)
  | i :: order =>
      p ← vec_at ps i;
      '(resets, users) ← CleanUpPredecessors ps (pl_pred p) users;
      '(tr, users) ← execute_loop ps order users;
      Ok ([EInit i; EBody i] ++ resets ++ tr, users)
  end.

(** [ExecutableQuery::Execute]: what is called, in order. *)
Definition Execute (ps : list Pipeline) : Res (list Event) :=
  order ← topsort ps;
  '(tr, _) ← execute_loop ps order (replicate (length ps) 0);
  final ← opt_ub (list.last order);
  p ← vec_at ps final;
  if vec_size (pl_succ p) =? 0 then Ok (tr ++ [EReset final])
  else Throw "A pipeline references the output pipeline".

(** ** Chunks *)
Definition CHUNK_SIZE : Z := 8192.

Section Chunks.
Context {S : Type}.

(** The loops over the input of [ExecuteSplitPipelineStatic] and [-Adaptive]:
    [limit] bounds the number of chunks. *)
Fixpoint chunk_loop (fuel : nat) (body : S -> Z -> Z -> Res S) (limit : option nat) (s : S)
    (next_tuple input_size : Z) : Res (S * Z) :=
  if (next_tuple <? input_size) && negb (bool_decide (limit = Some 0%nat)) then
    match fuel with
    | O => NoFuel
    | Datatypes.S fuel =>
        e ← signed_result 32 (next_tuple + CHUNK_SIZE - 1);
        let end_ := Z.min e (input_size - 1) in
        s ← body s next_tuple end_;
        chunk_loop fuel body (Nat.pred <$> limit) s (end_ + 1) input_size
    end
  else Ok (s, next_tuple).

Definition chunk_fuel (input_size : Z) : nat := Z.to_nat input_size.

Definition ExecuteSplitPipelineStatic (body : S -> Z -> Z -> Res S) (s : S) (input_size : Z) : Res S :=
  '(s, _) ← chunk_loop (chunk_fuel input_size) body None s 0 input_size; Ok s.

(** The first two chunks run the code of the assembly backend; [optimize] is the
    decision, from their running time, to have LLVM compile the rest. *)
Definition ExecuteSplitPipelineAdaptive (asm_body llvm_body : S -> Z -> Z -> Res S)
    (optimize : bool) (s : S) (input_size : Z) : Res S :=
  '(s, next_tuple) ← chunk_loop (chunk_fuel input_size) asm_body (Some 2%nat) s 0 input_size;
  if next_tuple <? input_size then
    let exec := if optimize then llvm_body else asm_body in
    '(s, _) ← chunk_loop (chunk_fuel input_size) exec None s next_tuple input_size; Ok s
  else Ok s.
End Chunks.

(** ** The topological order *)
Section TopSort.
Context (ps : list Pipeline).

Definition edge (u v : Z) : Prop := exists p, 0 <= u /\ ps !! Z.to_nat u = Some p /\ v ∈ pl_succ p.
Definition is_pipeline (u : Z) : Prop := 0 <= u < vec_size ps.

(** The edges lead to pipelines and upwards in some numbering: no cycles. *)
Record acyclic (rank : Z -> nat) : Prop := {
  ac_range : forall u v, edge u v -> is_pipeline v;
  ac_rank : forall u v, edge u v -> (rank u < rank v)%nat;
}.

Context (rank : Z -> nat) (Hac : acyclic rank).

(** Every successor of a finished pipeline was finished before it. *)
Definition postorder (order : list Z) : Prop :=
  forall l1 u l2 v, order = l1 ++ u :: l2 -> edge u v -> v ∈ l1.

(** [K] are the pipelines being visited. *)
Record dfs_inv (K : list Z) (st : DfsState) : Prop := {
  di_len : length st.1 = length ps;
  di_nodup : NoDup (st.2 ++ K);
  di_range : forall x, x ∈ st.2 ++ K -> is_pipeline x;
  di_visited : forall x, 0 <= x -> st.1 !! Z.to_nat x = Some true <-> x ∈ st.2 ++ K;
  di_post : postorder st.2;
}.

Lemma stack_bound K st : dfs_inv K st -> (length K <= length ps)%nat.
Proof.
  intros [_ Hn Hr _ _]. apply list.NoDup_app in Hn as (_ & _ & Hn).
  assert (K ⊆+ (Z.of_nat <$> seq 0 (length ps))) as Hsub.
  { apply NoDup_submseteq; [done|]. intros x Hx. specialize (Hr x ltac:(apply elem_of_app; by right)).
    apply list_elem_of_fmap. exists (Z.to_nat x). unfold is_pipeline, vec_size in Hr. split; [lia|].
    apply elem_of_seq. lia. }
  apply submseteq_length in Hsub. by rewrite length_fmap, length_seq in Hsub.
Qed.

Lemma visited_at K st x : dfs_inv K st -> is_pipeline x ->
  exists b, vec_at st.1 x = Ok b /\ (b = true <-> x ∈ st.2 ++ K).
Proof.
  intros H Hx. destruct (lookup_lt_is_Some_2 st.1 (Z.to_nat x)) as [b Hb].
  { rewrite (di_len _ _ H). unfold is_pipeline, vec_size in Hx. lia. }
  exists b. split; [apply vec_at_Ok; split; [apply Hx|done]|].
  rewrite <- (di_visited _ _ H x) by apply Hx. rewrite Hb. split; congruence.
Qed.

Lemma postorder_snoc order u : postorder order -> (forall v, edge u v -> v ∈ order) ->
  ~ u ∈ order -> postorder (order ++ [u]).
Proof.
  intros Hp Hu Hnew l1 w l2 v E Hedge. destruct (list.last l2) as [z|] eqn:El2.
  - apply last_Some in El2 as [l2' ->]. rewrite app_comm_cons, (assoc_L (++)) in E.
    apply app_inj_tail in E as [-> <-]. by eapply Hp.
  - apply last_None in El2 as ->. apply app_inj_tail in E as [-> <-]. by apply Hu.
Qed.

(** What visiting a pipeline does. *)
Definition visits (K : list Z) (st st' : DfsState) (curr : Z) : Prop :=
  dfs_inv K st' /\ (exists more, st'.2 = st.2 ++ more) /\ curr ∈ st'.2.

Lemma visit_successors (visit : Z -> DfsState -> Res DfsState) K next : forall st,
  (forall x st, dfs_inv K st -> ~ x ∈ st.2 ++ K -> x ∈ next ->
    exists st', visit x st = Ok st' /\ visits K st st' x) ->
  (forall x, x ∈ next -> is_pipeline x /\ ~ x ∈ K) -> dfs_inv K st ->
  exists st', (fix loop (next : list Z) (st : DfsState) : Res DfsState :=
      match next with
      | [] => Ok st
      | x :: next =>
          v ← vec_at st.1 x;
          st ← (if v : bool then Ok st else visit x st);
          loop next st
      end) next st = Ok st' /\
    dfs_inv K st' /\ (exists more, st'.2 = st.2 ++ more) /\ (forall x, x ∈ next -> x ∈ st'.2).
Proof.
  induction next as [|x next IH]; intros st Hvisit Hnext Hinv.
  { exists st. split_and!; [done..|by exists []; rewrite app_nil_r|by intros x ?%not_elem_of_nil]. }
  destruct (Hnext x ltac:(by left)) as [Hx HxK].
  destruct (visited_at _ _ x Hinv Hx) as (b & -> & Hb). cbn [mbind Res_bind].
  assert (exists st1, (if b then Ok st else visit x st) = Ok st1 /\ visits K st st1 x) as (st1 & -> & Hinv1 & [more1 Hm1] & Hx1).
  { destruct b.
    - exists st. split; [done|]. split_and!; [done|by exists []; rewrite app_nil_r|].
      destruct (proj1 (elem_of_app _ _ _) (proj1 Hb eq_refl)); [done|tauto].
    - apply Hvisit; [done| |by left]. intros H. by apply Hb in H. }
  cbn [mbind Res_bind].
  destruct (IH st1) as (st' & -> & Hinv' & [more Hm] & Hall); [|by intros; apply Hnext; right|done|].
  { intros y st2 ? ? ?. apply Hvisit; [done..|by right]. }
  exists st'. split_and!; [done..| |].
  - exists (more1 ++ more). by rewrite Hm, Hm1, (assoc_L (++)).
  - intros y [->|Hy]%elem_of_cons; [|by apply Hall]. rewrite Hm. apply elem_of_app. by left.
Qed.

Lemma TopSortVisit_ok fuel : forall K st curr, dfs_inv K st -> is_pipeline curr -> ~ curr ∈ st.2 ++ K ->
  (forall k, k ∈ K -> (rank k < rank curr)%nat) -> (length ps < fuel + length K)%nat ->
  exists st', TopSortVisit fuel ps curr st = Ok st' /\ visits K st st' curr.
Proof.
  induction fuel as [|fuel IH]; intros K [visited order] curr Hinv Hcurr Hnew HK Hfuel.
  { pose proof (stack_bound _ _ Hinv). cbn in Hfuel. lia. }
  cbn [TopSortVisit]. unfold is_pipeline, vec_size in Hcurr.
  destruct (lookup_lt_is_Some_2 visited (Z.to_nat curr)) as [b Hb].
  { pose proof (di_len _ _ Hinv) as Hl. cbn in Hl. lia. }
  rewrite (vec_set_lookup _ _ _ b) by (lia || done). cbn [mbind Res_bind].
  destruct (lookup_lt_is_Some_2 ps (Z.to_nat curr)) as [p Hp]; [lia|].
  rewrite (proj2 (vec_at_Ok ps curr p)) by (split; [lia|done]). cbn [mbind Res_bind].
  assert (dfs_inv (curr :: K) (<[Z.to_nat curr := true]> visited, order)) as Hinv1.
  { destruct Hinv as [Hl Hn Hr Hv Hpost]. cbn [fst snd] in *. split; cbn [fst snd].
    - by rewrite length_insert.
    - rewrite <- Permutation_middle. by apply list.NoDup_cons.
    - intros x. rewrite <- Permutation_middle. intros [->|Hx]%elem_of_cons; [|by apply Hr].
      unfold is_pipeline, vec_size. lia.
    - intros x Hx. rewrite <- Permutation_middle, elem_of_cons. destruct (decide (x = curr)) as [->|Hne].
      + rewrite list_lookup_insert_eq by (by eapply lookup_lt_Some). naive_solver.
      + rewrite list_lookup_insert_ne by lia. rewrite Hv by done. naive_solver.
    - done. }
  assert (forall v, v ∈ pl_succ p -> edge curr v) as Hedge by (intros v Hv; exists p; split_and!; [lia|done..]).
  destruct (visit_successors (TopSortVisit fuel ps) (curr :: K) (pl_succ p)
    (<[Z.to_nat curr := true]> visited, order)) as ([visited' order'] & -> & Hinv' & [more Hm] & Hall).
  - intros x st Hst Hx Hsucc. apply IH; [done| |done| |cbn; lia].
    + eapply ac_range; [exact Hac|]. by apply Hedge.
    + intros k [->|Hk]%elem_of_cons; [by apply (ac_rank _ Hac), Hedge|].
      specialize (HK k Hk). pose proof (ac_rank _ Hac _ _ (Hedge x Hsucc)). lia.
  - intros x Hx. split; [eapply ac_range; [exact Hac|]; by apply Hedge|].
    pose proof (ac_rank _ Hac _ _ (Hedge x Hx)). intros [->|Hk]%elem_of_cons; [lia|].
    specialize (HK x Hk). lia.
  - done.
  - cbn [mbind Res_bind]. eexists. split; [done|]. destruct Hinv' as [Hl Hn Hr Hv Hpost].
    cbn [fst snd] in *. split_and!.
    + split; cbn [fst snd].
      * done.
      * by rewrite <- (assoc_L (++)).
      * intros x. rewrite <- (assoc_L (++)). apply Hr.
      * intros x Hx. rewrite <- (assoc_L (++)). by apply Hv.
      * apply postorder_snoc; [done| |].
        { intros v (p' & _ & Hp' & Hv'). rewrite Hp in Hp'. injection Hp' as <-. by apply Hall. }
        { apply list.NoDup_app in Hn as (_ & Hd & _). intros Hin. apply (Hd _ Hin). by left. }
    + exists (more ++ [curr]). by rewrite Hm, (assoc_L (++)).
    + apply elem_of_app. right. by left.
Qed.
End TopSort.

Lemma topsort_loop_fix ps fuel i st : topsort_loop fuel ps i st =
  (fix loop (next : list Z) (st : DfsState) : Res DfsState :=
    match next with
    | [] => Ok st
    | x :: next =>
        v ← vec_at st.1 x;
        st ← (if v : bool then Ok st else TopSortVisit fuel ps x st);
        loop next st
    end) i st.
Proof.
  revert st. induction i as [|x i IH]; intros st; [done|]. cbn [topsort_loop].
  destruct (vec_at st.1 x) as [v| | |]; cbn [mbind Res_bind]; [|done..].
  destruct (if v then Ok st else TopSortVisit fuel ps x st); cbn [mbind Res_bind]; [|done..]. apply IH.
Qed.

(** The order has every pipeline once, before its successors. *)
Lemma topsort_ok ps rank : acyclic ps rank ->
  exists order, topsort ps = Ok order /\ NoDup order /\ (forall x, x ∈ order <-> is_pipeline ps x) /\
    forall l1 u l2 v, order = l1 ++ u :: l2 -> edge ps u v -> v ∈ l2.
Proof.
  intros Hac. unfold topsort. rewrite topsort_loop_fix.
  assert (forall x, x ∈ Z.of_nat <$> seq 0 (length ps) <-> is_pipeline ps x) as Hall.
  { intros x. rewrite list_elem_of_fmap. unfold is_pipeline, vec_size. split.
    - intros (k & -> & Hk%elem_of_seq). lia.
    - intros Hx. exists (Z.to_nat x). rewrite elem_of_seq. lia. }
  assert (dfs_inv ps [] (replicate (length ps) false, [])) as Hinv0.
  { split; cbn [fst snd app].
    - apply length_replicate.
    - constructor.
    - by intros x ?%not_elem_of_nil.
    - intros x Hx. split; [|by intros ?%not_elem_of_nil]. intros H%lookup_replicate. by destruct H.
    - intros [|? l1] u l2 v E; done. }
  destruct (visit_successors ps (TopSortVisit (S (length ps)) ps) [] (Z.of_nat <$> seq 0 (length ps))
    (replicate (length ps) false, [])) as ([visited order] & -> & Hinv & _ & Hin).
  - intros x st Hst Hx Hr. eapply (TopSortVisit_ok ps rank Hac); [done|by apply Hall|done| |cbn; lia].
    by intros k ?%not_elem_of_nil.
  - intros x Hx. split; [by apply Hall|apply not_elem_of_nil].
  - done.
  - cbn [mbind Res_bind]. exists (rev order). destruct Hinv as [_ Hn Hr _ Hpost]. cbn [fst snd] in *.
    rewrite app_nil_r in *. split_and!; [done|..].
    + by rewrite <- (Permutation_rev order).
    + intros x. rewrite <- (Permutation_rev order). split; [apply Hr|]. intros Hx. by apply Hin, Hall.
    + intros l1 u l2 v E Hedge. rewrite (Permutation_rev l2). eapply Hpost; [|exact Hedge].
      rewrite <- (rev_involutive order), E, rev_app_distr. cbn. by rewrite <- (assoc_L (++)).
Qed.

(** ** The schedule *)
Definition occ {A} `{EqDecision A} (x : A) (l : list A) : nat := length (filter (fun y => y = x) l).

Section Occ.
Context {A : Type} `{EqDecision A}.
Implicit Types (x y : A) (l : list A).

Lemma occ_app x l1 l2 : occ x (l1 ++ l2) = (occ x l1 + occ x l2)%nat.
Proof. unfold occ. by rewrite list.filter_app, length_app. Qed.
Lemma occ_cons x y l : occ x (y :: l) = ((if decide (y = x) then 1 else 0) + occ x l)%nat.
Proof. unfold occ. rewrite filter_cons. by case_decide. Qed.
Lemma occ_nil x : occ x [] = 0%nat.
Proof. done. Qed.
Lemma occ_pos x l : (0 < occ x l)%nat <-> x ∈ l.
Proof.
  unfold occ. split.
  - destruct (filter _ l) as [|y ys] eqn:E; cbn; [lia|]. intros _.
    assert (y ∈ filter (fun y => y = x) l) as Hy by (rewrite E; by left).
    apply list_elem_of_filter in Hy as [-> ?]. done.
  - intros Hx. assert (x ∈ filter (fun y => y = x) l) as Hin by (by apply list_elem_of_filter).
    destruct (filter _ l); [by apply not_elem_of_nil in Hin|cbn; lia].
Qed.
Lemma occ_nodup x l : NoDup l -> x ∈ l -> occ x l = 1%nat.
Proof.
  intros Hn Hx. induction Hn as [|y l Hy Hn IH]; [by apply not_elem_of_nil in Hx|].
  rewrite occ_cons. apply elem_of_cons in Hx as [->|Hx].
  - rewrite decide_True by done. enough (~ (0 < occ y l)%nat) by lia. by rewrite occ_pos.
  - rewrite decide_False by (intros ->; done). by rewrite IH.
Qed.
End Occ.

Section Schedule.
Context (ps : list Pipeline).

Definition preds (i : Z) : list Z := default [] (pl_pred <$> ps !! Z.to_nat i).
Definition succs (i : Z) : list Z := default [] (pl_succ <$> ps !! Z.to_nat i).
(** How often the pipelines [l] name [u] as a predecessor. *)
Definition uses (l : list Z) (u : Z) : nat := occ u (mjoin (preds <$> l)).

Lemma uses_app l1 l2 u : uses (l1 ++ l2) u = (uses l1 u + uses l2 u)%nat.
Proof. unfold uses. by rewrite fmap_app, join_app, occ_app. Qed.
Lemma uses_cons i l u : uses (i :: l) u = (occ u (preds i) + uses l u)%nat.
Proof. unfold uses. change (mjoin (preds <$> i :: l)) with (preds i ++ mjoin (preds <$> l)). apply occ_app. Qed.

Definition users_ok (dn : Z -> nat) (users : list Z) : Prop :=
  length users = length ps /\
  forall u, is_pipeline ps u -> users !! Z.to_nat u = Some (Z.of_nat (dn u)).

Definition crosses (a l b : nat) : nat := if decide (a < l <= b)%nat then 1 else 0.

Lemma CleanUp_ok prs : forall dn users, users_ok dn users -> (forall u, u ∈ prs -> is_pipeline ps u) ->
  exists rs users', CleanUpPredecessors ps prs users = Ok (EReset <$> rs, users') /\
    users_ok (fun u => (dn u + occ u prs)%nat) users' /\
    forall u, is_pipeline ps u -> occ u rs = crosses (dn u) (length (succs u)) (dn u + occ u prs) /\
      (u ∈ rs -> u ∈ prs).
Proof.
  induction prs as [|p prs IH]; intros dn users [Hl Hu] Hr; cbn [CleanUpPredecessors].
  { exists [], users. split; [done|]. split.
    - split; [done|]. intros u Hp. rewrite occ_nil, Nat.add_0_r. by apply Hu.
    - intros u Hp. unfold crosses. rewrite occ_nil, Nat.add_0_r. split; [case_decide; [lia|done]|done]. }
  pose proof (Hr p ltac:(by left)) as Hp. unfold is_pipeline, vec_size in Hp.
  destruct (lookup_lt_is_Some_2 ps (Z.to_nat p)) as [pl Hpl]; [lia|].
  rewrite (proj2 (vec_at_Ok ps p pl)) by (split; [lia|done]). cbn [mbind Res_bind].
  pose proof (Hu p Hp) as Hup. rewrite (proj2 (vec_at_Ok users p _)) by (split; [lia|exact Hup]). cbn [mbind Res_bind].
  rewrite (vec_set_lookup _ _ _ _ (proj1 Hp) Hup). cbn [mbind Res_bind].
  destruct (IH (fun u => (dn u + if decide (p = u) then 1 else 0)%nat) (<[Z.to_nat p := Z.of_nat (dn p) + 1]> users))
    as (rs & users' & -> & [Hl' Hu'] & Hrs).
  { split; [by rewrite length_insert|]. intros u Hpu. unfold is_pipeline, vec_size in Hpu. case_decide as Hd.
    - subst u. rewrite list_lookup_insert_eq by lia. f_equal. lia.
    - rewrite list_lookup_insert_ne by lia. rewrite Nat.add_0_r. by apply Hu. }
  { intros u ?. apply Hr. by right. }
  cbn [mbind Res_bind].
  set (hit := Z.of_nat (dn p) + 1 =? vec_size (pl_succ pl)).
  exists ((if hit then [p] else []) ++ rs), users'. split; [by destruct hit|]. split.
  - split; [done|]. intros u Hpu. rewrite (Hu' u Hpu), occ_cons. do 2 f_equal. lia.
  - intros u Hpu. destruct (Hrs u Hpu) as [Ho Hin]. rewrite occ_app, Ho, occ_cons.
    assert (occ u (if hit then [p] else []) =
      if decide (p = u) then if decide (length (succs u) = S (dn u)) then 1%nat else 0%nat else 0%nat) as ->.
    { unfold hit, vec_size. case_decide as Hd.
      - subst u. assert (succs p = pl_succ pl) as -> by (unfold succs; by rewrite Hpl).
        destruct (Z.eqb_spec (Z.of_nat (dn p) + 1) (Z.of_nat (length (pl_succ pl)))); rewrite ?occ_cons, ?occ_nil.
        + rewrite decide_True by done. rewrite decide_True by lia. done.
        + rewrite decide_False by lia. done.
      - case_match; rewrite ?occ_cons, ?occ_nil; [by rewrite decide_False|done]. }
    split.
    + unfold crosses. repeat case_decide; lia.
    + intros [Hx|Hx]%elem_of_app; [|right; by apply Hin]. destruct hit; [|by apply not_elem_of_nil in Hx].
      apply list_elem_of_singleton in Hx as ->. by left.
Qed.

(** What the loop over the pipelines calls. *)
Lemma execute_loop_ok order : forall dn users, users_ok dn users ->
  (forall i, i ∈ order -> is_pipeline ps i) -> (forall i u, u ∈ preds i -> is_pipeline ps u) ->
  exists tr users', execute_loop ps order users = Ok (tr, users') /\
    (forall i, occ (EInit i) tr = occ i order /\ occ (EBody i) tr = occ i order) /\
    (forall l1 i l2, order = l1 ++ i :: l2 -> exists t1 t2, tr = t1 ++ EInit i :: EBody i :: t2 /\
      forall j, j ∈ l1 -> EBody j ∈ t1) /\
    (forall u, is_pipeline ps u -> occ (EReset u) tr = crosses (dn u) (length (succs u)) (dn u + uses order u)) /\
    (forall t1 u t2, tr = t1 ++ EReset u :: t2 -> is_pipeline ps u -> exists l1 i l2, order = l1 ++ i :: l2 /\
      (forall j, j ∈ l1 ++ [i] -> EBody j ∈ t1) /\ (length (succs u) <= dn u + uses (l1 ++ [i]) u)%nat).
Proof.
  induction order as [|i order IH]; intros dn users Hu Hr Hpr; cbn [execute_loop].
  { exists [], users. split_and!; [done|by intros|by intros [] ??| |by intros []].
    intros u _. unfold crosses, uses. cbn. rewrite Nat.add_0_r. case_decide; [lia|done]. }
  pose proof (Hr i ltac:(by left)) as Hi. unfold is_pipeline, vec_size in Hi.
  destruct (lookup_lt_is_Some_2 ps (Z.to_nat i)) as [p Hp]; [lia|].
  rewrite (proj2 (vec_at_Ok ps i p)) by (split; [lia|done]). cbn [mbind Res_bind].
  assert (pl_pred p = preds i) as Ep by (unfold preds; by rewrite Hp).
  destruct (CleanUp_ok (pl_pred p) dn users Hu) as (rs & users1 & -> & Hu1 & Hrs).
  { intros u Hin. apply (Hpr i). by rewrite <- Ep. }
  rewrite Ep in *. cbn [mbind Res_bind].
  destruct (IH _ users1 Hu1) as (tr & users' & -> & H1 & H2 & H3 & H4); [intros; apply Hr; by right|done|].
  cbn [mbind Res_bind]. eexists _, users'. split; [done|].
  assert (forall e, (forall u, e <> EReset u) -> occ e (EReset <$> rs) = 0%nat) as Hnoreset.
  { intros e He. enough (~ (0 < occ e (EReset <$> rs))%nat) by lia. rewrite occ_pos, list_elem_of_fmap.
    intros (u & -> & _). by eapply He. }
  split_and!.
  - intros j. destruct (H1 j) as [Ha Hb]. cbn [app]. rewrite !occ_cons, !occ_app, !Hnoreset by done.
    rewrite Ha, Hb. destruct (decide (i = j)) as [->|Hne].
    + rewrite (decide_True (P := EInit j = EInit j)), (decide_True (P := EBody j = EBody j)) by done.
      rewrite !decide_False by done. lia.
    + rewrite !decide_False by congruence. lia.
  - intros [|x l1] j l2 E; injection E as -> ->.
    + exists [], ((EReset <$> rs) ++ tr). split; [done|]. by intros ? ?%not_elem_of_nil.
    + destruct (H2 l1 j l2 eq_refl) as (t1 & t2 & -> & Hj).
      exists ([EInit x; EBody x] ++ (EReset <$> rs) ++ t1), t2. split; [by rewrite <- !(assoc_L (++))|].
      intros k [->|Hk]%elem_of_cons; rewrite !elem_of_app; [left; right; by left|right; right; by apply Hj].
  - intros u Hpu. cbn [app]. rewrite !occ_cons, occ_app, !decide_False by done.
    assert (occ (EReset u) (EReset <$> rs) = occ u rs) as ->.
    { clear. induction rs as [|r rs IH]; [done|]. rewrite fmap_cons, !occ_cons, IH.
      destruct (decide (r = u)) as [->|]; [by rewrite !decide_True|by rewrite !decide_False by congruence]. }
    rewrite (H3 u Hpu), (proj1 (Hrs u Hpu)), uses_cons. unfold crosses. repeat case_decide; lia.
  - intros t1 u t2 E Hpu. cbn [app] in E.
    destruct t1 as [|e1 [|e2 t1]]; [done|done|]. cbn in E. injection E as <- <- E.
    apply app_eq_inv in E as [(w & Ew & Etr)|(w & -> & Etr)].
    + destruct w as [|e w].
      * cbn in Etr. destruct (H4 [] u t2) as (l1 & j & l2 & -> & Hj & Huse); [by rewrite Etr|done|].
        exfalso. specialize (Hj j ltac:(apply elem_of_app; right; by left)). by apply not_elem_of_nil in Hj.
      * injection Etr as <- _. assert (u ∈ rs) as Hin.
        { assert (EReset u ∈ EReset <$> rs) as (r & [= ->] & ?)%list_elem_of_fmap; [|done].
          rewrite Ew. apply elem_of_app. right. by left. }
        exists [], i, order. split; [done|]. split.
        -- intros k ->%list_elem_of_singleton. right. by left.
        -- cbn [app]. rewrite uses_cons. destruct (Hrs u Hpu) as [Ho _].
           assert (0 < occ u rs)%nat as Hpos by (by apply occ_pos). rewrite Ho in Hpos. unfold crosses in Hpos.
           case_decide; lia.
    + destruct (H4 w u t2 Etr Hpu) as (l1 & j & l2 & -> & Hj & Huse).
      exists (i :: l1), j, l2. split; [done|]. split.
      * intros k [->|Hk]%elem_of_cons; [right; by left|]. do 2 right. apply elem_of_app. right. by apply Hj.
      * cbn [app]. rewrite uses_cons. lia.
Qed.
End Schedule.

(** An event that happens before another one. *)
Definition before (a b : Event) (tr : list Event) : Prop :=
  exists t1 t2 t3, tr = t1 ++ a :: t2 ++ b :: t3.

Lemma before_app a b t1 t2 : a ∈ t1 -> b ∈ t2 -> before a b (t1 ++ t2).
Proof.
  intros (x1 & x2 & ->)%list_elem_of_split (y1 & y2 & ->)%list_elem_of_split.
  exists x1, (x2 ++ y1), y2. by rewrite <- !(assoc_L (++)).
Qed.

(** Predecessor and successor lists name the same edges, equally often. *)
Record mutual (ps : list Pipeline) : Prop := {
  mu_pred : forall i u, u ∈ preds ps i -> is_pipeline ps u;
  mu_succ : forall u i, i ∈ succs ps u -> is_pipeline ps i;
  mu_occ : forall u i, is_pipeline ps u -> is_pipeline ps i -> occ u (preds ps i) = occ i (succs ps u);
}.

Lemma sum_occ (l order : list Z) : NoDup order -> (forall x, x ∈ l -> x ∈ order) ->
  sum_list_with (fun v => occ v l) order = length l.
Proof.
  intros Hn. induction l as [|x l IH]; intros Hl.
  { clear. induction order as [|v order IH]; [done|]. cbn [sum_list_with]. by rewrite IH. }
  assert (forall order, sum_list_with (fun v => occ v (x :: l)) order =
    (occ x order + sum_list_with (fun v => occ v l) order)%nat) as ->.
  { clear. intros order. induction order as [|v order IH]; [done|]. cbn [sum_list_with].
    rewrite IH, !occ_cons. destruct (decide (x = v)) as [->|]; [rewrite decide_True by done; lia|].
    rewrite decide_False by congruence. lia. }
  rewrite IH by (intros; apply Hl; by right). by rewrite (occ_nodup x order Hn) by (apply Hl; by left).
Qed.

Lemma mutual_uses ps order u : mutual ps -> NoDup order -> (forall x, x ∈ order <-> is_pipeline ps x) ->
  is_pipeline ps u -> uses ps order u = length (succs ps u).
Proof.
  intros Hm Hn Hin Hu. rewrite <- (sum_occ (succs ps u) order Hn) by (intros x Hx; apply Hin; by eapply mu_succ).
  assert (forall l, (forall x, x ∈ l -> is_pipeline ps x) ->
    uses ps l u = sum_list_with (fun v => occ v (succs ps u)) l) as Hl.
  { induction l as [|v l IH]; intros Hr; [done|]. rewrite uses_cons, IH by (intros; apply Hr; by right).
    cbn [sum_list_with]. rewrite (mu_occ ps Hm u v Hu) by (apply Hr; by left). done. }
  apply Hl. intros. by apply Hin.
Qed.

(** What a run of an order of all pipelines looks like. *)
Record run_of (ps : list Pipeline) (order : list Z) (tr : list Event) : Prop := {
  ro_nodup : NoDup order;
  ro_all : forall x, x ∈ order <-> is_pipeline ps x;
  ro_order : forall l1 u l2 v, order = l1 ++ u :: l2 -> edge ps u v -> v ∈ l2;
  ro_occ : forall i, occ (EInit i) tr = occ i order /\ occ (EBody i) tr = occ i order;
  ro_split : forall l1 i l2, order = l1 ++ i :: l2 -> exists t1 t2, tr = t1 ++ EInit i :: EBody i :: t2 /\
    forall j, j ∈ l1 -> EBody j ∈ t1;
  ro_resets : forall u, is_pipeline ps u -> occ (EReset u) tr = crosses 0 (length (succs ps u)) (uses ps order u);
  ro_reset : forall t1 u t2, tr = t1 ++ EReset u :: t2 -> is_pipeline ps u -> exists l1 i l2, order = l1 ++ i :: l2 /\
    (forall j, j ∈ l1 ++ [i] -> EBody j ∈ t1) /\ (length (succs ps u) <= uses ps (l1 ++ [i]) u)%nat;
}.

Lemma execute_runs ps rank : acyclic ps rank -> mutual ps -> ps <> [] ->
  exists order tr final, run_of ps order tr /\ Execute ps = Ok (tr ++ [EReset final]) /\ succs ps final = [].
Proof.
  intros Hac Hm Hne. destruct (topsort_ok ps rank Hac) as (order & Eo & Hn & Hin & Hord).
  unfold Execute. rewrite Eo. cbn [mbind Res_bind].
  destruct (execute_loop_ok ps order (fun _ => 0%nat) (replicate (length ps) 0))
    as (tr & users' & -> & H1 & H2 & H3 & H4); [|by intros i ?%Hin|apply (mu_pred ps Hm)|].
  { split; [apply length_replicate|]. intros u Hu. apply lookup_replicate_2.
    unfold is_pipeline, vec_size in Hu. lia. }
  cbn [mbind Res_bind].
  assert (exists final, list.last order = Some final) as [final Hfinal].
  { destruct order as [|x order] using rev_ind; [|eexists; apply last_snoc].
    exfalso. destruct ps as [|p ps']; [done|]. apply (not_elem_of_nil 0). apply Hin.
    unfold is_pipeline, vec_size. cbn. lia. }
  rewrite Hfinal. cbn [opt_ub mbind Res_bind]. apply last_Some in Hfinal as [front Efront].
  assert (is_pipeline ps final) as Hpf.
  { apply Hin. rewrite Efront. apply elem_of_app. right. by left. }
  unfold is_pipeline, vec_size in Hpf. destruct (lookup_lt_is_Some_2 ps (Z.to_nat final)) as [p Hp]; [lia|].
  rewrite (proj2 (vec_at_Ok ps final p)) by (split; [lia|done]). cbn [mbind Res_bind].
  assert (pl_succ p = []) as Hsink.
  { destruct (pl_succ p) as [|v vs] eqn:Es; [done|]. exfalso.
    apply (not_elem_of_nil v), (Hord front final [] v Efront). exists p. rewrite Es. split_and!; [lia|done|by left]. }
  rewrite Hsink. exists order, tr, final. split_and!; [by split|done|]. unfold succs. by rewrite Hp.
Qed.

(** An output that is read is released once, after every body that reads it. *)
Lemma run_reset ps order tr u v : mutual ps -> run_of ps order tr -> edge ps u v ->
  occ (EReset u) tr = 1%nat /\ exists t1 t2, tr = t1 ++ EReset u :: t2 /\ EBody v ∈ t1.
Proof.
  intros Hm Hrun (pu & Hu0 & Hpu & Hvs).
  assert (is_pipeline ps u) as Hu by (apply lookup_lt_Some in Hpu; unfold is_pipeline, vec_size; lia).
  assert (v ∈ succs ps u) as Hvu by (unfold succs; by rewrite Hpu).
  assert (is_pipeline ps v) as Hv by (by eapply mu_succ).
  pose proof (mutual_uses ps order u Hm (ro_nodup _ _ _ Hrun) (ro_all _ _ _ Hrun) Hu) as Htotal.
  assert (occ (EReset u) tr = 1%nat) as Hreset.
  { rewrite (ro_resets _ _ _ Hrun u Hu), Htotal. unfold crosses. rewrite decide_True; [done|].
    destruct (succs ps u); [by apply not_elem_of_nil in Hvu|cbn; lia]. }
  split; [done|].
  assert (EReset u ∈ tr) as (t1 & t2 & Et)%list_elem_of_split by (apply occ_pos; lia).
  destruct (ro_reset _ _ _ Hrun t1 u t2 Et Hu) as (m1 & i & m2 & Em & Hbody & Huse).
  exists t1, t2. split; [done|]. apply Hbody.
  assert (v ∈ m1 ++ i :: m2) as Hvo by (rewrite <- Em; by apply (ro_all _ _ _ Hrun)).
  rewrite Em in Htotal. change (i :: m2) with ([i] ++ m2) in Htotal, Hvo.
  rewrite (assoc_L (++)), uses_app in Htotal. rewrite (assoc_L (++)) in Hvo.
  apply elem_of_app in Hvo as [?|Hv']; [done|exfalso].
  destruct (list_elem_of_split _ _ Hv') as (n1 & n2 & ->).
  rewrite (uses_app ps n1), (uses_cons ps v), (mu_occ ps Hm u v Hu Hv) in Htotal.
  assert (0 < occ v (succs ps u))%nat by (by apply occ_pos). lia.
Qed.

(** C12. The schedule: for pipelines without cyclic dependencies, [Execute]
    initialises and runs every pipeline exactly once, runs it after the pipelines
    whose output it reads, and releases each such output exactly once, after the
    last pipeline that reads it. *)
Theorem execute_schedule ps rank : acyclic ps rank -> mutual ps -> ps <> [] ->
  exists tr, Execute ps = Ok tr /\
    (forall i, is_pipeline ps i -> occ (EInit i) tr = 1%nat /\ occ (EBody i) tr = 1%nat /\
      before (EInit i) (EBody i) tr) /\
    (forall u v, edge ps u v -> before (EBody u) (EInit v) tr /\ before (EBody v) (EReset u) tr /\
      occ (EReset u) tr = 1%nat).
Proof.
  intros Hac Hm Hne. destruct (execute_runs ps rank Hac Hm Hne) as (order & tr & final & Hrun & -> & Hsink).
  pose proof (ro_all _ _ _ Hrun) as Hin. eexists. split; [done|].
  assert (forall e, e <> EReset final -> occ e (tr ++ [EReset final]) = occ e tr) as Htail.
  { intros e He. rewrite occ_app, occ_cons, occ_nil, decide_False by congruence. lia. }
  split.
  - intros i Hi. rewrite !Htail by done. destruct (ro_occ _ _ _ Hrun i) as [-> ->].
    rewrite !(occ_nodup i order (ro_nodup _ _ _ Hrun)) by (by apply Hin). split_and!; [done..|].
    destruct (list_elem_of_split _ _ (proj2 (Hin i) Hi)) as (l1 & l2 & El).
    destruct (ro_split _ _ _ Hrun l1 i l2 El) as (t1 & t2 & -> & _).
    exists t1, [], (t2 ++ [EReset final]). by rewrite <- !(assoc_L (++)).
  - intros u v Huv. destruct (run_reset ps order tr u v Hm Hrun Huv) as (Hreset & t1 & t2 & Et & Hb).
    pose proof Huv as (pu & Hu0 & Hpu & Hvs).
    rewrite Htail by (intros [= ->]; unfold succs in Hsink; rewrite Hpu in Hsink; cbn in Hsink;
      rewrite Hsink in Hvs; by apply not_elem_of_nil in Hvs).
    assert (is_pipeline ps u) as Hu by (apply lookup_lt_Some in Hpu; unfold is_pipeline, vec_size; lia).
    destruct (list_elem_of_split _ _ (proj2 (Hin u) Hu)) as (l1 & l2 & El).
    destruct (list_elem_of_split _ _ (ro_order _ _ _ Hrun l1 u l2 v El Huv)) as (l3 & l4 & ->).
    split_and!; [| |done].
    + destruct (ro_split _ _ _ Hrun (l1 ++ u :: l3) v l4) as (s1 & s2 & -> & Hj); [rewrite El, <- (assoc_L (++)); done|].
      rewrite <- (assoc_L (++)). apply before_app; [|by left]. apply Hj, elem_of_app. right. by left.
    + rewrite Et, <- (assoc_L (++)). apply before_app; [done|by left].
Qed.

(** ** The builder keeps the lists mutual *)
Lemma AddPredecessor_lists ps p pred : is_pipeline ps p -> is_pipeline ps pred ->
  exists ps', AddPredecessor ps p pred = Ok ps' /\ length ps' = length ps /\
    (forall i, 0 <= i -> preds ps' i = preds ps i ++ if decide (i = p) then [pred] else []) /\
    (forall i, 0 <= i -> succs ps' i = succs ps i ++ if decide (i = pred) then [p] else []).
Proof.
  unfold is_pipeline, vec_size. intros Hp Hpred. unfold AddPredecessor.
  destruct (lookup_lt_is_Some_2 ps (Z.to_nat p)) as [a Ha]; [lia|].
  rewrite (proj2 (vec_at_Ok ps p a)) by (split; [lia|done]). cbn [mbind Res_bind].
  rewrite (vec_set_lookup _ _ _ _ (proj1 Hp) Ha). cbn [mbind Res_bind].
  set (ps1 := <[Z.to_nat p := _]> ps).
  assert (length ps1 = length ps) as Hl1 by apply length_insert.
  assert (ps1 !! Z.to_nat p = Some (MkPipeline (pl_driver a) (pl_pred a ++ [pred]) (pl_succ a) (pl_split a))) as Hp1
    by (apply list_lookup_insert_eq; lia).
  assert (forall i, 0 <= i -> i <> p -> ps1 !! Z.to_nat i = ps !! Z.to_nat i) as Hne1
    by (intros; apply list_lookup_insert_ne; lia).
  clearbody ps1. destruct (lookup_lt_is_Some_2 ps1 (Z.to_nat pred)) as [b Hb]; [lia|].
  rewrite (proj2 (vec_at_Ok ps1 pred b)) by (split; [lia|done]). cbn [mbind Res_bind].
  rewrite (vec_set_lookup _ _ _ _ (proj1 Hpred) Hb). eexists. split; [done|].
  split; [by rewrite length_insert|]. split; intros i Hi.
  - unfold preds. destruct (decide (i = pred)) as [->|Hne].
    + rewrite list_lookup_insert_eq by lia. cbn. case_decide as Hd.
      * subst pred. rewrite Hp1 in Hb. injection Hb as <-. by rewrite Ha.
      * rewrite Hne1 in Hb by done. rewrite Hb, app_nil_r. done.
    + rewrite list_lookup_insert_ne by lia. case_decide as Hd; [subst i; by rewrite Hp1, Ha|].
      by rewrite Hne1, app_nil_r.
  - unfold succs. destruct (decide (i = pred)) as [->|Hne].
    + rewrite list_lookup_insert_eq by lia. cbn. destruct (decide (pred = p)) as [->|Hd].
      * rewrite Hp1 in Hb. injection Hb as <-. by rewrite Ha.
      * rewrite Hne1 in Hb by done. by rewrite Hb.
    + rewrite list_lookup_insert_ne by lia. rewrite app_nil_r. destruct (decide (i = p)) as [->|Hd]; [by rewrite Hp1, Ha|].
      by rewrite Hne1.
Qed.

Lemma preds_nonneg ps i u : u ∈ preds ps i -> preds ps i = preds ps (Z.max 0 i).
Proof. intros _. unfold preds. by replace (Z.to_nat (Z.max 0 i)) with (Z.to_nat i) by lia. Qed.
Lemma succs_nonneg ps i u : u ∈ succs ps i -> succs ps i = succs ps (Z.max 0 i).
Proof. intros _. unfold succs. by replace (Z.to_nat (Z.max 0 i)) with (Z.to_nat i) by lia. Qed.

Lemma AddPredecessor_mutual ps p pred : mutual ps -> is_pipeline ps p -> is_pipeline ps pred ->
  exists ps', AddPredecessor ps p pred = Ok ps' /\ length ps' = length ps /\ mutual ps'.
Proof.
  intros [Hmp Hms Hmo] Hp Hpred. destruct (AddPredecessor_lists ps p pred Hp Hpred) as (ps' & E & Hl & Hps & Hss).
  exists ps'. split_and!; [done..|].
  assert (forall x, is_pipeline ps' x <-> is_pipeline ps x) as Hpl by (intros; unfold is_pipeline, vec_size; by rewrite Hl).
  split.
  - intros i u Hu. rewrite (preds_nonneg _ _ _ Hu), Hps in Hu by lia. apply Hpl.
    apply elem_of_app in Hu as [Hu|Hu]; [by eapply Hmp|]. case_decide; [|by apply not_elem_of_nil in Hu].
    by apply list_elem_of_singleton in Hu as ->.
  - intros u i Hu. rewrite (succs_nonneg _ _ _ Hu), Hss in Hu by lia. apply Hpl.
    apply elem_of_app in Hu as [Hu|Hu]; [by eapply Hms|]. case_decide; [|by apply not_elem_of_nil in Hu].
    by apply list_elem_of_singleton in Hu as ->.
  - intros u i Hu Hi. apply Hpl in Hu, Hi. rewrite Hps, Hss by (apply Hi || apply Hu). rewrite !occ_app.
    rewrite (Hmo u i Hu Hi). f_equal. destruct (decide (i = p)) as [->|], (decide (u = pred)) as [->|]; rewrite ?occ_cons, ?occ_nil.
    + by rewrite !decide_True by done.
    + by rewrite decide_False by congruence.
    + by rewrite decide_False by congruence.
    + done.
Qed.

Module ScheduleDemo.
(** The pipelines of a sort: fill the buffer, sort it, read it. *)
Definition built : Res (list Pipeline) :=
  let ps := snd (CreatePipeline (snd (CreatePipeline (snd (CreatePipeline []))))) in
  ps ← AddPredecessor ps 1 0; ps ← AddPredecessor ps 2 1; ps ← SetDriver ps 2 0; SetSplit ps 2 true.
Definition sort_pipelines : list Pipeline :=
  [MkPipeline None [] [1; 2] false; MkPipeline None [0] [2] false; MkPipeline (Some 0) [1; 0] [] true].
Example sort_pipelines_built : built = Ok sort_pipelines.
Proof. reflexivity. Qed.

Lemma pipeline_cases x : is_pipeline sort_pipelines x -> x = 0 \/ x = 1 \/ x = 2.
Proof. unfold is_pipeline, vec_size. cbn. lia. Qed.

Lemma execute_schedule_witness :
  exists tr, Execute sort_pipelines = Ok tr /\
    (forall i, is_pipeline sort_pipelines i -> occ (EInit i) tr = 1%nat /\ occ (EBody i) tr = 1%nat /\
      before (EInit i) (EBody i) tr) /\
    (forall u v, edge sort_pipelines u v -> before (EBody u) (EInit v) tr /\ before (EBody v) (EReset u) tr /\
      occ (EReset u) tr = 1%nat).
Proof.
  assert (forall u v, edge sort_pipelines u v -> 0 <= u < v /\ v < 3) as He.
  { intros u v (p & Hu & Hp & Hv). pose proof (lookup_lt_Some _ _ _ Hp) as Hlt. cbn in Hlt.
    assert (u = 0 \/ u = 1 \/ u = 2) as [->|[->| ->]] by lia; cbn in Hp; injection Hp as <-; cbn in Hv.
    - apply elem_of_cons in Hv as [->| ->%list_elem_of_singleton]; lia.
    - apply list_elem_of_singleton in Hv as ->. lia.
    - by apply not_elem_of_nil in Hv. }
  apply (execute_schedule sort_pipelines Z.to_nat).
  - split; intros u v Huv%He; unfold is_pipeline, vec_size; cbn; lia.
  - assert (mutual sort_pipelines) as H; [|exact H]. split.
    + intros i u Hu. rewrite (preds_nonneg _ _ _ Hu) in Hu. unfold is_pipeline, vec_size. cbn.
      unfold preds in Hu. destruct (Z.to_nat (Z.max 0 i)) as [|[|[|k]]]; cbn in Hu.
      * by apply not_elem_of_nil in Hu.
      * apply list_elem_of_singleton in Hu as ->. lia.
      * apply elem_of_cons in Hu as [->| ->%list_elem_of_singleton]; lia.
      * by apply not_elem_of_nil in Hu.
    + intros u i Hi. unfold is_pipeline, vec_size. cbn. unfold succs in Hi.
      destruct (Z.to_nat u) as [|[|[|k]]]; cbn in Hi.
      * apply elem_of_cons in Hi as [->| ->%list_elem_of_singleton]; lia.
      * apply list_elem_of_singleton in Hi as ->. lia.
      * by apply not_elem_of_nil in Hi.
      * by apply not_elem_of_nil in Hi.
    + intros u i [->|[->| ->]]%pipeline_cases [->|[->| ->]]%pipeline_cases; reflexivity.
  - discriminate.
Defined.
End ScheduleDemo.

(** ** Chunks of tuples *)
Section ChunkLemmas.
Context {S : Type}.
Implicit Types (body : S -> Z -> Z -> Res S) (s : S).

(** The chunks of [next_tuple .. input_size - 1]. *)
Fixpoint chunks (fuel : nat) (next input_size : Z) : list (Z * Z) :=
  match fuel with
  | O => []
  | Datatypes.S fuel =>
      if next <? input_size
      then let end_ := Z.min (next + CHUNK_SIZE - 1) (input_size - 1) in
           (next, end_) :: chunks fuel (end_ + 1) input_size
      else []
  end.

Fixpoint run_chunks body s (cs : list (Z * Z)) : Res S :=
  match cs with
  | [] => Ok s
  | (a, b) :: cs => s ← body s a b; run_chunks body s cs
  end.

Lemma chunk_loop_chunks fuel body : forall s next n, 0 <= next -> n <= 2 ^ 31 - CHUNK_SIZE ->
  n - next <= Z.of_nat fuel ->
  chunk_loop fuel body None s next n =
    (s ← run_chunks body s (chunks fuel next n); Ok (s, Z.max next n)).
Proof.
  unfold CHUNK_SIZE. induction fuel as [|fuel IH]; intros s next n H0 Hn Hf; cbn [chunk_loop chunks].
  { destruct (Z.ltb_spec next n); [lia|]. by rewrite Z.max_l by lia. }
  unfold CHUNK_SIZE. destruct (Z.ltb_spec next n) as [Hlt|Hge]; cbn [andb]; [|by rewrite Z.max_l by lia].
  rewrite bool_decide_false by done. cbn [negb].
  rewrite signed_result_id by (unfold is_sw; lia). cbn [mbind Res_bind run_chunks].
  destruct (body s next _) as [s'| | |]; cbn [mbind Res_bind]; [|done..].
  change (Nat.pred <$> None) with (None (A := nat)). rewrite IH by lia.
  by replace (Z.max (Z.min (next + 8192 - 1) (n - 1) + 1) n) with (Z.max next n) by lia.
Qed.

Lemma chunk_loop_fuel body f1 : forall f2 lim s next n, 0 <= next -> n - next <= Z.of_nat f1 ->
  n - next <= Z.of_nat f2 -> chunk_loop f1 body lim s next n = chunk_loop f2 body lim s next n.
Proof.
  induction f1 as [|f1 IH]; intros [|f2] lim s next n H0 H1 H2; cbn [chunk_loop].
  1-3: by rewrite (proj2 (Z.ltb_ge next n)) by lia.
  destruct (_ && _) eqn:Ec; [|done]. apply andb_prop in Ec as [Hlt%Z.ltb_lt _].
  destruct (signed_result 32 _) as [e| | |] eqn:Ee; cbn [mbind Res_bind]; [|done..].
  apply signed_result_Ok in Ee as ->. unfold CHUNK_SIZE in *.
  destruct (body s next _) as [s'| | |]; cbn [mbind Res_bind]; [|done..]. apply IH; lia.
Qed.

(** Stopping after some chunks and going on is the same loop. *)
Lemma chunk_loop_split body f2 fuel : forall k s next n, 0 <= next ->
  n - next <= Z.of_nat fuel -> n - next <= Z.of_nat f2 ->
  (p ← chunk_loop fuel body (Some k) s next n; chunk_loop f2 body None p.1 p.2 n) =
  chunk_loop fuel body None s next n.
Proof.
  induction fuel as [|fuel IH]; intros k s next n H0 Hf Hf2.
  { assert (forall f lim, chunk_loop f body lim s next n = Ok (s, next)) as E.
    { intros f lim. destruct f; cbn [chunk_loop]; by rewrite (proj2 (Z.ltb_ge _ _)) by lia. }
    rewrite !E. cbn [mbind Res_bind fst snd]. apply E. }
  destruct k as [|k].
  { rewrite <- (chunk_loop_fuel body f2 (Datatypes.S fuel) None) by lia. cbn [chunk_loop].
    rewrite bool_decide_true by done. cbn [negb]. by rewrite andb_false_r. }
  cbn [chunk_loop]. destruct (Z.ltb_spec next n) as [Hlt|Hge]; cbn [andb].
  2: { cbn [mbind Res_bind fst snd]. destruct f2; cbn [chunk_loop]; by rewrite (proj2 (Z.ltb_ge next n)) by lia. }
  rewrite (bool_decide_false (None = Some 0%nat)), bool_decide_false by done. cbn [negb].
  destruct (signed_result 32 _) as [e| | |] eqn:Ee; cbn [mbind Res_bind]; [|done..].
  apply signed_result_Ok in Ee as ->. unfold CHUNK_SIZE in *.
  destruct (body s next _) as [s'| | |]; cbn [mbind Res_bind]; [|done..].
  change (Nat.pred <$> Some (Datatypes.S k)) with (Some k). change (Nat.pred <$> None) with (None (A := nat)).
  rewrite IH by lia. done.
Qed.

(** Switching to other code of the same meaning changes nothing. *)
Lemma adaptive_static body opt s n : 0 <= n ->
  ExecuteSplitPipelineAdaptive body body opt s n = ExecuteSplitPipelineStatic body s n.
Proof.
  intros Hn. unfold ExecuteSplitPipelineAdaptive, ExecuteSplitPipelineStatic, chunk_fuel.
  rewrite <- (chunk_loop_split body (Z.to_nat n) (Z.to_nat n) 2 s 0 n) by lia.
  destruct (chunk_loop _ body (Some 2%nat) s 0 n) as [[s' next]| | |]; cbn [mbind Res_bind fst snd]; [|done..].
  destruct (Z.ltb_spec next n) as [Hlt|Hge]; [by destruct opt|].
  destruct (Z.to_nat n); cbn [chunk_loop]; by rewrite (proj2 (Z.ltb_ge next n)) by lia.
Qed.

Lemma static_chunks body s n : 0 <= n <= 2 ^ 31 - CHUNK_SIZE ->
  ExecuteSplitPipelineStatic body s n = run_chunks body s (chunks (Z.to_nat n) 0 n).
Proof.
  intros Hn. unfold ExecuteSplitPipelineStatic, chunk_fuel. rewrite chunk_loop_chunks by lia.
  by destruct (run_chunks body s _).
Qed.
End ChunkLemmas.

(** A body that emits the tuples of its chunk emits every tuple once, in order. *)
Lemma emit_chunks {A} (L : list A) (body : list A -> Z -> Z -> Res (list A)) :
  (forall out a b, (CHUNK_SIZE | a) -> 0 <= a <= b -> b < vec_size L ->
    body out a b = Ok (out ++ take (Z.to_nat (b - a + 1)) (drop (Z.to_nat a) L))) ->
  forall fuel out next, 0 <= next -> (CHUNK_SIZE | next) \/ vec_size L <= next -> vec_size L - next <= Z.of_nat fuel ->
  run_chunks body out (chunks fuel next (vec_size L)) = Ok (out ++ drop (Z.to_nat next) L).
Proof.
  intros Hbody. induction fuel as [|fuel IH]; intros out next H0 Hm Hf; cbn [chunks run_chunks].
  { rewrite drop_ge by (unfold vec_size in Hf; lia). by rewrite app_nil_r. }
  destruct (Z.ltb_spec next (vec_size L)) as [Hlt|Hge]; cbn [run_chunks].
  2: { rewrite drop_ge by (unfold vec_size in Hge; lia). by rewrite app_nil_r. }
  destruct Hm as [Hm|]; [|lia]. rewrite Hbody by (done || unfold CHUNK_SIZE; lia). cbn [mbind Res_bind].
  rewrite IH; [|unfold CHUNK_SIZE; lia| |unfold CHUNK_SIZE; lia].
  2: { destruct (Z.le_gt_cases (next + CHUNK_SIZE) (vec_size L)) as [Hle|Hgt]; [left|right; lia].
    rewrite Z.min_l by lia. replace (next + CHUNK_SIZE - 1 + 1) with (next + CHUNK_SIZE) by lia.
    apply Z.divide_add_r; [done|apply Z.divide_refl]. }
  unfold CHUNK_SIZE in *.
  rewrite <- (assoc_L (++)). do 2 f_equal.
  set (m := Z.to_nat (Z.min (next + 8192 - 1) (vec_size L - 1) - next + 1)).
  replace (Z.to_nat (Z.min (next + 8192 - 1) (vec_size L - 1) + 1)) with (Z.to_nat next + m)%nat by lia.
  rewrite <- (drop_drop L m (Z.to_nat next)). apply take_drop.
Qed.

Lemma static_emits {A} (L : list A) (body : list A -> Z -> Z -> Res (list A)) :
  (forall out a b, (CHUNK_SIZE | a) -> 0 <= a <= b -> b < vec_size L ->
    body out a b = Ok (out ++ take (Z.to_nat (b - a + 1)) (drop (Z.to_nat a) L))) ->
  vec_size L <= 2 ^ 31 - CHUNK_SIZE ->
  ExecuteSplitPipelineStatic body [] (vec_size L) = Ok L.
Proof.
  intros Hb Hn. rewrite static_chunks by (unfold vec_size in *; lia).
  rewrite (emit_chunks L body Hb); [by rewrite drop_0|lia|left; apply Z.divide_0_r|unfold vec_size; lia].
Qed.
