(* ===== verification/RowBuffer.v ===== *)
(** * Buffers of rows

    Operators that keep their input pack each row as a struct into a
    [proxy::Vector] (src/compile/proxy/vector.cc): [OrderByTranslator] and
    [CrossProductTranslator] into one vector, [HashJoinTranslator] into the buckets of
    a hash table. *)
From S2P Require Import Prelude ProgramBuilder SqlValue Struct Vector.

(** ** Loops over a vector *)
(** A loop over a vector, to its size, reading the element [j]; [n] bounds the
    elements left. *)
Fixpoint vector_loop {A S} (handler : S -> A -> Res S) (n : nat) (vec : Vector A) (j : Z) (s : S) : Res S :=
  match n with
  | O => NoFuel
  | Datatypes.S n =>
      if j <? size vec then
        data ← Read vec j;
        s ← handler s data;
        vector_loop handler n vec (j + 1) s
      else Ok s
  end.

Lemma vector_loop_ok {A S} (handler : S -> A -> Res S) vec xs : vec_rep vec xs ->
  forall n i s, (i <= length xs)%nat -> (length xs < i + n)%nat ->
  vector_loop handler n vec (Z.of_nat i) s = foldM handler s (drop i xs).
Proof.
  intros Hr. induction n as [|n IH]; intros i s Hi Hn; [lia|]. cbn [vector_loop].
  rewrite (vr_size _ _ Hr). unfold vec_size. destruct (Z.ltb_spec (Z.of_nat i) (Z.of_nat (length xs))).
  - destruct (lookup_lt_is_Some_2 xs i) as [st Hst]; [lia|]. rewrite (Read_rep vec xs i st Hr Hst). cbn [mbind Res_bind].
    rewrite (drop_S _ _ _ Hst). cbn [foldM]. destruct (handler s st) as [s'| | |]; cbn [mbind Res_bind]; [|done..].
    replace (Z.of_nat i + 1) with (Z.of_nat (Datatypes.S i)) by lia. apply IH; lia.
  - by rewrite drop_ge by lia.
Qed.

Lemma vector_read {A S} (handler : S -> A -> Res S) vec xs s : vec_rep vec xs ->
  vector_loop handler (Datatypes.S (Z.to_nat (size vec))) vec 0 s = foldM handler s xs.
Proof.
  intros Hr. apply (vector_loop_ok handler vec xs Hr _ 0); [lia|]. rewrite (vr_size _ _ Hr). unfold vec_size. lia.
Qed.

Section RowBuffer.
Context (uninit : SqlType -> Cell) (f : StructBuilder).

(** A row packed into a new element. *)
Definition push_row (vec : Vector Struct) (row : list SQLValue) : Res (Vector Struct) :=
  '(i, vec) ← PushBack (fresh uninit f) vec;
  st ← Read vec i;
  st ← Pack f st row;
  Write vec i st.

Fixpoint fill_rows (vec : Vector Struct) (rows : list (list SQLValue)) : Res (Vector Struct) :=
  match rows with
  | [] => Ok vec
  | row :: rows => vec ← push_row vec row; fill_rows vec rows
  end.

(** The struct holds the row. *)
Definition stored (st : Struct) (row : list SQLValue) : Prop :=
  struct_ok f st /\ exists vs, Unpack f st = Ok vs /\ Forall2 sql_equiv vs row.

Lemma unpack_lookup st vs : forall n i0 k v, unpack_loop f st i0 n = Ok vs -> vs !! k = Some v ->
  Struct_Get f st (i0 + Z.of_nat k) = Ok v.
Proof.
  revert vs. intros vs n. revert vs. induction n as [|n IH]; intros vs i0 k v H Hk; cbn [unpack_loop] in H.
  { injection H as <-. by rewrite lookup_nil in Hk. }
  apply bind_Ok in H as (w & Hw & H). apply bind_Ok in H as (rest & Hrest & H). injection H as <-.
  destruct k as [|k]; cbn in Hk; [injection Hk as <-; by rewrite Z.add_0_r|].
  replace (i0 + Z.of_nat (S k)) with (i0 + 1 + Z.of_nat k) by lia. by eapply IH.
Qed.

Lemma unpack_length st vs : Unpack f st = Ok vs -> length vs = length (sb_types f).
Proof.
  unfold Unpack. generalize 0 as i0. generalize (length (sb_types f)) as n. intros n. revert vs.
  induction n as [|n IH]; intros vs i0 H; cbn [unpack_loop] in H; [by injection H as <-|].
  apply bind_Ok in H as (w & Hw & H). apply bind_Ok in H as (rest & Hrest & H). injection H as <-.
  cbn. f_equal. by eapply IH.
Qed.

Context (Hf : format_ok f) (Huninit : Forall (fun t => ir_type (cell_value (uninit t)) = t) (sb_types f)).

(** ** Filling the buffer *)
Lemma push_row_ok vec xs row : vec_rep vec xs -> Forall (struct_ok f) (data vec) -> row_fits f row ->
  vec_size xs + 1 < 2 ^ 30 ->
  exists vec' st, push_row vec row = Ok vec' /\ vec_rep vec' (xs ++ [st]) /\
    Forall (struct_ok f) (data vec') /\ stored st row.
Proof.
  intros Hr Hd Hrow Hb. unfold push_row.
  destruct (PushBack_rep (fresh uninit f) vec xs (fresh uninit f) Hr Hb) as (vec1 & vec2 & E1 & E2 & _).
  rewrite E1. cbn [mbind Res_bind].
  pose proof (PushBack_cells _ (struct_ok f) _ _ _ (fresh_ok uninit f Huninit) Hd E1) as Hd1.
  destruct (Write_read _ _ _ _ E2) as [st0 Hst0]. rewrite Hst0. cbn [mbind Res_bind].
  assert (struct_ok f st0) as Hok0.
  { apply vec_at_Ok in Hst0 as [_ Hst0]. by eapply (Forall_lookup_1 _ _ _ _ Hd1). }
  destruct (pack_unpack f Hf st0 row Hok0 Hrow) as (st & -> & Hst & vs & Hu & He). cbn [mbind Res_bind].
  destruct (PushBack_rep (fresh uninit f) vec xs st Hr Hb) as (vec1' & vec3 & E1' & E3 & Hr3).
  assert (vec1' = vec1) as -> by congruence.
  rewrite E3. exists vec3, st. split_and!; [done..| |split; [done|by exists vs]].
  by eapply Write_cells.
Qed.

Lemma fill_rows_ok rows : forall vec xs dn, vec_rep vec xs -> Forall (struct_ok f) (data vec) ->
  Forall2 stored xs dn -> Forall (row_fits f) rows -> vec_size xs + vec_size rows < 2 ^ 30 ->
  exists vec' xs', fill_rows vec rows = Ok vec' /\ vec_rep vec' xs' /\ Forall2 stored xs' (dn ++ rows).
Proof.
  induction rows as [|row rows IH]; intros vec xs dn Hr Hd Hs Hrows Hb; cbn [fill_rows].
  { exists vec, xs. by rewrite app_nil_r. }
  apply list.Forall_cons in Hrows as [Hrow Hrows]. unfold vec_size in Hb. cbn in Hb.
  destruct (push_row_ok vec xs row Hr Hd Hrow) as (vec1 & st & -> & Hr1 & Hd1 & Hst); [unfold vec_size; lia|].
  cbn [mbind Res_bind].
  destruct (IH vec1 (xs ++ [st]) (dn ++ [row]) Hr1 Hd1) as (vec' & xs' & -> & Hr' & Hs'); [|done| |].
  - apply List.Forall2_app; [done|constructor; [done|constructor]].
  - unfold vec_size. rewrite length_app. cbn. lia.
  - exists vec', xs'. by rewrite <- (assoc_L (++)) in Hs'.
Qed.
End RowBuffer.
