(* ===== verification/OrderBy.v ===== *)
(** * Sorting

    [OrderByTranslator] of src/compile/translators/order_by_translator.cc with the
    generated vector of src/compile/proxy/vector.cc: one pipeline packs its rows
    into a vector of structs, one sorts the vector, one unpacks it chunk by chunk. *)
From Stdlib Require Import Sorting.Sorted.
From S2P Require Import Prelude ProgramBuilder SqlValue Struct Vector Pipeline RowBuffer.

(** ** The model *)
Section OrderBy.
Context (enum_key : Z -> Z -> list Z) (uninit : SqlType -> Cell) (f : StructBuilder).

(** The comparison function: the first key that differs decides. *)
Fixpoint order_comp (keys : list Z) (ascending : list bool) (s1 s2 : Struct) : Res bool :=
  match keys, ascending with
  | [], _ => Ok false
  | _ :: _, [] => UB
  | field_idx :: keys, asc :: ascending =>
      s1_field ← Struct_Get f s1 field_idx;
      s2_field ← Struct_Get f s2 field_idx;
      lt ← LessThan enum_key s1_field s2_field;
      if lt : bool then Ok asc
      else
        gt ← LessThan enum_key s2_field s1_field;
        if gt : bool then Ok (negb asc) else order_comp keys ascending s1 s2
  end.

(** The loop of the last pipeline over one chunk. *)
Fixpoint order_emit (n : nat) (vec : Vector Struct) (i : Z) (out : list (list SQLValue))
    : Res (list (list SQLValue)) :=
  match n with
  | O => Ok out
  | S n =>
      st ← Read vec i;
      row ← Unpack f st;
      order_emit n vec (i + 1) (out ++ [row])
  end.

Definition order_body (vec : Vector Struct) (out : list (list SQLValue)) (start end_ : Z)
    : Res (list (list SQLValue)) :=
  order_emit (Z.to_nat (end_ - start + 1)) vec start out.

(** The three pipelines; [element_size] is the size of the struct. *)
Definition order_by (element_size : Z) (keys : list Z) (ascending : list bool)
    (rows : list (list SQLValue)) : Res (list (list SQLValue)) :=
  vec ← fill_rows uninit f (Create (fresh uninit f) element_size 2) rows;
  vec ← Sort (order_comp keys ascending) vec;
  ExecuteSplitPipelineStatic (order_body vec) [] (Size (Some vec)).
End OrderBy.

(** ** The order of rows *)
Section Correct.
Context (enum_key : Z -> Z -> list Z) (uninit : SqlType -> Cell) (f : StructBuilder).
Context (Hf : format_ok f) (Huninit : Forall (fun t => ir_type (cell_value (uninit t)) = t) (sb_types f)).

(** A value for positions that do not exist. *)
Definition no_value : SQLValue := MkSQL (VBool false) true.
Definition row_at (r : list SQLValue) (k : Z) : SQLValue := default no_value (r !! Z.to_nat k).

(** Rows by their sort keys, nulls last in ascending order. *)
Fixpoint row_compare (keys : list Z) (ascending : list bool) (r1 r2 : list SQLValue) : comparison :=
  match keys, ascending with
  | k :: keys, asc :: ascending =>
      cmp_then (if asc : bool then sql_compare enum_key (row_at r1 k) (row_at r2 k)
                else sql_compare enum_key (row_at r2 k) (row_at r1 k))
        (row_compare keys ascending r1 r2)
  | _, _ => Eq
  end.

#[export] Instance row_compare_preorder keys ascending : PreorderCmp (row_compare keys ascending).
Proof.
  revert ascending. induction keys as [|k keys IH]; intros ascending; [by split|].
  destruct ascending as [|asc ascending]; [by split|].
  pose proof (PreorderCmp_via (fun r => row_at r k) (sql_compare enum_key)) as Hk. destruct asc.
  - exact (@PreorderCmp_then _ _ _ Hk (IH ascending)).
  - exact (@PreorderCmp_then _ _ _ (@PreorderCmp_flip _ _ Hk) (IH ascending)).
Qed.

Context (keys : list Z) (ascending : list bool).

(** The sort keys are columns with an order. *)
Record keys_ok : Prop := {
  ko_range : forall k, k ∈ keys -> 0 <= k < vec_size (sb_types f);
  ko_asc : length keys = length ascending;
}.
Definition row_ordered (row : list SQLValue) : Prop :=
  forall k, k ∈ keys -> sql_ordered (row_at row k).

Definition struct_compare (s1 s2 : Struct) : comparison :=
  row_compare keys ascending
    (match Unpack f s1 with Ok v => v | _ => [] end) (match Unpack f s2 with Ok v => v | _ => [] end).

#[local] Instance struct_compare_preorder : PreorderCmp struct_compare.
Proof. exact (PreorderCmp_via (fun s => match Unpack f s with Ok v => v | _ => [] end) (row_compare keys ascending)). Qed.

Lemma row_at_get st vs k : Unpack f st = Ok vs -> 0 <= k < vec_size (sb_types f) ->
  Struct_Get f st k = Ok (row_at vs k) /\ sv_type (row_at vs k) = default (MkType BOOLEAN 0) (sb_types f !! Z.to_nat k).
Proof.
  intros Hu Hk. pose proof (unpack_length _ _ _ Hu) as Hl. unfold vec_size in Hk.
  destruct (lookup_lt_is_Some_2 vs (Z.to_nat k)) as [v Hv]; [lia|].
  pose proof (unpack_lookup _ _ _ _ _ _ _ Hu Hv) as Hg. replace (0 + Z.of_nat (Z.to_nat k)) with k in Hg by lia.
  unfold row_at. rewrite Hv. cbn. split; [done|]. unfold Struct_Get in Hg.
  apply bind_Ok in Hg as (t & Ht & Hg). apply bind_Ok in Hg as (n & _ & Hg). apply bind_Ok in Hg as (c & _ & Hg).
  apply vec_at_Ok in Ht as [_ ->]. cbn. case_decide; [|done]. by injection Hg as <-.
Qed.

(** The comparison function computes the order. *)
Lemma order_comp_keys s1 s2 v1 v2 ks : Unpack f s1 = Ok v1 -> Unpack f s2 = Ok v2 ->
  forall asc, length ks = length asc -> (forall k, k ∈ ks -> 0 <= k < vec_size (sb_types f)) ->
  (forall k, k ∈ ks -> sql_ordered (row_at v1 k)) ->
  (forall k, k ∈ ks -> sql_ordered (row_at v2 k)) ->
  order_comp enum_key f ks asc s1 s2 =
    Ok (match row_compare ks asc v1 v2 with Lt => true | _ => false end).
Proof.
  intros H1 H2. induction ks as [|k ks IH]; intros [|asc ascs] Hl Hr Ho1 Ho2; try done.
  cbn [order_comp row_compare].
  destruct (row_at_get s1 v1 k H1) as [-> Ht1]; [apply Hr; by left|].
  destruct (row_at_get s2 v2 k H2) as [-> Ht2]; [apply Hr; by left|]. cbn [mbind Res_bind].
  rewrite !LessThan_compare by (congruence || (apply Ho1; by left) || (apply Ho2; by left)). cbn [mbind Res_bind].
  rewrite (cmp_opp (sql_compare enum_key) (row_at v1 k) (row_at v2 k)).
  destruct (sql_compare enum_key (row_at v1 k) (row_at v2 k)); cbn [CompOpp cmp_then mbind Res_bind].
  - assert (forall b : bool, cmp_then (if b then Eq else Eq) (row_compare ks ascs v1 v2) =
      row_compare ks ascs v1 v2) as -> by (by intros []).
    apply IH; [cbn in Hl; lia|intros; apply Hr; by right|intros; apply Ho1; by right|intros; apply Ho2; by right].
  - by destruct asc.
  - by destruct asc.
Qed.

(** ** Reading it *)
Lemma order_emit_ok vec xs rows : vec_rep vec xs -> Forall2 (fun st r => Unpack f st = Ok r) xs rows ->
  forall n i out, (i + n <= length rows)%nat ->
  order_emit f n vec (Z.of_nat i) out = Ok (out ++ take n (drop i rows)).
Proof.
  intros Hr Hx. induction n as [|n IH]; intros i out Hn; cbn [order_emit].
  { by rewrite take_0, app_nil_r. }
  destruct (lookup_lt_is_Some_2 rows i) as [r Hri]; [lia|].
  destruct (Forall2_lookup_r _ _ _ _ _ Hx Hri) as (st & Hst & Hu).
  rewrite (Read_rep vec xs i st Hr Hst). cbn [mbind Res_bind]. rewrite Hu. cbn [mbind Res_bind].
  replace (Z.of_nat i + 1) with (Z.of_nat (S i)) by lia. rewrite IH by lia.
  rewrite (drop_S _ _ _ Hri). cbn [take]. by rewrite <- (assoc_L (++)).
Qed.

Lemma Forall2_perm {A B} (R : A -> B -> Prop) xs ys rows : Permutation ys xs -> Forall2 R xs rows ->
  exists rows', Permutation rows' rows /\ Forall2 R ys rows'.
Proof.
  intros Hp. revert rows. induction Hp as [|x ys xs Hp IH|x y l|ys zs xs Hp1 IH1 Hp2 IH2]; intros rows H.
  - by exists rows.
  - apply Forall2_cons_inv_l in H as (r & rows' & Hr & H & ->).
    destruct (IH _ H) as (rows'' & Hp' & H'). exists (r :: rows''). by split; [constructor|constructor].
  - apply Forall2_cons_inv_l in H as (r & rows' & Hr & H & ->).
    apply Forall2_cons_inv_l in H as (r2 & rows'' & Hr2 & H & ->).
    exists (r2 :: r :: rows''). split; [constructor|by repeat constructor].
  - destruct (IH2 _ H) as (r2 & Hp2' & H2). destruct (IH1 _ H2) as (r1 & Hp1' & H1).
    exists r1. split; [by etransitivity|done].
Qed.

(** ** The operator *)
Lemma row_at_equiv vs row k : Forall2 sql_equiv vs row -> sql_equiv (row_at vs k) (row_at row k).
Proof.
  intros H. unfold row_at. destruct (vs !! Z.to_nat k) as [v|] eqn:Ev.
  - destruct (Forall2_lookup_l _ _ _ _ _ H Ev) as (r & -> & Hvr). done.
  - rewrite (proj2 (lookup_ge_None row _)); [done|]. rewrite <- (list.Forall2_length _ _ _ H). by apply lookup_ge_None.
Qed.

Lemma row_compare_equiv ks asc v1 v2 r1 r2 : Forall2 sql_equiv v1 r1 -> Forall2 sql_equiv v2 r2 ->
  row_compare ks asc v1 v2 = row_compare ks asc r1 r2.
Proof.
  intros H1 H2. revert asc. induction ks as [|k ks IH]; intros [|a asc]; cbn [row_compare]; try done.
  rewrite IH. unfold sql_compare. 
  by rewrite (sql_key_proper enum_key _ _ (row_at_equiv _ _ k H1)), (sql_key_proper enum_key _ _ (row_at_equiv _ _ k H2)).
Qed.

Lemma order_by_sorts element_size rows : keys_ok -> Forall (row_fits f) rows -> Forall row_ordered rows ->
  vec_size rows < 2 ^ 30 ->
  exists out perm, order_by enum_key uninit f element_size keys ascending rows = Ok out /\
    Permutation perm rows /\ Forall2 (Forall2 sql_equiv) out perm /\
    StronglySorted (fun r1 r2 => row_compare keys ascending r1 r2 <> Gt) perm.
Proof.
  intros Hk Hfit Hord Hb. unfold order_by.
  destruct (fill_rows_ok uninit f Hf Huninit rows (Create (fresh uninit f) element_size 2) [] []) as (vec & xs & -> & Hr & Hs);
    [by apply Vector_create_rep| |constructor|done|unfold vec_size in *; cbn; lia|idtac].
  { cbn. repeat constructor; by apply fresh_ok. }
  cbn [mbind Res_bind app] in *.
  assert (compares (order_comp enum_key f keys ascending) struct_compare xs) as Hcmp.
  { intros x y [i Hx]%list_elem_of_lookup_1 [j Hy]%list_elem_of_lookup_1.
    destruct (Forall2_lookup_l _ _ _ _ _ Hs Hx) as (rx & Hrx & _ & vx & Hvx & Hex).
    destruct (Forall2_lookup_l _ _ _ _ _ Hs Hy) as (ry & Hry & _ & vy & Hvy & Hey).
    unfold struct_compare. rewrite Hvx, Hvy. apply order_comp_keys; [done|done|apply Hk|apply Hk| |]; intros k Hkk.
    - rewrite (row_at_equiv _ _ k Hex). by apply (Forall_lookup_1 _ _ _ _ Hord Hrx).
    - rewrite (row_at_equiv _ _ k Hey). by apply (Forall_lookup_1 _ _ _ _ Hord Hry). }
  destruct (Sort_rep _ struct_compare _ vec xs Hr Hcmp) as (vec' & ys & -> & Hr' & Hp & Hsort). cbn [mbind Res_bind].
  destruct (Forall2_perm (stored f) xs ys rows Hp Hs) as (perm & Hperm & Hys).
  assert (exists out, Forall2 (fun st r => Unpack f st = Ok r) ys out /\ Forall2 (Forall2 sql_equiv) out perm)
    as (out & Hout & Heq).
  { clear -Hys. induction Hys as [|st row ys perm [_ (vs & Hu & He)] Hys (out & Hout & Heq)]; [by exists []|].
    exists (vs :: out). by split; constructor. }
  exists out, perm. split; [|split_and!; [done..|]].
  - pose proof (list.Forall2_length _ _ _ Hout) as Hlen. pose proof (Permutation_length Hp) as Hlp.
    pose proof (list.Forall2_length _ _ _ Hs) as Hls.
    assert (Size (Some vec') = vec_size out) as -> by (cbn; rewrite (vr_size _ _ Hr'); unfold vec_size; lia).
    apply static_emits; [|unfold vec_size, CHUNK_SIZE in *; lia].
    intros o a b _ Hab Hbn. unfold order_body, vec_size in *.
    replace a with (Z.of_nat (Z.to_nat a)) at 2 by lia. apply (order_emit_ok vec' ys out Hr' Hout). lia.
  - clear -Hout Heq Hsort. revert perm Heq. induction Hout as [|st r ys out Hu Hout IH]; intros perm Heq.
    + apply Forall2_nil_inv_l in Heq as ->. constructor.
    + apply Forall2_cons_inv_l in Heq as (p & perm' & He & Heq & ->).
      apply StronglySorted_inv in Hsort as [Hsort Hall]. constructor; [by apply IH|].
      apply list.Forall_forall. intros q [j Hj]%list_elem_of_lookup_1.
      destruct (Forall2_lookup_r _ _ _ _ _ Heq Hj) as (rq & Hrq & Heq').
      destruct (Forall2_lookup_r _ _ _ _ _ Hout Hrq) as (stq & Hstq & Huq).
      pose proof (Forall_lookup_1 _ _ _ _ Hall Hstq) as Hle. unfold le, struct_compare in Hle.
      rewrite Hu, Huq in Hle. by rewrite (row_compare_equiv _ _ _ _ p q) in Hle.
Qed.
End Correct.

(** C13. ORDER BY sorts: for rows that fit their columns, whose sort keys have an
    order (no booleans, no NaN), packing them into the buffer, the runtime's merge
    sort with the generated comparison and the chunked output yield the same rows,
    each once, in the order of the keys, nulls last where the key is ascending and
    first where it is descending. *)
Theorem order_by_correct enum_key uninit f element_size keys ascending rows :
  format_ok f -> Forall (fun t => ir_type (cell_value (uninit t)) = t) (sb_types f) -> keys_ok f keys ascending ->
  Forall (row_fits f) rows -> Forall (row_ordered keys) rows -> vec_size rows < 2 ^ 30 ->
  exists out perm, order_by enum_key uninit f element_size keys ascending rows = Ok out /\
    Permutation perm rows /\ Forall2 (Forall2 sql_equiv) out perm /\
    StronglySorted (fun r1 r2 => row_compare enum_key keys ascending r1 r2 <> Gt) perm.
Proof. intros. by apply order_by_sorts. Qed.

Module OrderByDemo.
Definition key_format : StructBuilder := MkFormat [MkType INT 0; MkType TEXT 0] [true; false].
Definition demo_uninit (t : SqlType) : Cell :=
  MkCell match type_id t with
         | SMALLINT => VInt16 0 | INT => VInt32 0 | BIGINT => VInt64 0 | REAL => VFloat64 (F_of_Z 0)
         | DATE => VDate 0 | TEXT => VString [] | BOOLEAN => VBool false | ENUM => VEnum (enum_id t) 0
         end false.
Definition row (n : option Z) (s : list Z) : list SQLValue :=
  [match n with Some z => MkSQL (VInt32 z) false | None => MkSQL (VInt32 0) true end; MkSQL (VString s) false].
Definition demo_rows : list (list SQLValue) := [row None [98]; row (Some 3) [97]; row (Some (-1)) [97]; row (Some 3) [99]].

Example order_by_runs :
  order_by (fun _ _ => []) demo_uninit key_format 24 [0; 1] [true; false] demo_rows =
  Ok [row (Some (-1)) [97]; row (Some 3) [99]; row (Some 3) [97]; row None [98]].
Proof. vm_compute. reflexivity. Qed.

Lemma row_fits_demo n s : row_fits key_format (row n s).
Proof.
  split; [done|]. intros [|[|i]] t b v Ht Hb Hv; cbn in *; simplify_eq; destruct n; done.
Defined.

Lemma row_ordered_demo n s : row_ordered [0; 1] (row n s).
Proof.
  intros k Hk. rewrite !elem_of_cons in Hk. destruct Hk as [->|[->|Hk]]; [by destruct n..|].
  by apply not_elem_of_nil in Hk.
Defined.

Lemma order_by_correct_witness :
  exists out perm, order_by (fun _ _ => []) demo_uninit key_format 24 [0; 1] [true; false] demo_rows = Ok out /\
    Permutation perm demo_rows /\ Forall2 (Forall2 sql_equiv) out perm /\
    StronglySorted (fun r1 r2 => row_compare (fun _ _ => []) [0; 1] [true; false] r1 r2 <> Gt) perm.
Proof.
  apply order_by_correct.
  - reflexivity.
  - repeat constructor.
  - split; [|reflexivity]. intros k Hk. rewrite !elem_of_cons in Hk.
    destruct Hk as [->|[->|Hk]]; [done..|by apply not_elem_of_nil in Hk].
  - repeat (apply list.Forall_cons_2; [apply row_fits_demo|]). constructor.
  - repeat (apply list.Forall_cons_2; [apply row_ordered_demo|]). constructor.
  - done.
Defined.
End OrderByDemo.
