(* ===== verification/HashTable.v ===== *)
(** * The hash table of hash joins

    src/runtime/hash_table.cc, a map from 32-bit hashes to vectors of structs, and
    the generated accesses of src/compile/proxy/hash_table.cc.  A pointer to an
    element is its hash and its position in the bucket. *)
From stdpp Require Import gmap.
From S2P Require Import Prelude ProgramBuilder SqlValue Struct Vector RowBuffer.

(** ** The runtime *)
Record HashTable := MkHash { ht_element_size : Z; ht_data : gmap Z (Vector Struct) }.

Definition HashTable_Create (element_size : Z) : HashTable := MkHash element_size ∅.

(** The shift of a signed number is the compilers' (two's complement); the sums are
    signed and must not overflow. *)
Definition HashCombine (hash v : Z) : Res Z :=
  s ← signed_result 64 (v + 0x9e3779b9);
  s ← signed_result 64 (s + i32 (Z.shiftl hash 6));
  s ← signed_result 64 (s + Z.shiftr hash 2);
  Ok (i32 (Z.lxor hash s)).

Section Model.
Context (string_hash : list Z -> Z) (uninit : SqlType -> Cell) (f : StructBuilder).

Definition Insert (ht : HashTable) (hash : Z) : Res (Z * HashTable) :=
  let data :=
    match ht_data ht !! hash with
    | None => <[hash := Create (fresh uninit f) (ht_element_size ht) 2]> (ht_data ht)
    | Some _ => ht_data ht
    end in
  bucket ← opt_ub (data !! hash);
  '(i, bucket) ← PushBack (fresh uninit f) bucket;
  Ok (i, MkHash (ht_element_size ht) (<[hash := bucket]> data)).

Definition GetBucket (ht : HashTable) (hash : Z) : option (Vector Struct) := ht_data ht !! hash.

(** The buckets in the order in which the map enumerates them, which is not
    specified. *)
Definition GetAllBuckets (order : gmap Z (Vector Struct) -> list Z) (ht : HashTable) : list (Vector Struct) :=
  omap (fun h => ht_data ht !! h) (order (ht_data ht)).
Definition BucketListSize (l : list (Vector Struct)) : Z := vec_size l.
Definition GetBucketIdx (l : list (Vector Struct)) (i : Z) : Res (Vector Struct) := vec_at l i.

(** ** Generated code *)
Definition join_hash (keys : list SQLValue) : Res Z :=
  foldM (fun hash k => HashCombine hash (if sv_null k then 0 else ir_hash string_hash (sv_value k))) 0 keys.

(** [HashTable::Insert] and [Pack] of the returned struct. *)
Definition insert_row (ht : HashTable) (keys row : list SQLValue) : Res HashTable :=
  hash ← join_hash keys;
  '(i, ht) ← Insert ht hash;
  bucket ← opt_ub (ht_data ht !! hash);
  st ← Read bucket i;
  st ← Pack f st row;
  bucket ← Write bucket i st;
  Ok (MkHash (ht_element_size ht) (<[hash := bucket]> (ht_data ht))).

Definition HashTable_Get (ht : HashTable) (keys : list SQLValue) : Res (option (Vector Struct)) :=
  hash ← join_hash keys; Ok (GetBucket ht hash).

(** The two loops over all elements. *)
Fixpoint buckets_loop {S} (handler : S -> Struct -> Res S) (n : nat) (l : list (Vector Struct)) (i : Z) (s : S) : Res S :=
  match n with
  | O => NoFuel
  | Datatypes.S n =>
      if i <? BucketListSize l then
        bucket ← GetBucketIdx l i;
        s ← vector_loop handler (Datatypes.S (Z.to_nat (size bucket))) bucket 0 s;
        buckets_loop handler n l (i + 1) s
      else Ok s
  end.

Definition HashTable_ForEach {S} (order : gmap Z (Vector Struct) -> list Z) (handler : S -> Struct -> Res S)
    (ht : HashTable) (s : S) : Res S :=
  let l := GetAllBuckets order ht in
  buckets_loop handler (Datatypes.S (length l)) l 0 s.
End Model.

(** ** What a table holds *)
Section Rep.
Context (string_hash : list Z -> Z) (uninit : SqlType -> Cell) (f : StructBuilder).
Context (Hf : format_ok f) (Huninit : Forall (fun t => ir_type (cell_value (uninit t)) = t) (sb_types f)).

(** The rows inserted with a hash. *)
Definition rows_of (h : Z) (rows : list (Z * list SQLValue)) : list (list SQLValue) :=
  (filter (fun p => p.1 = h) rows).*2.

Definition bucket_rep (bucket : option (Vector Struct)) (rows : list (list SQLValue)) : Prop :=
  match bucket with
  | None => rows = []
  | Some vec => exists xs, vec_rep vec xs /\ Forall (struct_ok f) (data vec) /\ Forall2 (stored f) xs rows
  end.

(** Each bucket holds the rows of its hash, in the order of insertion. *)
Definition table_rep (ht : HashTable) (rows : list (Z * list SQLValue)) : Prop :=
  forall h, bucket_rep (ht_data ht !! h) (rows_of h rows).

Lemma rows_of_snoc h rows k row :
  rows_of h (rows ++ [(k, row)]) = rows_of h rows ++ (if decide (k = h) then [row] else []).
Proof.
  unfold rows_of. rewrite list.filter_app, fmap_app. f_equal.
  destruct (decide (k = h)); [by rewrite list.filter_cons_True|by rewrite list.filter_cons_False].
Qed.

Lemma rows_of_length h rows : (length (rows_of h rows) <= length rows)%nat.
Proof. unfold rows_of. rewrite length_fmap. apply list.length_filter. Qed.

Lemma Create_table es : table_rep (HashTable_Create es) [].
Proof. intros h. unfold HashTable_Create. cbn. by rewrite lookup_empty. Qed.

(** ** Inserting *)
Definition bucket_of (ht : HashTable) (h : Z) : Vector Struct :=
  default (Create (fresh uninit f) (ht_element_size ht) 2) (ht_data ht !! h).

Lemma insert_row_push ht keys row h : join_hash string_hash keys = Ok h ->
  insert_row string_hash uninit f ht keys row =
  (bucket ← push_row uninit f (bucket_of ht h) row;
   Ok (MkHash (ht_element_size ht) (<[h := bucket]> (ht_data ht)))).
Proof.
  intros Hh. unfold insert_row, Insert, push_row. rewrite Hh. cbn [mbind Res_bind].
  set (data := match ht_data ht !! h with None => _ | Some _ => _ end).
  assert (data !! h = Some (bucket_of ht h) /\ forall b, <[h := b]> data = <[h := b]> (ht_data ht)) as [-> Hins].
  { subst data. unfold bucket_of. destruct (ht_data ht !! h) eqn:E; [done|].
    split; [apply lookup_insert_eq|]. intros. apply insert_insert_eq. }
  cbn [opt_ub mbind Res_bind]. clearbody data.
  destruct (PushBack _ _) as [[i b]| | |]; cbn [mbind Res_bind ht_data]; [|done..].
  rewrite lookup_insert_eq. cbn [opt_ub mbind Res_bind].
  destruct (Read b i) as [st| | |]; cbn [mbind Res_bind]; [|done..].
  destruct (Pack f st row) as [st'| | |]; cbn [mbind Res_bind]; [|done..].
  destruct (Write b i st') as [b'| | |]; cbn [mbind Res_bind]; [|done..]. cbn [ht_element_size ht_data]. by rewrite (insert_insert_eq data), Hins.
Qed.

Lemma bucket_of_rep ht rows h : table_rep ht rows ->
  exists xs, vec_rep (bucket_of ht h) xs /\ Forall (struct_ok f) (data (bucket_of ht h)) /\
    Forall2 (stored f) xs (rows_of h rows).
Proof.
  intros Ht. specialize (Ht h). unfold bucket_of. destruct (ht_data ht !! h) as [b|]; cbn in Ht |- *; [done|].
  exists []. rewrite Ht. split_and!; [by apply Vector_create_rep| |constructor].
  apply Forall_replicate. by apply fresh_ok.
Qed.

Lemma insert_row_ok ht rows keys row h : table_rep ht rows -> join_hash string_hash keys = Ok h -> row_fits f row ->
  vec_size rows + 1 < 2 ^ 30 ->
  exists ht', insert_row string_hash uninit f ht keys row = Ok ht' /\ table_rep ht' (rows ++ [(h, row)]).
Proof.
  intros Ht Hh Hrow Hb. rewrite (insert_row_push _ _ _ _ Hh).
  destruct (bucket_of_rep ht rows h Ht) as (xs & Hr & Hd & Hs).
  destruct (push_row_ok uninit f Hf Huninit _ _ row Hr Hd Hrow) as (vec & st & -> & Hr' & Hd' & Hst).
  { pose proof (rows_of_length h rows). apply list.Forall2_length in Hs. unfold vec_size in *. lia. }
  cbn [mbind Res_bind]. eexists. split; [done|]. intros k. cbn [ht_data]. rewrite rows_of_snoc.
  destruct (decide (h = k)) as [<-|Hne].
  - rewrite lookup_insert_eq. exists (xs ++ [st]). split_and!; [done..|].
    apply List.Forall2_app; [done|]. constructor; [done|constructor].
  - rewrite lookup_insert_ne by done. rewrite app_nil_r. apply Ht.
Qed.

(** ** Reading everything *)
Lemma buckets_loop_ok {S} (handler : S -> Struct -> Res S) l xss : Forall2 vec_rep l xss ->
  forall n i s, (i <= length l)%nat -> (length l < i + n)%nat ->
  buckets_loop handler n l (Z.of_nat i) s = foldM handler s (mjoin (drop i xss)).
Proof.
  intros Hl. pose proof (list.Forall2_length _ _ _ Hl) as Hlen.
  induction n as [|n IH]; intros i s Hi Hn; [lia|]. cbn [buckets_loop].
  unfold BucketListSize, GetBucketIdx, vec_size. destruct (Z.ltb_spec (Z.of_nat i) (Z.of_nat (length l))).
  - destruct (lookup_lt_is_Some_2 l i) as [vec Hvec]; [lia|]. rewrite (vec_at_nat _ _ _ Hvec). cbn [mbind Res_bind].
    destruct (Forall2_lookup_l _ _ _ _ _ Hl Hvec) as (xs & Hxs & Hr). rewrite (vector_read _ _ xs s Hr).
    rewrite (drop_S _ _ _ Hxs). cbn [mjoin list_join]. rewrite foldM_app.
    destruct (foldM handler s xs) as [s'| | |]; cbn [mbind Res_bind]; [|done..].
    replace (Z.of_nat i + 1) with (Z.of_nat (Datatypes.S i)) by lia. apply IH; lia.
  - by rewrite drop_ge by lia.
Qed.

Lemma rows_of_cons h k row rows :
  rows_of h ((k, row) :: rows) = (if decide (k = h) then [row] else []) ++ rows_of h rows.
Proof.
  unfold rows_of. destruct (decide (k = h)); [by rewrite list.filter_cons_True|by rewrite list.filter_cons_False].
Qed.

Lemma rows_partition hs rows : NoDup hs -> (forall p, p ∈ rows -> p.1 ∈ hs) ->
  Permutation (mjoin ((fun h => rows_of h rows) <$> hs)) rows.*2.
Proof.
  intros Hnd. induction rows as [|[k row] rows IH]; intros Hin.
  { clear. induction hs as [|h hs IHhs]; [done|]. exact IHhs. }
  rewrite fmap_cons. cbn [snd]. rewrite <- IH by (intros; apply Hin; by right). clear IH.
  assert (k ∈ hs) as Hk by (apply (Hin (k, row)); by left).
  apply list_elem_of_split in Hk as (h1 & h2 & ->).
  assert (forall l : list Z, k ∉ l -> (fun h => rows_of h ((k, row) :: rows)) <$> l = (fun h => rows_of h rows) <$> l) as Hother.
  { intros l Hl. apply list_fmap_ext. intros i x Hx. rewrite rows_of_cons, decide_False; [done|].
    intros ->. apply Hl. by eapply list_elem_of_lookup_2. }
  apply list.NoDup_app in Hnd as (_ & Hd & Hnd2). apply list.NoDup_cons in Hnd2 as [Hk2 _].
  assert (k ∉ h1) as Hk1 by (intros Hk; apply (Hd _ Hk); by left).
  rewrite !fmap_app, !fmap_cons, Hother, Hother, rows_of_cons, decide_True by done.
  rewrite !join_app. cbn. symmetry. apply Permutation_middle.
Qed.

(** Reading everything visits every row once. *)
Lemma ForEach_visits {S} (order : gmap Z (Vector Struct) -> list Z) (handler : S -> Struct -> Res S) ht rows s :
  Permutation (order (ht_data ht)) (map_to_list (ht_data ht)).*1 -> table_rep ht rows ->
  exists xs ys, HashTable_ForEach order handler ht s = foldM handler s xs /\
    Forall2 (stored f) xs ys /\ Permutation ys rows.*2.
Proof.
  intros Hord Ht. set (hs := order (ht_data ht)) in *.
  assert (forall h, h ∈ hs <-> is_Some (ht_data ht !! h)) as Hdom.
  { intros h. rewrite Hord, list_elem_of_fmap. split.
    - intros ([k v] & -> & Hkv%elem_of_map_to_list). by exists v.
    - intros [v Hv]. exists (h, v). by rewrite elem_of_map_to_list. }
  assert (forall l : list Z, (forall h, h ∈ l -> is_Some (ht_data ht !! h)) -> exists xss,
    Forall2 vec_rep (omap (fun h => ht_data ht !! h) l) xss /\
    Forall2 (Forall2 (stored f)) xss ((fun h => rows_of h rows) <$> l)) as Hall.
  { induction l as [|h l IH]; intros Hl; [exists []; split; constructor|].
    destruct IH as (xss & H1 & H2); [intros; apply Hl; by right|].
    destruct (Hl h) as [v Hv]; [by left|]. pose proof (Ht h) as Hb. rewrite Hv in Hb. destruct Hb as (xs & Hr & _ & Hs).
    exists (xs :: xss). cbn. rewrite Hv. split; by constructor. }
  destruct (Hall hs) as (xss & H1 & H2); [intros; by apply Hdom|].
  exists (mjoin xss), (mjoin ((fun h => rows_of h rows) <$> hs)). split_and!.
  - unfold HashTable_ForEach, GetAllBuckets. fold hs. apply (buckets_loop_ok handler _ xss H1 _ 0); lia.
  - by apply Forall2_join.
  - apply rows_partition.
    + rewrite Hord. apply NoDup_fst_map_to_list.
    + intros [k row] Hp. apply Hdom. pose proof (Ht k) as Hb. destruct (ht_data ht !! k) eqn:E; [done|].
      cbn in Hb. assert (row ∈ rows_of k rows) as Hin; [|by rewrite Hb, elem_of_nil in Hin].
      unfold rows_of. apply list_elem_of_fmap. exists (k, row). by rewrite list_elem_of_filter.
Qed.
End Rep.
