(* ===== verification/Joins.v ===== *)
(** * Selections and joins

    [SelectTranslator], [CrossProductTranslator] and [HashJoinTranslator] of
    src/compile/translators/: what their generated code passes on to the parent
    operator, row by row.  The hash join is equivalent to a nested loop over both
    inputs with the equality of the keys as its condition. *)
From stdpp Require Import gmap.
From S2P Require Import Prelude ProgramBuilder SqlValue Struct Expression Vector RowBuffer HashTable.

Abbreviation row := (list SQLValue).

(** ** The model *)
Section Model.
Context (enum_key : Z -> Z -> list Z) (like : list Z -> list Z -> bool) (string_hash : list Z -> Z).
Context (uninit : SqlType -> Cell).

(** The columns of a schema, computed in the order of the schema. *)
Fixpoint compute_columns (env : Env) (es : list Expression) : Res row :=
  match es with
  | [] => Ok []
  | e :: es => v ← Compute_ enum_key like env e; vs ← compute_columns env es; Ok (v :: vs)
  end.

(** The rows of the children; a select has one child, a join two. *)
Definition row_env (r : row) : Env := MkEnv [r] [].
Definition join_env (l r : row) : Env := MkEnv [l; r] [].

(** [SelectTranslator::Consume] *)
Definition select_consume (expr : Expression) (columns : list Expression) (out : list row) (r : row) : Res (list row) :=
  value ← Compute_ enum_key like (row_env r) expr;
  b ← match sv_value value with VBool b => Ok b | _ => UB end;
  vs ← compute_columns (row_env r) columns;
  Ok (if negb (sv_null value) then (if b : bool then out ++ [vs] else out) else out).

Definition select (expr : Expression) (columns : list Expression) (rows : list row) : Res (list row) :=
  foldM (select_consume expr columns) [] rows.

(** [CrossProductTranslator::Consume] for a row of the right child: the buffered rows
    of the left child one after the other. *)
Definition cross_consume (f : StructBuilder) (columns : list Expression) (buffer : Vector Struct)
    (out : list row) (r : row) : Res (list row) :=
  vector_loop (fun out st =>
    l ← Unpack f st;
    vs ← compute_columns (join_env l r) columns;
    Ok (out ++ [vs])) (S (Z.to_nat (size buffer))) buffer 0 out.

Definition cross_product (f : StructBuilder) (element_size : Z) (columns : list Expression) (left right : list row)
    : Res (list row) :=
  buffer ← fill_rows uninit f (Create (fresh uninit f) element_size 2) left;
  foldM (cross_consume f columns buffer) [] right.

(** [CheckEquality]: the true case if all keys are equal. *)
Fixpoint CheckEquality (env : Env) (left_keys right_keys : list Expression) : Res bool :=
  match left_keys, right_keys with
  | [], _ => Ok true
  | _ :: _, [] => UB
  | l :: left_keys, r :: right_keys =>
      lhs ← Compute_ enum_key like env l;
      rhs ← Compute_ enum_key like env r;
      eq ← Equal lhs rhs;
      rest ← CheckEquality env left_keys right_keys;
      Ok (if eq : bool then rest else false)
  end.

(** [HashJoinTranslator::Consume] for a row of the left child. *)
Definition build_consume (f : StructBuilder) (left_keys : list Expression) (ht : HashTable) (l : row) : Res HashTable :=
  key_columns ← compute_columns (join_env l []) left_keys;
  if forallb (fun v => negb (sv_null v)) key_columns then insert_row string_hash uninit f ht key_columns l
  else Ok ht.

(** ... and for a row of the right child; without a bucket the size is 0. *)
Definition probe_consume (f : StructBuilder) (left_keys right_keys columns : list Expression) (ht : HashTable)
    (out : list row) (r : row) : Res (list row) :=
  key_columns ← compute_columns (join_env [] r) right_keys;
  bucket ← HashTable_Get string_hash ht key_columns;
  match bucket with
  | None => Ok out
  | Some bucket =>
      vector_loop (fun out st =>
        l ← Unpack f st;
        eq ← CheckEquality (join_env l r) left_keys right_keys;
        vs ← compute_columns (join_env l r) columns;
        Ok (if eq : bool then out ++ [vs] else out)) (S (Z.to_nat (size bucket))) bucket 0 out
  end.

Definition hash_join (f : StructBuilder) (element_size : Z) (left_keys right_keys columns : list Expression)
    (left right : list row) : Res (list row) :=
  ht ← foldM (build_consume f left_keys) (HashTable_Create element_size) left;
  foldM (probe_consume f left_keys right_keys columns ht) [] right.
End Model.

(** ** Nested loops *)
Section Spec.
Context (enum_key : Z -> Z -> list Z) (like : list Z -> list Z -> bool).

Definition column_values (env : Env) (es : list Expression) : row :=
  (fun e => match Compute_ enum_key like env e with Ok v => v | _ => MkSQL (VBool false) true end) <$> es.

(** The join of the rows whose pairs satisfy [cond], the right rows in the outer loop. *)
Definition nested_loop (cond : row -> row -> bool) (columns : list Expression) (left right : list row) : list row :=
  r ← right; l ← left; if cond l r then [column_values (join_env l r) columns] else [].

(** [l1 = r1 AND l2 = r2 AND ...] *)
Fixpoint key_condition (left_keys right_keys : list Expression) : Expression :=
  match left_keys, right_keys with
  | l :: left_keys, r :: right_keys =>
      BinaryArithmeticExpr OpAND (BinaryArithmeticExpr OpEQ l r) (key_condition left_keys right_keys)
  | _, _ => LiteralExpr (VBool true) false
  end.

Definition joins (left_keys right_keys : list Expression) (l r : row) : bool :=
  accepts (sql_truth enum_key like (join_env l r) (key_condition left_keys right_keys)).
End Spec.

(** ** Columns *)
Abbreviation rows_equiv := (Forall2 (Forall2 sql_equiv)).

(** Emitting rows in a loop over [xs], which stand for [ys]. *)
Lemma foldM_emits {X Y} (R : X -> Y -> Prop) (h : list row -> X -> Res (list row)) (g : Y -> list row) xs ys :
  Forall2 R xs ys ->
  (forall out x y, R x y -> y ∈ ys -> exists o, h out x = Ok (out ++ o) /\ rows_equiv o (g y)) ->
  forall out, exists o, foldM h out xs = Ok (out ++ o) /\ rows_equiv o (ys ≫= g).
Proof.
  induction 1 as [|x y xs ys Hxy _ IH]; intros Hh out; cbn [foldM].
  { exists []. by rewrite app_nil_r. }
  destruct (Hh out x y Hxy ltac:(by left)) as (o & -> & Ho). cbn [mbind Res_bind].
  destruct IH with (out := out ++ o) as (o' & -> & Ho'); [intros; apply Hh; [done|by right]|].
  exists (o ++ o'). rewrite (assoc_L (++)). split; [done|]. cbn. by apply List.Forall2_app.
Qed.

Section Columns.
Context (enum_key : Z -> Z -> list Z) (like : list Z -> list Z -> bool).

Definition column_ok (env : Env) (e : Expression) : Prop :=
  translatable e = true /\ (exists t, Type_ e = Ok t) /\ refs_ok env e.

Lemma column_ok_equiv env env' es : env_equiv env env' -> Forall (column_ok env) es -> Forall (column_ok env') es.
Proof. intros He Hes. eapply list.Forall_impl; [exact Hes|]. intros e (? & ? & ?). split_and!; [done..|by eapply refs_ok_equiv]. Qed.

Lemma compute_columns_ok env es : Forall (column_ok env) es ->
  compute_columns enum_key like env es = Ok (column_values enum_key like env es).
Proof.
  induction 1 as [|e es (Htr & [t Ht] & Hr) _ IH]; [done|]. cbn [compute_columns].
  destruct (compute_fits enum_key like env e t Ht Htr Hr) as (v & Hv & _). rewrite IH.
  unfold column_values. cbn. by rewrite Hv.
Qed.

Lemma column_values_equiv env env' es : env_equiv env env' -> Forall (column_ok env) es ->
  Forall2 sql_equiv (column_values enum_key like env es) (column_values enum_key like env' es).
Proof.
  intros He. induction 1 as [|e es (Htr & [t Ht] & Hr) _ IH]; [constructor|].
  destruct (compute_fits enum_key like env e t Ht Htr Hr) as (v & Hv & _).
  destruct (compute_fits enum_key like env' e t Ht Htr (refs_ok_equiv _ _ _ He Hr)) as (v' & Hv' & _).
  unfold column_values in *. rewrite !fmap_cons, Hv, Hv'. constructor; [|done].
  by apply (compute_equiv enum_key like env env' e He t).
Qed.

Lemma join_env_equiv l l' r : Forall2 sql_equiv l l' -> env_equiv (join_env l r) (join_env l' r).
Proof. intros. split; [|constructor]. constructor; [done|]. constructor; [done|constructor]. Qed.

(** The output columns of a pair of rows, from a left row that is the same for SQL. *)
Lemma join_columns l' l r columns : Forall2 sql_equiv l' l -> Forall (column_ok (join_env l r)) columns ->
  exists vs, compute_columns enum_key like (join_env l' r) columns = Ok vs /\
    Forall2 sql_equiv vs (column_values enum_key like (join_env l r) columns).
Proof.
  intros Hl Hc. assert (env_equiv (join_env l r) (join_env l' r)) as He by (apply join_env_equiv; by symmetry).
  exists (column_values enum_key like (join_env l' r) columns).
  split; [by apply compute_columns_ok, (column_ok_equiv (join_env l r))|].
  symmetry. by apply column_values_equiv.
Qed.
End Columns.

(** ** Selection *)

(** The rows that the condition accepts, with their output columns. *)
Definition select_spec (enum_key : Z -> Z -> list Z) (like : list Z -> list Z -> bool) (expr : Expression)
    (columns : list Expression) (rows : list row) : list row :=
  r ← rows; if accepts (sql_truth enum_key like (row_env r) expr)
            then [column_values enum_key like (row_env r) columns] else [].

Lemma select_consume_ok enum_key like expr columns out r :
  boolean_expr expr -> refs_ok (row_env r) expr -> Forall (column_ok (row_env r)) columns ->
  select_consume enum_key like expr columns out r =
  Ok (out ++ (if accepts (sql_truth enum_key like (row_env r) expr) then [column_values enum_key like (row_env r) columns] else [])).
Proof.
  intros He Hr Hc. rewrite <- (filter_truth enum_key like (row_env r) expr) by done. unfold select_consume.
  destruct (boolean_value enum_key like (row_env r) expr He Hr) as ([v n] & Hv & Ht). rewrite Hv.
  destruct v; try discriminate Ht. cbn [mbind Res_bind sv_value sv_null]. rewrite compute_columns_ok by done.
  cbn [mbind Res_bind]. f_equal. destruct n, b; cbn; by rewrite ?app_nil_r.
Qed.

Lemma select_rows enum_key like expr columns rows : boolean_expr expr ->
  Forall (fun r => refs_ok (row_env r) expr /\ Forall (column_ok (row_env r)) columns) rows ->
  select enum_key like expr columns rows = Ok (select_spec enum_key like expr columns rows).
Proof.
  intros He Hrows. unfold select. change (select_spec enum_key like expr columns rows) with
    ([] ++ select_spec enum_key like expr columns rows). generalize (@nil row) as out.
  induction Hrows as [|r rows [Hr Hc] _ IH]; intros out; cbn [foldM]; [by rewrite app_nil_r|].
  rewrite select_consume_ok by done. cbn [mbind Res_bind]. rewrite IH. by rewrite <- (assoc_L (++)).
Qed.

(** ** Cross product *)
Section Cross.
Context (enum_key : Z -> Z -> list Z) (like : list Z -> list Z -> bool) (uninit : SqlType -> Cell) (f : StructBuilder).
Context (Hf : format_ok f) (Huninit : Forall (fun t => ir_type (cell_value (uninit t)) = t) (sb_types f)).

Lemma cross_product_rows element_size columns left right :
  Forall (row_fits f) left -> vec_size left < 2 ^ 30 ->
  (forall l r, l ∈ left -> r ∈ right -> Forall (column_ok (join_env l r)) columns) ->
  exists out, cross_product enum_key like uninit f element_size columns left right = Ok out /\
    rows_equiv out (nested_loop enum_key like (fun _ _ => true) columns left right).
Proof.
  intros Hleft Hsz Hcol. unfold cross_product.
  destruct (fill_rows_ok uninit f Hf Huninit left (Create (fresh uninit f) element_size 2) [] []) as (buf & xs & -> & Hr & Hs).
  { by apply Vector_create_rep. } { apply Forall_replicate. by apply fresh_ok. } { constructor. } { done. } { done. }
  cbn [mbind Res_bind app] in Hs |- *.
  destruct (foldM_emits eq (cross_consume enum_key like f columns buf)
    (fun r => l ← left; [column_values enum_key like (join_env l r) columns]) right right) with (out := @nil row)
    as (o & Ho & He).
  - apply Forall_Forall2_diag. by apply list.Forall_forall.
  - intros out r ? <- Hin. unfold cross_consume. rewrite (vector_read _ _ _ _ Hr).
    apply (foldM_emits (stored f)); [done|]. intros out' st l [_ (l' & Hl' & Hll)] Hl. rewrite Hl'. cbn [mbind Res_bind].
    destruct (join_columns enum_key like l' l r columns Hll (Hcol l r Hl Hin)) as (vs & -> & Hvs). cbn [mbind Res_bind].
    exists [vs]. split; [done|]. constructor; [done|constructor].
  - exists o. by rewrite Ho.
Qed.
End Cross.

(** ** Hashes of keys *)

(** The keys whose hashes are combined without overflow. *)
Definition hash_safe (string_hash : list Z -> Z) (v : SQLValue) : Prop :=
  sv_null v = false -> - 2 ^ 63 + 2 ^ 32 <= ir_hash string_hash (sv_value v) < 2 ^ 63 - 2 ^ 33.

Lemma HashCombine_ok hash v : is_sw 32 hash -> - 2 ^ 63 + 2 ^ 32 <= v < 2 ^ 63 - 2 ^ 33 ->
  exists h, HashCombine hash v = Ok h /\ is_sw 32 h.
Proof.
  intros Hh Hv. unfold HashCombine. rewrite Z.shiftr_div_pow2 by lia.
  pose proof (sw_range 32 (Z.shiftl hash 6) ltac:(lia)) as Hs. unfold is_sw in Hs, Hh. cbn in Hs, Hh.
  assert (- 2 ^ 31 <= hash / 2 ^ 2 < 2 ^ 31) as Hd by (change (2 ^ 2) with 4; Z.to_euclidean_division_equations; lia).
  rewrite (signed_result_id 64 (v + _)) by (unfold is_sw; lia). cbn [mbind Res_bind].
  rewrite (signed_result_id 64 (v + _ + _)) by (unfold is_sw; lia). cbn [mbind Res_bind].
  rewrite (signed_result_id 64 (v + _ + _ + _)) by (unfold is_sw; lia). cbn [mbind Res_bind].
  eexists. split; [done|]. apply sw_range. lia.
Qed.

Lemma join_hash_ok string_hash keys : Forall (hash_safe string_hash) keys ->
  exists h, join_hash string_hash keys = Ok h.
Proof.
  intros Hk. unfold join_hash. assert (is_sw 32 0) as H0 by (unfold is_sw; lia). revert H0.
  set (init := 0) at 1 3. clearbody init. revert init.
  induction Hk as [|k keys Hk _ IH]; intros h0 H0; cbn [foldM]; [eauto|].
  destruct (HashCombine_ok h0 (if sv_null k then 0 else ir_hash string_hash (sv_value k)) H0) as (h & -> & Hh).
  { destruct (sv_null k) eqn:E; [lia|by apply Hk]. }
  cbn [mbind Res_bind]. by apply IH.
Qed.

(** ** Equality of keys *)

(** SQL's [=] on two values. *)
Definition sql_eq (enum_key : Z -> Z -> list Z) (a b : SQLValue) : bool :=
  accepts (truth (EvaluateBinary enum_key OpEQ a b)).

Lemma accepts_bool b : accepts (truth (Ok (bool_value b false))) = b.
Proof. by destruct b. Qed.

Lemma sql_eq_ir enum_key a b : sv_type a = sv_type b -> exists r, ir_eq (sv_value a) (sv_value b) = Ok r /\
  sql_eq enum_key a b = negb (sv_null a) && negb (sv_null b) && r.
Proof.
  intros Ht. destruct (ir_eq_spec _ _ Ht) as (r & Hr & _). exists r. split; [done|]. revert Hr. unfold sql_eq.
  destruct a as [a na], b as [b nb]; unfold sv_type in Ht; cbn [sv_value sv_null] in *.
  destruct a, b; try discriminate Ht; cbn [ir_eq]; intros Hr.
  1-7: injection Hr as <-; destruct na, nb; try reflexivity;
    match goal with |- _ = _ && _ && ?x => exact (accepts_bool x) end.
  injection Ht as ->. unfold EvaluateBinary, EvaluateBinaryEnum, unless_null. cbn [sv_value sv_null].
  rewrite Z.eqb_refl in *. injection Hr as <-. destruct na, nb; try reflexivity. exact (accepts_bool (z =? z0)).
Qed.

(** Where the left value is not null, [Equal] is SQL's [=]. *)
Lemma Equal_sql_eq enum_key a b : sv_type a = sv_type b -> sv_null a = false ->
  Equal a b = Ok (sql_eq enum_key a b).
Proof.
  intros Ht Hn. destruct (sql_eq_ir enum_key a b Ht) as (r & Hr & ->). unfold Equal. rewrite Hr, Hn. cbn.
  by destruct (sv_null b).
Qed.

Lemma sql_eq_hash enum_key string_hash a b : sv_type a = sv_type b -> sql_eq enum_key a b = true ->
  sv_null a = false /\ sv_null b = false /\ ir_hash string_hash (sv_value a) = ir_hash string_hash (sv_value b).
Proof.
  intros Ht He. destruct (sql_eq_ir enum_key a b Ht) as (r & Hr & E). rewrite E in He.
  apply andb_true_iff in He as [[Ha Hb]%andb_true_iff Hr'].
  apply negb_true_iff in Ha, Hb. split_and!; [done..|].
  destruct (ir_eq_spec _ _ Ht) as (r' & Hr2 & Hiff). assert (r' = r) as -> by congruence.
  apply Hiff in Hr' as (? & ? & ?). by apply ident_hash.
Qed.

Lemma sql_eq_equiv enum_key a a' b : sql_equiv a a' -> sv_type a = sv_type b -> sql_eq enum_key a b = sql_eq enum_key a' b.
Proof.
  intros (Ht & Hn & Hv) Hb. destruct (sql_eq_ir enum_key a b Hb) as (r & Hr & ->).
  destruct (sql_eq_ir enum_key a' b) as (r' & Hr' & ->); [congruence|]. rewrite <- Hn.
  destruct (sv_null a); [done|]. rewrite Hv in Hr by done. congruence.
Qed.

(** ** The hash join *)
Section HashJoin.
Context (enum_key : Z -> Z -> list Z) (like : list Z -> list Z -> bool) (string_hash : list Z -> Z).
Context (uninit : SqlType -> Cell) (f : StructBuilder).
Context (Hf : format_ok f) (Huninit : Forall (fun t => ir_type (cell_value (uninit t)) = t) (sb_types f)).

(** A key is a column of its child. *)
Definition key_of (child : Z) (rows : list row) (e : Expression) : Prop :=
  exists t n col, e = ColumnRefExpr t n child col /\ forall r, r ∈ rows -> exists v, vec_at r col = Ok v /\ fits t n v.
Definition key_at (r : row) (e : Expression) : SQLValue :=
  match e with
  | ColumnRefExpr _ _ _ col => match vec_at r col with Ok v => v | _ => MkSQL (VBool false) true end
  | _ => MkSQL (VBool false) true
  end.
Definition keys_at (es : list Expression) (r : row) : list SQLValue := key_at r <$> es.

Lemma left_key rows e l x : key_of 0 rows e -> l ∈ rows ->
  Compute_ enum_key like (join_env l x) e = Ok (key_at l e) /\ Type_ e = Ok (sv_type (key_at l e)).
Proof.
  intros (t & n & col & -> & Hk) Hl. destruct (Hk l Hl) as (v & Hv & [Ht _]). cbn. rewrite Hv. by rewrite Ht.
Qed.
Lemma right_key rows e r x : key_of 1 rows e -> r ∈ rows ->
  Compute_ enum_key like (join_env x r) e = Ok (key_at r e) /\ Type_ e = Ok (sv_type (key_at r e)).
Proof.
  intros (t & n & col & -> & Hk) Hr. destruct (Hk r Hr) as (v & Hv & [Ht _]). cbn. rewrite Hv. by rewrite Ht.
Qed.

Lemma left_columns rows es l x : Forall (key_of 0 rows) es -> l ∈ rows ->
  compute_columns enum_key like (join_env l x) es = Ok (keys_at es l).
Proof.
  intros Hes Hl. induction Hes as [|e es He _ IH]; [done|]. cbn [compute_columns].
  rewrite (proj1 (left_key rows e l x He Hl)), IH. done.
Qed.
Lemma right_columns rows es r x : Forall (key_of 1 rows) es -> r ∈ rows ->
  compute_columns enum_key like (join_env x r) es = Ok (keys_at es r).
Proof.
  intros Hes Hl. induction Hes as [|e es He _ IH]; [done|]. cbn [compute_columns].
  rewrite (proj1 (right_key rows e r x He Hl)), IH. done.
Qed.

Context (left_keys right_keys : list Expression) (left right : list row).
Context (Hlk : Forall (key_of 0 left) left_keys) (Hrk : Forall (key_of 1 right) right_keys).
Context (Htypes : Forall2 (fun a b => Type_ a = Type_ b) left_keys right_keys).
Context (Hsafe : Forall (fun l => Forall (hash_safe string_hash) (keys_at left_keys l)) left).
Context (Hsafe' : Forall (fun r => Forall (hash_safe string_hash) (keys_at right_keys r)) right).

Definition all_eq (a b : list SQLValue) : bool := forallb (fun p => sql_eq enum_key p.1 p.2) (zip a b).
Definition no_null (keys : list SQLValue) : bool := forallb (fun v => negb (sv_null v)) keys.

Lemma keys_types l r : l ∈ left -> r ∈ right ->
  Forall2 (fun a b => sv_type a = sv_type b) (keys_at left_keys l) (keys_at right_keys r).
Proof using enum_key like Hlk Hrk Htypes.
  intros Hl Hr. unfold keys_at. rewrite Forall2_fmap. revert Hlk Hrk. clear -enum_key like Htypes Hl Hr. intros Hlk Hrk.
  induction Htypes as [|a b la lb Hab Hall IH]; [constructor|].
  apply list.Forall_cons in Hlk as [Ha Hlk], Hrk as [Hb Hrk]. constructor; [|by apply IH].
  pose proof (proj2 (left_key left a l [] Ha Hl)) as E. pose proof (proj2 (right_key right b r [] Hb Hr)) as E'. congruence.
Qed.

(** The condition on the keys. *)
Lemma joins_keys l r : l ∈ left -> r ∈ right ->
  joins enum_key like left_keys right_keys l r = all_eq (keys_at left_keys l) (keys_at right_keys r).
Proof using enum_key like Hlk Hrk Htypes.
  intros Hl Hr. unfold joins, all_eq, keys_at. revert Hlk Hrk. clear -enum_key like Htypes Hl Hr. intros Hlk Hrk.
  induction Htypes as [|a b la lb Hab Hall IH]; [done|].
  apply list.Forall_cons in Hlk as [Ha Hlk], Hrk as [Hb Hrk]. cbn [key_condition sql_truth].
  rewrite accepts_and3, IH by done. cbn [fmap list_fmap zip_with forallb fst snd]. f_equal. cbn [sql_truth Compute_].
  rewrite (proj1 (left_key left a l r Ha Hl)), (proj1 (right_key right b r l Hb Hr)). done.
Qed.

Lemma all_eq_hash a b : Forall2 (fun a b => sv_type a = sv_type b) a b -> all_eq a b = true ->
  no_null a = true /\ join_hash string_hash a = join_hash string_hash b.
Proof.
  unfold all_eq, join_hash. set (init := 0) at 2 4. clearbody init. intros Ht. revert init.
  induction Ht as [|x y a b Hxy _ IH]; intros init He; [done|]. cbn [zip_with forallb fst snd] in He.
  apply andb_true_iff in He as [He Hr]. destruct (sql_eq_hash enum_key string_hash x y Hxy He) as (Hx & Hy & Hh).
  cbn [no_null forallb foldM]. rewrite Hx, Hy, Hh. split; [by destruct (IH init Hr)|].
  destruct (HashCombine init _) as [h| | |]; cbn [mbind Res_bind]; [|done..]. by apply IH.
Qed.

(** [CheckEquality] on a left row whose keys are not null. *)
Lemma CheckEquality_ok l' l r : Forall2 sql_equiv l' l -> l ∈ left -> r ∈ right -> no_null (keys_at left_keys l) = true ->
  CheckEquality enum_key like (join_env l' r) left_keys right_keys = Ok (all_eq (keys_at left_keys l) (keys_at right_keys r)).
Proof using Hlk Hrk Htypes.
  intros Hll Hl Hr. unfold all_eq, keys_at. revert Hlk Hrk. clear -enum_key like Htypes Hl Hr Hll. intros Hlk Hrk.
  induction Htypes as [|a b la lb Hab Hall IH]; intros Hn; [done|].
  apply list.Forall_cons in Hlk as [Ha Hlk], Hrk as [Hb Hrk]. cbn in Hn. apply andb_true_iff in Hn as [Hna Hn].
  apply negb_true_iff in Hna. cbn [CheckEquality].
  destruct (right_key right b r l' Hb Hr) as [-> Tb]. destruct (left_key left a l r Ha Hl) as [Ea Ta].
  assert (exists v, Compute_ enum_key like (join_env l' r) a = Ok v /\ sql_equiv v (key_at l a)) as (v & -> & Hv).
  { destruct Ha as (t & n & col & -> & Hk). destruct (Hk l Hl) as (v & Hv & _). 
    assert (Forall2 sql_equiv l l') as Hll' by (by symmetry).
    destruct (vec_at_equiv _ _ _ _ _ Hll' Hv) as (v' & Hv' & He). exists v'. unfold key_at. rewrite Hv. by split. }
  cbn [mbind Res_bind]. pose proof Hv as (Tv & Nv & _).
  rewrite (Equal_sql_eq enum_key) by congruence. rewrite (sql_eq_equiv enum_key v (key_at l a)) by congruence.
  cbn [mbind Res_bind]. rewrite IH by done. cbn [mbind Res_bind fmap list_fmap zip_with forallb fst snd].
  by destruct (sql_eq enum_key (key_at l a) (key_at r b)).
Qed.

(** ** The build side *)
Definition hkey (l : row) : Z := match join_hash string_hash (keys_at left_keys l) with Ok h => h | _ => 0 end.
Definition keyed (rows : list row) : list (Z * row) :=
  l ← rows; if no_null (keys_at left_keys l) then [(hkey l, l)] else [].

Lemma keyed_length rows : (length (keyed rows) <= length rows)%nat.
Proof. unfold keyed. induction rows as [|l rows IH]; cbn; [lia|]. rewrite length_app. case_match; cbn; lia. Qed.

Lemma build_ok ls : forall ht rows, (forall l, l ∈ ls -> l ∈ left) -> Forall (row_fits f) ls -> table_rep f ht rows ->
  vec_size rows + vec_size ls < 2 ^ 30 ->
  exists ht', foldM (build_consume enum_key like string_hash uninit f left_keys) ht ls = Ok ht' /\
    table_rep f ht' (rows ++ keyed ls).
Proof using Hf Huninit Hlk Hsafe.
  induction ls as [|l ls IH]; intros ht rows Hin Hfit Ht Hsz; cbn [foldM].
  { exists ht. by rewrite app_nil_r. }
  apply list.Forall_cons in Hfit as [Hl Hfit]. assert (l ∈ left) as Hleft by (apply Hin; by left).
  unfold build_consume at 2. rewrite (left_columns left _ l [] Hlk Hleft). cbn [mbind Res_bind].
  fold (no_null (keys_at left_keys l)). unfold vec_size in Hsz. cbn [length] in Hsz.
  destruct (join_hash_ok string_hash (keys_at left_keys l)) as [h Hh].
  { by eapply list.Forall_forall in Hsafe. }
  assert (keyed (l :: ls) = (if no_null (keys_at left_keys l) then [(h, l)] else []) ++ keyed ls) as ->.
  { unfold keyed, hkey. cbn. by rewrite Hh. }
  destruct (no_null (keys_at left_keys l)).
  - destruct (insert_row_ok string_hash uninit f Hf Huninit ht rows _ l h Ht Hh Hl) as (ht' & -> & Ht'); [unfold vec_size; lia|].
    cbn [mbind Res_bind]. rewrite (assoc_L (++)). apply IH; [intros; apply Hin; by right|done|done|].
    unfold vec_size. rewrite length_app. cbn. lia.
  - cbn [mbind Res_bind app]. apply IH; [intros; apply Hin; by right|done|done|]. unfold vec_size. lia.
Qed.

(** ** The probe side *)
Context (columns : list Expression).
Context (Hcol : forall l r, l ∈ left -> r ∈ right -> Forall (column_ok (join_env l r)) columns).

Definition pair_out (r l : row) : list row :=
  if joins enum_key like left_keys right_keys l r then [column_values enum_key like (join_env l r) columns] else [].

(** The rows with another hash or with a null do not join. *)
Lemma bucket_joins r h : r ∈ right -> join_hash string_hash (keys_at right_keys r) = Ok h ->
  rows_of h (keyed left) ≫= pair_out r = left ≫= pair_out r.
Proof using Hlk Hrk Htypes.
  intros Hr Hh. assert (forall ls, (forall l, l ∈ ls -> l ∈ left) -> rows_of h (keyed ls) ≫= pair_out r = ls ≫= pair_out r) as H;
    [|by apply H]. intros ls. induction ls as [|l ls IH]; intros Hin; [done|].
  assert (l ∈ left) as Hl by (apply Hin; by left). rewrite bind_cons, <- IH by (intros; apply Hin; by right).
  assert (joins enum_key like left_keys right_keys l r = true -> no_null (keys_at left_keys l) = true /\ hkey l = h) as Hj.
  { rewrite joins_keys by done. intros [Hn He]%all_eq_hash; [|by apply keys_types]. unfold hkey. by rewrite He, Hh. }
  change (keyed (l :: ls)) with ((if no_null (keys_at left_keys l) then [(hkey l, l)] else []) ++ keyed ls).
  destruct (no_null (keys_at left_keys l)); cbn [app].
  - rewrite rows_of_cons. case_decide as Eh; cbn [app]; [by rewrite bind_cons|]. unfold pair_out at 2.
    destruct (joins _ _ _ _ l r); [by destruct Hj|done].
  - unfold pair_out at 2. destruct (joins _ _ _ _ l r); [by destruct Hj|done].
Qed.

Lemma keyed_in h l : l ∈ rows_of h (keyed left) -> l ∈ left /\ no_null (keys_at left_keys l) = true.
Proof.
  unfold rows_of, keyed. rewrite list_elem_of_fmap. intros ([k l'] & -> & [_ Hp]%list_elem_of_filter). cbn.
  apply list_elem_of_bind in Hp as (l0 & Hl0 & Hin). destruct (no_null (keys_at left_keys l0)) eqn:E; [|by apply not_elem_of_nil in Hl0].
  apply list_elem_of_singleton in Hl0. by simplify_eq.
Qed.

Lemma probe_ok ht out r : r ∈ right -> table_rep f ht (keyed left) ->
  exists o, probe_consume enum_key like string_hash f left_keys right_keys columns ht out r = Ok (out ++ o) /\
    rows_equiv o (left ≫= pair_out r).
Proof using Hlk Hrk Htypes Hsafe' Hcol.
  intros Hr Ht. unfold probe_consume, HashTable_Get, GetBucket. rewrite (right_columns right _ r [] Hrk Hr). cbn [mbind Res_bind].
  destruct (join_hash_ok string_hash (keys_at right_keys r)) as [h Hh]; [by eapply list.Forall_forall in Hsafe'|].
  rewrite Hh. cbn [mbind Res_bind]. rewrite <- (bucket_joins r h Hr Hh). pose proof (Ht h) as Hb.
  destruct (ht_data ht !! h) as [vec|].
  - destruct Hb as (xs & Hv & _ & Hs). rewrite (vector_read _ _ _ _ Hv). apply (foldM_emits (stored f)); [done|].
    intros out' st l [_ (l' & -> & Hll)] [Hl Hn]%keyed_in. cbn [mbind Res_bind].
    rewrite (CheckEquality_ok l' l r Hll Hl Hr Hn), <- joins_keys by done. cbn [mbind Res_bind].
    destruct (join_columns enum_key like l' l r columns Hll (Hcol l r Hl Hr)) as (vs & -> & Hvs). cbn [mbind Res_bind].
    unfold pair_out. destruct (joins _ _ _ _ l r).
    + exists [vs]. split; [done|]. constructor; [done|constructor].
    + exists []. by rewrite app_nil_r.
  - cbn in Hb. rewrite Hb. exists []. by rewrite app_nil_r.
Qed.

Lemma hash_join_rows element_size : Forall (row_fits f) left -> vec_size left < 2 ^ 30 ->
  exists out, hash_join enum_key like string_hash uninit f element_size left_keys right_keys columns left right = Ok out /\
    rows_equiv out (nested_loop enum_key like (joins enum_key like left_keys right_keys) columns left right).
Proof using Hf Huninit Hlk Hrk Htypes Hsafe Hsafe' Hcol.
  intros Hfit Hsz. unfold hash_join.
  destruct (build_ok left (HashTable_Create element_size) []) as (ht & -> & Ht); [done|done|apply Create_table|done|].
  cbn [mbind Res_bind app] in Ht |- *.
  destruct (foldM_emits eq (probe_consume enum_key like string_hash f left_keys right_keys columns ht)
    (fun r => left ≫= pair_out r) right right) with (out := @nil row) as (o & -> & Ho).
  - apply Forall_Forall2_diag. by apply list.Forall_forall.
  - intros out r ? <- Hr. by apply probe_ok.
  - by exists o.
Qed.
End HashJoin.

(** C16. The hash join is the nested-loop join: for inputs whose columns have the declared
    types, key columns of equal types and key hashes whose sums do not overflow, the
    generated build and probe code yields, for every right row in order, exactly the
    left rows, in order, for which the keys are equal in SQL's logic, with the
    output columns of the pair; hash collisions and null keys included. *)
Theorem hash_join_correct enum_key like string_hash uninit f element_size left_keys right_keys columns left right :
  format_ok f -> Forall (fun t => ir_type (cell_value (uninit t)) = t) (sb_types f) ->
  Forall (row_fits f) left -> vec_size left < 2 ^ 30 ->
  Forall (key_of 0 left) left_keys -> Forall (key_of 1 right) right_keys ->
  Forall2 (fun a b => Type_ a = Type_ b) left_keys right_keys ->
  Forall (fun l => Forall (hash_safe string_hash) (keys_at left_keys l)) left ->
  Forall (fun r => Forall (hash_safe string_hash) (keys_at right_keys r)) right ->
  (forall l r, l ∈ left -> r ∈ right -> Forall (column_ok (join_env l r)) columns) ->
  exists out, hash_join enum_key like string_hash uninit f element_size left_keys right_keys columns left right = Ok out /\
    rows_equiv out (nested_loop enum_key like (joins enum_key like left_keys right_keys) columns left right).
Proof. intros. by apply hash_join_rows. Qed.

(** Selection and cross product: a selection yields the rows whose condition is true in
    SQL's logic, in order; a cross product yields every pair, the right rows in the
    outer loop; a cross product through a buffer whose rows were packed and unpacked
    changes nothing but the value under a null. *)
Theorem select_cross_correct enum_key like uninit f element_size expr columns columns' rows left right :
  format_ok f -> Forall (fun t => ir_type (cell_value (uninit t)) = t) (sb_types f) ->
  boolean_expr expr -> Forall (fun r => refs_ok (row_env r) expr /\ Forall (column_ok (row_env r)) columns) rows ->
  Forall (row_fits f) left -> vec_size left < 2 ^ 30 ->
  (forall l r, l ∈ left -> r ∈ right -> Forall (column_ok (join_env l r)) columns') ->
  select enum_key like expr columns rows = Ok (select_spec enum_key like expr columns rows) /\
  exists out, cross_product enum_key like uninit f element_size columns' left right = Ok out /\
    rows_equiv out (nested_loop enum_key like (fun _ _ => true) columns' left right).
Proof. intros. split; [by apply select_rows|by apply cross_product_rows]. Qed.

(** A key of a BIGINT column near the largest number makes the sum of [HashCombine]
    overflow. *)
Lemma HashCombine_overflows : HashCombine 0 (2 ^ 63 - 1) = UB.
Proof. reflexivity. Qed.

Module JoinDemo.
Definition int_col (nullable : bool) (child col : Z) : Expression := ColumnRefExpr (MkType INT 0) nullable child col.
Definition demo_format : StructBuilder := MkFormat [MkType INT 0; MkType INT 0] [true; false].
Definition demo_uninit (t : SqlType) : Cell := MkCell (null_value t) false.
Definition pair (k : option Z) (v : Z) : row :=
  [MkSQL (VInt32 (default 0 k)) (bool_decide (k = None)); MkSQL (VInt32 v) false].
Definition demo_left : list row := [pair (Some 1) 10; pair None 11; pair (Some 2) 12; pair (Some 1) 13].
Definition demo_right : list row := [pair None 20; pair (Some 1) 21; pair (Some 3) 22].
Definition demo_columns : list Expression := [int_col false 0 1; int_col false 1 1].

Example hash_join_runs :
  hash_join (fun _ _ => []) (fun _ _ => false) (fun _ => 0) demo_uninit demo_format 8
    [int_col true 0 0] [int_col true 1 0] demo_columns demo_left demo_right =
  Ok [[MkSQL (VInt32 10) false; MkSQL (VInt32 21) false]; [MkSQL (VInt32 13) false; MkSQL (VInt32 21) false]].
Proof. vm_compute. reflexivity. Qed.

Lemma demo_fits k v : row_fits demo_format (pair k v).
Proof.
  split; [done|]. intros [|[|i]] t b w Ht Hb Hw; cbn in *; simplify_eq; done.
Defined.

(** Every row of the demo is a pair. *)
Lemma demo_pair rows r : r ∈ rows -> rows = demo_left \/ rows = demo_right -> exists k v, r = pair k v /\ (k = None \/ exists z, k = Some z /\ 0 <= z <= 3).
Proof.
  intros Hr [-> | ->]; unfold demo_left, demo_right in Hr; rewrite !elem_of_cons, elem_of_nil in Hr;
    repeat destruct Hr as [->|Hr]; try done; (eexists _, _; split; [reflexivity|]); eauto with lia.
Defined.

Lemma demo_key child rows : rows = demo_left \/ rows = demo_right -> key_of child rows (int_col true child 0).
Proof.
  intros Hrows. exists (MkType INT 0), true, 0. split; [reflexivity|]. intros r Hr.
  destruct (demo_pair rows r Hr Hrows) as (k & v & -> & _). eexists. by split.
Defined.

Lemma demo_safe child rows : rows = demo_left \/ rows = demo_right ->
  Forall (fun r => Forall (hash_safe (fun _ => 0)) (keys_at [int_col true child 0] r)) rows.
Proof.
  intros Hrows. apply list.Forall_forall. intros r Hr. destruct (demo_pair rows r Hr Hrows) as (k & v & -> & Hk).
  apply list.Forall_cons_2; [|constructor]. intros Hn. destruct Hk as [->|(z & -> & Hz)]; [done|].
  change (- 2 ^ 63 + 2 ^ 32 <= u32 z < 2 ^ 63 - 2 ^ 33). rewrite uw_id by (unfold is_uw; lia). lia.
Defined.

Lemma demo_column_ok l r : l ∈ demo_left -> r ∈ demo_right -> Forall (column_ok (join_env l r)) demo_columns.
Proof.
  intros Hl Hr. destruct (demo_pair demo_left l Hl ltac:(by left)) as (k & v & -> & _).
  destruct (demo_pair demo_right r Hr ltac:(by right)) as (k' & v' & -> & _).
  repeat (apply list.Forall_cons_2; [split; [reflexivity|split; [by eexists|]]|]); [..|constructor].
  - exists (pair k v). eexists. by split.
  - exists (pair k' v'). eexists. by split.
Defined.

Lemma hash_join_correct_witness :
  exists out, hash_join (fun _ _ => []) (fun _ _ => false) (fun _ => 0) demo_uninit demo_format 8
      [int_col true 0 0] [int_col true 1 0] demo_columns demo_left demo_right = Ok out /\
    rows_equiv out (nested_loop (fun _ _ => []) (fun _ _ => false)
      (joins (fun _ _ => []) (fun _ _ => false) [int_col true 0 0] [int_col true 1 0]) demo_columns demo_left demo_right).
Proof.
  apply hash_join_correct.
  - reflexivity.
  - repeat constructor.
  - repeat (apply list.Forall_cons_2; [apply demo_fits|]). constructor.
  - reflexivity.
  - apply list.Forall_cons_2; [apply demo_key; by left|constructor].
  - apply list.Forall_cons_2; [apply demo_key; by right|constructor].
  - repeat constructor.
  - apply demo_safe. by left.
  - apply demo_safe. by right.
  - apply demo_column_ok.
Defined.

(** [v > 10] over rows of one child. *)
Definition demo_filter : Expression := BinaryArithmeticExpr OpGT (int_col false 0 1) (LiteralExpr (VInt32 10) false).

Lemma select_cross_correct_witness :
  select (fun _ _ => []) (fun _ _ => false) demo_filter [int_col false 0 1] demo_left =
    Ok (select_spec (fun _ _ => []) (fun _ _ => false) demo_filter [int_col false 0 1] demo_left) /\
  exists out, cross_product (fun _ _ => []) (fun _ _ => false) demo_uninit demo_format 8 demo_columns demo_left demo_right = Ok out /\
    rows_equiv out (nested_loop (fun _ _ => []) (fun _ _ => false) (fun _ _ => true) demo_columns demo_left demo_right).
Proof.
  apply select_cross_correct.
  - reflexivity.
  - repeat constructor.
  - split; [reflexivity|]. by exists Boolean.
  - apply list.Forall_forall. intros r Hr. destruct (demo_pair demo_left r Hr ltac:(by left)) as (k & v & -> & _).
    split; [split; [|exact I]; exists (pair k v); eexists; by split|].
    apply list.Forall_cons_2; [|constructor]. split; [reflexivity|]. split; [by eexists|]. exists (pair k v). eexists. by split.
  - repeat (apply list.Forall_cons_2; [apply demo_fits|]). constructor.
  - reflexivity.
  - apply demo_column_ok.
Defined.
End JoinDemo.
