(* ===== verification/Plan.v ===== *)
(** * Query plans

    The operators of a plan (src/plan/operator/) with their schemas, what a plan
    computes, and the passes of src/plan/planner.cc that rewrite plans:
    [EarlyProjection] drops the columns nobody reads, [AdaptiveScanSelect] merges a
    selection with the scan below it.  Both keep what the plan computes. *)
From stdpp Require Import gmap strings.
From S2P Require Import Prelude ProgramBuilder SqlValue Struct Aggregator Expression Vector RowBuffer HashTable Joins.
#[local] Open Scope Z_scope.

(** ** Catalog *)
Record CatalogColumn := MkCatCol { cc_name : string; cc_type : SqlType; cc_nullable : bool }.
Record Table := MkTable { table_name : string; table_columns : list CatalogColumn }.

(** ** Schemas *)
Record Column := MkColumn { col_name : string; col_expr : Expression }.

(** The columns and the position of each name. *)
Record OperatorSchema := MkSchema { columns : list Column; column_name_to_idx : gmap string Z }.

Definition OperatorSchema_new : OperatorSchema := MkSchema [] ∅.

Definition AddDerivedColumn (s : OperatorSchema) (name : string) (expr : Expression) : OperatorSchema :=
  MkSchema (columns s ++ [MkColumn name expr]) (<[name := vec_size (columns s)]> (column_name_to_idx s)).

Definition AddGeneratedColumns (s : OperatorSchema) (table : Table) : OperatorSchema :=
  foldl (fun s c => AddDerivedColumn s (cc_name c)
    (ColumnRefExpr (cc_type c) (cc_nullable c) 0 (vec_size (columns s)))) s (table_columns table).

(** The columns of a child, in order; [i] counts them. *)
Fixpoint passthrough_from (s : OperatorSchema) (child : list Column) (child_idx i : Z) : Res OperatorSchema :=
  match child with
  | [] => Ok s
  | col :: child =>
      t ← Type_ (col_expr col);
      passthrough_from
        (AddDerivedColumn s (col_name col) (ColumnRefExpr t (Nullable (col_expr col)) child_idx i)) child child_idx (i + 1)
  end.
Definition AddPassthroughColumns (s child : OperatorSchema) (child_idx : Z) : Res OperatorSchema :=
  passthrough_from s (columns child) child_idx 0.

Definition GetColumnIndex (s : OperatorSchema) (name : string) : Res Z :=
  match column_name_to_idx s !! name with Some i => Ok i | None => Throw "std::out_of_range" end.

Definition RemoveColumn (s : OperatorSchema) (idx : Z) : Res OperatorSchema :=
  c ← vec_at (columns s) idx;
  Ok (MkSchema (delete (Z.to_nat idx) (columns s)) (delete (col_name c) (column_name_to_idx s))).

(** ** Operators *)
Inductive Operator : Type :=
| ScanOperator (schema : OperatorSchema) (relation : Table)
| SelectOperator (schema : OperatorSchema) (child : Operator) (expr : Expression)
| ScanSelectOperator (schema scan_schema : OperatorSchema) (relation : Table) (filters : list Expression)
| SkinnerJoinOperator (schema : OperatorSchema) (children : list Operator) (conditions : list Expression)
| AggregateOperator (schema : OperatorSchema) (child : Operator) (aggregate_exprs : list (AggregateType * Expression))
| OutputOperator (child : Operator).

Definition Schema (op : Operator) : OperatorSchema :=
  match op with
  | ScanOperator s _ | SelectOperator s _ _ | ScanSelectOperator s _ _ _ | SkinnerJoinOperator s _ _
  | AggregateOperator s _ _ => s
  | OutputOperator _ => OperatorSchema_new
  end.

(** ** References *)

(** The column references of an expression, by child and column. *)
Fixpoint GetReferencedChildren (e : Expression) : gset (Z * Z) :=
  match e with
  | ColumnRefExpr _ _ child col => {[ (child, col) ]}
  | LiteralExpr _ _ | VirtualColumnRefExpr _ _ _ => ∅
  | UnaryArithmeticExpr _ c | RegexpMatchingExpr c _ | IntToFloatConversionExpr c | ExtractExpr c
  | EnumInExpr c _ | AggregateExpr _ c => GetReferencedChildren c
  | BinaryArithmeticExpr _ l r => GetReferencedChildren l ∪ GetReferencedChildren r
  | CaseExpr c l r => GetReferencedChildren c ∪ GetReferencedChildren l ∪ GetReferencedChildren r
  end.

Fixpoint RewriteColumnReferences (rewrite : gmap (Z * Z) (Z * Z)) (e : Expression) : Expression :=
  match e with
  | ColumnRefExpr t n child col =>
      match rewrite !! (child, col) with
      | Some (child, col) => ColumnRefExpr t n child col
      | None => e
      end
  | LiteralExpr _ _ | VirtualColumnRefExpr _ _ _ => e
  | UnaryArithmeticExpr op c => UnaryArithmeticExpr op (RewriteColumnReferences rewrite c)
  | BinaryArithmeticExpr op l r =>
      BinaryArithmeticExpr op (RewriteColumnReferences rewrite l) (RewriteColumnReferences rewrite r)
  | RegexpMatchingExpr c rx => RegexpMatchingExpr (RewriteColumnReferences rewrite c) rx
  | CaseExpr c l r =>
      CaseExpr (RewriteColumnReferences rewrite c) (RewriteColumnReferences rewrite l) (RewriteColumnReferences rewrite r)
  | IntToFloatConversionExpr c => IntToFloatConversionExpr (RewriteColumnReferences rewrite c)
  | ExtractExpr c => ExtractExpr (RewriteColumnReferences rewrite c)
  | EnumInExpr c vs => EnumInExpr (RewriteColumnReferences rewrite c) vs
  | AggregateExpr k c => AggregateExpr k (RewriteColumnReferences rewrite c)
  end.

Definition rewrite_schema (rewrite : gmap (Z * Z) (Z * Z)) (s : OperatorSchema) : OperatorSchema :=
  MkSchema ((fun c => MkColumn (col_name c) (RewriteColumnReferences rewrite (col_expr c))) <$> columns s)
    (column_name_to_idx s).

Definition schema_refs (s : OperatorSchema) : gset (Z * Z) :=
  ⋃ ((fun c => GetReferencedChildren (col_expr c)) <$> columns s).

(** [Decompose]: the conjuncts of a condition. *)
Fixpoint Decompose (e : Expression) : list Expression :=
  match e with
  | BinaryArithmeticExpr OpAND l r => Decompose l ++ Decompose r
  | _ => [e]
  end.

(** ** Early projection *)

(** The new position of every referenced column of a child. *)
Fixpoint rewrite_refs (refs : gset (Z * Z)) (child_idx : Z) (n : nat) (i current_offset : Z)
    (rewrite : gmap (Z * Z) (Z * Z)) : gmap (Z * Z) (Z * Z) :=
  match n with
  | O => rewrite
  | S n =>
      if decide ((child_idx, i) ∈ refs)
      then rewrite_refs refs child_idx n (i + 1) (current_offset + 1) (<[(child_idx, i) := (child_idx, current_offset)]> rewrite)
      else rewrite_refs refs child_idx n (i + 1) current_offset rewrite
  end.

(** The columns that are not referenced are removed, from the last to the first. *)
Fixpoint remove_columns (refs : gset (Z * Z)) (child_idx : Z) (n : nat) (s : OperatorSchema) : Res OperatorSchema :=
  match n with
  | O => Ok s
  | S n =>
      s ← (if decide ((child_idx, Z.of_nat n) ∈ refs) then Ok s else RemoveColumn s (Z.of_nat n));
      remove_columns refs child_idx n s
  end.

(** [EarlyProjection] of an operator whose parent has already reduced its schema to
    [schema]. *)
Fixpoint early_projection (schema : OperatorSchema) (op : Operator) {struct op} : Res Operator :=
  match op with
  | AggregateOperator _ child aggs =>
      let refs := ⋃ ((fun a => GetReferencedChildren a.2) <$> aggs) in
      let n := length (columns (Schema child)) in
      let rewrite := rewrite_refs refs 0 n 0 0 ∅ in
      child_schema ← remove_columns refs 0 n (Schema child);
      child ← early_projection child_schema child;
      Ok (AggregateOperator schema child ((fun a => (a.1, RewriteColumnReferences rewrite a.2)) <$> aggs))
  | SkinnerJoinOperator _ children conditions =>
      let refs := schema_refs schema ∪ ⋃ (GetReferencedChildren <$> conditions) in
      let fix go (children : list Operator) (child_idx : Z) (rewrite : gmap (Z * Z) (Z * Z))
          : Res (list Operator * gmap (Z * Z) (Z * Z)) :=
        match children with
        | [] => Ok ([], rewrite)
        | child :: children =>
            let n := length (columns (Schema child)) in
            child_schema ← remove_columns refs child_idx n (Schema child);
            child ← early_projection child_schema child;
            '(children, rewrite) ← go children (child_idx + 1) (rewrite_refs refs child_idx n 0 0 rewrite);
            Ok (child :: children, rewrite)
        end in
      '(children, rewrite) ← go children 0 ∅;
      Ok (SkinnerJoinOperator (rewrite_schema rewrite schema) children (RewriteColumnReferences rewrite <$> conditions))
  | SelectOperator _ child expr =>
      let refs := schema_refs schema ∪ GetReferencedChildren expr in
      let n := length (columns (Schema child)) in
      let rewrite := rewrite_refs refs 0 n 0 0 ∅ in
      child_schema ← remove_columns refs 0 n (Schema child);
      child ← early_projection child_schema child;
      Ok (SelectOperator (rewrite_schema rewrite schema) child (RewriteColumnReferences rewrite expr))
  | OutputOperator child => child ← early_projection (Schema child) child; Ok (OutputOperator child)
  | ScanOperator _ relation => Ok (ScanOperator schema relation)
  | ScanSelectOperator _ _ _ _ => Throw "Not supported."
  end.

Definition EarlyProjection (op : Operator) : Res Operator := early_projection (Schema op) op.

(** ** Scans with a filter *)
Fixpoint RewriteColRefToVirtColRef (e : Expression) : Expression :=
  match e with
  | ColumnRefExpr t n _ col => VirtualColumnRefExpr t n col
  | LiteralExpr _ _ | VirtualColumnRefExpr _ _ _ => e
  | UnaryArithmeticExpr op c => UnaryArithmeticExpr op (RewriteColRefToVirtColRef c)
  | BinaryArithmeticExpr op l r => BinaryArithmeticExpr op (RewriteColRefToVirtColRef l) (RewriteColRefToVirtColRef r)
  | RegexpMatchingExpr c rx => RegexpMatchingExpr (RewriteColRefToVirtColRef c) rx
  | CaseExpr c l r => CaseExpr (RewriteColRefToVirtColRef c) (RewriteColRefToVirtColRef l) (RewriteColRefToVirtColRef r)
  | IntToFloatConversionExpr c => IntToFloatConversionExpr (RewriteColRefToVirtColRef c)
  | ExtractExpr c => ExtractExpr (RewriteColRefToVirtColRef c)
  | EnumInExpr c vs => EnumInExpr (RewriteColRefToVirtColRef c) vs
  | AggregateExpr k c => AggregateExpr k (RewriteColRefToVirtColRef c)
  end.

Definition virtual_schema (s : OperatorSchema) : OperatorSchema :=
  MkSchema ((fun c => MkColumn (col_name c) (RewriteColRefToVirtColRef (col_expr c))) <$> columns s) (column_name_to_idx s).

Fixpoint AdaptiveScanSelect (op : Operator) : Operator :=
  match op with
  | SelectOperator s (ScanOperator scan_schema relation) expr =>
      ScanSelectOperator (virtual_schema s) scan_schema relation (RewriteColRefToVirtColRef <$> Decompose expr)
  | SelectOperator s child expr => SelectOperator s (AdaptiveScanSelect child) expr
  | SkinnerJoinOperator s children conditions => SkinnerJoinOperator s (AdaptiveScanSelect <$> children) conditions
  | AggregateOperator s child aggs => AggregateOperator s (AdaptiveScanSelect child) aggs
  | OutputOperator child => OutputOperator (AdaptiveScanSelect child)
  | ScanOperator _ _ | ScanSelectOperator _ _ _ _ => op
  end.

(** ** What a plan computes *)
Definition absent : SQLValue := MkSQL (VBool false) true.
Definition exprs (s : OperatorSchema) : list Expression := col_expr <$> columns s.

(** All combinations of the rows of several inputs. *)
Fixpoint product (ls : list (list row)) : list (list row) :=
  match ls with
  | [] => [[]]
  | l :: ls => x ← l; xs ← product ls; [x :: xs]
  end.

Section Denote.
Context (enum_key : Z -> Z -> list Z) (like : list Z -> list Z -> bool).
(** The rows of a table, with all of its columns. *)
Context (table_rows : Table -> list row).

Definition accepted (env : Env) (e : Expression) : bool := accepts (truth (Compute_ enum_key like env e)).
Definition all_accepted (env : Env) (es : list Expression) : bool := forallb (accepted env) es.
Definition output (env : Env) (s : OperatorSchema) : row := column_values enum_key like env (exprs s).

(** A scan reads the columns of its schema by their names. *)
Definition scan_value (t : Table) (r : row) (name : string) : SQLValue :=
  default absent (pair_pos ← list_find (fun c => cc_name c = name) (table_columns t); r !! pair_pos.1).
Definition scan_row (t : Table) (s : OperatorSchema) (r : row) : row :=
  (fun c => scan_value t r (col_name c)) <$> columns s.

(** The aggregates of a column of arguments, and the row of an empty input. *)
Definition agg_values (kinds : list AggregateType) (first : row) (rest : list row) : row :=
  imap (fun j k => as_value (agg_fold enum_key k (default absent (first !! j)) ((fun r => default absent (r !! j)) <$> rest))) kinds.
Definition null_row (s : OperatorSchema) : row :=
  (fun e => match Type_ e with Ok t => MkSQL (null_value t) true | _ => absent end) <$> exprs s.

Fixpoint denote (op : Operator) : list row :=
  match op with
  | ScanOperator s t => scan_row t s <$> table_rows t
  | SelectOperator s child e => r ← denote child; if accepted (row_env r) e then [output (row_env r) s] else []
  | ScanSelectOperator s scan_schema t filters =>
      r ← scan_row t scan_schema <$> table_rows t;
      if all_accepted (MkEnv [] r) filters then [output (MkEnv [] r) s] else []
  | SkinnerJoinOperator s children conditions =>
      rs ← product (denote <$> children); if all_accepted (MkEnv rs []) conditions then [output (MkEnv rs []) s] else []
  | AggregateOperator s child aggs =>
      match (fun r => column_values enum_key like (row_env r) aggs.*2) <$> denote child with
      | [] => [null_row s]
      | first :: rest => [output (MkEnv [] (agg_values aggs.*1 first rest)) s]
      end
  | OutputOperator child => denote child
  end.

(** *** Conjunctions *)
Lemma accepted_and env l r : accepted env (BinaryArithmeticExpr OpAND l r) = accepted env l && accepted env r.
Proof.
  unfold accepted. cbn [Compute_]. destruct (Compute_ enum_key like env l) as [a| | |]; [|done..]. cbn [mbind Res_bind eval_binary].
  destruct a as [[] na]; cbn [as_bool sv_value mbind Res_bind]; try (by destruct na).
  destruct (Compute_ enum_key like env r) as [[v nb]| | |]; unfold NullableTernary; cbn [mbind Res_bind];
    try (by rewrite andb_false_r).
  destruct v; cbn; try (by rewrite andb_false_r). by destruct na, b, b0, nb.
Qed.

Lemma accepted_decompose env e : all_accepted env (Decompose e) = accepted env e.
Proof.
  unfold all_accepted. induction e; cbn [Decompose forallb]; rewrite ?andb_true_r; try done.
  destruct op; cbn [forallb]; rewrite ?andb_true_r; try done.
  by rewrite forallb_app, IHe1, IHe2, accepted_and.
Qed.

(** *** Rewriting references *)

(** The value a reference reads. *)
Definition read_ref (env : Env) (ref : Z * Z) : Res SQLValue := values ← vec_at (env_children env) ref.1; vec_at values ref.2.

Lemma compute_rewrite rw env env' e : env_virtual env' = env_virtual env ->
  (forall ref, ref ∈ GetReferencedChildren e ->
    read_ref env' (default ref (rw !! ref)) = read_ref env ref) ->
  Compute_ enum_key like env' (RewriteColumnReferences rw e) = Compute_ enum_key like env e.
Proof.
  intros Hv. induction e; cbn [GetReferencedChildren RewriteColumnReferences Compute_]; intros Hr; try done.
  - specialize (Hr (child_idx, column_idx) ltac:(set_solver)). unfold read_ref in Hr. cbn in Hr.
    destruct (rw !! (child_idx, column_idx)) as [[c j]|]; exact Hr.
  - by rewrite Hv.
  - rewrite IHe by set_solver. done.
  - rewrite IHe1, IHe2 by set_solver. done.
  - rewrite IHe by set_solver. done.
  - rewrite IHe1, IHe2, IHe3 by set_solver. done.
  - rewrite IHe by set_solver. done.
  - rewrite IHe by set_solver. done.
  - rewrite IHe by set_solver. done.
Qed.

(** Expressions without virtual columns. *)
Fixpoint no_virtual (e : Expression) : bool :=
  match e with
  | VirtualColumnRefExpr _ _ _ => false
  | LiteralExpr _ _ | ColumnRefExpr _ _ _ _ => true
  | UnaryArithmeticExpr _ c | RegexpMatchingExpr c _ | IntToFloatConversionExpr c | ExtractExpr c
  | EnumInExpr c _ | AggregateExpr _ c => no_virtual c
  | BinaryArithmeticExpr _ l r => no_virtual l && no_virtual r
  | CaseExpr c l r => no_virtual c && no_virtual l && no_virtual r
  end.

Lemma compute_virtual r e : no_virtual e = true -> (forall ref, ref ∈ GetReferencedChildren e -> ref.1 = 0) ->
  Compute_ enum_key like (MkEnv [] r) (RewriteColRefToVirtColRef e) = Compute_ enum_key like (row_env r) e.
Proof.
  induction e; cbn [GetReferencedChildren RewriteColRefToVirtColRef Compute_ no_virtual]; intros Hn Hr; try done.
  - specialize (Hr (child_idx, column_idx) ltac:(set_solver)). cbn in Hr. by subst child_idx.
  - by rewrite IHe by set_solver.
  - apply andb_true_iff in Hn as [? ?]. by rewrite IHe1, IHe2 by set_solver.
  - by rewrite IHe by set_solver.
  - apply andb_true_iff in Hn as [[? ?]%andb_true_iff ?]. by rewrite IHe1, IHe2, IHe3 by set_solver.
  - by rewrite IHe by set_solver.
  - by rewrite IHe by set_solver.
  - by rewrite IHe by set_solver.
Qed.
End Denote.
