(* ===== verification/EarlyProjection.v ===== *)
(** * The rewriting passes are sound

    [EarlyProjection] and [AdaptiveScanSelect] of src/plan/planner.cc return plans
    that compute the same rows. *)
From stdpp Require Import gmap strings.
From S2P Require Import Prelude ProgramBuilder SqlValue Struct Aggregator Expression Vector RowBuffer HashTable Joins Plan.
#[local] Open Scope Z_scope.

(** ** Keeping the referenced columns *)
Section Keep.
Context (refs : gset (Z * Z)) (child_idx : Z).

(** The elements of a list whose positions, counted from [i], are referenced. *)
Fixpoint keep {A} (i : Z) (l : list A) : list A :=
  match l with
  | [] => []
  | x :: l => if decide ((child_idx, i) ∈ refs) then x :: keep (i + 1) l else keep (i + 1) l
  end.

Lemma keep_fmap {A B} (g : A -> B) l : forall i, keep i (g <$> l) = g <$> keep i l.
Proof. induction l as [|x l IH]; intros i; [done|]. cbn. case_decide; cbn; by rewrite IH. Qed.

Lemma keep_snoc {A} (l : list A) x : forall i, keep i (l ++ [x]) =
  keep i l ++ (if decide ((child_idx, i + Z.of_nat (length l)) ∈ refs) then [x] else []).
Proof.
  induction l as [|y l IH]; intros i; cbn [app keep length].
  { rewrite Z.add_0_r. by case_decide. }
  rewrite IH. replace (i + Z.of_nat (S (length l))) with (i + 1 + Z.of_nat (length l)) by lia.
  destruct (decide ((child_idx, i) ∈ refs)); [|done]. by rewrite app_comm_cons.
Qed.

Lemma keep_elem {A} (l : list A) x i : x ∈ keep i l -> x ∈ l.
Proof.
  revert i. induction l as [|y l IH]; intros i Hx; cbn in Hx; [done|].
  case_decide; [apply elem_of_cons in Hx as [->|Hx]; [by left|]|]; right; by eapply IH.
Qed.

(** [remove_columns] keeps exactly the referenced columns. *)
Lemma remove_columns_keep n : forall s, (n <= length (columns s))%nat ->
  exists s', remove_columns refs child_idx n s = Ok s' /\
    columns s' = keep 0 (take n (columns s)) ++ drop n (columns s).
Proof.
  induction n as [|n IH]; intros s Hn; cbn [remove_columns]; [by exists s|].
  destruct (lookup_lt_is_Some_2 (columns s) n) as [c Hc]; [lia|].
  assert (keep 0 (take (S n) (columns s)) =
    keep 0 (take n (columns s)) ++ (if decide ((child_idx, Z.of_nat n) ∈ refs) then [c] else [])) as E.
  { rewrite (take_S_r _ _ _ Hc), keep_snoc. rewrite length_take, Nat.min_l by lia. done. }
  rewrite E. case_decide as Hin.
  - cbn [mbind Res_bind]. destruct (IH s ltac:(lia)) as (s' & -> & Hs'). exists s'. split; [done|].
    rewrite Hs', (drop_S _ _ _ Hc). by rewrite <- (assoc_L (++)).
  - unfold RemoveColumn. rewrite (vec_at_nat _ _ _ Hc). cbn [mbind Res_bind]. rewrite Nat2Z.id.
    assert (take n (delete n (columns s)) = take n (columns s) /\ drop n (delete n (columns s)) = drop (S n) (columns s) /\
      (n <= length (delete n (columns s)))%nat) as (Et & Ed & El).
    { rewrite delete_take_drop, take_app_le, take_take, Nat.min_id by (rewrite length_take; lia).
      rewrite drop_app_le, drop_ge by (rewrite length_take; lia). rewrite length_app, length_take, length_drop.
      split_and!; [done|done|lia]. }
    destruct (IH (MkSchema (delete n (columns s)) (delete (col_name c) (column_name_to_idx s)))) as (s' & -> & Hs'); [done|].
    exists s'. split; [done|]. rewrite Hs'. cbn [columns]. by rewrite Et, Ed, app_nil_r.
Qed.

(** The rewriting of references follows the removal. *)
Lemma rewrite_refs_other n : forall i off rw ref, (ref.1 <> child_idx \/ ref.2 < i) ->
  rewrite_refs refs child_idx n i off rw !! ref = rw !! ref.
Proof.
  induction n as [|n IH]; intros i off rw ref Hr; cbn [rewrite_refs]; [done|].
  case_decide; rewrite IH by (destruct Hr; [by left|right; lia]); [|done].
  rewrite lookup_insert_ne; [done|]. intros <-. cbn in Hr. destruct Hr; [done|lia].
Qed.

Lemma rewrite_refs_keep {A} (l : list A) : forall k i off rw, (k < length l)%nat ->
  (child_idx, i + Z.of_nat k) ∈ refs ->
  exists o : nat, rewrite_refs refs child_idx (length l) i off rw !! (child_idx, i + Z.of_nat k) = Some (child_idx, off + Z.of_nat o) /\
    keep i l !! o = l !! k.
Proof.
  induction l as [|x l IH]; intros k i off rw Hk Hin; cbn in Hk; [lia|]. cbn [rewrite_refs length keep].
  destruct k as [|k].
  - rewrite Z.add_0_r in *. rewrite decide_True by done. exists 0%nat. rewrite rewrite_refs_other by (right; cbn; lia).
    rewrite lookup_insert_eq, Z.add_0_r, decide_True by done. done.
  - replace (i + Z.of_nat (S k)) with (i + 1 + Z.of_nat k) in * by lia. case_decide.
    + destruct (IH k (i + 1) (off + 1) (<[(child_idx, i) := (child_idx, off)]> rw)) as (o & -> & Ho); [lia|done|].
      exists (S o). split; [do 2 f_equal; lia|done].
    + destruct (IH k (i + 1) off rw) as (o & -> & Ho); [lia|done|]. by exists o.
Qed.
End Keep.

(** ** Well-formed plans *)
Definition with_schema (op : Operator) (s : OperatorSchema) : Operator :=
  match op with
  | ScanOperator _ t => ScanOperator s t
  | SelectOperator _ c e => SelectOperator s c e
  | ScanSelectOperator _ ss t fs => ScanSelectOperator s ss t fs
  | SkinnerJoinOperator _ cs conds => SkinnerJoinOperator s cs conds
  | AggregateOperator _ c aggs => AggregateOperator s c aggs
  | OutputOperator c => OutputOperator c
  end.

(** The references name columns of the children. *)
Definition refs_in (refs : gset (Z * Z)) (children : list Operator) : Prop :=
  forall ref, ref ∈ refs -> exists c : Operator, vec_at children ref.1 = Ok c /\ 0 <= ref.2 < vec_size (columns (Schema c)).

Definition join_refs (s : OperatorSchema) (conds : list Expression) : gset (Z * Z) :=
  schema_refs s ∪ ⋃ (GetReferencedChildren <$> conds).
Definition agg_refs (aggs : list (AggregateType * Expression)) : gset (Z * Z) :=
  ⋃ ((fun a => GetReferencedChildren a.2) <$> aggs).

(** A plan below the output: every reference is to a column of a child. *)
Fixpoint plan_wf (s : OperatorSchema) (op : Operator) {struct op} : Prop :=
  match op with
  | ScanOperator _ _ => True
  | SelectOperator _ c e => refs_in (schema_refs s ∪ GetReferencedChildren e) [c] /\ plan_wf (Schema c) c
  | SkinnerJoinOperator _ cs conds =>
      refs_in (join_refs s conds) cs /\
      (fix all (cs : list Operator) : Prop := match cs with [] => True | c :: cs => plan_wf (Schema c) c /\ all cs end) cs
  | AggregateOperator _ c aggs => refs_in (agg_refs aggs) [c] /\ plan_wf (Schema c) c
  | ScanSelectOperator _ _ _ _ | OutputOperator _ => False
  end.

Lemma elem_of_union_fmap {A} (g : A -> gset (Z * Z)) (l : list A) ref :
  ref ∈ ⋃ (g <$> l) <-> exists x, x ∈ l /\ ref ∈ g x.
Proof.
  rewrite elem_of_union_list. setoid_rewrite list_elem_of_fmap. split.
  - intros (X & (x & -> & Hx) & Hr). eauto.
  - intros (x & Hx & Hr). eauto.
Qed.

Lemma schema_refs_elem s ref : ref ∈ schema_refs s <-> exists e, e ∈ exprs s /\ ref ∈ GetReferencedChildren e.
Proof.
  unfold schema_refs, exprs. rewrite elem_of_union_fmap. setoid_rewrite list_elem_of_fmap. split.
  - intros (c & Hc & Hr). eauto.
  - intros (e & (c & -> & Hc) & Hr). eauto.
Qed.

Lemma refs_in_mono refs refs' cs : refs ⊆ refs' -> refs_in refs' cs -> refs_in refs cs.
Proof. intros Hsub H ref Hr. apply H. set_solver. Qed.

(** A schema with fewer columns keeps a plan well formed. *)
Lemma plan_wf_keep op s s' : (forall c, c ∈ columns s' -> c ∈ columns s) -> plan_wf s op -> plan_wf s' op.
Proof.
  intros Hc. assert (schema_refs s' ⊆ schema_refs s) as Hsub.
  { intros ref. unfold schema_refs. rewrite !elem_of_union_fmap. intros (c & ? & ?). eauto. }
  destruct op; cbn [plan_wf]; try tauto; (intros [Hr Hw]; split; [|done]); (eapply refs_in_mono; [|done]).
  - set_solver.
  - unfold join_refs. set_solver.
Qed.

Section Denotation.
Context (enum_key : Z -> Z -> list Z) (like : list Z -> list Z -> bool) (table_rows : Table -> list row).
#[local] Abbreviation denote := (denote enum_key like table_rows).
#[local] Abbreviation output := (output enum_key like).

(** A row has the columns of the schema. *)
Lemma denote_length op s r : (match op with OutputOperator _ => False | _ => True end) ->
  r ∈ denote (with_schema op s) -> length r = length (columns s).
Proof.
  intros Hop Hr. destruct op; cbn [with_schema Plan.denote] in Hr; try done.
  - apply list_elem_of_fmap in Hr as (x & -> & _). unfold scan_row. by rewrite length_fmap.
  - apply list_elem_of_bind in Hr as (x & Hx & _). case_match; [|by apply not_elem_of_nil in Hx].
    apply list_elem_of_singleton in Hx as ->. unfold Plan.output, column_values, exprs. by rewrite !length_fmap.
  - apply list_elem_of_bind in Hr as (x & Hx & _). case_match; [|by apply not_elem_of_nil in Hx].
    apply list_elem_of_singleton in Hx as ->. unfold Plan.output, column_values, exprs. by rewrite !length_fmap.
  - apply list_elem_of_bind in Hr as (x & Hx & _). case_match; [|by apply not_elem_of_nil in Hx].
    apply list_elem_of_singleton in Hx as ->. unfold Plan.output, column_values, exprs. by rewrite !length_fmap.
  - case_match; apply list_elem_of_singleton in Hr as ->;
      unfold Plan.output, null_row, column_values, exprs; by rewrite !length_fmap.
Qed.

Lemma output_keep refs ci env s s' : columns s' = keep refs ci 0 (columns s) ->
  output env s' = keep refs ci 0 (output env s).
Proof. intros E. unfold Plan.output, column_values, exprs. by rewrite E, !keep_fmap. Qed.

Lemma bind_keep {X} (g h : X -> list row) (k : row -> row) (l : list X) :
  (forall x, x ∈ l -> g x = k <$> h x) -> l ≫= g = k <$> (l ≫= h).
Proof.
  induction l as [|x l IH]; intros H; [done|]. cbn. rewrite fmap_app, (H x) by (by left). f_equal.
  apply IH. intros. apply H. by right.
Qed.

(** Removing columns of a schema removes columns of the rows. *)
Lemma denote_keep refs ci op s s' : (match op with OutputOperator _ => False | _ => True end) ->
  columns s' = keep refs ci 0 (columns s) ->
  denote (with_schema op s') = keep refs ci 0 <$> denote (with_schema op s).
Proof.
  intros Hop E. destruct op; cbn [with_schema Plan.denote]; try done.
  - rewrite <- list_fmap_compose. apply list_fmap_ext. intros _ r _. unfold scan_row. cbn. by rewrite E, keep_fmap.
  - apply bind_keep. intros r _. case_match; [|done]. by rewrite (output_keep refs ci _ s s' E).
  - apply bind_keep. intros r _. case_match; [|done]. by rewrite (output_keep refs ci _ s s' E).
  - apply bind_keep. intros r _. case_match; [|done]. by rewrite (output_keep refs ci _ s s' E).
  - case_match; cbn; [|by rewrite (output_keep refs ci _ s s' E)].
    unfold null_row, exprs. by rewrite E, !keep_fmap.
Qed.
End Denotation.

(** ** Rows of several children *)
Section Rows.
Context (refs : gset (Z * Z)).

Fixpoint keep_all (k : Z) (rs : list row) : list row :=
  match rs with [] => [] | r :: rs => keep refs k 0 r :: keep_all (k + 1) rs end.
Fixpoint rewrite_all (k : Z) (ns : list nat) (rw : gmap (Z * Z) (Z * Z)) : gmap (Z * Z) (Z * Z) :=
  match ns with [] => rw | n :: ns => rewrite_all (k + 1) ns (rewrite_refs refs k n 0 0 rw) end.

Lemma keep_all_lookup rs : forall k i r, rs !! i = Some r -> keep_all k rs !! i = Some (keep refs (k + Z.of_nat i) 0 r).
Proof.
  induction rs as [|x rs IH]; intros k i r Hi; [done|]. destruct i as [|i]; cbn in Hi |- *.
  - injection Hi as ->. by rewrite Z.add_0_r.
  - etransitivity; [exact (IH (k + 1) i r Hi)|]. do 2 f_equal. lia.
Qed.

Lemma rewrite_all_other ns : forall k rw ref, ref.1 < k -> rewrite_all k ns rw !! ref = rw !! ref.
Proof.
  induction ns as [|n ns IH]; intros k rw ref Hr; cbn [rewrite_all]; [done|].
  rewrite IH by lia. apply rewrite_refs_other. left. lia.
Qed.

Lemma rewrite_all_keep (rs : list row) : forall k rw i r j, rs !! i = Some r -> (j < length r)%nat ->
  (k + Z.of_nat i, Z.of_nat j) ∈ refs ->
  exists o : nat, rewrite_all k (length <$> rs) rw !! (k + Z.of_nat i, Z.of_nat j) = Some (k + Z.of_nat i, Z.of_nat o) /\
    keep refs (k + Z.of_nat i) 0 r !! o = r !! j.
Proof.
  induction rs as [|x rs IH]; intros k rw i r j Hi Hj Hin; [done|]. cbn [fmap list_fmap rewrite_all].
  destruct i as [|i]; cbn in Hi.
  - injection Hi as ->. rewrite Z.add_0_r in *. rewrite rewrite_all_other by (cbn; lia).
    destruct (rewrite_refs_keep refs k r j 0 0 rw Hj) as (o & Ho & Hk); [done|]. rewrite !Z.add_0_l in Ho. eauto.
  - replace (k + Z.of_nat (S i)) with (k + 1 + Z.of_nat i) in * by lia. by apply IH.
Qed.

Lemma read_keep rs v ref r : ref ∈ refs -> vec_at rs ref.1 = Ok r -> 0 <= ref.2 < vec_size r ->
  read_ref (MkEnv (keep_all 0 rs) v) (default ref (rewrite_all 0 (length <$> rs) ∅ !! ref)) = read_ref (MkEnv rs v) ref.
Proof.
  destruct ref as [a b]. cbn [fst snd]. intros Hin [Ha Hr]%vec_at_Ok Hb. unfold vec_size in Hb.
  destruct (rewrite_all_keep rs 0 ∅ (Z.to_nat a) r (Z.to_nat b) Hr) as (o & Ho & Hk);
    [lia|by rewrite Z.add_0_l, !Z2Nat.id by lia|].
  rewrite Z.add_0_l, !Z2Nat.id in Ho by lia. rewrite Z.add_0_l, Z2Nat.id in Hk by lia.
  rewrite Ho. unfold read_ref. cbn [default from_option id fst snd env_children].
  assert (vec_at (keep_all 0 rs) a = Ok (keep refs a 0 r)) as ->.
  { apply vec_at_Ok. split; [done|]. rewrite (keep_all_lookup rs 0 _ r Hr), Z.add_0_l, Z2Nat.id by lia. done. }
  assert (vec_at rs a = Ok r) as -> by (by apply vec_at_Ok). cbn [mbind Res_bind].
  unfold vec_at. rewrite Nat2Z.id, Hk. destruct (Z.ltb_spec (Z.of_nat o) 0), (Z.ltb_spec b 0); try lia; done.
Qed.

(** Expressions over the rows that were kept. *)
Context (enum_key : Z -> Z -> list Z) (like : list Z -> list Z -> bool).
Context (cs : list Operator) (rs : list row).
Context (Hfit : Forall2 (fun r c => length r = length (columns (Schema c))) rs cs) (Hin : refs_in refs cs).

Lemma compute_keep e : GetReferencedChildren e ⊆ refs ->
  Compute_ enum_key like (MkEnv (keep_all 0 rs) []) (RewriteColumnReferences (rewrite_all 0 (length <$> rs) ∅) e) =
  Compute_ enum_key like (MkEnv rs []) e.
Proof using Hfit Hin.
  intros Hsub. apply compute_rewrite; [done|]. intros ref Hr. assert (ref ∈ refs) as Href by set_solver.
  destruct (Hin ref Href) as (c & [Ha Hc]%vec_at_Ok & Hj).
  destruct (Forall2_lookup_r _ _ _ _ _ Hfit Hc) as (r & Hrr & Hl).
  apply (read_keep rs [] ref r Href); [by apply vec_at_Ok|]. unfold vec_size in *. by rewrite Hl.
Qed.

Lemma output_rewrite s : schema_refs s ⊆ refs ->
  output enum_key like (MkEnv (keep_all 0 rs) []) (rewrite_schema (rewrite_all 0 (length <$> rs) ∅) s) =
  output enum_key like (MkEnv rs []) s.
Proof using Hfit Hin.
  intros Hsub. unfold output, column_values, exprs, rewrite_schema. cbn [columns]. rewrite <- !list_fmap_compose.
  apply list_fmap_ext. intros i c Hc. cbn [compose col_expr]. unfold compose. cbn [col_expr]. rewrite compute_keep; [done|].
  intros ref Hr. apply Hsub. unfold schema_refs. apply elem_of_union_fmap. exists c. split; [|done]. by eapply list_elem_of_lookup_2.
Qed.

Lemma all_accepted_rewrite conds : (forall e, e ∈ conds -> GetReferencedChildren e ⊆ refs) ->
  all_accepted enum_key like (MkEnv (keep_all 0 rs) []) (RewriteColumnReferences (rewrite_all 0 (length <$> rs) ∅) <$> conds) =
  all_accepted enum_key like (MkEnv rs []) conds.
Proof using Hfit Hin.
  unfold all_accepted. induction conds as [|e conds IH]; intros Hsub; [done|]. rewrite fmap_cons. cbn [forallb].
  unfold accepted at 1 3. rewrite compute_keep by (apply Hsub; by left). f_equal. apply IH. intros. apply Hsub. by right.
Qed.
End Rows.

(** ** The pass *)

(** Induction over plans, through the children of joins. *)
Lemma Operator_induction (P : Operator -> Prop) :
  (forall s t, P (ScanOperator s t)) -> (forall s c e, P c -> P (SelectOperator s c e)) ->
  (forall s ss t fs, P (ScanSelectOperator s ss t fs)) ->
  (forall s cs conds, Forall P cs -> P (SkinnerJoinOperator s cs conds)) ->
  (forall s c aggs, P c -> P (AggregateOperator s c aggs)) -> (forall c, P c -> P (OutputOperator c)) ->
  forall op, P op.
Proof.
  intros H1 H2 H3 H4 H5 H6. fix IH 1. intros [s t|s c e|s ss t fs|s cs conds|s c aggs|c].
  - apply H1.
  - apply H2, IH.
  - apply H3.
  - apply H4. induction cs as [|c cs IHcs]; constructor; [apply IH|exact IHcs].
  - apply H5, IH.
  - apply H6, IH.
Qed.

Section Pass.
Context (enum_key : Z -> Z -> list Z) (like : list Z -> list Z -> bool) (table_rows : Table -> list row).
#[local] Abbreviation denote := (denote enum_key like table_rows).

(** What the pass does to one operator with a reduced schema. *)
Definition projects (op : Operator) : Prop := forall s, plan_wf s op ->
  exists op', early_projection s op = Ok op' /\ denote op' = denote (with_schema op s).

Lemma plan_wf_top s op : plan_wf s op -> (match op with OutputOperator _ => False | _ => True end).
Proof. by destruct op. Qed.

Lemma with_own_schema op : with_schema op (Schema op) = op.
Proof. by destruct op. Qed.

(** A child whose unreferenced columns are removed. *)
Lemma child_projects refs ci c : projects c -> plan_wf (Schema c) c ->
  exists s' c', remove_columns refs ci (length (columns (Schema c))) (Schema c) = Ok s' /\
    early_projection s' c = Ok c' /\ denote c' = keep refs ci 0 <$> denote c.
Proof.
  intros Hc Hw. destruct (remove_columns_keep refs ci (length (columns (Schema c))) (Schema c) ltac:(lia)) as (s' & Hs' & E).
  rewrite drop_ge, app_nil_r, take_ge in E by lia.
  destruct (Hc s') as (c' & Hc' & Hd).
  { apply (plan_wf_keep _ (Schema c)); [|done]. intros x. rewrite E. apply keep_elem. }
  exists s', c'. split_and!; [done..|]. rewrite Hd, (denote_keep _ _ _ refs ci c (Schema c) s'); [|by eapply plan_wf_top|done].
  by rewrite with_own_schema.
Qed.

(** The rows of one child and of its reduced plan, as environments. *)
Lemma row_fits_child c r : plan_wf (Schema c) c -> r ∈ denote c ->
  Forall2 (fun r c => length r = length (columns (Schema c))) [r] [c].
Proof.
  intros Hw Hr. constructor; [|constructor]. apply (denote_length enum_key like table_rows c).
  - by eapply plan_wf_top.
  - by rewrite with_own_schema.
Qed.

Lemma bind_fmap_ext {X Y B} (k : X -> Y) (g : Y -> list B) (h : X -> list B) (l : list X) :
  (forall x, x ∈ l -> g (k x) = h x) -> (k <$> l) ≫= g = l ≫= h.
Proof.
  induction l as [|x l IH]; intros H; [done|]. cbn. rewrite (H x) by (by left). f_equal. apply IH. intros. apply H. by right.
Qed.

Lemma select_projects s0 c e : projects c -> projects (SelectOperator s0 c e).
Proof.
  intros Hc s [Hin Hw]. cbn [early_projection]. set (refs := schema_refs s ∪ GetReferencedChildren e) in *.
  destruct (child_projects refs 0 c Hc Hw) as (s' & c' & -> & H2 & Hd). cbn [mbind Res_bind]. rewrite H2. cbn [mbind Res_bind].
  eexists. split; [done|]. cbn [with_schema Plan.denote]. rewrite Hd. apply bind_fmap_ext. intros r Hr.
  pose proof (row_fits_child c r Hw Hr) as Hfit. pose proof (list.Forall2_length _ _ _ Hfit) as _.
  assert (length r = length (columns (Schema c))) as Hl by (by inversion Hfit).
  change (row_env (keep refs 0 0 r)) with (MkEnv (keep_all refs 0 [r]) []). change (row_env r) with (MkEnv [r] []).
  rewrite <- Hl. change (rewrite_refs refs 0 (length r) 0 0 ∅) with (rewrite_all refs 0 (length <$> [r]) ∅).
  unfold accepted. rewrite (compute_keep refs enum_key like [c]) by (done || set_solver).
  rewrite (output_rewrite refs enum_key like [c]) by (done || set_solver). done.
Qed.

Lemma aggregate_projects s0 c aggs : projects c -> projects (AggregateOperator s0 c aggs).
Proof.
  intros Hc s [Hin Hw]. cbn [early_projection]. fold (agg_refs aggs). set (refs := agg_refs aggs) in *.
  destruct (child_projects refs 0 c Hc Hw) as (s' & c' & -> & H2 & Hd). cbn [mbind Res_bind]. rewrite H2. cbn [mbind Res_bind].
  eexists. split; [done|]. cbn [with_schema Plan.denote]. rewrite Hd, <- !list_fmap_compose.
  rewrite (list_fmap_ext _ (fun r => column_values enum_key like (row_env r) aggs.*2) (denote c)); [done|].
  intros i r Hr%list_elem_of_lookup_2. unfold compose. pose proof (row_fits_child c r Hw Hr) as Hfit.
  assert (length r = length (columns (Schema c))) as Hl by (by inversion Hfit).
  change (row_env (keep refs 0 0 r)) with (MkEnv (keep_all refs 0 [r]) []). change (row_env r) with (MkEnv [r] []).
  rewrite <- Hl. change (rewrite_refs refs 0 (length r) 0 0 ∅) with (rewrite_all refs 0 (length <$> [r]) ∅).
  unfold column_values. rewrite <- !list_fmap_compose. apply list_fmap_ext. intros j a Ha%list_elem_of_lookup_2. unfold compose. cbn [snd].
  rewrite (compute_keep refs enum_key like [c]); [done|done|done|]. intros ref Href. subst refs. unfold agg_refs.
  apply elem_of_union_fmap. by exists a.
Qed.

(** *** Joins *)
Lemma product_keep refs (ls : list (list row)) : forall k (f : Z -> row -> row),
  (forall k r, f k r = keep refs k 0 r) ->
  product (imap (fun i (l : list row) => f (k + Z.of_nat i) <$> l) ls) = keep_all refs k <$> product ls.
Proof.
  induction ls as [|l ls IH]; intros k f Hf; [done|]. rewrite imap_cons. cbn [product].
  rewrite Z.add_0_r. rewrite (imap_ext _ (fun i (l : list row) => f (k + 1 + Z.of_nat i) <$> l)).
  2: { intros i x _. cbn. by replace (k + Z.of_nat (S i)) with (k + 1 + Z.of_nat i) by lia. }
  rewrite (IH (k + 1) f Hf). clear IH.
  induction l as [|x l IHl]; [done|]. cbn. rewrite fmap_app, <- IHl. f_equal.
  rewrite Hf. generalize (product ls). intros p. induction p as [|y p IHp]; [done|]. cbn. f_equal. exact IHp.
Qed.

Lemma product_fit (cs : list Operator) rs : Forall (fun c => plan_wf (Schema c) c) cs -> rs ∈ product (denote <$> cs) ->
  Forall2 (fun r c => length r = length (columns (Schema c))) rs cs.
Proof.
  intros Hw. revert rs. induction Hw as [|c cs Hc _ IH]; intros rs Hrs; cbn in Hrs.
  { apply list_elem_of_singleton in Hrs as ->. constructor. }
  apply list_elem_of_bind in Hrs as (r & Hrs & Hr). apply list_elem_of_bind in Hrs as (rs' & Hrs & Hrs').
  apply list_elem_of_singleton in Hrs as ->. constructor; [|by apply IH].
  pose proof (row_fits_child c r Hc Hr) as H. by inversion H.
Qed.

(** The loop over the children of a join. *)
Definition project_children (refs : gset (Z * Z)) :=
  fix go (children : list Operator) (child_idx : Z) (rewrite : gmap (Z * Z) (Z * Z))
      : Res (list Operator * gmap (Z * Z) (Z * Z)) :=
    match children with
    | [] => Ok ([], rewrite)
    | child :: children =>
        let n := length (columns (Schema child)) in
        child_schema ← remove_columns refs child_idx n (Schema child);
        child ← early_projection child_schema child;
        '(children, rewrite) ← go children (child_idx + 1) (rewrite_refs refs child_idx n 0 0 rewrite);
        Ok (child :: children, rewrite)
    end.

Lemma project_children_ok refs cs : Forall (fun c => projects c /\ plan_wf (Schema c) c) cs -> forall k rw,
  exists cs', project_children refs cs k rw =
      Ok (cs', rewrite_all refs k ((fun c => length (columns (Schema c))) <$> cs) rw) /\
    denote <$> cs' = imap (fun i (l : list row) => keep refs (k + Z.of_nat i) 0 <$> l) (denote <$> cs).
Proof.
  induction 1 as [|c cs [Hc Hw] _ IH]; intros k rw; [by exists []|]. cbn [project_children].
  destruct (child_projects refs k c Hc Hw) as (s' & c' & -> & H2 & Hd). cbn [mbind Res_bind]. rewrite H2. cbn [mbind Res_bind].
  destruct (IH (k + 1) (rewrite_refs refs k (length (columns (Schema c))) 0 0 rw)) as (cs' & -> & Hcs). cbn [mbind Res_bind].
  exists (c' :: cs'). split; [done|]. rewrite !fmap_cons, imap_cons, Hd, Hcs, Z.add_0_r. f_equal.
  apply imap_ext. intros i x _. cbn. by replace (k + Z.of_nat (S i)) with (k + 1 + Z.of_nat i) by lia.
Qed.

Lemma plan_wf_all cs : (fix all (cs : list Operator) : Prop :=
  match cs with [] => True | c :: cs => plan_wf (Schema c) c /\ all cs end) cs -> Forall (fun c => plan_wf (Schema c) c) cs.
Proof. induction cs as [|c cs IH]; [constructor|]. intros [? ?]. constructor; [done|by apply IH]. Qed.

Lemma join_projects s0 cs conds : Forall projects cs -> projects (SkinnerJoinOperator s0 cs conds).
Proof.
  intros Hcs s [Hin Hw%plan_wf_all]. cbn [early_projection]. fold (join_refs s conds). set (refs := join_refs s conds) in *.
  match goal with |- context [?g cs 0 ∅] => change g with (project_children refs) end.
  destruct (project_children_ok refs cs) with (k := 0) (rw := @empty (gmap (Z * Z) (Z * Z)) _) as (cs' & -> & Hd).
  { apply list.Forall_forall. intros c Hc. split; [by eapply list.Forall_forall in Hcs|by eapply list.Forall_forall in Hw]. }
  cbn [mbind Res_bind]. eexists. split; [done|]. cbn [with_schema Plan.denote].
  rewrite Hd, (product_keep refs _ 0 (fun k => keep refs k 0)) by done. apply bind_fmap_ext. intros rs Hrs.
  pose proof (product_fit cs rs Hw Hrs) as Hfit.
  assert ((fun c => length (columns (Schema c))) <$> cs = length <$> rs) as ->.
  { clear -Hfit. induction Hfit as [|r c rs cs E _ IH]; [done|]. rewrite !fmap_cons. by rewrite E, IH. }
  rewrite (output_rewrite refs enum_key like cs) by (done || (subst refs; unfold join_refs; set_solver)).
  rewrite (all_accepted_rewrite refs enum_key like cs); [done|done|done|].
  intros e He ref Hr. subst refs. unfold join_refs. apply elem_of_union_r, elem_of_union_fmap. by exists e.
Qed.

Lemma early_projection_projects op : projects op.
Proof.
  induction op using Operator_induction; try (by intros ? []).
  - intros s' _. eexists. by split.
  - by apply select_projects.
  - by apply join_projects.
  - by apply aggregate_projects.
Qed.
End Pass.

(** Early projection is sound: on a plan in which every reference names a column of a
    child, the pass returns (it throws only on operators the planner does not build),
    and the plan with the unread columns removed and all references renumbered
    computes the same rows. *)
Theorem EarlyProjection_sound enum_key like table_rows op : plan_wf (Schema op) op ->
  exists op', EarlyProjection (OutputOperator op) = Ok op' /\
    denote enum_key like table_rows op' = denote enum_key like table_rows (OutputOperator op).
Proof.
  intros Hw. destruct (early_projection_projects enum_key like table_rows op (Schema op) Hw) as (op' & Ho & Hd).
  exists (OutputOperator op'). unfold EarlyProjection. cbn [early_projection]. rewrite Ho. split; [done|].
  cbn [denote]. by rewrite Hd, with_own_schema.
Qed.

(** ** Scans with a filter *)

(** The selections above scans read one child, without virtual columns. *)
Definition scan_reads (e : Expression) : Prop :=
  no_virtual e = true /\ forall ref, ref ∈ GetReferencedChildren e -> ref.1 = 0.
Fixpoint select_wf (op : Operator) : Prop :=
  match op with
  | SelectOperator s (ScanOperator _ _) e => scan_reads e /\ Forall scan_reads (exprs s)
  | SelectOperator _ c _ | AggregateOperator _ c _ | OutputOperator c => select_wf c
  | SkinnerJoinOperator _ cs _ =>
      (fix all (cs : list Operator) : Prop := match cs with [] => True | c :: cs => select_wf c /\ all cs end) cs
  | ScanOperator _ _ | ScanSelectOperator _ _ _ _ => True
  end.

Lemma decompose_reads e : scan_reads e -> Forall scan_reads (Decompose e).
Proof.
  induction e; cbn [Decompose]; intros H; try (by repeat constructor; apply H).
  destruct op; try (by repeat constructor; apply H). destruct H as [[Hn1 Hn2]%andb_true_iff Hr]. cbn in Hr.
  apply List.Forall_app. split; [apply IHe1|apply IHe2]; (split; [done|]); intros; apply Hr; set_solver.
Qed.

Lemma scan_select_rows enum_key like table_rows s ss t e : scan_reads e -> Forall scan_reads (exprs s) ->
  denote enum_key like table_rows (AdaptiveScanSelect (SelectOperator s (ScanOperator ss t) e)) =
  denote enum_key like table_rows (SelectOperator s (ScanOperator ss t) e).
Proof.
  intros He Hs. cbn [AdaptiveScanSelect denote]. apply list_bind_ext; [|done]. intros r.
  assert (all_accepted enum_key like (MkEnv [] r) (RewriteColRefToVirtColRef <$> Decompose e) = accepted enum_key like (row_env r) e) as ->.
  { rewrite <- accepted_decompose. unfold all_accepted. induction (decompose_reads e He) as [|x l [Hn Hr] _ IH]; [done|].
    rewrite fmap_cons. cbn [forallb]. unfold accepted at 1 3. by rewrite compute_virtual, IH. }
  case_match; [|done]. f_equal. unfold output, column_values, exprs, virtual_schema. cbn [columns].
  rewrite <- !list_fmap_compose. apply list_fmap_ext. intros i c Hc. unfold compose. cbn [col_expr].
  assert (scan_reads (col_expr c)) as [Hn Hr]; [|by rewrite compute_virtual].
  eapply list.Forall_forall; [exact Hs|]. unfold exprs. apply list_elem_of_fmap. exists c. split; [done|]. by eapply list_elem_of_lookup_2.
Qed.

Lemma AdaptiveScanSelect_rows enum_key like table_rows op : select_wf op ->
  denote enum_key like table_rows (AdaptiveScanSelect op) = denote enum_key like table_rows op.
Proof.
  induction op using Operator_induction; intros Hw; try done.
  - destruct op; [destruct Hw; by apply scan_select_rows|..].
    all: specialize (IHop Hw); cbn [AdaptiveScanSelect denote]; cbn [AdaptiveScanSelect denote] in IHop; first [done|by rewrite IHop].
  - cbn [AdaptiveScanSelect denote]. cbn [select_wf] in Hw. do 2 f_equal. rewrite <- list_fmap_compose. unfold compose.
    induction H as [|c cs Hc _ IHcs]; [done|]. destruct Hw as [Hw Hws]. rewrite !fmap_cons, Hc by done. f_equal. by apply IHcs.
  - cbn [AdaptiveScanSelect denote]. by rewrite IHop.
  - cbn [AdaptiveScanSelect denote]. by rewrite IHop.
Qed.
