(* ===== verification/Planner.v ===== *)
(** * The planner

    [Planner] of src/plan/planner.cc: from the statements of src/parse/ to plans.
    Predicates over one table become selections on its scan, the other ones the
    conditions of a Skinner join of all tables, and the aggregates of the select list
    are computed above it; [EarlyProjection] and [AdaptiveScanSelect] rewrite the
    result.  An expression whose constructor throws is a [Throw]; a null pointer that
    is dereferenced is [UB]. *)
From Stdlib Require Import SpecFloat.
From stdpp Require Import gmap strings pretty.
From S2P Require Import Prelude ProgramBuilder SqlValue Struct Aggregator Expression Vector RowBuffer HashTable Joins Plan EarlyProjection.
#[local] Open Scope Z_scope.

(** ** Parse trees *)
Inductive PBinaryOp : Set := PAND | POR | PEQ | PNEQ | PLT | PLEQ | PGT | PGEQ | PLIKE.

Inductive PLiteral : Type :=
| LitInt16 (z : Z) | LitInt32 (z : Z) | LitInt64 (z : Z) | LitDouble (x : spec_float)
| LitString (s : list Z) | LitBool (b : bool).

Inductive PExpr : Type :=
| PAggregateExpr (kind : AggregateType) (child : PExpr)
| PUnaryExpr (op : UnaryOp) (child : PExpr)
| PBinaryExpr (op : PBinaryOp) (left right : PExpr)
| PCaseExpr (cond then_ else_ : PExpr)
| PColumnRefExpr (table column : string)
| PInExpr (base : PExpr) (cases : list PExpr)
| PLiteralExpr (value : PLiteral).

Inductive PTable : Type :=
| BaseTable (name alias : string)
| CrossProductTable (children : list PTable).

Record SelectStatement := MkSelect { Selects : list PExpr; From_ : PTable; Where : option PExpr }.

(** ** State: where a column of a table is found *)
Record ColumnInfo := MkInfo { ci_child : Z; ci_col : Z; ci_type : SqlType; ci_nullable : bool }.
Abbreviation InfoMap := (gmap (string * string) ColumnInfo).

(** ** Tables *)

(** The columns of a table are entered in order; [j] counts them. *)
Fixpoint enter_columns (info : InfoMap) (alias : string) (child_idx : Z) (cols : list CatalogColumn) (j : Z) : InfoMap :=
  match cols with
  | [] => info
  | c :: cols =>
      enter_columns (<[(alias, cc_name c) := MkInfo child_idx j (cc_type c) (cc_nullable c)]> info) alias child_idx cols (j + 1)
  end.

Fixpoint Plan_table (db : gmap string Table) (info : InfoMap) (t : PTable) (child_idx : Z)
    : Res (list Operator * InfoMap) :=
  match t with
  | BaseTable name alias =>
      match db !! name with
      | None => Throw "Unknown table "
      | Some table =>
          let alias := if String.eqb alias "" then table_name table else alias in
          Ok ([ScanOperator (AddGeneratedColumns OperatorSchema_new table) table],
            enter_columns info alias child_idx (table_columns table) 0)
      end
  | CrossProductTable ts =>
      (fix go (ts : list PTable) (info : InfoMap) (child_idx : Z) : Res (list Operator * InfoMap) :=
        match ts with
        | [] => Ok ([], info)
        | t :: ts =>
            '(ops, info) ← Plan_table db info t child_idx;
            '(rest, info) ← go ts info (child_idx + 1);
            Ok (ops ++ rest, info)
        end) ts info 0
  end.

(** ** Expressions *)

(** The constructors of expressions compute the type. *)
Definition checked (e : Expression) : Res Expression := _ ← Type_ e; Ok e.

Definition Plan_literal (l : PLiteral) : Expression :=
  LiteralExpr match l with
    | LitInt16 z => VInt16 z | LitInt32 z => VInt32 z | LitInt64 z => VInt64 z
    | LitDouble x => VFloat64 x | LitString s => VString s | LitBool b => VBool b
    end false.

(** [Visit] with a handler for strings only: the other handlers are empty functions. *)
Definition string_literal (v : IRValue) : Res (list Z) :=
  match v with VString s => Ok s | _ => Throw "std::bad_function_call" end.

Definition percent : Z := 37.
Definition has_percent (m : list Z) : bool := existsb (Z.eqb percent) m.

(** The characters with a meaning in regular expressions: . + * ? ^ $ ( ) [ ] { } | \ *)
Definition special (c : Z) : bool :=
  existsb (Z.eqb c) [46; 43; 42; 63; 94; 36; 40; 41; 91; 93; 123; 125; 124; 92].
Definition like_char (c : Z) : list Z :=
  if special c then [92; c] else if c =? 95 then [46] else if c =? percent then [46; 42] else [c].
Definition like_regexp (m : list Z) : list Z := [94] ++ (m ≫= like_char) ++ [36].

Section Plan_expr.
(** [EnumManager::GetValue] *)
Context (enum_value : Z -> list Z -> Z).

(** [LIKE] with a constant pattern. *)
Definition Plan_like (left : Res Expression) (m : list Z) : Res Expression :=
  let front := match m with c :: _ => c =? percent | [] => false end in
  let back := match list.last m with Some c => c =? percent | None => false end in
  let binary op m := l ← left; checked (BinaryArithmeticExpr op l (LiteralExpr (VString m) false)) in
  let no_prefix := tail m in
  let no_suffix := take (length m - 1) m in
  let inner := take (length m - 2) (tail m) in
  if front && negb (has_percent no_prefix) then binary OpSTARTS_WITH no_prefix
  else if back && negb (has_percent no_suffix) then binary OpENDS_WITH no_suffix
  else if (2 <=? vec_size m) && front && back && negb (has_percent inner) then binary OpCONTAINS inner
  else l ← left; checked (RegexpMatchingExpr l (like_regexp m)).

(** [EQ] and [NEQ]: a literal compared with an enum is a value of the enum. *)
Definition Plan_equality (op : BinaryOp) (left right : Expression) : Res Expression :=
  t ← Type_ left;
  match is_type ENUM t, right with
  | true, LiteralExpr v _ =>
      s ← string_literal v;
      checked (BinaryArithmeticExpr op left (LiteralExpr (VEnum (enum_id t) (enum_value (enum_id t) s)) false))
  | _, _ => checked (BinaryArithmeticExpr op left right)
  end.

(** The known values among the cases of an enum, [None] if a case is not a literal. *)
Fixpoint enum_cases (id : Z) (cases : list (Res Expression)) (values : list Z) : Res (option (list Z)) :=
  match cases with
  | [] => Ok (Some values)
  | case :: cases =>
      r ← case;
      match r with
      | LiteralExpr v _ =>
          s ← string_literal v;
          let i := enum_value id s in
          enum_cases id cases (if i =? -1 then values else values ++ [i])
      | _ => Ok None
      end
  end.

(** A disjunction of equalities. *)
Fixpoint in_cases (left : Res Expression) (cases : list (Res Expression)) (result : option Expression) : Res Expression :=
  match cases with
  | [] => match result with Some e => Ok e | None => UB end
  | case :: cases =>
      l ← left; r ← case;
      eq ← Plan_equality OpEQ l r;
      result ← match result with None => Ok eq | Some e => checked (BinaryArithmeticExpr OpOR e eq) end;
      in_cases left cases (Some result)
  end.

Definition Plan_in (base : Res Expression) (cases : list (Res Expression)) : Res Expression :=
  b ← base; t ← Type_ b;
  values ← (if is_type ENUM t then enum_cases (enum_id t) cases [] else Ok None);
  match values with
  | Some [] => Ok (LiteralExpr (VBool false) false)
  | Some values => checked (EnumInExpr b values)
  | None => in_cases base cases None
  end.

Definition Plan_column_ref (info : InfoMap) (table column : string) : Res Expression :=
  match info !! (table, column) with
  | Some v => Ok (ColumnRefExpr (ci_type v) (ci_nullable v) (ci_child v) (ci_col v))
  | None => Throw "std::out_of_range"
  end.

Definition plain_op (op : PBinaryOp) : BinaryOp :=
  match op with
  | PAND => OpAND | POR => OpOR | PEQ => OpEQ | PNEQ => OpNEQ | PLT => OpLT | PLEQ => OpLEQ | PGT => OpGT
  | PGEQ | PLIKE => OpGEQ
  end.

Fixpoint Plan_expr (info : InfoMap) (e : PExpr) : Res Expression :=
  match e with
  | PAggregateExpr kind c => c ← Plan_expr info c; checked (AggregateExpr kind c)
  | PUnaryExpr op c => c ← Plan_expr info c; checked (UnaryArithmeticExpr op c)
  | PBinaryExpr (PEQ as op) l r | PBinaryExpr (PNEQ as op) l r =>
      l ← Plan_expr info l; r ← Plan_expr info r; Plan_equality (plain_op op) l r
  | PBinaryExpr PLIKE l r =>
      match r with
      | PLiteralExpr (LitString m) => Plan_like (Plan_expr info l) m
      | PLiteralExpr _ => Throw "variant does not hold string value."
      | _ => Throw "Non const argument to like"
      end
  | PBinaryExpr op l r =>
      l ← Plan_expr info l; r ← Plan_expr info r; checked (BinaryArithmeticExpr (plain_op op) l r)
  | PCaseExpr _ _ _ => Throw "Unsupported case expression"
  | PColumnRefExpr table column => Plan_column_ref info table column
  | PInExpr base cases => Plan_in (Plan_expr info base) (Plan_expr info <$> cases)
  | PLiteralExpr l => Ok (Plan_literal l)
  end.
End Plan_expr.

(** ** Statements *)

(** [GetReferencedChildren] into a set of child numbers. *)
Fixpoint ReferencedTables (e : Expression) : gset Z :=
  match e with
  | ColumnRefExpr _ _ child _ => {[ child ]}
  | LiteralExpr _ _ | VirtualColumnRefExpr _ _ _ => ∅
  | UnaryArithmeticExpr _ c | RegexpMatchingExpr c _ | IntToFloatConversionExpr c | ExtractExpr c
  | EnumInExpr c _ | AggregateExpr _ c => ReferencedTables c
  | BinaryArithmeticExpr _ l r => ReferencedTables l ∪ ReferencedTables r
  | CaseExpr c l r => ReferencedTables c ∪ ReferencedTables l ∪ ReferencedTables r
  end.

(** The conjuncts by table, and the ones that do not read exactly one. *)
Fixpoint split_preds (es : list Expression) (unary : list (list Expression)) (join_preds : list Expression)
    : Res (list (list Expression) * list Expression) :=
  match es with
  | [] => Ok (unary, join_preds)
  | e :: es =>
      match elements (ReferencedTables e) with
      | [i] => preds ← vec_at unary i; unary ← vec_set unary i (preds ++ [e]); split_preds es unary join_preds
      | _ => split_preds es unary (join_preds ++ [e])
      end
  end.

(** The conjunction of the predicates of a table, built from the last one. *)
Fixpoint and_chain (preds : list Expression) : Res Expression :=
  match preds with
  | [] => UB
  | [e] => Ok e
  | e :: preds => filter ← and_chain preds; checked (BinaryArithmeticExpr OpAND e filter)
  end.

Definition to_child_zero (e : Expression) : Expression :=
  RewriteColumnReferences (set_to_map (fun ref => (ref, (0, ref.2))) (GetReferencedChildren e)) e.

(** A scan with a filter if there are predicates. *)
Definition plan_input (scan : Operator) (preds : list Expression) : Res Operator :=
  match preds with
  | [] => Ok scan
  | _ =>
      filter ← and_chain preds;
      schema ← AddPassthroughColumns OperatorSchema_new (Schema scan) 0;
      Ok (SelectOperator schema scan (to_child_zero filter))
  end.
Fixpoint plan_inputs (scans : list Operator) (unary : list (list Expression)) : Res (list Operator) :=
  match scans, unary with
  | scan :: scans, preds :: unary => op ← plan_input scan preds; ops ← plan_inputs scans unary; Ok (op :: ops)
  | _, _ => Ok []
  end.

(** The position of every column in the rows of the join. *)
Fixpoint number_columns (i : Z) (n : nat) (j output_col_idx : Z) (m : gmap (Z * Z) Z) : gmap (Z * Z) Z :=
  match n with
  | O => m
  | S n => number_columns i n (j + 1) (output_col_idx + 1) (<[(i, j) := output_col_idx]> m)
  end.
Fixpoint number_tables (tables : list Operator) (i output_col_idx : Z) (m : gmap (Z * Z) Z) : gmap (Z * Z) Z :=
  match tables with
  | [] => m
  | t :: tables =>
      let n := length (columns (Schema t)) in
      number_tables tables (i + 1) (output_col_idx + Z.of_nat n) (number_columns i n 0 output_col_idx m)
  end.

Fixpoint join_schema (tables : list Operator) (child_idx : Z) (schema : OperatorSchema) : Res OperatorSchema :=
  match tables with
  | [] => Ok schema
  | t :: tables => schema ← AddPassthroughColumns schema (Schema t) child_idx; join_schema tables (child_idx + 1) schema
  end.

Definition plan_join (inputs : list Operator) (join_preds : list Expression) : Res Operator :=
  match inputs with
  | [op] => Ok op
  | _ => schema ← join_schema inputs 0 OperatorSchema_new; Ok (SkinnerJoinOperator schema inputs join_preds)
  end.

(** Every column is now a column of the join; [at] throws if one has no position. *)
Definition renumber (m : gmap (Z * Z) Z) (v : ColumnInfo) : ColumnInfo :=
  MkInfo 0 (default 0 (m !! (ci_child v, ci_col v))) (ci_type v) (ci_nullable v).
Definition rewrite_info (m : gmap (Z * Z) Z) (info : InfoMap) : Res InfoMap :=
  if decide (map_Forall (fun _ v => is_Some (m !! (ci_child v, ci_col v))) info)
  then Ok (renumber m <$> info) else Throw "std::out_of_range".

Section Plan_statement.
Context (enum_value : Z -> list Z -> Z) (db : gmap string Table).

(** The aggregates; an expression that is none becomes a null pointer. *)
Fixpoint plan_selects (info : InfoMap) (selects : list PExpr) (col_idx : Z) (schema : OperatorSchema)
    (aggs : list (AggregateType * Expression)) : Res (OperatorSchema * list (AggregateType * Expression)) :=
  match selects with
  | [] => Ok (schema, aggs)
  | select :: selects =>
      agg ← Plan_expr enum_value info select;
      t ← Type_ agg;
      let schema := AddDerivedColumn schema (pretty col_idx) (VirtualColumnRefExpr t (Nullable agg) col_idx) in
      match agg with
      | AggregateExpr kind c => plan_selects info selects (col_idx + 1) schema (aggs ++ [(kind, c)])
      | _ => UB
      end
  end.

Definition Plan_select (info : InfoMap) (stmt : SelectStatement) : Res (Operator * InfoMap) :=
  '(base_tables, info) ← Plan_table db info (From_ stmt) 0;
  where_ ← match Where stmt with Some w => Ok w | None => UB end;
  e ← Plan_expr enum_value info where_;
  '(unary_preds_per_table, join_preds) ← split_preds (Decompose e) (replicate (length base_tables) []) [];
  input_tables ← plan_inputs base_tables unary_preds_per_table;
  let rewritten_child_col_idx := number_tables input_tables 0 0 ∅ in
  result ← plan_join input_tables join_preds;
  info ← rewrite_info rewritten_child_col_idx info;
  '(schema, aggs) ← plan_selects info (Selects stmt) 0 OperatorSchema_new [];
  Ok (OutputOperator (AggregateOperator schema result aggs), info).

Definition Plan_statement (info : InfoMap) (stmt : SelectStatement) : Res (Operator * InfoMap) :=
  '(result, info) ← Plan_select info stmt;
  result ← EarlyProjection result;
  Ok (AdaptiveScanSelect result, info).
End Plan_statement.
