(* ===== verification/PlannerSound.v ===== *)
(** * The plans of the planner

    The plan that [Planner] of src/plan/planner.cc returns for a statement computes the
    aggregates of the select list over the combinations of table rows that the planned
    WHERE condition accepts; WhereMeaning.v relates this to the meaning of the parse
    tree.  What the planned [LIKE] patterns accept. *)
From stdpp Require Import gmap strings pretty.
From S2P Require Import Prelude ProgramBuilder SqlValue Struct Aggregator Expression Vector RowBuffer HashTable Joins Plan EarlyProjection Planner.
#[local] Open Scope Z_scope.

(** ** Schemas *)

(** Consecutive columns of one child, from [i] on. *)
Fixpoint passes (ci i : Z) (es : list Expression) : Prop :=
  match es with
  | [] => True
  | e :: es => (exists t n, e = ColumnRefExpr t n ci i) /\ passes ci (i + 1) es
  end.

Definition typed (e : Expression) : Prop := exists t, Type_ e = Ok t.

Lemma passes_typed ci es : forall i, passes ci i es -> Forall typed es.
Proof.
  induction es as [|e es IH]; intros i Hp; [constructor|]. destruct Hp as [(t & n & ->) Hp].
  constructor; [by exists t|by eapply IH].
Qed.

Lemma passes_refs ci es ref : forall i, passes ci i es -> (exists e, e ∈ es /\ ref ∈ GetReferencedChildren e) ->
  ref.1 = ci /\ i <= ref.2 < i + vec_size es.
Proof.
  unfold vec_size. induction es as [|e es IH]; intros i Hp (x & Hx & Hr); [by apply not_elem_of_nil in Hx|].
  destruct Hp as [(t & n & ->) Hp]. apply elem_of_cons in Hx as [->|Hx].
  - cbn in Hr. apply elem_of_singleton in Hr as ->. cbn. lia.
  - destruct (IH (i + 1) Hp) as [? ?]; [by exists x|]. cbn [length]. split; [done|lia].
Qed.

Lemma passes_values enum_key like rs ci r es : vec_at rs ci = Ok r -> forall i, passes ci (Z.of_nat i) es ->
  (i + length es = length r)%nat -> column_values enum_key like (MkEnv rs []) es = drop i r.
Proof.
  intros Hr. induction es as [|e es IH]; intros i Hp Hl; cbn [length] in Hl.
  { cbn. by rewrite drop_ge by lia. }
  destruct Hp as [(t & n & ->) Hp]. destruct (lookup_lt_is_Some_2 r i) as [v Hv]; [lia|].
  rewrite (drop_S _ _ _ Hv). unfold column_values. rewrite fmap_cons. f_equal.
  - cbn [Compute_ env_children]. rewrite Hr. cbn [mbind Res_bind]. by rewrite (vec_at_nat _ _ _ Hv).
  - apply IH; [|lia]. by replace (Z.of_nat (S i)) with (Z.of_nat i + 1) by lia.
Qed.

Lemma exprs_add s name e : exprs (AddDerivedColumn s name e) = exprs s ++ [e].
Proof. unfold exprs, AddDerivedColumn. cbn [columns]. by rewrite fmap_app. Qed.

Lemma passthrough_from_ok child ci : Forall typed (col_expr <$> child) -> forall s i,
  exists s' es, passthrough_from s child ci i = Ok s' /\ exprs s' = exprs s ++ es /\ passes ci i es /\ length es = length child.
Proof.
  induction child as [|c child IH]; intros Ht s i; cbn [passthrough_from].
  { exists s, []. by rewrite app_nil_r. }
  rewrite fmap_cons in Ht. apply list.Forall_cons in Ht as [[t Ht] Hts]. rewrite Ht. cbn [mbind Res_bind].
  destruct (IH Hts (AddDerivedColumn s (col_name c) (ColumnRefExpr t (Nullable (col_expr c)) ci i)) (i + 1))
    as (s' & es & -> & He & Hp & Hl).
  eexists s', (_ :: es). split; [done|]. rewrite He, exprs_add, <- (assoc_L (++)). cbn [app length].
  split_and!; [done| |by rewrite Hl]. cbn [passes]. by eauto.
Qed.

Lemma passthrough_ok s child ci : Forall typed (exprs child) ->
  exists s' es, AddPassthroughColumns s child ci = Ok s' /\ exprs s' = exprs s ++ es /\ passes ci 0 es /\
    length es = length (columns child).
Proof. intros. by apply passthrough_from_ok. Qed.

(** ** Scans *)
Definition scan_of (t : Table) : Operator := ScanOperator (AddGeneratedColumns OperatorSchema_new t) t.

Lemma generated_columns cols s : 
  let s' := foldl (fun s c => AddDerivedColumn s (cc_name c) (ColumnRefExpr (cc_type c) (cc_nullable c) 0 (vec_size (columns s)))) s cols in
  col_name <$> columns s' = (col_name <$> columns s) ++ (cc_name <$> cols) /\
  (passes 0 0 (exprs s) -> passes 0 0 (exprs s')).
Proof.
  revert s. induction cols as [|c cols IH]; intros s; cbn [foldl]; [by rewrite app_nil_r|]. cbn zeta in IH |- *.
  destruct (IH (AddDerivedColumn s (cc_name c) (ColumnRefExpr (cc_type c) (cc_nullable c) 0 (vec_size (columns s))))) as [-> H].
  split; [cbn [columns AddDerivedColumn]; by rewrite fmap_app, <- (assoc_L (++))|].
  intros Hp. apply H. rewrite exprs_add. clear -Hp.
  assert (forall i es, passes 0 i es -> passes 0 i (es ++ [ColumnRefExpr (cc_type c) (cc_nullable c) 0 (i + vec_size es)])) as G.
  { intros i es. revert i. unfold vec_size. induction es as [|e es IH]; intros i Hp'; cbn [app passes length].
    - rewrite Z.add_0_r. split; [by eauto|done].
    - destruct Hp' as [? Hp']. split; [done|]. replace (i + Z.of_nat (S (length es))) with (i + 1 + Z.of_nat (length es)) by lia.
      by apply IH. }
  specialize (G 0 (exprs s) Hp). by rewrite Z.add_0_l, (ltac:(unfold vec_size, exprs; by rewrite length_fmap) : vec_size (exprs s) = vec_size (columns s)) in G.
Qed.

Lemma scan_columns t : length (columns (Schema (scan_of t))) = length (table_columns t).
Proof.
  destruct (generated_columns (table_columns t) OperatorSchema_new) as [H _]. apply (f_equal length) in H.
  by rewrite length_app, !length_fmap in H.
Qed.
Lemma scan_passes t : passes 0 0 (exprs (Schema (scan_of t))).
Proof. by apply (generated_columns (table_columns t) OperatorSchema_new). Qed.

(** A stored table: the columns have different names and every row has all of them. *)
Definition table_ok (table_rows : Table -> list row) (t : Table) : Prop :=
  NoDup (cc_name <$> table_columns t) /\ Forall (fun r : row => length r = length (table_columns t)) (table_rows t).

Lemma find_name cols i c : NoDup (cc_name <$> cols) -> cols !! i = Some c ->
  list_find (fun d => cc_name d = cc_name c) cols = Some (i, c).
Proof.
  intros Hn Hc. apply list_find_Some. split_and!; [done|done|]. intros j d Hd Hj Heq.
  assert (j = i) as ->; [|lia]. eapply NoDup_lookup; [exact Hn| |]; rewrite list_lookup_fmap; [by rewrite Hd|by rewrite Hc, Heq].
Qed.

Lemma scan_rows enum_key like table_rows t : table_ok table_rows t ->
  denote enum_key like table_rows (scan_of t) = table_rows t.
Proof.
  intros [Hn Hl]. unfold scan_of. cbn [denote]. rewrite <- (list_fmap_id (table_rows t)) at 2.
  apply list_fmap_ext. intros k r Hr. unfold scan_row.
  destruct (generated_columns (table_columns t) OperatorSchema_new) as [H _].
  change (foldl _ _ _) with (AddGeneratedColumns OperatorSchema_new t) in H. cbn [columns OperatorSchema_new fmap list_fmap app] in H.
  change ((fun c => scan_value t r (col_name c)) <$> columns (AddGeneratedColumns OperatorSchema_new t))
    with ((scan_value t r ∘ col_name) <$> columns (AddGeneratedColumns OperatorSchema_new t)).
  rewrite list_fmap_compose, H. clear H. apply list_eq. intros i. rewrite !list_lookup_fmap.
  assert (length r = length (table_columns t)) as El by (eapply (list.Forall_forall _ _) in Hl; [exact Hl|by eapply list_elem_of_lookup_2]).
  destruct (table_columns t !! i) as [c|] eqn:Hc.
  - cbn. unfold scan_value. rewrite (find_name _ _ _ Hn Hc). cbn.
    destruct (lookup_lt_is_Some_2 r i) as [v ->]; [|done]. rewrite El. by eapply lookup_lt_Some.
  - apply lookup_ge_None in Hc. cbn. symmetry. apply lookup_ge_None. lia.
Qed.

(** ** Predicates *)
Lemma referenced_tables e i : i ∈ ReferencedTables e <-> exists j, (i, j) ∈ GetReferencedChildren e.
Proof. induction e; cbn [ReferencedTables GetReferencedChildren]; set_solver. Qed.

(** What is left of the conjuncts after some were distributed. *)
Definition split_inv (Q : Expression -> Prop) (unary : list (list Expression)) (join_preds : list Expression) : Prop :=
  (forall i preds, unary !! i = Some preds -> Forall (fun e => Q e /\ ReferencedTables e = {[ Z.of_nat i ]}) preds) /\
  Forall (fun e => Q e /\ base.size (ReferencedTables e) <> 1%nat) join_preds.

Lemma mjoin_cons {A} (l : list A) ll : mjoin (l :: ll) = l ++ mjoin ll.
Proof. done. Qed.

Lemma forallb_join {A} (f : A -> bool) (ll : list (list A)) i l x : ll !! i = Some l ->
  forallb f (mjoin (<[i := l ++ [x]]> ll)) = forallb f (mjoin ll) && f x.
Proof.
  revert i. induction ll as [|l' ll IH]; intros i Hi; [done|]. destruct i as [|i]; cbn in Hi.
  - injection Hi as ->. change (<[0%nat := l ++ [x]]> (l :: ll)) with ((l ++ [x]) :: ll). rewrite !mjoin_cons, !forallb_app. cbn.
    by destruct (forallb f l), (f x), (forallb f (mjoin ll)).
  - change (<[S i := l ++ [x]]> (l' :: ll)) with (l' :: <[i := l ++ [x]]> ll). rewrite !mjoin_cons, !forallb_app, (IH i Hi).
    apply andb_assoc.
Qed.

Lemma split_preds_ok Q es : forall unary join_preds, split_inv Q unary join_preds ->
  Forall (fun e => Q e /\ forall i, i ∈ ReferencedTables e -> 0 <= i < vec_size unary) es ->
  exists u j, split_preds es unary join_preds = Ok (u, j) /\ length u = length unary /\ split_inv Q u j /\
    (forall f, forallb f (mjoin u) && forallb f j = forallb f (mjoin unary) && forallb f join_preds && forallb f es).
Proof.
  induction es as [|e es IH]; intros unary jp [Hu Hj] Hes; cbn [split_preds].
  { exists unary, jp. split_and!; [done|done|done|]. intros f. by rewrite andb_true_r. }
  apply list.Forall_cons in Hes as [[HQ Hr] Hes].
  destruct (decide (base.size (ReferencedTables e) = 1%nat)) as [Hs|Hs].
  - apply size_1_elem_of in Hs as [i Ei]. fold_leibniz. rewrite Ei, elements_singleton.
    destruct (Hr i) as [H0 H1]; [set_solver|]. destruct (lookup_lt_is_Some_2 unary (Z.to_nat i)) as [preds Hp]; [unfold vec_size in H1; lia|].
    assert (vec_at unary i = Ok preds) as -> by (by apply vec_at_Ok). cbn [mbind Res_bind].
    rewrite (vec_set_lookup _ _ _ _ H0 Hp). cbn [mbind Res_bind].
    destruct (IH (<[Z.to_nat i := preds ++ [e]]> unary) jp) as (u & j & H & Hl & Hi & Hf).
    { split; [|done]. intros k ps Hk. destruct (decide (k = Z.to_nat i)) as [->|Hne].
      - rewrite list_lookup_insert_eq in Hk by (by eapply lookup_lt_Some). injection Hk as <-.
        apply List.Forall_app. split; [by apply Hu|]. constructor; [|constructor]. split; [done|]. by rewrite Z2Nat.id.
      - rewrite list_lookup_insert_ne in Hk by done. by apply Hu. }
    { unfold vec_size in *. by rewrite length_insert. }
    exists u, j. rewrite length_insert in Hl. split_and!; [done..|]. intros f. rewrite Hf, (forallb_join f _ _ _ e Hp). cbn [forallb].
    by destruct (forallb f (mjoin unary)), (f e), (forallb f jp), (forallb f es).
  - destruct (IH unary (jp ++ [e])) as (u & j & H & Hl & Hi & Hf).
    { split; [done|]. apply List.Forall_app. split; [done|]. by repeat constructor. }
    { done. }
    exists u, j. split_and!; [|done|done|].
    + destruct (elements (ReferencedTables e)) as [|x [|]] eqn:E; [done| |done].
      exfalso. apply Hs. unfold base.size, set_size. cbn. by rewrite E.
    + intros f. rewrite Hf, forallb_app. cbn [forallb]. by destruct (forallb f (mjoin unary)), (f e), (forallb f jp), (forallb f es).
Qed.

(** A conjunction accepts what all of its parts accept. *)
Definition is_boolean (e : Expression) : Prop := Type_ e = Ok Boolean.

Section Filters.
Context (enum_key : Z -> Z -> list Z) (like : list Z -> list Z -> bool).

Lemma and_chain_ok preds : preds <> [] -> Forall is_boolean preds ->
  exists e, and_chain preds = Ok e /\ is_boolean e /\ GetReferencedChildren e = ⋃ (GetReferencedChildren <$> preds) /\
    (forallb no_virtual preds = true -> no_virtual e = true) /\
    (forall env, accepted enum_key like env e = all_accepted enum_key like env preds).
Proof.
  induction preds as [|p preds IH]; intros Hne Hb; [done|]. apply list.Forall_cons in Hb as [Hp Hb].
  destruct preds as [|q preds].
  { exists p. cbn. split_and!; [done|done|set_solver| |]; [|intros env]; by rewrite andb_true_r. }
  destruct (IH ltac:(done) Hb) as (e & He & Ht & Hr & Hn & Ha). cbn [and_chain]. cbn [and_chain] in He. rewrite He. cbn [mbind Res_bind].
  exists (BinaryArithmeticExpr OpAND p e). unfold checked, is_boolean in *. cbn [Type_]. rewrite Hp, Ht. split_and!; [done|done| | |].
  - cbn [GetReferencedChildren]. rewrite Hr. set_solver.
  - cbn [forallb no_virtual]. intros [H1 H2]%andb_true_iff. by rewrite H1, Hn.
  - intros env. by rewrite accepted_and, Ha.
Qed.

Lemma to_child_zero_rw e ref : ref ∈ GetReferencedChildren e ->
  (set_to_map (fun ref => (ref, (0, ref.2))) (GetReferencedChildren e) : gmap (Z * Z) (Z * Z)) !! ref = Some (0, ref.2).
Proof. intros Hr. apply lookup_set_to_map; [|by exists ref]. intros y y' _ _. by cbn. Qed.

Lemma to_child_zero_compute e rs i r : (forall ref, ref ∈ GetReferencedChildren e -> ref.1 = i) -> vec_at rs i = Ok r ->
  Compute_ enum_key like (row_env r) (to_child_zero e) = Compute_ enum_key like (MkEnv rs []) e.
Proof.
  intros Hi Hr. apply compute_rewrite; [done|]. intros ref Href. rewrite to_child_zero_rw by done. cbn [default from_option id].
  unfold read_ref. cbn [fst snd env_children row_env]. by rewrite (Hi ref Href), Hr.
Qed.
End Filters.

(** References after a rewriting. *)
Lemma rewrite_refs_image rw e ref : ref ∈ GetReferencedChildren (RewriteColumnReferences rw e) ->
  exists ref', ref' ∈ GetReferencedChildren e /\ ref = default ref' (rw !! ref').
Proof.
  induction e; cbn [GetReferencedChildren RewriteColumnReferences]; try (by set_solver).
  intros Hr. exists (child_idx, column_idx). split; [by apply elem_of_singleton|].
  destruct (rw !! (child_idx, column_idx)) as [[c j]|]; cbn in Hr; by apply elem_of_singleton in Hr.
Qed.
Lemma rewrite_no_virtual rw e : no_virtual (RewriteColumnReferences rw e) = no_virtual e.
Proof.
  induction e; cbn [no_virtual RewriteColumnReferences]; try congruence.
  by destruct (rw !! _) as [[]|].
Qed.
Lemma rewrite_type rw e : Type_ (RewriteColumnReferences rw e) = Type_ e.
Proof.
  induction e; cbn [Type_ RewriteColumnReferences]; rewrite ?IHe, ?IHe1, ?IHe2, ?IHe3; try done.
  by destruct (rw !! _) as [[]|].
Qed.
Lemma rewrite_nullable rw e : Nullable (RewriteColumnReferences rw e) = Nullable e.
Proof.
  induction e; cbn [Nullable RewriteColumnReferences]; rewrite ?IHe, ?IHe1, ?IHe2, ?IHe3; try done.
  by destruct (rw !! _) as [[]|].
Qed.

Lemma to_child_zero_refs e ref : ref ∈ GetReferencedChildren (to_child_zero e) ->
  exists i, (i, ref.2) ∈ GetReferencedChildren e /\ ref.1 = 0.
Proof.
  intros (ref' & Hr & ->)%rewrite_refs_image. rewrite to_child_zero_rw by done. cbn. exists ref'.1. by destruct ref'.
Qed.

(** ** Inputs of the join *)

(** A reference to a column of one of the tables. *)
Definition valid_ref (tables : list Table) (ref : Z * Z) : Prop :=
  exists t, vec_at tables ref.1 = Ok t /\ 0 <= ref.2 < vec_size (table_columns t).
Definition valid_expr (tables : list Table) (e : Expression) : Prop :=
  no_virtual e = true /\ forall ref, ref ∈ GetReferencedChildren e -> valid_ref tables ref.

(** The plan of one table. *)
Definition input_ok (op : Operator) (t : Table) : Prop :=
  length (columns (Schema op)) = length (table_columns t) /\ passes 0 0 (exprs (Schema op)) /\
  plan_wf (Schema op) op /\ select_wf op.

Lemma passes_reads es i : passes 0 i es -> Forall scan_reads es.
Proof.
  revert i. induction es as [|e es IH]; intros i Hp; [constructor|]. destruct Hp as [(t & n & ->) Hp].
  constructor; [|by eapply IH]. split; [done|]. cbn. set_solver.
Qed.

Lemma bind_ext_elem {X B} (g h : X -> list B) (l : list X) : (forall x, x ∈ l -> g x = h x) -> l ≫= g = l ≫= h.
Proof.
  induction l as [|x l IH]; intros H; [done|]. rewrite !bind_cons, (H x) by (by left). f_equal. apply IH. intros. apply H. by right.
Qed.

Section Inputs.
Context (enum_key : Z -> Z -> list Z) (like : list Z -> list Z -> bool) (table_rows : Table -> list row).
#[local] Abbreviation denote := (denote enum_key like table_rows).
#[local] Abbreviation accepted := (accepted enum_key like).
#[local] Abbreviation all_accepted := (all_accepted enum_key like).

(** What the filter of a table accepts. *)
Definition input_filter (preds : list Expression) (r : row) : bool :=
  match preds with
  | [] => true
  | _ => match and_chain preds with Ok f => accepted (row_env r) (to_child_zero f) | _ => false end
  end.

Lemma scan_of_ok t : input_ok (scan_of t) t.
Proof. split_and!; [apply scan_columns|apply scan_passes|done|done]. Qed.

Lemma vec_at_single {A} (x : A) i : i = 0 -> vec_at [x] i = Ok x.
Proof. by intros ->. Qed.

Lemma plan_input_ok tables t i preds : tables !! i = Some t -> table_ok table_rows t ->
  Forall (fun e => (is_boolean e /\ valid_expr tables e) /\ ReferencedTables e = {[ Z.of_nat i ]}) preds ->
  exists op, plan_input (scan_of t) preds = Ok op /\ input_ok op t /\
    denote op = (r ← table_rows t; if input_filter preds r then [r] else []) /\
    forall rs r, rs !! i = Some r -> input_filter preds r = all_accepted (MkEnv rs []) preds.
Proof.
  intros Ht Hok Hp. destruct preds as [|p preds'].
  { exists (scan_of t). split_and!; [done|apply scan_of_ok| |done]. rewrite scan_rows by done. cbn [input_filter].
    clear. induction (table_rows t) as [|x l IH]; [done|]. rewrite bind_cons. cbn [app]. by f_equal. }
  set (preds := p :: preds') in *. destruct (and_chain_ok enum_key like preds) as (e & He & Hb & Hr & Hn & Ha); [done| |].
  { eapply list.Forall_impl; [exact Hp|]. by intros ? [[? _] _]. }
  assert (forall ref, ref ∈ GetReferencedChildren e -> ref.1 = Z.of_nat i /\ valid_ref tables ref) as Href.
  { intros ref. rewrite Hr, elem_of_union_fmap. intros (x & Hx & Hrx). eapply list.Forall_forall in Hp as [[_ [_ Hv]] E]; [|exact Hx].
    split; [|by apply Hv]. apply (elem_of_singleton (C := gset Z)). rewrite <- E. apply referenced_tables. exists ref.2. by destruct ref. }
  destruct (passthrough_ok OperatorSchema_new (Schema (scan_of t)) 0) as (s & es & Hs & Hes & Hpass & Hl).
  { eapply passes_typed, scan_passes. }
  cbn [exprs OperatorSchema_new columns fmap list_fmap app] in Hes. rewrite scan_columns in Hl.
  assert (length (columns s) = length (table_columns t)) as Hls by (rewrite <- Hl, <- Hes; unfold exprs; by rewrite length_fmap).
  exists (SelectOperator s (scan_of t) (to_child_zero e)). split; [|split_and!].
  - unfold plan_input, preds. fold preds. rewrite He. cbn [mbind Res_bind]. by rewrite Hs.
  - split_and!; [done|cbn [Schema]; by rewrite Hes| |].
    + cbn [plan_wf Schema]. split; [|done]. intros ref Hrf. exists (scan_of t).
      assert (ref.1 = 0 /\ 0 <= ref.2 < vec_size (table_columns t)) as [Hr0 Hr1].
      { apply elem_of_union in Hrf as [H|H].
        - apply schema_refs_elem in H. rewrite Hes in H. apply (passes_refs 0 es ref 0 Hpass) in H. unfold vec_size in *. by rewrite Hl in H.
        - apply to_child_zero_refs in H as (k & Hk & ->). split; [done|]. destruct (Href _ Hk) as [Hk' (t' & Ht' & Hj)].
          cbn in Hk', Ht', Hj. subst k. rewrite (vec_at_nat _ _ _ Ht) in Ht'. by injection Ht' as <-. }
      split; [by apply vec_at_single|]. unfold vec_size in *. by rewrite scan_columns.
    + split.
      * split; [|intros ref Hrf; by apply to_child_zero_refs in Hrf as (? & _ & ?)]. unfold to_child_zero. rewrite rewrite_no_virtual. apply Hn.
        apply forallb_forall. intros x Hx%list_elem_of_In. eapply list.Forall_forall in Hp as [[_ [? _]] _]; done.
      * rewrite Hes. by eapply passes_reads.
  - cbn [Plan.denote]. fold (scan_of t). change (Plan.denote enum_key like table_rows (ScanOperator _ t)) with (denote (scan_of t)).
    rewrite scan_rows by done. apply bind_ext_elem. intros r Hrow. unfold input_filter, preds. fold preds. rewrite He.
    assert (output enum_key like (row_env r) s = r) as ->; [|done]. unfold output. rewrite Hes. change (row_env r) with (MkEnv [r] []).
    rewrite (passes_values enum_key like [r] 0 r es) with (i := 0%nat); [done|done|done|]. rewrite Hl. cbn. symmetry.
    destruct Hok as [_ Hrl]. by eapply list.Forall_forall in Hrl.
  - intros rs r Hrs. unfold input_filter, preds. fold preds. rewrite He. rewrite <- Ha. unfold Plan.accepted.
    rewrite (to_child_zero_compute enum_key like e rs (Z.of_nat i) r); [done|by apply Href|by apply vec_at_nat].
Qed.

(** All inputs; [i] tables come before them. *)
Lemma plan_inputs_ok all tables unary : forall i, drop i all = tables -> length unary = length tables ->
  Forall (table_ok table_rows) tables ->
  (forall k preds, unary !! k = Some preds ->
    Forall (fun e => (is_boolean e /\ valid_expr all e) /\ ReferencedTables e = {[ Z.of_nat (i + k) ]}) preds) ->
  exists ops, plan_inputs (scan_of <$> tables) unary = Ok ops /\ Forall2 input_ok ops tables /\
    denote <$> ops = zip_with (fun P (l : list row) => r ← l; if P r : bool then [r] else []) (input_filter <$> unary) (table_rows <$> tables) /\
    forall rs, length rs = length all ->
      forallb id (zip_with (fun P r => P r) (input_filter <$> unary) (drop i rs)) = all_accepted (MkEnv rs []) (mjoin unary).
Proof.
  revert unary. induction tables as [|t tables IH]; intros [|preds unary] i Hd Hl Hok Hu; try done.
  { exists []. split_and!; [done|constructor|done|done]. }
  apply list.Forall_cons in Hok as [Ht Hok].
  assert (all !! i = Some t) as Hi. { rewrite <- (Nat.add_0_r i), <- lookup_drop, Hd. done. }
  destruct (plan_input_ok all t i preds Hi Ht) as (op & Hop & Hin & Hden & Hflt).
  { specialize (Hu 0%nat preds eq_refl). by rewrite Nat.add_0_r in Hu. }
  destruct (IH unary (S i)) as (ops & Hops & Hins & Hdens & Hflts); [| |done| |].
  { rewrite (drop_S _ _ _ Hi) in Hd. by injection Hd. }
  { by injection Hl. }
  { intros k ps Hk. replace (S i + k)%nat with (i + S k)%nat by lia. by apply Hu. }
  exists (op :: ops). rewrite !fmap_cons. cbn [plan_inputs]. rewrite Hop. cbn [mbind Res_bind]. rewrite Hops. split_and!; [done|by constructor| |].
  - cbn [zip_with]. by rewrite Hden, Hdens.
  - intros rs Hrs. destruct (lookup_lt_is_Some_2 rs i) as [r Hr]; [rewrite Hrs; by eapply lookup_lt_Some|].
    rewrite (drop_S _ _ _ Hr). cbn [zip_with forallb id]. rewrite mjoin_cons. unfold Plan.all_accepted. rewrite forallb_app.
    f_equal; [by apply Hflt|by apply Hflts].
Qed.

(** A product of filtered inputs is a filtered product. *)
Lemma bind_if {A B} (c : bool) (l : list A) (g : A -> list B) : (if c then l else []) ≫= g = if c then l ≫= g else [].
Proof. by destruct c. Qed.

Lemma bind_bind {X Y B} (l : list X) (f : X -> list Y) (g : Y -> list B) : (l ≫= f) ≫= g = (x ← l; f x ≫= g).
Proof. induction l as [|x l IH]; [done|]. by rewrite !bind_cons, bind_app, IH. Qed.

Lemma bind_one {X B} (x : X) (g : X -> list B) : [x] ≫= g = g x.
Proof. rewrite bind_cons. apply app_nil_r. Qed.

Lemma bind_nil {X B} (l : list X) : (l ≫= fun _ => [] : list B) = [].
Proof. induction l as [|x l IH]; [done|]. by rewrite bind_cons, IH. Qed.

Lemma product_filter (Ps : list (row -> bool)) : forall ls, length Ps = length ls ->
  product (zip_with (fun P (l : list row) => r ← l; if P r : bool then [r] else []) Ps ls) =
  rs ← product ls; if forallb id (zip_with (fun P r => P r) Ps rs) then [rs] else [].
Proof.
  induction Ps as [|P Ps IH]; intros [|l ls] Hl; try done. cbn [zip_with product]. rewrite (IH ls) by (by injection Hl).
  rewrite !bind_bind. apply bind_ext_elem. intros r _. rewrite bind_if, bind_bind, bind_one.
  destruct (P r) eqn:E.
  - rewrite bind_bind. apply bind_ext_elem. intros rs _. rewrite bind_if, !bind_one. cbn [zip_with forallb id]. by rewrite E.
  - symmetry. etransitivity; [|apply (bind_nil (product ls))]. apply bind_ext_elem. intros rs _. rewrite bind_one.
    cbn [zip_with forallb id]. by rewrite E.
Qed.

(** The schema of a join lists the columns of its inputs. *)
Lemma join_schema_ok ops tables : Forall2 input_ok ops tables -> forall (k : nat) s,
  exists s' es, join_schema ops (Z.of_nat k) s = Ok s' /\ exprs s' = exprs s ++ es /\
    (forall pre rs, length pre = k -> Forall2 (fun (r : row) t => length r = length (table_columns t)) rs tables ->
      column_values enum_key like (MkEnv (pre ++ rs) []) es = mjoin rs) /\
    (forall ref e, e ∈ es -> ref ∈ GetReferencedChildren e ->
      exists (i : nat) t, ref.1 = Z.of_nat (k + i) /\ tables !! i = Some t /\ 0 <= ref.2 < vec_size (table_columns t)).
Proof.
  induction 1 as [|op t ops tables (Hl & Hp & _) _ IH]; intros k s; cbn [join_schema].
  { exists s, []. rewrite app_nil_r. split_and!; [done|done| |]; [|by intros ? ? ?%not_elem_of_nil].
    intros pre rs _ H. by inversion H. }
  destruct (passthrough_ok s (Schema op) (Z.of_nat k)) as (s1 & es1 & -> & He1 & Hp1 & Hl1); [by eapply passes_typed|].
  cbn [mbind Res_bind]. replace (Z.of_nat k + 1) with (Z.of_nat (S k)) by lia.
  destruct (IH (S k) s1) as (s' & es & Hs & He & Hv & Hr). exists s', (es1 ++ es). rewrite He, He1, (assoc_L (++)). split_and!; [done|done| |].
  - intros pre rs Hpre Hf. inversion Hf as [|r t' rs' ts Hlr Hrs]; subst. rewrite mjoin_cons.
    unfold column_values. rewrite fmap_app. fold (column_values enum_key like (MkEnv (pre ++ r :: rs') []) es1).
    fold (column_values enum_key like (MkEnv (pre ++ r :: rs') []) es). f_equal.
    + rewrite (passes_values enum_key like (pre ++ r :: rs') (Z.of_nat (length pre)) r es1) with (i := 0%nat); [done| |done|lia].
      apply vec_at_nat. by rewrite list_lookup_middle.
    + specialize (Hv (pre ++ [r]) rs' ltac:(rewrite length_app; cbn; lia) Hrs). by rewrite <- (assoc_L (++)) in Hv.
  - intros ref e [He'|He']%elem_of_app Href.
    + destruct (passes_refs (Z.of_nat k) es1 ref 0 Hp1) as [H1 H2]; [by exists e|]. exists 0%nat, t. rewrite Nat.add_0_r.
      unfold vec_size in *. split_and!; [done|done|lia|lia].
    + destruct (Hr ref e He' Href) as (i & t' & -> & Ht' & ?). exists (S i), t'. split_and!; [lia|done|lia|lia].
Qed.

(** *** The join of all tables *)
Definition fitting (rs : list row) (tables : list Table) : Prop :=
  Forall2 (fun r t => length r = length (table_columns t)) rs tables.

Lemma product_fitting tables rs : Forall (table_ok table_rows) tables -> rs ∈ product (table_rows <$> tables) -> fitting rs tables.
Proof.
  intros Hok. revert rs. induction Hok as [|t tables [_ Ht] _ IH]; intros rs Hrs; cbn in Hrs.
  { apply list_elem_of_singleton in Hrs as ->. constructor. }
  apply list_elem_of_bind in Hrs as (r & Hrs & Hr). apply list_elem_of_bind in Hrs as (rs' & Hrs & Hrs').
  apply list_elem_of_singleton in Hrs as ->. constructor; [by eapply list.Forall_forall in Ht|by apply IH].
Qed.

(** The rows of the tables that a condition accepts, together. *)
Definition matches (tables : list Table) (e : Expression) : list (list row) :=
  rs ← product (table_rows <$> tables); if accepted (MkEnv rs []) e then [rs] else [].

Definition join_ok (op : Operator) (tables : list Table) : Prop :=
  length (columns (Schema op)) = length (tables ≫= table_columns) /\ plan_wf (Schema op) op /\ select_wf op.

Lemma plan_wf_forall ops : Forall (fun c => plan_wf (Schema c) c) ops ->
  (fix all (cs : list Operator) : Prop := match cs with [] => True | c :: cs => plan_wf (Schema c) c /\ all cs end) ops.
Proof. by induction 1. Qed.
Lemma select_wf_forall ops : Forall select_wf ops ->
  (fix all (cs : list Operator) : Prop := match cs with [] => True | c :: cs => select_wf c /\ all cs end) ops.
Proof. by induction 1. Qed.

Lemma bind_length {A B} (f : A -> list B) (l : list A) rs : Forall2 (fun (r : row) x => length r = length (f x)) rs l ->
  length (mjoin rs) = length (l ≫= f).
Proof. induction 1 as [|r x rs l H _ IH]; [done|]. by rewrite mjoin_cons, bind_cons, !length_app, H, IH. Qed.

Definition dummy_rows (tables : list Table) : list row := (fun t => replicate (length (table_columns t)) absent) <$> tables.
Lemma dummy_fitting tables : fitting (dummy_rows tables) tables.
Proof. unfold dummy_rows. induction tables as [|t tables IH]; constructor; [by rewrite length_replicate|exact IH]. Qed.

(** The general join. *)
Lemma skinner_plan_ok ops tables join_preds : Forall2 input_ok ops tables -> Forall (valid_expr tables) join_preds ->
  exists s, join_schema ops 0 OperatorSchema_new = Ok s /\ join_ok (SkinnerJoinOperator s ops join_preds) tables /\
    forall rs, fitting rs tables -> output enum_key like (MkEnv rs []) s = mjoin rs.
Proof.
  intros Hin Hj. destruct (join_schema_ok ops tables Hin 0 OperatorSchema_new) as (s & es & Hs & He & Hv & Hr).
  cbn [exprs OperatorSchema_new columns fmap list_fmap app] in He. exists s. split; [done|].
  assert (forall rs, fitting rs tables -> output enum_key like (MkEnv rs []) s = mjoin rs) as Hout.
  { intros rs Hf. unfold output. rewrite He. by apply (Hv [] rs). }
  split; [split_and!|done].
  - cbn [Schema]. pose proof (Hout _ (dummy_fitting tables)) as H. apply (f_equal length) in H.
    rewrite (bind_length table_columns tables _ (dummy_fitting tables)) in H. unfold output, column_values, exprs in H. by rewrite !length_fmap in H.
  - cbn [plan_wf Schema]. split.
    + intros ref Href. assert (exists (i : nat) t, ref.1 = Z.of_nat i /\ tables !! i = Some t /\ 0 <= ref.2 < vec_size (table_columns t))
        as (i & t & Hi & Ht & Hc).
      { unfold join_refs in Href. apply elem_of_union in Href as [H|H].
        - apply schema_refs_elem in H as (e & H1 & H2). rewrite He in H1. destruct (Hr ref e H1 H2) as (i & t & ? & ? & ?). by exists i, t.
        - apply elem_of_union_fmap in H as (e & H1 & H2). eapply list.Forall_forall in Hj as [_ Hv']; [|exact H1].
          destruct (Hv' ref H2) as (t & [H0 Ht]%vec_at_Ok & ?). exists (Z.to_nat ref.1), t. by rewrite Z2Nat.id. }
      destruct (Forall2_lookup_r _ _ _ _ _ Hin Ht) as (op & Hop & Hlen & _). exists op. rewrite Hi. split; [by apply vec_at_nat|].
      unfold vec_size in *. by rewrite Hlen.
    + apply plan_wf_forall. clear -Hin. induction Hin as [|op t ops ts (_ & _ & H & _) _ IH]; by constructor.
  - cbn [select_wf]. apply select_wf_forall. clear -Hin. induction Hin as [|op t ops ts (_ & _ & _ & H) _ IH]; by constructor.
Qed.

Lemma decompose_accepted env e : all_accepted env (Decompose e) = accepted env e.
Proof. apply accepted_decompose. Qed.

Lemma forallb_replicate {A} (f : A -> bool) n : forallb f (mjoin (replicate n [])) = true.
Proof. induction n as [|n IH]; [done|]. exact IH. Qed.

Lemma skinner_denote s (ops : list Operator) j (u : list (list Expression)) (tables : list Table) e : denote <$> ops =
    zip_with (fun P (l : list row) => r ← l; if P r : bool then [r] else []) (input_filter <$> u) (table_rows <$> tables) ->
  length u = length tables -> Forall (table_ok table_rows) tables ->
  (forall rs, fitting rs tables -> output enum_key like (MkEnv rs []) s = mjoin rs) ->
  (forall rs, fitting rs tables -> forallb id (zip_with (fun P r => P r) (input_filter <$> u) rs) &&
    all_accepted (MkEnv rs []) j = accepted (MkEnv rs []) e) ->
  denote (SkinnerJoinOperator s ops j) = (rs ← matches tables e; [mjoin rs : row]).
Proof.
  intros Hden Hl Hok Hout Hacc. cbn [Plan.denote]. rewrite Hden, product_filter by (by rewrite !length_fmap). unfold matches.
  rewrite !bind_bind. apply bind_ext_elem. intros rs Hrs%product_fitting; [|done]. rewrite !bind_if, !bind_one, <- (Hacc rs Hrs), (Hout rs Hrs).
  by destruct (forallb id _), (all_accepted _ j).
Qed.

Lemma single_denote op P t e : denote op = (r ← table_rows t; if P r : bool then [r] else []) -> table_ok table_rows t ->
  (forall rs, fitting rs [t] -> forallb id (zip_with (fun P r => P r) [P] rs) = accepted (MkEnv rs []) e) ->
  denote op = (rs ← matches [t] e; [mjoin rs : row]).
Proof.
  intros Hd [_ Hok] Hacc. rewrite Hd. unfold matches. rewrite bind_bind. cbn [fmap list_fmap product]. rewrite bind_bind.
  apply bind_ext_elem. intros r Hr. rewrite !bind_one, <- Hacc.
  - cbn [zip_with forallb id]. rewrite andb_true_r. destruct (P r); [|done]. rewrite bind_one. cbn. by rewrite app_nil_r.
  - constructor; [|constructor]. by eapply list.Forall_forall in Hok.
Qed.

(** With one table every conjunct that reads a column belongs to it. *)
Lemma single_no_join (t : Table) (j : list Expression) :
  Forall (fun x => valid_expr [t] x /\ ReferencedTables x <> ∅ /\ base.size (ReferencedTables x) <> 1%nat) j -> j = [].
Proof.
  destruct 1 as [|x j ([_ Hv] & Hne & Hs) _]; [done|]. exfalso. apply Hs.
  assert (ReferencedTables x = {[ 0 ]}) as ->; [|apply size_singleton].
  apply set_choose_L in Hne as [i Hi]. assert (forall k, k ∈ ReferencedTables x -> k = 0) as H0; [|rewrite (H0 i Hi) in Hi; set_solver].
  intros k (c & Hc)%referenced_tables. destruct (Hv _ Hc) as (? & [? Hk%lookup_lt_Some]%vec_at_Ok & _). cbn in *. lia.
Qed.

(** The conjuncts are split between the inputs and the join, and nothing is lost. *)
Lemma join_plan_ok (tables : list Table) e : Forall (table_ok table_rows) tables ->
  Forall (fun x => is_boolean x /\ valid_expr tables x) (Decompose e) ->
  (length tables = 1%nat -> Forall (fun x => ReferencedTables x <> ∅) (Decompose e)) ->
  exists (u : list (list Expression)) (j : list Expression) (inputs : list Operator) (op : Operator), split_preds (Decompose e) (replicate (length tables) []) [] = Ok (u, j) /\
    plan_inputs (scan_of <$> tables) u = Ok inputs /\ plan_join inputs j = Ok op /\ Forall2 input_ok inputs tables /\
    join_ok op tables /\ denote op = (rs ← matches tables e; [mjoin rs : row]).
Proof.
  intros Hok Hes Hone. set (Q := fun x => (is_boolean x /\ valid_expr tables x) /\ (length tables = 1%nat -> ReferencedTables x <> ∅)).
  destruct (split_preds_ok Q (Decompose e) (replicate (length tables) []) []) as (u & j & Hsp & Hlu & [Hu Hj] & Hf).
  { split; [|constructor]. intros i preds [-> _]%lookup_replicate. constructor. }
  { apply list.Forall_forall. intros x Hx. eapply list.Forall_forall in Hes as Hx'; [|exact Hx]. split.
    - split; [done|]. intros H1. specialize (Hone H1). by eapply list.Forall_forall in Hone.
    - intros i Hi. apply referenced_tables in Hi as (k & Hk). destruct Hx' as [_ [_ Hv]].
      destruct (Hv _ Hk) as (t & [H0 Ht%lookup_lt_Some]%vec_at_Ok & _). cbn in *. unfold vec_size. rewrite length_replicate. lia. }
  rewrite length_replicate in Hlu.
  destruct (plan_inputs_ok tables tables u 0 eq_refl Hlu Hok) as (inputs & Hpi & Hin & Hden & Hflt).
  { intros k preds Hk. eapply list.Forall_impl; [by apply Hu|]. cbn. by intros x [[? _] ?]. }
  assert (forall rs, fitting rs tables -> forallb id (zip_with (fun P r => P r) (input_filter <$> u) rs) &&
    all_accepted (MkEnv rs []) j = accepted (MkEnv rs []) e) as Hacc.
  { intros rs Hrs. apply list.Forall2_length in Hrs as Hl. specialize (Hflt rs Hl). rewrite drop_0 in Hflt. rewrite Hflt.
    rewrite <- decompose_accepted. unfold Plan.all_accepted. by rewrite Hf, forallb_replicate. }
  exists u, j, inputs. rewrite Hsp, Hpi. cut (exists op, plan_join inputs j = Ok op /\ join_ok op tables /\ denote op = (rs ← matches tables e; [mjoin rs : row])).
  { intros (op & ? & ? & ?). by exists op. }
  assert (Forall (valid_expr tables) j) as Hjv by (eapply list.Forall_impl; [exact Hj|]; by intros x [[[_ ?] _] _]).
  destruct inputs as [|op [|op' inputs]].
  - inversion Hin; subst. destruct (skinner_plan_ok [] [] j Hin Hjv) as (s & Hs & Hjo & Hout). eexists. cbn [plan_join]. rewrite Hs.
    split; [done|]. split; [done|]. by apply (skinner_denote s [] j u []).
  - inversion Hin as [|? t ? ts Hop Hts]; subst. inversion Hts; subst. exists op. split; [done|].
    assert (j = []) as -> by (eapply single_no_join, list.Forall_impl; [exact Hj|]; intros x [[[_ ?] H1] ?]; by split_and!; [|apply H1|]).
    destruct Hop as (Hlen & _ & Hwf & Hsel). split; [split_and!; [|done|done]; rewrite Hlen; cbn; by rewrite app_nil_r|].
    destruct u as [|preds [|]]; try done. apply list.Forall_cons in Hok as [Hok _]. apply (single_denote op (input_filter preds)); [by injection Hden|done|].
    intros rs Hrs. rewrite <- (Hacc rs Hrs). cbn [Plan.all_accepted forallb]. unfold Plan.all_accepted. cbn [forallb]. by rewrite andb_true_r.
  - destruct (skinner_plan_ok _ tables j Hin Hjv) as (s & Hs & Hjo & Hout). eexists. cbn [plan_join]. rewrite Hs.
    split; [done|]. split; [done|]. by apply (skinner_denote s _ j u tables).
Qed.
End Inputs.

(** ** Columns of the join *)
Lemma number_columns_other i n : forall j out m ref, (ref.1 <> i \/ ref.2 < j) -> number_columns i n j out m !! ref = m !! ref.
Proof.
  induction n as [|n IH]; intros j out m ref H; cbn [number_columns]; [done|].
  rewrite IH by (destruct H; [by left|right; lia]). rewrite lookup_insert_ne; [done|]. intros <-. cbn in H. destruct H; [done|lia].
Qed.
Lemma number_columns_at i n : forall (k : nat) j out m, (k < n)%nat ->
  number_columns i n j out m !! (i, j + Z.of_nat k) = Some (out + Z.of_nat k).
Proof.
  induction n as [|n IH]; intros k j out m Hk; [lia|]. cbn [number_columns]. destruct k as [|k].
  - rewrite Z.add_0_r, number_columns_other by (right; cbn; lia). by rewrite lookup_insert_eq, Z.add_0_r.
  - replace (j + Z.of_nat (S k)) with (j + 1 + Z.of_nat k) by lia. rewrite IH by lia. f_equal. lia.
Qed.
Lemma number_tables_other ops : forall i out m ref, ref.1 < i -> number_tables ops i out m !! ref = m !! ref.
Proof.
  induction ops as [|op ops IH]; intros i out m ref H; cbn [number_tables]; [done|].
  rewrite IH by lia. apply number_columns_other. left. lia.
Qed.

(** The column of a table is found at its position in the row of the join. *)
Lemma number_tables_at (ops : list Operator) (rs : list row) :
  Forall2 (fun op (r : row) => length r = length (columns (Schema op))) ops rs ->
  forall (k : Z) out m (i j : nat) r, rs !! i = Some r -> (j < length r)%nat ->
  exists p : nat, number_tables ops k out m !! (k + Z.of_nat i, Z.of_nat j) = Some (out + Z.of_nat p) /\ mjoin rs !! p = r !! j.
Proof.
  induction 1 as [|op r' ops rs Hl _ IH]; intros k out m i j r Hi Hj; [done|]. cbn [number_tables]. destruct i as [|i].
  - injection Hi as ->. exists j. rewrite Z.add_0_r, number_tables_other by (cbn; lia). rewrite <- Hl.
    rewrite <- (Z.add_0_l (Z.of_nat j)) at 1. rewrite number_columns_at by done. split; [done|]. rewrite mjoin_cons. by apply lookup_app_l.
  - cbn in Hi. replace (k + Z.of_nat (S i)) with (k + 1 + Z.of_nat i) by lia.
    destruct (IH (k + 1) (out + Z.of_nat (length (columns (Schema op)))) (number_columns k (length (columns (Schema op))) 0 out m) i j r Hi Hj)
      as (p & -> & Hp).
    exists (length r' + p)%nat. split; [f_equal; lia|]. rewrite mjoin_cons, lookup_app_r by lia. rewrite <- Hp. f_equal. lia.
Qed.

Definition valid_info (tables : list Table) (info : InfoMap) : Prop :=
  map_Forall (fun _ v => valid_ref tables (ci_child v, ci_col v)) info.

Section Renumber.
Context (tables : list Table) (ops : list Operator).
Context (Hops : Forall2 (fun op t => length (columns (Schema op)) = length (table_columns t)) ops tables).
#[local] Abbreviation m := (number_tables ops 0 0 ∅).

(** A reference to a table column as a reference to a column of the join. *)
Definition flat_rewrite : gmap (Z * Z) (Z * Z) := (fun out => (0, out)) <$> m.

Lemma flat_row rs ref : fitting rs tables -> valid_ref tables ref ->
  exists p : nat, m !! ref = Some (Z.of_nat p) /\ (p < length (tables ≫= table_columns))%nat /\
    read_ref (row_env (mjoin rs)) (0, Z.of_nat p) = read_ref (MkEnv rs []) ref.
Proof using Hops.
  intros Hf (t & [H0 Ht]%vec_at_Ok & Hc). destruct ref as [a b]. cbn [fst snd] in *. unfold vec_size in Hc.
  destruct (Forall2_lookup_r _ _ _ _ _ Hf Ht) as (r & Hr & Hlr).
  destruct (number_tables_at ops rs) with (k := 0) (out := 0) (m := (∅ : gmap (Z * Z) Z)) (i := Z.to_nat a) (j := Z.to_nat b) (r := r)
    as (p & Hm & Hp); [|done|lia|].
  { clear -Hops Hf. revert ops Hops. unfold fitting in Hf. induction Hf as [|r t rs ts H _ IH]; intros ops Hops; inversion Hops; subst; constructor.
    - congruence.
    - by apply IH. }
  rewrite !Z.add_0_l, !Z2Nat.id in Hm by lia. exists p. split; [done|].
  destruct (lookup_lt_is_Some_2 r (Z.to_nat b)) as [v Hv]; [lia|]. rewrite Hv in Hp. split.
  - rewrite <- (bind_length table_columns tables rs Hf). by eapply lookup_lt_Some.
  - unfold read_ref. cbn [fst snd env_children row_env]. rewrite (ltac:(by apply vec_at_Ok) : vec_at rs a = Ok r). cbn [mbind Res_bind].
    change (vec_at [mjoin rs] 0) with (Ok (mjoin rs : row)). cbn [mbind Res_bind]. rewrite (vec_at_nat _ _ _ Hp). symmetry. apply vec_at_Ok. split; [lia|done].
Qed.

Lemma rewrite_info_ok info : valid_info tables info -> rewrite_info m info = Ok (renumber m <$> info).
Proof using Hops.
  intros Hv. unfold rewrite_info. rewrite decide_True; [done|]. intros key v Hk. specialize (Hv key v Hk).
  destruct (flat_row (dummy_rows tables) _ (dummy_fitting tables) Hv) as (p & -> & _). by eexists.
Qed.

Lemma flat_compute enum_key like rs e : fitting rs tables -> valid_expr tables e ->
  Compute_ enum_key like (row_env (mjoin rs)) (RewriteColumnReferences flat_rewrite e) = Compute_ enum_key like (MkEnv rs []) e.
Proof using Hops.
  intros Hf [_ Hv]. apply compute_rewrite; [done|]. intros ref Hr. destruct (flat_row rs ref Hf (Hv ref Hr)) as (p & Hm & _ & Hp).
  unfold flat_rewrite. rewrite lookup_fmap, Hm. exact Hp.
Qed.

Lemma flat_refs e ref : valid_expr tables e -> ref ∈ GetReferencedChildren (RewriteColumnReferences flat_rewrite e) ->
  ref.1 = 0 /\ 0 <= ref.2 < Z.of_nat (length (tables ≫= table_columns)).
Proof using Hops.
  intros [_ Hv] (ref' & Hr & ->)%rewrite_refs_image. destruct (flat_row (dummy_rows tables) ref' (dummy_fitting tables) (Hv ref' Hr)) as (p & Hm & Hl & _).
  unfold flat_rewrite. rewrite lookup_fmap, Hm. cbn. lia.
Qed.
End Renumber.

(** ** Planning expressions *)
Lemma PExpr_induction (P : PExpr -> Prop) :
  (forall k c, P c -> P (PAggregateExpr k c)) -> (forall op c, P c -> P (PUnaryExpr op c)) ->
  (forall op l r, P l -> P r -> P (PBinaryExpr op l r)) -> (forall c l r, P (PCaseExpr c l r)) ->
  (forall t c, P (PColumnRefExpr t c)) -> (forall b cs, P b -> Forall P cs -> P (PInExpr b cs)) ->
  (forall l, P (PLiteralExpr l)) -> forall e, P e.
Proof.
  intros H1 H2 H3 H4 H5 H6 H7. fix IH 1. intros [k c|op c|op l r|c l r|t c|b cs|l].
  - apply H1, IH.
  - apply H2, IH.
  - apply H3; apply IH.
  - apply H4.
  - apply H5.
  - apply H6; [apply IH|]. induction cs as [|c cs IHcs]; constructor; [apply IH|exact IHcs].
  - apply H7.
Qed.

Section Natural.
Context (enum_value : Z -> list Z -> Z) (rw : gmap (Z * Z) (Z * Z)).
#[local] Abbreviation rewrite := (RewriteColumnReferences rw).

(** The second computation returns the rewritten expression of the first. *)
Definition tracks (a b : Res Expression) : Prop := forall e, a = Ok e -> b = Ok (rewrite e).

Lemma checked_tracks e : tracks (checked e) (checked (rewrite e)).
Proof. intros x Hx. unfold checked in *. rewrite rewrite_type. ok_inv. subst. by destruct (Type_ x). Qed.

Lemma rewrite_literal e v n : rewrite e = LiteralExpr v n -> e = LiteralExpr v n.
Proof. by destruct e; cbn; try done; destruct (rw !! _) as [[]|]. Qed.

Lemma equality_tracks op l r : tracks (Plan_equality enum_value op l r) (Plan_equality enum_value op (rewrite l) (rewrite r)).
Proof.
  intros e He. unfold Plan_equality in *. rewrite rewrite_type. apply bind_Ok in He as (t & -> & He). cbn [mbind Res_bind].
  destruct (is_type ENUM t); [|exact (checked_tracks _ _ He)].
  destruct r as [v n|ty n child col| | | | | | | | | ]; try (exact (checked_tracks _ _ He)).
  - apply bind_Ok in He as (s & Hs & He). cbn [RewriteColumnReferences]. rewrite Hs. exact (checked_tracks _ _ He).
  - pose proof (checked_tracks _ _ He) as H. cbn [RewriteColumnReferences] in H |- *. by destruct (rw !! _) as [[]|].
Qed.

Lemma enum_cases_tracks id cases cases' : Forall2 tracks cases cases' -> forall vs o,
  enum_cases enum_value id cases vs = Ok o -> enum_cases enum_value id cases' vs = Ok o.
Proof.
  induction 1 as [|c c' cases cases' Hc _ IH]; intros vs o Ho; [done|]. cbn [enum_cases] in *.
  apply bind_Ok in Ho as (r & Hr & Ho). rewrite (Hc r Hr). cbn [mbind Res_bind].
  destruct r as [v n|ty n child col| | | | | | | | | ]; try (exact Ho).
  - cbn [RewriteColumnReferences]. apply bind_Ok in Ho as (s & Hs & Ho). rewrite Hs. cbn [mbind Res_bind]. by apply IH.
  - cbn [RewriteColumnReferences]. by destruct (rw !! _) as [[]|].
Qed.

Lemma in_cases_tracks l l' cases cases' : tracks l l' -> Forall2 tracks cases cases' -> forall res,
  tracks (in_cases enum_value l cases res) (in_cases enum_value l' cases' (rewrite <$> res)).
Proof.
  intros Hl. induction 1 as [|c c' cases cases' Hc _ IH]; intros res e He; cbn [in_cases] in *.
  { destruct res as [x|]; [|done]. cbn. by injection He as ->. }
  apply bind_Ok in He as (lv & Hlv & He). rewrite (Hl lv Hlv). cbn [mbind Res_bind].
  apply bind_Ok in He as (r & Hr & He). rewrite (Hc r Hr). cbn [mbind Res_bind].
  apply bind_Ok in He as (q & Hq & He). rewrite (equality_tracks _ _ _ _ Hq). cbn [mbind Res_bind].
  destruct res as [x|]; cbn [fmap option_fmap option_map].
  - apply bind_Ok in He as (o & Ho & He). pose proof (checked_tracks _ _ Ho) as H. cbn [RewriteColumnReferences] in H. rewrite H.
    cbn [mbind Res_bind]. rewrite <- (Hl lv Hlv). exact (IH (Some o) e He).
  - cbn [mbind Res_bind]. rewrite <- (Hl lv Hlv). exact (IH (Some q) e He).
Qed.

Lemma Plan_in_tracks b b' cases cases' : tracks b b' -> Forall2 tracks cases cases' ->
  tracks (Plan_in enum_value b cases) (Plan_in enum_value b' cases').
Proof.
  intros Hb Hc e He. unfold Plan_in in *. apply bind_Ok in He as (x & Hx & He). rewrite (Hb x Hx). cbn [mbind Res_bind].
  rewrite rewrite_type. apply bind_Ok in He as (t & -> & He). cbn [mbind Res_bind]. apply bind_Ok in He as (vs & Hvs & He).
  assert ((if is_type ENUM t then enum_cases enum_value (enum_id t) cases' [] else Ok None) = Ok vs) as ->.
  { destruct (is_type ENUM t); [|done]. by apply (enum_cases_tracks _ cases). }
  cbn [mbind Res_bind]. destruct vs as [[|v vs]|].
  - by injection He as <-.
  - exact (checked_tracks _ _ He).
  - rewrite <- (Hb x Hx). exact (in_cases_tracks b b' cases cases' Hb Hc None e He).
Qed.

Lemma Plan_like_tracks l l' pattern : tracks l l' -> tracks (Plan_like l pattern) (Plan_like l' pattern).
Proof.
  intros Hl e He. unfold Plan_like in *. cbn zeta in *.
  repeat case_match; apply bind_Ok in He as (x & Hx & He); rewrite (Hl x Hx); exact (checked_tracks _ _ He).
Qed.

(** Renumbering the columns renumbers the references. *)
Lemma Plan_expr_tracks (info info' : InfoMap) e :
  (forall key v, info !! key = Some v -> exists v', info' !! key = Some v' /\ ci_type v' = ci_type v /\ ci_nullable v' = ci_nullable v /\
    (ci_child v', ci_col v') = default (ci_child v, ci_col v) (rw !! (ci_child v, ci_col v))) ->
  tracks (Plan_expr enum_value info e) (Plan_expr enum_value info' e).
Proof.
  intros Hi. induction e as [k c IH|op c IH|op l r IHl IHr|c l r|t c|b cs IHb IHcs|l] using PExpr_induction;
    intros x Hx; cbn [Plan_expr] in *.
  - apply bind_Ok in Hx as (y & Hy & Hx). rewrite (IH y Hy). exact (checked_tracks _ _ Hx).
  - apply bind_Ok in Hx as (y & Hy & Hx). rewrite (IH y Hy). exact (checked_tracks _ _ Hx).
  - destruct op; try (by apply bind_Ok in Hx as (y & Hy & Hx); apply bind_Ok in Hx as (z & Hz & Hx); rewrite (IHl y Hy); cbn [mbind Res_bind];
      rewrite (IHr z Hz); first [exact (checked_tracks _ _ Hx)|exact (equality_tracks _ _ _ _ Hx)]).
    destruct r as [| | | | | |[]]; try done. by apply (Plan_like_tracks _ _ _ IHl).
  - done.
  - unfold Plan_column_ref in *. destruct (info !! (t, c)) as [v|] eqn:E; [|done]. destruct (Hi _ _ E) as (v' & -> & -> & -> & Hv).
    injection Hx as <-. cbn [RewriteColumnReferences]. destruct (rw !! (ci_child v, ci_col v)) as [[]|]; cbn in Hv; by injection Hv as -> ->.
  - apply (Plan_in_tracks (Plan_expr enum_value info b) _ (Plan_expr enum_value info <$> cs)); [done| |done].
    clear Hx. induction IHcs as [|c cs Hc _ IH]; [constructor|]. rewrite !fmap_cons. by constructor.
  - by injection Hx as <-.
Qed.
End Natural.

(** ** Planned expressions read columns of the tables *)
Section Valid.
Context (enum_value : Z -> list Z -> Z) (tables : list Table).
#[local] Abbreviation valid := (valid_expr tables).

Lemma valid_literal v n : valid (LiteralExpr v n).
Proof. split; [done|]. cbn. set_solver. Qed.
Lemma valid_binary op l r : valid l -> valid r -> valid (BinaryArithmeticExpr op l r).
Proof.
  intros [H1 H2] [H3 H4]. split; [cbn; by rewrite H1, H3|]. cbn [GetReferencedChildren]. intros ref [H|H]%elem_of_union; [by apply H2|by apply H4].
Qed.
#[local] Hint Resolve valid_literal valid_binary : core.

Lemma checked_ok e x : checked e = Ok x -> x = e.
Proof. intros H. unfold checked in H. by ok_inv. Qed.

Lemma equality_valid op l r x : valid l -> valid r -> Plan_equality enum_value op l r = Ok x -> valid x.
Proof.
  intros Hl Hr Hx. unfold Plan_equality in Hx. apply bind_Ok in Hx as (t & _ & Hx).
  destruct (is_type ENUM t); [destruct r|]; [apply bind_Ok in Hx as (s & _ & Hx)|..]; apply checked_ok in Hx as ->; auto.
Qed.

Lemma in_cases_valid (l : Res Expression) cases : (forall x, l = Ok x -> valid x) -> Forall (fun c => forall x, c = Ok x -> valid x) cases ->
  forall res x, (forall y, res = Some y -> valid y) -> in_cases enum_value l cases res = Ok x -> valid x.
Proof.
  intros Hl. induction 1 as [|c cases Hc _ IH]; intros res x Hres Hx; cbn [in_cases] in Hx.
  { destruct res; [injection Hx as <-|done]. auto. }
  apply bind_Ok in Hx as (lv & Hlv & Hx). apply bind_Ok in Hx as (r & Hr & Hx). apply bind_Ok in Hx as (q & Hq & Hx).
  apply bind_Ok in Hx as (o & Ho & Hx). apply equality_valid in Hq; [|auto..].
  apply (IH (Some o) x); [|done]. intros y [= <-]. destruct res as [z|]; [apply checked_ok in Ho as ->; auto|by injection Ho as <-].
Qed.

Lemma Plan_in_valid b cases x : (forall x, b = Ok x -> valid x) -> Forall (fun c => forall x, c = Ok x -> valid x) cases ->
  Plan_in enum_value b cases = Ok x -> valid x.
Proof.
  intros Hb Hc Hx. unfold Plan_in in Hx. apply bind_Ok in Hx as (y & Hy & Hx). apply bind_Ok in Hx as (t & _ & Hx).
  apply bind_Ok in Hx as ([[|v vs]|] & _ & Hx).
  - injection Hx as <-. auto.
  - apply checked_ok in Hx as ->. exact (Hb y Hy).
  - by apply (in_cases_valid b cases Hb Hc None x).
Qed.

Lemma Plan_expr_valid info e x : valid_info tables info -> Plan_expr enum_value info e = Ok x -> valid x.
Proof.
  intros Hi. revert x. induction e as [k c IH|op c IH|op l r IHl IHr|c l r|t c|b cs IHb IHcs|l] using PExpr_induction;
    intros x Hx; cbn [Plan_expr] in Hx.
  - apply bind_Ok in Hx as (y & Hy & ->%checked_ok). exact (IH y Hy).
  - apply bind_Ok in Hx as (y & Hy & ->%checked_ok). exact (IH y Hy).
  - destruct op; try (by apply bind_Ok in Hx as (y & Hy & Hx); apply bind_Ok in Hx as (z & Hz & Hx);
      first [apply checked_ok in Hx as ->|apply equality_valid in Hx]; auto).
    destruct r as [| | | | | |[]]; try done. unfold Plan_like in Hx. cbn zeta in Hx.
    repeat case_match; apply bind_Ok in Hx as (y & Hy & ->%checked_ok); auto; exact (IHl y Hy).
  - done.
  - unfold Plan_column_ref in Hx. destruct (info !! (t, c)) as [v|] eqn:E; [|done]. injection Hx as <-. split; [done|].
    cbn [GetReferencedChildren]. intros ref ->%elem_of_singleton. exact (Hi _ _ E).
  - eapply Plan_in_valid; [exact IHb| |exact Hx]. clear -IHcs. induction IHcs as [|c cs Hc _ IH]; [constructor|]. rewrite fmap_cons. by constructor.
  - injection Hx as <-. apply valid_literal.
Qed.
End Valid.

Lemma decompose_valid tables e x : valid_expr tables e -> x ∈ Decompose e -> valid_expr tables x.
Proof.
  induction e; cbn [Decompose]; intros Hv Hx; try (by apply list_elem_of_singleton in Hx as ->).
  destruct op; try (by apply list_elem_of_singleton in Hx as ->). destruct Hv as [[H1 H2]%andb_true_iff Hr]. cbn in Hr.
  apply elem_of_app in Hx as [Hx|Hx]; [apply IHe1|apply IHe2]; try done; split; try done; intros; apply Hr; set_solver.
Qed.

(** ** FROM *)

(** The tables of a FROM clause, as the parser builds it. *)
Definition from_tables (db : gmap string Table) (t : PTable) : option (list Table) :=
  match t with
  | BaseTable name _ => x ← db !! name; Some [x]
  | CrossProductTable ts => mapM (fun t => match t with BaseTable name _ => db !! name | CrossProductTable _ => None end) ts
  end.

Lemma enter_columns_valid tables alias (i : nat) t : tables !! i = Some t -> forall cols j info, drop j (table_columns t) = cols ->
  valid_info tables info -> valid_info tables (enter_columns info alias (Z.of_nat i) cols (Z.of_nat j)).
Proof.
  intros Ht. induction cols as [|c cols IH]; intros j info Hd Hi; cbn [enter_columns]; [done|].
  assert (table_columns t !! j = Some c) as Hc by (rewrite <- (Nat.add_0_r j), <- lookup_drop, Hd; done).
  replace (Z.of_nat j + 1) with (Z.of_nat (S j)) by lia. apply IH; [rewrite (drop_S _ _ _ Hc) in Hd; by injection Hd|].
  apply map_Forall_insert_2; [|done]. exists t. cbn. split; [by apply vec_at_nat|]. apply lookup_lt_Some in Hc. unfold vec_size. lia.
Qed.

(** The loop over the tables of a cross product. *)
Definition plan_from (db : gmap string Table) :=
  fix go (ts : list PTable) (info : InfoMap) (child_idx : Z) : Res (list Operator * InfoMap) :=
    match ts with
    | [] => Ok ([], info)
    | t :: ts =>
        '(ops, info) ← Plan_table db info t child_idx;
        '(rest, info) ← go ts info (child_idx + 1);
        Ok (ops ++ rest, info)
    end.

Lemma plan_from_ok db all ts : forall (i : nat) info,
  mapM (fun t => match t with BaseTable name _ => db !! name | CrossProductTable _ => None end) ts = Some (drop i all) ->
  valid_info all info ->
  exists info', plan_from db ts info (Z.of_nat i) = Ok (scan_of <$> drop i all, info') /\ valid_info all info'.
Proof.
  induction ts as [|t ts IH]; intros i info Hm Hi; cbn [plan_from].
  { injection Hm as <-. by exists info. }
  apply mapM_Some in Hm. inversion Hm as [|? x ? xs Hx Hxs Et E]; subst. destruct t as [name alias|]; [|done].
  assert (all !! i = Some x) as Hxi by (by rewrite <- (Nat.add_0_r i), <- lookup_drop, <- E).
  rewrite (drop_S _ _ _ Hxi) in *. injection E as ->. apply mapM_Some in Hxs.
  cbn [Plan_table]. rewrite Hx. cbn [mbind Res_bind]. replace (Z.of_nat i + 1) with (Z.of_nat (S i)) by lia.
  destruct (IH (S i) (enter_columns info (if String.eqb alias "" then table_name x else alias) (Z.of_nat i) (table_columns x) 0) Hxs)
    as (info' & -> & Hi'); [|by exists info'].
  by apply (enter_columns_valid all _ i x Hxi (table_columns x) 0).
Qed.

Lemma Plan_table_ok db t tables : from_tables db t = Some tables ->
  exists info, Plan_table db ∅ t 0 = Ok (scan_of <$> tables, info) /\ valid_info tables info.
Proof.
  destruct t as [name alias|ts]; cbn [from_tables Plan_table]; intros H.
  - destruct (db !! name) as [x|]; [|done]. injection H as <-. eexists. split; [done|].
    apply (enter_columns_valid [x] _ 0 x eq_refl (table_columns x) 0); [done|apply map_Forall_empty].
  - destruct (plan_from_ok db tables ts 0 ∅) as (info & Hp & Hi); [by rewrite drop_0|apply map_Forall_empty|].
    rewrite drop_0 in Hp. by exists info.
Qed.

(** ** Early projection keeps selections on scans *)
Lemma rewrite_refs_zero refs n : forall i off rw, (forall ref v, rw !! ref = Some v -> v.1 = 0) ->
  forall ref v, rewrite_refs refs 0 n i off rw !! ref = Some v -> v.1 = 0.
Proof.
  induction n as [|n IH]; intros i off rw Hrw; cbn [rewrite_refs]; [done|]. case_decide; apply IH; [|done].
  intros ref v. rewrite lookup_insert_Some. intros [[_ <-]|[_ Hv]]; [done|by eapply Hrw].
Qed.

Lemma scan_reads_rewrite rw e : (forall ref v, rw !! ref = Some v -> v.1 = 0) -> scan_reads e -> scan_reads (RewriteColumnReferences rw e).
Proof.
  intros Hrw [Hn Hr]. split; [by rewrite rewrite_no_virtual|]. intros ref (ref' & Hin & ->)%rewrite_refs_image.
  destruct (rw !! ref') as [v|] eqn:E; cbn; [by eapply Hrw|by apply Hr].
Qed.

Lemma select_wf_schema op s s' : (forall c, c ∈ columns s' -> c ∈ columns s) -> select_wf (with_schema op s) -> select_wf (with_schema op s').
Proof.
  intros Hc. destruct op as [|s0 c e|s0 ss t fs|s0 cs conds|s0 c aggs|c]; cbn [with_schema]; try done.
  destruct c; cbn [select_wf]; try done. intros [He Hs]. split; [done|]. apply list.Forall_forall. intros x Hx.
  eapply list.Forall_forall; [exact Hs|]. unfold exprs in *. apply list_elem_of_fmap in Hx as (c & -> & Hx). apply list_elem_of_fmap. eauto.
Qed.

Definition keeps_wf (op : Operator) : Prop :=
  forall s op', early_projection s op = Ok op' -> select_wf (with_schema op s) -> select_wf op'.

Lemma child_keeps_wf refs ci c s c' : keeps_wf c -> select_wf c ->
  remove_columns refs ci (length (columns (Schema c))) (Schema c) = Ok s -> early_projection s c = Ok c' -> select_wf c'.
Proof.
  intros Hk Hw Hs Hc. apply (Hk s c' Hc). apply (select_wf_schema _ (Schema c)); [|by rewrite with_own_schema].
  destruct (remove_columns_keep refs ci (length (columns (Schema c))) (Schema c) ltac:(lia)) as (s' & Hs' & E). rewrite Hs in Hs'. injection Hs' as <-.
  rewrite drop_ge, app_nil_r, take_ge in E by lia. intros x. rewrite E. apply keep_elem.
Qed.

Lemma select_keeps_wf s0 c e : keeps_wf c -> keeps_wf (SelectOperator s0 c e).
Proof.
  intros Hk s op' Hop Hw. cbn [early_projection with_schema] in *. apply bind_Ok in Hop as (s' & Hs' & Hop). apply bind_Ok in Hop as (c' & Hc' & Hop).
  injection Hop as <-. destruct c as [ss t|s1 c e1|s1 ss t fs|s1 cs conds|s1 c aggs|c].
  { injection Hc' as <-. destruct Hw as [He Hs]. set (rw := rewrite_refs _ _ _ _ _ _).
    assert (forall ref v, rw !! ref = Some v -> v.1 = 0) as Hrw by (apply rewrite_refs_zero; intros ref v; by rewrite lookup_empty).
    split; [by apply scan_reads_rewrite|]. unfold exprs, rewrite_schema. cbn [columns]. rewrite <- list_fmap_compose.
    apply list.Forall_forall. intros x (col & -> & Hcol)%list_elem_of_fmap. apply scan_reads_rewrite; [done|].
    eapply list.Forall_forall; [exact Hs|]. unfold exprs. apply list_elem_of_fmap. eauto. }
  all: cbn [select_wf] in Hw; pose proof (child_keeps_wf _ _ _ _ _ Hk Hw Hs' Hc') as Hc; clear Hs'; cbn [early_projection] in Hc'; try done.
  all: ok_inv; ok_pairs; subst; exact Hc.
Qed.

Lemma project_children_wf refs cs : Forall keeps_wf cs -> forall k rw cs' rw',
  (fix all (cs : list Operator) : Prop := match cs with [] => True | c :: cs => select_wf c /\ all cs end) cs ->
  project_children refs cs k rw = Ok (cs', rw') -> Forall select_wf cs'.
Proof.
  induction 1 as [|c cs Hc _ IH]; intros k rw cs' rw' Hw Hp; cbn [project_children] in Hp.
  { injection Hp as <- _. constructor. }
  destruct Hw as [Hwc Hw]. apply bind_Ok in Hp as (s & Hs & Hp). apply bind_Ok in Hp as (c' & Hc' & Hp).
  apply bind_Ok in Hp as ([cs1 rw1] & Hgo & Hp). injection Hp as <- _. constructor; [by eapply child_keeps_wf|by eapply IH].
Qed.

Lemma early_projection_wf op : keeps_wf op.
Proof.
  induction op as [s t|s c e IH|s ss t fs|s cs conds IH|s c aggs IH|c IH] using Operator_induction.
  - intros s' op' [= <-]. done.
  - by apply select_keeps_wf.
  - done.
  - intros s' op' Hop Hw. cbn [early_projection] in Hop. fold (join_refs s' conds) in Hop.
    match type of Hop with context [?g cs 0 ∅] => change g with (project_children (join_refs s' conds)) in Hop end.
    apply bind_Ok in Hop as ([cs' rw] & Hgo & Hop). injection Hop as <-. cbn [select_wf with_schema] in *. apply select_wf_forall.
    by eapply project_children_wf.
  - intros s' op' Hop Hw. cbn [early_projection with_schema select_wf] in *. apply bind_Ok in Hop as (s1 & Hs & Hop).
    apply bind_Ok in Hop as (c' & Hc & Hop). injection Hop as <-. exact (child_keeps_wf _ _ _ _ _ IH Hw Hs Hc).
  - intros s' op' Hop Hw. cbn [early_projection with_schema select_wf] in *. apply bind_Ok in Hop as (c' & Hc & Hop). injection Hop as <-.
    apply (IH (Schema c) c' Hc). by rewrite with_own_schema.
Qed.

(** ** The select list *)
Fixpoint virtuals (i : Z) (es : list Expression) : Prop :=
  match es with
  | [] => True
  | e :: es => (exists t n, e = VirtualColumnRefExpr t n i) /\ virtuals (i + 1) es
  end.

Lemma virtuals_values enum_key like (r : row) es : forall i : nat, virtuals (Z.of_nat i) es -> (i + length es = length r)%nat ->
  column_values enum_key like (MkEnv [] r) es = drop i r.
Proof.
  induction es as [|e es IH]; intros i Hp Hl; cbn [length] in Hl.
  { cbn. by rewrite drop_ge by lia. }
  destruct Hp as [(t & n & ->) Hp]. destruct (lookup_lt_is_Some_2 r i) as [v Hv]; [lia|].
  rewrite (drop_S _ _ _ Hv). unfold column_values. rewrite fmap_cons. f_equal.
  - cbn [Compute_ env_virtual]. by rewrite (vec_at_nat _ _ _ Hv).
  - apply IH; [|lia]. by replace (Z.of_nat (S i)) with (Z.of_nat i + 1) by lia.
Qed.

(** The value of an aggregate without rows. *)
Definition null_of (e : Expression) : SQLValue := match Type_ e with Ok t => MkSQL (null_value t) true | _ => absent end.
Definition agg_expr (a : AggregateType * Expression) : Expression := AggregateExpr a.1 a.2.

Lemma plan_selects_ok enum_value info rw (selects : list PExpr) (l : list (AggregateType * Expression)) :
  Forall2 (fun p a => Plan_expr enum_value info p = Ok (RewriteColumnReferences rw (agg_expr a)) /\ typed (agg_expr a)) selects l ->
  forall i s aggs, exists s' es,
    plan_selects enum_value info selects i s aggs = Ok (s', aggs ++ ((fun a => (a.1, RewriteColumnReferences rw a.2)) <$> l)) /\
    exprs s' = exprs s ++ es /\ virtuals i es /\ null_of <$> es = (null_of ∘ agg_expr) <$> l.
Proof.
  induction 1 as [|p a selects l [Hp [t Ht]] _ IH]; intros i s aggs; cbn [plan_selects].
  { exists s, []. by rewrite !app_nil_r. }
  rewrite Hp. cbn [mbind Res_bind]. rewrite rewrite_type, Ht. cbn [mbind Res_bind agg_expr RewriteColumnReferences].
  edestruct (IH (i + 1)) as (s' & es & -> & He & Hv & Hn). rewrite exprs_add in He. rewrite <- (assoc_L (++)) in He.
  eexists s', (_ :: es). split_and!.
  - by rewrite fmap_cons, <- (assoc_L (++)).
  - exact He.
  - by split; [eauto|].
  - rewrite !fmap_cons, Hn. f_equal. unfold null_of, compose. by rewrite Ht.
Qed.

Lemma checked_typed e y : checked e = Ok y -> typed y.
Proof. intros Hy. unfold checked in Hy. apply bind_Ok in Hy as (t & Ht & Hy). injection Hy as <-. by exists t. Qed.

Lemma in_cases_typed enum_value l cases : forall res x, (forall y, res = Some y -> typed y) ->
  in_cases enum_value l cases res = Ok x -> typed x.
Proof.
  induction cases as [|c cases IH]; intros res x Hres Hx; cbn [in_cases] in Hx.
  { destruct res; [injection Hx as <-; auto|done]. }
  apply bind_Ok in Hx as (lv & _ & Hx). apply bind_Ok in Hx as (r & _ & Hx). apply bind_Ok in Hx as (q & Hq & Hx). apply bind_Ok in Hx as (o & Ho & Hx).
  apply (IH (Some o) x); [|done]. intros y [= <-]. destruct res as [z|]; [by eapply checked_typed|]. injection Ho as <-.
  unfold Plan_equality in Hq. apply bind_Ok in Hq as (t & _ & Hq). repeat case_match; try (by eapply checked_typed). apply bind_Ok in Hq as (? & _ & Hq). by eapply checked_typed.
Qed.

(** Only a call of an aggregate plans as one, and its constructor has checked the type. *)
Lemma Plan_agg_typed enum_value info p a : Plan_expr enum_value info p = Ok (agg_expr a) -> typed (agg_expr a).
Proof.
  destruct p as [k c|op c|op l r|c l r|t c|b cs|l]; cbn [Plan_expr]; intros Hx; try done.
  - apply bind_Ok in Hx as (y & _ & Hx). by eapply checked_typed.
  - apply bind_Ok in Hx as (y & _ & Hx). by eapply checked_typed.
  - destruct op; try (apply bind_Ok in Hx as (y & _ & Hx); apply bind_Ok in Hx as (z & _ & Hx); first [by eapply checked_typed|idtac]).
    all: try (unfold Plan_equality in Hx; apply bind_Ok in Hx as (t & _ & Hx); repeat case_match;
      [apply bind_Ok in Hx as (? & _ & Hx)|..]; by eapply checked_typed).
    destruct r as [| | | | | |[]]; try done. unfold Plan_like in Hx. cbn zeta in Hx.
    repeat case_match; apply bind_Ok in Hx as (y & _ & Hx); by eapply checked_typed.
  - unfold Plan_column_ref in Hx. by case_match.
  - unfold Plan_in in Hx. apply bind_Ok in Hx as (y & _ & Hx). apply bind_Ok in Hx as (t & _ & Hx). apply bind_Ok in Hx as ([[|v vs]|] & _ & Hx).
    + done.
    + by eapply checked_typed.
    + by eapply (in_cases_typed _ _ _ None).
Qed.

(** ** What a statement means *)
Section Statement.
Context (enum_key : Z -> Z -> list Z) (like : list Z -> list Z -> bool) (table_rows : Table -> list row).
#[local] Abbreviation denote := (denote enum_key like table_rows).
#[local] Abbreviation matches := (matches enum_key like table_rows).

(** The aggregates over the combinations of rows that the condition accepts. *)
Definition query (tables : list Table) (e : Expression) (aggs : list (AggregateType * Expression)) : row :=
  match (fun rs => column_values enum_key like (MkEnv rs []) aggs.*2) <$> matches tables e with
  | [] => (null_of ∘ agg_expr) <$> aggs
  | first :: rest => agg_values enum_key aggs.*1 first rest
  end.

Lemma matches_fitting tables e rs : Forall (table_ok table_rows) tables -> rs ∈ matches tables e -> fitting rs tables.
Proof.
  intros Hok (rs' & Hrs & Hp)%list_elem_of_bind. case_match; [|by apply not_elem_of_nil in Hrs].
  apply list_elem_of_singleton in Hrs as ->. by eapply product_fitting.
Qed.

Lemma bind_pure {A B} (f : A -> B) (l : list A) : (x ← l; [f x]) = f <$> l.
Proof. induction l as [|x l IH]; [done|]. by rewrite bind_cons, IH. Qed.

(** The plan before the rewriting passes. *)
Lemma aggregate_rows tables ops op e s (aggs : list (AggregateType * Expression)) : Forall (table_ok table_rows) tables ->
  Forall2 (fun op t => length (columns (Schema op)) = length (table_columns t)) ops tables ->
  denote op = (rs ← matches tables e; [mjoin rs : row]) -> Forall (fun a => valid_expr tables a.2) aggs ->
  virtuals 0 (exprs s) -> null_of <$> exprs s = (null_of ∘ agg_expr) <$> aggs ->
  denote (AggregateOperator s op ((fun a => (a.1, RewriteColumnReferences (flat_rewrite ops) a.2)) <$> aggs)) = [query tables e aggs].
Proof.
  intros Hok Hops Hd Ha Hv Hn. cbn [Plan.denote]. rewrite Hd, bind_pure. unfold query. rewrite <- !list_fmap_compose.
  change (compose fst _) with (fst : AggregateType * Expression -> AggregateType).
  rewrite (list_fmap_ext _ (fun rs => column_values enum_key like (MkEnv rs []) aggs.*2) (matches tables e)).
  2: { intros i rs Hrs%list_elem_of_lookup_2%matches_fitting; [|done]. unfold compose, column_values. rewrite <- !list_fmap_compose.
    apply list_fmap_ext. intros j a Haj%list_elem_of_lookup_2. unfold compose. cbn [snd]. rewrite (flat_compute tables ops Hops); [done|done|].
    by eapply list.Forall_forall in Ha. }
  destruct (_ <$> matches tables e) as [|first rest]; [f_equal; exact Hn|]. f_equal. unfold output.
  apply (f_equal length) in Hn. rewrite !length_fmap in Hn.
  rewrite (virtuals_values enum_key like (agg_values enum_key aggs.*1 first rest) (exprs s) 0 Hv); [done|].
  unfold agg_values. rewrite length_imap, length_fmap. exact Hn.
Qed.

Context (enum_value : Z -> list Z -> Z) (db : gmap string Table).

(** The select list is planned over the columns of the join. *)
Lemma plan_selects_flat tables inputs info selects (aggs : list (AggregateType * Expression)) :
  Forall2 (fun op t => length (columns (Schema op)) = length (table_columns t)) inputs tables -> valid_info tables info ->
  Forall2 (fun p a => Plan_expr enum_value info p = Ok (agg_expr a)) selects aggs ->
  exists s, plan_selects enum_value (renumber (number_tables inputs 0 0 ∅) <$> info) selects 0 OperatorSchema_new [] =
      Ok (s, (fun a => (a.1, RewriteColumnReferences (flat_rewrite inputs) a.2)) <$> aggs) /\
    virtuals 0 (exprs s) /\ null_of <$> exprs s = (null_of ∘ agg_expr) <$> aggs.
Proof.
  intros Hops Hvi Hsel.
  destruct (plan_selects_ok enum_value (renumber (number_tables inputs 0 0 ∅) <$> info) (flat_rewrite inputs) selects aggs) with
    (i := 0) (s := OperatorSchema_new) (aggs := @nil (AggregateType * Expression)) as (s & es & Hps & Hes & Hvirt & Hnull).
  { eapply list.Forall2_impl; [exact Hsel|]. intros p a Hp. split; [|exact (Plan_agg_typed _ _ _ _ Hp)].
    apply (Plan_expr_tracks enum_value (flat_rewrite inputs) info); [|done]. intros key v Hv. rewrite lookup_fmap, Hv. eexists. split_and!; [done..|].
    destruct (flat_row tables inputs Hops (dummy_rows tables) _ (dummy_fitting tables) (Hvi key v Hv)) as (q & Hq & _).
    unfold flat_rewrite. rewrite lookup_fmap. cbn [renumber ci_child ci_col]. by rewrite Hq. }
  cbn [exprs OperatorSchema_new columns fmap list_fmap app] in Hes. rewrite <- Hes in Hvirt, Hnull. by exists s.
Qed.

(** The statement before the rewriting passes. *)
Lemma Plan_select_ok stmt tables info w e (aggs : list (AggregateType * Expression)) :
  from_tables db (From_ stmt) = Some tables -> Forall (table_ok table_rows) tables ->
  snd <$> Plan_table db ∅ (From_ stmt) 0 = Ok info ->
  Where stmt = Some w -> Plan_expr enum_value info w = Ok e -> Forall is_boolean (Decompose e) ->
  (length tables = 1%nat -> Forall (fun x => ReferencedTables x <> ∅) (Decompose e)) ->
  Forall2 (fun p a => Plan_expr enum_value info p = Ok (agg_expr a)) (Selects stmt) aggs ->
  exists op info', Plan_select enum_value db ∅ stmt = Ok (OutputOperator op, info') /\
    plan_wf (Schema op) op /\ select_wf op /\ denote op = [query tables e aggs].
Proof.
  intros Hfrom Hok Hinfo Hw He Hb Hone Hsel. destruct (Plan_table_ok db _ tables Hfrom) as (info0 & Hpt & Hvi).
  rewrite Hpt in Hinfo. cbn in Hinfo. injection Hinfo as ->. pose proof (Plan_expr_valid enum_value tables info w e Hvi He) as [Hnv Hrefs].
  destruct (join_plan_ok enum_key like table_rows tables e Hok) as (u & j & inputs & op & Hsp & Hpi & Hpj & Hin & (Hlen & Hwf & Hswf) & Hden);
    [|done|].
  { apply list.Forall_forall. intros x Hx. split; [by eapply list.Forall_forall in Hb|]. by eapply decompose_valid. }
  assert (Forall2 (fun op t => length (columns (Schema op)) = length (table_columns t)) inputs tables) as Hops.
  { eapply list.Forall2_impl; [exact Hin|]. by intros ? ? [? _]. }
  assert (Forall (fun a => valid_expr tables a.2) aggs) as Hva.
  { clear -Hsel Hvi. induction Hsel as [|p a ps aggs Hp _ IH]; constructor; [|done]. exact (Plan_expr_valid enum_value tables info p _ Hvi Hp). }
  destruct (plan_selects_flat tables inputs info (Selects stmt) aggs Hops Hvi Hsel) as (s & Hps & Hvirt & Hnull).
  eexists (AggregateOperator s op _), _. split_and!.
  - unfold Plan_select. rewrite Hpt. cbn [mbind Res_bind]. rewrite Hw. cbn [mbind Res_bind]. rewrite He. cbn [mbind Res_bind].
    rewrite length_fmap, Hsp. cbn [mbind Res_bind]. rewrite Hpi. cbn [mbind Res_bind]. rewrite Hpj. cbn [mbind Res_bind].
    rewrite (rewrite_info_ok tables inputs Hops info Hvi). cbn [mbind Res_bind]. rewrite Hps. done.
  - cbn [plan_wf app]. split; [|done]. intros ref (a & Ha & Hr)%elem_of_union_fmap. apply list_elem_of_fmap in Ha as (a' & -> & Ha).
    eapply list.Forall_forall in Hva; [|exact Ha]. destruct (flat_refs tables inputs Hops _ _ Hva Hr) as [-> Hr2].
    exists op. split; [done|]. unfold vec_size. by rewrite Hlen.
  - done.
  - by apply (aggregate_rows tables inputs op e s aggs).
Qed.
End Statement.

(** The plan against the planned condition: for a statement whose FROM clause names stored tables,
    whose WHERE condition and select list can be planned, with boolean conjuncts (each of
    which reads a column if there is only one table), the planner returns a plan, and
    the plan - predicates pushed to the scans or kept as join conditions, columns
    renumbered, unread columns removed, filters merged with scans - computes exactly
    the aggregates over the combinations of table rows that the condition accepts. *)
Lemma planner_sound enum_key like table_rows enum_value db stmt tables info w e (aggs : list (AggregateType * Expression)) :
  from_tables db (From_ stmt) = Some tables -> Forall (table_ok table_rows) tables ->
  snd <$> Plan_table db ∅ (From_ stmt) 0 = Ok info ->
  Where stmt = Some w -> Plan_expr enum_value info w = Ok e -> Forall is_boolean (Decompose e) ->
  (length tables = 1%nat -> Forall (fun x => ReferencedTables x <> ∅) (Decompose e)) ->
  Forall2 (fun p a => Plan_expr enum_value info p = Ok (agg_expr a)) (Selects stmt) aggs ->
  exists op info', Plan_statement enum_value db ∅ stmt = Ok (op, info') /\
    denote enum_key like table_rows op = [query enum_key like table_rows tables e aggs].
Proof.
  intros. destruct (Plan_select_ok enum_key like table_rows enum_value db stmt tables info w e aggs)
    as (op & info' & Hp & Hwf & Hswf & Hd); [done..|].
  unfold Plan_statement. rewrite Hp. cbn [mbind Res_bind]. unfold EarlyProjection. cbn [early_projection Schema].
  destruct (early_projection_projects enum_key like table_rows op (Schema op) Hwf) as (op1 & Ho & Hd1).
  rewrite Ho. cbn [mbind Res_bind]. eexists _, _. split; [done|]. rewrite AdaptiveScanSelect_rows; cbn [denote select_wf].
  - by rewrite Hd1, with_own_schema.
  - apply (early_projection_wf op (Schema op) op1 Ho). by rewrite with_own_schema.
Qed.

(** ** LIKE *)
Lemma has_percent_app a b : has_percent (a ++ b) = has_percent a || has_percent b.
Proof. apply existsb_app. Qed.

Lemma last_percent {A} (m : list A) x : list.last (m ++ [x]) = Some x.
Proof. by rewrite list.last_snoc. Qed.

Lemma like_prefix l m : has_percent m = false ->
  Plan_like l (percent :: m) = (x ← l; checked (BinaryArithmeticExpr OpSTARTS_WITH x (LiteralExpr (VString m) false))).
Proof. intros Hm. unfold Plan_like. cbn zeta. cbn [tail]. by rewrite Z.eqb_refl, Hm. Qed.

Lemma like_suffix l m : has_percent m = false -> m <> [] ->
  Plan_like l (m ++ [percent]) = (x ← l; checked (BinaryArithmeticExpr OpENDS_WITH x (LiteralExpr (VString m) false))).
Proof.
  intros Hm Hne. unfold Plan_like. cbn zeta. rewrite last_percent, Z.eqb_refl. destruct m as [|c m]; [done|]. cbn [app tail andb].
  cbn [has_percent existsb] in Hm. apply orb_false_iff in Hm as [Hc Hm]. rewrite (Z.eqb_sym c), Hc. cbn [andb].
  replace (length (c :: m ++ [percent]) - 1)%nat with (length (c :: m)) by (cbn; rewrite length_app; cbn; lia).
  change (c :: m ++ [percent]) with ((c :: m) ++ [percent]). rewrite take_app_length. cbn [has_percent existsb]. by rewrite Hc, Hm.
Qed.

Lemma like_both l m : has_percent m = false -> m <> [] ->
  Plan_like l (percent :: m ++ [percent]) = (x ← l; checked (BinaryArithmeticExpr OpCONTAINS x (LiteralExpr (VString m) false))).
Proof.
  intros Hm Hne. unfold Plan_like. cbn zeta.
  assert (list.last (percent :: m ++ [percent]) = Some percent) as -> by apply (last_percent (percent :: m)).
  assert (take (length (percent :: m ++ [percent]) - 1) (percent :: m ++ [percent]) = percent :: m) as ->.
  { replace (length (percent :: m ++ [percent]) - 1)%nat with (length (percent :: m)) by (cbn; rewrite length_app; cbn; lia).
    apply (take_app_length (percent :: m)). }
  cbn [tail]. assert (take (length (percent :: m ++ [percent]) - 2) (m ++ [percent]) = m) as ->.
  { replace (length (percent :: m ++ [percent]) - 2)%nat with (length m) by (cbn; rewrite length_app; cbn; lia). apply take_app_length. }
  assert ((2 <=? vec_size (percent :: m ++ [percent])) = true) as ->.
  { apply Z.leb_le. unfold vec_size. cbn [length]. rewrite length_app. cbn. lia. }
  assert (has_percent (percent :: m) = true) as -> by done.
  by rewrite has_percent_app, Hm, !Z.eqb_refl.
Qed.

(** C28. Patterns with [%] at an end: for a pattern text without [%], the condition planned
    for ['%m'] accepts the strings that start with [m], the one for ['m%'] those that end
    with it (the two are exchanged), and the one for ['%m%'] those that contain it. *)
Theorem like_behaviour enum_key like env c s m : Type_ c = Ok (MkType TEXT 0) ->
  Compute_ enum_key like env c = Ok (MkSQL (VString s) false) -> has_percent m = false -> m <> [] ->
  exists e1 e2 e3, Plan_like (Ok c) (percent :: m) = Ok e1 /\ Plan_like (Ok c) (m ++ [percent]) = Ok e2 /\
    Plan_like (Ok c) (percent :: m ++ [percent]) = Ok e3 /\
    accepted enum_key like env e1 = StartsWith s m /\ accepted enum_key like env e2 = EndsWith s m /\
    accepted enum_key like env e3 = Contains s m.
Proof.
  intros Ht Hc Hm Hne. rewrite like_prefix, like_suffix, like_both by done. cbn [mbind Res_bind]. unfold checked. cbn [Type_]. rewrite Ht.
  eexists _, _, _. split_and!; [done..| | |]; unfold accepted; cbn [Compute_]; rewrite Hc; cbn; by case_match.
Qed.

(** ** Examples *)
Module PlannerDemo.
Definition int_type : SqlType := MkType INT 0.
Definition table_a : Table := MkTable "a" [MkCatCol "x" int_type false; MkCatCol "s" (MkType TEXT 0) false].
Definition table_b : Table := MkTable "b" [MkCatCol "y" int_type false].
Definition demo_db : gmap string Table := <["a" := table_a]> (<["b" := table_b]> ∅).
Definition int_value (z : Z) : SQLValue := MkSQL (VInt32 z) false.
Definition demo_rows (t : Table) : list row :=
  if String.eqb (table_name t) "a"
  then [[int_value 1; MkSQL (VString []) false]; [int_value 7; MkSQL (VString []) false]; [int_value 2; MkSQL (VString []) false]]
  else [[int_value 1]; [int_value 7]; [int_value 2]].
Definition no_key (_ _ : Z) : list Z := [].
Definition no_like (_ _ : list Z) : bool := false.
Definition no_value (_ : Z) (_ : list Z) : Z := -1.

Definition ax : PExpr := PColumnRefExpr "a" "x".
Definition x_ref : Expression := ColumnRefExpr int_type false 0 0.

(** ['abcd' LIKE '%abc'] *)
Lemma like_behaviour_witness : exists e1 e2 e3,
  Plan_like (Ok (LiteralExpr (VString [97; 98; 99; 100]) false)) [percent; 97; 98; 99] = Ok e1 /\
  Plan_like (Ok (LiteralExpr (VString [97; 98; 99; 100]) false)) [97; 98; 99; percent] = Ok e2 /\
  Plan_like (Ok (LiteralExpr (VString [97; 98; 99; 100]) false)) [percent; 97; 98; 99; percent] = Ok e3 /\
  accepted no_key no_like (MkEnv [] []) e1 = true /\ accepted no_key no_like (MkEnv [] []) e2 = false /\
  accepted no_key no_like (MkEnv [] []) e3 = true.
Proof. apply (like_behaviour no_key no_like (MkEnv [] []) _ [97; 98; 99; 100] [97; 98; 99]); [reflexivity..|discriminate]. Defined.

(** [SELECT MAX(a.x) FROM a WHERE FALSE] *)
Definition false_stmt : SelectStatement := MkSelect [PAggregateExpr MAX ax] (BaseTable "a" "") (Some (PLiteralExpr (LitBool false))).

(** A condition that reads no column is lost when there is one table: the plan of
    [SELECT MAX(a.x) FROM a WHERE FALSE] reads all rows. *)
Theorem constant_predicate_dropped : exists op info', Plan_statement no_value demo_db ∅ false_stmt = Ok (op, info') /\
  denote no_key no_like demo_rows op = [[int_value 7]] /\
  query no_key no_like demo_rows [table_a] (LiteralExpr (VBool false) false) [(MAX, x_ref)] = [MkSQL (VInt32 0) true].
Proof. eexists _, _. split; [reflexivity|]. split; reflexivity. Qed.
End PlannerDemo.
