(* ===== verification/LinearProbe.v ===== *)
(** * Open addressing with linear probing

    The invariant the hash tables of src/runtime share: walking from the home slot
    of a stored element to its slot meets no free slot.  Slots are counted modulo
    the capacity, and a table is a list of optional elements. *)
From S2P Require Import Prelude.

Section Probe.
Context {A : Type}.
Implicit Types tab : list (option A).

(** The [k]-th slot of the walk from [h]. *)
Definition slot (cap h k : nat) : nat := ((h + k) mod cap)%nat.

Definition occupied tab (p : nat) : Prop := exists a, tab !! p = Some (Some a).

(** The walk from [h] meets only occupied slots before its [k]-th. *)
Definition walk tab (h k : nat) : Prop := forall j, (j < k)%nat -> occupied tab (slot (length tab) h j).

Definition probing (home : A -> nat) tab : Prop :=
  forall p a, tab !! p = Some (Some a) ->
  exists k, (k < length tab)%nat /\ slot (length tab) (home a) k = p /\ walk tab (home a) k.

Lemma slot_lt cap h k : (0 < cap)%nat -> (slot cap h k < cap)%nat.
Proof. intros. apply Nat.mod_upper_bound. lia. Qed.

Lemma slot_S cap h k : (0 < cap)%nat -> slot cap h (S k) = ((slot cap h k + 1) mod cap)%nat.
Proof.
  intros Hc. unfold slot. rewrite Nat.Div0.add_mod_idemp_l. f_equal. lia.
Qed.

(** Every slot is on the walk from every other. *)
Lemma slot_onto cap h p : (p < cap)%nat -> exists k, (k < cap)%nat /\ slot cap h k = p.
Proof.
  intros Hp. exists ((p + (cap - h mod cap)) mod cap)%nat.
  assert (h mod cap < cap)%nat by (apply Nat.mod_upper_bound; lia).
  split; [apply Nat.mod_upper_bound; lia|]. unfold slot.
  rewrite Nat.Div0.add_mod_idemp_r, <- Nat.Div0.add_mod_idemp_l.
  replace (h mod cap + (p + (cap - h mod cap)))%nat with (p + 1 * cap)%nat by lia.
  rewrite Nat.Div0.mod_add. by apply Nat.mod_small.
Qed.

(** A table with a free slot has a first free one on every walk. *)
Lemma first_free tab h p0 : tab !! p0 = Some None ->
  exists k, (k < length tab)%nat /\ tab !! slot (length tab) h k = Some None /\ walk tab h k.
Proof.
  intros Hp0. pose proof (lookup_lt_Some _ _ _ Hp0) as Hl.
  destruct (slot_onto (length tab) h p0 Hl) as (k0 & Hk0 & Es).
  assert (forall n, (n <= length tab)%nat -> walk tab h n \/
    exists k, (k < n)%nat /\ tab !! slot (length tab) h k = Some None /\ walk tab h k) as Hsearch.
  { induction n as [|n IH]; intros Hn; [left; intros j Hj; lia|].
    destruct IH as [Hw|(k & Hk & Hf & Hw)]; [lia| |right; exists k; split_and!; [lia|done..]].
    destruct (lookup_lt_is_Some_2 tab (slot (length tab) h n)) as [[a|] Ha]; [apply slot_lt; lia| |].
    - left. intros j Hj. destruct (decide (j = n)) as [->|]; [by exists a|apply Hw; lia].
    - right. exists n. split_and!; [lia|done..]. }
  destruct (Hsearch (S k0)) as [Hw|(k & Hk & Hf & Hw)]; [lia| |exists k; split_and!; [lia|done..]].
  destruct (Hw k0) as [a Ha]; [lia|]. rewrite Es, Hp0 in Ha. done.
Qed.

Lemma occupied_insert tab p a q : occupied tab q -> occupied (<[p := Some a]> tab) q.
Proof.
  intros [b Hb]. destruct (decide (q = p)) as [->|Hne].
  - exists a. apply list_lookup_insert_eq. by eapply lookup_lt_Some.
  - exists b. by rewrite list_lookup_insert_ne.
Qed.

Lemma walk_insert tab p a h k : walk tab h k -> walk (<[p := Some a]> tab) h k.
Proof. intros Hw j Hj. rewrite length_insert. apply occupied_insert. by apply Hw. Qed.

(** Filling the first free slot of the walk keeps the invariant. *)
Lemma probing_insert home tab a k : probing home tab -> (k < length tab)%nat ->
  walk tab (home a) k -> probing home (<[slot (length tab) (home a) k := Some a]> tab).
Proof.
  intros Hp Hk Hw q b Hq. rewrite length_insert.
  destruct (decide (q = slot (length tab) (home a) k)) as [->|Hne].
  - rewrite list_lookup_insert_eq in Hq by (apply slot_lt; lia). injection Hq as <-.
    exists k. split_and!; [done..|by apply walk_insert].
  - rewrite list_lookup_insert_ne in Hq by done. destruct (Hp q b Hq) as (k' & Hk' & Es & Hw').
    exists k'. split_and!; [done..|by apply walk_insert].
Qed.

(** An empty table. *)
Lemma probing_empty home n : probing home (replicate n None).
Proof. intros p a Hp. apply lookup_replicate in Hp as [? _]. done. Qed.

(** Counting. *)
Definition elements tab : list A := omap id tab.

Lemma elements_length tab : (length (elements tab) < length tab)%nat -> exists p, tab !! p = Some None.
Proof.
  unfold elements. induction tab as [|[a|] tab IH]; cbn; [lia| |by exists 0%nat].
  intros Hl. destruct IH as [p Hp]; [lia|]. by exists (S p).
Qed.

Lemma elements_insert tab p a : tab !! p = Some None ->
  elements (<[p := Some a]> tab) ≡ₚ a :: elements tab.
Proof.
  intros Hp. unfold elements. rewrite <- (take_drop_middle tab p None Hp) at 2.
  rewrite insert_take_drop by (by eapply lookup_lt_Some). rewrite !omap_app. cbn.
  rewrite <- Permutation_middle. done.
Qed.

Lemma elements_elem tab a : a ∈ elements tab <-> exists p, tab !! p = Some (Some a).
Proof.
  unfold elements. rewrite list_elem_of_omap. split.
  - intros (o & Ho & E). cbn in E. subst o. by apply list_elem_of_lookup.
  - intros [p Hp]. exists (Some a). split; [|done]. apply list_elem_of_lookup. by exists p.
Qed.
End Probe.
