(* ===== verification/ByteFile.v ===== *)
(** * Files of bytes

    The contents of the memory-mapped files of src/runtime/ as lists of byte values:
    reading and writing of ranges and of little-endian integers at an offset, and
    the reasoning about disjoint ranges that the file formats share.  An access
    outside the file is undefined. *)
From S2P Require Import Prelude.

(** ** Little-endian integers *)
Fixpoint le_encode (n : nat) (z : Z) : list Z :=
  match n with O => [] | S n => z mod 256 :: le_encode n (z / 256) end.
Fixpoint le_decode (bs : list Z) : Z :=
  match bs with [] => 0 | b :: bs => b + 256 * le_decode bs end.

Lemma le_encode_length n z : length (le_encode n z) = n.
Proof. revert z. induction n as [|n IH]; intros z; cbn; [done|by rewrite IH]. Qed.

Lemma le_roundtrip n z : le_decode (le_encode n z) = z mod 256 ^ Z.of_nat n.
Proof.
  revert z. induction n as [|n IH]; intros z; cbn [le_encode le_decode]; [cbn; by rewrite Z.mod_1_r|].
  rewrite IH, Nat2Z.inj_succ, Z.pow_succ_r by lia. rewrite Z.rem_mul_r by lia. lia.
Qed.

Lemma le_unsigned n z : 0 <= z < 256 ^ Z.of_nat n -> le_decode (le_encode n z) = z.
Proof. intros. rewrite le_roundtrip. by apply Z.mod_small. Qed.

(** ** Ranges *)
Definition get_bytes (f : list Z) (off n : Z) : Res (list Z) :=
  if (0 <=? off) && (0 <=? n) && (off + n <=? vec_size f)
  then Ok (take (Z.to_nat n) (drop (Z.to_nat off) f)) else UB.
Definition put_bytes (f : list Z) (off : Z) (bs : list Z) : Res (list Z) :=
  if (0 <=? off) && (off + vec_size bs <=? vec_size f)
  then Ok (take (Z.to_nat off) f ++ bs ++ drop (Z.to_nat off + length bs) f) else UB.

Definition get_le (w : nat) (f : list Z) (off : Z) : Res Z := bs ← get_bytes f off (Z.of_nat w); Ok (le_decode bs).
Definition put_le (w : nat) (f : list Z) (off z : Z) : Res (list Z) := put_bytes f off (le_encode w z).

(** The file holds [bs] at [off]. *)
Definition holds (f : list Z) (off : Z) (bs : list Z) : Prop := get_bytes f off (vec_size bs) = Ok bs.

Lemma holds_iff f off bs : holds f off bs <->
  0 <= off /\ off + vec_size bs <= vec_size f /\ take (length bs) (drop (Z.to_nat off) f) = bs.
Proof.
  unfold holds, get_bytes, vec_size. rewrite Nat2Z.id.
  destruct (Z.leb_spec 0 off), (Z.leb_spec 0 (Z.of_nat (length bs))), (Z.leb_spec (off + Z.of_nat (length bs)) (Z.of_nat (length f))); cbn;
    split; intros H'; try done; try lia; [injection H' as H'; by split_and!|destruct H' as (_ & _ & ->); done].
Qed.

(** Two ranges that do not meet. *)
Definition apart (o1 n1 o2 n2 : Z) : Prop := o1 + n1 <= o2 \/ o2 + n2 <= o1.

Lemma put_bytes_ok f off bs : 0 <= off -> off + vec_size bs <= vec_size f ->
  exists f', put_bytes f off bs = Ok f' /\ length f' = length f /\ holds f' off bs /\
    forall o l, apart off (vec_size bs) o (vec_size l) -> holds f o l -> holds f' o l.
Proof.
  intros H0 H1. unfold put_bytes. rewrite (proj2 (Z.leb_le _ _) H0), (proj2 (Z.leb_le _ _) H1). cbn [andb].
  unfold vec_size in *. set (n := Z.to_nat off). assert (Z.of_nat n = off) as Hn by (subst n; lia).
  assert (n + length bs <= length f)%nat as Hle by lia.
  assert (length (take n f ++ bs ++ drop (n + length bs) f) = length f) as Hl.
  { rewrite !length_app, length_take, length_drop. lia. }
  eexists. split; [done|]. split; [done|]. split.
  - apply holds_iff. unfold vec_size. rewrite Hl. split_and!; [done|done|]. fold n.
    rewrite drop_app_length' by (rewrite length_take; lia). by rewrite take_app_length.
  - intros o l Hap (Ho & Hle2 & E)%holds_iff. apply holds_iff. unfold vec_size in *. rewrite Hl. split_and!; [done|done|].
    rewrite <- E at 2. set (m := Z.to_nat o). assert (Z.of_nat m = o) as Hm by (subst m; lia).
    apply list_eq. intros i. destruct (decide (i < length l)%nat) as [Hi|Hi].
    2: { rewrite !lookup_take_ge by lia. done. }
    rewrite !lookup_take_lt, !lookup_drop by done. unfold apart in Hap. destruct (decide (m + i < n)%nat) as [Hlt|Hge].
    + rewrite lookup_app_l by (rewrite length_take; lia). by rewrite lookup_take_lt.
    + rewrite lookup_app_r by (rewrite length_take; lia). rewrite length_take, Nat.min_l by lia.
      rewrite lookup_app_r by lia. rewrite lookup_drop. f_equal. lia.
Qed.

(** The bytes one by one. *)
Lemma holds_lookup f off bs : holds f off bs <->
  0 <= off /\ off + vec_size bs <= vec_size f /\ forall i b, bs !! i = Some b -> f !! (Z.to_nat off + i)%nat = Some b.
Proof.
  rewrite holds_iff. unfold vec_size. split; intros (H0 & H1 & H); split_and!; try done.
  - intros i b Hb. pose proof (lookup_lt_Some _ _ _ Hb) as Hi. by rewrite <- H, lookup_take_lt, lookup_drop in Hb.
  - apply list_eq. intros i. destruct (bs !! i) as [b|] eqn:E.
    + pose proof (lookup_lt_Some _ _ _ E). rewrite lookup_take_lt, lookup_drop by done. by apply H.
    + apply lookup_ge_None in E. by rewrite lookup_take_ge.
Qed.

Lemma holds_app f off a b : holds f off (a ++ b) <-> holds f off a /\ holds f (off + vec_size a) b.
Proof.
  rewrite !holds_lookup. unfold vec_size. rewrite length_app. split.
  - intros (H0 & H1 & H). split; split_and!; try lia.
    + intros i x Hx. apply H. by apply lookup_app_l_Some.
    + intros i x Hx. replace (Z.to_nat (off + Z.of_nat (length a)) + i)%nat with (Z.to_nat off + (length a + i))%nat by lia.
      apply H. rewrite lookup_app_r by lia. rewrite <- Hx. f_equal. lia.
  - intros [(H0 & H1 & Ha) (_ & H2 & Hb)]. split_and!; try lia. intros i x [Hx|[Hi Hx]]%lookup_app_Some; [by apply Ha|].
    apply Hb in Hx. rewrite <- Hx. f_equal. lia.
Qed.

Lemma holds_slice f off bs i n : holds f off bs -> 0 <= i -> 0 <= n -> i + n <= vec_size bs ->
  get_bytes f (off + i) n = Ok (take (Z.to_nat n) (drop (Z.to_nat i) bs)).
Proof.
  intros H Hi Hn Hle. unfold vec_size in Hle.
  assert (holds f (off + i) (take (Z.to_nat n) (drop (Z.to_nat i) bs))) as Hh.
  { rewrite <- (take_drop (Z.to_nat i) bs) in H. apply holds_app in H as [_ H]. unfold vec_size in H. rewrite length_take, Nat.min_l, Z2Nat.id in H by lia.
    rewrite <- (take_drop (Z.to_nat n) (drop (Z.to_nat i) bs)) in H. by apply holds_app in H as [H _]. }
  unfold holds in Hh. unfold vec_size in Hh. rewrite length_take, length_drop, Nat.min_l, Z2Nat.id in Hh by lia. exact Hh.
Qed.

(** Integers. *)
Lemma put_le_ok w f off z : 0 <= off -> off + Z.of_nat w <= vec_size f ->
  exists f', put_le w f off z = Ok f' /\ length f' = length f /\ holds f' off (le_encode w z) /\
    forall o l, apart off (Z.of_nat w) o (vec_size l) -> holds f o l -> holds f' o l.
Proof.
  intros H0 H1. assert (vec_size (le_encode w z) = Z.of_nat w) as E by (unfold vec_size; by rewrite le_encode_length).
  destruct (put_bytes_ok f off (le_encode w z) H0) as (f' & ? & ? & ? & ?); [by rewrite E|]. exists f'. rewrite <- E. by split_and!.
Qed.

Lemma holds_le w f off z : holds f off (le_encode w z) -> get_le w f off = Ok (z mod 256 ^ Z.of_nat w).
Proof.
  intros H. unfold get_le. unfold holds, vec_size in H. rewrite le_encode_length in H. rewrite H. cbn [mbind Res_bind]. by rewrite le_roundtrip.
Qed.

Lemma holds_u w f off z : holds f off (le_encode w z) -> 0 <= z < 256 ^ Z.of_nat w -> get_le w f off = Ok z.
Proof. intros H Hz. rewrite (holds_le w f off z H). by rewrite Z.mod_small. Qed.

(** ** Files on disk

    [open] without [O_TRUNC] and [posix_fallocate]: the file has at least [length]
    bytes and keeps what it had; the first [length] ones are mapped and overwritten. *)
Definition fallocate (old : list Z) (length_ : Z) : list Z :=
  old ++ replicate (Z.to_nat length_ - length old) 0.

Lemma fallocate_length old n : 0 <= n -> vec_size (fallocate old n) = Z.max n (vec_size old).
Proof. intros. unfold fallocate, vec_size. rewrite length_app, length_replicate. lia. Qed.
