(* ===== verification/ColumnData.v ===== *)
(** * Column files

    src/runtime/column_data.cc: a column of fixed-width values is the file of their
    bytes, a column of strings has a table of lengths and offsets before the
    characters.  [Serialize] writes a column, [Open] reads the file, [Size] and [Get]
    read the column. *)
From S2P Require Import Prelude ByteFile.

(** ** Fixed width

    [w] is the size of the type; a double is the number its bytes make. *)
Definition column_length (w : nat) (contents : list Z) : Z := Z.of_nat w * vec_size contents.

(** [posix_fallocate] refuses a length of zero. *)
Definition Serialize (w : nat) (old : list Z) (contents : list Z) : Res (list Z) :=
  let length_ := column_length w contents in
  if length_ =? 0 then Throw "fallocate failed with length "
  else put_bytes (fallocate old length_) 0 (contents ≫= le_encode w).

Definition SizeFixed (w : nat) (f : list Z) : Z := sw 32 (vec_size f / Z.of_nat w).
Definition GetBits (w : nat) (f : list Z) (idx : Z) : Res Z := get_le w f (Z.of_nat w * idx).

Definition SizeInt8 := SizeFixed 1.
Definition SizeInt16 := SizeFixed 2.
Definition SizeInt32 := SizeFixed 4.
Definition SizeInt64 := SizeFixed 8.
Definition SizeFloat64 := SizeFixed 8.
Definition GetSigned (w : nat) (f : list Z) (idx : Z) : Res Z := z ← GetBits w f idx; Ok (sw (8 * Z.of_nat w) z).
Definition GetInt8 := GetSigned 1.
Definition GetInt16 := GetSigned 2.
Definition GetInt32 := GetSigned 4.
Definition GetInt64 := GetSigned 8.
Definition GetFloat64 (f : list Z) (idx : Z) : Res Z := GetBits 8 f idx.

(** ** Strings

    An entry is [int32_t length] and, after four bytes of padding, [uint64_t offset];
    the entries start after the cardinality and its padding. *)
Definition SLOT0 : Z := 8.
Definition SLOT_SIZE : Z := 16.

Fixpoint write_slots (f : list Z) (slot offset : Z) (contents : list (list Z)) : Res (list Z) :=
  match contents with
  | [] => Ok f
  | s :: contents =>
      let length_ := sw 32 (vec_size s) in
      f ← put_le 4 f (SLOT0 + SLOT_SIZE * slot) length_;
      f ← put_le 8 f (SLOT0 + SLOT_SIZE * slot + 8) offset;
      f ← (if length_ + 1 <? 0 then UB else put_bytes f offset (take (Z.to_nat (length_ + 1)) (s ++ [0])));
      write_slots f (slot + 1) (uw 64 (offset + length_ + 1)) contents
  end.

Definition strings_length (contents : list (list Z)) : Z := foldr (fun s n => vec_size s + 1 + n) 0 contents.
Definition text_length (contents : list (list Z)) : Z := 8 + SLOT_SIZE * vec_size contents + strings_length contents.

Definition SerializeText (old : list Z) (contents : list (list Z)) : Res (list Z) :=
  f ← put_le 4 (fallocate old (text_length contents)) 0 (vec_size contents);
  write_slots f 0 (8 + SLOT_SIZE * vec_size contents) contents.

Definition SizeText (f : list Z) : Res Z := z ← get_le 4 f 0; Ok (sw 32 z).
Definition GetText (f : list Z) (idx : Z) : Res (list Z) :=
  length_ ← get_le 4 f (SLOT0 + SLOT_SIZE * idx);
  offset ← get_le 8 f (SLOT0 + SLOT_SIZE * idx + 8);
  get_bytes f offset (sw 32 length_).

(** ** Fixed-width columns *)
Lemma bind_encode_length w contents : vec_size (contents ≫= le_encode w) = column_length w contents.
Proof.
  unfold column_length, vec_size. induction contents as [|z l IH]; [cbn; lia|]. rewrite bind_cons, length_app, le_encode_length. cbn [length]. lia.
Qed.

Lemma holds_element w f contents : forall off i z, holds f off (contents ≫= le_encode w) -> contents !! i = Some z ->
  holds f (off + Z.of_nat w * Z.of_nat i) (le_encode w z).
Proof.
  induction contents as [|y l IH]; intros off i z Hf Hi; [done|]. rewrite bind_cons in Hf. apply holds_app in Hf as [Hy Hl].
  destruct i as [|i]; cbn in Hi.
  - injection Hi as ->. by rewrite Z.mul_0_r, Z.add_0_r.
  - unfold vec_size in Hl. rewrite le_encode_length in Hl. specialize (IH _ i z Hl Hi).
    by replace (off + Z.of_nat w * Z.of_nat (S i)) with (off + Z.of_nat w + Z.of_nat w * Z.of_nat i) by lia.
Qed.

Lemma Serialize_holds w old contents : column_length w contents <> 0 ->
  exists f, Serialize w old contents = Ok f /\ vec_size f = Z.max (column_length w contents) (vec_size old) /\
    holds f 0 (contents ≫= le_encode w).
Proof.
  intros Hne. unfold Serialize. destruct (Z.eqb_spec (column_length w contents) 0) as [|_]; [done|].
  assert (0 <= column_length w contents) by (unfold column_length, vec_size; lia).
  pose proof (fallocate_length old (column_length w contents) ltac:(done)) as Hfl.
  destruct (put_bytes_ok (fallocate old (column_length w contents)) 0 (contents ≫= le_encode w)) as (f & Hf & Hl & Hh & _);
    [done|rewrite bind_encode_length; lia|].
  exists f. split_and!; [done| |done]. unfold vec_size in *. rewrite Hl. lia.
Qed.

Lemma wrap_bits w z : sw (8 * Z.of_nat w) (z mod 256 ^ Z.of_nat w) = sw (8 * Z.of_nat w) z.
Proof.
  change 256 with (2 ^ 8). rewrite <- Z.pow_mul_r by lia. unfold sw. by rewrite Z.mod_mod by (apply Z.pow_nonzero; lia).
Qed.

(** A column of integers is read back from its file: written over no file or over a
    shorter one, it has as many rows as were written and every row is the number
    written, for all widths. *)
Theorem column_roundtrip w old contents : (0 < w)%nat -> contents <> [] -> vec_size contents < 2 ^ 31 ->
  vec_size old <= column_length w contents -> Forall (is_sw (8 * Z.of_nat w)) contents ->
  exists f, Serialize w old contents = Ok f /\ SizeFixed w f = vec_size contents /\
    forall i z, contents !! i = Some z -> GetSigned w f (Z.of_nat i) = Ok z.
Proof.
  intros Hw Hne Hlen Hold Hc. assert (0 < vec_size contents) by (unfold vec_size; destruct contents; [done|cbn; lia]).
  destruct (Serialize_holds w old contents) as (f & Hf & Hs & Hh); [unfold column_length; nia|].
  exists f. split; [done|]. split.
  - unfold SizeFixed. rewrite Hs, Z.max_l by done. unfold column_length. rewrite Z.mul_comm, Z.div_mul by lia.
    apply sw_id; [lia|]. unfold is_sw. cbn. lia.
  - intros i z Hi. unfold GetSigned, GetBits. pose proof (holds_element w f contents 0 i z Hh Hi) as Hz. rewrite Z.add_0_l in Hz.
    rewrite (holds_le w f _ z Hz). cbn [mbind Res_bind]. rewrite wrap_bits, sw_id; [done|lia|]. by eapply list.Forall_forall, list_elem_of_lookup_2.
Qed.
Lemma column_roundtrip_witness : exists f, Serialize 2 [1; 2; 3] [5; -7; 32767] = Ok f /\ SizeFixed 2 f = 3 /\
  forall i z, [5; -7; 32767] !! i = Some z -> GetSigned 2 f (Z.of_nat i) = Ok z.
Proof. apply (column_roundtrip 2 [1; 2; 3] [5; -7; 32767]); [lia|discriminate|reflexivity|discriminate|]. repeat constructor; cbn; lia. Defined.

(** A longer file keeps its length, so the column gets rows of the old one. *)
Lemma stale_rows w old contents : column_length w contents <> 0 -> column_length w contents <= vec_size old ->
  exists f, Serialize w old contents = Ok f /\ SizeFixed w f = SizeFixed w old.
Proof.
  intros Hne Hle. destruct (Serialize_holds w old contents Hne) as (f & Hf & Hs & _). exists f. split; [done|].
  unfold SizeFixed. by rewrite Hs, Z.max_r.
Qed.

(** ** Columns of strings *)
Lemma write_slots_ok contents : forall f slot offset, 0 <= slot ->
  SLOT0 + SLOT_SIZE * (slot + vec_size contents) <= offset -> offset + strings_length contents <= vec_size f ->
  offset + strings_length contents < 2 ^ 64 -> Forall (fun s => vec_size s < 2 ^ 31 - 1) contents ->
  exists f', write_slots f slot offset contents = Ok f' /\ length f' = length f /\
    (forall o l, o + vec_size l <= SLOT0 + SLOT_SIZE * slot \/
       (SLOT0 + SLOT_SIZE * (slot + vec_size contents) <= o /\ o + vec_size l <= offset) -> holds f o l -> holds f' o l) /\
    forall i s, contents !! i = Some s -> GetText f' (slot + Z.of_nat i) = Ok s.
Proof.
  unfold SLOT0, SLOT_SIZE, vec_size. induction contents as [|s contents IH]; intros f slot offset Hs Ho Hf Hmax Hc; cbn [write_slots].
  { exists f. split_and!; [done|done| |done]. intros o l _ Hl. exact Hl. }
  apply list.Forall_cons in Hc as [Hsl Hc]. cbn [strings_length foldr length] in *. unfold vec_size, SLOT0, SLOT_SIZE in *.
  assert (0 <= strings_length contents) as Hp by (unfold strings_length, vec_size; clear; induction contents; cbn; lia). unfold strings_length, vec_size in Hp, IH.
  rewrite (sw_id 32) by (unfold is_sw; cbn; lia).
  destruct (put_le_ok 4 f (8 + 16 * slot) (Z.of_nat (length s))) as (f1 & -> & Hl1 & Hh1 & Hk1); [lia|unfold vec_size; lia|]. cbn [mbind Res_bind].
  destruct (put_le_ok 8 f1 (8 + 16 * slot + 8) offset) as (f2 & -> & Hl2 & Hh2 & Hk2); [lia|unfold vec_size; lia|]. cbn [mbind Res_bind].
  destruct (Z.ltb_spec (Z.of_nat (length s) + 1) 0); [lia|]. rewrite take_ge by (rewrite length_app; cbn; lia).
  destruct (put_bytes_ok f2 offset (s ++ [0])) as (f3 & -> & Hl3 & Hh3 & Hk3); [lia|unfold vec_size; rewrite length_app; cbn; lia|]. cbn [mbind Res_bind].
  unfold vec_size in Hk3. rewrite length_app in Hk3. cbn [length] in Hk3.
  unfold uw. rewrite Z.mod_small by lia.
  destruct (IH f3 (slot + 1) (offset + Z.of_nat (length s) + 1)) as (f' & Hw & Hl' & Hkeep & Hget); try lia; [done|].
  exists f'. split_and!; [done|lia| |].
  - intros o l Hr Hol. apply Hkeep; [destruct Hr; [left; lia|right; lia]|].
    apply Hk3; [unfold apart; lia|]. apply Hk2; [unfold apart, vec_size; lia|]. apply Hk1; [unfold apart, vec_size; lia|done].
  - intros [|i] s' Hi; cbn in Hi.
    + injection Hi as ->. unfold GetText, SLOT0, SLOT_SIZE. rewrite Z.add_0_r.
      rewrite (holds_u 4 f' (8 + 16 * slot) (Z.of_nat (length s'))); [|apply Hkeep|cbn; lia].
      2: { left. unfold vec_size. rewrite le_encode_length. lia. }
      2: { apply Hk3; [unfold apart, vec_size; rewrite le_encode_length; lia|]. apply Hk2; [unfold apart, vec_size; rewrite le_encode_length; lia|done]. }
      cbn [mbind Res_bind]. rewrite (holds_u 8 f' (8 + 16 * slot + 8) offset); [|apply Hkeep|cbn; lia].
      2: { left. unfold vec_size. rewrite le_encode_length. lia. }
      2: { apply Hk3; [unfold apart, vec_size; rewrite le_encode_length; lia|done]. }
      cbn [mbind Res_bind]. rewrite sw_id by (unfold is_sw; cbn; lia). change (holds f' offset s').
      apply holds_app in Hh3 as [Hh3 _]. apply Hkeep; [|done]. right. unfold vec_size. lia.
    + replace (slot + Z.of_nat (S i)) with (slot + 1 + Z.of_nat i) by lia. by apply Hget.
Qed.

(** C27. A column of strings is read back from its file, whatever the file held before. *)
Theorem text_roundtrip old contents : vec_size contents < 2 ^ 31 -> text_length contents < 2 ^ 64 ->
  Forall (fun s => vec_size s < 2 ^ 31 - 1) contents ->
  exists f, SerializeText old contents = Ok f /\ SizeText f = Ok (vec_size contents) /\
    forall i s, contents !! i = Some s -> GetText f (Z.of_nat i) = Ok s.
Proof.
  intros Hn Ht Hc. assert (0 <= strings_length contents) as Hp by (unfold strings_length, vec_size; clear; induction contents; cbn; lia).
  assert (0 <= vec_size contents) by (unfold vec_size; lia).
  pose proof (fallocate_length old (text_length contents) ltac:(unfold text_length, SLOT_SIZE; lia)) as Hfl. unfold text_length, SLOT_SIZE in *.
  unfold SerializeText, text_length, SLOT_SIZE.
  destruct (put_le_ok 4 (fallocate old (8 + 16 * vec_size contents + strings_length contents)) 0 (vec_size contents)) as (f & -> & Hl & Hh & _); [lia|lia|].
  cbn [mbind Res_bind].
  destruct (write_slots_ok contents f 0 (8 + 16 * vec_size contents)) as (f' & Hw & _ & Hkeep & Hget); unfold SLOT0, SLOT_SIZE in *; try lia; [|done|].
  { assert (vec_size f = Z.max (8 + 16 * vec_size contents + strings_length contents) (vec_size old)) as -> by (rewrite <- Hfl; unfold vec_size; by rewrite Hl).
    lia. }
  exists f'. split_and!; [done| |by intros; apply (Hget i)].
  unfold SizeText. rewrite (holds_u 4 f' 0 (vec_size contents)); [|apply Hkeep; [left; unfold vec_size; rewrite le_encode_length; lia|done]|cbn; lia].
  cbn [mbind Res_bind]. rewrite sw_id; [done|lia|]. unfold is_sw. cbn. lia.
Qed.
Lemma text_roundtrip_witness : exists f, SerializeText [9; 9] [[97; 98]; []; [99]] = Ok f /\ SizeText f = Ok 3 /\
  forall i s, [[97; 98]; []; [99]] !! i = Some s -> GetText f (Z.of_nat i) = Ok s.
Proof. apply (text_roundtrip [9; 9] [[97; 98]; []; [99]]); [reflexivity|reflexivity|]. repeat constructor. Defined.
