(* ===== verification/Enum.v ===== *)
(** * Enums

    src/runtime/enum.cc: the file of an enum has a hash table from keys to entries, the
    entries in the order of their values, and the characters of the keys.
    [Serialize] writes it for a map from keys to values, [EnumManager] opens it and
    translates in both directions.  [std::hash] is an argument. *)
From stdpp Require Import gmap.
From S2P Require Import Prelude ByteFile LinearProbe.

(** ** Layout

    [EnumData]: [entry_offset] at 0, [mask] at 8, [array] at 16; [EnumEntry]:
    [str_offset] at 0, [str_len] at 8, [value] at 12. *)
Definition ENUM_DATA : Z := 16.
Definition ENUM_ENTRY : Z := 16.
Definition array_at (pos : Z) : Z := ENUM_DATA + 8 * pos.

Section Enum.
Context (hash : list Z -> Z).

(** The table has at least one and a half times as many slots as there are keys. *)
Fixpoint find_bits (fuel : nat) (n bits : Z) : Res Z :=
  match fuel with
  | O => NoFuel
  | S fuel => if 2 * 2 ^ bits <? 3 * n then find_bits fuel n (bits + 1) else Ok bits
  end.

Definition enum_length (bits : Z) (index : list (list Z * Z)) : Z :=
  foldl (fun n kv => n + (ENUM_ENTRY + vec_size kv.1 + 1)) (ENUM_DATA + 2 ^ bits * 8) index.

(** [keys_in_order[it->second] = it] *)
Fixpoint keys_in_order (index : list (list Z * Z)) (keys : list (option (list Z * Z))) : Res (list (option (list Z * Z))) :=
  match index with
  | [] => Ok keys
  | kv :: index => keys ← vec_set keys kv.2 (Some kv); keys_in_order index keys
  end.

(** The entries and the strings, in the order of the values. *)
Fixpoint write_entries (f : list Z) (entry_offset : Z) (keys : list (option (list Z * Z))) (string_offset : Z)
    : Res (list Z * Z) :=
  match keys with
  | [] => Ok (f, string_offset)
  | None :: _ => UB
  | Some (key, id) :: keys =>
      let entry := entry_offset + ENUM_ENTRY * id in
      f ← put_le 8 f entry string_offset;
      f ← put_le 4 f (entry + 8) (vec_size key);
      f ← put_le 4 f (entry + 12) id;
      f ← put_bytes f string_offset (key ++ [0]);
      write_entries f entry_offset keys (string_offset + (vec_size key + 1))
  end.

(** The first free slot from [pos] on. *)
Fixpoint free_slot (fuel : nat) (f : list Z) (mask pos : Z) : Res Z :=
  match fuel with
  | O => NoFuel
  | S fuel =>
      e ← get_le 8 f (array_at pos);
      if e =? 0 then Ok pos else free_slot fuel f mask (Z.land (pos + 1) mask)
  end.

Fixpoint insert_keys (f : list Z) (bits : Z) (index : list (list Z * Z)) : Res (list Z) :=
  match index with
  | [] => Ok f
  | (key, value) :: index =>
      let mask := 2 ^ bits - 1 in
      pos ← free_slot (S (Z.to_nat (2 ^ bits))) f mask (Z.land (hash key) mask);
      f ← put_le 8 f (array_at pos) (ENUM_DATA + 2 ^ bits * 8 + value * ENUM_ENTRY);
      insert_keys f bits index
  end.

(** [index] lists the map in the order of its iteration. *)
Definition Serialize_enum (old : list Z) (index : list (list Z * Z)) : Res (list Z) :=
  bits ← find_bits 64 (vec_size index) 1;
  let length_ := enum_length bits index in
  let f := fallocate old length_ in
  keys ← keys_in_order index (replicate (length index) None);
  let entry_offset := ENUM_DATA + 2 ^ bits * 8 in
  f ← put_le 8 f 0 entry_offset;
  '(f, string_offset) ← write_entries f entry_offset keys (entry_offset + vec_size index * ENUM_ENTRY);
  if negb (string_offset =? length_) then Throw "string_offset == length"
  else
    f ← put_le 8 f 8 (2 ^ bits - 1);
    f ← put_bytes f ENUM_DATA (replicate (Z.to_nat (2 ^ bits * 8)) 0);
    insert_keys f bits index.

(** ** Reading *)
Definition read_key (f : list Z) (value : Z) : Res (list Z) :=
  entry_offset ← get_le 8 f 0;
  let entry := entry_offset + ENUM_ENTRY * value in
  len ← get_le 4 f (entry + 8);
  off ← get_le 8 f entry;
  get_bytes f off len.

Fixpoint find_value (fuel : nat) (f : list Z) (mask : Z) (key : list Z) (pos : Z) : Res Z :=
  match fuel with
  | O => NoFuel
  | S fuel =>
      e ← get_le 8 f (array_at pos);
      if e =? 0 then Ok (-1)
      else
        off ← get_le 8 f e; len ← get_le 4 f (e + 8);
        s ← get_bytes f off len;
        if bool_decide (s = key) then v ← get_le 4 f (e + 12); Ok (sw 32 v)
        else find_value fuel f mask key (Z.land (pos + 1) mask)
  end.

Definition read_value (f : list Z) (key : list Z) : Res Z :=
  mask ← get_le 8 f 8;
  find_value (S (S (Z.to_nat mask))) f mask key (Z.land (hash key) mask).

(** ** The manager

    The files by path; [info_] has the paths of the registered enums, [file_] the
    contents of the opened ones. *)
Record EnumManager := MkManager { info_ : gmap Z (list Z); file_ : gmap Z (list Z) }.

Definition Register (m : EnumManager) (path : list Z) : EnumManager * Z :=
  let id := Z.of_nat (base.size (info_ m)) in (MkManager (<[id := path]> (info_ m)) (file_ m), id).

Definition open_enum (disk : list Z -> option (list Z)) (m : EnumManager) (id : Z) : Res (EnumManager * list Z) :=
  match file_ m !! id with
  | Some f => Ok (m, f)
  | None =>
      match info_ m !! id with
      | None => Throw "std::out_of_range"
      | Some path =>
          match disk path with
          | None => Throw "std::system_error"
          | Some f => Ok (MkManager (info_ m) (<[id := f]> (file_ m)), f)
          end
      end
  end.

Definition GetKey (disk : list Z -> option (list Z)) (m : EnumManager) (id value : Z) : Res (EnumManager * list Z) :=
  '(m, f) ← open_enum disk m id; k ← read_key f value; Ok (m, k).
Definition GetValue (disk : list Z -> option (list Z)) (m : EnumManager) (id : Z) (key : list Z) : Res (EnumManager * Z) :=
  '(m, f) ← open_enum disk m id; v ← read_value f key; Ok (m, v).
End Enum.

(** ** The number of slots *)
Lemma find_bits_ok (k : nat) : forall fuel n bits, (k <= fuel)%nat -> 0 <= bits -> 3 * n <= 2 * 2 ^ (bits + Z.of_nat k) ->
  exists b, find_bits (S fuel) n bits = Ok b /\ bits <= b <= bits + Z.of_nat k /\ 3 * n <= 2 * 2 ^ b.
Proof.
  induction k as [|k IH]; intros fuel n bits Hk H0 Hn; cbn [find_bits].
  - rewrite Z.add_0_r in Hn. destruct (Z.ltb_spec (2 * 2 ^ bits) (3 * n)); [lia|]. exists bits. split; [done|]. lia.
  - destruct (Z.ltb_spec (2 * 2 ^ bits) (3 * n)); [|exists bits; split; [done|]; lia]. destruct fuel as [|fuel]; [lia|].
    destruct (IH fuel n (bits + 1)) as (b & Hb & ? & ?); [lia|lia|by replace (bits + 1 + Z.of_nat k) with (bits + Z.of_nat (S k)) by lia|].
    exists b. split; [done|]. lia.
Qed.

(** ** Contents of the file *)
Section Table.
Context (hash : list Z -> Z) (keys : list (list Z)) (bits : Z).
Context (Hbits : 1 <= bits).
#[local] Abbreviation cap := (Z.to_nat (2 ^ bits)).
#[local] Abbreviation eo := (ENUM_DATA + 2 ^ bits * 8).

(** The entry of value [v]. *)
Definition entry_ok (f : list Z) (v : nat) (key : list Z) : Prop :=
  exists off, 0 <= off < 2 ^ 64 /\ eo <= off /\ vec_size key < 2 ^ 32 /\
    holds f (eo + ENUM_ENTRY * Z.of_nat v) (le_encode 8 off) /\
    holds f (eo + ENUM_ENTRY * Z.of_nat v + 8) (le_encode 4 (vec_size key)) /\
    holds f (eo + ENUM_ENTRY * Z.of_nat v + 12) (le_encode 4 (Z.of_nat v)) /\ holds f off key.
Definition entries_ok (f : list Z) : Prop := forall v key, keys !! v = Some key -> entry_ok f v key.

(** The hash table. *)
Definition entry_word (o : option nat) : Z := match o with None => 0 | Some v => eo + Z.of_nat v * ENUM_ENTRY end.
Definition array_ok (f : list Z) (tab : list (option nat)) : Prop :=
  length tab = cap /\ forall p o, tab !! p = Some o -> holds f (array_at (Z.of_nat p)) (le_encode 8 (entry_word o)) /\
    forall v, o = Some v -> (v < length keys)%nat.

Definition home (v : nat) : nat := Z.to_nat (Z.land (hash (default [] (keys !! v))) (2 ^ bits - 1)).
Definition home_key (key : list Z) : nat := Z.to_nat (Z.land (hash key) (2 ^ bits - 1)).

Lemma cap_pos : (0 < cap)%nat /\ Z.of_nat cap = 2 ^ bits.
Proof using Hbits. assert (0 < 2 ^ bits) by (apply Z.pow_pos_nonneg; lia). lia. Qed.

Lemma enum_land_mask x : Z.land x (2 ^ bits - 1) = x mod 2 ^ bits.
Proof using Hbits. rewrite <- Z.land_ones by lia. f_equal. rewrite Z.ones_equiv. lia. Qed.

Lemma home_key_lt key : (home_key key < cap)%nat.
Proof using Hbits. unfold home_key. rewrite enum_land_mask. pose proof (Z.mod_pos_bound (hash key) (2 ^ bits)) as H. pose proof cap_pos. lia. Qed.

Lemma slot_pos (h j : nat) : Z.land (Z.of_nat (slot cap h j) + 1) (2 ^ bits - 1) = Z.of_nat (slot cap h (S j)).
Proof using Hbits.
  rewrite enum_land_mask, slot_S by apply cap_pos. rewrite Nat2Z.inj_mod, (proj2 cap_pos). f_equal. lia.
Qed.

Lemma slot_first h : (h < cap)%nat -> slot cap h 0 = h.
Proof using. intros. unfold slot. rewrite Nat.add_0_r. by apply Nat.mod_small. Qed.

Context (Hsmall : eo + ENUM_ENTRY * Z.of_nat (length keys) < 2 ^ 64).

Lemma enum_word_range o : (forall v, o = Some v -> (v < length keys)%nat) -> 0 <= entry_word o < 256 ^ Z.of_nat 8 /\ (entry_word o = 0 <-> o = None).
Proof using Hsmall Hbits.
  intros Hv. pose proof cap_pos. unfold ENUM_DATA, ENUM_ENTRY in *. change (256 ^ Z.of_nat 8) with (2 ^ 64).
  destruct o as [v|]; cbn [entry_word]; [|done]. specialize (Hv v eq_refl). unfold ENUM_DATA, ENUM_ENTRY. split; [lia|]. split; [lia|done].
Qed.

Lemma array_read f tab p o : array_ok f tab -> tab !! p = Some o -> get_le 8 f (array_at (Z.of_nat p)) = Ok (entry_word o).
Proof using Hsmall Hbits.
  intros [_ Ha] Hp. destruct (Ha p o Hp) as [Hh Hv]. apply holds_u; [done|]. by apply enum_word_range.
Qed.

(** Probing for a free slot. *)
Lemma free_slot_ok f tab h k : array_ok f tab -> walk tab h k -> tab !! slot (length tab) h k = Some None ->
  forall d j fuel, (j + d = k)%nat -> (d < fuel)%nat ->
  free_slot fuel f (2 ^ bits - 1) (Z.of_nat (slot cap h j)) = Ok (Z.of_nat (slot cap h k)).
Proof using Hsmall Hbits.
  intros Ha Hw Hk. pose proof Ha as [Hl _]. rewrite Hl in Hk.
  induction d as [|d IH]; intros j fuel Hj Hf; (destruct fuel as [|fuel]; [lia|]); cbn [free_slot].
  - replace j with k by lia. by rewrite (array_read f tab _ _ Ha Hk).
  - destruct (Hw j ltac:(lia)) as [v Hv]. rewrite Hl in Hv. rewrite (array_read f tab _ _ Ha Hv). cbn [mbind Res_bind].
    destruct (Z.eqb_spec (entry_word (Some v)) 0) as [E|_].
    { apply enum_word_range in E; [done|]. intros ? [= <-]. destruct Ha as [_ Ha]. by apply (Ha _ _ Hv). }
    rewrite slot_pos. apply IH; lia.
Qed.

Context (Hcap : Z.of_nat (length keys) < 2 ^ bits).

(** A write to one slot. *)
Lemma array_write f tab p v : array_ok f tab -> (p < cap)%nat -> (v < length keys)%nat -> eo <= vec_size f ->
  exists f', put_le 8 f (array_at (Z.of_nat p)) (entry_word (Some v)) = Ok f' /\ length f' = length f /\
    array_ok f' (<[p := Some v]> tab) /\
    forall o l, o + vec_size l <= ENUM_DATA \/ eo <= o -> holds f o l -> holds f' o l.
Proof using Hbits.
  intros [Hl Ha] Hp Hv Hf. pose proof (cap_pos) as [_ Ec]. unfold array_at, ENUM_DATA in *.
  destruct (put_le_ok 8 f (16 + 8 * Z.of_nat p) (entry_word (Some v))) as (f' & Hput & Hlen & Hh & Hk); [lia|lia|].
  exists f'. split_and!; [done|done| |].
  - split; [by rewrite length_insert|]. intros q o Hq. unfold array_at, ENUM_DATA. destruct (decide (q = p)) as [->|Hne].
    + rewrite list_lookup_insert_eq in Hq by lia. injection Hq as <-. split; [done|]. by intros ? [= <-].
    + rewrite list_lookup_insert_ne in Hq by done. destruct (Ha q o Hq) as [Hqh Hqv]. split; [|done].
      apply Hk; [|done]. unfold apart, vec_size. rewrite le_encode_length. lia.
  - intros o l Ho Hol. apply Hk; [|done]. unfold apart. lia.
Qed.

Lemma insert_keys_ok index : forall f tab, array_ok f tab -> probing home tab -> eo <= vec_size f ->
  (length (elements tab) + length index < cap)%nat ->
  Forall (fun kv => 0 <= kv.2 /\ keys !! Z.to_nat kv.2 = Some kv.1) index ->
  exists f' tab', insert_keys hash f bits index = Ok f' /\ length f' = length f /\ array_ok f' tab' /\ probing home tab' /\
    elements tab' ≡ₚ (Z.to_nat <$> index.*2) ++ elements tab /\
    forall o l, o + vec_size l <= ENUM_DATA \/ eo <= o -> holds f o l -> holds f' o l.
Proof using Hbits Hsmall.
  induction index as [|[key value] index IH]; intros f tab Ha Hp Hf Hc Hi; cbn [insert_keys].
  { exists f, tab. by split_and!. }
  apply list.Forall_cons in Hi as [[H0 Hkey] Hi]. cbn [fst snd length] in *. pose proof Ha as [Hl _].
  destruct (elements_length tab) as [p0 Hp0]; [lia|]. set (v := Z.to_nat value) in *.
  destruct (first_free tab (home v) p0 Hp0) as (k & Hk & Hfree & Hw). rewrite Hl in Hk.
  assert (Z.of_nat (home v) = Z.land (hash key) (2 ^ bits - 1)) as Eh.
  { unfold home. rewrite Hkey. cbn. rewrite enum_land_mask by done. pose proof (Z.mod_pos_bound (hash key) (2 ^ bits)). pose proof (cap_pos). lia. }
  assert (home v < cap)%nat as Hhome.
  { pose proof (home_key_lt key). unfold home_key in *. unfold home. by rewrite Hkey. }
  assert (free_slot (S cap) f (2 ^ bits - 1) (Z.land (hash key) (2 ^ bits - 1)) = Ok (Z.of_nat (slot cap (home v) k))) as ->.
  { rewrite <- Eh, <- (slot_first (home v) Hhome) at 1. apply (free_slot_ok f tab (home v) k Ha Hw Hfree k 0); lia. }
  cbn [mbind Res_bind]. destruct (array_write f tab (slot cap (home v) k) v Ha) as (f1 & Hput & Hl1 & Ha1 & Hk1); [apply slot_lt; lia|by eapply lookup_lt_Some|done|].
  cbn [entry_word] in Hput. rewrite (ltac:(unfold v; lia) : Z.of_nat v = value) in Hput. rewrite Hput. cbn [mbind Res_bind]. rewrite Hl in Hfree.
  destruct (IH f1 (<[slot cap (home v) k := Some v]> tab)) as (f' & tab' & Hins & Hl' & Ha' & Hp' & Hel & Hkeep); [done| | | |done|].
  { rewrite <- Hl. apply probing_insert; [done|lia|]. done. }
  { unfold vec_size in *. lia. }
  { rewrite (elements_insert tab _ v Hfree). cbn. lia. }
  exists f', tab'. split_and!; [done|lia|done|done| |].
  - rewrite Hel, (elements_insert tab _ v Hfree). cbn. by rewrite <- Permutation_middle.
  - intros o l Ho Hol. apply Hkeep; [done|]. by apply Hk1.
Qed.

(** ** Looking up *)
Lemma entry_read f v key : entry_ok f v key ->
  (off ← get_le 8 f (eo + Z.of_nat v * ENUM_ENTRY); len ← get_le 4 f (eo + Z.of_nat v * ENUM_ENTRY + 8); get_bytes f off len) = Ok key.
Proof using keys.
  intros (off & Hoff & _ & Hlen & H1 & H2 & _ & H4). rewrite (Z.mul_comm (Z.of_nat v)). rewrite (holds_u 8 f _ off H1) by done. cbn [mbind Res_bind].
  rewrite (holds_u 4 f _ (vec_size key) H2) by (unfold vec_size in *; cbn; lia). exact H4.
Qed.

(** The walk of a key meets other keys until it ends. *)
Lemma find_value_ok f tab key k r : array_ok f tab -> entries_ok f -> NoDup keys -> walk tab (home_key key) k ->
  Z.of_nat (length keys) < 2 ^ 31 ->
  (tab !! slot (length tab) (home_key key) k = Some None /\ (key ∉ keys) /\ r = -1 \/
   exists v, tab !! slot (length tab) (home_key key) k = Some (Some v) /\ keys !! v = Some key /\ r = Z.of_nat v) ->
  forall d j fuel, (j + d = k)%nat -> (d < fuel)%nat ->
  find_value fuel f (2 ^ bits - 1) key (Z.of_nat (slot cap (home_key key) j)) = Ok r.
Proof using Hbits Hsmall.
  intros Ha He Hnd Hw Hn31 Hr. pose proof Ha as [Hl _]. rewrite Hl in Hr.
  assert (forall j v fuel, tab !! slot cap (home_key key) j = Some (Some v) -> find_value (S fuel) f (2 ^ bits - 1) key (Z.of_nat (slot cap (home_key key) j)) =
    if bool_decide (keys !! v = Some key) then Ok (Z.of_nat v) else find_value fuel f (2 ^ bits - 1) key (Z.of_nat (slot cap (home_key key) (S j)))) as Hstep.
  { intros j v fuel Hv. cbn [find_value]. rewrite (array_read f tab _ _ Ha Hv). cbn [mbind Res_bind].
    assert (v < length keys)%nat as Hvl by (destruct Ha as [_ Ha]; by apply (Ha _ _ Hv)).
    destruct (Z.eqb_spec (entry_word (Some v)) 0) as [E|_].
    { apply enum_word_range in E; [done|]. by intros ? [= <-]. }
    destruct (lookup_lt_is_Some_2 keys v Hvl) as [kv Hkv]. rewrite Hkv. pose proof (entry_read f v kv (He v kv Hkv)) as Hread. cbn [entry_word].
    destruct (get_le 8 f (eo + Z.of_nat v * ENUM_ENTRY)) as [off| | |]; [|done..]. cbn [mbind Res_bind] in Hread |- *.
    destruct (get_le 4 f (eo + Z.of_nat v * ENUM_ENTRY + 8)) as [len| | |]; [|done..]. cbn [mbind Res_bind] in Hread |- *. rewrite Hread. cbn [mbind Res_bind].
    assert (bool_decide (kv = key) = bool_decide (Some kv = Some key)) as -> by (apply bool_decide_ext; split; congruence).
    case_bool_decide; [|by rewrite slot_pos]. destruct (He v kv Hkv) as (? & _ & _ & _ & _ & _ & H3 & _).
    rewrite (Z.mul_comm (Z.of_nat v)). rewrite (holds_u 4 f _ _ H3) by (cbn; lia). cbn [mbind Res_bind]. rewrite sw_id; [done|lia|unfold is_sw; cbn; lia]. }
  induction d as [|d IH]; intros j fuel Hj Hf; (destruct fuel as [|fuel]; [lia|]).
  - replace j with k by lia. destruct Hr as [(Hk & _ & ->)|(v & Hk & Hv & ->)].
    + cbn [find_value]. by rewrite (array_read f tab _ _ Ha Hk).
    + rewrite (Hstep k v fuel Hk). by rewrite bool_decide_true.
  - destruct (Hw j ltac:(lia)) as [v Hv]. rewrite Hl in Hv. rewrite (Hstep j v fuel Hv). case_bool_decide as E; [|apply IH; lia].
    destruct Hr as [(_ & Hnot & _)|(v' & _ & Hv' & ->)]; [exfalso; apply Hnot; by eapply list_elem_of_lookup_2|].
    do 2 f_equal. by eapply NoDup_lookup.
Qed.
End Table.

(** ** Writing the entries *)
Lemma keys_in_order_ok (keys : list (list Z)) index : forall l,
  Forall (fun kv => 0 <= kv.2 /\ keys !! Z.to_nat kv.2 = Some kv.1) index -> length l = length keys ->
  exists l', keys_in_order index l = Ok l' /\ length l' = length keys /\
    forall i key, keys !! i = Some key ->
      (l !! i = Some (Some (key, Z.of_nat i)) \/ (key, Z.of_nat i) ∈ index) -> l' !! i = Some (Some (key, Z.of_nat i)).
Proof.
  induction index as [|[k v] index IH]; intros l Hi Hl; cbn [keys_in_order].
  { exists l. split_and!; [done..|]. intros i key _ [H|H%not_elem_of_nil]; done. }
  apply list.Forall_cons in Hi as [[H0 Hk] Hi]. cbn [fst snd] in *. pose proof (lookup_lt_Some _ _ _ Hk).
  rewrite (proj2 (vec_set_Ok l v (Some (k, v)) (<[Z.to_nat v := Some (k, v)]> l))) by (split; [unfold vec_size; lia|done]). cbn [mbind Res_bind].
  destruct (IH (<[Z.to_nat v := Some (k, v)]> l) Hi) as (l' & -> & Hl' & Hlook); [by rewrite length_insert|].
  exists l'. split_and!; [done..|]. intros i key Hkey Hor. apply (Hlook i key Hkey).
  destruct (decide (i = Z.to_nat v)) as [->|Hne].
  - left. rewrite list_lookup_insert_eq by lia. rewrite Hk in Hkey. injection Hkey as ->. by rewrite Z2Nat.id.
  - destruct Hor as [H1|[[= _ E]|H1]%elem_of_cons]; [left; by rewrite list_lookup_insert_ne|lia|by right].
Qed.

Definition string_bytes (ks : list (list Z)) : Z := foldr (fun k n => vec_size k + 1 + n) 0 ks.

Lemma string_bytes_pos ks : 0 <= string_bytes ks.
Proof. unfold string_bytes, vec_size. induction ks; cbn; lia. Qed.

Lemma write_entries_ok bits ks : forall f (i : nat) so, 1 <= bits ->
  let eo := ENUM_DATA + 2 ^ bits * 8 in
  eo + ENUM_ENTRY * Z.of_nat (i + length ks) <= so -> so + string_bytes ks <= vec_size f -> so + string_bytes ks < 2 ^ 64 ->
  Forall (fun k => vec_size k < 2 ^ 32) ks ->
  exists f', write_entries f eo (imap (fun j k => Some (k, Z.of_nat (i + j))) ks) so = Ok (f', so + string_bytes ks) /\
    length f' = length f /\
    (forall o l, o + vec_size l <= eo + ENUM_ENTRY * Z.of_nat i \/ (eo + ENUM_ENTRY * Z.of_nat (i + length ks) <= o /\ o + vec_size l <= so) ->
      holds f o l -> holds f' o l) /\
    forall j k, ks !! j = Some k -> entry_ok bits f' (i + j) k.
Proof.
  unfold ENUM_DATA, ENUM_ENTRY, vec_size. induction ks as [|k ks IH]; intros f i so Hb Hso Hf Hmax Hks; cbn zeta in *.
  { exists f. cbn. rewrite Z.add_0_r. split_and!; [done|done| |done]. intros o l _ H. exact H. }
  apply list.Forall_cons in Hks as [Hk Hks]. assert (0 < 2 ^ bits) by (apply Z.pow_pos_nonneg; lia).
  pose proof (string_bytes_pos ks) as Hp. rewrite imap_cons. cbn [write_entries string_bytes foldr length] in *. fold (string_bytes ks) in *.
  unfold vec_size in *. rewrite Nat.add_0_r. unfold ENUM_ENTRY. set (e := 16 + 2 ^ bits * 8 + 16 * Z.of_nat i) in *.
  destruct (put_le_ok 8 f e so) as (f1 & -> & Hl1 & Hh1 & Hk1); [lia|unfold vec_size; lia|]. cbn [mbind Res_bind].
  destruct (put_le_ok 4 f1 (e + 8) (Z.of_nat (length k))) as (f2 & -> & Hl2 & Hh2 & Hk2); [lia|unfold vec_size; lia|]. cbn [mbind Res_bind].
  destruct (put_le_ok 4 f2 (e + 12) (Z.of_nat i)) as (f3 & -> & Hl3 & Hh3 & Hk3); [lia|unfold vec_size; lia|]. cbn [mbind Res_bind].
  destruct (put_bytes_ok f3 so (k ++ [0])) as (f4 & -> & Hl4 & Hh4 & Hk4); [lia|unfold vec_size; rewrite length_app; cbn; lia|]. cbn [mbind Res_bind].
  unfold vec_size in *. rewrite length_app in Hk4. cbn [length] in Hk4.
  destruct (IH f4 (S i) (so + (Z.of_nat (length k) + 1))) as (f' & Hw & Hl' & Hkeep & Hent); [done|lia|lia|lia|done|].
  exists f'. split_and!; [|lia| |].
  - unfold compose. rewrite (imap_ext _ (fun j k => Some (k, Z.of_nat (S i + j)))) by (intros; do 3 f_equal; lia).
    etransitivity; [exact Hw|]. do 2 f_equal. lia.
  - intros o l Hr Hol. apply Hkeep; [destruct Hr; [left; lia|right; lia]|].
    apply Hk4; [unfold apart; lia|]. apply Hk3; [unfold apart; lia|]. apply Hk2; [unfold apart; lia|]. apply Hk1; [unfold apart; lia|done].
  - intros [|j] k' Hj; cbn in Hj; [|replace (i + S j)%nat with (S i + j)%nat by lia; by apply Hent]. injection Hj as ->.
    rewrite Nat.add_0_r. exists so. unfold ENUM_DATA, ENUM_ENTRY, vec_size. fold e.
    apply holds_app in Hh4 as [Hh4 _]. split_and!; try lia; (apply Hkeep; [rewrite ?le_encode_length; lia|]); [..|done].
    + apply Hk4; [rewrite le_encode_length; unfold apart; lia|]. apply Hk3; [rewrite le_encode_length; unfold apart; lia|].
      apply Hk2; [rewrite le_encode_length; unfold apart; lia|done].
    + apply Hk4; [rewrite le_encode_length; unfold apart; lia|]. apply Hk3; [rewrite le_encode_length; unfold apart; lia|done].
    + apply Hk4; [rewrite le_encode_length; unfold apart; lia|done].
Qed.

(** ** The whole file *)

(** The map from keys to their positions, in any order of iteration. *)
Definition enum_map (keys : list (list Z)) : list (list Z * Z) := imap (fun i k => (k, Z.of_nat i)) keys.

Lemma enum_map_spec keys index kv : index ≡ₚ enum_map keys -> (kv ∈ index <-> 0 <= kv.2 /\ keys !! Z.to_nat kv.2 = Some kv.1).
Proof.
  intros Hp. rewrite Hp. unfold enum_map. rewrite elem_of_lookup_imap. destruct kv as [k v]. cbn [fst snd]. split.
  - intros (i & x & [= -> ->] & Hx). rewrite Nat2Z.id. split; [lia|done].
  - intros [H0 Hk]. exists (Z.to_nat v), k. by rewrite Z2Nat.id.
Qed.

Lemma enum_length_eq bits keys index : index ≡ₚ enum_map keys ->
  enum_length bits index = ENUM_DATA + 2 ^ bits * 8 + ENUM_ENTRY * vec_size keys + string_bytes keys.
Proof.
  intros Hp. set (g := fun (kv : list Z * Z) n => ENUM_ENTRY + vec_size kv.1 + 1 + n).
  assert (forall l a, foldl (fun n (kv : list Z * Z) => n + (ENUM_ENTRY + vec_size kv.1 + 1)) a l = a + foldr g 0 l) as Hfold.
  { induction l as [|kv l IH]; intros a; cbn [foldl foldr]; [lia|]. rewrite IH. subst g. cbn. lia. }
  unfold enum_length. rewrite Hfold. assert (foldr g 0 index = foldr g 0 (enum_map keys)) as ->.
  { clear Hfold. induction Hp; cbn [foldr]; subst g; cbn in *; lia. }
  assert (forall (h : nat -> Z), foldr g 0 (imap (fun i k => (k, h i)) keys) = ENUM_ENTRY * vec_size keys + string_bytes keys) as H.
  { clear. unfold string_bytes, vec_size. induction keys as [|k keys IH]; intros h; [cbn; lia|]. rewrite imap_cons. cbn [foldr length]. unfold compose.
    rewrite (IH (fun i => h (S i))). subst g. cbn. unfold ENUM_ENTRY, vec_size. lia. }
  unfold enum_map. rewrite H. lia.
Qed.

Lemma zeros_array f n : holds f ENUM_DATA (replicate (n * 8) 0) -> forall p, (p < n)%nat -> holds f (array_at (Z.of_nat p)) (le_encode 8 0).
Proof.
  intros H p Hp. unfold array_at. change (le_encode 8 0) with (replicate 8 0).
  pose proof (holds_slice f ENUM_DATA _ (8 * Z.of_nat p) 8 H) as Hz. unfold vec_size in Hz. rewrite length_replicate in Hz.
  specialize (Hz ltac:(lia) ltac:(lia) ltac:(lia)). rewrite drop_replicate, take_replicate, Nat.min_l in Hz by lia. exact Hz.
Qed.

Lemma elements_empty {A} n : elements (replicate n (None : option A)) = [].
Proof. unfold elements. induction n as [|n IH]; [done|]. exact IH. Qed.

(** Closes comparisons of ranges. *)
Ltac le_room := unfold apart, vec_size, ENUM_DATA; rewrite ?le_encode_length, ?length_replicate; lia.

Section File.
Context (hash : list Z -> Z).

(** What [Serialize] leaves in the file. *)
Definition enum_file (keys : list (list Z)) (bits : Z) (f : list Z) (tab : list (option nat)) : Prop :=
  1 <= bits /\ ENUM_DATA + 2 ^ bits * 8 + ENUM_ENTRY * Z.of_nat (length keys) < 2 ^ 64 /\ Z.of_nat (length keys) < 2 ^ bits /\
  holds f 0 (le_encode 8 (ENUM_DATA + 2 ^ bits * 8)) /\ holds f 8 (le_encode 8 (2 ^ bits - 1)) /\
  entries_ok keys bits f /\ array_ok keys bits f tab /\ probing (home hash keys bits) tab /\
  elements tab ≡ₚ seq 0 (length keys).

Lemma keys_list keys index : index ≡ₚ enum_map keys ->
  keys_in_order index (replicate (length index) None) = Ok (imap (fun i k => Some (k, Z.of_nat i)) keys).
Proof.
  intros Hp. assert (length index = length keys) as Hl by (apply Permutation_length in Hp; rewrite Hp; apply length_imap).
  destruct (keys_in_order_ok keys index (replicate (length index) None)) as (l & -> & Hll & Hlook).
  { apply list.Forall_forall. intros kv Hkv. by apply (enum_map_spec keys index kv Hp). }
  { by rewrite length_replicate. }
  f_equal. apply list_eq. intros i. rewrite list_lookup_imap. destruct (keys !! i) as [k|] eqn:E; cbn.
  - apply (Hlook i k E). right. apply (enum_map_spec keys index _ Hp). cbn. rewrite Nat2Z.id. split; [lia|done].
  - apply lookup_ge_None in E. apply lookup_ge_None. lia.
Qed.

Lemma values_seq keys index : index ≡ₚ enum_map keys -> Z.to_nat <$> index.*2 ≡ₚ seq 0 (length keys).
Proof.
  intros Hp. rewrite Hp. clear Hp. unfold enum_map. rewrite <- list_fmap_compose, fmap_imap. apply Permutation_refl', list_eq. intros i. rewrite list_lookup_imap.
  destruct (keys !! i) as [k|] eqn:E; cbn.
  - pose proof (lookup_lt_Some _ _ _ E). rewrite lookup_seq_lt by lia. by rewrite Nat2Z.id.
  - apply lookup_ge_None in E. by rewrite lookup_seq_ge.
Qed.

Lemma Serialize_enum_ok old keys index : index ≡ₚ enum_map keys -> vec_size keys < 2 ^ 31 -> string_bytes keys < 2 ^ 62 ->
  Forall (fun k => vec_size k < 2 ^ 32) keys ->
  exists f bits tab, Serialize_enum hash old index = Ok f /\ enum_file keys bits f tab.
Proof.
  intros Hp Hn Hstr Hks. assert (length index = length keys) as Hli by (apply Permutation_length in Hp; rewrite Hp; apply length_imap).
  unfold vec_size in Hn. destruct (find_bits_ok 32 63 (vec_size index) 1) as (bits & Hb & Hbr & Hbn); [lia|lia|unfold vec_size; cbn; lia|].
  assert (2 ^ 1 <= 2 ^ bits <= 2 ^ 33) as Hpow by (split; apply Z.pow_le_mono_r; lia). change (2 ^ 1) with 2 in Hpow. change (2 ^ 33) with 8589934592 in Hpow.
  unfold Serialize_enum. rewrite Hb. cbn [mbind Res_bind]. rewrite (keys_list keys index Hp). cbn [mbind Res_bind].
  rewrite (enum_length_eq bits keys index Hp). pose proof (string_bytes_pos keys) as Hsp. unfold vec_size in *. rewrite Hli in *.
  set (eo := ENUM_DATA + 2 ^ bits * 8) in *. set (len := eo + ENUM_ENTRY * Z.of_nat (length keys) + string_bytes keys).
  assert (0 <= len < 2 ^ 63) as Hlen by (subst len eo; unfold ENUM_DATA, ENUM_ENTRY in *; lia).
  pose proof (fallocate_length old len ltac:(lia)) as Hfl. unfold vec_size in Hfl.
  destruct (put_le_ok 8 (fallocate old len) 0 eo) as (f1 & -> & Hl1 & Hh1 & _); [lia|unfold vec_size; subst len eo; unfold ENUM_DATA, ENUM_ENTRY in *; lia|].
  cbn [mbind Res_bind]. rewrite (Z.mul_comm (Z.of_nat (length keys))).
  destruct (write_entries_ok bits keys f1 0 (eo + ENUM_ENTRY * Z.of_nat (length keys))) as (f2 & Hw & Hl2 & Hk2 & He2);
    [lia|cbn; lia|unfold vec_size; subst len; lia|subst len; lia|done|].
  fold eo in Hw. cbn [Nat.add] in Hw. rewrite Hw. cbn [mbind Res_bind]. fold len. rewrite Z.eqb_refl. cbn [negb].
  destruct (put_le_ok 8 f2 8 (2 ^ bits - 1)) as (f3 & -> & Hl3 & Hh3 & Hk3); [lia|unfold vec_size; subst len eo; unfold ENUM_DATA, ENUM_ENTRY in *; lia|]. cbn [mbind Res_bind].
  destruct (put_bytes_ok f3 ENUM_DATA (replicate (Z.to_nat (2 ^ bits * 8)) 0)) as (f4 & -> & Hl4 & Hh4 & Hk4);
    [done|unfold vec_size; rewrite length_replicate; subst len eo; unfold ENUM_DATA, ENUM_ENTRY in *; lia|]. cbn [mbind Res_bind].
  assert (length f4 = length (fallocate old len)) as Hlf by lia.
  destruct (insert_keys_ok hash keys bits ltac:(lia)) with (index := index) (f := f4) (tab := @replicate (option nat) (Z.to_nat (2 ^ bits)) None)
    as (f & tab & Hins & _ & Ha & Hpr & Hel & Hk).
  { fold eo. subst len. lia. }
  { split; [apply length_replicate|]. intros q o [-> Hq]%lookup_replicate. split; [|done]. apply (zeros_array f4 (Z.to_nat (2 ^ bits))); [|done].
    by replace (Z.to_nat (2 ^ bits) * 8)%nat with (Z.to_nat (2 ^ bits * 8)) by lia. }
  { apply probing_empty. }
  { unfold vec_size. subst len eo. unfold ENUM_DATA, ENUM_ENTRY in *. lia. }
  { rewrite elements_empty. cbn. lia. }
  { apply list.Forall_forall. intros kv Hkv. by apply (enum_map_spec keys index kv Hp). }
  assert (forall o l, eo <= o -> holds f2 o l -> holds f o l) as Hkeep.
  { intros o l Ho Hol. apply Hk; [by right|]. apply Hk4; [unfold apart, vec_size; rewrite length_replicate; subst eo; unfold ENUM_DATA in *; lia|].
    apply Hk3; [unfold apart; subst eo; unfold ENUM_DATA in *; lia|done]. }
  exists f, bits, tab. split; [done|]. split_and!; fold eo; try lia; try done.
  - apply Hk; [left; le_room|]. apply Hk4; [right; le_room|]. apply Hk3; [right; le_room|]. apply Hk2; [left; le_room|done].
  - apply Hk; [left; le_room|]. apply Hk4; [right; le_room|done].
  - intros v key Hv. destruct (He2 v key Hv) as (off & ? & Heo & ? & ? & ? & ? & ?). fold eo in Heo. exists off. fold eo. unfold ENUM_ENTRY in *.
    split_and!; try lia; (apply Hkeep; [fold eo; lia|done]).
  - rewrite Hel, elements_empty, app_nil_r. by apply values_seq.
Qed.

Lemma read_key_ok keys bits f tab v key : enum_file keys bits f tab -> keys !! v = Some key -> read_key f (Z.of_nat v) = Ok key.
Proof.
  intros (Hb & Hs & _ & H0 & _ & He & _) Hv. destruct (He v key Hv) as (off & Hoff & _ & Hlen & H1 & H2 & _ & H4).
  assert (0 < 2 ^ bits) by (apply Z.pow_pos_nonneg; lia). unfold read_key. rewrite (holds_u 8 f 0 _ H0) by (unfold ENUM_DATA, ENUM_ENTRY in *; cbn; lia).
  cbn [mbind Res_bind]. rewrite (holds_u 4 f _ (vec_size key) H2) by (unfold vec_size in *; cbn; lia). cbn [mbind Res_bind].
  rewrite (holds_u 8 f _ off H1) by done. exact H4.
Qed.

Lemma read_value_ok keys bits f tab key r : enum_file keys bits f tab -> NoDup keys -> vec_size keys < 2 ^ 31 ->
  ((key ∉ keys) /\ r = -1 \/ exists v, keys !! v = Some key /\ r = Z.of_nat v) -> read_value hash f key = Ok r.
Proof.
  intros (Hb & Hs & Hcap & _ & H8 & He & Ha & Hpr & Hel) Hnd Hn Hr. assert (0 < 2 ^ bits < 2 ^ 64) as Hpow.
  { split; [apply Z.pow_pos_nonneg; lia|]. unfold ENUM_DATA, ENUM_ENTRY in Hs. lia. }
  unfold read_value. rewrite (holds_u 8 f 8 _ H8) by (cbn in *; lia). cbn [mbind Res_bind].
  pose proof (home_key_lt hash bits Hb key) as Hh. set (h := home_key hash bits key) in *. pose proof Ha as [Hl _].
  assert (Z.land (hash key) (2 ^ bits - 1) = Z.of_nat (slot (Z.to_nat (2 ^ bits)) h 0)) as ->.
  { rewrite slot_first by done. subst h. unfold home_key. rewrite enum_land_mask by done. pose proof (Z.mod_pos_bound (hash key) (2 ^ bits)). lia. }
  destruct Hr as [[Hno ->]|(v & Hv & ->)].
  - destruct (elements_length tab) as [p0 Hp0]; [rewrite Hel, length_seq; lia|].
    destruct (first_free tab h p0 Hp0) as (k & Hk & Hfree & Hw).
    apply (find_value_ok hash keys bits Hb Hs f tab key k (-1) Ha He Hnd Hw Hn) with (d := k); [by left|lia|lia].
  - assert (v ∈ elements tab) as [p Hp]%elements_elem by (rewrite Hel; apply elem_of_seq; apply lookup_lt_Some in Hv; lia).
    destruct (Hpr p v Hp) as (k & Hk & Hslot & Hw). unfold home in Hslot, Hw. rewrite Hv in Hslot, Hw. cbn [default from_option id] in Hslot, Hw.
    apply (find_value_ok hash keys bits Hb Hs f tab key k (Z.of_nat v) Ha He Hnd Hw Hn) with (d := k); [|lia|lia].
    right. exists v. split_and!; [|done|done]. unfold home_key. by rewrite Hslot.
Qed.

(** Both directions. *)
Lemma enum_roundtrip_spec old keys index : NoDup keys -> index ≡ₚ enum_map keys -> vec_size keys < 2 ^ 31 ->
  string_bytes keys < 2 ^ 62 -> Forall (fun k => vec_size k < 2 ^ 32) keys ->
  exists f, Serialize_enum hash old index = Ok f /\
    (forall v key, keys !! v = Some key -> read_key f (Z.of_nat v) = Ok key /\ read_value hash f key = Ok (Z.of_nat v)) /\
    forall key, key ∉ keys -> read_value hash f key = Ok (-1).
Proof.
  intros Hnd Hp Hn Hstr Hks. destruct (Serialize_enum_ok old keys index Hp Hn Hstr Hks) as (f & bits & tab & Hf & Hfile).
  exists f. split_and!; [done| |].
  - intros v key Hv. split; [by apply (read_key_ok keys bits f tab)|]. apply (read_value_ok keys bits f tab key); [done..|]. right. by exists v.
  - intros key Hkey. apply (read_value_ok keys bits f tab key); [done..|]. by left.
Qed.
(** C26. The file of an enum translates in both directions: whatever the file held before,
    whatever the hash function and the order in which the map is iterated, the writer
    returns, the key of every value and the value of every key are read back, and a
    string that is no key has the value [-1]. *)
Theorem enum_roundtrip old keys index : NoDup keys -> index ≡ₚ enum_map keys -> vec_size keys < 2 ^ 31 ->
  string_bytes keys < 2 ^ 62 -> Forall (fun k => vec_size k < 2 ^ 32) keys ->
  exists f, Serialize_enum hash old index = Ok f /\
    (forall v key, keys !! v = Some key -> read_key f (Z.of_nat v) = Ok key /\ read_value hash f key = Ok (Z.of_nat v)) /\
    forall key, key ∉ keys -> read_value hash f key = Ok (-1).
Proof. exact (enum_roundtrip_spec old keys index). Qed.
End File.

(** Three keys in another order, all with the same hash, over an old file. *)
Lemma enum_roundtrip_witness : exists f, Serialize_enum (fun _ => 5) [1; 2] [([98], 1); ([97; 97], 0); ([], 2)] = Ok f /\
  (forall v key, [[97; 97]; [98]; []] !! v = Some key -> read_key f (Z.of_nat v) = Ok key /\ read_value (fun _ => 5) f key = Ok (Z.of_nat v)) /\
  forall key, key ∉ [[97; 97]; [98]; []] -> read_value (fun _ => 5) f key = Ok (-1).
Proof.
  apply (enum_roundtrip (fun _ => 5) [1; 2] [[97; 97]; [98]; []] [([98], 1); ([97; 97], 0); ([], 2)]).
  - apply (bool_decide_unpack _). vm_compute. exact I.
  - apply Permutation_swap.
  - reflexivity.
  - reflexivity.
  - repeat constructor.
Defined.

(** ** The manager *)
Definition manager_ok (disk : list Z -> option (list Z)) (m : EnumManager) : Prop :=
  (forall id, is_Some (info_ m !! id) <-> 0 <= id < Z.of_nat (base.size (info_ m))) /\
  forall id f, file_ m !! id = Some f -> exists path, info_ m !! id = Some path /\ disk path = Some f.

Lemma manager_new disk : manager_ok disk (MkManager ∅ ∅).
Proof.
  split; [|by intros id f; cbn; rewrite lookup_empty]. intros id. cbn. rewrite lookup_empty, map_size_empty.
  split; [by intros [? ?]|lia].
Qed.

(** A registered enum gets a number of its own. *)
Lemma Register_ok disk m path : manager_ok disk m ->
  let '(m', id) := Register m path in
  info_ m !! id = None /\ info_ m' !! id = Some path /\ manager_ok disk m'.
Proof.
  intros [Hi Hf]. cbn. set (id := Z.of_nat (base.size (info_ m))).
  assert (info_ m !! id = None) as Hn by (apply eq_None_not_Some; rewrite Hi; subst id; lia).
  split_and!; [done|apply lookup_insert_eq|]. split; cbn.
  - intros i. rewrite map_size_insert_None by done. destruct (decide (i = id)) as [->|Hne].
    + rewrite lookup_insert_eq. split; [subst id; lia|by eauto].
    + rewrite lookup_insert_ne by done. rewrite Hi. subst id. lia.
  - intros i f Hif. destruct (Hf i f Hif) as (p & Hp & Hd). exists p. split; [|done].
    rewrite lookup_insert_ne; [done|]. intros <-. by rewrite Hn in Hp.
Qed.

(** Opening reads the file once and gives the same contents afterwards. *)
Lemma open_enum_ok disk m id path f : manager_ok disk m -> info_ m !! id = Some path -> disk path = Some f ->
  exists m', open_enum disk m id = Ok (m', f) /\ manager_ok disk m' /\ info_ m' = info_ m.
Proof.
  intros [Hi Hf] Hp Hd. unfold open_enum. destruct (file_ m !! id) as [g|] eqn:E.
  - destruct (Hf id g E) as (p & Hp' & Hd'). rewrite Hp in Hp'. injection Hp' as <-. rewrite Hd in Hd'. injection Hd' as <-. by exists m.
  - rewrite Hp, Hd. eexists. split; [done|]. split; [|done]. split; [done|]. cbn. intros i g Hg.
    apply lookup_insert_Some in Hg as [[<- <-]|[_ Hg]]; [by exists path|by apply Hf].
Qed.
