(* ===== verification/EnumPlan.v ===== *)
(** * Enum conditions

    Conditions over enums compare keys: what the planner (src/plan/planner.cc) makes of
    comparisons and [IN] lists over an enum column accepts the rows whose key, as
    [EnumManager] (src/runtime/enum.cc) gives it, is a literal of the condition.  The
    planner and the generated code use the manager through the class [EnumKeys], which
    the files of Enum.v implement. *)
From S2P Require Import Prelude ByteFile LinearProbe Enum ProgramBuilder SqlValue Aggregator Expression Plan Planner PlannerSound.
#[local] Open Scope Z_scope.

(** ** The interface

    [enum_key] is [EnumManager::GetKey], [enum_value] is [EnumManager::GetValue], and
    [valid id v] says that [v] is a value of the enum. *)
Class EnumKeys (enum_key : Z -> Z -> list Z) (enum_value : Z -> list Z -> Z) (valid : Z -> Z -> Prop) : Prop := {
  valid_nonneg id v : valid id v -> 0 <= v;
  value_of_key id v : valid id v -> enum_value id (enum_key id v) = v;
  key_of_value id s : enum_value id s = -1 \/ valid id (enum_value id s) /\ enum_key id (enum_value id s) = s
}.

(** ** The files *)
Section Files.
Context (hash : list Z -> Z) (files : Z -> list Z).
Definition file_key (id v : Z) : list Z := match read_key (files id) v with Ok k => k | _ => [] end.
Definition file_value (id : Z) (s : list Z) : Z := match read_value hash (files id) s with Ok v => v | _ => -1 end.

(** The files [Serialize] writes for maps whose values are the positions of the keys. *)
Definition files_of (keys : Z -> list (list Z)) : Prop := forall id,
  NoDup (keys id) /\ vec_size (keys id) < 2 ^ 31 /\ string_bytes (keys id) < 2 ^ 62 /\
  Forall (fun k => vec_size k < 2 ^ 32) (keys id) /\
  exists old index, index ≡ₚ enum_map (keys id) /\ Serialize_enum hash old index = Ok (files id).

Lemma files_EnumKeys keys : files_of keys ->
  EnumKeys file_key file_value (fun id v => 0 <= v < vec_size (keys id)).
Proof.
  intros Hf. assert (forall id, (forall v key, keys id !! v = Some key -> file_key id (Z.of_nat v) = key /\ file_value id key = Z.of_nat v) /\
    forall s, s ∉ keys id -> file_value id s = -1) as H.
  { intros id. destruct (Hf id) as (Hnd & Hn & Hs & Hk & old & index & Hp & Hser).
    destruct (enum_roundtrip_spec hash old (keys id) index Hnd Hp Hn Hs Hk) as (f & Hser' & Hin & Hout). rewrite Hser in Hser'. injection Hser' as <-.
    unfold file_key, file_value. split; [intros v key Hv; by destruct (Hin v key Hv) as [-> ->]|]. intros s Hs'. by rewrite Hout. }
  split.
  - by intros id v [].
  - intros id v [H0 Hv]. destruct (lookup_lt_is_Some_2 (keys id) (Z.to_nat v)) as [key Hkey]; [unfold vec_size in Hv; lia|].
    destruct (H id) as [Hin _]. destruct (Hin _ _ Hkey) as [E1 E2]. rewrite Z2Nat.id in E1, E2 by done. by rewrite E1.
  - intros id s. destruct (H id) as [Hin Hout]. destruct (decide (s ∈ keys id)) as [[v Hv]%list_elem_of_lookup|Hno]; [right|left; by apply Hout].
    destruct (Hin v s Hv) as [E1 E2]. rewrite E2. apply lookup_lt_Some in Hv. unfold vec_size. split; [lia|done].
Qed.
End Files.

(** ** Comparisons *)
Section Conditions.
Context `{HE : EnumKeys enum_key enum_value valid} (like : list Z -> list Z -> bool) (env : Env).
Context (c : Expression) (id x : Z).
Context (Ht : Type_ c = Ok (MkType ENUM id)) (Hc : Compute_ enum_key like env c = Ok (MkSQL (VEnum id x) false)) (Hx : valid id x).
#[local] Abbreviation accepted := (accepted enum_key like env).

Lemma value_is_key s : (x =? enum_value id s) = bool_decide (enum_key id x = s).
Proof using Hx HE.
  apply Bool.eq_iff_eq_true. rewrite Z.eqb_eq, bool_decide_eq_true. split.
  - intros E. destruct (key_of_value id s) as [H|[_ H]]; [|by rewrite E].
    pose proof (valid_nonneg id x Hx). lia.
  - intros <-. symmetry. by apply value_of_key.
Qed.

Lemma enum_compare op s : op = OpEQ \/ op = OpNEQ ->
  exists e, Plan_equality enum_value op c (LiteralExpr (VString s) false) = Ok e /\
    accepted e = match op with OpEQ => bool_decide (enum_key id x = s) | _ => negb (bool_decide (enum_key id x = s)) end.
Proof using All.
  intros Hop. unfold Plan_equality. rewrite Ht. cbn [mbind Res_bind string_literal].
  change (is_type ENUM (MkType ENUM id)) with true. cbn [mbind Res_bind string_literal enum_id].
  unfold checked. cbn [Type_]. rewrite Ht. set (r := LiteralExpr (VEnum id (enum_value id s)) false).
  assert (CalculateBinaryType op (MkType ENUM id) (MkType ENUM id) = Ok Boolean) as E.
  { unfold CalculateBinaryType. change (is_type ENUM (MkType ENUM id)) with true. rewrite bool_decide_true by done. by destruct Hop as [-> | ->]. }
  cbn [Type_ r ir_type mbind Res_bind] in *. subst r. cbn [Type_ ir_type mbind Res_bind]. rewrite E. cbn [mbind Res_bind].
  eexists. split; [done|]. unfold Plan.accepted. cbn [Compute_]. rewrite Hc. cbn [mbind Res_bind eval_binary].
  rewrite <- (value_is_key s). assert (forall b, accepts (truth (Ok (MkSQL (VBool b) false))) = b) as Hb by (by intros []).
  destruct Hop as [-> | ->]; cbn [eval_binary mbind Res_bind]; unfold EvaluateBinary; cbn [sv_value]; unfold EvaluateBinaryEnum, unless_null;
    cbn [sv_value sv_null orb]; rewrite Z.eqb_refl; apply Hb.
Qed.

(** The literals of an [IN] list. *)
Lemma enum_cases_literals ss : forall values, enum_cases enum_value id ((fun s => Ok (LiteralExpr (VString s) false)) <$> ss) values =
  Ok (Some (values ++ base.filter (fun v => v <> -1) (enum_value id <$> ss))).
Proof using.
  induction ss as [|s ss IH]; intros values; [by rewrite app_nil_r|]. rewrite !fmap_cons. cbn [enum_cases mbind Res_bind string_literal].
  rewrite IH, list.filter_cons. destruct (Z.eqb_spec (enum_value id s) (-1)) as [->|Hne].
  - by rewrite decide_False by (by intros []).
  - rewrite decide_True by done. by rewrite <- (assoc_L (++)).
Qed.

Lemma enum_in_list ss : exists e, Plan_in enum_value (Ok c) ((fun s => Ok (LiteralExpr (VString s) false)) <$> ss) = Ok e /\
  accepted e = bool_decide (enum_key id x ∈ ss).
Proof using All.
  unfold Plan_in. cbn [mbind Res_bind]. rewrite Ht. cbn [mbind Res_bind]. change (is_type ENUM (MkType ENUM id)) with true.
  cbn [mbind Res_bind enum_id]. rewrite enum_cases_literals. cbn [mbind Res_bind app].
  assert (x ∈ base.filter (fun v => v <> -1) (enum_value id <$> ss) <-> enum_key id x ∈ ss) as Hin.
  { rewrite list_elem_of_filter, list_elem_of_fmap. split.
    - intros [Hne (s & E & Hs)]. destruct (key_of_value id s) as [H|[_ H]]; [congruence|]. by rewrite E, H.
    - intros Hk. pose proof (valid_nonneg id x Hx). split; [lia|]. exists (enum_key id x). split; [|done]. symmetry. by apply value_of_key. }
  destruct (base.filter _ _) as [|v vs] eqn:E.
  - eexists. split; [done|]. symmetry. apply bool_decide_eq_false. rewrite <- Hin. apply not_elem_of_nil.
  - unfold checked. cbn [Type_]. rewrite Ht. cbn [mbind Res_bind]. change (CalculateEnumInType (MkType ENUM id)) with (Ok Boolean).
    cbn [mbind Res_bind]. eexists. split; [done|]. pose proof (valid_nonneg id x Hx).
    destruct (enum_in_spec enum_key like env c (v :: vs) id x Hc) as (b & Hb & Hbx); [done|lia|]. unfold Plan.accepted. rewrite Hb.
    apply Bool.eq_iff_eq_true. rewrite bool_decide_eq_true, <- Hin, <- Hbx. by destruct b.
Qed.
End Conditions.

(** C24. Conditions over an enum column compare keys: on a row whose value has the key [k],
    the planned [column = 's'] accepts when [k] is [s], [column <> 's'] when it is not,
    and [column IN (...)] when [k] is one of the literals, those that are no key of the
    enum included. *)
Theorem enum_conditions enum_key enum_value valid like env c id x s ss : EnumKeys enum_key enum_value valid ->
  Type_ c = Ok (MkType ENUM id) -> Compute_ enum_key like env c = Ok (MkSQL (VEnum id x) false) -> valid id x ->
  exists eq neq in_, Plan_equality enum_value OpEQ c (LiteralExpr (VString s) false) = Ok eq /\
    Plan_equality enum_value OpNEQ c (LiteralExpr (VString s) false) = Ok neq /\
    Plan_in enum_value (Ok c) ((fun s => Ok (LiteralExpr (VString s) false)) <$> ss) = Ok in_ /\
    accepted enum_key like env eq = bool_decide (enum_key id x = s) /\
    accepted enum_key like env neq = negb (bool_decide (enum_key id x = s)) /\
    accepted enum_key like env in_ = bool_decide (enum_key id x ∈ ss).
Proof.
  intros HE Ht Hc Hx. destruct (enum_compare like env c id x Ht Hc Hx OpEQ s) as (e1 & H1 & A1); [by left|].
  destruct (enum_compare like env c id x Ht Hc Hx OpNEQ s) as (e2 & H2 & A2); [by right|].
  destruct (enum_in_list like env c id x Ht Hc Hx ss) as (e3 & H3 & A3). exists e1, e2, e3. by split_and!.
Qed.

(** The enum with the keys "a", "bb" and the empty string in one file. *)
Module EnumDemo.
Definition keys (_ : Z) : list (list Z) := [[97]; [98; 98]; []].
Definition hash (s : list Z) : Z := vec_size s.
Definition file (_ : Z) : list Z := match Serialize_enum hash [] (enum_map (keys 0)) with Ok f => f | _ => [] end.
Lemma demo_files : files_of hash file keys.
Proof.
  intros id. split_and!; [apply (bool_decide_unpack _); vm_compute; exact I|reflexivity|reflexivity|repeat constructor|].
  exists [], (enum_map (keys 0)). split; [done|]. vm_compute. reflexivity.
Qed.
Definition column : Expression := ColumnRefExpr (MkType ENUM 4) false 0 0.
Definition env : Env := MkEnv [[MkSQL (VEnum 4 1) false]] [].
Lemma enum_conditions_witness : exists eq neq in_,
  Plan_equality (file_value hash file) OpEQ column (LiteralExpr (VString [98; 98]) false) = Ok eq /\
  Plan_equality (file_value hash file) OpNEQ column (LiteralExpr (VString [98; 98]) false) = Ok neq /\
  Plan_in (file_value hash file) (Ok column) ((fun s => Ok (LiteralExpr (VString s) false)) <$> [[99]; [97]]) = Ok in_ /\
  accepted (file_key file) (fun _ _ => false) env eq = true /\ accepted (file_key file) (fun _ _ => false) env neq = false /\
  accepted (file_key file) (fun _ _ => false) env in_ = false.
Proof.
  apply (enum_conditions (file_key file) (file_value hash file) (fun id v => 0 <= v < vec_size (keys id)) (fun _ _ => false) env column 4 1
    [98; 98] [[99]; [97]]).
  - exact (files_EnumKeys hash file keys demo_files).
  - reflexivity.
  - reflexivity.
  - split; [discriminate|reflexivity].
Defined.
End EnumDemo.

