(* ===== verification/WhereMeaning.v ===== *)
(** * What a statement means

    The meaning of the expressions of a statement (src/parse/), by the names of tables
    and columns and without the planner: comparisons by the order of the values, [NOT],
    [AND], [OR] and [IN] by three-valued logic.  The plans of src/plan/planner.cc,
    evaluated by the generated code, compute the aggregates this meaning asks for. *)
From Stdlib Require Import SpecFloat.
From stdpp Require Import gmap strings.
From S2P Require Import Prelude ProgramBuilder SqlValue Struct Aggregator Expression Vector RowBuffer HashTable Joins Plan Planner PlannerSound EnumPlan.
#[local] Open Scope Z_scope.

(** ** Scopes *)

(** The tables of a FROM clause with the names they are referred to by. *)
Abbreviation scope := (list (string * Table)).

Definition alias_of (t : Table) (alias : string) : string := if String.eqb alias "" then table_name t else alias.
Definition base_scope (db : gmap string Table) (t : PTable) : option (string * Table) :=
  match t with
  | BaseTable name alias => x ← db !! name; Some (alias_of x alias, x)
  | CrossProductTable _ => None
  end.
Definition from_scope (db : gmap string Table) (t : PTable) : option scope :=
  match t with
  | BaseTable _ _ => x ← base_scope db t; Some [x]
  | CrossProductTable ts => mapM (base_scope db) ts
  end.

(** ** Meaning *)

(** A value, [None] for null. *)
Definition content (v : SQLValue) : option IRValue := if sv_null v then None else Some (sv_value v).

(** The rows of the tables of a scope, one of each. *)
Definition column_value (sc : scope) (rs : list row) (table column : string) : option IRValue :=
  a ← list_find (fun a => a.1 = table) sc;
  c ← list_find (fun c => cc_name c = column) (table_columns a.2.2);
  r ← rs !! a.1; v ← r !! c.1; content v.

Definition literal_value (l : PLiteral) : IRValue :=
  match l with
  | LitInt16 z => VInt16 z | LitInt32 z => VInt32 z | LitInt64 z => VInt64 z
  | LitDouble x => VFloat64 x | LitString s => VString s | LitBool b => VBool b
  end.

Section Meaning.
Context (enum_key : Z -> Z -> list Z).

(** The order of two values: numbers, dates and booleans by their size, a NaN with
    nothing, strings by their characters, enums by their keys. *)
Definition order (a b : IRValue) : option comparison :=
  match a, b with
  | VBool x, VBool y => Some (Z.b2z x ?= Z.b2z y)
  | VInt16 x, VInt16 y | VInt32 x, VInt32 y | VInt64 x, VInt64 y | VDate x, VDate y => Some (x ?= y)
  | VFloat64 x, VFloat64 y => SFcompare x y
  | VString x, VString y => Some (sv_compare x y)
  | VEnum i x, VEnum j y => Some (sv_compare (enum_key i x) (enum_key j y))
  | VEnum i x, VString s => Some (sv_compare (enum_key i x) s)
  | _, _ => None
  end.

Definition test (op : PBinaryOp) (c : option comparison) : bool :=
  match op, c with
  | PEQ, Some Eq => true
  | PNEQ, Some Eq => false
  | PNEQ, _ => true
  | PLT, Some Lt => true
  | PLEQ, Some (Lt | Eq) => true
  | PGT, Some Gt => true
  | PGEQ, Some (Gt | Eq) => true
  | _, _ => false
  end.

Definition compare (op : PBinaryOp) (a b : option IRValue) : option bool :=
  x ← a; y ← b; Some (test op (order x y)).

Definition to_bool (v : option IRValue) : option bool := match v with Some (VBool b) => Some b | _ => None end.

Context (sc : scope) (rs : list row).
Fixpoint meaning (e : PExpr) : option IRValue :=
  match e with
  | PColumnRefExpr table column => column_value sc rs table column
  | PLiteralExpr l => Some (literal_value l)
  | PUnaryExpr OpNOT c => VBool <$> (negb <$> to_bool (meaning c))
  | PUnaryExpr OpIS_NULL c => Some (VBool match meaning c with None => true | Some _ => false end)
  | PBinaryExpr PAND l r => VBool <$> and3 (to_bool (meaning l)) (to_bool (meaning r))
  | PBinaryExpr POR l r => VBool <$> or3 (to_bool (meaning l)) (to_bool (meaning r))
  | PBinaryExpr PLIKE _ _ | PCaseExpr _ _ _ | PAggregateExpr _ _ => None
  | PBinaryExpr op l r => VBool <$> compare op (meaning l) (meaning r)
  | PInExpr b cs => VBool <$> foldr (fun c t => or3 (compare PEQ (meaning b) (meaning c)) t) (Some false) cs
  end.
Definition is_true (e : PExpr) : bool := accepts (to_bool (meaning e)).
End Meaning.

(** Expressions whose value, null or not, is the one that SQL gives: columns, literals,
    comparisons, [NOT] and [IS NULL].  A disjunction with null and an [IN] of a null are
    not, so they must not be negated. *)
Definition is_comparison (op : PBinaryOp) : bool :=
  match op with PEQ | PNEQ | PLT | PLEQ | PGT | PGEQ => true | _ => false end.
Fixpoint exact (e : PExpr) : bool :=
  match e with
  | PColumnRefExpr _ _ | PLiteralExpr _ => true
  | PUnaryExpr _ c => exact c
  | PBinaryExpr op l r => is_comparison op && exact l && exact r
  | _ => false
  end.

(** The conditions over them. *)
Fixpoint condition (e : PExpr) : bool :=
  match e with
  | PBinaryExpr PAND l r | PBinaryExpr POR l r => condition l && condition r
  | PInExpr b cs => exact b && forallb exact cs
  | _ => exact e
  end.

(** ** Names *)

(** Every entry of the planner's map is a column of a table of the scope. *)
Definition resolves (sc : scope) (info : InfoMap) : Prop := map_Forall (fun key v =>
  exists (i j : nat) t c, sc !! i = Some (key.1, t) /\ table_columns t !! j = Some c /\ cc_name c = key.2 /\
    v = MkInfo (Z.of_nat i) (Z.of_nat j) (cc_type c) (cc_nullable c)) info.

Lemma enter_columns_resolves sc alias (i : nat) t : sc !! i = Some (alias, t) -> forall cols j info,
  drop j (table_columns t) = cols -> resolves sc info -> resolves sc (enter_columns info alias (Z.of_nat i) cols (Z.of_nat j)).
Proof.
  intros Ht. induction cols as [|c cols IH]; intros j info Hd Hi; cbn [enter_columns]; [done|].
  assert (table_columns t !! j = Some c) as Hc by (rewrite <- (Nat.add_0_r j), <- lookup_drop, Hd; done).
  replace (Z.of_nat j + 1) with (Z.of_nat (S j)) by lia. apply IH; [rewrite (drop_S _ _ _ Hc) in Hd; by injection Hd|].
  apply map_Forall_insert_2; [|done]. by exists i, j, t, c.
Qed.

Lemma plan_from_resolves db sc ts : forall (i : nat) info,
  mapM (base_scope db) ts = Some (drop i sc) -> resolves sc info ->
  exists ops info', plan_from db ts info (Z.of_nat i) = Ok (ops, info') /\ resolves sc info'.
Proof.
  induction ts as [|t ts IH]; intros i info Hm Hi; cbn [plan_from]; [by eauto|].
  apply mapM_Some in Hm. inversion Hm as [|? x ? xs Hx Hxs Et E]; subst. destruct t as [name alias|]; [|done].
  assert (sc !! i = Some x) as Hxi by (by rewrite <- (Nat.add_0_r i), <- lookup_drop, <- E).
  rewrite (drop_S _ _ _ Hxi) in E. injection E as ->. apply mapM_Some in Hxs. cbn [base_scope] in Hx. cbn [Plan_table].
  destruct (db !! name) as [y|]; [|done]. injection Hx as <-. cbn [mbind Res_bind].
  replace (Z.of_nat i + 1) with (Z.of_nat (S i)) by lia. edestruct (IH (S i)) as (ops & info' & -> & Hi'); [done| |].
  - by apply (enter_columns_resolves sc _ i y Hxi (table_columns y) 0 info).
  - by eexists _, info'.
Qed.

Lemma Plan_table_resolves db t sc : from_scope db t = Some sc ->
  exists ops info, Plan_table db ∅ t 0 = Ok (ops, info) /\ resolves sc info.
Proof.
  destruct t as [name alias|ts]; cbn [from_scope base_scope]; intros H.
  - cbn [Plan_table]. destruct (db !! name) as [x|]; [|done]. injection H as <-. eexists _, _. split; [done|].
    apply (enter_columns_resolves [(alias_of x alias, x)] _ 0 x eq_refl (table_columns x) 0); [done|apply map_Forall_empty].
  - apply (plan_from_resolves db sc ts 0 ∅); [by rewrite drop_0|apply map_Forall_empty].
Qed.

Lemma from_scope_tables db t sc : from_scope db t = Some sc -> from_tables db t = Some sc.*2.
Proof.
  destruct t as [name alias|ts]; cbn [from_scope from_tables base_scope]; intros H.
  - destruct (db !! name) as [x|]; [|done]. by injection H as <-.
  - revert sc H. induction ts as [|t ts IH]; intros sc H; [by injection H as <-|]. apply mapM_Some in H.
    inversion H as [|? x ? xs Hx Hxs]; subst. apply mapM_Some in Hxs. apply IH in Hxs. cbn [mapM fmap list_fmap].
    destruct t as [name alias|]; [|done]. cbn [base_scope] in Hx. destruct (db !! name) as [y|]; [|done]. injection Hx as <-.
    cbn. cbn in Hxs. by rewrite Hxs.
Qed.

Lemma find_alias (sc : scope) i a : NoDup sc.*1 -> sc !! i = Some a -> list_find (fun b => b.1 = a.1) sc = Some (i, a).
Proof.
  intros Hnd Hi. apply list_find_Some. split_and!; [done|done|]. intros j b Hj Hlt Hb.
  assert (i = j); [|lia]. apply (NoDup_lookup _ _ _ a.1 Hnd); rewrite list_lookup_fmap; [by rewrite Hi|]. rewrite Hj. cbn. by rewrite Hb.
Qed.

(** ** Comparisons *)
Lemma SFcompare_antisym a b : SFcompare b a = CompOpp <$> SFcompare a b.
Proof.
  destruct a as [[]|[]| |[] m e], b as [[]|[]| |[] m' e']; try done; cbn.
  all: rewrite (Z.compare_antisym e e'); destruct (e ?= e'); cbn; try done.
  all: change (PosDef.Pos.compare_cont Eq ?p ?q) with (p ?= q)%positive; rewrite (Pos.compare_antisym m m'); by destruct (m ?= m')%positive.
Qed.

Lemma int_test op a b : is_comparison op = true -> int_compare (plain_op op) a b = Some (test op (Some (a ?= b))).
Proof.
  intros Hop. destruct op; try discriminate Hop; cbn [plain_op int_compare];
    rewrite ?Z.eqb_compare, ?Z.ltb_compare, ?Z.leb_compare, ?(Z.compare_antisym a b); by destruct (a ?= b).
Qed.

Lemma f64_test op a b : is_comparison op = true -> f64_compare (plain_op op) a b = Some (test op (SFcompare a b)).
Proof.
  intros Hop. destruct op; try discriminate Hop; cbn [plain_op f64_compare f64_cmp]; unfold SFeqb, SFltb, SFleb;
    rewrite ?(SFcompare_antisym a b); by destruct (SFcompare a b) as [[]|].
Qed.

Lemma str_test op a b : is_comparison op = true -> str_binary (plain_op op) a b = Some (test op (Some (sv_compare a b))).
Proof.
  intros Hop. destruct op; try discriminate Hop; cbn [plain_op str_binary]; unfold NotEquals, Equals, LessThan_str, LessThanEquals, GreaterThan,
    GreaterThanEquals; by destruct (sv_compare a b).
Qed.

Lemma bool_test op x y : op = PEQ \/ op = PNEQ ->
  test op (Some (Z.b2z x ?= Z.b2z y)) = match op with PEQ => Bool.eqb x y | _ => negb (Bool.eqb x y) end.
Proof. by intros [-> | ->]; destruct x, y. Qed.

Section Compare.
Context `{HE : EnumKeys enum_key enum_value valid}.

(** The enum values that are read are values of their enums. *)
Definition valid_value (v : SQLValue) : Prop :=
  sv_null v = false -> match sv_value v with VEnum id z => valid id z | _ => True end.

Lemma key_test id x s : valid id x -> (x =? enum_value id s) = test PEQ (Some (sv_compare (enum_key id x) s)).
Proof using HE.
  intros Hx. rewrite (value_is_key id x Hx s). apply Bool.eq_iff_eq_true. rewrite bool_decide_eq_true, <- sv_compare_eq. cbn.
  by destruct (sv_compare (enum_key id x) s).
Qed.

Lemma keys_test id x y : valid id x -> valid id y -> (x =? y) = test PEQ (Some (sv_compare (enum_key id x) (enum_key id y))).
Proof using HE. intros Hx Hy. rewrite <- (key_test id x) by done. by rewrite value_of_key. Qed.

Lemma test_neq c : test PNEQ c = negb (test PEQ c).
Proof. by destruct c as [[]|]. Qed.

Lemma compare_values op x y : is_comparison op = true -> op_fits (plain_op op) (ir_type x) (ir_type y) = true ->
  valid_value (MkSQL x false) -> valid_value (MkSQL y false) ->
  EvaluateBinary enum_key (plain_op op) (MkSQL x false) (MkSQL y false) = Ok (MkSQL (VBool (test op (order enum_key x y))) false).
Proof using HE.
  intros Hop Hf Hx Hy. specialize (Hx eq_refl). specialize (Hy eq_refl). cbn [sv_value] in *.
  destruct x as [a|a|a|a|a|a|a|i a], y as [b|b|b|b|b|b|b|j b]; try (by destruct op); unfold EvaluateBinary; cbn [sv_value order].
  - unfold EvaluateBinaryBool. cbn [sv_value]. by destruct op, a, b.
  - unfold EvaluateBinaryNumeric, int_numeric. cbn [sv_value]. rewrite int_test by done. by destruct op.
  - unfold EvaluateBinaryNumeric, int_numeric. cbn [sv_value]. rewrite int_test by done. by destruct op.
  - unfold EvaluateBinaryNumeric, int_numeric. cbn [sv_value]. rewrite int_test by done. by destruct op.
  - unfold EvaluateBinaryNumeric, f64_numeric. cbn [sv_value]. rewrite f64_test by done. by destruct op.
  - unfold EvaluateBinaryDate. cbn [sv_value]. rewrite int_test by done. by destruct op.
  - unfold EvaluateBinaryString. cbn [sv_value]. by rewrite str_test by done.
  - unfold EvaluateBinaryEnum. cbn [sv_value]. pose proof (str_test op (enum_key i a) (enum_key j b) Hop) as Hs.
    destruct op; try done; cbn [plain_op] in *; try (by rewrite Hs).
    + cbn in Hf. apply bool_decide_eq_true in Hf. injection Hf as <-. rewrite Z.eqb_refl, (keys_test i a b) by done. done.
    + cbn in Hf. apply bool_decide_eq_true in Hf. injection Hf as <-. rewrite Z.eqb_refl, (keys_test i a b), test_neq by done. done.
Qed.

Lemma plain_compare op : is_comparison op = true -> is_compare (plain_op op) = true.
Proof. by destruct op. Qed.

Lemma compare_type op a b t : is_compare op = true -> CalculateBinaryType op a b = Ok t -> t = Boolean.
Proof.
  intros Hop H. unfold CalculateBinaryType in H. destruct op; try discriminate Hop; cbn in H; repeat case_match; congruence.
Qed.

Lemma comparison_value op a b : is_comparison op = true -> op_fits (plain_op op) (sv_type a) (sv_type b) = true ->
  valid_value a -> valid_value b ->
  exists v, EvaluateBinary enum_key (plain_op op) a b = Ok v /\ sv_type v = Boolean /\
    content v = VBool <$> compare enum_key op (content a) (content b).
Proof using HE.
  intros Hop Hf Ha Hb. destruct (EvaluateBinary_typed enum_key (plain_op op) a b Hf) as (v & Hv & Ht & Hn).
  apply compare_type in Ht; [|by apply plain_compare]. exists v. split_and!; [done|done|]. destruct a as [x [|]], b as [y [|]]; cbn [sv_null orb] in Hn.
  1-3: unfold content; by rewrite Hn.
  rewrite compare_values in Hv by done. by injection Hv as <-.
Qed.
End Compare.

(** ** The planned expressions *)
Section Planned.
Context `{HE : EnumKeys enum_key enum_value valid} (like : list Z -> list Z -> bool).
Context (sc : scope) (rs : list row) (info : InfoMap).

(** A stored row: every value has the type of its column. *)
Definition cell_ok (c : CatalogColumn) (v : SQLValue) : Prop := fits (cc_type c) (cc_nullable c) v /\ valid_value (valid := valid) v.
Definition row_ok (t : Table) (r : row) : Prop := Forall2 cell_ok (table_columns t) r.

Context (Hnames : NoDup sc.*1) (Hcols : Forall (fun a => NoDup (cc_name <$> table_columns a.2)) sc).
Context (Hinfo : resolves sc info) (Hrs : Forall2 (fun a r => row_ok a.2 r) sc rs).
#[local] Abbreviation run := (Compute_ enum_key like (MkEnv rs [])).
#[local] Abbreviation means := (meaning enum_key sc rs).
#[local] Abbreviation plan := (Plan_expr enum_value info).
#[local] Abbreviation good := (valid_value (valid := valid)).

(** The code of [x] computes a value of its type that holds [o]. *)
Definition computes (x : Expression) (o : option IRValue) : Prop :=
  exists v, run x = Ok v /\ Type_ x = Ok (sv_type v) /\ good v /\ content v = o.

Lemma column_computes table column x : Plan_column_ref info table column = Ok x -> computes x (column_value sc rs table column).
Proof using Hnames Hcols Hinfo Hrs.
  unfold Plan_column_ref. destruct (info !! (table, column)) as [v|] eqn:E; [|done]. intros [= <-].
  destruct (Hinfo _ _ E) as (i & j & t & c & Hi & Hj & Hc & ->). cbn [fst snd ci_type ci_nullable ci_child ci_col] in *.
  destruct (Forall2_lookup_l _ _ _ _ _ Hrs Hi) as (r & Hr & Hrow). destruct (Forall2_lookup_l _ _ _ _ _ Hrow Hj) as (v & Hv & [Ht _] & Hvalid).
  exists v. cbn [Compute_ Type_ env_children]. rewrite (vec_at_nat _ _ _ Hr). cbn [mbind Res_bind]. rewrite (vec_at_nat _ _ _ Hv), Ht.
  split_and!; [done..|]. unfold column_value. subst column. pose proof (find_alias sc i (table, t) Hnames Hi) as Hf. cbn [fst] in Hf. rewrite Hf. cbn [mbind option_bind fst snd].
  rewrite (find_name (table_columns t) j c); [|by apply (proj1 (list.Forall_forall _ _) Hcols (table, t)), (list_elem_of_lookup_2 _ i)|done].
  cbn [mbind option_bind fst]. rewrite Hr. cbn. by rewrite Hv.
Qed.

(** Of these expressions only a literal is planned as one. *)
Lemma exact_literal e v n : exact e = true -> plan e = Ok (LiteralExpr v n) -> exists l, e = PLiteralExpr l /\ v = literal_value l /\ n = false.
Proof using.
  intros He H. destruct e as [k c|op c|op l r|c l r|t c|b cs|l]; try discriminate He; cbn [Plan_expr] in H.
  - apply bind_Ok in H as (y & _ & H). by apply checked_ok in H.
  - destruct op; try discriminate He; apply bind_Ok in H as (y & _ & H); apply bind_Ok in H as (z & _ & H); try (by apply checked_ok in H).
    all: unfold Plan_equality in H; apply bind_Ok in H as (t & _ & H); repeat case_match; ok_inv; by apply checked_ok in H.
  - unfold Plan_column_ref in H. by case_match.
  - injection H as <- <-. exists l. by destruct l.
Qed.

Lemma binary_translatable op l r : translatable (BinaryArithmeticExpr op l r) = true ->
  translatable l = true /\ translatable r = true /\ forall tl tr, Type_ l = Ok tl -> Type_ r = Ok tr -> op_fits op tl tr = true.
Proof using. intros [[Hl Hr]%andb_true_iff H]%andb_true_iff. split_and!; [done..|]. intros tl tr El Er. by rewrite El, Er in H. Qed.

Lemma computes_compare op l r a b : is_comparison op = true -> translatable (BinaryArithmeticExpr (plain_op op) l r) = true ->
  computes l a -> computes r b -> computes (BinaryArithmeticExpr (plain_op op) l r) (VBool <$> compare enum_key op a b).
Proof using HE.
  intros Hop (_ & _ & Hf)%binary_translatable (v & Hv & Tv & Vv & <-) (w & Hw & Tw & Vw & <-). specialize (Hf _ _ Tv Tw).
  destruct (comparison_value op v w Hop Hf Vv Vw) as (u & Hu & Tu & Cu).
  exists u. cbn [Compute_ Type_]. rewrite Hv, Hw, Tv, Tw. cbn [mbind Res_bind]. split_and!.
  - rewrite <- Hu. by destruct op.
  - destruct (EvaluateBinary_typed enum_key (plain_op op) v w Hf) as (u' & Hu' & Tu' & _). congruence.
  - unfold valid_value. unfold sv_type in Tu. by destruct (sv_value u).
  - done.
Qed.

(** [EQ] and [NEQ] with the literals of enums. *)
Lemma computes_equality op l r x a e : op = PEQ \/ op = PNEQ -> Plan_equality enum_value (plain_op op) l r = Ok x ->
  translatable x = true -> exact e = true -> plan e = Ok r -> (translatable l = true -> computes l a) ->
  (translatable r = true -> computes r (means e)) -> computes x (VBool <$> compare enum_key op a (means e)).
Proof using HE.
  intros Hop Hx Htr He Hr Hl Hrc. assert (is_comparison op = true) as Hcmp by (by destruct Hop as [-> | ->]).
  unfold Plan_equality in Hx. apply bind_Ok in Hx as (t & Ht & Hx).
  assert ((exists v n, r = LiteralExpr v n /\ is_type ENUM t = true) \/ checked (BinaryArithmeticExpr (plain_op op) l r) = Ok x) as [Hlit|Hplain].
  { destruct (is_type ENUM t); [|by right]. destruct r; try (by right). left. eauto. }
  2: { apply checked_ok in Hplain as ->. pose proof (binary_translatable _ _ _ Htr) as (H1 & H2 & _). apply computes_compare; auto. }
  destruct Hlit as (v & n & -> & Het). rewrite Het in Hx. apply bind_Ok in Hx as (s & Hs & Hx). apply checked_ok in Hx as ->.
  destruct v as [| | | | | |str|]; try discriminate Hs. injection Hs as ->. apply exact_literal in Hr as (lit & -> & Hlit & _); [|done].
  pose proof (binary_translatable _ _ _ Htr) as (H1 & _ & _). destruct (Hl H1) as (v & Hv & Tv & Vv & <-). rewrite Ht in Tv. injection Tv as ->.
  cbn [meaning]. rewrite <- Hlit. unfold is_type in Het. apply bool_decide_eq_true in Het.
  destruct v as [[| | | | | | |id z] nv]; try discriminate Het. unfold computes. cbn [Compute_ Type_].
  rewrite Hv, Ht. cbn [mbind Res_bind].
  unfold sv_type in *. cbn [sv_value ir_type enum_id] in *.
  destruct Hop as [-> | ->]; cbn [plain_op eval_binary mbind Res_bind]; unfold EvaluateBinary, EvaluateBinaryEnum, unless_null;
    cbn [sv_value sv_null mbind Res_bind]; rewrite Z.eqb_refl; cbn [mbind Res_bind]; rewrite orb_false_r.
  all: eexists; split_and!; [done| | |].
  all: try (unfold CalculateBinaryType; cbn; rewrite bool_decide_true by done; cbn; by destruct nv).
  all: try (unfold valid_value; by destruct nv).
  all: destruct nv; [done|]; unfold content, compare; cbn [sv_null sv_value mbind option_bind fmap option_fmap option_map order orb].
  all: by rewrite ?test_neq, (key_test id z s (Vv eq_refl)).
Qed.

Lemma exact_computes e : forall x, exact e = true -> plan e = Ok x -> translatable x = true -> computes x (means e).
Proof using HE Hnames Hcols Hinfo Hrs.
  induction e as [k c IH|op c IH|op l r IHl IHr|c l r|t c|b cs IHb IHcs|l] using PExpr_induction;
    intros x He Hx Htr; try discriminate He.
  - cbn [Plan_expr exact] in *. apply bind_Ok in Hx as (y & Hy & Hx). pose proof Hx as Hty. apply checked_ok in Hx as ->.
    destruct (IH y He Hy Htr) as (v & Hv & Tv & Vv & Cv). unfold checked in Hty. cbn [Type_] in Hty. rewrite Tv in Hty. cbn [mbind Res_bind] in Hty.
    apply bind_Ok in Hty as (t & Ht & _). cbn [meaning]. rewrite <- Cv. unfold computes. cbn [Compute_ Type_]. rewrite Hv, Tv.
    cbn [mbind Res_bind]. rewrite Ht. destruct op; cbn in Ht.
    + destruct (is_type BOOLEAN (sv_type v)) eqn:E; [|discriminate Ht]. injection Ht as <-. unfold is_type, sv_type in E. apply bool_decide_eq_true in E.
      destruct v as [[| | | | | | |] nv]; try discriminate E. cbn [sv_null as_bool sv_value mbind Res_bind]. rewrite NullableTernary_Ok by done.
      eexists. split_and!; [done|..]; by destruct nv.
    + injection Ht as <-. eexists. split_and!; [done..|]. unfold content. by destruct (sv_null v).
  - cbn [exact] in He. apply andb_true_iff in He as [[Hop Hl]%andb_true_iff Hr].
    assert (exists y z, plan l = Ok y /\ plan r = Ok z /\
      ((op = PEQ \/ op = PNEQ) /\ Plan_equality enum_value (plain_op op) y z = Ok x \/ checked (BinaryArithmeticExpr (plain_op op) y z) = Ok x))
      as (y & z & Hy & Hz & H).
    { cbn [Plan_expr] in Hx. destruct op; try discriminate Hop; apply bind_Ok in Hx as (y & Hy & Hx); apply bind_Ok in Hx as (z & Hz & Hx);
        exists y, z; (split_and!; [done|done|]); first [by right|left; auto]. }
    assert (means (PBinaryExpr op l r) = VBool <$> compare enum_key op (means l) (means r)) as -> by (by destruct op).
    destruct H as [[Heq H]|H].
    + eapply computes_equality; [done|exact H|done|exact Hr|done|auto..].
    + apply checked_ok in H as ->. pose proof (binary_translatable _ _ _ Htr) as (H1 & H2 & _). apply computes_compare; auto.
  - apply column_computes. exact Hx.
  - injection Hx as <-. destruct l; (eexists; by split_and!).
Qed.

(** *** Conditions *)

(** The code of [x] computes a value that accepts exactly if [p]. *)
Definition decides (x : Expression) (p : bool) : Prop :=
  exists v, run x = Ok v /\ Type_ x = Ok (sv_type v) /\ accepts (truth (Ok v)) = p.

Lemma content_truth v : truth (Ok v) = to_bool (content v).
Proof using. by destruct v as [[] []]. Qed.

Lemma computes_decides x o : computes x o -> decides x (accepts (to_bool o)).
Proof using. intros (v & Hv & Tv & _ & <-). exists v. by rewrite content_truth. Qed.

Lemma to_bool_fmap o : to_bool (VBool <$> o) = o.
Proof using. by destruct o. Qed.

Lemma decides_connective op l r p q : op = OpAND \/ op = OpOR -> translatable (BinaryArithmeticExpr op l r) = true ->
  decides l p -> decides r q -> decides (BinaryArithmeticExpr op l r) (match op with OpAND => p && q | _ => p || q end).
Proof using.
  intros Hop Htr (v & Hv & Tv & <-) (w & Hw & Tw & <-).
  destruct (connective_operands op l r Hop Htr) as [(_ & tl & Tl & Bl) (_ & tr & Tr & Br)].
  rewrite Tv in Tl. rewrite Tw in Tr. injection Tl as <-. injection Tr as <-. apply sv_type_id in Bl; [|done]. apply sv_type_id in Br; [|done].
  assert (exists u, eval_binary enum_key op v (Ok w) = Ok u /\ sv_type u = Boolean) as (u & Hu & Tu).
  { unfold sv_type in Bl, Br. destruct v as [[b1| | | | | | |] n1]; try discriminate Bl. destruct w as [[b2| | | | | | |] n2]; try discriminate Br.
    destruct Hop as [-> | ->]; cbn [eval_binary as_bool sv_value mbind Res_bind sv_null];
      rewrite !NullableTernary_Ok by (by destruct b1); eexists; (split; [done|by destruct n1, b1]). }
  exists u. cbn [Compute_ Type_]. rewrite Hv, Hw, Tv, Tw, Tu. cbn [mbind Res_bind]. split_and!; [done| |].
  - rewrite Bl, Br. by destruct Hop as [-> | ->].
  - rewrite <- Hu. destruct Hop as [-> | ->]; [by apply eval_and|by apply eval_or].
Qed.

Lemma is_true_in b cs : is_true enum_key sc rs (PInExpr b cs) = existsb (fun c => accepts (compare enum_key PEQ (means b) (means c))) cs.
Proof using.
  unfold is_true. cbn [meaning]. rewrite to_bool_fmap. induction cs as [|c cs IH]; [done|]. cbn [foldr existsb].
  by rewrite accepts_or3, IH.
Qed.

(** A disjunction of equalities. *)
Lemma in_cases_decides b cs : exact b = true -> forallb exact cs = true -> forall res x p,
  in_cases enum_value (plan b) (plan <$> cs) res = Ok x -> translatable x = true ->
  match res with None => p = false | Some y => translatable y = true -> decides y p end ->
  decides x (p || existsb (fun c => accepts (compare enum_key PEQ (means b) (means c))) cs).
Proof using HE Hnames Hcols Hinfo Hrs.
  intros Hb. induction cs as [|c cs IH]; intros Hcs res x p Hx Htr Hres; cbn [fmap list_fmap in_cases existsb] in *.
  { rewrite orb_false_r. destruct res as [y|]; [|done]. injection Hx as <-. auto. }
  apply andb_true_iff in Hcs as [Hc Hcs]. apply bind_Ok in Hx as (l & Hl & Hx). apply bind_Ok in Hx as (r & Hr & Hx).
  apply bind_Ok in Hx as (q & Hq & Hx). apply bind_Ok in Hx as (o & Ho & Hx). rewrite orb_assoc.
  assert (translatable q = true -> decides q (accepts (compare enum_key PEQ (means b) (means c)))) as Hdq.
  { intros Hqt. rewrite <- (to_bool_fmap (compare _ _ _ _)). apply computes_decides.
    eapply (computes_equality PEQ); [by left|exact Hq|done|exact Hc|done|..]; intros; by apply exact_computes. }
  apply (IH Hcs (Some o) x); [done|done|]. intros Hot. destruct res as [y|].
  - apply checked_ok in Ho as ->. pose proof (binary_translatable _ _ _ Hot) as (H1 & H2 & _).
    apply (decides_connective OpOR); auto.
  - injection Ho as <-. subst p. auto.
Qed.

(** The cases of an enum. *)
Lemma enum_cases_inv id cs : forallb exact cs = true -> forall acc vs,
  enum_cases enum_value id (plan <$> cs) acc = Ok (Some vs) -> exists ss, cs = (fun s => PLiteralExpr (LitString s)) <$> ss.
Proof using.
  induction cs as [|c cs IH]; intros Hcs acc vs H; [by exists []|]. cbn [forallb fmap list_fmap enum_cases] in *.
  apply andb_true_iff in Hcs as [Hc Hcs]. apply bind_Ok in H as (r & Hr & H). destruct r; try discriminate H. apply bind_Ok in H as (s & Hs & H).
  destruct (IH Hcs _ _ H) as [ss ->]. apply exact_literal in Hr as (l & -> & -> & _); [|done]. destruct l; try discriminate Hs. injection Hs as ->.
  by exists (s :: ss).
Qed.

Lemma key_in id z ss : valid id z ->
  existsb (fun c => accepts (compare enum_key PEQ (Some (VEnum id z)) (means c))) ((fun s => PLiteralExpr (LitString s)) <$> ss) =
  bool_decide (enum_key id z ∈ ss).
Proof using.
  intros _. apply Bool.eq_iff_eq_true. rewrite bool_decide_eq_true, existsb_exists. split.
  - intros (c & Hc & Ht). apply list_elem_of_In, list_elem_of_fmap in Hc as (s & -> & Hs). cbn in Ht.
    destruct (sv_compare (enum_key id z) s) eqn:E; try discriminate Ht. apply sv_compare_eq in E. by rewrite E.
  - intros Hs. eexists. split; [apply list_elem_of_In, list_elem_of_fmap; by eexists|]. cbn. by rewrite (proj2 (sv_compare_eq _ _) eq_refl).
Qed.

(** An enum is a column. *)
Lemma enum_column b y id : exact b = true -> plan b = Ok y -> Type_ y = Ok (MkType ENUM id) -> translatable y = true.
Proof using.
  intros Hb Hy Ht. destruct b as [k c|op c|op l r|c l r|t c|b cs|l]; try discriminate Hb; cbn [Plan_expr] in Hy.
  - apply bind_Ok in Hy as (z & _ & Hy). apply checked_ok in Hy as ->. cbn [Type_] in Ht. apply bind_Ok in Ht as (t & _ & Ht).
    destruct op; cbn in Ht; by repeat case_match.
  - exfalso. assert (exists l' r', y = BinaryArithmeticExpr (plain_op op) l' r') as (l' & r' & ->).
    { destruct op; try discriminate Hb; apply bind_Ok in Hy as (u & _ & Hy); apply bind_Ok in Hy as (w & _ & Hy); try (apply checked_ok in Hy; eauto).
      all: unfold Plan_equality in Hy; apply bind_Ok in Hy as (t & _ & Hy); repeat case_match; ok_inv; apply checked_ok in Hy; eauto. }
    cbn [Type_] in Ht. apply bind_Ok in Ht as (tl & _ & Ht). apply bind_Ok in Ht as (tr & _ & Ht). apply compare_type in Ht; [done|].
    cbn [exact] in Hb. apply andb_true_iff in Hb as [[Hb _]%andb_true_iff _]. by apply plain_compare.
  - unfold Plan_column_ref in Hy. case_match; [|done]. by injection Hy as <-.
  - by injection Hy as <-.
Qed.

Lemma enum_in_decides b cs y vs : exact b = true -> plan b = Ok y -> Type_ y = Ok (MkType ENUM vs.1) ->
  forallb exact cs = true -> enum_cases enum_value vs.1 (plan <$> cs) [] = Ok (Some vs.2) ->
  decides (match vs.2 with [] => LiteralExpr (VBool false) false | _ => EnumInExpr y vs.2 end) (is_true enum_key sc rs (PInExpr b cs)).
Proof using HE Hnames Hcols Hinfo Hrs.
  destruct vs as [id vs]. cbn [fst snd]. intros Hb Hy Ty Hcs Hvs.
  destruct (exact_computes b y Hb Hy (enum_column b y id Hb Hy Ty)) as (v & Hv & Tv & Vv & Cv).
  destruct (enum_cases_inv id cs Hcs [] vs Hvs) as [ss ->]. rewrite is_true_in, <- Cv. rewrite Ty in Tv. injection Tv as Tv.
  assert (plan <$> ((fun s => PLiteralExpr (LitString s)) <$> ss) = (fun s => Ok (LiteralExpr (VString s) false)) <$> ss) as Hlit
    by (by rewrite <- list_fmap_compose).
  destruct v as [[| | | | | | |id' z] [|]]; try discriminate Tv; injection Tv as <-.
  - assert (existsb (fun c => accepts (compare enum_key PEQ (content (MkSQL (VEnum id z) true)) (means c)))
      ((fun s => PLiteralExpr (LitString s)) <$> ss) = false) as -> by (clear; by induction ss).
    destruct vs as [|w vs]; [by eexists|]. destruct (eval_enum_in_typed (MkSQL (VEnum id z) true) Boolean (w :: vs)) as (u & Hu & Tu & _); [done..|].
    exists u. cbn [Compute_ Type_]. rewrite Hv, Ty, Tu. cbn [mbind Res_bind]. split_and!; [done..|].
    unfold eval_enum_in in Hu. cbn [sv_null] in Hu. by apply NullableTernary_true in Hu as ->.
  - specialize (Vv eq_refl). cbn in Vv. change (content (MkSQL (VEnum id z) false)) with (Some (VEnum id z)). rewrite key_in by done.
    destruct (enum_in_list like (MkEnv rs []) y id z Ty Hv Vv ss) as (e & He & <-). unfold Plan_in in He. cbn [mbind Res_bind] in He.
    rewrite Ty in He. cbn [mbind Res_bind] in He. change (is_type ENUM (MkType ENUM id)) with true in He. cbn [enum_id] in He. rewrite <- Hlit, Hvs in He.
    cbn [mbind Res_bind] in He. destruct vs as [|w vs]; [injection He as <-; by eexists|]. apply checked_ok in He as ->.
    destruct (eval_enum_in_typed (MkSQL (VEnum id z) false) Boolean (w :: vs)) as (u & Hu & Tu & _); [done..|].
    unfold accepted. exists u. cbn [Compute_ Type_]. rewrite Hv, Ty, Tu. cbn [mbind Res_bind]. rewrite Hu. by split_and!.
Qed.

Lemma condition_decides e : forall x, condition e = true -> plan e = Ok x -> translatable x = true ->
  decides x (is_true enum_key sc rs e).
Proof using HE Hnames Hcols Hinfo Hrs.
  induction e as [k c IH|op c IH|op l r IHl IHr|c l r|t c|b cs IHb IHcs|l] using PExpr_induction; intros x He Hx Htr.
  1, 2, 4, 5, 7: by apply computes_decides, exact_computes.
  - assert ((op = PAND \/ op = POR) \/ exact (PBinaryExpr op l r) = true) as [Hop|Hex] by (destruct op; auto);
      [|by apply computes_decides, exact_computes].
    assert (condition l = true /\ condition r = true) as [Hl Hr] by (apply andb_true_iff; by destruct Hop as [-> | ->]).
    assert (exists y z, plan l = Ok y /\ plan r = Ok z /\ checked (BinaryArithmeticExpr (plain_op op) y z) = Ok x) as (y & z & Hy & Hz & H).
    { cbn [Plan_expr] in Hx. destruct Hop as [-> | ->]; apply bind_Ok in Hx as (y & Hy & Hx); apply bind_Ok in Hx as (z & Hz & Hx); eauto. }
    apply checked_ok in H as ->. pose proof (binary_translatable _ _ _ Htr) as (H1 & H2 & _). specialize (IHl y Hl Hy H1). specialize (IHr z Hr Hz H2).
    assert (is_true enum_key sc rs (PBinaryExpr op l r) =
      match plain_op op with OpAND => is_true enum_key sc rs l && is_true enum_key sc rs r | _ => is_true enum_key sc rs l || is_true enum_key sc rs r end) as ->.
    { unfold is_true. destruct Hop as [-> | ->]; cbn [meaning plain_op]; by rewrite to_bool_fmap, ?accepts_and3, ?accepts_or3. }
    apply decides_connective; [destruct Hop as [-> | ->]; auto|done..].
  - cbn [condition] in He. apply andb_true_iff in He as [Hb Hcs]. cbn [Plan_expr] in Hx. unfold Plan_in in Hx.
    apply bind_Ok in Hx as (y & Hy & Hx). apply bind_Ok in Hx as (t & Ht & Hx). apply bind_Ok in Hx as (vals & Hvals & Hx). destruct vals as [vs|].
    + destruct (is_type ENUM t) eqn:Et; [|discriminate Hvals]. unfold is_type in Et. apply bool_decide_eq_true in Et.
      destruct t as [tid id]. cbn in Et, Hvals. subst tid. pose proof (enum_in_decides b cs y (id, vs) Hb Hy) as H. cbn [fst snd] in H.
      destruct vs as [|w vs]; [injection Hx as <-|apply checked_ok in Hx as ->]; by apply H.
    + rewrite is_true_in. apply (in_cases_decides b cs Hb Hcs None x false); [exact Hx|done|done].
Qed.
End Planned.

(** ** Statements *)
Section Statement.
Context `{HE : EnumKeys enum_key enum_value valid} (like : list Z -> list Z -> bool) (table_rows : Table -> list row).

(** A stored table: the columns have different names, and the rows their types. *)
Definition stored (t : Table) : Prop :=
  NoDup (cc_name <$> table_columns t) /\ Forall (row_ok (valid := valid) t) (table_rows t).

(** The combinations of rows for which the condition is true. *)
Definition matching (sc : scope) (w : PExpr) : list (list row) :=
  rs ← product (table_rows <$> sc.*2); if is_true enum_key sc rs w then [rs] else [].

Definition as_sql (o : option IRValue) : SQLValue := match o with Some v => MkSQL v false | None => absent end.

(** An item of the select list that the planner takes. *)
Definition select_ok (info : InfoMap) (p : PExpr) : Prop := exists k c y, p = PAggregateExpr k c /\ exact c = true /\
  Plan_expr enum_value info c = Ok y /\ translatable y = true /\ typed (AggregateExpr k y).

(** [x] is the aggregate [p] over the combinations that match; without one it is null. *)
Definition answers (sc : scope) (info : InfoMap) (w p : PExpr) (x : SQLValue) : Prop := exists k c, p = PAggregateExpr k c /\
  match matching sc w with
  | [] => sv_null x = true
  | rss =>
      (exists y, Plan_expr enum_value info c = Ok y /\ Type_ (AggregateExpr k y) = Ok (sv_type x)) /\
      agg_meaning enum_key k ((fun rs => as_sql (meaning enum_key sc rs c)) <$> rss) x
  end.

Lemma product_rows (sc : scope) : Forall (fun a => stored a.2) sc -> forall rs, rs ∈ product (table_rows <$> sc.*2) ->
  Forall2 (fun a r => row_ok (valid := valid) a.2 r) sc rs.
Proof.
  induction 1 as [|a sc [_ Ha] _ IH]; intros rs Hrs; cbn [fmap list_fmap product] in Hrs.
  - apply list_elem_of_singleton in Hrs as ->. constructor.
  - apply list_elem_of_bind in Hrs as (r & Hrs & Hr). apply list_elem_of_bind in Hrs as (rs' & Hrs & Hrs'). apply list_elem_of_singleton in Hrs as ->.
    constructor; [by eapply list.Forall_forall in Ha|by apply IH].
Qed.

Lemma stored_table_ok t : stored t -> table_ok table_rows t.
Proof.
  intros [Hnd Hr]. split; [done|]. eapply list.Forall_impl; [exact Hr|]. intros r H. symmetry. exact (list.Forall2_length _ _ _ H).
Qed.

Context (sc : scope) (info : InfoMap).
Context (Hnames : NoDup sc.*1) (Hstored : Forall (fun a => stored a.2) sc) (Hinfo : resolves sc info).

Lemma stored_names : Forall (fun a => NoDup (cc_name <$> table_columns a.2)) sc.
Proof using Hstored. eapply list.Forall_impl; [exact Hstored|]. by intros a [? _]. Qed.

Lemma matches_matching w e : condition w = true -> Plan_expr enum_value info w = Ok e -> translatable e = true ->
  matches enum_key like table_rows sc.*2 e = matching sc w.
Proof using HE Hnames Hstored Hinfo.
  intros Hw He Htr. apply bind_ext_elem. intros rs Hrs. apply product_rows in Hrs; [|done].
  destruct (condition_decides like sc rs info Hnames stored_names Hinfo Hrs w e Hw He Htr) as (v & Hv & _ & Hp).
  unfold accepted. by rewrite Hv, Hp.
Qed.

Lemma matching_rows w rs : rs ∈ matching sc w -> Forall2 (fun a r => row_ok (valid := valid) a.2 r) sc rs.
Proof using Hstored.
  intros (rs' & Hrs & Hp)%list_elem_of_bind. case_match; [|by apply not_elem_of_nil in Hrs].
  apply list_elem_of_singleton in Hrs as ->. by apply product_rows.
Qed.

(** The value of an argument of an aggregate. *)
Definition argument (rs : list row) (y : Expression) : SQLValue :=
  match Compute_ enum_key like (MkEnv rs []) y with Ok v => v | _ => absent end.

Lemma content_same v o : content v = o -> same_value v (as_sql o).
Proof using. intros <-. unfold same_value, not_null. destruct v as [x []]; by split. Qed.

Lemma argument_ok w rs c y : rs ∈ matching sc w -> exact c = true -> Plan_expr enum_value info c = Ok y -> translatable y = true ->
  Type_ y = Ok (sv_type (argument rs y)) /\ same_value (argument rs y) (as_sql (meaning enum_key sc rs c)).
Proof using HE Hnames Hstored Hinfo.
  intros Hrs%matching_rows Hc Hy Htr. unfold argument.
  destruct (exact_computes like sc rs info Hnames stored_names Hinfo Hrs c y Hc Hy Htr) as (v & -> & Tv & _ & Cv). split; [done|]. by apply content_same.
Qed.

Lemma Forall_pick {A B} (R : A -> B -> Prop) (l : list A) : Forall (fun x => exists y, R x y) l -> exists l', Forall2 R l l'.
Proof using. induction 1 as [|x l [y Hy] _ [l' IH]]; [by exists []|]. exists (y :: l'). by constructor. Qed.

Lemma aggregate_answers w rs rss k c y : matching sc w = rs :: rss -> exact c = true -> Plan_expr enum_value info c = Ok y ->
  translatable y = true -> typed (AggregateExpr k y) ->
  answers sc info w (PAggregateExpr k c) (as_value (agg_fold enum_key k (argument rs y) ((fun rs => argument rs y) <$> rss))).
Proof using HE Hnames Hstored Hinfo.
  intros Hm Hc Hy Htr [ty Hty]. exists k, c. split; [done|]. rewrite Hm. cbn [Type_] in Hty. apply bind_Ok in Hty as (t & Ht & Hty).
  assert (forall rs', rs' ∈ rs :: rss -> sv_type (argument rs' y) = t /\ same_value (argument rs' y) (as_sql (meaning enum_key sc rs' c))) as Ha.
  { intros rs' Hrs'. rewrite <- Hm in Hrs'. destruct (argument_ok w rs' c y Hrs' Hc Hy Htr) as [H1 H2]. split; [congruence|done]. }
  assert (Forall (fun v => sv_type v = t) ((fun rs => argument rs y) <$> (rs :: rss))) as Htypes.
  { apply list.Forall_fmap, list.Forall_forall. intros rs' Hrs'. by apply Ha. }
  pose proof (agg_fold_type enum_key k _ _ t ty Htypes Hty) as Hx. split.
  - exists y. split; [done|]. cbn [Type_]. rewrite Ht. cbn [mbind Res_bind]. rewrite Hty. f_equal. symmetry. exact Hx.
  - apply (agg_meaning_same enum_key k ((fun rs => argument rs y) <$> (rs :: rss))); [|eapply agg_fold_meaning; [exact Htypes| |done]].
    + rewrite list.Forall2_fmap. apply list.Forall_Forall2_diag, list.Forall_forall. intros rs' Hrs'. by apply Ha.
    + intros ->. cbn in Hty. case_match; [|done]. injection Hty as <-. exact Hx.
Qed.

Lemma query_answers w e (aggs : list (AggregateType * Expression)) selects : condition w = true -> Plan_expr enum_value info w = Ok e -> translatable e = true ->
  Forall2 (fun p a => exists c, p = PAggregateExpr a.1 c /\ exact c = true /\ Plan_expr enum_value info c = Ok a.2 /\ translatable a.2 = true /\
    typed (agg_expr a)) selects aggs ->
  Forall2 (answers sc info w) selects (query enum_key like table_rows sc.*2 e aggs).
Proof using HE Hnames Hstored Hinfo.
  intros Hw He Htr Hs. unfold query. rewrite (matches_matching w e Hw He Htr). destruct (matching sc w) as [|rs rss] eqn:Em; cbn [fmap list_fmap].
  - apply list.Forall2_fmap_r. eapply list.Forall2_impl; [exact Hs|]. intros p a (c & -> & _). exists a.1, c. split; [done|]. rewrite Em.
    unfold compose, null_of. by case_match.
  - apply Forall2_same_length_lookup_2.
    { rewrite (list.Forall2_length _ _ _ Hs). unfold agg_values. by rewrite length_imap, length_fmap. }
    intros j p x Hp Hx. destruct (Forall2_lookup_l _ _ _ _ _ Hs Hp) as ([k y] & Ha & c & -> & Hc & Hy & Hyt & Hty). cbn [fst snd] in *.
    unfold agg_values in Hx. rewrite list_lookup_imap, list_lookup_fmap, Ha in Hx. cbn [fmap option_fmap option_map fst] in Hx. injection Hx as <-.
    assert (forall rs, default absent (column_values enum_key like (MkEnv rs []) aggs.*2 !! j) = argument rs y) as Harg.
    { intros rs'. unfold column_values. by rewrite !list_lookup_fmap, Ha. }
    rewrite Harg, <- list_fmap_compose, (list_fmap_ext _ (fun rs => argument rs y)) by (intros; apply Harg).
    by apply aggregate_answers.
Qed.
End Statement.

(** C2. The planner is correct.  Take a statement over stored tables that have different
    names in it, whose select list holds aggregates of columns, literals, comparisons,
    [NOT] and [IS NULL], and whose condition is made of these with [AND], [OR] and [IN]
    ([LIKE] and connectives below [NOT] are not covered), which the planner's constructors and the
    translator take, with Boolean conjuncts, each of which reads a column in its plan if there is
    one table.  Then the planner returns a plan, and the plan - names resolved, predicates
    pushed to the scans or kept as join conditions, columns renumbered, unread columns
    removed, filters merged with scans - returns one row with the aggregates, as SQL
    defines them, of the combinations of rows for which the condition is true: by the names of
    tables and columns, the order of the values, the keys of enums and three-valued
    logic. *)
Theorem planner_correct enum_key enum_value valid like table_rows db stmt sc info w e : EnumKeys enum_key enum_value valid ->
  from_scope db (From_ stmt) = Some sc -> NoDup sc.*1 -> Forall (fun a => stored (valid := valid) table_rows a.2) sc ->
  snd <$> Plan_table db ∅ (From_ stmt) 0 = Ok info ->
  Where stmt = Some w -> condition w = true -> Plan_expr enum_value info w = Ok e -> translatable e = true ->
  Forall is_boolean (Decompose e) -> (length sc = 1%nat -> Forall (fun x => ReferencedTables x <> ∅) (Decompose e)) ->
  Forall (select_ok (enum_value := enum_value) info) (Selects stmt) ->
  exists op info' out, Plan_statement enum_value db ∅ stmt = Ok (op, info') /\ denote enum_key like table_rows op = [out] /\
    Forall2 (answers (enum_key := enum_key) (enum_value := enum_value) table_rows sc info w) (Selects stmt) out.
Proof.
  intros HE Hsc Hnames Hst Hpt Hw Hcond He Htr Hb Hone Hsel. pose proof (from_scope_tables _ _ _ Hsc) as Hfrom.
  destruct (Plan_table_resolves db _ sc Hsc) as (ops & info0 & Hp & Hres). rewrite Hp in Hpt. injection Hpt as ->.
  assert (exists aggs, Forall2 (fun p a => exists c, p = PAggregateExpr a.1 c /\ exact c = true /\ Plan_expr enum_value info c = Ok a.2 /\
    translatable a.2 = true /\ typed (agg_expr a)) (Selects stmt) aggs) as [aggs Haggs].
  { apply Forall_pick. eapply list.Forall_impl; [exact Hsel|]. intros p (k & c & y & ? & ? & ? & ? & ?). by exists (k, y), c. }
  destruct (planner_sound enum_key like table_rows enum_value db stmt sc.*2 info w e aggs) as (op & info' & Hop & Hd); try done.
  - apply list.Forall_fmap. eapply list.Forall_impl; [exact Hst|]. intros a. apply stored_table_ok.
  - by rewrite Hp.
  - by rewrite length_fmap.
  - eapply list.Forall2_impl; [exact Haggs|]. intros p a (c & -> & _ & Hc & _ & [t Ht]). cbn [Plan_expr]. rewrite Hc. cbn [mbind Res_bind].
    unfold checked. change (AggregateExpr a.1 a.2) with (agg_expr a). by rewrite Ht.
  - eexists op, info', _. split_and!; [done|exact Hd|]. by apply query_answers.
Qed.

(** ** An example *)
Module WhereDemo.
Definition table_a : Table := MkTable "a" [MkCatCol "x" (MkType INT 0) false; MkCatCol "e" (MkType ENUM 4) true].
Definition table_b : Table := MkTable "b" [MkCatCol "y" (MkType INT 0) false].
Definition demo_db : gmap string Table := <["a" := table_a]> (<["b" := table_b]> ∅).
Definition int (z : Z) : SQLValue := MkSQL (VInt32 z) false.
Definition demo_rows (t : Table) : list row :=
  if String.eqb (table_name t) "a"
  then [[int 1; MkSQL (VEnum 4 1) false]; [int 7; MkSQL (VEnum 4 0) true]; [int 2; MkSQL (VEnum 4 0) false]]
  else [[int 1]; [int 7]; [int 2]].
Definition demo_key : Z -> Z -> list Z := file_key EnumDemo.file.
Definition demo_value : Z -> list Z -> Z := file_value EnumDemo.hash EnumDemo.file.
Definition demo_valid (id v : Z) : Prop := 0 <= v < vec_size (EnumDemo.keys id).

(** [SELECT MAX(a.x), SUM(c.y) FROM a, b AS c
     WHERE a.x = c.y AND (a.e IN ('bb', 'zz') OR NOT c.y < 5)] *)
Definition ax : PExpr := PColumnRefExpr "a" "x".
Definition cy : PExpr := PColumnRefExpr "c" "y".
Definition demo_where : PExpr :=
  PBinaryExpr PAND (PBinaryExpr PEQ ax cy)
    (PBinaryExpr POR (PInExpr (PColumnRefExpr "a" "e") [PLiteralExpr (LitString [98; 98]); PLiteralExpr (LitString [122; 122])])
      (PUnaryExpr OpNOT (PBinaryExpr PLT cy (PLiteralExpr (LitInt32 5))))).
Definition demo_stmt : SelectStatement :=
  MkSelect [PAggregateExpr MAX ax; PAggregateExpr SUM cy] (CrossProductTable [BaseTable "a" ""; BaseTable "b" "c"]) (Some demo_where).
Definition demo_scope : scope := [("a", table_a); ("c", table_b)].
Definition demo_info : InfoMap :=
  match Plan_table demo_db ∅ (From_ demo_stmt) 0 with Ok (_, info) => info | _ => ∅ end.
Definition demo_cond : Expression :=
  match Plan_expr demo_value demo_info demo_where with Ok e => e | _ => LiteralExpr (VBool false) false end.

Lemma demo_enum : EnumKeys demo_key demo_value demo_valid.
Proof. exact (files_EnumKeys EnumDemo.hash EnumDemo.file EnumDemo.keys EnumDemo.demo_files). Qed.

Lemma demo_tables_stored : Forall (fun a => stored (valid := demo_valid) demo_rows a.2) demo_scope.
Proof.
  repeat constructor; try (by apply (bool_decide_unpack _); vm_compute); cbn; try done; set_solver.
Qed.

Lemma demo_matching : matching (enum_key := demo_key) demo_rows demo_scope demo_where =
  [[[int 1; MkSQL (VEnum 4 1) false]; [int 1]]; [[int 7; MkSQL (VEnum 4 0) true]; [int 7]]].
Proof. vm_compute. reflexivity. Qed.

Abbreviation demo_answers := (answers (enum_key := demo_key) (enum_value := demo_value) demo_rows demo_scope demo_info demo_where).

Lemma not_all_null (x : SQLValue) (v : SQLValue) vs : not_null v ->
  (sv_null x = true <-> Forall (fun w => sv_null w = true) (v :: vs)) -> not_null x.
Proof.
  intros Hv H. unfold not_null in *. destruct (sv_null x); [|done]. pose proof (proj1 H eq_refl) as [Hn _]%list.Forall_cons. congruence.
Qed.

Lemma demo_max x : demo_answers (PAggregateExpr MAX ax) x -> x = int 7.
Proof.
  intros (k & c & [= <- <-] & H). rewrite demo_matching in H. destruct H as [_ H].
  destruct H as [Hn H].
  { apply list.Forall_forall. intros v Hv _. apply list_elem_of_In in Hv. destruct Hv as [<-|[<-|[]]]; by split. }
  destruct H as [Hin Hle]; [by eapply not_all_null; [|exact Hn]|].
  specialize (Hle (int 7) ltac:(right; by left) eq_refl). apply list_elem_of_In in Hin. destruct Hin as [<-|[<-|[]]]; [|done].
  exfalso. by apply Hle.
Qed.

Lemma demo_sum s : demo_answers (PAggregateExpr SUM cy) s -> not_null s /\ int_of s = 8.
Proof.
  intros (k & c & [= <- <-] & H). rewrite demo_matching in H. destruct H as [(y & Hy & Ht) [H _]].
  vm_compute in Hy. injection Hy as <-. injection Ht as Ht. rewrite <- Ht in H.
  destruct H as [Hn H]; [right; by left| |].
  { apply list.Forall_forall. intros v Hv _. apply list_elem_of_In in Hv. destruct Hv as [<-|[<-|[]]]; by split. }
  assert (not_null s) as Hs by (by eapply not_all_null; [|exact Hn]).
  split; [done|]. by rewrite (H Hs).
Qed.

(** Below [NOT] the generated code of [IN] differs: on the row whose enum is null, the plan of
    [NOT a.e IN ('bb')] accepts, while the condition is unknown. *)
Definition negated_in : PExpr := PUnaryExpr OpNOT (PInExpr (PColumnRefExpr "a" "e") [PLiteralExpr (LitString [98; 98])]).
Example not_in_accepts_null : let rs := [[int 7; MkSQL (VEnum 4 0) true]; [int 7]] in
  (exists e, Plan_expr demo_value demo_info negated_in = Ok e /\ accepted demo_key (fun _ _ => false) (MkEnv rs []) e = true) /\
  meaning demo_key demo_scope rs negated_in = None.
Proof. split; [eexists; split; [vm_compute; reflexivity|vm_compute; reflexivity]|vm_compute; reflexivity]. Qed.

(** The rows with 1 and 7 match. *)
Lemma planner_correct_witness : exists op info' x s, Plan_statement demo_value demo_db ∅ demo_stmt = Ok (op, info') /\
  denote demo_key (fun _ _ => false) demo_rows op = [[x; s]] /\ x = int 7 /\ not_null s /\ int_of s = 8.
Proof.
  destruct (planner_correct demo_key demo_value demo_valid (fun _ _ => false) demo_rows demo_db demo_stmt demo_scope demo_info demo_where demo_cond)
    as (op & info' & out & Hp & Hd & Hout).
  - exact demo_enum.
  - reflexivity.
  - apply (bool_decide_unpack _). vm_compute. exact I.
  - exact demo_tables_stored.
  - reflexivity.
  - reflexivity.
  - reflexivity.
  - vm_compute. reflexivity.
  - vm_compute. reflexivity.
  - vm_compute. repeat constructor.
  - intros H. discriminate H.
  - repeat constructor; (eexists _, _, _; split_and!; [reflexivity|reflexivity|reflexivity|reflexivity|eexists; reflexivity]).
  - inversion Hout as [|? x ? rest Hx Hrest]; subst. inversion Hrest as [|? s ? none Hs Hnone]; subst. inversion Hnone; subst.
    exists op, info', x, s. split; [done|]. split; [done|]. split; [by apply demo_max|by apply demo_sum].
Defined.
End WhereDemo.
