(* ===== verification/ColumnIndex.v ===== *)
(** * Column indexes

    src/runtime/column_index.cc: the file of an index has a hash table whose slots hold
    the offset of the first entry of a chain; an entry holds a key, the rows that have
    it and the offset of the next entry.  [Serialize] writes the file of a map from keys
    to rows, [Get] finds the rows of a key.  Integers and doubles are written into the
    entry, strings behind its rows: the class [EntryLayout] is what the chains need to
    know of an entry, and both layouts implement it. *)
From S2P Require Import Prelude ByteFile Enum.

(** ** Hashing *)
Definition Hash (k : Z) : Z :=
  let m := 14313749767032793493 in
  let h := Z.lxor 9531259594873456914 (uw 64 (8 * m)) in
  let k := uw 64 (k * m) in
  let k := Z.lxor k (Z.shiftr k 47) in
  let k := uw 64 (k * m) in
  let h := Z.lxor h k in
  let h := uw 64 (h * m) in
  let h := Z.lxor h (Z.shiftr h 47) in
  let h := uw 64 (h * m) in
  let h := Z.lxor h (Z.shiftr h 47) in
  Z.lor h (Z.shiftl 1 63).

(** A key of [w] bytes as an unsigned number; a double is its bits. *)
Definition ToUInt64 (w : nat) (key : Z) : Z := uw (8 * Z.of_nat w) key.

(** ** Entries *)
Class EntryLayout (K : Type) := {
  next_at : Z;
  key_hash : K -> Z;
  entry_bytes : K -> list Z -> Z;
  write_entry : list Z -> Z -> K -> list Z -> Res (list Z);
  match_entry : list Z -> Z -> K -> Res bool;
  read_entry : list Z -> Z -> Res (list Z)
}.

Fixpoint read_values (n : nat) (f : list Z) (off : Z) : Res (list Z) :=
  match n with
  | O => Ok []
  | S n => z ← get_le 4 f off; vs ← read_values n f (off + 4); Ok (sw 32 z :: vs)
  end.

(** [ColumnIndexEntry<T>]: the key at 0, [size] at 8, [next] at 16, the rows at 24. *)
Section Fixed.
Context (w : nat) (key_eq : Z -> Z -> bool).
Definition write_fixed (f : list Z) (off key : Z) (values : list Z) : Res (list Z) :=
  f ← put_le w f off key;
  f ← put_le 8 f (off + 8) (vec_size values);
  put_bytes f (off + 24) (values ≫= le_encode 4).
Definition match_fixed (f : list Z) (off key : Z) : Res bool := k ← get_le w f off; Ok (key_eq k key).
Definition read_fixed (f : list Z) (off : Z) : Res (list Z) :=
  n ← get_le 8 f (off + 8); read_values (Z.to_nat n) f (off + 24).
Definition FixedLayout : EntryLayout Z := {|
  next_at := 16;
  key_hash k := Hash (ToUInt64 w k);
  entry_bytes _ values := 24 + 4 * vec_size values;
  write_entry := write_fixed; match_entry := match_fixed; read_entry := read_fixed |}.
End Fixed.

(** [ColumnIndexEntry<std::string>]: [str_offset] at 0, [str_len] at 8, [size] at 16,
    [next] at 24, the rows at 32, then the characters and a zero. *)
Section Text.
Context (hash : list Z -> Z).
Definition write_text (f : list Z) (off : Z) (key : list Z) (values : list Z) : Res (list Z) :=
  f ← put_le 8 f (off + 8) (vec_size key);
  f ← put_le 8 f (off + 16) (vec_size values);
  f ← put_bytes f (off + 32) (values ≫= le_encode 4);
  let offset := off + (32 + vec_size values * 4) in
  f ← put_le 8 f off offset;
  put_bytes f offset (key ++ [0]).
Definition match_text (f : list Z) (off : Z) (key : list Z) : Res bool :=
  so ← get_le 8 f off; len ← get_le 8 f (off + 8); s ← get_bytes f so len; Ok (bool_decide (s = key)).
Definition read_text (f : list Z) (off : Z) : Res (list Z) :=
  n ← get_le 8 f (off + 16); read_values (Z.to_nat n) f (off + 32).
Definition TextLayout : EntryLayout (list Z) := {|
  next_at := 24;
  key_hash := hash;
  entry_bytes key values := 32 + 4 * vec_size values + vec_size key + 1;
  write_entry := write_text; match_entry := match_text; read_entry := read_text |}.
End Text.

(** ** Writing an index *)
Section Index.
Context {K : Type} `{EqDecision K} {L : EntryLayout K}.

(** Slots start behind the mask. *)
Definition slot_at (pos : Z) : Z := 8 + 8 * pos.
Definition key_pos (mask : Z) (k : K) : Z := Z.land (key_hash k) mask.

Definition index_length (bits : Z) (index : list (K * list Z)) : Z :=
  foldl (fun n kv => n + entry_bytes kv.1 kv.2) (8 + 2 ^ bits * 8) index.

(** The entries of one slot, one behind the other, with their offsets. *)
Fixpoint write_list (f : list Z) (offset : Z) (entries : list (K * list Z)) : Res (list Z * Z * list Z) :=
  match entries with
  | [] => Ok (f, offset, [])
  | (key, values) :: entries =>
      f ← write_entry f offset key values;
      '(f, end_, offsets) ← write_list f (offset + entry_bytes key values) entries;
      Ok (f, end_, offset :: offsets)
  end.

(** The chain, linked from the last entry to the first. *)
Fixpoint link (f : list Z) (slot : Z) (offsets : list Z) : Res (list Z) :=
  match offsets with
  | [] => Ok f
  | offset :: offsets =>
      f ← link f slot offsets;
      next ← get_le 8 f slot;
      f ← put_le 8 f (offset + next_at) next;
      put_le 8 f slot offset
  end.

(** [order] lists the slots in use in the order the map of slots is iterated. *)
Fixpoint write_groups (f : list Z) (mask offset : Z) (index : list (K * list Z)) (order : list Z) : Res (list Z * Z) :=
  match order with
  | [] => Ok (f, offset)
  | pos :: order =>
      let entries := base.filter (fun kv => key_pos mask kv.1 = pos) index in
      '(f, offset, offsets) ← write_list f offset entries;
      f ← link f (slot_at pos) offsets;
      write_groups f mask offset index order
  end.

Definition Serialize_index (old : list Z) (index : list (K * list Z)) (order : list Z) : Res (list Z) :=
  bits ← find_bits 64 (vec_size index) 1;
  let length_ := index_length bits index in
  let mask := 2 ^ bits - 1 in
  f ← put_le 8 (fallocate old length_) 0 mask;
  f ← put_bytes f 8 (replicate (Z.to_nat (2 ^ bits * 8)) 0);
  '(f, offset) ← write_groups f mask (8 + 2 ^ bits * 8) index order;
  if negb (offset =? length_) then Throw "offset == length" else Ok f.

(** ** Reading *)
Fixpoint find_entry (fuel : nat) (f : list Z) (pos : Z) (key : K) : Res (list Z) :=
  match fuel with
  | O => NoFuel
  | S fuel =>
      if pos =? 0 then Ok []
      else
        m ← match_entry f pos key;
        if m : bool then read_entry f pos else next ← get_le 8 f (pos + next_at); find_entry fuel f next key
  end.
Definition GetImpl (f : list Z) (key : K) : Res (list Z) :=
  mask ← get_le 8 f 0;
  pos ← get_le 8 f (slot_at (key_pos mask key));
  find_entry (S (length f)) f pos key.
End Index.

(** ** The interface of an entry

    [entry_in f off k vs]: the file holds the entry of [k] with the rows [vs] at [off],
    whatever its [next] field says. *)
Class EntryLaws (K : Type) `{EqDecision K} (L : EntryLayout K) := {
  entry_valid : K -> list Z -> Prop;
  entry_in : list Z -> Z -> K -> list Z -> Prop;
  entry_room k vs : 0 <= next_at /\ next_at + 8 <= entry_bytes k vs;
  write_entry_ok f off k vs : entry_valid k vs -> 0 <= off -> off + entry_bytes k vs <= vec_size f -> off + entry_bytes k vs < 2 ^ 64 ->
    exists f', write_entry f off k vs = Ok f' /\ length f' = length f /\ entry_in f' off k vs /\
      forall o l, apart off (entry_bytes k vs) o (vec_size l) -> holds f o l -> holds f' o l;
  entry_keep f f' off k vs : entry_in f off k vs ->
    (forall o l, off <= o -> o + vec_size l <= off + entry_bytes k vs -> apart (off + next_at) 8 o (vec_size l) -> holds f o l -> holds f' o l) ->
    entry_in f' off k vs;
  match_entry_ok f off k vs k' vs' : entry_in f off k vs -> entry_valid k' vs' -> match_entry f off k' = Ok (bool_decide (k = k'));
  read_entry_ok f off k vs : entry_in f off k vs -> read_entry f off = Ok vs
}.

Lemma read_values_ok f vs : forall off, Forall (is_sw 32) vs -> holds f off (vs ≫= le_encode 4) -> read_values (length vs) f off = Ok vs.
Proof.
  induction vs as [|v vs IH]; intros off Hv Hh; [done|]. apply list.Forall_cons in Hv as [Hv Hvs].
  rewrite bind_cons in Hh. apply holds_app in Hh as [H1 H2]. unfold vec_size in H2. rewrite le_encode_length in H2.
  cbn [length read_values]. rewrite (holds_le 4 f off v H1). cbn [mbind Res_bind]. rewrite IH by done. cbn [mbind Res_bind].
  change (256 ^ Z.of_nat 4) with (2 ^ 32). fold (uw 32 v). by rewrite sw_uw, sw_id by (done || lia).
Qed.

Lemma rows_length vs : vec_size (vs ≫= le_encode 4) = 4 * vec_size vs.
Proof. unfold vec_size. induction vs as [|v vs IH]; [done|]. rewrite bind_cons, length_app, le_encode_length. cbn [length]. lia. Qed.

(** Closes comparisons of ranges, over the sizes of the encoded fields. *)
Ltac range := unfold apart in *; unfold vec_size in *; rewrite ?le_encode_length, ?length_app in *; cbn [length] in *; lia.

(** *** Keys in the entry

    The comparison must be the equality of the stored bits, which it is for integers.
    The one of doubles is not (0.0 equals -0.0, a NaN nothing), so indexes over doubles
    are outside these laws. *)
Section FixedLaws.
Context (w : nat) (key_eq : Z -> Z -> bool) (Hw : (0 < w <= 8)%nat).
Context (Heq : forall a b, is_uw (8 * Z.of_nat w) a -> is_uw (8 * Z.of_nat w) b -> key_eq a b = bool_decide (a = b)).
#[local] Existing Instance FixedLayout.

Definition fixed_valid (k : Z) (vs : list Z) : Prop := is_uw (8 * Z.of_nat w) k /\ Forall (is_sw 32) vs.
Definition fixed_in (f : list Z) (off k : Z) (vs : list Z) : Prop :=
  fixed_valid k vs /\ vec_size vs < 2 ^ 64 /\ holds f off (le_encode w k) /\ holds f (off + 8) (le_encode 8 (vec_size vs)) /\
  holds f (off + 24) (vs ≫= le_encode 4).

Lemma write_fixed_ok f off k vs : fixed_valid k vs -> 0 <= off -> off + (24 + 4 * vec_size vs) <= vec_size f -> off + (24 + 4 * vec_size vs) < 2 ^ 64 ->
  exists f', write_fixed w f off k vs = Ok f' /\ length f' = length f /\ fixed_in f' off k vs /\
    forall o l, apart off (24 + 4 * vec_size vs) o (vec_size l) -> holds f o l -> holds f' o l.
Proof.
  intros Hv H0 Hf Hm. assert (0 <= vec_size vs) as Hp by (unfold vec_size; lia). pose proof (rows_length vs) as Hrl. unfold write_fixed.
  destruct (put_le_ok w f off k) as (f1 & -> & Hl1 & Hh1 & Hk1); [lia|lia|]. cbn [mbind Res_bind].
  destruct (put_le_ok 8 f1 (off + 8) (vec_size vs)) as (f2 & -> & Hl2 & Hh2 & Hk2); [lia|unfold vec_size in *; lia|]. cbn [mbind Res_bind].
  destruct (put_bytes_ok f2 (off + 24) (vs ≫= le_encode 4)) as (f3 & -> & Hl3 & Hh3 & Hk3); [lia|rewrite Hrl; unfold vec_size in *; lia|].
  rewrite Hrl in Hk3. exists f3. split_and!; [done|lia| |].
  - split_and!; [done|lia| | |done].
    + apply Hk3; [range|]. apply Hk2; [range|done].
    + apply Hk3; [range|done].
  - intros o l Ha Hl. apply Hk3; [range|]. apply Hk2; [range|]. apply Hk1; [range|done].
Qed.

#[export] Instance FixedLaws : EntryLaws Z (FixedLayout w key_eq).
Proof using Hw Heq.
  refine {| entry_valid := fixed_valid; entry_in := fixed_in |}; cbn [next_at entry_bytes write_entry match_entry read_entry FixedLayout].
  - intros k vs. unfold vec_size. lia.
  - intros f off k vs. apply write_fixed_ok.
  - intros f f' off k vs (Hv & Hn & H1 & H2 & H3) Hk. pose proof (rows_length vs) as Hrl. split_and!; [done|done|..]; apply Hk; try done; rewrite ?Hrl; range.
  - intros f off k vs k' vs' (Hv & _ & H1 & _) [Hk' _]. unfold match_fixed. rewrite (holds_le w f off k H1). cbn [mbind Res_bind].
    destruct Hv as [Hk _]. assert (256 ^ Z.of_nat w = 2 ^ (8 * Z.of_nat w)) as -> by (change 256 with (2 ^ 8); by rewrite <- Z.pow_mul_r by lia).
    unfold is_uw in Hk. rewrite Z.mod_small by done. by rewrite Heq.
  - intros f off k vs ([_ Hv] & Hn & _ & H2 & H3). unfold read_fixed. rewrite (holds_u 8 f _ _ H2) by (unfold vec_size in *; cbn; lia).
    cbn [mbind Res_bind]. unfold vec_size. rewrite Nat2Z.id. by apply read_values_ok.
Defined.
End FixedLaws.

(** *** Keys behind the entry *)
Section TextLaws.
Context (hash : list Z -> Z).
Definition text_valid (k : list Z) (vs : list Z) : Prop := Forall (is_sw 32) vs.
Definition text_in (f : list Z) (off : Z) (k vs : list Z) : Prop :=
  0 <= off /\ Forall (is_sw 32) vs /\ off + 32 + 4 * vec_size vs + vec_size k < 2 ^ 64 /\ holds f off (le_encode 8 (off + (32 + vec_size vs * 4))) /\
  holds f (off + 8) (le_encode 8 (vec_size k)) /\ holds f (off + 16) (le_encode 8 (vec_size vs)) /\
  holds f (off + 32) (vs ≫= le_encode 4) /\ holds f (off + (32 + vec_size vs * 4)) k.

Lemma write_text_ok f off k vs : text_valid k vs -> 0 <= off -> off + (32 + 4 * vec_size vs + vec_size k + 1) <= vec_size f ->
  off + (32 + 4 * vec_size vs + vec_size k + 1) < 2 ^ 64 ->
  exists f', write_text f off k vs = Ok f' /\ length f' = length f /\ text_in f' off k vs /\
    forall o l, apart off (32 + 4 * vec_size vs + vec_size k + 1) o (vec_size l) -> holds f o l -> holds f' o l.
Proof.
  intros Hv H0 Hf Hm. assert (0 <= vec_size vs /\ 0 <= vec_size k) as [Hp Hpk] by (unfold vec_size; lia). pose proof (rows_length vs) as Hrl. unfold write_text.
  destruct (put_le_ok 8 f (off + 8) (vec_size k)) as (f1 & -> & Hl1 & Hh1 & Hk1); [lia|lia|]. cbn [mbind Res_bind].
  destruct (put_le_ok 8 f1 (off + 16) (vec_size vs)) as (f2 & -> & Hl2 & Hh2 & Hk2); [lia|range|]. cbn [mbind Res_bind].
  destruct (put_bytes_ok f2 (off + 32) (vs ≫= le_encode 4)) as (f3 & -> & Hl3 & Hh3 & Hk3); [lia|rewrite Hrl; range|]. cbn [mbind Res_bind].
  destruct (put_le_ok 8 f3 off (off + (32 + vec_size vs * 4))) as (f4 & -> & Hl4 & Hh4 & Hk4); [lia|range|]. cbn [mbind Res_bind].
  destruct (put_bytes_ok f4 (off + (32 + vec_size vs * 4)) (k ++ [0])) as (f5 & -> & Hl5 & Hh5 & Hk5); [lia|range|].
  rewrite Hrl in Hk3. exists f5. split_and!; [done|lia| |].
  - apply holds_app in Hh5 as [Hh5 _]. split_and!; [done|done|lia| | | | |done].
    + apply Hk5; [range|done].
    + apply Hk5; [range|]. apply Hk4; [range|]. apply Hk3; [range|]. apply Hk2; [range|done].
    + apply Hk5; [range|]. apply Hk4; [range|]. apply Hk3; [range|done].
    + apply Hk5; [rewrite Hrl; range|]. apply Hk4; [rewrite Hrl; range|done].
  - intros o l Ha Hl. apply Hk5; [range|]. apply Hk4; [range|]. apply Hk3; [range|]. apply Hk2; [range|]. apply Hk1; [range|done].
Qed.

#[export] Instance TextLaws : EntryLaws (list Z) (TextLayout hash).
Proof.
  refine {| entry_valid := text_valid; entry_in := text_in |}; cbn [next_at entry_bytes write_entry match_entry read_entry TextLayout].
  - intros k vs. unfold vec_size. lia.
  - intros f off k vs. apply write_text_ok.
  - intros f f' off k vs (H0 & Hv & Hn & H1 & H2 & H3 & H4 & H5) Hk. pose proof (rows_length vs) as Hrl.
    split_and!; try done; apply Hk; try done; rewrite ?Hrl; range.
  - intros f off k vs k' vs' (H0 & _ & Hn & H1 & H2 & _ & _ & H5) _. unfold match_text.
    assert (0 <= vec_size vs /\ 0 <= vec_size k) as [Hp Hpk] by (unfold vec_size; lia).
    rewrite (holds_u 8 f _ _ H1) by (cbn; lia). cbn [mbind Res_bind]. rewrite (holds_u 8 f _ _ H2) by (cbn; lia). cbn [mbind Res_bind].
    unfold holds in H5. rewrite H5. done.
  - intros f off k vs (H0 & Hv & Hn & _ & _ & H3 & H4 & _). unfold read_text. rewrite (holds_u 8 f _ _ H3) by (unfold vec_size in *; cbn; lia).
    cbn [mbind Res_bind]. unfold vec_size. rewrite Nat2Z.id. by apply read_values_ok.
Defined.
End TextLaws.

(** ** Chains *)
Section Chains.
Context {K : Type} `{EqDecision K} {L : EntryLayout K} {W : EntryLaws K L}.
Implicit Types l : list (K * list Z).

Definition list_bytes l : Z := foldr (fun kv n => entry_bytes kv.1 kv.2 + n) 0 l.

Lemma entry_bytes_pos k vs : 0 < entry_bytes k vs.
Proof using W. destruct (entry_room k vs). lia. Qed.
Lemma list_bytes_pos l : Z.of_nat (length l) <= list_bytes l.
Proof using W. induction l as [|[k vs] l IH]; [done|]. cbn [list_bytes foldr length fst snd]. fold (list_bytes l). pose proof (entry_bytes_pos k vs). lia. Qed.

(** A chain that starts at [start], its entries in order within [lo, hi). *)
Fixpoint chain (f : list Z) (lo hi start : Z) l : Prop :=
  match l with
  | [] => start = 0
  | (k, vs) :: l =>
      0 < start < 2 ^ 64 /\ lo <= start /\ start + entry_bytes k vs <= hi /\ entry_in f start k vs /\
      exists next, 0 <= next < 2 ^ 64 /\ holds f (start + next_at) (le_encode 8 next) /\ chain f (start + entry_bytes k vs) hi next l
  end.

(** The entries one behind the other, not linked yet. *)
Fixpoint placed (f : list Z) (off : Z) (offsets : list Z) l : Prop :=
  match l, offsets with
  | [], [] => True
  | (k, vs) :: l, o :: offsets => o = off /\ entry_in f off k vs /\ placed f (off + entry_bytes k vs) offsets l
  | _, _ => False
  end.

Lemma chain_keep f f' hi l : forall lo start, chain f lo hi start l ->
  (forall o b, lo <= o -> o + vec_size b <= hi -> holds f o b -> holds f' o b) -> chain f' lo hi start l.
Proof using W.
  induction l as [|[k vs] l IH]; intros lo start Hc Hk; [done|]. destruct Hc as (H0 & H1 & H2 & H3 & next & H4 & H5 & H6).
  destruct (entry_room k vs) as [Hn1 Hn2]. cbn [chain]. split_and!; try lia.
  - apply (entry_keep f); [done|]. intros o b Ho Hb _. apply Hk; lia.
  - exists next. split_and!; try lia.
    + apply Hk; [lia|range|done].
    + apply IH; [done|]. intros o b Ho Hb. apply Hk; [|done]. pose proof (entry_bytes_pos k vs). lia.
Qed.

Lemma chain_weaken f hi l : forall lo lo' start, lo' <= lo -> chain f lo hi start l -> chain f lo' hi start l.
Proof. destruct l as [|[k vs] l]; intros lo lo' start Hlo; [done|]. cbn. intros (? & ? & ?). split_and!; try lia; tauto. Qed.
Lemma chain_widen f hi hi' l : hi <= hi' -> forall lo start, chain f lo hi start l -> chain f lo hi' start l.
Proof.
  intros Hh. induction l as [|[k vs] l IH]; intros lo start Hc; [done|]. destruct Hc as (H0 & H1 & H2 & H3 & next & H4 & H5 & H6).
  cbn. split_and!; try lia; [done|]. exists next. split_and!; try lia; [done|]. by apply IH.
Qed.

Lemma write_list_ok l : forall f off, Forall (fun kv => entry_valid kv.1 kv.2) l -> 0 <= off -> off + list_bytes l <= vec_size f ->
  off + list_bytes l < 2 ^ 64 ->
  exists f' offsets, write_list f off l = Ok (f', off + list_bytes l, offsets) /\ length f' = length f /\ placed f' off offsets l /\
    forall o b, apart off (list_bytes l) o (vec_size b) -> holds f o b -> holds f' o b.
Proof using W.
  induction l as [|[k vs] l IH]; intros f off Hv H0 Hf Hm; cbn [write_list].
  { exists f, []. cbn. rewrite Z.add_0_r. by split_and!. }
  apply list.Forall_cons in Hv as [Hv Hvs]. cbn [list_bytes foldr fst snd] in *. fold (list_bytes l) in *.
  pose proof (list_bytes_pos l). pose proof (entry_bytes_pos k vs).
  destruct (write_entry_ok f off k vs Hv) as (f1 & -> & Hl1 & Hin & Hk1); [lia|lia|lia|]. cbn [mbind Res_bind].
  destruct (IH f1 (off + entry_bytes k vs)) as (f2 & offs & -> & Hl2 & Hp & Hk2); [done|lia|range|lia|]. cbn [mbind Res_bind].
  exists f2, (off :: offs). split_and!; [do 3 f_equal; lia|lia| |].
  - cbn [placed]. split_and!; [done| |done]. apply (entry_keep f1); [done|]. intros o b Ho Hb _. apply Hk2. unfold apart. lia.
  - intros o b Ha Hb. apply Hk2; [unfold apart in *; lia|]. apply Hk1; [unfold apart in *; lia|done].
Qed.

(** Linking turns placed entries into a chain. *)
Lemma link_ok l : forall f off slot offsets, placed f off offsets l -> 0 < off -> off + list_bytes l <= vec_size f -> off + list_bytes l < 2 ^ 64 ->
  0 <= slot -> slot + 8 <= off -> holds f slot (le_encode 8 0) ->
  exists f' start, link f slot offsets = Ok f' /\ length f' = length f /\ 0 <= start < 2 ^ 64 /\ holds f' slot (le_encode 8 start) /\
    chain f' off (off + list_bytes l) start l /\
    forall o b, apart off (list_bytes l) o (vec_size b) -> apart slot 8 o (vec_size b) -> holds f o b -> holds f' o b.
Proof using W.
  induction l as [|[k vs] l IH]; intros f off slot [|o offsets] Hp H0 Hf Hm Hs0 Hs Hz; try done; cbn [link].
  { exists f, 0. by split_and!. }
  destruct Hp as (-> & Hin & Hp). cbn [list_bytes foldr fst snd] in *. fold (list_bytes l) in *.
  pose proof (list_bytes_pos l). destruct (entry_room k vs) as [Hn1 Hn2].
  destruct (IH f (off + entry_bytes k vs) slot offsets Hp) as (f1 & start & -> & Hl1 & Hst & Hsl & Hch & Hk1); [lia|lia|lia|done|lia|done|]. cbn [mbind Res_bind].
  rewrite (holds_u 8 f1 slot start Hsl) by done. cbn [mbind Res_bind].
  destruct (put_le_ok 8 f1 (off + next_at) start) as (f2 & -> & Hl2 & Hh2 & Hk2); [lia|range|]. cbn [mbind Res_bind].
  destruct (put_le_ok 8 f2 slot off) as (f3 & -> & Hl3 & Hh3 & Hk3); [lia|range|].
  exists f3, off. split_and!; [done|lia|lia|lia|done| |].
  - cbn [chain]. split_and!; try lia.
    + apply (entry_keep f); [done|]. intros o b Ho Hb Ha Hfb. apply Hk3; [range|]. apply Hk2; [range|]. apply Hk1; [range|range|done].
    + exists start. split_and!; try lia; [apply Hk3; [range|done]|].
      replace (off + (entry_bytes k vs + list_bytes l)) with (off + entry_bytes k vs + list_bytes l) by lia.
      apply (chain_keep f1); [done|]. intros o b Ho Hb Hfb. apply Hk3; [range|]. apply Hk2; [range|done].
  - intros o b Ha Has Hfb. apply Hk3; [range|]. apply Hk2; [range|]. apply Hk1; [range|done|done].
Qed.

(** Looking a key up along a chain. *)
Lemma find_entry_ok f key vs' hi l : entry_valid key vs' -> forall lo start fuel, chain f lo hi start l -> (length l < fuel)%nat ->
  find_entry fuel f start key = Ok (default [] (snd <$> List.find (fun kv => bool_decide (kv.1 = key)) l)).
Proof using W.
  intros Hv. induction l as [|[k vs] l IH]; intros lo start fuel Hc Hf; (destruct fuel as [|fuel]; [cbn in Hf; lia|]); cbn [find_entry].
  { cbn in Hc. by subst start. }
  destruct Hc as (H0 & _ & _ & Hin & next & Hn & Hnext & Hc). destruct (Z.eqb_spec start 0); [lia|].
  rewrite (match_entry_ok f start k vs key vs') by done. cbn [mbind Res_bind List.find fst]. case_bool_decide.
  - by rewrite (read_entry_ok f start k vs).
  - rewrite (holds_u 8 f _ next Hnext) by done. cbn [mbind Res_bind]. eapply IH; [exact Hc|]. cbn in Hf. lia.
Qed.

(** ** The slots *)
Definition entries_of (mask : Z) (index : list (K * list Z)) (p : Z) : list (K * list Z) := base.filter (fun kv => key_pos mask kv.1 = p) index.
Definition groups_bytes (mask : Z) (index : list (K * list Z)) (order : list Z) : Z :=
  foldr (fun p n => list_bytes (entries_of mask index p) + n) 0 order.

(** The slots in [done] have their chains, between the table and [off]; the others are empty. *)
Definition slots_ok (bits : Z) (index : list (K * list Z)) (f : list Z) (off : Z) (done : list Z) : Prop :=
  forall p, 0 <= p < 2 ^ bits -> exists start, 0 <= start < 2 ^ 64 /\ holds f (slot_at p) (le_encode 8 start) /\
    chain f (8 + 2 ^ bits * 8) off start (if decide (p ∈ done) then entries_of (2 ^ bits - 1) index p else []).

Lemma groups_bytes_pos mask index order : 0 <= groups_bytes mask index order.
Proof using W. induction order as [|p order IH]; cbn; [done|]. fold (groups_bytes mask index order). pose proof (list_bytes_pos (entries_of mask index p)). lia. Qed.

Lemma list_bytes_filter mask index p : list_bytes (entries_of mask index p) <= list_bytes index.
Proof using W.
  unfold entries_of. induction index as [|[k vs] l IH]; [done|]. rewrite list.filter_cons. pose proof (entry_bytes_pos k vs).
  case_decide; cbn [list_bytes foldr fst snd]; fold (list_bytes l); [fold (list_bytes (base.filter (fun kv => key_pos mask kv.1 = p) l))|]; lia.
Qed.

Lemma write_groups_ok bits index order : 1 <= bits -> Forall (fun kv => entry_valid kv.1 kv.2) index -> forall f off done,
  slots_ok bits index f off done -> NoDup (done ++ order) -> Forall (fun p => 0 <= p < 2 ^ bits) order -> 8 + 2 ^ bits * 8 <= off ->
  off + groups_bytes (2 ^ bits - 1) index order <= vec_size f -> off + groups_bytes (2 ^ bits - 1) index order < 2 ^ 64 ->
  exists f', write_groups f (2 ^ bits - 1) off index order = Ok (f', off + groups_bytes (2 ^ bits - 1) index order) /\ length f' = length f /\
    slots_ok bits index f' (off + groups_bytes (2 ^ bits - 1) index order) (done ++ order) /\
    forall o b, o + vec_size b <= 8 -> holds f o b -> holds f' o b.
Proof using W.
  intros Hb Hv. induction order as [|p order IH]; intros f off done Hs Hnd Ho Hoff Hf Hm; cbn [write_groups].
  { exists f. cbn. rewrite Z.add_0_r, app_nil_r. by split_and!. }
  apply list.Forall_cons in Ho as [Hp Ho]. cbn [groups_bytes foldr] in *. fold (groups_bytes (2 ^ bits - 1) index order) in *.
  fold (entries_of (2 ^ bits - 1) index p). set (es := entries_of (2 ^ bits - 1) index p) in *. pose proof (list_bytes_pos es).
  pose proof (groups_bytes_pos (2 ^ bits - 1) index order). assert (p ∉ done) as Hpd by (apply list.NoDup_app in Hnd as (_ & Hd & _); intros Hin; apply (Hd p Hin); by left).
  destruct (write_list_ok es f off) as (f1 & offs & -> & Hl1 & Hpl & Hk1); [|lia|lia|lia|].
  { apply list.Forall_forall. intros kv [_ Hkv]%list_elem_of_filter. by eapply list.Forall_forall in Hv. }
  cbn [mbind Res_bind]. destruct (Hs p Hp) as (z & _ & Hz & Hzc). rewrite decide_False in Hzc by done. cbn in Hzc. subst z.
  destruct (link_ok es f1 off (slot_at p) offs Hpl) as (f2 & start & -> & Hl2 & Hst & Hsl & Hch & Hk2); [lia|range|lia|unfold slot_at; lia|unfold slot_at; lia| |].
  { apply Hk1; [unfold slot_at; range|done]. }
  cbn [mbind Res_bind]. destruct (IH f2 (off + list_bytes es) (done ++ [p])) as (f' & -> & Hl' & Hs' & Hk'); [|by rewrite <- (assoc_L (++))|done|lia|range|lia|].
  - intros q Hq. destruct (Hs q Hq) as (sq & Hsq & Hqs & Hqc). destruct (decide (q = p)) as [->|Hne].
    + exists start. split_and!; [lia|lia|done|]. rewrite decide_True by set_solver. apply (chain_weaken f2 _ _ off); [lia|done].
    + exists sq. split_and!; [lia|lia| |].
      * apply Hk2; [unfold slot_at; range|unfold slot_at; range|]. apply Hk1; [unfold slot_at; range|done].
      * rewrite (decide_ext _ (q ∈ done)) by set_solver. apply (chain_widen _ off); [lia|]. apply (chain_keep f); [done|].
        intros o b Hob Hbo Hfb. apply Hk2; [range|unfold slot_at; range|]. apply Hk1; [range|done].
  - exists f'. rewrite <- (assoc_L (++)) in Hs'. replace (off + (list_bytes es + groups_bytes (2 ^ bits - 1) index order)) with
      (off + list_bytes es + groups_bytes (2 ^ bits - 1) index order) by lia. split_and!; [done|lia|done|].
    intros o b Hob Hfb. apply Hk'; [done|]. apply Hk2; [range|unfold slot_at; range|]. apply Hk1; [range|done].
Qed.

(** Every entry belongs to one slot. *)
Lemma groups_total mask index order : NoDup order -> (forall kv, kv ∈ index -> key_pos mask kv.1 ∈ order) ->
  groups_bytes mask index order = list_bytes index.
Proof.
  intros Hnd. induction index as [|kv index IH]; intros Hin.
  { clear. induction order as [|p order IH]; [done|]. cbn. exact IH. }
  assert (forall ord, NoDup ord -> groups_bytes mask (kv :: index) ord =
    groups_bytes mask index ord + (if decide (key_pos mask kv.1 ∈ ord) then entry_bytes kv.1 kv.2 else 0)) as Hstep.
  { induction 1 as [|p ord Hp _ IHo]; [done|]. cbn [groups_bytes foldr]. fold (groups_bytes mask index ord) (groups_bytes mask (kv :: index) ord).
    rewrite IHo. unfold entries_of. rewrite list.filter_cons. destruct (decide (key_pos mask kv.1 = p)) as [E|E].
    - cbn [list_bytes foldr]. rewrite (decide_False (P := key_pos mask kv.1 ∈ ord)) by (by rewrite E). rewrite decide_True by (rewrite E; by left).
      unfold list_bytes. lia.
    - destruct (decide (key_pos mask kv.1 ∈ ord)); [rewrite decide_True by (by right)|rewrite decide_False by set_solver]; lia. }
  rewrite Hstep, IH, decide_True by (done || set_solver). cbn. unfold list_bytes. lia.
Qed.

Lemma index_length_eq bits index : index_length bits index = 8 + 2 ^ bits * 8 + list_bytes index.
Proof.
  unfold index_length. generalize (8 + 2 ^ bits * 8). induction index as [|kv index IH]; intros a; cbn; [lia|]. rewrite IH. unfold list_bytes. lia.
Qed.

(** ** The whole file *)

(** The slots in use, each once, in some order. *)
Definition slot_order (bits : Z) (index : list (K * list Z)) (order : list Z) : Prop :=
  NoDup order /\ forall p, p ∈ order <-> exists kv, kv ∈ index /\ key_pos (2 ^ bits - 1) kv.1 = p.

Definition index_file (index : list (K * list Z)) (bits : Z) (f : list Z) : Prop :=
  1 <= bits <= 33 /\ holds f 0 (le_encode 8 (2 ^ bits - 1)) /\ 8 + 2 ^ bits * 8 + list_bytes index <= vec_size f /\
  forall p, 0 <= p < 2 ^ bits -> exists start, 0 <= start < 2 ^ 64 /\ holds f (slot_at p) (le_encode 8 start) /\
    chain f (8 + 2 ^ bits * 8) (8 + 2 ^ bits * 8 + list_bytes index) start (entries_of (2 ^ bits - 1) index p).

Lemma key_pos_range bits k : 0 <= bits -> 0 <= key_pos (2 ^ bits - 1) k < 2 ^ bits.
Proof. intros. unfold key_pos. replace (2 ^ bits - 1) with (Z.ones bits) by (rewrite Z.ones_equiv; lia). rewrite Z.land_ones by done. apply Z.mod_pos_bound. by apply Z.pow_pos_nonneg. Qed.

#[local] Ltac range_rep := unfold apart, vec_size in *; rewrite ?length_replicate, ?le_encode_length in *; lia.

Lemma Serialize_index_ok old index order bits : vec_size index < 2 ^ 31 -> list_bytes index < 2 ^ 62 ->
  Forall (fun kv => entry_valid kv.1 kv.2) index -> find_bits 64 (vec_size index) 1 = Ok bits -> slot_order bits index order ->
  exists f, Serialize_index old index order = Ok f /\ index_file index bits f.
Proof using W.
  intros Hn Hb Hv Hbits [Hnd Hord]. destruct (find_bits_ok 32 63 (vec_size index) 1) as (b & Hb' & Hbr & _); [lia|lia|cbn; lia|].
  rewrite Hbits in Hb'. injection Hb' as <-. assert (1 <= bits <= 33) as Hbr' by lia. clear Hbr.
  assert (2 <= 2 ^ bits <= 8589934592) as Hpow.
  { change 2 with (2 ^ 1) at 1. change 8589934592 with (2 ^ 33). split; apply Z.pow_le_mono_r; lia. }
  pose proof (list_bytes_pos index). pose proof (groups_total (2 ^ bits - 1) index order Hnd) as Htot. specialize (Htot ltac:(intros kv Hkv; apply Hord; by exists kv)).
  unfold Serialize_index. rewrite Hbits. cbn [mbind Res_bind]. rewrite index_length_eq. set (len := 8 + 2 ^ bits * 8 + list_bytes index).
  pose proof (fallocate_length old len ltac:(lia)) as Hfl.
  destruct (put_le_ok 8 (fallocate old len) 0 (2 ^ bits - 1)) as (f1 & -> & Hl1 & Hh1 & _); [lia|lia|]. cbn [mbind Res_bind].
  destruct (put_bytes_ok f1 8 (replicate (Z.to_nat (2 ^ bits * 8)) 0)) as (f2 & -> & Hl2 & Hh2 & Hk2); [lia|range_rep|]. cbn [mbind Res_bind].
  destruct (write_groups_ok bits index order ltac:(lia) Hv f2 (8 + 2 ^ bits * 8) []) as (f & Hw & Hl & Hs & Hk).
  - intros p Hp. exists 0. split_and!; [lia|lia| |rewrite decide_False by (by apply not_elem_of_nil); done].
    pose proof (holds_slice f2 8 _ (8 * p) 8 Hh2) as Hz. rewrite drop_replicate, take_replicate in Hz. unfold slot_at.
    unfold vec_size in Hz. rewrite length_replicate in Hz. specialize (Hz ltac:(lia) ltac:(lia) ltac:(lia)). rewrite Nat.min_l in Hz by lia. exact Hz.
  - done.
  - apply list.Forall_forall. intros p (kv & _ & <-)%Hord. apply key_pos_range. lia.
  - lia.
  - rewrite Htot. fold len. range.
  - rewrite Htot. lia.
  - rewrite Htot in *. rewrite Hw. cbn [mbind Res_bind]. fold len. rewrite Z.eqb_refl. cbn [negb]. exists f. split; [done|].
    split_and!; [lia|lia| |fold len; range|].
    + apply Hk; [range|]. apply Hk2; [range_rep|done].
    + intros p Hp. destruct (Hs p Hp) as (start & ? & ? & Hc). cbn [app] in Hc. exists start. split_and!; [lia|lia|done|]. fold len.
      case_decide as Hin; [done|]. assert (entries_of (2 ^ bits - 1) index p = []) as ->; [|done].
      apply list_filter_none. intros kv Hkv E. apply Hin. apply Hord. by exists kv.
Qed.

Lemma find_filter (P : K * list Z -> bool) (Q : K * list Z -> Prop) `{!forall x, Decision (Q x)} l : (forall x, P x = true -> Q x) ->
  List.find P (base.filter Q l) = List.find P l.
Proof.
  intros HPQ. induction l as [|x l IH]; [done|]. rewrite list.filter_cons. cbn [List.find]. case_decide as HQ; cbn [List.find].
  - by destruct (P x).
  - destruct (P x) eqn:E; [by apply HPQ in E|done].
Qed.

Lemma find_key (index : list (K * list Z)) k : NoDup index.*1 ->
  (forall vs, (k, vs) ∈ index -> List.find (fun kv => bool_decide (kv.1 = k)) index = Some (k, vs)) /\
  (k ∉ index.*1 -> List.find (fun kv => bool_decide (kv.1 = k)) index = None).
Proof.
  induction index as [|[k' vs'] index IH]; intros Hnd; [by split; [intros vs ?%not_elem_of_nil|]|].
  apply list.NoDup_cons in Hnd as [Hk' Hnd]. destruct (IH Hnd) as [IH1 IH2]. cbn [List.find fst]. split.
  - intros vs [[= -> ->]|Hin]%elem_of_cons; [by rewrite bool_decide_true|]. rewrite bool_decide_false; [by apply IH1|].
    intros ->. apply Hk'. apply list_elem_of_fmap. by exists (k, vs).
  - cbn. intros [Hne Hno]%not_elem_of_cons. rewrite bool_decide_false by congruence. by apply IH2.
Qed.

Lemma GetImpl_ok index bits f k vs' : index_file index bits f -> entry_valid k vs' ->
  GetImpl f k = Ok (default [] (snd <$> List.find (fun kv => bool_decide (kv.1 = k)) index)).
Proof using W.
  intros (Hb & H0 & Hsz & Hs) Hv. assert (2 ^ 1 <= 2 ^ bits <= 2 ^ 33) as Hpow by (split; apply Z.pow_le_mono_r; lia).
  change (2 ^ 1) with 2 in Hpow. change (2 ^ 33) with 8589934592 in Hpow.
  unfold GetImpl. rewrite (holds_u 8 f 0 _ H0) by (cbn; lia). cbn [mbind Res_bind]. pose proof (key_pos_range bits k ltac:(lia)) as Hp.
  destruct (Hs _ Hp) as (start & Hst & Hh & Hc). rewrite (holds_u 8 f _ start Hh) by done. cbn [mbind Res_bind].
  rewrite (find_entry_ok f k vs' (8 + 2 ^ bits * 8 + list_bytes index) (entries_of (2 ^ bits - 1) index (key_pos (2 ^ bits - 1) k)) Hv (8 + 2 ^ bits * 8) start (S (length f)) Hc).
  - do 3 f_equal. apply find_filter. intros kv Hkv. apply bool_decide_eq_true in Hkv as <-. done.
  - pose proof (list_bytes_pos (entries_of (2 ^ bits - 1) index (key_pos (2 ^ bits - 1) k))). pose proof (list_bytes_filter (2 ^ bits - 1) index (key_pos (2 ^ bits - 1) k)).
    unfold vec_size in Hsz. lia.
Qed.
End Chains.

(** C25. An index is read back from its file, for every layout of entries that keeps the
    laws (integers of any width and strings): whatever the file held
    before, whatever the order in which keys and slots are written, the writer returns,
    every key finds exactly its rows, and a string or number that is no key finds none. *)
Theorem column_index_roundtrip K `{EqDecision K} (L : EntryLayout K) (W : EntryLaws K L) old (index : list (K * list Z)) order bits :
  vec_size index < 2 ^ 31 -> list_bytes index < 2 ^ 62 -> NoDup index.*1 ->
  Forall (fun kv => entry_valid kv.1 kv.2) index -> find_bits 64 (vec_size index) 1 = Ok bits -> slot_order bits index order ->
  exists f, Serialize_index old index order = Ok f /\
    (forall k vs, (k, vs) ∈ index -> GetImpl f k = Ok vs) /\
    forall k vs, k ∉ index.*1 -> entry_valid k vs -> GetImpl f k = Ok [].
Proof.
  intros Hn Hb Hnd Hv Hbits Hord. destruct (Serialize_index_ok old index order bits Hn Hb Hv Hbits Hord) as (f & Hf & Hfile).
  exists f. split_and!; [done| |].
  - intros k vs Hin. rewrite (GetImpl_ok index bits f k vs Hfile) by (by eapply (list.Forall_forall _ index) in Hv; [|exact Hin]).
    destruct (find_key index k Hnd) as [H1 _]. by rewrite (H1 vs Hin).
  - intros k vs Hno Hk. rewrite (GetImpl_ok index bits f k vs Hfile Hk). destruct (find_key index k Hnd) as [_ H2]. by rewrite (H2 Hno).
Qed.

(** Two strings in one slot, over an old file. *)
Definition demo_index : list (list Z * list Z) := [([97], [3; 7]); ([98; 99], [-1])].
Lemma column_index_roundtrip_witness :
  exists f, @Serialize_index _ (TextLayout (fun _ => 6)) [1; 2; 3] demo_index [2] = Ok f /\
    (forall k vs, (k, vs) ∈ demo_index -> @GetImpl _ (TextLayout (fun _ => 6)) f k = Ok vs) /\
    forall k vs, k ∉ demo_index.*1 -> text_valid k vs -> @GetImpl _ (TextLayout (fun _ => 6)) f k = Ok [].
Proof.
  apply (column_index_roundtrip (list Z) (TextLayout (fun _ => 6)) (TextLaws (fun _ => 6)) [1; 2; 3] demo_index [2] 2).
  - reflexivity.
  - reflexivity.
  - apply (bool_decide_unpack _). vm_compute. exact I.
  - repeat constructor; cbn; lia.
  - reflexivity.
  - split; [apply NoDup_singleton|]. intros p. rewrite list_elem_of_singleton. split.
    + intros ->. exists ([97], [3; 7]). split; [by left|reflexivity].
    + intros ([k vs] & [E|[E| H%not_elem_of_nil]%elem_of_cons]%elem_of_cons & H2); try done; injection E as -> ->; by rewrite <- H2.
Defined.
