(* ===== verification/AggregateHashTable.v ===== *)
(** * The aggregate hash table

    The runtime table of src/runtime/aggregate_hash_table.cc and the code generated
    for it by src/compile/proxy/aggregate_hash_table.cc: entries of salt, offset and
    block index probed linearly, payload structs kept in pages in insertion order. *)
From Stdlib Require Import SpecFloat.
From S2P Require Import Prelude ProgramBuilder SqlValue Struct Aggregator LinearProbe.

(** ** The model *)
Definition BLOCK_SIZE : Z := 4096.
Definition LOAD_FACTOR : spec_float := F_div (F_of_Z 3) (F_of_Z 2).

(** A page: the structs written at multiples of the payload size. *)
Abbreviation Block := (gmap Z Struct).

Record AggregateHashTable := MkHT {
  payload_hash_offset : Z;
  ht_size : Z;
  ht_capacity : Z;
  ht_mask : Z;
  entries : list Z;
  payload_block : list (option Block);
  payload_block_capacity : Z;
  payload_block_size : Z;
  last_payload_offset : Z;
  payload_size : Z;
}.

(** Pointers that are null or were not set are [None]. *)
Definition Init (payload_size payload_hash_offset : Z) : AggregateHashTable :=
  MkHT payload_hash_offset 0 1024 1023 (replicate 1024 0) [None; Some ∅; None; None] 4 2 0 payload_size.

Definition AllocateNewPage (ht : AggregateHashTable) : Res AggregateHashTable :=
  let '(blocks, cap) :=
    if payload_block_size ht =? payload_block_capacity ht
    then (payload_block ht ++ replicate (length (payload_block ht)) None, u32 (payload_block_capacity ht * 2))
    else (payload_block ht, payload_block_capacity ht) in
  blocks ← vec_set blocks (payload_block_size ht) (Some ∅);
  Ok (MkHT (payload_hash_offset ht) (ht_size ht) (ht_capacity ht) (ht_mask ht) (entries ht) blocks cap
        (u32 (payload_block_size ht + 1)) 0 (payload_size ht)).

Definition ConstructEntry (salt block_offset block_idx : Z) : Z :=
  Z.lor (Z.lor (Z.shiftl salt 48) (Z.shiftl block_offset 32)) block_idx.

Definition set_blocks (ht : AggregateHashTable) (bs : list (option Block)) : AggregateHashTable :=
  MkHT (payload_hash_offset ht) (ht_size ht) (ht_capacity ht) (ht_mask ht) (entries ht) bs
    (payload_block_capacity ht) (payload_block_size ht) (last_payload_offset ht) (payload_size ht).

Section Model.
Context (enum_key : Z -> Z -> list Z) (string_hash : list Z -> Z).
Context (uninit : SqlType -> Cell) (f : StructBuilder).

(** The struct [GetPayload] points to; offsets are multiples of the payload size. *)
Definition payload_ok (ht : AggregateHashTable) (block_offset : Z) : bool :=
  (0 <=? block_offset) && (block_offset + payload_size ht <=? BLOCK_SIZE) &&
  (block_offset mod payload_size ht =? 0).

Definition GetPayload (ht : AggregateHashTable) (block_idx block_offset : Z) : Res Struct :=
  b ← vec_at (payload_block ht) block_idx;
  b ← opt_ub b;
  if payload_ok ht block_offset then Ok (default (fresh uninit f) (b !! block_offset)) else UB.

Definition SetPayload (ht : AggregateHashTable) (block_idx block_offset : Z) (st : Struct)
    : Res AggregateHashTable :=
  b ← vec_at (payload_block ht) block_idx;
  b ← opt_ub b;
  if payload_ok ht block_offset then
    bs ← vec_set (payload_block ht) block_idx (Some (<[block_offset := st]> b));
    Ok (set_blocks ht bs)
  else UB.

(** ** Resizing *)

(** The probe loop of [Resize]. *)
Fixpoint resize_probe (fuel : nat) (es : list Z) (mask entry_idx : Z) : Res Z :=
  match fuel with
  | O => NoFuel
  | S fuel =>
      e ← vec_at es entry_idx;
      if 0 <? Z.land e 4294967295 then resize_probe fuel es mask (Z.land (u32 (entry_idx + 1)) mask)
      else Ok entry_idx
  end.

(** The hash field: the first one of the format. *)
Definition payload_hash (ht : AggregateHashTable) (block_idx block_offset : Z) : Res Z :=
  st ← GetPayload ht block_idx block_offset;
  if payload_hash_offset ht =? 0 then
    v ← Struct_Get f st 0;
    z ← i64_value v;
    Ok (u64 z)
  else UB.

(** The loop over the offsets of a page; a step of at least one byte reaches the
    end of the page. *)
Fixpoint resize_block (fuel : nat) (ht : AggregateHashTable) (es : list Z) (mask end_ block_idx block_offset : Z)
    : Res (list Z) :=
  match fuel with
  | O => NoFuel
  | S fuel =>
      if block_offset + payload_size ht <=? end_ then
        hash ← payload_hash ht block_idx block_offset;
        let salt := u16 (Z.shiftr hash 48) in
        idx ← resize_probe (S (length es)) es mask (u32 (Z.land hash mask));
        es ← vec_set es idx (ConstructEntry salt block_offset block_idx);
        resize_block fuel ht es mask end_ block_idx (u16 (block_offset + payload_size ht))
      else Ok es
  end.

Definition block_fuel : nat := S (Z.to_nat BLOCK_SIZE).

(** The loop over the pages [block_idx], [block_idx + 1], ... *)
Fixpoint resize_blocks (n : nat) (ht : AggregateHashTable) (es : list Z) (mask block_idx : Z) : Res (list Z) :=
  match n with
  | O => Ok es
  | S n =>
      let end_ := if block_idx =? payload_block_size ht - 1 then last_payload_offset ht else BLOCK_SIZE in
      es ← resize_block block_fuel ht es mask end_ block_idx 0;
      resize_blocks n ht es mask (block_idx + 1)
  end.

Definition Resize (ht : AggregateHashTable) : Res AggregateHashTable :=
  let capacity := u32 (ht_capacity ht * 2) in
  let mask := u32 (capacity - 1) in
  es ← resize_blocks (Z.to_nat (payload_block_size ht - 1)) ht (replicate (Z.to_nat capacity) 0) mask 1;
  Ok (MkHT (payload_hash_offset ht) (ht_size ht) capacity mask es (payload_block ht)
        (payload_block_capacity ht) (payload_block_size ht) (last_payload_offset ht) (payload_size ht)).

(** ** Sizes and positions *)

(** [BLOCK_SIZE / payload_size], and the division by it. *)
Definition tuples_per_block (ht : AggregateHashTable) : Res Z :=
  if payload_size ht =? 0 then UB else Ok (BLOCK_SIZE / payload_size ht).
Definition checked_tuples_per_block (ht : AggregateHashTable) : Res Z :=
  tpb ← tuples_per_block ht; if tpb =? 0 then UB else Ok tpb.

Definition ComputeBlockIdx (ht : AggregateHashTable) (idx : Z) : Res Z :=
  tpb ← checked_tuples_per_block ht; Ok (sw 32 (u32 idx / tpb + 1)).

(** The generated code takes 16 bits of the result. *)
Definition ComputeBlockOffset (ht : AggregateHashTable) (idx : Z) : Res Z :=
  tpb ← checked_tuples_per_block ht; Ok (sw 16 (payload_size ht * (u32 idx mod tpb))).

Definition NumTuples (ht : AggregateHashTable) : Res Z :=
  tpb ← tuples_per_block ht;
  let full_blocks := sw 32 (u32 (payload_block_size ht - 2)) in
  output ← (if 0 <? full_blocks then signed_result 32 (full_blocks * tpb) else Ok 0);
  signed_result 32 (output + last_payload_offset ht / payload_size ht).

(** ** Entries, hashes and keys in generated code *)

(** [AggregateHashTableEntry::Get] *)
Definition entry_salt (e : Z) : Z := sw 16 (Z.shiftr e 48).
Definition entry_offset (e : Z) : Z := sw 16 (Z.shiftr e 32).
Definition entry_block (e : Z) : Z := sw 32 e.

(** [AggregateHashTableEntry::Set] *)
Definition entry_make (salt offset idx : Z) : Z :=
  Z.lor (Z.lor (u64 (Z.shiftl (u16 salt) 48)) (u64 (Z.shiftl (u16 offset) 32))) (u32 idx).

(** [Hash]: [^] of two [Int64] values is an addition. *)
Definition hash_magic : Z := sw 64 0xc6a4a7935bd1e995.
Definition hash_offset : Z := 0xe6546b64.
Definition hash_key (k : SQLValue) : Z :=
  let key_hash := if sv_null k then 0 else ir_hash string_hash (sv_value k) in
  let key_hash := sw 64 (key_hash * hash_magic) in
  let key_hash := sw 64 (key_hash + sw 64 (Z.shiftr (u64 key_hash) 47)) in
  sw 64 (key_hash * hash_magic).
Definition hash_step (hash : Z) (k : SQLValue) : Z :=
  sw 64 (sw 64 (sw 64 (hash + hash_key k) * hash_magic) + hash_offset).
Definition Hash (keys : list SQLValue) : Z := foldl hash_step 0 keys.

Definition Salt (hash : Z) : Z := sw 16 (Z.shiftr (u64 hash) 48).

(** [CheckEq]: both branches of the conditional are generated. *)
Fixpoint CheckEq (payload : Struct) (keys : list SQLValue) (idx : Z) : Res bool :=
  match keys with
  | [] => Ok true
  | k :: keys =>
      value ← Struct_Get f payload (idx + 1);
      eq ← Equal value k;
      rest ← CheckEq payload keys (idx + 1);
      Ok (if eq : bool then rest else false)
  end.

(** ** Payloads *)
Fixpoint init_aggs (aggs : list (Aggregator * SQLValue)) (st : Struct) : Res Struct :=
  match aggs with
  | [] => Ok st
  | (a, v) :: aggs => st ← Initialize f a st v; init_aggs aggs st
  end.

Definition Payload_Initialize (st : Struct) (hash : Z) (keys : list SQLValue)
    (aggs : list (Aggregator * SQLValue)) : Res Struct :=
  st ← Struct_Update f st 0 (MkSQL (VInt64 hash) false);
  st ← pack_loop f st 1 keys;
  init_aggs aggs st.

Fixpoint Payload_Update (st : Struct) (aggs : list (Aggregator * SQLValue)) : Res Struct :=
  match aggs with
  | [] => Ok st
  | (a, v) :: aggs => st ← Update enum_key f a st v; Payload_Update st aggs
  end.

Fixpoint get_aggs (st : Struct) (aggs : list Aggregator) : Res (list SQLValue) :=
  match aggs with
  | [] => Ok []
  | a :: aggs => v ← Agg_Get f a st; vs ← get_aggs st aggs; Ok (v :: vs)
  end.

Definition Payload_Get (st : Struct) (num_keys : nat) (aggs : list Aggregator) : Res (list SQLValue) :=
  ks ← unpack_loop f st 1 num_keys;
  vs ← get_aggs st aggs;
  Ok (ks ++ vs).

(** ** Inserting *)

(** [Insert]: room for one more payload, and the entry that points to it. *)
Definition Insert (ht : AggregateHashTable) (entry_idx salt : Z) : Res (AggregateHashTable * Z * Z) :=
  let ht := MkHT (payload_hash_offset ht) (u32 (ht_size ht + 1)) (ht_capacity ht) (ht_mask ht) (entries ht)
    (payload_block ht) (payload_block_capacity ht) (payload_block_size ht) (last_payload_offset ht)
    (payload_size ht) in
  ht ← (if BLOCK_SIZE <? sw 16 (last_payload_offset ht + payload_size ht)
        then AllocateNewPage ht else Ok ht);
  let block_idx := sw 32 (payload_block_size ht - 1) in
  let offset := sw 16 (last_payload_offset ht) in
  es ← vec_set (entries ht) entry_idx (entry_make salt offset block_idx);
  Ok (MkHT (payload_hash_offset ht) (ht_size ht) (ht_capacity ht) (ht_mask ht) es (payload_block ht)
        (payload_block_capacity ht) (payload_block_size ht) (u16 (offset + payload_size ht)) (payload_size ht),
      block_idx, offset).

(** The probe loop of [UpdateOrInsert]. *)
Fixpoint update_loop (fuel : nat) (ht : AggregateHashTable) (keys : list SQLValue)
    (aggs : list (Aggregator * SQLValue)) (hash idx : Z) : Res AggregateHashTable :=
  match fuel with
  | O => NoFuel
  | S fuel =>
      let salt := Salt hash in
      e ← vec_at (entries ht) (sw 32 idx);
      if entry_block e =? 0 then
        '(ht, block_idx, offset) ← Insert ht (sw 32 idx) salt;
        st ← GetPayload ht (u32 block_idx) (u16 offset);
        st ← Payload_Initialize st hash keys aggs;
        SetPayload ht (u32 block_idx) (u16 offset) st
      else
        let next := update_loop fuel ht keys aggs hash (Z.land (sw 64 (idx + 1)) (sw 64 (ht_mask ht))) in
        if entry_salt e =? salt then
          st ← GetPayload ht (u32 (entry_block e)) (u16 (entry_offset e));
          eq ← CheckEq st keys 0;
          if eq : bool then
            st ← Payload_Update st aggs;
            SetPayload ht (u32 (entry_block e)) (u16 (entry_offset e)) st
          else next
        else next
  end.

(** The check that leaves a free slot. *)
Definition ensure_slot (ht : AggregateHashTable) : Res AggregateHashTable :=
  let size := sw 32 (ht_size ht) in
  let capacity := sw 32 (ht_capacity ht) in
  if size =? capacity then Resize ht
  else if f64_cmp GT (F_of_Z size) (F_div (F_of_Z capacity) LOAD_FACTOR) then Resize ht
  else Ok ht.

Definition UpdateOrInsert (ht : AggregateHashTable) (keys : list SQLValue)
    (aggs : list (Aggregator * SQLValue)) : Res AggregateHashTable :=
  ht ← ensure_slot ht;
  let hash := Hash keys in
  update_loop (S (length (entries ht))) ht keys aggs hash (Z.land hash (sw 64 (ht_mask ht))).

(** ** Reading *)

(** The loop over a page. *)
Fixpoint each_block (fuel : nat) (ht : AggregateHashTable) (num_keys : nat) (aggs : list Aggregator)
    (block_idx loop_end block_offset : Z) (out : list (list SQLValue)) : Res (list (list SQLValue)) :=
  match fuel with
  | O => NoFuel
  | S fuel =>
      if sw 16 (block_offset + payload_size ht) <=? loop_end then
        st ← GetPayload ht (u32 block_idx) (u16 block_offset);
        row ← Payload_Get st num_keys aggs;
        each_block fuel ht num_keys aggs block_idx loop_end (sw 16 (block_offset + payload_size ht)) (out ++ [row])
      else Ok out
  end.

(** The loop over the pages up to [end_block]. *)
Fixpoint each_blocks (n : nat) (ht : AggregateHashTable) (num_keys : nat) (aggs : list Aggregator)
    (block_idx end_block end_offset : Z) (out : list (list SQLValue)) : Res (list (list SQLValue)) :=
  match n with
  | O => Ok out
  | S n =>
      let loop_end := if block_idx =? end_block then end_offset else BLOCK_SIZE in
      out ← each_block block_fuel ht num_keys aggs block_idx loop_end 0 out;
      each_blocks n ht num_keys aggs (block_idx + 1) end_block end_offset out
  end.

Definition ForEach (ht : AggregateHashTable) (num_keys : nat) (aggs : list Aggregator)
    (out : list (list SQLValue)) (start end_ : Z) : Res (list (list SQLValue)) :=
  start_block ← ComputeBlockIdx ht start;
  end_block ← ComputeBlockIdx ht end_;
  end_offset ← ComputeBlockOffset ht end_;
  each_blocks (Z.to_nat (end_block - start_block + 1)) ht num_keys aggs start_block end_block
    (sw 16 (end_offset + payload_size ht)) out.
End Model.

(** ** The format of payloads *)
Fixpoint add_keys (f : StructBuilder) (key_types : list (SqlType * bool)) : StructBuilder :=
  match key_types with
  | [] => f
  | (t, n) :: key_types => add_keys (StructBuilder_Add f t n).2 key_types
  end.

Fixpoint add_aggs (f : StructBuilder) (es : list AggregateExpression) : StructBuilder * list Aggregator :=
  match es with
  | [] => (f, [])
  | e :: es =>
      let '(f, a) := AddFields f e in
      let '(f, aggs) := add_aggs f es in (f, a :: aggs)
  end.

Definition ConstructPayloadFormat (key_types : list (SqlType * bool)) (es : list AggregateExpression)
    : StructBuilder * list Aggregator :=
  add_aggs (add_keys (StructBuilder_Add StructBuilder_new (MkType BIGINT 0) false).2 key_types) es.
