(* ===== verification/PayloadLayout.v ===== *)
(** * Where payloads are

    The pages of the aggregate hash table hold its payloads in insertion order: the
    [i]-th one is at a fixed place, which inserting, resizing and reading share. *)
From Stdlib Require Import SpecFloat.
From S2P Require Import Prelude ProgramBuilder SqlValue Struct Aggregator LinearProbe AggregateHashTable.

Section Layout.
Context (uninit : SqlType -> Cell) (f : StructBuilder).
Context (Huninit : Forall (fun t => ir_type (cell_value (uninit t)) = t) (sb_types f)).
Context (psz : Z) (Hpsz : 1 <= psz <= BLOCK_SIZE).

(** Payloads for each page. *)
Definition tpb : Z := BLOCK_SIZE / psz.
Definition loc_block (i : Z) : Z := 1 + i / tpb.
Definition loc_offset (i : Z) : Z := psz * (i mod tpb).

Lemma tpb_bounds : 1 <= tpb <= 4096 /\ psz * tpb <= BLOCK_SIZE < psz * (tpb + 1).
Proof using Hpsz.
  unfold tpb, BLOCK_SIZE in *. pose proof (Z.div_mod 4096 psz ltac:(lia)). pose proof (Z.mod_pos_bound 4096 psz ltac:(lia)).
  split; [split|nia]; [apply Z.div_le_lower_bound; lia|apply Z.div_le_upper_bound; nia].
Qed.

Lemma loc_offset_bounds i : 0 <= loc_offset i /\ loc_offset i + psz <= BLOCK_SIZE.
Proof using Hpsz.
  destruct tpb_bounds as [[H1 _] [H2 _]]. unfold loc_offset. pose proof (Z.mod_pos_bound i tpb ltac:(lia)). nia.
Qed.

Lemma loc_offset_aligned i : loc_offset i mod psz = 0.
Proof using Hpsz. unfold loc_offset. rewrite Z.mul_comm. apply Z.mod_mul. lia. Qed.

Lemma loc_inj i j : loc_block i = loc_block j -> loc_offset i = loc_offset j -> i = j.
Proof using Hpsz.
  destruct tpb_bounds as [[H1 _] _]. unfold loc_block, loc_offset. intros Hb Ho.
  pose proof (Z.div_mod i tpb ltac:(lia)). pose proof (Z.div_mod j tpb ltac:(lia)). nia.
Qed.

(** The number of payloads that 32-bit sizes and indexes allow. *)
Definition max_payloads : Z := 2 ^ 28.

(** The pages have room for exactly [n] payloads in use. *)
Record layout (ht : AggregateHashTable) (n : Z) : Prop := {
  lo_psz : payload_size ht = psz;
  lo_hash : payload_hash_offset ht = 0;
  lo_blocks : payload_block_size ht = 2 + (Z.max n 1 - 1) / tpb;
  lo_last : last_payload_offset ht = psz * (n - tpb * (payload_block_size ht - 2));
  lo_capacity : payload_block_capacity ht = vec_size (payload_block ht);
  lo_room : payload_block_size ht <= payload_block_capacity ht /\
    (payload_block_capacity ht = 4 \/ payload_block_capacity ht <= 2 * payload_block_size ht);
  lo_pages : forall b, 1 <= b < payload_block_size ht -> exists blk, payload_block ht !! Z.to_nat b = Some (Some blk);
  lo_cells : forall b blk o st, payload_block ht !! b = Some (Some blk) -> blk !! o = Some st -> struct_ok f st;
  lo_bound : 0 <= n <= max_payloads;
}.

Lemma payload_ok_loc ht i : payload_size ht = psz -> payload_ok ht (loc_offset i) = true.
Proof using Hpsz.
  intros E. unfold payload_ok. rewrite E, loc_offset_aligned. pose proof (loc_offset_bounds i).
  rewrite (proj2 (Z.leb_le _ _)), (proj2 (Z.leb_le _ _)) by lia. done.
Qed.

Lemma GetPayload_at ht b o blk : payload_ok ht o = true -> 0 <= b -> payload_block ht !! Z.to_nat b = Some (Some blk) ->
  GetPayload uninit f ht b o = Ok (default (fresh uninit f) (blk !! o)).
Proof.
  intros Ho Hb Hblk. unfold GetPayload. rewrite (proj2 (vec_at_Ok _ _ _)) by (split; [|done]; lia).
  cbn [mbind Res_bind opt_ub]. by rewrite Ho.
Qed.

Lemma SetPayload_at ht b o st blk : payload_ok ht o = true -> 0 <= b -> payload_block ht !! Z.to_nat b = Some (Some blk) ->
  SetPayload ht b o st = Ok (set_blocks ht (<[Z.to_nat b := Some (<[o := st]> blk)]> (payload_block ht))).
Proof.
  intros Ho Hb Hblk. unfold SetPayload. rewrite (proj2 (vec_at_Ok _ _ _)) by (split; [|done]; lia).
  cbn [mbind Res_bind opt_ub]. rewrite Ho. by rewrite (vec_set_lookup _ _ _ _ Hb Hblk).
Qed.

(** Reading after writing a payload. *)
Lemma SetPayload_get ht b o st ht' b' o' : payload_ok ht o = true -> payload_ok ht o' = true -> 0 <= b -> 0 <= b' ->
  SetPayload ht b o st = Ok ht' ->
  GetPayload uninit f ht' b' o' = if decide (b' = b /\ o' = o) then Ok st else GetPayload uninit f ht b' o'.
Proof.
  intros Ho Ho' Hb Hb' Hset. unfold SetPayload in Hset. rewrite Ho in Hset.
  apply bind_Ok in Hset as (x & Hx & Hset). apply bind_Ok in Hset as (blk & Hblk & Hset).
  apply opt_ub_Ok in Hblk as ->. apply vec_at_Ok in Hx as [_ Hx].
  rewrite (vec_set_lookup _ _ _ _ Hb Hx) in Hset. cbn [mbind Res_bind] in Hset. injection Hset as <-.
  pose proof (lookup_lt_Some _ _ _ Hx) as Hlt.
  unfold GetPayload. cbn [payload_block set_blocks]. change (payload_ok (set_blocks ht _) o') with (payload_ok ht o').
  rewrite Ho'. destruct (decide (b' = b)) as [->|Hne].
  - rewrite (proj2 (vec_at_Ok (<[Z.to_nat b := _]> _) b _)) by (split; [lia|by apply list_lookup_insert_eq]).
    rewrite (proj2 (vec_at_Ok (payload_block ht) b _)) by (split; [lia|done]). cbn [mbind Res_bind opt_ub].
    destruct (decide (o' = o)) as [->|Hno].
    + rewrite decide_True by done. by rewrite lookup_insert_eq.
    + rewrite decide_False by naive_solver. by rewrite lookup_insert_ne.
  - rewrite decide_False by naive_solver. f_equal. unfold vec_at. destruct (b' <? 0); [done|].
    rewrite list_lookup_insert_ne by lia. done.
Qed.

Lemma loc_block_pos i : 0 <= i -> 1 <= loc_block i.
Proof using Hpsz.
  intros Hi. destruct tpb_bounds as [[Ht1 Ht2] _]. unfold loc_block.
  pose proof (Z.div_pos i tpb ltac:(lia) ltac:(lia)). lia.
Qed.

Lemma loc_page ht n i : layout ht n -> 0 <= i < n ->
  exists blk, payload_block ht !! Z.to_nat (loc_block i) = Some (Some blk).
Proof using Hpsz.
  intros Hl Hi. destruct tpb_bounds as [[Ht1 Ht2] _]. apply (lo_pages _ _ Hl). split; [apply loc_block_pos; lia|].
  rewrite (lo_blocks _ _ Hl). unfold loc_block.
  pose proof (Z.div_le_mono i (Z.max n 1 - 1) tpb ltac:(lia) ltac:(lia)). lia.
Qed.

(** A payload in use can be read. *)
Lemma layout_get ht n i : layout ht n -> 0 <= i < n ->
  exists st, GetPayload uninit f ht (loc_block i) (loc_offset i) = Ok st /\ struct_ok f st.
Proof using Hpsz Huninit.
  intros Hl Hi. destruct (loc_page ht n i Hl Hi) as [blk Hblk].
  pose proof (loc_block_pos i ltac:(lia)). eexists. split.
  - apply GetPayload_at; [by apply payload_ok_loc, (lo_psz _ _ Hl)|lia|done].
  - destruct (blk !! loc_offset i) as [st|] eqn:E; cbn; [by eapply lo_cells|by apply fresh_ok].
Qed.

(** Writing a payload in use. *)
Lemma layout_set ht n i st : layout ht n -> 0 <= i < n -> struct_ok f st ->
  exists ht', SetPayload ht (loc_block i) (loc_offset i) st = Ok ht' /\ layout ht' n /\
    (entries ht' = entries ht /\ ht_size ht' = ht_size ht /\
     ht_capacity ht' = ht_capacity ht /\ ht_mask ht' = ht_mask ht) /\
    forall j, 0 <= j -> GetPayload uninit f ht' (loc_block j) (loc_offset j) =
      if decide (j = i) then Ok st else GetPayload uninit f ht (loc_block j) (loc_offset j).
Proof using Hpsz.
  intros Hl Hi Hst. destruct (loc_page ht n i Hl Hi) as [blk Hblk].
  pose proof (loc_block_pos i ltac:(lia)) as Hb1.
  pose proof (payload_ok_loc ht i (lo_psz _ _ Hl)) as Hok.
  pose proof (SetPayload_at ht (loc_block i) _ st blk Hok ltac:(lia) Hblk) as Hset. rewrite Hset.
  eexists. split; [done|]. destruct Hl as [L1 L2 L3 L4 L5 L6 L7 L8 L9]. split_and!; try done.
  - split; cbn; try done.
    + rewrite L5. unfold vec_size. by rewrite length_insert.
    + intros b Hb. destruct (decide (b = loc_block i)) as [->|Hne].
      * eexists. rewrite list_lookup_insert_eq; [done|]. by eapply lookup_lt_Some.
      * rewrite list_lookup_insert_ne by lia. by apply L7.
    + intros b blk' o st' Hb Ho. destruct (decide (b = Z.to_nat (loc_block i))) as [->|Hne].
      * rewrite list_lookup_insert_eq in Hb by (by eapply lookup_lt_Some). injection Hb as <-.
        destruct (decide (o = loc_offset i)) as [->|Hno].
        -- rewrite lookup_insert_eq in Ho. by injection Ho as <-.
        -- rewrite lookup_insert_ne in Ho by done. by eapply L8.
      * rewrite list_lookup_insert_ne in Hb by done. by eapply L8.
  - intros j Hj. pose proof (loc_block_pos j Hj) as Hj1.
    rewrite (SetPayload_get ht _ _ st _ _ _ Hok (payload_ok_loc ht j L1)
      (Z.le_trans 0 1 _ ltac:(lia) Hb1) (Z.le_trans 0 1 _ ltac:(lia) Hj1) Hset).
    destruct (decide (j = i)) as [->|Hne]; [by rewrite decide_True|].
    rewrite decide_False; [done|]. intros [Hb Ho]. by apply Hne, loc_inj.
Qed.

Lemma Init_layout : layout (Init psz 0) 0.
Proof using Hpsz.
  destruct tpb_bounds as [[Ht1 _] _].
  split; try done; cbn [Init payload_block_size last_payload_offset payload_block payload_block_capacity].
  - lia.
  - split; [lia|by left].
  - intros b Hb. assert (b = 1) as -> by lia. by eexists.
  - intros [|[|[|[|b]]]] blk o st Hb Ho; cbn in Hb; try discriminate Hb. injection Hb as <-.
    by rewrite lookup_empty in Ho.
Qed.

(** ** Room for one more payload *)

Lemma layout_blocks ht n : layout ht n -> 2 <= payload_block_size ht <= 2 ^ 28 + 2 /\
  0 <= n - tpb * (payload_block_size ht - 2) <= tpb.
Proof using Hpsz.
  intros Hl. rewrite (lo_blocks _ _ Hl). destruct tpb_bounds as [[Ht1 Ht2] _].
  pose proof (lo_bound _ _ Hl) as Hn. unfold max_payloads in Hn.
  pose proof (Z.div_mod (Z.max n 1 - 1) tpb ltac:(lia)). pose proof (Z.mod_pos_bound (Z.max n 1 - 1) tpb ltac:(lia)).
  pose proof (Z.div_pos (Z.max n 1 - 1) tpb ltac:(lia) ltac:(lia)).
  assert ((Z.max n 1 - 1) / tpb <= 2 ^ 28) by (apply Z.div_le_upper_bound; nia). split; [lia|].
  replace (2 + (Z.max n 1 - 1) / tpb - 2) with ((Z.max n 1 - 1) / tpb) by lia.
  split; [|lia]. destruct (Z.max_spec n 1) as [[? E]|[? E]]; rewrite E in *; [|lia].
  assert (n = 0) as -> by lia. change (1 - 1) with 0. rewrite Z.div_0_l by lia. lia.
Qed.

(** A new page; the old ones stay. *)
Lemma AllocateNewPage_ok ht n : layout ht n ->
  exists bs cap, AllocateNewPage ht = Ok (MkHT (payload_hash_offset ht) (ht_size ht) (ht_capacity ht) (ht_mask ht)
      (entries ht) bs cap (payload_block_size ht + 1) 0 (payload_size ht)) /\
    cap = vec_size bs /\ payload_block_size ht + 1 <= cap /\ (cap = 4 \/ cap <= 2 * (payload_block_size ht + 1)) /\
    (forall b : nat, Z.of_nat b < payload_block_size ht -> bs !! b = payload_block ht !! b) /\
    bs !! Z.to_nat (payload_block_size ht) = Some (Some ∅) /\
    (forall (b : nat) blk, bs !! b = Some (Some blk) -> payload_block ht !! b = Some (Some blk) \/ blk = ∅).
Proof using Hpsz.
  intros Hl. destruct (layout_blocks ht n Hl) as [Hb _]. pose proof (lo_capacity _ _ Hl) as Hc.
  destruct (lo_room _ _ Hl) as [Hr1 Hr2]. unfold vec_size in Hc. unfold AllocateNewPage.
  assert (forall bs, (Z.to_nat (payload_block_size ht) < length bs)%nat ->
    vec_set bs (payload_block_size ht) (Some ∅) = Ok (<[Z.to_nat (payload_block_size ht) := Some (∅ : Block)]> bs)) as Hset.
  { intros bs Hlt. destruct (lookup_lt_is_Some_2 _ _ Hlt) as [x Hx]. apply (vec_set_lookup bs _ _ x); [lia|done]. }
  assert (u32 (payload_block_size ht + 1) = payload_block_size ht + 1) as -> by (apply uw_id; split; lia).
  destruct (Z.eqb_spec (payload_block_size ht) (payload_block_capacity ht)) as [E|E].
  - rewrite Hset by (rewrite length_app, length_replicate; lia). cbn [mbind Res_bind].
    rewrite (uw_id 32) by (split; lia). eexists _, _. split; [done|].
    split_and!; [unfold vec_size; rewrite length_insert, length_app, length_replicate; lia|lia|lia| | |].
    + intros b Hbb. rewrite list_lookup_insert_ne by lia. apply lookup_app_l. lia.
    + apply list_lookup_insert_eq. rewrite length_app, length_replicate. lia.
    + intros b blk Hbk. destruct (decide (b = Z.to_nat (payload_block_size ht))) as [->|Hne].
      * rewrite list_lookup_insert_eq in Hbk by (rewrite length_app, length_replicate; lia). injection Hbk as <-. by right.
      * rewrite list_lookup_insert_ne in Hbk by done. left. apply lookup_app_Some in Hbk as [?|[_ Hbk]]; [done|].
        by apply lookup_replicate in Hbk as [? _].
  - rewrite Hset by lia. cbn [mbind Res_bind]. eexists _, _. split; [done|].
    split_and!; [unfold vec_size; rewrite length_insert; lia|lia|lia| | |].
    + intros b Hbb. by rewrite list_lookup_insert_ne by lia.
    + apply list_lookup_insert_eq. lia.
    + intros b blk Hbk. destruct (decide (b = Z.to_nat (payload_block_size ht))) as [->|Hne].
      * rewrite list_lookup_insert_eq in Hbk by lia. injection Hbk as <-. by right.
      * rewrite list_lookup_insert_ne in Hbk by done. by left.
Qed.

(** Where the next payload goes. *)
Lemma next_loc ht n : layout ht n -> let B := payload_block_size ht - 2 in
  if decide (n - tpb * B = tpb)
  then loc_block n = payload_block_size ht /\ loc_offset n = 0 /\ (Z.max (n + 1) 1 - 1) / tpb = B + 1
  else loc_block n = payload_block_size ht - 1 /\ loc_offset n = last_payload_offset ht /\
    (Z.max (n + 1) 1 - 1) / tpb = B.
Proof using Hpsz.
  intros Hl B. destruct (layout_blocks ht n Hl) as [Hb Hn]. fold B in Hn. destruct tpb_bounds as [[Ht1 Ht2] _].
  pose proof (lo_bound _ _ Hl) as Hn0. replace (Z.max (n + 1) 1 - 1) with n by lia.
  unfold loc_block, loc_offset. case_decide as E.
  - assert (n = (B + 1) * tpb) as -> by lia. rewrite Z.div_mul, Z.mod_mul by lia. subst B. lia.
  - assert (n / tpb = B) as Hd by (symmetry; apply (Z.div_unique n tpb B (n - tpb * B)); lia).
    assert (n mod tpb = n - tpb * B) as Hm by (symmetry; apply (Z.mod_unique n tpb B); lia).
    rewrite Hd, Hm, (lo_last _ _ Hl). fold B. subst B. lia.
Qed.

(** The page [Insert] starts if the last one is full. *)
Lemma ensure_page ht n : layout ht n -> n < max_payloads ->
  exists ht1, (if BLOCK_SIZE <? sw 16 (last_payload_offset ht + payload_size ht) then AllocateNewPage ht else Ok ht) = Ok ht1 /\
    (payload_hash_offset ht1 = payload_hash_offset ht /\ ht_size ht1 = ht_size ht /\ ht_capacity ht1 = ht_capacity ht /\
     ht_mask ht1 = ht_mask ht /\ entries ht1 = entries ht /\ payload_size ht1 = payload_size ht) /\
    payload_block_size ht1 = loc_block n + 1 /\ last_payload_offset ht1 = loc_offset n /\
    payload_block_size ht1 = 2 + (Z.max (n + 1) 1 - 1) / tpb /\
    payload_block_capacity ht1 = vec_size (payload_block ht1) /\
    (payload_block_size ht1 <= payload_block_capacity ht1 /\
     (payload_block_capacity ht1 = 4 \/ payload_block_capacity ht1 <= 2 * payload_block_size ht1)) /\
    (forall b, 1 <= b < payload_block_size ht1 -> exists blk, payload_block ht1 !! Z.to_nat b = Some (Some blk)) /\
    (forall b blk o st, payload_block ht1 !! b = Some (Some blk) -> blk !! o = Some st -> struct_ok f st) /\
    (forall b : nat, Z.of_nat b < payload_block_size ht -> payload_block ht1 !! b = payload_block ht !! b).
Proof using Hpsz.
  intros Hl Hn. destruct (layout_blocks ht n Hl) as [Hb Hrest]. destruct tpb_bounds as [[Ht1 Ht2] [Ht3 Ht4]].
  pose proof (next_loc ht n Hl) as Hnext. cbn zeta in Hnext.
  rewrite (lo_psz _ _ Hl), (lo_last _ _ Hl).
  rewrite sw_id by (lia || (split; unfold BLOCK_SIZE in *; nia)).
  destruct (decide (n - tpb * (payload_block_size ht - 2) = tpb)) as [E|E].
  - destruct Hnext as (Hlb & Hlo & Hd). rewrite E, (proj2 (Z.ltb_lt _ _)) by nia.
    destruct (AllocateNewPage_ok ht n Hl) as (bs & cap & -> & Hcap & Hc1 & Hc2 & Hold & Hnew & Hany).
    eexists. split; [done|]. cbn. rewrite (lo_psz _ _ Hl). split_and!; try done; try lia.
    + intros b Hbb. destruct (decide (b = payload_block_size ht)) as [->|Hne]; [by eexists|].
      rewrite Hold by lia. apply (lo_pages _ _ Hl). lia.
    + intros b blk o st Hbk Ho. destruct (Hany b blk Hbk) as [?| ->]; [by eapply lo_cells|].
      by rewrite lookup_empty in Ho.
  - destruct Hnext as (Hlb & Hlo & Hd). rewrite (proj2 (Z.ltb_ge _ _)) by (rewrite Ht3 || nia).
    exists ht. split; [done|]. rewrite (lo_psz _ _ Hl). split_and!; try done; try lia; apply Hl.
Qed.

Lemma Insert_ok ht n eidx salt : layout ht n -> n < max_payloads -> 0 <= eidx < vec_size (entries ht) ->
  exists ht', Insert ht eidx salt = Ok (ht', loc_block n, loc_offset n) /\ layout ht' (n + 1) /\
    entries ht' = <[Z.to_nat eidx := entry_make salt (loc_offset n) (loc_block n)]> (entries ht) /\
    ht_size ht' = u32 (ht_size ht + 1) /\ ht_capacity ht' = ht_capacity ht /\ ht_mask ht' = ht_mask ht /\
    forall j, 0 <= j < n -> GetPayload uninit f ht' (loc_block j) (loc_offset j) = GetPayload uninit f ht (loc_block j) (loc_offset j).
Proof using Hpsz.
  intros Hl Hn He. unfold Insert.
  set (ht0 := MkHT _ (u32 (ht_size ht + 1)) _ _ _ _ _ _ _ _).
  assert (layout ht0 n) as Hl0 by (destruct Hl; by split).
  destruct (ensure_page ht0 n Hl0 Hn) as (ht1 & -> & (E1 & E2 & E3 & E4 & E5 & E6) & Hb & Ho & Hd & Hc & Hr & Hp & Hcell & Hold).
  cbn [mbind Res_bind]. destruct (layout_blocks ht n Hl) as [Hbs _].
  pose proof (loc_offset_bounds n) as Hob. pose proof (lo_bound _ _ Hl) as Hn0. pose proof (loc_block_pos n ltac:(lia)) as Hlb.
  destruct tpb_bounds as [[Ht1 Ht2] _].
  assert (loc_block n < 2 ^ 30) as Hlt.
  { unfold loc_block, max_payloads in *. assert (n / tpb <= 2 ^ 28) by (apply Z.div_le_upper_bound; nia). lia. }
  rewrite Hb, Ho, E5, E6. change (entries ht0) with (entries ht). change (payload_size ht0) with (payload_size ht).
  replace (loc_block n + 1 - 1) with (loc_block n) by lia. rewrite (lo_psz _ _ Hl).
  rewrite (sw_id 32), (sw_id 16), (uw_id 16) by (lia || (split; unfold BLOCK_SIZE in *; lia)).
  destruct (lookup_lt_is_Some_2 (entries ht) (Z.to_nat eidx)) as [e0 He0]; [unfold vec_size in He; lia|].
  rewrite (vec_set_lookup _ _ _ _ (proj1 He) He0). cbn [mbind Res_bind].
  eexists. split; [done|]. split_and!; cbn; try done.
  - split; cbn; try done; try congruence.
    + rewrite E1. apply (lo_hash _ _ Hl).
    + replace (loc_block n + 1) with (payload_block_size ht1) by lia. rewrite Hd.
      unfold loc_offset. replace (Z.max (n + 1) 1 - 1) with n by lia.
      pose proof (Z.div_mod n tpb ltac:(lia)). nia.
    + intros b Hbb. apply Hp. lia.
    + unfold max_payloads in *. lia.
  - intros j Hj. destruct (loc_page ht n j Hl Hj) as [blk Hblk]. pose proof (loc_block_pos j ltac:(lia)) as Hj1.
    assert (payload_block ht1 !! Z.to_nat (loc_block j) = Some (Some blk)) as Hblk1.
    { rewrite Hold; [done|]. rewrite Z2Nat.id by lia. change (payload_block_size ht0) with (payload_block_size ht).
      rewrite (lo_blocks _ _ Hl). unfold loc_block.
      pose proof (Z.div_le_mono j (Z.max n 1 - 1) tpb ltac:(lia) ltac:(lia)). lia. }
    rewrite (GetPayload_at ht (loc_block j) _ blk), (GetPayload_at _ (loc_block j) _ blk); try done; try lia.
    all: apply payload_ok_loc; [done || apply (lo_psz _ _ Hl)].
Qed.

(** ** Walking over the pages *)

(** What [Resize] does for the payload [i]. *)
Definition place (ht : AggregateHashTable) (mask : Z) (es : list Z) (i : Z) : Res (list Z) :=
  hash ← payload_hash uninit f ht (loc_block i) (loc_offset i);
  idx ← resize_probe (S (length es)) es mask (u32 (Z.land hash mask));
  vec_set es idx (ConstructEntry (u16 (Z.shiftr hash 48)) (loc_offset i) (loc_block i)).

(** What [ForEach] does for it. *)
Definition emit (ht : AggregateHashTable) (num_keys : nat) (aggs : list Aggregator) (out : list (list SQLValue)) (i : Z)
    : Res (list (list SQLValue)) :=
  st ← GetPayload uninit f ht (loc_block i) (loc_offset i);
  row ← Payload_Get f st num_keys aggs;
  Ok (out ++ [row]).

Lemma loc_at b j : 1 <= b -> 0 <= j < tpb -> loc_block ((b - 1) * tpb + j) = b /\ loc_offset ((b - 1) * tpb + j) = psz * j.
Proof using Hpsz.
  intros Hb Hj. unfold loc_block, loc_offset.
  rewrite (Z.add_comm ((b - 1) * tpb) j), Z.div_add, Z.mod_add, Z.div_small, Z.mod_small by lia. lia.
Qed.

(** A page whose limit leaves [c] payloads. *)
Definition page_limit (end_ c : Z) : Prop := 0 <= c <= tpb /\ psz * c <= end_ < psz * (c + 1).

Lemma resize_block_places ht mask b end_ c : payload_size ht = psz -> 1 <= b -> page_limit end_ c ->
  forall k es fuel j, (k < fuel)%nat -> 0 <= j -> c - j = Z.of_nat k ->
  resize_block uninit f fuel ht es mask end_ b (psz * j) =
  foldM (place ht mask) es (seqZ ((b - 1) * tpb + j) (Z.of_nat k)).
Proof using Hpsz.
  intros Hp Hb [Hc He]. destruct tpb_bounds as [[Ht1 Ht2] [Ht3 Ht4]]. unfold BLOCK_SIZE in *.
  induction k as [|k IH]; intros es [|fuel] j Hf Hj Hk; try lia; cbn [resize_block]; rewrite Hp.
  { rewrite (proj2 (Z.leb_gt _ _)) by nia. done. }
  rewrite (proj2 (Z.leb_le _ _)) by nia. rewrite seqZ_cons by lia. cbn [foldM]. unfold place at 2.
  destruct (loc_at b j Hb ltac:(lia)) as [-> ->].
  destruct (payload_hash uninit f ht b (psz * j)) as [h| | |]; cbn [mbind Res_bind]; [|done..].
  destruct (resize_probe _ _ _ _) as [idx| | |]; cbn [mbind Res_bind]; [|done..].
  destruct (vec_set _ _ _) as [es'| | |]; cbn [mbind Res_bind]; [|done..].
  replace (psz * j + psz) with (psz * (j + 1)) by lia. rewrite uw_id by (split; nia).
  rewrite IH by lia. f_equal. f_equal; lia.
Qed.

Lemma each_block_emits ht num_keys aggs b end_ c : payload_size ht = psz -> 1 <= b < 2 ^ 31 -> page_limit end_ c ->
  forall k out fuel j, (k < fuel)%nat -> 0 <= j -> c - j = Z.of_nat k ->
  each_block uninit f fuel ht num_keys aggs b end_ (psz * j) out =
  foldM (emit ht num_keys aggs) out (seqZ ((b - 1) * tpb + j) (Z.of_nat k)).
Proof using Hpsz.
  intros Hp Hb [Hc He]. destruct tpb_bounds as [[Ht1 Ht2] [Ht3 Ht4]]. unfold BLOCK_SIZE in *.
  induction k as [|k IH]; intros out [|fuel] j Hf Hj Hk; try lia; cbn [each_block]; rewrite Hp.
  all: replace (psz * j + psz) with (psz * (j + 1)) by lia; rewrite sw_id by (lia || (split; nia)).
  { rewrite (proj2 (Z.leb_gt _ _)) by nia. done. }
  rewrite (proj2 (Z.leb_le _ _)) by nia. rewrite seqZ_cons by lia. cbn [foldM]. unfold emit at 2.
  rewrite (uw_id 32), (uw_id 16) by (split; nia).
  destruct (loc_at b j ltac:(lia) ltac:(lia)) as [-> ->].
  destruct (GetPayload uninit f ht b (psz * j)) as [st| | |]; cbn [mbind Res_bind]; [|done..].
  destruct (Payload_Get _ _ _ _) as [row| | |]; cbn [mbind Res_bind]; [|done..].
  rewrite IH by lia. f_equal. f_equal; lia.
Qed.

Lemma full_page : page_limit BLOCK_SIZE tpb.
Proof using Hpsz. destruct tpb_bounds as [? ?]. split; lia. Qed.

Lemma block_fuel_ok c : 0 <= c <= tpb -> (Z.to_nat c < block_fuel)%nat.
Proof using Hpsz. destruct tpb_bounds as [? _]. unfold block_fuel, BLOCK_SIZE. lia. Qed.

(** A whole page. *)
Lemma resize_page ht mask b end_ c es : payload_size ht = psz -> 1 <= b -> page_limit end_ c ->
  resize_block uninit f block_fuel ht es mask end_ b 0 = foldM (place ht mask) es (seqZ ((b - 1) * tpb) c).
Proof using Hpsz.
  intros Hp Hb Hc. pose proof Hc as [Hc0 _].
  pose proof (resize_block_places ht mask b end_ c Hp Hb Hc (Z.to_nat c) es block_fuel 0 (block_fuel_ok c Hc0) ltac:(lia) ltac:(lia)) as H.
  by rewrite Z.mul_0_r, Z.add_0_r, Z2Nat.id in H by lia.
Qed.

Lemma each_page ht num_keys aggs b end_ c out : payload_size ht = psz -> 1 <= b < 2 ^ 31 -> page_limit end_ c ->
  each_block uninit f block_fuel ht num_keys aggs b end_ 0 out = foldM (emit ht num_keys aggs) out (seqZ ((b - 1) * tpb) c).
Proof using Hpsz.
  intros Hp Hb Hc. pose proof Hc as [Hc0 _].
  pose proof (each_block_emits ht num_keys aggs b end_ c Hp Hb Hc (Z.to_nat c) out block_fuel 0 (block_fuel_ok c Hc0) ltac:(lia) ltac:(lia)) as H.
  by rewrite Z.mul_0_r, Z.add_0_r, Z2Nat.id in H by lia.
Qed.

Lemma seqZ_split m a b : 0 <= a -> 0 <= b -> seqZ m (a + b) = seqZ m a ++ seqZ (m + a) b.
Proof. intros. by apply seqZ_app. Qed.

(** [Resize] visits every payload once, in order. *)
Lemma resize_blocks_places ht mask n : layout ht n -> forall k b es, 1 <= b -> b + Z.of_nat k = payload_block_size ht ->
  resize_blocks uninit f k ht es mask b = foldM (place ht mask) es (seqZ ((b - 1) * tpb) (n - (b - 1) * tpb)).
Proof using Hpsz.
  intros Hl. destruct (layout_blocks ht n Hl) as [Hbs Hr]. destruct tpb_bounds as [[Ht1 Ht2] _].
  pose proof (lo_psz _ _ Hl) as Hp.
  induction k as [|k IH]; intros b es Hb Hk; cbn [resize_blocks].
  { rewrite seqZ_nil by nia. done. }
  destruct (Z.eqb_spec b (payload_block_size ht - 1)) as [E|E].
  - rewrite (resize_page ht mask b _ (n - (b - 1) * tpb)); [|done|done|].
    + assert (k = 0)%nat as -> by lia. cbn [resize_blocks].
      by destruct (foldM _ _ _).
    + rewrite (lo_last _ _ Hl), E. split; nia.
  - rewrite (resize_page ht mask b _ tpb) by (done || apply full_page).
    replace (n - (b - 1) * tpb) with (tpb + (n - b * tpb)) by lia.
    rewrite seqZ_split, foldM_app by nia.
    destruct (foldM _ es _) as [es'| | |]; cbn [mbind Res_bind]; [|done..].
    rewrite IH by lia. f_equal. f_equal; lia.
Qed.

(** [ForEach] visits the payloads up to [last], from the start of a page on. *)
Lemma each_blocks_emits ht num_keys aggs last : payload_size ht = psz -> 0 <= last < 2 ^ 31 - 1 ->
  forall k b out, 1 <= b -> b + Z.of_nat k = loc_block last + 1 ->
  each_blocks uninit f k ht num_keys aggs b (loc_block last) (sw 16 (loc_offset last + payload_size ht)) out =
  foldM (emit ht num_keys aggs) out (seqZ ((b - 1) * tpb) (last + 1 - (b - 1) * tpb)).
Proof using Hpsz.
  intros Hp Hlast. destruct tpb_bounds as [[Ht1 Ht2] _]. pose proof (loc_offset_bounds last) as Hob. rewrite Hp.
  rewrite sw_id by (lia || (split; unfold BLOCK_SIZE in *; lia)).
  pose proof (Z.div_mod last tpb ltac:(lia)) as Hdm. pose proof (Z.mod_pos_bound last tpb ltac:(lia)) as Hmb.
  assert (loc_block last <= 2 ^ 31 - 1) as Hlb.
  { unfold loc_block. assert (last / tpb <= last) by (apply Z.div_le_upper_bound; nia). lia. }
  induction k as [|k IH]; intros b out Hb Hk; cbn [each_blocks].
  { rewrite seqZ_nil by (unfold loc_block in Hk; nia). done. }
  destruct (Z.eqb_spec b (loc_block last)) as [E|E].
  - rewrite (each_page ht num_keys aggs b _ (last + 1 - (b - 1) * tpb)); [|done|lia|].
    + assert (k = 0)%nat as -> by lia. cbn [each_blocks]. by destruct (foldM _ _ _).
    + rewrite E. unfold loc_block, loc_offset. split; nia.
  - rewrite (each_page ht num_keys aggs b _ tpb) by (done || apply full_page || lia).
    replace (last + 1 - (b - 1) * tpb) with (tpb + (last + 1 - b * tpb)) by lia.
    assert (b <= last / tpb) by (unfold loc_block in *; lia).
    rewrite seqZ_split, foldM_app by nia.
    destruct (foldM _ out _) as [out'| | |]; cbn [mbind Res_bind]; [|done..].
    rewrite IH by lia. f_equal. f_equal; lia.
Qed.

Lemma tpb_model ht : payload_size ht = psz -> tuples_per_block ht = Ok tpb /\ checked_tuples_per_block ht = Ok tpb.
Proof using Hpsz.
  intros Hp. destruct tpb_bounds as [? _]. unfold checked_tuples_per_block, tuples_per_block. rewrite Hp.
  rewrite (proj2 (Z.eqb_neq psz 0)) by lia. cbn [mbind Res_bind]. fold tpb.
  rewrite (proj2 (Z.eqb_neq tpb 0)) by lia. done.
Qed.

(** A chunk starts at the page of its first payload. *)
Lemma ForEach_emits ht num_keys aggs out start end_ : payload_size ht = psz -> 0 <= start <= end_ -> end_ < 2 ^ 31 - 1 ->
  ForEach uninit f ht num_keys aggs out start end_ =
  foldM (emit ht num_keys aggs) out (seqZ (start / tpb * tpb) (end_ + 1 - start / tpb * tpb)).
Proof using Hpsz.
  intros Hp Hs He. destruct tpb_bounds as [[Ht1 Ht2] _]. unfold ForEach, ComputeBlockIdx, ComputeBlockOffset.
  destruct (tpb_model ht Hp) as [_ ->]. cbn [mbind Res_bind]. rewrite !(uw_id 32) by (split; lia).
  assert (forall i, 0 <= i < 2 ^ 31 - 1 -> sw 32 (i / tpb + 1) = loc_block i) as Hb.
  { intros i Hi. unfold loc_block. pose proof (Z.div_pos i tpb ltac:(lia) ltac:(lia)).
    assert (i / tpb <= i) by (apply Z.div_le_upper_bound; nia). rewrite sw_id by (lia || (split; lia)). lia. }
  rewrite !Hb by lia. rewrite Hp. fold (loc_offset end_). pose proof (loc_offset_bounds end_) as Hob.
  rewrite (sw_id 16 (loc_offset end_)) by (lia || (split; unfold BLOCK_SIZE in *; lia)). rewrite <- Hp at 1.
  pose proof (loc_block_pos start ltac:(lia)).
  assert (loc_block start <= loc_block end_) by (unfold loc_block; pose proof (Z.div_le_mono start end_ tpb ltac:(lia) ltac:(lia)); lia).
  rewrite each_blocks_emits by (done || lia). unfold loc_block. f_equal. f_equal; lia.
Qed.

Lemma NumTuples_ok ht n : layout ht n -> NumTuples ht = Ok n.
Proof using Hpsz.
  intros Hl. destruct (layout_blocks ht n Hl) as [Hbs Hr]. destruct tpb_bounds as [[Ht1 Ht2] _].
  pose proof (lo_bound _ _ Hl) as Hn. unfold max_payloads in Hn.
  unfold NumTuples. destruct (tpb_model ht (lo_psz _ _ Hl)) as [-> _]. cbn [mbind Res_bind].
  rewrite (lo_last _ _ Hl), (lo_psz _ _ Hl), (Z.mul_comm psz), Z.div_mul by lia.
  rewrite (uw_id 32), sw_id by (lia || (split; lia)).
  destruct (Z.ltb_spec 0 (payload_block_size ht - 2)).
  - rewrite signed_result_id by (split; nia). cbn [mbind Res_bind]. rewrite signed_result_id by (split; nia). f_equal. lia.
  - cbn [mbind Res_bind]. assert (payload_block_size ht - 2 = 0) as E by lia. rewrite E in *.
    rewrite signed_result_id by (split; lia). f_equal. lia.
Qed.
End Layout.
