(* ===== verification/AggregateProbe.v ===== *)
(** * The entries of the aggregate hash table

    Every payload has one entry, reached by linear probing from its hash; resizing
    builds such entries anew, and [UpdateOrInsert] finds the payload of a key or the
    free entry where it goes. *)
From Stdlib Require Import SpecFloat.
From S2P Require Import Prelude ProgramBuilder Doubles SqlValue Struct Aggregator LinearProbe AggregateHashTable PayloadLayout.

(** ** Entry words *)
Definition entry_word (salt offset block : Z) : Z := u16 salt * 2 ^ 48 + offset * 2 ^ 32 + block.

Lemma lor_shift a k b : 0 <= k -> 0 <= b < 2 ^ k -> Z.lor (Z.shiftl a k) b = a * 2 ^ k + b.
Proof.
  intros Hk Hb. rewrite <- Z.shiftl_mul_pow2 by done. rewrite <- Z.add_lor_land.
  assert (Z.land (Z.shiftl a k) b = 0) as ->; [|lia].
  apply Z.bits_inj'. intros i Hi. rewrite Z.land_spec, Z.bits_0, Z.shiftl_spec by lia.
  destruct (Z.ltb_spec i k); [rewrite Z.testbit_neg_r by lia; done|].
  rewrite <- (Z.mod_small b (2 ^ k)) by lia. rewrite Z.mod_pow2_bits_high, andb_false_r by lia. done.
Qed.

Section Words.
Context (salt offset block : Z) (Ho : 0 <= offset < 2 ^ 15) (Hb : 1 <= block < 2 ^ 31).

Lemma ConstructEntry_word : ConstructEntry (u16 salt) offset block = entry_word salt offset block.
Proof using Ho Hb.
  unfold ConstructEntry, entry_word. pose proof (uw_range 16 salt ltac:(lia)) as Hs. unfold is_uw in Hs.
  rewrite <- Z.lor_assoc, (lor_shift offset 32 block), (lor_shift (u16 salt) 48) by lia. lia.
Qed.

Lemma entry_make_word : entry_make salt offset block = entry_word salt offset block.
Proof using Ho Hb.
  rewrite <- ConstructEntry_word. unfold entry_make, ConstructEntry.
  pose proof (uw_range 16 salt ltac:(lia)) as Hs. unfold is_uw in Hs.
  rewrite (uw_id 16 offset), (uw_id 32 block) by (split; lia).
  rewrite !Z.shiftl_mul_pow2, !(uw_id 64) by (lia || (split; lia)). done.
Qed.

Lemma entry_word_range : 0 < entry_word salt offset block < 2 ^ 64.
Proof using Ho Hb.
  pose proof (uw_range 16 salt ltac:(lia)) as Hs. unfold is_uw in Hs. unfold entry_word. lia.
Qed.

Lemma entry_block_word : entry_block (entry_word salt offset block) = block /\
  Z.land (entry_word salt offset block) 4294967295 = block.
Proof using Ho Hb.
  assert (entry_word salt offset block mod 2 ^ 32 = block) as E.
  { unfold entry_word. replace (u16 salt * 2 ^ 48 + offset * 2 ^ 32 + block) with
      (block + (u16 salt * 2 ^ 16 + offset) * 2 ^ 32) by lia. rewrite Z.mod_add by lia. apply Z.mod_small. lia. }
  split.
  - unfold entry_block. rewrite <- (sw_uw 32). unfold uw. rewrite E. apply sw_id; [lia|split; lia].
  - change 4294967295 with (Z.ones 32). by rewrite Z.land_ones by lia.
Qed.

Lemma entry_offset_word : entry_offset (entry_word salt offset block) = offset.
Proof using Ho Hb.
  unfold entry_offset. rewrite Z.shiftr_div_pow2 by lia. unfold entry_word.
  replace (u16 salt * 2 ^ 48 + offset * 2 ^ 32 + block) with (block + (u16 salt * 2 ^ 16 + offset) * 2 ^ 32) by lia.
  rewrite Z.div_add, Z.div_small by lia. rewrite <- (sw_uw 16). unfold uw at 1.
  replace (0 + (u16 salt * 2 ^ 16 + offset)) with (offset + u16 salt * 2 ^ 16) by lia.
  rewrite Z.mod_add, Z.mod_small by lia. apply sw_id; [lia|split; lia].
Qed.

Lemma entry_salt_word : is_sw 16 salt -> entry_salt (entry_word salt offset block) = salt.
Proof using Ho Hb.
  intros Hs. unfold entry_salt. rewrite Z.shiftr_div_pow2 by lia. unfold entry_word.
  replace (u16 salt * 2 ^ 48 + offset * 2 ^ 32 + block) with ((offset * 2 ^ 32 + block) + u16 salt * 2 ^ 48) by lia.
  rewrite Z.div_add, Z.div_small by lia. rewrite Z.add_0_l, sw_uw. by apply sw_id.
Qed.
End Words.

(** The salt of the stored hash is the salt of the key. *)
Lemma salt_u64 h : u16 (Z.shiftr (u64 h) 48) = u16 (Salt h).
Proof. unfold Salt. by rewrite uw_sw by lia. Qed.

Lemma Salt_range h : is_sw 16 (Salt h).
Proof. apply sw_range. lia. Qed.

(** Masking takes the remainder. *)
Lemma land_mask x k : 0 <= k -> Z.land x (2 ^ k - 1) = x mod 2 ^ k.
Proof. intros Hk. rewrite <- Z.land_ones by done. by rewrite Z.ones_equiv. Qed.

(** ** Indexes *)
Section Index.
Context (uninit : SqlType -> Cell) (f : StructBuilder).
Context (Huninit : Forall (fun t => ir_type (cell_value (uninit t)) = t) (sb_types f)).
Context (psz : Z) (Hpsz : 1 <= psz <= BLOCK_SIZE).

#[local] Abbreviation blk := (loc_block psz).
#[local] Abbreviation off := (loc_offset psz).

Lemma loc_words i : 0 <= i < max_payloads -> 0 <= off i < 2 ^ 15 /\ 1 <= blk i < 2 ^ 31.
Proof using Hpsz.
  intros Hi. pose proof (loc_offset_bounds psz Hpsz i) as Ho. pose proof (loc_block_pos psz Hpsz i ltac:(lia)).
  destruct (tpb_bounds psz Hpsz) as [[Ht1 Ht2] _]. unfold BLOCK_SIZE, max_payloads in *. split; [lia|]. split; [done|].
  unfold loc_block. assert (i / tpb psz <= 2 ^ 28) by (apply Z.div_le_upper_bound; nia). lia.
Qed.

(** The home slot of a hash. *)
Definition home (k : Z) (h : Z) : nat := Z.to_nat (h mod 2 ^ k).

Definition hash_of (hs : list Z) (i : nat) : Z := default 0 (hs !! i).

Definition entry_rep (hs : list Z) (e : Z) (o : option nat) : Prop :=
  match o with
  | None => e = 0
  | Some i => (i < length hs)%nat /\ e = entry_word (Salt (hash_of hs i)) (off (Z.of_nat i)) (blk (Z.of_nat i))
  end.

(** [2 ^ k] entries that index the payloads [dn] by their hashes [hs]. *)
Record indexed (k : Z) (hs : list Z) (dn : list nat) (es : list Z) (tab : list (option nat)) : Prop := {
  ix_entries : Forall2 (entry_rep hs) es tab;
  ix_length : vec_size tab = 2 ^ k;
  ix_probing : probing (fun i => home k (hash_of hs i)) tab;
  ix_elements : elements tab ≡ₚ dn;
}.

Context (k : Z) (Hk : 10 <= k <= 30) (hs : list Z) (Hhs : vec_size hs <= max_payloads).
#[local] Abbreviation mask := (2 ^ k - 1).

Lemma cap_bounds : 1024 <= 2 ^ k <= 2 ^ 30.
Proof using Hk. split; [change 1024 with (2 ^ 10)|]; apply Z.pow_le_mono_r; lia. Qed.

Lemma indexed_empty : indexed k hs [] (replicate (Z.to_nat (2 ^ k)) 0) (replicate (Z.to_nat (2 ^ k)) None).
Proof using Hk.
  pose proof cap_bounds. split.
  - apply Forall2_replicate. done.
  - unfold vec_size. rewrite length_replicate. lia.
  - apply probing_empty.
  - unfold elements. induction (Z.to_nat (2 ^ k)); done.
Qed.

(** The entry in a slot. *)
Lemma indexed_entry dn es tab p o : indexed k hs dn es tab -> tab !! p = Some o ->
  exists e, vec_at es (Z.of_nat p) = Ok e /\ entry_rep hs e o.
Proof.
  intros Hi Hp. destruct (Forall2_lookup_r _ _ _ _ _ (ix_entries _ _ _ _ _ Hi) Hp) as (e & He & Hr).
  exists e. split; [by apply vec_at_nat|done].
Qed.

Lemma entry_rep_block e o : entry_rep hs e o ->
  (Z.land e 4294967295, entry_block e) = match o with None => (0, 0) | Some i => (blk (Z.of_nat i), blk (Z.of_nat i)) end.
Proof using Hpsz Hhs.
  destruct o as [i|]; cbn; [|by intros ->]. intros [Hi ->].
  destruct (loc_words (Z.of_nat i)) as [Ho Hb]; [unfold vec_size in Hhs; lia|].
  destruct (entry_block_word (Salt (hash_of hs i)) (off (Z.of_nat i)) (blk (Z.of_nat i)) Ho Hb) as [-> ->]. done.
Qed.

(** The next slot. *)
Lemma next_slot tab (h j : nat) : vec_size tab = 2 ^ k ->
  (Z.of_nat (slot (length (A:=option nat) tab) h j) + 1) mod 2 ^ k = Z.of_nat (slot (length tab) h (S j)).
Proof using Hk.
  intros Hl. pose proof cap_bounds. unfold vec_size in Hl. rewrite slot_S by lia.
  rewrite Nat2Z.inj_mod, Nat2Z.inj_add, Hl. done.
Qed.

Lemma slot_range tab (h j : nat) : vec_size tab = 2 ^ k -> 0 <= Z.of_nat (slot (length (A:=option nat) tab) h j) < 2 ^ k.
Proof using Hk.
  intros Hl. pose proof cap_bounds. unfold vec_size in Hl. pose proof (slot_lt (length tab) h j). lia.
Qed.

(** The probe loop of [Resize] stops at the first free slot. *)
Lemma resize_probe_free dn es tab h K : indexed k hs dn es tab -> walk tab h K ->
  tab !! slot (length tab) h K = Some None -> forall d j fuel, (j + d = K)%nat -> (d < fuel)%nat ->
  resize_probe fuel es mask (Z.of_nat (slot (length tab) h j)) = Ok (Z.of_nat (slot (length tab) h K)).
Proof using Hk Hpsz Hhs.
  intros Hi Hw Hfree. pose proof cap_bounds as Hc. pose proof (ix_length _ _ _ _ _ Hi) as Hl.
  induction d as [|d IH]; intros j [|fuel] Hj Hf; try lia; cbn [resize_probe].
  - assert (j = K) as -> by lia. destruct (indexed_entry _ _ _ _ _ Hi Hfree) as (e & -> & Hr).
    cbn [mbind Res_bind]. pose proof (entry_rep_block _ _ Hr) as [= -> _]. done.
  - destruct (Hw j) as [i Hij]; [lia|]. destruct (indexed_entry _ _ _ _ _ Hi Hij) as (e & -> & Hr).
    cbn [mbind Res_bind]. pose proof (entry_rep_block _ _ Hr) as [= -> _]. destruct Hr as [Hil _].
    destruct (loc_words (Z.of_nat i)) as [_ Hb]; [unfold vec_size in Hhs; lia|].
    rewrite (proj2 (Z.ltb_lt _ _)) by lia. pose proof (slot_range tab h j Hl).
    rewrite uw_id, land_mask, next_slot by (lia || (split; lia) || done). apply IH; lia.
Qed.

Lemma home_mod h : Z.of_nat (home k h) = h mod 2 ^ k /\ (home k h < Z.to_nat (2 ^ k))%nat.
Proof using Hk.
  pose proof cap_bounds. unfold home. pose proof (Z.mod_pos_bound h (2 ^ k) ltac:(lia)). lia.
Qed.

Lemma slot_0 tab h : vec_size tab = 2 ^ k -> slot (length (A:=option nat) tab) (home k h) 0 = home k h.
Proof using Hk.
  intros Hl. unfold slot. rewrite Nat.add_0_r. apply Nat.mod_small. pose proof (home_mod h). unfold vec_size in Hl. lia.
Qed.

Lemma u64_mod h : u64 h mod 2 ^ k = h mod 2 ^ k.
Proof using Hk.
  unfold uw. apply Z.mod_mod_divide. exists (2 ^ (64 - k)). rewrite <- Z.pow_add_r by lia. f_equal. lia.
Qed.

(** Filling the first free slot. *)
Lemma indexed_insert dn es tab (i K : nat) : indexed k hs dn es tab -> (i < length hs)%nat ->
  let p := slot (length tab) (home k (hash_of hs i)) K in
  (K < length tab)%nat -> walk tab (home k (hash_of hs i)) K -> tab !! p = Some None ->
  indexed k hs (i :: dn) (<[p := entry_word (Salt (hash_of hs i)) (off (Z.of_nat i)) (blk (Z.of_nat i))]> es)
    (<[p := Some i]> tab).
Proof.
  intros [I1 I2 I3 I4] Hi p HK Hw Hp. split.
  - by apply Forall2_insert.
  - unfold vec_size in *. by rewrite length_insert.
  - by apply (probing_insert (fun i => home k (hash_of hs i))).
  - rewrite elements_insert by done. by rewrite I4.
Qed.

(** A table that is not full has a first free slot on each walk. *)
Lemma indexed_free dn es tab h : indexed k hs dn es tab -> Z.of_nat (length dn) < 2 ^ k ->
  exists K, (K < length tab)%nat /\ tab !! slot (length tab) h K = Some None /\ walk tab h K.
Proof.
  intros [I1 I2 I3 I4] Hd. unfold vec_size in I2. destruct (elements_length tab) as [p Hp]; [rewrite I4; lia|].
  by apply (first_free tab h p).
Qed.

(** The hash stored with each payload. *)
Definition hashes (ht : AggregateHashTable) : Prop := forall (i : nat) h, hs !! i = Some h ->
  is_sw 64 h /\ exists st, GetPayload uninit f ht (blk (Z.of_nat i)) (off (Z.of_nat i)) = Ok st /\
    Struct_Get f st 0 = Ok (MkSQL (VInt64 h) false).

Lemma payload_hash_ok ht (i : nat) : payload_hash_offset ht = 0 -> hashes ht -> (i < length hs)%nat ->
  payload_hash uninit f ht (blk (Z.of_nat i)) (off (Z.of_nat i)) = Ok (u64 (hash_of hs i)).
Proof.
  intros Ho Hh Hi. destruct (lookup_lt_is_Some_2 hs i Hi) as [h Eh]. destruct (Hh i h Eh) as (_ & st & Hg & Hs).
  unfold payload_hash, hash_of. by rewrite Hg, Ho, Eh; cbn [mbind Res_bind Z.eqb]; rewrite Hs.
Qed.

Lemma place_ok ht dn es tab (i : nat) : payload_hash_offset ht = 0 -> hashes ht ->
  indexed k hs dn es tab -> (i < length hs)%nat -> Z.of_nat (length dn) < 2 ^ k ->
  exists es' tab', place uninit f psz ht mask es (Z.of_nat i) = Ok es' /\ indexed k hs (i :: dn) es' tab'.
Proof using Hk Hpsz Hhs.
  intros Ho Hh Hix Hi Hd. pose proof cap_bounds as Hc. pose proof (ix_length _ _ _ _ _ Hix) as Hl.
  destruct (indexed_free dn es tab (home k (hash_of hs i)) Hix Hd) as (K & HK & Hfree & Hw).
  pose proof (indexed_insert dn es tab i K Hix Hi HK Hw Hfree) as Hins. cbn zeta in Hins.
  unfold place. rewrite (payload_hash_ok ht i Ho Hh Hi). cbn [mbind Res_bind].
  destruct (home_mod (hash_of hs i)) as [Hm Hm2].
  rewrite land_mask by lia. rewrite u64_mod, <- Hm. rewrite (uw_id 32) by (split; lia). rewrite <- (slot_0 tab) by done.
  rewrite (list.Forall2_length _ _ _ (ix_entries _ _ _ _ _ Hix)).
  rewrite (resize_probe_free dn es tab _ K Hix Hw Hfree K 0) by lia. cbn [mbind Res_bind].
  destruct (indexed_entry dn es tab _ _ Hix Hfree) as (e & He & _). apply vec_at_Ok in He as [_ He].
  rewrite (vec_set_lookup _ _ _ _ (Nat2Z.is_nonneg _) He), Nat2Z.id.
  destruct (loc_words (Z.of_nat i)) as [Ho' Hb]; [unfold vec_size in Hhs; lia|].
  rewrite salt_u64, ConstructEntry_word by done. by eexists _, _.
Qed.

Lemma place_all ht : payload_hash_offset ht = 0 -> hashes ht -> vec_size hs < 2 ^ k ->
  forall n, (n <= length hs)%nat -> exists es tab,
  foldM (place uninit f psz ht mask) (replicate (Z.to_nat (2 ^ k)) 0) (seqZ 0 (Z.of_nat n)) = Ok es /\
  indexed k hs (seq 0 n) es tab.
Proof using Hk Hpsz Hhs.
  intros Ho Hh Hlt. induction n as [|n IH]; intros Hn; [eexists _, _; split; [done|apply indexed_empty]|].
  destruct IH as (es & tab & E & Hix); [lia|]. unfold vec_size in Hlt.
  replace (Z.of_nat (S n)) with (Z.of_nat n + 1) by lia. rewrite seqZ_split, foldM_app, E by lia. cbn [mbind Res_bind].
  destruct (place_ok ht (seq 0 n) es tab n Ho Hh Hix) as (es' & tab' & E' & Hix'); [lia|rewrite length_seq; lia|].
  rewrite seqZ_cons, seqZ_nil by lia. cbn [foldM]. rewrite Z.add_0_l, E'. cbn [mbind Res_bind].
  exists es', tab'. split; [done|]. destruct Hix' as [I1 I2 I3 I4]. split; [done..|].
  rewrite I4, seq_S. by rewrite Permutation_cons_append.
Qed.
End Index.

(** ** The load factor *)
Lemma load_quotient k : 10 <= k <= 30 ->
  F_div (F_of_Z (2 ^ k)) LOAD_FACTOR = S754_finite false 6004799503160661 (k - 53).
Proof.
  intros Hk. refine (proj1 (@map_ext_in_iff _ _ (fun k => F_div (F_of_Z (2 ^ k)) LOAD_FACTOR)
    (fun k => S754_finite false 6004799503160661 (k - 53)) (seqZ 10 21)) _ k _).
  - vm_compute. reflexivity.
  - apply list_elem_of_In, elem_of_seqZ. lia.
Qed.

(** At most half full is below the load factor. *)
Lemma load_half k n : 10 <= k <= 30 -> 0 <= n <= 2 ^ (k - 1) ->
  f64_cmp GT (F_of_Z n) (F_div (F_of_Z (2 ^ k)) LOAD_FACTOR) = false.
Proof.
  intros Hk Hn. rewrite load_quotient by done. destruct n as [|p|p]; [done| |lia].
  assert (2 ^ (k - 1) <= 2 ^ 29) by (apply Z.pow_le_mono_r; lia).
  destruct (F_of_Z_exact p ltac:(lia)) as (Hd & -> & Hm & Hp). set (d := Zpos (digits2_pos p)) in *.
  set (m := Pos.iter xO p _) in *.
  assert (d <= k) as Hdk.
  { destruct (Z.le_gt_cases d k) as [|Hgt]; [done|]. assert (2 ^ k <= 2 ^ (d - 1)) by (apply Z.pow_le_mono_r; lia).
    pose proof (pow2_half k ltac:(lia)). lia. }
  cbn. unfold SFltb. cbn [SFcompare]. destruct (Z.compare_spec (k - 53) (d - 53)) as [E|E|E]; [|lia|done].
  assert (d = k) as E' by lia. rewrite E' in Hm, Hp. assert (Zpos p = 2 ^ (k - 1)) as Ep by lia.
  rewrite Ep, <- Z.pow_add_r in Hm by lia. replace (k - 1 + (53 - k)) with 52 in Hm by lia.
  change (PosDef.Pos.compare_cont Eq 6004799503160661 m) with (6004799503160661 ?= m)%positive.
  destruct (Pos.compare_spec 6004799503160661 m); [lia|lia|done].
Qed.

(** ** The table *)
Section Table.
Context (uninit : SqlType -> Cell) (f : StructBuilder).
Context (Huninit : Forall (fun t => ir_type (cell_value (uninit t)) = t) (sb_types f)).
Context (psz : Z) (Hpsz : 1 <= psz <= BLOCK_SIZE).

#[local] Abbreviation blk := (loc_block psz).
#[local] Abbreviation off := (loc_offset psz).

(** The table holds payloads with the hashes [hs], in [2 ^ k] entries that are
    more than a quarter full or as few as at the start. *)
Record table (ht : AggregateHashTable) (k : Z) (hs : list Z) (tab : list (option nat)) : Prop := {
  ta_layout : layout f psz ht (vec_size hs);
  ta_size : ht_size ht = vec_size hs;
  ta_k : 10 <= k <= 30;
  ta_capacity : ht_capacity ht = 2 ^ k;
  ta_mask : ht_mask ht = 2 ^ k - 1;
  ta_index : indexed psz k hs (seq 0 (length hs)) (entries ht) tab;
  ta_hashes : hashes uninit f psz hs ht;
  ta_load : k = 10 \/ 2 ^ k < 4 * vec_size hs;
}.

Lemma Init_table : table (Init psz 0) 10 [] (replicate 1024 None).
Proof using Hpsz.
  split; try done; [by apply Init_layout|apply (indexed_empty psz 10 ltac:(lia))|by left].
Qed.

Lemma table_full ht k hs tab : table ht k hs tab -> vec_size hs <= 2 ^ k.
Proof.
  intros Ht. destruct (ta_index _ _ _ _ Ht) as [_ Hl _ He]. apply Permutation_length in He.
  rewrite length_seq in He. unfold vec_size in *. assert (length (elements tab) <= length tab)%nat; [|lia].
  unfold elements. clear. induction tab as [|[]]; cbn; lia.
Qed.

Lemma table_k ht k hs tab : table ht k hs tab -> k <= 29.
Proof.
  intros Ht. destruct (ta_load _ _ _ _ Ht) as [->|Hl]; [lia|].
  pose proof (lo_bound _ _ _ _ (ta_layout _ _ _ _ Ht)) as Hb. unfold max_payloads in Hb.
  destruct (Z.le_gt_cases k 29) as [|Hgt]; [done|].
  assert (2 ^ 30 <= 2 ^ k) by (apply Z.pow_le_mono_r; lia). lia.
Qed.

(** [Resize] doubles the entries of a table more than half full. *)
Lemma Resize_ok ht k hs tab : table ht k hs tab -> 2 ^ k < 2 * vec_size hs ->
  exists ht' tab', Resize uninit f ht = Ok ht' /\ table ht' (k + 1) hs tab' /\ payload_block ht' = payload_block ht.
Proof using Hpsz.
  intros Ht Hhalf. pose proof (table_k _ _ _ _ Ht) as Hk29. pose proof (table_full _ _ _ _ Ht) as Hfull.
  destruct Ht as [Hl Hsz Hk Hcap Hmask Hix Hh Hload].
  assert (2 ^ (k + 1) = 2 * 2 ^ k) as Hp1 by (rewrite Z.pow_add_r by lia; lia).
  assert (1024 <= 2 ^ k <= 2 ^ 29) as Hpk by (split; [change 1024 with (2 ^ 10)|]; apply Z.pow_le_mono_r; lia).
  pose proof (lo_bound _ _ _ _ Hl) as Hb.
  destruct (layout_blocks f psz Hpsz ht _ Hl) as [Hbs _].
  destruct (place_all uninit f psz Hpsz (k + 1) ltac:(lia) hs ltac:(lia) ht (lo_hash _ _ _ _ Hl) Hh ltac:(lia) (length hs) ltac:(lia))
    as (es & tab' & E & Hix').
  unfold Resize. rewrite Hcap. replace (2 ^ k * 2) with (2 ^ (k + 1)) by lia.
  rewrite !(uw_id 32) by (split; lia).
  rewrite (resize_blocks_places uninit f psz Hpsz ht _ _ Hl) by lia.
  replace ((1 - 1) * tpb psz) with 0 by lia. rewrite Z.sub_0_r. unfold vec_size at 1. rewrite E. cbn [mbind Res_bind].
  eexists _, tab'. split; [done|]. split; [|done].
  split; cbn; try done; [by destruct Hl|lia|by right; lia].
Qed.

Lemma ensure_slot_ok ht k hs tab : table ht k hs tab ->
  exists ht' k' tab', ensure_slot uninit f ht = Ok ht' /\ table ht' k' hs tab' /\ vec_size hs < 2 ^ k' /\
    payload_block ht' = payload_block ht.
Proof using Hpsz.
  intros Ht. pose proof (table_full _ _ _ _ Ht) as Hfull. pose proof (table_k _ _ _ _ Ht) as Hk29.
  pose proof (ta_k _ _ _ _ Ht) as Hk. pose proof (lo_bound _ _ _ _ (ta_layout _ _ _ _ Ht)) as Hb. unfold max_payloads in Hb.
  assert (1024 <= 2 ^ k <= 2 ^ 29) as Hpk by (split; [change 1024 with (2 ^ 10)|]; apply Z.pow_le_mono_r; lia).
  assert (2 ^ k < 2 * vec_size hs -> exists ht' k' tab', Resize uninit f ht = Ok ht' /\ table ht' k' hs tab' /\
    vec_size hs < 2 ^ k' /\ payload_block ht' = payload_block ht) as Hresize.
  { intros Hhalf. destruct (Resize_ok ht k hs tab Ht Hhalf) as (ht' & tab' & E & Ht' & Hpb).
    exists ht', (k + 1), tab'. split_and!; [done..| |done]. rewrite Z.pow_add_r by lia. lia. }
  unfold ensure_slot. rewrite (ta_size _ _ _ _ Ht), (ta_capacity _ _ _ _ Ht), !sw_id by (lia || (split; lia)).
  destruct (Z.eqb_spec (vec_size hs) (2 ^ k)) as [E|E]; [apply Hresize; lia|].
  destruct (f64_cmp GT _ _) eqn:Ef; [|exists ht, k, tab; split_and!; [done..|lia|done]].
  apply Hresize. destruct (Z.lt_ge_cases (2 ^ k) (2 * vec_size hs)) as [|Hge]; [done|].
  pose proof (pow2_half k ltac:(lia)). rewrite load_half in Ef by lia. done.
Qed.

(** ** Searching *)
Context (enum_key : Z -> Z -> list Z) (string_hash : list Z -> Z).

Lemma Hash_range keys : is_sw 64 (Hash string_hash keys).
Proof.
  unfold Hash. destruct keys as [|key keys _] using rev_ind; [split; cbn; lia|].
  rewrite foldl_app. cbn [foldl]. unfold hash_step. apply sw_range. lia.
Qed.

Section Search.
Context (ht : AggregateHashTable) (k : Z) (hs : list Z) (tab : list (option nat)) (Ht : table ht k hs tab).
Context (keys : list SQLValue) (aggs : list (Aggregator * SQLValue)).
#[local] Abbreviation hash := (Hash string_hash keys).
#[local] Abbreviation h := (home k hash).

(** Which payloads have the keys: those with the hash of the keys. *)
Context (sel : nat -> bool).
Context (Hsel : forall i, (i < length hs)%nat -> exists st,
  GetPayload uninit f ht (blk (Z.of_nat i)) (off (Z.of_nat i)) = Ok st /\ CheckEq f st keys 0 = Ok (sel i)).
Context (Hhash : forall i, (i < length hs)%nat -> sel i = true -> hash_of hs i = hash).

#[local] Abbreviation loop := (update_loop enum_key uninit f).
#[local] Abbreviation at_slot := (fun j => Z.of_nat (slot (length tab) h j)).

Lemma slot_entry j o : tab !! slot (length tab) h j = Some o ->
  exists e, vec_at (entries ht) (sw 32 (at_slot j)) = Ok e /\ entry_rep psz hs e o.
Proof using Ht.
  intros Ho. pose proof (ta_index _ _ _ _ Ht) as Hix. pose proof (ta_k _ _ _ _ Ht) as Hk.
  pose proof (slot_range k Hk tab h j (ix_length _ _ _ _ _ _ Hix)). pose proof (cap_bounds k Hk).
  rewrite sw_id by (lia || (split; lia)). by eapply indexed_entry.
Qed.

Lemma slot_next j : Z.land (sw 64 (at_slot j + 1)) (sw 64 (ht_mask ht)) = at_slot (S j).
Proof using Ht.
  pose proof (ta_index _ _ _ _ Ht) as Hix. pose proof (ta_k _ _ _ _ Ht) as Hk. pose proof (cap_bounds k Hk).
  pose proof (slot_range k Hk tab h j (ix_length _ _ _ _ _ _ Hix)).
  rewrite (ta_mask _ _ _ _ Ht), !sw_id by (lia || (split; lia)). rewrite land_mask by lia.
  apply (next_slot k Hk). apply Hix.
Qed.

Lemma hs_bound i : (i < length hs)%nat -> 0 <= Z.of_nat i < max_payloads.
Proof using Ht. pose proof (lo_bound _ _ _ _ (ta_layout _ _ _ _ Ht)). unfold vec_size in *. lia. Qed.

(** The parts of an entry in use. *)
Lemma entry_parts e i : entry_rep psz hs e (Some i) ->
  entry_block e = blk (Z.of_nat i) /\ entry_block e <> 0 /\ u32 (entry_block e) = blk (Z.of_nat i) /\
  u16 (entry_offset e) = off (Z.of_nat i) /\ entry_salt e = Salt (hash_of hs i).
Proof using Ht Hpsz.
  intros [Hi ->]. destruct (loc_words psz Hpsz (Z.of_nat i) (hs_bound i Hi)) as [Ho Hb].
  destruct (entry_block_word (Salt (hash_of hs i)) _ _ Ho Hb) as [-> _].
  rewrite entry_offset_word, entry_salt_word by (done || apply Salt_range).
  rewrite !uw_id by (split; lia). split_and!; [done|lia|done..].
Qed.

(** A payload with other keys is skipped. *)
Lemma loop_skip fuel j i : tab !! slot (length tab) h j = Some (Some i) -> sel i = false ->
  loop (S fuel) ht keys aggs hash (at_slot j) = loop fuel ht keys aggs hash (at_slot (S j)).
Proof using Ht Hsel Hpsz.
  intros Hi Hs. destruct (slot_entry j _ Hi) as (e & He & Hr). cbn [update_loop]. rewrite He. cbn [mbind Res_bind].
  destruct (entry_parts e i Hr) as (_ & Hb & Eb & Eo & Es). rewrite (proj2 (Z.eqb_neq _ _) Hb), slot_next, Eb, Eo.
  destruct (entry_salt e =? Salt hash); [|done].
  destruct (Hsel i (proj1 Hr)) as (st & -> & Hc). cbn [mbind Res_bind]. by rewrite Hc, Hs.
Qed.

Lemma loop_skips d : forall j fuel, (forall j', (j <= j' < j + d)%nat -> exists i, tab !! slot (length tab) h j' = Some (Some i) /\ sel i = false) ->
  loop (d + fuel) ht keys aggs hash (at_slot j) = loop fuel ht keys aggs hash (at_slot (j + d)%nat).
Proof using Ht Hsel Hpsz.
  induction d as [|d IH]; intros j fuel Hd; cbn [Nat.add]; [by rewrite Nat.add_0_r|].
  destruct (Hd j) as (i & Hi & Hs); [lia|]. rewrite (loop_skip _ j i Hi Hs).
  rewrite IH by (intros; apply Hd; lia). do 3 f_equal. lia.
Qed.

Lemma start_slot : Z.land hash (sw 64 (ht_mask ht)) = at_slot 0%nat.
Proof using Ht.
  pose proof (ta_index _ _ _ _ Ht) as Hix. pose proof (ta_k _ _ _ _ Ht) as Hk. pose proof (cap_bounds k Hk).
  rewrite (ta_mask _ _ _ _ Ht), sw_id by (lia || (split; lia)). rewrite land_mask by lia.
  rewrite (slot_0 k Hk tab hash) by apply Hix. symmetry. apply (home_mod k Hk).
Qed.

Lemma entries_tab : length (entries ht) = length tab.
Proof using Ht. apply (list.Forall2_length _ _ _ (ix_entries _ _ _ _ _ _ (ta_index _ _ _ _ Ht))). Qed.

(** The first slot of a walk with selected keys, or none. *)
Lemma walk_sel K : walk tab h K -> (forall j, (j < K)%nat -> exists i, tab !! slot (length tab) h j = Some (Some i) /\ sel i = false) \/
  exists K' i, (K' < K)%nat /\ tab !! slot (length tab) h K' = Some (Some i) /\ sel i = true /\
    forall j, (j < K')%nat -> exists i, tab !! slot (length tab) h j = Some (Some i) /\ sel i = false.
Proof.
  induction K as [|K IH]; intros Hw; [left; lia|].
  destruct IH as [Hall|(K' & i & HK & Hi & Hs & Hall)]; [intros j Hj; apply Hw; lia| |right; exists K', i; split_and!; [lia|done..]].
  destruct (Hw K) as [i Hi]; [lia|]. destruct (sel i) eqn:Es.
  - right. exists K, i. split_and!; [lia|done..].
  - left. intros j Hj. destruct (decide (j = K)) as [->|]; [by exists i|]. apply Hall. lia.
Qed.

(** Keys of a payload: it is updated. *)
Lemma search_found i : (i < length hs)%nat -> sel i = true ->
  (forall i', (i' < length hs)%nat -> sel i' = true -> i' = i) ->
  loop (S (length (entries ht))) ht keys aggs hash (Z.land hash (sw 64 (ht_mask ht))) =
  (st ← GetPayload uninit f ht (blk (Z.of_nat i)) (off (Z.of_nat i));
   st ← Payload_Update enum_key f st aggs;
   SetPayload ht (blk (Z.of_nat i)) (off (Z.of_nat i)) st).
Proof using Ht Hsel Hpsz Hhash.
  intros Hi Hs Huniq. pose proof (ta_index _ _ _ _ Ht) as Hix.
  assert (i ∈ elements tab) as Hel by (rewrite (ix_elements _ _ _ _ _ _ Hix); apply elem_of_seq; lia).
  apply elements_elem in Hel as [p Hp]. destruct (ix_probing _ _ _ _ _ _ Hix p i Hp) as (K & HK & Hslot & Hw).
  rewrite (Hhash i Hi Hs) in *. rewrite <- Hslot in Hp.
  assert (walk tab h (S K)) as Hw'.
  { intros j Hj. destruct (decide (j = K)) as [->|]; [by exists i|apply Hw; lia]. }
  destruct (walk_sel (S K) Hw') as [Hall|(K' & i' & HK' & Hi' & Hs' & Hall)].
  { destruct (Hall K) as (i' & Hi' & Hs'); [lia|]. rewrite Hp in Hi'. injection Hi' as <-. congruence. }
  rewrite start_slot, entries_tab. replace (S (length tab)) with (K' + S (length tab - K'))%nat by lia.
  rewrite (loop_skips K' 0) by (intros; apply Hall; lia). rewrite Nat.add_0_l.
  destruct (slot_entry K' _ Hi') as (e & He & Hr). assert (i' = i) as -> by (apply Huniq; [apply Hr|done]).
  cbn [update_loop]. rewrite He. cbn [mbind Res_bind].
  destruct (entry_parts e i Hr) as (_ & Hb & Eb & Eo & Es).
  rewrite (proj2 (Z.eqb_neq _ _) Hb), Eb, Eo, Es, (Hhash i Hi Hs), Z.eqb_refl.
  destruct (Hsel i Hi) as (st & -> & Hc). cbn [mbind Res_bind]. by rewrite Hc, Hs.
Qed.

(** New keys: a payload is inserted, and its entry goes to the first free slot. *)
Lemma search_free : vec_size hs < 2 ^ k -> (forall i, (i < length hs)%nat -> sel i = false) ->
  exists K, (K < length tab)%nat /\ tab !! slot (length tab) h K = Some None /\ walk tab h K /\
  loop (S (length (entries ht))) ht keys aggs hash (Z.land hash (sw 64 (ht_mask ht))) =
  ('(ht, block_idx, offset) ← Insert ht (at_slot K) (Salt hash);
   st ← GetPayload uninit f ht (u32 block_idx) (u16 offset);
   st ← Payload_Initialize f st hash keys aggs;
   SetPayload ht (u32 block_idx) (u16 offset) st).
Proof using Ht Hsel Hpsz.
  intros Hlt Hnone. pose proof (ta_index _ _ _ _ Ht) as Hix. pose proof (ta_k _ _ _ _ Ht) as Hk.
  destruct (indexed_free psz k Hk hs _ _ _ h Hix) as (K & HK & Hfree & Hw); [rewrite length_seq; done|].
  exists K. split_and!; [done..|].
  destruct (walk_sel K Hw) as [Hall|(K' & i' & HK' & Hi' & Hs' & _)].
  2: { destruct (slot_entry K' _ Hi') as (e & _ & Hr). rewrite (Hnone i') in Hs' by apply Hr. done. }
  rewrite start_slot, entries_tab. replace (S (length tab)) with (K + S (length tab - K))%nat by lia.
  rewrite (loop_skips K 0) by (intros; apply Hall; lia). rewrite Nat.add_0_l.
  destruct (slot_entry K _ Hfree) as (e & He & Hr). cbn in Hr. subst e.
  pose proof (slot_range k Hk tab h K (ix_length _ _ _ _ _ _ Hix)). pose proof (cap_bounds k Hk).
  cbn [update_loop]. rewrite He. cbn [mbind Res_bind]. change (entry_block 0 =? 0) with true. cbv iota.
  by rewrite sw_id by (lia || (split; lia)).
Qed.
End Search.
End Table.
