(* ===== verification/GroupBy.v ===== *)
(** * Grouping and aggregation

    [GroupByAggregateTranslator] of src/compile/translators/group_by_aggregate_translator.cc:
    one pipeline feeds every row to the aggregate hash table, the next reads the
    groups chunk by chunk. *)
From Stdlib Require Import SpecFloat.
From S2P Require Import Prelude ProgramBuilder SqlValue Struct Pipeline Aggregator LinearProbe AggregateHashTable PayloadLayout AggregateProbe.

(** ** The model *)

(** A row for the operator: the values of the grouping expressions, and those of
    the arguments of the aggregates. *)
Record Row := MkRow { row_keys : list SQLValue; row_args : list SQLValue }.

Section Model.
Context (enum_key : Z -> Z -> list Z) (string_hash : list Z -> Z) (uninit : SqlType -> Cell).

(** [Consume] for every row. *)
Fixpoint group_fill (f : StructBuilder) (aggs : list Aggregator) (ht : AggregateHashTable) (rows : list Row)
    : Res AggregateHashTable :=
  match rows with
  | [] => Ok ht
  | r :: rows =>
      ht ← UpdateOrInsert enum_key string_hash uninit f ht (row_keys r) (zip aggs (row_args r));
      group_fill f aggs ht rows
  end.

(** [Produce]; the size of a payload comes from the type manager. *)
Definition group_by (key_types : list (SqlType * bool)) (es : list AggregateExpression) (payload_size : Z)
    (rows : list Row) : Res (list (list SQLValue)) :=
  let '(f, aggs) := ConstructPayloadFormat key_types es in
  ht ← group_fill f aggs (Init payload_size 0) rows;
  n ← NumTuples ht;
  ExecuteSplitPipelineStatic (ForEach uninit f ht (length key_types) aggs) [] n.
End Model.

(** ** The format of a payload *)
Record payload_format (f : StructBuilder) (key_types : list (SqlType * bool)) (aggs : list Aggregator) : Prop := {
  pf_ok : format_ok f;
  pf_hash : field_is f 0 (MkType BIGINT 0) false;
  pf_keys : forall j t n, key_types !! j = Some (t, n) -> field_is f (Z.of_nat (1 + j)) t n;
  pf_aggs : Forall (agg_ok f) aggs;
  pf_fields : Forall (fun i => Z.of_nat (length key_types) < i) (mjoin (ag_fields <$> aggs));
  pf_nodup : NoDup (mjoin (ag_fields <$> aggs));
}.

Section Format.
(** [f'] has the fields of [f] and more. *)
Definition extends (f f' : StructBuilder) : Prop :=
  sb_types f `prefix_of` sb_types f' /\ sb_nullable f `prefix_of` sb_nullable f' /\ format_ok f'.

Lemma extends_field f f' i t n : extends f f' -> field_is f i t n -> field_is f' i t n.
Proof.
  intros ([k1 E1] & [k2 E2] & _) (Hi & Ht & Hn).
  split_and!; [done| |]; rewrite ?E1, ?E2; by apply lookup_app_l_Some.
Qed.

#[export] Instance extends_trans : Transitive extends.
Proof. intros f g h (?&?&?) (?&?&?). split_and!; [by etransitivity..|done]. Qed.

Lemma Add_ok f t n : format_ok f -> let '(i, f') := StructBuilder_Add f t n in
  i = vec_size (sb_types f) /\ extends f f' /\ field_is f' i t n /\ vec_size (sb_types f') = vec_size (sb_types f) + 1.
Proof.
  intros Hf. unfold StructBuilder_Add, extends, field_is, format_ok, vec_size in *. cbn. rewrite !length_app. cbn.
  split_and!; try lia; try (by eexists); rewrite Nat2Z.id; [|rewrite <- Hf]; by apply list_lookup_middle.
Qed.

Lemma add_keys_ok key_types : forall f, format_ok f ->
  extends f (add_keys f key_types) /\
  vec_size (sb_types (add_keys f key_types)) = vec_size (sb_types f) + vec_size key_types /\
  forall j t n, key_types !! j = Some (t, n) -> field_is (add_keys f key_types) (vec_size (sb_types f) + Z.of_nat j) t n.
Proof.
  induction key_types as [|[t n] key_types IH]; intros f Hf; cbn [add_keys].
  { split_and!; [split_and!; [done..|done]|unfold vec_size; cbn; lia|by intros]. }
  pose proof (Add_ok f t n Hf) as Ha. destruct (StructBuilder_Add f t n) as [i f'] eqn:E.
  destruct Ha as (-> & Hx & Hfield & Hs). destruct (IH f') as (Hx' & Hs' & Hk); [apply Hx|]. cbn [snd].
  split_and!; [by etransitivity|rewrite Hs', Hs; unfold vec_size; cbn; lia|].
  intros [|j] t' n' Hj; cbn in Hj.
  - injection Hj as <- <-. rewrite Z.add_0_r. by eapply extends_field.
  - replace (vec_size (sb_types f) + Z.of_nat (S j)) with (vec_size (sb_types f') + Z.of_nat j) by lia. by apply Hk.
Qed.

(** An expression that was accepted. *)
Definition expr_ok (e : AggregateExpression) : Prop := AggregateExpression_new (ae_kind e) (ae_child e) = Ok e.

Lemma extends_agg f f' a : extends f f' -> agg_ok f a -> agg_ok f' a.
Proof.
  intros Hx [H1 H2 H3]. split; [done|by eapply extends_field|]. intros Hk. destruct (H3 Hk) as [Hc Hne].
  split; [by eapply extends_field|done].
Qed.

Lemma expr_type e : expr_ok e -> (ae_kind e = AVG -> ae_type e = MkType REAL 0) /\
  (ae_kind e = COUNT -> ae_type e = MkType BIGINT 0 /\ ae_nullable e = false).
Proof.
  unfold expr_ok, AggregateExpression_new. intros H. apply bind_Ok in H as (t & Ht & H). injection H as H.
  rewrite <- H. cbn. split.
  - intros Hk. rewrite Hk in Ht. cbn in Ht. destruct (is_number _); [|done]. by injection Ht as <-.
  - intros Hk. rewrite Hk in *. cbn in Ht. injection Ht as <-. done.
Qed.

Lemma AddFields_ok f e : format_ok f -> expr_ok e -> let '(f', a) := AddFields f e in
  ag_expr a = e /\ extends f f' /\ agg_ok f' a /\ NoDup (ag_fields a) /\
  forall i, i ∈ ag_fields a -> vec_size (sb_types f) <= i < vec_size (sb_types f').
Proof.
  intros Hf He. destruct (expr_type e He) as [Havg Hcount].
  assert (forall t n i, let '(j, f') := StructBuilder_Add f t n in
    t = ae_type e -> n = ae_nullable e -> ae_kind e <> AVG ->
    extends f f' /\ agg_ok f' (MkAgg e j i) /\ NoDup (ag_fields (MkAgg e j i)) /\
    forall i', i' ∈ ag_fields (MkAgg e j i) -> vec_size (sb_types f) <= i' < vec_size (sb_types f')) as Hone.
  { intros t n i. pose proof (Add_ok f t n Hf) as Ha. destruct (StructBuilder_Add f t n) as [j f'].
    intros -> -> Hk. destruct Ha as (-> & Hx & Hfield & Hs).
    assert (ag_fields (MkAgg e (vec_size (sb_types f)) i) = [vec_size (sb_types f)]) as ->
      by (unfold ag_fields, ag_kind; cbn; by destruct (ae_kind e)).
    split_and!; [done|split; [done|done|]; by intros|apply NoDup_singleton|].
    intros i' ->%list_elem_of_singleton. lia. }
  unfold AddFields, Sum_AddFields, MinMax_AddFields, Average_AddFields, Count_AddFields.
  destruct (ae_kind e) eqn:Ek.
  2: { pose proof (Add_ok f (MkType REAL 0) (ae_nullable e) Hf) as Ha.
    destruct (StructBuilder_Add f (MkType REAL 0) (ae_nullable e)) as [i f1]. destruct Ha as (-> & Hx & Hfield & Hs).
    pose proof (Add_ok f1 (MkType REAL 0) false (proj2 (proj2 Hx))) as Ha.
    destruct (StructBuilder_Add f1 (MkType REAL 0) false) as [j f2]. destruct Ha as (-> & Hx2 & Hfield2 & Hs2).
    unfold ag_fields, ag_kind. cbn. rewrite Ek. split_and!; [done|by etransitivity| | |].
    - split; cbn; [by unfold ag_kind; cbn|rewrite (Havg eq_refl); by eapply extends_field|].
      intros _. split; [done|lia].
    - apply list.NoDup_cons. split; [|apply NoDup_singleton]. intros ?%list_elem_of_singleton. lia.
    - intros i [->| ->%list_elem_of_singleton]%elem_of_cons; lia. }
  2: { destruct (Hcount eq_refl) as [Ht Hn]. specialize (Hone (MkType BIGINT 0) false (-1)).
    destruct (StructBuilder_Add _ _ _) as [j f']. split; [done|]. apply Hone; congruence || done. }
  all: specialize (Hone (ae_type e) (ae_nullable e) (-1)); destruct (StructBuilder_Add _ _ _) as [j f'];
    split; [done|]; by apply Hone.
Qed.

Lemma add_aggs_ok es : forall f, format_ok f -> Forall expr_ok es -> let '(f', aggs) := add_aggs f es in
  ag_expr <$> aggs = es /\ extends f f' /\ Forall (agg_ok f') aggs /\ NoDup (mjoin (ag_fields <$> aggs)) /\
  forall i, i ∈ mjoin (ag_fields <$> aggs) -> vec_size (sb_types f) <= i < vec_size (sb_types f').
Proof.
  induction es as [|e es IH]; intros f Hf He; cbn [add_aggs].
  { split_and!; [done|split_and!; [done..|done]|constructor|constructor|by intros i ?%not_elem_of_nil]. }
  apply list.Forall_cons in He as [He Hes]. pose proof (AddFields_ok f e Hf He) as Ha.
  destruct (AddFields f e) as [f1 a]. destruct Ha as (<- & Hx & Hok & Hnd & Hr).
  specialize (IH f1 (proj2 (proj2 Hx)) Hes). destruct (add_aggs f1 es) as [f2 aggs].
  destruct IH as (<- & Hx2 & Hok2 & Hnd2 & Hr2).
  assert (forall g g', extends g g' -> vec_size (sb_types g) <= vec_size (sb_types g')) as Hle.
  { intros g g' (Hp & _). apply prefix_length in Hp. unfold vec_size. lia. }
  split_and!; [done|by etransitivity| | |].
  - apply list.Forall_cons. split; [by eapply extends_agg|done].
  - cbn. apply list.NoDup_app. split_and!; [done| |done]. intros i Hi Hi2. specialize (Hr i Hi). specialize (Hr2 i Hi2). lia.
  - cbn. intros i [Hi|Hi]%elem_of_app; [specialize (Hr i Hi); specialize (Hle _ _ Hx2); lia|].
    specialize (Hr2 i Hi). specialize (Hle _ _ Hx). lia.
Qed.

Lemma ConstructPayloadFormat_ok key_types es : Forall expr_ok es ->
  let '(f, aggs) := ConstructPayloadFormat key_types es in
  ag_expr <$> aggs = es /\ payload_format f key_types aggs.
Proof.
  intros He. unfold ConstructPayloadFormat.
  pose proof (Add_ok StructBuilder_new (MkType BIGINT 0) false eq_refl) as Ha.
  destruct (StructBuilder_Add StructBuilder_new (MkType BIGINT 0) false) as [i f0].
  destruct Ha as (-> & Hx0 & Hf0 & Hs0). cbn [snd]. unfold vec_size in Hs0 at 2. cbn in Hs0.
  destruct (add_keys_ok key_types f0) as (Hx1 & Hs1 & Hk); [apply Hx0|]. rewrite Hs0 in *.
  pose proof (add_aggs_ok es (add_keys f0 key_types) (proj2 (proj2 Hx1)) He) as Ha.
  destruct (add_aggs (add_keys f0 key_types) es) as [f aggs]. destruct Ha as (He' & Hx & Hok & Hnd & Hr).
  split; [done|]. split; [apply Hx| | |done| |done].
  - eapply extends_field; [done|]. eapply extends_field; [done|]. done.
  - intros j t n Hj. eapply extends_field; [done|]. replace (Z.of_nat (1 + j)) with (1 + Z.of_nat j) by lia. by apply Hk.
  - apply list.Forall_forall. intros i Hi. specialize (Hr i Hi). unfold vec_size in *. lia.
Qed.
End Format.

(** ** Payloads *)
Section Payload.
Context (enum_key : Z -> Z -> list Z) (string_hash : list Z -> Z).
Context (f : StructBuilder) (key_types : list (SqlType * bool)) (aggs : list Aggregator).
Context (Hpf : payload_format f key_types aggs).

(** The fields in [l] keep their values. *)
Definition same_fields (l : list Z) (st st' : Struct) : Prop :=
  forall j, j ∈ l -> Struct_Get f st' j = Struct_Get f st j.

Lemma agg_field_pos a j : agg_ok f a -> j ∈ ag_fields a -> 0 <= j.
Proof.
  intros Ha Hj. destruct (ago_field _ _ Ha) as (H0 & _). unfold ag_fields in Hj. destruct (ag_kind a) eqn:Ek.
  2: { destruct (ago_count _ _ Ha Ek) as [[Hc _] _]. apply elem_of_cons in Hj as [->| ->%list_elem_of_singleton]; done. }
  all: by apply list_elem_of_singleton in Hj as ->.
Qed.

Lemma holds_frame a st st' s : same_fields (ag_fields a) st st' -> agg_holds f a st s -> agg_holds f a st' s.
Proof.
  intros Hs [Hv Hc]. split.
  - rewrite (Hs (ag_field a)) by apply in_field. done.
  - intros Hk. rewrite (Hs (ag_count_field a)) by (by apply count_field_in). by apply Hc.
Qed.

(** The same operation on every aggregator. *)
Fixpoint run_aggs (op : Aggregator -> Struct -> SQLValue -> Res Struct) (l : list (Aggregator * SQLValue)) (st : Struct)
    : Res Struct :=
  match l with [] => Ok st | (a, v) :: l => st ← op a st v; run_aggs op l st end.

Lemma run_aggs_ok op (Pre : Aggregator -> SQLValue -> AggState -> Struct -> Prop) :
  (forall a v s st, agg_ok f a -> struct_ok f st -> Pre a v s st -> exists st', op a st v = Ok st' /\ writes f a st st' s) ->
  (forall a v s st st', same_fields (ag_fields a) st st' -> Pre a v s st -> Pre a v s st') ->
  forall l ss st, struct_ok f st -> Forall (fun av => agg_ok f av.1) l -> NoDup (mjoin (ag_fields <$> l.*1)) ->
  Forall2 (fun av s => Pre av.1 av.2 s st) l ss ->
  exists st', run_aggs op l st = Ok st' /\ struct_ok f st' /\ Forall2 (fun av s => agg_holds f av.1 st' s) l ss /\
    forall j, 0 <= j -> j ∉ mjoin (ag_fields <$> l.*1) -> Struct_Get f st' j = Struct_Get f st j.
Proof.
  intros Hop Hstable. induction l as [|[a v] l IH]; intros ss st Hst Hok Hnd Hpre; cbn [run_aggs].
  { apply Forall2_nil_inv_l in Hpre as ->. exists st. by split_and!. }
  apply Forall2_cons_inv_l in Hpre as (s & ss' & Hs & Hpre & ->). apply list.Forall_cons in Hok as [Ha Hok]. cbn in Hs, Ha.
  cbn in Hnd. apply list.NoDup_app in Hnd as (Hnd1 & Hdis & Hnd2).
  destruct (Hop a v s st Ha Hst Hs) as (st1 & -> & Hst1 & Hh1 & Hk1). cbn [mbind Res_bind].
  assert (forall a', a' ∈ l.*1 -> agg_ok f a' -> same_fields (ag_fields a') st st1) as Hframe.
  { intros a' Ha' Hok' j Hj. apply Hk1; [by eapply agg_field_pos|]. intros Hja. apply (Hdis j Hja).
    apply list_elem_of_join. exists (ag_fields a'). split; [done|]. by apply list_elem_of_fmap_2. }
  destruct (IH ss' st1 Hst1 Hok Hnd2) as (st' & -> & Hst' & Hh' & Hk').
  { clear -Hpre Hok Hframe Hstable. induction Hpre as [|[a' v'] s' l ss' Hp Hpre IH]; constructor.
    - cbn in *. apply list.Forall_cons in Hok as [Hok _]. eapply Hstable; [|done]. apply Hframe; [by left|done].
    - apply list.Forall_cons in Hok as [_ Hok]. apply IH; [done|]. intros b Hb. apply Hframe. cbn. by right. }
  exists st'. split_and!; [done..| |].
  - constructor; [|done]. cbn. eapply holds_frame; [|done]. intros j Hj. apply Hk'; [by eapply agg_field_pos|].
    intros Hj2. by apply (Hdis j).
  - cbn. intros j Hj Hnj. rewrite Hk' by (done || intros ?; apply Hnj, elem_of_app; by right).
    apply Hk1; [done|]. intros ?. apply Hnj, elem_of_app. by left.
Qed.

Lemma init_aggs_run l : forall st, init_aggs f l st = run_aggs (Initialize f) l st.
Proof. induction l as [|[a v] l IH]; intros st; [done|]. cbn. by destruct (Initialize f a st v); cbn. Qed.

Lemma update_run l : forall st, Payload_Update enum_key f st l = run_aggs (Update enum_key f) l st.
Proof. induction l as [|[a v] l IH]; intros st; [done|]. cbn. by destruct (Update enum_key f a st v); cbn. Qed.

(** ** The payload of a group *)
Definition kinds : list AggregateType := ag_kind <$> aggs.
Definition keys_fit (keys : list SQLValue) : Prop := Forall2 (fun tn v => fits tn.1 tn.2 v) key_types keys.
Definition args_fit (args : list SQLValue) : Prop := Forall2 (fun a v => sv_type v = ae_child (ag_expr a)) aggs args.

Record payload_rep (st : Struct) (h : Z) (keys : list SQLValue) (ss : list AggState) : Prop := {
  pr_struct : struct_ok f st;
  pr_hash : Struct_Get f st 0 = Ok (MkSQL (VInt64 h) false);
  pr_keys : forall j key, keys !! j = Some key -> exists v, Struct_Get f st (Z.of_nat (1 + j)) = Ok v /\ sql_equiv v key;
  pr_aggs : Forall2 (fun a s => agg_holds f a st s) aggs ss;
  pr_states : Forall2 state_ok aggs ss;
}.

(** The states of a group's aggregates after its first row, and after another. *)
Definition init_states (ks : list AggregateType) (args : list SQLValue) : list AggState := zip_with agg_init ks args.
Definition step_states (ks : list AggregateType) (ss : list AggState) (args : list SQLValue) : list AggState :=
  zip_with (fun ks v => agg_step enum_key ks.1 ks.2 v) (zip ks ss) args.

Lemma key_bound j : (j < length key_types)%nat -> Z.of_nat (1 + j) ∉ mjoin (ag_fields <$> aggs).
Proof using Hpf.
  intros Hj Hin. pose proof (proj1 (list.Forall_forall _ _) (pf_fields _ _ _ Hpf) _ Hin) as H. cbn in H. lia.
Qed.

Lemma zip_aggs args : args_fit args -> (zip aggs args).*1 = aggs.
Proof. intros H. apply fst_zip. by rewrite (list.Forall2_length _ _ _ H). Qed.

Lemma zip_aggs_ok (args : list SQLValue) : Forall (agg_ok f) aggs -> Forall (fun av => agg_ok f av.1) (zip aggs args).
Proof.
  intros Hok. apply list.Forall_forall. intros [a v] Hav. apply elem_of_zip_l in Hav. by eapply list.Forall_forall.
Qed.

Lemma fst_zip_Forall2 {A B C} (P : A -> C -> Prop) (l : list A) (r : list B) (q : list C) :
  length r = length l -> Forall2 (fun av s => P av.1 s) (zip l r) q <-> Forall2 P l q.
Proof.
  revert r q. induction l as [|a l IH]; intros [|b r] q Hl; try discriminate Hl; cbn.
  { split; intros H; apply Forall2_nil_inv_l in H as ->; constructor. }
  injection Hl as Hl. split; intros H; apply Forall2_cons_inv_l in H as (c & q' & Hc & H & ->); constructor;
    try done; by apply (IH r q').
Qed.

(** Initializing and updating the aggregators one after the other. *)
Lemma run_Initialize_ok st args : Forall (agg_ok f) aggs -> NoDup (mjoin (ag_fields <$> aggs)) -> struct_ok f st -> args_fit args ->
  exists st', run_aggs (Initialize f) (zip aggs args) st = Ok st' /\ struct_ok f st' /\
    Forall2 (fun a s => agg_holds f a st' s) aggs (init_states kinds args) /\ Forall2 state_ok aggs (init_states kinds args) /\
    forall j, 0 <= j -> j ∉ mjoin (ag_fields <$> aggs) -> Struct_Get f st' j = Struct_Get f st j.
Proof.
  intros Hok Hnd Hst Ha. pose proof (list.Forall2_length _ _ _ Ha) as Hla.
  destruct (run_aggs_ok (Initialize f) (fun a v s st => sv_type v = ae_child (ag_expr a) /\ s = agg_init (ag_kind a) v))
    with (l := zip aggs args) (ss := init_states kinds args) (st := st) as (st' & -> & Hst' & Hh & Hf).
  { intros a v s st0 Hok0 Hs0 [Hv ->]. by apply Initialize_ok. }
  { done. }
  { done. }
  { by apply zip_aggs_ok. }
  { by rewrite zip_aggs. }
  { clear -Ha. unfold init_states, kinds, args_fit in *. induction Ha; cbn; by constructor. }
  rewrite zip_aggs in Hf by done. exists st'. split_and!; [done|done| | |done].
  - by apply (fst_zip_Forall2 (fun a s => agg_holds f a st' s) aggs args).
  - clear -Ha Hok. unfold init_states, kinds, args_fit in *.
    induction Ha; cbn; constructor; apply list.Forall_cons in Hok as [Hok ?]; [by eapply agg_init_ok|auto].
Qed.

Lemma run_Update_ok st ss args : Forall (agg_ok f) aggs -> NoDup (mjoin (ag_fields <$> aggs)) -> struct_ok f st -> args_fit args ->
  Forall2 (fun a s => agg_holds f a st s) aggs ss -> Forall2 state_ok aggs ss ->
  exists st', run_aggs (Update enum_key f) (zip aggs args) st = Ok st' /\ struct_ok f st' /\
    Forall2 (fun a s => agg_holds f a st' s) aggs (step_states kinds ss args) /\ Forall2 state_ok aggs (step_states kinds ss args) /\
    forall j, 0 <= j -> j ∉ mjoin (ag_fields <$> aggs) -> Struct_Get f st' j = Struct_Get f st j.
Proof.
  intros Hok Hnd Hst Ha R4 R5. pose proof (list.Forall2_length _ _ _ Ha) as Hla.
  destruct (run_aggs_ok (Update enum_key f) (fun a v s' st => sv_type v = ae_child (ag_expr a) /\
      exists s, state_ok a s /\ agg_holds f a st s /\ s' = agg_step enum_key (ag_kind a) s v))
    with (l := zip aggs args) (ss := step_states kinds ss args) (st := st) as (st' & -> & Hst' & Hh & Hf).
  { intros a v s' st0 Hok0 Hs0 (Hv & s & Hs & Hh & ->). by apply agg_Update_ok. }
  { intros a v s' st0 st1 Hsame (Hv & s & Hs & Hh & ->). split; [done|]. exists s. split_and!; [done| |done].
    by eapply holds_frame. }
  { done. }
  { by apply zip_aggs_ok. }
  { by rewrite zip_aggs. }
  { clear -Ha R4 R5. unfold step_states, kinds. revert ss R4 R5.
    induction Ha as [|a v aggs args Hv Ha IH]; intros ss R4 R5.
    - constructor.
    - apply Forall2_cons_inv_l in R4 as (s & ss' & Hs & R4 & ->). apply Forall2_cons_inv_l in R5 as (s0 & ss0 & Hs5 & R5 & [= <- <-]).
      cbn. constructor; [|by apply IH]. split; [done|]. by exists s. }
  rewrite zip_aggs in Hf by done. exists st'. split_and!; [done|done| | |done].
  - by apply (fst_zip_Forall2 (fun a s => agg_holds f a st' s) aggs args).
  - clear -Ha R5 Hok. unfold step_states, kinds. revert ss R5.
    induction Ha as [|a v aggs args Hv Ha IH]; intros ss R5; [constructor|].
    apply Forall2_cons_inv_l in R5 as (s & ss' & Hs & R5 & ->). apply list.Forall_cons in Hok as [Hok ?].
    cbn. constructor; [by eapply agg_step_ok|by apply IH].
Qed.

Lemma Payload_Initialize_ok st h keys args : struct_ok f st -> keys_fit keys -> args_fit args ->
  exists st', Payload_Initialize f st h keys (zip aggs args) = Ok st' /\
    payload_rep st' h keys (init_states kinds args).
Proof using Hpf.
  intros Hst Hk Ha. unfold Payload_Initialize. pose proof (list.Forall2_length _ _ _ Hk) as Hlk.
  pose proof (list.Forall2_length _ _ _ Ha) as Hla.
  destruct (field_write f st 0 _ _ (MkSQL (VInt64 h) false) Hst (pf_hash _ _ _ Hpf)) as (st1 & -> & Hst1 & (v0 & Hg0 & Hv0) & _);
    [done|]. rewrite (get_not_null _ _ Hv0 eq_refl) in Hg0. cbn [mbind Res_bind].
  destruct (pack_loop_get f (pf_ok _ _ _ Hpf) keys st1 1 Hst1) as (st2 & E2 & Hst2 & Hg2 & Hk2).
  { destruct key_types as [|tn tys] eqn:Et; [rewrite <- Hlk; cbn|].
    - destruct (pf_hash _ _ _ Hpf) as (_ & H0 & _). apply lookup_lt_Some in H0. lia.
    - destruct (lookup_lt_is_Some_2 key_types (length tys)) as [[t n] Htn]; [rewrite Et; cbn; lia|]. rewrite Et in Htn.
      destruct (pf_keys _ _ _ Hpf _ _ _ Htn) as (_ & H0 & _). apply lookup_lt_Some in H0. rewrite Nat2Z.id in H0.
      cbn in Hlk. lia. }
  { intros j t n v Ht Hn Hv. destruct (Forall2_lookup_r _ _ _ _ _ Hk Hv) as ([t' n'] & Htn & Hfit).
    destruct (pf_keys _ _ _ Hpf _ _ _ Htn) as (_ & H1 & H2). rewrite Nat2Z.id in H1, H2.
    rewrite Ht in H1. rewrite Hn in H2. by simplify_eq. }
  change (Z.of_nat 1) with 1 in E2. rewrite E2. cbn [mbind Res_bind]. rewrite init_aggs_run.
  destruct (run_Initialize_ok st2 args (pf_aggs _ _ _ Hpf) (pf_nodup _ _ _ Hpf) Hst2 Ha) as (st' & -> & Hst' & Hh & Hs & Hf).
  exists st'. split; [done|]. split; [done| | |done|done].
  - rewrite Hf; [|done|]. { change 0 with (Z.of_nat 0). rewrite Hk2 by lia. done. }
    intros Hin. pose proof (proj1 (list.Forall_forall _ _) (pf_fields _ _ _ Hpf) _ Hin) as H. cbn in H. lia.
  - intros j key Hj. rewrite Hf; [by apply Hg2|lia|]. apply key_bound. apply lookup_lt_Some in Hj. lia.
Qed.

Lemma Payload_Update_ok st h keys ss args : payload_rep st h keys ss -> length keys = length key_types -> args_fit args ->
  exists st', Payload_Update enum_key f st (zip aggs args) = Ok st' /\
    payload_rep st' h keys (step_states kinds ss args).
Proof using Hpf.
  intros [R1 R2 R3 R4 R5] Hlk Ha. pose proof (list.Forall2_length _ _ _ Ha) as Hla. rewrite update_run.
  destruct (run_Update_ok st ss args (pf_aggs _ _ _ Hpf) (pf_nodup _ _ _ Hpf) R1 Ha R4 R5) as (st' & -> & Hst' & Hh & Hs & Hf).
  exists st'. split; [done|]. split; [done| | |done|done].
  - rewrite Hf; [done|done|].
    intros Hin. pose proof (proj1 (list.Forall_forall _ _) (pf_fields _ _ _ Hpf) _ Hin) as H. cbn in H. lia.
  - intros j key Hj. rewrite Hf; [by apply R3|lia|]. apply key_bound. apply lookup_lt_Some in Hj. lia.
Qed.

(** ** Comparing keys *)

(** Two lists of keys are the same group: nulls are equal, and NaN is not equal to
    anything. *)
Fixpoint match_keys (a b : list SQLValue) : bool :=
  match a, b with
  | [], [] => true
  | x :: a, y :: b => (sql_num x && sql_num y && bool_decide (sql_ident x = sql_ident y)) && match_keys a b
  | _, _ => false
  end.

Lemma match_cons x y a b : match_keys (x :: a) (y :: b) = true <->
  (sql_num x = true /\ sql_num y = true /\ sql_ident x = sql_ident y) /\ match_keys a b = true.
Proof. cbn. rewrite !andb_true_iff, bool_decide_eq_true. tauto. Qed.

Lemma match_sym a : forall b, match_keys a b = true -> match_keys b a = true.
Proof.
  induction a as [|x a IH]; intros [|y b] H; try done. apply match_cons in H as [(H1 & H2 & H3) H].
  apply match_cons. split; [done|by apply IH].
Qed.

Lemma match_trans a : forall b c, match_keys a b = true -> match_keys b c = true -> match_keys a c = true.
Proof.
  induction a as [|x a IH]; intros [|y b] [|z c] H H'; try done.
  apply match_cons in H as [(H1 & H2 & H3) H]. apply match_cons in H' as [(H1' & H2' & H3') H'].
  apply match_cons. split; [split_and!; [done..|congruence]|by eapply IH].
Qed.

(** Equal keys have equal hashes. *)
Lemma hash_key_match x y : sv_type x = sv_type y -> sql_num x = true -> sql_num y = true -> sql_ident x = sql_ident y ->
  hash_key string_hash x = hash_key string_hash y.
Proof.
  intros Ht Hx Hy Hi. unfold hash_key. unfold sql_num, sql_ident in *.
  destruct (sv_null x) eqn:Ex, (sv_null y) eqn:Ey; try done. cbn in Hx, Hy. injection Hi as Hi.
  by rewrite (ident_hash string_hash (sv_value x) (sv_value y)).
Qed.

Lemma Hash_match a b : Forall2 (fun x y => sv_type x = sv_type y) a b -> match_keys a b = true ->
  Hash string_hash a = Hash string_hash b.
Proof.
  unfold Hash. intros Ht. generalize 0 as h. induction Ht as [|x y a b Hxy Ht IH]; intros h Hm; [done|].
  apply match_cons in Hm as [(H1 & H2 & H3) Hm]. cbn [foldl]. unfold hash_step at 2 4.
  rewrite (hash_key_match x y) by done. by apply IH.
Qed.

(** [CheckEq] compares the keys of a payload. *)
Lemma CheckEq_match st ks keys : Forall2 (fun x y => sv_type x = sv_type y) ks keys -> forall i0,
  (forall j key, ks !! j = Some key -> exists v, Struct_Get f st (i0 + 1 + Z.of_nat j) = Ok v /\ sql_equiv v key) ->
  CheckEq f st keys i0 = Ok (match_keys ks keys).
Proof.
  intros Ht. induction Ht as [|x y ks keys Hxy Ht IH]; intros i0 Hg; cbn [CheckEq]; [done|].
  destruct (Hg 0%nat x eq_refl) as (v & Hv & He). rewrite Z.add_0_r in Hv. rewrite Hv. cbn [mbind Res_bind].
  destruct (Equal_spec v y) as (r & -> & Hr); [destruct He as (-> & _); done|]. cbn [mbind Res_bind].
  rewrite IH. 2: { intros j key Hj. replace (i0 + 1 + 1 + Z.of_nat j) with (i0 + 1 + Z.of_nat (S j)) by lia. by apply Hg. }
  cbn [mbind Res_bind match_keys]. f_equal.
  rewrite (sql_num_proper _ _ He), (sql_ident_proper _ _ He) in Hr.
  assert (r = sql_num x && sql_num y && bool_decide (sql_ident x = sql_ident y)) as <-; [|by destruct r].
  apply eq_true_iff_eq. rewrite Hr, !andb_true_iff, bool_decide_eq_true. clear. tauto.
Qed.

(** What a payload reads as. *)
Lemma Payload_Get_ok st h keys ss : payload_rep st h keys ss -> length keys = length key_types ->
  exists row, Payload_Get f st (length key_types) aggs = Ok row /\
    Forall2 sql_equiv row (keys ++ (as_value <$> ss)).
Proof.
  intros [R1 R2 R3 R4 R5] Hl. unfold Payload_Get.
  destruct (unpack_loop_get f st keys 1 R3) as (ks & Hks & Hek). change (Z.of_nat 1) with 1 in Hks. rewrite <- Hl, Hks. cbn [mbind Res_bind].
  assert (exists vs, get_aggs f st aggs = Ok vs /\ Forall2 sql_equiv vs (as_value <$> ss)) as (vs & -> & Hvs).
  { clear -R4. induction R4 as [|a s aggs ss [(v & Hv & He) _] R4 (vs & Hvs & Hes)]; [by exists []|].
    exists (v :: vs). cbn [get_aggs]. unfold Agg_Get. rewrite Hv. cbn [mbind Res_bind]. rewrite Hvs. by split; constructor. }
  cbn [mbind Res_bind]. eexists. split; [done|]. by apply List.Forall2_app.
Qed.
End Payload.

(** ** Groups *)
Record Group := MkGroup { g_keys : list SQLValue; g_rows : list (list SQLValue) }.

(** The group of a row, in the order in which groups appear. *)
Definition add_row (groups : list Group) (r : Row) : list Group :=
  match list_find (fun g => match_keys (g_keys g) (row_keys r) = true) groups with
  | Some (i, g) => <[i := MkGroup (g_keys g) (g_rows g ++ [row_args r])]> groups
  | None => groups ++ [MkGroup (row_keys r) [row_args r]]
  end.
Definition group_rows (rows : list Row) : list Group := foldl add_row [] rows.

Lemma fit_types key_types a b : keys_fit key_types a -> keys_fit key_types b -> Forall2 (fun x y => sv_type x = sv_type y) a b.
Proof.
  unfold keys_fit. intros Ha. revert b. induction Ha as [|tn x tys a Hx Ha IH]; intros b Hb.
  - apply Forall2_nil_inv_l in Hb as ->. constructor.
  - apply Forall2_cons_inv_l in Hb as (y & b' & Hy & Hb & ->). constructor; [|by apply IH].
    destruct Hx as [-> _], Hy as [-> _]. done.
Qed.

Section Group.
Context (enum_key : Z -> Z -> list Z) (string_hash : list Z -> Z) (uninit : SqlType -> Cell).
Context (f : StructBuilder) (key_types : list (SqlType * bool)) (aggs : list Aggregator).
Context (Hpf : payload_format f key_types aggs).
Context (Huninit : Forall (fun t => ir_type (cell_value (uninit t)) = t) (sb_types f)).
Context (psz : Z) (Hpsz : 1 <= psz <= BLOCK_SIZE).

#[local] Abbreviation blk := (loc_block psz).
#[local] Abbreviation off := (loc_offset psz).
#[local] Abbreviation get := (fun ht i => GetPayload uninit f ht (blk (Z.of_nat i)) (off (Z.of_nat i))).

(** The states of the aggregates over the rows of a group. *)
Definition states_of (ks : list AggregateType) (rows : list (list SQLValue)) : list AggState :=
  match rows with
  | [] => []
  | r :: rows => foldl (step_states enum_key ks) (init_states ks r) rows
  end.

Lemma states_snoc ks rows r : rows <> [] -> states_of ks (rows ++ [r]) = step_states enum_key ks (states_of ks rows) r.
Proof. destruct rows as [|r0 rows]; [done|]. intros _. cbn. by rewrite foldl_app. Qed.

Definition row_ok (r : Row) : Prop := keys_fit key_types (row_keys r) /\ args_fit aggs (row_args r).

Definition g_hash (g : Group) : Z := Hash string_hash (g_keys g).

(** The table holds the groups, in order. *)
Record grouped (ht : AggregateHashTable) (k : Z) (tab : list (option nat)) (groups : list Group) : Prop := {
  gr_table : table uninit f psz ht k (g_hash <$> groups) tab;
  gr_payload : forall i g, groups !! i = Some g -> keys_fit key_types (g_keys g) /\ g_rows g <> [] /\
    exists st, get ht i = Ok st /\ payload_rep f aggs st (g_hash g) (g_keys g) (states_of (kinds aggs) (g_rows g));
  gr_distinct : forall i j gi gj, groups !! i = Some gi -> groups !! j = Some gj ->
    match_keys (g_keys gi) (g_keys gj) = true -> i = j;
}.

Lemma GetPayload_blocks ht ht' b o : payload_block ht' = payload_block ht -> payload_size ht' = payload_size ht ->
  GetPayload uninit f ht' b o = GetPayload uninit f ht b o.
Proof. intros H1 H2. unfold GetPayload, payload_ok. by rewrite H1, H2. Qed.

(** A larger list of hashes. *)
Lemma indexed_app k hs dn es tab h : indexed psz k hs dn es tab -> indexed psz k (hs ++ [h]) dn es tab.
Proof.
  intros [I1 I2 I3 I4].
  assert (forall i, (i < length hs)%nat -> hash_of (hs ++ [h]) i = hash_of hs i) as Hsame.
  { intros i Hi. unfold hash_of. by rewrite lookup_app_l. }
  split; [|done| |done].
  - eapply list.Forall2_impl; [exact I1|]. intros e [i|]; [|done]. intros [Hi ->]. cbn. rewrite length_app, Hsame by done. cbn. split; [lia|done].
  - intros p i Hp. destruct (I3 p i Hp) as (K & HK & Es & Hw).
    destruct (Forall2_lookup_r _ _ _ _ _ I1 Hp) as (e & _ & Hi & _). rewrite Hsame by done. by exists K.
Qed.

(** The state in which the keys of a row are searched. *)
Lemma search_ready ht k tab groups r : grouped ht k tab groups -> row_ok r ->
  let sel i := match groups !! i with Some g => match_keys (g_keys g) (row_keys r) | None => false end in
  (forall i, (i < length (g_hash <$> groups))%nat -> exists st, get ht i = Ok st /\ CheckEq f st (row_keys r) 0 = Ok (sel i)) /\
  (forall i, (i < length (g_hash <$> groups))%nat -> sel i = true -> hash_of (g_hash <$> groups) i = Hash string_hash (row_keys r)) /\
  (forall i j, sel i = true -> sel j = true -> i = j).
Proof.
  intros Hg [Hk Ha] sel. split_and!.
  - intros i Hi. rewrite length_fmap in Hi. destruct (lookup_lt_is_Some_2 groups i Hi) as [g Eg].
    destruct (gr_payload _ _ _ _ Hg i g Eg) as (Hgk & _ & st & Hst & Hrep). exists st. split; [done|].
    unfold sel. rewrite Eg. eapply CheckEq_match; [by eapply fit_types|]. intros j key Hj.
    replace (0 + 1 + Z.of_nat j) with (Z.of_nat (1 + j)) by lia. by apply (pr_keys _ _ _ _ _ _ Hrep).
  - intros i Hi Hs. rewrite length_fmap in Hi. destruct (lookup_lt_is_Some_2 groups i Hi) as [g Eg].
    unfold sel in Hs. rewrite Eg in Hs. unfold hash_of. rewrite list_lookup_fmap, Eg. cbn. unfold g_hash.
    apply Hash_match; [|done]. apply (fit_types key_types); [|done]. by apply (gr_payload _ _ _ _ Hg i g Eg).
  - intros i j Hi Hj. unfold sel in *. destruct (groups !! i) as [gi|] eqn:Ei; [|done].
    destruct (groups !! j) as [gj|] eqn:Ej; [|done]. apply (gr_distinct _ _ _ _ Hg i j gi gj Ei Ej).
    eapply match_trans; [done|]. by apply match_sym.
Qed.

(** Growing the entries keeps the groups. *)
Lemma grouped_ensure ht k tab groups : grouped ht k tab groups ->
  exists ht' k' tab', ensure_slot uninit f ht = Ok ht' /\ grouped ht' k' tab' groups /\ vec_size groups < 2 ^ k'.
Proof using Hpsz.
  intros Hg. destruct (ensure_slot_ok uninit f psz Hpsz ht k _ tab (gr_table _ _ _ _ Hg)) as (ht' & k' & tab' & E & Ht & Hlt & Hpb).
  exists ht', k', tab'. split; [done|]. split; [|unfold vec_size in *; by rewrite length_fmap in Hlt].
  split; [done| |apply Hg]. intros i g Hi. destruct (gr_payload _ _ _ _ Hg i g Hi) as (H1 & H2 & st & Hst & Hrep).
  split_and!; [done..|]. exists st. split; [|done]. rewrite <- Hst. apply GetPayload_blocks; [done|].
  by rewrite (lo_psz _ _ _ _ (ta_layout _ _ _ _ _ _ _ Ht)), (lo_psz _ _ _ _ (ta_layout _ _ _ _ _ _ _ (gr_table _ _ _ _ Hg))).
Qed.

(** A row of a group that is there. *)
Lemma update_group ht k tab groups r i g : grouped ht k tab groups -> row_ok r ->
  groups !! i = Some g -> match_keys (g_keys g) (row_keys r) = true ->
  exists ht', update_loop enum_key uninit f (S (length (entries ht))) ht (row_keys r) (zip aggs (row_args r))
      (Hash string_hash (row_keys r)) (Z.land (Hash string_hash (row_keys r)) (sw 64 (ht_mask ht))) = Ok ht' /\
    grouped ht' k tab (<[i := MkGroup (g_keys g) (g_rows g ++ [row_args r])]> groups).
Proof using Hpsz Hpf.
  intros Hg Hr Hi Hm. destruct (search_ready ht k tab groups r Hg Hr) as (Hsel & Hhash & Huniq).
  pose proof (lookup_lt_Some _ _ _ Hi) as Hlt. pose proof (gr_table _ _ _ _ Hg) as Ht.
  rewrite (search_found uninit f psz Hpsz enum_key string_hash ht k _ tab Ht _ _ _ Hsel Hhash i).
  2: by rewrite length_fmap. 2: by rewrite Hi. 2: { intros i' _ Hs. apply (Huniq i' i); [done|by rewrite Hi]. }
  destruct (gr_payload _ _ _ _ Hg i g Hi) as (Hk & Hne & st & Hst & Hrep). rewrite Hst. cbn [mbind Res_bind].
  destruct (Payload_Update_ok enum_key f key_types aggs Hpf st _ _ _ (row_args r) Hrep) as (st' & -> & Hrep').
  { symmetry. apply (list.Forall2_length _ _ _ Hk). } { apply Hr. }
  cbn [mbind Res_bind].
  destruct (layout_set uninit f psz Hpsz ht _ (Z.of_nat i) st' (ta_layout _ _ _ _ _ _ _ Ht)) as (ht' & -> & Hl' & (E1 & E2 & E3 & E4) & Hget).
  { unfold vec_size. rewrite length_fmap. lia. } { apply Hrep'. }
  set (g' := MkGroup (g_keys g) (g_rows g ++ [row_args r])).
  assert (g_hash <$> <[i := g']> groups = g_hash <$> groups) as Ehs.
  { rewrite list_fmap_insert. apply list_insert_id. by rewrite list_lookup_fmap, Hi. }
  assert (forall j gj, <[i := g']> groups !! j = Some gj -> keys_fit key_types (g_keys gj) /\ g_rows gj <> [] /\
    exists st, get ht' j = Ok st /\ payload_rep f aggs st (g_hash gj) (g_keys gj) (states_of (kinds aggs) (g_rows gj))) as Hpay.
  { intros j gj Hj. rewrite Hget by lia. destruct (decide (j = i)) as [->|Hne'].
    - rewrite list_lookup_insert_eq in Hj by done. injection Hj as <-. rewrite decide_True by done. subst g'. cbn.
      split_and!; [done|by destruct (g_rows g)|]. exists st'. split; [done|]. by rewrite states_snoc.
    - rewrite list_lookup_insert_ne in Hj by done. rewrite decide_False by lia. by apply (gr_payload _ _ _ _ Hg). }
  exists ht'. split; [done|]. split; [|done|].
  - rewrite Ehs. destruct Ht as [T1 T2 T3 T4 T5 T6 T7 T8]. split; try done; try congruence.
    intros j h Hj. split; [by apply (T7 j h)|]. rewrite <- Ehs, list_lookup_fmap in Hj.
    destruct (<[i:=g']> groups !! j) as [gj|] eqn:Ej; [|done]. injection Hj as <-.
    destruct (Hpay j gj Ej) as (_ & _ & st0 & Hs0 & Hr0). exists st0. split; [done|]. apply Hr0.
  - assert (forall j gj, <[i := g']> groups !! j = Some gj -> exists gj', groups !! j = Some gj' /\ g_keys gj' = g_keys gj) as Hold.
    { intros j gj Hj. destruct (decide (j = i)) as [->|Hne'].
      - rewrite list_lookup_insert_eq in Hj by done. injection Hj as <-. by exists g.
      - rewrite list_lookup_insert_ne in Hj by done. by exists gj. }
    intros j1 j2 g1 g2 H1 H2 Hm12. destruct (Hold _ _ H1) as (g1' & H1' & Ek1). destruct (Hold _ _ H2) as (g2' & H2' & Ek2).
    rewrite <- Ek1, <- Ek2 in Hm12. by eapply (gr_distinct _ _ _ _ Hg).
Qed.

(** The entries after an insertion. *)
Lemma indexed_snoc k hs es tab h K : 10 <= k <= 30 -> indexed psz k hs (seq 0 (length hs)) es tab ->
  (K < length tab)%nat -> walk tab (home k h) K -> let p := slot (length tab) (home k h) K in tab !! p = Some None ->
  indexed psz k (hs ++ [h]) (seq 0 (length (hs ++ [h])))
    (<[p := entry_word (Salt h) (off (vec_size hs)) (blk (vec_size hs))]> es) (<[p := Some (length hs)]> tab).
Proof.
  intros Hk Hix HK Hw p Hp. pose proof (indexed_app k hs _ es tab h Hix) as Hix'.
  assert (hash_of (hs ++ [h]) (length hs) = h) as Eh by (unfold hash_of; by rewrite list_lookup_middle).
  pose proof (indexed_insert psz k (hs ++ [h]) _ es tab (length hs) K Hix') as Hins. rewrite Eh in Hins.
  destruct Hins as [I1 I2 I3 I4]; [rewrite length_app; cbn; lia|done..|].
  subst p. split; [done..|]. rewrite I4, length_app, seq_app. cbn. by rewrite Permutation_cons_append.
Qed.

(** A new payload: room for it, its initial state, and its entry. *)
Lemma insert_payload ht n p r h : layout f psz ht n -> n < max_payloads -> ht_size ht = n -> row_ok r ->
  (p < length (entries ht))%nat ->
  exists ht' st, ('(ht, block_idx, offset) ← Insert ht (Z.of_nat p) (Salt h);
      st ← GetPayload uninit f ht (u32 block_idx) (u16 offset);
      st ← Payload_Initialize f st h (row_keys r) (zip aggs (row_args r));
      SetPayload ht (u32 block_idx) (u16 offset) st) = Ok ht' /\
    layout f psz ht' (n + 1) /\ ht_size ht' = n + 1 /\ ht_capacity ht' = ht_capacity ht /\ ht_mask ht' = ht_mask ht /\
    entries ht' = <[p := entry_word (Salt h) (off n) (blk n)]> (entries ht) /\
    payload_rep f aggs st h (row_keys r) (states_of (kinds aggs) [row_args r]) /\
    forall j : nat, Z.of_nat j <= n -> get ht' j = if decide (Z.of_nat j = n) then Ok st else get ht j.
Proof using Hpsz Hpf Huninit.
  intros Hl Hmax Hsz Hr Hp. pose proof (lo_bound _ _ _ _ Hl) as Hn0.
  destruct (Insert_ok uninit f psz Hpsz ht n (Z.of_nat p) (Salt h) Hl Hmax) as (ht1 & -> & Hl1 & Ee & Es & Ec & Em & Hold);
    [unfold vec_size; lia|]. cbn [mbind Res_bind].
  destruct (loc_words psz Hpsz n) as [Ho Hb]; [lia|]. rewrite !uw_id by (split; lia).
  destruct (layout_get uninit f Huninit psz Hpsz ht1 (n + 1) n Hl1) as (st0 & -> & Hst0); [lia|]. cbn [mbind Res_bind].
  destruct (Payload_Initialize_ok f key_types aggs Hpf st0 h (row_keys r) (row_args r) Hst0) as (st & -> & Hrep); [apply Hr..|].
  cbn [mbind Res_bind].
  destruct (layout_set uninit f psz Hpsz ht1 (n + 1) n st Hl1) as (ht' & -> & Hl' & (E1 & E2 & E3 & E4) & Hget); [lia|apply Hrep|].
  exists ht', st. split_and!; try done; try congruence.
  - rewrite E2, Es, Hsz. unfold max_payloads in *. by rewrite uw_id by (split; lia).
  - by rewrite E1, Ee, Nat2Z.id, entry_make_word.
  - intros j Hj. rewrite Hget by lia. destruct (decide (Z.of_nat j = n)) as [E|Hne]; [done|]. apply Hold. lia.
Qed.

(** The first row of a group. *)
Lemma insert_group ht k tab groups r : grouped ht k tab groups -> row_ok r -> vec_size groups < 2 ^ k ->
  vec_size groups < max_payloads -> (forall i g, groups !! i = Some g -> match_keys (g_keys g) (row_keys r) = false) ->
  exists ht' tab', update_loop enum_key uninit f (S (length (entries ht))) ht (row_keys r) (zip aggs (row_args r))
      (Hash string_hash (row_keys r)) (Z.land (Hash string_hash (row_keys r)) (sw 64 (ht_mask ht))) = Ok ht' /\
    grouped ht' k tab' (groups ++ [MkGroup (row_keys r) [row_args r]]).
Proof using Hpsz Hpf Huninit.
  intros Hg Hr Hk Hmax Hnew. destruct (search_ready ht k tab groups r Hg Hr) as (Hsel & _ & _).
  pose proof (gr_table _ _ _ _ Hg) as Ht.
  assert (vec_size (g_hash <$> groups) = vec_size groups) as Hn by (unfold vec_size; by rewrite length_fmap).
  destruct (search_free uninit f psz Hpsz enum_key string_hash ht k _ tab Ht _ (zip aggs (row_args r)) _ Hsel) as (K & HK & Hfree & Hw & ->).
  { by rewrite Hn. } { intros i _. destruct (groups !! i) as [g|] eqn:Ei; [by eapply Hnew|done]. }
  set (h := Hash string_hash (row_keys r)) in *. set (p := slot (length tab) (home k h) K) in *.
  destruct (insert_payload ht (vec_size groups) p r h) as (ht' & st & -> & Hl & Esz & Ec & Em & Ee & Hrep & Hget); [| |by rewrite (ta_size _ _ _ _ _ _ _ Ht)|done| |].
  { rewrite <- Hn. apply Ht. } { done. } { rewrite (entries_tab uninit f psz ht k _ tab Ht). apply slot_lt. lia. }
  set (g' := MkGroup (row_keys r) [row_args r]).
  assert (forall j gj, (groups ++ [g']) !! j = Some gj -> keys_fit key_types (g_keys gj) /\ g_rows gj <> [] /\
    exists st, get ht' j = Ok st /\ payload_rep f aggs st (g_hash gj) (g_keys gj) (states_of (kinds aggs) (g_rows gj))) as Hpay.
  { intros j gj Hj. unfold vec_size in Hget. apply lookup_app_Some in Hj as [Hj|[Hge Hj]].
    - pose proof (lookup_lt_Some _ _ _ Hj). rewrite Hget, decide_False by lia. by apply (gr_payload _ _ _ _ Hg).
    - apply list_lookup_singleton_Some in Hj as [Hj <-].
      rewrite Hget, decide_True by lia. split_and!; [apply Hr|done|]. by exists st. }
  exists ht', (<[p := Some (length groups)]> tab). split; [done|].
  assert (g_hash <$> (groups ++ [g']) = (g_hash <$> groups) ++ [h]) as Ehs by (by rewrite fmap_app).
  split; [|done|].
  - pose proof (indexed_snoc k _ _ tab h K (ta_k _ _ _ _ _ _ _ Ht) (ta_index _ _ _ _ _ _ _ Ht) HK Hw Hfree) as Hix.
    cbn zeta in Hix. rewrite length_fmap, Hn in Hix. fold p in Hix. rewrite <- Ee in Hix.
    assert (vec_size ((g_hash <$> groups) ++ [h]) = vec_size groups + 1) as En1
      by (unfold vec_size in *; rewrite length_app; cbn; lia).
    destruct Ht as [T1 T2 T3 T4 T5 T6 T7 T8]. rewrite Ehs. split; rewrite ?En1; try done; try congruence.
    + intros j h' Hj. rewrite <- Ehs, list_lookup_fmap in Hj.
      destruct ((groups ++ [g']) !! j) as [gj|] eqn:Ej; [|done]. injection Hj as <-. split; [apply Hash_range|].
      destruct (Hpay j gj Ej) as (_ & _ & st1 & Hs1 & Hr1). exists st1. split; [done|]. apply Hr1.
    + destruct T8 as [->|T8]; [by left|right]. lia.
  - intros j1 j2 g1 g2 H1 H2 Hm. apply lookup_app_Some in H1 as [H1|[G1 H1]]; apply lookup_app_Some in H2 as [H2|[G2 H2]].
    + by eapply (gr_distinct _ _ _ _ Hg).
    + apply list_lookup_singleton_Some in H2 as [_ <-]. cbn in Hm. by rewrite (Hnew _ _ H1) in Hm.
    + apply list_lookup_singleton_Some in H1 as [_ <-]. apply match_sym in Hm. cbn in Hm. by rewrite (Hnew _ _ H2) in Hm.
    + apply list_lookup_singleton_Some in H1 as [? _]. apply list_lookup_singleton_Some in H2 as [? _]. lia.
Qed.

(** One row. *)
Lemma UpdateOrInsert_ok ht k tab groups r : grouped ht k tab groups -> row_ok r -> vec_size groups < max_payloads ->
  exists ht' k' tab', UpdateOrInsert enum_key string_hash uninit f ht (row_keys r) (zip aggs (row_args r)) = Ok ht' /\
    grouped ht' k' tab' (add_row groups r).
Proof using Hpsz Hpf Huninit.
  intros Hg Hr Hmax. unfold UpdateOrInsert.
  destruct (grouped_ensure ht k tab groups Hg) as (ht1 & k1 & tab1 & -> & Hg1 & Hlt). cbn [mbind Res_bind]. unfold add_row.
  destruct (list_find _ groups) as [[i g]|] eqn:Ef.
  - apply list_find_Some in Ef as (Hi & Hm & _).
    destruct (update_group ht1 k1 tab1 groups r i g Hg1 Hr Hi Hm) as (ht' & E & Hg'). by exists ht', k1, tab1.
  - apply list_find_None in Ef. destruct (insert_group ht1 k1 tab1 groups r Hg1 Hr Hlt Hmax) as (ht' & tab' & E & Hg').
    + intros i g Hi. pose proof (Forall_lookup_1 _ _ _ _ Ef Hi) as Hn. cbn in Hn. by destruct (match_keys _ _).
    + by exists ht', k1, tab'.
Qed.

Lemma add_row_length groups r : (length (add_row groups r) <= S (length groups))%nat.
Proof.
  unfold add_row. destruct (list_find _ _) as [[i g]|]; [rewrite length_insert; lia|]. rewrite length_app. cbn. lia.
Qed.

Lemma group_fill_ok rows : forall ht k tab groups, grouped ht k tab groups -> Forall row_ok rows ->
  vec_size groups + vec_size rows <= max_payloads ->
  exists ht' k' tab', group_fill enum_key string_hash uninit f aggs ht rows = Ok ht' /\
    grouped ht' k' tab' (foldl add_row groups rows).
Proof using Hpsz Hpf Huninit.
  induction rows as [|r rows IH]; intros ht k tab groups Hg Hrows Hb; cbn [group_fill foldl]; [by exists ht, k, tab|].
  apply list.Forall_cons in Hrows as [Hr Hrows]. unfold vec_size in *. cbn in Hb.
  destruct (UpdateOrInsert_ok ht k tab groups r Hg Hr) as (ht1 & k1 & tab1 & -> & Hg1); [unfold vec_size; lia|].
  cbn [mbind Res_bind]. apply (IH ht1 k1 tab1); [done..|]. pose proof (add_row_length groups r). lia.
Qed.

Lemma grouped_init : grouped (Init psz 0) 10 (replicate 1024 None) [].
Proof using Hpsz. split; [by apply Init_table|done|done]. Qed.

(** ** Output *)

(** A row of output for a group. *)
Definition group_output (g : Group) : list SQLValue :=
  g_keys g ++ (as_value <$> states_of (kinds aggs) (g_rows g)).

(** The rows that reading the payloads yields. *)
Lemma grouped_rows ht k tab groups : grouped ht k tab groups ->
  exists L, Forall2 (Forall2 sql_equiv) L (group_output <$> groups) /\
    forall i row out, L !! i = Some row -> emit uninit f psz ht (length key_types) aggs out (Z.of_nat i) = Ok (out ++ [row]).
Proof.
  intros Hg.
  assert (forall n, (n <= length groups)%nat -> exists L, Forall2 (Forall2 sql_equiv) L (group_output <$> take n groups) /\
    forall i row out, L !! i = Some row -> emit uninit f psz ht (length key_types) aggs out (Z.of_nat i) = Ok (out ++ [row])) as H.
  2: { destruct (H (length groups)) as (L & HL & HE); [lia|]. rewrite take_ge in HL by lia. by exists L. }
  induction n as [|n IH]; intros Hn; [by exists []|].
  destruct IH as (L & HL & HE); [lia|]. destruct (lookup_lt_is_Some_2 groups n) as [g Eg]; [lia|].
  destruct (gr_payload _ _ _ _ Hg n g Eg) as (Hk & _ & st & Hst & Hrep).
  destruct (Payload_Get_ok f key_types aggs st _ _ _ Hrep) as (row & Hrow & He).
  { symmetry. apply (list.Forall2_length _ _ _ Hk). }
  exists (L ++ [row]). rewrite (take_S_r _ _ _ Eg), fmap_app. split.
  { apply List.Forall2_app; [done|]. constructor; [done|constructor]. }
  pose proof (list.Forall2_length _ _ _ HL) as Hlen. rewrite length_fmap, length_take in Hlen.
  intros i row' out Hi. apply lookup_app_Some in Hi as [Hi|[Hge Hi]]; [by apply HE|].
  apply list_lookup_singleton_Some in Hi as [Hi <-]. assert (i = n) as -> by lia.
  unfold emit. rewrite Hst. cbn [mbind Res_bind]. by rewrite Hrow.
Qed.

Lemma emit_seq ht L : (forall i row out, L !! i = Some row ->
    emit uninit f psz ht (length key_types) aggs out (Z.of_nat i) = Ok (out ++ [row])) ->
  forall c a out, (a + c <= length L)%nat ->
  foldM (emit uninit f psz ht (length key_types) aggs) out (seqZ (Z.of_nat a) (Z.of_nat c)) = Ok (out ++ take c (drop a L)).
Proof.
  intros HE. induction c as [|c IH]; intros a out Hac; [by rewrite take_0, app_nil_r|].
  destruct (lookup_lt_is_Some_2 L a) as [row Hrow]; [lia|].
  rewrite seqZ_cons by lia. cbn [foldM]. rewrite (HE a row out Hrow). cbn [mbind Res_bind].
  replace (Z.succ (Z.of_nat a)) with (Z.of_nat (S a)) by lia. replace (Z.pred (Z.of_nat (S c))) with (Z.of_nat c) by lia.
  rewrite IH by lia. rewrite (drop_S _ _ _ Hrow). cbn [take]. by rewrite <- (assoc_L (++)).
Qed.

(** A chunk yields its payloads, and those before it on its first page. *)
Lemma ForEach_rows ht k tab groups L out a b : grouped ht k tab groups -> length L = length groups ->
  (forall i row out, L !! i = Some row -> emit uninit f psz ht (length key_types) aggs out (Z.of_nat i) = Ok (out ++ [row])) ->
  0 <= a <= b -> b < vec_size L -> let a' := a / tpb psz * tpb psz in
  ForEach uninit f ht (length key_types) aggs out a b =
  Ok (out ++ take (Z.to_nat (b + 1 - a')) (drop (Z.to_nat a') L)).
Proof using Hpsz.
  intros Hg Hlen HE Ha Hb a'. pose proof (ta_layout _ _ _ _ _ _ _ (gr_table _ _ _ _ Hg)) as Hl.
  pose proof (lo_bound _ _ _ _ Hl) as Hn. unfold vec_size, max_payloads in *. rewrite length_fmap in Hn.
  destruct (tpb_bounds psz Hpsz) as [[Ht1 Ht2] _].
  assert (0 <= a' <= a) as Ha'.
  { subst a'. pose proof (Z.div_mod a (tpb psz) ltac:(lia)). pose proof (Z.mod_pos_bound a (tpb psz) ltac:(lia)).
    pose proof (Z.div_pos a (tpb psz) ltac:(lia) ltac:(lia)). nia. }
  rewrite (ForEach_emits uninit f psz Hpsz) by (done || lia || apply (lo_psz _ _ _ _ Hl)). fold a'.
  rewrite <- (Z2Nat.id a'), <- (Z2Nat.id (b + 1 - Z.of_nat (Z.to_nat a'))) by lia.
  rewrite (emit_seq ht L HE) by lia. rewrite !Nat2Z.id. done.
Qed.
End Group.

(** ** The operator *)
Section Operator.
Context (enum_key : Z -> Z -> list Z) (string_hash : list Z -> Z) (uninit : SqlType -> Cell).
Context (key_types : list (SqlType * bool)) (es : list AggregateExpression) (psz : Z).

(** Rows of the right types, for a payload that fits a page. *)
Record group_input (rows : list Row) : Prop := {
  gi_uninit : Forall (fun t => ir_type (cell_value (uninit t)) = t) (sb_types (ConstructPayloadFormat key_types es).1);
  gi_size : 1 <= psz <= BLOCK_SIZE;
  gi_exprs : Forall expr_ok es;
  gi_rows : Forall (fun r => keys_fit key_types (row_keys r) /\
    Forall2 (fun e v => sv_type v = ae_child e) es (row_args r)) rows;
  gi_count : vec_size rows <= max_payloads;
}.

(** The expected output: keys and aggregates of each group. *)
Definition expected (g : Group) : list SQLValue :=
  g_keys g ++ (as_value <$> states_of enum_key (ae_kind <$> es) (g_rows g)).

Lemma group_by_runs rows : group_input rows ->
  exists f aggs ht L, ConstructPayloadFormat key_types es = (f, aggs) /\
    group_by enum_key string_hash uninit key_types es psz rows =
      ExecuteSplitPipelineStatic (ForEach uninit f ht (length key_types) aggs) [] (vec_size L) /\
    Forall2 (Forall2 sql_equiv) L (expected <$> group_rows rows) /\ vec_size L <= max_payloads /\
    forall out a b, 0 <= a <= b -> b < vec_size L -> let a' := a / tpb psz * tpb psz in
      ForEach uninit f ht (length key_types) aggs out a b = Ok (out ++ take (Z.to_nat (b + 1 - a')) (drop (Z.to_nat a') L)).
Proof.
  intros [G1 G2 G3 G4 G5]. pose proof (ConstructPayloadFormat_ok key_types es G3) as Hpf.
  destruct (ConstructPayloadFormat key_types es) as [f aggs] eqn:Ef. destruct Hpf as [He Hpf]. cbn [fst] in G1.
  destruct (group_fill_ok enum_key string_hash uninit f key_types aggs Hpf G1 psz G2 rows _ _ _ _
    (grouped_init enum_key string_hash uninit f key_types aggs psz G2)) as (ht & k & tab & Hfill & Hg).
  { eapply list.Forall_impl; [exact G4|]. intros r [Hk Ha]. split; [done|]. unfold args_fit.
    rewrite <- He in Ha. by apply Forall2_fmap_l in Ha. }
  { unfold vec_size in *. cbn. lia. }
  destruct (grouped_rows _ _ _ _ _ _ _ _ _ _ _ Hg) as (L & HL & HE).
  pose proof (list.Forall2_length _ _ _ HL) as Hlen. rewrite length_fmap in Hlen.
  pose proof (ta_layout _ _ _ _ _ _ _ (gr_table _ _ _ _ _ _ _ _ _ _ _ Hg)) as Hl.
  exists f, aggs, ht, L. split; [done|]. split_and!.
  - unfold group_by. rewrite Ef, Hfill. cbn [mbind Res_bind]. rewrite (NumTuples_ok f psz G2 ht _ Hl). cbn [mbind Res_bind].
    f_equal. unfold vec_size. rewrite length_fmap. by rewrite Hlen.
  - unfold expected. rewrite <- He. unfold group_output, kinds, ag_kind in HL.
    by rewrite <- list_fmap_compose.
  - pose proof (lo_bound _ _ _ _ Hl) as Hn. unfold vec_size in *. rewrite length_fmap in Hn. rewrite Hlen. lia.
  - intros out a b Ha Hb. by eapply ForEach_rows.
Qed.
End Operator.

(** C14. GROUP BY groups: every row goes through the hash table (probing, salts,
    resizing, pages), and the output has one row for each group in the order in which
    groups first appear, with its keys and the aggregates of its rows.  This holds
    for up to one chunk of groups, and for more where a page holds a divisor of the
    chunk size; [group_by_repeats] shows groups that come twice otherwise. *)
Theorem group_by_correct enum_key string_hash uninit key_types es psz rows :
  group_input uninit key_types es psz rows ->
  vec_size (group_rows rows) <= CHUNK_SIZE \/ (tpb psz | CHUNK_SIZE) ->
  exists out, group_by enum_key string_hash uninit key_types es psz rows = Ok out /\
    Forall2 (Forall2 sql_equiv) out (expected enum_key es <$> group_rows rows).
Proof.
  intros Hin Hchunk. destruct (group_by_runs enum_key string_hash uninit key_types es psz rows Hin)
    as (f & aggs & ht & L & _ & -> & HL & Hmax & Hbody).
  pose proof (list.Forall2_length _ _ _ HL) as Hlen. rewrite length_fmap in Hlen.
  destruct (tpb_bounds psz (gi_size _ _ _ _ _ Hin)) as [[Ht1 _] _].
  exists L. split; [|done]. apply static_emits; [|unfold max_payloads, CHUNK_SIZE in *; lia].
  intros out a b Hd Ha Hb. rewrite Hbody by done.
  assert (a / tpb psz * tpb psz = a) as Ea.
  { assert ((tpb psz | a)) as [q ->]; [|by rewrite Z.div_mul by lia].
    destruct Hchunk as [Hle|Hdiv]; [|by etransitivity].
    assert (a = 0) as ->; [|by apply Z.divide_0_r].
    destruct Hd as [q ->]. unfold vec_size, CHUNK_SIZE in *. lia. }
  rewrite Ea. do 3 f_equal. lia.
Qed.

(** ** More groups than a chunk *)

(** Rows with different keys are groups of their own. *)
Lemma group_rows_distinct rows :
  (forall i j ri rj, (i < j)%nat -> rows !! i = Some ri -> rows !! j = Some rj -> match_keys (row_keys ri) (row_keys rj) = false) ->
  group_rows rows = (fun r => MkGroup (row_keys r) [row_args r]) <$> rows.
Proof.
  induction rows as [|r rows IH] using rev_ind; intros Hd; [done|]. unfold group_rows in *. rewrite foldl_app. cbn [foldl].
  rewrite IH, fmap_app. 2: { intros i j ri rj Hij Hi Hj. apply (Hd i j); [done|by apply lookup_app_l_Some..]. }
  unfold add_row. destruct (list_find _ _) as [[i g]|] eqn:Ef; [exfalso|done].
  apply list_find_Some in Ef as (Hi & Hm & _). rewrite list_lookup_fmap in Hi.
  destruct (rows !! i) as [ri|] eqn:Ei; [|done]. injection Hi as <-. cbn in Hm.
  rewrite (Hd i (length rows) ri r) in Hm; [done|by eapply lookup_lt_Some|by apply lookup_app_l_Some|by apply list_lookup_middle].
Qed.

(** The second chunk starts at the page of its first group. *)
Lemma group_by_two_chunks enum_key string_hash uninit key_types es psz rows :
  group_input uninit key_types es psz rows -> CHUNK_SIZE < vec_size (group_rows rows) <= 2 * CHUNK_SIZE ->
  exists out, group_by enum_key string_hash uninit key_types es psz rows = Ok out /\
    vec_size out = vec_size (group_rows rows) + CHUNK_SIZE mod tpb psz.
Proof.
  intros Hin Hn. destruct (group_by_runs enum_key string_hash uninit key_types es psz rows Hin)
    as (f & aggs & ht & L & _ & -> & HL & Hmax & Hbody).
  pose proof (list.Forall2_length _ _ _ HL) as Hlen. rewrite length_fmap in Hlen.
  assert (vec_size L = vec_size (group_rows rows)) as Hv by (unfold vec_size; by rewrite Hlen). rewrite <- Hv in *.
  destruct (tpb_bounds psz (gi_size _ _ _ _ _ Hin)) as [[Ht1 Ht2] _].
  rewrite static_chunks by (unfold max_payloads, CHUNK_SIZE in *; unfold vec_size in *; lia).
  assert (chunks (Z.to_nat (vec_size L)) 0 (vec_size L) =
    [(0, CHUNK_SIZE - 1); (CHUNK_SIZE, vec_size L - 1)]) as ->.
  { unfold CHUNK_SIZE in *. destruct (Z.to_nat (vec_size L)) as [|[|n]] eqn:En; [lia|lia|]. cbn [chunks].
    rewrite (proj2 (Z.ltb_lt 0 (vec_size L))) by lia. unfold CHUNK_SIZE. rewrite (Z.min_l (0 + 8192 - 1)) by lia.
    replace (0 + 8192 - 1 + 1) with 8192 by lia. rewrite (proj2 (Z.ltb_lt 8192 (vec_size L))) by lia.
    rewrite Z.min_r by lia. f_equal. f_equal. destruct n; cbn [chunks]; [done|].
    by rewrite (proj2 (Z.ltb_ge _ _)) by lia. }
  cbn [run_chunks]. rewrite Hbody by (unfold CHUNK_SIZE in *; lia). cbn [mbind Res_bind]. rewrite Hbody by lia. cbn [mbind Res_bind].
  eexists. split; [done|]. rewrite Z.div_0_l, Z.mul_0_l by lia.
  pose proof (Z.div_mod CHUNK_SIZE (tpb psz) ltac:(lia)) as Hdm.
  pose proof (Z.mod_pos_bound CHUNK_SIZE (tpb psz) ltac:(lia)) as Hmb.
  assert (0 <= CHUNK_SIZE / tpb psz) by (apply Z.div_pos; unfold CHUNK_SIZE; lia).
  set (a' := CHUNK_SIZE / tpb psz * tpb psz) in *. assert (0 <= a' <= CHUNK_SIZE) by (subst a'; unfold CHUNK_SIZE in *; nia).
  unfold vec_size in *. rewrite !length_app, !length_take, !length_drop. cbn [length].
  unfold CHUNK_SIZE in *. subst a'. lia.
Qed.

(** The state of one aggregate depends on its own column. *)
Lemma states_column enum_key ks k j r v rs vs : ks !! j = Some k -> r !! j = Some v ->
  Forall2 (fun row w => row !! j = Some w) rs vs ->
  states_of enum_key ks (r :: rs) !! j = Some (agg_fold enum_key k v vs).
Proof.
  intros Hk Hv Hrs. unfold states_of, agg_fold.
  assert (init_states ks r !! j = Some (agg_init k v)) as Hs.
  { unfold init_states. rewrite lookup_zip_with, Hk. cbn. by rewrite Hv. }
  revert Hs. generalize (init_states ks r) as ss. generalize (agg_init k v) as s.
  induction Hrs as [|row w rs vs Hw Hrs IH]; intros s ss Hs; cbn [foldl]; [done|].
  apply IH. unfold step_states. rewrite !lookup_zip_with, Hk. cbn. rewrite Hs. cbn. by rewrite Hw.
Qed.

Module GroupByDemo.
Definition demo_uninit (t : SqlType) : Cell :=
  MkCell match type_id t with
         | SMALLINT => VInt16 0 | INT => VInt32 0 | BIGINT => VInt64 0 | REAL => VFloat64 (F_of_Z 0)
         | DATE => VDate 0 | TEXT => VString [] | BOOLEAN => VBool false | ENUM => VEnum (enum_id t) 0
         end false.
Definition int_type : SqlType := MkType INT 0.
Definition int (z : Z) : SQLValue := MkSQL (VInt32 z) false.
Definition null : SQLValue := MkSQL (VInt32 0) true.
Definition demo_types : list (SqlType * bool) := [(int_type, true)].
Definition sum_count : list AggregateExpression :=
  [MkAggExpr SUM int_type int_type true; MkAggExpr COUNT int_type (MkType BIGINT 0) false].
Definition demo_row (k : SQLValue) (v : SQLValue) : Row := MkRow [k] [v; v].
Definition demo_rows : list Row :=
  [demo_row (int 7) (int 1); demo_row null (int 2); demo_row (int 7) (int 3); demo_row null null].
Definition run := group_by (fun _ _ => []) (fun _ => 0) demo_uninit demo_types sum_count 32.

Example demo_result : run demo_rows =
  Ok [[int 7; int 4; MkSQL (VInt64 2) false]; [null; int 2; MkSQL (VInt64 1) false]].
Proof. vm_compute. reflexivity. Qed.

Lemma demo_input rows : Forall (fun r => keys_fit demo_types (row_keys r) /\
    Forall2 (fun e v => sv_type v = ae_child e) sum_count (row_args r)) rows -> vec_size rows <= max_payloads ->
  group_input demo_uninit demo_types sum_count 32 rows.
Proof.
  intros Hrows Hn. split; [repeat constructor|done|repeat constructor|done|done].
Defined.

Lemma demo_row_fits k v : sv_type k = int_type -> sv_type v = int_type -> keys_fit demo_types (row_keys (demo_row k v)) /\
  Forall2 (fun e v => sv_type v = ae_child e) sum_count (row_args (demo_row k v)).
Proof. intros Hk Hv. split; repeat constructor; done. Defined.

Lemma group_by_correct_witness : exists out, run demo_rows = Ok out /\
  Forall2 (Forall2 sql_equiv) out (expected (fun _ _ => []) sum_count <$> group_rows demo_rows).
Proof.
  apply group_by_correct.
  - apply demo_input; [|done]. repeat (apply list.Forall_cons_2; [by apply demo_row_fits|]). constructor.
  - left. done.
Defined.

(** [n] rows with different keys, for a count: payloads of 24 bytes. *)
Definition only_count : list AggregateExpression := [MkAggExpr COUNT int_type (MkType BIGINT 0) false].
Definition count_row (i : nat) : Row := MkRow [int (Z.of_nat i)] [int 0].
Definition distinct_rows (n : Z) : list Row := count_row <$> seq 0 (Z.to_nat n).
Definition run_count := group_by (fun _ _ => []) (fun _ => 0) demo_uninit demo_types only_count 24.

Lemma distinct_groups n : group_rows (distinct_rows n) = (fun r => MkGroup (row_keys r) [row_args r]) <$> distinct_rows n.
Proof.
  apply group_rows_distinct. intros i j ri rj Hij Hi Hj. unfold distinct_rows in *. rewrite list_lookup_fmap in Hi, Hj.
  destruct (seq 0 (Z.to_nat n) !! i) as [i'|] eqn:Ei; [|done]. destruct (seq 0 (Z.to_nat n) !! j) as [j'|] eqn:Ej; [|done].
  apply lookup_seq in Ei as [-> _]. apply lookup_seq in Ej as [-> _]. injection Hi as <-. injection Hj as <-.
  cbn. rewrite bool_decide_false; [done|]. intros [= H]. lia.
Qed.

Lemma count_input n : 0 <= n <= max_payloads -> group_input demo_uninit demo_types only_count 24 (distinct_rows n).
Proof.
  intros Hn. split; [repeat constructor|done|repeat constructor| |].
  - apply list.Forall_fmap, list.Forall_forall. intros i _. split; repeat constructor.
  - unfold vec_size, distinct_rows. rewrite length_fmap, length_seq. lia.
Qed.

(** With more groups than a chunk of 8192, groups are emitted twice: a chunk is
    read from the start of the page of its first group, so with 24-byte payloads,
    170 to a page, the 32 groups in front of the second chunk come again. *)
Theorem group_by_repeats : exists out, run_count (distinct_rows 9000) = Ok out /\
  vec_size (group_rows (distinct_rows 9000)) = 9000 /\ vec_size out = 9032.
Proof.
  assert (vec_size (group_rows (distinct_rows 9000)) = 9000) as Hn.
  { rewrite distinct_groups. unfold vec_size, distinct_rows. rewrite !length_fmap, length_seq. lia. }
  destruct (group_by_two_chunks (fun _ _ => []) (fun _ => 0) demo_uninit demo_types only_count 24 (distinct_rows 9000)) as (out & E & Hl).
  - apply count_input. unfold max_payloads. lia.
  - rewrite Hn. unfold CHUNK_SIZE. lia.
  - exists out. split; [exact E|]. split; [exact Hn|]. rewrite Hl, Hn. reflexivity.
Qed.

(** COUNT of a column counts a null in the first row of a group. *)
Theorem count_counts_null : run [demo_row (int 1) null] = Ok [[int 1; null; MkSQL (VInt64 1) false]].
Proof. vm_compute. reflexivity. Qed.
End GroupByDemo.
