(* ===== verification/Scan.v ===== *)
(** * Table scans

    [ScanTranslator] and [ScanSelectTranslator] of src/compile/translators/, the
    columns they read (src/compile/proxy/column_data.cc, materialized_buffer.cc) and
    the collectors of the columns of a predicate (predicate_column_collector.cc).  A
    scan emits the rows of the table; a scan with filters reads a column when the
    first filter needs it and emits what filtering the whole rows would. *)
From Stdlib Require Import SpecFloat.
From stdpp Require Import gmap strings.
From S2P Require Import Prelude ProgramBuilder SqlValue Struct Expression Joins Pipeline Plan ByteFile ColumnData.
#[local] Open Scope Z_scope.

(** ** Columns of files *)

(** The double with the given 64 bits. *)
Definition F_of_bits (z : Z) : spec_float :=
  let s := Z.testbit z 63 in
  let e := Z.shiftr z 52 mod 2 ^ 11 in
  let m := z mod 2 ^ 52 in
  if e =? 0 then (if m =? 0 then S754_zero s else S754_finite s (Z.to_pos m) (-1074))
  else if e =? 2047 then (if m =? 0 then S754_infinity s else S754_nan)
  else S754_finite s (Z.to_pos (m + 2 ^ 52)) (e - 1075).

(** A truth value is stored as a byte; other bytes than 0 and 1 are none. *)
Definition load_i1 (z : Z) : Res bool :=
  if z =? 0 then Ok false else if z =? 1 then Ok true else UB.

(** [proxy::ColumnData<S>], opened: its type and the bytes of its file. *)
Record Iterable := MkIterable { it_type : SqlType; it_file : list Z }.

Definition Iterable_Size (c : Iterable) : Res Z :=
  let f := it_file c in
  match type_id (it_type c) with
  | SMALLINT => Ok (SizeInt16 f)
  | INT | DATE | ENUM => Ok (SizeInt32 f)
  | BIGINT => Ok (SizeInt64 f)
  | REAL => Ok (SizeFloat64 f)
  | BOOLEAN => Ok (SizeInt8 f)
  | TEXT => SizeText f
  end.

(** [operator[]] *)
Definition Iterable_at (c : Iterable) (idx : Z) : Res IRValue :=
  let f := it_file c in
  match type_id (it_type c) with
  | TEXT => s ← GetText f idx; Ok (VString s)
  | SMALLINT => z ← GetInt16 f idx; Ok (VInt16 z)
  | INT => z ← GetInt32 f idx; Ok (VInt32 z)
  | BIGINT => z ← GetInt64 f idx; Ok (VInt64 z)
  | REAL => z ← GetFloat64 f idx; Ok (VFloat64 (F_of_bits z))
  | DATE => z ← GetInt32 f idx; Ok (VDate z)
  | BOOLEAN => z ← GetInt8 f idx; b ← load_i1 z; Ok (VBool b)
  | ENUM => z ← GetInt32 f idx; Ok (VEnum (enum_id (it_type c)) z)
  end.

(** [SimdLoad]: eight consecutive values. *)
Definition SimdLoad (c : Iterable) (idx : Z) : Res (list Z) :=
  match type_id (it_type c) with
  | TEXT | SMALLINT | BIGINT | REAL | BOOLEAN => Throw "Unsupported"
  | INT | DATE | ENUM => mapM (fun lane => GetInt32 (it_file c) (idx + lane)) (seqZ 0 8)
  end.

(** ** Buffers of columns *)

(** The columns of a table and, where they are nullable, those of the nulls. *)
Record DiskMaterializedBuffer := MkBuffer { column_data : list Iterable; null_data : list (option Iterable) }.

Definition Buffer_Size (b : DiskMaterializedBuffer) : Res Z := c ← vec_at (column_data b) 0; Iterable_Size c.

Definition null_at (n : option Iterable) (i : Z) : Res bool :=
  match n with
  | None => Ok false
  | Some n => v ← Iterable_at n i; match v with VBool x => Ok x | _ => UB end
  end.

Definition Buffer_Get (b : DiskMaterializedBuffer) (i col_idx : Z) : Res SQLValue :=
  column ← vec_at (column_data b) col_idx;
  null_column ← vec_at (null_data b) col_idx;
  null_value ← null_at null_column i;
  v ← Iterable_at column i;
  Ok (MkSQL v null_value).

Definition Buffer_row (b : DiskMaterializedBuffer) (i : Z) : Res row :=
  mapM (Buffer_Get b i) (seqZ 0 (vec_size (column_data b))).

(** A generated loop over the tuples up to [end_], inclusive. *)
Fixpoint tuple_loop {S} (fuel : nat) (body : S -> Z -> Res S) (i end_ : Z) (s : S) : Res S :=
  match fuel with
  | O => NoFuel
  | Datatypes.S fuel =>
      if i <=? end_ then s ← body s i; tuple_loop fuel body (i32 (i + 1)) end_ s else Ok s
  end.
Definition tuple_fuel (start end_ : Z) : nat := Datatypes.S (Z.to_nat (end_ - start + 1)).

(** [DiskMaterializedBuffer::Scan] *)
Definition Buffer_Scan {S} (b : DiskMaterializedBuffer) (col_idx : Z) (handler : S -> Z -> SQLValue -> Res S) (s : S) : Res S :=
  cardinality ← Buffer_Size b;
  tuple_loop (tuple_fuel 0 (cardinality - 1)) (fun s i => v ← Buffer_Get b i col_idx; handler s i v) 0 (cardinality - 1) s.

(** [catalog::Table::operator[]] *)
Definition Table_at (t : Table) (name : string) : Res CatalogColumn :=
  match list_find (fun c => cc_name c = name) (table_columns t) with
  | Some (_, c) => Ok c
  | None => Throw "absl::container_internal::raw_hash_map<>::at"
  end.

Section Model.
Context (enum_key : Z -> Z -> list Z) (like : list Z -> list Z -> bool).
(** The contents of the files of a column. *)
Context (Path NullPath : CatalogColumn -> list Z).

(** [GenerateBuffer] *)
Definition generate_column (t : Table) (b : DiskMaterializedBuffer) (column : Column) : Res DiskMaterializedBuffer :=
  type ← Type_ (col_expr column);
  c ← Table_at t (col_name column);
  Ok (MkBuffer (column_data b ++ [MkIterable type (Path c)])
        (null_data b ++ [if cc_nullable c then Some (MkIterable Boolean (NullPath c)) else None])).
Definition GenerateBuffer (t : Table) (s : OperatorSchema) : Res DiskMaterializedBuffer :=
  foldM (generate_column t) (MkBuffer [] []) (columns s).

(** [ScanTranslator::Produce] *)
Definition scan_body (b : DiskMaterializedBuffer) (out : list row) (start end_ : Z) : Res (list row) :=
  tuple_loop (tuple_fuel start end_) (fun out i => values ← Buffer_row b i; Ok (out ++ [values])) start end_ out.

Definition scan (t : Table) (s : OperatorSchema) : Res (list row) :=
  b ← GenerateBuffer t s;
  n ← Buffer_Size b;
  ExecuteSplitPipelineStatic (scan_body b) [] n.

(** ** Columns of a predicate *)

(** The references in the order of the visit. *)
Fixpoint join_columns_of (e : Expression) : Res (list (Z * Z)) :=
  match e with
  | ColumnRefExpr _ _ child col => Ok [(child, col)]
  | LiteralExpr _ _ => Ok []
  | BinaryArithmeticExpr _ l r => a ← join_columns_of l; b ← join_columns_of r; Ok (a ++ b)
  | CaseExpr c l r => x ← join_columns_of c; a ← join_columns_of l; b ← join_columns_of r; Ok (x ++ a ++ b)
  | UnaryArithmeticExpr _ c | IntToFloatConversionExpr c | ExtractExpr c | RegexpMatchingExpr c _ | EnumInExpr c _ =>
      join_columns_of c
  | AggregateExpr _ _ => Throw "Aggregates cannot appear in join predicates."
  | VirtualColumnRefExpr _ _ _ => Throw "Virtual column references cannot appear in join predicates."
  end.

Fixpoint scan_columns_of (e : Expression) : Res (list Z) :=
  match e with
  | ColumnRefExpr _ _ _ _ => Throw "Column references cannot appear in scan/select predicates."
  | LiteralExpr _ _ => Ok []
  | BinaryArithmeticExpr _ l r => a ← scan_columns_of l; b ← scan_columns_of r; Ok (a ++ b)
  | CaseExpr c l r => x ← scan_columns_of c; a ← scan_columns_of l; b ← scan_columns_of r; Ok (x ++ a ++ b)
  | UnaryArithmeticExpr _ c | IntToFloatConversionExpr c | ExtractExpr c | RegexpMatchingExpr c _ | EnumInExpr c _ =>
      scan_columns_of c
  | AggregateExpr _ _ => Throw "Aggregates cannot appear in join predicates."
  | VirtualColumnRefExpr _ _ col => Ok [col]
  end.

(** The first reference of each column; [exists_] holds those seen. *)
Fixpoint dedupe {A} `{Countable A} (exists_ : gset A) (l : list A) : list A :=
  match l with
  | [] => []
  | x :: l => if decide (x ∈ exists_) then dedupe exists_ l else x :: dedupe ({[x]} ∪ exists_) l
  end.

Definition PredicateColumns (e : Expression) : Res (list (Z * Z)) := l ← join_columns_of e; Ok (dedupe ∅ l).
Definition ScanSelectPredicateColumns (e : Expression) : Res (list Z) := l ← scan_columns_of e; Ok (dedupe ∅ l).

(** ** Scans with filters *)

(** [SchemaValues::PopulateWithNotNull] *)
Definition PopulateWithNotNull (s : OperatorSchema) : Res row :=
  mapM (fun c => t ← Type_ (col_expr c); Ok (MkSQL (null_value t) false)) (columns s).

(** The columns of a list that are not loaded yet, read for tuple [i]. *)
Fixpoint load_columns (b : DiskMaterializedBuffer) (i : Z) (cols : list Z) (virtual_values : row) (loaded_cols : gset Z)
    : Res (row * gset Z) :=
  match cols with
  | [] => Ok (virtual_values, loaded_cols)
  | col_idx :: cols =>
      if decide (col_idx ∈ loaded_cols) then load_columns b i cols virtual_values loaded_cols
      else
        v ← Buffer_Get b i col_idx;
        virtual_values ← vec_set virtual_values col_idx v;
        load_columns b i cols virtual_values ({[col_idx]} ∪ loaded_cols)
  end.

(** [proxy::If(cond, continue)]: the code behind it is generated all the same, so its
    translation errors show. *)
Definition continue_if {A} (cond : bool) (rest : Res (option A)) : Res (option A) :=
  if cond then match rest with Throw e => Throw e | _ => Ok None end else rest.

(** The rest of the columns and the output columns, for a tuple that passed. *)
Definition emit_tuple (b : DiskMaterializedBuffer) (out_columns : list Expression) (i : Z)
    (virtual_values : row) (loaded_cols : gset Z) : Res (option row) :=
  '(virtual_values, _) ← load_columns b i (seqZ 0 (vec_size (column_data b))) virtual_values loaded_cols;
  values ← compute_columns enum_key like (MkEnv [] virtual_values) out_columns;
  Ok (Some values).

Fixpoint filter_tuple (b : DiskMaterializedBuffer) (out_columns : list Expression) (i : Z) (filters : list Expression)
    (virtual_values : row) (loaded_cols : gset Z) : Res (option row) :=
  match filters with
  | [] => emit_tuple b out_columns i virtual_values loaded_cols
  | condition :: filters =>
      cols ← ScanSelectPredicateColumns condition;
      '(virtual_values, loaded_cols) ← load_columns b i cols virtual_values loaded_cols;
      value ← Compute_ enum_key like (MkEnv [] virtual_values) condition;
      x ← match sv_value value with VBool x => Ok x | _ => UB end;
      continue_if (sv_null value) (continue_if (negb x)
        (filter_tuple b out_columns i filters virtual_values loaded_cols))
  end.

(** [ScanSelectTranslator::Produce] *)
Definition scan_select_body (b : DiskMaterializedBuffer) (s scan_schema : OperatorSchema) (filters : list Expression)
    (out : list row) (start end_ : Z) : Res (list row) :=
  tuple_loop (tuple_fuel start end_) (fun out i =>
    virtual_values ← PopulateWithNotNull scan_schema;
    r ← filter_tuple b (exprs s) i filters virtual_values ∅;
    Ok (out ++ option_list r)) start end_ out.

Definition scan_select (s scan_schema : OperatorSchema) (t : Table) (filters : list Expression) : Res (list row) :=
  b ← GenerateBuffer t scan_schema;
  n ← Buffer_Size b;
  ExecuteSplitPipelineStatic (scan_select_body b s scan_schema filters) [] n.
End Model.

(** ** Loops over tuples *)
Lemma tuple_loop_fold {S} fuel (body : S -> Z -> Res S) : forall i end_ s, - 2 ^ 31 <= i -> end_ < 2 ^ 31 - 1 ->
  Z.max 0 (end_ - i + 1) < Z.of_nat fuel -> tuple_loop fuel body i end_ s = foldM body s (seqZ i (end_ - i + 1)).
Proof.
  induction fuel as [|fuel IH]; intros i end_ s Hi He Hf.
  { lia. }
  cbn [tuple_loop]. destruct (Z.leb_spec i end_) as [Hle|Hgt]; [|by rewrite seqZ_nil by lia].
  rewrite seqZ_cons by lia. cbn [foldM]. destruct (body s i) as [s'| | |]; cbn [mbind Res_bind]; [|done..].
  assert (i32 (i + 1) = i + 1) as -> by (apply sw_id; [lia|unfold is_sw; cbn; lia]). rewrite IH by lia. f_equal. f_equal; lia.
Qed.

Lemma tuple_loop_all {S} (body : S -> Z -> Res S) start end_ s : - 2 ^ 31 <= start -> end_ < 2 ^ 31 - 1 ->
  tuple_loop (tuple_fuel start end_) body start end_ s = foldM body s (seqZ start (end_ - start + 1)).
Proof. intros. apply tuple_loop_fold; [done..|]. unfold tuple_fuel. lia. Qed.

(** A pipeline whose body handles the tuples of its chunk one by one handles all tuples
    of its input one by one. *)
Lemma static_tuples {S} (body : S -> Z -> Z -> Res S) (step : S -> Z -> Res S) s n : 0 <= n <= 2 ^ 31 - CHUNK_SIZE ->
  (forall s a b, 0 <= a <= b -> b < n -> body s a b = foldM step s (seqZ a (b - a + 1))) ->
  ExecuteSplitPipelineStatic body s n = foldM step s (seqZ 0 n).
Proof.
  intros Hn Hb. rewrite static_chunks by done.
  assert (forall fuel s next, 0 <= next -> n - next <= Z.of_nat fuel ->
    run_chunks body s (chunks fuel next n) = foldM step s (seqZ next (n - next))) as H.
  { unfold CHUNK_SIZE in *. induction fuel as [|fuel IH]; intros s' next H0 Hf; cbn [chunks run_chunks].
    { by rewrite seqZ_nil by lia. }
    destruct (Z.ltb_spec next n) as [Hlt|Hge]; cbn [run_chunks]; [|by rewrite seqZ_nil by lia].
    set (e := Z.min _ _). assert (next <= e < n) by (unfold CHUNK_SIZE in e; lia).
    rewrite Hb by lia.
    replace (n - next) with (e - next + 1 + (n - (e + 1))) by lia. rewrite (seqZ_app _ _ (n - (e + 1))), foldM_app by lia.
    replace (next + (e - next + 1)) with (e + 1) by lia.
    destruct (foldM step s' _) as [s0| | |]; cbn [mbind Res_bind]; [|done..]. apply IH; lia. }
  rewrite H by lia. by rewrite Z.sub_0_r.
Qed.

(** Emitting a list of rows for every tuple. *)
Lemma emit_tuples {A B} (step : list B -> Z -> Res (list B)) (L : list A) (g : A -> list B) :
  (forall out i x, L !! i = Some x -> step out (Z.of_nat i) = Ok (out ++ g x)) ->
  foldM step [] (seqZ 0 (vec_size L)) = Ok (L ≫= g).
Proof.
  intros Hs. assert (forall l k out, (forall i x, l !! i = Some x -> L !! (k + i)%nat = Some x) ->
    foldM step out (seqZ (Z.of_nat k) (vec_size l)) = Ok (out ++ (l ≫= g))) as H.
  { induction l as [|x l IH]; intros k out Hl; [by rewrite app_nil_r|].
    unfold vec_size. cbn [length]. rewrite seqZ_cons by lia. cbn [foldM].
    rewrite (Hs out k x) by (rewrite <- (Hl 0%nat x eq_refl); f_equal; lia). cbn [mbind Res_bind].
    replace (Z.succ (Z.of_nat k)) with (Z.of_nat (Datatypes.S k)) by lia. replace (Z.pred (Z.of_nat (Datatypes.S (length l)))) with (vec_size l) by (unfold vec_size; lia).
    rewrite IH; [|intros i y Hi; rewrite <- (Hl (Datatypes.S i) y Hi); f_equal; lia]. by rewrite <- (assoc_L (++)). }
  apply (H L 0%nat []). intros i x Hi. exact Hi.
Qed.

(** ** Tables and their files *)
Section Stored.
Context (Path NullPath : CatalogColumn -> list Z).

Definition data_of (c : CatalogColumn) : Iterable := MkIterable (cc_type c) (Path c).
Definition nulls_of (c : CatalogColumn) : option Iterable :=
  if cc_nullable c then Some (MkIterable Boolean (NullPath c)) else None.

(** The files hold the column at position [j] of the rows. *)
Record column_stored (rows : list row) (j : nat) (c : CatalogColumn) : Prop := {
  cs_size : Iterable_Size (data_of c) = Ok (vec_size rows);
  cs_row i r : rows !! i = Some r -> exists v, r !! j = Some v /\ sv_type v = cc_type c /\
    Iterable_at (data_of c) (Z.of_nat i) = Ok (sv_value v) /\ null_at (nulls_of c) (Z.of_nat i) = Ok (sv_null v);
}.

Definition table_stored (t : Table) (rows : list row) : Prop :=
  forall j c, table_columns t !! j = Some c -> column_stored rows j c.

(** A schema of columns of the table, at their types. *)
Definition scan_column (t : Table) (col : Column) : Prop :=
  exists j c, list_find (fun c => cc_name c = col_name col) (table_columns t) = Some (j, c) /\
    Type_ (col_expr col) = Ok (cc_type c).
Definition scan_schema_ok (t : Table) (s : OperatorSchema) : Prop :=
  columns s <> [] /\ Forall (scan_column t) (columns s).

Definition cat_of (t : Table) (col : Column) : CatalogColumn :=
  match Table_at t (col_name col) with Ok c => c | _ => MkCatCol "" Boolean false end.
Definition buffer_of (t : Table) (s : OperatorSchema) : DiskMaterializedBuffer :=
  MkBuffer (data_of ∘ cat_of t <$> columns s) (nulls_of ∘ cat_of t <$> columns s).

Lemma GenerateBuffer_ok t s : Forall (scan_column t) (columns s) -> GenerateBuffer Path NullPath t s = Ok (buffer_of t s).
Proof.
  intros Hs. unfold GenerateBuffer, buffer_of.
  assert (forall cols b, Forall (scan_column t) cols -> foldM (generate_column Path NullPath t) b cols =
    Ok (MkBuffer (column_data b ++ (data_of ∘ cat_of t <$> cols)) (null_data b ++ (nulls_of ∘ cat_of t <$> cols)))) as H.
  { induction cols as [|col cols IH]; intros [d n] Hc; cbn [foldM]; [by rewrite !app_nil_r|].
    apply list.Forall_cons in Hc as [(j & c & Hf & Ht) Hc]. 
    assert (Table_at t (col_name col) = Ok c) as Ha by (unfold Table_at; by rewrite Hf).
    assert (generate_column Path NullPath t (MkBuffer d n) col = Ok (MkBuffer (d ++ [data_of c]) (n ++ [nulls_of c]))) as ->.
    { unfold generate_column. by rewrite Ht, Ha. }
    cbn [mbind Res_bind]. rewrite IH by done. cbn [column_data null_data].
    rewrite <- !(assoc_L (++)). cbn. unfold compose, cat_of. by rewrite Ha. }
  by rewrite H.
Qed.

Context (t : Table) (rows : list row) (Hst : table_stored t rows) (s : OperatorSchema) (Hs : scan_schema_ok t s).

Lemma scan_column_at k col : columns s !! k = Some col -> exists j c,
  list_find (fun c => cc_name c = col_name col) (table_columns t) = Some (j, c) /\ cat_of t col = c /\
  Type_ (col_expr col) = Ok (cc_type c) /\ column_stored rows j c.
Proof.
  intros Hk. destruct Hs as [_ Hcols]. eapply list.Forall_lookup_1 in Hcols as (j & c & Hf & Ht); [|exact Hk].
  exists j, c. split_and!; [done|unfold cat_of, Table_at; by rewrite Hf|done|]. apply Hst. by apply list_find_Some in Hf as [? _].
Qed.

Lemma Buffer_Size_ok : Buffer_Size (buffer_of t s) = Ok (vec_size rows).
Proof.
  unfold Buffer_Size, buffer_of. cbn [column_data]. pose proof Hs as [Hne _]. destruct (columns s) as [|col cols] eqn:E; [done|].
  destruct (scan_column_at 0 col) as (j & c & _ & Hc & _ & Hcs); [by rewrite E|]. cbn. rewrite Hc. apply (cs_size _ _ _ Hcs).
Qed.

Lemma Buffer_Get_ok i r k col : rows !! i = Some r -> columns s !! k = Some col ->
  Buffer_Get (buffer_of t s) (Z.of_nat i) (Z.of_nat k) = Ok (scan_value t r (col_name col)).
Proof.
  intros Hi Hk. destruct (scan_column_at k col Hk) as (j & c & Hf & Hc & _ & Hcs).
  destruct (cs_row _ _ _ Hcs i r Hi) as (v & Hj & _ & Hv & Hn).
  unfold Buffer_Get, buffer_of. cbn [column_data null_data].
  rewrite (vec_at_nat _ k (data_of c)) by (rewrite list_lookup_fmap, Hk; cbn; by rewrite Hc). cbn [mbind Res_bind].
  rewrite (vec_at_nat _ k (nulls_of c)) by (rewrite list_lookup_fmap, Hk; cbn; by rewrite Hc). cbn [mbind Res_bind]. rewrite Hn. cbn [mbind Res_bind].
  rewrite Hv. cbn [mbind Res_bind]. f_equal. unfold scan_value. rewrite Hf. cbn. rewrite Hj. by destruct v.
Qed.

Lemma scan_row_lookup r k : scan_row t s r !! k = (fun col => scan_value t r (col_name col)) <$> columns s !! k.
Proof. unfold scan_row. by rewrite list_lookup_fmap. Qed.

Lemma Buffer_columns : vec_size (column_data (buffer_of t s)) = vec_size (columns s).
Proof. unfold buffer_of, vec_size. cbn. by rewrite length_fmap. Qed.

Lemma Buffer_row_ok i r : rows !! i = Some r -> Buffer_row (buffer_of t s) (Z.of_nat i) = Ok (scan_row t s r).
Proof.
  intros Hi. unfold Buffer_row. rewrite Buffer_columns.
  assert (forall cols k, (forall n col, cols !! n = Some col -> columns s !! (k + n)%nat = Some col) ->
    mapM (Buffer_Get (buffer_of t s) (Z.of_nat i)) (seqZ (Z.of_nat k) (vec_size cols)) =
    Ok ((fun col => scan_value t r (col_name col)) <$> cols)) as H.
  { induction cols as [|col cols IH]; intros k Hc; [done|]. unfold vec_size. cbn [length]. rewrite seqZ_cons by lia. cbn [mapM].
    rewrite (Buffer_Get_ok i r k col Hi) by (rewrite <- (Hc 0%nat col eq_refl); f_equal; lia). cbn [mbind Res_bind].
    replace (Z.succ (Z.of_nat k)) with (Z.of_nat (Datatypes.S k)) by lia.
    replace (Z.pred (Z.of_nat (Datatypes.S (length cols)))) with (vec_size cols) by (unfold vec_size; lia).
    rewrite IH; [done|]. intros n col' Hn. rewrite <- (Hc (Datatypes.S n) col' Hn). f_equal. lia. }
  apply (H (columns s) 0%nat). intros n col Hn. exact Hn.
Qed.
End Stored.

(** ** Columns of a predicate *)
Lemma elem_of_dedupe {A} `{Countable A} (l : list A) : forall s x, x ∈ dedupe s l <-> x ∈ l /\ x ∉ s.
Proof.
  induction l as [|y l IH]; intros s x; cbn [dedupe]; [split; [by intros ?%elem_of_nil|by intros [?%elem_of_nil _]]|].
  destruct (decide (y ∈ s)) as [Hy|Hy]; [|rewrite elem_of_cons]; rewrite IH, elem_of_cons; [|rewrite not_elem_of_union, not_elem_of_singleton].
  - split; [naive_solver|]. by intros [[->|] ?].
  - destruct (decide (x = y)) as [->|]; naive_solver.
Qed.

Lemma NoDup_dedupe {A} `{Countable A} (l : list A) : forall s, NoDup (dedupe s l).
Proof.
  induction l as [|y l IH]; intros s; cbn [dedupe]; [constructor|]. destruct (decide (y ∈ s)); [apply IH|].
  constructor; [|apply IH]. rewrite elem_of_dedupe. set_solver.
Qed.

(** Rows without children: the columns of a predicate over them are there. *)
Lemma scan_columns_ok full e : translatable e = true -> refs_ok (MkEnv [] full) e ->
  exists l, scan_columns_of e = Ok l /\ forall c, c ∈ l -> exists v, vec_at full c = Ok v.
Proof.
  induction e; cbn [translatable refs_ok scan_columns_of]; intros Ht Hr; try discriminate Ht.
  all: repeat match goal with H : _ && _ = true |- _ => apply andb_true_iff in H as [? ?] end.
  all: repeat match goal with H : _ /\ _ |- _ => destruct H as [? ?] end.
  all: repeat match goal with
    IH : ?P -> ?Q -> exists l, _, H1 : ?P, H2 : ?Q |- _ => destruct (IH H1 H2) as (? & ? & ?); clear IH end.
  all: repeat match goal with H : scan_columns_of _ = _ |- _ => rewrite H; clear H; cbn [mbind Res_bind] end.
  all: try (eexists; split; [done|]; done).
  all: try (eexists; split; [done|]; intros; rewrite ?elem_of_app in *; naive_solver).
  - eexists. split; [done|]. by intros ? ?%elem_of_nil.
  - destruct Hr as (rw & v & Hrw & _). apply vec_at_Ok in Hrw as [_ Hrw]. discriminate Hrw.
  - destruct Hr as (v & Hv & _). eexists. split; [done|]. intros c ->%list_elem_of_singleton. eauto.
Qed.

(** A predicate computes the same where its columns agree. *)
Lemma compute_agree enum_key like v1 v2 e : forall l, scan_columns_of e = Ok l ->
  (forall c, c ∈ l -> vec_at v1 c = vec_at v2 c) ->
  Compute_ enum_key like (MkEnv [] v1) e = Compute_ enum_key like (MkEnv [] v2) e.
Proof.
  induction e; cbn [scan_columns_of Compute_]; intros cols Hc Hv; try discriminate Hc; try done.
  all: ok_inv; subst; setoid_rewrite elem_of_app in Hv || idtac.
  all: repeat match goal with IH : forall l, _ -> _ -> Compute_ _ _ _ ?e = _, H : scan_columns_of ?e = Ok ?l |- _ =>
    rewrite (IH l H) by (intros; apply Hv; rewrite ?elem_of_app; auto); clear IH end.
  all: try done.
  - apply Hv. by left.
Qed.

Section Correct.
Context (enum_key : Z -> Z -> list Z) (like : list Z -> list Z -> bool) (Path NullPath : CatalogColumn -> list Z).
Context (t : Table) (rows : list row) (Hst : table_stored Path NullPath t rows).

Section Filters.
Context (s : OperatorSchema) (Hs : scan_schema_ok t s) (i : nat) (r : row) (Hi : rows !! i = Some r).
Let full := scan_row t s r.
Let b := buffer_of Path NullPath t s.

(** The loaded columns hold the values of the tuple. *)
Definition agrees (virtual_values : row) (loaded_cols : gset Z) : Prop :=
  length virtual_values = length full /\ forall c, c ∈ loaded_cols -> vec_at virtual_values c = vec_at full c.

Lemma load_columns_ok cols : forall virtual_values loaded_cols, agrees virtual_values loaded_cols ->
  (forall c, c ∈ cols -> exists v, vec_at full c = Ok v) ->
  exists virtual_values', load_columns b (Z.of_nat i) cols virtual_values loaded_cols =
      Ok (virtual_values', list_to_set cols ∪ loaded_cols) /\ agrees virtual_values' (list_to_set cols ∪ loaded_cols).
Proof.
  induction cols as [|c cols IH]; intros vv lc Ha Hc; cbn [load_columns list_to_set].
  { rewrite (left_id_L ∅ (∪)). by exists vv. }
  destruct (decide (c ∈ lc)) as [Hin|Hin].
  { replace ({[c]} ∪ list_to_set cols ∪ lc) with (list_to_set cols ∪ lc : gset Z) by set_solver.
    apply IH; [done|]. intros. apply Hc. by right. }
  destruct (Hc c ltac:(by left)) as [v Hv]. pose proof (proj1 (vec_at_Ok _ _ _) Hv) as [H0 Hl].
  assert (exists col, columns s !! Z.to_nat c = Some col /\ v = scan_value t r (col_name col)) as (col & Hcol & ->).
  { unfold full in Hl. rewrite scan_row_lookup in Hl. apply fmap_Some in Hl as (col & ? & ->). eauto. }
  assert (Buffer_Get b (Z.of_nat i) c = Ok (scan_value t r (col_name col))) as ->.
  { rewrite <- (Z2Nat.id c) by done. by apply Buffer_Get_ok with (rows := rows). }
  cbn [mbind Res_bind]. destruct Ha as [Hlen Ha].
  assert (Z.to_nat c < length vv)%nat as Hlt by (rewrite Hlen; by eapply lookup_lt_Some).
  rewrite (proj2 (vec_set_Ok vv c _ (<[Z.to_nat c := scan_value t r (col_name col)]> vv))) by (split; [unfold vec_size; lia|done]).
  cbn [mbind Res_bind].
  destruct (IH (<[Z.to_nat c := scan_value t r (col_name col)]> vv) ({[c]} ∪ lc)) as (vv' & Hv' & Ha').
  - split; [by rewrite length_insert|]. intros c' Hc'. destruct (decide (c' = c)) as [->|Hne].
    + rewrite Hv. apply vec_at_Ok. split; [done|]. by apply list_lookup_insert_eq.
    + rewrite <- Ha by set_solver. unfold vec_at. destruct (Z.ltb_spec c' 0); [done|].
      by rewrite list_lookup_insert_ne by lia.
  - intros. apply Hc. by right.
  - exists vv'. replace ({[c]} ∪ list_to_set cols ∪ lc) with (list_to_set cols ∪ ({[c]} ∪ lc) : gset Z) by set_solver. done.
Qed.

Lemma agrees_all vv lc : agrees vv lc -> (forall k, (k < length full)%nat -> Z.of_nat k ∈ lc) -> vv = full.
Proof.
  intros [Hl Ha] Hall. apply list_eq. intros k. destruct (decide (k < length full)%nat) as [Hk|Hk].
  - destruct (lookup_lt_is_Some_2 full k Hk) as [v Hv]. pose proof (Ha _ (Hall k Hk)) as He. rewrite (vec_at_nat full k v Hv) in He.
    apply vec_at_Ok in He as [_ He]. rewrite Nat2Z.id in He. by rewrite Hv, He.
  - rewrite !lookup_ge_None_2 by lia. done.
Qed.

Lemma emit_tuple_ok out_columns vv lc : agrees vv lc -> Forall (column_ok (MkEnv [] full)) out_columns ->
  emit_tuple enum_key like b out_columns (Z.of_nat i) vv lc = Ok (Some (column_values enum_key like (MkEnv [] full) out_columns)).
Proof.
  intros Ha Hout. unfold emit_tuple. assert (vec_size (column_data b) = vec_size full) as ->.
  { unfold b. rewrite Buffer_columns. unfold full, scan_row, vec_size. by rewrite length_fmap. }
  destruct (load_columns_ok (seqZ 0 (vec_size full)) vv lc Ha) as (vv' & -> & Ha').
  { intros c Hc%elem_of_seqZ. unfold vec_size in Hc. destruct (lookup_lt_is_Some_2 full (Z.to_nat c)) as [v Hv]; [lia|].
    exists v. apply vec_at_Ok. split; [lia|done]. }
  cbn [mbind Res_bind]. apply agrees_all in Ha' as ->; [by rewrite compute_columns_ok|].
  intros k Hk. apply elem_of_union. left. apply elem_of_list_to_set, elem_of_seqZ. unfold vec_size. lia.
Qed.

(** A tuple passes the filters, each computed with the columns loaded so far, iff its
    whole row does. *)
Lemma filter_tuple_ok out_columns filters : forall vv lc, agrees vv lc -> Forall (column_ok (MkEnv [] full)) out_columns ->
  Forall (fun e => boolean_expr e /\ refs_ok (MkEnv [] full) e) filters ->
  filter_tuple enum_key like b out_columns (Z.of_nat i) filters vv lc =
  Ok (if all_accepted enum_key like (MkEnv [] full) filters then Some (column_values enum_key like (MkEnv [] full) out_columns) else None).
Proof.
  induction filters as [|e filters IH]; intros vv lc Ha Hout Hf; cbn [filter_tuple]; [by apply emit_tuple_ok|].
  apply list.Forall_cons in Hf as [[He Hr] Hf]. unfold ScanSelectPredicateColumns.
  destruct (scan_columns_ok full e (proj1 He) Hr) as (l & Hl & Hv). rewrite Hl. cbn [mbind Res_bind].
  destruct (load_columns_ok (dedupe ∅ l) vv lc Ha) as (vv' & -> & Ha').
  { intros c [Hc _]%elem_of_dedupe. by apply Hv. }
  cbn [mbind Res_bind].
  rewrite (compute_agree enum_key like vv' full e l Hl).
  2: { intros c Hc. apply Ha'. apply elem_of_union. left. apply elem_of_list_to_set, elem_of_dedupe. set_solver. }
  destruct (boolean_value enum_key like (MkEnv [] full) e He Hr) as ([v n] & Hval & Ht). rewrite Hval.
  destruct v; try discriminate Ht. cbn [mbind Res_bind sv_value sv_null].
  rewrite IH by done. cbn [all_accepted forallb]. unfold all_accepted. cbn [forallb].
  assert (accepted enum_key like (MkEnv [] full) e = negb n && b0) as ->; [|by destruct n, b0].
  unfold accepted. rewrite Hval. by destruct n, b0.
Qed.
End Filters.
End Correct.

(** ** Scans compute what the plan says *)

Lemma bind_singletons {A B} (g : A -> B) (l : list A) : l ≫= (fun x => [g x]) = g <$> l.
Proof. induction l as [|x l IH]; [done|]. cbn. by f_equal. Qed.

(** A scan emits the rows of its table, restricted to the columns of its schema and
    read from their files value by value, in the order of the table, once each, for
    every number of tuples the loops of the pipeline can count. *)
Theorem scan_correct enum_key like table_rows Path NullPath t s :
  table_stored Path NullPath t (table_rows t) -> scan_schema_ok t s -> vec_size (table_rows t) <= 2 ^ 31 - CHUNK_SIZE ->
  scan Path NullPath t s = Ok (denote enum_key like table_rows (ScanOperator s t)).
Proof.
  intros Hst Hs Hn. unfold scan. rewrite GenerateBuffer_ok by apply Hs. cbn [mbind Res_bind].
  rewrite (Buffer_Size_ok Path NullPath t (table_rows t)) by done. cbn [mbind Res_bind denote].
  rewrite (static_tuples _ (fun out i => values ← Buffer_row (buffer_of Path NullPath t s) i; Ok (out ++ [values]))).
  - rewrite (emit_tuples _ (table_rows t) (fun r => [scan_row t s r])); [by rewrite bind_singletons|].
    intros out i r Hr. by rewrite (Buffer_row_ok Path NullPath t (table_rows t)) with (r := r).
  - unfold vec_size in *. lia.
  - intros out a e Ha He. apply tuple_loop_all; unfold CHUNK_SIZE in *; lia.
Qed.

Lemma populate_ok t s : Forall (scan_column t) (columns s) ->
  exists vv, PopulateWithNotNull s = Ok vv /\ length vv = length (columns s).
Proof.
  unfold PopulateWithNotNull. induction 1 as [|col cols (j & c & _ & Ht) _ IH]; cbn [mapM]; [by exists []|].
  rewrite Ht. cbn [mbind Res_bind]. destruct IH as (vv & -> & Hl). eexists. split; [done|]. cbn. by rewrite Hl.
Qed.

(** C17. A scan with filters emits the output columns of exactly those rows that all
    filters accept on their whole row: that it reads a column only when the first
    filter over it is reached, and starts every row from placeholders, shows in
    nothing it emits. *)
Theorem scan_select_correct enum_key like table_rows Path NullPath t s scan_schema filters :
  table_stored Path NullPath t (table_rows t) -> scan_schema_ok t scan_schema ->
  vec_size (table_rows t) <= 2 ^ 31 - CHUNK_SIZE ->
  (forall r, r ∈ table_rows t -> let env := MkEnv [] (scan_row t scan_schema r) in
    Forall (fun e => boolean_expr e /\ refs_ok env e) filters /\ Forall (column_ok env) (exprs s)) ->
  scan_select enum_key like Path NullPath s scan_schema t filters =
  Ok (denote enum_key like table_rows (ScanSelectOperator s scan_schema t filters)).
Proof.
  intros Hst Hs Hn Hok. unfold scan_select. rewrite GenerateBuffer_ok by apply Hs. cbn [mbind Res_bind].
  rewrite (Buffer_Size_ok Path NullPath t (table_rows t)) by done. cbn [mbind Res_bind denote].
  set (b := buffer_of Path NullPath t scan_schema).
  destruct (populate_ok t scan_schema (proj2 Hs)) as (vv & Hvv & Hlen).
  rewrite (static_tuples _ (fun out i => virtual_values ← PopulateWithNotNull scan_schema;
    r ← filter_tuple enum_key like b (exprs s) i filters virtual_values ∅; Ok (out ++ option_list r))).
  - rewrite (emit_tuples _ (table_rows t) (fun r => let env := MkEnv [] (scan_row t scan_schema r) in
      if all_accepted enum_key like env filters then [output enum_key like env s] else [])).
    + f_equal. by rewrite list_fmap_bind.
    + intros out i r Hr. rewrite Hvv. cbn [mbind Res_bind]. destruct (Hok r) as [Hf Ho]; [by eapply list_elem_of_lookup_2|].
      unfold b. rewrite (filter_tuple_ok enum_key like Path NullPath t (table_rows t)) with (r := r); try done; [by case_match|].
      split; [|set_solver]. rewrite Hlen. unfold scan_row. by rewrite length_fmap.
  - unfold vec_size in *. lia.
  - intros out a e Ha He. apply tuple_loop_all; unfold CHUNK_SIZE in *; lia.
Qed.

(** A scan without columns has no first column to take the number of tuples from. *)
Lemma scan_no_columns Path NullPath t : scan Path NullPath t OperatorSchema_new = UB.
Proof. done. Qed.

(** ** Columns written by [ColumnData::Serialize] *)
Definition column_width (t : SqlType) : nat :=
  match type_id t with SMALLINT => 2 | INT | DATE | ENUM => 4 | BIGINT | REAL => 8 | BOOLEAN => 1 | TEXT => 0 end.
Definition raw_value (t : SqlType) (z : Z) : IRValue :=
  match type_id t with
  | SMALLINT => VInt16 z | INT => VInt32 z | BIGINT => VInt64 z | DATE => VDate z | ENUM => VEnum (enum_id t) z
  | REAL => VFloat64 (F_of_bits z) | BOOLEAN => VBool (z =? 1) | TEXT => VString []
  end.
Definition raw_ok (t : SqlType) (z : Z) : Prop :=
  match type_id t with
  | REAL => is_uw 64 z | BOOLEAN => z = 0 \/ z = 1 | _ => is_sw (8 * Z.of_nat (column_width t)) z
  end.

Lemma serialize_bits w zs f i z : Serialize w [] zs = Ok f -> zs !! i = Some z -> GetBits w f (Z.of_nat i) = Ok (z mod 256 ^ Z.of_nat w).
Proof.
  intros Hf Hi. assert (column_length w zs <> 0) as Hne by (unfold Serialize in Hf; by destruct (Z.eqb_spec (column_length w zs) 0)).
  destruct (Serialize_holds w [] zs Hne) as (f' & Hf' & _ & Hh). rewrite Hf in Hf'. injection Hf' as <-.
  unfold GetBits. pose proof (holds_element w f zs 0 i z Hh Hi) as Hz. rewrite Z.add_0_l in Hz. by apply holds_le.
Qed.

(** The file of a column of a fixed width holds its values. *)
Lemma fixed_column t zs f : type_id t <> TEXT -> vec_size zs < 2 ^ 31 -> Forall (raw_ok t) zs ->
  Serialize (column_width t) [] zs = Ok f ->
  Iterable_Size (MkIterable t f) = Ok (vec_size zs) /\
  forall i z, zs !! i = Some z -> Iterable_at (MkIterable t f) (Z.of_nat i) = Ok (raw_value t z).
Proof.
  intros Ht Hn Hr Hf. assert (column_length (column_width t) zs <> 0) as Hne.
  { unfold Serialize in Hf. by destruct (Z.eqb_spec (column_length (column_width t) zs) 0). }
  split.
  - destruct (Serialize_holds (column_width t) [] zs Hne) as (f' & Hf' & Hs & _). rewrite Hf in Hf'. injection Hf' as <-.
    unfold Iterable_Size. cbn [it_type it_file].
    assert (forall w, (0 < w)%nat -> column_width t = w -> SizeFixed w f = vec_size zs) as Hsize.
    { intros w Hw Ew. unfold SizeFixed. rewrite Hs, Ew. unfold column_length, vec_size in *. cbn [length].
      rewrite Z.max_l by lia. rewrite Z.mul_comm, Z.div_mul by lia. apply sw_id; [lia|]. unfold is_sw. cbn. lia. }
    unfold SizeInt8, SizeInt16, SizeInt32, SizeInt64, SizeFloat64.
    unfold column_width in Hsize. destruct (type_id t); try done; by rewrite Hsize by (done || lia).
  - intros i z Hi. pose proof (serialize_bits _ _ _ i z Hf Hi) as Hb. eapply list.Forall_lookup_1 in Hr as Hz; [|exact Hi].
    unfold Iterable_at, raw_value, raw_ok in *. cbn [it_type it_file].
    unfold GetInt8, GetInt16, GetInt32, GetInt64, GetFloat64, GetSigned. unfold column_width in Hb, Hz.
    destruct (type_id t); try done; rewrite Hb; cbn [mbind Res_bind].
    1-3, 5, 7: rewrite wrap_bits, sw_id by (done || lia); done.
    + change (256 ^ Z.of_nat 8) with (2 ^ 64). by rewrite Z.mod_small.
    + by destruct Hz as [-> | ->].
Qed.

(** The files of a column, written from the values of the rows: numbers of a fixed width
    or strings, and a column of truth values for the nulls. *)
Definition values_written (t : SqlType) (f : list Z) (vs : list IRValue) : Prop :=
  if decide (type_id t = TEXT)
  then exists ss, vs = VString <$> ss /\ text_length ss < 2 ^ 64 /\ Forall (fun s => vec_size s < 2 ^ 31 - 1) ss /\ SerializeText [] ss = Ok f
  else exists zs, vs = raw_value t <$> zs /\ Forall (raw_ok t) zs /\ Serialize (column_width t) [] zs = Ok f.

Lemma values_written_ok t f vs : values_written t f vs -> vec_size vs < 2 ^ 31 ->
  Iterable_Size (MkIterable t f) = Ok (vec_size vs) /\
  forall i v, vs !! i = Some v -> Iterable_at (MkIterable t f) (Z.of_nat i) = Ok v.
Proof.
  unfold values_written. destruct (decide _) as [Ht|Ht].
  - intros (ss & -> & Htl & Hs & Hf) Hn. unfold vec_size in *. rewrite length_fmap in *.
    destruct (text_roundtrip [] ss) as (f' & Hf' & Hsz & Hg); [unfold vec_size; lia|done|done|]. rewrite Hf in Hf'. injection Hf' as <-.
    unfold Iterable_Size, Iterable_at. cbn [it_type it_file]. rewrite Ht. split; [done|].
    intros i v Hi. rewrite list_lookup_fmap in Hi. apply fmap_Some in Hi as (s & Hi & ->). by rewrite (Hg i s Hi).
  - intros (zs & -> & Hr & Hf) Hn. unfold vec_size in *. rewrite length_fmap in *.
    destruct (fixed_column t zs f) as [Hs Hg]; [done|done|done|done|]. split; [done|].
    intros i v Hi. rewrite list_lookup_fmap in Hi. apply fmap_Some in Hi as (z & Hi & ->). by apply Hg.
Qed.

Definition column_written (Path NullPath : CatalogColumn -> list Z) (rows : list row) (j : nat) (c : CatalogColumn) : Prop :=
  exists vs, Forall2 (fun (r : row) v => r !! j = Some v /\ sv_type v = cc_type c /\ (cc_nullable c = false -> sv_null v = false)) rows vs /\
    values_written (cc_type c) (Path c) (sv_value <$> vs) /\
    (cc_nullable c = true -> values_written Boolean (NullPath c) ((fun v => VBool (sv_null v)) <$> vs)).

(** A table whose files were written from its rows stores them. *)
Lemma written_stored Path NullPath t rows : vec_size rows < 2 ^ 31 ->
  (forall j c, table_columns t !! j = Some c -> column_written Path NullPath rows j c) -> table_stored Path NullPath t rows.
Proof.
  intros Hn Hw j c Hj. destruct (Hw j c Hj) as (vs & Hvs & Hv & Hnull). pose proof (list.Forall2_length _ _ _ Hvs) as Hl.
  destruct (values_written_ok _ _ _ Hv) as [Hs Hg]; [unfold vec_size in *; rewrite length_fmap; lia|].
  split; [unfold data_of; rewrite Hs; unfold vec_size; by rewrite length_fmap, Hl|].
  intros i r Hi. destruct (list.Forall2_lookup_l _ _ _ _ _ Hvs Hi) as (v & Hvi & Hrj & Ht & Hnn).
  exists v. split_and!; [done|done| |].
  - apply Hg. by rewrite list_lookup_fmap, Hvi.
  - unfold nulls_of. destruct (cc_nullable c); [|by rewrite Hnn]. destruct (values_written_ok _ _ _ (Hnull eq_refl)) as [_ Hgn].
    { unfold vec_size in *. rewrite length_fmap. lia. }
    unfold null_at. rewrite (Hgn i (VBool (sv_null v))); [done|]. by rewrite list_lookup_fmap, Hvi.
Qed.

(** ** An example *)
Module ScanDemo.
Definition id_col : CatalogColumn := MkCatCol "id" (MkType INT 0) false.
Definition name_col : CatalogColumn := MkCatCol "name" (MkType TEXT 0) true.
Definition demo : Table := MkTable "demo" [id_col; name_col].
Definition demo_row (id : Z) (name : list Z) (null : bool) : row := [MkSQL (VInt32 id) false; MkSQL (VString name) null].
Definition demo_rows (_ : Table) : list row := [demo_row 7 [97; 98] false; demo_row (-1) [] true; demo_row 9 [99] false].
Definition file (r : Res (list Z)) : list Z := match r with Ok f => f | _ => [] end.
Definition demo_path (c : CatalogColumn) : list Z :=
  if decide (cc_name c = "id") then file (Serialize 4 [] [7; -1; 9]) else file (SerializeText [] [[97; 98]; []; [99]]).
Definition demo_nulls (_ : CatalogColumn) : list Z := file (Serialize 1 [] [0; 1; 0]).

Definition id_ref : Expression := VirtualColumnRefExpr (MkType INT 0) false 1.
Definition name_ref : Expression := VirtualColumnRefExpr (MkType TEXT 0) true 0.
(** The columns in another order than the table has them. *)
Definition demo_schema : OperatorSchema :=
  AddDerivedColumn (AddDerivedColumn OperatorSchema_new "name" (ColumnRefExpr (MkType TEXT 0) true 0 0))
    "id" (ColumnRefExpr (MkType INT 0) false 0 1).
Definition demo_output : OperatorSchema := AddDerivedColumn OperatorSchema_new "name" name_ref.
Definition positive : Expression := BinaryArithmeticExpr OpGT id_ref (LiteralExpr (VInt32 0) false).
Definition is_ab : Expression := BinaryArithmeticExpr OpEQ name_ref (LiteralExpr (VString [97; 98]) false).

Lemma demo_stored : table_stored demo_path demo_nulls demo (demo_rows demo).
Proof.
  apply written_stored; [done|]. intros j c Hj. destruct j as [|[|j]]; cbn in Hj; try done; injection Hj as <-.
  - exists [MkSQL (VInt32 7) false; MkSQL (VInt32 (-1)) false; MkSQL (VInt32 9) false]. split_and!; [by repeat constructor| |done].
    unfold values_written. cbn [decide]. rewrite decide_False by done. exists [7; -1; 9]. split_and!; [done| |reflexivity].
    repeat constructor; cbn; lia.
  - exists [MkSQL (VString [97; 98]) false; MkSQL (VString []) true; MkSQL (VString [99]) false]. split_and!; [by repeat constructor| |].
    + unfold values_written. rewrite decide_True by done. exists [[97; 98]; []; [99]]. split_and!; [done|reflexivity|repeat constructor|reflexivity].
    + intros _. unfold values_written. rewrite decide_False by done. exists [0; 1; 0]. split_and!; [done| |reflexivity].
      repeat constructor; cbn; lia.
Qed.

Lemma demo_schema_ok : scan_schema_ok demo demo_schema.
Proof. split; [done|]. repeat constructor; [by exists 1%nat, name_col|by exists 0%nat, id_col]. Qed.

Lemma scan_correct_witness : scan demo_path demo_nulls demo demo_schema =
  Ok [[MkSQL (VString [97; 98]) false; MkSQL (VInt32 7) false]; [MkSQL (VString []) true; MkSQL (VInt32 (-1)) false];
      [MkSQL (VString [99]) false; MkSQL (VInt32 9) false]].
Proof.
  apply (scan_correct (fun _ _ => []) (fun _ _ => true) demo_rows demo_path demo_nulls demo demo_schema);
    [exact demo_stored|exact demo_schema_ok|vm_compute; discriminate].
Defined.

Lemma scan_select_correct_witness :
  scan_select (fun _ _ => []) (fun _ _ => true) demo_path demo_nulls demo_output demo_schema demo [positive; is_ab] =
  Ok [[MkSQL (VString [97; 98]) false]].
Proof.
  apply (scan_select_correct (fun _ _ => []) (fun _ _ => true) demo_rows demo_path demo_nulls demo demo_output demo_schema [positive; is_ab]);
    [exact demo_stored|exact demo_schema_ok|vm_compute; discriminate|].
  intros r Hr. assert (exists id name null, r = demo_row id name null) as (id & name & null & ->).
  { repeat (apply elem_of_cons in Hr as [->|Hr]; [by eexists _, _, _|]). by apply elem_of_nil in Hr. }
  assert (fits (MkType TEXT 0) true (MkSQL (VString name) null) /\ fits (MkType INT 0) false (MkSQL (VInt32 id) false)) as [Hn Hid] by done.
  cbn [Compute_]. split; repeat constructor; cbn; eauto.
Defined.
End ScanDemo.
