(* ===== verification/SimdScan.v ===== *)
(** * Vectorised scans

    [SimdScanSelectTranslator] of src/compile/translators/simd_scan_select_translator.cc:
    eight tuples at a time are compared with constants, the positions of those that
    pass are compressed into a buffer through the permutation table, and the buffer is
    emitted when it fills up; the last tuples of a chunk are compared one by one.  The
    vector instructions are those of src/khir/llvm/llvm_backend.cc.  With a conjunction
    of filters this emits what the scan with the same filters emits; with a
    disjunction the last tuples are wrong. *)
From Stdlib Require Import SpecFloat.
From stdpp Require Import gmap strings.
From S2P Require Import Prelude ProgramBuilder Utilities SqlValue Struct Expression Joins Pipeline Plan ByteFile ColumnData Scan.
#[local] Open Scope Z_scope.

(** ** Vector instructions *)

(** [CmpI32Vec8] with eight times the same constant: less-than swaps the operands, and
    less-or-equal becomes greater-than unless the constant is the greatest number. *)
Definition CmpI32Vec8_const (c : CompType) (data : list Z) (value : Z) : list bool :=
  match c with
  | EQ => (fun x => x =? value) <$> data
  | NE => (fun x => negb (x =? value)) <$> data
  | LT => (fun x => x <? value) <$> data
  | LE => if value =? INT32_MAX then (fun x => x <=? value) <$> data
          else (fun x => x <? i32 (value + 1)) <$> data
  | GT => (fun x => value <? x) <$> data
  | GE => (fun x => value <=? x) <$> data
  end.

(** [I1_VEC8_AND], [I1_VEC8_OR] *)
Definition AndI1Vec8 : list bool -> list bool -> list bool := zip_with andb.
Definition OrI1Vec8 : list bool -> list bool -> list bool := zip_with orb.

(** [I1_VEC8_MASK_EXTRACT]: lane [i] is bit [i]. *)
Fixpoint ExtractMask (mask : list bool) : Z :=
  match mask with [] => 0 | b :: mask => Z.b2z b + 2 * ExtractMask mask end.

(** [I64_POPCOUNT] *)
Definition Popcount (z : Z) : Z := vec_size (filter (fun bit => Z.testbit z bit) (seqZ 0 64)).

(** [MASK_TO_PERMUTE] is the address of an entry of the table, which is loaded. *)
Definition LoadPermute (mask : Z) : Res (list Z) := values ← PermutationTable; GetEntry values mask.

(** [I32_CONV_I32_VEC8] and [I32_VEC8_ADD] *)
Definition I32Vec8_of (x : Z) : list Z := replicate 8 x.
Definition AddI32Vec8 : list Z -> list Z -> list Z := zip_with (fun x y => i32 (x + y)).

(** [I32_VEC8_PERMUTE]: the low three bits of an index count. *)
Definition PermuteI32Vec8 (v perm : list Z) : Res (list Z) := mapM (fun p => vec_at v (p mod 8)) perm.

(** [I32_VEC8_MASK_STORE]: the mask comes from a table with a row per population count. *)
Definition store_masks : list (list Z) := (fun i => replicate i (-1) ++ replicate (8 - i) 0) <$> seq 0 9.
Fixpoint store_lanes (buffer : list Z) (p : Z) (lanes : list (Z * Z)) : Res (list Z) :=
  match lanes with
  | [] => Ok buffer
  | (m, x) :: lanes => buffer ← (if m <? 0 then vec_set buffer p x else Ok buffer); store_lanes buffer (p + 1) lanes
  end.
Definition MaskStore (buffer : list Z) (p : Z) (v : list Z) (popcount : Z) : Res (list Z) :=
  mask ← vec_at store_masks popcount; store_lanes buffer p (zip mask v).

(** ** The translator *)

(** A filter compares a column with a constant. *)
Definition Filter : Type := CompType * Z.

Definition filter_const (e : Expression) : Res Z :=
  match e with
  | LiteralExpr (VInt32 z | VDate z | VEnum _ z) null => if null then Throw "Invalid literal for SIMD Select" else Ok z
  | LiteralExpr _ _ => Throw "Invalid literal for SIMD Select"
  | _ => UB
  end.

Definition filter_comp (op : BinaryOp) : Res CompType :=
  match op with
  | OpEQ => Ok EQ | OpNEQ => Ok NE | OpLT => Ok LT | OpLEQ => Ok LE | OpGT => Ok GT | OpGEQ => Ok GE
  | _ => Throw "Invalid filter type for SIMD Scan/Select"
  end.

Definition compile_filter (e : Expression) : Res Filter :=
  match e with
  | BinaryArithmeticExpr op _ r => value ← filter_const r; c ← filter_comp op; Ok (c, value)
  | _ => UB
  end.

Definition BUFFER_SIZE : Z := 64.

Section Model.
Context (enum_key : Z -> Z -> list Z) (like : list Z -> list Z -> bool).
Context (Path NullPath : CatalogColumn -> list Z).

(** The columns with filters, opened once more. *)
Definition filter_column (t : Table) (column : Column) (filters : list Expression) : Res (option Iterable) :=
  if decide (filters = []) then Ok None
  else
    type ← Type_ (col_expr column);
    c ← Table_at t (col_name column);
    match type_id type with
    | INT | ENUM | DATE =>
        if cc_nullable c && negb (bool_decide (type_id type = ENUM)) then Throw "Invalid null column type for SIMD Scan"
        else Ok (Some (MkIterable type (Path c)))
    | _ => Throw "Invalid column type for SIMD Scan"
    end.

Fixpoint filter_columns (t : Table) (cols : list Column) (filters : list (list Expression)) : Res (list (option Iterable)) :=
  match cols, filters with
  | [], _ => Ok []
  | _ :: _, [] => UB
  | col :: cols, fs :: filters =>
      c ← filter_column t col fs; rest ← filter_columns t cols filters; Ok (c :: rest)
  end.

(** The columns with the code of their filters. *)
Definition Check : Type := option Iterable * list Filter.

(** The bits of a loaded value. *)
Definition raw_int (v : IRValue) : Res Z :=
  match v with VInt32 z | VDate z | VEnum _ z => Ok z | _ => UB end.

(** One tuple: behind the first filter that fails, the loop continues. *)
Fixpoint manual_check (checks : list Check) (tuple_idx : Z) : Res bool :=
  match checks with
  | [] => Ok true
  | (None, _) :: checks => manual_check checks tuple_idx
  | (Some column, filters) :: checks =>
      v ← Iterable_at column tuple_idx;
      data ← raw_int v;
      if forallb (fun f : Filter => int_cmp f.1 data f.2) filters then manual_check checks tuple_idx else Ok false
  end.

Fixpoint manual_loop (fuel : nat) (checks : list Check) (end_ : Z) (buffer : list Z) (tuple_idx buffer_size : Z)
    : Res (list Z * Z * Z) :=
  match fuel with
  | O => NoFuel
  | S fuel =>
      if tuple_idx <=? end_ then
        pass ← manual_check checks tuple_idx;
        if pass : bool then
          buffer ← vec_set buffer buffer_size tuple_idx;
          manual_loop fuel checks end_ buffer (i32 (tuple_idx + 1)) (i32 (buffer_size + 1))
        else manual_loop fuel checks end_ buffer (i32 (tuple_idx + 1)) buffer_size
      else Ok (buffer, tuple_idx, buffer_size)
  end.

(** Eight tuples: the mask of the filters combined. *)
Definition combine (conjunction : bool) (mask : option (list bool)) (filter_mask : list bool) : option (list bool) :=
  Some (match mask with
        | Some mask => if conjunction then AndI1Vec8 mask filter_mask else OrI1Vec8 mask filter_mask
        | None => filter_mask
        end).

Fixpoint simd_mask (conjunction : bool) (checks : list Check) (tuple_idx : Z) (mask : option (list bool)) : Res (option (list bool)) :=
  match checks with
  | [] => Ok mask
  | (None, _) :: checks => simd_mask conjunction checks tuple_idx mask
  | (Some column, filters) :: checks =>
      data ← SimdLoad column tuple_idx;
      simd_mask conjunction checks tuple_idx
        (foldl (fun mask (f : Filter) => combine conjunction mask (CmpI32Vec8_const f.1 data f.2)) mask filters)
  end.

Fixpoint simd_loop (fuel : nat) (conjunction : bool) (checks : list Check) (end_ : Z) (buffer : list Z)
    (tuple_idx buffer_size : Z) : Res (list Z * Z * Z) :=
  match fuel with
  | O => NoFuel
  | S fuel =>
      if (buffer_size <=? BUFFER_SIZE - 8) && (tuple_idx <=? i32 (end_ - 7)) then
        mask ← simd_mask conjunction checks tuple_idx None;
        mask ← match mask with Some mask => Ok mask | None => Throw "bad_optional_access" end;
        let extracted_mask := ExtractMask mask in
        let popcount := Popcount extracted_mask in
        permute_idx ← LoadPermute extracted_mask;
        let idx := AddI32Vec8 (I32Vec8_of tuple_idx) (seqZ 0 8) in
        permuted ← PermuteI32Vec8 idx permute_idx;
        buffer ← MaskStore buffer buffer_size permuted popcount;
        simd_loop fuel conjunction checks end_ buffer (i32 (tuple_idx + 8)) (i32 (buffer_size + i32 popcount))
      else Ok (buffer, tuple_idx, buffer_size)
  end.

(** The tuples of the buffer. *)
Definition output_loop (b : DiskMaterializedBuffer) (s : OperatorSchema) (buffer : list Z) (buffer_size : Z) (out : list row)
    : Res (list row) :=
  tuple_loop (tuple_fuel 0 (buffer_size - 1)) (fun out buffer_idx =>
    tuple_idx ← vec_at buffer buffer_idx;
    virtual_values ← Buffer_row b tuple_idx;
    values ← compute_columns enum_key like (MkEnv [] virtual_values) (exprs s);
    Ok (out ++ [values])) 0 (buffer_size - 1) out.

(** The buffer is a global variable: it keeps its contents from one chunk to the next. *)
Fixpoint simd_body (fuel : nat) (conjunction : bool) (checks : list Check) (b : DiskMaterializedBuffer) (s : OperatorSchema)
    (st : list row * list Z) (i end_ : Z) : Res (list row * list Z) :=
  match fuel with
  | O => NoFuel
  | S fuel =>
      if i <=? end_ then
        let '(out, buffer) := st in
        '(buffer, tuple_idx, buffer_size) ←
          (if i32 (end_ - 7) <=? i then manual_loop (tuple_fuel i end_) checks end_ buffer i 0
           else simd_loop (tuple_fuel i end_) conjunction checks end_ buffer i 0);
        out ← output_loop b s buffer buffer_size out;
        simd_body fuel conjunction checks b s (out, buffer) tuple_idx end_
      else Ok st
  end.

(** [SimdScanSelectTranslator::Produce].  A mask that no filter makes is an exception of
    the translation. *)
Definition simd_scan_select (s scan_schema : OperatorSchema) (t : Table) (filters : list (list Expression)) (conjunction : bool)
    : Res (list row) :=
  b ← GenerateBuffer Path NullPath t scan_schema;
  column_data ← filter_columns t (columns scan_schema) filters;
  compiled ← mapM (mapM compile_filter) filters;
  let checks := zip column_data compiled in
  if forallb (fun c : Check => bool_decide (c.2 = [])) checks then Throw "bad_optional_access"
  else
    n ← Buffer_Size b;
    '(out, _) ← ExecuteSplitPipelineStatic
      (fun st start end_ => simd_body (tuple_fuel start end_) conjunction checks b s st start end_)
      ([], replicate (Z.to_nat BUFFER_SIZE) 0) n;
    Ok out.
End Model.

(** ** The instructions *)
Lemma CmpI32Vec8_const_spec c data value : is_sw 32 value -> CmpI32Vec8_const c data value = (fun x => int_cmp c x value) <$> data.
Proof.
  intros Hv. destruct c; cbn [CmpI32Vec8_const int_cmp]; try done. unfold INT32_MAX. destruct (Z.eqb_spec value 2147483647) as [->|Hne]; [done|].
  unfold is_sw in Hv. cbn in Hv. rewrite sw_id by (unfold is_sw; cbn; lia). apply list_fmap_ext. intros _ x _.
  destruct (Z.ltb_spec x (value + 1)), (Z.leb_spec x value); lia || done.
Qed.

Lemma ExtractMask_bound mask : 0 <= ExtractMask mask < 2 ^ vec_size mask.
Proof.
  unfold vec_size. induction mask as [|b mask IH]; [done|]. cbn [ExtractMask length]. rewrite Nat2Z.inj_succ, Z.pow_succ_r by lia.
  destruct b; cbn [Z.b2z]; lia.
Qed.

Lemma ExtractMask_testbit mask : forall k, Z.testbit (ExtractMask mask) (Z.of_nat k) = default false (mask !! k).
Proof.
  induction mask as [|b mask IH]; intros k; cbn [ExtractMask]; [by rewrite Z.testbit_0_l|].
  rewrite (Z.add_comm (Z.b2z b)). destruct k as [|k]; cbn [lookup list_lookup]; [apply Z.testbit_0_r|].
  rewrite Nat2Z.inj_succ. rewrite Z.testbit_succ_r by lia. apply IH.
Qed.

Lemma selected_mask (g : Z -> bool) : selected (ExtractMask (g <$> seqZ 0 8)) = filter (fun k => g k) (seqZ 0 8).
Proof.
  unfold selected. apply list_filter_ext. intros k Hk. apply elem_of_seqZ in Hk. rewrite <- (Z2Nat.id k) at 1 by lia.
  rewrite ExtractMask_testbit, list_lookup_fmap, lookup_seqZ_lt by lia. cbn. by rewrite Z2Nat.id, Z.add_0_l by lia.
Qed.

Lemma Popcount_selected z : 0 <= z < 256 -> Popcount z = vec_size (selected z).
Proof.
  intros Hz. unfold Popcount, selected. change 64 with (8 + 56). rewrite seqZ_app by lia. rewrite list.filter_app.
  rewrite (list_filter_none _ (seqZ (0 + 8) 56)); [by rewrite app_nil_r|].
  intros k Hk%elem_of_seqZ. assert (Z.testbit z k = false) as ->; [|by intros []].
  apply (Z.bits_above_log2 z k); [lia|]. destruct (Z.eq_dec z 0) as [->|]; [cbn; lia|].
  assert (Z.log2 z < 8) by (apply Z.log2_lt_pow2; cbn; lia). lia.
Qed.

Lemma selected_short z : (length (selected z) <= 8)%nat.
Proof. unfold selected. etransitivity; [apply length_filter|]. by rewrite length_seqZ. Qed.

Lemma store_nothing v : forall n buffer p, store_lanes buffer p (zip (replicate n 0) v) = Ok buffer.
Proof. induction v as [|x v IH]; intros [|n] buffer p; [done..|]. cbn. apply IH. Qed.

(** The first lanes are stored after the contents of the buffer. *)
Lemma store_lanes_ok v : forall k n buffer p, (k <= length v)%nat -> (p + k <= length buffer)%nat ->
  exists buffer', store_lanes buffer (Z.of_nat p) (zip (replicate k (-1) ++ replicate n 0) v) = Ok buffer' /\
    length buffer' = length buffer /\ take (p + k) buffer' = take p buffer ++ take k v.
Proof.
  induction v as [|x v IH]; intros k n buffer p Hk Hp; cbn [length] in Hk.
  { assert (k = 0%nat) as -> by lia. rewrite zip_with_nil_r. exists buffer. split_and!; [done|done|]. by rewrite Nat.add_0_r, take_nil, app_nil_r. }
  destruct k as [|k].
  { cbn [replicate]. rewrite app_nil_l, store_nothing. exists buffer. split_and!; [done|done|]. by rewrite Nat.add_0_r, take_0, app_nil_r. }
  cbn [replicate]. rewrite <- app_comm_cons. cbn [zip zip_with store_lanes]. change (-1 <? 0) with true. cbn [negb].
  rewrite (proj2 (vec_set_Ok buffer (Z.of_nat p) x (<[p := x]> buffer))) by (split; [unfold vec_size; lia|by rewrite Nat2Z.id]).
  cbn [mbind Res_bind]. replace (Z.of_nat p + 1) with (Z.of_nat (S p)) by lia.
  destruct (IH k n (<[p := x]> buffer) (S p)) as (buffer' & -> & Hl & Ht); [lia|rewrite length_insert; lia|].
  rewrite length_insert in Hl. exists buffer'. split_and!; [done|done|].
  replace (p + S k)%nat with (S p + k)%nat by lia. rewrite Ht, take_insert_snoc by lia. by rewrite <- (assoc_L (++)).
Qed.

Lemma mapM_Ok_ext {A B} (f g : A -> Res B) l l' : mapM f l = Ok l' -> (forall x y, x ∈ l -> f x = Ok y -> g x = Ok y) -> mapM g l = Ok l'.
Proof.
  revert l'. induction l as [|x l IH]; intros l' H Hfg; cbn [mapM] in *; [done|]. ok_inv. subst.
  match goal with H1 : f x = Ok _, H2 : mapM f l = Ok _ |- _ => rewrite (Hfg _ _ ltac:(by left) H1); cbn [mbind Res_bind]; rewrite (IH _ H2) end; [done|].
  intros; apply Hfg; [by right|done].
Qed.

Lemma filter_map {A B} (f : A -> B) (g : B -> bool) (l : list A) : filter (fun y => g y) (f <$> l) = f <$> filter (fun x => g (f x)) l.
Proof. induction l as [|x l IH]; [done|]. rewrite fmap_cons, !filter_cons. destruct (decide (g (f x))); [|done]. rewrite fmap_cons. by f_equal. Qed.

(** Compression: the positions of the tuples that pass follow those in the buffer. *)
Lemma compress_ok (g : Z -> bool) tuple_idx buffer (p : nat) : (p + 8 <= length buffer)%nat -> 0 <= tuple_idx -> tuple_idx + 8 < 2 ^ 31 ->
  let mask := ExtractMask (g <$> seqZ 0 8) in
  let new := filter (fun i => g (i - tuple_idx)) (seqZ tuple_idx 8) in
  Popcount mask = vec_size new /\
  exists permute_idx permuted buffer', LoadPermute mask = Ok permute_idx /\
    PermuteI32Vec8 (AddI32Vec8 (I32Vec8_of tuple_idx) (seqZ 0 8)) permute_idx = Ok permuted /\
    MaskStore buffer (Z.of_nat p) permuted (Popcount mask) = Ok buffer' /\ length buffer' = length buffer /\
    take (p + length new) buffer' = take p buffer ++ new.
Proof.
  intros Hp Hi0 Hi mask new.
  assert (0 <= mask < 256) as Hm by (pose proof (ExtractMask_bound (g <$> seqZ 0 8)) as H; unfold vec_size in H; rewrite length_fmap, length_seqZ in H; exact H).
  set (idx := AddI32Vec8 (I32Vec8_of tuple_idx) (seqZ 0 8)).
  assert (idx = (fun k => tuple_idx + k) <$> seqZ 0 8) as Hidx.
  { unfold idx, AddI32Vec8, I32Vec8_of. apply list_eq. intros k. rewrite lookup_zip_with, list_lookup_fmap.
    destruct (decide (k < 8)%nat) as [Hk|Hk].
    - rewrite lookup_replicate_2, lookup_seqZ_lt by lia. cbn. rewrite sw_id by (unfold is_sw; cbn; lia). done.
    - rewrite (lookup_ge_None_2 (replicate _ _)) by (rewrite length_replicate; lia). by rewrite lookup_seqZ_ge by lia. }
  clearbody idx. destruct (permute_compresses mask idx Hm) as (values & perm & lanes & Hv & Hperm & Hlanes & Htake).
  { rewrite Hidx, length_fmap. by rewrite length_seqZ. }
  assert ((fun j => default 0 (idx !! Z.to_nat j)) <$> selected mask = new) as Hnew.
  { unfold mask. rewrite selected_mask. unfold new.
    replace (seqZ tuple_idx 8) with ((fun k => tuple_idx + k) <$> seqZ 0 8).
    2: { apply list_eq. intros k. rewrite list_lookup_fmap. destruct (decide (k < 8)%nat).
      - by rewrite !lookup_seqZ_lt by lia.
      - by rewrite !lookup_seqZ_ge by lia. }
    rewrite (filter_map _ (fun i => g (i - tuple_idx))). apply list_eq. intros k.
    assert (filter (fun k => g (tuple_idx + k - tuple_idx)) (seqZ 0 8) = filter (fun k => g k) (seqZ 0 8)) as ->.
    { apply list_filter_ext. intros x _. by replace (tuple_idx + x - tuple_idx) with x by lia. }
    rewrite !list_lookup_fmap. destruct (filter _ _ !! k) as [j|] eqn:Ej; [|done]. cbn. f_equal.
    apply list_elem_of_lookup_2, list_elem_of_filter in Ej as [_ Ej%elem_of_seqZ].
    rewrite Hidx, list_lookup_fmap, lookup_seqZ_lt by lia. cbn. lia. }
  rewrite Hnew in Htake.
  assert (Popcount mask = vec_size new) as Hpop by (rewrite Popcount_selected, <- Hnew by done; unfold vec_size; by rewrite length_fmap).
  assert (length new = length (selected mask)) as Hln by (rewrite <- Hnew; apply length_fmap).
  pose proof (selected_short mask) as Hs.
  split; [done|].
  assert (length (selected mask) <= length lanes)%nat as Hll by (rewrite <- Hln, <- Htake, length_take; lia).
  exists perm, lanes.
  destruct (store_lanes_ok lanes (length (selected mask)) (8 - length (selected mask)) buffer p) as (buffer' & Hst & Hlb & Htb); [lia|lia|].
  exists buffer'. split_and!.
  - unfold LoadPermute. rewrite Hv. exact Hperm.
  - apply (mapM_Ok_ext (vec_at idx)); [done|]. intros x y _ Hx. pose proof (vec_at_range _ _ _ Hx) as Hr.
    rewrite Hidx in Hr. unfold vec_size in Hr. rewrite length_fmap, length_seqZ in Hr. by rewrite Z.mod_small by lia.
  - unfold MaskStore. rewrite Hpop. unfold vec_size. rewrite Hln.
    rewrite (vec_at_nat store_masks _ (replicate (length (selected mask)) (-1) ++ replicate (8 - length (selected mask)) 0)); [exact Hst|].
    unfold store_masks. rewrite list_lookup_fmap, lookup_seq_lt by lia. done.
  - done.
  - by rewrite Hln, Htb, <- Htake.
Qed.

(** ** The filters on a tuple *)
Definition lane (c : Iterable) (i : Z) : Z := match GetInt32 (it_file c) i with Ok z => z | _ => 0 end.

(** All filters accept the numbers of the tuple. *)
Definition passes (checks : list Check) (i : Z) : bool :=
  forallb (fun c : Check => match c.1 with
    | None => true
    | Some column => forallb (fun f : Filter => int_cmp f.1 (lane column i) f.2) c.2
    end) checks.

Definition simd_type (c : Iterable) : Prop :=
  type_id (it_type c) = INT \/ type_id (it_type c) = DATE \/ type_id (it_type c) = ENUM.

Record check_ok (n : Z) (c : Check) : Prop := {
  co_none : c.1 = None -> c.2 = [];
  co_type : forall column, c.1 = Some column -> simd_type column;
  co_read : forall column i, c.1 = Some column -> 0 <= i < n -> exists z, GetInt32 (it_file column) i = Ok z;
  co_const : Forall (fun f : Filter => is_sw 32 f.2) c.2;
}.

Lemma lane_read n c column i : check_ok n c -> c.1 = Some column -> 0 <= i < n -> GetInt32 (it_file column) i = Ok (lane column i).
Proof. intros Hc Hs Hi. destruct (co_read _ _ Hc _ _ Hs Hi) as [z Hz]. unfold lane. by rewrite Hz. Qed.

Lemma manual_check_ok n checks i : Forall (check_ok n) checks -> 0 <= i < n -> manual_check checks i = Ok (passes checks i).
Proof.
  intros Hc Hi. induction Hc as [|[[column|] fs] checks H _ IH]; [done| |exact IH]. cbn [manual_check passes forallb fst snd].
  pose proof (lane_read n _ column i H eq_refl Hi) as Hl. pose proof (co_type _ _ H column eq_refl) as Ht. cbn [fst] in *.
  assert (exists v, Iterable_at column i = Ok v /\ raw_int v = Ok (lane column i)) as (v & -> & Hv).
  { unfold Iterable_at. destruct Ht as [-> | [-> | ->]]; rewrite Hl; eexists; done. }
  cbn [mbind Res_bind]. rewrite Hv. cbn [mbind Res_bind]. by destruct (forallb _ fs).
Qed.

(** What the mask of eight tuples says of each of them. *)
Definition mask_is (mask : option (list bool)) (g : Z -> bool) : Prop :=
  match mask with Some mask => mask = g <$> seqZ 0 8 | None => forall k, g k = true end.

Lemma mask_ext m g g' : mask_is m g -> (forall k, 0 <= k < 8 -> g k = g' k) -> (m = None -> forall k, g' k = true) -> mask_is m g'.
Proof.
  destruct m as [m|]; cbn; intros H Hg Hn; [|by apply Hn]. subst. apply list_fmap_ext. intros j k Hk. apply Hg.
  apply list_elem_of_lookup_2, elem_of_seqZ in Hk. lia.
Qed.

Lemma combine_ok m g (h : Z -> bool) : mask_is m g -> mask_is (combine true m (h <$> seqZ 0 8)) (fun k => g k && h k).
Proof.
  unfold combine, AndI1Vec8. destruct m as [m|]; cbn [mask_is]; intros H.
  - subst. generalize (seqZ 0 8). induction l as [|x l IH]; [done|]. rewrite !fmap_cons. cbn [zip_with]. by f_equal.
  - apply list_fmap_ext. intros. by rewrite H.
Qed.

Lemma SimdLoad_ok n c column i : check_ok n c -> c.1 = Some column -> 0 <= i -> i + 8 <= n ->
  SimdLoad column i = Ok ((fun k => lane column (i + k)) <$> seqZ 0 8).
Proof.
  intros Hc Hs H0 Hi. unfold SimdLoad. assert (forall l, Forall (fun k => 0 <= k < 8) l ->
    mapM (fun lane => GetInt32 (it_file column) (i + lane)) l = Ok ((fun k => lane column (i + k)) <$> l)) as H.
  { induction 1 as [|k l Hk _ IH]; [done|]. cbn [mapM]. rewrite (lane_read n c) by (done || lia). cbn [mbind Res_bind]. by rewrite IH. }
  destruct (co_type _ _ Hc _ Hs) as [-> | [-> | ->]]; apply H; apply list.Forall_forall; intros k Hk%elem_of_seqZ; lia.
Qed.

Lemma foldl_masks fs (data : Z -> Z) : Forall (fun f : Filter => is_sw 32 f.2) fs -> forall m g, mask_is m g ->
  let m' := foldl (fun mask (f : Filter) => combine true mask (CmpI32Vec8_const f.1 (data <$> seqZ 0 8) f.2)) m fs in
  mask_is m' (fun k => g k && forallb (fun f : Filter => int_cmp f.1 (data k) f.2) fs) /\ (m' = None -> m = None /\ fs = []).
Proof.
  induction 1 as [|f fs Hf _ IH]; intros m g Hm; cbn [foldl forallb].
  { split; [|done]. apply (mask_ext m g); [done|intros; by rewrite andb_true_r|]. intros -> k. rewrite andb_true_r. apply Hm. }
  rewrite CmpI32Vec8_const_spec, <- list_fmap_compose by done.
  destruct (IH _ _ (combine_ok m g (fun k => int_cmp f.1 (data k) f.2) Hm)) as [H1 H2]. split.
  - eapply mask_ext; [exact H1| |].
    + intros k _. by rewrite andb_assoc.
    + intros Hn. by apply H2 in Hn as [Hn _].
  - intros Hn. by apply H2 in Hn as [Hn _].
Qed.

Lemma simd_mask_ok n checks i : Forall (check_ok n) checks -> 0 <= i -> i + 8 <= n -> forall m g, mask_is m g ->
  exists m', simd_mask true checks i m = Ok m' /\ mask_is m' (fun k => g k && passes checks (i + k)) /\
    (m' = None -> m = None /\ Forall (fun c : Check => c.2 = []) checks).
Proof.
  intros Hc H0 Hi. induction Hc as [|[[column|] fs] checks H _ IH]; intros m g Hm; cbn [simd_mask].
  - exists m. split_and!; [done| |done]. apply (mask_ext m g); [done|intros; by rewrite andb_true_r|]. intros -> k. rewrite andb_true_r. apply Hm.
  - rewrite (SimdLoad_ok n _ column i H eq_refl H0 Hi). cbn [mbind Res_bind].
    destruct (foldl_masks fs (fun k => lane column (i + k)) (co_const _ _ H) m g Hm) as [H1 H2].
    destruct (IH _ _ H1) as (m' & -> & Hm' & Hn'). exists m'. split_and!; [done| |].
    + eapply mask_ext; [exact Hm'| |].
      * intros k _. cbn. by rewrite andb_assoc.
      * intros Hn k. pose proof Hm' as Hk. rewrite Hn in Hk. cbn. specialize (Hk k). by rewrite andb_assoc.
    + intros Hn. destruct (Hn' Hn) as [Hn1 Hn2]. destruct (H2 Hn1) as [-> ->]. split; [done|]. by constructor.
  - destruct (IH m g Hm) as (m' & -> & Hm' & Hn'). exists m'. split_and!; [done|done|].
    intros Hn. destruct (Hn' Hn) as [-> ?]. split; [done|]. constructor; [|done]. by apply (co_none _ _ H).
Qed.

(** ** The loops *)
Definition passing (checks : list Check) (start n : Z) : list Z := filter (fun i => passes checks i) (seqZ start n).

Lemma passing_length checks start n : 0 <= n -> vec_size (passing checks start n) <= n.
Proof.
  intros Hn. unfold passing, vec_size. pose proof (length_filter (fun i => passes checks i) (seqZ start n)) as H.
  rewrite length_seqZ in H. lia.
Qed.

Lemma passing_app checks start a b : 0 <= a -> 0 <= b ->
  passing checks start (a + b) = passing checks start a ++ passing checks (start + a) b.
Proof. intros. unfold passing. by rewrite seqZ_app, list.filter_app by lia. Qed.

(** The buffer holds the tuples of [start .. tuple_idx - 1] that pass. *)
Record buffered (checks : list Check) (start : Z) (buffer : list Z) (tuple_idx buffer_size : Z) : Prop := {
  bu_length : length buffer = 64%nat;
  bu_size : buffer_size = vec_size (passing checks start (tuple_idx - start));
  bu_take : take (Z.to_nat buffer_size) buffer = passing checks start (tuple_idx - start);
}.

Lemma buffered_start checks i buffer : length buffer = 64%nat -> buffered checks i buffer i 0.
Proof. intros Hl. split; [done|..]; by rewrite Z.sub_diag. Qed.

Section Loops.
Context (n : Z) (checks : list Check) (Hchecks : Forall (check_ok n) checks) (Hn : n <= 2 ^ 31 - CHUNK_SIZE).

Lemma manual_loop_ok fuel start end_ : forall buffer tuple_idx buffer_size, 0 <= start <= tuple_idx -> end_ < n -> tuple_idx <= end_ + 1 ->
  end_ - tuple_idx + 1 < Z.of_nat fuel -> buffered checks start buffer tuple_idx buffer_size ->
  buffer_size + (end_ - tuple_idx + 1) <= 64 ->
  exists buffer' buffer_size', manual_loop fuel checks end_ buffer tuple_idx buffer_size = Ok (buffer', end_ + 1, buffer_size') /\
    buffered checks start buffer' (end_ + 1) buffer_size'.
Proof.
  unfold CHUNK_SIZE in Hn. induction fuel as [|fuel IH]; intros buffer i size Hs He Hi Hf Hb Hroom; [lia|]. cbn [manual_loop].
  destruct (Z.leb_spec i end_) as [Hle|Hgt].
  2: { assert (i = end_ + 1) as -> by lia. by exists buffer, size. }
  rewrite (manual_check_ok n) by (done || lia). cbn [mbind Res_bind].
  assert (i32 (i + 1) = i + 1) as -> by (apply sw_id; [lia|unfold is_sw; cbn; lia]).
  assert (passing checks start (i + 1 - start) = passing checks start (i - start) ++ passing checks i 1) as Hnext.
  { replace (i + 1 - start) with (i - start + 1) by lia. rewrite passing_app by lia. do 2 f_equal. lia. }
  assert (passing checks i 1 = if passes checks i then [i] else []) as Hone.
  { unfold passing. change 1 with (Z.succ 0). rewrite seqZ_cons by lia. rewrite filter_cons. destruct (passes checks i); by rewrite seqZ_nil by lia. }
  destruct Hb as [Hl Hsz Ht]. assert (0 <= size) by (subst size; unfold vec_size; lia).
  destruct (passes checks i); rewrite Hone in Hnext; cbn [mbind Res_bind].
  - rewrite (proj2 (vec_set_Ok buffer size i (<[Z.to_nat size := i]> buffer))) by (split; [unfold vec_size; lia|done]). cbn [mbind Res_bind].
    assert (i32 (size + 1) = size + 1) as -> by (apply sw_id; [lia|unfold is_sw; cbn; lia]).
    apply IH; try lia. split; [by rewrite length_insert| |].
    + rewrite Hnext. unfold vec_size in *. rewrite length_app. cbn [length]. lia.
    + rewrite Hnext, <- Ht. replace (Z.to_nat (size + 1)) with (S (Z.to_nat size)) by lia. apply take_insert_snoc. lia.
  - rewrite app_nil_r in Hnext. apply IH; try lia. split; [done|by rewrite Hnext|by rewrite Hnext].
Qed.

Context (Hsome : ~ Forall (fun c : Check => c.2 = []) checks).

Lemma simd_loop_ok fuel start end_ : forall buffer tuple_idx buffer_size, 0 <= start <= tuple_idx -> end_ < n -> tuple_idx <= end_ + 1 ->
  end_ - tuple_idx + 1 < Z.of_nat fuel -> buffered checks start buffer tuple_idx buffer_size ->
  exists buffer' tuple_idx' buffer_size', simd_loop fuel true checks end_ buffer tuple_idx buffer_size = Ok (buffer', tuple_idx', buffer_size') /\
    buffered checks start buffer' tuple_idx' buffer_size' /\ tuple_idx <= tuple_idx' <= end_ + 1 /\
    (tuple_idx' = tuple_idx -> 56 < buffer_size \/ end_ - 7 < tuple_idx).
Proof.
  unfold CHUNK_SIZE in Hn. induction fuel as [|fuel IH]; intros buffer i size Hs He Hi Hf Hb; [lia|]. cbn [simd_loop]. unfold BUFFER_SIZE.
  assert (i32 (end_ - 7) = end_ - 7) as -> by (apply sw_id; [lia|unfold is_sw; cbn; lia]).
  destruct (Z.leb_spec size (64 - 8)) as [Hroom|Hfull]; cbn [andb]; [|exists buffer, i, size; split_and!; [done|done|lia|lia|lia]].
  destruct (Z.leb_spec i (end_ - 7)) as [Hle|Hgt]; [|exists buffer, i, size; split_and!; [done|done|lia|lia|lia]].
  destruct (simd_mask_ok n checks i Hchecks ltac:(lia) ltac:(lia) None (fun _ => true) ltac:(done)) as (m' & -> & Hm & Hnone).
  cbn [mbind Res_bind]. destruct m' as [mask|]; [|by destruct (Hnone eq_refl)]. cbn [mask_is] in Hm. cbn [mbind Res_bind].
  destruct Hb as [Hl Hsz Ht]. assert (0 <= size) by (subst size; unfold vec_size; lia).
  destruct (compress_ok (fun k => true && passes checks (i + k)) i buffer (Z.to_nat size)) as (Hpop & perm & permuted & buffer' & Hperm & Hp & Hst & Hl' & Htake); [lia|lia|lia|].
  rewrite <- Hm in *. rewrite Hperm. cbn [mbind Res_bind]. rewrite Hp. cbn [mbind Res_bind].
  rewrite Z2Nat.id in Hst by done. rewrite Hst. cbn [mbind Res_bind].
  assert (filter (fun j => true && passes checks (i + (j - i))) (seqZ i 8) = passing checks i 8) as Hnew.
  { unfold passing. apply list_filter_ext. intros j _. cbn [andb]. by replace (i + (j - i)) with j by lia. }
  rewrite Hnew in *. pose proof (passing_length checks i 8 ltac:(lia)) as Hbound.
  assert (i32 (i + 8) = i + 8) as -> by (apply sw_id; [lia|unfold is_sw; cbn; lia]).
  assert (0 <= vec_size (passing checks i 8)) by (unfold vec_size; lia).
  assert (i32 (Popcount (ExtractMask mask)) = vec_size (passing checks i 8)) as -> by (rewrite Hpop; apply sw_id; [lia|unfold is_sw; cbn; lia]).
  assert (i32 (size + vec_size (passing checks i 8)) = size + vec_size (passing checks i 8)) as -> by (apply sw_id; [lia|unfold is_sw; cbn; lia]).
  assert (passing checks start (i + 8 - start) = passing checks start (i - start) ++ passing checks i 8) as Hnext.
  { replace (i + 8 - start) with (i - start + 8) by lia. rewrite passing_app by lia. do 2 f_equal. lia. }
  destruct (IH buffer' (i + 8) (size + vec_size (passing checks i 8))) as (b' & i' & s' & Hrun & Hb' & Hi' & _); try lia.
  - split; [lia| |].
    + rewrite Hnext. unfold vec_size in *. rewrite length_app. lia.
    + rewrite Hnext, <- Ht, <- Htake. f_equal. unfold vec_size. lia.
  - exists b', i', s'. split_and!; [done|done|lia|lia|lia].
Qed.

Context (enum_key : Z -> Z -> list Z) (like : list Z -> list Z -> bool) (b : DiskMaterializedBuffer) (s : OperatorSchema).
Context (emit : Z -> row).
Context (Hemit : forall i, 0 <= i < n -> exists r, Buffer_row b i = Ok r /\ compute_columns enum_key like (MkEnv [] r) (exprs s) = Ok (emit i)).

Lemma output_loop_ok start buffer tuple_idx buffer_size out : 0 <= start <= tuple_idx -> tuple_idx <= n -> buffered checks start buffer tuple_idx buffer_size ->
  output_loop enum_key like b s buffer buffer_size out = Ok (out ++ (emit <$> passing checks start (tuple_idx - start))).
Proof.
  intros Hs Hi [Hl Hsz Ht]. unfold output_loop. assert (0 <= buffer_size <= n) as Hbs.
  { pose proof (passing_length checks start (tuple_idx - start)). subst buffer_size. unfold vec_size in *. lia. }
  unfold CHUNK_SIZE in Hn. rewrite tuple_loop_all by lia. replace (buffer_size - 1 - 0 + 1) with buffer_size by lia.
  set (L := passing checks start (tuple_idx - start)) in *.
  assert (forall l k out, L = take k L ++ l -> (k <= length L)%nat ->
    foldM (fun out buffer_idx => tuple_idx ← vec_at buffer buffer_idx; virtual_values ← Buffer_row b tuple_idx;
      values ← compute_columns enum_key like (MkEnv [] virtual_values) (exprs s); Ok (out ++ [values])) out (seqZ (Z.of_nat k) (vec_size l)) =
    Ok (out ++ (emit <$> l))) as H.
  { induction l as [|x l IH]; intros k o HL Hk; [by rewrite app_nil_r|].
    unfold vec_size. cbn [length]. rewrite seqZ_cons by lia. cbn [foldM].
    assert (L !! k = Some x) as Hx.
    { rewrite HL, lookup_app_r by (rewrite length_take; lia). rewrite length_take. by replace (k - k `min` length L)%nat with 0%nat by lia. }
    pose proof (lookup_lt_Some _ _ _ Hx) as Hlt.
    assert (buffer !! k = Some x) as Hbx.
    { rewrite <- Ht in Hx. rewrite lookup_take_lt in Hx; [done|]. subst buffer_size. unfold vec_size. lia. }
    rewrite (vec_at_nat _ _ _ Hbx). cbn [mbind Res_bind].
    assert (0 <= x < n) as Hxn.
    { apply list_elem_of_lookup_2 in Hx. unfold L, passing in Hx. apply list_elem_of_filter in Hx as [_ Hx%elem_of_seqZ]. lia. }
    destruct (Hemit x Hxn) as (r & -> & Hr). cbn [mbind Res_bind]. rewrite Hr. cbn [mbind Res_bind].
    replace (Z.succ (Z.of_nat k)) with (Z.of_nat (S k)) by lia.
    replace (Z.pred (Z.of_nat (S (length l)))) with (vec_size l) by (unfold vec_size; lia).
    rewrite IH; [by rewrite <- (assoc_L (++))| |lia].
    rewrite (take_S_r _ _ _ Hx), <- (assoc_L (++)). exact HL. }
  rewrite Hsz. apply (H L 0%nat); [done|lia].
Qed.

Lemma simd_body_ok fuel end_ : forall st i, 0 <= i -> end_ < n -> i <= end_ + 1 -> end_ - i + 1 < Z.of_nat fuel -> length st.2 = 64%nat ->
  exists buffer', simd_body enum_key like fuel true checks b s st i end_ = Ok (st.1 ++ (emit <$> passing checks i (end_ - i + 1)), buffer') /\
    length buffer' = 64%nat.
Proof.
  induction fuel as [|fuel IH]; intros [out buffer] i Hi He Hie Hf Hl; [lia|]. cbn [simd_body fst snd] in *.
  destruct (Z.leb_spec i end_) as [Hle|Hgt].
  2: { exists buffer. split; [|done]. unfold passing. rewrite seqZ_nil by lia. by rewrite app_nil_r. }
  assert (i32 (end_ - 7) = end_ - 7) as -> by (unfold CHUNK_SIZE in Hn; apply sw_id; [lia|unfold is_sw; cbn; lia]).
  assert (exists buffer1 i1 size1, (if end_ - 7 <=? i then manual_loop (tuple_fuel i end_) checks end_ buffer i 0
      else simd_loop (tuple_fuel i end_) true checks end_ buffer i 0) = Ok (buffer1, i1, size1) /\
    buffered checks i buffer1 i1 size1 /\ i < i1 <= end_ + 1) as (buffer1 & i1 & size1 & -> & Hb & Hi1).
  { destruct (Z.leb_spec (end_ - 7) i) as [Hm|Hs].
    - destruct (manual_loop_ok (tuple_fuel i end_) i end_ buffer i 0) as (buffer1 & size1 & -> & Hb);
        [lia|lia|lia|unfold tuple_fuel; lia|by apply buffered_start|lia|]. exists buffer1, (end_ + 1), size1. split_and!; [done|done|lia|lia].
    - destruct (simd_loop_ok (tuple_fuel i end_) i end_ buffer i 0) as (buffer1 & i1 & size1 & -> & Hb & Hi1 & Hprog);
        [lia|lia|lia|unfold tuple_fuel; lia|by apply buffered_start|]. exists buffer1, i1, size1. split_and!; [done|done|lia|lia]. }
  cbn [mbind Res_bind]. rewrite (output_loop_ok i buffer1 i1 size1) by (done || lia). cbn [mbind Res_bind].
  destruct (IH (out ++ (emit <$> passing checks i (i1 - i)), buffer1) i1) as (buffer2 & -> & Hl2); [lia|lia|lia|lia|apply Hb|].
  exists buffer2. split; [|done]. cbn [fst]. replace (end_ - i + 1) with (i1 - i + (end_ - i1 + 1)) by lia.
  rewrite (passing_app checks i (i1 - i)), fmap_app, <- (assoc_L (++)) by lia. by replace (i + (i1 - i)) with i1 by lia.
Qed.
End Loops.

(** An invariant of the chunks of a pipeline. *)
Lemma static_invariant {S} (body : S -> Z -> Z -> Res S) (Inv : Z -> S -> Prop) s n : 0 <= n <= 2 ^ 31 - CHUNK_SIZE -> Inv 0 s ->
  (forall s a b, 0 <= a <= b -> b < n -> Inv a s -> exists s', body s a b = Ok s' /\ Inv (b + 1) s') ->
  exists s', ExecuteSplitPipelineStatic body s n = Ok s' /\ Inv n s'.
Proof.
  intros Hn H0 Hb. rewrite static_chunks by done.
  assert (forall fuel s next, 0 <= next <= n -> n - next <= Z.of_nat fuel -> Inv next s ->
    exists s', run_chunks body s (chunks fuel next n) = Ok s' /\ Inv n s') as H.
  { induction fuel as [|fuel IH]; intros s' next Hnx Hf Hi; cbn [chunks run_chunks].
    { exists s'. split; [done|]. by replace n with next by lia. }
    destruct (Z.ltb_spec next n) as [Hlt|Hge]; cbn [run_chunks].
    2: { exists s'. split; [done|]. by replace n with next by lia. }
    set (e := Z.min _ _). assert (next <= e < n) by (unfold CHUNK_SIZE in e; lia).
    destruct (Hb s' next e) as (s0 & -> & Hi'); [lia|lia|done|]. cbn [mbind Res_bind]. apply IH; [lia|lia|done]. }
  apply H; [lia|lia|done].
Qed.

(** ** Filters with constants *)
Definition filter_value (v : IRValue) : Z := match raw_int v with Ok z => z | _ => 0 end.
Definition compile_of (e : Expression) : Filter := match compile_filter e with Ok f => f | _ => (EQ, 0) end.

(** A filter over column [k] of a table's column: enums are tested for equality only,
    the translator compares their numbers. *)
Record simd_filter (c : CatalogColumn) (k : nat) (e : Expression) : Prop := {
  sf_expr : exists op nullable v, e = BinaryArithmeticExpr op (VirtualColumnRefExpr (cc_type c) nullable (Z.of_nat k)) (LiteralExpr v false) /\
    ir_type v = cc_type c /\ is_compare op = true /\ is_sw 32 (filter_value v) /\
    (type_id (cc_type c) = ENUM -> op = OpEQ \/ op = OpNEQ);
  sf_type : type_id (cc_type c) = INT \/ type_id (cc_type c) = DATE \/ type_id (cc_type c) = ENUM;
  sf_nullable : cc_nullable c = true -> type_id (cc_type c) = ENUM;
}.

Lemma compile_filter_ok c k e : simd_filter c k e -> compile_filter e = Ok (compile_of e) /\ is_sw 32 (compile_of e).2.
Proof.
  intros [(op & nl & v & -> & Hv & Ho & Hr & _) Ht _]. unfold compile_of, compile_filter, filter_const.
  rewrite <- Hv in Ht. unfold filter_value in Hr.
  destruct v; cbn in Ht; try (by destruct Ht as [? | [? | ?]]); cbn in Hr; cbn [mbind Res_bind]; destruct op; try discriminate Ho; done.
Qed.

Lemma accepted_filter enum_key like c k e full v : simd_filter c k e -> vec_at full (Z.of_nat k) = Ok v -> sv_type v = cc_type c -> sv_null v = false ->
  accepted enum_key like (MkEnv [] full) e = int_cmp (compile_of e).1 (filter_value (sv_value v)) (compile_of e).2.
Proof.
  intros [(op & nl & w & -> & Hw & Ho & _ & He) Ht _] Hv Hvt Hn. unfold accepted. cbn [Compute_ env_virtual]. rewrite Hv. cbn [mbind Res_bind].
  destruct v as [v nv]. cbn in Hn. subst nv. unfold sv_type in Hvt. cbn [sv_value] in *. rewrite <- Hvt in *.
  destruct v; cbn in Ht; try (by destruct Ht as [? | [? | ?]]); destruct w; try discriminate Hw; cbn in Hw.
  - destruct op; try discriminate Ho; cbn; try done; by case_match.
  - destruct op; try discriminate Ho; cbn; try done; by case_match.
  - injection Hw as ->. destruct (He eq_refl) as [-> | ->]; cbn; rewrite Z.eqb_refl; cbn; [|]; by case_match.
Qed.

Section Checks.
Context (Path NullPath : CatalogColumn -> list Z) (t : Table).

Definition check_of (col : Column) (filters : list Expression) : Check :=
  (if decide (filters = []) then None else Some (data_of Path (cat_of t col)), compile_of <$> filters).
Definition checks_of (cols : list Column) (filters : list (list Expression)) : list Check := zip_with check_of cols filters.

(** The filters of the columns from position [k] on. *)
Inductive filters_ok : nat -> list Column -> list (list Expression) -> Prop :=
| filters_nil k : filters_ok k [] []
| filters_cons k col cols fs filters : scan_column t col -> Forall (simd_filter (cat_of t col) k) fs ->
    filters_ok (S k) cols filters -> filters_ok k (col :: cols) (fs :: filters).

Lemma filter_columns_ok k cols filters : filters_ok k cols filters -> exists columns compiled,
  filter_columns Path t cols filters = Ok columns /\ mapM (mapM compile_filter) filters = Ok compiled /\
  zip columns compiled = checks_of cols filters.
Proof.
  induction 1 as [k|k col cols fs filters (j & c & Hc & Hty) Hfs _ (colsd & comp & E1 & E2 & Ez)]; [by exists [], []|].
  assert (Table_at t (col_name col) = Ok c) as Ha by (unfold Table_at; by rewrite Hc).
  assert (cat_of t col = c) as Hcat by (unfold cat_of; by rewrite Ha).
  assert (filter_column Path t col fs = Ok (if decide (fs = []) then None else Some (data_of Path c))) as Hfc.
  { unfold filter_column. destruct (decide (fs = [])) as [|Hne]; [done|]. rewrite Hty. cbn [mbind Res_bind]. rewrite Ha. cbn [mbind Res_bind].
    destruct fs as [|e fs]; [done|]. apply list.Forall_cons in Hfs as [[_ Ht Hn] _]. rewrite Hcat in Ht, Hn. unfold data_of.
    destruct Ht as [Ht | [Ht | Ht]]; rewrite Ht in *; rewrite ?andb_false_r; try done; (destruct (cc_nullable c); [discriminate (Hn eq_refl)|done]). }
  assert (mapM compile_filter fs = Ok (compile_of <$> fs)) as Hm.
  { clear -Hfs. induction Hfs as [|e fs He _ IH]; [done|]. cbn [mapM]. destruct (compile_filter_ok _ _ _ He) as [-> _]. cbn [mbind Res_bind]. by rewrite IH. }
  eexists _, _. split_and!.
  - cbn [filter_columns]. rewrite Hfc. cbn [mbind Res_bind]. rewrite E1. reflexivity.
  - cbn [mapM]. rewrite Hm. cbn [mbind Res_bind]. rewrite E2. reflexivity.
  - etransitivity; [apply (f_equal (cons _) Ez)|]. unfold checks_of. cbn [zip_with]. f_equal. unfold check_of. by rewrite Hcat.
Qed.

Context (rows : list row) (Hst : table_stored Path NullPath t rows) (s : OperatorSchema).

(** The columns with filters hold no nulls. *)
Definition no_nulls (cols : list Column) (filters : list (list Expression)) : Prop :=
  Forall2 (fun col fs => fs <> [] -> forall r, r ∈ rows -> sv_null (scan_value t r (col_name col)) = false) cols filters.

Lemma lane_value col i r : scan_column t col -> rows !! i = Some r ->
  (type_id (cc_type (cat_of t col)) = INT \/ type_id (cc_type (cat_of t col)) = DATE \/ type_id (cc_type (cat_of t col)) = ENUM) ->
  sv_type (scan_value t r (col_name col)) = cc_type (cat_of t col) /\
  GetInt32 (it_file (data_of Path (cat_of t col))) (Z.of_nat i) = Ok (filter_value (sv_value (scan_value t r (col_name col)))).
Proof.
  intros (j & c & Hf & Hty) Hi. assert (cat_of t col = c) as -> by (unfold cat_of, Table_at; by rewrite Hf). intros Ht.
  assert (column_stored Path NullPath rows j c) as Hcs by (apply Hst; by apply list_find_Some in Hf as [? _]).
  destruct (cs_row _ _ _ _ _ Hcs i r Hi) as (v & Hj & Hvt & Hv & _).
  assert (scan_value t r (col_name col) = v) as -> by (unfold scan_value; rewrite Hf; cbn; by rewrite Hj). split; [done|].
  unfold Iterable_at, data_of in Hv. cbn [it_type it_file] in *. unfold data_of. cbn [it_file].
  destruct Ht as [Ht | [Ht | Ht]]; rewrite Ht in Hv; ok_inv; match goal with H : GetInt32 _ _ = Ok _ |- _ => rewrite H end;
    unfold filter_value; by rewrite <- Hv.
Qed.

Lemma checks_ok k cols filters : filters_ok k cols filters -> Forall (check_ok (vec_size rows)) (checks_of cols filters).
Proof.
  induction 1 as [|k col cols fs filters Hcol Hfs _ IH]; constructor; [|exact IH]. unfold check_of.
  split; cbn [fst snd].
  - destruct (decide (fs = [])) as [->|]; done.
  - intros column Hs. destruct (decide (fs = [])) as [|Hne]; [done|]. injection Hs as <-. destruct fs as [|e fs]; [done|].
    apply list.Forall_cons in Hfs as [[_ Ht _] _]. exact Ht.
  - intros column i Hs Hi. destruct (decide (fs = [])) as [|Hne]; [done|]. injection Hs as <-. destruct fs as [|e fs]; [done|].
    apply list.Forall_cons in Hfs as [[_ Ht _] _]. unfold vec_size in Hi. destruct (lookup_lt_is_Some_2 rows (Z.to_nat i)) as [r Hr]; [lia|].
    destruct (lane_value col (Z.to_nat i) r Hcol Hr Ht) as [_ Hl]. rewrite Z2Nat.id in Hl by lia. eauto.
  - clear -Hfs. induction Hfs as [|e fs He _ IH]; constructor; [|exact IH]. by destruct (compile_filter_ok _ _ _ He).
Qed.

Lemma passes_accepted enum_key like k cols filters i r : filters_ok k cols filters -> no_nulls cols filters ->
  (forall n col, cols !! n = Some col -> columns s !! (k + n)%nat = Some col) -> rows !! i = Some r ->
  passes (checks_of cols filters) (Z.of_nat i) = all_accepted enum_key like (MkEnv [] (scan_row t s r)) (mjoin filters).
Proof.
  intros Hf. induction Hf as [|k col cols fs filters Hcol Hfs _ IH]; intros Hnn Hpos Hi; [done|].
  unfold no_nulls in Hnn. apply list.Forall2_cons in Hnn as [Hnull Hnn].
  cbn [mjoin list_join]. unfold all_accepted. rewrite forallb_app. unfold checks_of, passes. cbn [zip_with forallb]. f_equal.
  2: { apply IH; [done| |done]. intros n c Hn. rewrite <- (Hpos (S n) c Hn). f_equal. lia. }
  unfold check_of. cbn [fst snd]. destruct (decide (fs = [])) as [->|Hne]; [done|].
  assert (forall e, e ∈ fs -> int_cmp (compile_of e).1 (lane (data_of Path (cat_of t col)) (Z.of_nat i)) (compile_of e).2 =
    accepted enum_key like (MkEnv [] (scan_row t s r)) e) as H.
  { intros e He. pose proof (proj1 (list.Forall_forall _ _) Hfs e He) as Hsf.
    destruct (lane_value col i r Hcol Hi (sf_type _ _ _ Hsf)) as [Hvt Hl]. unfold lane. rewrite Hl. symmetry.
    eapply accepted_filter; [exact Hsf| |done|apply Hnull; [done|by eapply list_elem_of_lookup_2]].
    apply vec_at_nat. rewrite scan_row_lookup. by rewrite <- (Nat.add_0_r k), (Hpos 0%nat col eq_refl). }
  clear -H. induction fs as [|e fs IH]; [done|]. rewrite fmap_cons. cbn [forallb]. rewrite (H e) by (by left). f_equal. apply IH. intros; apply H. by right.
Qed.
End Checks.

Lemma emit_filter {A B} (P : Z -> bool) (emit : Z -> B) (acc : A -> bool) (out : A -> B) (rows : list A) :
  (forall i r, rows !! i = Some r -> P (Z.of_nat i) = acc r /\ emit (Z.of_nat i) = out r) ->
  emit <$> filter (fun i => P i) (seqZ 0 (vec_size rows)) = rows ≫= (fun r => if acc r then [out r] else []).
Proof.
  intros H. assert (forall l k, (forall i r, l !! i = Some r -> rows !! (k + i)%nat = Some r) ->
    emit <$> filter (fun i => P i) (seqZ (Z.of_nat k) (vec_size l)) = l ≫= (fun r => if acc r then [out r] else [])) as Hl.
  { induction l as [|r l IH]; intros k Hk; [done|]. unfold vec_size. cbn [length]. rewrite seqZ_cons by lia.
    replace (Z.succ (Z.of_nat k)) with (Z.of_nat (S k)) by lia.
    replace (Z.pred (Z.of_nat (S (length l)))) with (vec_size l) by (unfold vec_size; lia).
    destruct (H k r) as [HP He]; [rewrite <- (Hk 0%nat r eq_refl); f_equal; lia|].
    rewrite filter_cons, HP, bind_cons. rewrite <- (IH (S k)) by (intros i x Hi; rewrite <- (Hk (S i) x Hi); f_equal; lia).
    destruct (acc r); case_decide as Hd; try done. by rewrite fmap_cons, He. }
  apply (Hl rows 0%nat). intros i r Hi. exact Hi.
Qed.

(** C18. A vectorised scan with a conjunction of filters emits what the scan with the same
    filters emits, row by row and in the order of the table: masks, permutations, the
    buffer of 64 positions with its overflow check and the scalar tail of every chunk
    together select exactly the rows all filters accept.  The columns with filters
    hold no nulls ([simd_enum_nulls] shows what happens otherwise), and enums are
    compared for equality. *)
Theorem simd_scan_select_correct enum_key like table_rows Path NullPath t s scan_schema filters :
  table_stored Path NullPath t (table_rows t) -> scan_schema_ok t scan_schema -> vec_size (table_rows t) <= 2 ^ 31 - CHUNK_SIZE ->
  filters_ok t 0 (columns scan_schema) filters -> no_nulls t (table_rows t) (columns scan_schema) filters -> mjoin filters <> [] ->
  (forall r, r ∈ table_rows t -> Forall (column_ok (MkEnv [] (scan_row t scan_schema r))) (exprs s)) ->
  simd_scan_select enum_key like Path NullPath s scan_schema t filters true =
  Ok (denote enum_key like table_rows (ScanSelectOperator s scan_schema t (mjoin filters))).
Proof.
  intros Hst Hs Hn Hf Hnn Hne Hok. unfold simd_scan_select. rewrite GenerateBuffer_ok by apply Hs. cbn [mbind Res_bind].
  destruct (filter_columns_ok Path t 0 _ _ Hf) as (cols & comp & -> & Hcomp & Hz). cbn [mbind Res_bind]. rewrite Hcomp. cbn [mbind Res_bind].
  rewrite Hz. set (checks := checks_of Path t (columns scan_schema) filters).
  assert (~ Forall (fun c : Check => c.2 = []) checks) as Hsome.
  { intros H. apply Hne. unfold checks in H. clear -Hf H. induction Hf as [|k col cols fs filters _ _ _ IH]; [done|].
    cbn [checks_of zip_with] in H. apply list.Forall_cons in H as [H1 H2]. cbn in H1. destruct fs; [|done]. cbn. by apply IH. }
  destruct (forallb _ checks) eqn:Efb.
  { destruct Hsome. apply list.Forall_forall. intros c Hc. eapply forallb_elem in Efb; [|exact Hc]. by apply bool_decide_eq_true in Efb. }
  rewrite (Buffer_Size_ok Path NullPath t (table_rows t)) by done. cbn [mbind Res_bind].
  set (rows := table_rows t) in *. set (b := buffer_of Path NullPath t scan_schema).
  pose proof (checks_ok Path NullPath t rows Hst 0 _ _ Hf) as Hchecks. fold checks in Hchecks.
  set (emit := fun i : Z => match rows !! Z.to_nat i with Some r => output enum_key like (MkEnv [] (scan_row t scan_schema r)) s | None => [] end).
  destruct (static_invariant (fun st start end_ => simd_body enum_key like (tuple_fuel start end_) true checks b s st start end_)
    (fun next st => st.1 = (emit <$> passing checks 0 next) /\ length st.2 = 64%nat) ([], replicate (Z.to_nat BUFFER_SIZE) 0) (vec_size rows))
    as ([out buffer] & Hrun & Hout & _).
  - unfold vec_size in *. lia.
  - done.
  - intros st a e Ha He [Hst1 Hl].
    destruct (simd_body_ok (vec_size rows) checks Hchecks Hn Hsome enum_key like b s emit) with (fuel := tuple_fuel a e) (end_ := e) (st := st) (i := a)
      as (buffer & Hbody & Hl'); try lia.
    + intros i Hi. unfold vec_size in Hi. destruct (lookup_lt_is_Some_2 rows (Z.to_nat i)) as [r Hr]; [lia|].
      exists (scan_row t scan_schema r). split.
      * rewrite <- (Z2Nat.id i) by lia. by apply (Buffer_row_ok Path NullPath t rows).
      * unfold emit. rewrite Hr. apply compute_columns_ok, Hok. by eapply list_elem_of_lookup_2.
    + unfold tuple_fuel. lia.
    + exists (st.1 ++ (emit <$> passing checks a (e - a + 1)), buffer). split; [exact Hbody|]. cbn [fst snd]. split; [|done].
      rewrite Hst1, <- fmap_app. f_equal. replace (e + 1) with (a + (e - a + 1)) by lia. by rewrite (passing_app checks 0 a) by lia.
  - rewrite Hrun. cbn [mbind Res_bind]. f_equal. cbn [fst] in Hout. rewrite Hout. cbn [denote]. rewrite list_fmap_bind.
    apply emit_filter. intros i r Hi. change (rows !! i = Some r) in Hi. unfold emit. rewrite Nat2Z.id, Hi. split; [|done].
    apply (passes_accepted Path NullPath t rows Hst scan_schema enum_key like 0); done.
Qed.

(** ** Examples *)
Module SimdDemo.
Definition file (r : Res (list Z)) : list Z := match r with Ok f => f | _ => [] end.
Definition no_keys (_ _ : Z) : list Z := [].
Definition never (_ _ : list Z) : bool := false.
Definition schema_of (t : SqlType) (nullable : bool) : OperatorSchema :=
  AddDerivedColumn OperatorSchema_new "x" (ColumnRefExpr t nullable 0 0).
Definition out_of (t : SqlType) (nullable : bool) : OperatorSchema :=
  AddDerivedColumn OperatorSchema_new "x" (VirtualColumnRefExpr t nullable 0).
Definition against (op : BinaryOp) (t : SqlType) (nullable : bool) (v : IRValue) : Expression :=
  BinaryArithmeticExpr op (VirtualColumnRefExpr t nullable 0) (LiteralExpr v false).

(** One column of numbers. *)
Definition int_type : SqlType := MkType INT 0.
Definition numbers : Table := MkTable "numbers" [MkCatCol "x" int_type false].
Definition number_rows (xs : list Z) (_ : Table) : list row := (fun x => [MkSQL (VInt32 x) false]) <$> xs.
Definition number_file (xs : list Z) (_ : CatalogColumn) : list Z := file (Serialize 4 [] xs).

Lemma numbers_stored xs : xs <> [] -> vec_size xs < 2 ^ 31 -> Forall (is_sw 32) xs ->
  table_stored (number_file xs) (fun _ => []) numbers (number_rows xs numbers).
Proof.
  intros Hne Hn Hxs. apply written_stored; [unfold number_rows, vec_size in *; by rewrite length_fmap|].
  intros j c Hj. destruct j as [|j]; [|done]. injection Hj as <-. exists ((fun x => MkSQL (VInt32 x) false) <$> xs). split_and!; [| |done].
  - unfold number_rows. apply Forall2_fmap. clear. induction xs; by repeat constructor.
  - unfold values_written. rewrite decide_False by done. exists xs. split_and!; [by rewrite <- list_fmap_compose|done|].
    unfold number_file. destruct (Serialize_holds 4 [] xs) as (f & Hf & _); [|by rewrite Hf].
    unfold column_length, vec_size. destruct xs; [done|]. cbn. lia.
Qed.

Definition between : list (list Expression) :=
  [[against OpGT int_type false (VInt32 3); against OpLEQ int_type false (VInt32 17)]].

Lemma simd_scan_select_correct_witness :
  simd_scan_select no_keys never (number_file (seqZ 0 40)) (fun _ => []) (out_of int_type false) (schema_of int_type false) numbers between true =
  Ok (number_rows (seqZ 4 14) numbers).
Proof.
  apply (simd_scan_select_correct no_keys never (number_rows (seqZ 0 40)) (number_file (seqZ 0 40)) (fun _ => []) numbers
    (out_of int_type false) (schema_of int_type false) between).
  - apply numbers_stored; [done|done|]. repeat constructor; cbn; lia.
  - split; [done|]. repeat constructor. by exists 0%nat, (MkCatCol "x" int_type false).
  - vm_compute. discriminate.
  - repeat constructor; try (by exists 0%nat, (MkCatCol "x" int_type false)); try done.
    + eexists _, _, _. split_and!; [done|done|done| |done]. unfold is_sw. cbn. lia.
    + eexists _, _, _. split_and!; [done|done|done| |done]. unfold is_sw. cbn. lia.
  - constructor; [|constructor]. intros _ r Hr. unfold number_rows in Hr. by apply list_elem_of_fmap in Hr as (x & -> & _).
  - done.
  - intros r Hr. unfold number_rows in Hr. apply list_elem_of_fmap in Hr as (x & -> & _). repeat constructor; cbn; eauto.
    eexists. split; [done|]. done.
Defined.

(** The scalar loop at the end of a chunk takes filters for a conjunction whatever the
    operator says: of ten rows that satisfy a disjunction, the last two are lost. *)
Definition either : list (list Expression) :=
  [[against OpEQ int_type false (VInt32 1); against OpEQ int_type false (VInt32 2)]].
Lemma simd_disjunction_tail : let xs := [1; 2; 1; 2; 1; 2; 1; 2; 1; 2] in
  simd_scan_select no_keys never (number_file xs) (fun _ => []) (out_of int_type false) (schema_of int_type false) numbers either false =
  Ok (number_rows (take 8 xs) numbers).
Proof. vm_compute. reflexivity. Qed.

(** A nullable column of an enum is admitted, with the numbers of the nulls: a null,
    stored as -1, is unequal to every constant. *)
Definition colour : SqlType := MkType ENUM 7.
Definition colours : Table := MkTable "colours" [MkCatCol "x" colour true].
Lemma simd_enum_nulls :
  simd_scan_select no_keys never (number_file [0; -1; 1]) (fun _ => file (Serialize 1 [] [0; 1; 0]))
    (out_of colour true) (schema_of colour true) colours [[against OpNEQ colour true (VEnum 7 0)]] true =
    Ok [[MkSQL (VEnum 7 (-1)) true]; [MkSQL (VEnum 7 1) false]] /\
  scan_select no_keys never (number_file [0; -1; 1]) (fun _ => file (Serialize 1 [] [0; 1; 0]))
    (out_of colour true) (schema_of colour true) colours [against OpNEQ colour true (VEnum 7 0)] =
    Ok [[MkSQL (VEnum 7 1) false]].
Proof. split; vm_compute; reflexivity. Qed.

(** Without filters there is no mask. *)
Lemma simd_no_filters :
  simd_scan_select no_keys never (number_file [1]) (fun _ => []) (out_of int_type false) (schema_of int_type false) numbers [[]] true =
  Throw "bad_optional_access".
Proof. vm_compute. reflexivity. Qed.
End SimdDemo.
