(* ===== verification/Aggregate.v ===== *)
(** * Aggregation without groups

    [AggregateTranslator] of src/compile/translators/aggregate_translator.cc: one
    pipeline keeps the aggregates of all rows in a struct, the next emits one row.  It
    computes what the plan says; the row of an empty input is null in all columns, the
    counts too. *)
From Stdlib Require Import SpecFloat.
From stdpp Require Import gmap strings.
From S2P Require Import Prelude ProgramBuilder SqlValue Struct Aggregator Expression Vector RowBuffer Joins Plan Pipeline AggregateHashTable PayloadLayout AggregateProbe GroupBy Scan.
#[local] Open Scope Z_scope.

(** ** The model *)
Section Model.
Context (enum_key : Z -> Z -> list Z) (like : list Z -> list Z -> bool) (uninit : SqlType -> Cell).

(** [AggregateExpression] of a plan. *)
Definition agg_expr (agg : AggregateType * Expression) : Res AggregateExpression :=
  t ← Type_ agg.2; AggregateExpression_new agg.1 t.

(** [empty_value_] and the struct [value_]. *)
Definition AggregateState : Type := Z * Struct.

(** [Consume]: the aggregators compute their arguments over the row. *)
Definition aggregate_consume (f : StructBuilder) (aggregators : list Aggregator) (args : list Expression)
    (st : AggregateState) (r : row) : Res AggregateState :=
  let '(empty_value, value) := st in
  vs ← compute_columns enum_key like (row_env r) args;
  if empty_value =? 0 then
    value ← run_aggs (Initialize f) (zip aggregators vs) value; Ok (1, value)
  else
    value ← run_aggs (Update enum_key f) (zip aggregators vs) value; Ok (empty_value, value).

(** [SchemaValues::PopulateWithNull] *)
Definition PopulateWithNull (s : OperatorSchema) : Res row :=
  mapM (fun c => t ← Type_ (col_expr c); Ok (MkSQL (null_value t) true)) (columns s).

(** The body of the output pipeline. *)
Definition aggregate_body (f : StructBuilder) (aggregators : list Aggregator) (s : OperatorSchema) (st : AggregateState) : Res row :=
  let '(empty_value, value) := st in
  if empty_value =? 0 then PopulateWithNull s
  else
    virtual_values ← mapM (fun agg => Agg_Get f agg value) aggregators;
    compute_columns enum_key like (MkEnv [] virtual_values) (exprs s).

(** [Produce]: the input pipeline stores 0 in [empty_value_] and consumes the rows of
    the child. *)
Definition aggregate (s : OperatorSchema) (agg_exprs : list (AggregateType * Expression)) (rows : list row) : Res (list row) :=
  es ← mapM agg_expr agg_exprs;
  let '(f, aggregators) := add_aggs StructBuilder_new es in
  st ← foldM (aggregate_consume f aggregators agg_exprs.*2) (0, fresh uninit f) rows;
  out ← aggregate_body f aggregators s st;
  Ok [out].
End Model.

(** ** The aggregates of all rows *)
Lemma agg_values_states enum_key ks first rest : length first = length ks -> Forall (fun r : row => length r = length ks) rest ->
  as_value <$> states_of enum_key ks (first :: rest) = agg_values enum_key ks first rest.
Proof.
  intros Hf Hr. unfold agg_values. apply list_eq. intros j. rewrite list_lookup_fmap, list_lookup_imap.
  destruct (ks !! j) as [k|] eqn:Ek.
  - assert (j < length ks)%nat as Hj by (by eapply lookup_lt_Some).
    destruct (lookup_lt_is_Some_2 first j) as [v Hv]; [lia|].
    rewrite (states_column enum_key ks k j first v rest ((fun r => default absent (r !! j)) <$> rest)); [|done|done|].
    + cbn. by rewrite Hv.
    + clear -Hr Hj. induction Hr as [|r rest Hl _ IH]; constructor; [|exact IH].
      destruct (lookup_lt_is_Some_2 r j) as [w Hw]; [lia|]. by rewrite Hw.
  - assert (length (states_of enum_key ks (first :: rest)) <= length ks)%nat as Hl; [|by rewrite lookup_ge_None_2 by (apply lookup_ge_None_1 in Ek; lia)].
    unfold states_of. assert (length (init_states ks first) <= length ks)%nat as H0 by (unfold init_states; rewrite length_zip_with; lia).
    revert H0. generalize (init_states ks first). clear. induction rest as [|r rest IH]; intros ss H0; [done|]. cbn [foldl]. apply IH.
    unfold step_states. rewrite length_zip_with, length_zip. lia.
Qed.

Section Correct.
Context (enum_key : Z -> Z -> list Z) (like : list Z -> list Z -> bool) (uninit : SqlType -> Cell).
Context (f : StructBuilder) (aggs : list Aggregator) (args : list Expression).
Context (Hok : Forall (agg_ok f) aggs) (Hnd : NoDup (mjoin (ag_fields <$> aggs))).
Context (Huninit : Forall (fun t => ir_type (cell_value (uninit t)) = t) (sb_types f)).

#[local] Abbreviation arg_row := (fun r => column_values enum_key like (row_env r) args).

Definition row_good (r : row) : Prop := Forall (column_ok (row_env r)) args /\ args_fit aggs (arg_row r).

(** The struct holds the states of the rows so far. *)
Record aggregated (st : AggregateState) (rows : list row) : Prop := {
  agd_empty : st.1 = if decide (rows = []) then 0 else 1;
  agd_struct : struct_ok f st.2;
  agd_holds : rows <> [] -> Forall2 (fun a s => agg_holds f a st.2 s) aggs (states_of enum_key (kinds aggs) (arg_row <$> rows));
  agd_states : rows <> [] -> Forall2 state_ok aggs (states_of enum_key (kinds aggs) (arg_row <$> rows));
}.

Lemma consume_ok st rows r : aggregated st rows -> row_good r ->
  exists st', aggregate_consume enum_key like f aggs args st r = Ok st' /\ aggregated st' (rows ++ [r]).
Proof using Hok Hnd.
  intros [He Hs Hh Hst] [Hc Hfit]. destruct st as [e value]. cbn [fst snd] in *. unfold aggregate_consume.
  rewrite compute_columns_ok by done. cbn [mbind Res_bind]. destruct (decide (rows = [])) as [->|Hne]; subst e.
  - cbn [Z.eqb]. destruct (run_Initialize_ok f aggs value _ Hok Hnd Hs Hfit) as (st' & -> & Hs' & Hh' & Hst' & _).
    cbn [mbind Res_bind]. exists (1, st'). split; [done|]. split; cbn [fst snd]; done.
  - change (1 =? 0) with false. cbn iota.
    destruct (run_Update_ok enum_key f aggs value _ _ Hok Hnd Hs Hfit (Hh Hne) (Hst Hne)) as (st' & -> & Hs' & Hh' & Hst' & _).
    cbn [mbind Res_bind]. exists (1, st'). split; [done|].
    assert (arg_row <$> rows <> []) as Hne' by (by destruct rows).
    split; cbn [fst snd]; rewrite ?fmap_app, ?fmap_cons, ?fmap_nil, ?states_snoc by done; try done. by destruct rows.
Qed.

Lemma consume_all rows : Forall row_good rows ->
  exists st, foldM (aggregate_consume enum_key like f aggs args) (0, fresh uninit f) rows = Ok st /\ aggregated st rows.
Proof using Hok Hnd Huninit.
  induction rows as [|r rows IH] using rev_ind; intros Hr.
  - exists (0, fresh uninit f). split; [done|]. split; cbn [fst snd]; try done. by apply fresh_ok.
  - apply List.Forall_app in Hr as [Hrs Hr]. apply list.Forall_cons in Hr as [Hr _]. destruct (IH Hrs) as (st & Hst & Ha).
    destruct (consume_ok st rows r Ha Hr) as (st' & Hc & Ha'). exists st'. split; [|done].
    rewrite foldM_app, Hst. cbn [mbind Res_bind foldM]. by rewrite Hc.
Qed.

Lemma get_all value ss : Forall2 (fun a s => agg_holds f a value s) aggs ss ->
  exists vs, mapM (fun agg => Agg_Get f agg value) aggs = Ok vs /\ Forall2 sql_equiv vs (as_value <$> ss).
Proof.
  clear Hok Hnd. induction 1 as [|a s l ss [(v & Hv & He) _] _ (vs & Hm & Hvs)]; [by exists []|]. exists (v :: vs). cbn [mapM].
  assert (Agg_Get f a value = Ok v) as -> by done. cbn [mbind Res_bind]. rewrite Hm. split; [done|]. by constructor.
Qed.
End Correct.

Lemma populate_null s : Forall (fun e => exists t, Type_ e = Ok t) (exprs s) -> PopulateWithNull s = Ok (null_row s).
Proof.
  unfold PopulateWithNull, null_row, exprs. induction (columns s) as [|c cols IH]; intros H; [done|].
  rewrite fmap_cons in H. apply list.Forall_cons in H as [[t Ht] H]. cbn [mapM]. rewrite Ht. cbn [mbind Res_bind]. rewrite IH by done.
  rewrite !fmap_cons. by rewrite Ht.
Qed.

(** ** Correctness *)

(** The columns over the aggregates, whatever values they take. *)
Definition aggregate_output_ok (s : OperatorSchema) (es : list AggregateExpression) : Prop :=
  forall vals, Forall2 (fun e v => fits (ae_type e) (ae_nullable e) v) es vals -> Forall (column_ok (MkEnv [] vals)) (exprs s).

Lemma add_aggs_new es : Forall expr_ok es -> let '(f, aggs) := add_aggs StructBuilder_new es in
  ag_expr <$> aggs = es /\ Forall (agg_ok f) aggs /\ NoDup (mjoin (ag_fields <$> aggs)).
Proof.
  intros He. pose proof (add_aggs_ok es StructBuilder_new eq_refl He) as H. destruct (add_aggs StructBuilder_new es) as [f aggs].
  by destruct H as (? & _ & ? & ? & _).
Qed.

(** C19. Aggregation without groups computes what the plan says: the struct in which all
    rows are accumulated holds their sums, averages, counts and extrema, and the one
    row of output is computed from them; an input without rows gives the row of
    nulls. *)
Theorem aggregate_correct enum_key like uninit table_rows s child agg_exprs es :
  let rows := denote enum_key like table_rows child in
  mapM agg_expr agg_exprs = Ok es ->
  Forall (fun t => ir_type (cell_value (uninit t)) = t) (sb_types (add_aggs StructBuilder_new es).1) ->
  Forall (fun r => Forall (column_ok (row_env r)) agg_exprs.*2 /\
    Forall2 (fun e v => sv_type v = ae_child e) es (column_values enum_key like (row_env r) agg_exprs.*2)) rows ->
  Forall (fun e => exists t, Type_ e = Ok t) (exprs s) -> aggregate_output_ok s es ->
  exists out, aggregate enum_key like uninit s agg_exprs rows = Ok out /\
    rows_equiv out (denote enum_key like table_rows (AggregateOperator s child agg_exprs)).
Proof.
  intros rows Hes Hun Hrows Hty Hout. cbn [denote]. fold rows.
  assert (Forall expr_ok es /\ ae_kind <$> es = agg_exprs.*1) as [Hexpr Hkinds].
  { clear -Hes. revert es Hes. induction agg_exprs as [|[k e] l IH]; intros es Hes; cbn [mapM] in Hes; ok_inv; [subst; by split|].
    match goal with H : agg_expr _ = Ok ?a, H2 : mapM _ _ = Ok ?b |- _ => rename H into Ha, H2 into Hm end. subst es.
    destruct (IH _ Hm) as [IH1 IH2]. unfold agg_expr in Ha. cbn [fst snd] in Ha. ok_inv.
    unfold AggregateExpression_new in Ha. ok_inv. subst. split; [constructor; [|done]|].
    - unfold expr_ok. unfold AggregateExpression_new. cbn [ae_kind ae_child]. match goal with H : CalculateAggTypeId _ _ = _ |- _ => by rewrite H end.
    - rewrite !fmap_cons. cbn [ae_kind fst]. by f_equal. }
  unfold aggregate. rewrite Hes. cbn [mbind Res_bind]. pose proof (add_aggs_new es Hexpr) as Hagg.
  destruct (add_aggs StructBuilder_new es) as [f aggs]. destruct Hagg as (Hae & Hok & Hnd). cbn [fst] in Hun.
  assert (kinds aggs = agg_exprs.*1) as Hk by (rewrite <- Hkinds, <- Hae; unfold kinds, ag_kind; by rewrite <- list_fmap_compose).
  destruct (consume_all enum_key like uninit f aggs agg_exprs.*2 Hok Hnd Hun rows) as ([e value] & -> & [Hemp Hst Hh Hs]).
  { eapply list.Forall_impl; [exact Hrows|]. intros r [Hc Ha]. split; [done|]. unfold args_fit. rewrite <- Hae in Ha. by apply Forall2_fmap_l in Ha. }
  cbn [mbind Res_bind fst snd] in *. unfold aggregate_body. destruct rows as [|r rows'] eqn:Er.
  { subst e. cbn [decide Z.eqb]. rewrite populate_null by done. cbn [mbind Res_bind fmap list_fmap].
    eexists. split; [done|]. constructor; [|constructor]. done. }
  rewrite decide_False in Hemp by done. subst e. change (1 =? 0) with false. cbn iota.
  specialize (Hh ltac:(done)). specialize (Hs ltac:(done)). rewrite fmap_cons in Hh, Hs |- *.
  destruct (get_all f aggs value _ Hh) as (vals & -> & Hvals). cbn [mbind Res_bind].
  set (args := (fun r => column_values enum_key like (row_env r) agg_exprs.*2) <$> rows') in *.
  assert (as_value <$> states_of enum_key (kinds aggs) (column_values enum_key like (row_env r) agg_exprs.*2 :: args) =
    agg_values enum_key agg_exprs.*1 (column_values enum_key like (row_env r) agg_exprs.*2) args) as Hav.
  { rewrite Hk. apply agg_values_states; [by unfold column_values; rewrite !length_fmap|].
    unfold args. apply list.Forall_fmap. apply list.Forall_true. intros x. unfold compose, column_values. by rewrite !length_fmap. }
  rewrite Hav in Hvals.
  assert (Forall (column_ok (MkEnv [] (agg_values enum_key agg_exprs.*1 (column_values enum_key like (row_env r) agg_exprs.*2) args))) (exprs s)) as Hcols.
  { apply Hout. rewrite <- Hav, <- Hae. apply Forall2_fmap. clear -Hs. induction Hs as [|a x l ss [H1 H2] _ IH]; constructor; [by split|done]. }
  assert (env_equiv (MkEnv [] (agg_values enum_key agg_exprs.*1 (column_values enum_key like (row_env r) agg_exprs.*2) args)) (MkEnv [] vals)) as Heq.
  { split; [constructor|]. cbn. by symmetry. }
  rewrite compute_columns_ok by (by eapply column_ok_equiv). cbn [mbind Res_bind]. eexists. split; [done|].
  constructor; [|constructor]. symmetry. by apply column_values_equiv.
Qed.

(** ** An example *)
Module AggregateOpDemo.
Definition int_type : SqlType := MkType INT 0.
Definition demo_uninit (t : SqlType) : Cell := MkCell (null_value t) false.
Definition x : CatalogColumn := MkCatCol "x" int_type true.
Definition demo : Table := MkTable "demo" [x].
Definition scan_schema : OperatorSchema := AddGeneratedColumns OperatorSchema_new demo.
Definition no_keys (_ _ : Z) : list Z := [].
Definition never (_ _ : list Z) : bool := false.
Definition int (z : Z) : row := [MkSQL (VInt32 z) false].
Definition null : row := [MkSQL (VInt32 0) true].
Definition demo_rows (_ : Table) : list row := [int 4; null; int 9].
Definition aggs : list (AggregateType * Expression) :=
  [(SUM, ColumnRefExpr int_type true 0 0); (COUNT, ColumnRefExpr int_type true 0 0)].
Definition schema : OperatorSchema :=
  AddDerivedColumn (AddDerivedColumn OperatorSchema_new "sum" (VirtualColumnRefExpr int_type true 0))
    "count" (VirtualColumnRefExpr (MkType BIGINT 0) false 1).
Definition es : list AggregateExpression :=
  [MkAggExpr SUM int_type int_type true; MkAggExpr COUNT int_type (MkType BIGINT 0) false].

Lemma aggregate_correct_witness :
  exists out, aggregate no_keys never demo_uninit schema aggs (denote no_keys never demo_rows (ScanOperator scan_schema demo)) = Ok out /\
    rows_equiv out [[MkSQL (VInt32 13) false; MkSQL (VInt64 2) false]].
Proof.
  apply (aggregate_correct no_keys never demo_uninit demo_rows schema (ScanOperator scan_schema demo) aggs es).
  - reflexivity.
  - repeat constructor.
  - assert (forall r, r ∈ demo_rows demo -> exists v, r = [v] /\ fits int_type true v) as H.
    { intros r Hr. repeat (apply elem_of_cons in Hr as [->|Hr]; [by eexists|]). by apply elem_of_nil in Hr. }
    apply list.Forall_forall. intros r Hr. change (r ∈ demo_rows demo) in Hr. destruct (H r Hr) as (v & -> & [Hv _]).
    split; repeat constructor; cbn; try done; eauto; eexists _, _; done.
  - repeat constructor; by eexists.
  - intros vals Hv. unfold aggregate_output_ok in *. apply Forall2_cons_inv_l in Hv as (v & l & Hv & Hl & ->).
    apply Forall2_cons_inv_l in Hl as (w & l' & Hw & Hl & ->). repeat constructor; cbn; eauto.
Defined.

(** The count of no rows is null, although the expression is declared not to be. *)
Lemma count_of_nothing : aggregate no_keys never demo_uninit schema aggs [] =
  Ok [[MkSQL (VInt32 0) true; MkSQL (VInt64 0) true]].
Proof. vm_compute. reflexivity. Qed.
End AggregateOpDemo.
